(* ===== verification/_CoqProject ===== *)
-Q . S2P
Prelude.v
Version.v
Ids.v
Uptime.v
Network.v
Households.v
Target.v
Path.v
Policy.v
Conflict.v
Crypto.v
Nodeset.v
Oplog.v
Chunker.v
Blob.v
IndexState.v
Repair.v
Summary.v
Vault.v
VaultAccounts.v
VaultMarks.v
VaultChains.v
ShortQueue.v
Files.v
Log.v
Ledger.v
Rings.v
Index.v
Folder.v
Reconcile.v
Accounting.v
Reach.v
Limits.v
Beacon.v
Pledges.v
Release.v
Claims.v
Directory.v
DirectoryOk.v
Membership.v
Service.v
Answers.v
Wire.v
Pack.v
PackOk.v
PackRuns.v
Evidence.v
Store.v
Placement.v
ClaimBook.v
Peer.v
Serving.v
Pledge.v
Lending.v
Desk.v
StoreFolder.v
Engine.v
Catalogue.v
Converge.v
Client.v
Session.v
Conduct.v
Hosting.v
Rounds.v
Keeping.v
Contact.v
ContactOk.v
ContactRuns.v
Coordinator.v
Daemon.v
