(* ===== verification/Prelude.v ===== *)
(** * A verification of ITSaNAS

    ITSaNAS is peer-to-peer storage: each account's files live on the devices
    of its owner and, sealed, on the disks of other members.  This library
    models the parts of [src/crates] that decide what is kept, what is deleted
    and what two devices end up with, and proves what makes them correct.

    ** The program and the files that model it

    A _device store_ ([itsanas-store/store.rs]) keeps the owner's files: it
    cuts them into chunks ([chunker.rs]), seals each under a key derived from
    its content ([itsanas-crypto]), writes the sealed bytes to a blob
    directory ([blob.rs]), records the file in an index ([index.rs]) and an
    operation in a signed log ([oplog.rs]).  A _folder_ ([itsanas-folder])
    mirrors a directory into a store.  The _sync engine_ ([itsanas-sync])
    replays other devices' logs into the store.  A _vault_ ([vault.rs]) holds
    other members' chunks and logs.  _Placement_ ([itsanas-placement]) decides
    who should hold what, from the contact history and the holder ledger the
    index keeps.  _Policy_ ([itsanas-policy]) decides when to work and which
    files a small device keeps.  A _coordinator_ ([itsanas-coord]) introduces
    devices to each other: it keeps names, device claims, addresses and escrowed
    keys, and counts what members owe.  Messages travel as the frames of
    [itsanas-wire].

    - [Prelude] (this file): results and the state monad, machine-width
      arithmetic, byte and decimal encodings, ordered maps as [redb] tables and
      [BTreeMap]s are read, a stable sort, sums over maps, trimming of texts, the
      tactics and the hint database [its].
    - [Version] (version.rs), [Ids] (ids.rs, error.rs), [Path] (path.rs),
      [Conflict] (sync/conflict.rs): version vectors, identifiers, the grammar
      of logical paths, who wins a conflict and what the loser is called.
    - [Crypto] (seal.rs, kdf.rs, identity.rs): sealing and signing over the
      class [Primitives] of third-party primitives, with the class
      [PrimitiveLaws] of what is relied on; [Toy] instantiates both.
    - [Oplog] (oplog.rs): entries, segments, chain validation; postcard is the
      class [BodyCodec].
    - [Chunker] (chunker.rs and its modules): both cuts at machine width, the
      splitter and the streaming splitter.
    - [Uptime], [Network] (placement/uptime.rs, liveness.rs, network.rs),
      [Households], [Target] (target.rs, release.rs, spreading.rs), [Nodeset]
      (nodeset.rs, roster.rs), [Repair] (repair.rs): contact rings, networks,
      the goal for a chunk and what to add or release, rendezvous placement,
      repair plans.
    - [IndexState] (the tables of index.rs), [Files], [Log], [Ledger],
      [ShortQueue], [Rings], [Summary]: the index's operations by group;
      [Index]: the steps of the whole index and its invariant; [Evidence]: what
      the ledger's questions answer.
    - [Pack] (pack.rs), [PackOk], [PackRuns]: chunks appended to pack files and
      found through an index, with failed writes, restarts and compaction, and
      their refinement of the blob map.
    - [Accounting] (coord/accounting.rs), [Claims] (claim.rs, invitation.rs,
      error.rs), [Directory] (directory.rs) with [DirectoryOk] and [Membership],
      [Service] (service.rs, protocol.rs, the request loop of server.rs) with
      [Answers]: the coordinator, its tables, its invariant, and what every
      request may change.
    - [Wire] (wire/wire.rs, stream.rs): frames and their reassembly.
    - [Placement] (net/placement.rs): the roster of a round, the evaluation of a
      chunk, the census and the choice of a copy to release.
    - [ClaimBook] (node/owners.rs), [Peer] (net/service.rs, protocol.rs): what a
      node answers another, request by request, over its store, its vault, its
      book of claims and the round's placement; the book implements the class
      [Owners].  [Serving], [Pledge] and [Lending]: runs of requests.
    - [Client] (net/transport.rs, error.rs), [Session] (session.rs, placed.rs):
      the calling side, against an arbitrary peer; [Rounds] and [Hosting]: what
      such a peer can and cannot do to this device.
    - [Conduct]: what a push and an audit may change; [Keeping]
      (node/keeping.rs): the round of a device that keeps only part of its files,
      with [Catalogue] (store/catalogue.rs), the listing of an account.
    - [Blob] (blob.rs), [Store] (store.rs), [Engine] (sync/engine.rs,
      source.rs), [Converge]: the store, one round of synchronisation, and what
      any number of rounds leads to.
    - [Vault] (vault.rs) with [VaultAccounts], [VaultMarks], [VaultChains]: the
      host's side, and its invariants over every interleaving of operations,
      crashes, torn writes and lost files.
    - [Folder] (folder/decision.rs, scan.rs, lib.rs), [Reconcile] and
      [StoreFolder]: a pass over a directory, written and proved against the
      classes [FileStore] and [FileStoreLaws], which [StoreFolder] discharges
      with the store of [Store].
    - [Policy] (policy/lib.rs, keeping.rs).
    - [Reach] (tls/reach.rs), [Limits] (tls/limits.rs): which addresses work from
      where, and how many connections a listener serves; [Beacon]
      (discover/beacon.rs, neighbours.rs): what is heard on the local network;
      [Desk] (net/relay.rs, the relay of transport.rs): the machines parked on a
      relay and the splices it carries.
    - [Contact] (node/contact.rs) with [ContactOk] and [ContactRuns]: when a node
      asks its coordinator and where it looks for its other machines; [Coordinator]
      (node/coordinator.rs): what it asks and what it believes of the answers,
      against any coordinator; [Daemon] (two functions of cli/daemon.rs): a
      round's word with it; [Pledges]
      (node/pledges.rs, parts of node.rs and of the command line): what several
      nodes on one disk may promise.
    - [Release] (release/lib.rs): versions, the signed manifest of a release and
      the checks a download passes.

    ** How state and effects are modelled

    A database is a record with one field per table, a table a [gmap] read in
    key order ([btree_iter]); a transaction is one function on the record.
    Fallible code returns [result]; code that changes state and may stop half
    way is in the monad [M], so an error keeps the state it left.  Integers are
    [N] with the saturation, wrap-around or checked step the source has.  What
    the operating system draws (clock, nonces, identifiers, modification times,
    how a reader delivers a file) and what a peer answers are arguments.
    Operations that the source runs under one lock are one step.  So are some it
    runs under none: adopting an entry, accepting a chunk, flushing and collecting
    garbage in the store, and a hosting round over its vault; what another thread
    does in the middle of one of these is not modelled.  What can
    happen between steps, a crash included, is a rule of an inductive relation
    ([Index.index_reachable], [VaultAccounts.vault_reachable]) or an arbitrary function.

    ** What the theorems show

    - _Synchronisation_: one log entry does what the documented table says;
      rivals that nothing stands in the way of converge whatever the order, the
      greatest author's version at the path and the others beside it; a round never
      leaves a file without its chunks and accounts for every entry.  Where a later
      edit settles one side of a conflict, and where a deleted copy is served again,
      the documented order-independence and idempotence fail.
    - _The store_: what is written is read back; a refused write leaves
      nothing; budgets bind; releasing and collecting never take a chunk that
      is needed; a peer's bytes are stored only when genuine; the log stays a
      valid chain.
    - _The index_: every reachable index has exact reference counts and byte
      totals, a ledger whose two orderings agree, a log without holes, and
      rings that agree with the history.
    - _The vault_: the figure the pledge is checked against never undercounts
      what is on disk; opening after a crash rebuilds it; eviction takes only
      marked, unexpired chunks; a served chain has no holes.
    - _The folder_: only files this device had are deleted from the account; a local
      edit stays, was recorded or is moved aside, unless a conflict name is taken
      already, and then it can be lost; a clean pass leaves disk, store and ledger
      in agreement; an unmounted disk deletes nothing.
    - _Placement_: the count of independent households is the number of
      classes of the sharing relation; releases by several devices at once
      keep the goal; a member's departure moves only its own chunks; plans
      send what is missing to who should have it.
    - _Pack files_: over any run with failed writes, stops and compactions, the
      packs answer as a plain map; and the run of failures where they do not.
    - _The coordinator_: every reachable directory has its indexes in agreement
      and its bounds kept; every change a request makes is signed by the key it
      concerns; a withdrawal and a deletion are final; newcomers are vouched for;
      escrow fetches are bounded; quotes and credits agree.
    - _The service_: only a device that showed an account's claim reads what is
      held for it; the pledge bounds what is held, and a share of it what is lent
      to accounts that proved nothing, as far as the running total is not short; the room asked of an eviction is the room
      that is missing; a released copy leaves enough strictly proved ones.
    - _Sessions_: a forged chain is left out and stops no other; hosting over a
      dialled connection keeps the pledge and claims only what is on the disk; of a
      chain longer than one request, content rounds with peers that have nothing new
      merge only the first page; a
      push or an audit records things of the peer it speaks to and of nobody else;
      a selective round loses no chunk, whatever the peer says and wherever it
      stops.
    - _The catalogue_: the listing and the resolution of a path agree, a path with
      a latest version shows it, and a removal hides what was listed.
    - _The wire_: how a stream is cut changes nothing that is delivered, and a
      reader's buffer is bounded.
    - _Contact_: the reads a silent machine costs are bounded over any history; a
      relay of addresses can refresh the book and never extend it; the book stays
      within its bounds and holds nothing unsigned as a proof; what is saved is
      what a restart loads; a machine that is off is dialled again.  A machine that
      announced itself to an honest coordinator is found, whatever else the
      coordinator serves meanwhile; a hostile one cannot put
      an unsigned address into the book of a node it once signed for, nor have an
      account dropped that did not ask.
    - _Listeners, relays and beacons_: every connection's slot is given back and the
      caps hold over any interleaving; the places of a relay are accounted for, and
      the one path that loses them; a beacon is read as it was sent, and a flood of
      them does not push out a known machine.
    - _Pledges on one disk_: nodes beside each other promise the same space twice at
      most by what their state files do not say; two readings, of a shared directory
      and of a full disk, where the check fails.
    - _Releases_: a manifest that is read can be written and read again, names no file
      outside its directory, and is accepted only signed and newer.
    - _Policy_: the choice of files settles in one round and does not depend
      on the order of the listing; a metered link is used only with consent.

    ** Bounds and fuel

    Recursion that is not structural carries fuel that a lemma shows is
    enough: [Households.root_go] runs for as many steps as the array is long,
    [Prelude.decimal_go] for the bits of the number, [Chunker.stream_go] and
    [split_go] for the bytes left.  Loops over tables are folds over their rows.

    ** What is not modelled, and why

    The keystore, sockets and relayed dials, the daemon's loop, the sockets of
    discovery, TLS handshakes, the command line and the mobile shells: input and
    output over third-party code.  Within modelled parts: database errors (also one
    between the two transactions of a conflict) and most disk errors, a blob the disk
    will not remove after a refused write included, directories and symbolic links of the folder, the
    coordinator's dialling back of a member, the text of messages. *)

From Stdlib Require Export NArith Lia Ascii String.
From stdpp Require Export base gmap sorting strings numbers.
From stdpp Require Export list.

Declare Scope its_scope.
Delimit Scope its_scope with its.
Open Scope N_scope.
Open Scope its_scope.

(** ** Automation *)

Create HintDb its.
Create Rewrite HintDb its.

(** Boolean tests on numbers become propositions. *)
Ltac nbool :=
  repeat match goal with
  | H : (_ <? _)%N = true |- _ => apply N.ltb_lt in H
  | H : (_ <? _)%N = false |- _ => apply N.ltb_ge in H
  | H : (_ <=? _)%N = true |- _ => apply N.leb_le in H
  | H : (_ <=? _)%N = false |- _ => apply N.leb_gt in H
  | H : (_ =? _)%N = true |- _ => apply N.eqb_eq in H
  | H : (_ =? _)%N = false |- _ => apply N.eqb_neq in H
  | H : (_ <? _)%Z = true |- _ => apply Z.ltb_lt in H
  | H : (_ <? _)%Z = false |- _ => apply Z.ltb_ge in H
  | H : (_ =? _)%Z = true |- _ => apply Z.eqb_eq in H
  | H : (_ =? _)%Z = false |- _ => apply Z.eqb_neq in H
  end.

(** Split every [if] and [match] in sight, turning the tests into facts. *)
Ltac split_ifs :=
  repeat (case_match; simplify_eq/=); nbool.

(** ** Fallible results

    Rust's [Result<T, E>]. *)

Inductive result (E A : Type) : Type :=
| Ok (a : A)
| Err (e : E).
Arguments Ok {E A} _.
Arguments Err {E A} _.

Definition is_ok {E A} (r : result E A) : bool :=
  match r with Ok _ => true | Err _ => false end.

Definition rbind {E A B} (r : result E A) (k : A -> result E B) : result E B :=
  match r with Ok a => k a | Err e => Err e end.

(** ** Stateful, fallible computations

    A method that mutates its receiver and may return early with an error.
    What was written before the error stays written, as in the source. *)

Definition M (S E A : Type) : Type := S -> result E A * S.

Definition ret {S E A} (a : A) : M S E A := fun s => (Ok a, s).
Definition throw {S E A} (e : E) : M S E A := fun s => (Err e, s).
Definition bind {S E A B} (m : M S E A) (k : A -> M S E B) : M S E B :=
  fun s => match m s with
           | (Ok a, s') => k a s'
           | (Err e, s') => (Err e, s')
           end.
Definition gets {S E A} (f : S -> A) : M S E A := fun s => (Ok (f s), s).
Definition modify {S E} (f : S -> S) : M S E unit := fun s => (Ok tt, f s).
Definition lift {S E A} (r : result E A) : M S E A := fun s => (r, s).

Notation "x <-! m ; k" := (bind m (fun x => k))
  (at level 100, m at next level, right associativity) : its_scope.
Notation "m ;;! k" := (bind m (fun _ => k))
  (at level 100, right associativity) : its_scope.
Notation "x <-? r ; k" := (rbind r (fun x => k))
  (at level 100, r at next level, right associativity) : its_scope.

(** ** Running the monad *)

Lemma bind_inv {S E A B} (m : M S E A) (k : A -> M S E B) s r s' :
  bind m k s = (r, s') ->
  (exists e, m s = (Err e, s') /\ r = Err e) \/ (exists a s1, m s = (Ok a, s1) /\ k a s1 = (r, s')).
Proof.
  unfold bind. destruct (m s) as [[a|e] s1].
  - intros Hk. right. eauto.
  - intros [= <- <-]. left. eauto.
Qed.

(** Take a run of the monad apart, one bind at a time. *)
Ltac run_inv H :=
  let e := fresh "e" in let a := fresh "a" in let s1 := fresh "s" in
  let H1 := fresh "Hrun" in
  apply bind_inv in H as [(e & H1 & ?)|(a & s1 & H1 & H)].

(** A relation that every run of a computation respects, errors included. *)
Section along.
Context {S E : Type} (R : relation S) `{!PreOrder R}.

Definition along {A} (m : M S E A) : Prop := forall s, R s (m s).2.

Lemma along_pure {A} (m : M S E A) : (forall s, (m s).2 = s) -> along m.
Proof. intros H s. by rewrite H. Qed.

Lemma along_bind {A B} (m : M S E A) (k : A -> M S E B) :
  along m -> (forall a, along (k a)) -> along (a <-! m; k a).
Proof.
  intros Hm Hk s. unfold bind. specialize (Hm s). destruct (m s) as [[a|e] s']; [|done].
  etransitivity; [exact Hm|apply Hk].
Qed.

(** A continuation that looks at the state it starts from. *)
Lemma along_gets {A B} (f : S -> A) (k : A -> M S E B) :
  (forall a, along (k a)) -> along (a <-! gets f; k a).
Proof. intros H s. apply (H (f s)). Qed.

End along.

Ltac along_pure := apply along_pure; [apply _|done].

(** [for x in l { body }] over the state. *)
Fixpoint for_each {S E A} (l : list A) (body : A -> M S E unit) : M S E unit :=
  match l with
  | [] => ret tt
  | a :: l' => body a ;;! for_each l' body
  end.

(** [iter.take_while(p)] *)
Fixpoint take_while {A} (p : A -> bool) (l : list A) : list A :=
  match l with
  | [] => []
  | a :: l' => if p a then a :: take_while p l' else []
  end.

(** ** Unsigned machine integers

    A [u64] is an [N] below [2^64]; [N.sub] is exactly [saturating_sub]. *)

Definition u32_max : N := 2 ^ 32 - 1.
Definition u64_max : N := 2 ^ 64 - 1.

Definition sat_add (a b : N) : N := N.min (a + b) u64_max.
Definition sat_mul (a b : N) : N := N.min (a * b) u64_max.
Definition sat_sub (a b : N) : N := a - b.

(** [a + b] as a release build computes it: no overflow check, so it wraps. *)
Definition wrap_add (a b : N) : N := (a + b) mod 2 ^ 64.

Definition is_u64 (n : N) : Prop := n <= u64_max.

(** Little-endian bytes, [to_le_bytes]. *)
Fixpoint le_bytes (width : nat) (n : N) : list N :=
  match width with
  | O => []
  | S w => n mod 256 :: le_bytes w (n / 256)
  end.

Fixpoint of_le_bytes (l : list N) : N :=
  match l with
  | [] => 0
  | b :: l' => b + 256 * of_le_bytes l'
  end.

(** Big-endian bytes: how a 32-byte identifier reads from its number. *)
Definition be_bytes (width : nat) (n : N) : list N := rev (le_bytes width n).
Definition of_be_bytes (l : list N) : N := of_le_bytes (rev l).

(** Decimal digits, [format!("{n}")].  A number has at most as many decimal
    digits as binary ones, which is the fuel. *)
Definition decimal_digit (d : N) : ascii := ascii_of_N (48 + d).

Fixpoint decimal_go (fuel : nat) (n : N) (acc : list ascii) : list ascii :=
  match fuel with
  | O => acc
  | S fuel' =>
      let acc' := decimal_digit (n mod 10) :: acc in
      if n <? 10 then acc' else decimal_go fuel' (n / 10) acc'
  end.

Definition decimal (n : N) : list ascii := decimal_go (S (N.to_nat (N.log2 n))) n [].

Definition is_decimal_digit (c : ascii) : Prop := 48 <= N_of_ascii c <= 57.

(** The number a digit string spells, most significant digit first. *)
Definition decimal_value (acc : N) (cs : list ascii) : N :=
  foldl (fun v c => v * 10 + (N_of_ascii c - 48)) acc cs.

(** ** Ordered maps

    [BTreeMap] and the database tables iterate in ascending key order. *)

Class KeyOrd (K : Type) := {
  key_le : K -> K -> Prop;
  key_le_dec :: RelDecision key_le;
  key_le_total :: Total key_le;
  key_le_trans :: Transitive key_le;
  key_le_antisym :: AntiSymm (=) key_le;
}.

#[export] Instance KeyOrd_N : KeyOrd N := {| key_le := N.le |}.

Section btree.
Context {K V : Type} `{Countable K} `{!KeyOrd K}.

Definition entry_le (p q : K * V) : Prop := key_le p.1 q.1.

#[export] Instance entry_le_dec : RelDecision entry_le.
Proof. intros p q. unfold entry_le. apply _. Defined.

#[export] Instance entry_le_total : Total entry_le.
Proof. intros p q. apply (key_le_total p.1 q.1). Qed.

#[export] Instance entry_le_trans : Transitive entry_le.
Proof. intros p q r. apply (key_le_trans p.1 q.1 r.1). Qed.

(** The rows of a table in key order. *)
Definition btree_iter (m : gmap K V) : list (K * V) :=
  merge_sort entry_le (map_to_list m).

(** Its keys in order. *)
Definition btree_keys (m : gmap K V) : list K := (btree_iter m).*1.

Lemma btree_iter_perm m : btree_iter m ≡ₚ map_to_list m.
Proof. apply merge_sort_Permutation. Qed.

Lemma elem_of_btree_iter m k v : (k, v) ∈ btree_iter m <-> m !! k = Some v.
Proof. rewrite btree_iter_perm. apply elem_of_map_to_list. Qed.

Lemma elem_of_btree_keys m k : k ∈ btree_keys m <-> is_Some (m !! k).
Proof.
  unfold btree_keys. rewrite list_elem_of_fmap. split.
  - intros ([k' v] & -> & Hin). apply elem_of_btree_iter in Hin. eauto.
  - intros [v Hv]. exists (k, v). split; [done|]. by apply elem_of_btree_iter.
Qed.

Lemma NoDup_btree_keys m : NoDup (btree_keys m).
Proof. unfold btree_keys. rewrite btree_iter_perm. apply NoDup_fst_map_to_list. Qed.

Lemma StronglySorted_btree_keys m : StronglySorted key_le (btree_keys m).
Proof.
  unfold btree_keys, btree_iter.
  assert (Hs : StronglySorted entry_le (merge_sort entry_le (map_to_list m))).
  { apply Sorted_StronglySorted; [apply _|]. apply Sorted_merge_sort, _. }
  induction Hs as [|p l Hs IH Hall]; simpl; constructor; [done|].
  apply Forall_fmap. eapply Forall_impl; [exact Hall|]. done.
Qed.

Lemma StronglySorted_btree_iter m : StronglySorted entry_le (btree_iter m).
Proof. apply Sorted_StronglySorted; [apply _|]. apply Sorted_merge_sort, _. Qed.

(** A list of rows in ascending key order without repeated keys is the table's
    iteration. *)
Lemma btree_iter_unique m (l : list (K * V)) :
  StronglySorted entry_le l -> l ≡ₚ map_to_list m -> btree_iter m = l.
Proof.
  intros Hs Hp. apply (StronglySorted_unique_strong entry_le); [|apply StronglySorted_btree_iter|done|].
  - intros [k v] [k' v'] Hx Hy Hle Hge.
    assert (k = k') as -> by by apply key_le_antisym.
    apply elem_of_btree_iter in Hx. rewrite Hp in Hy. apply elem_of_map_to_list in Hy. congruence.
  - by rewrite btree_iter_perm, Hp.
Qed.

(** Appending a row past the last key appends it to the iteration. *)
Lemma btree_iter_insert_max m k v :
  m !! k = None -> (forall k', is_Some (m !! k') -> key_le k' k) ->
  btree_iter (<[k := v]> m) = btree_iter m ++ [(k, v)].
Proof.
  intros Hk Hmax. apply btree_iter_unique.
  - pose proof (StronglySorted_btree_iter m) as Hs.
    assert (Hall : Forall (fun p => entry_le p (k, v)) (btree_iter m)).
    { apply Forall_forall. intros [k' v'] Hin. apply elem_of_btree_iter in Hin.
      apply Hmax. eauto. }
    induction Hs as [|p l Hs IH Hle]; simpl; [repeat constructor|].
    apply Forall_cons in Hall as [Hp Hall]. constructor; [by apply IH|].
    apply Forall_app. split; [done|]. by repeat constructor.
  - rewrite map_to_list_insert by done. rewrite btree_iter_perm.
    by rewrite Permutation_app_comm.
Qed.

Lemma btree_iter_empty : btree_iter ∅ = [].
Proof. unfold btree_iter. by rewrite map_to_list_empty. Qed.

End btree.

(** ** Sums over a table *)

Section map_sum.
Context {K V : Type} `{Countable K}.

Definition map_sum (g : V -> N) (m : gmap K V) : N := map_fold (fun _ v acc => g v + acc) 0 m.

Lemma map_sum_empty g : map_sum g ∅ = 0.
Proof. unfold map_sum. by rewrite map_fold_empty. Qed.

Lemma map_sum_delete g m k v : m !! k = Some v -> map_sum g m = g v + map_sum g (delete k m).
Proof. intros Hk. apply (map_fold_delete_L (fun _ v acc => g v + acc)); [lia|done]. Qed.

Lemma map_sum_insert_new g m k v :
  m !! k = None -> map_sum g (<[k := v]> m) = g v + map_sum g m.
Proof. intros Hk. apply (map_fold_insert_L (fun _ v acc => g v + acc)); [lia|done]. Qed.

Lemma map_sum_insert g m k v :
  map_sum g (<[k := v]> m) + default 0 (g <$> m !! k) = g v + map_sum g m.
Proof.
  destruct (m !! k) as [w|] eqn:Hk; simpl.
  - rewrite <- insert_delete_eq, map_sum_insert_new by apply lookup_delete_eq.
    rewrite (map_sum_delete g m k w) by done. lia.
  - rewrite map_sum_insert_new by done. lia.
Qed.

Lemma map_sum_delete_default g m k :
  map_sum g (delete k m) + default 0 (g <$> m !! k) = map_sum g m.
Proof.
  destruct (m !! k) as [w|] eqn:Hk; simpl.
  - rewrite (map_sum_delete g m k w) by done. lia.
  - rewrite delete_id by done. lia.
Qed.

Lemma map_sum_ge g m k v : m !! k = Some v -> g v <= map_sum g m.
Proof. intros Hk. rewrite (map_sum_delete g m k v) by done. lia. Qed.

Lemma map_sum_pos g m : 0 < map_sum g m <-> exists k v, m !! k = Some v /\ 0 < g v.
Proof.
  split.
  - induction m as [|k v m Hk IH] using map_ind; [rewrite map_sum_empty; lia|].
    rewrite map_sum_insert_new by done. intros Hp.
    destruct (decide (0 < g v)) as [Hg|Hg].
    + exists k, v. by rewrite lookup_insert_eq.
    + destruct IH as (k' & v' & Hk' & Hv'); [lia|].
      exists k', v'. rewrite lookup_insert_ne; [done|congruence].
  - intros (k & v & Hk & Hg). pose proof (map_sum_ge g m k v Hk). lia.
Qed.

Lemma map_sum_list g m : map_sum g m = foldr (fun p acc => g p.2 + acc) 0 (map_to_list m).
Proof.
  unfold map_sum. rewrite map_fold_foldr.
  induction (map_to_list m) as [|[k v] l IH]; simpl; [done|]. by rewrite IH.
Qed.

End map_sum.

(** Removing a list of keys, one after another. *)
Lemma foldl_delete_lookup {A K V} `{Countable K} (f : A -> K) (l : list A) (m : gmap K V) k :
  foldl (fun m a => delete (f a) m) m l !! k
  = if bool_decide (k ∈ f <$> l) then None else m !! k.
Proof.
  revert m. induction l as [|a l IH]; intros m; simpl; [done|].
  rewrite IH. destruct (decide (k = f a)) as [->|Hne].
  - rewrite lookup_delete_eq. repeat case_bool_decide; done || set_solver.
  - rewrite lookup_delete_ne by done. repeat case_bool_decide; done || set_solver.
Qed.

(** ** Lexicographic order on byte strings *)

Fixpoint bytes_leb (a b : list N) : bool :=
  match a, b with
  | [], _ => true
  | _ :: _, [] => false
  | x :: a', y :: b' => (x <? y) || ((x =? y) && bytes_leb a' b')
  end.

Definition bytes_of_string (s : string) : list N :=
  (fun c => N_of_ascii c) <$> String.list_ascii_of_string s.

Definition string_le (a b : string) : Prop :=
  Is_true (bytes_leb (bytes_of_string a) (bytes_of_string b)).

Lemma bytes_leb_refl a : bytes_leb a a = true.
Proof.
  induction a as [|x a IH]; simpl; [done|].
  rewrite N.eqb_refl, IH. by rewrite orb_true_r.
Qed.

Lemma bytes_leb_total a b : bytes_leb a b = true \/ bytes_leb b a = true.
Proof.
  revert b. induction a as [|x a IH]; intros [|y b]; simpl; auto.
  destruct (N.lt_trichotomy x y) as [Hlt|[->|Hlt]].
  - apply N.ltb_lt in Hlt. rewrite Hlt. auto.
  - rewrite N.eqb_refl, N.ltb_irrefl. simpl. apply IH.
  - apply N.ltb_lt in Hlt. rewrite Hlt. auto.
Qed.

Lemma bytes_leb_trans a b c :
  bytes_leb a b = true -> bytes_leb b c = true -> bytes_leb a c = true.
Proof.
  revert b c. induction a as [|x a IH]; intros [|y b] [|z c]; simpl; auto; try done.
  rewrite !orb_true_iff, !andb_true_iff, !N.ltb_lt, !N.eqb_eq.
  intros [Hxy|[-> Hab]] [Hyz|[-> Hbc]]; try (left; lia). right. eauto.
Qed.

Lemma bytes_leb_antisym a b : bytes_leb a b = true -> bytes_leb b a = true -> a = b.
Proof.
  revert b. induction a as [|x a IH]; intros [|y b]; simpl; auto; try done.
  rewrite !orb_true_iff, !andb_true_iff, !N.ltb_lt, !N.eqb_eq.
  intros [Hxy|[-> Hab]] [Hyz|[He Hbc]]; try lia. f_equal; auto.
Qed.

Lemma bytes_of_string_inj a b : bytes_of_string a = bytes_of_string b -> a = b.
Proof.
  unfold bytes_of_string. intros Heq.
  apply list_fmap_eq_inj in Heq.
  - by rewrite <- (String.string_of_list_ascii_of_string a), Heq,
      String.string_of_list_ascii_of_string.
  - intros c d Hcd. by rewrite <- (ascii_N_embedding c), Hcd, ascii_N_embedding.
Qed.

#[export] Instance string_le_dec : RelDecision string_le.
Proof. intros a b. unfold string_le. apply _. Defined.

#[export] Instance KeyOrd_string : KeyOrd string.
Proof.
  refine {| key_le := string_le |}; unfold string_le.
  - intros a b. rewrite !Is_true_true. apply bytes_leb_total.
  - intros a b c. rewrite !Is_true_true. apply bytes_leb_trans.
  - intros a b. rewrite !Is_true_true. intros H1 H2.
    apply bytes_of_string_inj. by apply bytes_leb_antisym.
Defined.

(** ** Byte encodings *)

Lemma length_le_bytes w n : length (le_bytes w n) = w.
Proof. revert n. induction w as [|w IH]; intros n; simpl; auto. Qed.

Lemma le_bytes_bound w n : Forall (fun b => b < 256) (le_bytes w n).
Proof.
  revert n. induction w as [|w IH]; intros n; simpl; constructor; auto.
  apply N.mod_lt. lia.
Qed.

Lemma of_le_bytes_le_bytes w n : of_le_bytes (le_bytes w n) = n mod 256 ^ N.of_nat w.
Proof.
  revert n. induction w as [|w IH]; intros n.
  - simpl. by rewrite N.mod_1_r.
  - cbn [le_bytes of_le_bytes]. rewrite IH.
    replace (N.of_nat (S w)) with (N.succ (N.of_nat w)) by lia.
    rewrite N.pow_succ_r'. rewrite N.Div0.mod_mul_r. lia.
Qed.

Lemma le_bytes_inj w a b :
  a < 256 ^ N.of_nat w -> b < 256 ^ N.of_nat w -> le_bytes w a = le_bytes w b -> a = b.
Proof.
  intros Ha Hb Heq. apply (f_equal of_le_bytes) in Heq.
  rewrite !of_le_bytes_le_bytes in Heq. by rewrite !N.mod_small in Heq.
Qed.

Lemma le_bytes_of_le_bytes l :
  Forall (fun b => b < 256) l -> le_bytes (length l) (of_le_bytes l) = l.
Proof.
  induction 1 as [|b l Hb Hl IH]; simpl; [done|].
  f_equal.
  - rewrite N.mul_comm, N.Div0.mod_add. by apply N.mod_small.
  - rewrite N.mul_comm, N.div_add, N.div_small by lia. by rewrite N.add_0_l.
Qed.

Lemma length_be_bytes w n : length (be_bytes w n) = w.
Proof. unfold be_bytes. by rewrite length_rev, length_le_bytes. Qed.
#[export] Hint Rewrite length_le_bytes length_be_bytes : its.

Lemma be_bytes_inj w a b :
  a < 256 ^ N.of_nat w -> b < 256 ^ N.of_nat w -> be_bytes w a = be_bytes w b -> a = b.
Proof.
  intros Ha Hb Heq. unfold be_bytes in Heq.
  apply (f_equal (@rev N)) in Heq. rewrite !rev_involutive in Heq.
  by apply (le_bytes_inj w).
Qed.

(** Comparing two strings with prefixes of one length. *)
Lemma bytes_leb_app x y u v :
  length x = length y ->
  bytes_leb (x ++ u) (y ++ v) = if decide (x = y) then bytes_leb u v else bytes_leb x y.
Proof.
  revert y. induction x as [|a x IH]; intros [|b y] Hl; try done. simpl in *.
  rewrite IH by lia. destruct (N.ltb_spec a b) as [Hab|Hab]; simpl.
  { rewrite decide_False by (intros [= -> ->]; lia). done. }
  destruct (N.eqb_spec a b) as [->|Hne]; simpl.
  - destruct (decide (x = y)) as [->|Hxy].
    + by rewrite decide_True.
    + by rewrite decide_False by congruence.
  - by rewrite decide_False by congruence.
Qed.

Lemma be_bytes_snoc w n : be_bytes (S w) n = be_bytes w (n / 256) ++ [n mod 256].
Proof. done. Qed.

(** The byte order of a fixed-width big-endian number is its order. *)
Lemma bytes_leb_be_bytes w a b :
  a < 256 ^ N.of_nat w -> b < 256 ^ N.of_nat w ->
  bytes_leb (be_bytes w a) (be_bytes w b) = (a <=? b).
Proof.
  revert a b. induction w as [|w IH]; intros a b Ha Hb.
  { simpl in Ha, Hb. assert (a = 0) as -> by lia. assert (b = 0) as -> by lia. done. }
  rewrite Nat2N.inj_succ, N.pow_succ_r' in Ha, Hb. rewrite !be_bytes_snoc, bytes_leb_app
    by by rewrite !length_be_bytes.
  pose proof (N.div_mod' a 256). pose proof (N.div_mod' b 256).
  assert (a mod 256 < 256) by (apply N.mod_lt; lia).
  assert (b mod 256 < 256) by (apply N.mod_lt; lia).
  assert (Ha' : a / 256 < 256 ^ N.of_nat w) by (apply N.Div0.div_lt_upper_bound; lia).
  assert (Hb' : b / 256 < 256 ^ N.of_nat w) by (apply N.Div0.div_lt_upper_bound; lia).
  destruct (decide (be_bytes w (a / 256) = be_bytes w (b / 256))) as [E|E].
  - apply be_bytes_inj in E; [|done..]. cbn [bytes_leb]. apply eq_true_iff_eq.
    rewrite !orb_true_iff, !andb_true_iff, N.ltb_lt, N.eqb_eq, N.leb_le.
    generalize dependent (a / 256). generalize dependent (b / 256).
    generalize dependent (a mod 256). generalize dependent (b mod 256). clear.
    intros. subst. split; [intros [?|[? _]]; lia|intros ?].
    destruct (N.lt_trichotomy n0 n) as [?|[?|?]]; [auto..|lia].
  - rewrite IH by done. assert (a / 256 <> b / 256) by congruence. apply eq_true_iff_eq.
    rewrite !N.leb_le. clear IH E Ha Hb Ha' Hb'.
    generalize dependent (a / 256). generalize dependent (b / 256).
    generalize dependent (a mod 256). generalize dependent (b mod 256). intros. lia.
Qed.

(** Tests on equivalent propositions choose the same branch. *)
Lemma if_decide_ext {A} (P Q : Prop) `{!Decision P, !Decision Q} (x y : A) :
  P <-> Q -> (if bool_decide P then x else y) = (if bool_decide Q then x else y).
Proof. intros Hpq. by rewrite (bool_decide_ext P Q Hpq). Qed.

(** Filters that agree on the elements of the list agree. *)
Lemma list_filter_local {A} (P Q : A -> Prop) `{!forall x, Decision (P x), !forall x, Decision (Q x)}
  (l : list A) :
  (forall x, x ∈ l -> P x <-> Q x) -> filter P l = filter Q l.
Proof.
  induction l as [|x l IH]; intros Hx; [done|]. rewrite !filter_cons.
  rewrite IH by (intros y Hy; apply Hx; by right).
  assert (P x <-> Q x) by (apply Hx; left). repeat case_decide; tauto.
Qed.

(** Two concatenations with equal-length heads agree piecewise. *)
(** Elements with distinct images are told apart by them. *)
Lemma NoDup_fmap_eq {A B} (f : A -> B) (l : list A) x y :
  NoDup (f <$> l) -> x ∈ l -> y ∈ l -> f x = f y -> x = y.
Proof.
  intros Hnd [i Hi]%list_elem_of_lookup_1 [j Hj]%list_elem_of_lookup_1 E.
  assert (i = j); [|congruence].
  apply (NoDup_lookup _ _ _ (f x) Hnd); rewrite list_lookup_fmap.
  - by rewrite Hi.
  - by rewrite Hj, E.
Qed.

Lemma app_inj_length {A} (a b c d : list A) :
  length a = length c -> a ++ b = c ++ d -> a = c /\ b = d.
Proof. intros Hl Heq. by apply app_inj_1. Qed.

Lemma StronglySorted_weaken {A} (R S : A -> A -> Prop) (l : list A) :
  (forall a b, R a b -> S a b) -> StronglySorted R l -> StronglySorted S l.
Proof. intros HRS. induction 1; constructor; [done|]. eauto using Forall_impl. Qed.

(** ** A stable sort

    [slice::sort_by] and [sort_by_key], with [leb a b] for "[a] does not come
    after [b]". *)

Section sort_by.
Context {A : Type} (leb : A -> A -> bool).

Fixpoint insert_by (a : A) (l : list A) : list A :=
  match l with
  | [] => [a]
  | b :: l' => if leb a b then a :: l else b :: insert_by a l'
  end.

Definition sort_by (l : list A) : list A := foldr insert_by [] l.

Lemma insert_by_perm a l : insert_by a l ≡ₚ a :: l.
Proof.
  induction l as [|b l IH]; cbn [insert_by]; [done|]. destruct (leb a b); [done|].
  rewrite IH. apply Permutation_swap.
Qed.

Lemma sort_by_perm l : sort_by l ≡ₚ l.
Proof. induction l as [|a l IH]; [done|]. cbn. by rewrite insert_by_perm, IH. Qed.

Context (Htotal : forall a b, leb a b = true \/ leb b a = true).
Context (Htrans : forall a b c, leb a b = true -> leb b c = true -> leb a c = true).

Lemma insert_by_sorted a l : StronglySorted leb l -> StronglySorted leb (insert_by a l).
Proof.
  induction 1 as [|b l Hs IH Hall]; cbn [insert_by]; [repeat constructor|].
  destruct (leb a b) eqn:E.
  - constructor; [by constructor|]. constructor; [by rewrite E|].
    eapply Forall_impl; [exact Hall|]. intros c Hc. apply Is_true_true. apply Is_true_true in Hc. eauto.
  - constructor; [done|]. rewrite insert_by_perm. constructor; [|done].
    apply Is_true_true. destruct (Htotal a b); congruence.
Qed.

Lemma sort_by_sorted l : StronglySorted leb (sort_by l).
Proof. induction l as [|a l IH]; [constructor|]. by apply insert_by_sorted. Qed.

End sort_by.

(** Sorting by a key, and reading the key, commute. *)
Lemma sort_by_fmap {A B} (f : A -> B) (leb : B -> B -> bool) (l : list A) :
  f <$> sort_by (fun a b => leb (f a) (f b)) l = sort_by leb (f <$> l).
Proof.
  induction l as [|a l IH]; [done|]. cbn [sort_by foldr fmap list_fmap]. fold (sort_by leb).
  change (foldr (insert_by leb) [] (f <$> l)) with (sort_by leb (f <$> l)). rewrite <- IH.
  change (foldr (insert_by (fun a b => leb (f a) (f b))) [] l) with (sort_by (fun a b => leb (f a) (f b)) l).
  generalize (sort_by (fun a b => leb (f a) (f b)) l). intros m.
  induction m as [|b m IHm]; cbn [insert_by fmap list_fmap]; [done|].
  destruct (leb (f a) (f b)); [done|]. cbn [fmap list_fmap]. by f_equal.
Qed.

(** ** Saturating arithmetic *)

Lemma sat_add_le a b : sat_add a b <= u64_max.
Proof. unfold sat_add. lia. Qed.
#[export] Hint Resolve sat_add_le : its.

Lemma sat_add_exact a b : a + b <= u64_max -> sat_add a b = a + b.
Proof. unfold sat_add. lia. Qed.

Lemma sat_add_gt a b c : c < u64_max -> c < sat_add a b <-> c < a + b.
Proof. unfold sat_add. lia. Qed.

(** ** Decimal rendering *)

Lemma decimal_digit_value d : d < 10 -> N_of_ascii (decimal_digit d) = 48 + d.
Proof. intros Hd. unfold decimal_digit. apply N_ascii_embedding. lia. Qed.

Lemma decimal_go_value fuel n acc :
  n < 2 ^ N.of_nat fuel ->
  exists k, decimal_value 0 (decimal_go fuel n acc) = decimal_value n acc
    /\ (fuel <> O -> decimal_go fuel n acc = k ++ acc /\ k <> []
        /\ Forall is_decimal_digit k).
Proof.
  revert n acc. induction fuel as [|fuel IH]; intros n acc Hn.
  { exists []. assert (n = 0) as -> by (simpl in Hn; lia). done. }
  cbn [decimal_go]. assert (Hd : n mod 10 < 10) by (apply N.mod_lt; lia).
  assert (Hdig : is_decimal_digit (decimal_digit (n mod 10))).
  { unfold is_decimal_digit. rewrite decimal_digit_value by done.
    clear Hn. generalize dependent (n mod 10). intros. lia. }
  destruct (N.ltb_spec n 10) as [Hlt|Hge].
  - exists [decimal_digit (n mod 10)]. split.
    + unfold decimal_value. cbn [foldl]. f_equal. rewrite decimal_digit_value by done.
      rewrite N.mod_small by done. lia.
    + intros _. split_and!; [done|done|]. by constructor.
  - destruct (IH (n / 10) (decimal_digit (n mod 10) :: acc)) as (k & Hv & Hk).
    { rewrite Nat2N.inj_succ, N.pow_succ_r' in Hn. apply N.Div0.div_lt_upper_bound.
      generalize dependent (2 ^ N.of_nat fuel). intros. lia. }
    exists (k ++ [decimal_digit (n mod 10)]). split.
    + rewrite Hv. unfold decimal_value. cbn [foldl]. f_equal.
      rewrite decimal_digit_value by done. pose proof (N.div_mod' n 10). clear -H.
      generalize dependent (n / 10). generalize dependent (n mod 10). intros. lia.
    + intros _. destruct fuel as [|fuel].
      { assert (n < 2) by (change (2 ^ N.of_nat 1) with 2 in Hn; lia). lia. }
      destruct Hk as (-> & Hne & Hall); [done|]. split_and!.
      * by rewrite <- app_assoc.
      * by destruct k.
      * apply Forall_app. split; [done|]. by constructor.
Qed.

Lemma decimal_fuel n : n < 2 ^ N.of_nat (S (N.to_nat (N.log2 n))).
Proof.
  rewrite Nat2N.inj_succ, N2Nat.id. destruct (decide (n = 0)) as [->|Hn]; [done|].
  apply N.log2_spec. lia.
Qed.

Lemma decimal_value_decimal n : decimal_value 0 (decimal n) = n.
Proof.
  destruct (decimal_go_value _ n [] (decimal_fuel n)) as (k & Hv & _).
  unfold decimal. rewrite Hv. cbn [decimal_value foldl]. lia.
Qed.

Lemma decimal_inj a b : decimal a = decimal b -> a = b.
Proof. intros H%(f_equal (decimal_value 0)). by rewrite !decimal_value_decimal in H. Qed.

Lemma decimal_digits n : decimal n <> [] /\ Forall is_decimal_digit (decimal n).
Proof.
  destruct (decimal_go_value _ n [] (decimal_fuel n)) as (k & _ & Hk).
  destruct Hk as (Hk & Hne & Hall); [done|].
  unfold decimal. rewrite Hk, app_nil_r. done.
Qed.

(** ** Texts: [str::starts_with] and [str::trim] *)

Definition starts_with (prefix l : list ascii) : bool := bool_decide (take (length prefix) l = prefix).

(** The characters [str::trim] removes, in UTF-8. *)
Definition WHITESPACE : list (list ascii) :=
  (fun l : list N => (ascii_of_N <$> l : list ascii)) <$>
    ([[9]; [10]; [11]; [12]; [13]; [32]; [0xC2; 0x85]; [0xC2; 0xA0]; [0xE1; 0x9A; 0x80];
     [0xE2; 0x80; 0x80]; [0xE2; 0x80; 0x81]; [0xE2; 0x80; 0x82]; [0xE2; 0x80; 0x83]; [0xE2; 0x80; 0x84];
     [0xE2; 0x80; 0x85]; [0xE2; 0x80; 0x86]; [0xE2; 0x80; 0x87]; [0xE2; 0x80; 0x88]; [0xE2; 0x80; 0x89];
     [0xE2; 0x80; 0x8A]; [0xE2; 0x80; 0xA8]; [0xE2; 0x80; 0xA9]; [0xE2; 0x80; 0xAF]; [0xE2; 0x81; 0x9F];
     [0xE3; 0x80; 0x80]] : list (list N)).

(** Drop leading characters of [set]; each drop shortens the text, so the
    text's length is fuel enough. *)
Fixpoint trim_start (fuel : nat) (set : list (list ascii)) (l : list ascii) : list ascii :=
  match fuel with
  | O => l
  | S fuel =>
      match List.find (fun w => starts_with w l) set with
      | Some w => trim_start fuel set (drop (length w) l)
      | None => l
      end
  end.

Definition trim (l : list ascii) : list ascii :=
  let l := trim_start (length l) WHITESPACE l in
  rev (trim_start (length l) (@rev ascii <$> WHITESPACE) (rev l)).

Definition trimmed (s : string) : string := String.string_of_list_ascii (trim (String.list_ascii_of_string s)).
