(* ===== verification/Version.v ===== *)
(** * Version: version vectors and causal order

    Models [crates/itsanas-store/src/version.rs].  A [VersionVector] is the
    source's [BTreeMap<DeviceId, u64>]; a device id is the number its 32 bytes
    spell big-endian, so the order of ids is the byte order the source uses.
    The theorems show that [compare] decides exactly the four causal relations
    of the pointwise order, that [merge] is the least upper bound (so it is
    commutative, associative, idempotent), and that [advanced] produces a
    strict successor exactly when the sequence number is new. *)

From S2P Require Import Prelude.

Abbreviation DeviceId := N (only parsing).
Abbreviation VersionVector := (gmap N N) (only parsing).

Inductive CausalOrder := Equal | Before | After | Concurrent.

#[export] Instance CausalOrder_eq_dec : EqDecision CausalOrder.
Proof. solve_decision. Defined.

Module VV.

Definition new : VersionVector := ∅.

Definition get (v : VersionVector) (device : DeviceId) : N :=
  default 0 (v !! device).

(** [entry(device).or_insert(0)], then the maximum. *)
Definition observe (v : VersionVector) (device : DeviceId) (sequence : N) : VersionVector :=
  <[device := N.max (get v device) sequence]> v.

Definition merge (v other : VersionVector) : VersionVector :=
  foldl (fun acc row => observe acc row.1 row.2) v (btree_iter other).

Definition dominates (v other : VersionVector) : bool :=
  forallb (fun row => row.2 <=? get v row.1) (btree_iter other).

Definition compare (v other : VersionVector) : CausalOrder :=
  match dominates v other, dominates other v with
  | true, true => Equal
  | true, false => After
  | false, true => Before
  | false, false => Concurrent
  end.

Definition len (v : VersionVector) : nat := size v.

Definition is_empty (v : VersionVector) : bool := Nat.eqb (size v) 0.

Definition advanced (v : VersionVector) (device : DeviceId) (sequence : N) : VersionVector :=
  observe v device sequence.

(** ** The causal order the operations decide *)

(** Everything [other] has seen, [v] has seen. *)
Definition covers (v other : VersionVector) : Prop :=
  forall d, get other d <= get v d.

(** The same observations: a coarser equality than that of the maps, because a
    row at zero says no more than an absent one. *)
Definition same (v other : VersionVector) : Prop :=
  forall d, get v d = get other d.

Lemma get_observe v d s d' :
  get (observe v d s) d' = if decide (d' = d) then N.max (get v d) s else get v d'.
Proof.
  unfold observe, get. case_decide as Hd.
  - subst. by rewrite lookup_insert_eq.
  - by rewrite lookup_insert_ne.
Qed.

Lemma dominates_covers v other : dominates v other = true <-> covers v other.
Proof.
  unfold dominates, covers. rewrite forallb_forall. split.
  - intros Hall d. unfold get at 1. destruct (other !! d) as [s|] eqn:Hd; simpl; [|lia].
    specialize (Hall (d, s)). rewrite <- list_elem_of_In, elem_of_btree_iter in Hall.
    specialize (Hall Hd). simpl in Hall. by apply N.leb_le.
  - intros Hc [d s] Hin. rewrite <- list_elem_of_In in Hin.
    apply elem_of_btree_iter in Hin. simpl. apply N.leb_le.
    specialize (Hc d). unfold get at 1 in Hc. by rewrite Hin in Hc.
Qed.

Lemma dominates_false v other : dominates v other = false <-> ~ covers v other.
Proof. rewrite <- dominates_covers. by destruct (dominates v other). Qed.

#[export] Instance covers_dec v other : Decision (covers v other).
Proof.
  destruct (dominates v other) eqn:Hd.
  - left. by apply dominates_covers.
  - right. by apply dominates_false.
Defined.

#[export] Instance covers_preorder : PreOrder covers.
Proof.
  split; [intros v d; lia|]. intros a b c Hab Hbc d.
  specialize (Hab d). specialize (Hbc d). lia.
Qed.

#[export] Instance same_equivalence : Equivalence same.
Proof.
  split; [intros v d; done|by intros v o H d|].
  intros a b c Hab Hbc d. by rewrite Hab.
Qed.

#[export] Instance covers_proper : Proper (same ==> same ==> iff) covers.
Proof.
  intros a a' Ha b b' Hb. unfold covers.
  split; intros H d; specialize (H d); [rewrite <- Ha, <- Hb|rewrite Ha, Hb]; done.
Qed.

Lemma covers_antisym a b : covers a b -> covers b a -> same a b.
Proof. intros H1 H2 d. specialize (H1 d). specialize (H2 d). lia. Qed.

Lemma same_covers a b : same a b -> covers a b.
Proof. intros H d. by rewrite H. Qed.

(** Which answer [compare] gives, as facts about the order. *)
Lemma compare_spec v other :
  match compare v other with
  | Equal => covers v other /\ covers other v
  | Before => ~ covers v other /\ covers other v
  | After => covers v other /\ ~ covers other v
  | Concurrent => ~ covers v other /\ ~ covers other v
  end.
Proof.
  unfold compare.
  destruct (dominates v other) eqn:H1, (dominates other v) eqn:H2;
    rewrite ?dominates_covers, ?dominates_false in *; done.
Qed.

Lemma compare_equal v other : compare v other = Equal <-> same v other.
Proof.
  pose proof (compare_spec v other) as H. split.
  - intros Heq. rewrite Heq in H. destruct H. by apply covers_antisym.
  - intros Hs. assert (covers v other) by by apply same_covers.
    assert (covers other v) by by apply same_covers.
    destruct (compare v other); naive_solver.
Qed.

Lemma compare_before v other :
  compare v other = Before <-> covers other v /\ ~ covers v other.
Proof. pose proof (compare_spec v other). destruct (compare v other); naive_solver. Qed.

Lemma compare_after v other :
  compare v other = After <-> covers v other /\ ~ covers other v.
Proof. pose proof (compare_spec v other). destruct (compare v other); naive_solver. Qed.

Lemma compare_concurrent v other :
  compare v other = Concurrent <-> ~ covers v other /\ ~ covers other v.
Proof. pose proof (compare_spec v other). destruct (compare v other); naive_solver. Qed.

Definition flip_order (o : CausalOrder) : CausalOrder :=
  match o with Before => After | After => Before | o => o end.

Lemma compare_flip v other : compare other v = flip_order (compare v other).
Proof. unfold compare. by destruct (dominates v other), (dominates other v). Qed.

#[export] Instance compare_proper : Proper (same ==> same ==> eq) compare.
Proof.
  intros a a' Ha b b' Hb. pose proof (compare_spec a b) as H1.
  pose proof (compare_spec a' b') as H2.
  pose proof (covers_proper a a' Ha b b' Hb). pose proof (covers_proper b b' Hb a a' Ha).
  destruct (compare a b), (compare a' b'); naive_solver.
Qed.

(** ** [merge] *)

Lemma get_foldl_observe (rows : list (N * N)) v d :
  NoDup rows.*1 ->
  get (foldl (fun acc row => observe acc row.1 row.2) v rows) d
  = N.max (get v d) (default 0 (list_to_map (M := gmap N N) rows !! d)).
Proof.
  revert v. induction rows as [|[k s] rows IH]; intros v Hnd; simpl.
  - rewrite lookup_empty. simpl. lia.
  - inversion Hnd as [|? ? Hk Hnd']; subst. rewrite IH, get_observe by done.
    case_decide as Hd.
    + subst. rewrite lookup_insert_eq. simpl.
      rewrite (not_elem_of_list_to_map_1 rows k) by done. simpl. lia.
    + by rewrite lookup_insert_ne.
Qed.

Lemma get_merge v other d : get (merge v other) d = N.max (get v d) (get other d).
Proof.
  unfold merge. rewrite get_foldl_observe by apply NoDup_btree_keys.
  f_equal. unfold get. f_equal. f_equal.
  transitivity (list_to_map (M := gmap N N) (map_to_list other)).
  - apply list_to_map_proper; [apply NoDup_btree_keys|apply btree_iter_perm].
  - apply list_to_map_to_list.
Qed.

#[export] Instance merge_proper : Proper (same ==> same ==> same) merge.
Proof. intros a a' Ha b b' Hb d. by rewrite !get_merge, Ha, Hb. Qed.

Lemma merge_covers_l v other : covers (merge v other) v.
Proof. intros d. rewrite get_merge. lia. Qed.

Lemma merge_covers_r v other : covers (merge v other) other.
Proof. intros d. rewrite get_merge. lia. Qed.

Lemma get_advanced v d s d' :
  get (advanced v d s) d' = if decide (d' = d) then N.max (get v d) s else get v d'.
Proof. apply get_observe. Qed.

Lemma advanced_covers v d s : covers (advanced v d s) v.
Proof. intros d'. rewrite get_advanced. case_decide; subst; lia. Qed.

#[export] Instance advanced_proper d s : Proper (same ==> same) (fun v => advanced v d s).
Proof. intros a b Hab d'. rewrite !get_advanced, !Hab. done. Qed.

(** A vector that is not covered has a device it is ahead on. *)
Lemma not_covers_exists v other : ~ covers v other -> exists d, get v d < get other d.
Proof.
  intros Hn. apply dominates_false in Hn. unfold dominates in Hn.
  rewrite <- not_true_iff_false, forallb_forall in Hn.
  destruct (decide (Exists (fun row => get v row.1 < row.2) (btree_iter other))) as [He|He].
  - apply Exists_exists in He as ([d s] & Hin & Hlt).
    apply elem_of_btree_iter in Hin.
    exists d. unfold get at 2. by rewrite Hin.
  - destruct Hn. intros [d s] Hin. apply N.leb_le.
    apply not_Exists_Forall in He; [|intros x; apply _].
    rewrite Forall_forall in He. rewrite <- list_elem_of_In in Hin.
    specialize (He _ Hin). simpl in *. lia.
Qed.

Lemma covers_not_exists v other d : covers v other -> get v d < get other d -> False.
Proof. intros Hc Hlt. specialize (Hc d). lia. Qed.

(** ** The properties *)

(** [compare] answers with the causal relation of the two versions: each of
    its four answers exactly when the pointwise order of the counters says so,
    an absent device counting as zero. *)
Theorem compare_decides_causality (v other : VersionVector) :
  (compare v other = Equal <-> forall d, get v d = get other d)
  /\ (compare v other = Before <->
        (forall d, get v d <= get other d) /\ exists d, get v d < get other d)
  /\ (compare v other = After <->
        (forall d, get other d <= get v d) /\ exists d, get other d < get v d)
  /\ (compare v other = Concurrent <->
        (exists d, get v d < get other d) /\ exists d, get other d < get v d).
Proof.
  rewrite compare_equal, compare_before, compare_after, compare_concurrent.
  split_and!; [done|split..].
  - intros [H1 H2]. split; [done|]. by apply not_covers_exists.
  - intros [H1 [d Hd]]. split; [done|]. eauto using covers_not_exists.
  - intros [H1 H2]. split; [done|]. by apply not_covers_exists.
  - intros [H1 [d Hd]]. split; [done|]. eauto using covers_not_exists.
  - intros [H1 H2]. split; by apply not_covers_exists.
  - intros [[d Hd] [d' Hd']]. split; eauto using covers_not_exists.
Qed.

(** [merge] is the least upper bound of the causal order: it covers both
    versions, nothing that covers both is below it, and so it does not depend
    on the order or the number of times versions are merged. *)
Theorem merge_is_join (a b c : VersionVector) :
  covers (merge a b) a /\ covers (merge a b) b
  /\ (forall u, covers u a -> covers u b -> covers u (merge a b))
  /\ same (merge a b) (merge b a)
  /\ same (merge a (merge b c)) (merge (merge a b) c)
  /\ same (merge (merge a b) b) (merge a b)
  /\ compare (merge a b) a <> Concurrent /\ compare (merge a b) a <> Before.
Proof.
  split_and!; [apply merge_covers_l|apply merge_covers_r|..].
  - intros u Ha Hb d. rewrite get_merge. specialize (Ha d). specialize (Hb d). lia.
  - intros d. rewrite !get_merge. lia.
  - intros d. rewrite !get_merge. lia.
  - intros d. rewrite !get_merge. lia.
  - rewrite compare_concurrent. intros [H _]. destruct H. apply merge_covers_l.
  - rewrite compare_before. intros [_ H]. destruct H. apply merge_covers_l.
Qed.

(** A write stamped with a sequence this device had not reached happens after
    the version it was built on, and a replayed older sequence changes nothing. *)
Lemma advanced_after v d s :
  compare v (advanced v d s) = if get v d <? s then Before else Equal.
Proof.
  destruct (N.ltb_spec (get v d) s).
  - apply compare_before. split; [apply advanced_covers|].
    intros Hc. specialize (Hc d). rewrite get_advanced, decide_True in Hc by done. lia.
  - apply compare_equal. intros d'. rewrite get_advanced. case_decide; subst; lia.
Qed.

(** Two devices that advance one base independently are concurrent. *)
Lemma advanced_concurrent v d1 s1 d2 s2 :
  d1 <> d2 -> get v d1 < s1 -> get v d2 < s2 ->
  compare (advanced v d1 s1) (advanced v d2 s2) = Concurrent.
Proof.
  intros Hne H1 H2. apply compare_concurrent. split; intros Hc.
  - specialize (Hc d2). rewrite !get_advanced in Hc.
    rewrite decide_True, decide_False in Hc by done. lia.
  - specialize (Hc d1). rewrite !get_advanced in Hc.
    rewrite decide_True, decide_False in Hc by done. lia.
Qed.

End VV.
