(* ===== verification/Ids.v ===== *)
(** * Ids: 32-byte identifiers and the store's errors

    Models [crates/itsanas-crypto/src/ids.rs] and
    [crates/itsanas-store/src/error.rs].  Every identifier ([DeviceId],
    [UserId], [ChunkId], [ObjectId]) is a [[u8; 32]]; here it is the number
    those bytes spell big-endian, so that the derived byte order is the order
    of numbers, and [as_bytes] gives the bytes back.  Error messages keep the
    data they carry and the reason; the formatted English around it is not
    modelled.  I/O and database failures are not represented: the tables are
    finite maps that do not fail. *)

From S2P Require Import Prelude Version.

Abbreviation UserId := N (only parsing).
Abbreviation ChunkId := N (only parsing).
Abbreviation ObjectId := N (only parsing).

Definition ID_LEN : nat := 32.

(** An identifier fits in 32 bytes. *)
Definition is_id (i : N) : Prop := i < 2 ^ 256.

Definition as_bytes (i : N) : list N := be_bytes ID_LEN i.

Inductive CryptoError :=
| Decrypt
| BadSignature
| UnsupportedVersion (kind : string) (found supported : N)
| Malformed (what : string)
| Entropy
| Kdf (what : string).

Definition from_slice (bytes : list N) : result CryptoError N :=
  if Nat.eqb (length bytes) ID_LEN then Ok (of_be_bytes bytes)
  else Err (Malformed "identifier: expected 32 bytes").

(** One lower-case hexadecimal digit. *)
Definition hex_digit (d : N) : ascii :=
  ascii_of_N (if d <? 10 then 48 + d else 87 + d).

(** [char::to_digit(16)]. *)
Definition digit_value (c : ascii) : option N :=
  let n := N_of_ascii c in
  if (48 <=? n) && (n <=? 57) then Some (n - 48)
  else if (97 <=? n) && (n <=? 102) then Some (n - 87)
  else if (65 <=? n) && (n <=? 70) then Some (n - 55)
  else None.

Definition hex_of_byte (b : N) : list ascii := [hex_digit (b / 16); hex_digit (b mod 16)].

Definition hex_of_bytes (bytes : list N) : list ascii := mjoin (hex_of_byte <$> bytes).

Definition to_hex (i : N) : string :=
  String.string_of_list_ascii (hex_of_bytes (as_bytes i)).

Definition short (i : N) : string :=
  String.string_of_list_ascii (take 12 (hex_of_bytes (as_bytes i))).

Fixpoint bytes_of_hex (cs : list ascii) : option (list N) :=
  match cs with
  | hi :: lo :: cs' =>
      match digit_value hi, digit_value lo, bytes_of_hex cs' with
      | Some h, Some l, Some rest => Some (h * 16 + l :: rest)
      | _, _, _ => None
      end
  | _ => Some []
  end.

Definition from_hex (text : string) : result CryptoError N :=
  let cs := String.list_ascii_of_string text in
  if Nat.eqb (length cs) (ID_LEN * 2) then
    match bytes_of_hex cs with
    | Some bytes => Ok (of_be_bytes bytes)
    | None => Err (Malformed "identifier: non-hex digit")
    end
  else Err (Malformed "identifier: expected 64 hex digits").

(** ** The store's errors *)

Inductive StoreError :=
| Io (path : string)
| Crypto (e : CryptoError)
| Encoding
| MissingChunk (chunk : ChunkId)
| SegmentSignature (segment : ObjectId)
| SegmentChainBroken (segment : ObjectId) (expected found : option ObjectId)
| InvalidPath (path : string) (reason : string)
| ChunkerConfigError (reason : string)
| PublishedTestIdentity (user : UserId)
| OverBudget (path : string) (account total allowed : N)
| DiskFull (path : string) (incoming room : N)
| Corrupt (reason : string).

(** ** Lemmas *)

Lemma length_as_bytes i : length (as_bytes i) = 32%nat.
Proof. apply length_be_bytes. Qed.
#[export] Hint Rewrite length_as_bytes : its.

Lemma as_bytes_inj i j : is_id i -> is_id j -> as_bytes i = as_bytes j -> i = j.
Proof. intros Hi Hj. by apply (be_bytes_inj 32). Qed.

Lemma as_bytes_bound i : Forall (fun b => b < 256) (as_bytes i).
Proof. unfold as_bytes, be_bytes. apply Forall_rev, le_bytes_bound. Qed.

Lemma of_be_bytes_as_bytes i : is_id i -> of_be_bytes (as_bytes i) = i.
Proof.
  intros Hi. unfold of_be_bytes, as_bytes, be_bytes. rewrite rev_involutive.
  rewrite of_le_bytes_le_bytes. by apply N.mod_small.
Qed.

Lemma digit_value_hex_digit d : d < 16 -> digit_value (hex_digit d) = Some d.
Proof.
  intros Hd. unfold hex_digit, digit_value.
  destruct (N.ltb_spec d 10); rewrite N_ascii_embedding by lia.
  - replace (48 <=? 48 + d) with true by (symmetry; apply N.leb_le; lia).
    replace (48 + d <=? 57) with true by (symmetry; apply N.leb_le; lia).
    simpl. f_equal. lia.
  - replace (87 + d <=? 57) with false by (symmetry; apply N.leb_gt; lia).
    replace (97 <=? 87 + d) with true by (symmetry; apply N.leb_le; lia).
    replace (87 + d <=? 102) with true by (symmetry; apply N.leb_le; lia).
    rewrite andb_false_r. simpl. f_equal. lia.
Qed.

Lemma hex_of_bytes_cons b bytes :
  hex_of_bytes (b :: bytes) = hex_digit (b / 16) :: hex_digit (b mod 16) :: hex_of_bytes bytes.
Proof. reflexivity. Qed.

Lemma bytes_of_hex_of_bytes bytes :
  Forall (fun b => b < 256) bytes -> bytes_of_hex (hex_of_bytes bytes) = Some bytes.
Proof.
  induction 1 as [|b bytes Hb _ IH]; [done|].
  rewrite hex_of_bytes_cons. cbn [bytes_of_hex]. rewrite IH.
  rewrite !digit_value_hex_digit by (apply N.Div0.div_lt_upper_bound || apply N.mod_lt; lia).
  f_equal. f_equal. pose proof (N.div_mod' b 16). lia.
Qed.

Lemma length_hex_of_bytes bytes : length (hex_of_bytes bytes) = (2 * length bytes)%nat.
Proof.
  induction bytes as [|b bytes IH]; [done|].
  rewrite hex_of_bytes_cons. cbn [length]. rewrite IH. lia.
Qed.

(** The 64-digit rendering of an identifier parses back to it. *)
Theorem from_hex_to_hex (i : N) : is_id i -> from_hex (to_hex i) = Ok i.
Proof.
  intros Hi. unfold from_hex, to_hex.
  rewrite String.list_ascii_of_string_of_list_ascii.
  rewrite length_hex_of_bytes, length_as_bytes. cbn [Nat.eqb].
  change (Nat.eqb (2 * 32) (ID_LEN * 2)) with true. cbv iota.
  rewrite bytes_of_hex_of_bytes by apply as_bytes_bound.
  by rewrite of_be_bytes_as_bytes.
Qed.

Lemma from_hex_to_hex_witness :
  is_id (2 ^ 255 + 77) /\ from_hex (to_hex (2 ^ 255 + 77)) = Ok (2 ^ 255 + 77).
Proof. split; [done|]. apply from_hex_to_hex. done. Defined.
