(* ===== verification/Uptime.v ===== *)
(** * Uptime: the ring of hours a device was tried and seen

    Models [crates/itsanas-placement/src/uptime.rs] and [liveness.rs].  The ring
    is two arrays of eleven 64-bit words indexed by [hour mod 672]; what it is
    for is a set of hours, and [ring_refines_history] proves that after any
    sequence of observations, clock steps backwards included, the ring answers
    as the set of accepted observations of the last 672 hours does.  Hours are
    [now / 3600], so [last_hour + 1] is far from 2^64 and is written without the
    wrap. *)

From S2P Require Import Prelude Version Ids.

Definition WINDOW_HOURS : N := 672.
Definition MIN_SPAN_HOURS : N := 7 * 24.
Definition MIN_ATTEMPTED_HOURS : N := 24.
Definition WORDS : nat := 11.
Definition PPM : N := 1000000.

Record Uptime := mkUptime {
  first_hour : N;
  last_hour : N;
  attempted : list N;
  seen_words : list N;
}.

#[export] Instance Uptime_eq_dec : EqDecision Uptime.
Proof. solve_decision. Defined.

Definition bit (hour : N) : nat * N :=
  let position := hour mod WINDOW_HOURS in
  (N.to_nat (position / 64), N.shiftl 1 (position mod 64)).

Definition bit_set (words : list N) (b : nat * N) : bool :=
  negb (N.land (nth b.1 words 0) b.2 =? 0).
(** [words[word] &= !mask] *)
Definition clear_bit (words : list N) (b : nat * N) : list N :=
  alter (fun w => N.ldiff w b.2) b.1 words.
(** [words[word] |= mask] *)
Definition put_bit (words : list N) (b : nat * N) : list N :=
  alter (fun w => N.lor w b.2) b.1 words.

Definition uptime_new (hour : N) : Uptime :=
  mkUptime hour hour (replicate WORDS 0) (replicate WORDS 0).

(** One stale hour between the last note and this one. *)
Definition clear_stale (s : bool * Uptime) (stale : N) : bool * Uptime :=
  let '(changed, r) := s in
  let b := bit stale in
  if bit_set (attempted r) b
  then (true, mkUptime (first_hour r) (last_hour r) (clear_bit (attempted r) b)
                (clear_bit (seen_words r) b))
  else (changed, r).

(** The hours [from..=to]. *)
Definition hours (from to : N) : list N :=
  (fun i => from + N.of_nat i) <$> seq 0 (N.to_nat (to + 1 - from)).

(** The window moved so that it ends at [hour]. *)
Definition advance (hour : N) (r : Uptime) : bool * Uptime :=
  if WINDOW_HOURS <=? hour - last_hour r then (true, uptime_new hour)
  else
    let '(changed, r) := foldl clear_stale (false, r) (hours (last_hour r + 1) hour) in
    if hour =? last_hour r then (changed, r)
    else (true, mkUptime (first_hour r) hour (attempted r) (seen_words r)).

(** The hour's own bits. *)
Definition mark (hour : N) (seen changed : bool) (r : Uptime) : bool * Uptime :=
  let b := bit hour in
  let '(changed, r) :=
    if bit_set (attempted r) b then (changed, r)
    else (true, mkUptime (first_hour r) (last_hour r) (put_bit (attempted r) b) (seen_words r)) in
  if seen && negb (bit_set (seen_words r) b)
  then (true, mkUptime (first_hour r) (last_hour r) (attempted r) (put_bit (seen_words r) b))
  else (changed, r).

Definition note (hour : N) (seen : bool) (r : Uptime) : bool * Uptime :=
  if hour <? last_hour r then (false, r)
  else let '(changed, r) := advance hour r in mark hour seen changed r.

Definition window_start (r : Uptime) : N :=
  N.max (last_hour r - (WINDOW_HOURS - 1)) (first_hour r).

Definition attempted_at (r : Uptime) (hour : N) : bool :=
  if (hour <? window_start r) || (last_hour r <? hour) then false
  else bit_set (attempted r) (bit hour).

Definition seen_at (r : Uptime) (hour : N) : bool :=
  if (hour <? window_start r) || (last_hour r <? hour) then false
  else bit_set (seen_words r) (bit hour).

(** [count_ones] of a 64-bit word. *)
Definition count_ones (w : N) : N :=
  N.of_nat (length (filter (fun i => N.testbit w (N.of_nat i) = true) (seq 0 64))).

Definition attempted_hours (r : Uptime) : N := foldr (fun w n => count_ones w + n) 0 (attempted r).
Definition seen_hours (r : Uptime) : N := foldr (fun w n => count_ones w + n) 0 (seen_words r).

Definition last_seen_hour (r : Uptime) : option N :=
  last (filter (fun h => seen_at r h = true) (hours (window_start r) (last_hour r))).

Definition gap_step (r : Uptime) (s : option N * N) (hour : N) : option N * N :=
  let '(prev, longest) := s in
  if seen_at r hour
  then (Some hour, match prev with
                   | Some before => N.max longest (hour - before - 1)
                   | None => longest
                   end)
  else (prev, longest).

Definition longest_gap_hours (r : Uptime) : N :=
  (foldl (gap_step r) (None, 0) (hours (window_start r) (last_hour r))).2.

Definition availability (now_hour lost_after_hours : N) (r : Uptime) : option N :=
  if now_hour - first_hour r <? MIN_SPAN_HOURS then None
  else
    let attempted := attempted_hours r in
    if attempted <? MIN_ATTEMPTED_HOURS then None
    else
      let share := seen_hours r * 1000 / attempted in
      match last_seen_hour r with
      | Some last =>
          if now_hour - last <=? lost_after_hours
          then Some (if share <=? 2 ^ 16 - 1 then share else 1000)
          else Some 0
      | None => Some 0
      end.

(** Several devices as one unit. *)
Definition union_hour (rings : list Uptime) (r : Uptime) (hour : N) : Uptime :=
  let b := bit hour in
  let att := if existsb (fun s => attempted_at s hour) rings
             then put_bit (attempted r) b else attempted r in
  let see := if existsb (fun s => seen_at s hour) rings
             then put_bit (seen_words r) b else seen_words r in
  mkUptime (first_hour r) (last_hour r) att see.

Definition uptime_union (rings : list Uptime) : option Uptime :=
  match rings with
  | [] => None
  | r :: rest =>
      let first := foldl N.min (first_hour r) (first_hour <$> rest) in
      let last := foldl N.max (last_hour r) (last_hour <$> rest) in
      let joined := mkUptime first last (replicate WORDS 0) (replicate WORDS 0) in
      Some (foldl (union_hour rings) joined (hours (window_start joined) last))
  end.

(** ** liveness.rs *)

Definition LOST_AFTER_FLOOR : N := 7 * 24 * 3600.
Definition LOST_AFTER_CEILING : N := 13 * 24 * 3600.

Definition clamp (x lo hi : N) : N := N.min (N.max x lo) hi.

Definition lost_after (uptime : option Uptime) : N :=
  match uptime with
  | None => LOST_AFTER_FLOOR
  | Some ring =>
      clamp (sat_mul (longest_gap_hours ring) (2 * 3600)) LOST_AFTER_FLOOR LOST_AFTER_CEILING
  end.

Definition lost_after_hours (uptime : option Uptime) : N := lost_after uptime / 3600.

(** ** miss_ppm *)

Record Unit := mkUnit { unit_uptime : option Uptime; unit_lost_after : N }.

Definition unit_available (now_hour : N) (u : Unit) : N :=
  match unit_uptime u with
  | Some ring => default 0 (availability now_hour (unit_lost_after u) ring)
  | None => 0
  end.

Definition independent_ppm (units : list Unit) (now_hour : N) : N :=
  foldl (fun acc u => acc * (PPM - N.min (unit_available now_hour u) 1000 * 1000) / PPM) PPM units.

Definition joint_step (rings : list Uptime) (s : N * N) (hour : N) : N * N :=
  let '(joint, missed) := s in
  if forallb (fun r => attempted_at r hour) rings
  then (joint + 1, if existsb (fun r => seen_at r hour) rings then missed else missed + 1)
  else (joint, missed).

Definition empirical_ppm (units : list Unit) (now_hour : N) : option N :=
  match mapM unit_uptime units with
  | Some (r :: rest) =>
      let rings := r :: rest in
      let '(joint, missed) :=
        foldl (joint_step rings) (0, 0) (hours (now_hour - (WINDOW_HOURS - 1)) now_hour) in
      if MIN_ATTEMPTED_HOURS <=? joint then Some (missed * PPM / joint) else None
  | _ => None
  end.

Definition miss_ppm (units : list Unit) (now_hour : N) : N :=
  let independent := independent_ppm units now_hour in
  let worse := match empirical_ppm units now_hour with
               | Some figure => N.max figure independent
               | None => independent
               end in
  if worse <=? u32_max then worse else u32_max.

(** ** Bits of the ring *)

(** The bit at a position of the ring. *)
Definition bitat (words : list N) (p : N) : bool :=
  N.testbit (nth (N.to_nat (p / 64)) words 0) (p mod 64).

Definition pos (hour : N) : N := hour mod WINDOW_HOURS.

Lemma pos_lt h : pos h < 672.
Proof. unfold pos, WINDOW_HOURS. apply N.mod_lt. lia. Qed.

Lemma land_pow2 w i : (N.land w (N.shiftl 1 i) =? 0) = negb (N.testbit w i).
Proof.
  rewrite N.shiftl_1_l.
  destruct (N.testbit w i) eqn:Ht; simpl.
  - apply N.eqb_neq. intros H0. apply (f_equal (fun x => N.testbit x i)) in H0.
    rewrite N.land_spec, Ht, N.pow2_bits_true, N.bits_0 in H0. done.
  - apply N.eqb_eq. apply N.bits_inj_0. intros n. rewrite N.land_spec.
    destruct (decide (n = i)) as [->|Hne]; [by rewrite Ht|].
    rewrite N.pow2_bits_false by done. apply andb_false_r.
Qed.

Lemma bit_set_bitat words h : bit_set words (bit h) = bitat words (pos h).
Proof. unfold bit_set, bitat, bit, pos. simpl. by rewrite land_pow2, negb_involutive. Qed.

Lemma nth_alter (f : N -> N) i j (l : list N) :
  (i < length l)%nat -> nth j (alter f i l) 0 = if decide (i = j) then f (nth i l 0) else nth j l 0.
Proof.
  intros Hi. rewrite !nth_lookup. case_decide as Hij.
  - subst. rewrite list_lookup_alter_eq.
    destruct (l !! j) eqn:Hl; [done|]. apply lookup_ge_None in Hl. lia.
  - by rewrite list_lookup_alter_ne.
Qed.

Lemma pos_split p q : p / 64 = q / 64 -> p mod 64 = q mod 64 -> p = q.
Proof.
  intros H1 H2. rewrite (N.div_mod p 64), (N.div_mod q 64) by lia. congruence.
Qed.

Lemma pos_word h (words : list N) : length words = WORDS -> (N.to_nat (pos h / 64) < length words)%nat.
Proof.
  intros ->. pose proof (pos_lt h). unfold WORDS.
  assert (pos h / 64 < 11) by (apply N.Div0.div_lt_upper_bound; lia). lia.
Qed.

(** Changing a word with a function of one of its bits changes that bit. *)
Lemma bitat_alter words h p (f : N -> N) (v : bool) :
  length words = WORDS ->
  (forall w i, N.testbit (f w) i = if i =? pos h mod 64 then v else N.testbit w i) ->
  bitat (alter f (bit h).1 words) p = if p =? pos h then v else bitat words p.
Proof.
  intros Hl Hf. unfold bitat, bit. fold (pos h). simpl.
  rewrite nth_alter by by apply pos_word.
  case_decide as Hw.
  - apply N2Nat.inj in Hw. rewrite Hf, Hw.
    destruct (N.eqb_spec (p mod 64) (pos h mod 64)) as [E|E],
      (N.eqb_spec p (pos h)) as [->|E']; try done.
    by destruct E'; apply pos_split.
  - destruct (N.eqb_spec p (pos h)) as [->|E']; done.
Qed.

Lemma bitat_clear words h p :
  length words = WORDS ->
  bitat (clear_bit words (bit h)) p = if p =? pos h then false else bitat words p.
Proof.
  intros Hl. apply bitat_alter; [done|]. intros w i. unfold bit. fold (pos h). simpl.
  rewrite N.ldiff_spec, N.shiftl_1_l, N.pow2_bits_eqb, N.eqb_sym.
  destruct (_ =? _); [apply andb_false_r|apply andb_true_r].
Qed.

Lemma bitat_put words h p :
  length words = WORDS ->
  bitat (put_bit words (bit h)) p = if p =? pos h then true else bitat words p.
Proof.
  intros Hl. apply bitat_alter; [done|]. intros w i. unfold bit. fold (pos h). simpl.
  rewrite N.lor_spec, N.shiftl_1_l, N.pow2_bits_eqb, N.eqb_sym.
  destruct (_ =? _); [apply orb_true_r|apply orb_false_r].
Qed.

Lemma bitat_zero p : bitat (replicate WORDS 0) p = false.
Proof.
  unfold bitat. rewrite nth_lookup.
  destruct (replicate WORDS 0 !! _) as [w|] eqn:E; [|apply N.bits_0].
  apply lookup_replicate in E as [-> _]. apply N.bits_0.
Qed.

(** Two hours of one window share a position only if they are equal. *)
Lemma pos_inj a b : a <= b -> b < a + 672 -> pos a = pos b -> a = b.
Proof.
  intros Hle Hlt Hp. unfold pos, WINDOW_HOURS in Hp.
  pose proof (N.div_mod a 672 ltac:(lia)) as Ea. pose proof (N.div_mod b 672 ltac:(lia)) as Eb.
  rewrite Hp in Ea. clear Hp. set (m := b mod 672) in *. clearbody m. nia.
Qed.

Lemma elem_of_hours a b h : h ∈ hours a b <-> a <= h <= b.
Proof.
  unfold hours. rewrite list_elem_of_fmap. split.
  - intros (i & -> & Hi). apply elem_of_seq in Hi. lia.
  - intros [Ha Hb]. exists (N.to_nat (h - a)). split; [lia|]. apply elem_of_seq. lia.
Qed.

(** ** The ring's invariant *)

Record ring_wf (r : Uptime) : Prop := {
  wf_attempted : length (attempted r) = WORDS;
  wf_seen : length (seen_words r) = WORDS;
  seen_subset : forall p, bitat (seen_words r) p = true -> bitat (attempted r) p = true;
  first_le_last : first_hour r <= last_hour r;
}.

Lemma uptime_new_wf hour : ring_wf (uptime_new hour).
Proof. split; simpl; [done|done| |lia]. intros p. by rewrite bitat_zero. Qed.

Lemma length_clear_bit ws b : length (clear_bit ws b) = length ws.
Proof. apply length_alter. Qed.

Lemma length_put_bit ws b : length (put_bit ws b) = length ws.
Proof. apply length_alter. Qed.

Lemma clear_stale_spec b r h :
  ring_wf r ->
  let r' := (clear_stale (b, r) h).2 in
  ring_wf r' /\ first_hour r' = first_hour r /\ last_hour r' = last_hour r
  /\ (forall p, bitat (attempted r') p = if p =? pos h then false else bitat (attempted r) p)
  /\ (forall p, bitat (seen_words r') p = if p =? pos h then false else bitat (seen_words r) p).
Proof.
  intros [La Ls Hsub Hle]. unfold clear_stale. rewrite bit_set_bitat.
  destruct (bitat (attempted r) (pos h)) eqn:Hb; simpl.
  - assert (Ha : forall p, bitat (clear_bit (attempted r) (bit h)) p
                   = if p =? pos h then false else bitat (attempted r) p)
      by (intros p; by apply bitat_clear).
    assert (Hs : forall p, bitat (clear_bit (seen_words r) (bit h)) p
                   = if p =? pos h then false else bitat (seen_words r) p)
      by (intros p; by apply bitat_clear).
    split_and!; try done. split; simpl; rewrite ?length_clear_bit; try done.
    intros p. rewrite Ha, Hs. destruct (p =? pos h); [done|apply Hsub].
  - split_and!; [by split|done|done| |]; intros p.
    + destruct (N.eqb_spec p (pos h)) as [->|]; done.
    + destruct (N.eqb_spec p (pos h)) as [->|]; [|done].
      destruct (bitat (seen_words r) (pos h)) eqn:E; [|done]. apply Hsub in E. congruence.
Qed.

Lemma cleared_cons (p x : N) (l : list N) (b : bool) :
  (if bool_decide (p ∈ l) then false else if p =? x then false else b)
  = if bool_decide (p ∈ x :: l) then false else b.
Proof. destruct (N.eqb_spec p x); repeat case_bool_decide; try done; set_solver. Qed.

Lemma clear_all_spec l b r :
  ring_wf r ->
  let r' := (foldl clear_stale (b, r) l).2 in
  ring_wf r' /\ first_hour r' = first_hour r /\ last_hour r' = last_hour r
  /\ (forall p, bitat (attempted r') p
        = if bool_decide (p ∈ pos <$> l) then false else bitat (attempted r) p)
  /\ (forall p, bitat (seen_words r') p
        = if bool_decide (p ∈ pos <$> l) then false else bitat (seen_words r) p).
Proof.
  revert b r. induction l as [|h l IH]; intros b r Hwf; [by simpl|].
  cbn [foldl]. pose proof (clear_stale_spec b r h Hwf) as Hc.
  destruct (clear_stale (b, r) h) as [b' r1]. simpl in Hc.
  destruct Hc as (Hwf1 & F1 & L1 & A1 & S1).
  destruct (IH b' r1 Hwf1) as (Hwf2 & F2 & L2 & A2 & S2). simpl.
  split_and!; [done|congruence|congruence| |]; intros p.
  - rewrite A2, A1. apply cleared_cons.
  - rewrite S2, S1. apply cleared_cons.
Qed.

(** The ring moved to [hour]: the window ends there and nothing newer than the
    old last hour, nor older than the window, is marked. *)
Lemma advance_spec hour r :
  ring_wf r -> last_hour r <= hour ->
  let r' := (advance hour r).2 in
  ring_wf r' /\ last_hour r' = hour
  /\ (hour < last_hour r + WINDOW_HOURS -> first_hour r' = first_hour r)
  /\ forall h, window_start r' <= h <= hour ->
       bitat (attempted r') (pos h) = attempted_at r h
       /\ bitat (seen_words r') (pos h) = seen_at r h.
Proof.
  intros Hwf Hle. unfold advance. destruct (N.leb_spec WINDOW_HOURS (hour - last_hour r)) as [Hw|Hw].
  { simpl. split_and!; [apply uptime_new_wf|done|unfold WINDOW_HOURS in *; lia|]. intros h Hh.
    unfold window_start in Hh. simpl in Hh. rewrite !bitat_zero. unfold attempted_at, seen_at.
    unfold WINDOW_HOURS in *.
    rewrite (proj2 (N.ltb_lt (last_hour r) h)) by lia. by rewrite orb_true_r. }
  pose proof (clear_all_spec (hours (last_hour r + 1) hour) false r Hwf) as Hc.
  destruct (foldl clear_stale (false, r) _) as [b r1]. simpl in Hc.
  destruct Hc as (Hwf1 & F1 & L1 & A1 & S1).
  assert (Hres : let r' := mkUptime (first_hour r1) hour (attempted r1) (seen_words r1) in
    ring_wf r' /\ last_hour r' = hour
    /\ (hour < last_hour r + WINDOW_HOURS -> first_hour r' = first_hour r)
    /\ forall h, window_start r' <= h <= hour ->
       bitat (attempted r') (pos h) = attempted_at r h
       /\ bitat (seen_words r') (pos h) = seen_at r h).
  { simpl. split_and!; [|done|done|].
    - destruct Hwf, Hwf1. split; simpl; [done|done|done|lia].
    - intros h Hh. unfold window_start, WINDOW_HOURS in Hh. simpl in Hh. rewrite F1 in Hh.
      rewrite A1, S1. unfold attempted_at, seen_at, window_start, WINDOW_HOURS in *.
      rewrite !bit_set_bitat. destruct (N.ltb_spec (last_hour r) h) as [Hh'|Hh'].
      + rewrite orb_true_r.
        rewrite bool_decide_eq_true_2; [done|]. apply list_elem_of_fmap.
        exists h. split; [done|]. apply elem_of_hours. lia.
      + rewrite (proj2 (N.ltb_ge h _)) by lia. simpl.
        rewrite bool_decide_eq_false_2; [done|].
        intros (h' & Hp & Hin)%list_elem_of_fmap. apply elem_of_hours in Hin.
        apply pos_inj in Hp; lia. }
  destruct (N.eqb_spec hour (last_hour r1)) as [E|E]; [|exact Hres].
  clear -Hres E. destruct r1 as [f1 l1 a1 s1]. simpl in E. subst l1. exact Hres.
Qed.

Lemma mark_spec hour s c r :
  ring_wf r ->
  let r' := (mark hour s c r).2 in
  ring_wf r' /\ last_hour r' = last_hour r /\ first_hour r' = first_hour r
  /\ (forall p, bitat (attempted r') p = (p =? pos hour) || bitat (attempted r) p)
  /\ (forall p, bitat (seen_words r') p = ((p =? pos hour) && s) || bitat (seen_words r) p).
Proof.
  intros Hwf. unfold mark. rewrite bit_set_bitat.
  set (r1 := if bitat (attempted r) (pos hour) then r else
    mkUptime (first_hour r) (last_hour r) (put_bit (attempted r) (bit hour)) (seen_words r)).
  assert (H1 : ring_wf r1 /\ last_hour r1 = last_hour r /\ first_hour r1 = first_hour r
    /\ (forall p, bitat (attempted r1) p = (p =? pos hour) || bitat (attempted r) p)
    /\ seen_words r1 = seen_words r).
  { subst r1. destruct (bitat (attempted r) (pos hour)) eqn:Hb.
    - split_and!; try done. intros p. destruct (N.eqb_spec p (pos hour)) as [->|]; done.
    - destruct Hwf as [La Ls Hsub Hle].
      assert (Ha : forall p, bitat (put_bit (attempted r) (bit hour)) p
                   = (p =? pos hour) || bitat (attempted r) p).
      { intros p. rewrite bitat_put by done. by destruct (p =? pos hour). }
      split_and!; try done. split; simpl; rewrite ?length_put_bit; try done.
      intros p Hp. rewrite Ha, (Hsub p Hp). apply orb_true_r. }
  destruct H1 as ([La Ls Hsub Hle] & L1 & F1 & A1 & S1).
  replace (if bitat (attempted r) (pos hour) then (c, r) else _)
    with (if bitat (attempted r) (pos hour) then c else true, r1)
    by (subst r1; by destruct (bitat (attempted r) (pos hour))).
  clearbody r1. cbn [snd]. rewrite bit_set_bitat.
  destruct s; simpl.
  - destruct (bitat (seen_words r1) (pos hour)) eqn:Hb; simpl.
    + split_and!; try done. intros p. rewrite andb_true_r, <- S1.
      destruct (N.eqb_spec p (pos hour)) as [->|]; done.
    + assert (Hs : forall p, bitat (put_bit (seen_words r1) (bit hour)) p
                   = (p =? pos hour) || bitat (seen_words r1) p).
      { intros p. rewrite bitat_put by done. by destruct (p =? pos hour). }
      split_and!; try done.
      * split; simpl; rewrite ?length_put_bit; try done.
        intros p. rewrite Hs, A1. destruct (p =? pos hour) eqn:E; simpl; [done|].
        intros Hp. apply Hsub in Hp. by rewrite A1, E in Hp.
      * intros p. by rewrite Hs, andb_true_r, S1.
  - split_and!; try done. intros p. by rewrite andb_false_r, S1.
Qed.

(** One accepted observation, hour by hour. *)
Lemma note_spec hour s r :
  ring_wf r -> last_hour r <= hour ->
  let r' := (note hour s r).2 in
  ring_wf r' /\ last_hour r' = hour
  /\ (hour < last_hour r + WINDOW_HOURS -> first_hour r' = first_hour r)
  /\ (forall h, attempted_at r' h = (h =? hour) || ((window_start r' <=? h) && attempted_at r h))
  /\ (forall h, seen_at r' h
        = ((h =? hour) && s) || ((window_start r' <=? h) && seen_at r h)).
Proof.
  intros Hwf Hle. unfold note. rewrite (proj2 (N.ltb_ge hour (last_hour r))) by done.
  pose proof (advance_spec hour r Hwf Hle) as Ha.
  destruct (advance hour r) as [c r1]. cbn [snd] in Ha. destruct Ha as (Hwf1 & L1 & F1 & B1).
  pose proof (mark_spec hour s c r1 Hwf1) as Hm. cbn zeta in Hm.
  set (r' := (mark hour s c r1).2) in *. destruct Hm as (Hwf2 & L2 & F2 & A2 & S2).
  assert (Hws : window_start r' = window_start r1)
    by (unfold window_start; by rewrite L2, F2).
  assert (Hlast : forall h, hour < h -> attempted_at r h = false /\ seen_at r h = false).
  { intros h Hh. unfold attempted_at, seen_at.
    rewrite (proj2 (N.ltb_lt (last_hour r) h)) by lia. by rewrite orb_true_r. }
  assert (Hp : forall h, window_start r1 <= h <= hour -> (pos h =? pos hour) = (h =? hour)).
  { intros h Hh. unfold window_start, WINDOW_HOURS in Hh. rewrite L1 in Hh.
    destruct (N.eqb_spec h hour) as [->|Hne]; [apply N.eqb_refl|].
    apply N.eqb_neq. intros E. apply Hne. by apply pos_inj; lia. }
  assert (Hw1 : window_start r1 <= hour).
  { unfold window_start. rewrite L1. destruct Hwf1. lia. }
  split_and!; [done|congruence|intros Hlt; rewrite F2; auto| |]; intros h.
  - unfold attempted_at at 1. rewrite bit_set_bitat, A2, Hws, L2, L1.
    destruct (N.leb_spec (window_start r1) h) as [Hh|Hh].
    + rewrite (proj2 (N.ltb_ge h _)) by done. simpl.
      destruct (N.ltb_spec hour h) as [Hh'|Hh'].
      * rewrite (proj1 (Hlast h Hh')), (proj2 (N.eqb_neq h hour)) by lia. done.
      * rewrite Hp by done. by rewrite (proj1 (B1 h (conj Hh Hh'))).
    + rewrite (proj2 (N.ltb_lt h _)) by done. simpl.
      rewrite (proj2 (N.eqb_neq h hour)) by lia. done.
  - unfold seen_at at 1. rewrite bit_set_bitat, S2, Hws, L2, L1.
    destruct (N.leb_spec (window_start r1) h) as [Hh|Hh].
    + rewrite (proj2 (N.ltb_ge h _)) by done. simpl.
      destruct (N.ltb_spec hour h) as [Hh'|Hh'].
      * rewrite (proj2 (Hlast h Hh')), (proj2 (N.eqb_neq h hour)) by lia. done.
      * rewrite Hp by done. by rewrite (proj2 (B1 h (conj Hh Hh'))).
    + rewrite (proj2 (N.ltb_lt h _)) by done. simpl.
      rewrite (proj2 (N.eqb_neq h hour)) by lia. done.
Qed.

(** ** The ring refines the set of accepted observations *)

Definition run_notes (r : Uptime) (notes : list (N * bool)) : Uptime :=
  foldl (fun r n => (note n.1 n.2 r).2) r notes.

(** The observations a clock that never steps back would have made: those not
    before the latest one. *)
Fixpoint accepted_notes (latest : N) (notes : list (N * bool)) : list (N * bool) :=
  match notes with
  | [] => []
  | (h, s) :: rest =>
      if h <? latest then accepted_notes latest rest else (h, s) :: accepted_notes h rest
  end.

(** [r] answers as the history [acc] read over the last [WINDOW_HOURS]. *)
Record refines (acc : list (N * bool)) (r : Uptime) : Prop := {
  refines_wf : ring_wf r;
  refines_past : forall n, n ∈ acc -> n.1 <= last_hour r;
  refines_attempted : forall h,
    attempted_at r h = bool_decide (h ∈ acc.*1) && (last_hour r <? h + WINDOW_HOURS);
  refines_seen : forall h,
    seen_at r h = bool_decide ((h, true) ∈ acc) && (last_hour r <? h + WINDOW_HOURS);
}.

Lemma uptime_new_refines hour : refines [] (uptime_new hour).
Proof.
  split; [apply uptime_new_wf|set_solver| |]; intros h; simpl;
    unfold attempted_at, seen_at; rewrite bit_set_bitat; simpl; rewrite bitat_zero;
    by destruct (_ || _).
Qed.

(** The window of [r'] is the history's window on anything [r] still shows. *)
Lemma window_agrees hour s r (b : bool) h :
  ring_wf r -> last_hour r <= hour ->
  (b = true -> window_start r <= h <= last_hour r) ->
  ((window_start (note hour s r).2 <=? h) && b) = (b && (hour <? h + WINDOW_HOURS)).
Proof.
  intros Hwf Hle Hb. destruct b; [|by rewrite andb_false_r]. rewrite andb_true_r. simpl.
  specialize (Hb eq_refl).
  destruct (note_spec hour s r Hwf Hle) as ([_ _ _ Hfl] & L & F & _). cbn zeta in *.
  unfold window_start, WINDOW_HOURS in *. rewrite L in *.
  destruct (N.ltb_spec hour (h + 672)); [apply N.leb_le|apply N.leb_gt].
  - rewrite F by lia. lia.
  - lia.
Qed.

Lemma attempted_at_window r h : attempted_at r h = true -> window_start r <= h <= last_hour r.
Proof. unfold attempted_at. split_ifs; [done|]. apply orb_false_iff in H as [H1 H2]. nbool. lia. Qed.

Lemma seen_at_window r h : seen_at r h = true -> window_start r <= h <= last_hour r.
Proof. unfold seen_at. split_ifs; [done|]. apply orb_false_iff in H as [H1 H2]. nbool. lia. Qed.

Lemma note_refines hour s r acc :
  refines acc r -> last_hour r <= hour -> refines (acc ++ [(hour, s)]) (note hour s r).2.
Proof.
  intros [Hwf Hpast Ha Hs] Hle.
  destruct (note_spec hour s r Hwf Hle) as (Hwf' & L & _ & A & S). cbn zeta in *.
  split; [done| | |].
  - intros n. rewrite elem_of_app, list_elem_of_singleton, L. intros [Hn| ->]; [|simpl; lia].
    specialize (Hpast n Hn). lia.
  - intros h. rewrite A, L.
    rewrite (window_agrees hour s r (attempted_at r h) h) by eauto using attempted_at_window.
    rewrite Ha, fmap_app. unfold WINDOW_HOURS.
    destruct (N.eqb_spec h hour) as [->|Hne]; simpl.
    + rewrite bool_decide_eq_true_2 by set_solver. symmetry. simpl. apply N.ltb_lt. lia.
    + rewrite (bool_decide_ext (h ∈ acc.*1 ++ [hour]) (h ∈ acc.*1)) by set_solver.
      destruct (bool_decide _); simpl; [|done].
      destruct (N.ltb_spec (last_hour r) (h + 672)); simpl; [done|].
      symmetry. apply N.ltb_ge. lia.
  - intros h. rewrite S, L.
    rewrite (window_agrees hour s r (seen_at r h) h) by eauto using seen_at_window.
    rewrite Hs. unfold WINDOW_HOURS.
    destruct (N.eqb_spec h hour) as [->|Hne]; simpl.
    + destruct s; simpl.
      * rewrite bool_decide_eq_true_2 by set_solver. symmetry. apply N.ltb_lt. lia.
      * rewrite (bool_decide_ext ((hour, true) ∈ acc ++ [(hour, false)]) ((hour, true) ∈ acc))
          by set_solver.
        destruct (bool_decide _); simpl; [|done].
        destruct (N.ltb_spec (last_hour r) (hour + 672)); simpl; [done|].
        symmetry. apply N.ltb_ge. lia.
    + rewrite (bool_decide_ext ((h, true) ∈ acc ++ [(hour, s)]) ((h, true) ∈ acc)) by set_solver.
      destruct (bool_decide _); simpl; [|done].
      destruct (N.ltb_spec (last_hour r) (h + 672)); simpl; [done|].
      symmetry. apply N.ltb_ge. lia.
Qed.

Lemma run_refines notes r acc :
  refines acc r ->
  refines (acc ++ accepted_notes (last_hour r) notes) (run_notes r notes).
Proof.
  revert r acc. induction notes as [|[h s] notes IH]; intros r acc Hr; simpl.
  { by rewrite app_nil_r. }
  destruct (N.ltb_spec h (last_hour r)) as [Hlt|Hge].
  - unfold note. rewrite (proj2 (N.ltb_lt h (last_hour r))) by done. by apply IH.
  - pose proof (note_refines h s r acc Hr Hge) as Hn.
    destruct (note_spec h s r (refines_wf _ _ Hr) Hge) as (_ & L & _). cbn zeta in L.
    specialize (IH _ _ Hn). rewrite L, <- app_assoc in IH. exact IH.
Qed.

(** After any sequence of observations from an empty ring, whatever the
    clock did, the ring answers exactly as the set of accepted observations
    (those not earlier than the latest before them) restricted to the last
    [WINDOW_HOURS] hours: an hour reads attempted iff it was noted in the
    window, and seen iff some accepted note of it saw the device. *)
Theorem ring_refines_history (start : N) (notes : list (N * bool)) (h : N) :
  let r := run_notes (uptime_new start) notes in
  let acc := accepted_notes start notes in
  attempted_at r h = bool_decide (h ∈ acc.*1) && (last_hour r <? h + WINDOW_HOURS)
  /\ seen_at r h = bool_decide ((h, true) ∈ acc) && (last_hour r <? h + WINDOW_HOURS).
Proof.
  pose proof (run_refines notes (uptime_new start) [] (uptime_new_refines start)) as [_ _ Ha Hs].
  split; [apply Ha|apply Hs].
Qed.

(** ** Figures are in range *)

Lemma count_ones_mono v w :
  (forall i, N.testbit v i = true -> N.testbit w i = true) -> count_ones v <= count_ones w.
Proof.
  intros Hs. unfold count_ones.
  enough (length (filter (fun i => N.testbit v (N.of_nat i) = true) (seq 0 64))
          <= length (filter (fun i => N.testbit w (N.of_nat i) = true) (seq 0 64)))%nat by lia.
  induction (seq 0 64) as [|i l IH]; [done|]. rewrite !filter_cons.
  specialize (Hs (N.of_nat i)). repeat case_decide; simpl; try lia. tauto.
Qed.

Lemma sum_ones_mono l k :
  length l = length k ->
  (forall j i, N.testbit (nth j l 0) i = true -> N.testbit (nth j k 0) i = true) ->
  foldr (fun w n => count_ones w + n) 0 l <= foldr (fun w n => count_ones w + n) 0 k.
Proof.
  revert k. induction l as [|v l IH]; intros [|w k] Hlen Hs; simpl in *; try lia.
  specialize (IH k ltac:(lia) (fun j => Hs (S j))).
  pose proof (count_ones_mono v w (Hs 0%nat)). lia.
Qed.

(** A bit of a word past the 64th is never set in a [u64]. *)
Definition words_u64 (r : Uptime) : Prop :=
  Forall (fun w => w < 2 ^ 64) (attempted r) /\ Forall (fun w => w < 2 ^ 64) (seen_words r).

Lemma testbit_small w i : w < 2 ^ 64 -> 64 <= i -> N.testbit w i = false.
Proof.
  intros Hw Hi. destruct (N.eq_dec w 0) as [->|Hne]; [apply N.bits_0|].
  apply N.bits_above_log2. apply N.log2_lt_pow2; [lia|].
  eapply N.lt_le_trans; [exact Hw|]. apply N.pow_le_mono_r; lia.
Qed.

Lemma seen_le_attempted r : ring_wf r -> words_u64 r -> seen_hours r <= attempted_hours r.
Proof.
  intros [La Ls Hsub _] [Ha Hs]. apply sum_ones_mono; [congruence|]. intros j i Hi.
  destruct (decide (i < 64)) as [Hlt|Hge].
  - specialize (Hsub (64 * N.of_nat j + i)). unfold bitat in Hsub.
    rewrite (N.mul_comm 64), N.div_add_l, (N.div_small i 64), N.add_0_r, Nat2N.id,
      (N.add_comm _ i), N.Div0.mod_add, N.mod_small in Hsub by lia. auto.
  - rewrite testbit_small in Hi; [done| |lia].
    rewrite nth_lookup. destruct (seen_words r !! j) as [w|] eqn:E; simpl; [|lia].
    by apply (Forall_lookup_1 _ _ j w Hs).
Qed.

Lemma availability_le r now lost a :
  ring_wf r -> words_u64 r -> availability now lost r = Some a -> a <= 1000.
Proof.
  intros Hwf Hw. unfold availability. pose proof (seen_le_attempted r Hwf Hw) as Hle.
  destruct (_ <? MIN_SPAN_HOURS); [done|].
  destruct (N.ltb_spec (attempted_hours r) MIN_ATTEMPTED_HOURS) as [?|Hm]; [done|].
  unfold MIN_ATTEMPTED_HOURS in Hm.
  assert (seen_hours r * 1000 / attempted_hours r <= 1000).
  { apply N.Div0.div_le_upper_bound. lia. }
  destruct (last_seen_hour r) as [l|]; [|intros [= <-]; lia].
  destruct (_ <=? lost); [|intros [= <-]; lia].
  destruct (_ <=? 2 ^ 16 - 1); intros [= <-]; lia.
Qed.

Lemma lost_after_range u : LOST_AFTER_FLOOR <= lost_after u <= LOST_AFTER_CEILING.
Proof.
  unfold lost_after, clamp. destruct u as [r|]; [|vm_compute; split; congruence].
  assert (LOST_AFTER_FLOOR <= LOST_AFTER_CEILING) by (vm_compute; congruence). lia.
Qed.

Lemma mul_div_ppm a b : b <= PPM -> a * b / PPM <= a.
Proof.
  intros Hb. apply N.Div0.div_le_upper_bound. unfold PPM in *.
  transitivity (a * 1000000); [by apply N.mul_le_mono_l|lia].
Qed.

Lemma independent_step_le now acc u :
  acc * (PPM - N.min (unit_available now u) 1000 * 1000) / PPM <= acc.
Proof. apply mul_div_ppm. lia. Qed.

Lemma independent_fold_le now units acc :
  foldl (fun acc u => acc * (PPM - N.min (unit_available now u) 1000 * 1000) / PPM) acc units <= acc.
Proof.
  revert acc. induction units as [|u units IH]; intros acc; simpl; [lia|].
  etransitivity; [apply IH|apply independent_step_le].
Qed.

Lemma joint_fold rings l j m :
  m <= j ->
  (foldl (joint_step rings) (j, m) l).2 <= (foldl (joint_step rings) (j, m) l).1.
Proof.
  revert j m. induction l as [|h l IH]; intros j m Hle; simpl; [done|].
  destruct (forallb _ _); [|by apply IH]. destruct (existsb _ _); apply IH; lia.
Qed.

Lemma miss_ppm_le units now : miss_ppm units now <= PPM.
Proof.
  pose proof (independent_fold_le now units PPM) as Hi.
  unfold miss_ppm, independent_ppm.
  assert (He : forall f, empirical_ppm units now = Some f -> f <= PPM).
  { intros f. unfold empirical_ppm. destruct (mapM unit_uptime units) as [[|r rest]|]; try done.
    pose proof (joint_fold (r :: rest) (hours (now - (WINDOW_HOURS - 1)) now) 0 0 ltac:(lia)) as Hj.
    destruct (foldl (joint_step (r :: rest)) (0, 0) _) as [j m]. simpl in Hj.
    destruct (N.leb_spec MIN_ATTEMPTED_HOURS j) as [Hm|]; [|done]. intros [= <-].
    apply N.Div0.div_le_upper_bound. unfold PPM. apply N.mul_le_mono_r with (p := 1000000) in Hj. lia. }
  destruct (empirical_ppm units now) as [f|]; [specialize (He f eq_refl)|];
    destruct (_ <=? u32_max) eqn:E; nbool; lia.
Qed.

(** The figures placement decides on are in range, so none of the
    fall-backs of the conversions is ever taken: a well-formed ring's
    availability is at most 1000 per mille, the lost-after window lies between
    its floor and its ceiling, the probability that no unit is reachable is at
    most one million parts, and a further independent unit never raises the
    independent estimate. *)
Theorem figures_in_range (r : Uptime) (now lost a : N) (u : option Uptime) (units : list Unit)
  (x : Unit) :
  (ring_wf r -> words_u64 r -> availability now lost r = Some a -> a <= 1000)
  /\ LOST_AFTER_FLOOR <= lost_after u <= LOST_AFTER_CEILING
  /\ miss_ppm units now <= PPM
  /\ independent_ppm (units ++ [x]) now <= independent_ppm units now.
Proof.
  split_and!; [apply availability_le|apply lost_after_range..|apply miss_ppm_le|].
  unfold independent_ppm. rewrite foldl_app. simpl. apply independent_step_le.
Qed.

(** A device seen in each of its first two hundred hours. *)
Definition steady_ring : Uptime := run_notes (uptime_new 0) ((fun h => (h, true)) <$> hours 0 200).

Lemma figures_in_range_witness :
  availability 200 168 steady_ring = Some 1000 /\ 1000 <= 1000.
Proof.
  assert (E : availability 200 168 steady_ring = Some 1000) by (vm_compute; reflexivity).
  split; [exact E|].
  refine (proj1 (figures_in_range steady_ring 200 168 1000 None [] (mkUnit None 0)) _ _ E).
  - apply (refines_wf _ _ (run_refines _ _ [] (uptime_new_refines 0))).
  - split; apply (bool_decide_eq_true_1 _); vm_compute; reflexivity.
Defined.
