(* ===== verification/Network.v ===== *)
(** * Network: the networks hosts are seen from

    Models [crates/itsanas-placement/src/network.rs].  An address is its octets;
    the predicates of [std::net] the source calls are written out.  The lemmas
    say which addresses share a network, that the tags keep the four kinds of
    prefix apart, and that the stored bytes read back. *)

From S2P Require Import Prelude.

Definition NETWORK_BYTES : nat := 17.
Definition PUBLIC_V4 : N := 1.
Definition PRIVATE_V4 : N := 2.
Definition PUBLIC_V6 : N := 3.
Definition UNIQUE_LOCAL_V6 : N := 4.

(** [Network([u8; NETWORK_BYTES])] *)
Record Network := mkNetwork { net_bytes : list N }.

#[export] Instance Network_eq_dec : EqDecision Network.
Proof. solve_decision. Defined.
#[export] Instance Network_countable : Countable Network.
Proof. by apply (inj_countable' net_bytes mkNetwork); intros []. Defined.

(** The derived order compares the bytes. *)
Definition network_le (a b : Network) : Prop := Is_true (bytes_leb (net_bytes a) (net_bytes b)).

#[export] Instance network_le_dec : RelDecision network_le.
Proof. intros a b. unfold network_le. apply _. Defined.

#[export] Instance KeyOrd_Network : KeyOrd Network.
Proof.
  refine {| key_le := network_le |}; unfold network_le.
  - intros a b. rewrite !Is_true_true. apply bytes_leb_total.
  - intros a b c. rewrite !Is_true_true. apply bytes_leb_trans.
  - intros [a] [b]. rewrite !Is_true_true. intros H1 H2. f_equal. by apply bytes_leb_antisym.
Defined.

Record Ipv4Addr := mkV4 { v4a : N; v4b : N; v4c : N; v4d : N }.

Inductive IpAddr :=
| V4 (ip : Ipv4Addr)
| V6 (octets : list N).

(** ** [std::net] *)

Definition is_loopback4 (ip : Ipv4Addr) : bool := v4a ip =? 127.
Definition is_unspecified4 (ip : Ipv4Addr) : bool :=
  (v4a ip =? 0) && (v4b ip =? 0) && (v4c ip =? 0) && (v4d ip =? 0).
Definition is_broadcast (ip : Ipv4Addr) : bool :=
  (v4a ip =? 255) && (v4b ip =? 255) && (v4c ip =? 255) && (v4d ip =? 255).
Definition is_link_local4 (ip : Ipv4Addr) : bool := (v4a ip =? 169) && (v4b ip =? 254).
Definition is_multicast4 (ip : Ipv4Addr) : bool := (224 <=? v4a ip) && (v4a ip <=? 239).
Definition is_private (ip : Ipv4Addr) : bool :=
  (v4a ip =? 10)
  || ((v4a ip =? 172) && (16 <=? v4b ip) && (v4b ip <=? 31))
  || ((v4a ip =? 192) && (v4b ip =? 168)).

Definition octet (l : list N) (i : nat) : N := nth i l 0.
Definition is_loopback6 (o : list N) : bool := bool_decide (o = replicate 15 0 ++ [1]).
Definition is_unspecified6 (o : list N) : bool := bool_decide (o = replicate 16 0).
Definition is_multicast6 (o : list N) : bool := octet o 0 =? 255.

Definition to_ipv4_mapped (o : list N) : option Ipv4Addr :=
  if decide (take 12 o = replicate 10 0 ++ [255; 255])
  then Some (mkV4 (octet o 12) (octet o 13) (octet o 14) (octet o 15))
  else None.

(** ** network.rs *)

Definition of_v4 (v4 : Ipv4Addr) : option Network :=
  let overlay := (v4a v4 =? 100) && (64 <=? v4b v4) && (v4b v4 <? 128) in
  if is_loopback4 v4 || is_unspecified4 v4 || is_broadcast v4 || is_link_local4 v4
     || is_multicast4 v4 || overlay
  then None
  else
    let tag := if is_private v4 then PRIVATE_V4 else PUBLIC_V4 in
    Some (mkNetwork ([tag; v4a v4; v4b v4; v4c v4] ++ replicate 13 0)).

Definition of_v6 (octets : list N) : option Network :=
  let link_local := (octet octets 0 =? 0xfe) && (N.land (octet octets 1) 0xc0 =? 0x80) in
  if is_loopback6 octets || is_unspecified6 octets || is_multicast6 octets || link_local
  then None
  else if N.land (octet octets 0) 0xfe =? 0xfc
  then Some (mkNetwork (UNIQUE_LOCAL_V6 :: take 8 octets ++ replicate 8 0))
  else Some (mkNetwork (PUBLIC_V6 :: take 6 octets ++ replicate 10 0)).

Definition network_of (ip : IpAddr) : option Network :=
  match ip with
  | V4 v4 => of_v4 v4
  | V6 octets => match to_ipv4_mapped octets with
                 | Some v4 => of_v4 v4
                 | None => of_v6 octets
                 end
  end.

Definition to_bytes (n : Network) : list N := net_bytes n.

Definition from_bytes (bytes : list N) : option Network :=
  if decide (length bytes = NETWORK_BYTES)
  then if decide (octet bytes 0 ∈ [PUBLIC_V4; PRIVATE_V4; PUBLIC_V6; UNIQUE_LOCAL_V6])
       then Some (mkNetwork bytes) else None
  else None.

(** ** Lemmas *)

Definition network_wf (n : Network) : Prop := from_bytes (net_bytes n) = Some n.

Lemma of_v4_wf v4 n : of_v4 v4 = Some n -> network_wf n.
Proof.
  unfold of_v4. destruct (_ || _); [done|]. intros [= <-].
  by destruct (is_private v4).
Qed.

Lemma of_v6_wf o n : length o = 16%nat -> of_v6 o = Some n -> network_wf n.
Proof.
  intros Hl. unfold of_v6. destruct (_ || _); [done|].
  assert (Hpad : forall tag k m, tag ∈ [PUBLIC_V4; PRIVATE_V4; PUBLIC_V6; UNIQUE_LOCAL_V6] ->
    (k + m = 16)%nat -> network_wf (mkNetwork (tag :: take k o ++ replicate m 0))).
  { intros tag k m Ht Hk. unfold network_wf, from_bytes. cbn [net_bytes octet nth].
    rewrite decide_True; [by rewrite decide_True|].
    cbn [length]. rewrite length_app, length_take, length_replicate, Hl.
    unfold NETWORK_BYTES. lia. }
  destruct (_ =? 0xfc); intros E%(inj Some); subst n; apply Hpad; done || set_solver.
Qed.

(** Every network read from an address is stored and read back unchanged. *)
Lemma network_round_trip ip n :
  match ip with V4 _ => True | V6 o => length o = 16%nat end ->
  network_of ip = Some n -> from_bytes (to_bytes n) = Some n.
Proof.
  destruct ip as [v4|o]; cbn [network_of]; intros Hl.
  - apply of_v4_wf.
  - destruct (to_ipv4_mapped o); [apply of_v4_wf|by apply of_v6_wf].
Qed.

Lemma of_v4_same a b n :
  of_v4 a = Some n -> of_v4 b = Some n ->
  v4a a = v4a b /\ v4b a = v4b b /\ v4c a = v4c b.
Proof.
  unfold of_v4. destruct (_ || _); [done|]. intros [= <-].
  destruct (is_loopback4 b || _ || _ || _ || _ || _); [done|]. by intros [= _ -> -> ->].
Qed.

(** Two public addresses share a network exactly when they share a /24. *)
Lemma of_v4_slash_24 a b :
  is_Some (of_v4 a) -> is_Some (of_v4 b) ->
  of_v4 a = of_v4 b <-> v4a a = v4a b /\ v4b a = v4b b /\ v4c a = v4c b.
Proof.
  intros [n Ha] [m Hb]. split.
  - intros E. apply (of_v4_same a b n); congruence.
  - intros (E1 & E2 & E3). unfold of_v4 in *.
    destruct (is_loopback4 a || _ || _ || _ || _ || _); [done|].
    destruct (is_loopback4 b || _ || _ || _ || _ || _); [done|].
    unfold is_private. by rewrite E1, E2, E3.
Qed.

(** Overlay and carrier-grade addresses name no house. *)
Lemma overlay_names_no_network b c d : 64 <= b < 128 -> network_of (V4 (mkV4 100 b c d)) = None.
Proof.
  intros [H1 H2]. cbn [network_of]. unfold of_v4. cbn [v4a v4b].
  apply N.leb_le in H1. apply N.ltb_lt in H2. rewrite H1, H2.
  by rewrite !orb_true_r.
Qed.
