(* ===== verification/Households.v ===== *)
(** * Households: counting independent holders

    Models [root] and [households] of [crates/itsanas-placement/src/target.rs]:
    a union-find with path halving over the holders of a chunk, two holders
    being joined when [shared] says so.  The parent array is a list of indices,
    the [while] loop takes fuel, and the invariant [forest] shows that the
    length of the array is always enough.  [households_count] is the result:
    the number answered is the number of connected components. *)

From S2P Require Import Prelude.
From stdpp Require Import relations.

#[local] Open Scope nat_scope.

(** [parent[at]] *)
Definition up (parent : list nat) (at_ : nat) : nat := nth at_ parent 0.

(** [root]: follow the parents, halving the path on the way. *)
Fixpoint root_go (fuel : nat) (parent : list nat) (at_ : nat) : list nat * nat :=
  match fuel with
  | O => (parent, at_)
  | S fuel =>
      if up parent at_ =? at_ then (parent, at_)
      else
        let parent := <[at_ := up parent (up parent at_)]> parent in
        root_go fuel parent (up parent at_)
  end.

Definition root (parent : list nat) (at_ : nat) : list nat * nat :=
  root_go (length parent) parent at_.

(** [parent[ra] = rb] for the roots of [i] and [j]. *)
Definition join (parent : list nat) (i j : nat) : list nat :=
  let '(parent, ra) := root parent i in
  let '(parent, rb) := root parent j in
  <[ra := rb]> parent.

(** The pairs the two nested loops visit, in order. *)
Definition pairs (n : nat) : list (nat * nat) :=
  i ← seq 0 n; j ← seq (S i) (n - S i); [(i, j)].

Section households.
Context {A : Type} (shared : A -> A -> bool).

Definition shared_at (l : list A) (i j : nat) : bool :=
  match l !! i, l !! j with Some a, Some b => shared a b | _, _ => false end.

Definition join_pair (l : list A) (parent : list nat) (p : nat * nat) : list nat :=
  if shared_at l p.1 p.2 then join parent p.1 p.2 else parent.

Definition count_root (acc : list nat * nat) (i : nat) : list nat * nat :=
  let '(parent, r) := root acc.1 i in (parent, if r =? i then S acc.2 else acc.2).

Definition households_by (l : list A) : nat :=
  let n := length l in
  let parent := foldl (join_pair l) (seq 0 n) (pairs n) in
  (foldl count_root (parent, 0) (seq 0 n)).2.

End households.

(** ** The forest invariant *)

(** How many of the first [n] have the representative [r]. *)
Definition class_size (rep : nat -> nat) (n r : nat) : nat :=
  length (filter (fun j => rep j = r) (seq 0 n)).

Record forest (n : nat) (parent : list nat) (rep depth : nat -> nat) : Prop := {
  f_len : length parent = n;
  f_lt : forall i, i < n -> rep i < n;
  f_up : forall i, i < n -> up parent i < n /\ rep (up parent i) = rep i;
  f_root : forall i, i < n -> up parent (rep i) = rep i;
  f_rep : forall i, i < n -> up parent i = i -> rep i = i;
  f_down : forall i, i < n -> up parent i <> i -> depth (up parent i) < depth i;
  f_zero : forall i, i < n -> depth (rep i) = 0;
  f_size : forall i, i < n -> depth i < class_size rep n (rep i);
}.

Lemma up_insert parent i j v :
  i < length parent -> up (<[i := v]> parent) j = if decide (i = j) then v else up parent j.
Proof.
  intros Hi. unfold up. rewrite !nth_lookup.
  destruct (decide (i = j)) as [->|Hne].
  - by rewrite list_lookup_insert_eq.
  - by rewrite list_lookup_insert_ne.
Qed.

Lemma class_size_le rep n r : class_size rep n r <= n.
Proof.
  unfold class_size. etransitivity; [apply length_filter|]. by rewrite length_seq.
Qed.

Lemma class_size_pos rep n i : i < n -> 0 < class_size rep n (rep i).
Proof.
  intros Hi. unfold class_size.
  assert (i ∈ filter (fun j => rep j = rep i) (seq 0 n)) as Hin.
  { apply list_elem_of_filter. split; [done|]. apply elem_of_seq. lia. }
  destruct (filter _ _); [by apply not_elem_of_nil in Hin|cbn; lia].
Qed.

(** Two classes made one. *)
Definition merged (rep : nat -> nat) (ra rb : nat) (i : nat) : nat :=
  if decide (rep i = ra) then rb else rep i.

Lemma class_size_merged rep n ra rb r :
  ra <> rb ->
  class_size (merged rep ra rb) n r
  = if decide (r = ra) then 0
    else if decide (r = rb) then class_size rep n ra + class_size rep n rb
    else class_size rep n r.
Proof.
  intros Hne. unfold class_size. induction (seq 0 n) as [|x l IH].
  { by repeat case_decide. }
  rewrite !filter_cons. unfold merged in *.
  repeat (case_decide; cbn [length]; simplify_eq); lia || congruence.
Qed.

Lemma forest_rep_rep n parent rep depth i : forest n parent rep depth -> i < n -> rep (rep i) = rep i.
Proof.
  intros F Hi. apply (f_rep _ _ _ _ F); [by apply (f_lt _ _ _ _ F)|by apply (f_root _ _ _ _ F)].
Qed.

(** One halving step keeps the forest. *)
Lemma forest_halve n parent rep depth i :
  forest n parent rep depth -> i < n -> up parent i <> i ->
  forest n (<[i := up parent (up parent i)]> parent) rep depth
  /\ depth (up parent (up parent i)) < depth i
  /\ up parent (up parent i) < n /\ rep (up parent (up parent i)) = rep i.
Proof.
  intros F Hi Hne. pose proof F as [F1 F2 F3 F4 F5 F6 F7 F8].
  destruct (F3 i Hi) as [Hp Hrp]. destruct (F3 _ Hp) as [Hg Hrg].
  assert (Hd : depth (up parent (up parent i)) < depth i).
  { pose proof (F6 i Hi Hne). destruct (decide (up parent (up parent i) = up parent i)) as [->|Hn].
    - done.
    - pose proof (F6 _ Hp Hn). lia. }
  split; [|split_and!; [done|done|congruence]].
  assert (Hup : forall j, up (<[i := up parent (up parent i)]> parent) j
                          = if decide (i = j) then up parent (up parent i) else up parent j).
  { intros j. apply up_insert. lia. }
  split.
  - by rewrite length_insert.
  - done.
  - intros j Hj. rewrite Hup. destruct (decide (i = j)) as [<-|]; [split; congruence|auto].
  - intros j Hj. rewrite Hup. destruct (decide (i = rep j)) as [E|]; [|auto].
    destruct Hne. rewrite E. auto.
  - intros j Hj. rewrite Hup. destruct (decide (i = j)) as [<-|]; [|auto].
    intros E. rewrite E in Hd. lia.
  - intros j Hj. rewrite Hup. destruct (decide (i = j)) as [<-|]; auto.
  - done.
  - done.
Qed.

Lemma root_go_spec n fuel parent rep depth i :
  forest n parent rep depth -> i < n -> depth i < fuel ->
  exists parent', root_go fuel parent i = (parent', rep i) /\ forest n parent' rep depth.
Proof.
  revert parent i. induction fuel as [|fuel IH]; intros parent i F Hi Hd; [lia|].
  cbn [root_go]. destruct (Nat.eqb_spec (up parent i) i) as [E|E].
  { exists parent. split; [|done]. by rewrite (f_rep _ _ _ _ F i Hi E). }
  destruct (forest_halve n parent rep depth i F Hi E) as (F' & Hd' & Hlt & Hrep).
  rewrite up_insert by by rewrite (f_len _ _ _ _ F). rewrite decide_True by done.
  destruct (IH _ (up parent (up parent i)) F' Hlt) as (p & Hp & Fp); [lia|].
  exists p. by rewrite Hp, Hrep.
Qed.

(** The array's own length is fuel enough. *)
Lemma root_spec n parent rep depth i :
  forest n parent rep depth -> i < n ->
  exists parent', root parent i = (parent', rep i) /\ forest n parent' rep depth.
Proof.
  intros F Hi. unfold root. apply (root_go_spec n); [done|done|].
  rewrite (f_len _ _ _ _ F). pose proof (f_size _ _ _ _ F i Hi).
  pose proof (class_size_le rep n (rep i)). lia.
Qed.

Lemma forest_start n : forest n (seq 0 n) (fun i => i) (fun _ => 0).
Proof.
  assert (Hup : forall i, i < n -> up (seq 0 n) i = i).
  { intros i Hi. unfold up. rewrite nth_lookup, lookup_seq_lt by done. done. }
  split; try done.
  - apply length_seq.
  - intros i Hi. by rewrite Hup.
  - intros i Hi He. by rewrite Hup in He.
  - intros i Hi. by apply (class_size_pos (fun i => i)).
Qed.

(** ** Joining two trees *)

Lemma forest_join_roots n parent rep depth ra rb :
  forest n parent rep depth -> ra < n -> rb < n -> rep ra = ra -> rep rb = rb -> ra <> rb ->
  forest n (<[ra := rb]> parent) (merged rep ra rb)
    (fun x => if decide (rep x = ra) then S (depth x) else depth x).
Proof.
  intros F Ha Hb Ra Rb Hne. pose proof F as [F1 F2 F3 F4 F5 F6 F7 F8].
  assert (Hup : forall j, up (<[ra := rb]> parent) j
                          = if decide (ra = j) then rb else up parent j).
  { intros j. apply up_insert. lia. }
  assert (Hrb : up parent rb = rb) by (rewrite <- Rb at 1; rewrite F4; done).
  split; unfold merged.
  - by rewrite length_insert.
  - intros i Hi. case_decide; auto.
  - intros i Hi. rewrite Hup. destruct (decide (ra = i)) as [<-|Hi'].
    + rewrite Ra, Rb. by repeat case_decide.
    + destruct (F3 i Hi) as [? ->]. done.
  - intros i Hi. rewrite Hup. destruct (decide (rep i = ra)).
    + by rewrite decide_False by done.
    + rewrite decide_False by done. auto.
  - intros i Hi. rewrite Hup. destruct (decide (ra = i)) as [<-|Hi'].
    + congruence.
    + intros E. rewrite (F5 i Hi E). by rewrite decide_False.
  - intros i Hi. rewrite Hup. destruct (decide (ra = i)) as [<-|Hi'].
    + intros _. rewrite Ra, Rb, decide_False, decide_True by done.
      pose proof (F7 rb Hb) as Hz. rewrite Rb in Hz. lia.
    + intros E. destruct (F3 i Hi) as [_ ->]. pose proof (F6 i Hi E). case_decide; lia.
  - intros i Hi. destruct (decide (rep i = ra)).
    + rewrite Rb, decide_False by done. pose proof (F7 rb Hb) as Hz. by rewrite Rb in Hz.
    + rewrite (forest_rep_rep _ _ _ _ _ F Hi), decide_False by done. auto.
  - intros i Hi. pose proof (F8 i Hi) as Hs. fold (merged rep ra rb).
    rewrite class_size_merged by done.
    destruct (decide (rep i = ra)) as [E|E].
    + rewrite decide_False, decide_True by done. rewrite E in Hs.
      pose proof (class_size_pos rep n rb Hb) as Hp. rewrite Rb in Hp. lia.
    + rewrite decide_False by done. case_decide as E'; [rewrite E' in Hs; lia|done].
Qed.

(** What the loops keep: a forest whose classes never leave the equivalence
    [Q], and in which every pair of [done_] is together. *)
Section forest_invariant.
Context (n : nat) (Q : nat -> nat -> Prop) `{!Equivalence Q}.

Definition joined (done_ : list (nat * nat)) (parent : list nat) : Prop :=
  exists rep depth, forest n parent rep depth
    /\ (forall i, i < n -> Q i (rep i))
    /\ (forall p, p ∈ done_ -> rep p.1 = rep p.2).

Lemma joined_start : joined [] (seq 0 n).
Proof.
  exists (fun i => i), (fun _ => 0). split; [apply forest_start|].
  split; [done|]. intros p Hp. by apply not_elem_of_nil in Hp.
Qed.

Lemma joined_join done_ parent i j :
  joined done_ parent -> i < n -> j < n -> Q i j -> joined (done_ ++ [(i, j)]) (join parent i j).
Proof.
  intros (rep & depth & F & HQ & HD) Hi Hj Hij. unfold join.
  destruct (root_spec _ _ _ _ i F Hi) as (p1 & -> & F1).
  destruct (root_spec _ _ _ _ j F1 Hj) as (p2 & -> & F2).
  assert (Ri : rep i < n) by by apply (f_lt _ _ _ _ F).
  assert (Rj : rep j < n) by by apply (f_lt _ _ _ _ F).
  destruct (decide (rep i = rep j)) as [E|E].
  - exists rep, depth. split; [|split; [done|]].
    + rewrite list_insert_id; [done|]. rewrite <- E.
      pose proof (f_root _ _ _ _ F2 i Hi) as Hr. unfold up in Hr. rewrite nth_lookup in Hr.
      destruct (lookup_lt_is_Some_2 p2 (rep i)) as [v Hv]; [by rewrite (f_len _ _ _ _ F2)|].
      rewrite Hv in Hr |- *. by cbn in Hr; subst.
    + intros p [Hp|Hp%list_elem_of_singleton]%elem_of_app; [auto|by subst].
  - eexists (merged rep (rep i) (rep j)), _. split; [|split].
    + apply forest_join_roots; try done; by eapply forest_rep_rep.
    + intros x Hx. unfold merged. case_decide as Ex; [|auto].
      transitivity (rep x); [auto|]. rewrite Ex. transitivity i; [symmetry; auto|].
      transitivity j; auto.
    + intros p [Hp|Hp%list_elem_of_singleton]%elem_of_app; unfold merged.
      * by rewrite (HD p Hp).
      * subst p. cbn [fst snd]. rewrite decide_True by done. by rewrite decide_False.
Qed.

(** The roots counted at the end. *)
Lemma count_roots_spec parent rep depth l c :
  forest n parent rep depth -> (forall i, i ∈ l -> i < n) ->
  (foldl count_root (parent, c) l).2 = c + length (filter (fun i => rep i = i) l).
Proof.
  revert parent c. induction l as [|i l IH]; intros parent c F Hl; [cbn; lia|].
  cbn [foldl]. unfold count_root at 2. cbn [fst snd].
  destruct (root_spec _ _ _ _ i F) as (p & -> & F'); [apply Hl; left|].
  rewrite IH; [|done|intros; apply Hl; by right]. rewrite filter_cons.
  destruct (Nat.eqb_spec (rep i) i); case_decide; cbn [length]; lia || done.
Qed.

End forest_invariant.

Lemma elem_of_pairs n i j : (i, j) ∈ pairs n <-> i < j < n.
Proof.
  unfold pairs. setoid_rewrite list_elem_of_bind. setoid_rewrite list_elem_of_bind.
  setoid_rewrite list_elem_of_singleton. setoid_rewrite elem_of_seq. split.
  - intros (x & (y & [= -> ->] & Hy) & Hx). lia.
  - intros H. exists i. split; [exists j; split; [done|lia]|lia].
Qed.

(** ** The classes of holders *)

(** Finitely many existence facts give a function. *)
Lemma fin_choice (n : nat) (Q : nat -> nat -> Prop) :
  (forall i, i < n -> exists k, Q i k) -> exists f, forall i, i < n -> Q i (f i).
Proof.
  induction n as [|n IH]; intros H; [exists (fun i => i); lia|].
  destruct IH as [f Hf]; [intros; apply H; lia|]. destruct (H n) as [k Hk]; [lia|].
  exists (fun i => if decide (i = n) then k else f i). intros i Hi.
  case_decide; [by subst|]. apply Hf. lia.
Qed.

Lemma pigeon (n m : nat) (f : nat -> nat) :
  (forall i, i < n -> f i < m) -> (forall i j, i < n -> j < n -> f i = f j -> i = j) -> n <= m.
Proof.
  intros Hb Hinj. rewrite <- (length_seq n 0), <- (length_fmap f), <- (length_seq m 0).
  apply submseteq_length, NoDup_submseteq.
  - apply NoDup_fmap_2_strong; [|apply NoDup_seq].
    intros i j Hi%elem_of_seq Hj%elem_of_seq. apply Hinj; lia.
  - intros x (i & -> & Hi%elem_of_seq)%list_elem_of_fmap. apply elem_of_seq. specialize (Hb i). lia.
Qed.

Section components.
Context {A : Type} (shared : A -> A -> bool).
Hypothesis shared_refl : forall a, shared a a = true.
Hypothesis shared_sym : forall a b, shared a b = true -> shared b a = true.

(** Two holders of [l] are of one household when a chain of holders of [l],
    each sharing with the next, leads from one to the other. *)
Definition linked (l : list A) : relation A :=
  rtc (fun a b => a ∈ l /\ b ∈ l /\ shared a b = true).

Definition apart (l xs : list A) : Prop :=
  NoDup xs /\ forall a b, a ∈ xs -> b ∈ xs -> linked l a b -> a = b.

#[local] Instance linked_preorder l : PreOrder (linked l).
Proof. unfold linked. apply _. Qed.

Lemma linked_sym l a b : linked l a b -> linked l b a.
Proof.
  induction 1 as [|x y z (Hx & Hy & Hs) _ IH]; [done|].
  eapply rtc_r; [exact IH|]. auto.
Qed.

Lemma linked_mono l l' a b : l ⊆ l' -> linked l a b -> linked l' a b.
Proof.
  intros Hsub. apply rtc_subrel. intros x y (Hx & Hy & Hs). auto.
Qed.

Lemma linked_elem l a b : linked l a b -> a ∈ l -> b ∈ l.
Proof. induction 1 as [|x y z (_ & Hy & _) _ IH]; auto. Qed.

(** The same, by position. *)
Definition linked_at (l : list A) : relation nat :=
  rtsc (fun i j => i < j < length l /\ shared_at shared l i j = true).

Lemma linked_at_elem l i j a :
  linked_at l i j -> l !! i = Some a -> exists b, l !! j = Some b /\ linked l a b.
Proof.
  intros H. revert a. induction H as [x|x y z Hxy _ IH]; intros a Ha.
  { exists a. split; [done|apply rtc_refl]. }
  assert (exists b, l !! y = Some b /\ shared a b = true) as (b & Hb & Hs).
  { destruct Hxy as [[_ Hxy]|[_ Hxy]]; unfold shared_at in Hxy; rewrite Ha in Hxy;
      repeat case_match; eauto; done. }
  destruct (IH b Hb) as (c & Hc & Hl). exists c. split; [done|].
  eapply rtc_l; [|exact Hl]. split_and!; [by eapply list_elem_of_lookup_2..|done].
Qed.

Lemma joined_all l :
  joined (length l) (linked_at l)
    (filter (fun p => shared_at shared l p.1 p.2 = true) (pairs (length l)))
    (foldl (join_pair shared l) (seq 0 (length l)) (pairs (length l))).
Proof.
  assert (Hgo : forall ps done_ parent, (forall p, p ∈ ps -> p ∈ pairs (length l)) ->
    joined (length l) (linked_at l) done_ parent ->
    joined (length l) (linked_at l)
      (done_ ++ filter (fun p => shared_at shared l p.1 p.2 = true) ps)
      (foldl (join_pair shared l) parent ps)).
  { induction ps as [|[i j] ps IH]; intros done_ parent Hps HJ; [by rewrite app_nil_r|].
    cbn [foldl]. assert (Hij : i < j < length l) by (apply elem_of_pairs, Hps; left).
    rewrite filter_cons. unfold join_pair at 2. cbn [fst snd].
    case_decide as Hs; [rewrite Hs|apply not_true_is_false in Hs as ->].
    - rewrite cons_middle, assoc by apply _. apply IH; [intros; apply Hps; by right|].
      apply joined_join; [apply _|done|lia|lia|]. apply rtc_once. by left.
    - apply IH; [intros; apply Hps; by right|done]. }
  apply (Hgo _ []); [done|]. apply joined_start, _.
Qed.

(** What the union-find knows at the end: representatives that agree exactly
    on linked holders, and the count of those that represent themselves. *)
Lemma households_by_spec l :
  exists rep,
    households_by shared l = length (filter (fun i => rep i = i) (seq 0 (length l)))
    /\ (forall i a, l !! i = Some a -> exists b, l !! rep i = Some b /\ linked l a b)
    /\ (forall i, i < length l -> rep (rep i) = rep i)
    /\ (forall i j a b, l !! i = Some a -> l !! j = Some b -> linked l a b -> rep i = rep j).
Proof.
  destruct (joined_all l) as (rep & depth & F & HQ & HD). exists rep. split_and!.
  - unfold households_by. rewrite (count_roots_spec (length l) _ rep depth); [done..|].
    intros i Hi%elem_of_seq. lia.
  - intros i a Hi. apply (linked_at_elem l i); [|done]. apply HQ. by eapply lookup_lt_Some.
  - intros i Hi. by eapply forest_rep_rep.
  - assert (He : forall i j a b, l !! i = Some a -> l !! j = Some b -> i < j ->
      shared a b = true -> rep i = rep j).
    { intros i j a b Ha Hb Hij Hs. apply (HD (i, j)). apply list_elem_of_filter. cbn [fst snd].
      unfold shared_at. rewrite Ha, Hb. split; [done|].
      apply elem_of_pairs. apply lookup_lt_Some in Hb. lia. }
    assert (Hs : forall i j a b, l !! i = Some a -> l !! j = Some b -> shared a b = true ->
      rep i = rep j).
    { intros i j a b Ha Hb Hs. destruct (lt_eq_lt_dec i j) as [[Hij| ->]|Hij]; [by eapply He|done|].
      symmetry. by eapply He; eauto. }
    intros i j a b Ha Hb Hl. revert i Ha. induction Hl as [x|x y z (Hx & Hy & Hxy) _ IH]; intros i Ha.
    + by eapply Hs.
    + apply list_elem_of_lookup_1 in Hy as [k Hk]. rewrite (Hs i k x y Ha Hk Hxy). auto.
Qed.

(** One holder per household: as many as [households_by] counts. *)
Lemma heads_exist l :
  exists heads, length heads = households_by shared l /\ heads ⊆ l /\ apart l heads
    /\ forall a, a ∈ l -> exists h, h ∈ heads /\ linked l a h.
Proof.
  destruct (households_by_spec l) as (rep & Hc & Hr & Hi & Hl).
  set (roots := filter (fun i => rep i = i) (seq 0 (length l))) in *.
  assert (Hroots : forall i, i ∈ roots <-> rep i = i /\ i < length l).
  { intros i. unfold roots. rewrite list_elem_of_filter, elem_of_seq. lia. }
  assert (exists hs, Forall2 (fun i h => l !! i = Some h) roots hs) as [hs Hhs].
  { assert (Forall (fun i => i < length l) roots) as HF.
    { apply Forall_forall. intros i Hin. by apply Hroots. }
    clear -HF. induction HF as [|i r Hi _ [hs IH]]; [by exists []|].
    apply lookup_lt_is_Some_2 in Hi as [h Hh]. exists (h :: hs). by constructor. }
  exists hs. split_and!.
  - rewrite Hc. symmetry. by eapply Forall2_length.
  - intros h [k Hk]%list_elem_of_lookup_1. destruct (Forall2_lookup_r _ _ _ _ _ Hhs Hk) as (i & _ & Hih).
    by eapply list_elem_of_lookup_2.
  - assert (Hone : forall k1 k2 a b, hs !! k1 = Some a -> hs !! k2 = Some b -> linked l a b -> k1 = k2).
    { intros k1 k2 a b Ha Hb Hab.
      destruct (Forall2_lookup_r _ _ _ _ _ Hhs Ha) as (i & Hki & Hia).
      destruct (Forall2_lookup_r _ _ _ _ _ Hhs Hb) as (j & Hkj & Hjb).
      pose proof (Hl i j a b Hia Hjb Hab) as E.
      assert (NoDup roots) as Hnd by apply NoDup_filter, NoDup_seq.
      pose proof (list_elem_of_lookup_2 _ _ _ Hki) as Ri. apply Hroots in Ri as [Ri _].
      pose proof (list_elem_of_lookup_2 _ _ _ Hkj) as Rj. apply Hroots in Rj as [Rj _].
      assert (i = j) as <- by congruence. by eapply NoDup_lookup. }
    split.
    + apply NoDup_alt. intros k1 k2 a Ha Hb. apply (Hone k1 k2 a a); [done..|apply rtc_refl].
    + intros a b [k1 Ha]%list_elem_of_lookup_1 [k2 Hb]%list_elem_of_lookup_1 Hab.
      assert (k1 = k2) by by eapply Hone. congruence.
  - intros a [i Ha]%list_elem_of_lookup_1. destruct (Hr i a Ha) as (b & Hb & Hab).
    exists b. split; [|done]. apply lookup_lt_Some in Ha as Hlt.
    assert (rep i ∈ roots) as [k Hk]%list_elem_of_lookup_1.
    { apply Hroots. split; [by apply Hi|by eapply lookup_lt_Some]. }
    destruct (Forall2_lookup_l _ _ _ _ _ Hhs Hk) as (h & Hkh & Hrh).
    assert (h = b) as -> by congruence. by eapply list_elem_of_lookup_2.
Qed.

(** Holders no chain connects are never more than the households. *)
Lemma apart_le l xs : xs ⊆ l -> apart l xs -> length xs <= households_by shared l.
Proof.
  intros Hsub [Hnd Hap]. destruct (heads_exist l) as (hs & <- & _ & _ & Hcov).
  assert (Hf : forall i, i < length xs -> exists k, k < length hs /\
    exists x h, xs !! i = Some x /\ hs !! k = Some h /\ linked l x h).
  { intros i Hi. apply lookup_lt_is_Some_2 in Hi as [x Hx].
    destruct (Hcov x) as (h & [k Hk]%list_elem_of_lookup_1 & Hl).
    { eapply Hsub, list_elem_of_lookup_2, Hx. }
    exists k. split; [by eapply lookup_lt_Some|eauto]. }
  destruct (fin_choice _ _ Hf) as [f Hf'].
  apply (pigeon (length xs) (length hs) f).
  - intros i Hi. by apply Hf'.
  - intros i j Hi Hj E. destruct (Hf' i Hi) as (_ & x & h & Hx & Hh & Hxh).
    destruct (Hf' j Hj) as (_ & y & h' & Hy & Hh' & Hyh). rewrite E in Hh.
    assert (h = h') as <- by congruence.
    assert (x = y) as <-.
    { apply Hap; [by eapply list_elem_of_lookup_2..|].
      etransitivity; [exact Hxh|by apply linked_sym]. }
    by eapply NoDup_lookup.
Qed.

(** Taking away holders that were all of one household costs one at most. *)
Lemma households_remove `{!EqDecision A} l l' v :
  l' ⊆ l -> (forall a, a ∈ l -> a ∉ l' -> linked l v a) ->
  households_by shared l <= S (households_by shared l').
Proof.
  intros Hsub Hgone. destruct (heads_exist l) as (hs & <- & Hin & [Hnd Hap] & _).
  assert (length (filter (fun h => h ∈ l') hs) <= households_by shared l') as Hkept.
  { apply apart_le.
    - intros h [Hh _]%list_elem_of_filter. done.
    - split; [by apply NoDup_filter|]. intros a b [Ha Ha']%list_elem_of_filter [Hb Hb']%list_elem_of_filter Hl.
      apply Hap; [done..|]. exact (linked_mono _ _ _ _ Hsub Hl). }
  assert (length (filter (fun h => ~ h ∈ l') hs) <= 1) as Hlost.
  { pose proof (NoDup_filter (fun h => ~ h ∈ l') hs Hnd) as Hn.
    assert (Heq : forall a b, a ∈ filter (fun h => ~ h ∈ l') hs -> b ∈ filter (fun h => ~ h ∈ l') hs -> a = b).
    { intros a b [Ha Ha']%list_elem_of_filter [Hb Hb']%list_elem_of_filter. apply Hap; [done..|].
      etransitivity; [apply linked_sym, Hgone; auto|apply Hgone; auto]. }
    destruct (filter (fun h => ~ h ∈ l') hs) as [|a [|b r]]; cbn [length]; [lia..|].
    apply NoDup_cons in Hn as [Hn _]. destruct Hn. rewrite (Heq a b); set_solver. }
  pose proof (Permutation_length (filter_app_complement (fun h => h ∈ l') hs)) as E.
  rewrite length_app in E. unfold not in *. lia.
Qed.

Lemma households_nil : households_by shared [] = 0.
Proof. done. Qed.

Lemma households_le_length l : households_by shared l <= length l.
Proof.
  destruct (heads_exist l) as (hs & <- & Hin & [Hnd _] & _).
  apply submseteq_length, NoDup_submseteq; auto.
Qed.

End components.
