(* ===== verification/Target.v ===== *)
(** * Target: when a chunk has enough copies, and where the next ones go

    Models [crates/itsanas-placement/src/target.rs] ([assess], [want]),
    [release.rs] ([release_holder]) and [spreading.rs].  Counts are [usize]s and
    figures are [u32]s, both as [N].  Main results: the verdict counts
    households whatever identities a stranger makes up, own devices releasing at
    once never go below the goal, and [want] asks only for hosts it needs. *)

From S2P Require Import Prelude Uptime Network Households.

(** ** target.rs: data *)

Record Goal := mkGoal {
  goal_accounts : N;
  goal_miss_ppm : N;
  goal_cap : N;
}.

Definition GOAL : Goal := mkGoal 2 10000 12.

Inductive Account :=
| Known (user : N)
| Unknown.

#[export] Instance Account_eq_dec : EqDecision Account.
Proof. solve_decision. Defined.

Record Holding := mkHolding {
  h_device : N;
  h_account : Account;
  h_own : bool;
  h_uptime : option Uptime;
  h_proven : bool;
  h_recent : bool;
  h_network : option Network;
}.

#[export] Instance Holding_eq_dec : EqDecision Holding.
Proof. solve_decision. Defined.

Record Verdict := mkVerdict {
  v_durable : bool;
  v_available : bool;
  v_miss_ppm : N;
  v_accounts : N;
  v_remote : N;
  v_capped : bool;
}.

Definition satisfied (v : Verdict) : bool := v_durable v && v_available v.

(** ** target.rs: assess *)

(** [a.account == b.account || (a.network.is_some() && a.network == b.network)] *)
Definition shared (a b : Holding) : bool :=
  bool_decide (h_account a = h_account b)
  || (bool_decide (is_Some (h_network a)) && bool_decide (h_network a = h_network b)).

Definition households (proven : list Holding) : N := N.of_nat (households_by shared proven).

(** [!holding.own && holding.proven] *)
Definition counts (h : Holding) : bool := negb (h_own h) && h_proven h.

Definition proven_remote (holdings : list Holding) : list Holding :=
  filter (fun h => counts h = true) holdings.

(** The [match holding.network] loop: holders with no known network, and the
    others by network. *)
Definition group (s : list (option Uptime) * gmap Network (list (option Uptime))) (h : Holding)
  : list (option Uptime) * gmap Network (list (option Uptime)) :=
  match h_network h with
  | Some network => (s.1, <[network := default [] (s.2 !! network) ++ [h_uptime h]]> s.2)
  | None => (s.1 ++ [h_uptime h], s.2)
  end.

(** [iter.max_by_key(key)]: the last of the greatest. *)
Definition max_by_key {A} (key : A -> N) (l : list A) : option A :=
  foldl (fun best a => match best with
                       | Some b => if key b <=? key a then Some a else Some b
                       | None => Some a
                       end) None l.

Definition ring_score (now_hour : N) (ring : Uptime) : N :=
  default 0 (availability now_hour (lost_after_hours (Some ring)) ring).

Definition unit_of (uptime : option Uptime) : Unit := mkUnit uptime (lost_after_hours uptime).

Definition assess_units (holdings : list Holding) (now_hour : N) : list Unit :=
  let own_rings := omap h_uptime (filter (fun h => h_own h = true) holdings) in
  let any_own := existsb h_own holdings in
  let own_union := uptime_union own_rings in
  let '(alone, by_network) := foldl group ([], ∅) (proven_remote holdings) in
  let unions := (fun kv : Network * list (option Uptime) =>
                   max_by_key (ring_score now_hour) (omap id kv.2)) <$> btree_iter by_network in
  (unit_of <$> alone) ++ (unit_of <$> unions) ++ (if any_own then [unit_of own_union] else []).

Definition assess (holdings : list Holding) (goal : Goal) (now_hour : N) : Verdict :=
  let proven := proven_remote holdings in
  let accounts := households proven in
  let durable := (goal_accounts goal <=? accounts) && existsb h_recent proven in
  let miss := miss_ppm (assess_units holdings now_hour) now_hour in
  let remote := N.of_nat (length (filter (fun h => h_own h = false) holdings)) in
  mkVerdict durable (miss <=? goal_miss_ppm goal) miss accounts remote (goal_cap goal <=? remote).

(** ** target.rs: want *)

Record Want := mkWant { want_hosts : list N; want_satisfied : bool }.

Record search := mkSearch {
  s_current : list Holding;
  s_hosts : list N;
  s_verdict : Verdict;
}.

(** [Holding { own: false, proven: true, recent: true, ..*candidate }] *)
Definition as_holder (c : Holding) : Holding :=
  mkHolding (h_device c) (h_account c) false (h_uptime c) true true (h_network c).

Definition is_held (current : list Holding) (c : Holding) : bool :=
  existsb (fun h => h_device h =? h_device c) current.

Definition represented (current : list Holding) (c : Holding) : bool :=
  existsb (fun h => counts h
    && (bool_decide (h_account h = h_account c)
        || (bool_decide (is_Some (h_network c)) && bool_decide (h_network h = h_network c)))) current.

Definition network_held (current : list Holding) (c : Holding) : bool :=
  bool_decide (is_Some (h_network c))
  && existsb (fun h => counts h && bool_decide (h_network h = h_network c)) current.

Section want.
Context (goal : Goal) (now_hour : N).

(** One candidate of one pass: [inl] returns from [want]. *)
Definition consider (pass : bool * bool) (s : search) (c : Holding) : Want + search :=
  if satisfied (s_verdict s) || v_capped (s_verdict s)
  then inl (mkWant (s_hosts s) (satisfied (s_verdict s)))
  else if is_held (s_current s) c then inr s
  else if (pass.1 && represented (s_current s) c) || (pass.2 && network_held (s_current s) c)
  then inr s
  else
    let current := s_current s ++ [as_holder c] in
    inr (mkSearch current (s_hosts s ++ [h_device c]) (assess current goal now_hour)).

Fixpoint run_pass (pass : bool * bool) (ranked : list Holding) (s : search) : Want + search :=
  match ranked with
  | [] => inr s
  | c :: ranked =>
      match consider pass s c with
      | inl w => inl w
      | inr s => run_pass pass ranked s
      end
  end.

Fixpoint run_passes (passes : list (bool * bool)) (ranked : list Holding) (s : search) : Want :=
  match passes with
  | [] => mkWant (s_hosts s) (satisfied (s_verdict s))
  | pass :: passes =>
      match run_pass pass ranked s with
      | inl w => w
      | inr s => run_passes passes ranked s
      end
  end.

End want.

Definition PASSES : list (bool * bool) := [(true, true); (true, false); (false, true); (false, false)].

Definition want (holdings ranked : list Holding) (goal : Goal) (now_hour : N) : Want :=
  run_passes goal now_hour PASSES ranked (mkSearch holdings [] (assess holdings goal now_hour)).

(** ** release.rs *)

Definition without (strict : list Holding) (candidate : N) : list Holding :=
  filter (fun h => h_device h <> candidate) strict.

Definition may_release (strict : list Holding) (goal : Goal) (releasers now_hour candidate : N) : bool :=
  let floor := sat_add (goal_accounts goal) (N.max releasers 1) in
  if existsb (fun h => negb (h_own h) && (h_device h =? candidate)) strict then
    let verdict := assess (without strict candidate) goal now_hour in
    (floor <=? v_accounts verdict) && (v_miss_ppm verdict <=? goal_miss_ppm goal / 4)
  else false.

Definition release_holder (strict : list Holding) (order : list N) (goal : Goal)
    (releasers now_hour : N) : option N :=
  List.find (may_release strict goal releasers now_hour) (rev order).

(** ** spreading.rs *)

Definition SHARE_DIVISOR : N := 3.

Inductive Blocked :=
| TooFewHolders (have need : N)
| NotEnoughSpace (offered needed : N)
| CapacityUnknown
| NothingStored.

Record Spreading := mkSpreading {
  sp_enabled : bool;
  sp_candidates : N;
  sp_needed : N;
  sp_blocked_by : option Blocked;
}.

(** [copies * SHARE_DIVISOR], unchecked in a release build. *)
Definition critical_mass (copies : N) : N := (copies * SHARE_DIVISOR) mod 2 ^ 64.
Definition space_needed (stored copies : N) : N := sat_mul stored copies.

Definition spreading (candidates copies stored : N) (offered : option N) : Spreading :=
  let needed := critical_mass copies in
  let blocked :=
    if (copies =? 0) || (stored =? 0) then Some NothingStored
    else if candidates <? needed then Some (TooFewHolders candidates needed)
    else match offered with
         | None => Some CapacityUnknown
         | Some offered =>
             let required := space_needed stored copies in
             if offered <? required then Some (NotEnoughSpace offered required) else None
         end in
  mkSpreading (bool_decide (blocked = None)) candidates needed blocked.

(** ** Households *)

Lemma shared_refl a : shared a a = true.
Proof. unfold shared. by rewrite bool_decide_true. Qed.

Lemma shared_sym a b : shared a b = true -> shared b a = true.
Proof.
  unfold shared. rewrite !orb_true_iff, !andb_true_iff, !bool_decide_eq_true.
  intros [->|[H E]]; [by left|]. right. rewrite <- E. done.
Qed.

Lemma same_account_shared a b : h_account a = h_account b -> shared a b = true.
Proof. intros E. unfold shared. by rewrite bool_decide_true. Qed.

Lemma elem_of_proven_remote h l : h ∈ proven_remote l <-> h ∈ l /\ h_own h = false /\ h_proven h = true.
Proof.
  unfold proven_remote, counts. rewrite list_elem_of_filter, andb_true_iff, negb_true_iff. tauto.
Qed.

Lemma households_heads l :
  exists heads, N.of_nat (length heads) = households l /\ heads ⊆ l /\ apart shared l heads
    /\ forall a, a ∈ l -> exists h, h ∈ heads /\ linked shared l a h.
Proof.
  destruct (heads_exist shared shared_refl shared_sym l) as (hs & E & H).
  exists hs. unfold households. by rewrite <- E.
Qed.

(** Removing one device lowers the count by at most one. *)
Lemma households_without l d :
  NoDup (h_device <$> l) ->
  households (proven_remote l) <= N.succ (households (proven_remote (without l d))).
Proof.
  intros Hnd. unfold households.
  assert (households_by shared (proven_remote l)
          <= S (households_by shared (proven_remote (without l d))))%nat; [|lia].
  destruct (decide (Exists (fun h => h_device h = d) (proven_remote l))) as [Hex|Hno].
  - apply Exists_exists in Hex as (v & Hv & Hd).
    apply (households_remove shared shared_refl shared_sym _ _ v).
    + intros x. unfold without. rewrite !elem_of_proven_remote, list_elem_of_filter. tauto.
    + intros a Ha Hna.
      assert (a = v) as ->; [|apply rtc_refl].
      apply elem_of_proven_remote in Hv as (Hv & _). pose proof Ha as (Ha' & _)%elem_of_proven_remote.
      apply (NoDup_fmap_eq h_device l); [done..|].
      rewrite Hd. apply dec_stable. intros Hne. apply Hna. apply elem_of_proven_remote in Ha.
      apply elem_of_proven_remote. split; [|tauto]. unfold without. apply list_elem_of_filter. tauto.
  - assert (proven_remote (without l d) = proven_remote l) as ->; [|lia].
    unfold proven_remote, without in *. rewrite list_filter_filter.
    apply list_filter_local. intros x Hx. split; [tauto|]. intros Hc. split; [done|].
    intros Hd. apply Hno. apply Exists_exists. exists x. split; [|done]. by apply list_elem_of_filter.
Qed.

(** ** Verdicts *)

(** The number of accounts in a verdict is the number of classes of proven
    off-account holders under "same account or same network": it is reached by
    a choice of pairwise unconnected holders that represents every other, and
    whatever identities are made up it never exceeds the distinct accounts, of
    which all unknown ones are one. *)
Theorem verdict_counts_households (holdings : list Holding) (goal : Goal) (now_hour : N) :
  let proven := proven_remote holdings in
  let v := assess holdings goal now_hour in
  (exists heads, N.of_nat (length heads) = v_accounts v /\ heads ⊆ proven
     /\ NoDup heads
     /\ (forall a b, a ∈ heads -> b ∈ heads -> linked shared proven a b -> a = b)
     /\ (forall a, a ∈ proven -> exists h, h ∈ heads /\ linked shared proven a h))
  /\ v_accounts v <= N.of_nat (length (remove_dups (h_account <$> proven)))
  /\ (v_durable v = true <->
        goal_accounts goal <= v_accounts v /\ exists h, h ∈ proven /\ h_recent h = true).
Proof.
  cbn zeta. destruct (households_heads (proven_remote holdings)) as (hs & E & Hin & [Hnd Hap] & Hcov).
  cbn [assess v_accounts v_durable]. split_and!.
  - exists hs. eauto 10.
  - rewrite <- E. cut (length hs <= length (remove_dups (h_account <$> proven_remote holdings)))%nat; [lia|].
    rewrite <- (length_fmap h_account). apply submseteq_length, NoDup_submseteq.
    + apply NoDup_fmap_2_strong; [|done]. intros a b Ha Hb Eab. apply Hap; [done..|].
      apply rtc_once. split_and!; [auto..|by apply same_account_shared].
    + intros x (h & -> & Hh)%list_elem_of_fmap. apply elem_of_remove_dups, list_elem_of_fmap. eauto.
  - rewrite andb_true_iff, N.leb_le, existsb_exists. by setoid_rewrite list_elem_of_In.
Qed.

(** ** Releases *)

Lemma release_holder_may strict order goal releasers now d :
  release_holder strict order goal releasers now = Some d ->
  d ∈ order /\ may_release strict goal releasers now d = true.
Proof.
  intros [Hin Hm]%find_some. split; [|done]. by apply list_elem_of_In, in_rev.
Qed.

Lemma may_release_margin strict goal releasers now d :
  may_release strict goal releasers now d = true ->
  sat_add (goal_accounts goal) (N.max releasers 1) <= households (proven_remote (without strict d))
  /\ exists h, h ∈ strict /\ h_own h = false /\ h_device h = d.
Proof.
  unfold may_release. destruct (existsb _ _) eqn:Hex; [|done].
  rewrite andb_true_iff, !N.leb_le. intros [Hm _]. split; [done|].
  apply existsb_exists in Hex as (h & Hh%list_elem_of_In & Hd).
  apply andb_true_iff in Hd as [Ho%negb_true_iff Hd%N.eqb_eq]. eauto.
Qed.

Lemma without_NoDup l d : NoDup (h_device <$> l) -> NoDup (h_device <$> without l d).
Proof.
  intros H. unfold without. eapply sublist_NoDup; [exact H|]. apply fmap_sublist, sublist_filter.
Qed.

(** Removing devices one after another. *)
Definition without_all (strict : list Holding) (ds : list N) : list Holding := foldl without strict ds.

Lemma households_without_all l ds :
  NoDup (h_device <$> l) ->
  households (proven_remote l) <= households (proven_remote (without_all l ds)) + N.of_nat (length ds).
Proof.
  revert l. induction ds as [|d ds IH]; intros l Hnd; cbn [without_all foldl length]; [lia|].
  pose proof (households_without l d Hnd). specialize (IH (without l d) (without_NoDup l d Hnd)).
  unfold without_all in IH. lia.
Qed.

(** C32. However the own devices order the holders, each releasing one copy of the
    chunk in the same hour leaves at least the goal's number of households.  They
    decide from the same view of the holders, and count at least as many releasers
    as there are of them. *)
Theorem concurrent_releases_keep_goal
    (strict : list Holding) (orders : list (list N)) (goal : Goal) (releasers now_hour : N) (ds : list N) :
  NoDup (h_device <$> strict) ->
  Forall2 (fun order d => release_holder strict order goal releasers now_hour = Some d) orders ds ->
  N.of_nat (length orders) <= N.max releasers 1 ->
  goal_accounts goal + N.max releasers 1 <= u64_max ->
  ds <> [] ->
  goal_accounts goal < v_accounts (assess (without_all strict ds) goal now_hour).
Proof.
  intros Hnd Hall Hn Hmax Hne. destruct Hall as [|order d orders ds Hd Hall]; [done|].
  apply release_holder_may in Hd as [_ [Hm _]%may_release_margin].
  rewrite sat_add_exact in Hm by done.
  pose proof (households_without_all (without strict d) ds (without_NoDup _ d Hnd)) as H.
  cbn [assess v_accounts without_all foldl length] in *.
  apply Forall2_length in Hall. unfold without_all in H. lia.
Qed.

(** Six accounts on one steady ring each, seen hourly for two hundred hours. *)
Definition steady_holding (i : N) : Holding :=
  mkHolding i (Known i) false (Some steady_ring) true true None.
Definition six_holders : list Holding := steady_holding <$> [1; 2; 3; 4; 5; 6].

Lemma concurrent_releases_keep_goal_witness :
  goal_accounts GOAL < v_accounts (assess (without_all six_holders [6; 1]) GOAL 200).
Proof.
  apply (concurrent_releases_keep_goal six_holders [[1; 2; 3; 4; 5; 6]; [6; 5; 4; 3; 2; 1]] GOAL 2 200).
  - vm_compute. repeat constructor; set_solver by lia.
  - repeat constructor.
  - done.
  - done.
  - done.
Defined.

(** ** The search for hosts *)

Lemma existsb_false {A} (f : A -> bool) l : existsb f l = false <-> forall x, x ∈ l -> f x = false.
Proof.
  rewrite <- not_true_iff_false, existsb_exists. setoid_rewrite list_elem_of_In.
  split; [|naive_solver congruence]. intros H x Hx. apply not_true_iff_false. eauto.
Qed.

Lemma is_held_spec current c : is_held current c = true <-> h_device c ∈ h_device <$> current.
Proof.
  unfold is_held. rewrite existsb_exists, list_elem_of_fmap. setoid_rewrite list_elem_of_In.
  setoid_rewrite N.eqb_eq. naive_solver.
Qed.

Section search.
Context (holdings ranked : list Holding) (goal : Goal) (now_hour : N).

(** A search that has added [added] so far: hosts of the ranking, none twice,
    none already a holder, each asked for while the goal was not met and the
    cap not reached. *)
Record searching (s : search) (added : list Holding) : Prop := {
  sr_current : s_current s = holdings ++ added;
  sr_hosts : s_hosts s = h_device <$> added;
  sr_verdict : s_verdict s = assess (holdings ++ added) goal now_hour;
  sr_ranked : forall h, h ∈ added -> exists c, c ∈ ranked /\ h = as_holder c;
  sr_nodup : NoDup (h_device <$> added);
  sr_fresh : forall h, h ∈ added -> h_device h ∉ h_device <$> holdings;
  sr_needed : forall k, (k < length added)%nat ->
    let v := assess (holdings ++ take k added) goal now_hour in
    satisfied v = false /\ v_capped v = false;
}.

Lemma searching_start : searching (mkSearch holdings [] (assess holdings goal now_hour)) [].
Proof.
  split; cbn; rewrite ?app_nil_r; try done; try (by intros ? ?%not_elem_of_nil); [constructor|lia].
Qed.

Lemma searching_add s added c :
  searching s added -> c ∈ ranked -> is_held (s_current s) c = false ->
  satisfied (s_verdict s) = false -> v_capped (s_verdict s) = false ->
  searching (mkSearch (s_current s ++ [as_holder c]) (s_hosts s ++ [h_device c])
               (assess (s_current s ++ [as_holder c]) goal now_hour)) (added ++ [as_holder c]).
Proof.
  intros [S1 S2 S3 S4 S5 S6 S7] Hc Hh Hs Hcap.
  apply not_true_iff_false in Hh. rewrite is_held_spec, S1, fmap_app, not_elem_of_app in Hh.
  destruct Hh as [Hh1 Hh2].
  split; cbn [s_current s_hosts s_verdict].
  - by rewrite S1, <- app_assoc.
  - by rewrite S2, fmap_app.
  - by rewrite S1, <- app_assoc.
  - intros h [Hin| ->%list_elem_of_singleton]%elem_of_app; eauto.
  - rewrite fmap_app. apply NoDup_app. split; [done|]. split; [|apply NoDup_singleton].
    intros x Hx ->%list_elem_of_singleton. done.
  - intros h [Hin| ->%list_elem_of_singleton]%elem_of_app; eauto.
  - intros k Hk. rewrite length_app in Hk. cbn [length] in Hk.
    destruct (decide (k < length added)%nat) as [Hlt|Hge].
    + rewrite take_app_le by lia. auto.
    + replace k with (length added) by lia. rewrite take_app_length. rewrite S3 in Hs, Hcap. done.
Qed.

(** Where a pass ends: still searching, or stopped because nothing more was
    needed or allowed. *)
Definition stopped (w : Want) (added : list Holding) : Prop :=
  exists s, searching s added /\ w = mkWant (s_hosts s) (satisfied (s_verdict s))
    /\ (satisfied (s_verdict s) = true \/ v_capped (s_verdict s) = true).

Lemma run_pass_spec pass l s added :
  l ⊆ ranked -> searching s added ->
  match run_pass goal now_hour pass l s with
  | inl w => exists added', stopped w added'
  | inr s' => exists added', searching s' added' /\ s_current s ⊆ s_current s'
      /\ (pass = (false, false) -> forall c, c ∈ l -> h_device c ∈ h_device <$> s_current s')
  end.
Proof.
  revert s added. induction l as [|c l IH]; intros s added Hl HS; cbn [run_pass].
  { exists added. split_and!; [done..|]. intros _ c Hc. by apply not_elem_of_nil in Hc. }
  assert (Hc : c ∈ ranked) by (apply Hl; left). assert (Hl' : l ⊆ ranked) by set_solver.
  unfold consider. destruct (satisfied (s_verdict s) || v_capped (s_verdict s)) eqn:Estop.
  { exists added, s. apply orb_true_iff in Estop. done. }
  apply orb_false_iff in Estop as [Hsat Hcap].
  destruct (is_held (s_current s) c) eqn:Eheld.
  { specialize (IH s added Hl' HS). destruct (run_pass _ _ _ _ _) as [w|s']; [done|].
    destruct IH as (added' & H1 & H2 & H3). exists added'. split_and!; [done..|].
    intros Hp x [->|Hx]%elem_of_cons; [|auto]. apply is_held_spec in Eheld.
    apply list_elem_of_fmap in Eheld as (h & -> & Hh). by apply list_elem_of_fmap_2, H2. }
  destruct (_ || _) eqn:Eskip.
  { specialize (IH s added Hl' HS). destruct (run_pass _ _ _ _ _) as [w|s']; [done|].
    destruct IH as (added' & H1 & H2 & H3). exists added'. split_and!; [done..|].
    intros ->. done. }
  specialize (IH _ _ Hl' (searching_add s added c HS Hc Eheld Hsat Hcap)).
  destruct (run_pass _ _ _ _ _) as [w|s']; [done|].
  destruct IH as (added' & H1 & H2 & H3). cbn [s_current] in H2. exists added'. split_and!; [done|set_solver|].
  intros Hp x [->|Hx]%elem_of_cons; [|auto].
  apply list_elem_of_fmap. exists (as_holder c). split; [done|]. set_solver.
Qed.

Lemma run_passes_spec passes s added :
  searching s added ->
  exists added', stopped (run_passes goal now_hour passes ranked s) added'
  \/ exists s', searching s' added'
       /\ run_passes goal now_hour passes ranked s = mkWant (s_hosts s') (satisfied (s_verdict s'))
       /\ (last passes = Some (false, false) ->
            forall c, c ∈ ranked -> h_device c ∈ h_device <$> s_current s').
Proof.
  revert s added. induction passes as [|pass passes IH]; intros s added HS; cbn [run_passes].
  { exists added. right. by exists s. }
  pose proof (run_pass_spec pass ranked s added (reflexivity _) HS) as Hp.
  destruct (run_pass _ _ _ _ _) as [w|s1]; [destruct Hp as [added' Hp]; exists added'; by left|].
  destruct Hp as (added1 & HS1 & _ & Hall). destruct passes as [|p2 passes].
  - exists added1. right. exists s1. split_and!; [done..|]. intros [= ->]. auto.
  - by apply (IH s1 added1).
Qed.
End search.

(** [want] asks for distinct hosts of the ranking that hold nothing yet; each
    was asked for only while the goal was unmet and the cap not reached; the
    answer's flag is the verdict once they hold; and it gives up only when the
    cap is reached or every ranked host holds a copy. *)
Theorem want_asks_for_what_is_needed (holdings ranked : list Holding) (goal : Goal) (now_hour : N) :
  let w := want holdings ranked goal now_hour in
  exists added,
    want_hosts w = h_device <$> added
    /\ (forall h, h ∈ added -> exists c, c ∈ ranked /\ h = as_holder c)
    /\ NoDup (want_hosts w)
    /\ (forall d, d ∈ want_hosts w -> d ∉ h_device <$> holdings)
    /\ (forall k, (k < length added)%nat ->
          let v := assess (holdings ++ take k added) goal now_hour in
          satisfied v = false /\ v_capped v = false)
    /\ want_satisfied w = satisfied (assess (holdings ++ added) goal now_hour)
    /\ (want_satisfied w = false ->
          v_capped (assess (holdings ++ added) goal now_hour) = true
          \/ forall c, c ∈ ranked -> h_device c ∈ h_device <$> (holdings ++ added)).
Proof.
  cbn zeta. destruct (run_passes_spec holdings ranked goal now_hour PASSES _ _
    (searching_start holdings ranked goal now_hour)) as (added & [(s & HS & E & Hstop)|(s & HS & E & Hall)]);
    fold (want holdings ranked goal now_hour) in E; rewrite E; cbn [want_hosts want_satisfied];
    exists added; destruct HS as [S1 S2 S3 S4 S5 S6 S7]; rewrite S2, S3 in *.
  all: split_and!; try done.
  1,3: intros d (h & -> & Hh)%list_elem_of_fmap; auto.
  - intros Hs. destruct Hstop as [Hs'|]; [congruence|by left].
  - intros _. right. rewrite <- S1. by apply Hall.
Qed.

(** ** Spreading *)

(** Spreading is on only when each holder's share stays within a third and the
    offered room takes every copy. *)
Theorem spreading_is_safe (candidates copies stored : N) (offered : option N) :
  copies * SHARE_DIVISOR < 2 ^ 64 ->
  sp_enabled (spreading candidates copies stored offered) = true <->
  0 < copies /\ 0 < stored /\ copies * SHARE_DIVISOR <= candidates
  /\ exists room, offered = Some room /\ sat_mul stored copies <= room.
Proof.
  intros Hc. unfold spreading, critical_mass, space_needed. rewrite N.mod_small by done.
  cbn [sp_enabled]. rewrite bool_decide_eq_true.
  destruct (N.eqb_spec copies 0) as [->|H1]; [cbn; naive_solver lia|].
  destruct (N.eqb_spec stored 0) as [->|H2]; [cbn; naive_solver lia|]. cbn [orb].
  destruct (N.ltb_spec candidates (copies * SHARE_DIVISOR)); [naive_solver lia|].
  destruct offered as [room|]; [|naive_solver].
  destruct (N.ltb_spec room (sat_mul stored copies)); naive_solver lia.
Qed.

Lemma spreading_is_safe_witness : sp_enabled (spreading 9 3 100 (Some 300)) = true.
Proof.
  apply (spreading_is_safe 9 3 100 (Some 300)); [done|].
  split; [done|]. split; [done|]. split; [done|]. by exists 300.
Defined.
