(* ===== verification/Path.v ===== *)
(** * Path: validation of logical paths

    Models [crates/itsanas-store/src/path.rs].  A path is the UTF-8 byte string
    the source holds; the control-character test reads the two-byte encodings
    of U+0080..U+009F as [char::is_control] does.  The main theorem is the one
    the module exists for: a path that validates, resolved component by
    component against any root (with [.], [..] and both separators given their
    usual meaning), names a file strictly below that root. *)

From S2P Require Import Prelude Version Ids.

Definition chars (s : string) : list ascii := String.list_ascii_of_string s.
Definition str (l : list ascii) : string := String.string_of_list_ascii l.

(** [str::split(c)]: always at least one piece. *)
Fixpoint split_on (c : ascii) (l : list ascii) : list (list ascii) :=
  match l with
  | [] => [[]]
  | x :: l' =>
      if decide (x = c) then [] :: split_on c l'
      else match split_on c l' with
           | [] => [[x]]
           | w :: ws => (x :: w) :: ws
           end
  end.

Definition slash : ascii := "/".
Definition backslash : ascii := "\".
Definition dot : ascii := ".".
Definition space : ascii := " ".
Definition colon : ascii := ":".

Definition MAX_PATH_LEN : N := 1024.
Definition MAX_COMPONENT_LEN : N := 255.

Definition len_bytes (l : list ascii) : N := N.of_nat (length l).

Definition WINDOWS_RESERVED : list (list ascii) :=
  chars <$> ["con"; "prn"; "aux"; "nul"; "com1"; "com2"; "com3"; "com4"; "com5"; "com6";
    "com7"; "com8"; "com9"; "lpt1"; "lpt2"; "lpt3"; "lpt4"; "lpt5"; "lpt6"; "lpt7"; "lpt8";
    "lpt9"].

(** [chars().any(char::is_control)] on UTF-8 bytes: C0, DEL, and C1 as
    [0xC2 0x80..0x9F]. *)
Fixpoint has_control (l : list ascii) : bool :=
  match l with
  | [] => false
  | c :: l' =>
      let n := N_of_ascii c in
      (n <? 32) || (n =? 127)
      || ((n =? 194)
          && match l' with
             | d :: _ => (128 <=? N_of_ascii d) && (N_of_ascii d <=? 159)
             | [] => false
             end)
      || has_control l'
  end.

Definition to_ascii_lowercase (c : ascii) : ascii :=
  let n := N_of_ascii c in
  if (65 <=? n) && (n <=? 90) then ascii_of_N (n + 32) else c.

(** The part of a component before its first dot, lower-cased. *)
Definition stem_of (component : list ascii) : list ascii :=
  to_ascii_lowercase <$> default component (head (split_on dot component)).

Definition ends_with (c : ascii) (l : list ascii) : bool :=
  bool_decide (last l = Some c).

(** The checks on one component, in the source's order. *)
Definition validate_component (component : list ascii) : option string :=
  if decide (component = []) then Some "empty component"%string
  else if MAX_COMPONENT_LEN <? len_bytes component
  then Some "component longer than MAX_COMPONENT_LEN"%string
  else if decide (component = [dot] \/ component = [dot; dot])
  then Some "relative component"%string
  else if ends_with space component || ends_with dot component
  then Some "component ends with a space or dot"%string
  else if decide (stem_of component ∈ WINDOWS_RESERVED)
  then Some "Windows reserved device name"%string
  else None.

Fixpoint first_reject (components : list (list ascii)) : option string :=
  match components with
  | [] => None
  | c :: cs =>
      match validate_component c with
      | Some reason => Some reason
      | None => first_reject cs
      end
  end.

(** Why a path is refused, if it is. *)
Definition reject_reason (p : list ascii) : option string :=
  if decide (p = []) then Some "empty"%string
  else if MAX_PATH_LEN <? len_bytes p then Some "longer than MAX_PATH_LEN"%string
  else if decide (backslash ∈ p) then Some "backslash; logical paths use '/' only"%string
  else if decide (head p = Some slash) then Some "absolute"%string
  else if decide (last p = Some slash) then Some "trailing slash"%string
  else if has_control p then Some "control character"%string
  else if decide (p !! 1%nat = Some colon) then Some "drive-letter prefix"%string
  else first_reject (split_on slash p).

Definition validate (path : string) : result StoreError unit :=
  match reject_reason (chars path) with
  | Some reason => Err (InvalidPath path reason)
  | None => Ok tt
  end.

(** ** What a filesystem makes of a path

    The specification side: how the parts of a path, cut at either separator,
    are resolved one after the other from a root directory. *)

Definition resolve_part (dir : list (list ascii)) (part : list ascii) : list (list ascii) :=
  if decide (part = [] \/ part = [dot]) then dir
  else if decide (part = [dot; dot]) then removelast dir
  else dir ++ [part].

Definition parts_of (p : list ascii) : list (list ascii) :=
  mjoin (split_on backslash <$> split_on slash p).

Definition resolve (root : list (list ascii)) (p : list ascii) : list (list ascii) :=
  foldl resolve_part root (parts_of p).

(** A component no filesystem would read as anything but a name. *)
Definition plain_component (c : list ascii) : Prop :=
  c <> [] /\ c <> [dot] /\ c <> [dot; dot] /\ (slash ∉ c) /\ (backslash ∉ c)
  /\ len_bytes c <= MAX_COMPONENT_LEN
  /\ last c <> Some space /\ last c <> Some dot
  /\ (stem_of c ∉ WINDOWS_RESERVED).

(** ** Lemmas on splitting *)

Lemma split_on_nonempty c l : split_on c l <> [].
Proof. destruct l; simpl; [done|]. case_decide; [done|]. by destruct (split_on c l). Qed.

Lemma split_on_no_sep c l w : w ∈ split_on c l -> c ∉ w.
Proof.
  revert w. induction l as [|x l IH]; intros w Hw; simpl in Hw.
  - apply list_elem_of_singleton in Hw as ->. by apply not_elem_of_nil.
  - case_decide as Hx.
    + apply elem_of_cons in Hw as [->|Hw]; [by apply not_elem_of_nil|auto].
    + destruct (split_on c l) as [|w' ws] eqn:Hs; [by destruct (split_on_nonempty c l)|].
      apply elem_of_cons in Hw as [->|Hw].
      * apply not_elem_of_cons. split; [done|]. apply IH. by left.
      * apply IH. by right.
Qed.

Lemma split_on_elem c l w x : w ∈ split_on c l -> x ∈ w -> x ∈ l.
Proof.
  revert w. induction l as [|y l IH]; intros w Hw Hx; simpl in Hw.
  - apply list_elem_of_singleton in Hw as ->. by apply elem_of_nil in Hx.
  - case_decide.
    + apply elem_of_cons in Hw as [->|Hw]; [by apply elem_of_nil in Hx|]. right. eauto.
    + destruct (split_on c l) as [|w' ws] eqn:Hs; [by destruct (split_on_nonempty c l)|].
      apply elem_of_cons in Hw as [->|Hw].
      * apply elem_of_cons in Hx as [->|Hx]; [by left|]. right. apply (IH w'); [by left|done].
      * right. apply (IH w); [by right|done].
Qed.

Lemma split_on_none c l : c ∉ l -> split_on c l = [l].
Proof.
  induction l as [|x l IH]; intros Hn; [done|].
  apply not_elem_of_cons in Hn as [Hx Hn]. simpl.
  rewrite decide_False by congruence. by rewrite IH.
Qed.

Lemma split_on_app c a b : c ∉ a -> split_on c (a ++ c :: b) = a :: split_on c b.
Proof.
  induction a as [|x a IH]; intros Hn; simpl.
  - by rewrite decide_True.
  - apply not_elem_of_cons in Hn as [Hx Hn]. rewrite decide_False by congruence.
    by rewrite IH.
Qed.

Lemma first_reject_None cs :
  first_reject cs = None <-> Forall (fun c => validate_component c = None) cs.
Proof.
  induction cs as [|c cs IH]; simpl; [by split; [constructor|]|].
  rewrite Forall_cons. destruct (validate_component c); naive_solver.
Qed.

Lemma validate_component_None c :
  validate_component c = None <->
  c <> [] /\ len_bytes c <= MAX_COMPONENT_LEN /\ c <> [dot] /\ c <> [dot; dot]
  /\ last c <> Some space /\ last c <> Some dot /\ (stem_of c ∉ WINDOWS_RESERVED).
Proof.
  unfold validate_component, ends_with.
  destruct (decide (c = [])); [naive_solver|].
  destruct (N.ltb_spec MAX_COMPONENT_LEN (len_bytes c)); [split; [done|]; intros (_&?&_); lia|].
  destruct (decide (c = [dot] \/ c = [dot; dot])); [naive_solver|].
  destruct (bool_decide (last c = Some space)) eqn:H1; simpl.
  { apply bool_decide_eq_true in H1. naive_solver. }
  destruct (bool_decide (last c = Some dot)) eqn:H2.
  { apply bool_decide_eq_true in H2. naive_solver. }
  apply bool_decide_eq_false in H1, H2.
  destruct (decide (stem_of c ∈ WINDOWS_RESERVED)); naive_solver.
Qed.

(** Everything [validate] checks, as one predicate. *)
Definition accepted (p : list ascii) : Prop :=
  p <> [] /\ len_bytes p <= MAX_PATH_LEN /\ (backslash ∉ p) /\ head p <> Some slash
  /\ last p <> Some slash /\ has_control p = false /\ p !! 1%nat <> Some colon
  /\ Forall (fun c => validate_component c = None) (split_on slash p).

Lemma reject_reason_None p : reject_reason p = None <-> accepted p.
Proof.
  unfold reject_reason, accepted. rewrite <- first_reject_None.
  destruct (decide (p = [])); [naive_solver|].
  destruct (N.ltb_spec MAX_PATH_LEN (len_bytes p)); [split; [done|]; intros (_&?&_); lia|].
  destruct (decide (backslash ∈ p)); [naive_solver|].
  destruct (decide (head p = Some slash)); [naive_solver|].
  destruct (decide (last p = Some slash)); [naive_solver|].
  destruct (has_control p) eqn:?; [naive_solver|].
  destruct (decide (p !! 1%nat = Some colon)); naive_solver.
Qed.

Lemma validate_accepted path : validate path = Ok tt <-> accepted (chars path).
Proof.
  unfold validate. rewrite <- reject_reason_None.
  destruct (reject_reason (chars path)); naive_solver.
Qed.

Lemma accepted_plain p : accepted p -> Forall plain_component (split_on slash p).
Proof.
  intros (_ & _ & Hbs & _ & _ & _ & _ & Hall). rewrite Forall_forall in Hall |- *.
  intros c Hc. specialize (Hall c Hc). apply validate_component_None in Hall.
  destruct Hall as (? & ? & ? & ? & ? & ? & ?). unfold plain_component.
  split_and!; try done.
  - by apply (split_on_no_sep slash p).
  - intros Hin. apply Hbs. by apply (split_on_elem slash p c).
Qed.

Lemma parts_of_accepted p : accepted p -> parts_of p = split_on slash p.
Proof.
  intros Hacc. apply accepted_plain in Hacc. unfold parts_of.
  induction Hacc as [|c cs Hc _ IH]; [done|].
  cbn [fmap list_fmap mjoin list_join].
  destruct Hc as (_ & _ & _ & _ & Hbs & _).
  rewrite split_on_none by done. simpl. f_equal. exact IH.
Qed.

Lemma foldl_resolve_plain cs root :
  Forall plain_component cs -> foldl resolve_part root cs = root ++ cs.
Proof.
  intros Hall. revert root. induction Hall as [|c cs Hc _ IH]; intros root; simpl.
  - by rewrite app_nil_r.
  - destruct Hc as (H1 & H2 & H3 & _). unfold resolve_part at 2.
    rewrite decide_False by (intros [?|?]; contradiction).
    rewrite decide_False by done. by rewrite IH, <- app_assoc.
Qed.

(** ** The properties *)

(** A path [validate] accepts, resolved the way a filesystem does from any
    root, with either separator and with [.] and [..] given their meaning, names
    something strictly below that root, and each of its components is an
    ordinary name: within the length limit, not ending in a space or a dot, and
    not a Windows device whatever its extension. *)
Theorem validate_confines (path : string) (root : list (list ascii)) :
  validate path = Ok tt ->
  resolve root (chars path) = root ++ split_on slash (chars path)
  /\ split_on slash (chars path) <> []
  /\ Forall plain_component (split_on slash (chars path)).
Proof.
  intros Hv%validate_accepted. split_and!.
  - unfold resolve. rewrite parts_of_accepted by done.
    apply foldl_resolve_plain. by apply accepted_plain.
  - apply split_on_nonempty.
  - by apply accepted_plain.
Qed.

Lemma validate_confines_witness :
  validate "work/reports/q3.pdf" = Ok tt
  /\ resolve [chars "home"] (chars "work/reports/q3.pdf")
     = chars <$> ["home"; "work"; "reports"; "q3.pdf"].
Proof.
  assert (Hv : validate "work/reports/q3.pdf" = Ok tt) by (vm_compute; reflexivity).
  split; [exact Hv|].
  destruct (validate_confines "work/reports/q3.pdf" [chars "home"] Hv) as [-> _].
  vm_compute. reflexivity.
Defined.

Example validate_traversal :
  validate "../../.ssh/authorized_keys" = Err (InvalidPath "../../.ssh/authorized_keys" "relative component")
  /\ validate "docs/COM1.txt" = Err (InvalidPath "docs/COM1.txt" "Windows reserved device name")
  /\ validate "C:evil" = Err (InvalidPath "C:evil" "drive-letter prefix").
Proof. vm_compute. auto. Qed.
