(* ===== verification/Policy.v ===== *)
(** * Policy: when to sync, and which files to keep

    Models [crates/itsanas-policy/src/lib.rs] and [keeping.rs]: the two decision
    tables (what a round does, what hosting does) and the choice of the files a
    device with a budget holds.  Durations are seconds; a path is the byte
    string the source holds.  The module promises that the choice is stable,
    that it depends neither on the order of the listing nor on what is already
    here, and that money is never spent without consent: these are the
    theorems at the end. *)

From S2P Require Import Prelude.

(** ** lib.rs *)

Inductive Network := NoNetwork | Metered | Unmetered.
Inductive Power := Low | OnBattery | Charging.
Inductive Attention := Foreground | Background | Unattended.

#[export] Instance Network_eq_dec : EqDecision Network.
Proof. solve_decision. Defined.
#[export] Instance Power_eq_dec : EqDecision Power.
Proof. solve_decision. Defined.
#[export] Instance Attention_eq_dec : EqDecision Attention.
Proof. solve_decision. Defined.

Record Conditions := mkConditions {
  network : Network;
  power : Power;
  attention : Attention;
}.

Inductive Period := Hour | Day | Week | Month.

Definition PERIODS : list Period := [Hour; Day; Week; Month].

Definition period_name (p : Period) : string :=
  match p with Hour => "hour" | Day => "day" | Week => "week" | Month => "month" end.

Definition period_parse (name : string) : option Period :=
  List.find (fun p => bool_decide (period_name p = name)) PERIODS.

Definition period_seconds (p : Period) : N :=
  match p with Hour => 3600 | Day => 86400 | Week => 7 * 86400 | Month => 30 * 86400 end.

Record Settings := mkSettings {
  content_on_metered : bool;
  background : bool;
  contribute : bool;
  battery_floor_percent : N;
  every_charging : N;
  every_on_battery : N;
  metered_allowance : N;
  metered_period : Period;
}.

Definition WATCHING : N := 30.
Definition BACKGROUND_FREE : N := 2 * 60 * 60.
Definition BACKGROUND_METERED : N := 24 * 60 * 60.
Definition SERVICE : N := 5 * 60.

Definition DEFAULT : Settings := mkSettings false true true 15 SERVICE BACKGROUND_FREE 0 Month.

Definition power_of (percent : N) (charging : bool) (floor : N) : Power :=
  if charging then Charging else if percent <=? floor then Low else OnBattery.

Inductive HostWork := HostNothing | AnswersOnly | HostEverything.

Record HostFacts := mkFacts {
  still_holding : bool;
  metered_used : N;
}.

Record HostPlan := mkHostPlan {
  work : HostWork;
  host_every : option N;
  host_because : string;
}.

Definition hosting (c : Conditions) (s : Settings) (facts : HostFacts) : HostPlan :=
  let nothing := mkHostPlan HostNothing None in
  let answers := mkHostPlan AnswersOnly (Some (every_on_battery s)) in
  if negb (contribute s) && negb (still_holding facts)
  then nothing "contributing to the network is switched off"%string
  else if decide (network c = NoNetwork) then nothing "no network"%string
  else if decide (power c = Low) then nothing "battery is low"%string
  else if decide (network c = Metered) then
    if metered_allowance s =? 0
    then nothing "this connection is metered, and hosting over one is not allowed"%string
    else if metered_allowance s <=? metered_used facts
    then nothing "this connection is metered, and its allowance is spent"%string
    else answers "metered connection, within its allowance: answering only"%string
  else if negb (contribute s)
  then answers "switched off: answering for what it holds until others have copies"%string
  else if decide (power c = Charging)
  then mkHostPlan HostEverything (Some (every_charging s)) "charging, on an unmetered connection"%string
  else answers "on battery: answering only"%string.

Inductive Scope := Nothing | Metadata | Everything.

Definition moves_content (s : Scope) : bool := match s with Everything => true | _ => false end.
Definition connects (s : Scope) : bool := match s with Nothing => false | _ => true end.

(** The derived [Ord]. *)
Definition scope_rank (s : Scope) : N := match s with Nothing => 0 | Metadata => 1 | Everything => 2 end.

Record Plan := mkPlan {
  scope : Scope;
  every : option N;
  because : string;
}.

Definition plan (c : Conditions) (s : Settings) : Plan :=
  if decide (network c = NoNetwork) then mkPlan Nothing None "no network"%string
  else
    let watching := bool_decide (attention c = Foreground) in
    let service := bool_decide (attention c = Unattended) in
    if negb watching && bool_decide (power c = Low) then mkPlan Nothing None "battery is low"%string
    else if negb watching && negb service && negb (background s)
    then mkPlan Nothing None "background syncing is switched off"%string
    else
      let metered := bool_decide (network c = Metered) in
      let content_allowed := negb metered || content_on_metered s in
      match watching, metered with
      | true, false => mkPlan Everything (Some WATCHING) "open, on an unmetered connection"%string
      | true, true =>
          if negb content_allowed
          then mkPlan Metadata (Some WATCHING)
                 "open, but this connection is metered — tap a file to download it"%string
          else mkPlan Everything (Some WATCHING)
                 "open, and you have allowed downloads over metered connections"%string
      | false, false =>
          if service
          then mkPlan Everything (Some SERVICE) "running as a service on an unmetered connection"%string
          else mkPlan Everything (Some BACKGROUND_FREE)
                 (if decide (power c = Charging) then "charging, on an unmetered connection"%string
                  else "on an unmetered connection"%string)
      | false, true =>
          if negb content_allowed
          then mkPlan Metadata (Some BACKGROUND_METERED)
                 "metered connection — checking for changes only, once a day"%string
          else mkPlan Everything (Some BACKGROUND_METERED)
                 "metered connection, and you have allowed downloads over it"%string
      end.

Definition asked_for_it (c : Conditions) : Plan :=
  if decide (network c = NoNetwork) then mkPlan Nothing None "no network"%string
  else mkPlan Everything None "you asked"%string.

(** ** keeping.rs *)

Record Candidate := mkCandidate {
  cd_path : string;
  cd_size : N;
  cd_modified : N;
  cd_here : bool;
}.

Inductive Order := Newest | Oldest | Smallest.

Record Keeping := mkKeeping {
  budget : option N;
  order : Order;
  only : list string;
}.

Definition is_everything (k : Keeping) : bool :=
  bool_decide (budget k = None) && bool_decide (only k = []).

(** [trim_end_matches('/')] *)
Fixpoint trim_end (s : string) : string :=
  match s with
  | EmptyString => EmptyString
  | String c s' =>
      match trim_end s' with
      | EmptyString => if decide (c = "/"%char) then EmptyString else String c EmptyString
      | t => String c t
      end
  end.

(** [path == prefix], or longer, starting with it and a separator after it. *)
Definition under (prefix path : string) : bool :=
  bool_decide (path = prefix)
  || ((String.length prefix <? String.length path)%nat
      && String.prefix prefix path
      && bool_decide (String.get (String.length prefix) path = Some "/"%char)).

Definition covers (k : Keeping) (path : string) : bool :=
  match only k with
  | [] => true
  | _ => existsb (fun prefix => under (trim_end prefix) path) (only k)
  end.

Inductive Left := Filtered | NoRoom | TooLarge.

#[export] Instance Left_eq_dec : EqDecision Left.
Proof. solve_decision. Defined.

Record Choice := mkChoice {
  keep : list nat;
  leave : list (nat * Left);
  kept_bytes : N;
}.

(** [candidates.get(index).is_some_and(|file| file.here == here)] *)
Definition is_here (here : bool) (candidates : list Candidate) (i : nat) : bool :=
  match candidates !! i with Some f => Bool.eqb (cd_here f) here | None => false end.

Definition to_fetch (c : Choice) (candidates : list Candidate) : list nat :=
  filter (fun i => is_here false candidates i = true) (keep c).

Definition to_release (c : Choice) (candidates : list Candidate) : list nat :=
  filter (fun i => is_here true candidates i = true) (leave c).*1.

Definition left_because (c : Choice) (reason : Left) : nat :=
  length (filter (fun p => p.2 = reason) (leave c)).

(** The comparison of [choose]: [a] does not come after [b]. *)
Definition not_after (o : Order) (a b : Candidate) : bool :=
  let compare := match o with
                 | Newest => cd_modified b ?= cd_modified a
                 | Oldest => cd_modified a ?= cd_modified b
                 | Smallest => cd_size a ?= cd_size b
                 end in
  match compare with
  | Lt => true
  | Gt => false
  | Eq => bytes_leb (bytes_of_string (cd_path a)) (bytes_of_string (cd_path b))
  end.

(** The body of the loop, on an index and the file it names. *)
Definition choose_one (k : Keeping) (c : Choice) (p : nat * Candidate) : Choice :=
  let '(index, file) := p in
  let left reason := mkChoice (keep c) (leave c ++ [(index, reason)]) (kept_bytes c) in
  let kept := mkChoice (keep c ++ [index]) (leave c) (sat_add (kept_bytes c) (cd_size file)) in
  if negb (covers k (cd_path file)) then left Filtered
  else match budget k with
       | None => kept
       | Some budget =>
           if budget <? cd_size file then left TooLarge
           else if budget <? sat_add (kept_bytes c) (cd_size file) then left NoRoom
           else kept
       end.

Definition ranked (k : Keeping) (candidates : list Candidate) : list (nat * Candidate) :=
  sort_by (fun a b => not_after (order k) a.2 b.2) (zip (seq 0 (length candidates)) candidates).

Definition choose (candidates : list Candidate) (k : Keeping) : Choice :=
  foldl (choose_one k) (mkChoice [] [] 0) (ranked k candidates).

(** ** The choice *)

(** The bytes of the files at these indices. *)
Definition sizes (candidates : list Candidate) (l : list nat) : N :=
  foldr (fun i n => default 0 (cd_size <$> candidates !! i) + n) 0 l.

Lemma sizes_app cs l m : sizes cs (l ++ m) = sizes cs l + sizes cs m.
Proof. unfold sizes. induction l as [|i l IH]; cbn [app foldr]; [done|]. rewrite IH. lia. Qed.

Lemma not_after_total o a b : not_after o a b = true \/ not_after o b a = true.
Proof.
  unfold not_after.
  destruct o; [rewrite (N.compare_antisym (cd_modified a))|rewrite (N.compare_antisym (cd_modified a))
              |rewrite (N.compare_antisym (cd_size a))];
    destruct (_ ?= _); cbn; auto using bytes_leb_total.
Qed.

Lemma not_after_trans o a b c :
  not_after o a b = true -> not_after o b c = true -> not_after o a c = true.
Proof.
  unfold not_after.
  destruct o; repeat match goal with |- context [?x ?= ?y] => destruct (N.compare_spec x y) end;
    try done; try lia; apply bytes_leb_trans.
Qed.

Lemma not_after_antisym o a b :
  not_after o a b = true -> not_after o b a = true -> cd_path a = cd_path b.
Proof.
  unfold not_after.
  destruct o; repeat match goal with |- context [?x ?= ?y] => destruct (N.compare_spec x y) end;
    try done; try lia; intros H1 H2; apply bytes_of_string_inj; by apply bytes_leb_antisym.
Qed.

Lemma ranked_perm k cs : ranked k cs ≡ₚ zip (seq 0 (length cs)) cs.
Proof. apply sort_by_perm. Qed.

Lemma elem_of_ranked k cs i f : (i, f) ∈ ranked k cs -> cs !! i = Some f.
Proof.
  rewrite ranked_perm. intros [n Hn]%list_elem_of_lookup_1. apply lookup_zip_with_Some in Hn as (a & b & E & Ha & Hb).
  injection E as -> ->. apply lookup_seq in Ha as [-> _]. done.
Qed.

Lemma ranked_sorted k cs : StronglySorted (fun p q => not_after (order k) p.2 q.2) (ranked k cs).
Proof.
  apply sort_by_sorted.
  - intros a b. apply not_after_total.
  - intros a b c. apply not_after_trans.
Qed.

Lemma ranked_fst k cs : (ranked k cs).*1 ≡ₚ seq 0 (length cs).
Proof. rewrite ranked_perm, fst_zip; [done|]. by rewrite length_seq. Qed.

(** Every file is kept or left, once. *)
Lemma choose_partition k ps c :
  let c' := foldl (choose_one k) c ps in
  keep c' ++ (leave c').*1 ≡ₚ keep c ++ (leave c).*1 ++ ps.*1.
Proof.
  revert c. induction ps as [|[i f] ps IH]; intros c; cbn zeta; cbn [foldl]; [by rewrite app_nil_r|].
  rewrite IH. unfold choose_one.
  destruct (negb _); [|destruct (budget k) as [b|]; [destruct (b <? _); [|destruct (b <? _)]|]];
    cbn [keep leave]; rewrite ?fmap_app; cbn; rewrite <- ?app_assoc; cbn; try done;
    by rewrite <- !Permutation_middle.
Qed.

(** ** What the loop has established after the files of [ps] *)

Record chosen_well (cs : list Candidate) (k : Keeping) (b : N) (c : Choice) : Prop := mkChosenWell {
  cw_bytes : kept_bytes c = sizes cs (keep c);
  cw_budget : kept_bytes c <= b;
  cw_kept i f : i ∈ keep c -> cs !! i = Some f -> covers k (cd_path f) = true;
  cw_filtered i f : (i, Filtered) ∈ leave c -> cs !! i = Some f -> covers k (cd_path f) = false;
  cw_large i f : (i, TooLarge) ∈ leave c -> cs !! i = Some f -> covers k (cd_path f) = true /\ b < cd_size f;
  cw_room i f : (i, NoRoom) ∈ leave c -> cs !! i = Some f ->
    covers k (cd_path f) = true /\ cd_size f <= b
    /\ b < cd_size f + sizes cs (filter (fun j => match cs !! j with
                                                 | Some g => not_after (order k) g f
                                                 | None => false
                                                 end = true) (keep c));
}.

Lemma chosen_well_keep cs k b c i f :
  chosen_well cs k b c -> b < u64_max -> cs !! i = Some f -> covers k (cd_path f) = true ->
  sat_add (kept_bytes c) (cd_size f) <= b ->
  chosen_well cs k b (mkChoice (keep c ++ [i]) (leave c) (sat_add (kept_bytes c) (cd_size f))).
Proof.
  intros [H1 H2 H3 H4 H5 H6] Hb Hi Hcov Hle.
  assert (E : sat_add (kept_bytes c) (cd_size f) = kept_bytes c + cd_size f) by (unfold sat_add in *; lia).
  split; cbn [keep leave kept_bytes]; try done.
  - rewrite E, sizes_app, H1. unfold sizes at 3. cbn [foldr]. rewrite Hi. cbn. lia.
  - intros j g [Hj|Hj]%elem_of_app Hg; [by eapply H3|]. apply list_elem_of_singleton in Hj as ->. congruence.
  - intros j g Hj Hg. destruct (H6 j g Hj Hg) as (Ha & Hs & Hl). split_and!; [done|done|].
    rewrite filter_app, sizes_app. lia.
Qed.

Lemma chosen_well_leave cs k b c i f r :
  chosen_well cs k b c -> cs !! i = Some f ->
  match r with
  | Filtered => covers k (cd_path f) = false
  | TooLarge => covers k (cd_path f) = true /\ b < cd_size f
  | NoRoom => covers k (cd_path f) = true /\ cd_size f <= b /\ b < cd_size f + kept_bytes c
              /\ forall j g, j ∈ keep c -> cs !! j = Some g -> not_after (order k) g f = true
  end ->
  (forall j, j ∈ keep c -> is_Some (cs !! j)) ->
  chosen_well cs k b (mkChoice (keep c) (leave c ++ [(i, r)]) (kept_bytes c)).
Proof.
  intros [H1 H2 H3 H4 H5 H6] Hi Hr Hin.
  split; cbn [keep leave kept_bytes]; try done;
    intros j g [Hj|[= -> <-]%list_elem_of_singleton]%elem_of_app Hg; eauto; simplify_eq; try done.
  destruct Hr as (Hc & Hs & Hl & Ha). split_and!; [done|done|].
  rewrite H1 in Hl. enough (E : filter (fun j => match cs !! j with
      | Some g0 => not_after (order k) g0 f | None => false end = true) (keep c) = keep c) by (by rewrite E).
  clear -Ha Hin. induction (keep c) as [|j l IH]; [done|].
  destruct (Hin j ltac:(left)) as [x Hx]. rewrite filter_cons_True.
  - f_equal. apply IH; intros; [eapply Ha|apply Hin]; eauto using list_elem_of_further.
  - rewrite Hx. by apply (Ha j); [left|].
Qed.

Lemma choose_one_well cs k b c i f :
  budget k = Some b -> b < u64_max -> chosen_well cs k b c -> cs !! i = Some f ->
  (forall j, j ∈ keep c -> exists g, cs !! j = Some g /\ not_after (order k) g f = true) ->
  chosen_well cs k b (choose_one k c (i, f)).
Proof.
  intros Hk Hb Hw Hi Hbefore. unfold choose_one. rewrite Hk.
  assert (Hin : forall j, j ∈ keep c -> is_Some (cs !! j)).
  { intros j Hj. destruct (Hbefore j Hj) as (g & -> & _). eauto. }
  destruct (covers k (cd_path f)) eqn:Ec; cbn [negb]; [|by apply (chosen_well_leave _ _ _ _ _ f)].
  destruct (N.ltb_spec b (cd_size f)) as [Hl|Hl]; [by apply (chosen_well_leave _ _ _ _ _ f)|].
  destruct (N.ltb_spec b (sat_add (kept_bytes c) (cd_size f))) as [Hs|Hs]; [|by apply chosen_well_keep].
  apply (chosen_well_leave _ _ _ _ _ f); try done. split_and!; [done|done|unfold sat_add in Hs; lia|].
  intros j g Hj Hg. destruct (Hbefore j Hj) as (g' & Hg' & H). congruence.
Qed.

Lemma keep_choose_one k c p : forall j, j ∈ keep (choose_one k c p) -> j ∈ keep c \/ j = p.1.
Proof.
  intros j. unfold choose_one. destruct p as [i f]. cbn [fst].
  destruct (negb _); [|destruct (budget k) as [b|]; [destruct (b <? _); [|destruct (b <? _)]|]]; cbn [keep]; auto;
    intros [H|H%list_elem_of_singleton]%elem_of_app; auto.
Qed.

Lemma choose_well cs k b : budget k = Some b -> b < u64_max -> chosen_well cs k b (choose cs k).
Proof.
  intros Hk Hb. unfold choose. pose proof (ranked_sorted k cs) as Hs. pose proof (elem_of_ranked k cs) as He.
  set (P ps := chosen_well cs k b (foldl (choose_one k) (mkChoice [] [] 0) ps)
               /\ forall j, j ∈ keep (foldl (choose_one k) (mkChoice [] [] 0) ps) -> j ∈ ps.*1).
  enough (P (ranked k cs)) by (by unfold P in *; naive_solver).
  induction (ranked k cs) as [|[i f] ps IH] using rev_ind.
  - split; [|by intros j ?%elem_of_nil]. split; cbn; try lia; by intros ? ? ?%elem_of_nil.
  - apply StronglySorted_app in Hs as (Hlast & Hs & _).
    destruct IH as [IH1 IH2]; [done|intros j g Hj; apply He; apply elem_of_app; by left|].
    unfold P. rewrite foldl_app. cbn [foldl]. split.
    + apply choose_one_well; try done; [apply He; apply elem_of_app; right; left|].
      intros j Hj. apply IH2 in Hj. apply list_elem_of_fmap in Hj as ([j' g] & -> & Hg). exists g. split.
      * apply He. apply elem_of_app. by left.
      * apply Is_true_true, (Hlast (j', g) (i, f)); [done|left].
    + intros j Hj. rewrite fmap_app. apply elem_of_app. apply keep_choose_one in Hj as [Hj| ->]; [left; by apply IH2|].
      right. left.
Qed.

(** ** The choice does not depend on what is here *)

(** The listing after a round that fetched and released as [c] says. *)
Definition settle (c : Choice) (cs : list Candidate) : list Candidate :=
  imap (fun i f => mkCandidate (cd_path f) (cd_size f) (cd_modified f) (bool_decide (i ∈ keep c))) cs.

Definition settled (c : Choice) (p : nat * Candidate) : nat * Candidate :=
  (p.1, mkCandidate (cd_path p.2) (cd_size p.2) (cd_modified p.2) (bool_decide (p.1 ∈ keep c))).

Lemma zip_settle c cs : zip (seq 0 (length (settle c cs))) (settle c cs) = settled c <$> zip (seq 0 (length cs)) cs.
Proof.
  unfold settle. rewrite length_imap. apply list_eq. intros n.
  rewrite list_lookup_fmap, !lookup_zip_with, list_lookup_imap.
  destruct (seq 0 (length cs) !! n) as [i|] eqn:E; [|done]. apply lookup_seq in E as [-> _]. cbn [Nat.add].
  by destruct (cs !! n).
Qed.

Lemma choose_settle c cs k : choose (settle c cs) k = choose cs k.
Proof.
  unfold choose, ranked. rewrite zip_settle.
  rewrite <- (sort_by_fmap (settled c) (fun a b => not_after (order k) a.2 b.2)).
  change (fun a b => not_after (order k) (settled c a).2 (settled c b).2)
    with (fun a b : nat * Candidate => not_after (order k) a.2 b.2).
  generalize (mkChoice [] [] 0). induction (sort_by _ _) as [|[i f] ps IH]; intros s; [done|].
  cbn [fmap list_fmap foldl]. apply IH.
Qed.

(** ** The choice does not depend on the order of the listing *)

Lemma choose_same k (cs cs' : list Candidate) (ps ps' : list (nat * Candidate)) c c' :
  Forall2 (fun p q => p.2 = q.2 /\ cs !! p.1 = Some p.2 /\ cs' !! q.1 = Some q.2) ps ps' ->
  (fun i => cs !! i) <$> keep c = (fun i => cs' !! i) <$> keep c' -> kept_bytes c = kept_bytes c' ->
  let r := foldl (choose_one k) c ps in
  let r' := foldl (choose_one k) c' ps' in
  (fun i => cs !! i) <$> keep r = (fun i => cs' !! i) <$> keep r' /\ kept_bytes r = kept_bytes r'.
Proof.
  intros Hf. revert c c'. induction Hf as [|[i f] [j g] ps ps' (E & Hi & Hj) Hf IH]; intros c c' Hk Hb; [done|].
  cbn zeta. cbn [foldl]. cbn in E, Hi, Hj. subst g. apply IH; unfold choose_one; rewrite <- Hb;
    (destruct (negb _); [|destruct (budget k) as [b|]; [destruct (b <? _); [|destruct (b <? _)]|]]);
    cbn [keep kept_bytes]; try done; rewrite !fmap_app; cbn; by rewrite Hk, Hi, Hj.
Qed.

Lemma ranked_snd k cs : (ranked k cs).*2 = sort_by (not_after (order k)) cs.
Proof. unfold ranked. rewrite sort_by_fmap, snd_zip; [done|]. by rewrite length_seq. Qed.

Lemma ranked_permuted k cs cs' :
  cs ≡ₚ cs' -> NoDup (cd_path <$> cs) -> (ranked k cs).*2 = (ranked k cs').*2.
Proof.
  intros Hp Hn. rewrite !ranked_snd.
  assert (Hs : forall l, StronglySorted (not_after (order k)) (sort_by (not_after (order k)) l)).
  { intros l. apply sort_by_sorted; eauto using not_after_total, not_after_trans. }
  apply (StronglySorted_unique_strong (not_after (order k))); [|done|done|by rewrite !sort_by_perm].
  intros a b Ha Hb H1 H2. rewrite sort_by_perm in Ha, Hb. rewrite <- Hp in Hb.
  apply (NoDup_fmap_eq cd_path cs); try done.
  apply (not_after_antisym (order k)); by apply Is_true_true.
Qed.

Lemma filter_none {A} (P : A -> Prop) `{!forall x, Decision (P x)} (l : list A) :
  (forall x, x ∈ l -> ~ P x) -> filter P l = [].
Proof.
  intros Hn. induction l as [|x l IH]; [done|]. rewrite filter_cons_False by (apply Hn; left).
  apply IH. intros y Hy. apply Hn. by right.
Qed.

(** ** Theorems *)

(** The choice is a window that settles in one round: every file is kept or
    left exactly once; the kept ones are inside the filter and fit the budget;
    each one left has its true reason, and one left for want of room does not
    fit beside the kept files that come before it; and once the round fetched
    and released what the choice says, choosing again gives the same choice
    with nothing to fetch and nothing to release. *)
Theorem choice_settles (cs : list Candidate) (k : Keeping) (b : N) :
  budget k = Some b -> b < u64_max ->
  let c := choose cs k in
  keep c ++ (leave c).*1 ≡ₚ seq 0 (length cs)
  /\ chosen_well cs k b c
  /\ choose (settle c cs) k = c
  /\ to_fetch c (settle c cs) = [] /\ to_release c (settle c cs) = [].
Proof.
  intros Hk Hb c.
  assert (Hp : keep c ++ (leave c).*1 ≡ₚ seq 0 (length cs)).
  { unfold c, choose. rewrite choose_partition. cbn. apply ranked_fst. }
  assert (Hl : forall i h, is_here h (settle c cs) i = true -> h = bool_decide (i ∈ keep c)).
  { intros i h. unfold is_here, settle. rewrite list_lookup_imap. destruct (cs !! i); [|done]. cbn.
    intros H. by apply eqb_prop in H. }
  assert (Hn : NoDup (keep c ++ (leave c).*1)) by (rewrite Hp; apply NoDup_seq).
  apply NoDup_app in Hn as (_ & Hn & _).
  split_and!; [done|by apply choose_well|apply choose_settle| |]; apply filter_none; intros i Hi H%Hl.
  - by rewrite bool_decide_true in H.
  - rewrite bool_decide_false in H; [done|]. intros Hi'. by apply (Hn i).
Qed.

(** Two devices that see the same files in any order keep the same ones, in
    the same order of preference. *)
Theorem choice_ignores_listing_order (cs cs' : list Candidate) (k : Keeping) :
  cs ≡ₚ cs' -> NoDup (cd_path <$> cs) ->
  (fun i => cs !! i) <$> keep (choose cs k) = (fun i => cs' !! i) <$> keep (choose cs' k)
  /\ kept_bytes (choose cs k) = kept_bytes (choose cs' k).
Proof.
  intros Hp Hn. apply choose_same; [|done|done].
  assert (E := ranked_permuted k cs cs' Hp Hn).
  pose proof (elem_of_ranked k cs) as H1. pose proof (elem_of_ranked k cs') as H2.
  revert E H1 H2. generalize (ranked k cs) (ranked k cs'). intros ps.
  induction ps as [|[i f] ps IH]; intros [|[j g] ps'] E H1 H2; try discriminate E; [constructor|].
  injection E as -> E. constructor.
  - split_and!; [done|apply H1; left|apply H2; left].
  - apply IH; [done|intros i' f' ?; apply H1; by right|intros i' f' ?; apply H2; by right].
Qed.

(** Nobody's data plan is spent without consent, and nobody is left waiting:
    over a metered connection a round moves content only if its owner allowed
    it, and hosting takes in nothing and answers only while an allowance the
    owner set is not spent; a round that connects says when the next one is;
    opening the application never does less than leaving it closed, a service
    never less than a background application, and the button never less than
    any of them. *)
Theorem metered_needs_consent (c : Conditions) (s : Settings) (facts : HostFacts) :
  (network c = Metered -> moves_content (scope (plan c s)) = true -> content_on_metered s = true)
  /\ (network c = Metered -> work (hosting c s facts) <> HostEverything)
  /\ (network c = Metered -> work (hosting c s facts) = AnswersOnly -> metered_used facts < metered_allowance s)
  /\ (connects (scope (plan c s)) = true <-> is_Some (every (plan c s)))
  /\ (forall a, scope_rank (scope (plan (mkConditions (network c) (power c) a) s))
              <= scope_rank (scope (plan (mkConditions (network c) (power c) Foreground) s)))
  /\ scope_rank (scope (plan (mkConditions (network c) (power c) Background) s))
     <= scope_rank (scope (plan (mkConditions (network c) (power c) Unattended) s))
  /\ scope_rank (scope (plan c s)) <= scope_rank (scope (asked_for_it c))
  /\ (work (hosting c s facts) = HostEverything -> contribute s = true /\ power c = Charging).
Proof.
  destruct c as [net pow att], s as [content back contrib floor ec eb allow period], facts as [holding used].
  unfold hosting, plan. cbn [network power attention content_on_metered background contribute every_charging
    every_on_battery metered_allowance still_holding metered_used].
  split_and!.
  - intros ->. destruct att, pow, back, content; cbn; done.
  - intros ->. destruct pow, contrib, holding; cbn; try done; destruct (allow =? 0), (allow <=? used); done.
  - intros ->. destruct pow, contrib, holding; cbn; try done;
      destruct (allow =? 0), (N.leb_spec allow used); cbn; done.
  - destruct net, att, pow, back, content; cbn; split; try done; try (by intros [? [=]]); by eexists.
  - intros a. destruct net, a, pow, back, content; by vm_compute.
  - destruct net, pow, back, content; by vm_compute.
  - destruct net, att, pow, back, content; by vm_compute.
  - destruct net, pow, contrib, holding; cbn; try done; destruct (allow =? 0), (allow <=? used); done.
Qed.

(** *** Witnesses *)

Module ToyFiles.
Definition video : Candidate := mkCandidate "video" 900 50 true.
Definition notes : Candidate := mkCandidate "docs/notes" 60 40 false.
Definition old : Candidate := mkCandidate "docs/old" 80 10 true.
Definition huge : Candidate := mkCandidate "docs/huge" 4000 60 false.
Definition photo : Candidate := mkCandidate "docs-old/photo" 5 70 true.
Definition listing : list Candidate := [video; notes; old; huge; photo].
Definition phone : Keeping := mkKeeping (Some 100) Newest ["docs/"%string].
End ToyFiles.

Lemma choice_settles_witness :
  let c := choose ToyFiles.listing ToyFiles.phone in
  c = mkChoice [1%nat] [(4%nat, Filtered); (3%nat, TooLarge); (0%nat, Filtered); (2%nat, NoRoom)] 60
  /\ to_fetch c ToyFiles.listing = [1%nat] /\ to_release c ToyFiles.listing = [4; 0; 2]%nat
  /\ to_release c (settle c ToyFiles.listing) = [].
Proof.
  split_and!; [vm_compute; reflexivity..|].
  apply (choice_settles ToyFiles.listing ToyFiles.phone 100); [reflexivity|vm_compute; reflexivity].
Defined.

Lemma choice_ignores_listing_order_witness :
  (fun i => ToyFiles.listing !! i) <$> keep (choose ToyFiles.listing ToyFiles.phone)
  = (fun i => rev ToyFiles.listing !! i) <$> keep (choose (rev ToyFiles.listing) ToyFiles.phone).
Proof.
  apply (choice_ignores_listing_order ToyFiles.listing (rev ToyFiles.listing) ToyFiles.phone).
  - apply Permutation_rev.
  - apply (bool_decide_unpack _). vm_compute. exact I.
Defined.

Lemma metered_needs_consent_witness :
  work (hosting (mkConditions Metered Charging Background) DEFAULT (mkFacts true 0)) <> HostEverything.
Proof. apply (metered_needs_consent (mkConditions Metered Charging Background) DEFAULT (mkFacts true 0)). reflexivity. Defined.
