(* ===== verification/Conflict.v ===== *)
(** * Conflict: who keeps the path, and where the loser goes

    Models [crates/itsanas-sync/src/conflict.rs].  [wins_original_path] is
    shown to be a strict total order on authorships, so every device reaches
    the same verdict; [sibling_path] is shown injective in the loser's short
    device name and sequence number, never the original path, and accepted by
    [Path.validate] whenever the lengths leave room.  The two cases the
    function does not handle as its comments say are stated as theorems:
    a name that starts with a multi-byte character gets its marker after the
    extension, and a long name yields a sibling the store refuses. *)

From S2P Require Import Prelude Version Ids Path.

Definition CONFLICT_MARKER : list ascii := chars "conflict".

Definition wins_original_path (left right : DeviceId * N) : bool :=
  match N.compare left.1 right.1 with
  | Gt => true
  | Lt => false
  | Eq => right.2 <? left.2
  end.

(** [str::rfind(char)]: the index of the last occurrence. *)
Fixpoint rfind (c : ascii) (l : list ascii) : option nat :=
  match l with
  | [] => None
  | x :: l' =>
      match rfind c l' with
      | Some i => Some (S i)
      | None => if decide (x = c) then Some 0%nat else None
      end
  end.

(** A UTF-8 continuation byte, where a [&str] may not be cut. *)
Definition is_continuation (c : ascii) : bool :=
  (128 <=? N_of_ascii c) && (N_of_ascii c <=? 191).

(** [name.get(1..)]. *)
Definition get_from_1 (name : list ascii) : option (list ascii) :=
  match name with
  | [] => None
  | _ :: [] => Some []
  | _ :: c :: rest => if is_continuation c then None else Some (c :: rest)
  end.

(** The directory part, its slash included, and the final component. *)
Definition split_dir (path : list ascii) : list ascii * list ascii :=
  match rfind slash path with
  | Some index => (take (S index) path, drop (S index) path)
  | None => ([], path)
  end.

Definition mark_name (name marker : list ascii) : list ascii :=
  match get_from_1 name ≫= rfind dot with
  | Some index =>
      let split := S index in
      take split name ++ [dot] ++ marker ++ drop split name
  | None => name ++ [dot] ++ marker
  end.

Definition with_marker_chars (path marker : list ascii) : list ascii :=
  let '(directory, name) := split_dir path in
  directory ++ mark_name name marker.

Definition with_marker (path marker : string) : string :=
  str (with_marker_chars (chars path) (chars marker)).

Definition sibling_marker (device : DeviceId) (sequence : N) : list ascii :=
  CONFLICT_MARKER ++ chars "-" ++ chars (short device) ++ chars "-" ++ decimal sequence.

Definition sibling_path (path : string) (device : DeviceId) (sequence : N) : string :=
  str (with_marker_chars (chars path) (sibling_marker device sequence)).

(** ** Lemmas *)

Lemma chars_str l : chars (str l) = l.
Proof. apply String.list_ascii_of_string_of_list_ascii. Qed.

Lemma str_chars s : str (chars s) = s.
Proof. apply String.string_of_list_ascii_of_string. Qed.

Lemma str_inj a b : str a = str b -> a = b.
Proof. intros H. by rewrite <- (chars_str a), H, chars_str. Qed.

Lemma rfind_None c l : rfind c l = None -> c ∉ l.
Proof.
  induction l as [|x l IH]; simpl; [intros _; apply not_elem_of_nil|].
  destruct (rfind c l); [done|]. case_decide; [done|]. intros _.
  apply not_elem_of_cons. split; [congruence|auto].
Qed.

Lemma rfind_Some c l i :
  rfind c l = Some i ->
  l = take i l ++ c :: drop (S i) l /\ (c ∉ drop (S i) l).
Proof.
  revert i. induction l as [|x l IH]; intros i; simpl; [done|].
  destruct (rfind c l) as [j|] eqn:Hr.
  - intros [= <-]. destruct (IH j eq_refl) as [H1 H2]. simpl. split; [by f_equal|done].
  - case_decide; [|done]. intros [= <-]. subst. simpl.
    split; [by rewrite drop_0|]. rewrite drop_0. by apply rfind_None.
Qed.

(** The final component has no slash and the directory part ends in one. *)
Lemma split_dir_spec p dir name :
  split_dir p = (dir, name) ->
  p = dir ++ name /\ (slash ∉ name) /\ (dir = [] \/ exists d, dir = d ++ [slash]).
Proof.
  unfold split_dir. destruct (rfind slash p) as [i|] eqn:Hr; intros [= <- <-].
  - destruct (rfind_Some _ _ _ Hr) as [Hp Hn]. split_and!; [by rewrite take_drop|done|].
    right. exists (take i p). 
    assert (Hi : p !! i = Some slash).
    { rewrite Hp. rewrite lookup_app_r; rewrite length_take_le.
      - by rewrite Nat.sub_diag.
      - apply (f_equal length) in Hp. rewrite length_app, length_take in Hp. simpl in Hp. lia.
      - lia.
      - apply (f_equal length) in Hp. rewrite length_app, length_take in Hp. simpl in Hp. lia. }
    by apply take_S_r.
  - split_and!; [done|by apply rfind_None|by left].
Qed.

(** Where the marker goes: after a non-empty head, before nothing or a dot. *)
Lemma mark_name_spec name :
  name <> [] ->
  exists a b, name = a ++ b /\ a <> [] /\ (b = [] \/ head b = Some dot)
    /\ forall m, mark_name name m = a ++ [dot] ++ m ++ b.
Proof.
  intros Hne. unfold mark_name.
  destruct (get_from_1 name ≫= rfind dot) as [i|] eqn:Hg; simpl.
  - exists (take (S i) name), (drop (S i) name). split_and!; [by rewrite take_drop|..|done].
    + by destruct name.
    + right. destruct name as [|x [|c rest]]; simpl in Hg; [done|done|].
      destruct (is_continuation c); simpl in Hg; [done|].
      destruct (rfind_Some dot (c :: rest) i Hg) as [Heq _]. simpl.
      rewrite Heq at 1. rewrite drop_app_length'; [done|].
      rewrite length_take_le; [done|].
      apply (f_equal length) in Heq. rewrite length_app, length_take in Heq.
      simpl in Heq. simpl. lia.
  - exists name, []. split_and!; [by rewrite app_nil_r|done|by left|].
    intros m. by rewrite app_nil_r.
Qed.

Lemma split_on_app_gen c a b : split_on c (a ++ c :: b) = split_on c a ++ split_on c b.
Proof.
  induction a as [|x a IH]; simpl; [by rewrite decide_True|].
  case_decide; [by rewrite IH|]. rewrite IH.
  destruct (split_on c a) eqn:Hs; [by destruct (split_on_nonempty c a)|done].
Qed.

Lemma stem_of_app_dot a x : stem_of (a ++ dot :: x) = stem_of a.
Proof.
  unfold stem_of. rewrite split_on_app_gen.
  destruct (split_on dot a) eqn:Hs; [by destruct (split_on_nonempty dot a)|done].
Qed.

Lemma has_control_app_false x y :
  has_control (x ++ y) = false -> has_control x = false /\ has_control y = false.
Proof.
  induction x as [|c x IH]; simpl; [done|]. intros H.
  apply orb_false_iff in H as [H1 H2]. destruct (IH H2) as [-> ->].
  split; [|done]. rewrite orb_false_r.
  apply orb_false_iff in H1 as [-> H1]. simpl. destruct x; [by rewrite andb_false_r|exact H1].
Qed.

(** A first byte that cannot complete a two-byte control character. *)
Definition opens_ascii (l : list ascii) : Prop :=
  match l with [] => True | d :: _ => N_of_ascii d < 128 end.

Lemma has_control_join x y :
  has_control x = false -> has_control y = false -> opens_ascii y ->
  has_control (x ++ y) = false.
Proof.
  intros Hx Hy Ho. induction x as [|c x IH]; simpl in *; [done|].
  apply orb_false_iff in Hx as [H1 H2]. rewrite (IH H2), orb_false_r.
  apply orb_false_iff in H1 as [-> H1]. simpl. destruct x as [|d x]; [|exact H1].
  destruct y as [|d y]; simpl; [by rewrite andb_false_r|].
  simpl in Ho. replace (128 <=? N_of_ascii d) with false; [by rewrite andb_false_r|].
  symmetry. by apply N.leb_gt.
Qed.

(** What a marker must be for the sibling to stay a valid path. *)
Definition safe_marker (m : list ascii) : Prop :=
  m <> [] /\ Forall (fun c => 32 < N_of_ascii c < 127 /\ c <> slash /\ c <> backslash) m
  /\ last m <> Some dot.

Lemma safe_marker_control m : safe_marker m -> has_control m = false.
Proof.
  intros (_ & Hall & _). induction Hall as [|c m Hc _ IH]; simpl; [done|].
  rewrite IH, orb_false_r. destruct Hc as [Hc _].
  replace (N_of_ascii c <? 32) with false by (symmetry; apply N.ltb_ge; lia).
  replace (N_of_ascii c =? 127) with false by (symmetry; apply N.eqb_neq; lia).
  replace (N_of_ascii c =? 194) with false by (symmetry; apply N.eqb_neq; lia). done.
Qed.

Lemma last_app_ne {A} (x y : list A) : y <> [] -> last (x ++ y) = last y.
Proof. intros Hy. rewrite last_app. destruct y as [|a y]; [done|]. by destruct (last (a :: y)) eqn:E; [|apply last_None in E]. Qed.

Lemma safe_marker_last_space m : safe_marker m -> last m <> Some space.
Proof.
  intros (_ & Hall & _) Hl. apply last_Some in Hl as [l' ->].
  rewrite Forall_app in Hall. destruct Hall as [_ Hall].
  apply Forall_inv in Hall as [Hc _]. vm_compute in Hc. by destruct Hc.
Qed.

(** The marker in front of an extension leaves a component acceptable. *)
Lemma validate_component_mark a b m :
  validate_component (a ++ b) = None -> a <> [] -> b = [] \/ head b = Some dot ->
  safe_marker m -> len_bytes (a ++ [dot] ++ m ++ b) <= MAX_COMPONENT_LEN ->
  validate_component (a ++ [dot] ++ m ++ b) = None.
Proof.
  rewrite !validate_component_None. intros (_ & _ & _ & _ & Hsp & Hdt & Hst) Ha Hb Hm Hlen.
  pose proof Hm as (Hmne & _ & Hmdot). pose proof (safe_marker_last_space m Hm).
  assert (Hl : last (a ++ [dot] ++ m ++ b) = last (if decide (b = []) then m else b)).
  { case_decide.
    - subst. rewrite app_nil_r, !last_app_ne by (by destruct m). done.
    - rewrite !last_app_ne; try done; by destruct m. }
  assert (3 <= length (a ++ [dot] ++ m ++ b))%nat.
  { rewrite !length_app. destruct a; [done|]. destruct m; [done|]. simpl. lia. }
  split_and!; [by destruct a|done|..].
  - intros E. rewrite E in H0. simpl in H0. lia.
  - intros E. rewrite E in H0. simpl in H0. lia.
  - rewrite Hl. case_decide; [done|]. by rewrite last_app_ne in Hsp.
  - rewrite Hl. case_decide; [done|]. by rewrite last_app_ne in Hdt.
  - change ([dot] ++ m ++ b) with (dot :: m ++ b). rewrite stem_of_app_dot.
    destruct Hb as [->|Hb]; [by rewrite app_nil_r in Hst|].
    destruct b as [|d b]; [done|]. injection Hb as ->. by rewrite stem_of_app_dot in Hst.
Qed.

Lemma split_on_dir dir :
  dir = [] \/ (exists d, dir = d ++ [slash]) ->
  exists cs, forall n, split_on slash (dir ++ n) = cs ++ split_on slash n.
Proof.
  intros [->|[d ->]]; [by exists []|]. exists (split_on slash d). intros n.
  rewrite <- app_assoc. apply split_on_app_gen.
Qed.

Lemma mark_no_slash a b m :
  slash ∉ a ++ b -> safe_marker m -> slash ∉ a ++ [dot] ++ m ++ b.
Proof.
  intros Hn (_ & Hall & _). rewrite !elem_of_app in *. rewrite Forall_forall in Hall.
  intros [?|[Hd|[Hm|?]]]; [naive_solver| |destruct (Hall _ Hm); naive_solver|naive_solver].
  by apply list_elem_of_singleton in Hd.
Qed.

Lemma accepted_with_marker p m :
  accepted p -> safe_marker m ->
  len_bytes (with_marker_chars p m) <= MAX_PATH_LEN ->
  len_bytes (mark_name (split_dir p).2 m) <= MAX_COMPONENT_LEN ->
  accepted (with_marker_chars p m).
Proof.
  intros Hacc Hm Hlen Hclen. unfold with_marker_chars in *.
  destruct (split_dir p) as [dir name] eqn:Hsd. simpl in Hclen.
  destruct (split_dir_spec _ _ _ Hsd) as (Hp & Hns & Hdir).
  destruct Hacc as (Hne & _ & Hbs & Hhd & Hlast & Hctl & Hcol & Hcomp).
  destruct (split_on_dir dir Hdir) as [cs Hcs].
  rewrite Hp, Hcs, (split_on_none _ name), Forall_app, Forall_singleton in Hcomp by done.
  destruct Hcomp as [Hcs' Hname].
  assert (Hnne : name <> []) by (intros ->; by apply validate_component_None in Hname as [? _]).
  destruct (mark_name_spec name Hnne) as (a & b & Hab & Ha & Hb & Hmark).
  rewrite Hmark in *. subst name. rewrite Hp in *. clear Hp Hsd Hmark.
  pose proof Hm as (Hmne & Hmall & _).
  assert (Hheads : exists x l, dir ++ a = x :: l).
  { destruct dir as [|x dir]; [destruct a as [|x a]; [done|eauto]|simpl; eauto]. }
  destruct Hheads as (x & l & Hxl).
  unfold accepted. split_and!.
  - rewrite app_assoc, Hxl. done.
  - done.
  - rewrite !elem_of_app in *. rewrite Forall_forall in Hmall.
    intros [?|[?|[Hd|[Hin|?]]]]; [naive_solver..| | |naive_solver].
    + by apply list_elem_of_singleton in Hd.
    + by destruct (Hmall _ Hin) as (_ & _ & ?).
  - rewrite app_assoc in Hhd |- *. by rewrite Hxl in *.
  - assert (Hn := mark_no_slash a b m Hns Hm).
    rewrite last_app_ne by (by destruct a). intros Hl. apply Hn.
    by apply last_Some_elem_of.
  - rewrite app_assoc in Hctl. apply has_control_app_false in Hctl as [Hc1 Hc2].
    rewrite app_assoc. apply has_control_join; [done| |done].
    apply has_control_join; [done| |by destruct m as [|c m]; [done|];
      apply Forall_inv in Hmall as [? _]; simpl; lia].
    apply has_control_join; [by apply safe_marker_control|done|].
    destruct Hb as [->|Hb]; [done|]. destruct b as [|d b]; [done|]. by injection Hb as ->.
  - rewrite app_assoc in Hcol |- *. rewrite Hxl in *. destruct l as [|y l]; [done|].
    simpl in *. exact Hcol.
  - rewrite Hcs, (split_on_none _ (a ++ _)) by (by apply mark_no_slash).
    apply Forall_app. split; [done|]. apply Forall_singleton.
    by apply validate_component_mark.
Qed.

Definition marker_char (c : ascii) : Prop := 32 < N_of_ascii c < 127 /\ c <> slash /\ c <> backslash /\ c <> dot.

Lemma hex_digit_marker d : d < 16 -> marker_char (hex_digit d).
Proof.
  intros Hd.
  assert (Hall : Forall (fun k => marker_char (hex_digit (N.of_nat k))) (seq 0 16)).
  { repeat (constructor; [unfold marker_char; by vm_compute|]). constructor. }
  rewrite Forall_forall in Hall. rewrite <- (N2Nat.id d). apply Hall.
  apply elem_of_seq. lia.
Qed.

Lemma hex_of_bytes_marker bytes :
  Forall (fun b => b < 256) bytes -> Forall marker_char (hex_of_bytes bytes).
Proof.
  induction 1 as [|b bytes Hb _ IH]; [constructor|]. rewrite hex_of_bytes_cons.
  constructor; [apply hex_digit_marker, N.Div0.div_lt_upper_bound; lia|].
  constructor; [apply hex_digit_marker, N.mod_lt; lia|done].
Qed.

Lemma decimal_digit_marker c : is_decimal_digit c -> marker_char c.
Proof.
  intros Hc. unfold is_decimal_digit in Hc.
  split_and!; [lia|lia|intros ->; vm_compute in Hc; naive_solver..].
Qed.

Lemma chars_short d : chars (short d) = take 12 (hex_of_bytes (as_bytes d)).
Proof. apply chars_str. Qed.

Lemma sibling_marker_chars d s : Forall marker_char (sibling_marker d s).
Proof.
  unfold sibling_marker. rewrite !Forall_app, chars_short. split_and!.
  - repeat (constructor; [by vm_compute|]). constructor.
  - by repeat (constructor; [by vm_compute|]).
  - apply Forall_take, hex_of_bytes_marker, as_bytes_bound.
  - by repeat (constructor; [by vm_compute|]).
  - eapply Forall_impl; [apply decimal_digits|apply decimal_digit_marker].
Qed.

Lemma sibling_marker_safe d s : safe_marker (sibling_marker d s).
Proof.
  pose proof (sibling_marker_chars d s) as Hall. split_and!.
  - by unfold sibling_marker.
  - eapply Forall_impl; [exact Hall|]. unfold marker_char. naive_solver.
  - intros Hl. rewrite Forall_forall in Hall.
    destruct (Hall dot) as (_ & _ & _ & ?); [|done].
    by apply last_Some_elem_of.
Qed.

(** ** The properties *)

Lemma wins_spec l r :
  wins_original_path l r = true <-> r.1 < l.1 \/ (l.1 = r.1 /\ r.2 < l.2).
Proof.
  unfold wins_original_path. destruct (N.compare_spec l.1 r.1) as [He|Hlt|Hgt].
  - rewrite N.ltb_lt. lia.
  - split; [done|]. lia.
  - split; [lia|done].
Qed.

(** [wins_original_path] is a strict total order on authorships: nothing
    beats itself, of two different authorships exactly one wins whichever side
    asks, and winning is transitive.  Every device therefore leaves the same
    version at the original path. *)
Theorem wins_original_path_total_order (a b c : DeviceId * N) :
  wins_original_path a a = false
  /\ (a <> b -> wins_original_path a b = negb (wins_original_path b a))
  /\ (wins_original_path a b = true -> wins_original_path b c = true ->
      wins_original_path a c = true).
Proof.
  split_and!.
  - apply not_true_iff_false. rewrite wins_spec. lia.
  - intros Hne. destruct (wins_original_path b a) eqn:Hba.
    + apply not_true_iff_false. rewrite wins_spec in *. lia.
    + apply not_true_iff_false in Hba. simpl. rewrite wins_spec in *.
      assert (a.1 <> b.1 \/ a.2 <> b.2); [|lia].
      destruct a as [a1 a2], b as [b1 b2]; simpl.
      destruct (decide (a1 = b1)), (decide (a2 = b2)); [congruence|auto..].
  - rewrite !wins_spec. lia.
Qed.

Lemma wins_original_path_total_order_witness :
  (9, 1) <> (2, 9999)
  /\ wins_original_path (9, 1) (2, 9999) = negb (wins_original_path (2, 9999) (9, 1))
  /\ wins_original_path (9, 1) (1, 5) = true.
Proof.
  split; [done|].
  destruct (wins_original_path_total_order (9, 1) (2, 9999) (1, 5)) as (_ & H1 & H2).
  split; [by apply H1|]. by apply H2.
Defined.

Lemma chars_sibling p d s :
  chars (sibling_path p d s) = with_marker_chars (chars p) (sibling_marker d s).
Proof. apply chars_str. Qed.

Lemma length_mark_name name m :
  length (mark_name name m) = (length name + 1 + length m)%nat.
Proof.
  unfold mark_name. destruct (get_from_1 name ≫= rfind dot) as [i|].
  - rewrite !length_app, length_take, length_drop. change (length [dot]) with 1%nat. lia.
  - rewrite !length_app. simpl. lia.
Qed.

Lemma length_with_marker p m :
  length (with_marker_chars p m) = (length p + 1 + length m)%nat.
Proof.
  unfold with_marker_chars. destruct (split_dir p) as [dir name] eqn:Hsd.
  destruct (split_dir_spec _ _ _ Hsd) as (-> & _).
  rewrite !length_app, length_mark_name. lia.
Qed.

Lemma with_marker_component p m :
  accepted p -> safe_marker m ->
  mark_name (split_dir p).2 m ∈ split_on slash (with_marker_chars p m).
Proof.
  intros Hacc Hm. unfold with_marker_chars. destruct (split_dir p) as [dir name] eqn:Hsd.
  destruct (split_dir_spec _ _ _ Hsd) as (-> & Hns & Hdir).
  destruct (split_on_dir dir Hdir) as [cs Hcs]. simpl.
  assert (Hnne : name <> []).
  { intros ->. destruct Hacc as (_ & _ & _ & _ & _ & _ & _ & Hc).
    rewrite Hcs, Forall_app in Hc. destruct Hc as [_ Hc]. by apply Forall_inv in Hc. }
  destruct (mark_name_spec name Hnne) as (a & b & -> & _ & _ & ->).
  rewrite Hcs, split_on_none by (by apply mark_no_slash).
  apply elem_of_app. right. by left.
Qed.

(** For a path the store accepts, the sibling a losing version is moved to
    is accepted exactly when the marker still fits: the whole path within
    [MAX_PATH_LEN] and its final component within [MAX_COMPONENT_LEN]. *)
Theorem sibling_path_accepted (path : string) (device : DeviceId) (sequence : N) :
  validate path = Ok tt ->
  validate (sibling_path path device sequence) = Ok tt
  <-> len_bytes (chars path) + 1 + len_bytes (sibling_marker device sequence) <= MAX_PATH_LEN
      /\ len_bytes (split_dir (chars path)).2 + 1 + len_bytes (sibling_marker device sequence)
         <= MAX_COMPONENT_LEN.
Proof.
  intros Hv%validate_accepted. rewrite validate_accepted, chars_sibling.
  pose proof (sibling_marker_safe device sequence) as Hm.
  pose proof (length_with_marker (chars path) (sibling_marker device sequence)) as Hl.
  pose proof (length_mark_name (split_dir (chars path)).2 (sibling_marker device sequence)) as Hn.
  split.
  - intros Hacc. pose proof (with_marker_component _ _ Hv Hm) as Hin.
    destruct Hacc as (_ & Hlen & _ & _ & _ & _ & _ & Hall).
    rewrite Forall_forall in Hall. specialize (Hall _ Hin).
    apply validate_component_None in Hall as (_ & Hclen & _).
    unfold len_bytes in *. lia.
  - intros [H1 H2]. unfold len_bytes in *.
    apply accepted_with_marker; [done|done|unfold len_bytes; lia..].
Qed.

Lemma sibling_path_accepted_witness :
  validate "work/report.pdf" = Ok tt
  /\ validate (sibling_path "work/report.pdf" (2 ^ 255) 7) = Ok tt.
Proof.
  assert (Hv : validate "work/report.pdf" = Ok tt) by (vm_compute; reflexivity).
  split; [exact Hv|].
  apply (sibling_path_accepted "work/report.pdf" (2 ^ 255) 7 Hv).
  split; vm_compute; discriminate.
Defined.

Lemma with_marker_inj p m m' : with_marker_chars p m = with_marker_chars p m' -> m = m'.
Proof.
  unfold with_marker_chars. destruct (split_dir p) as [dir name].
  intros H%app_inv_head. unfold mark_name in H.
  destruct (get_from_1 name ≫= rfind dot) as [i|].
  - apply app_inv_head in H. injection H as H. by apply app_inv_tail in H.
  - apply app_inv_head in H. by injection H as H.
Qed.

(** The sibling names the loser by its short device name and sequence number. *)
Lemma sibling_path_eq path d d' s s' :
  sibling_path path d s = sibling_path path d' s' <-> short d = short d' /\ s = s'.
Proof.
  split; [|by intros [Hd ->]; unfold sibling_path, sibling_marker; rewrite Hd].
  intros H%str_inj%with_marker_inj. unfold sibling_marker in H.
  do 2 apply app_inv_head in H.
  assert (Hlen : forall x, length (chars (short x)) = 12%nat).
  { intros x. rewrite chars_short, length_take, length_hex_of_bytes, length_as_bytes. done. }
  apply app_inj_length in H as [H1 H2]; [|by rewrite !Hlen].
  apply app_inv_head, decimal_inj in H2. split; [|done].
  by rewrite <- (str_chars (short d)), H1, str_chars.
Qed.

Lemma sibling_path_ne path d s : sibling_path path d s <> path.
Proof.
  intros H. apply (f_equal chars) in H. rewrite chars_sibling in H.
  apply (f_equal length) in H. rewrite length_with_marker in H. lia.
Qed.

(** Two losing versions of one file are moved to the same sibling only if
    they carry the same short device name and the same sequence number, and no
    sibling is the original path: concurrent losers do not overwrite each other
    or the winner. *)
Theorem sibling_path_injective (path : string) (d d' : DeviceId) (s s' : N) :
  (sibling_path path d s = sibling_path path d' s' <-> short d = short d' /\ s = s')
  /\ sibling_path path d s <> path.
Proof. split; [apply sibling_path_eq|apply sibling_path_ne]. Qed.

(** A name whose first character takes more than one byte is treated as
    having no extension: [name.get(1..)] is not on a character boundary, so
    the marker is appended after the extension instead of before it. *)
Theorem with_marker_multibyte (c0 c1 : ascii) (rest marker : list ascii) :
  is_continuation c1 = true -> (slash ∉ c0 :: c1 :: rest) ->
  with_marker_chars (c0 :: c1 :: rest) marker = (c0 :: c1 :: rest) ++ [dot] ++ marker.
Proof.
  intros Hc Hs. unfold with_marker_chars, split_dir.
  destruct (rfind slash (c0 :: c1 :: rest)) as [i|] eqn:Hr.
  - apply rfind_Some in Hr as [Hr _]. destruct Hs. rewrite Hr.
    apply elem_of_app. right. by left.
  - unfold mark_name, get_from_1. by rewrite Hc.
Qed.

(** The bytes of the French word for summer, then [.pdf]. *)
Definition summer_pdf : list ascii := [ascii_of_N 195; ascii_of_N 137] ++ chars "t.pdf".

Lemma with_marker_multibyte_witness :
  is_continuation (ascii_of_N 137) = true
  /\ with_marker_chars summer_pdf (sibling_marker 0 7)
     = summer_pdf ++ chars ".conflict-000000000000-7"
  /\ with_marker_chars (chars "ete.pdf") (sibling_marker 0 7)
     = chars "ete.conflict-000000000000-7.pdf".
Proof.
  assert (Hc : is_continuation (ascii_of_N 137) = true) by reflexivity.
  split; [exact Hc|]. split; [|vm_compute; reflexivity].
  unfold summer_pdf. change ([ascii_of_N 195; ascii_of_N 137] ++ chars "t.pdf")
    with (ascii_of_N 195 :: ascii_of_N 137 :: chars "t.pdf").
  rewrite with_marker_multibyte; [vm_compute; reflexivity|exact Hc|].
  refine (bool_decide_unpack (_ ∉ _) _). vm_compute. exact I.
Defined.
