(* ===== verification/Crypto.v ===== *)
(** * Crypto: sealing, addressing and signing

    Models [crates/itsanas-crypto/src/seal.rs], the parts of [identity.rs]
    that seal, address and sign, and [kdf.rs].  BLAKE3, XChaCha20-Poly1305 and
    Ed25519 are third-party: they are the fields of the class [Primitives], and
    what the code relies on (decryption inverts encryption, a tag of sixteen
    bytes, a signature verifies under its own key, digests of 32 bytes) are the
    fields of [PrimitiveLaws].  [Toy] is an instance of both, which the
    witnesses use. *)

From S2P Require Import Prelude Version Ids Path.

Class Primitives := {
  blake3_hash : list N -> list N;
  blake3_keyed_hash : list N -> list N -> list N;
  blake3_derive_key : string -> list N -> list N;
  (** [new_keyed(key).update(label).finalize_xof().fill(out)] for [n] bytes. *)
  blake3_keyed_xof : list N -> list N -> nat -> list N;
  (** key, nonce, associated data, message. *)
  aead_encrypt : list N -> list N -> list N -> list N -> option (list N);
  aead_decrypt : list N -> list N -> list N -> list N -> option (list N);
  verifying_key : list N -> list N;
  ed25519_sign : list N -> list N -> list N;
  verify_strict : list N -> list N -> list N -> bool;
}.

Class PrimitiveLaws `{!Primitives} := {
  aead_correct k n a m c :
    aead_encrypt k n a m = Some c -> aead_decrypt k n a c = Some m;
  aead_overhead k n a m c :
    aead_encrypt k n a m = Some c -> length c = (length m + 16)%nat;
  ed25519_correct seed d :
    verify_strict (verifying_key seed) d (ed25519_sign seed d) = true;
  blake3_hash_length m : length (blake3_hash m) = 32%nat;
  verifying_key_id seed : length (verifying_key seed) = 32%nat
    /\ Forall (fun b => b < 256) (verifying_key seed);
}.

(** ** seal.rs *)

Definition SEAL_VERSION : N := 1.
Definition CHUNK_PURPOSE : string := "chunk".
Definition KEY_LEN : nat := 32.
Definition NONCE_LEN : nat := 24.
Definition TAG_LEN : nat := 16.
Definition DETERMINISTIC_OVERHEAD : nat := 1 + TAG_LEN.
Definition RANDOM_OVERHEAD : nat := 1 + NONCE_LEN + TAG_LEN.

Record SealContext := mkContext {
  purpose : string;
  ctx_owner : UserId;
  address : list N;
}.

(** [u32::try_from(len).unwrap_or(u32::MAX).to_le_bytes()]. *)
Definition len_prefix (l : list N) : list N :=
  le_bytes 4 (N.min (N.of_nat (length l)) u32_max).

Definition associated_data (c : SealContext) : list N :=
  let p := bytes_of_string (purpose c) in
  [SEAL_VERSION] ++ len_prefix p ++ p ++ as_bytes (ctx_owner c)
  ++ len_prefix (address c) ++ address c.

Definition key_label (c : SealContext) : list N := associated_data c.

Section crypto.
Context `{!Primitives}.

(** kdf.rs *)
Definition kdf_derive (context : string) (material : list N) : list N :=
  blake3_derive_key context material.

Definition kdf_expand (root label : list N) (n : nat) : list N :=
  blake3_keyed_xof root label n.

Definition cipher_key (root : list N) (c : SealContext) : list N :=
  kdf_expand root (key_label c) KEY_LEN.

Definition deterministic_nonce (root : list N) (c : SealContext) : list N :=
  kdf_expand root (key_label c ++ bytes_of_string "/nonce") NONCE_LEN.

Definition check_version (sealed : list N) (kind : string) : result CryptoError unit :=
  match sealed with
  | [] => Err (Malformed "sealed object is empty")
  | v :: _ => if v =? SEAL_VERSION then Ok tt else Err (UnsupportedVersion kind v SEAL_VERSION)
  end.

Definition seal_deterministic (root : list N) (c : SealContext) (plaintext : list N)
  : result CryptoError (list N) :=
  match aead_encrypt (cipher_key root c) (deterministic_nonce root c)
          (associated_data c) plaintext with
  | Some ciphertext => Ok (SEAL_VERSION :: ciphertext)
  | None => Err (Kdf "deterministic sealing failed")
  end.

Definition open_deterministic (root : list N) (c : SealContext) (sealed : list N)
  : result CryptoError (list N) :=
  _ <-? check_version sealed "sealed chunk";
  match aead_decrypt (cipher_key root c) (deterministic_nonce root c)
          (associated_data c) (drop 1 sealed) with
  | Some plaintext => Ok plaintext
  | None => Err Decrypt
  end.

(** The nonce the operating system draws is an argument. *)
Definition seal_with_key (nonce key aad plaintext : list N) : result CryptoError (list N) :=
  match aead_encrypt key nonce aad plaintext with
  | Some ciphertext => Ok (SEAL_VERSION :: nonce ++ ciphertext)
  | None => Err (Kdf "sealing failed")
  end.

Definition open_with_key (key aad sealed : list N) : result CryptoError (list N) :=
  _ <-? check_version sealed "sealed object";
  if (length sealed <? RANDOM_OVERHEAD)%nat then Err (Malformed "sealed object is too short")
  else
    match aead_decrypt key (take NONCE_LEN (drop 1 sealed)) aad
            (drop (NONCE_LEN + 1) sealed) with
    | Some plaintext => Ok plaintext
    | None => Err Decrypt
    end.

Definition seal_random (nonce root : list N) (c : SealContext) (plaintext : list N)
  : result CryptoError (list N) :=
  seal_with_key nonce (cipher_key root c) (associated_data c) plaintext.

Definition open_random (root : list N) (c : SealContext) (sealed : list N)
  : result CryptoError (list N) :=
  open_with_key (cipher_key root c) (associated_data c) sealed.

(** ** identity.rs *)

(** What is hashed before it is signed: the domain behind its length, then the
    message. *)
Definition digest_input (domain : string) (message : list N) : list N :=
  let d := bytes_of_string domain in
  le_bytes 4 (N.of_nat (length d)) ++ d ++ message.

Definition CTX_SIGNED_MESSAGE : string := "itsanas v1 signed message digest".

Definition message_digest (domain : string) (message : list N) : list N :=
  blake3_derive_key CTX_SIGNED_MESSAGE (digest_input domain message).

Definition verify (public : list N) (domain : string) (message sig : list N)
  : result CryptoError unit :=
  if verify_strict public (message_digest domain message) sig then Ok tt else Err BadSignature.

Record UserKeys := mkUserKeys {
  master : list N;
  signing_seed : list N;
  chunk_root : list N;
  blinding : list N;
  oplog_root : list N;
  audit_order : list N;
}.

Definition derive (m : list N) : UserKeys := {|
  master := m;
  signing_seed := kdf_derive "itsanas v1 user master signing key" m;
  chunk_root := kdf_derive "itsanas v1 user chunk data key" m;
  blinding := kdf_derive "itsanas v1 user chunk id blinding key" m;
  oplog_root := kdf_derive "itsanas v1 user oplog object key" m;
  audit_order := kdf_derive "itsanas v1 user audit ordering key" m;
|}.

Definition user_id (u : UserKeys) : UserId := of_be_bytes (verifying_key (signing_seed u)).

Definition user_sign (u : UserKeys) (domain : string) (message : list N) : list N :=
  ed25519_sign (signing_seed u) (message_digest domain message).

Definition chunk_id (u : UserKeys) (plaintext : list N) : ChunkId :=
  of_be_bytes (blake3_keyed_hash (blinding u) (blake3_hash plaintext)).

Definition chunk_context (u : UserKeys) (addr : ChunkId) : SealContext :=
  mkContext CHUNK_PURPOSE (user_id u) (as_bytes addr).

Definition seal_chunk (u : UserKeys) (plaintext : list N)
  : result CryptoError (ChunkId * list N) :=
  let addr := chunk_id u plaintext in
  sealed <-? seal_deterministic (chunk_root u) (chunk_context u addr) plaintext;
  Ok (addr, sealed).

Definition open_chunk (u : UserKeys) (addr : ChunkId) (sealed : list N)
  : result CryptoError (list N) :=
  open_deterministic (chunk_root u) (chunk_context u addr) sealed.

Record DeviceKeys := mkDeviceKeys { device_seed : list N }.

Definition device_id (d : DeviceKeys) : DeviceId :=
  of_be_bytes (verifying_key (device_seed d)).

Definition device_sign (d : DeviceKeys) (domain : string) (message : list N) : list N :=
  ed25519_sign (device_seed d) (message_digest domain message).

End crypto.

(** ** Lemmas *)

Lemma bytes_of_string_bound s : Forall (fun b => b < 256) (bytes_of_string s).
Proof.
  unfold bytes_of_string. apply Forall_fmap. apply Forall_true. intros c.
  apply N_ascii_bounded.
Qed.

(** A length that fits the prefix is recovered from it. *)
Lemma len_prefix_inj a b :
  N.of_nat (length a) < u32_max -> N.of_nat (length b) < u32_max ->
  len_prefix a = len_prefix b -> length a = length b.
Proof.
  unfold len_prefix, u32_max. intros Ha Hb H. apply le_bytes_inj in H; [lia|..];
    change (256 ^ N.of_nat 4) with (2 ^ 32); lia.
Qed.

Lemma len_prefixed_inj a b x y :
  N.of_nat (length a) < u32_max -> N.of_nat (length b) < u32_max ->
  len_prefix a ++ a ++ x = len_prefix b ++ b ++ y -> a = b /\ x = y.
Proof.
  intros Ha Hb H. apply app_inj_length in H as [H1 H2];
    [|unfold len_prefix; by autorewrite with its].
  apply len_prefix_inj in H1; [|done..]. by apply app_inj_length in H2.
Qed.

Section laws.
Context `{!Primitives, !PrimitiveLaws}.

Lemma verifying_key_bytes seed : as_bytes (of_be_bytes (verifying_key seed)) = verifying_key seed.
Proof.
  destruct (verifying_key_id seed) as [Hl Hb]. unfold as_bytes, be_bytes, of_be_bytes.
  rewrite <- (rev_involutive (verifying_key seed)) at 2. f_equal.
  replace ID_LEN with (length (rev (verifying_key seed))) by (by rewrite length_rev).
  rewrite le_bytes_of_le_bytes; [done|]. by apply Forall_rev.
Qed.

Lemma open_seal_deterministic root c p sealed :
  seal_deterministic root c p = Ok sealed -> open_deterministic root c sealed = Ok p.
Proof.
  unfold seal_deterministic, open_deterministic. case_match eqn:He; [|done].
  intros [= <-]. simpl. by rewrite drop_0, (aead_correct _ _ _ _ _ He).
Qed.

Lemma open_seal_chunk u p addr sealed :
  seal_chunk u p = Ok (addr, sealed) ->
  addr = chunk_id u p /\ open_chunk u addr sealed = Ok p.
Proof.
  unfold seal_chunk, open_chunk. destruct (seal_deterministic _ _ _) eqn:Hs; [|done].
  intros [= <- <-]. split; [done|]. by apply open_seal_deterministic.
Qed.

Lemma length_seal_deterministic root c p sealed :
  seal_deterministic root c p = Ok sealed ->
  length sealed = (length p + DETERMINISTIC_OVERHEAD)%nat.
Proof.
  unfold seal_deterministic. case_match eqn:He; [|done]. intros [= <-]. simpl.
  rewrite (aead_overhead _ _ _ _ _ He). unfold DETERMINISTIC_OVERHEAD, TAG_LEN. lia.
Qed.

Lemma open_seal_random nonce root c p sealed :
  length nonce = NONCE_LEN ->
  seal_random nonce root c p = Ok sealed -> open_random root c sealed = Ok p.
Proof.
  unfold seal_random, seal_with_key, open_random, open_with_key. intros Hn.
  case_match eqn:He; [|done]. intros [= <-]. cbn [check_version rbind].
  rewrite N.eqb_refl. cbn [rbind].
  replace (length (SEAL_VERSION :: nonce ++ l) <? RANDOM_OVERHEAD)%nat with false.
  - change (drop 1 (SEAL_VERSION :: nonce ++ l)) with (drop 0 (nonce ++ l)).
    change (drop (NONCE_LEN + 1) (SEAL_VERSION :: nonce ++ l)) with (drop NONCE_LEN (nonce ++ l)).
    rewrite drop_0, <- Hn, take_app_length, drop_app_length.
    by rewrite (aead_correct _ _ _ _ _ He).
  - symmetry. apply Nat.ltb_ge. simpl. rewrite length_app, Hn.
    rewrite (aead_overhead _ _ _ _ _ He). unfold RANDOM_OVERHEAD, NONCE_LEN, TAG_LEN. lia.
Qed.

Lemma verify_device_sign d domain m :
  verify (as_bytes (device_id d)) domain m (device_sign d domain m) = Ok tt.
Proof.
  unfold verify, device_id, device_sign. rewrite verifying_key_bytes.
  by rewrite ed25519_correct.
Qed.

End laws.

(** ** A concrete instance

    Enough arithmetic to satisfy the laws; it protects nothing. *)

Module Toy.

Definition fold_bytes (l : list N) : N := foldl (fun acc b => (acc * 257 + b + 1) mod 2 ^ 40) 7 l.

Definition tag (k n a m : list N) : list N := be_bytes 16 (fold_bytes (k ++ n ++ a ++ m) mod 2 ^ 128).

#[export] Instance primitives : Primitives := {|
  blake3_hash m := be_bytes 32 (fold_bytes m);
  blake3_keyed_hash k m := be_bytes 32 (fold_bytes (k ++ m));
  blake3_derive_key c m := be_bytes 32 (fold_bytes (bytes_of_string c ++ m));
  blake3_keyed_xof k l n := be_bytes n (fold_bytes (k ++ l));
  aead_encrypt k n a m := Some (m ++ tag k n a m);
  aead_decrypt k n a c :=
    let m := take (length c - 16) c in
    if decide (drop (length c - 16) c = tag k n a m) then Some m else None;
  verifying_key s := be_bytes 32 (fold_bytes s);
  ed25519_sign s d := be_bytes 32 (fold_bytes s) ++ d;
  verify_strict k d g := bool_decide (g = k ++ d);
|}.

#[export] Instance laws : PrimitiveLaws.
Proof.
  assert (Ht : forall k n a m, length (tag k n a m) = 16%nat).
  { intros. apply length_be_bytes. }
  split.
  - intros k n a m c [= <-]. simpl. rewrite length_app, Ht.
    replace (length m + 16 - 16)%nat with (length m) by lia.
    rewrite take_app_length, drop_app_length. by rewrite decide_True.
  - intros k n a m c [= <-]. by rewrite length_app, Ht.
  - intros s d. by apply bool_decide_eq_true.
  - intros m. apply length_be_bytes.
  - intros s. split; [apply length_be_bytes|]. apply Forall_rev, le_bytes_bound.
Qed.

End Toy.

(** ** The properties *)

(** The associated data determine the sealing context: with fields whose
    lengths fit their prefix, an object sealed for one purpose, owner or address
    never presents the bytes of another. *)
Theorem associated_data_injective (c c' : SealContext) :
  is_id (ctx_owner c) -> is_id (ctx_owner c') ->
  N.of_nat (String.length (purpose c)) < u32_max ->
  N.of_nat (String.length (purpose c')) < u32_max ->
  N.of_nat (length (address c)) < u32_max -> N.of_nat (length (address c')) < u32_max ->
  associated_data c = associated_data c' -> c = c'.
Proof.
  destruct c as [p o a], c' as [p' o' a']. simpl. intros Ho Ho' Hp Hp' Ha Ha' H.
  unfold associated_data in H. cbn [purpose ctx_owner address] in H.
  apply (app_inv_head [SEAL_VERSION]) in H.
  assert (Hlen : forall s, length (bytes_of_string s) = String.length s).
  { intros s. unfold bytes_of_string. rewrite length_fmap.
    induction s as [|c s IH]; simpl; [done|by rewrite IH]. }
  apply len_prefixed_inj in H as [H1 H]; [|by rewrite Hlen..].
  apply app_inj_length in H as [H2 H]; [|by autorewrite with its].
  assert (H3 : a = a').
  { apply app_inj_length in H as [_ H]; [done|].
    unfold len_prefix. by autorewrite with its. }
  f_equal; [by apply bytes_of_string_inj|by apply as_bytes_inj|done].
Qed.

Lemma associated_data_injective_witness :
  associated_data (mkContext "chunk" 5 [1; 2]) <> associated_data (mkContext "chunk" 6 [1; 2]).
Proof.
  intros H. apply associated_data_injective in H; [discriminate|..]; by vm_compute.
Defined.

(** A chunk sealed at the address its content gives opens to that content,
    and costs exactly [DETERMINISTIC_OVERHEAD] bytes; a body sealed under a fresh
    nonce opens as well. *)
Theorem seal_round_trips `{!Primitives, !PrimitiveLaws}
  (u : UserKeys) (p sealed : list N) (addr : ChunkId) (nonce : list N) (c : SealContext)
  (body : list N) :
  seal_chunk u p = Ok (addr, sealed) ->
  length nonce = NONCE_LEN ->
  seal_random nonce (oplog_root u) c p = Ok body ->
  open_chunk u addr sealed = Ok p /\ chunk_id u p = addr
  /\ length sealed = (length p + DETERMINISTIC_OVERHEAD)%nat
  /\ open_random (oplog_root u) c body = Ok p.
Proof.
  intros Hs Hn Hr. destruct (open_seal_chunk _ _ _ _ Hs) as [-> Ho]. split_and!; try done.
  - unfold seal_chunk in Hs. destruct (seal_deterministic _ _ _) eqn:Hd; [|done].
    injection Hs as <-. by eapply length_seal_deterministic.
  - by eapply open_seal_random.
Qed.

Import Toy.

Lemma seal_round_trips_witness :
  exists addr sealed body,
    seal_chunk (derive [1; 2; 3]) [104; 105] = Ok (addr, sealed)
    /\ open_chunk (derive [1; 2; 3]) addr sealed = Ok [104; 105]
    /\ open_random (oplog_root (derive [1; 2; 3])) (mkContext "oplog-segment" 9 [4]) body
       = Ok [104; 105].
Proof.
  destruct (seal_chunk (derive [1; 2; 3]) [104; 105]) as [[addr sealed]|] eqn:Hs; [|discriminate].
  destruct (seal_random (replicate 24 9) (oplog_root (derive [1; 2; 3]))
              (mkContext "oplog-segment" 9 [4]) [104; 105]) as [body|] eqn:Hr; [|discriminate].
  destruct (seal_round_trips _ _ _ _ (replicate 24 9) _ _ Hs eq_refl Hr) as (H1 & _ & _ & H2).
  exists addr, sealed, body. auto.
Defined.
