(* ===== verification/Nodeset.v ===== *)
(** * Nodeset: rendezvous placement over a swarm

    Models [crates/itsanas-placement/src/nodeset.rs] and [roster.rs].  A score is
    the 32 bytes of a [blake3] digest, compared as byte strings; the hash is the
    [Primitives] parameter.  Both placements sort by descending score and then
    descending device, which [rank_le] is.  Main results: a node set does not
    depend on the order it is built in, replica sets are distinct, owner-first
    and best-scored, and removing a node that is not a replica moves nothing. *)

From S2P Require Import Prelude Version Ids Uptime Network Crypto Target.

Definition PLACEMENT_DOMAIN : string := "itsanas v1 chunk placement".
Definition MAX_SLOTS : N := 64.

(** ** Ranking *)

Section ranking.
Context {A : Type} (dev : A -> N).

(** [right.0.cmp(&left.0).then_with(|| right.1.device.cmp(&left.1.device))]
    is not [Greater]. *)
Definition rank_le (l r : list N * A) : Prop :=
  Is_true (bytes_leb r.1 l.1) /\ (l.1 = r.1 -> dev r.2 <= dev l.2).

#[export] Instance rank_le_dec : RelDecision rank_le.
Proof. intros l r. unfold rank_le. apply _. Defined.

#[export] Instance rank_le_total : Total rank_le.
Proof.
  intros [a x] [b y]. unfold rank_le. cbn [fst snd]. rewrite !Is_true_true.
  destruct (decide (a = b)) as [->|Hne].
  - rewrite bytes_leb_refl. destruct (N.le_ge_cases (dev x) (dev y)); [right|left]; done.
  - destruct (bytes_leb_total b a); [left|right]; split; try done; intros; congruence.
Qed.

#[export] Instance rank_le_trans : Transitive rank_le.
Proof.
  intros [a x] [b y] [c z]. unfold rank_le. cbn [fst snd]. rewrite !Is_true_true.
  intros [H1 H2] [H3 H4]. split; [by apply (bytes_leb_trans c b a)|].
  intros ->. assert (b = c) as -> by by apply bytes_leb_antisym. etransitivity; auto.
Qed.

Lemma rank_le_antisym p q : rank_le p q -> rank_le q p -> p.1 = q.1 /\ dev p.2 = dev q.2.
Proof.
  destruct p as [a x], q as [b y]. unfold rank_le. cbn [fst snd]. rewrite !Is_true_true.
  intros [H1 H2] [H3 H4]. assert (a = b) as -> by by apply bytes_leb_antisym.
  split; [done|]. specialize (H2 eq_refl). specialize (H4 eq_refl). lia.
Qed.

Definition ranking (l : list (list N * A)) : list (list N * A) := merge_sort rank_le l.

Lemma ranking_perm l : ranking l ≡ₚ l.
Proof. apply merge_sort_Permutation. Qed.

Lemma ranking_sorted l : StronglySorted rank_le (ranking l).
Proof. apply Sorted_StronglySorted; [apply _|]. apply Sorted_merge_sort, _. Qed.

(** Devices told apart, there is one ranking. *)
Lemma ranking_unique l l' :
  NoDup ((fun p => dev p.2) <$> l) -> l' ≡ₚ l -> StronglySorted rank_le l' -> ranking l = l'.
Proof.
  intros Hnd Hp Hs. apply (StronglySorted_unique_strong rank_le); [|apply ranking_sorted|done|].
  - intros x y Hx Hy Hxy Hyx. destruct (rank_le_antisym x y Hxy Hyx) as [_ E].
    rewrite ranking_perm in Hx. rewrite Hp in Hy.
    by apply (NoDup_fmap_eq (fun p => dev p.2) l).
  - by rewrite ranking_perm, Hp.
Qed.

Lemma ranking_lookup l i j p q :
  (i < j)%nat -> ranking l !! i = Some p -> ranking l !! j = Some q -> rank_le p q.
Proof.
  intros Hij Hp Hq. pose proof (ranking_sorted l) as Hs. rewrite <- (take_drop j (ranking l)) in Hs.
  apply (StronglySorted_app_1_elem_of _ _ _ _ _ Hs).
  - apply (list_elem_of_lookup_2 _ i). by rewrite lookup_take_lt.
  - apply (list_elem_of_lookup_2 _ 0). rewrite lookup_drop. by rewrite Nat.add_0_r.
Qed.

Lemma StronglySorted_filter (P : list N * A -> Prop) `{!forall x, Decision (P x)} l :
  StronglySorted rank_le l -> StronglySorted rank_le (filter P l).
Proof.
  induction 1 as [|x l Hs IH Hall]; [constructor|]. rewrite filter_cons. case_decide; [|done].
  constructor; [done|]. rewrite Forall_forall in *. intros y [_ Hy]%list_elem_of_filter. auto.
Qed.

(** Leaving some out leaves the order of the others. *)
Lemma ranking_filter (P : list N * A -> Prop) `{!forall x, Decision (P x)} l :
  NoDup ((fun p => dev p.2) <$> l) -> ranking (filter P l) = filter P (ranking l).
Proof.
  intros Hnd. apply ranking_unique.
  - eapply sublist_NoDup; [exact Hnd|]. apply fmap_sublist, sublist_filter.
  - by rewrite ranking_perm.
  - apply StronglySorted_filter, ranking_sorted.
Qed.

End ranking.

(** ** nodeset.rs *)

Record StorageNode := mkNode {
  sn_device : N;
  sn_owner : N;
  capacity_bytes : N;
}.

Record NodeSet := mkNodeSet {
  nodes : list StorageNode;
  slots : list N;
}.

Inductive PlacementError :=
| DuplicateNode (short : string)
| ZeroCapacity (short : string).

Section score.
Context `{!Primitives}.

Definition score_input (device slot owner chunk : N) : list N :=
  as_bytes device ++ le_bytes 4 slot ++ as_bytes owner ++ as_bytes chunk.

Definition score (device slots owner chunk : N) : list N :=
  foldl (fun best slot =>
           let candidate := blake3_derive_key PLACEMENT_DOMAIN
                              (score_input device (N.of_nat slot) owner chunk) in
           if bytes_leb candidate best then best else candidate)
    (replicate 32 0) (seq 0 (N.to_nat slots)).
End score.

Definition node_le (a b : StorageNode) : Prop := sn_device a <= sn_device b.

#[export] Instance node_le_dec : RelDecision node_le.
Proof. intros a b. unfold node_le. apply _. Defined.
#[export] Instance node_le_total : Total node_le.
Proof. intros a b. unfold node_le. lia. Qed.
#[export] Instance node_le_trans : Transitive node_le.
Proof. intros a b c. unfold node_le. lia. Qed.

(** The first pair of [nodes.windows(2)] that names one device. *)
Fixpoint adjacent_dup (l : list StorageNode) : option N :=
  match l with
  | a :: (b :: _) as rest => if sn_device a =? sn_device b then Some (sn_device a) else adjacent_dup rest
  | _ => None
  end.

Definition smallest_pledge (l : list StorageNode) : N :=
  N.max 1 (match capacity_bytes <$> l with [] => 1 | c :: cs => foldl N.min c cs end).

Definition slot_count (smallest capacity : N) : N :=
  let ratio := capacity / smallest in
  clamp (if ratio <=? u32_max then ratio else MAX_SLOTS) 1 MAX_SLOTS.

Definition NodeSet_new (l : list StorageNode) : result PlacementError NodeSet :=
  let nodes := merge_sort node_le l in
  match adjacent_dup nodes with
  | Some d => Err (DuplicateNode (short d))
  | None =>
      match List.find (fun n => capacity_bytes n =? 0) nodes with
      | Some n => Err (ZeroCapacity (short (sn_device n)))
      | None =>
          let smallest := smallest_pledge nodes in
          Ok (mkNodeSet nodes ((fun n => slot_count smallest (capacity_bytes n)) <$> nodes))
      end
  end.

Definition slots_for (s : NodeSet) (device : N) : N :=
  match list_find (fun n => sn_device n = device) (nodes s) with
  | Some (i, _) => nth i (slots s) 0
  | None => 0
  end.

Section replicas.
Context `{!Primitives}.

Definition own_devices (s : NodeSet) (owner : N) : list N :=
  sn_device <$> filter (fun n => sn_owner n = owner) (nodes s).

(** Everyone else, scored. *)
Definition scored (s : NodeSet) (owner chunk : N) : list (list N * N) :=
  (fun p : StorageNode * N => (score (sn_device p.1) p.2 owner chunk, sn_device p.1))
    <$> filter (fun p => sn_owner p.1 <> owner) (zip (nodes s) (slots s)).

Definition replicas_for (s : NodeSet) (owner chunk : N) (count : nat) : list N :=
  if (count =? 0)%nat || bool_decide (nodes s = []) then []
  else
    let chosen := take count (own_devices s owner) in
    if (count <=? length chosen)%nat then chosen
    else chosen ++ take (count - length chosen) (snd <$> ranking id (scored s owner chunk)).

Definition holds (s : NodeSet) (device owner chunk : N) (count : nat) : bool :=
  bool_decide (device ∈ replicas_for s owner chunk count).

End replicas.

(** ** Building a set *)

Fixpoint adjacent_eq (l : list N) : option N :=
  match l with
  | a :: (b :: _) as rest => if a =? b then Some a else adjacent_eq rest
  | _ => None
  end.

Lemma adjacent_dup_devices l : adjacent_dup l = adjacent_eq (sn_device <$> l).
Proof.
  induction l as [|a [|b l] IH]; [done|done|]. cbn [adjacent_dup fmap list_fmap adjacent_eq].
  by destruct (_ =? _).
Qed.

Lemma adjacent_eq_NoDup l : StronglySorted N.le l -> adjacent_eq l = None -> NoDup l.
Proof.
  induction 1 as [|a l Hs IH Hall]; intros E; [constructor|]. destruct l as [|b l].
  { apply NoDup_singleton. }
  cbn [adjacent_eq] in E. destruct (N.eqb_spec a b) as [|Hne]; [done|].
  apply NoDup_cons. split; [|by apply IH].
  inversion Hs as [|? ? _ Hb]; subst. rewrite Forall_forall in Hall, Hb.
  intros [->|Hin]%elem_of_cons; [done|]. pose proof (Hb a Hin). pose proof (Hall b ltac:(left)). lia.
Qed.

Lemma node_sort_devices l : StronglySorted N.le (sn_device <$> merge_sort node_le l).
Proof.
  assert (Hs : StronglySorted node_le (merge_sort node_le l)).
  { apply Sorted_StronglySorted; [apply _|]. apply Sorted_merge_sort, _. }
  induction Hs as [|a m Hs IH Hall]; cbn; constructor; [done|].
  apply Forall_fmap. eapply Forall_impl; [exact Hall|]. done.
Qed.

Lemma node_sort_unique l l' :
  NoDup (sn_device <$> merge_sort node_le l) -> l ≡ₚ l' -> merge_sort node_le l = merge_sort node_le l'.
Proof.
  intros Hnd Hp. apply (StronglySorted_unique_strong node_le).
  - intros x y Hx Hy Hxy Hyx. rewrite merge_sort_Permutation, <- Hp, <- (merge_sort_Permutation node_le l) in Hy.
    apply (NoDup_fmap_eq sn_device _ x y Hnd); [done..|]. unfold node_le in *. lia.
  - apply Sorted_StronglySorted; [apply _|]. apply Sorted_merge_sort, _.
  - apply Sorted_StronglySorted; [apply _|]. apply Sorted_merge_sort, _.
  - by rewrite !merge_sort_Permutation.
Qed.

(** The same members in any order make the same set, or the same refusal. *)
Theorem node_set_order_independent (l l' : list StorageNode) :
  l ≡ₚ l' -> NodeSet_new l = NodeSet_new l'.
Proof.
  intros Hp. unfold NodeSet_new.
  assert (Ed : sn_device <$> merge_sort node_le l = sn_device <$> merge_sort node_le l').
  { apply (StronglySorted_unique N.le); [apply node_sort_devices..|].
    by rewrite !merge_sort_Permutation, Hp. }
  destruct (adjacent_dup (merge_sort node_le l)) as [d|] eqn:E.
  - rewrite adjacent_dup_devices, Ed, <- adjacent_dup_devices in E. by rewrite E.
  - rewrite <- (node_sort_unique l l'); [by rewrite E| |done].
    apply adjacent_eq_NoDup; [apply node_sort_devices|]. by rewrite <- adjacent_dup_devices.
Qed.

Lemma node_set_order_independent_witness :
  NodeSet_new [mkNode 2 9 10; mkNode 1 8 30] = NodeSet_new [mkNode 1 8 30; mkNode 2 9 10].
Proof. apply (node_set_order_independent _ _ (Permutation_swap _ _ [])). Defined.

Lemma slot_count_range smallest capacity : 1 <= slot_count smallest capacity <= MAX_SLOTS.
Proof. unfold slot_count, clamp, MAX_SLOTS. destruct (_ <=? _); lia. Qed.

(** What every accepted set satisfies. *)
Record node_set_wf (s : NodeSet) : Prop := {
  ns_devices : NoDup (sn_device <$> nodes s);
  ns_slots : slots s = (fun n => slot_count (smallest_pledge (nodes s)) (capacity_bytes n)) <$> nodes s;
  ns_pledged : forall n, n ∈ nodes s -> 0 < capacity_bytes n;
}.

Lemma NodeSet_new_wf l s :
  NodeSet_new l = Ok s -> node_set_wf s /\ nodes s ≡ₚ l /\ nodes s = merge_sort node_le l.
Proof.
  unfold NodeSet_new. destruct (adjacent_dup _) eqn:Ed; [done|].
  destruct (List.find _ _) eqn:Ef; [done|]. intros [= <-]. cbn [nodes].
  split; [split; cbn [nodes slots]|split; [apply merge_sort_Permutation|done]].
  - apply adjacent_eq_NoDup; [apply node_sort_devices|]. by rewrite <- adjacent_dup_devices.
  - done.
  - intros n Hn%list_elem_of_In. pose proof (find_none _ _ Ef n Hn) as E. cbn beta in E. nbool. lia.
Qed.

(** ** Replica sets *)

Section preference.
Context `{!Primitives}.

(** Every node, the owner's own first, then by rank. *)
Definition preference (s : NodeSet) (owner chunk : N) : list N :=
  own_devices s owner ++ (snd <$> ranking id (scored s owner chunk)).

Lemma replicas_preference s owner chunk count :
  replicas_for s owner chunk count = take count (preference s owner chunk).
Proof.
  unfold replicas_for, preference. destruct (Nat.eqb_spec count 0) as [->|H0]; [by rewrite take_0|].
  cbn [orb]. case_bool_decide as He.
  { unfold own_devices, scored. rewrite He. cbn. by rewrite take_nil. }
  destruct (Nat.leb_spec count (length (take count (own_devices s owner)))) as [Hle|Hgt].
  - rewrite length_take in Hle. by rewrite take_app_le by lia.
  - rewrite length_take in *. rewrite (take_ge (own_devices s owner)) by lia.
    rewrite take_app_ge by lia. by rewrite Nat.min_r by lia.
Qed.

Lemma scored_devices s owner chunk :
  length (slots s) = length (nodes s) ->
  snd <$> scored s owner chunk = sn_device <$> filter (fun n => sn_owner n <> owner) (nodes s).
Proof.
  intros Hl. unfold scored. rewrite <- list_fmap_compose.
  revert Hl. generalize (slots s). induction (nodes s) as [|n l IH]; intros ks Hl;
    destruct ks as [|k ks]; simplify_eq/=; [done|].
  cbn [zip zip_with]. rewrite !filter_cons. cbn [fst]. case_decide; cbn; by rewrite IH.
Qed.

Lemma preference_perm s owner chunk :
  length (slots s) = length (nodes s) -> preference s owner chunk ≡ₚ sn_device <$> nodes s.
Proof.
  intros Hl. unfold preference, own_devices. rewrite ranking_perm, scored_devices by done.
  rewrite <- fmap_app. by rewrite filter_app_complement.
Qed.

End preference.

Section replica_theorems.
Context `{!Primitives}.

Lemma wf_slots_length s : node_set_wf s -> length (slots s) = length (nodes s).
Proof. intros [_ E _]. by rewrite E, length_fmap. Qed.

Lemma preference_NoDup s owner chunk : node_set_wf s -> NoDup (preference s owner chunk).
Proof.
  intros Hs. rewrite preference_perm by by apply wf_slots_length. apply (ns_devices _ Hs).
Qed.

(** A replica set names distinct nodes of the swarm, as many as were asked for
    or all there are; the owner's own devices come first; and a foreign node
    that was left out ranks behind every foreign node that was chosen. *)
Theorem replicas_are_the_best (l : list StorageNode) (s : NodeSet) (owner chunk : N) (count : nat) :
  NodeSet_new l = Ok s ->
  let r := replicas_for s owner chunk count in
  let own := own_devices s owner in
  NoDup r /\ length r = (count `min` length l)%nat /\ r ⊆ (sn_device <$> l)
  /\ take (length own) r = take count own
  /\ (forall p q, p ∈ scored s owner chunk -> q ∈ scored s owner chunk ->
        p.2 ∈ r -> q.2 ∉ r -> rank_le id p q).
Proof.
  intros Hs. destruct (NodeSet_new_wf l s Hs) as (Hwf & Hp & _). cbn zeta.
  pose proof (wf_slots_length s Hwf) as Hl.
  pose proof (preference_NoDup s owner chunk Hwf) as Hnd.
  pose proof (preference_perm s owner chunk Hl) as Hperm.
  rewrite replicas_preference. split_and!.
  - eapply sublist_NoDup; [exact Hnd|apply sublist_take].
  - rewrite length_take, Hperm, length_fmap, Hp. lia.
  - intros x Hx. apply (sublist_subseteq _ _ (sublist_take _ _)) in Hx. by rewrite Hperm, Hp in Hx.
  - unfold preference. rewrite take_take, Nat.min_comm.
    destruct (Nat.le_gt_cases count (length (own_devices s owner))).
    + rewrite Nat.min_l by done. by rewrite take_app_le.
    + rewrite Nat.min_r, take_app_length by lia. by rewrite take_ge by lia.
  - intros p q Hpin Hq Hr Hout.
    rewrite <- (ranking_perm id) in Hpin, Hq.
    apply list_elem_of_lookup_1 in Hpin as [i Hi]. apply list_elem_of_lookup_1 in Hq as [j Hj].
    assert (Hpos : forall k x, ranking id (scored s owner chunk) !! k = Some x ->
      preference s owner chunk !! (length (own_devices s owner) + k)%nat = Some x.2).
    { intros k x Hk. unfold preference. rewrite lookup_app_r by lia.
      replace (length (own_devices s owner) + k - length (own_devices s owner))%nat with k by lia.
      by rewrite list_lookup_fmap, Hk. }
    assert (i < j \/ i = j \/ j < i)%nat as [Hij|[->|Hji]] by lia.
    + by eapply ranking_lookup.
    + assert (p = q) as -> by congruence. split; [apply Is_true_true, bytes_leb_refl|done].
    + exfalso. apply Hout. apply list_elem_of_lookup_1 in Hr as [k Hk].
      apply lookup_take_Some in Hk as [Hk Hlt].
      assert (k = (length (own_devices s owner) + i)%nat) as ->
        by (eapply NoDup_lookup; [exact Hnd|exact Hk|by apply Hpos]).
      apply (list_elem_of_lookup_2 _ (length (own_devices s owner) + j)).
      apply lookup_take_Some. split; [by apply Hpos|lia].
Qed.

End replica_theorems.

(** ** A node that leaves *)

Section leaving.
Context `{!Primitives} (d : N).

Definition staying (l : list StorageNode) : list StorageNode := filter (fun n => sn_device n <> d) l.

Lemma staying_nodes l s s' :
  NodeSet_new l = Ok s -> NodeSet_new (staying l) = Ok s' -> nodes s' = staying (nodes s).
Proof.
  intros Hs Hs'. destruct (NodeSet_new_wf _ _ Hs) as (Hwf & _ & E).
  destruct (NodeSet_new_wf _ _ Hs') as (Hwf' & _ & E'). rewrite E'.
  apply (StronglySorted_unique_strong node_le).
  - intros x y Hx Hy Hxy Hyx. unfold staying in *. rewrite merge_sort_Permutation, list_elem_of_filter in Hx.
    rewrite list_elem_of_filter in Hy. apply (NoDup_fmap_eq sn_device (nodes s)).
    + apply (ns_devices _ Hwf).
    + rewrite E, merge_sort_Permutation. tauto.
    + tauto.
    + unfold node_le in *. lia.
  - apply Sorted_StronglySorted; [apply _|]. apply Sorted_merge_sort, _.
  - rewrite E. assert (StronglySorted node_le (merge_sort node_le l)) as Hss
      by (apply Sorted_StronglySorted; [apply _|]; apply Sorted_merge_sort, _).
    revert Hss. generalize (merge_sort node_le l). intros k Hss.
    unfold staying. induction Hss as [|x m Hm IH Hall]; [constructor|]. rewrite filter_cons.
    case_decide; [|done]. constructor; [done|]. rewrite Forall_forall in *.
    intros y [_ Hy]%list_elem_of_filter. auto.
  - rewrite E. unfold staying. by rewrite !merge_sort_Permutation.
Qed.

Lemma fmap_filter_comm {A B} (f : A -> B) (P : B -> Prop) `{!forall x, Decision (P x)} (l : list A) :
  filter P (f <$> l) = f <$> filter (fun x => P (f x)) l.
Proof.
  induction l as [|x l IH]; [done|]. rewrite fmap_cons, !filter_cons.
  case_decide; rewrite ?fmap_cons; by rewrite IH.
Qed.

Lemma filter_comm {A} (P Q : A -> Prop) `{!forall x, Decision (P x), !forall x, Decision (Q x)} (l : list A) :
  filter P (filter Q l) = filter Q (filter P l).
Proof. rewrite !list_filter_filter. apply list_filter_local. tauto. Qed.

Lemma scored_staying s s' owner chunk :
  node_set_wf s -> node_set_wf s' -> nodes s' = staying (nodes s) ->
  smallest_pledge (nodes s') = smallest_pledge (nodes s) ->
  scored s' owner chunk = filter (fun p => p.2 <> d) (scored s owner chunk).
Proof.
  intros [_ E _] [_ E' _] En Em. unfold scored. rewrite E, E', Em, En.
  set (f := fun n => slot_count (smallest_pledge (nodes s)) (capacity_bytes n)). generalize (nodes s).
  intros l. rewrite fmap_filter_comm. cbn [snd]. unfold staying. f_equal. rewrite filter_comm. f_equal.
  induction l as [|n l IH]; [done|]. cbn [fmap list_fmap zip zip_with]. rewrite !filter_cons. cbn [fst].
  case_decide; cbn [fmap list_fmap zip zip_with]; by rewrite IH.
Qed.

Lemma preference_staying s s' owner chunk :
  node_set_wf s -> node_set_wf s' -> nodes s' = staying (nodes s) ->
  smallest_pledge (nodes s') = smallest_pledge (nodes s) ->
  preference s' owner chunk = filter (fun x => x <> d) (preference s owner chunk).
Proof.
  intros Hs Hs' En Em. unfold preference. rewrite filter_app. f_equal.
  - unfold own_devices. rewrite En, fmap_filter_comm. unfold staying. by rewrite filter_comm.
  - rewrite (scored_staying s s') by done. rewrite ranking_filter, fmap_filter_comm; [done|].
    change (fun p : list N * N => id p.2) with (@snd (list N) N).
    rewrite scored_devices by by apply wf_slots_length.
    eapply sublist_NoDup; [apply (ns_devices _ Hs)|]. apply fmap_sublist, sublist_filter.
Qed.

Lemma filter_absent (l : list N) : d ∉ l -> filter (fun x => x <> d) l = l.
Proof.
  induction l as [|x l IH]; intros Hd; [done|]. rewrite filter_cons, decide_True by set_solver.
  f_equal. apply IH. set_solver.
Qed.

Lemma filter_take_prefix (P : N -> Prop) `{!forall x, Decision (P x)} k l :
  filter P (take k l) `prefix_of` take k (filter P l).
Proof.
  revert k. induction l as [|x l IH]; intros [|k]; cbn [take]; [done|by rewrite filter_nil|apply prefix_nil|].
  rewrite !filter_cons. case_decide; cbn [take]; [by apply prefix_cons|].
  etransitivity; [apply IH|]. destruct (filter P l) as [|y m]; [by rewrite take_nil|].
  exists (take 1 (drop k (y :: m))). rewrite take_take_drop. by rewrite Nat.add_1_r.
Qed.

(** When a node leaves, only what it held moves: the other replicas of a chunk
    keep their places, provided the smallest pledge, which every weight is
    relative to, is still in the swarm. *)
Theorem leaving_moves_only_its_own (l : list StorageNode) (s s' : NodeSet)
    (owner chunk : N) (count : nat) :
  NodeSet_new l = Ok s -> NodeSet_new (staying l) = Ok s' ->
  smallest_pledge (nodes s') = smallest_pledge (nodes s) ->
  filter (fun x => x <> d) (replicas_for s owner chunk count) `prefix_of` replicas_for s' owner chunk count
  /\ (d ∉ replicas_for s owner chunk count -> (count < length l)%nat ->
      replicas_for s' owner chunk count = replicas_for s owner chunk count).
Proof.
  intros Hs Hs' Em. destruct (NodeSet_new_wf _ _ Hs) as (Hwf & Hp & _).
  destruct (NodeSet_new_wf _ _ Hs') as (Hwf' & _).
  pose proof (preference_staying s s' owner chunk Hwf Hwf' (staying_nodes _ _ _ Hs Hs') Em) as Epref.
  rewrite !replicas_preference, Epref. split; [apply filter_take_prefix|]. intros Hd Hc.
  pose proof (filter_take_prefix (fun x => x <> d) count (preference s owner chunk)) as [k Hk].
  assert (Hid : filter (fun x => x <> d) (take count (preference s owner chunk))
                = take count (preference s owner chunk)).
  { by apply filter_absent. }
  rewrite Hid in Hk. rewrite Hk. apply (f_equal length) in Hk.
  rewrite length_app, !length_take in Hk.
  assert (length (preference s owner chunk) = length l).
  { rewrite preference_perm by by apply wf_slots_length. by rewrite length_fmap, Hp. }
  destruct k; [by rewrite app_nil_r|]. cbn [length] in Hk. lia.
Qed.
End leaving.

(** ** roster.rs *)

Definition CLASSES : N := 4.

Record Host := mkHost {
  host_device : N;
  host_account : Account;
  host_uptime : option Uptime;
  eligible : bool;
  host_proven : bool;
  host_recent : bool;
  host_network : option Network;
}.

Record Roster := mkRoster { hosts : list Host; host_slots : list N }.

(** [a.div_ceil(b)] *)
Definition div_ceil (a b : N) : N := (a + b - 1) / b.

Definition class_of (per_mille : N) : N := clamp (div_ceil (per_mille * CLASSES) 1000) 1 CLASSES.

Definition host_slots_for (host : Host) (now_hour : N) : N :=
  if host_proven host then
    match host_uptime host with
    | None => 1
    | Some uptime =>
        match availability now_hour (lost_after_hours (Some uptime)) uptime with
        | Some per_mille => class_of per_mille
        | None => 1
        end
    end
  else 1.

(** [hosts.sort_by_key(|host| host.device)], a stable sort. *)
Definition sort_hosts (l : list Host) : list Host :=
  sort_by (fun h k => host_device h <=? host_device k) l.

(** [hosts.dedup_by(|later, earlier| later.device == earlier.device)] *)
Fixpoint dedup_hosts (kept : option N) (l : list Host) : list Host :=
  match l with
  | [] => []
  | h :: l' =>
      if bool_decide (kept = Some (host_device h)) then dedup_hosts kept l'
      else h :: dedup_hosts (Some (host_device h)) l'
  end.

Definition Roster_new (l : list Host) (now_hour : N) : Roster :=
  let hosts := dedup_hosts None (sort_hosts l) in
  mkRoster hosts ((fun h => host_slots_for h now_hour) <$> hosts).

(** [binary_search_by] on hosts sorted by device, each device once. *)
Definition roster_find (r : Roster) (device : N) : option (nat * Host) :=
  list_find (fun h => host_device h = device) (hosts r).
Definition roster_get (r : Roster) (device : N) : option Host := snd <$> roster_find r device.
Definition roster_slots (r : Roster) (device : N) : N :=
  match roster_find r device with Some (i, _) => nth i (host_slots r) 0 | None => 0 end.

Section roster.
Context `{!Primitives}.

Definition roster_sorted (r : Roster) (owner chunk : N) (eligible_only : bool) : list Host :=
  snd <$> ranking host_device
    ((fun p : Host * N => (score (host_device p.1) p.2 owner chunk, p.1))
       <$> filter (fun p => negb eligible_only || eligible p.1 = true) (zip (hosts r) (host_slots r))).

Definition ranked (r : Roster) (owner chunk : N) : list Host := roster_sorted r owner chunk true.
Definition order (r : Roster) (owner chunk : N) : list Host := roster_sorted r owner chunk false.

End roster.

Lemma class_range p : 1 <= class_of p <= CLASSES.
Proof. unfold class_of, clamp, CLASSES. lia. Qed.

Lemma sort_hosts_perm l : sort_hosts l ≡ₚ l.
Proof. apply sort_by_perm. Qed.

Definition host_le (a b : Host) : Prop := host_device a <= host_device b.

Lemma sort_hosts_sorted l : StronglySorted host_le (sort_hosts l).
Proof.
  eapply StronglySorted_weaken; [|apply sort_by_sorted].
  - intros a b H. apply N.leb_le. by apply Is_true_true.
  - intros a b. rewrite !N.leb_le. lia.
  - intros a b c. rewrite !N.leb_le. lia.
Qed.

(** Looking a device up, in the list and in what stays after sorting. *)
Definition first_of (d : N) (l : list Host) : option Host :=
  List.find (fun h => host_device h =? d) l.

Lemma first_of_cons d h l :
  first_of d (h :: l) = if host_device h =? d then Some h else first_of d l.
Proof. done. Qed.

Lemma first_of_insert d h m :
  StronglySorted host_le m ->
  first_of d (insert_by (fun h k => host_device h <=? host_device k) h m) = if host_device h =? d then Some h else first_of d m.
Proof.
  induction 1 as [|k m Hs IH Hall]; cbn [insert_by]; [by rewrite first_of_cons|].
  destruct (N.leb_spec (host_device h) (host_device k)) as [Hle|Hgt]; rewrite !first_of_cons; [done|].
  rewrite IH. destruct (N.eqb_spec (host_device k) d), (N.eqb_spec (host_device h) d); done || lia.
Qed.

Lemma first_of_sort d l : first_of d (sort_hosts l) = first_of d l.
Proof.
  induction l as [|h l IH]; [done|]. cbn [sort_hosts sort_by foldr]. change (foldr _ [] l) with (sort_hosts l).
  rewrite first_of_insert by apply sort_hosts_sorted. by rewrite IH.
Qed.

Lemma first_of_dedup d kept l :
  kept <> Some d -> first_of d (dedup_hosts kept l) = first_of d l.
Proof.
  revert kept. induction l as [|h l IH]; intros kept Hk; [done|]. cbn [dedup_hosts].
  case_bool_decide as E; rewrite !first_of_cons.
  - rewrite IH by done. destruct (N.eqb_spec (host_device h) d); [congruence|done].
  - destruct (N.eqb_spec (host_device h) d) as [_|Hne]; [done|]. apply IH. congruence.
Qed.

Lemma dedup_elem kept l h : h ∈ dedup_hosts kept l -> h ∈ l.
Proof.
  revert kept. induction l as [|k l IH]; intros kept; cbn [dedup_hosts]; [done|].
  case_bool_decide; [right; by eapply IH|]. intros [->|H']%elem_of_cons; [left|right; by eapply IH].
Qed.

Lemma dedup_NoDup kept l :
  StronglySorted host_le l -> (forall k h, kept = Some k -> h ∈ l -> k <= host_device h) ->
  NoDup (host_device <$> dedup_hosts kept l)
  /\ (forall k h, kept = Some k -> h ∈ dedup_hosts kept l -> k < host_device h).
Proof.
  intros Hs. revert kept. induction Hs as [|h l Hs IH Hall]; intros kept Hk; cbn [dedup_hosts].
  { split; [constructor|]. intros k h _ Hh. by apply not_elem_of_nil in Hh. }
  rewrite Forall_forall in Hall. case_bool_decide as E.
  - apply IH. intros k x Ek Hx. apply (Hk k x); [done|by right].
  - destruct (IH (Some (host_device h))) as [Hnd Hlt].
    { intros k x [= <-] Hx. by apply Hall. }
    split.
    + rewrite fmap_cons. apply NoDup_cons. split; [|done].
      intros (x & Ex & Hx)%list_elem_of_fmap. specialize (Hlt _ x eq_refl Hx). lia.
    + intros k x Ek [->|Hx]%elem_of_cons.
      * specialize (Hk k h Ek ltac:(left)). assert (k <> host_device h) by congruence. lia.
      * specialize (Hlt _ x eq_refl Hx). specialize (Hk k h Ek ltac:(left)). lia.
Qed.

Section roster_theorems.
Context `{!Primitives}.

Lemma roster_hosts_NoDup l now : NoDup (host_device <$> hosts (Roster_new l now)).
Proof. apply dedup_NoDup; [apply sort_hosts_sorted|done]. Qed.

Lemma zip_fst_filter {B} (P : Host -> Prop) `{!forall x, Decision (P x)} (l : list Host) (f : Host -> B) :
  fst <$> filter (fun p => P p.1) (zip l (f <$> l)) = filter P l.
Proof.
  induction l as [|h l IH]; [done|]. cbn [fmap list_fmap zip zip_with]. rewrite !filter_cons. cbn [fst].
  case_decide; cbn [fmap list_fmap fst]; by rewrite IH.
Qed.

Lemma roster_sorted_perm l now owner chunk e :
  roster_sorted (Roster_new l now) owner chunk e
  ≡ₚ filter (fun h => negb e || eligible h = true) (hosts (Roster_new l now)).
Proof.
  unfold roster_sorted. rewrite ranking_perm, <- list_fmap_compose. cbn [Roster_new hosts host_slots].
  rewrite <- (zip_fst_filter (fun h => negb e || eligible h = true) _ (fun h => host_slots_for h now)).
  done.
Qed.

(** A roster keeps the first entry of each device, gives every host one to four
    slots and more than one only to a host that is proven and measured, and
    ranks each host at most once: the eligible ones for placing, all of them
    for releasing. *)
Theorem roster_is_faithful (l : list Host) (now_hour owner chunk : N) :
  let r := Roster_new l now_hour in
  (forall d, first_of d (hosts r) = first_of d l)
  /\ NoDup (host_device <$> hosts r)
  /\ (forall h, 1 <= host_slots_for h now_hour <= CLASSES
        /\ (1 < host_slots_for h now_hour -> host_proven h = true /\ is_Some (host_uptime h)))
  /\ (forall e, NoDup (host_device <$> roster_sorted r owner chunk e))
  /\ (forall h, h ∈ order r owner chunk <-> h ∈ hosts r)
  /\ (forall h, h ∈ ranked r owner chunk <-> h ∈ hosts r /\ eligible h = true).
Proof.
  cbn zeta. split_and!.
  - intros d. cbn [Roster_new hosts]. by rewrite first_of_dedup, first_of_sort.
  - apply roster_hosts_NoDup.
  - intros h. unfold host_slots_for. destruct (host_proven h); [|unfold CLASSES; lia].
    destruct (host_uptime h) as [u|]; [|unfold CLASSES; lia].
    destruct (availability _ _ _) as [p|]; [|unfold CLASSES; lia].
    split; [apply class_range|]. done.
  - intros e. rewrite roster_sorted_perm. eapply sublist_NoDup; [apply roster_hosts_NoDup|].
    apply fmap_sublist, sublist_filter.
  - intros h. unfold order. rewrite roster_sorted_perm, list_elem_of_filter. cbn. tauto.
  - intros h. unfold ranked. rewrite roster_sorted_perm, list_elem_of_filter. cbn. tauto.
Qed.

End roster_theorems.

(** *** Witnesses: a swarm of three strangers and one own device. *)

Definition small_swarm : list StorageNode :=
  [mkNode 4 9 100; mkNode 1 7 100; mkNode 3 8 300; mkNode 2 6 200].

Import Toy.

Lemma replicas_are_the_best_witness :
  exists s, NodeSet_new small_swarm = Ok s
    /\ take 1 (replicas_for s 7 5 3) = [1] /\ length (replicas_for s 7 5 3) = 3%nat.
Proof.
  destruct (NodeSet_new small_swarm) as [s|] eqn:Hs; [|discriminate]. exists s. split; [done|].
  destruct (replicas_are_the_best small_swarm s 7 5 3 Hs) as (_ & Hl & _ & Hown & _).
  vm_compute in Hs. injection Hs as <-. split; [exact Hown|exact Hl].
Defined.

Lemma leaving_moves_only_its_own_witness :
  exists s s', NodeSet_new small_swarm = Ok s /\ NodeSet_new (staying 4 small_swarm) = Ok s'
    /\ filter (fun x => x <> 4) (replicas_for s 7 5 3) `prefix_of` replicas_for s' 7 5 3.
Proof.
  destruct (NodeSet_new small_swarm) as [s|] eqn:Hs; [|discriminate].
  destruct (NodeSet_new (staying 4 small_swarm)) as [s'|] eqn:Hs'; [|discriminate].
  exists s, s'. split; [done|]. split; [done|].
  apply (leaving_moves_only_its_own 4 small_swarm s s' 7 5 3 Hs Hs').
  vm_compute in Hs, Hs'. injection Hs as <-. injection Hs' as <-. reflexivity.
Defined.
