(* ===== verification/Oplog.v ===== *)
(** * Oplog: log entries, signed segments and their chain

    Models [crates/itsanas-store/src/oplog.rs].  The serde/postcard encoding of
    a segment body is third-party and is the class [BodyCodec].  The theorems
    show that the signed payload determines every signed field, that
    [validate_chain] accepts exactly the gap-free chains of authentic
    envelopes (so a segment cannot be dropped from the middle), and that what
    [create] seals [open] gives back while an envelope that lies about its body
    is refused. *)

From S2P Require Import Prelude Version Ids Path Crypto.

Record FileEntry := mkFile {
  fe_size : N;
  modified_unix : N;
  content_hash : N;
  fe_chunks : list ChunkId;
  fe_version : VersionVector;
  fe_author : DeviceId;
}.

Definition authorship (e : FileEntry) : DeviceId * N :=
  (fe_author e, VV.get (fe_version e) (fe_author e)).

Record Tombstone := mkTomb {
  tb_version : VersionVector;
  removed_unix : N;
  tb_author : DeviceId;
}.

Inductive Operation :=
| Upsert (path : string) (entry : FileEntry)
| Remove (path : string) (version : VersionVector).

Definition op_version (o : Operation) : VersionVector :=
  match o with Upsert _ e => fe_version e | Remove _ v => v end.

Definition op_path (o : Operation) : string :=
  match o with Upsert p _ => p | Remove p _ => p end.

Record LogEntry := mkLog {
  le_sequence : N;
  recorded_unix : N;
  operation : Operation;
}.

Record SegmentBody := mkBody { entries : list LogEntry }.

Record SegmentEnvelope := mkEnvelope {
  segment_id : ObjectId;
  owner : UserId;
  device : DeviceId;
  first_sequence : N;
  last_sequence : N;
  previous : option ObjectId;
  sealed_body : list N;
  signature : list N;
}.

#[export] Instance FileEntry_eq_dec : EqDecision FileEntry.
Proof. solve_decision. Defined.
#[export] Instance Tombstone_eq_dec : EqDecision Tombstone.
Proof. solve_decision. Defined.
#[export] Instance Operation_eq_dec : EqDecision Operation.
Proof. solve_decision. Defined.
#[export] Instance LogEntry_eq_dec : EqDecision LogEntry.
Proof. solve_decision. Defined.
#[export] Instance SegmentEnvelope_eq_dec : EqDecision SegmentEnvelope.
Proof. solve_decision. Defined.

Class BodyCodec := {
  encode_body : SegmentBody -> list N;
  decode_body : list N -> option SegmentBody;
}.

Class BodyCodecLaws `{!BodyCodec} := {
  decode_encode_body b : decode_body (encode_body b) = Some b;
}.

Definition SEGMENT_SIGNING_DOMAIN : string := "itsanas v1 oplog segment envelope".
Definition SEGMENT_SEAL_PURPOSE : string := "oplog-segment".

Definition previous_bytes (p : option ObjectId) : list N :=
  match p with Some id => 1 :: as_bytes id | None => [0] end.

Definition signing_payload (segment_id : ObjectId) (owner : UserId) (device : DeviceId)
  (first_sequence last_sequence : N) (previous : option ObjectId) (sealed_body : list N)
  : list N :=
  as_bytes segment_id ++ as_bytes owner ++ as_bytes device
  ++ le_bytes 8 first_sequence ++ le_bytes 8 last_sequence
  ++ previous_bytes previous ++ len_prefix sealed_body ++ sealed_body.

Definition envelope_payload (e : SegmentEnvelope) : list N :=
  signing_payload (segment_id e) (owner e) (device e) (first_sequence e) (last_sequence e)
    (previous e) (sealed_body e).

Section oplog.
Context `{!Primitives, !BodyCodec}.

Definition segment_context (o : UserId) (id : ObjectId) : SealContext :=
  mkContext SEGMENT_SEAL_PURPOSE o (as_bytes id).

(** Seal, sign and wrap; the drawn segment id and nonce are arguments. *)
Definition create (random_id : ObjectId) (nonce : list N) (root : list N) (o : UserId)
  (dev : DeviceKeys) (prev : option ObjectId) (es : list LogEntry)
  : result StoreError SegmentEnvelope :=
  match head es, last es with
  | Some f, Some l =>
      let first_seq := le_sequence f in
      let last_seq := le_sequence l in
      if last_seq <? first_seq
      then Err (Corrupt "segment entries are not in ascending sequence order")
      else
        match seal_random nonce root (segment_context o random_id)
                (encode_body (mkBody es)) with
        | Err e => Err (Crypto e)
        | Ok sealed =>
            let d := device_id dev in
            let payload := signing_payload random_id o d first_seq last_seq prev sealed in
            Ok (mkEnvelope random_id o d first_seq last_seq prev sealed
                  (device_sign dev SEGMENT_SIGNING_DOMAIN payload))
        end
  | _, _ => Err (Corrupt "refusing to create an empty log segment")
  end.

Definition verify_signature (e : SegmentEnvelope) : result StoreError unit :=
  match verify (as_bytes (device e)) SEGMENT_SIGNING_DOMAIN (envelope_payload e)
          (signature e) with
  | Ok _ => Ok tt
  | Err _ => Err (SegmentSignature (segment_id e))
  end.

Definition open_envelope (root : list N) (e : SegmentEnvelope) : result StoreError SegmentBody :=
  _ <-? verify_signature e;
  match open_random root (segment_context (owner e) (segment_id e)) (sealed_body e) with
  | Err x => Err (Crypto x)
  | Ok plaintext =>
      match decode_body plaintext with
      | None => Err Encoding
      | Some body =>
          if decide (le_sequence <$> head (entries body) = Some (first_sequence e)
                     /\ le_sequence <$> last (entries body) = Some (last_sequence e))
          then Ok body
          else Err (Corrupt "segment envelope claims sequences its body does not hold")
      end
  end.

Fixpoint validate_chain_from (expected_previous : option ObjectId)
  (expected_sequence : option N) (chain : list SegmentEnvelope) : result StoreError unit :=
  match chain with
  | [] => Ok tt
  | segment :: rest =>
      _ <-? verify_signature segment;
      _ <-? match expected_previous with
            | Some expected =>
                if decide (previous segment = Some expected) then Ok tt
                else Err (SegmentChainBroken (segment_id segment) (Some expected)
                            (previous segment))
            | None => Ok tt
            end;
      _ <-? match expected_sequence with
            | Some next =>
                if first_sequence segment =? next then Ok tt
                else Err (Corrupt "segment starts at another sequence than was expected")
            | None => Ok tt
            end;
      validate_chain_from (Some (segment_id segment))
        (Some (wrap_add (last_sequence segment) 1)) rest
  end.

Definition validate_chain (chain : list SegmentEnvelope) : result StoreError unit :=
  validate_chain_from None None chain.

End oplog.

(** ** What the signature covers *)

(** The fields a signature protects. *)
Definition signed_fields (e : SegmentEnvelope) :=
  (segment_id e, owner e, device e, first_sequence e, last_sequence e, previous e, sealed_body e).

(** The widths the source's types guarantee. *)
Definition envelope_wf (e : SegmentEnvelope) : Prop :=
  is_id (segment_id e) /\ is_id (owner e) /\ is_id (device e)
  /\ is_u64 (first_sequence e) /\ is_u64 (last_sequence e)
  /\ (forall id, previous e = Some id -> is_id id).

Lemma previous_bytes_inj p q x y :
  (forall id, p = Some id -> is_id id) -> (forall id, q = Some id -> is_id id) ->
  previous_bytes p ++ x = previous_bytes q ++ y -> p = q /\ x = y.
Proof.
  intros Hp Hq H. destruct p as [i|], q as [j|]; cbn [previous_bytes app] in H;
    [|discriminate|discriminate|by injection H].
  apply (app_inv_head [1] (as_bytes i ++ x) (as_bytes j ++ y)) in H.
  apply app_inj_length in H as [H ->]; [|by autorewrite with its].
  apply as_bytes_inj in H as ->; eauto.
Qed.

Lemma le8_inj a b : is_u64 a -> is_u64 b -> le_bytes 8 a = le_bytes 8 b -> a = b.
Proof.
  unfold is_u64, u64_max. intros Ha Hb. apply le_bytes_inj;
    change (256 ^ N.of_nat 8) with (2 ^ 64); lia.
Qed.

(** Peel one equal-length field off a payload equation. *)
Ltac peel H E :=
  apply app_inj_length in H as [E H];
  [|by autorewrite with its].

(** The payload a segment's signature covers determines every signed field
    of the envelope, whatever the body: no two distinct envelopes share one. *)
Theorem signing_payload_injective (e e' : SegmentEnvelope) :
  envelope_wf e -> envelope_wf e' ->
  envelope_payload e = envelope_payload e' -> signed_fields e = signed_fields e'.
Proof.
  intros (Hi & Ho & Hd & Hf & Hl & Hp) (Hi' & Ho' & Hd' & Hf' & Hl' & Hp') H.
  unfold envelope_payload, signing_payload in H.
  peel H E1. peel H E2. peel H E3. peel H E4. peel H E5.
  apply previous_bytes_inj in H as [E6 H]; [|done..].
  apply app_inj_length in H as [_ E7]; [|unfold len_prefix; by autorewrite with its].
  apply as_bytes_inj in E1, E2, E3; [|done..]. apply le8_inj in E4, E5; [|done..].
  unfold signed_fields. by rewrite E1, E2, E3, E4, E5, E6, E7.
Qed.

Lemma small_envelope_wf p :
  p = Some 6 \/ p = None -> envelope_wf (mkEnvelope 1 2 3 4 5 p [7] []).
Proof.
  intros Hp. unfold envelope_wf, is_id, is_u64, u64_max. simpl.
  split_and!; [lia..|]. intros id ->. destruct Hp as [[= ->]|[=]]. lia.
Qed.

Lemma signing_payload_injective_witness :
  envelope_payload (mkEnvelope 1 2 3 4 5 (Some 6) [7] [])
  <> envelope_payload (mkEnvelope 1 2 3 4 5 None [7] []).
Proof.
  intros H.
  enough (E : Some 6 = None :> option N) by discriminate.
  apply (f_equal (fun t => t.1.2)
    (signing_payload_injective (mkEnvelope 1 2 3 4 5 (Some 6) [7] [])
       (mkEnvelope 1 2 3 4 5 None [7] []) (small_envelope_wf (Some 6) (or_introl eq_refl))
       (small_envelope_wf None (or_intror eq_refl)) H)).
Defined.

(** ** Chains *)

(** [b] continues [a]: it names it, and starts where it stopped. *)
Definition follows (a b : SegmentEnvelope) : Prop :=
  previous b = Some (segment_id a) /\ first_sequence b = wrap_add (last_sequence a) 1.

Definition gap_free (chain : list SegmentEnvelope) : Prop :=
  forall i a b, chain !! i = Some a -> chain !! S i = Some b -> follows a b.

Lemma gap_free_cons a b l : gap_free (a :: b :: l) <-> follows a b /\ gap_free (b :: l).
Proof.
  split.
  - intros H. split; [by apply (H 0%nat)|]. intros i x y. apply (H (S i)).
  - intros [H1 H2] [|i] x y; simpl; [by intros [= <-] [= <-]|]. apply (H2 i).
Qed.

Lemma gap_free_app x y : gap_free (x ++ y) -> gap_free x /\ gap_free y.
Proof.
  intros H. split; intros i a b Ha Hb.
  - apply (H i); by apply lookup_app_l_Some.
  - apply (H (length x + i)%nat); rewrite lookup_app_r by lia.
    + by replace (length x + i - length x)%nat with i by lia.
    + by replace (S (length x + i) - length x)%nat with (S i) by lia.
Qed.

Lemma gap_free_join x a y : gap_free (x ++ a :: y) -> forall p, last x = Some p -> follows p a.
Proof.
  intros H p Hp. rewrite last_lookup in Hp. destruct x as [|z x]; [done|].
  apply (H (length x)).
  - apply lookup_app_l_Some. exact Hp.
  - rewrite lookup_app_r by (simpl; lia). simpl. by rewrite Nat.sub_diag.
Qed.

Section chain_laws.
Context `{!Primitives, !BodyCodec}.

Lemma validate_chain_from_spec prev chain :
  validate_chain_from (segment_id <$> prev) ((fun p => wrap_add (last_sequence p) 1) <$> prev) chain
    = Ok tt
  <-> Forall (fun s => verify_signature s = Ok tt) chain
      /\ gap_free chain
      /\ (forall p s, prev = Some p -> head chain = Some s -> follows p s).
Proof.
  revert prev. induction chain as [|s chain IH]; intros prev; simpl.
  { split; [intros _; split_and!; [constructor|by intros []|done]|done]. }
  rewrite Forall_cons. destruct (verify_signature s) as [[]|e]; simpl; [|naive_solver].
  specialize (IH (Some s)). simpl in IH.
  assert (Hgf : gap_free (s :: chain) <->
    gap_free chain /\ (forall p t, Some s = Some p -> head chain = Some t -> follows p t)).
  { destruct chain as [|t chain]; [split; [intros _|]; [split; [by intros []|done]|by intros _ []]|].
    rewrite gap_free_cons. simpl. naive_solver. }
  rewrite Hgf. destruct prev as [p|]; simpl.
  - case_decide as Hp; simpl.
    + destruct (N.eqb_spec (first_sequence s) (wrap_add (last_sequence p) 1)) as [Hs|Hs]; simpl.
      * rewrite IH. unfold follows. naive_solver.
      * split; [done|]. intros (_ & _ & Hx). by destruct (Hx p s eq_refl eq_refl).
    + split; [done|]. intros (_ & _ & Hx). by destruct (Hx p s eq_refl eq_refl).
  - rewrite IH. naive_solver.
Qed.

Lemma validate_chain_spec chain :
  validate_chain chain = Ok tt <->
  Forall (fun s => verify_signature s = Ok tt) chain /\ gap_free chain.
Proof.
  unfold validate_chain. pose proof (validate_chain_from_spec None chain) as Hv.
  simpl in Hv. rewrite Hv. naive_solver.
Qed.

End chain_laws.

(** [validate_chain] accepts exactly the chains of authentic envelopes in
    which every segment names its predecessor and starts at the sequence after
    it; so no run of segments can be dropped from the middle of an accepted
    chain without the rest being refused. *)
Theorem validate_chain_no_holes `{!Primitives} (chain pre mid post : list SegmentEnvelope) :
  (validate_chain chain = Ok tt <->
     Forall (fun s => verify_signature s = Ok tt) chain /\ gap_free chain)
  /\ (chain = pre ++ mid ++ post -> pre <> [] -> mid <> [] -> post <> [] ->
      NoDup (segment_id <$> chain) -> validate_chain chain = Ok tt ->
      validate_chain (pre ++ post) <> Ok tt).
Proof.
  split; [apply validate_chain_spec|]. intros -> Hpre Hmid Hpost Hnd Hv Hv'.
  apply validate_chain_spec in Hv as [_ Hg]. apply validate_chain_spec in Hv' as [_ Hg'].
  destruct post as [|t post]; [done|].
  apply last_is_Some in Hpre as [p Hp]. apply last_is_Some in Hmid as [m Hm].
  apply gap_free_app in Hg as [_ Hg].
  destruct (gap_free_join _ _ _ Hg' p Hp) as [E1 _].
  destruct (gap_free_join _ _ _ Hg m Hm) as [E2 _].
  assert (Hid : segment_id p = segment_id m) by congruence.
  rewrite fmap_app, NoDup_app in Hnd. destruct Hnd as (_ & Hnd & _).
  apply (Hnd (segment_id p)).
  - apply list_elem_of_fmap_2. by apply last_Some_elem_of.
  - rewrite Hid. apply list_elem_of_fmap_2. apply elem_of_app. left. by apply last_Some_elem_of.
Qed.

Lemma create_spec `{!Primitives, !PrimitiveLaws, !BodyCodec, !BodyCodecLaws}
  id nonce root o dev prev es e :
  length nonce = NONCE_LEN -> create id nonce root o dev prev es = Ok e ->
  open_envelope root e = Ok (mkBody es) /\ verify_signature e = Ok tt
  /\ previous e = prev /\ device e = device_id dev /\ owner e = o
  /\ Some (first_sequence e) = le_sequence <$> head es
  /\ Some (last_sequence e) = le_sequence <$> last es
  /\ first_sequence e <= last_sequence e.
Proof.
  intros Hn. unfold create. destruct (head es) as [f|] eqn:Hf; [|done].
  destruct (last es) as [l|] eqn:Hl; [|done].
  destruct (N.ltb_spec (le_sequence l) (le_sequence f)); [done|].
  destruct (seal_random _ _ _ _) as [sealed|] eqn:Hs; [|done]. intros [= <-].
  assert (Hv : verify_signature (mkEnvelope id o (device_id dev) (le_sequence f)
      (le_sequence l) prev sealed (device_sign dev SEGMENT_SIGNING_DOMAIN
         (signing_payload id o (device_id dev) (le_sequence f) (le_sequence l) prev sealed)))
      = Ok tt).
  { unfold verify_signature, envelope_payload. simpl. by rewrite verify_device_sign. }
  split_and!; try done. unfold open_envelope. rewrite Hv. cbn [rbind owner segment_id sealed_body].
  rewrite (open_seal_random _ _ _ _ _ Hn Hs), decode_encode_body. simpl.
  rewrite Hf, Hl. by rewrite decide_True.
Qed.

(** What [create] seals, [open] gives back to the owner; and an envelope
    opens only to a body that holds exactly the sequences it claims, so a
    dishonest envelope around a genuine body is refused. *)
Theorem create_open `{!Primitives, !PrimitiveLaws, !BodyCodec, !BodyCodecLaws}
  (id : ObjectId) (nonce root : list N) (o : UserId) (dev : DeviceKeys)
  (prev : option ObjectId) (es : list LogEntry) (e : SegmentEnvelope) (body : SegmentBody) :
  length nonce = NONCE_LEN ->
  (create id nonce root o dev prev es = Ok e ->
     open_envelope root e = Ok (mkBody es) /\ verify_signature e = Ok tt
     /\ previous e = prev /\ device e = device_id dev
     /\ first_sequence e <= last_sequence e)
  /\ (open_envelope root e = Ok body ->
      verify_signature e = Ok tt
      /\ le_sequence <$> head (entries body) = Some (first_sequence e)
      /\ le_sequence <$> last (entries body) = Some (last_sequence e)).
Proof.
  intros Hn. split.
  - intros Hc. destruct (create_spec _ _ _ _ _ _ _ _ Hn Hc) as (Q1 & Q2 & Q3 & Q4 & _ & _ & _ & Q5).
    auto.
  - unfold open_envelope. destruct (verify_signature e) as [[]|]; [|done]. simpl.
    destruct (open_random _ _ _); [|done]. destruct (decode_body _); [|done].
    case_decide; [|done]. intros [= <-]. naive_solver.
Qed.

(** ** A concrete codec and chain *)

#[export] Instance FileEntry_countable : Countable FileEntry :=
  inj_countable'
    (fun e => (fe_size e, modified_unix e, content_hash e, fe_chunks e, fe_version e, fe_author e))
    (fun '(s, m, h, c, v, a) => mkFile s m h c v a)
    ltac:(by intros []).

#[export] Instance Operation_countable : Countable Operation :=
  inj_countable'
    (fun o => match o with Upsert p e => inl (p, e) | Remove p v => inr (p, v) end)
    (fun x => match x with inl (p, e) => Upsert p e | inr (p, v) => Remove p v end)
    ltac:(by intros []).

#[export] Instance LogEntry_countable : Countable LogEntry :=
  inj_countable' (fun e => (le_sequence e, recorded_unix e, operation e))
    (fun '(s, r, o) => mkLog s r o) ltac:(by intros []).

Module ToyCodec.

Definition encode_n (b : SegmentBody) : list N := [N.pos (encode (entries b))].

Definition decode_n (l : list N) : option SegmentBody :=
  match l with
  | [N.pos p] => mkBody <$> decode p
  | _ => None
  end.

#[export] Instance codec : BodyCodec := {| encode_body := encode_n; decode_body := decode_n |}.

#[export] Instance codec_laws : BodyCodecLaws.
Proof. split. intros [es]. simpl. by rewrite decode_encode. Qed.

End ToyCodec.

Module ToyChain.
Import Toy ToyCodec.

Definition dev : DeviceKeys := mkDeviceKeys [1; 1].
Definition nonce : list N := replicate 24 0.

Definition put (seq : N) (path : string) : LogEntry :=
  mkLog seq 0 (Upsert path (mkFile 3 0 0 [seq] (VV.advanced ∅ (device_id dev) seq) (device_id dev))).

Definition seg (id : ObjectId) (prev : option ObjectId) (es : list LogEntry) : SegmentEnvelope :=
  match create id nonce [42] 5 dev prev es with
  | Ok e => e
  | Err _ => mkEnvelope 0 0 0 0 0 None [] []
  end.

Definition chain : list SegmentEnvelope :=
  [seg 11 None [put 1 "a"; put 2 "b"]; seg 12 (Some 11) [put 3 "a"]; seg 13 (Some 12) [put 4 "c"]].

End ToyChain.

Import Toy ToyCodec.

Lemma validate_chain_no_holes_witness :
  validate_chain ToyChain.chain = Ok tt
  /\ validate_chain (take 1 ToyChain.chain ++ drop 2 ToyChain.chain) <> Ok tt.
Proof.
  assert (Hv : validate_chain ToyChain.chain = Ok tt) by (vm_compute; reflexivity).
  split; [exact Hv|].
  apply (proj2 (validate_chain_no_holes ToyChain.chain (take 1 ToyChain.chain)
    (take 1 (drop 1 ToyChain.chain)) (drop 2 ToyChain.chain)));
    [reflexivity|discriminate..| |exact Hv].
  apply (bool_decide_unpack _). vm_compute. exact I.
Defined.

Lemma create_open_witness :
  create 11 ToyChain.nonce [42] 5 ToyChain.dev None [ToyChain.put 1 "a"; ToyChain.put 2 "b"]
    = Ok (ToyChain.seg 11 None [ToyChain.put 1 "a"; ToyChain.put 2 "b"])
  /\ open_envelope [42] (ToyChain.seg 11 None [ToyChain.put 1 "a"; ToyChain.put 2 "b"])
    = Ok (mkBody [ToyChain.put 1 "a"; ToyChain.put 2 "b"]).
Proof.
  assert (Hc : create 11 ToyChain.nonce [42] 5 ToyChain.dev None
    [ToyChain.put 1 "a"; ToyChain.put 2 "b"]
    = Ok (ToyChain.seg 11 None [ToyChain.put 1 "a"; ToyChain.put 2 "b"]))
    by (vm_compute; reflexivity).
  split; [exact Hc|].
  apply (proj1 (create_open 11 ToyChain.nonce [42] 5 ToyChain.dev None
    [ToyChain.put 1 "a"; ToyChain.put 2 "b"] _ (mkBody []) eq_refl) Hc).
Defined.
