(* ===== verification/Chunker.v ===== *)
(** * Chunker: where files are cut

    Models [crates/itsanas-store/src/chunker.rs] and its submodules [field],
    [siphash] and [keyed].  The public cut is FastCDC over a gear table derived
    from BLAKE3; the cut every store uses is keyed: a rolling polynomial over a
    window of 64 bytes in the field of 2^61 - 1, through SipHash-2-4.  The
    theorems are the contract the rest of the system rests on: the field
    operations are arithmetic modulo the prime, the rolled hash is the window's
    polynomial, a cut is always within its bounds, chunks reassemble to the
    data, and the streaming splitter cuts exactly where the in-memory one does
    however the reader delivers the bytes.  Sizes are [usize] as [nat]; I/O
    errors of the reader are not modelled. *)

From S2P Require Import Prelude Version Ids Path Crypto.

(** ** field.rs *)

Module Field.

Definition P : N := 2 ^ 61 - 1.

Definition reduce (x : N) : N := if P <=? x then x - P else x.

(** [wide as u64 & P] and [(wide >> 61) as u64] of the 128-bit product. *)
Definition mul (a b : N) : N :=
  let wide := a * b in
  let low := N.land (wide mod 2 ^ 64) P in
  let high := N.shiftr wide 61 mod 2 ^ 64 in
  reduce (low + high).

Definition add (a b : N) : N := reduce (a + b).

(** [while exponent > 0]; a [u32] has 32 bits, which is the fuel. *)
Fixpoint pow_loop (fuel : nat) (exponent result square : N) : N :=
  match fuel with
  | O => result
  | S fuel' =>
      if exponent =? 0 then result
      else
        let result' := if N.land exponent 1 =? 1 then mul result square else result in
        pow_loop fuel' (N.shiftr exponent 1) result' (mul square square)
  end.

Definition pow (base exponent : N) : N := pow_loop 32 exponent 1 base.

Lemma P_value : P = 2305843009213693951.
Proof. reflexivity. Qed.

Lemma reduce_mod x : x < 2 * P -> reduce x = x mod P.
Proof.
  intros Hx. unfold reduce. destruct (N.leb_spec P x) as [Hle|Hlt].
  - apply (N.mod_unique x P 1); lia.
  - by rewrite N.mod_small.
Qed.

Lemma land_P x : N.land x P = x mod 2 ^ 61.
Proof. unfold P. replace (2 ^ 61 - 1) with (N.ones 61) by reflexivity. apply N.land_ones. Qed.

(** Folding the high part back: [2^61 = 1] modulo [P]. *)
Lemma fold_mod x : (x mod 2 ^ 61 + x / 2 ^ 61) mod P = x mod P.
Proof.
  rewrite (N.div_mod x (2 ^ 61)) at 3 by lia.
  replace (2 ^ 61 * (x / 2 ^ 61) + x mod 2 ^ 61)
    with (x mod 2 ^ 61 + x / 2 ^ 61 + (x / 2 ^ 61) * P).
  - by rewrite N.Div0.mod_add.
  - rewrite P_value. change (2 ^ 61) with 2305843009213693952. lia.
Qed.

Lemma mul_mod a b : a < P -> b < P -> mul a b = (a * b) mod P.
Proof.
  intros Ha Hb. unfold mul. rewrite land_P, N.shiftr_div_pow2.
  assert (Hw : a * b < P * P) by (apply N.mul_lt_mono; done).
  assert (Hhi : a * b / 2 ^ 61 < P).
  { apply N.Div0.div_lt_upper_bound. rewrite P_value in *.
    change (2 ^ 61) with 2305843009213693952. lia. }
  rewrite (N.mod_small (a * b / 2 ^ 61)) by (rewrite P_value in Hhi; change (2 ^ 64) with 18446744073709551616; lia).
  assert (Hlo : (a * b) mod 2 ^ 64 mod 2 ^ 61 = (a * b) mod 2 ^ 61).
  { change (2 ^ 64) with (2 ^ 61 * 8). rewrite N.Div0.mod_mul_r.
    rewrite (N.mul_comm (2 ^ 61)), N.Div0.mod_add, N.Div0.mod_mod. done. }
  rewrite Hlo, reduce_mod, fold_mod; [done|].
  pose proof (N.mod_lt (a * b) (2 ^ 61) ltac:(lia)) as Hm.
  rewrite P_value in *. change (2 ^ 61) with 2305843009213693952 in *. lia.
Qed.

Lemma add_mod a b : a < P -> b < P -> add a b = (a + b) mod P.
Proof. intros Ha Hb. apply reduce_mod. lia. Qed.

Lemma P_pos : 1 < P.
Proof. rewrite P_value. lia. Qed.

Lemma mul_lt a b : a < P -> b < P -> mul a b < P.
Proof. intros. rewrite mul_mod by done. apply N.mod_lt. pose proof P_pos. lia. Qed.

Lemma add_lt a b : a < P -> b < P -> add a b < P.
Proof. intros. rewrite add_mod by done. apply N.mod_lt. pose proof P_pos. lia. Qed.

Lemma pow_mod_idemp a n m : (a mod m) ^ n mod m = a ^ n mod m.
Proof.
  induction n as [|n IH] using N.peano_ind; [done|].
  rewrite !N.pow_succ_r', (N.Div0.mul_mod (a mod m)), IH, N.Div0.mod_mod.
  by rewrite <- N.Div0.mul_mod.
Qed.

Lemma pow_loop_mod fuel e r s :
  r < P -> s < P -> e < 2 ^ N.of_nat fuel -> pow_loop fuel e r s = (r * s ^ e) mod P.
Proof.
  revert e r s. induction fuel as [|fuel IH]; intros e r s Hr Hs He; cbn [pow_loop].
  - assert (e = 0) as -> by (simpl in He; lia). rewrite N.pow_0_r, N.mul_1_r.
    by rewrite N.mod_small.
  - destruct (N.eqb_spec e 0) as [->|Hne].
    { rewrite N.pow_0_r, N.mul_1_r. by rewrite N.mod_small. }
    assert (Hl : N.land e 1 = e mod 2) by (change 1 with (N.ones 1); by rewrite N.land_ones).
    rewrite N.shiftr_div_pow2, N.pow_1_r, Hl.
    assert (Hdm : e = 2 * (e / 2) + e mod 2) by (apply N.div_mod; lia).
    assert (Hb : e mod 2 < 2) by (apply N.mod_lt; lia).
    assert (Hpow : s ^ e = (s * s) ^ (e / 2) * s ^ (e mod 2)).
    { rewrite Hdm at 1. by rewrite N.pow_add_r, N.pow_mul_r, N.pow_2_r. }
    rewrite IH.
    + rewrite Hpow, (mul_mod s s) by done.
      rewrite N.Div0.mul_mod, pow_mod_idemp, <- N.Div0.mul_mod.
      destruct (N.eqb_spec (e mod 2) 1) as [E|E].
      * rewrite mul_mod by done. rewrite E, N.pow_1_r.
        rewrite N.Div0.mul_mod_idemp_l. f_equal. lia.
      * assert (e mod 2 = 0) as -> by lia. rewrite N.pow_0_r. f_equal. lia.
    + destruct (e mod 2 =? 1); [by apply mul_lt|done].
    + by apply mul_lt.
    + apply N.Div0.div_lt_upper_bound. rewrite <- N.pow_succ_r'.
      by replace (N.succ (N.of_nat fuel)) with (N.of_nat (S fuel)) by lia.
Qed.

Lemma pow_mod base e : base < P -> e < 2 ^ 32 -> pow base e = base ^ e mod P.
Proof.
  intros Hb He. unfold pow. rewrite pow_loop_mod; [|apply P_pos|done|done].
  by rewrite N.mul_1_l.
Qed.

End Field.

(** ** siphash.rs *)

Module SipHash.

Definition rotate_left (x n : N) : N := N.lor (N.shiftl x n mod 2 ^ 64) (N.shiftr x (64 - n)).

Record State := mkState { v0 : N; v1 : N; v2 : N; v3 : N }.

Definition state_new (k0 k1 : N) : State :=
  mkState (N.lxor k0 0x736f6d6570736575) (N.lxor k1 0x646f72616e646f6d)
    (N.lxor k0 0x6c7967656e657261) (N.lxor k1 0x7465646279746573).

Definition round (s : State) : State :=
  let a0 := wrap_add (v0 s) (v1 s) in
  let a1 := N.lxor (rotate_left (v1 s) 13) a0 in
  let a0 := rotate_left a0 32 in
  let a2 := wrap_add (v2 s) (v3 s) in
  let a3 := N.lxor (rotate_left (v3 s) 16) a2 in
  let a0 := wrap_add a0 a3 in
  let a3 := N.lxor (rotate_left a3 21) a0 in
  let a2 := wrap_add a2 a1 in
  let a1 := N.lxor (rotate_left a1 17) a2 in
  let a2 := rotate_left a2 32 in
  mkState a0 a1 a2 a3.

Definition absorb (word : N) (s : State) : State :=
  let s := mkState (v0 s) (v1 s) (v2 s) (N.lxor (v3 s) word) in
  let s := round (round s) in
  mkState (N.lxor (v0 s) word) (v1 s) (v2 s) (v3 s).

Definition hash_word (k0 k1 word : N) : N :=
  let s := absorb (N.shiftl 8 56) (absorb word (state_new k0 k1)) in
  let s := mkState (v0 s) (v1 s) (N.lxor (v2 s) 0xff) (v3 s) in
  let s := round (round (round (round s))) in
  N.lxor (N.lxor (N.lxor (v0 s) (v1 s)) (v2 s)) (v3 s).

(** The reference vector of SipHash-2-4 for the key 0x00..0x0f and the eight
    bytes 0x00..0x07. *)
Lemma hash_word_reference :
  hash_word 0x0706050403020100 0x0f0e0d0c0b0a0908 0x0706050403020100 = 0x93f5f5799a932462.
Proof. vm_compute. reflexivity. Qed.

End SipHash.

(** ** keyed.rs *)

Definition WINDOW : nat := 64.

Record KeyedCut := mkKeyed { point : N; leaving : list N; prf : N * N }.

Record Bounds := mkBounds { b_min : nat; b_avg : nat; b_max : nat; b_strict : N; b_loose : N }.

(** [word(&bytes[i..i + 8])] *)
Definition word (bytes : list N) : N := of_le_bytes bytes.

Definition point_from (raw : N) : N :=
  let p := Field.reduce (N.land raw Field.P) in
  if p <? 2 then p + 2 else p.

Definition keyed_new (key : list N) : KeyedCut :=
  let p := point_from (word (take 8 key)) in
  let top := Field.pow p (N.of_nat (WINDOW - 1)) in
  mkKeyed p
    ((fun b => Field.reduce (Field.P - Field.mul (N.of_nat b) top)) <$> seq 0 256)
    (word (take 8 (drop 16 key)), word (take 8 (drop 24 key))).

Definition poly_step (k : KeyedCut) (hash byte : N) : N :=
  Field.add (Field.mul hash (point k)) byte.

(** [data[end.saturating_sub(WINDOW)..end]] *)
Definition window_before (data : list N) (end_ : nat) : list N :=
  take (end_ - (end_ - WINDOW)) (drop (end_ - WINDOW) data).

Definition primed (k : KeyedCut) (data : list N) (end_ : nat) : N :=
  foldl (poly_step k) 0 (window_before data end_).

(** The hash after reading the byte at [at_]. *)
Definition roll (k : KeyedCut) (data : list N) (at_ : nat) (hash : N) : N :=
  let old := if (WINDOW <=? at_)%nat then nth (at_ - WINDOW) data 0 else 0 in
  let hash := Field.add hash (nth (N.to_nat old) (leaving k) 0) in
  Field.add (Field.mul hash (point k)) (nth at_ data 0).

Definition cuts_here (k : KeyedCut) (b : Bounds) (at_ : nat) (hash : N) : bool :=
  let mask := if (at_ <? b_avg b)%nat then b_strict b else b_loose b in
  N.land (SipHash.hash_word (prf k).1 (prf k).2 hash) mask =? 0.

(** [for at in at_..end]; [todo] is what is left of the range. *)
Fixpoint keyed_loop (k : KeyedCut) (b : Bounds) (data : list N) (todo at_ : nat) (hash : N) : nat :=
  match todo with
  | O => at_
  | S todo' =>
      let hash := roll k data at_ hash in
      if cuts_here k b at_ hash then S at_ else keyed_loop k b data todo' (S at_) hash
  end.

Definition keyed_cut_point (k : KeyedCut) (data : list N) (b : Bounds) : nat :=
  let len := length data in
  if (len <=? b_min b)%nat then len
  else
    let end_ := Nat.min len (b_max b) in
    keyed_loop k b data (end_ - b_min b) (b_min b) (primed k data (b_min b)).

(** ** chunker.rs *)

Record ChunkerConfig := mkChunker {
  min_size : nat;
  avg_size : nat;
  max_size : nat;
  mask_strict : N;
  mask_loose : N;
  keyed : option KeyedCut;
}.

Definition MASKS : list N := [
  0; 0x1; 0x3; 0x7; 0xf; 0x01804110; 0x01803110; 0x18035100; 0x1800035300; 0x19000353000;
  0x590003530000; 0xd90003530000; 0xd90103530000; 0xd90303530000; 0xd90313530000;
  0xd90f03530000; 0xd90303537000; 0xd90703537000; 0xd90707537000; 0xd91707537000;
  0xd91747537000; 0xd91767537000; 0xd93767537000; 0xd93777537000; 0xd93777577000;
  0xdb3777577000].

Definition NORMALISATION : N := 2.

Definition chunker_new (min avg max : nat) : result StoreError ChunkerConfig :=
  if (min =? 0)%nat then Err (ChunkerConfigError "minimum chunk size must be > 0")
  else if negb ((min <=? avg)%nat && (avg <=? max)%nat)
  then Err (ChunkerConfigError "chunk sizes must satisfy min <= avg <= max")
  else
    let bits := N.log2 (N.of_nat avg) in
    let top := N.of_nat (length MASKS - 1) in
    let strict := N.min (bits + NORMALISATION) top in
    let loose := N.min (N.max (bits - NORMALISATION) 1) top in
    Ok (mkChunker min avg max (nth (N.to_nat strict) MASKS 0) (nth (N.to_nat loose) MASKS 0) None).

Definition with_key (c : ChunkerConfig) (key : list N) : ChunkerConfig :=
  mkChunker (min_size c) (avg_size c) (max_size c) (mask_strict c) (mask_loose c)
    (Some (keyed_new key)).

Section gear.
Context `{!Primitives}.

Definition GEAR_DOMAIN : string := "itsanas v1 fastcdc gear table".

(** The slot of the gear table for a byte. *)
Definition gear (byte : N) : N := of_le_bytes (take 8 (blake3_derive_key GEAR_DOMAIN (le_bytes 4 byte))).

Definition gear_step (hash byte : N) : N := wrap_add (N.shiftl hash 1 mod 2 ^ 64) (gear byte).

(** [while index < bound]: a cut, or where the loop stopped. *)
Fixpoint gear_while (todo : nat) (mask : N) (data : list N) (index : nat) (hash : N)
  : nat + (nat * N) :=
  match todo with
  | O => inr (index, hash)
  | S todo' =>
      let hash := gear_step hash (nth index data 0) in
      if N.land hash mask =? 0 then inl (S index)
      else gear_while todo' mask data (S index) hash
  end.

Definition gear_cut_point (c : ChunkerConfig) (data : list N) : nat :=
  let len := length data in
  if (len <=? min_size c)%nat then len
  else
    let end_ := Nat.min len (max_size c) in
    let center := Nat.min (avg_size c) end_ in
    match gear_while (center - min_size c) (mask_strict c) data (min_size c) 0 with
    | inl cut => cut
    | inr (index, hash) =>
        match gear_while (end_ - index) (mask_loose c) data index hash with
        | inl cut => cut
        | inr _ => end_
        end
    end.

Definition cut_point (c : ChunkerConfig) (data : list N) : nat :=
  match keyed c with
  | Some k => keyed_cut_point k data
                (mkBounds (min_size c) (avg_size c) (max_size c) (mask_strict c) (mask_loose c))
  | None => gear_cut_point c data
  end.

(** The iterator: every cut is at least one byte, so the length is enough fuel. *)
Fixpoint split_go (fuel : nat) (c : ChunkerConfig) (data : list N) : list (list N) :=
  match fuel, data with
  | _, [] => []
  | O, _ => []
  | S fuel', _ =>
      let cut := cut_point c data in
      take cut data :: split_go fuel' c (drop cut data)
  end.

Definition split (c : ChunkerConfig) (data : list N) : list (list N) :=
  split_go (length data) c data.

(** [while !exhausted && buffer.len() < window]: the reader delivers the
    elements of [reads] in turn, then end of file; an empty read is end of
    file. *)
Fixpoint refill (window : nat) (buffer : list N) (reads : list (list N))
  : list N * list (list N) :=
  if (window <=? length buffer)%nat then (buffer, reads)
  else
    match reads with
    | [] | [] :: _ => (buffer, [])
    | r :: rest => refill window (buffer ++ r) rest
    end.

(** The chunks handed to the callback, in order. *)
Fixpoint stream_go (fuel : nat) (c : ChunkerConfig) (buffer : list N) (reads : list (list N))
  : list (list N) :=
  match fuel with
  | O => []
  | S fuel' =>
      let '(buffer, reads) := refill (max_size c) buffer reads in
      match buffer with
      | [] => []
      | _ =>
          let cut := cut_point c buffer in
          take cut buffer :: stream_go fuel' c (drop cut buffer) reads
      end
  end.

Definition split_stream (c : ChunkerConfig) (reads : list (list N)) : list (list N) :=
  stream_go (S (length (mjoin reads))) c [] reads.

End gear.

(** ** The rolled hash is the window's polynomial *)

Definition bytes_ok (data : list N) : Prop := Forall (fun b => b < 256) data.

Lemma byte_lt_P b : b < 256 -> b < Field.P.
Proof. rewrite Field.P_value. lia. Qed.

Section rolling.
Context (k : KeyedCut) (Hpt : point k < Field.P).

Lemma poly_step_mod h b :
  h < Field.P -> b < 256 -> poly_step k h b = (h * point k + b) mod Field.P.
Proof.
  intros Hh Hb. unfold poly_step.
  rewrite Field.add_mod by (try apply Field.mul_lt; auto using byte_lt_P).
  rewrite Field.mul_mod by done. by rewrite N.Div0.add_mod_idemp_l.
Qed.

Lemma poly_lt h w : h < Field.P -> bytes_ok w -> foldl (poly_step k) h w < Field.P.
Proof.
  revert h. induction w as [|b w IH]; intros h Hh Hw; [done|]. simpl.
  apply Forall_cons in Hw as [Hb Hw]. apply IH; [|done].
  apply Field.add_lt; [by apply Field.mul_lt|by apply byte_lt_P].
Qed.

(** What the accumulator contributes after a whole window. *)
Lemma poly_acc h w :
  h < Field.P -> bytes_ok w ->
  foldl (poly_step k) h w
  = (h * point k ^ N.of_nat (length w) + foldl (poly_step k) 0 w) mod Field.P.
Proof.
  revert h. induction w as [|b w IH] using rev_ind; intros h Hh Hw.
  { simpl. rewrite N.add_0_r, N.mul_1_r. by rewrite N.mod_small. }
  apply Forall_app in Hw as [Hw Hb]. apply Forall_cons in Hb as [Hb _].
  rewrite !foldl_app. cbn [foldl].
  rewrite !poly_step_mod by (try done; apply poly_lt; rewrite ?Field.P_value; try done; lia).
  rewrite (IH h) by done. rewrite length_app. cbn [length].
  replace (N.of_nat (length w + 1)) with (N.succ (N.of_nat (length w))) by lia.
  rewrite N.pow_succ_r'. rewrite N.Div0.add_mod_idemp_r.
  rewrite <- (N.Div0.add_mod_idemp_l (_ mod Field.P * point k)).
  rewrite N.Div0.mul_mod_idemp_l, N.Div0.add_mod_idemp_l. f_equal. lia.
Qed.

End rolling.

(** The table of leaving terms: adding one takes that byte's term out. *)
Lemma point_from_lt raw : point_from raw < Field.P.
Proof.
  unfold point_from. rewrite Field.land_P.
  pose proof (N.mod_lt raw (2 ^ 61) ltac:(lia)) as Hm.
  unfold Field.reduce. rewrite Field.P_value. change (2 ^ 61) with 2305843009213693952 in *.
  repeat case_match; nbool; lia.
Qed.

Lemma leaving_value key b :
  b < 256 ->
  let k := keyed_new key in
  nth (N.to_nat b) (leaving k) 0
  = (Field.P - (b * point k ^ 63) mod Field.P) mod Field.P.
Proof.
  intros Hb k. pose proof (point_from_lt (word (take 8 key))) as Hp. fold (point k) in Hp.
  assert (Hpow : Field.pow (point k) 63 = point k ^ 63 mod Field.P)
    by (by apply Field.pow_mod).
  assert (Hlt : Field.pow (point k) 63 < Field.P).
  { rewrite Hpow. apply N.mod_lt. rewrite Field.P_value. lia. }
  change (leaving k) with
    ((fun b => Field.reduce (Field.P - Field.mul (N.of_nat b) (Field.pow (point k) 63))) <$> seq 0 256).
  rewrite nth_lookup, list_lookup_fmap, lookup_seq_lt by lia. cbn [fmap option_fmap option_map default].
  simpl default. replace (N.of_nat (0 + N.to_nat b)) with b by lia. unfold id.
  rewrite Field.mul_mod; [|by apply byte_lt_P|exact Hlt]. rewrite Hpow, N.Div0.mul_mod_idemp_r.
  apply Field.reduce_mod. generalize ((b * point k ^ 63) mod Field.P). intros y.
  pose proof Field.P_pos. clear -H. lia.
Qed.

(** ** The rolled hash at every position *)

Lemma window_before_lt data n :
  (n < length data)%nat -> (n < WINDOW)%nat -> window_before data (S n) = window_before data n ++ [nth n data 0].
Proof.
  intros Hn Hw. unfold window_before. unfold WINDOW in *.
  replace (S n - 64)%nat with 0%nat by lia. replace (n - 64)%nat with 0%nat by lia.
  rewrite !drop_0, !Nat.sub_0_r. apply take_S_r. rewrite nth_lookup.
  by destruct (lookup_lt_is_Some_2 data n Hn) as [x ->].
Qed.

Lemma window_before_ge data n :
  (n < length data)%nat -> (WINDOW <= n)%nat ->
  exists w, window_before data n = nth (n - WINDOW) data 0 :: w /\ length w = 63%nat
    /\ window_before data (S n) = w ++ [nth n data 0].
Proof.
  intros Hn Hw. unfold window_before, WINDOW in *.
  replace (n - (n - 64))%nat with 64%nat by lia. replace (S n - (S n - 64))%nat with 64%nat by lia.
  exists (take 63 (drop (S (n - 64)) data)).
  destruct (lookup_lt_is_Some_2 data (n - 64)) as [x Hx]; [lia|].
  destruct (lookup_lt_is_Some_2 data n Hn) as [y Hy].
  rewrite !nth_lookup, Hx, Hy. split_and!.
  - rewrite (drop_S data x (n - 64)) by done. done.
  - rewrite length_take, length_drop. lia.
  - replace (S n - 64)%nat with (S (n - 64))%nat by lia.
    rewrite (take_S_r _ 63 y); [done|]. rewrite lookup_drop.
    by replace (S (n - 64) + 63)%nat with n by lia.
Qed.

Lemma window_before_ok data n : bytes_ok data -> bytes_ok (window_before data n).
Proof. intros Hd. apply Forall_take, Forall_drop, Hd. Qed.

Lemma primed_lt key data n : bytes_ok data -> primed (keyed_new key) data n < Field.P.
Proof.
  intros Hd. apply poly_lt; [apply point_from_lt|rewrite Field.P_value; lia|].
  by apply window_before_ok.
Qed.

(** One step of the roll moves the window by one byte. *)
Lemma roll_primed key data n :
  bytes_ok data -> (n < length data)%nat ->
  roll (keyed_new key) data n (primed (keyed_new key) data n) = primed (keyed_new key) data (S n).
Proof.
  intros Hd Hn. set (k := keyed_new key).
  pose proof (point_from_lt (word (take 8 key))) as Hp. change (point k < Field.P) in Hp.
  assert (Hbn : nth n data 0 < 256).
  { rewrite nth_lookup. destruct (lookup_lt_is_Some_2 data n Hn) as [y Hy]. rewrite Hy.
    by apply (Forall_lookup_1 _ _ n y Hd). }
  unfold roll. change (primed (keyed_new key) data n) with (primed k data n).
  destruct (Nat.leb_spec WINDOW n) as [Hw|Hw].
  - destruct (window_before_ge data n Hn Hw) as (w & E1 & Hlen & E2).
    assert (Hw' : bytes_ok (nth (n - WINDOW) data 0 :: w))
      by (rewrite <- E1; by apply window_before_ok).
    apply Forall_cons in Hw' as [Hold Hw'].
    unfold primed. rewrite E1, E2, foldl_app. cbn [foldl].
    set (old := nth (n - WINDOW) data 0) in *.
    assert (Hpw : foldl (poly_step k) 0 w < Field.P)
      by (apply poly_lt; [done|rewrite Field.P_value; lia|done]).
    assert (E3 : poly_step k 0 old = old).
    { rewrite poly_step_mod by (try done; rewrite Field.P_value; lia).
      rewrite N.mul_0_l, N.add_0_l. apply N.mod_small. by apply byte_lt_P. }
    rewrite E3.
    change (poly_step k (foldl (poly_step k) 0 w) (nth n data 0))
      with (Field.add (Field.mul (foldl (poly_step k) 0 w) (point k)) (nth n data 0)).
    f_equal. f_equal.
    pose proof (leaving_value key old Hold) as Hl. cbn zeta in Hl. fold k in Hl. rewrite Hl.
    rewrite Field.add_mod; [|apply poly_lt; auto using byte_lt_P|apply N.mod_lt; rewrite Field.P_value; lia].
    rewrite poly_acc by auto using byte_lt_P. rewrite Hlen.
    change (N.of_nat 63) with 63. set (t := old * point k ^ 63).
    pose proof (N.mod_lt t Field.P ltac:(rewrite Field.P_value; lia)) as Ht.
    rewrite N.Div0.add_mod_idemp_l, N.Div0.add_mod_idemp_r.
    rewrite <- (N.mod_small _ _ Hpw) at 2.
    rewrite <- (N.Div0.mod_add (foldl (poly_step k) 0 w) (t / Field.P + 1)).
    f_equal. pose proof (N.div_mod t Field.P ltac:(rewrite Field.P_value; lia)). lia.
  - unfold primed. rewrite window_before_lt by done. rewrite foldl_app. cbn [foldl].
    fold (primed k data n). unfold poly_step. f_equal. f_equal.
    pose proof (leaving_value key 0 ltac:(lia)) as Hl. cbn zeta in Hl. fold k in Hl.
    rewrite N.mul_0_l, N.Div0.mod_0_l, N.sub_0_r, N.Div0.mod_same in Hl. rewrite Hl.
    unfold Field.add. rewrite N.add_0_r. pose proof (primed_lt key data n Hd) as Hlt.
    fold k in Hlt. unfold Field.reduce. destruct (N.leb_spec Field.P (primed k data n)); [lia|done].
Qed.

(** The cut with every window hashed from scratch. *)
Fixpoint window_scan (k : KeyedCut) (b : Bounds) (data : list N) (todo at_ : nat) : nat :=
  match todo with
  | O => at_
  | S todo' =>
      if cuts_here k b at_ (primed k data (S at_)) then S at_
      else window_scan k b data todo' (S at_)
  end.

Lemma keyed_loop_scan key b data todo at_ :
  bytes_ok data -> (at_ + todo <= length data)%nat ->
  keyed_loop (keyed_new key) b data todo at_ (primed (keyed_new key) data at_)
  = window_scan (keyed_new key) b data todo at_.
Proof.
  revert at_. induction todo as [|todo IH]; intros at_ Hd Hl; [done|].
  cbn [keyed_loop window_scan]. rewrite roll_primed by (try done; lia).
  destruct (cuts_here _ _ _ _); [done|]. apply IH; [done|lia].
Qed.

(** ** Bounds of a cut *)

Lemma keyed_loop_bounds k b data todo at_ h :
  (at_ <= keyed_loop k b data todo at_ h <= at_ + todo)%nat.
Proof.
  revert at_ h. induction todo as [|todo IH]; intros at_ h; cbn [keyed_loop]; [lia|].
  destruct (cuts_here _ _ _ _); [lia|]. specialize (IH (S at_) (roll k data at_ h)). lia.
Qed.

(** Bytes past the range of the loop do not matter. *)
Lemma roll_prefix k a b at_ h : (at_ < length a)%nat -> roll k (a ++ b) at_ h = roll k a at_ h.
Proof.
  intros Hl. unfold roll, WINDOW. rewrite (app_nth1 a b 0 Hl).
  destruct (64 <=? at_)%nat; [|done]. rewrite app_nth1 by lia. done.
Qed.

Lemma keyed_loop_prefix k bd a b todo at_ h :
  (at_ + todo <= length a)%nat ->
  keyed_loop k bd (a ++ b) todo at_ h = keyed_loop k bd a todo at_ h.
Proof.
  revert at_ h. induction todo as [|todo IH]; intros at_ h Hl; [done|]. cbn [keyed_loop].
  rewrite roll_prefix by lia. destruct (cuts_here _ _ _ _); [done|]. apply IH. lia.
Qed.

Lemma primed_prefix k a b n : (n <= length a)%nat -> primed k (a ++ b) n = primed k a n.
Proof.
  intros Hl. unfold primed, window_before. f_equal. unfold WINDOW.
  rewrite drop_app_le by lia. rewrite take_app_le; [done|]. rewrite length_drop. lia.
Qed.

Section gear_laws.
Context `{!Primitives}.

Lemma gear_while_bounds todo mask data index hash :
  match gear_while todo mask data index hash with
  | inl cut => (index < cut <= index + todo)%nat
  | inr (i, _) => i = (index + todo)%nat
  end.
Proof.
  revert index hash. induction todo as [|todo IH]; intros index hash; cbn [gear_while]; [lia|].
  destruct (_ =? 0); [lia|]. specialize (IH (S index) (gear_step hash (nth index data 0))).
  destruct (gear_while _ _ _ _ _) as [cut|[i h]]; lia.
Qed.

Lemma gear_while_prefix todo mask a b index hash :
  (index + todo <= length a)%nat ->
  gear_while todo mask (a ++ b) index hash = gear_while todo mask a index hash.
Proof.
  revert index hash. induction todo as [|todo IH]; intros index hash Hl; [done|].
  cbn [gear_while]. rewrite app_nth1 by lia. destruct (_ =? 0); [done|]. apply IH. lia.
Qed.

(** What [ChunkerConfig::new] establishes. *)
Definition chunker_ok (c : ChunkerConfig) : Prop :=
  (0 < min_size c)%nat /\ (min_size c <= avg_size c)%nat /\ (avg_size c <= max_size c)%nat.

Lemma cut_point_bounds c data :
  chunker_ok c -> data <> [] ->
  (0 < cut_point c data <= length data)%nat /\ (cut_point c data <= max_size c)%nat
  /\ (cut_point c data = length data \/ min_size c <= cut_point c data)%nat.
Proof.
  intros (H0 & H1 & H2) Hd.
  assert (Hlen : (0 < length data)%nat) by (destruct data; [done|simpl; lia]).
  unfold cut_point, keyed_cut_point, gear_cut_point.
  destruct (keyed c) as [k|]; cbn [b_min b_max].
  - destruct (Nat.leb_spec (length data) (min_size c)); [lia|].
    pose proof (keyed_loop_bounds k
      (mkBounds (min_size c) (avg_size c) (max_size c) (mask_strict c) (mask_loose c)) data
      (Nat.min (length data) (max_size c) - min_size c) (min_size c)
      (primed k data (min_size c))). lia.
  - destruct (Nat.leb_spec (length data) (min_size c)); [lia|].
    set (e := Nat.min (length data) (max_size c)). set (m := Nat.min (avg_size c) e).
    pose proof (gear_while_bounds (m - min_size c) (mask_strict c) data (min_size c) 0) as G1.
    destruct (gear_while _ _ _ _ _) as [cut|[i h]]; [lia|].
    pose proof (gear_while_bounds (e - i) (mask_loose c) data i h) as G2.
    destruct (gear_while _ _ _ _ _) as [cut|[i' h']]; lia.
Qed.

(** A full window decides the cut, whatever follows. *)
Lemma cut_point_prefix c a b :
  chunker_ok c -> (max_size c <= length a)%nat -> cut_point c (a ++ b) = cut_point c a.
Proof.
  intros (H0 & H1 & H2) Hl.
  assert (Hmin : Nat.min (length (a ++ b)) (max_size c) = Nat.min (length a) (max_size c))
    by (rewrite length_app; lia).
  unfold cut_point, keyed_cut_point, gear_cut_point.
  destruct (keyed c) as [k|]; cbn [b_min b_max]; rewrite Hmin.
  - destruct (Nat.leb_spec (length (a ++ b)) (min_size c)) as [Hx|Hx];
      destruct (Nat.leb_spec (length a) (min_size c)) as [Hy|Hy]; rewrite length_app in Hx.
    + rewrite length_app. lia.
    + lia.
    + replace (Nat.min (length a) (max_size c) - min_size c)%nat with 0%nat by lia.
      cbn [keyed_loop]. lia.
    + rewrite primed_prefix by lia. apply keyed_loop_prefix. lia.
  - destruct (Nat.leb_spec (length (a ++ b)) (min_size c)) as [Hx|Hx];
      destruct (Nat.leb_spec (length a) (min_size c)) as [Hy|Hy]; rewrite length_app in Hx.
    + rewrite length_app. lia.
    + lia.
    + replace (Nat.min (avg_size c) (Nat.min (length a) (max_size c)) - min_size c)%nat
        with 0%nat by lia. cbn [gear_while].
      replace (Nat.min (length a) (max_size c) - min_size c)%nat with 0%nat by lia.
      cbn [gear_while]. lia.
    + set (e := Nat.min (length a) (max_size c)). set (m := Nat.min (avg_size c) e).
      rewrite gear_while_prefix by lia.
      pose proof (gear_while_bounds (m - min_size c) (mask_strict c) a (min_size c) 0) as G1.
      destruct (gear_while (m - min_size c) _ a _ _) as [cut|[i h]]; [done|].
      rewrite gear_while_prefix by lia. done.
Qed.

Lemma split_go_fuel f g c data :
  chunker_ok c -> (length data <= f)%nat -> (length data <= g)%nat ->
  split_go f c data = split_go g c data.
Proof.
  intros Hc. revert g data. induction f as [|f IH]; intros [|g] data Hf Hg;
    destruct data as [|x data]; try done; [simpl in *; lia..|].
  cbn [split_go]. f_equal.
  destruct (cut_point_bounds c (x :: data) Hc) as [[Hp _] _]; [done|].
  apply IH; rewrite length_drop; simpl in *; lia.
Qed.

(** Splitting takes one cut and splits the rest. *)
Lemma split_unfold c data :
  chunker_ok c -> data <> [] ->
  split c data = take (cut_point c data) data :: split c (drop (cut_point c data) data).
Proof.
  intros Hc Hd. destruct data as [|x data]; [done|]. unfold split.
  destruct (cut_point_bounds c (x :: data) Hc) as [[Hp _] _]; [done|].
  cbn [length split_go]. f_equal. apply split_go_fuel; [done|..]; rewrite length_drop; simpl in *; lia.
Qed.

(** Induction along the cuts of a buffer. *)
Lemma split_ind c (Q : list N -> Prop) :
  chunker_ok c -> Q [] ->
  (forall data, data <> [] -> Q (drop (cut_point c data) data) -> Q data) -> forall data, Q data.
Proof.
  intros Hc H0 Hs data. remember (length data) as n eqn:Hn. revert data Hn.
  induction n as [n IH] using lt_wf_ind. intros data ->.
  destruct data as [|x data]; [done|]. apply Hs; [done|].
  destruct (cut_point_bounds c (x :: data) Hc) as [[Hp _] _]; [done|].
  eapply IH; [|done]. rewrite length_drop. simpl in *. lia.
Qed.

Lemma split_concat c data : chunker_ok c -> mjoin (split c data) = data.
Proof.
  intros Hc. revert data. apply (split_ind c _ Hc); [done|]. intros data Hd IH.
  rewrite split_unfold by done.
  change (mjoin (?a :: ?l)) with (a ++ mjoin l). rewrite IH. apply take_drop.
Qed.

Lemma split_sizes c data :
  chunker_ok c ->
  Forall (fun ch => (0 < length ch <= max_size c)%nat) (split c data)
  /\ forall i ch, split c data !! i = Some ch -> is_Some (split c data !! S i) ->
       (min_size c <= length ch)%nat.
Proof.
  intros Hc. revert data. apply (split_ind c _ Hc); [split; [constructor|done]|].
  intros data Hd [IH1 IH2].
  destruct (cut_point_bounds c data Hc Hd) as ([Hp Hl] & Hm & Hmin).
  rewrite split_unfold by done. split.
  - constructor; [|done]. rewrite length_take. lia.
  - intros [|i] ch; simpl; [|apply IH2]. intros [= <-] Hs.
    rewrite length_take. destruct Hmin as [E|?]; [|lia].
    rewrite E, drop_all in Hs. by destruct Hs.
Qed.

Lemma refill_spec w buffer reads :
  Forall (fun r => r <> []) reads ->
  let '(buffer', reads') := refill w buffer reads in
  buffer' ++ mjoin reads' = buffer ++ mjoin reads
  /\ Forall (fun r => r <> []) reads'
  /\ ((w <= length buffer')%nat \/ reads' = []).
Proof.
  revert buffer. induction reads as [|r reads IH]; intros buffer Hr; cbn [refill].
  - destruct (Nat.leb_spec w (length buffer)); auto.
  - destruct (Nat.leb_spec w (length buffer)); [auto|].
    apply Forall_cons in Hr as [Hr Hrs]. destruct r as [|x r]; [done|].
    specialize (IH (buffer ++ x :: r) Hrs). destruct (refill _ _ _) as [b' r'].
    destruct IH as (E & F & G). split_and!; [|done|done].
    rewrite E, <- app_assoc. done.
Qed.

Lemma stream_go_split fuel c buffer reads :
  chunker_ok c -> Forall (fun r => r <> []) reads ->
  (length (buffer ++ mjoin reads) < fuel)%nat ->
  stream_go fuel c buffer reads = split c (buffer ++ mjoin reads).
Proof.
  intros Hc. revert buffer reads. induction fuel as [|fuel IH]; intros buffer reads Hr Hf; [lia|].
  cbn [stream_go]. pose proof (refill_spec (max_size c) buffer reads Hr) as Hs.
  destruct (refill _ _ _) as [b' r']. destruct Hs as (E & F & G). rewrite <- E in *. clear E.
  destruct b' as [|x b'].
  - destruct G as [G| ->]; [|done]. destruct Hc. simpl in G. lia.
  - set (buf := x :: b') in *.
    assert (Hcut : cut_point c (buf ++ mjoin r') = cut_point c buf).
    { destruct G as [G| ->]; [by apply cut_point_prefix|by rewrite app_nil_r]. }
    destruct (cut_point_bounds c buf Hc) as [[Hp Hle] _]; [done|].
    rewrite split_unfold, Hcut by (try done; by subst buf).
    rewrite take_app_le, drop_app_le by done. f_equal.
    apply IH; [done|]. rewrite !length_app in *. rewrite length_drop. lia.
Qed.

End gear_laws.

(** ** Theorems *)

Lemma chunker_new_ok min avg max c : chunker_new min avg max = Ok c -> chunker_ok c.
Proof.
  unfold chunker_new. destruct (Nat.eqb_spec min 0); [done|].
  destruct (Nat.leb_spec min avg); [|done]. destruct (Nat.leb_spec avg max); [|done].
  simpl. intros [= <-]. split_and!; simpl; lia.
Qed.

Lemma split_stream_split `{!Primitives} c reads :
  chunker_ok c -> Forall (fun r => r <> []) reads ->
  split_stream c reads = split c (mjoin reads).
Proof. intros Hc Hr. apply stream_go_split; [done|done|]. simpl. lia. Qed.

(** C35. The streaming splitter cuts exactly where the in-memory one does,
    however the reader delivers the bytes (any non-empty reads), for every
    configuration [ChunkerConfig::new] accepts and with or without a key: a
    file imported by one path deduplicates against the other. *)
Theorem streaming_equals_slicing `{!Primitives} (c : ChunkerConfig) (reads : list (list N)) :
  chunker_ok c -> Forall (fun r => r <> []) reads ->
  split_stream c reads = split c (mjoin reads).
Proof. apply split_stream_split. Qed.

(** The chunks of a buffer put together are the buffer, none is empty or
    longer than the maximum, and only the last may be shorter than the
    minimum. *)
Theorem split_partitions `{!Primitives} (c : ChunkerConfig) (data : list N) :
  chunker_ok c ->
  mjoin (split c data) = data
  /\ Forall (fun ch => (0 < length ch <= max_size c)%nat) (split c data)
  /\ (forall i ch, split c data !! i = Some ch -> is_Some (split c data !! S i) ->
      (min_size c <= length ch)%nat).
Proof. intros Hc. split; [by apply split_concat|by apply split_sizes]. Qed.

(** The keyed cut, which rolls its hash one multiplication per byte, is
    the cut that hashes every 64-byte window from scratch: whether a position
    cuts depends on the window that ends there and on nothing else. *)
Theorem rolling_cut_is_window_cut (key data : list N) (b : Bounds) :
  bytes_ok data ->
  keyed_cut_point (keyed_new key) data b
  = if (length data <=? b_min b)%nat then length data
    else window_scan (keyed_new key) b data
           (Nat.min (length data) (b_max b) - b_min b) (b_min b).
Proof.
  intros Hd. unfold keyed_cut_point. destruct (Nat.leb_spec (length data) (b_min b)); [done|].
  apply keyed_loop_scan; [done|lia].
Qed.

(** The chunker's field operations are arithmetic modulo 2^61 - 1: the
    folded product of two elements is their product, and the square-and-
    multiply loop computes the power, for every 32-bit exponent. *)
Theorem field_is_mod_p (a b e : N) :
  a < Field.P -> b < Field.P -> e < 2 ^ 32 ->
  Field.mul a b = (a * b) mod Field.P /\ Field.add a b = (a + b) mod Field.P
  /\ Field.pow a e = a ^ e mod Field.P.
Proof.
  intros Ha Hb He.
  split_and!; [by apply Field.mul_mod|by apply Field.add_mod|by apply Field.pow_mod].
Qed.

Import Toy.

(** [n] consecutive byte values. *)
Definition count_up (from n : nat) : list N := N.of_nat <$> seq from n.

Definition small_chunker : ChunkerConfig := with_key (mkChunker 2 4 6 0x3 0x1 None) (count_up 1 32).

Lemma streaming_equals_slicing_witness :
  split_stream small_chunker [[1; 2; 3]; [4]; [5; 6; 7; 8; 9; 10; 11]]
  = split small_chunker [1; 2; 3; 4; 5; 6; 7; 8; 9; 10; 11].
Proof.
  apply (streaming_equals_slicing small_chunker [[1; 2; 3]; [4]; [5; 6; 7; 8; 9; 10; 11]]).
  - split_and!; apply Nat.leb_le; reflexivity.
  - repeat constructor; discriminate.
Defined.

Lemma split_partitions_witness :
  mjoin (split small_chunker [1; 2; 3; 4; 5; 6; 7]) = [1; 2; 3; 4; 5; 6; 7].
Proof.
  refine (proj1 (split_partitions small_chunker [1; 2; 3; 4; 5; 6; 7] _)).
  split_and!; apply Nat.leb_le; reflexivity.
Defined.

Lemma rolling_cut_is_window_cut_witness :
  keyed_cut_point (keyed_new (count_up 1 32)) (count_up 1 100) (mkBounds 66 80 90 0xff 0xf)
  = window_scan (keyed_new (count_up 1 32)) (mkBounds 66 80 90 0xff 0xf) (count_up 1 100) 24 66.
Proof.
  etransitivity; [apply (rolling_cut_is_window_cut (count_up 1 32) (count_up 1 100)
                           (mkBounds 66 80 90 0xff 0xf))|vm_compute; reflexivity].
  apply (bool_decide_eq_true_1 (Forall (fun b => b < 256) (count_up 1 100))). vm_compute. reflexivity.
Defined.

Lemma field_is_mod_p_witness : Field.mul (Field.P - 1) 3 = ((Field.P - 1) * 3) mod Field.P.
Proof. refine (proj1 (field_is_mod_p (Field.P - 1) 3 0 _ _ _)); vm_compute; reflexivity. Defined.
