(* ===== verification/Blob.v ===== *)
(** * Blob: sealed bytes by address

    Models [crates/itsanas-store/src/blob.rs] as the map from address to sealed
    bytes it is, whatever the layout on disk: [put] never overwrites, [remove]
    is idempotent, a size is the stored file's.  The directory fan-out, the
    staging files and the pack layout behind the same operations are not
    modelled. *)

From S2P Require Import Prelude Version Ids.

Definition blob_put (address : ChunkId) (sealed : list N) (b : gmap ChunkId (list N))
  : bool * gmap ChunkId (list N) :=
  match b !! address with
  | Some _ => (false, b)
  | None => (true, <[address := sealed]> b)
  end.
Definition blob_get (address : ChunkId) (b : gmap ChunkId (list N)) : option (list N) := b !! address.
Definition blob_contains (address : ChunkId) (b : gmap ChunkId (list N)) : bool :=
  bool_decide (is_Some (b !! address)).
Definition blob_remove (address : ChunkId) (b : gmap ChunkId (list N))
  : bool * gmap ChunkId (list N) :=
  (blob_contains address b, delete address b).
Definition blob_size_of (address : ChunkId) (b : gmap ChunkId (list N)) : option N :=
  (fun s => N.of_nat (length s)) <$> b !! address.
Definition blob_addresses (b : gmap ChunkId (list N)) : list ChunkId := btree_keys b.

(** [total_bytes]: the sizes of every blob. *)
Definition blob_total (b : gmap ChunkId (list N)) : N :=
  foldl (fun total a => sat_add total (default 0 (blob_size_of a b))) 0 (blob_addresses b).
