(* ===== verification/IndexState.v ===== *)
(** * IndexState: the tables of the local index

    Models the database of [crates/itsanas-store/src/index.rs]: one field per
    [redb] table or [META] scalar, grouped by what they are about (files and
    chunk references, the operation log, the ledger of holders, placement's
    queue, the uptime rings).  The database itself is third-party; what the source relies on is
    that a table is an ordered map and that a transaction is atomic, so a table
    is a [gmap] read in key order and an operation that commits is one function
    on the whole record.  Values are kept decoded: postcard is third-party.

    Keys that are concatenations of fixed-width byte strings are kept as tuples;
    the byte order of the concatenation is the lexicographic order of the
    tuple, which [holder_key_order] and [holding_key_order] of [Ledger] prove. *)

From S2P Require Import Prelude Version Ids Uptime Path Crypto Oplog.

(** What this device last saw on disk at a path. *)
Record LocalState := mkLocal {
  ls_size : N;
  ls_modified_unix : N;
  ls_content_hash : N;
}.

#[export] Instance LocalState_eq_dec : EqDecision LocalState.
Proof. solve_decision. Defined.

(** A peer's audit history. *)
Record Reliability := mkReliability {
  consecutive_failures : N;
  passed : N;
  failed : N;
  last_failure_unix : N;
  paused : bool;
}.

#[export] Instance Reliability_eq_dec : EqDecision Reliability.
Proof. solve_decision. Defined.

(** [Reliability::default()] *)
Definition Reliability_default : Reliability := mkReliability 0 0 0 0 false.

(** [FILES], [CHUNK_REFS], [UNREFERENCED], [TOMBSTONES], [LOCAL], [LOSSES] and
    the in-memory total [local_bytes]. *)
Record FileTables := mkFT {
  files : gmap string FileEntry;
  chunk_refs : gmap ChunkId N;
  unreferenced : gmap ChunkId N;
  tombstones : gmap string Tombstone;
  local_state : gmap string LocalState;
  losses : gmap ChunkId N;
  byte_total : option N;
}.

(** [SEGMENTS], [PENDING], the log's scalars in [META] and [APPLIED]. *)
Record LogTables := mkLT {
  segments : gmap N SegmentEnvelope;
  pending : gmap N LogEntry;
  meta_next_sequence : N;
  meta_head_segment : option ObjectId;
  meta_chain_length : N;
  applied : gmap DeviceId ObjectId;
}.

(** [HOLDERS], [HOLDINGS], [HOLDER_COUNTS] and the per-device tables. *)
Record Ledger := mkLedger {
  holders : gmap (ChunkId * DeviceId) N;
  holdings : gmap (DeviceId * (N * ChunkId)) N;
  holder_counts : gmap DeviceId N;
  device_seen : gmap DeviceId N;
  ledger_refreshed : gmap DeviceId N;
  peer_full : gmap DeviceId N;
  draining_until : gmap DeviceId N;
  roster : gmap DeviceId N;
  reliability_table : gmap DeviceId Reliability;
  probes : gmap DeviceId ChunkId;
  device_passed : gmap DeviceId N;
  released : gmap (ChunkId * DeviceId) N;
}.

(** [SHORT_SINCE], whether it may grow, and the census cursor. *)
Record Queue := mkQueue {
  short_since : gmap ChunkId N;
  armed : bool;
  census_cursor : option ChunkId;
}.

(** [DEVICE_UPTIME], [DEVICE_NETWORK] (raw rows) and the node clock's scalars. *)
Record Rings := mkRings {
  device_uptime : gmap DeviceId Uptime;
  device_network : gmap DeviceId (list N);
  latest_hour : N;
  pending_jump : N;
}.

Record Index := mkIndex {
  ft : FileTables;
  lt : LogTables;
  led : Ledger;
  pq : Queue;
  rg : Rings;
}.

Definition on_ft (f : FileTables -> FileTables) (ix : Index) : Index :=
  mkIndex (f (ft ix)) (lt ix) (led ix) (pq ix) (rg ix).
Definition on_lt (f : LogTables -> LogTables) (ix : Index) : Index :=
  mkIndex (ft ix) (f (lt ix)) (led ix) (pq ix) (rg ix).
Definition on_led (f : Ledger -> Ledger) (ix : Index) : Index :=
  mkIndex (ft ix) (lt ix) (f (led ix)) (pq ix) (rg ix).
Definition on_pq (f : Queue -> Queue) (ix : Index) : Index :=
  mkIndex (ft ix) (lt ix) (led ix) (f (pq ix)) (rg ix).

Definition on_rg (f : Rings -> Rings) (ix : Index) : Index :=
  mkIndex (ft ix) (lt ix) (led ix) (pq ix) (f (rg ix)).

(** A store whose tables have just been created. *)
Definition empty_index : Index :=
  mkIndex (mkFT ∅ ∅ ∅ ∅ ∅ ∅ None) (mkLT ∅ ∅ 0 None 0 ∅)
    (mkLedger ∅ ∅ ∅ ∅ ∅ ∅ ∅ ∅ ∅ ∅ ∅ ∅) (mkQueue ∅ false None) (mkRings ∅ ∅ 0 0).

(** Replacing one table of a group. *)
Definition set_losses (m : gmap ChunkId N) (t : FileTables) : FileTables :=
  mkFT (files t) (chunk_refs t) (unreferenced t) (tombstones t) (local_state t) m (byte_total t).
Definition set_local_state (m : gmap string LocalState) (t : FileTables) : FileTables :=
  mkFT (files t) (chunk_refs t) (unreferenced t) (tombstones t) m (losses t) (byte_total t).
Definition set_tombstones (m : gmap string Tombstone) (t : FileTables) : FileTables :=
  mkFT (files t) (chunk_refs t) (unreferenced t) m (local_state t) (losses t) (byte_total t).
Definition set_byte_total (b : option N) (t : FileTables) : FileTables :=
  mkFT (files t) (chunk_refs t) (unreferenced t) (tombstones t) (local_state t) (losses t) b.
Definition set_refs (r u : gmap ChunkId N) (t : FileTables) : FileTables :=
  mkFT (files t) r u (tombstones t) (local_state t) (losses t) (byte_total t).
Definition set_short (m : gmap ChunkId N) (q : Queue) : Queue :=
  mkQueue m (armed q) (census_cursor q).

(** ** Reading a table in key order *)

(** [table.range(start..)] for keys that are one number. *)
Definition range_from {V} (start : N) (m : gmap N V) : list (N * V) :=
  filter (fun p => start <= p.1) (btree_iter m).

Lemma elem_of_range_from {V} (start : N) (m : gmap N V) k v :
  (k, v) ∈ range_from start m <-> start <= k /\ m !! k = Some v.
Proof. unfold range_from. by rewrite list_elem_of_filter, elem_of_btree_iter. Qed.

(** [key_le] on pairs of keys: the order of the concatenated bytes. *)
Section prod.
Context {K1 K2 : Type} `{!EqDecision K1, O1 : !KeyOrd K1, O2 : !KeyOrd K2}.

Definition pair_le (p q : K1 * K2) : Prop :=
  (key_le p.1 q.1 /\ p.1 <> q.1) \/ (p.1 = q.1 /\ key_le p.2 q.2).

#[local] Instance pair_le_dec : RelDecision pair_le.
Proof. intros p q. unfold pair_le. apply _. Defined.

#[local] Instance pair_le_total : Total pair_le.
Proof.
  intros [a b] [c d]; unfold pair_le; simpl. destruct (decide (a = c)) as [->|Hne].
  - destruct (key_le_total (KeyOrd := O2) b d); [left|right]; right; auto.
  - destruct (key_le_total (KeyOrd := O1) a c); [left|right]; left; auto.
Qed.

#[local] Instance pair_le_trans : Transitive pair_le.
Proof.
  intros [a b] [c d] [e f]; unfold pair_le; simpl.
  intros [[H1 H2]|[-> H1]] [[H3 H4]|[<- H3]]; auto.
  - left. split; [by etrans|]. intros ->. apply H2. by apply (key_le_antisym (KeyOrd := O1)).
  - right. split; [done|]. by etrans.
Qed.

#[local] Instance pair_le_antisym : AntiSymm (=) pair_le.
Proof.
  intros [a b] [c d]; unfold pair_le; simpl.
  intros [[H1 H2]|[-> H1]] [[H3 H4]|[H5 H3]]; try congruence.
  - destruct H2. by apply (key_le_antisym (KeyOrd := O1)).
  - f_equal. by apply (key_le_antisym (KeyOrd := O2)).
Qed.

#[export] Instance KeyOrd_prod : KeyOrd (K1 * K2) := {| key_le := pair_le |}.

End prod.
