(* ===== verification/Repair.v ===== *)
(** * Repair: planning what to send where

    Models [crates/itsanas-placement/src/repair.rs].  The plan never deletes: its
    pushes are exactly the missing, reachable replicas; a chunk it does not
    report will be held by enough distinct nodes; and [plan] reports some chunks
    that will be, because it takes the larger of two counts where its comment
    speaks of the nodes in either ([at_risk_overcounts]). *)

From S2P Require Import Prelude Version Ids Crypto Nodeset IndexState.

Definition DEFAULT_REPLICATION_FLOOR : nat := 3.

(** [BTreeMap<ChunkId, BTreeSet<DeviceId>>] *)
Record Census := mkCensus { census_holders : gmap N (gset N) }.

Definition census_new : Census := mkCensus ∅.

Definition observe (chunk device : N) (c : Census) : Census :=
  mkCensus (<[chunk := {[ device ]} ∪ default ∅ (census_holders c !! chunk)]> (census_holders c)).

(** [note]: the chunk exists, whoever holds it. *)
Definition note_chunk (chunk : N) (c : Census) : Census :=
  mkCensus (<[chunk := default ∅ (census_holders c !! chunk)]> (census_holders c)).

Definition holders_of (c : Census) (chunk : N) : gset N := default ∅ (census_holders c !! chunk).
Definition copies (c : Census) (chunk : N) : nat := size (holders_of c chunk).
Definition census_chunks (c : Census) : list N := btree_keys (census_holders c).

Record Push := mkPush { push_chunk : N; push_to : N }.
Record AtRisk := mkAtRisk { risk_chunk : N; held_by : nat; risk_floor : nat }.
Record RepairPlan := mkRepair { pushes : list Push; at_risk : list AtRisk }.

#[export] Instance Push_eq_dec : EqDecision Push.
Proof. solve_decision. Defined.

Definition repair_is_empty (p : RepairPlan) : bool :=
  bool_decide (pushes p = []) && match at_risk p with [] => true | _ => false end.
Definition has_critical (p : RepairPlan) : bool := existsb (fun r => (held_by r <=? 1)%nat) (at_risk p).

(** The derived order: the chunk, then the node. *)
Definition push_le (a b : Push) : Prop :=
  push_chunk a < push_chunk b \/ (push_chunk a = push_chunk b /\ push_to a <= push_to b).

#[export] Instance push_le_dec : RelDecision push_le.
Proof. intros a b. unfold push_le. apply _. Defined.
#[export] Instance push_le_total : Total push_le.
Proof. intros a b. unfold push_le. lia. Qed.
#[export] Instance push_le_trans : Transitive push_le.
Proof. intros a b c. unfold push_le. lia. Qed.

Section plan.
Context `{!Primitives} (swarm : NodeSet) (owner : N) (census : Census) (floor : nat) (available : gset N).

Definition chunk_pushes (chunk : N) : list Push :=
  let holders := holders_of census chunk in
  mkPush chunk <$> filter (fun t => (t ∉ holders) /\ t ∈ available) (replicas_for swarm owner chunk floor).

Definition eventual (chunk : N) : nat :=
  let holders := holders_of census chunk in
  let targets := replicas_for swarm owner chunk floor in
  let reachable_targets := length (filter (fun t => t ∈ available \/ t ∈ holders) targets) in
  let held := length (filter (fun h => h ∈ (sn_device <$> nodes swarm)) (elements holders)) in
  held `max` reachable_targets.

Definition chunk_risk (chunk : N) : list AtRisk :=
  if (eventual chunk <? floor)%nat then [mkAtRisk chunk (copies census chunk) floor] else [].

Definition plan : RepairPlan :=
  mkRepair (merge_sort push_le (census_chunks census ≫= chunk_pushes))
    (census_chunks census ≫= chunk_risk).

(** The nodes of the swarm that hold the chunk once the pushes are done. *)
Definition will_hold (chunk : N) : gset N :=
  filter (fun d => d ∈ (sn_device <$> nodes swarm))
    (holders_of census chunk ∪ list_to_set (push_to <$> filter (fun p => push_chunk p = chunk) (pushes plan))).

Lemma elem_of_pushes c d :
  mkPush c d ∈ pushes plan <->
  is_Some (census_holders census !! c) /\ d ∈ replicas_for swarm owner c floor
  /\ (d ∉ holders_of census c) /\ d ∈ available.
Proof.
  cbn [plan pushes]. rewrite merge_sort_Permutation, list_elem_of_bind. unfold chunk_pushes, census_chunks.
  setoid_rewrite elem_of_btree_keys. setoid_rewrite list_elem_of_fmap. setoid_rewrite list_elem_of_filter.
  split; [naive_solver|]. intros (H1 & H2 & H3 & H4). exists c. split; [|done]. exists d. tauto.
Qed.

Lemma elem_of_will_hold c d :
  is_Some (census_holders census !! c) ->
  d ∈ will_hold c <->
  d ∈ (sn_device <$> nodes swarm)
  /\ (d ∈ holders_of census c \/ (d ∈ replicas_for swarm owner c floor /\ d ∈ available)).
Proof.
  intros Hc. unfold will_hold. rewrite elem_of_filter, elem_of_union, elem_of_list_to_set. split.
  - intros [Hn [Hh|([c' d'] & -> & [<- Hp%elem_of_pushes]%list_elem_of_filter)%list_elem_of_fmap]];
      [tauto|]. cbn in *. tauto.
  - intros [Hn Hd]. split; [done|]. destruct (decide (d ∈ holders_of census c)) as [|Hno]; [by left|right].
    apply list_elem_of_fmap. exists (mkPush c d). split; [done|]. apply list_elem_of_filter. split; [done|].
    apply elem_of_pushes. tauto.
Qed.

Lemma eventual_le_will_hold l c :
  NodeSet_new l = Ok swarm -> is_Some (census_holders census !! c) ->
  (eventual c <= size (will_hold c))%nat.
Proof.
  intros Hs Hc. destruct (NodeSet_new_wf _ _ Hs) as (Hwf & Hp & _).
  destruct (replicas_are_the_best l swarm owner c floor Hs) as (Hnd & _ & Hsub & _).
  assert (Hgo : forall xs : list N, NoDup xs -> (forall d, d ∈ xs -> d ∈ will_hold c) ->
    (length xs <= size (will_hold c))%nat).
  { intros xs Hn Hin. rewrite <- (size_list_to_set (C := gset N) xs Hn). apply subseteq_size.
    intros d Hd%elem_of_list_to_set. auto. }
  apply Nat.max_lub; apply Hgo.
  - apply NoDup_filter, NoDup_elements.
  - intros d [Hd Hh%elem_of_elements]%list_elem_of_filter. apply elem_of_will_hold; tauto.
  - by apply NoDup_filter.
  - intros d [Hd Ht]%list_elem_of_filter. apply elem_of_will_hold; [done|].
    split; [rewrite Hp; by apply Hsub|tauto].
Qed.

End plan.

(** A repair plan sends exactly the missing replicas that can be reached, in
    one order, and a chunk of the census it does not report will be held by at
    least the floor's number of distinct nodes of the swarm. *)
Theorem repair_plan_is_sound `{!Primitives} (l : list StorageNode) (swarm : NodeSet)
    (owner : N) (census : Census) (floor : nat) (available : gset N) :
  NodeSet_new l = Ok swarm ->
  let p := plan swarm owner census floor available in
  Sorted push_le (pushes p)
  /\ (forall c d, mkPush c d ∈ pushes p <->
        is_Some (census_holders census !! c) /\ d ∈ replicas_for swarm owner c floor
        /\ (d ∉ holders_of census c) /\ d ∈ available)
  /\ (forall c, is_Some (census_holders census !! c) ->
        c ∉ risk_chunk <$> at_risk p ->
        (floor <= size (will_hold swarm owner census floor available c))%nat).
Proof.
  intros Hs. cbn zeta. split_and!.
  - apply Sorted_merge_sort, _.
  - intros c d. apply elem_of_pushes.
  - intros c Hc Hno. etransitivity; [|by eapply eventual_le_will_hold].
    apply Nat.nlt_ge. intros Hlt. apply Hno. apply list_elem_of_fmap.
    exists (mkAtRisk c (copies census c) floor). split; [done|]. cbn [plan at_risk].
    apply list_elem_of_bind. exists c. split; [|by apply elem_of_btree_keys].
    unfold chunk_risk. rewrite (proj2 (Nat.ltb_lt _ _) Hlt). by apply list_elem_of_singleton.
Qed.

(** In every swarm larger than the floor there are reports for chunks that will
    have enough copies: the replica ranked last asleep, the others reachable and
    a copy on a node that is no replica make as many distinct holders as the
    floor asks for, and the chunk is reported as short all the same. *)
Theorem at_risk_overcounts `{!Primitives} (l : list StorageNode) (swarm : NodeSet)
    (owner chunk : N) (floor : nat) :
  NodeSet_new l = Ok swarm -> (2 <= floor < length l)%nat ->
  exists census available,
    size (will_hold swarm owner census floor available chunk) = floor
    /\ chunk ∈ risk_chunk <$> at_risk (plan swarm owner census floor available).
Proof.
  intros Hs Hf. destruct (NodeSet_new_wf _ _ Hs) as (Hwf & Hp & _).
  destruct (replicas_are_the_best l swarm owner chunk floor Hs) as (Hnd & Hlen & Hsub & _).
  rewrite Nat.min_l in Hlen by lia.
  set (r := replicas_for swarm owner chunk floor) in *.
  assert (exists x, x ∈ (sn_device <$> nodes swarm) /\ x ∉ r) as (x & Hx & Hxr).
  { pose proof (preference_perm swarm owner chunk (wf_slots_length _ Hwf)) as Hpp.
    pose proof (preference_NoDup swarm owner chunk Hwf) as Hpn.
    destruct (lookup_lt_is_Some_2 (preference swarm owner chunk) floor) as [x Hx].
    { rewrite Hpp, length_fmap, Hp. lia. }
    exists x. split; [rewrite <- Hpp; by eapply list_elem_of_lookup_2|].
    unfold r. rewrite replicas_preference. intros [k [Hk Hlt]%lookup_take_Some]%list_elem_of_lookup_1.
    assert (k = floor) by by eapply NoDup_lookup. lia. }
  destruct (last r) as [z|] eqn:Hz; [|apply last_None in Hz; rewrite Hz in Hlen; cbn in Hlen; lia].
  apply last_Some in Hz as [r' Er]. rewrite Er in Hnd, Hxr, Hlen. rewrite length_app in Hlen. cbn in Hlen.
  apply NoDup_app in Hnd as (Hn' & Hz & _).
  set (census := mkCensus {[ chunk := {[ x ]} ]}). set (available := list_to_set r' : gset N).
  assert (Hh : holders_of census chunk = {[ x ]}).
  { unfold holders_of, census. cbn. by rewrite lookup_singleton_eq. }
  assert (Hin : is_Some (census_holders census !! chunk)) by (cbn; rewrite lookup_singleton_eq; eauto).
  exists census, available. split.
  - assert (will_hold swarm owner census floor available chunk = {[ x ]} ∪ list_to_set r') as ->.
    { apply set_eq. intros d. rewrite elem_of_will_hold by done. fold r. rewrite Hh, Er.
      rewrite elem_of_union, elem_of_app, !elem_of_singleton. unfold available. rewrite elem_of_list_to_set.
      split; [tauto|]. intros [->|Hd]; [tauto|]. split; [|tauto].
      rewrite Hp. apply Hsub. rewrite Er. set_solver. }
    rewrite size_union by set_solver. rewrite size_singleton, size_list_to_set by done. lia.
  - apply list_elem_of_fmap. exists (mkAtRisk chunk (copies census chunk) floor). split; [done|].
    cbn [plan at_risk]. apply list_elem_of_bind. exists chunk. split; [|by apply elem_of_btree_keys].
    unfold chunk_risk. rewrite (proj2 (Nat.ltb_lt _ _)); [by apply list_elem_of_singleton|].
    unfold eventual. fold r. rewrite Hh, Er, elements_singleton.
    rewrite (filter_cons_True _ x) by done. rewrite filter_nil.
    assert (filter (fun t => t ∈ available \/ t ∈ ({[ x ]} : gset N)) (r' ++ [z])
            = filter (fun t => t ∈ r') (r' ++ [z])) as ->.
    { apply list_filter_local. intros t Ht. unfold available. rewrite elem_of_list_to_set, elem_of_singleton.
      split; [|tauto]. intros [?| ->]; [done|]. by destruct Hxr. }
    pose proof (length_filter_lt (fun t => t ∈ r') (r' ++ [z]) z) as Hlt.
    rewrite length_app in Hlt. cbn [length] in Hlt |- *.
    assert (z ∉ r') by (intros ?; by apply (Hz z); [|apply list_elem_of_singleton]).
    specialize (Hlt ltac:(set_solver) ltac:(done)). lia.
Qed.

(** *** Witnesses *)

Import Toy.

Definition five_nodes : list StorageNode := (fun i => mkNode i (50 + i) 100) <$> [1; 2; 3; 4; 5].

Definition five_swarm : NodeSet :=
  match NodeSet_new five_nodes with Ok s => s | Err _ => mkNodeSet [] [] end.

Lemma repair_plan_is_sound_witness :
  mkPush 77 3 ∈ pushes (plan five_swarm 1 (note_chunk 77 census_new) 3 {[ 3; 5 ]}).
Proof.
  destruct (repair_plan_is_sound five_nodes five_swarm 1 (note_chunk 77 census_new) 3 {[ 3; 5 ]})
    as (_ & H & _); [vm_compute; reflexivity|].
  apply H. vm_compute. split; [by eexists|]. split; [by right; right; left|]. split; [by inversion 1|done].
Defined.

Lemma at_risk_overcounts_witness :
  exists census available,
    size (will_hold five_swarm 1 census 3 available 77) = 3%nat
    /\ 77 ∈ risk_chunk <$> at_risk (plan five_swarm 1 census 3 available).
Proof. apply (at_risk_overcounts five_nodes five_swarm 1 77 3); [vm_compute; reflexivity|cbn; lia]. Defined.
