(* ===== verification/Summary.v ===== *)
(** * Summary: do two sides hold the same chunks?

    Models [crates/itsanas-store/src/summary.rs] and the two summaries
    [index.rs] computes from its tables.  A [blake3::Hasher] is the bytes fed to
    it so far; finalising hashes them.  Main results: an agreeing root means
    equal sets, the buckets named as differing are exactly those whose chunks
    differ, and the merge that leaves lost chunks out leaves out exactly them.
    The hash is third-party, so what a differing input gives is the hypothesis
    [no_collision] about the inputs at hand. *)

From S2P Require Import Prelude Version Ids Crypto IndexState.

Definition BUCKETS : nat := 256.
Definition SUMMARY_DOMAIN : string := "itsanas v1 chunk set summary".

Section summary.
Context `{!Primitives}.

(** [bucket_hasher] *)
Definition bucket_hasher (bucket : N) : list N := bytes_of_string SUMMARY_DOMAIN ++ [bucket].

Definition bucket_of (chunk : ChunkId) : N := nth 0 (as_bytes chunk) 0.
Definition in_bucket (chunk : ChunkId) (bucket : N) : bool := bucket_of chunk =? bucket.

Definition feed (hashers : list (list N)) (chunk : ChunkId) : list (list N) :=
  alter (fun h => h ++ as_bytes chunk) (N.to_nat (bucket_of chunk)) hashers.

Definition buckets (chunks : list ChunkId) : list (list N) :=
  blake3_hash <$> foldl feed ((fun b => bucket_hasher (N.of_nat b)) <$> seq 0 BUCKETS) chunks.

Definition bucket_digest (bucket : N) (chunks : list ChunkId) : list N :=
  blake3_hash (foldl (fun h c => h ++ as_bytes c) (bucket_hasher bucket)
                 (filter (fun c => in_bucket c bucket = true) chunks)).

Definition summary_root (digests : list (list N)) : list N :=
  blake3_hash (foldl (fun h d => h ++ d) (bytes_of_string SUMMARY_DOMAIN ++ bytes_of_string "root") digests).

Definition differing (ours theirs : list (list N)) : list N :=
  if decide (length ours = length theirs)
  then omap (fun p : nat * (list N * list N) =>
               if decide (p.2.1 = p.2.2) then None
               else if (p.1 <=? 255)%nat then Some (N.of_nat p.1) else None)
         (imap (fun i p => (i, p)) (zip ours theirs))
  else N.of_nat <$> seq 0 256.

(** ** The index's summaries *)

(** The [while let Some(next) = lost.peek()] loop. *)
Fixpoint advance_losses (chunk : ChunkId) (lost : list ChunkId) : list ChunkId :=
  match lost with
  | k :: rest => if k <? chunk then advance_losses chunk rest else lost
  | [] => []
  end.

Fixpoint held_rows (refs lost : list ChunkId) : list ChunkId :=
  match refs with
  | [] => []
  | chunk :: refs =>
      let lost := advance_losses chunk lost in
      let is_lost := match lost with k :: _ => k =? chunk | [] => false end in
      if is_lost then held_rows refs lost else chunk :: held_rows refs lost
  end.

Definition chunk_summary (ix : Index) : list (list N) := buckets (btree_keys (chunk_refs (ft ix))).

Definition held_summary (ix : Index) : list (list N) :=
  buckets (held_rows (btree_keys (chunk_refs (ft ix))) (btree_keys (losses (ft ix)))).

(** ** Lemmas *)

(** What a bucket hashes. *)
Definition bucket_input (bucket : N) (chunks : list ChunkId) : list N :=
  bucket_hasher bucket ++ mjoin (as_bytes <$> filter (fun c => in_bucket c bucket = true) chunks).

Lemma foldl_app_bytes {A} (f : A -> list N) (h : list N) (l : list A) :
  foldl (fun h c => h ++ f c) h l = h ++ mjoin (f <$> l).
Proof.
  revert h. induction l as [|c l IH]; intros h; cbn; [by rewrite app_nil_r|]. by rewrite IH, app_assoc.
Qed.

Lemma bucket_digest_input bucket chunks : bucket_digest bucket chunks = blake3_hash (bucket_input bucket chunks).
Proof. unfold bucket_digest. by rewrite foldl_app_bytes. Qed.

Lemma feed_lookup hashers chunk i :
  feed hashers chunk !! i
  = (fun h => if in_bucket chunk (N.of_nat i) then h ++ as_bytes chunk else h) <$> hashers !! i.
Proof.
  unfold feed, in_bucket. destruct (N.eqb_spec (bucket_of chunk) (N.of_nat i)) as [E|E].
  - rewrite E, Nat2N.id. by rewrite list_lookup_alter_eq.
  - rewrite list_lookup_alter_ne by lia. by destruct (hashers !! i).
Qed.

Lemma feed_all_lookup chunks hashers i :
  foldl feed hashers chunks !! i
  = (fun h => h ++ mjoin (as_bytes <$> filter (fun c => in_bucket c (N.of_nat i) = true) chunks))
      <$> hashers !! i.
Proof.
  revert hashers. induction chunks as [|c l IH]; intros hashers; cbn [foldl].
  { destruct (hashers !! i); cbn; [by rewrite app_nil_r|done]. }
  rewrite IH, feed_lookup, filter_cons. destruct (hashers !! i) as [h|]; [|done].
  cbn [fmap option_fmap option_map]. f_equal.
  destruct (in_bucket c (N.of_nat i)); [rewrite decide_True|rewrite decide_False]; try done.
  rewrite fmap_cons. by rewrite <- app_assoc.
Qed.

Lemma buckets_lookup chunks i :
  buckets chunks !! i = if decide (i < BUCKETS)%nat
                        then Some (blake3_hash (bucket_input (N.of_nat i) chunks)) else None.
Proof.
  unfold buckets. rewrite list_lookup_fmap, feed_all_lookup, list_lookup_fmap.
  case_decide as Hi; [by rewrite lookup_seq_lt by done|].
  rewrite lookup_seq_ge by lia. done.
Qed.

Lemma length_buckets chunks : length (buckets chunks) = BUCKETS.
Proof.
  unfold buckets. rewrite length_fmap.
  assert (forall hs, length (foldl feed hs chunks) = length hs) as ->.
  { induction chunks as [|c l IH]; intros hs; cbn; [done|]. rewrite IH. apply length_alter. }
  by rewrite length_fmap, length_seq.
Qed.

Lemma elem_of_differing a b i :
  length a = BUCKETS -> length b = BUCKETS ->
  i ∈ differing a b <-> exists j, i = N.of_nat j /\ (j < BUCKETS)%nat /\ a !! j <> b !! j.
Proof.
  intros Ha Hb. unfold differing. rewrite decide_True by congruence. rewrite list_elem_of_omap. split.
  - intros ([j [x y]] & Hin & E). apply elem_of_lookup_imap in Hin as (k & p & [= -> <-] & Hk).
    cbn [fst snd] in E. apply lookup_zip_Some in Hk as [Hx Hy]. destruct (decide (x = y)); [done|].
    exists k. pose proof (lookup_lt_Some _ _ _ Hx). rewrite Hx, Hy.
    destruct (k <=? 255)%nat; [|done]. injection E as <-. split_and!; [done|lia|congruence].
  - intros (j & -> & Hj & Hne).
    destruct (lookup_lt_is_Some_2 a j) as [x Hx]; [lia|]. destruct (lookup_lt_is_Some_2 b j) as [y Hy]; [lia|].
    exists (j, (x, y)). split.
    + apply elem_of_lookup_imap. exists j, (x, y). split; [done|]. by apply lookup_zip_Some.
    + cbn [fst snd]. rewrite decide_False by congruence. unfold BUCKETS in Hj.
      by rewrite (proj2 (Nat.leb_le _ _)) by lia.
Qed.

End summary.

Section theorems.
Context `{!Primitives}.

(** The hash does not collide on these two inputs. *)
Definition no_collision (x y : list N) : Prop := blake3_hash x = blake3_hash y -> x = y.

Lemma join_ids_inj (a b : list ChunkId) :
  (forall c, c ∈ a ++ b -> is_id c) -> mjoin (as_bytes <$> a) = mjoin (as_bytes <$> b) -> a = b.
Proof.
  revert b. induction a as [|x a IH]; intros [|y b] Hid E.
  - done.
  - exfalso. apply (f_equal length) in E. rewrite fmap_cons in E.
    cbn [mjoin list_join] in E. rewrite length_app, length_as_bytes in E. cbn in E. lia.
  - exfalso. apply (f_equal length) in E. rewrite fmap_cons in E.
    cbn [mjoin list_join] in E. rewrite length_app, length_as_bytes in E. cbn in E. lia.
  - rewrite !fmap_cons in E. cbn [mjoin list_join] in E.
    apply app_inj_length in E as [E1 E2]; [|by autorewrite with its].
    apply as_bytes_inj in E1; [|apply Hid; set_solver..]. subst y. f_equal. apply IH; [|done].
    intros c Hc. apply Hid. set_solver.
Qed.

Lemma bucket_input_inj bucket a b :
  (forall c, c ∈ a ++ b -> is_id c) -> bucket_input bucket a = bucket_input bucket b ->
  filter (fun c => in_bucket c bucket = true) a = filter (fun c => in_bucket c bucket = true) b.
Proof.
  intros Hid E%app_inv_head. apply join_ids_inj; [|done].
  intros c [[_ Hc]%list_elem_of_filter|[_ Hc]%list_elem_of_filter]%elem_of_app; apply Hid; set_solver.
Qed.

Lemma bucket_of_lt c : bucket_of c < 256.
Proof.
  unfold bucket_of. pose proof (as_bytes_bound c) as Hb. pose proof (length_as_bytes c) as Hl.
  destruct (as_bytes c) as [|x l]; [done|]. by apply Forall_cons in Hb as [? _].
Qed.

(** The digest of one bucket computed on its own is the one of the full
    summary, and the buckets two sides report as differing are exactly those
    in which they hold different chunks. *)
Theorem differing_is_exact (a b : list ChunkId) (bucket : N) :
  (forall c, c ∈ a ++ b -> is_id c) ->
  bucket < 256 ->
  no_collision (bucket_input bucket a) (bucket_input bucket b) ->
  buckets a !! N.to_nat bucket = Some (bucket_digest bucket a)
  /\ (bucket ∈ differing (buckets a) (buckets b) <->
        filter (fun c => in_bucket c bucket = true) a <> filter (fun c => in_bucket c bucket = true) b).
Proof.
  intros Hid Hlt Hno.
  assert (Hb : forall l, buckets l !! N.to_nat bucket = Some (blake3_hash (bucket_input bucket l))).
  { intros l. rewrite buckets_lookup, decide_True, N2Nat.id; [done|unfold BUCKETS; lia]. }
  split; [by rewrite Hb, bucket_digest_input|].
  rewrite elem_of_differing by apply length_buckets. split.
  - intros (j & -> & Hj & Hne) E. apply Hne. rewrite Nat2N.id in Hb. rewrite !Hb.
    unfold bucket_input. by rewrite E.
  - intros Hne. exists (N.to_nat bucket). rewrite N2Nat.id. split_and!; [done|unfold BUCKETS; lia|].
    rewrite !Hb. intros [= E]. apply Hne. apply bucket_input_inj; auto.
Qed.

Lemma join_digests_inj (a b : list (list N)) :
  length a = length b -> Forall (fun d => length d = 32%nat) a -> Forall (fun d => length d = 32%nat) b ->
  mjoin a = mjoin b -> a = b.
Proof.
  revert b. induction a as [|x a IH]; intros [|y b] Hl Ha Hb E; try done.
  apply Forall_cons in Ha as [Hx Ha]. apply Forall_cons in Hb as [Hy Hb].
  cbn [mjoin list_join] in E. apply app_inj_length in E as [-> E2]; [|congruence].
  f_equal. apply IH; [by injection Hl|done..].
Qed.

Lemma list_fmap_id' {A} (l : list A) : (fun x => x) <$> l = l.
Proof. apply list_fmap_id. Qed.

(** Agreeing roots mean equal sets of chunks; and equal sets always agree. *)
Lemma root_agrees `{!PrimitiveLaws} (a b : list ChunkId) :
  (forall c, c ∈ a ++ b -> is_id c) ->
  (forall bucket, bucket < 256 -> no_collision (bucket_input bucket a) (bucket_input bucket b)) ->
  no_collision (bytes_of_string SUMMARY_DOMAIN ++ bytes_of_string "root" ++ mjoin (buckets a))
               (bytes_of_string SUMMARY_DOMAIN ++ bytes_of_string "root" ++ mjoin (buckets b)) ->
  summary_root (buckets a) = summary_root (buckets b) <->
  forall bucket, filter (fun c => in_bucket c bucket = true) a = filter (fun c => in_bucket c bucket = true) b.
Proof.
  intros Hid Hno Hroot.
  assert (Hr : forall l, summary_root (buckets l)
    = blake3_hash (bytes_of_string SUMMARY_DOMAIN ++ bytes_of_string "root" ++ mjoin (buckets l))).
  { intros l. unfold summary_root. rewrite (foldl_app_bytes (fun d => d)), list_fmap_id'. by rewrite <- app_assoc. }
  rewrite !Hr. split.
  - intros E%Hroot%app_inv_head%app_inv_head bucket.
    assert (Hf : forall l, Forall (fun d => length d = 32%nat) (buckets l)).
    { intros l. apply Forall_fmap, Forall_forall. intros x _. apply blake3_hash_length. }
    apply join_digests_inj in E; [|by rewrite !length_buckets|done..].
    destruct (decide (bucket < 256)) as [Hlt|Hge].
    + apply bucket_input_inj; [done|]. apply Hno; [done|].
      pose proof (f_equal (fun l => l !! N.to_nat bucket) E) as Eb. cbn beta in Eb.
      rewrite !buckets_lookup, !decide_True, N2Nat.id in Eb by (unfold BUCKETS; lia). congruence.
    + assert (Hnone : forall l, filter (fun c => in_bucket c bucket = true) l = []).
      { intros l. destruct (filter _ l) as [|c m] eqn:Ef; [done|].
        assert (c ∈ filter (fun c => in_bucket c bucket = true) l) as Hc by (rewrite Ef; left).
        apply list_elem_of_filter in Hc as [Hc%N.eqb_eq _]. pose proof (bucket_of_lt c). lia. }
      by rewrite !Hnone.
  - intros E. assert (Eb : buckets a = buckets b).
    { apply list_eq. intros i. rewrite !buckets_lookup. case_decide; [|done]. unfold bucket_input. by rewrite E. }
    by rewrite Eb.
Qed.

End theorems.

(** ** The merge that leaves losses out *)

Lemma advance_losses_elem chunk lost c : chunk <= c -> c ∈ advance_losses chunk lost <-> c ∈ lost.
Proof.
  intros Hc. induction lost as [|k rest IH]; cbn [advance_losses]; [done|].
  destruct (N.ltb_spec k chunk); [|done]. rewrite IH, elem_of_cons. split; [tauto|].
  intros [->|]; [lia|done].
Qed.

Lemma advance_losses_sorted chunk lost :
  StronglySorted N.le lost ->
  StronglySorted N.le (advance_losses chunk lost)
  /\ forall k, k ∈ advance_losses chunk lost -> chunk <= k.
Proof.
  induction 1 as [|k rest Hs IH Hall]; cbn [advance_losses].
  { split; [constructor|]. intros k Hk. by apply not_elem_of_nil in Hk. }
  destruct (N.ltb_spec k chunk); [done|]. split; [by constructor|].
  rewrite Forall_forall in Hall. intros x [->|Hx]%elem_of_cons; [done|]. specialize (Hall x Hx). lia.
Qed.

Lemma held_rows_filter refs lost :
  StronglySorted N.le refs -> StronglySorted N.le lost ->
  held_rows refs lost = filter (fun c => c ∉ lost) refs.
Proof.
  intros Hr. revert lost. induction Hr as [|chunk refs Hs IH Hall]; intros lost Hl; [done|].
  cbn [held_rows]. destruct (advance_losses_sorted chunk lost Hl) as [Ha Hge].
  assert (Hrest : held_rows refs (advance_losses chunk lost) = filter (fun c => c ∉ lost) refs).
  { rewrite IH by done. apply list_filter_local. intros c Hc. rewrite Forall_forall in Hall.
    by rewrite (advance_losses_elem chunk lost c) by auto. }
  assert (Hin : (match advance_losses chunk lost with k :: _ => k =? chunk | [] => false end) = true
                <-> chunk ∈ lost).
  { rewrite <- (advance_losses_elem chunk lost chunk) by lia.
    destruct (advance_losses chunk lost) as [|k rest]; [by rewrite elem_of_nil|].
    rewrite N.eqb_eq, elem_of_cons. split; [auto|]. intros [->|Hk]; [done|].
    inversion Ha as [|? ? _ Hk']; subst. rewrite Forall_forall in Hk'.
    pose proof (Hk' chunk Hk). pose proof (Hge k ltac:(left)). lia. }
  rewrite filter_cons, Hrest. case_decide as Hd.
  - destruct (match advance_losses chunk lost with k :: _ => _ | [] => _ end); [|done].
    destruct Hd. by apply Hin.
  - destruct (match advance_losses chunk lost with k :: _ => _ | [] => _ end); [done|].
    by apply Hin in Hd.
Qed.

Lemma keys_ascend {V} (m : gmap N V) : StronglySorted N.le (btree_keys m).
Proof. exact (StronglySorted_btree_keys m). Qed.

Section held.
Context `{!Primitives}.

Definition served (ix : Index) (c : ChunkId) : Prop :=
  is_Some (chunk_refs (ft ix) !! c) /\ losses (ft ix) !! c = None.

Lemma held_rows_served ix c :
  c ∈ held_rows (btree_keys (chunk_refs (ft ix))) (btree_keys (losses (ft ix))) <-> served ix c.
Proof.
  rewrite held_rows_filter by apply keys_ascend.
  rewrite list_elem_of_filter, !elem_of_btree_keys. unfold served.
  rewrite eq_None_not_Some. tauto.
Qed.

(** Two devices of one account whose roots agree, one answering with what it
    can serve and the other asking for what it wants held, agree chunk by
    chunk: every chunk wanted is served and nothing lost is counted. *)
Theorem agreeing_summary_serves_all `{!PrimitiveLaws} (host asker : Index) :
  let a := held_rows (btree_keys (chunk_refs (ft host))) (btree_keys (losses (ft host))) in
  let b := btree_keys (chunk_refs (ft asker)) in
  (forall c, c ∈ a ++ b -> is_id c) ->
  (forall bucket, bucket < 256 -> no_collision (bucket_input bucket a) (bucket_input bucket b)) ->
  no_collision (bytes_of_string SUMMARY_DOMAIN ++ bytes_of_string "root" ++ mjoin (buckets a))
               (bytes_of_string SUMMARY_DOMAIN ++ bytes_of_string "root" ++ mjoin (buckets b)) ->
  summary_root (held_summary host) = summary_root (chunk_summary asker) ->
  forall c, served host c <-> is_Some (chunk_refs (ft asker) !! c).
Proof.
  cbn zeta. intros Hid Hno Hroot E c. unfold held_summary, chunk_summary in E.
  pose proof (proj1 (root_agrees _ _ Hid Hno Hroot) E (bucket_of c)) as Ef.
  rewrite <- held_rows_served, <- elem_of_btree_keys.
  assert (Hmem : forall l : list ChunkId, c ∈ l <-> c ∈ filter (fun x => in_bucket x (bucket_of c) = true) l).
  { intros l. rewrite list_elem_of_filter. unfold in_bucket. rewrite N.eqb_refl. tauto. }
  rewrite (Hmem (held_rows _ _)), (Hmem (btree_keys _)). by rewrite Ef.
Qed.

End held.

(** *** Witnesses *)

Import Toy.

(** A device that references 1, 2 and 3 and has lost 2, and one that wants 1
    and 3. *)
Definition losing : Index :=
  on_ft (fun t => set_losses {[ 2 := 9 ]} (set_refs (<[1 := 1]> (<[2 := 1]> {[ 3 := 1 ]})) ∅ t)) empty_index.
Definition asking : Index := on_ft (set_refs (<[1 := 1]> {[ 3 := 1 ]}) ∅) empty_index.

Lemma agreeing_summary_serves_all_witness :
  (served losing 1 <-> is_Some (chunk_refs (ft asking) !! 1)) /\ ~ served losing 2.
Proof.
  split; [|intros [_ H]; vm_compute in H; discriminate].
  assert (E : held_rows (btree_keys (chunk_refs (ft losing))) (btree_keys (losses (ft losing)))
              = btree_keys (chunk_refs (ft asking))) by (vm_compute; reflexivity).
  apply (agreeing_summary_serves_all losing asking).
  - intros c Hc. rewrite E in Hc. assert (c ∈ [1; 3; 1; 3]) as Hc' by exact Hc.
    repeat (apply elem_of_cons in Hc' as [->|Hc']; [vm_compute; reflexivity|]).
    by apply not_elem_of_nil in Hc'.
  - intros bucket _ _. by rewrite E.
  - intros _. by rewrite E.
  - unfold held_summary, chunk_summary. by rewrite E.
Defined.

Lemma differing_is_exact_witness : 0 ∈ differing (buckets [1; 3]) (buckets [1; 2; 3]).
Proof.
  apply (differing_is_exact [1; 3] [1; 2; 3] 0).
  - intros c Hc. assert (c ∈ [1; 3; 1; 2; 3]) as Hc' by exact Hc.
    repeat (apply elem_of_cons in Hc' as [->|Hc']; [vm_compute; reflexivity|]).
    by apply not_elem_of_nil in Hc'.
  - done.
  - intros H. vm_compute in H. discriminate.
  - vm_compute. discriminate.
Defined.
