(* ===== verification/Vault.v ===== *)
(** * Vault: sealed objects held for other people

    Models [crates/itsanas-store/src/vault.rs]: the chunk index and its running
    totals over the blob directories, the marks an owner puts on copies it can
    spare and their eviction, the log chains held for devices, the claims, and
    the open mark that decides whether the totals are trusted at the next open.
    An owner's directory is a key of [disk]; a transaction is one function on
    the tables.  A chunk write is its two halves, the file and the transaction,
    because the process may stop between them. *)

From S2P Require Import Prelude Version Ids Crypto Oplog Blob IndexState Summary.

Definition DAY : N := 24 * 60 * 60.
Definition MARK_EXPIRES : N := 30 * DAY.
Definition MAX_EVICTABLE_PER_DAY : N := 4096.
Definition MAX_EVICT_PER_CALL : nat := 256.
Definition MAX_KEPT_CLAIMS : nat := 4096.
Definition MAX_CLAIMS_PER_ANSWER : nat := 16.
Definition MAX_CHECK_BATCH : nat := 4096.

(** [CHUNKS], [TOTALS] and [OWNER_CHUNK_BYTES]. *)
Record ChunkTables := mkCT {
  rows : gmap (UserId * ChunkId) N;
  chunk_bytes : option N;
  owner_totals : bool;
  owner_chunk_bytes : gmap UserId N;
}.

(** [EVICTABLE], [EVICTION_ORDER] and [EVICT_QUOTA]. *)
Record MarkTables := mkMT {
  evictable : gmap (UserId * ChunkId) N;
  eviction_order : gmap (UserId * (N * ChunkId)) unit;
  evict_quota : gmap UserId (N * N);
}.

(** [SEGMENTS], [CHAIN_LENGTHS], [CHAIN_BYTES] and [HEADS]. *)
Record ChainTables := mkChains {
  segs : gmap (UserId * DeviceId * N) SegmentEnvelope;
  chain_lengths : gmap (UserId * DeviceId) N;
  chain_bytes : gmap (UserId * DeviceId) N;
  heads : gmap (UserId * DeviceId) ObjectId;
}.

(** [CLAIMS], [CLAIM_SEEN] and the count of presentations. *)
Record ClaimTables := mkClaims {
  claims : gmap DeviceId (UserId * list N);
  claim_seen : gmap DeviceId N;
  claim_presentations : N;
}.

(** [CHECK_CURSOR], and this process's copy of it with when it was written. *)
Record Cursor := mkCursor {
  on_disk : option (UserId * ChunkId);
  memo : option (option (UserId * ChunkId) * N);
}.

Record Vault := mkVault {
  disk : gmap UserId (gmap ChunkId (list N));
  plugged : bool;
  ct : ChunkTables;
  mt : MarkTables;
  chains : ChainTables;
  cl : ClaimTables;
  cur : Cursor;
  open_mark : bool;
  suspect : bool;
}.

Definition set_disk (d : gmap UserId (gmap ChunkId (list N))) (v : Vault) : Vault :=
  mkVault d (plugged v) (ct v) (mt v) (chains v) (cl v) (cur v) (open_mark v) (suspect v).
Definition set_ct (t : ChunkTables) (v : Vault) : Vault :=
  mkVault (disk v) (plugged v) t (mt v) (chains v) (cl v) (cur v) (open_mark v) (suspect v).
Definition set_mt (t : MarkTables) (v : Vault) : Vault :=
  mkVault (disk v) (plugged v) (ct v) t (chains v) (cl v) (cur v) (open_mark v) (suspect v).
Definition set_chains (t : ChainTables) (v : Vault) : Vault :=
  mkVault (disk v) (plugged v) (ct v) (mt v) t (cl v) (cur v) (open_mark v) (suspect v).
Definition set_cl (t : ClaimTables) (v : Vault) : Vault :=
  mkVault (disk v) (plugged v) (ct v) (mt v) (chains v) t (cur v) (open_mark v) (suspect v).
Definition set_cur (t : Cursor) (v : Vault) : Vault :=
  mkVault (disk v) (plugged v) (ct v) (mt v) (chains v) (cl v) t (open_mark v) (suspect v).
Definition set_open_mark (b : bool) (v : Vault) : Vault :=
  mkVault (disk v) (plugged v) (ct v) (mt v) (chains v) (cl v) (cur v) b (suspect v).
Definition set_suspect (b : bool) (v : Vault) : Vault :=
  mkVault (disk v) (plugged v) (ct v) (mt v) (chains v) (cl v) (cur v) (open_mark v) b.

(** ** Blobs *)

(** The owner's blobs, whether or not it has a directory. *)
Definition owner_blobs (o : UserId) (v : Vault) : gmap ChunkId (list N) := default ∅ (disk v !! o).

(** [blobs_for]: refused while the disk is unplugged; opening an owner's blobs
    creates its directory. *)
Definition blobs_for (o : UserId) : M Vault StoreError (gmap ChunkId (list N)) :=
  fun v => if plugged v
           then (Ok (owner_blobs o v), set_disk (<[o := owner_blobs o v]> (disk v)) v)
           else (Err (Io "vault"), v).

Definition put_blobs (o : UserId) (b : gmap ChunkId (list N)) : M Vault StoreError unit :=
  modify (fun v => set_disk (<[o := b]> (disk v)) v).

(** [owners]: whoever has a chain or a directory here. *)
Definition owners (v : Vault) : list UserId :=
  merge_sort N.le (elements (set_map fst (dom (heads (chains v))) ∪ dom (disk v))).

(** ** Marks *)

Definition mark_stands (marked_at now : N) : bool := now - marked_at <? MARK_EXPIRES.

Definition unmark (o : UserId) (c : ChunkId) (t : MarkTables) : bool * MarkTables :=
  match evictable t !! (o, c) with
  | Some at_ => (true, mkMT (delete (o, c) (evictable t)) (delete (o, (at_, c)) (eviction_order t))
                         (evict_quota t))
  | None => (false, t)
  end.

(** ** Chunks *)

(** The totals when a row changes from [old] to [new] bytes. *)
Definition retotal (o : UserId) (old new : N) (r : gmap (UserId * ChunkId) N) (t : ChunkTables)
  : ChunkTables :=
  mkCT r (Some (sat_add (default 0 (chunk_bytes t) - old) new)) (owner_totals t)
    (<[o := sat_add (default 0 (owner_chunk_bytes t !! o) - old) new]> (owner_chunk_bytes t)).

(** The transaction of [put_chunk]; committed only when it changes something. *)
Definition index_chunk (o : UserId) (c : ChunkId) (size : N) (v : Vault) : Vault :=
  let old := rows (ct v) !! (o, c) in
  let t := retotal o (default 0 old) size (<[(o, c) := size]> (rows (ct v))) (ct v) in
  let '(unmarked, m) := unmark o c (mt v) in
  if decide (old = Some size /\ unmarked = false) then v else set_mt m (set_ct t v).

(** The half of [put_chunk] that writes the file. *)
Definition put_chunk_file (o : UserId) (c : ChunkId) (sealed : list N) : M Vault StoreError (bool * N) :=
  b <-! blobs_for o;
  let '(stored, b) := blob_put c sealed b in
  put_blobs o b ;;!
  match blob_size_of c b with
  | Some size => ret (stored, size)
  | None => throw (Corrupt "a chunk just written is not on disk")
  end.

(** A chunk write that does not reach its commit leaves the vault suspect. *)
Definition unsure {A} (m : M Vault StoreError A) : M Vault StoreError A :=
  fun v => match m v with
           | (Ok a, v) => (Ok a, v)
           | (Err e, v) => (Err e, set_suspect true v)
           end.

Definition put_chunk (o : UserId) (c : ChunkId) (sealed : list N) : M Vault StoreError bool :=
  unsure (p <-! put_chunk_file o c sealed;
          modify (index_chunk o c p.2) ;;!
          ret p.1).

Definition get_chunk (o : UserId) (c : ChunkId) : M Vault StoreError (option (list N)) :=
  b <-! blobs_for o; ret (blob_get c b).
Definition has_chunk (o : UserId) (c : ChunkId) : M Vault StoreError bool :=
  b <-! blobs_for o; ret (blob_contains c b).

(** The transaction of [remove_chunk]. *)
Definition unindex_chunk (o : UserId) (c : ChunkId) (v : Vault) : Vault :=
  let t := match rows (ct v) !! (o, c) with
           | Some old => mkCT (delete (o, c) (rows (ct v))) (Some (default 0 (chunk_bytes (ct v)) - old))
                           (owner_totals (ct v))
                           (<[o := default 0 (owner_chunk_bytes (ct v) !! o) - old]> (owner_chunk_bytes (ct v)))
           | None => ct v
           end in
  set_mt (unmark o c (mt v)).2 (set_ct t v).

Definition remove_file (o : UserId) (c : ChunkId) : M Vault StoreError bool :=
  b <-! blobs_for o;
  let '(removed, b) := blob_remove c b in
  put_blobs o b ;;!
  ret removed.

Definition remove_chunk (o : UserId) (c : ChunkId) : M Vault StoreError bool :=
  unsure (removed <-! remove_file o c;
          modify (unindex_chunk o c) ;;!
          ret removed).

(** [chunks_for]: the owner's rows in chunk order. *)
Definition rows_of (o : UserId) (r : gmap (UserId * ChunkId) N) : list ChunkId :=
  (fun p : UserId * ChunkId * N => p.1.2) <$> filter (fun p => p.1.1 = o) (btree_iter r).
Definition chunks_for (o : UserId) (v : Vault) : list ChunkId := rows_of o (rows (ct v)).
Definition chunk_rows (v : Vault) : N := N.of_nat (size (rows (ct v))).

(** [chunk_summary_at]: standing marks are left out. *)
Definition standing (o : UserId) (now : N) (t : MarkTables) (c : ChunkId) : bool :=
  match evictable t !! (o, c) with Some at_ => mark_stands at_ now | None => false end.

Definition chunk_summary_at `{!Primitives} (o : UserId) (now : N) (v : Vault) : list (list N) :=
  buckets (filter (fun c => standing o now (mt v) c = false) (chunks_for o v)).

(** ** Marking and evicting *)

Definition mark_one (o : UserId) (now : N) (r : gmap (UserId * ChunkId) N)
    (s : N * N * MarkTables) (c : ChunkId) : N * N * MarkTables :=
  let '(marked, made, t) := s in
  match evictable t !! (o, c) with
  | Some _ => (N.min (marked + 1) u32_max, made, t)
  | None =>
      if bool_decide (r !! (o, c) = None) || (MAX_EVICTABLE_PER_DAY <=? made) then s
      else (N.min (marked + 1) u32_max, made + 1,
            mkMT (<[(o, c) := now]> (evictable t)) (<[(o, (now, c)) := tt]> (eviction_order t)) (evict_quota t))
  end.

Definition mark_evictable (o : UserId) (chunks : list ChunkId) (now : N) (v : Vault) : N * Vault :=
  let today := now / DAY in
  let asked := merge_sort N.le (remove_dups chunks) in
  let '(day, made) := match evict_quota (mt v) !! o with
                      | Some (counted, made) => if today <=? counted then (counted, made) else (today, 0)
                      | None => (today, 0)
                      end in
  let '(marked, made, t) := foldl (mark_one o now (rows (ct v))) (0, made, mt v) asked in
  (marked, set_mt (mkMT (evictable t) (eviction_order t) (<[o := (day, made)]> (evict_quota t))) v).

Definition is_evictable (o : UserId) (c : ChunkId) (v : Vault) : bool :=
  bool_decide (is_Some (evictable (mt v) !! (o, c))).

Definition marked_among (o : UserId) (chunks : list ChunkId) (now : N) (v : Vault) : gset ChunkId :=
  list_to_set (filter (fun c => standing o now (mt v) c = true) chunks).

(** The rows of [EVICTION_ORDER] under the owner's prefix, oldest first. *)
Definition order_of (o : UserId) (t : MarkTables) : list (N * ChunkId) :=
  (fun p : UserId * (N * ChunkId) * unit => p.1.2) <$> filter (fun p => p.1.1 = o) (btree_iter (eviction_order t)).

Definition choose_step (o : UserId) (bytes_needed now : N) (r : gmap (UserId * ChunkId) N)
    (s : list (N * ChunkId) * list (N * ChunkId) * N) (p : N * ChunkId)
  : list (N * ChunkId) * list (N * ChunkId) * N :=
  let '(chosen, expired, room) := s in
  if mark_stands p.1 now
  then (chosen ++ [p], expired, sat_add room (default 0 (r !! (o, p.2))))
  else (chosen, expired ++ [p], room).

Fixpoint choose_go (o : UserId) (bytes_needed now : N) (r : gmap (UserId * ChunkId) N)
    (l : list (N * ChunkId)) (s : list (N * ChunkId) * list (N * ChunkId) * N)
  : list (N * ChunkId) * list (N * ChunkId) * N :=
  match l with
  | [] => s
  | p :: l =>
      if (bytes_needed <=? s.2) || (MAX_EVICT_PER_CALL <=? length s.1.1 + length s.1.2)%nat then s
      else choose_go o bytes_needed now r l (choose_step o bytes_needed now r s p)
  end.

Definition choose_evictions (o : UserId) (bytes_needed now : N) (v : Vault)
  : list (N * ChunkId) * list (N * ChunkId) * N :=
  choose_go o bytes_needed now (rows (ct v)) (order_of o (mt v)) ([], [], 0).

Definition drop_mark (o : UserId) (t : MarkTables) (p : N * ChunkId) : MarkTables :=
  mkMT (delete (o, p.2) (evictable t)) (delete (o, p) (eviction_order t)) (evict_quota t).

(** The second transaction of [evict_marked]. *)
Definition evict_rows (o : UserId) (chosen : list (N * ChunkId)) (v : Vault) : N * Vault :=
  let r := foldl (fun r (p : N * ChunkId) => delete (o, p.2) r) (rows (ct v)) chosen in
  let freed := (foldl (fun (s : N * gmap (UserId * ChunkId) N) (p : N * ChunkId) =>
                  (sat_add s.1 (default 0 (s.2 !! (o, p.2))), delete (o, p.2) s.2))
                  (0, rows (ct v)) chosen).1 in
  let t := mkCT r (Some (default 0 (chunk_bytes (ct v)) - freed)) (owner_totals (ct v))
             (<[o := default 0 (owner_chunk_bytes (ct v) !! o) - freed]> (owner_chunk_bytes (ct v))) in
  (freed, set_mt (foldl (drop_mark o) (mt v) chosen) (set_ct t v)).

Definition evict_marked (o : UserId) (bytes_needed now : N) : M Vault StoreError N :=
  if bytes_needed =? 0 then ret 0
  else
    choice <-! gets (choose_evictions o bytes_needed now);
    let '(chosen, expired, room) := choice in
    modify (fun v => set_mt (foldl (drop_mark o) (mt v) expired) v) ;;!
    if bool_decide (chosen = []) || (room <? bytes_needed) then ret 0
    else
      unsure (b <-! blobs_for o;
              put_blobs o (foldl (fun b (p : N * ChunkId) => (blob_remove p.2 b).2) b chosen) ;;!
              (fun v => let '(freed, v) := evict_rows o chosen v in (Ok freed, v))).

(** ** Checking the index against the disk *)

Definition CHECK_CURSOR_STEP : N := 15 * 60.

Definition row_lt (a b : UserId * ChunkId) : Prop := key_le a b /\ a <> b.

#[export] Instance row_lt_dec : RelDecision row_lt.
Proof. intros a b. unfold row_lt. apply _. Defined.

(** [check_slice]: the next rows, and whether they reach the last. *)
Definition check_slice (limit : nat) (v : Vault) : list (UserId * ChunkId) * bool :=
  let cursor := match memo (cur v) with Some m => m.1 | None => on_disk (cur v) end in
  let all := btree_keys (rows (ct v)) in
  let rest := match cursor with Some k => filter (row_lt k) all | None => all end in
  (take limit rest, (length rest <=? limit)%nat).

Definition pace_cursor (next : option (UserId * ChunkId)) (removed : bool) (now : N) (c : Cursor) : Cursor :=
  let write := removed || bool_decide (next = None)
               || match memo c with Some m => CHECK_CURSOR_STEP <=? now - m.2 | None => true end in
  let written := match memo c with Some m => if write then now else m.2 | None => now end in
  mkCursor (if write then next else on_disk c) (Some (next, written)).

Definition blob_missing (v : Vault) (k : UserId * ChunkId) : bool :=
  negb (blob_contains k.2 (owner_blobs k.1 v)).

(** What [check_disk_at] commits, given the rows it found without a blob. *)
Definition check_commit (rows gone : list (UserId * ChunkId)) (reached_end : bool) (now : N) (v : Vault) : Vault :=
  let v := foldl (fun v k => unindex_chunk k.1 k.2 v) v gone in
  let next := if reached_end then None else last rows in
  set_cur (pace_cursor next (negb (bool_decide (gone = []))) now (cur v)) v.

(** Rows examined and rows removed.  Compaction at the end of a pass opens
    every owner's blobs; what it does inside pack files is not modelled. *)
Definition check_disk_at (limit : nat) (now : N) : M Vault StoreError (nat * nat) :=
  let limit := (limit `min` MAX_CHECK_BATCH)%nat in
  if (limit =? 0)%nat then ret (0%nat, 0%nat)
  else
    slice <-! gets (check_slice limit);
    for_each slice.1 (fun k => blobs_for k.1 ;;! ret tt) ;;!
    gone <-! gets (fun v => filter (fun k => blob_missing v k = true) slice.1);
    modify (check_commit slice.1 gone slice.2 now) ;;!
    (if slice.2
     then os <-! gets owners; for_each os (fun o => blobs_for o ;;! ret tt)
     else ret tt) ;;!
    ret (length slice.1, length gone).

(** ** Log chains *)

Section segments.
Context `{!Primitives} (encoded_len : SegmentEnvelope -> N).

Definition put_segment (e : SegmentEnvelope) (v : Vault) : result StoreError bool * Vault :=
  match verify_signature e with
  | Err err => (Err err, v)
  | Ok _ =>
      let t := chains v in
      let key := (owner e, device e) in
      let length := default 0 (chain_lengths t !! key) in
      let head := heads t !! key in
      if decide (head = Some (segment_id e)) then (Ok false, v)
      else if decide (previous e = head) then
        (Ok true,
         set_chains (mkChains (<[(key, length) := e]> (segs t)) (<[key := length + 1]> (chain_lengths t))
                       (<[key := sat_add (default 0 (chain_bytes t !! key)) (encoded_len e)]> (chain_bytes t))
                       (<[key := segment_id e]> (heads t))) v)
      else (Err (SegmentChainBroken (segment_id e) head (previous e)), v)
  end.

End segments.

(** The rows of one chain, in order. *)
Definition chain_rows (o : UserId) (d : DeviceId) (v : Vault) : list SegmentEnvelope :=
  snd <$> filter (fun p => p.1.1 = (o, d)) (btree_iter (segs (chains v))).

Fixpoint skip_past (after : ObjectId) (l : list SegmentEnvelope) : option (list SegmentEnvelope) :=
  match l with
  | [] => None
  | e :: l => if decide (segment_id e = after) then Some l else skip_past after l
  end.

(** [segments_for]: a full page at least, resuming past [after]; nothing when
    [after] is not of this chain.  The page is cut after a push, so a limit of
    zero gives one. *)
Definition segments_for (o : UserId) (d : DeviceId) (after : option ObjectId) (limit : nat) (v : Vault)
  : list SegmentEnvelope :=
  match after with
  | None => take (limit `max` 1) (chain_rows o d v)
  | Some id => match skip_past id (chain_rows o d v) with
               | Some rest => take (limit `max` 1) rest
               | None => []
               end
  end.

Definition heads_for (o : UserId) (v : Vault) : list (DeviceId * ObjectId * N) :=
  (fun p : UserId * DeviceId * ObjectId =>
     (p.1.2, p.2, default 0 (chain_lengths (chains v) !! p.1)))
    <$> filter (fun p => p.1.1 = o) (btree_iter (heads (chains v))).

(** ** What is held *)

Definition held_bytes (v : Vault) : N :=
  foldl (fun held p => sat_add held p.2) (default 0 (chunk_bytes (ct v))) (btree_iter (chain_bytes (chains v))).

Definition held_bytes_for (o : UserId) (v : Vault) : N :=
  foldl (fun held p => sat_add held p.2) (default 0 (owner_chunk_bytes (ct v) !! o))
    (filter (fun p => p.1.1 = o) (btree_iter (chain_bytes (chains v)))).

Record VaultStats := mkStats {
  st_owners : nat;
  st_chunks : nat;
  st_segments : N;
  st_bytes : N;
  st_segment_bytes : N;
}.

(** The figures of [stats], once every owner's directory is open. *)
Definition stats_of (owners : list UserId) (v : Vault) : VaultStats :=
  let chunks := foldl (fun n o => n + length (blob_addresses (owner_blobs o v)))%nat 0%nat owners in
  let blob_bytes := foldl (fun n o => sat_add n (blob_total (owner_blobs o v))) 0 owners in
  let segments := foldl (fun n p => sat_add n p.2) 0 (btree_iter (chain_lengths (chains v))) in
  let segment_bytes := foldl (fun n p => sat_add n p.2) 0 (btree_iter (chain_bytes (chains v))) in
  mkStats (length owners) chunks segments
    (foldl (fun n p => sat_add n p.2) blob_bytes (btree_iter (chain_bytes (chains v)))) segment_bytes.

(** [stats]: [blobs_for] creates the directory of an owner that has only
    segments. *)
Definition stats : M Vault StoreError VaultStats :=
  os <-! gets owners;
  for_each os (fun o => blobs_for o ;;! ret tt) ;;!
  gets (stats_of os).

Definition stats_for (o : UserId) : M Vault StoreError VaultStats :=
  b <-! blobs_for o;
  v <-! gets id;
  let mine {V} (m : gmap (UserId * DeviceId) V) := filter (fun p => p.1.1 = o) (btree_iter m) in
  let segments := foldl (fun n p => sat_add n p.2) 0 (mine (chain_lengths (chains v))) in
  let segment_bytes := foldl (fun n p => sat_add n p.2) 0 (mine (chain_bytes (chains v))) in
  ret (mkStats 1 (length (blob_addresses b)) segments (sat_add (blob_total b) segment_bytes) segment_bytes).

(** ** Forgetting an owner *)

Definition forget_prefix {V} (o : UserId) (m : gmap (UserId * DeviceId) V) : gmap (UserId * DeviceId) V :=
  filter (fun p => p.1.1 <> o) m.

(** The [remove_batch] loops over the owner's rows of every table, and the
    directory at the end. *)
Definition forget_tables (o : UserId) (v : Vault) : Vault :=
  let t := chains v in
  let m := mt v in
  set_disk (delete o (disk v))
    (set_chains (mkChains (filter (fun p => p.1.1.1 <> o) (segs t)) (forget_prefix o (chain_lengths t))
                   (forget_prefix o (chain_bytes t)) (forget_prefix o (heads t)))
      (set_mt (mkMT (filter (fun p => p.1.1 <> o) (evictable m)) (filter (fun p => p.1.1 <> o) (eviction_order m))
                 (delete o (evict_quota m))) v)).

Fixpoint remove_chunks (o : UserId) (l : list ChunkId) (removed : N) : M Vault StoreError N :=
  match l with
  | [] => ret removed
  | c :: l => gone <-! remove_chunk o c; remove_chunks o l (if gone then removed + 1 else removed)
  end.

Definition forget_owner (o : UserId) : M Vault StoreError (N * N) :=
  cs <-! gets (chunks_for o);
  removed <-! remove_chunks o cs 0;
  segments <-! gets (fun v => N.of_nat (size (filter (fun p => p.1.1.1 = o) (segs (chains v)))));
  modify (forget_tables o) ;;!
  ret (removed, segments).

(** ** Claims *)

Definition keep_claim (d : DeviceId) (o : UserId) (claim : list N) (v : Vault) : Vault :=
  let t := cl v in
  if bool_decide (claims t !! d = None) && (MAX_KEPT_CLAIMS <=? size (claims t))%nat then v
  else
    let seen := sat_add (claim_presentations t) 1 in
    set_cl (mkClaims (<[d := (o, claim)]> (claims t)) (<[d := seen]> (claim_seen t)) seen) v.

Definition kept_claim (d : DeviceId) (v : Vault) : option (UserId * list N) := claims (cl v) !! d.

(** [claims_for]: most recently presented first, by a stable sort. *)
Definition claims_for (o : UserId) (v : Vault) : list (list N) :=
  let found := omap (fun p : DeviceId * (UserId * list N) =>
                       if decide (p.2.1 = o /\ p.2.2 <> [])
                       then Some (default 0 (claim_seen (cl v) !! p.1), p.2.2) else None)
                 (btree_iter (claims (cl v))) in
  snd <$> take MAX_CLAIMS_PER_ANSWER (sort_by (fun p q => q.1 <=? p.1) found).

(** ** Opening and closing *)

(** The directories of [owners], created where missing. *)
Definition open_dirs (os : list UserId) (d : gmap UserId (gmap ChunkId (list N)))
  : gmap UserId (gmap ChunkId (list N)) :=
  foldl (fun d o => <[o := default ∅ (d !! o)]> d) d os.

(** One owner of the rebuild: its blobs' rows and its bytes. *)
Definition rebuild_owner (d : gmap UserId (gmap ChunkId (list N)))
    (s : gmap (UserId * ChunkId) N * gmap UserId N) (o : UserId)
  : gmap (UserId * ChunkId) N * gmap UserId N :=
  let b := default ∅ (d !! o) in
  let '(r, bytes) :=
    foldl (fun (s : gmap (UserId * ChunkId) N * N) a =>
             match blob_size_of a b with
             | Some size => (<[(o, a) := size]> s.1, sat_add s.2 size)
             | None => s
             end) (s.1, 0) (blob_addresses b) in
  (r, if 0 <? bytes then <[o := bytes]> s.2 else s.2).

(** [row_has_blob] *)
Definition row_has_blob (os : list UserId) (d : gmap UserId (gmap ChunkId (list N))) (k : UserId * ChunkId) : bool :=
  bool_decide (k.1 ∈ os) && bool_decide (is_Some (blob_size_of k.2 (default ∅ (d !! k.1)))).

Definition reconcile_chunks_if_needed (v : Vault) : Vault :=
  let untotalled := bool_decide (chunk_bytes (ct v) = None) || negb (owner_totals (ct v)) in
  if negb (open_mark v) && negb untotalled then v
  else
    let os := owners v in
    let d := open_dirs os (disk v) in
    let '(r, per_owner) := foldl (rebuild_owner d) (rows (ct v), ∅) os in
    let r := filter (fun p => row_has_blob os d p.1 = true) r in
    let total := foldl (fun sum p => sat_add sum p.2) 0 (btree_iter per_owner) in
    set_disk d (set_ct (mkCT r (Some total) true per_owner) v).

Section open.
Context (encoded_len : SegmentEnvelope -> N).

Definition backfill_segment_bytes (v : Vault) : Vault :=
  let t := chains v in
  if bool_decide (chain_bytes t <> ∅) || bool_decide (segs t = ∅) then v
  else
    let totals := foldl (fun (m : gmap (UserId * DeviceId) N) (p : UserId * DeviceId * N * SegmentEnvelope) =>
                           <[p.1.1 := default 0 (m !! p.1.1) + encoded_len p.2]> m) ∅ (btree_iter (segs t)) in
    set_chains (mkChains (segs t) (chain_lengths t)
                  (totals ∪ chain_bytes t) (heads t)) v.

Definition open (v : Vault) : Vault :=
  set_suspect false (set_open_mark true (backfill_segment_bytes (reconcile_chunks_if_needed v))).

End open.

(** [Drop]: the close is clean unless the vault is suspect. *)
Definition close (v : Vault) : Vault := if suspect v then v else set_open_mark false v.

(** A vault directory that has just been created. *)
Definition fresh_vault : Vault :=
  mkVault ∅ true (mkCT ∅ None false ∅) (mkMT ∅ ∅ ∅) (mkChains ∅ ∅ ∅ ∅) (mkClaims ∅ ∅ 0) (mkCursor None None) false true.
