(* ===== verification/VaultAccounts.v ===== *)
(** * VaultAccounts: what a host believes it holds

    The running totals of the vault against the files on its disk.  The
    transition system runs the vault's operations, lets a chunk write stop
    between its file and its transaction, lets files disappear, and closes,
    crashes and reopens the process.  In every reachable running state that is
    not suspect the totals a pledge is checked against are the sums of the
    rows, and no byte on disk is missing from them. *)

From S2P Require Import Prelude Version Ids Crypto Oplog Blob IndexState Summary Vault.

(** ** Sums *)

Definition sum_over {A} (f : A -> N) (l : list A) : N := foldr (fun a acc => f a + acc) 0 l.

Lemma sum_over_ext {A} (f g : A -> N) l : (forall a, a ∈ l -> f a = g a) -> sum_over f l = sum_over g l.
Proof.
  induction l as [|a l IH]; intros H; [done|]. cbn. rewrite (H a) by left. f_equal. apply IH.
  intros b Hb. apply H. by right.
Qed.

Lemma sum_over_le {A} (f g : A -> N) l : (forall a, a ∈ l -> f a <= g a) -> sum_over f l <= sum_over g l.
Proof.
  induction l as [|a l IH]; intros H; cbn; [done|]. apply N.add_le_mono; [apply H; left|].
  apply IH. intros b Hb. apply H. by right.
Qed.

Lemma sum_over_zero {A} (f : A -> N) l : (forall a, f a = 0) -> sum_over f l = 0.
Proof. intros H. unfold sum_over. induction l as [|a l IH]; cbn [foldr]; [done|]. by rewrite H, IH. Qed.

Lemma sum_over_perm {A} (f : A -> N) l k : l ≡ₚ k -> sum_over f l = sum_over f k.
Proof. unfold sum_over. induction 1; cbn [foldr]; lia. Qed.

Lemma sum_over_fmap {A B} (f : B -> N) (g : A -> B) l : sum_over f (g <$> l) = sum_over (fun a => f (g a)) l.
Proof. unfold sum_over. induction l as [|a l IH]; cbn; [done|]. by rewrite <- IH. Qed.

(** A function changed at one place, in a list that has it once. *)
Lemma sum_over_update {A} `{!EqDecision A} (f g : A -> N) (x : A) (s : N) l :
  NoDup l -> (forall a, g a = f a + if decide (a = x) then s else 0) ->
  sum_over g l = sum_over f l + if decide (x ∈ l) then s else 0.
Proof.
  intros Hnd Hg. induction Hnd as [|a l Ha Hnd IH]; cbn [sum_over foldr].
  { rewrite decide_False by apply not_elem_of_nil. lia. }
  fold (sum_over g l). fold (sum_over f l). rewrite IH, Hg.
  repeat case_decide; subst; try lia; set_solver.
Qed.

(** Adding with saturation from the left. *)
Lemma foldl_sat_add {A} (f : A -> N) l a :
  a <= u64_max -> foldl (fun n x => sat_add n (f x)) a l = N.min (a + sum_over f l) u64_max.
Proof.
  revert a. induction l as [|x l IH]; intros a Ha; cbn [foldl sum_over foldr].
  { rewrite N.add_0_r. lia. }
  fold (sum_over f l). rewrite IH by apply sat_add_le. unfold sat_add. lia.
Qed.

Lemma foldl_sat_add_mono {A} (f : A -> N) l a b :
  a <= b -> foldl (fun n x => sat_add n (f x)) a l <= foldl (fun n x => sat_add n (f x)) b l.
Proof.
  revert a b. induction l as [|x l IH]; intros a b Hab; cbn [foldl]; [done|].
  apply IH. unfold sat_add. lia.
Qed.

Lemma map_sum_over {K V} `{Countable K} (g : V -> N) (m : gmap K V) (l : list (K * V)) :
  l ≡ₚ map_to_list m -> sum_over (fun p => g p.2) l = map_sum g m.
Proof.
  intros Hp. rewrite (sum_over_perm _ _ _ Hp), map_sum_list. done.
Qed.

(** ** Rows by owner *)

Definition owner_sum (o : UserId) (r : gmap (UserId * ChunkId) N) : N :=
  map_sum id (filter (fun p => p.1.1 = o) r).

Lemma owner_sum_empty o : owner_sum o ∅ = 0.
Proof. unfold owner_sum. rewrite map_filter_empty. apply map_sum_empty. Qed.

Lemma owner_sum_insert_new o k s r :
  r !! k = None -> owner_sum o (<[k := s]> r) = owner_sum o r + if decide (k.1 = o) then s else 0.
Proof.
  intros Hk. unfold owner_sum. case_decide as Ho.
  - rewrite map_filter_insert_True by done. rewrite map_sum_insert_new; [cbn; lia|].
    apply map_lookup_filter_None. by left.
  - rewrite map_filter_insert_False, delete_id by done. lia.
Qed.

Lemma owner_sum_delete o k r :
  owner_sum o (delete k r) + (if decide (k.1 = o) then default 0 (r !! k) else 0) = owner_sum o r.
Proof.
  destruct (r !! k) as [s|] eqn:Hk.
  - rewrite <- (insert_id r k s) at 2 by done. rewrite <- insert_delete_eq.
    rewrite owner_sum_insert_new by apply lookup_delete_eq. cbn. lia.
  - rewrite delete_id by done. case_decide; cbn; lia.
Qed.

Lemma owner_sum_insert o k s r :
  owner_sum o (<[k := s]> r) + (if decide (k.1 = o) then default 0 (r !! k) else 0)
  = owner_sum o r + if decide (k.1 = o) then s else 0.
Proof.
  rewrite <- insert_delete_eq, owner_sum_insert_new by apply lookup_delete_eq.
  pose proof (owner_sum_delete o k r). lia.
Qed.

(** Summed over owners, the rows of the owners in the list. *)
Lemma sum_owner_sums os r :
  NoDup os ->
  sum_over (fun o => owner_sum o r) os <= map_sum id r
  /\ ((forall k, is_Some (r !! k) -> k.1 ∈ os) -> sum_over (fun o => owner_sum o r) os = map_sum id r).
Proof.
  intros Hnd. induction r as [|k s r Hk IH] using map_ind.
  - rewrite map_sum_empty. assert (E : sum_over (fun o => owner_sum o ∅) os = 0).
    { apply sum_over_zero. apply owner_sum_empty. }
    rewrite E. split; [lia|done].
  - rewrite map_sum_insert_new by done.
    assert (E : sum_over (fun o => owner_sum o (<[k := s]> r)) os
                = sum_over (fun o => owner_sum o r) os + if decide (k.1 ∈ os) then s else 0).
    { apply (sum_over_update _ _ k.1); [done|]. intros o. rewrite owner_sum_insert_new by done.
      repeat case_decide; congruence. }
    rewrite E. destruct IH as [IH1 IH2]. split.
    + cbn. case_decide; lia.
    + intros Hall. rewrite decide_True by (apply Hall; rewrite lookup_insert_eq; eauto).
      rewrite IH2; [cbn; lia|]. intros k' Hk'. apply Hall.
      destruct (decide (k = k')) as [->|]; [rewrite lookup_insert_eq; eauto|by rewrite lookup_insert_ne].
Qed.

Lemma owner_sum_le o r : owner_sum o r <= map_sum id r.
Proof.
  destruct (sum_owner_sums [o] r (NoDup_singleton o)) as [H _]. cbn in H. lia.
Qed.

Lemma row_le_owner_sum o c r : default 0 (r !! (o, c)) <= owner_sum o r <= map_sum id r.
Proof.
  split; [|apply owner_sum_le]. pose proof (owner_sum_delete o (o, c) r) as E.
  rewrite decide_True in E by done. lia.
Qed.

(** One owner's blobs against its rows. *)
Lemma owner_sum_blobs_le {V} (g : V -> N) o (b : gmap ChunkId V) r :
  (forall c s, b !! c = Some s -> r !! (o, c) = Some (g s)) -> map_sum g b <= owner_sum o r.
Proof.
  revert r. induction b as [|c s b Hc IH] using map_ind; intros r Hr; [rewrite map_sum_empty; lia|].
  rewrite map_sum_insert_new by done. assert (Hrc : r !! (o, c) = Some (g s)).
  { apply Hr. apply lookup_insert_eq. }
  pose proof (owner_sum_delete o (o, c) r) as E. rewrite Hrc, decide_True in E by done. cbn in E.
  assert (map_sum g b <= owner_sum o (delete (o, c) r)); [|lia].
  apply IH. intros c' s' Hb. assert (c <> c') by congruence.
  rewrite lookup_delete_ne by congruence. apply Hr. by rewrite lookup_insert_ne.
Qed.

Lemma owner_sum_blobs {V} (g : V -> N) o (b : gmap ChunkId V) r :
  (forall c, r !! (o, c) = g <$> b !! c) -> owner_sum o r = map_sum g b.
Proof.
  revert r. induction b as [|c s b Hc IH] using map_ind; intros r Hr.
  - rewrite map_sum_empty. unfold owner_sum.
    assert (filter (fun p => p.1.1 = o) r = ∅) as ->; [|apply map_sum_empty].
    apply map_empty. intros [o' c']. apply map_lookup_filter_None. right. intros x Hx. cbn. intros ->.
    rewrite Hr, lookup_empty in Hx. done.
  - rewrite map_sum_insert_new by done.
    pose proof (owner_sum_delete o (o, c) r) as E. rewrite Hr, lookup_insert_eq, decide_True in E by done.
    cbn in E. rewrite <- E, (IH (delete (o, c) r)); [lia|].
    intros c'. destruct (decide (c = c')) as [<-|Hne]; [by rewrite lookup_delete_eq, Hc|].
    rewrite lookup_delete_ne by congruence. by rewrite Hr, lookup_insert_ne.
Qed.

Lemma sum_defaults os (m : gmap UserId N) :
  NoDup os -> (forall o, is_Some (m !! o) -> o ∈ os) ->
  sum_over (fun o => default 0 (m !! o)) os = map_sum id m.
Proof.
  intros Hnd. induction m as [|o s m Ho IH] using map_ind; intros Hall.
  - rewrite map_sum_empty. apply sum_over_zero. intros o. by rewrite lookup_empty.
  - rewrite map_sum_insert_new by done.
    rewrite (sum_over_update (fun o => default 0 (m !! o)) _ o s) by
      (done || (intros a; case_decide; [subst; rewrite lookup_insert_eq, Ho; cbn; lia
                                       |rewrite lookup_insert_ne by congruence; lia])).
    rewrite decide_True by (apply Hall; rewrite lookup_insert_eq; eauto).
    rewrite IH; [cbn; lia|]. intros o' Ho'. apply Hall.
    destruct (decide (o = o')) as [->|]; [rewrite lookup_insert_eq; eauto|by rewrite lookup_insert_ne].
Qed.

(** ** The rebuild *)

Definition bytes_in (b : gmap ChunkId (list N)) : N := map_sum (fun s => N.of_nat (length s)) b.

Lemma blob_addresses_sum b : sum_over (fun a => default 0 (blob_size_of a b)) (blob_addresses b) = bytes_in b.
Proof.
  unfold bytes_in, blob_addresses, btree_keys. rewrite sum_over_fmap.
  rewrite <- (map_sum_over _ b (btree_iter b) (btree_iter_perm b)). apply sum_over_ext.
  intros [k s] Hin%elem_of_btree_iter. cbn. unfold blob_size_of. by rewrite Hin.
Qed.

Lemma owners_NoDup v : NoDup (owners v).
Proof. unfold owners. rewrite merge_sort_Permutation. apply NoDup_elements. Qed.

Lemma owners_disk v o : is_Some (disk v !! o) -> o ∈ owners v.
Proof.
  intros Ho. unfold owners. rewrite merge_sort_Permutation. apply elem_of_elements, elem_of_union.
  right. by apply elem_of_dom.
Qed.

Lemma open_dirs_blobs os d o : default ∅ (open_dirs os d !! o) = default ∅ (d !! o).
Proof.
  unfold open_dirs. revert d. induction os as [|x os IH]; intros d; cbn [foldl]; [done|].
  rewrite IH. destruct (decide (x = o)) as [->|Hne]; [by rewrite lookup_insert_eq|].
  by rewrite lookup_insert_ne.
Qed.

Section rebuild.
Context (d : gmap UserId (gmap ChunkId (list N))).

Lemma rebuild_owner_fold (o : UserId) (b : gmap ChunkId (list N)) (l : list ChunkId) (r : gmap (UserId * ChunkId) N) n :
  (forall a, a ∈ l -> is_Some (b !! a)) -> n <= u64_max ->
  let s := foldl (fun (s : gmap (UserId * ChunkId) N * N) a =>
             match blob_size_of a b with
             | Some size => (<[(o, a) := size]> s.1, sat_add s.2 size)
             | None => s
             end) (r, n) l in
  (forall k, s.1 !! k = if decide (k.1 = o /\ k.2 ∈ l) then blob_size_of k.2 b else r !! k)
  /\ s.2 = N.min (n + sum_over (fun a => default 0 (blob_size_of a b)) l) u64_max.
Proof.
  revert r n. induction l as [|a l IH]; intros r n Hl Hn; cbn [foldl].
  { cbn. split; [|lia]. intros k. rewrite decide_False; [done|]. intros [_ H]. by apply not_elem_of_nil in H. }
  assert (Ha : is_Some (b !! a)) by (apply Hl; left). destruct Ha as [s Ha].
  assert (Es : blob_size_of a b = Some (N.of_nat (length s))) by (unfold blob_size_of; by rewrite Ha).
  rewrite Es. cbn [fst snd]. destruct (IH (<[(o, a) := N.of_nat (length s)]> r) (sat_add n (N.of_nat (length s))))
    as [IH1 IH2]; [intros; apply Hl; by right|apply sat_add_le|]. split.
  - intros [o' c]. rewrite IH1. cbn [fst snd]. destruct (decide ((o', c) = (o, a))) as [E|Hne].
    + injection E as -> ->. rewrite (decide_True (P := o = o /\ a ∈ a :: l)) by (split; [done|left]).
      case_decide; [done|]. by rewrite lookup_insert_eq.
    + rewrite lookup_insert_ne by congruence.
      apply decide_ext. rewrite elem_of_cons. naive_solver.
  - rewrite IH2. cbn [sum_over foldr]. rewrite Es. cbn [default id]. fold (sum_over (fun a => default 0 (blob_size_of a b)) l).
    unfold sat_add. lia.
Qed.

Lemma rebuild_all (os : list UserId) (r : gmap (UserId * ChunkId) N) (po : gmap UserId N) :
  NoDup os ->
  let s := foldl (rebuild_owner d) (r, po) os in
  (forall k, s.1 !! k = if decide (k.1 ∈ os /\ is_Some (default ∅ (d !! k.1) !! k.2))
                        then blob_size_of k.2 (default ∅ (d !! k.1)) else r !! k)
  /\ (forall o, o ∉ os -> s.2 !! o = po !! o)
  /\ (forall o, o ∈ os -> po !! o = None ->
        default 0 (s.2 !! o) = N.min (bytes_in (default ∅ (d !! o))) u64_max).
Proof.
  intros Hnd. revert r po. induction Hnd as [|x os Hx Hnd IH]; intros r po; cbn [foldl].
  { cbn. split_and!; [|done|intros o Ho; by apply not_elem_of_nil in Ho].
    intros k. rewrite decide_False; [done|]. intros [H _]. by apply not_elem_of_nil in H. }
  unfold rebuild_owner at 2 4 6. cbn [fst snd].
  pose proof (rebuild_owner_fold x (default ∅ (d !! x)) (blob_addresses (default ∅ (d !! x))) r 0) as Hf.
  destruct (foldl _ (r, 0) _) as [r1 bytes]. cbn [fst snd] in Hf.
  destruct Hf as [Hr1 Hb]; [|lia|].
  { intros a Ha. by apply elem_of_btree_keys. }
  rewrite blob_addresses_sum, N.add_0_l in Hb.
  destruct (IH r1 (if 0 <? bytes then <[x := bytes]> po else po)) as (IH1 & IH2 & IH3). split_and!.
  - intros k. rewrite IH1, Hr1. destruct k as [o c]. cbn [fst snd].
    assert (Hin : c ∈ blob_addresses (default ∅ (d !! x)) <-> is_Some (default ∅ (d !! x) !! c))
      by apply elem_of_btree_keys.
    destruct (decide (o = x)) as [->|Hne].
    + rewrite (decide_False (P := x ∈ os /\ _)) by tauto.
      apply decide_ext. rewrite Hin. set_solver.
    + rewrite (decide_False (P := o = x /\ _)) by tauto.
      apply decide_ext. set_solver.
  - intros o Ho. rewrite IH2 by set_solver. destruct (0 <? bytes); [|done].
    rewrite lookup_insert_ne by set_solver. done.
  - intros o [->|Ho]%elem_of_cons Hpo.
    + rewrite IH2 by done. destruct (N.ltb_spec 0 bytes).
      * by rewrite lookup_insert_eq.
      * rewrite Hpo. cbn. lia.
    + apply IH3; [done|]. destruct (0 <? bytes); [|done]. rewrite lookup_insert_ne by set_solver. done.
Qed.

End rebuild.

(** ** Invariants *)

Definition totals_ok (t : ChunkTables) : Prop :=
  chunk_bytes t = Some (map_sum id (rows t)) /\ owner_totals t = true
  /\ forall o, default 0 (owner_chunk_bytes t !! o) = owner_sum o (rows t).

(** Every file on disk has its row, with its size. *)
Definition covered (v : Vault) : Prop :=
  forall o c s, owner_blobs o v !! c = Some s -> rows (ct v) !! (o, c) = Some (N.of_nat (length s)).

Definition vault_fits (v : Vault) : Prop := map_sum id (rows (ct v)) <= u64_max.

Definition needs_rebuild (v : Vault) : bool :=
  open_mark v || bool_decide (chunk_bytes (ct v) = None) || negb (owner_totals (ct v)).

Lemma covered_ext v v' :
  (forall o c s, owner_blobs o v' !! c = Some s -> owner_blobs o v !! c = Some s) ->
  rows (ct v') = rows (ct v) -> covered v -> covered v'.
Proof. intros Hd Hr Hc o c s Hs. rewrite Hr. auto. Qed.

(** After a rebuild the index is the disk, and the totals are its sums. *)
Lemma reconcile_spec v :
  let v' := reconcile_chunks_if_needed v in
  needs_rebuild v = true -> vault_fits v' ->
  totals_ok (ct v')
  /\ (forall o, owner_blobs o v' = owner_blobs o v)
  /\ (forall o c, rows (ct v') !! (o, c) = (fun s => N.of_nat (length s)) <$> owner_blobs o v' !! c).
Proof.
  cbn zeta. intros Hn. unfold reconcile_chunks_if_needed.
  assert (Hif : negb (open_mark v) && negb (bool_decide (chunk_bytes (ct v) = None) || negb (owner_totals (ct v))) = false).
  { unfold needs_rebuild in Hn. destruct (open_mark v), (bool_decide _), (owner_totals _); done. }
  rewrite Hif. set (os := owners v). set (d := open_dirs os (disk v)).
  pose proof (rebuild_all d os (rows (ct v)) ∅ (owners_NoDup v)) as Hb.
  destruct (foldl (rebuild_owner d) (rows (ct v), ∅) os) as [r po]. cbn [fst snd] in Hb.
  destruct Hb as (Hr & Hpo1 & Hpo2). unfold vault_fits. cbn [ct set_disk set_ct rows].
  set (r' := filter (fun p => row_has_blob os d p.1 = true) r).
  assert (Hown : forall o, owner_blobs o (set_disk d (set_ct (mkCT r' (Some
      (foldl (fun sum p => sat_add sum p.2) 0 (btree_iter po))) true po) v)) = owner_blobs o v).
  { intros o. unfold owner_blobs. cbn [disk set_disk set_ct]. apply open_dirs_blobs. }
  assert (Hd : forall o, default ∅ (d !! o) = owner_blobs o v) by (intros o; apply open_dirs_blobs).
  assert (Hrows : forall o c, r' !! (o, c) = (fun s => N.of_nat (length s)) <$> owner_blobs o v !! c).
  { intros o c. unfold r'. rewrite map_lookup_filter. unfold row_has_blob. cbn [fst snd]. rewrite Hd.
    assert (Hout : o ∉ os -> owner_blobs o v !! c = None).
    { intros Ho. unfold owner_blobs. destruct (disk v !! o) eqn:E; [|apply lookup_empty].
      destruct Ho. apply owners_disk. eauto. }
    rewrite Hr. cbn [fst snd]. rewrite Hd. unfold blob_size_of.
    destruct (owner_blobs o v !! c) as [s|] eqn:Es; cbn.
    - assert (o ∈ os) as Ho. { apply dec_stable. intros Ho. by specialize (Hout Ho). }
      rewrite decide_True by eauto. cbn. rewrite bool_decide_true by done. by rewrite option_guard_True.
    - rewrite decide_False by (intros [_ [? ?]]; done). destruct (rows (ct v) !! (o, c)); cbn; [|done].
      by rewrite option_guard_False by (rewrite andb_false_r; done). }
  intros Hfits. split_and!; [|exact Hown|intros o c; rewrite Hown; apply Hrows].
  assert (Hos : forall o, owner_sum o r' = bytes_in (owner_blobs o v))
    by (intros o; apply (owner_sum_blobs (fun s => N.of_nat (length s))); intros c; apply Hrows).
  assert (Hdef : forall o, default 0 (po !! o) = owner_sum o r').
  { intros o. destruct (decide (o ∈ os)) as [Ho|Ho].
    - rewrite Hpo2 by done. rewrite Hd, Hos. pose proof (owner_sum_le o r') as Hle. rewrite Hos in Hle. lia.
    - rewrite Hpo1, lookup_empty by done. rewrite Hos. cbn. unfold owner_blobs, bytes_in.
      destruct (disk v !! o) eqn:E; [|cbn [default]; by rewrite map_sum_empty]. destruct Ho. apply owners_disk. eauto. }
  split; [|done]. cbn [chunk_bytes rows ct set_disk set_ct]. f_equal.
  rewrite (foldl_sat_add (fun p : UserId * N => p.2)) by done. rewrite N.add_0_l.
  rewrite (map_sum_over id po _ (btree_iter_perm po)).
  rewrite <- (sum_defaults os po); [|apply owners_NoDup|].
  - rewrite (sum_over_ext _ (fun o => owner_sum o r')) by (intros; apply Hdef).
    destruct (sum_owner_sums os r' (owners_NoDup v)) as [_ Heq]. rewrite Heq; [lia|].
    intros [o c] [n Hk]. rewrite Hrows in Hk. cbn. apply owners_disk. unfold owner_blobs in Hk.
    destruct (disk v !! o); [eauto|]. cbn [default] in Hk. by rewrite lookup_empty in Hk.
  - intros o [n Hno]. apply dec_stable. intros Ho. by rewrite Hpo1, lookup_empty in Hno.
Qed.

(** ** One operation at a time *)

(** What an operation must keep: the totals are sums, and coverage unless the
    vault became suspect. *)
Definition keeps (v v' : Vault) : Prop :=
  open_mark v' = open_mark v
  /\ (totals_ok (ct v) -> totals_ok (ct v'))
  /\ (suspect v' = false -> suspect v = false)
  /\ (suspect v' = false -> covered v -> covered v').

Lemma keeps_refl v : keeps v v.
Proof. by split_and!. Qed.

Lemma keeps_trans v1 v2 v3 : keeps v1 v2 -> keeps v2 v3 -> keeps v1 v3.
Proof. intros (O1 & A1 & B1 & C1) (O2 & A2 & B2 & C2). split_and!; auto. congruence. Qed.

(** Only the marks, chains, claims or cursor changed. *)
Lemma keeps_frame v v' :
  ct v' = ct v -> (forall o, owner_blobs o v' = owner_blobs o v) -> suspect v' = suspect v ->
  open_mark v' = open_mark v -> keeps v v'.
Proof.
  intros Ec Ed Es Eo. split_and!; [done|by rewrite Ec|by rewrite Es|].
  intros _. apply covered_ext; [|by rewrite Ec]. intros o c s. by rewrite Ed.
Qed.

Lemma owner_blobs_insert o o' b v :
  owner_blobs o (set_disk (<[o' := b]> (disk v)) v) = if decide (o' = o) then b else owner_blobs o v.
Proof.
  unfold owner_blobs. cbn [disk set_disk]. case_decide as E.
  - by rewrite E, lookup_insert_eq.
  - by rewrite lookup_insert_ne.
Qed.

Lemma blobs_for_keeps o v : keeps v (blobs_for o v).2.
Proof.
  unfold blobs_for. destruct (plugged v); [|apply keeps_refl]. cbn [snd].
  apply keeps_frame; [done| |done|done]. intros o'. rewrite owner_blobs_insert. case_decide; by subst.
Qed.

Lemma unsure_keeps {A} (m : M Vault StoreError A) v :
  (forall a v', m v = (Ok a, v') -> keeps v v') ->
  (forall e v', m v = (Err e, v') -> open_mark v' = open_mark v /\ (totals_ok (ct v) -> totals_ok (ct v'))) ->
  keeps v (unsure m v).2.
Proof.
  intros Hok Herr. unfold unsure. destruct (m v) as [[a|e] v'] eqn:E; cbn [snd]; [eauto|].
  destruct (Herr e v' eq_refl). split_and!; [done|done|by cbn..].
Qed.

Lemma bind_keeps {A B} (m : M Vault StoreError A) (k : A -> M Vault StoreError B) v :
  keeps v (m v).2 -> (forall a v', m v = (Ok a, v') -> keeps v' (k a v').2) -> keeps v (bind m k v).2.
Proof.
  intros Hm Hk. unfold bind. destruct (m v) as [[a|e] v'] eqn:E; [|done].
  eapply keeps_trans; [exact Hm|]. by apply Hk.
Qed.

Lemma index_chunk_totals o c size v :
  totals_ok (ct v) -> vault_fits (index_chunk o c size v) -> totals_ok (ct (index_chunk o c size v)).
Proof.
  intros (H1 & H2 & H3). unfold index_chunk, vault_fits. destruct (unmark o c (mt v)) as [u m].
  case_decide; [done|]. cbn [ct set_mt set_ct retotal rows]. intros Hf.
  pose proof (map_sum_insert id (rows (ct v)) (o, c) size) as Hs.
  pose proof (owner_sum_insert o (o, c) size (rows (ct v))) as Ho. rewrite !decide_True in Ho by done.
  assert (Hd : default 0 (id <$> rows (ct v) !! (o, c)) = default 0 (rows (ct v) !! (o, c)))
    by by destruct (rows (ct v) !! (o, c)).
  rewrite Hd in Hs. change (id size) with size in Hs. cbn [fst] in Ho.
  pose proof (row_le_owner_sum o c (rows (ct v))).
  split_and!; cbn [retotal chunk_bytes owner_totals owner_chunk_bytes rows]; [|done|].
  - rewrite H1. cbn [default id]. rewrite sat_add_exact by lia. f_equal. lia.
  - intros o'. destruct (decide (o = o')) as [<-|Hne].
    + rewrite lookup_insert_eq, H3. cbn [default id].
      pose proof (owner_sum_le o (<[(o, c) := size]> (rows (ct v)))). rewrite sat_add_exact by lia. lia.
    + rewrite lookup_insert_ne, H3 by done. pose proof (owner_sum_insert o' (o, c) size (rows (ct v))) as Ho'.
      rewrite !decide_False in Ho' by done. lia.
Qed.

Lemma index_chunk_rows o c size v k :
  rows (ct (index_chunk o c size v)) !! k = if decide (k = (o, c)) then Some size else rows (ct v) !! k.
Proof.
  unfold index_chunk. destruct (unmark o c (mt v)) as [u m]. case_decide as E.
  - destruct E as [E _]. case_decide; congruence.
  - cbn [ct set_mt set_ct retotal rows]. case_decide as Ek; [subst; apply lookup_insert_eq|].
    by rewrite lookup_insert_ne.
Qed.

Lemma index_chunk_disk o c size v :
  disk (index_chunk o c size v) = disk v /\ suspect (index_chunk o c size v) = suspect v
  /\ open_mark (index_chunk o c size v) = open_mark v.
Proof. unfold index_chunk. destruct (unmark o c (mt v)). by case_decide. Qed.

(** The file half: the stored bytes are the ones already there, if any. *)
Lemma put_chunk_file_eq o c s v :
  put_chunk_file o c s v
  = if plugged v
    then (Ok (bool_decide (owner_blobs o v !! c = None),
              N.of_nat (length (default s (owner_blobs o v !! c)))),
          set_disk (<[o := <[c := default s (owner_blobs o v !! c)]> (owner_blobs o v)]> (disk v)) v)
    else (Err (Io "vault"), v).
Proof.
  unfold put_chunk_file, bind, blobs_for, put_blobs, modify, ret. destruct (plugged v); [|done].
  unfold blob_put, blob_size_of. destruct (owner_blobs o v !! c) as [old|] eqn:E; cbn [fst snd default id].
  - rewrite E. cbn [fmap option_fmap option_map]. rewrite (insert_id (owner_blobs o v) c old) by done.
    unfold set_disk. cbn [disk]. by rewrite insert_insert_eq.
  - rewrite lookup_insert_eq. cbn [fmap option_fmap option_map].
    unfold set_disk. cbn [disk]. by rewrite insert_insert_eq.
Qed.

Lemma put_chunk_eq o c s v :
  put_chunk o c s v
  = if plugged v
    then (Ok (bool_decide (owner_blobs o v !! c = None)),
          index_chunk o c (N.of_nat (length (default s (owner_blobs o v !! c))))
            (set_disk (<[o := <[c := default s (owner_blobs o v !! c)]> (owner_blobs o v)]> (disk v)) v))
    else (Err (Io "vault"), set_suspect true v).
Proof. unfold put_chunk, unsure, bind. rewrite put_chunk_file_eq. by destruct (plugged v). Qed.

Lemma suspect_keeps v : keeps v (set_suspect true v).
Proof. by split_and!. Qed.

Lemma put_chunk_keeps o c s v : vault_fits (put_chunk o c s v).2 -> keeps v (put_chunk o c s v).2.
Proof.
  rewrite put_chunk_eq. destruct (plugged v); [|intros _; apply suspect_keeps]. cbn [snd].
  set (kept := default s (owner_blobs o v !! c)). set (size := N.of_nat (length kept)).
  set (v1 := set_disk _ v). intros Hf. destruct (index_chunk_disk o c size v1) as (Ed & Es & Eo). split_and!.
  - by rewrite Eo.
  - intros Ht. by apply index_chunk_totals.
  - by rewrite Es.
  - intros _ Hc o' c' s' Hs'. unfold owner_blobs in Hs'. rewrite Ed in Hs'. fold (owner_blobs o' v1) in Hs'.
    unfold v1 in Hs'. rewrite owner_blobs_insert in Hs'. rewrite index_chunk_rows.
    destruct (decide ((o', c') = (o, c))) as [Ek|Ek].
    + injection Ek as -> ->. rewrite decide_True, lookup_insert_eq in Hs' by done. by injection Hs' as <-.
    + apply Hc. case_decide as Eo'; [|done]. subst o'. by rewrite lookup_insert_ne in Hs' by congruence.
Qed.

(** Removing rows lowers the totals by exactly their sizes. *)
Lemma unindex_totals o c v : totals_ok (ct v) -> totals_ok (ct (unindex_chunk o c v)).
Proof.
  intros (H1 & H2 & H3). unfold unindex_chunk. cbn [ct set_mt set_ct].
  destruct (rows (ct v) !! (o, c)) as [old|] eqn:E; [|done].
  pose proof (map_sum_delete id (rows (ct v)) (o, c) old E) as Hs. change (id old) with old in Hs.
  split_and!; cbn [chunk_bytes owner_totals owner_chunk_bytes rows]; [|done|].
  - rewrite H1. cbn [default id]. f_equal. lia.
  - intros o'. pose proof (owner_sum_delete o' (o, c) (rows (ct v))) as Ho. rewrite E in Ho. cbn [default id fst] in Ho.
    destruct (decide (o = o')) as [<-|Hne].
    + rewrite lookup_insert_eq, H3. cbn [default id]. lia.
    + rewrite lookup_insert_ne, H3 by done. lia.
Qed.

Lemma unindex_rows o c v k :
  rows (ct (unindex_chunk o c v)) !! k = if decide (k = (o, c)) then None else rows (ct v) !! k.
Proof.
  unfold unindex_chunk. cbn [ct set_mt set_ct]. destruct (rows (ct v) !! (o, c)) as [old|] eqn:E; cbn [rows].
  - case_decide; [subst; apply lookup_delete_eq|by rewrite lookup_delete_ne].
  - case_decide; by subst.
Qed.

(** Dropping a row whose file is gone. *)
Lemma unindex_keeps o c v : owner_blobs o v !! c = None -> keeps v (unindex_chunk o c v).
Proof.
  intros Hgone. split_and!; [done|apply unindex_totals|done|].
  intros _ Hc o' c' s Hs. rewrite unindex_rows. case_decide as E; [|by apply Hc].
  injection E as -> ->. change (owner_blobs o v !! c = Some s) in Hs. congruence.
Qed.

Lemma remove_chunk_eq o c v :
  remove_chunk o c v
  = if plugged v
    then (Ok (blob_contains c (owner_blobs o v)),
          unindex_chunk o c (set_disk (<[o := delete c (owner_blobs o v)]> (disk v)) v))
    else (Err (Io "vault"), set_suspect true v).
Proof.
  unfold remove_chunk, unsure, remove_file, bind, blobs_for, put_blobs, modify, ret.
  destruct (plugged v); [|done]. unfold blob_remove, set_disk. cbn [disk]. by rewrite insert_insert_eq.
Qed.

Lemma fewer_blobs_rows v d' :
  (forall o c s, default ∅ (d' !! o) !! c = Some s -> owner_blobs o v !! c = Some s) ->
  keeps v (set_disk d' v).
Proof. intros H. split_and!; [done|done|done|]. intros _. by apply covered_ext. Qed.

Lemma remove_chunk_keeps o c v : keeps v (remove_chunk o c v).2.
Proof.
  rewrite remove_chunk_eq. destruct (plugged v); [|apply suspect_keeps]. cbn [snd].
  eapply keeps_trans; [apply fewer_blobs_rows|apply unindex_keeps].
  - intros o' c' s. destruct (decide (o = o')) as [<-|Hne].
    + rewrite lookup_insert_eq. cbn [default id]. by intros [_ H]%lookup_delete_Some.
    + by rewrite lookup_insert_ne.
  - rewrite owner_blobs_insert, decide_True by done. apply lookup_delete_eq.
Qed.

Lemma remove_chunks_keeps o cs n v : keeps v (remove_chunks o cs n v).2.
Proof.
  revert n v. induction cs as [|c cs IH]; intros n v; cbn [remove_chunks]; [apply keeps_refl|].
  unfold bind. pose proof (remove_chunk_keeps o c v) as Hk.
  destruct (remove_chunk o c v) as [[gone|e] v']; [|done]. cbn [snd] in Hk.
  eapply keeps_trans; [exact Hk|apply IH].
Qed.

Lemma forget_owner_keeps o v : keeps v (forget_owner o v).2.
Proof.
  unfold forget_owner, bind, gets. pose proof (remove_chunks_keeps o (chunks_for o v) 0 v) as Hk.
  destruct (remove_chunks o (chunks_for o v) 0 v) as [[n|e] v']; [|done]. cbn [snd] in Hk.
  unfold modify, ret. cbn [snd]. eapply keeps_trans; [exact Hk|].
  apply (fewer_blobs_rows v' (delete o (disk v'))). intros o' c s. unfold owner_blobs.
  destruct (decide (o = o')) as [<-|Hne]; [|by rewrite lookup_delete_ne].
  rewrite lookup_delete_eq. cbn [default]. by rewrite lookup_empty.
Qed.

(** The rows an eviction takes, and the bytes they held. *)
Lemma evict_fold (o : UserId) (chosen : list (N * ChunkId)) n r :
  n + map_sum id r <= u64_max ->
  let s := foldl (fun (s : N * gmap (UserId * ChunkId) N) (p : N * ChunkId) =>
             (sat_add s.1 (default 0 (s.2 !! (o, p.2))), delete (o, p.2) s.2)) (n, r) chosen in
  s.2 = foldl (fun r (p : N * ChunkId) => delete (o, p.2) r) r chosen
  /\ s.1 + map_sum id s.2 = n + map_sum id r
  /\ s.1 + owner_sum o s.2 = n + owner_sum o r
  /\ forall o', o' <> o -> owner_sum o' s.2 = owner_sum o' r.
Proof.
  revert n r. induction chosen as [|p chosen IH]; intros n r Hn; cbn [foldl]; [done|]. cbn [fst snd].
  pose proof (map_sum_delete_default id r (o, p.2)) as Hm.
  assert (Hd : default 0 (id <$> r !! (o, p.2)) = default 0 (r !! (o, p.2))) by by destruct (r !! (o, p.2)).
  rewrite Hd in Hm. pose proof (owner_sum_delete o (o, p.2) r) as Ho. rewrite decide_True in Ho by done.
  rewrite sat_add_exact by lia.
  destruct (IH (n + default 0 (r !! (o, p.2))) (delete (o, p.2) r)) as (E1 & E2 & E3 & E4); [lia|].
  split_and!; [done|lia|lia|]. intros o' Hne. rewrite E4 by done.
  pose proof (owner_sum_delete o' (o, p.2) r) as Ho'. rewrite decide_False in Ho' by (cbn; congruence). lia.
Qed.

Lemma foldl_delete_rows (o : UserId) (chosen : list (N * ChunkId)) (r : gmap (UserId * ChunkId) N) (k : UserId * ChunkId) :
  foldl (fun r (p : N * ChunkId) => delete (o, p.2) r) r chosen !! k
  = if bool_decide (k ∈ (fun p : N * ChunkId => (o, p.2)) <$> chosen) then None else r !! k.
Proof. apply (foldl_delete_lookup (fun p : N * ChunkId => (o, p.2))). Qed.

Lemma evict_rows_totals o chosen v :
  vault_fits v -> totals_ok (ct v) ->
  totals_ok (ct (evict_rows o chosen v).2)
  /\ (evict_rows o chosen v).1 + map_sum id (rows (ct (evict_rows o chosen v).2)) = map_sum id (rows (ct v)).
Proof.
  intros Hf (H1 & H2 & H3). unfold evict_rows.
  destruct (evict_fold o chosen 0 (rows (ct v)) ltac:(unfold vault_fits in Hf; lia)) as (E1 & E2 & E3 & E4).
  cbn [fst snd ct set_mt set_ct rows]. rewrite <- E1. split; [|lia].
  split_and!; cbn [chunk_bytes owner_totals owner_chunk_bytes rows]; [|done|].
  - rewrite H1. cbn [default id]. f_equal. lia.
  - intros o'. destruct (decide (o = o')) as [<-|Hne].
    + rewrite lookup_insert_eq, H3. cbn [default id]. lia.
    + rewrite lookup_insert_ne, H3 by done. rewrite E4 by done. lia.
Qed.

Lemma evict_files_eq o chosen v :
  (b <-! blobs_for o;
   put_blobs o (foldl (fun b (p : N * ChunkId) => (blob_remove p.2 b).2) b chosen) ;;!
   (fun v => let '(freed, v) := evict_rows o chosen v in (Ok freed, v))) v
  = if plugged v
    then let v1 := set_disk (<[o := foldl (fun b (p : N * ChunkId) => delete p.2 b) (owner_blobs o v) chosen]>
                                (disk v)) v in
         (Ok (evict_rows o chosen v1).1, (evict_rows o chosen v1).2)
    else (Err (Io "vault"), v).
Proof.
  unfold bind, blobs_for, put_blobs, modify. destruct (plugged v); [|done].
  unfold set_disk at 1 2. cbn [disk]. rewrite insert_insert_eq. done.
Qed.

Lemma evict_tail_keeps o chosen v :
  vault_fits v ->
  keeps v (unsure (b <-! blobs_for o;
   put_blobs o (foldl (fun b (p : N * ChunkId) => (blob_remove p.2 b).2) b chosen) ;;!
   (fun v => let '(freed, v) := evict_rows o chosen v in (Ok freed, v))) v).2.
Proof.
  intros Hf. unfold unsure. rewrite evict_files_eq. destruct (plugged v); [|apply suspect_keeps]. cbn zeta.
  set (v1 := set_disk _ v). assert (Hf1 : vault_fits v1) by done. cbn [snd]. split_and!.
  - done.
  - intros Ht. by apply evict_rows_totals.
  - done.
  - intros _ Hc o' c s Hs. unfold evict_rows. cbn [snd ct set_mt set_ct rows].
    change (owner_blobs o' v1 !! c = Some s) in Hs. unfold v1 in Hs. rewrite owner_blobs_insert in Hs.
    rewrite foldl_delete_rows. rewrite bool_decide_false.
    + apply Hc. case_decide; [|done]. subst o'.
      rewrite (foldl_delete_lookup (fun p : N * ChunkId => p.2)) in Hs. by destruct (bool_decide _).
    + intros (p & [= -> ->] & Hp)%list_elem_of_fmap. rewrite decide_True in Hs by done.
      rewrite (foldl_delete_lookup (fun p : N * ChunkId => p.2)) in Hs.
      rewrite bool_decide_true in Hs; [done|]. by apply list_elem_of_fmap_2.
Qed.

Lemma evict_marked_keeps o n now v : vault_fits v -> keeps v (evict_marked o n now v).2.
Proof.
  intros Hf. unfold evict_marked. destruct (n =? 0); [apply keeps_refl|].
  unfold bind at 1, gets. destruct (choose_evictions o n now v) as [[chosen expired] room].
  unfold bind at 1, modify. set (v1 := set_mt _ v).
  assert (Hk1 : keeps v v1) by by apply keeps_frame.
  destruct (_ || _); [exact Hk1|]. eapply keeps_trans; [exact Hk1|]. by apply evict_tail_keeps.
Qed.

(** Checking the disk. *)
Lemma open_all_keeps {A} (f : A -> UserId) l v :
  keeps v (for_each l (fun k => blobs_for (f k) ;;! ret tt) v).2
  /\ (forall v', (for_each l (fun k => blobs_for (f k) ;;! ret tt) v) = (Ok tt, v') ->
        (forall o, owner_blobs o v' = owner_blobs o v) /\ ct v' = ct v).
Proof.
  revert v. induction l as [|k l IH]; intros v; cbn [for_each].
  { split; [apply keeps_refl|]. by intros v' [= <-]. }
  unfold bind at 1 2 4 5. pose proof (blobs_for_keeps (f k) v) as Hk. revert Hk. unfold blobs_for.
  destruct (plugged v); cbn [snd]; intros Hk; [|split; [done|by intros v' [=]]].
  unfold ret. set (v1 := set_disk _ v) in *. destruct (IH v1) as [IH1 IH2]. split.
  - eapply keeps_trans; [exact Hk|exact IH1].
  - intros v' E. destruct (IH2 v' E) as [Ho Ec]. split; [|done]. intros o. rewrite Ho. unfold v1.
    rewrite owner_blobs_insert. case_decide; by subst.
Qed.

Lemma unindex_all_keeps gone v :
  (forall k, k ∈ gone -> owner_blobs k.1 v !! k.2 = None) ->
  keeps v (foldl (fun v k => unindex_chunk k.1 k.2 v) v gone).
Proof.
  revert v. induction gone as [|k gone IH]; intros v Hg; cbn [foldl]; [apply keeps_refl|].
  eapply keeps_trans; [apply unindex_keeps, Hg; left|]. apply IH.
  intros k' Hk'. change (owner_blobs k'.1 v !! k'.2 = None). apply Hg. by right.
Qed.

Lemma check_disk_keeps limit now v : keeps v (check_disk_at limit now v).2.
Proof.
  unfold check_disk_at. destruct (_ =? 0)%nat; [apply keeps_refl|].
  set (lim := (limit `min` MAX_CHECK_BATCH)%nat). unfold bind at 1, gets at 1.
  destruct (check_slice lim v) as [slice reached]. cbn [fst snd].
  unfold bind at 1. destruct (open_all_keeps (fun k : UserId * ChunkId => k.1) slice v) as [Hk Hok].
  destruct (for_each slice (fun k => blobs_for k.1 ;;! ret tt) v) as [[[]|e] v1]; [|exact Hk]. cbn [snd] in Hk.
  unfold bind at 1, gets at 1. set (gone := filter _ slice). unfold bind at 1, modify.
  assert (Hk2 : keeps v (check_commit slice gone reached now v1)).
  { eapply keeps_trans; [exact Hk|]. unfold check_commit.
    eapply keeps_trans; [apply (unindex_all_keeps gone)|by apply keeps_frame].
    intros k [Hm _]%list_elem_of_filter. unfold blob_missing, blob_contains in Hm.
    apply negb_true_iff, bool_decide_eq_false in Hm. by apply eq_None_not_Some. }
  set (v2 := check_commit slice gone reached now v1) in *.
  eapply keeps_trans; [exact Hk2|]. apply bind_keeps; [|intros; apply keeps_refl].
  destruct reached; [|apply keeps_refl].
  apply (proj1 (open_all_keeps (fun o : UserId => o) (owners v2) v2)).
Qed.

(** ** The vault as a transition system *)

Inductive VaultOp :=
| VPut (o : UserId) (c : ChunkId) (sealed : list N)
| VGet (o : UserId) (c : ChunkId)
| VHas (o : UserId) (c : ChunkId)
| VRemove (o : UserId) (c : ChunkId)
| VMark (o : UserId) (chunks : list ChunkId) (now : N)
| VEvict (o : UserId) (bytes_needed now : N)
| VCheck (limit : nat) (now : N)
| VSegment (e : SegmentEnvelope)
| VForget (o : UserId)
| VClaim (d : DeviceId) (o : UserId) (claim : list N).

Section reachable.
Context `{!Primitives} (encoded_len : SegmentEnvelope -> N).

Definition vault_step (op : VaultOp) (v : Vault) : Vault :=
  match op with
  | VPut o c s => (put_chunk o c s v).2
  | VGet o c => (get_chunk o c v).2
  | VHas o c => (has_chunk o c v).2
  | VRemove o c => (remove_chunk o c v).2
  | VMark o cs now => (mark_evictable o cs now v).2
  | VEvict o n now => (evict_marked o n now v).2
  | VCheck limit now => (check_disk_at limit now v).2
  | VSegment e => (put_segment encoded_len e v).2
  | VForget o => (forget_owner o v).2
  | VClaim d o claim => keep_claim d o claim v
  end.

(** Files can only have disappeared. *)
Definition only_lost (d d' : gmap UserId (gmap ChunkId (list N))) : Prop :=
  forall o c s, default ∅ (d' !! o) !! c = Some s -> default ∅ (d !! o) !! c = Some s.

(** [true] while a process has the vault open.  A process may stop at any
    moment, and a failure between a file and its transaction, whatever it left
    on disk, leaves the vault suspect; an open that fails half-way through its
    rebuild may have changed any row. *)
Inductive vault_reachable : bool -> Vault -> Prop :=
| vr_fresh : vault_reachable false fresh_vault
| vr_open v :
    vault_reachable false v -> plugged v = true -> vault_fits (open encoded_len v) ->
    vault_reachable true (open encoded_len v)
| vr_open_fails v r :
    vault_reachable false v -> needs_rebuild v = true ->
    vault_reachable false
      (set_ct (mkCT r (chunk_bytes (ct v)) (owner_totals (ct v)) (owner_chunk_bytes (ct v))) v)
| vr_step op v :
    vault_reachable true v -> vault_fits (vault_step op v) -> vault_reachable true (vault_step op v)
| vr_torn d' v :
    vault_reachable true v -> vault_reachable true (set_suspect true (set_disk d' v))
| vr_lost b d' v :
    vault_reachable b v -> only_lost (disk v) d' -> vault_reachable b (set_disk d' v)
| vr_plug b p v :
    vault_reachable b v ->
    vault_reachable b (mkVault (disk v) p (ct v) (mt v) (chains v) (cl v) (cur v) (open_mark v) (suspect v))
| vr_close v : vault_reachable true v -> vault_reachable false (close v)
| vr_crash v : vault_reachable true v -> vault_reachable false v.

Lemma step_keeps op v : vault_fits v -> vault_fits (vault_step op v) -> keeps v (vault_step op v).
Proof.
  intros Hf Hf'. destruct op; cbn [vault_step] in *.
  - by apply put_chunk_keeps.
  - apply bind_keeps; [apply blobs_for_keeps|intros; apply keeps_refl].
  - apply bind_keeps; [apply blobs_for_keeps|intros; apply keeps_refl].
  - apply remove_chunk_keeps.
  - unfold mark_evictable. destruct (match _ with Some _ => _ | None => _ end) as [day made].
    destruct (foldl _ _ _) as [[marked made'] t]. by apply keeps_frame.
  - by apply evict_marked_keeps.
  - apply check_disk_keeps.
  - unfold put_segment. destruct (verify_signature e); [|apply keeps_refl].
    destruct (decide _); [apply keeps_refl|]. destruct (decide _); [by apply keeps_frame|apply keeps_refl].
  - apply forget_owner_keeps.
  - unfold keep_claim. destruct (_ && _); [apply keeps_refl|by apply keeps_frame].
Qed.

(** What a process that has the vault open can rely on, and what a closed
    vault that will not be rebuilt has to be. *)
Definition vault_inv (running : bool) (v : Vault) : Prop :=
  if running
  then open_mark v = true /\ totals_ok (ct v) /\ vault_fits v /\ (suspect v = false -> covered v)
  else needs_rebuild v = false -> totals_ok (ct v) /\ covered v.

Lemma backfill_frame v :
  ct (backfill_segment_bytes encoded_len v) = ct v /\ disk (backfill_segment_bytes encoded_len v) = disk v.
Proof. unfold backfill_segment_bytes. by destruct (_ || _). Qed.

Lemma exact_covered v :
  (forall o c, rows (ct v) !! (o, c) = (fun s => N.of_nat (length s)) <$> owner_blobs o v !! c) -> covered v.
Proof. intros He o c s Hs. by rewrite He, Hs. Qed.

Lemma open_inv v : vault_inv false v -> vault_fits (open encoded_len v) -> vault_inv true (open encoded_len v).
Proof.
  unfold open. destruct (backfill_frame (reconcile_chunks_if_needed v)) as [Ec Ed].
  set (w := backfill_segment_bytes encoded_len (reconcile_chunks_if_needed v)) in *.
  intros Hi Hf. change (vault_fits w) in Hf. unfold vault_fits in Hf. rewrite Ec in Hf.
  assert (totals_ok (ct w) /\ covered w) as [Ht Hc].
  { assert (Hcov : covered (reconcile_chunks_if_needed v) -> covered w).
    { apply covered_ext; [|by rewrite Ec]. intros o c s. unfold owner_blobs. by rewrite Ed. }
    rewrite Ec. destruct (needs_rebuild v) eqn:En.
    - destruct (reconcile_spec v En Hf) as (H1 & _ & H3). split; [done|]. by apply Hcov, exact_covered.
    - assert (reconcile_chunks_if_needed v = v) as Er.
      { unfold reconcile_chunks_if_needed. unfold needs_rebuild in En.
        destruct (open_mark v), (bool_decide _), (owner_totals _); done. }
      rewrite Er in *. destruct (Hi En). auto. }
  split_and!; [done|done| |done]. change (vault_fits w). unfold vault_fits. by rewrite Ec.
Qed.

Lemma vault_invariant b v : vault_reachable b v -> vault_inv b v.
Proof.
  induction 1 as [|v Hr IH Hp Hf|v r Hr IH Hn|op v Hr IH Hf|d' v Hr IH|b d' v Hr IH Hl|b p v Hr IH|v Hr IH|v Hr IH].
  - done.
  - by apply open_inv.
  - intros Hn'. change (needs_rebuild v = false) in Hn'. congruence.
  - destruct IH as (H1 & H2 & H3 & H4). destruct (step_keeps op v H3 Hf) as (K1 & K2 & K3 & K4).
    split_and!; [congruence|auto|done|auto].
  - destruct IH as (H1 & H2 & H3 & H4). by split_and!.
  - destruct b.
    + destruct IH as (H1 & H2 & H3 & H4). split_and!; [done|done|done|].
      intros Hs. apply (covered_ext v); [exact Hl|done|auto].
    + intros Hn. destruct (IH Hn). split; [done|]. apply (covered_ext v); [exact Hl|done|done].
  - destruct b; exact IH.
  - destruct IH as (H1 & H2 & H3 & H4). unfold close. intros Hn. destruct (suspect v) eqn:Es.
    + unfold needs_rebuild in Hn. by rewrite H1 in Hn.
    + split; [exact H2|]. exact (H4 eq_refl).
  - destruct IH as (H1 & H2 & H3 & H4). intros Hn. unfold needs_rebuild in Hn. by rewrite H1 in Hn.
Qed.

End reachable.

(** ** Theorems *)

Lemma blob_total_le b : blob_total b <= bytes_in b.
Proof.
  unfold blob_total. rewrite (foldl_sat_add (fun a => default 0 (blob_size_of a b))) by done.
  rewrite N.add_0_l, blob_addresses_sum. lia.
Qed.

Lemma foldl_sat_add_ge {A} (f : A -> N) l a : a <= u64_max -> a <= foldl (fun n x => sat_add n (f x)) a l.
Proof. intros Ha. rewrite foldl_sat_add by done. lia. Qed.

Lemma owner_blobs_opened o o' v v' b :
  blobs_for o v = (Ok b, v') -> owner_blobs o' v' = owner_blobs o' v /\ chains v' = chains v.
Proof.
  unfold blobs_for. destruct (plugged v); [|done]. intros [= <- <-]. split; [|done].
  rewrite owner_blobs_insert. case_decide; by subst.
Qed.

Lemma owner_blobs_all_opened os v v' :
  for_each os (fun o => blobs_for o ;;! ret tt) v = (Ok tt, v') ->
  (forall o, owner_blobs o v' = owner_blobs o v) /\ chains v' = chains v.
Proof.
  revert v. induction os as [|o os IH]; intros v; cbn [for_each].
  - by intros [= <-].
  - unfold bind at 1 2. destruct (blobs_for o v) as [[b|e] w] eqn:E; [|done]. cbn. intros H.
    destruct (IH _ H) as [H1 H2]. split.
    + intros o'. rewrite H1. apply (owner_blobs_opened _ _ _ _ _ E).
    + rewrite H2. apply (owner_blobs_opened _ o _ _ _ E).
Qed.

(** What the walk counts is what the directories and the chains hold. *)
Lemma stats_bytes v s v' :
  stats v = (Ok s, v') -> st_bytes s = st_bytes (stats_of (owners v) v).
Proof.
  unfold stats, gets. unfold bind at 1 2. cbn.
  destruct (for_each _ _ v) as [[[]|e] w] eqn:E; [|done]. intros [= <- <-].
  destruct (owner_blobs_all_opened _ _ _ E) as [H1 H2]. unfold stats_of. cbn [st_bytes]. rewrite H2.
  clear E. f_equal. generalize 0. induction (owners v) as [|o os IH]; intros n; cbn [foldl]; [done|]. rewrite H1. apply IH.
Qed.

(** C10. Whatever stopped before, crashed or lost files, while a vault is open and
    not suspect the figure its pledge is checked against is at least the
    foreign bytes a walk of its disk finds, in all and for each owner, and it
    is the sum of the index's rows. *)
Theorem pledge_never_undercounts `{!Primitives} (encoded_len : SegmentEnvelope -> N) (v : Vault) :
  vault_reachable encoded_len true v -> suspect v = false ->
  (forall s v', stats v = (Ok s, v') -> st_bytes s <= held_bytes v)
  /\ (forall o, bytes_in (owner_blobs o v) <= held_bytes_for o v)
  /\ chunk_bytes (ct v) = Some (map_sum id (rows (ct v))).
Proof.
  intros Hr Hs. destruct (vault_invariant _ _ _ Hr) as (_ & (Ht1 & _ & Ht3) & Hf & Hc). specialize (Hc Hs).
  assert (Hown : forall o, bytes_in (owner_blobs o v) <= owner_sum o (rows (ct v))).
  { intros o. apply (owner_sum_blobs_le (fun s => N.of_nat (length s))). intros c s. apply Hc. }
  split_and!; [| |done].
  - intros s v' E. rewrite (stats_bytes _ _ _ E). unfold held_bytes, stats_of. cbn [st_bytes]. rewrite Ht1. cbn [default id].
    apply (foldl_sat_add_mono (fun p : UserId * DeviceId * N => p.2)).
    rewrite (foldl_sat_add (fun o => blob_total (owner_blobs o v))) by done. rewrite N.add_0_l.
    etransitivity; [apply N.le_min_l|].
    etransitivity; [|apply (sum_owner_sums (owners v) (rows (ct v)) (owners_NoDup v))].
    apply sum_over_le. intros o _. etransitivity; [apply blob_total_le|apply Hown].
  - intros o. unfold held_bytes_for. rewrite Ht3. etransitivity; [apply Hown|].
    apply (foldl_sat_add_ge (fun p : UserId * DeviceId * N => p.2)).
    etransitivity; [apply owner_sum_le|exact Hf].
Qed.

(** A vault that was not closed cleanly, whatever its tables say, is put right
    by opening it: its rows are exactly the files on disk with their sizes,
    and its totals are the bytes of those files. *)
Theorem open_rebuilds_from_disk (encoded_len : SegmentEnvelope -> N) (v : Vault) :
  open_mark v = true -> vault_fits (open encoded_len v) ->
  let v' := open encoded_len v in
  (forall o, owner_blobs o v' = owner_blobs o v)
  /\ (forall o c, rows (ct v') !! (o, c) = (fun s => N.of_nat (length s)) <$> owner_blobs o v !! c)
  /\ (forall o, default 0 (owner_chunk_bytes (ct v') !! o) = bytes_in (owner_blobs o v))
  /\ chunk_bytes (ct v') = Some (map_sum id (rows (ct v'))).
Proof.
  intros Ho. unfold open. destruct (backfill_frame encoded_len (reconcile_chunks_if_needed v)) as [Ec Ed].
  set (w := backfill_segment_bytes encoded_len (reconcile_chunks_if_needed v)) in *. intros Hf.
  change (vault_fits w) in Hf. unfold vault_fits in Hf. rewrite Ec in Hf.
  destruct (reconcile_spec v ltac:(unfold needs_rebuild; by rewrite Ho) Hf) as ((H1 & _ & H3) & Hob & Hrows).
  cbn zeta. cbn [ct set_suspect set_open_mark].
  assert (Hw : forall o, owner_blobs o (set_suspect false (set_open_mark true w)) = owner_blobs o v).
  { intros o. rewrite <- Hob. unfold owner_blobs. cbn [disk set_suspect set_open_mark]. by rewrite Ed. }
  rewrite Ec. split_and!; [done| | |done].
  - intros o c. by rewrite Hrows, Hob.
  - intros o. rewrite H3. apply (owner_sum_blobs (fun s => N.of_nat (length s))).
    intros c. by rewrite Hrows, Hob.
Qed.

(** *** Witnesses: a vault that stored a chunk, stopped between the file of a
    second one and its transaction, and was opened again. *)

Import Toy.

Definition len0 (e : SegmentEnvelope) : N := 10.

Definition torn_vault : Vault :=
  let v := (put_chunk 1 5 [7; 7; 7] (open len0 fresh_vault)).2 in
  set_suspect true (put_chunk_file 1 6 [8; 8] v).2.

Lemma torn_reachable : vault_reachable len0 true (open len0 torn_vault).
Proof.
  apply vr_open; [|done|vm_compute; congruence]. apply vr_crash.
  unfold torn_vault. set (v := (put_chunk 1 5 [7; 7; 7] (open len0 fresh_vault)).2).
  rewrite put_chunk_file_eq. apply (vr_torn len0 _ v).
  apply (vr_step len0 (VPut 1 5 [7; 7; 7])); [|vm_compute; congruence].
  apply vr_open; [apply vr_fresh|done|vm_compute; congruence].
Qed.

Lemma pledge_never_undercounts_witness :
  (match stats (open len0 torn_vault) with
   | (Ok s, _) => st_bytes s <= held_bytes (open len0 torn_vault)
   | _ => False
   end)
  /\ held_bytes (open len0 torn_vault) = 5.
Proof.
  split; [|vm_compute; reflexivity].
  pose proof (proj1 (pledge_never_undercounts len0 (open len0 torn_vault) torn_reachable eq_refl)) as H.
  destruct (stats (open len0 torn_vault)) as [[s|e] w] eqn:E; [exact (H s w eq_refl)|].
  vm_compute in E. discriminate E.
Defined.

Lemma open_rebuilds_from_disk_witness :
  rows (ct torn_vault) !! (1, 6) = None /\ rows (ct (open len0 torn_vault)) !! (1, 6) = Some 2.
Proof.
  split; [vm_compute; reflexivity|].
  destruct (open_rebuilds_from_disk len0 torn_vault eq_refl) as (_ & H & _); [vm_compute; congruence|].
  rewrite H. vm_compute. reflexivity.
Defined.
