(* ===== verification/VaultMarks.v ===== *)
(** * VaultMarks: copies an owner can spare

    The marks of [vault.rs]: that their two tables agree in every reachable
    vault, that making room takes only the asking owner's standing marks,
    oldest first, and enough of them or none, and that a day's new marks are
    capped whatever the clock does.  [expired_mark_is_not_renewed] shows the
    one place where an expired mark is not treated as no mark. *)

From S2P Require Import Prelude Version Ids Crypto Oplog Blob IndexState Summary Vault VaultAccounts.

(** The two tables name the same marks. *)
Definition marks_ok (t : MarkTables) : Prop :=
  forall o at_ c, is_Some (eviction_order t !! (o, (at_, c))) <-> evictable t !! (o, c) = Some at_.

Lemma unmark_evictable o c t k :
  evictable (unmark o c t).2 !! k = if decide (k = (o, c)) then None else evictable t !! k.
Proof.
  unfold unmark. destruct (evictable t !! (o, c)) eqn:E; cbn [snd evictable].
  - case_decide; [subst; apply lookup_delete_eq|by rewrite lookup_delete_ne].
  - case_decide; by subst.
Qed.

Lemma delete_mark_ok o at_ c t :
  marks_ok t -> evictable t !! (o, c) = Some at_ ->
  marks_ok (mkMT (delete (o, c) (evictable t)) (delete (o, (at_, c)) (eviction_order t)) (evict_quota t)).
Proof.
  intros H E o' at' c'. cbn [eviction_order evictable]. specialize (H o' at' c').
  destruct (decide ((o', c') = (o, c))) as [Ek|Hne].
  - injection Ek as -> ->. rewrite lookup_delete_eq.
    destruct (decide (at_ = at')) as [<-|Hat].
    + rewrite lookup_delete_eq. split; [by intros []|done].
    + rewrite lookup_delete_ne by congruence. rewrite H, E. split; congruence.
  - rewrite !lookup_delete_ne by congruence. done.
Qed.

Lemma unmark_ok o c t : marks_ok t -> marks_ok (unmark o c t).2.
Proof.
  intros H. unfold unmark. destruct (evictable t !! (o, c)) as [at_|] eqn:E; [|done].
  by apply delete_mark_ok.
Qed.

Lemma drop_mark_ok o t p : marks_ok t -> is_Some (eviction_order t !! (o, p)) -> marks_ok (drop_mark o t p).
Proof.
  intros H Hp. destruct p as [at_ c]. unfold drop_mark. cbn [snd]. apply delete_mark_ok; [done|]. by apply H.
Qed.

Lemma drop_mark_order o t p k :
  eviction_order (drop_mark o t p) !! k = if decide (k = (o, p)) then None else eviction_order t !! k.
Proof.
  cbn [drop_mark eviction_order]. case_decide; [subst; apply lookup_delete_eq|by rewrite lookup_delete_ne].
Qed.

Lemma drop_marks_ok o t l :
  marks_ok t -> NoDup l -> (forall p, p ∈ l -> is_Some (eviction_order t !! (o, p))) ->
  marks_ok (foldl (drop_mark o) t l)
  /\ (forall k, eviction_order (foldl (drop_mark o) t l) !! k
        = if bool_decide (k ∈ pair o <$> l) then None else eviction_order t !! k).
Proof.
  intros Ht Hnd. revert t Ht. induction Hnd as [|p l Hp Hnd IH]; intros t Ht Hl; cbn [foldl].
  { split; [done|]. intros k. rewrite bool_decide_false; [done|]. cbn. apply not_elem_of_nil. }
  destruct (IH (drop_mark o t p)) as [IH1 IH2].
  - apply drop_mark_ok; [done|]. apply Hl. left.
  - intros q Hq. rewrite drop_mark_order, decide_False; [apply Hl; by right|]. intros [= ->]. done.
  - split; [done|]. intros k. rewrite IH2, drop_mark_order. rewrite fmap_cons.
    destruct (decide (k = (o, p))) as [->|Hne].
    + rewrite (bool_decide_true ((o, p) ∈ (o, p) :: _)) by left. by destruct (bool_decide _).
    + by rewrite (bool_decide_ext (k ∈ pair o <$> l) (k ∈ (o, p) :: (pair o <$> l))) by set_solver.
Qed.

(** ** The order of eviction *)

Lemma elem_of_order_of o t p : p ∈ order_of o t <-> is_Some (eviction_order t !! (o, p)).
Proof.
  unfold order_of. rewrite list_elem_of_fmap. split.
  - intros ([[o' q] []] & -> & [Ho Hin]%list_elem_of_filter). cbn in *. subst o'.
    apply elem_of_btree_iter in Hin. eauto.
  - intros [[] Hp]. exists (o, p, ()). split; [done|]. apply list_elem_of_filter. split; [done|].
    by apply elem_of_btree_iter.
Qed.

Lemma order_of_NoDup o t : marks_ok t -> NoDup ((order_of o t).*2) /\ NoDup (order_of o t).
Proof.
  intros Ht.
  assert (Hn : NoDup (order_of o t)).
  { unfold order_of.
    assert (Hk : NoDup (fst <$> filter (fun p => p.1.1 = o) (btree_iter (eviction_order t)))).
    { eapply sublist_NoDup; [apply (NoDup_btree_keys (eviction_order t))|].
      unfold btree_keys. apply fmap_sublist, sublist_filter. }
    apply NoDup_fmap_2_strong; [|by eapply NoDup_fmap_1].
    intros [[o1 p1] []] [[o2 p2] []] [H1 _]%list_elem_of_filter [H2 _]%list_elem_of_filter E. cbn in *. congruence. }
  split; [|done]. apply NoDup_fmap_2_strong; [|done].
  intros [a1 c1] [a2 c2] H1%elem_of_order_of H2%elem_of_order_of E. cbn in E. subst c2.
  apply Ht in H1, H2. congruence.
Qed.

Lemma order_of_sorted o t : StronglySorted key_le (order_of o t).
Proof.
  unfold order_of. pose proof (StronglySorted_btree_iter (eviction_order t)) as Hs.
  induction Hs as [|p l Hs IH Hall]; [constructor|]. rewrite filter_cons. case_decide as Hp; [|done].
  rewrite fmap_cons. constructor; [done|]. apply Forall_fmap, Forall_forall.
  intros q [Hq Hin]%list_elem_of_filter. rewrite Forall_forall in Hall. specialize (Hall q Hin).
  unfold entry_le in Hall. destruct p as [[o1 p1] []], q as [[o2 q1] []]. cbn in *. subst.
  destruct Hall as [[_ H]|[_ H]]; [by cbn in H|done].
Qed.

(** What [choose_evictions] takes: the standing ones of a prefix of the order. *)
Lemma choose_go_spec (o : UserId) (n now : N) (r : gmap (UserId * ChunkId) N)
    (l chosen expired : list (N * ChunkId)) (room : N) :
  (length chosen + length expired <= MAX_EVICT_PER_CALL)%nat ->
  exists k,
    choose_go o n now r l (chosen, expired, room)
    = (chosen ++ filter (fun p => mark_stands p.1 now = true) (take k l),
       expired ++ filter (fun p => mark_stands p.1 now = false) (take k l),
       foldl (fun a (p : N * ChunkId) => sat_add a (default 0 (r !! (o, p.2)))) room
         (filter (fun p => mark_stands p.1 now = true) (take k l)))
    /\ (length chosen + length expired + length (take k l) <= MAX_EVICT_PER_CALL)%nat.
Proof.
  revert chosen expired room. induction l as [|p l IH]; intros chosen expired room Hl; cbn [choose_go].
  { exists 0%nat. cbn. by rewrite !app_nil_r, Nat.add_0_r. }
  cbn [fst snd]. destruct (_ || _) eqn:Estop.
  { exists 0%nat. cbn. by rewrite !app_nil_r, Nat.add_0_r. }
  apply orb_false_iff in Estop as [_ Hlen%Nat.leb_gt].
  unfold choose_step. destruct (mark_stands p.1 now) eqn:Es.
  - destruct (IH (chosen ++ [p]) expired (sat_add room (default 0 (r !! (o, p.2))))) as (k & -> & Hk).
    { rewrite length_app. cbn. lia. }
    exists (S k). cbn [take]. rewrite !filter_cons, Es, decide_True, decide_False by done.
    rewrite <- app_assoc. split; [done|]. rewrite length_app in Hk. cbn [length] in *. lia.
  - destruct (IH chosen (expired ++ [p]) room) as (k & -> & Hk).
    { rewrite length_app. cbn. lia. }
    exists (S k). cbn [take]. rewrite !filter_cons, Es, decide_False, decide_True by done.
    rewrite <- app_assoc. split; [done|]. rewrite length_app in Hk. cbn [length] in *. lia.
Qed.

(** The bytes freed are the room that was counted. *)
Lemma freed_is_room (o : UserId) (chosen : list (N * ChunkId)) (r r0 : gmap (UserId * ChunkId) N) (n : N) :
  NoDup (chosen.*2) -> (forall c, c ∈ chosen.*2 -> r !! (o, c) = r0 !! (o, c)) ->
  (foldl (fun (s : N * gmap (UserId * ChunkId) N) (p : N * ChunkId) =>
     (sat_add s.1 (default 0 (s.2 !! (o, p.2))), delete (o, p.2) s.2)) (n, r) chosen).1
  = foldl (fun a (p : N * ChunkId) => sat_add a (default 0 (r0 !! (o, p.2)))) n chosen.
Proof.
  revert n r. induction chosen as [|p l IH]; intros n r Hnd Hr; cbn [foldl]; [done|]. cbn [fst snd].
  rewrite fmap_cons in Hnd, Hr. apply NoDup_cons in Hnd as [Hp Hnd]. rewrite (Hr p.2) by left.
  apply IH; [done|]. intros c Hc. rewrite lookup_delete_ne by (intros [= <-]; done). apply Hr. by right.
Qed.

(** ** Every operation keeps the two tables in step *)

Lemma insert_mark_ok o c now t :
  marks_ok t -> evictable t !! (o, c) = None ->
  marks_ok (mkMT (<[(o, c) := now]> (evictable t)) (<[(o, (now, c)) := tt]> (eviction_order t)) (evict_quota t)).
Proof.
  intros H E o' at' c'. cbn [eviction_order evictable]. specialize (H o' at' c').
  destruct (decide ((o', c') = (o, c))) as [Ek|Hne].
  - injection Ek as -> ->. rewrite lookup_insert_eq.
    destruct (decide (now = at')) as [<-|Hat].
    + rewrite lookup_insert_eq. split; [done|eauto].
    + rewrite lookup_insert_ne by congruence. rewrite H, E. split; congruence.
  - rewrite !lookup_insert_ne by congruence. done.
Qed.

Lemma mark_one_ok o now r s c : marks_ok s.2 -> marks_ok (mark_one o now r s c).2.
Proof.
  destruct s as [[marked made] t]. cbn [snd]. intros H. unfold mark_one.
  destruct (evictable t !! (o, c)) eqn:E; [done|]. destruct (_ || _); [done|]. by apply insert_mark_ok.
Qed.

Lemma mark_evictable_ok o cs now v : marks_ok (mt v) -> marks_ok (mt (mark_evictable o cs now v).2).
Proof.
  intros H. unfold mark_evictable. destruct (match _ with Some _ => _ | None => _ end) as [day made].
  assert (Hgo : forall l s, marks_ok s.2 -> marks_ok (foldl (mark_one o now (rows (ct v))) s l).2).
  { induction l as [|c l IH]; intros s Hs; cbn [foldl]; [done|]. by apply IH, mark_one_ok. }
  specialize (Hgo (merge_sort N.le (remove_dups cs)) (0, made, mt v) H).
  destruct (foldl _ _ _) as [[marked made'] t]. exact Hgo.
Qed.

Lemma index_chunk_mt o c size v :
  marks_ok (mt v) -> marks_ok (mt (index_chunk o c size v)).
Proof.
  intros H. unfold index_chunk. pose proof (unmark_ok o c (mt v) H) as Hu.
  destruct (unmark o c (mt v)) as [u m]. by case_decide.
Qed.

Lemma remove_chunk_mt o c v : marks_ok (mt v) -> marks_ok (mt (remove_chunk o c v).2).
Proof.
  intros H. rewrite remove_chunk_eq. destruct (plugged v); [|done]. cbn [snd unindex_chunk mt set_mt].
  by apply unmark_ok.
Qed.

Lemma remove_chunks_mt o cs n v : marks_ok (mt v) -> marks_ok (mt (remove_chunks o cs n v).2).
Proof.
  revert n v. induction cs as [|c cs IH]; intros n v Hv; cbn [remove_chunks]; [done|].
  unfold bind. pose proof (remove_chunk_mt o c v Hv) as Hk.
  destruct (remove_chunk o c v) as [[gone|e] v']; [by apply IH|done].
Qed.

Lemma forget_tables_mt o v : marks_ok (mt v) -> marks_ok (mt (forget_tables o v)).
Proof.
  intros H o' at_ c. cbn [forget_tables mt set_disk set_chains set_mt evictable eviction_order].
  specialize (H o' at_ c). destruct (decide (o' = o)) as [->|Hne].
  - rewrite !map_lookup_filter_None_2.
    + split; [by intros []|done].
    + right. intros x _. cbn. tauto.
    + right. intros x _. cbn. tauto.
  - rewrite map_lookup_filter_Some. unfold is_Some in *. setoid_rewrite map_lookup_filter_Some. cbn.
    naive_solver.
Qed.

(** What is chosen and what has expired, from the tables. *)
Lemma choose_evictions_spec o n now v chosen expired room :
  marks_ok (mt v) -> choose_evictions o n now v = (chosen, expired, room) ->
  exists k,
    chosen = filter (fun p => mark_stands p.1 now = true) (take k (order_of o (mt v)))
    /\ expired = filter (fun p => mark_stands p.1 now = false) (take k (order_of o (mt v)))
    /\ room = foldl (fun a (p : N * ChunkId) => sat_add a (default 0 (rows (ct v) !! (o, p.2)))) 0 chosen
    /\ (length (take k (order_of o (mt v))) <= MAX_EVICT_PER_CALL)%nat.
Proof.
  intros Hm E. unfold choose_evictions in E.
  destruct (choose_go_spec o n now (rows (ct v)) (order_of o (mt v)) [] [] 0) as (k & Ek & Hk); [cbn; lia|].
  rewrite Ek in E. injection E as <- <- <-. exists k. cbn in *. split_and!; done.
Qed.

Lemma filter_take_order (P : N * ChunkId -> Prop) `{!forall x, Decision (P x)} o k t :
  marks_ok t ->
  NoDup (filter P (take k (order_of o t))) /\ NoDup ((filter P (take k (order_of o t))).*2)
  /\ forall p, p ∈ filter P (take k (order_of o t)) -> P p /\ is_Some (eviction_order t !! (o, p)).
Proof.
  intros Ht. destruct (order_of_NoDup o t Ht) as [N2 N1].
  assert (Hsub : filter P (take k (order_of o t)) `sublist_of` order_of o t).
  { etransitivity; [apply sublist_filter|apply sublist_take]. }
  split_and!.
  - by eapply sublist_NoDup.
  - eapply sublist_NoDup; [exact N2|]. by apply fmap_sublist.
  - intros p Hp. pose proof (sublist_subseteq _ _ Hsub p Hp) as Ho%elem_of_order_of.
    apply list_elem_of_filter in Hp as [HP _]. done.
Qed.

Lemma evict_marked_split o n now v chosen expired room :
  marks_ok (mt v) -> n <> 0 -> choose_evictions o n now v = (chosen, expired, room) ->
  let v1 := set_mt (foldl (drop_mark o) (mt v) expired) v in
  marks_ok (mt v1)
  /\ (forall p, p ∈ chosen -> is_Some (eviction_order (mt v1) !! (o, p)))
  /\ evict_marked o n now v
     = if bool_decide (chosen = []) || (room <? n) then (Ok 0, v1)
       else if plugged v
       then let v2 := set_disk (<[o := foldl (fun b (p : N * ChunkId) => delete p.2 b) (owner_blobs o v) chosen]>
                                  (disk v)) v1 in
            (Ok (evict_rows o chosen v2).1, (evict_rows o chosen v2).2)
       else (Err (Io "vault"), set_suspect true v1).
Proof.
  intros Hm Hn E. cbn zeta. set (v1 := set_mt _ v).
  destruct (choose_evictions_spec o n now v chosen expired room Hm E) as (k & Ec & Ee & _ & _).
  destruct (filter_take_order (fun p => mark_stands p.1 now = true) o k (mt v) Hm) as (C1 & C2 & C3).
  destruct (filter_take_order (fun p => mark_stands p.1 now = false) o k (mt v) Hm) as (X1 & X2 & X3).
  rewrite <- Ec in *. rewrite <- Ee in *.
  destruct (drop_marks_ok o (mt v) expired Hm X1) as [D1 D2]; [intros p Hp; by apply X3|].
  split_and!; [exact D1| |].
  - intros p Hp. cbn [v1 mt set_mt]. rewrite D2, bool_decide_false; [by apply C3|].
    intros (q & [= <-] & Hq)%list_elem_of_fmap. destruct (C3 p Hp), (X3 p Hq). congruence.
  - unfold evict_marked. rewrite (proj2 (N.eqb_neq n 0) Hn). unfold bind at 1, gets. rewrite E.
    unfold bind at 1, modify. fold v1. destruct (_ || _); [done|]. unfold unsure. rewrite evict_files_eq.
    change (plugged v1) with (plugged v). by destruct (plugged v).
Qed.

Lemma evict_marked_mt o n now v : marks_ok (mt v) -> marks_ok (mt (evict_marked o n now v).2).
Proof.
  intros Hm. destruct (decide (n = 0)) as [->|Hn]; [done|].
  destruct (choose_evictions o n now v) as [[chosen expired] room] eqn:E.
  destruct (evict_marked_split o n now v chosen expired room Hm Hn E) as (H1 & H2 & ->).
  destruct (_ || _); [done|]. destruct (plugged v); [|done].
  destruct (choose_evictions_spec o n now v chosen expired room Hm E) as (k & Ec & _).
  destruct (filter_take_order (fun p => mark_stands p.1 now = true) o k (mt v) Hm) as (C1 & _).
  rewrite <- Ec in C1. unfold evict_rows. cbn [snd mt set_mt].
  apply (drop_marks_ok o _ chosen H1 C1 H2).
Qed.

Lemma blobs_for_mt o v : mt (blobs_for o v).2 = mt v.
Proof. unfold blobs_for. by destruct (plugged v). Qed.

Lemma open_all_mt {A} (f : A -> UserId) l v :
  mt (for_each l (fun k => blobs_for (f k) ;;! ret tt) v).2 = mt v.
Proof.
  revert v. induction l as [|k l IH]; intros v; cbn [for_each]; [done|]. unfold bind at 1 2.
  pose proof (blobs_for_mt (f k) v) as E. destruct (blobs_for (f k) v) as [[b|e] v1]; cbn [snd] in *; [|done].
  unfold ret. rewrite IH. done.
Qed.

Lemma check_disk_mt limit now v : marks_ok (mt v) -> marks_ok (mt (check_disk_at limit now v).2).
Proof.
  intros Hm. unfold check_disk_at. destruct (_ =? 0)%nat; [done|].
  set (lim := (limit `min` MAX_CHECK_BATCH)%nat). unfold bind at 1, gets at 1.
  destruct (check_slice lim v) as [slice reached]. cbn [fst snd]. unfold bind at 1.
  pose proof (open_all_mt (fun k : UserId * ChunkId => k.1) slice v) as E1.
  destruct (for_each slice (fun k => blobs_for k.1 ;;! ret tt) v) as [[[]|e] v1]; cbn [snd] in E1; [|cbn [snd]; by rewrite E1].
  unfold bind at 1, gets at 1. set (gone := filter _ slice). unfold bind at 1, modify.
  set (v2 := check_commit slice gone reached now v1).
  assert (Hm2 : marks_ok (mt v2)).
  { unfold v2, check_commit. cbn [mt set_cur]. rewrite <- E1 in Hm. revert Hm. generalize v1. generalize gone.
    intros g w. revert w. induction g as [|k g IH]; intros w Hw; cbn [foldl]; [done|]. apply IH. by apply unmark_ok. }
  unfold bind at 1. destruct reached; [|exact Hm2]. unfold bind at 1, gets.
  pose proof (open_all_mt (fun o : UserId => o) (owners v2) v2) as E3.
  destruct (for_each (owners v2) _ v2) as [[[]|e] v3]; cbn [snd ret] in *; by rewrite E3.
Qed.

Section reachable.
Context `{!Primitives} (encoded_len : SegmentEnvelope -> N).

Lemma step_marks op v : marks_ok (mt v) -> marks_ok (mt (vault_step encoded_len op v)).
Proof.
  intros Hm. destruct op; cbn [vault_step].
  - rewrite put_chunk_eq. destruct (plugged v); [|done]. by apply index_chunk_mt.
  - unfold get_chunk, bind. pose proof (blobs_for_mt o v) as E. by destruct (blobs_for o v) as [[b|e] v1]; cbn in *; rewrite E.
  - unfold has_chunk, bind. pose proof (blobs_for_mt o v) as E. by destruct (blobs_for o v) as [[b|e] v1]; cbn in *; rewrite E.
  - by apply remove_chunk_mt.
  - by apply mark_evictable_ok.
  - by apply evict_marked_mt.
  - by apply check_disk_mt.
  - unfold put_segment. destruct (verify_signature e); [|done]. by repeat destruct (decide _).
  - unfold forget_owner, bind, gets. pose proof (remove_chunks_mt o (chunks_for o v) 0 v Hm) as Hk.
    destruct (remove_chunks o (chunks_for o v) 0 v) as [[n|e] v']; [|done]. by apply forget_tables_mt.
  - unfold keep_claim. by destruct (_ && _).
Qed.

Lemma open_mt v : mt (open encoded_len v) = mt v.
Proof.
  unfold open. cbn [mt set_suspect set_open_mark]. unfold backfill_segment_bytes.
  assert (mt (reconcile_chunks_if_needed v) = mt v) as E.
  { unfold reconcile_chunks_if_needed. destruct (_ && _); [done|]. by destruct (foldl _ _ _). }
  by destruct (_ || _).
Qed.

Lemma marks_invariant b v : vault_reachable encoded_len b v -> marks_ok (mt v).
Proof.
  induction 1 as [|v Hr IH Hp Hf|v r Hr IH Hn|op v Hr IH Hf|d' v Hr IH|b d' v Hr IH Hl|b p v Hr IH|v Hr IH|v Hr IH];
    try exact IH.
  - intros o at_ c. cbn. rewrite !lookup_empty. split; [by intros []|done].
  - by rewrite open_mt.
  - by apply step_marks.
  - unfold close. by destruct (suspect v).
Qed.

End reachable.

(** ** Making room *)

Lemma evicted_lookups o (chosen : list (N * ChunkId)) (v : Vault) :
  let v2 := set_disk (<[o := foldl (fun b (p : N * ChunkId) => delete p.2 b) (owner_blobs o v) chosen]> (disk v)) v in
  let v' := (evict_rows o chosen v2).2 in
  forall o' c,
    (o' = o /\ c ∈ chosen.*2 -> rows (ct v') !! (o', c) = None /\ owner_blobs o' v' !! c = None)
    /\ (~ (o' = o /\ c ∈ chosen.*2) ->
          rows (ct v') !! (o', c) = rows (ct v) !! (o', c) /\ owner_blobs o' v' !! c = owner_blobs o' v !! c).
Proof.
  cbn zeta. intros o' c. set (v2 := set_disk _ v).
  change (owner_blobs o' (evict_rows o chosen v2).2) with (owner_blobs o' v2).
  unfold evict_rows. cbn [snd ct set_mt set_ct rows]. rewrite foldl_delete_rows.
  change (rows (ct v2)) with (rows (ct v)). unfold v2. rewrite owner_blobs_insert.
  assert (Hin : (o', c) ∈ (fun p : N * ChunkId => (o, p.2)) <$> chosen <-> o' = o /\ c ∈ chosen.*2).
  { rewrite !list_elem_of_fmap. naive_solver. }
  split.
  - intros H. rewrite bool_decide_true by by apply Hin. split; [done|]. destruct H as [-> Hc].
    rewrite decide_True by done. rewrite (foldl_delete_lookup (fun p : N * ChunkId => p.2)).
    by rewrite bool_decide_true.
  - intros H. rewrite bool_decide_false by by rewrite Hin. split; [done|]. case_decide; [|done]. subst o'.
    rewrite (foldl_delete_lookup (fun p : N * ChunkId => p.2)). rewrite bool_decide_false; [done|]. tauto.
Qed.

Lemma take_oldest (l : list (N * ChunkId)) k p q :
  StronglySorted key_le l -> p ∈ take k l -> q ∈ l -> q ∉ take k l -> p.1 <= q.1.
Proof.
  intros Hs Hp Hq Hnq. rewrite <- (take_drop k l) in Hs, Hq. apply elem_of_app in Hq as [|Hq]; [done|].
  pose proof (StronglySorted_app_1_elem_of _ _ _ _ _ Hs Hp Hq) as [[H _]|[H _]]; cbn in H; lia.
Qed.

(** C11. Making room takes nothing, or frees at least what was asked from at most
    256 copies that the asking owner itself marked, within the time the marks
    stand and oldest mark first; every other copy stays, index and file. *)
Theorem eviction_is_safe `{!Primitives} (encoded_len : SegmentEnvelope -> N)
    (v v' : Vault) (o : UserId) (n now freed : N) :
  vault_reachable encoded_len true v -> evict_marked o n now v = (Ok freed, v') ->
  exists chosen : list (N * ChunkId),
    (chosen = [] /\ freed = 0 \/ n <= freed)
    /\ (length chosen <= MAX_EVICT_PER_CALL)%nat
    /\ (forall p, p ∈ chosen -> evictable (mt v) !! (o, p.2) = Some p.1 /\ mark_stands p.1 now = true)
    /\ (forall p q, p ∈ chosen -> evictable (mt v) !! (o, q.2) = Some q.1 -> mark_stands q.1 now = true ->
          q ∉ chosen -> p.1 <= q.1)
    /\ (forall o' c, (o' = o /\ c ∈ chosen.*2 -> rows (ct v') !! (o', c) = None /\ owner_blobs o' v' !! c = None)
          /\ (~ (o' = o /\ c ∈ chosen.*2) ->
                rows (ct v') !! (o', c) = rows (ct v) !! (o', c)
                /\ owner_blobs o' v' !! c = owner_blobs o' v !! c)).
Proof.
  intros Hr Ev. pose proof (marks_invariant _ _ _ Hr) as Hm.
  assert (Hnone : forall w : Vault, ct w = ct v -> disk w = disk v -> exists chosen : list (N * ChunkId),
    (chosen = [] /\ 0 = 0 \/ n <= 0) /\ (length chosen <= MAX_EVICT_PER_CALL)%nat
    /\ (forall p, p ∈ chosen -> evictable (mt v) !! (o, p.2) = Some p.1 /\ mark_stands p.1 now = true)
    /\ (forall p q, p ∈ chosen -> evictable (mt v) !! (o, q.2) = Some q.1 -> mark_stands q.1 now = true ->
          q ∉ chosen -> p.1 <= q.1)
    /\ (forall o' c, (o' = o /\ c ∈ chosen.*2 -> rows (ct w) !! (o', c) = None /\ owner_blobs o' w !! c = None)
          /\ (~ (o' = o /\ c ∈ chosen.*2) ->
                rows (ct w) !! (o', c) = rows (ct v) !! (o', c) /\ owner_blobs o' w !! c = owner_blobs o' v !! c))).
  { intros w Ec Ed. exists []. split; [by left|]. split; [cbn; lia|]. split; [|split].
    - intros p Hp. by apply not_elem_of_nil in Hp.
    - intros p q Hp. by apply not_elem_of_nil in Hp.
    - intros o' c. split; [|intros _; unfold owner_blobs; by rewrite Ec, Ed].
      intros [_ Hx]. cbn in Hx. by apply not_elem_of_nil in Hx. }
  destruct (decide (n = 0)) as [->|Hn].
  { injection Ev as <- <-. by apply Hnone. }
  destruct (choose_evictions o n now v) as [[chosen expired] room] eqn:E.
  destruct (evict_marked_split o n now v chosen expired room Hm Hn E) as (_ & _ & Heq).
  rewrite Heq in Ev. destruct (bool_decide (chosen = []) || (room <? n)) eqn:Estop.
  { injection Ev as <- <-. by apply Hnone. }
  destruct (plugged v); [|done]. apply orb_false_iff in Estop as [_ Hroom%N.ltb_ge].
  destruct (choose_evictions_spec o n now v chosen expired room Hm E) as (k & Ec & _ & Eroom & Hk).
  destruct (filter_take_order (fun p => mark_stands p.1 now = true) o k (mt v) Hm) as (C1 & C2 & C3).
  rewrite <- Ec in C1, C2, C3. set (v1 := set_mt _ v) in Ev. injection Ev as Efreed <-.
  exists chosen. split_and!.
  - right. rewrite <- Efreed. unfold evict_rows. cbn [fst]. rewrite (freed_is_room o chosen _ (rows (ct v))) by done.
    by rewrite <- Eroom.
  - rewrite Ec. etransitivity; [apply length_filter|exact Hk].
  - intros [a c] Hp. destruct (C3 _ Hp) as [? Ho]. split; [|done]. by apply Hm.
  - intros p [a c] Hp Hq Hst Hout. apply (take_oldest (order_of o (mt v)) k); [apply order_of_sorted| | |].
    + rewrite Ec in Hp. by apply list_elem_of_filter in Hp as [_ ?].
    + apply elem_of_order_of. by apply Hm.
    + intros Hin. apply Hout. rewrite Ec. by apply list_elem_of_filter.
  - apply (evicted_lookups o chosen v1).
Qed.

(** ** The day's cap *)

Lemma mark_fold_count o now r l marked made t :
  let s := foldl (mark_one o now r) (marked, made, t) l in
  N.of_nat (size (evictable s.2)) + made = N.of_nat (size (evictable t)) + s.1.2
  /\ made <= s.1.2 <= N.max made MAX_EVICTABLE_PER_DAY /\ evict_quota s.2 = evict_quota t.
Proof.
  revert marked made t. induction l as [|c l IH]; intros marked made t; cbn [foldl]; [cbn; split_and!; lia || done|].
  unfold mark_one at 2 4 6 8 10. destruct (evictable t !! (o, c)) as [a|] eqn:E; [apply IH|].
  destruct (bool_decide (r !! (o, c) = None) || (MAX_EVICTABLE_PER_DAY <=? made)) eqn:Es; [apply IH|].
  apply orb_false_iff in Es as [_ Hlt%N.leb_gt].
  destruct (IH (N.min (marked + 1) u32_max) (made + 1)
    (mkMT (<[(o, c) := now]> (evictable t)) (<[(o, (now, c)) := tt]> (eviction_order t)) (evict_quota t)))
    as (I1 & I2 & I3). cbn [evictable evict_quota] in *. rewrite map_size_insert_None in I1 by done.
  split_and!; [lia|lia|lia|done].
Qed.

(** One owner's calls, with whatever the clock reads at each. *)
Definition mark_calls (o : UserId) (calls : list (list ChunkId * N)) (v : Vault) : Vault :=
  foldl (fun v p => (mark_evictable o p.1 p.2 v).2) v calls.

(** Once a day's count has begun, all the marks an owner can make until the
    clock passes that day are within the cap, however often it asks and even
    if the clock is set back. *)
Theorem daily_marks_are_capped (o : UserId) (calls : list (list ChunkId * N)) (v : Vault) (d m : N) :
  evict_quota (mt v) !! o = Some (d, m) -> (forall p, p ∈ calls -> p.2 / DAY <= d) ->
  let v' := mark_calls o calls v in
  exists m', evict_quota (mt v') !! o = Some (d, m') /\ m <= m' <= N.max m MAX_EVICTABLE_PER_DAY
    /\ N.of_nat (size (evictable (mt v'))) + m = N.of_nat (size (evictable (mt v))) + m'.
Proof.
  cbn zeta. unfold mark_calls. revert v m. induction calls as [|[cs now] calls IH]; intros v m Hq Hc; cbn [foldl].
  { exists m. split_and!; [done|lia|lia|lia]. }
  assert (Hday : now / DAY <= d) by (apply (Hc (cs, now)); left).
  assert (Hone : exists m1, evict_quota (mt (mark_evictable o cs now v).2) !! o = Some (d, m1)
    /\ m <= m1 <= N.max m MAX_EVICTABLE_PER_DAY
    /\ N.of_nat (size (evictable (mt (mark_evictable o cs now v).2))) + m
       = N.of_nat (size (evictable (mt v))) + m1).
  { unfold mark_evictable. rewrite Hq, (proj2 (N.leb_le _ _) Hday).
    pose proof (mark_fold_count o now (rows (ct v)) (merge_sort N.le (remove_dups cs)) 0 m (mt v)) as Hf.
    destruct (foldl _ _ _) as [[marked made] t]. cbn [fst snd] in *. destruct Hf as (F1 & F2 & F3).
    exists made. cbn [snd mt set_mt evict_quota evictable]. rewrite lookup_insert_eq. split_and!; [done|lia|lia|lia]. }
  destruct Hone as (m1 & Q1 & B1 & S1). cbn [fst snd].
  destruct (IH (mark_evictable o cs now v).2 m1 Q1) as (m2 & Q2 & B2 & S2).
  { intros p Hp. apply Hc. by right. }
  exists m2. split_and!; [done|lia|lia|lia].
Qed.

(** ** Expired marks *)

(** A mark past its time does not stand, and yet it keeps a new one from being
    made: asked to mark the chunk again, the host answers that it is marked,
    and goes on serving, summarising and never evicting it. *)
Theorem expired_mark_is_not_renewed (o : UserId) (c : ChunkId) (now at_ : N) (v : Vault) :
  evictable (mt v) !! (o, c) = Some at_ -> at_ + MARK_EXPIRES <= now ->
  let '(marked, v') := mark_evictable o [c] now v in
  marked = 1 /\ standing o now (mt v') c = false /\ marked_among o [c] now v' = ∅.
Proof.
  intros E Hold. unfold mark_evictable. change (remove_dups [c]) with [c]. change (merge_sort N.le [c]) with [c].
  destruct (match evict_quota (mt v) !! o with Some _ => _ | None => _ end) as [day made].
  cbn [foldl]. unfold mark_one. rewrite E.
  assert (Hs : standing o now (mt (set_mt (mkMT (evictable (mt v)) (eviction_order (mt v))
                 (<[o := (day, made)]> (evict_quota (mt v)))) v)) c = false).
  { unfold standing. cbn [mt set_mt evictable]. rewrite E. unfold mark_stands. apply N.ltb_ge. lia. }
  split_and!; [done|exact Hs|]. unfold marked_among. rewrite filter_cons, Hs. by rewrite decide_False.
Qed.

(** *** Witnesses *)

Import Toy.

(** A vault holding two chunks of owner 1, one of them marked. *)
Definition marked_vault : Vault :=
  vault_step len0 (VMark 1 [5] 1000)
    (vault_step len0 (VPut 1 6 [9]) (vault_step len0 (VPut 1 5 [7; 7; 7]) (open len0 fresh_vault))).

Lemma marked_reachable : vault_reachable len0 true marked_vault.
Proof.
  apply (vr_step len0 (VMark 1 [5] 1000)); [|vm_compute; congruence].
  apply (vr_step len0 (VPut 1 6 [9])); [|vm_compute; congruence].
  apply (vr_step len0 (VPut 1 5 [7; 7; 7])); [|vm_compute; congruence].
  apply vr_open; [apply vr_fresh|done|vm_compute; congruence].
Qed.

Lemma eviction_is_safe_witness :
  exists v' (chosen : list (N * ChunkId)),
    evict_marked 1 2 2000 marked_vault = (Ok 3, v')
    /\ (chosen = [] /\ 3 = 0 \/ 2 <= 3)
    /\ (forall p, p ∈ chosen -> evictable (mt marked_vault) !! (1, p.2) = Some p.1 /\ mark_stands p.1 2000 = true).
Proof.
  destruct (evict_marked 1 2 2000 marked_vault) as [[freed|e] v'] eqn:E; [|vm_compute in E; discriminate].
  assert (freed = 3) as -> by (vm_compute in E; congruence). exists v'.
  destruct (eviction_is_safe len0 marked_vault v' 1 2 2000 3 marked_reachable E) as (chosen & H1 & _ & H3 & _).
  exists chosen. split; [reflexivity|]. split; [exact H1|exact H3].
Defined.

Lemma daily_marks_are_capped_witness :
  exists m', evict_quota (mt (mark_calls 1 [([6], 900); ([5; 6], 1)] marked_vault)) !! 1 = Some (0, m')
    /\ 1 <= m' <= 4096.
Proof.
  destruct (daily_marks_are_capped 1 [([6], 900); ([5; 6], 1)] marked_vault 0 1) as (m' & H1 & H2 & _).
  - vm_compute. reflexivity.
  - intros p Hp. repeat (apply elem_of_cons in Hp as [->|Hp]; [vm_compute; congruence|]).
    by apply not_elem_of_nil in Hp.
  - exists m'. split; [exact H1|exact H2].
Defined.

Lemma expired_mark_is_not_renewed_witness :
  let '(marked, v') := mark_evictable 1 [5] 3000000 marked_vault in
  marked = 1 /\ standing 1 3000000 (mt v') 5 = false /\ marked_among 1 [5] 3000000 v' = ∅.
Proof. apply (expired_mark_is_not_renewed 1 5 3000000 1000 marked_vault); vm_compute; congruence. Defined.
