(* ===== verification/VaultChains.v ===== *)
(** * VaultChains: the log chains a host keeps

    A vault accepts a segment only with a good signature and only when it
    continues the chain held for that device.  In every reachable vault each
    chain is numbered without holes, each segment names the one before it, and
    the head is the last one; [segments_for] serves a contiguous run of it. *)

From S2P Require Import Prelude Version Ids Crypto Oplog Blob IndexState Summary Vault VaultAccounts.

Section chains.
Context `{!Primitives}.

Record chain_ok (t : ChainTables) (key : UserId * DeviceId) : Prop := {
  co_numbered : forall i, is_Some (segs t !! (key, i)) <-> i < default 0 (chain_lengths t !! key);
  co_first : forall a, segs t !! (key, 0) = Some a -> previous a = None;
  co_linked : forall i a b, segs t !! (key, i) = Some a -> segs t !! (key, i + 1) = Some b ->
    previous b = Some (segment_id a);
  co_head : heads t !! key
    = if default 0 (chain_lengths t !! key) =? 0 then None
      else segment_id <$> segs t !! (key, default 0 (chain_lengths t !! key) - 1);
  co_genuine : forall i e, segs t !! (key, i) = Some e ->
    (owner e, device e) = key /\ verify_signature e = Ok tt;
}.

Definition chains_ok (t : ChainTables) : Prop := forall key, chain_ok t key.

(** Appending to the end of one chain. *)
Lemma append_ok t e bytes :
  let key := (owner e, device e) in
  let n := default 0 (chain_lengths t !! key) in
  chains_ok t -> verify_signature e = Ok tt -> previous e = heads t !! key ->
  chains_ok (mkChains (<[(key, n) := e]> (segs t)) (<[key := n + 1]> (chain_lengths t)) bytes
               (<[key := segment_id e]> (heads t))).
Proof.
  cbn zeta. set (key := (owner e, device e)). set (n := default 0 (chain_lengths t !! key)).
  intros Hok Hv Hp k. destruct (Hok k) as [H1 H2 H3 H4 H5].
  destruct (decide (key = k)) as [<-|Hne].
  - fold n in H1, H4.
    assert (Hnew : forall i, (<[(key, n) := e]> (segs t)) !! (key, i) = if decide (i = n) then Some e else segs t !! (key, i)).
    { intros i. case_decide as Ei; [subst; apply lookup_insert_eq|]. rewrite lookup_insert_ne by congruence. done. }
    assert (Hlast : segs t !! (key, n) = None).
    { apply eq_None_not_Some. rewrite H1. lia. }
    split; cbn [segs chain_lengths heads]; rewrite ?lookup_insert_eq; cbn [default id].
    + intros i. rewrite Hnew. case_decide; [subst; split; [lia|eauto]|]. rewrite H1. lia.
    + intros a. rewrite Hnew. case_decide as E0; [|apply H2]. intros [= <-]. rewrite Hp, H4, <- E0. done.
    + intros i a b. rewrite !Hnew. destruct (decide (i = n)) as [->|Hi].
      * intros [= <-]. rewrite decide_False by lia. intros Hb.
        assert (n + 1 < n) by (apply H1; eauto). lia.
      * intros Ha. case_decide as Eb; [|by apply H3]. intros [= <-]. rewrite Hp, H4.
        rewrite (proj2 (N.eqb_neq n 0)) by lia. replace (n - 1) with i by lia. by rewrite Ha.
    + rewrite (proj2 (N.eqb_neq (n + 1) 0)) by lia. replace (n + 1 - 1) with n by lia. by rewrite Hnew, decide_True.
    + intros i x. rewrite Hnew. case_decide; [|apply H5]. by intros [= <-].
  - assert (Hsame : forall i, (<[(key, n) := e]> (segs t)) !! (k, i) = segs t !! (k, i)).
    { intros i. rewrite lookup_insert_ne by congruence. done. }
    split; cbn [segs chain_lengths heads]; rewrite ?lookup_insert_ne by done;
      setoid_rewrite Hsame; done.
Qed.

Lemma chain_ok_ext t t' key :
  (forall i, segs t' !! (key, i) = segs t !! (key, i)) -> chain_lengths t' !! key = chain_lengths t !! key ->
  heads t' !! key = heads t !! key -> chain_ok t key -> chain_ok t' key.
Proof.
  intros E1 E2 E3 [H1 H2 H3 H4 H5]. split; rewrite ?E2, ?E3; setoid_rewrite E1; done.
Qed.

Context (encoded_len : SegmentEnvelope -> N).

Lemma put_segment_ok e v : chains_ok (chains v) -> chains_ok (chains (put_segment encoded_len e v).2).
Proof.
  intros Hok. unfold put_segment. destruct (verify_signature e) as [[]|err] eqn:Ev; [|done].
  destruct (decide _); [done|]. destruct (decide _) as [Hp|]; [|done]. by apply append_ok.
Qed.

Lemma empty_chain_ok t key :
  (forall i, segs t !! (key, i) = None) -> chain_lengths t !! key = None -> heads t !! key = None ->
  chain_ok t key.
Proof.
  intros E1 E2 E3. split; rewrite ?E2, ?E3; cbn [default]; setoid_rewrite E1; try done.
  intros i. split; [by intros []|lia].
Qed.

Lemma forget_tables_ok o v : chains_ok (chains v) -> chains_ok (chains (forget_tables o v)).
Proof.
  intros Hok [o' d]. destruct (decide (o' = o)) as [->|Hne].
  - apply empty_chain_ok; cbn [forget_tables chains set_disk set_chains segs chain_lengths heads];
      intros; apply map_lookup_filter_None_2; right; intros x _; cbn; tauto.
  - assert (Hkeep : forall {K V} `{Countable K} (P : K * V -> Prop) `{!forall x, Decision (P x)} (m : gmap K V) k,
      (forall x, P (k, x)) -> filter P m !! k = m !! k).
    { intros K V ?? P ? m k HP. rewrite map_lookup_filter. destruct (m !! k) as [x|]; cbn; [|done].
      by rewrite option_guard_True. }
    apply (chain_ok_ext (chains v)); [..|apply Hok];
      cbn [forget_tables chains set_disk set_chains segs chain_lengths heads]; unfold forget_prefix;
      intros; apply Hkeep; by intros x.
Qed.

(** The other operations leave the chains alone. *)
Lemma blobs_for_chains o v : chains (blobs_for o v).2 = chains v.
Proof. unfold blobs_for. by destruct (plugged v). Qed.

Lemma remove_chunk_chains o c v : chains (remove_chunk o c v).2 = chains v.
Proof. rewrite remove_chunk_eq. by destruct (plugged v). Qed.

Lemma remove_chunks_chains o cs n v : chains (remove_chunks o cs n v).2 = chains v.
Proof.
  revert n v. induction cs as [|c cs IH]; intros n v; cbn [remove_chunks]; [done|]. unfold bind.
  pose proof (remove_chunk_chains o c v) as E. destruct (remove_chunk o c v) as [[gone|e] v']; cbn [snd] in *; [|done].
  by rewrite IH.
Qed.

Lemma open_all_chains {A} (f : A -> UserId) l v :
  chains (for_each l (fun k => blobs_for (f k) ;;! ret tt) v).2 = chains v.
Proof.
  revert v. induction l as [|k l IH]; intros v; cbn [for_each]; [done|]. unfold bind at 1 2.
  pose proof (blobs_for_chains (f k) v) as E. destruct (blobs_for (f k) v) as [[b|e] v1]; cbn [snd] in *; [|done].
  unfold ret. by rewrite IH.
Qed.

Lemma check_disk_chains limit now v : chains (check_disk_at limit now v).2 = chains v.
Proof.
  unfold check_disk_at. destruct (_ =? 0)%nat; [done|].
  set (lim := (limit `min` MAX_CHECK_BATCH)%nat). unfold bind at 1, gets at 1.
  destruct (check_slice lim v) as [slice reached]. cbn [fst snd]. unfold bind at 1.
  pose proof (open_all_chains (fun k : UserId * ChunkId => k.1) slice v) as E1.
  destruct (for_each slice (fun k => blobs_for k.1 ;;! ret tt) v) as [[[]|e] v1]; cbn [snd] in E1; [|done].
  unfold bind at 1, gets at 1. set (gone := filter _ slice). unfold bind at 1, modify.
  set (v2 := check_commit slice gone reached now v1).
  assert (E2 : chains v2 = chains v).
  { rewrite <- E1. unfold v2, check_commit. cbn [chains set_cur]. generalize v1. generalize gone.
    intros g. induction g as [|k g IH]; intros w; cbn [foldl]; [done|]. by rewrite IH. }
  unfold bind at 1. destruct reached; [|exact E2]. unfold bind at 1, gets.
  pose proof (open_all_chains (fun o : UserId => o) (owners v2) v2) as E3.
  destruct (for_each (owners v2) _ v2) as [[[]|e] v3]; cbn [snd ret] in *; congruence.
Qed.

Lemma evict_marked_chains o n now v : chains (evict_marked o n now v).2 = chains v.
Proof.
  unfold evict_marked. destruct (n =? 0); [done|]. unfold bind at 1, gets.
  destruct (choose_evictions o n now v) as [[chosen expired] room]. unfold bind at 1, modify.
  destruct (_ || _); [done|]. unfold unsure. rewrite evict_files_eq. by destruct (plugged _).
Qed.

Lemma step_chains op v : chains_ok (chains v) -> chains_ok (chains (vault_step encoded_len op v)).
Proof.
  intros Hok. destruct op; cbn [vault_step].
  - rewrite put_chunk_eq. destruct (plugged v); [|done]. unfold index_chunk.
    destruct (unmark o c _). by case_decide.
  - unfold get_chunk, bind. pose proof (blobs_for_chains o v) as E.
    by destruct (blobs_for o v) as [[b|e] v1]; cbn in *; rewrite E.
  - unfold has_chunk, bind. pose proof (blobs_for_chains o v) as E.
    by destruct (blobs_for o v) as [[b|e] v1]; cbn in *; rewrite E.
  - by rewrite remove_chunk_chains.
  - unfold mark_evictable. destruct (match _ with Some _ => _ | None => _ end) as [day made].
    by destruct (foldl _ _ _) as [[marked made'] t].
  - by rewrite evict_marked_chains.
  - by rewrite check_disk_chains.
  - by apply put_segment_ok.
  - unfold forget_owner, bind, gets. pose proof (remove_chunks_chains o (chunks_for o v) 0 v) as E.
    destruct (remove_chunks o (chunks_for o v) 0 v) as [[n|e] v']; cbn [snd] in *; [|by rewrite E].
    apply forget_tables_ok. by rewrite E.
  - unfold keep_claim. by destruct (_ && _).
Qed.

Lemma open_chains v :
  chains_ok (chains v) -> chains_ok (chains (open encoded_len v)).
Proof.
  intros Hok. unfold open. cbn [chains set_suspect set_open_mark].
  assert (E : chains (reconcile_chunks_if_needed v) = chains v).
  { unfold reconcile_chunks_if_needed. destruct (_ && _); [done|]. by destruct (foldl _ _ _). }
  unfold backfill_segment_bytes. destruct (_ || _); [by rewrite E|]. cbn [chains set_chains]. rewrite E.
  intros key. by apply (chain_ok_ext (chains v)).
Qed.

Lemma chains_invariant b v : vault_reachable encoded_len b v -> chains_ok (chains v).
Proof.
  induction 1 as [|v Hr IH Hp Hf|v r Hr IH Hn|op v Hr IH Hf|d' v Hr IH|b d' v Hr IH Hl|b p v Hr IH|v Hr IH|v Hr IH];
    try exact IH.
  - intros key. apply empty_chain_ok; intros; apply lookup_empty.
  - by apply open_chains.
  - by apply step_chains.
  - unfold close. by destruct (suspect v).
Qed.

(** A chain's rows, in the order a range scan reads them. *)
Lemma chain_positions t key :
  chain_ok t key ->
  (fun p : UserId * DeviceId * N * SegmentEnvelope => p.1.2)
    <$> filter (fun p => p.1.1 = key) (btree_iter (segs t))
  = N.of_nat <$> seq 0 (N.to_nat (default 0 (chain_lengths t !! key))).
Proof.
  intros Hok. set (F := filter _ _).
  assert (Hkey : forall p, p ∈ F -> p.1.1 = key /\ segs t !! p.1 = Some p.2).
  { intros [k e] [Hk Hin]%list_elem_of_filter. apply elem_of_btree_iter in Hin. done. }
  assert (Hss : StronglySorted N.le ((fun p : UserId * DeviceId * N * SegmentEnvelope => p.1.2) <$> F)).
  { unfold F. pose proof (StronglySorted_btree_iter (segs t)) as Hs. clear F Hkey.
    induction Hs as [|p l Hs IH Hall]; [constructor|]. rewrite filter_cons. case_decide as Hp; [|done].
    rewrite fmap_cons. constructor; [done|]. apply Forall_fmap, Forall_forall.
    intros q [Hq Hin]%list_elem_of_filter. rewrite Forall_forall in Hall. specialize (Hall q Hin).
    unfold entry_le in Hall. destruct p as [[k1 n1] e1], q as [[k2 n2] e2]. cbn in *. subst.
    destruct Hall as [[_ Hx]|[_ Hx]]; [by cbn in Hx|done]. }
  apply (StronglySorted_unique N.le); [done| |].
  - generalize 0%nat (N.to_nat (default 0 (chain_lengths t !! key))). intros a m. revert a.
    induction m as [|m IH]; intros a; cbn; constructor; [apply IH|].
    apply Forall_fmap, Forall_forall. intros x Hx%elem_of_seq. cbn. lia.
  - apply NoDup_Permutation.
    + apply NoDup_fmap_2_strong.
      * intros [[k1 n1] e1] [[k2 n2] e2] H1 H2 E. destruct (Hkey _ H1) as [K1 L1], (Hkey _ H2) as [K2 L2].
        cbn in *. congruence.
      * apply (NoDup_fmap_1 fst). eapply sublist_NoDup; [apply (NoDup_btree_keys (segs t))|].
        unfold btree_keys. apply fmap_sublist, sublist_filter.
    + apply NoDup_fmap_2; [apply _|apply NoDup_seq].
    + intros i. rewrite !list_elem_of_fmap. split.
      * intros ([[k n] e] & -> & Hp). destruct (Hkey _ Hp) as [K L]. cbn in *. subst k.
        exists (N.to_nat n). split; [cbn; lia|]. apply elem_of_seq.
        assert (n < default 0 (chain_lengths t !! key)) by (apply (co_numbered _ _ Hok); eauto). lia.
      * intros (j & -> & Hj%elem_of_seq).
        destruct (proj2 (co_numbered _ _ Hok (N.of_nat j))) as [e He]; [lia|].
        exists (key, N.of_nat j, e). split; [done|]. apply list_elem_of_filter. split; [done|].
        by apply elem_of_btree_iter.
Qed.

Lemma chain_rows_lookup o d v i :
  chain_ok (chains v) (o, d) -> chain_rows o d v !! i = segs (chains v) !! ((o, d), N.of_nat i).
Proof.
  intros Hok. pose proof (chain_positions _ _ Hok) as Hpos. unfold chain_rows. rewrite list_lookup_fmap.
  set (F := filter _ _) in *. apply (f_equal (fun l => l !! i)) in Hpos. cbn beta in Hpos.
  rewrite !list_lookup_fmap in Hpos. destruct (F !! i) as [[[k n] e]|] eqn:EF; cbn in *.
  - assert (Hin : (k, n, e) ∈ F) by by eapply list_elem_of_lookup_2.
    apply list_elem_of_filter in Hin as [Hk Hin]. apply elem_of_btree_iter in Hin. cbn in Hk. subst k.
    destruct (seq 0 _ !! i) as [j|] eqn:Ej; [|done]. apply lookup_seq in Ej as [-> _]. cbn in Hpos.
    injection Hpos as ->. by rewrite Hin.
  - destruct (seq 0 _ !! i) as [j|] eqn:Ej; [done|]. symmetry. apply eq_None_not_Some.
    rewrite (co_numbered _ _ Hok). apply lookup_ge_None in Ej. rewrite length_seq in Ej. lia.
Qed.

Lemma skip_past_spec id l rest :
  skip_past id l = Some rest ->
  exists i e, l !! i = Some e /\ segment_id e = id /\ rest = drop (S i) l
    /\ forall j e', (j < i)%nat -> l !! j = Some e' -> segment_id e' <> id.
Proof.
  induction l as [|x l IH]; cbn [skip_past]; [done|]. case_decide as E.
  - intros [= <-]. exists 0%nat, x. split_and!; [done..|lia].
  - intros H'. destruct (IH H') as (i & e & Hi & He & -> & Hfirst). exists (S i), e. split_and!; [done..|].
    intros [|j] e' Hj Hl; cbn in Hl; [congruence|]. apply (Hfirst j); [lia|done].
Qed.

Lemma skip_past_none id l : skip_past id l = None <-> forall e, e ∈ l -> segment_id e <> id.
Proof.
  induction l as [|x l IH]; cbn [skip_past]; [split; [by intros _ e He%not_elem_of_nil|done]|].
  case_decide as E.
  - split; [done|]. intros H'. by destruct (H' x ltac:(left)).
  - rewrite IH. set_solver.
Qed.

(** In every reachable vault what is served of a chain is a contiguous run of
    it: from the start, or from just past the segment the caller names, and
    nothing when that segment is not of the chain.  The chain itself has no
    holes: it starts at a segment with no predecessor, every other one names
    the one before it, all are signed by the device they are filed under, and
    the head offered is the last of them. *)
Theorem served_chain_has_no_holes (b : bool) (v : Vault) (o : UserId) (d : DeviceId)
    (after : option ObjectId) (limit : nat) :
  vault_reachable encoded_len b v ->
  let chain := chain_rows o d v in
  (forall a, chain !! 0%nat = Some a -> previous a = None)
  /\ (forall i a c, chain !! i = Some a -> chain !! S i = Some c -> previous c = Some (segment_id a))
  /\ (forall e, e ∈ chain -> owner e = o /\ device e = d /\ verify_signature e = Ok tt)
  /\ heads (chains v) !! (o, d) = segment_id <$> last chain
  /\ match after with
     | None => segments_for o d after limit v = take (limit `max` 1) chain
     | Some id =>
         (forall e, e ∈ chain -> segment_id e <> id) /\ segments_for o d after limit v = []
         \/ exists i e, chain !! i = Some e /\ segment_id e = id
              /\ segments_for o d after limit v = take (limit `max` 1) (drop (S i) chain)
     end.
Proof.
  intros Hr. pose proof (chains_invariant b v Hr (o, d)) as Hok. cbn zeta.
  assert (Hl : forall i, chain_rows o d v !! i = segs (chains v) !! ((o, d), N.of_nat i))
    by (intros i; by apply chain_rows_lookup).
  assert (Hlen : length (chain_rows o d v) = N.to_nat (default 0 (chain_lengths (chains v) !! (o, d)))).
  { unfold chain_rows. rewrite length_fmap.
    rewrite <- (length_fmap (fun p : UserId * DeviceId * N * SegmentEnvelope => p.1.2)).
    by rewrite chain_positions, length_fmap, length_seq. }
  split_and!.
  - intros a. rewrite Hl. apply (co_first _ _ Hok).
  - intros i a c. rewrite !Hl. replace (N.of_nat (S i)) with (N.of_nat i + 1) by lia. apply (co_linked _ _ Hok).
  - intros e [i Hi]%list_elem_of_lookup_1. rewrite Hl in Hi.
    destruct (co_genuine _ _ Hok _ _ Hi) as [[= <- <-] Hv]. done.
  - rewrite (co_head _ _ Hok), last_lookup, Hlen, Hl.
    set (n := default 0 (chain_lengths (chains v) !! (o, d))) in *.
    destruct (N.eqb_spec n 0) as [E0|Hn]; [|do 3 f_equal; lia].
    replace (N.of_nat (Nat.pred (N.to_nat n))) with 0 by lia. destruct (segs (chains v) !! (o, d, 0)) as [e|] eqn:E; [|done].
    assert (0 < n) by (apply (co_numbered _ _ Hok); eauto). lia.
  - destruct after as [id|]; [|done]. unfold segments_for.
    destruct (skip_past id (chain_rows o d v)) as [rest|] eqn:Es.
    + right. destruct (skip_past_spec _ _ _ Es) as (i & e & Hi & He & -> & _). eauto.
    + left. split; [|done]. by apply skip_past_none.
Qed.

End chains.

(** ** Asking makes an owner

    Opening an owner's blobs creates its directory, and [owners] lists the
    directories: a question about somebody the vault holds nothing for adds
    them to "every owner this vault holds anything for". *)
Theorem asking_makes_an_owner (o : UserId) (c : ChunkId) (v : Vault) :
  plugged v = true -> o ∉ owners v ->
  let '(answer, v') := has_chunk o c v in
  answer = Ok false /\ owner_blobs o v' = ∅ /\ o ∈ owners v'.
Proof.
  intros Hp Ho. unfold has_chunk, bind, blobs_for, ret. rewrite Hp.
  assert (E : owner_blobs o v = ∅).
  { unfold owner_blobs. destruct (disk v !! o) as [b|] eqn:Ed; [|done]. destruct Ho. apply owners_disk. eauto. }
  rewrite E. split_and!; [done| |].
  - rewrite owner_blobs_insert. by rewrite decide_True.
  - apply owners_disk. cbn [disk set_disk]. rewrite lookup_insert_eq. eauto.
Qed.

(** *** Witnesses *)

Import Toy ToyCodec.

Definition hosting : Vault :=
  foldl (fun v e => (put_segment len0 e v).2) (open len0 fresh_vault) ToyChain.chain.

Lemma put_segment_ct e v : ct (put_segment len0 e v).2 = ct v.
Proof. unfold put_segment. by repeat case_match. Qed.

Lemma segments_reachable es v :
  vault_reachable len0 true v -> vault_fits v ->
  vault_reachable len0 true (foldl (fun v e => (put_segment len0 e v).2) v es).
Proof.
  revert v. induction es as [|e es IH]; intros v Hr Hf; cbn [foldl]; [done|].
  assert (Hf' : vault_fits (put_segment len0 e v).2) by (unfold vault_fits; by rewrite put_segment_ct).
  apply IH; [|done]. exact (vr_step len0 (VSegment e) v Hr Hf').
Qed.

Lemma hosting_reachable : vault_reachable len0 true hosting.
Proof.
  assert (Hf : vault_fits (open len0 fresh_vault)) by (vm_compute; congruence).
  apply segments_reachable; [|done]. apply vr_open; [apply vr_fresh|done|done].
Qed.

Lemma served_chain_has_no_holes_witness :
  heads (chains hosting) !! (5, device_id ToyChain.dev)
  = segment_id <$> last (chain_rows 5 (device_id ToyChain.dev) hosting)
  /\ length (chain_rows 5 (device_id ToyChain.dev) hosting) = 3%nat.
Proof.
  split; [|vm_compute; reflexivity].
  destruct (served_chain_has_no_holes len0 true hosting 5 (device_id ToyChain.dev) None 10 hosting_reachable)
    as (_ & _ & _ & H & _).
  exact H.
Defined.

Lemma asking_makes_an_owner_witness :
  let '(answer, v') := has_chunk 9 5 hosting in
  answer = Ok false /\ owner_blobs 9 v' = ∅ /\ 9 ∈ owners v'.
Proof.
  apply (asking_makes_an_owner 9 5 hosting); [vm_compute; reflexivity|].
  apply (bool_decide_unpack _). vm_compute. exact I.
Defined.
