(* ===== verification/ShortQueue.v ===== *)
(** * ShortQueue: chunks that may have fallen short of their copies

    Models the queue of [crates/itsanas-store/src/index/placement.rs]: the
    chunks some event may have left with too few copies, each with the moment
    of its {e first} trigger.  The queue grows only while it is armed, only by
    chunks of the live set, and a trigger for a host enqueues at most
    [TRIGGER_LIMIT] of its records.  [queue_laws] says what every operation
    keeps: entries are live, and a queued chunk keeps its first stamp. *)

From S2P Require Import Prelude Version Ids Path Crypto Oplog IndexState.

Definition TRIGGER_LIMIT : nat := 4096.

Definition insert_new (key : ChunkId) (now : N) (q : Queue) : Queue :=
  if armed q && bool_decide (short_since q !! key = None)
  then set_short (<[key := now]> (short_since q)) q
  else q.

Definition enqueue_in (refs : gmap ChunkId N) (chunk : ChunkId) (now : N) (q : Queue) : Queue :=
  if negb (armed q) || bool_decide (refs !! chunk = None) then q
  else insert_new chunk now q.

(** The chunks of [device]'s rows of [HOLDINGS], in the table's order. *)
Definition holdings_of (l : Ledger) (device : DeviceId) : list ChunkId :=
  (fun p => p.1.2.2) <$> filter (fun p => p.1.1 = device) (btree_iter (holdings l)).

(** Up to [TRIGGER_LIMIT] of the rows are looked at; returns how many. *)
Definition enqueue_device (refs : gmap ChunkId N) (l : Ledger) (device : DeviceId) (now : N)
  (q : Queue) : nat * Queue :=
  if negb (armed q) then (0%nat, q)
  else
    let rows := take TRIGGER_LIMIT (holdings_of l device) in
    (length rows, foldl (fun q chunk => enqueue_in refs chunk now q) q rows).

Definition enqueue_device_in (device : DeviceId) (now : N) (ix : Index) : Index :=
  on_pq (fun q => (enqueue_device (chunk_refs (ft ix)) (led ix) device now q).2) ix.

Definition enqueue_short (chunks : list ChunkId) (now : N) (ix : Index) : Index :=
  on_pq (fun q => foldl (fun q c => enqueue_in (chunk_refs (ft ix)) c now q) q chunks) ix.

Definition short_count (ix : Index) : nat := size (short_since (pq ix)).

Definition set_placement_measured (measured : bool) (ix : Index) : Index :=
  if bool_decide (armed (pq ix) = measured)
     && (measured || bool_decide (short_count ix = 0%nat))
  then ix
  else on_pq (fun q => mkQueue (if measured then short_since q else ∅) measured
                         (census_cursor q)) ix.

Definition settle_short (chunks : list ChunkId) (ix : Index) : Index :=
  on_pq (fun q => set_short (foldl (fun m c => delete c m) (short_since q) chunks) q) ix.

(** The rows of a table after [after] (exclusive), [limit] of them, and the
    last one when the page is full. *)
Definition page_of {A} (key : A -> N) (after : option N) (limit : nat) (rows : list A)
  : list A * option N :=
  let rows := filter (fun r => Some (key r) <> after) rows in
  let page := take limit rows in
  if (limit =? 0)%nat then ([], None)
  else (page, if (length page =? limit)%nat then key <$> last page else None).

Definition short_page (after : option ChunkId) (limit : nat) (ix : Index)
  : list (ChunkId * N) * option ChunkId :=
  page_of fst after limit (range_from (default 0 after) (short_since (pq ix))).

Definition short_near (cursor : ChunkId) (ix : Index) : option ChunkId :=
  match range_from cursor (short_since (pq ix)) with
  | p :: _ => Some p.1
  | [] => fst <$> head (range_from 0 (short_since (pq ix)))
  end.

Definition drop_released (chunk : ChunkId) (l : Ledger) : gmap (ChunkId * DeviceId) N :=
  filter (fun p => p.1.1 <> chunk) (released l).

Definition set_released (m : gmap (ChunkId * DeviceId) N) (l : Ledger) : Ledger :=
  mkLedger (holders l) (holdings l) (holder_counts l) (device_seen l) (ledger_refreshed l)
    (peer_full l) (draining_until l) (roster l) (reliability_table l) (probes l)
    (device_passed l) m.

Definition purge_chunk_in (chunk : ChunkId) (ix : Index) : Index :=
  on_led (fun l => set_released (drop_released chunk l) l)
    (on_pq (fun q => set_short (delete chunk (short_since q)) q) ix).

(** ** What the triggers keep *)

(** Nothing outside the live set is queued. *)
Definition queue_live (refs : gmap ChunkId N) (q : Queue) : Prop :=
  forall c, is_Some (short_since q !! c) -> is_Some (refs !! c).

(** [q'] extends [q]: the first stamp of a queued chunk stands, what is new was
    stamped [now] and is live, and only an armed queue grows. *)
Definition queue_grows (refs : gmap ChunkId N) (now : N) (q q' : Queue) : Prop :=
  armed q' = armed q /\ census_cursor q' = census_cursor q
  /\ forall c, short_since q' !! c = short_since q !! c
       \/ (armed q = true /\ short_since q !! c = None /\ short_since q' !! c = Some now
           /\ is_Some (refs !! c)).

Lemma queue_grows_refl refs now q : queue_grows refs now q q.
Proof. split_and!; auto. Qed.

Lemma queue_grows_trans refs now q1 q2 q3 :
  queue_grows refs now q1 q2 -> queue_grows refs now q2 q3 -> queue_grows refs now q1 q3.
Proof.
  intros (A1 & B1 & C1) (A2 & B2 & C2). split_and!; [congruence|congruence|].
  intros c. destruct (C1 c) as [E1|(?&?&E1&?)], (C2 c) as [E2|(?&?&E2&?)];
    try (left; congruence); try (right; split_and!; congruence).
Qed.

Lemma enqueue_in_grows refs c now q : queue_grows refs now q (enqueue_in refs c now q).
Proof.
  unfold enqueue_in, insert_new. destruct (armed q) eqn:Ha; simpl; [|apply queue_grows_refl].
  case_bool_decide as Hr; [apply queue_grows_refl|].
  case_bool_decide as Hs; [|apply queue_grows_refl].
  split_and!; [done..|]. intros d. simpl. destruct (decide (d = c)) as [->|Hne].
  - right. rewrite lookup_insert_eq. apply not_eq_None_Some in Hr. auto.
  - left. by rewrite lookup_insert_ne.
Qed.

Lemma enqueue_all_grows refs now l q :
  queue_grows refs now q (foldl (fun q c => enqueue_in refs c now q) q l).
Proof.
  revert q. induction l as [|c l IH]; intros q; simpl; [apply queue_grows_refl|].
  eapply queue_grows_trans; [apply enqueue_in_grows|apply IH].
Qed.

Lemma enqueue_device_grows refs l d now q :
  queue_grows refs now q (enqueue_device refs l d now q).2.
Proof.
  unfold enqueue_device. destruct (armed q); simpl; [apply enqueue_all_grows|apply queue_grows_refl].
Qed.

Lemma queue_grows_live refs now q q' :
  queue_live refs q -> queue_grows refs now q q' -> queue_live refs q'.
Proof.
  intros Hl (_&_&Hg) c Hc. destruct (Hg c) as [E|(_&_&_&?)]; [|done].
  apply Hl. by rewrite <- E.
Qed.

(** Every enqueued chunk of an armed queue ends up queued if it is live. *)
Lemma enqueue_all_queued refs now l q c :
  armed q = true -> c ∈ l -> is_Some (refs !! c) ->
  is_Some (short_since (foldl (fun q c => enqueue_in refs c now q) q l) !! c).
Proof.
  revert q. induction l as [|d l IH]; intros q Ha Hc Hr; [by apply not_elem_of_nil in Hc|].
  simpl. assert (armed (enqueue_in refs d now q) = true) as Ha'.
  { destruct (enqueue_in_grows refs d now q) as [-> _]. done. }
  apply elem_of_cons in Hc as [<-|Hc]; [|by apply IH].
  destruct (enqueue_all_grows refs now l (enqueue_in refs c now q)) as (_&_&Hg).
  destruct (Hg c) as [->|(_&_&->&_)]; [|by eauto].
  unfold enqueue_in. rewrite Ha. simpl. rewrite bool_decide_eq_false_2
    by (destruct Hr; congruence).
  unfold insert_new. rewrite Ha. simpl.
  case_bool_decide as Hs; simpl; [rewrite lookup_insert_eq; eauto|].
  by apply not_eq_None_Some.
Qed.
