(* ===== verification/Files.v ===== *)
(** * Files: the file table, chunk reference counts and the loss queue

    Models the [files] and [chunks] sections of
    [crates/itsanas-store/src/index.rs].  [put_file], [release_file] and
    [remove_file] keep four tables and an in-memory total in step;
    [files_invariant] says what "in step" means and every operation keeps it:
    a reference count is exactly the number of slots of the file table that
    name the chunk, the unreferenced set is exactly the rows at zero, a path is
    never both a file and a tombstone, and the cached total is the sum of the
    sizes.  The clock an operation reads ([now_unix]) is an argument. *)

From S2P Require Import Prelude Version Ids Path Crypto Oplog IndexState ShortQueue.

(** ** Reference deltas *)

(** [*delta.entry(chunk).or_default() += d] *)
Definition bump_delta (d : Z) (m : gmap ChunkId Z) (c : ChunkId) : gmap ChunkId Z :=
  <[c := (default 0%Z (m !! c) + d)%Z]> m.

Definition delta_of (old new : list ChunkId) : gmap ChunkId Z :=
  foldl (bump_delta 1) (foldl (bump_delta (-1)) ∅ old) new.

Record RefState := mkRS {
  rs_refs : gmap ChunkId N;
  rs_unref : gmap ChunkId N;
  rs_short : Queue;
  rs_dropped : list ChunkId;
}.

(** [u64::try_from((current + change).max(0)).unwrap_or(0)] *)
Definition updated_count (current : N) (change : Z) : N :=
  let updated := Z.max (Z.of_N current + change) 0 in
  if (updated <=? Z.of_N u64_max)%Z then Z.to_N updated else 0.

Definition delta_step (timestamp : N) (s : RefState) (p : ChunkId * Z) : RefState :=
  let '(chunk, change) := p in
  if (change =? 0)%Z then s
  else
    let current := default 0 (rs_refs s !! chunk) in
    let updated := updated_count current change in
    let refs := <[chunk := updated]> (rs_refs s) in
    let short := if (current =? 0) && (0 <? updated)
                 then insert_new chunk timestamp (rs_short s) else rs_short s in
    if updated =? 0
    then mkRS refs (<[chunk := timestamp]> (rs_unref s)) short (rs_dropped s ++ [chunk])
    else mkRS refs (delete chunk (rs_unref s)) short (rs_dropped s).

Definition apply_reference_delta (timestamp : N) (delta : gmap ChunkId Z) (s : RefState)
  : RefState :=
  foldl (delta_step timestamp) s (btree_iter delta).

Definition ref_state (ix : Index) : RefState :=
  mkRS (chunk_refs (ft ix)) (unreferenced (ft ix)) (pq ix) [].

(** ** Operations on files *)

Definition put_file (now : N) (path : string) (entry : FileEntry) (ix : Index)
  : list ChunkId * Index :=
  let t := ft ix in
  let previous := files t !! path in
  let replaced_size := default 0 (fe_size <$> previous) in
  let delta := delta_of (default [] (fe_chunks <$> previous)) (fe_chunks entry) in
  let rs := apply_reference_delta now delta (ref_state ix) in
  let t' := mkFT (<[path := entry]> (files t)) (rs_refs rs) (rs_unref rs)
              (delete path (tombstones t)) (local_state t) (losses t)
              ((fun total => sat_add (sat_sub total replaced_size) (fe_size entry))
                 <$> byte_total t) in
  (rs_dropped rs, mkIndex t' (lt ix) (led ix) (rs_short rs) (rg ix)).

(** The part [release_file] and [remove_file] share: drop the entry at [path]
    and its references. *)
Definition drop_entry (now : N) (path : string) (ix : Index) : list ChunkId * Index :=
  let t := ft ix in
  match files t !! path with
  | None => ([], ix)
  | Some previous =>
      let rs := apply_reference_delta now (delta_of (fe_chunks previous) []) (ref_state ix) in
      let t' := mkFT (delete path (files t)) (rs_refs rs) (rs_unref rs) (tombstones t)
                  (local_state t) (losses t)
                  ((fun total => sat_sub total (fe_size previous)) <$> byte_total t) in
      (rs_dropped rs, mkIndex t' (lt ix) (led ix) (rs_short rs) (rg ix))
  end.

Definition release_file (now : N) (path : string) (ix : Index) : list ChunkId * Index :=
  drop_entry now path ix.

Definition remove_file (now : N) (path : string) (tombstone : Tombstone) (ix : Index)
  : list ChunkId * Index :=
  drop_entry now path (on_ft (fun t => set_tombstones (<[path := tombstone]> (tombstones t)) t) ix).

Definition forget_tombstone (path : string) (ix : Index) : Index :=
  on_ft (fun t => set_tombstones (delete path (tombstones t)) t) ix.

Definition get_file (path : string) (ix : Index) : option FileEntry := files (ft ix) !! path.
Definition get_tombstone (path : string) (ix : Index) : option Tombstone :=
  tombstones (ft ix) !! path.
Definition files_list (ix : Index) : list (string * FileEntry) := btree_iter (files (ft ix)).
Definition file_count (ix : Index) : nat := size (files (ft ix)).

Definition get_local_state (path : string) (ix : Index) : option LocalState :=
  local_state (ft ix) !! path.
Definition put_local_state (path : string) (s : LocalState) (ix : Index) : Index :=
  on_ft (fun t => set_local_state (<[path := s]> (local_state t)) t) ix.
Definition clear_local_state (path : string) (ix : Index) : Index :=
  on_ft (fun t => set_local_state (delete path (local_state t)) t) ix.

(** The sum of the sizes, saturating as it is folded in table order, and kept
    from then on. *)
Definition local_bytes (ix : Index) : N * Index :=
  match byte_total (ft ix) with
  | Some total => (total, ix)
  | None =>
      let total := foldl (fun acc p => sat_add acc (fe_size p.2)) 0 (files_list ix) in
      (total, on_ft (set_byte_total (Some total)) ix)
  end.

(** ** Operations on chunks *)

Definition reference_count (chunk : ChunkId) (ix : Index) : N :=
  default 0 (chunk_refs (ft ix) !! chunk).
Definition unreferenced_chunks (ix : Index) : list (ChunkId * N) :=
  btree_iter (unreferenced (ft ix)).
Definition referenced_chunks (ix : Index) : list ChunkId :=
  (filter (fun p => 0 < p.2) (btree_iter (chunk_refs (ft ix)))).*1.

Definition note_loss (chunk : ChunkId) (now : N) (ix : Index) : Index :=
  on_ft (fun t => set_losses (<[chunk := now]> (losses t)) t) ix.

Definition settle_losses (present missing : list ChunkId) (now : N) (ix : Index) : Index :=
  let recovered := filter (fun c => is_Some (losses (ft ix) !! c)) present in
  if bool_decide (recovered = []) && bool_decide (missing = []) then ix
  else
    let table := foldl (fun m c => delete c m) (losses (ft ix)) recovered in
    let table := foldl (fun m c => if bool_decide (m !! c = None) then <[c := now]> m else m)
                   table missing in
    on_ft (set_losses table) ix.

Definition clear_loss (chunk : ChunkId) (ix : Index) : Index :=
  match losses (ft ix) !! chunk with
  | None => ix
  | Some _ => on_ft (fun t => set_losses (delete chunk (losses t)) t) ix
  end.

(** Seek to [cursor], take up to [limit] distinct keys, wrapping once. *)
Definition ring_from {V} (cursor : N) (limit : nat) (m : gmap N V) : list N :=
  foldl (fun out k => if bool_decide (length out = limit) then out
                      else if bool_decide (k ∈ out) then out else out ++ [k])
    [] ((range_from cursor m).*1 ++ (range_from 0 m).*1).

Definition known_losses_from (cursor : ChunkId) (limit : nat) (ix : Index) : list ChunkId :=
  ring_from cursor limit (losses (ft ix)).
Definition loss_count (ix : Index) : nat := size (losses (ft ix)).

Definition live_chunk_count (ix : Index) : nat := size (chunk_refs (ft ix)).
Definition live_chunks_page (after : option ChunkId) (limit : nat) (ix : Index)
  : list ChunkId * option ChunkId :=
  page_of id after limit (range_from (default 0 after) (chunk_refs (ft ix))).*1.
Definition live_chunks_from (cursor : ChunkId) (limit : nat) (ix : Index) : list ChunkId :=
  ring_from cursor limit (filter (fun p => 0 < p.2) (chunk_refs (ft ix))).
Definition live_chunk_near (cursor : ChunkId) (ix : Index) : option ChunkId :=
  head (live_chunks_from cursor 1 ix).

Definition drop_chunk (chunk : ChunkId) (ix : Index) : Index :=
  on_ft (fun t => set_refs (delete chunk (chunk_refs t)) (delete chunk (unreferenced t)) t) ix.

Definition release_chunk (chunk : ChunkId) (ix : Index) : Index :=
  purge_chunk_in chunk (drop_chunk chunk (clear_loss chunk ix)).

(** ** Occurrences *)

(** How many slots of a chunk list name [c]. *)
Definition occ (c : ChunkId) (l : list ChunkId) : N :=
  N.of_nat (length (filter (fun d => d = c) l)).

(** How many slots of the whole file table name [c]. *)
Definition slots (c : ChunkId) (m : gmap string FileEntry) : N :=
  map_sum (fun e => occ c (fe_chunks e)) m.

(** Sum of the sizes of the files. *)
Definition total_size (m : gmap string FileEntry) : N := map_sum fe_size m.

Lemma occ_cons c d l : occ c (d :: l) = (if decide (d = c) then 1 else 0) + occ c l.
Proof. unfold occ. rewrite filter_cons. case_decide; simpl; lia. Qed.

Lemma occ_pos c l : 0 < occ c l <-> c ∈ l.
Proof.
  induction l as [|d l IH]; [unfold occ; simpl; split; [lia|intros []%not_elem_of_nil]|].
  rewrite occ_cons, elem_of_cons, <- IH. case_decide; [subst; split; [auto|lia]|].
  split; [intros; right; lia|intros [->|]; [congruence|lia]].
Qed.

Lemma bump_delta_all d l m c :
  default 0%Z (foldl (bump_delta d) m l !! c)
  = (default 0%Z (m !! c) + d * Z.of_N (occ c l))%Z.
Proof.
  revert m. induction l as [|x l IH]; intros m; simpl; [unfold occ; simpl; lia|].
  rewrite IH, occ_cons. unfold bump_delta at 1. case_decide as Hx.
  - subst. rewrite lookup_insert_eq. simpl. lia.
  - rewrite lookup_insert_ne by done. lia.
Qed.

Lemma delta_of_spec old new c :
  default 0%Z (delta_of old new !! c) = (Z.of_N (occ c new) - Z.of_N (occ c old))%Z.
Proof. unfold delta_of. rewrite !bump_delta_all, lookup_empty. simpl. lia. Qed.

(** ** What applying a delta does to each chunk *)

(** The rows of [c] after a change of [d] at [now], given the rows before. *)
Definition row_after (now : N) (d : Z) (ref unref : option N) : option N * option N :=
  if (d =? 0)%Z then (ref, unref)
  else
    let updated := updated_count (default 0 ref) d in
    (Some updated, if updated =? 0 then Some now else None).

Definition rows (s : RefState) (c : ChunkId) : option N * option N :=
  (rs_refs s !! c, rs_unref s !! c).

Lemma delta_step_rows now s c d :
  rows (delta_step now s (c, d)) c = row_after now d (rs_refs s !! c) (rs_unref s !! c).
Proof.
  unfold rows, delta_step, row_after. destruct (d =? 0)%Z; [done|].
  destruct (updated_count _ _ =? 0); simpl; by rewrite !lookup_insert_eq, ?lookup_delete_eq.
Qed.

Lemma delta_step_rows_ne now s p c : p.1 <> c -> rows (delta_step now s p) c = rows s c.
Proof.
  destruct p as [k d]; intros Hne; simpl in Hne. unfold rows, delta_step.
  destruct (d =? 0)%Z; [done|].
  destruct (updated_count _ _ =? 0); simpl;
    by rewrite !lookup_insert_ne, ?lookup_delete_ne, ?lookup_insert_ne by done.
Qed.

Lemma delta_step_refs_ne now s p c :
  p.1 <> c -> rs_refs (delta_step now s p) !! c = rs_refs s !! c.
Proof. intros Hne. apply (f_equal fst (delta_step_rows_ne now s p c Hne)). Qed.

Lemma delta_fold_rows_ne now l s c :
  c ∉ l.*1 -> rows (foldl (delta_step now) s l) c = rows s c.
Proof.
  revert s. induction l as [|p l IH]; intros s Hc; [done|]. simpl in *.
  apply not_elem_of_cons in Hc as [Hne Hc]. rewrite IH by done.
  apply delta_step_rows_ne. congruence.
Qed.

Lemma delta_fold_rows now l s c d :
  NoDup l.*1 -> (c, d) ∈ l ->
  rows (foldl (delta_step now) s l) c = row_after now d (rs_refs s !! c) (rs_unref s !! c).
Proof.
  revert s. induction l as [|p l IH]; intros s Hnd Hin; [by apply not_elem_of_nil in Hin|].
  simpl in *. apply NoDup_cons in Hnd as [Hp Hnd].
  apply elem_of_cons in Hin as [<-|Hin].
  - rewrite delta_fold_rows_ne by done. apply delta_step_rows.
  - rewrite IH by done.
    assert (p.1 <> c) as Hne.
    { intros <-. apply Hp. apply list_elem_of_fmap. by exists (p.1, d). }
    pose proof (delta_step_rows_ne now s p c Hne) as Hr. unfold rows in Hr.
    by injection Hr as -> ->.
Qed.

(** Every row after the whole delta, in terms of the row before. *)
Lemma apply_reference_delta_rows now delta s c :
  rows (apply_reference_delta now delta s) c
  = row_after now (default 0%Z (delta !! c)) (rs_refs s !! c) (rs_unref s !! c).
Proof.
  unfold apply_reference_delta. destruct (delta !! c) as [d|] eqn:Hd; simpl.
  - apply delta_fold_rows; [apply NoDup_btree_keys|by apply elem_of_btree_iter].
  - unfold row_after. simpl. apply delta_fold_rows_ne.
    intros [d Hc]%(elem_of_btree_keys delta c). congruence.
Qed.

Lemma delta_step_dropped now s c d :
  rs_dropped (delta_step now s (c, d))
  = rs_dropped s ++ (if (d =? 0)%Z then []
                     else if updated_count (default 0 (rs_refs s !! c)) d =? 0 then [c] else []).
Proof.
  unfold delta_step. destruct (d =? 0)%Z; [by rewrite app_nil_r|].
  destruct (updated_count _ _ =? 0); simpl; by rewrite ?app_nil_r.
Qed.

(** The chunks reported dropped, in key order. *)
Lemma delta_fold_dropped now l s :
  NoDup l.*1 ->
  rs_dropped (foldl (delta_step now) s l)
  = rs_dropped s
    ++ (filter (fun p => p.2 <> 0%Z
                 /\ updated_count (default 0 (rs_refs s !! p.1)) p.2 = 0) l).*1.
Proof.
  revert s. induction l as [|[c d] l IH]; intros s Hnd; [by rewrite app_nil_r|].
  cbn [foldl fmap list_fmap fst] in *. apply NoDup_cons in Hnd as [Hc Hnd]. rewrite IH by done.
  rewrite delta_step_dropped, <- app_assoc. f_equal.
  assert (Hrest : filter (fun p => p.2 <> 0%Z
      /\ updated_count (default 0 (rs_refs (delta_step now s (c, d)) !! p.1)) p.2 = 0) l
    = filter (fun p => p.2 <> 0%Z
      /\ updated_count (default 0 (rs_refs s !! p.1)) p.2 = 0) l).
  { apply list_filter_local. intros p Hp.
    assert (c <> p.1) as Hne. { intros ->. apply Hc. apply list_elem_of_fmap. by exists p. }
    by rewrite (delta_step_refs_ne now s (c, d) p.1 Hne). }
  rewrite Hrest, filter_cons. simpl.
  destruct (Z.eqb_spec d 0), (N.eqb_spec (updated_count (default 0 (rs_refs s !! c)) d) 0);
    case_decide; naive_solver.
Qed.

Lemma insert_new_grows refs c now q :
  is_Some (refs !! c) -> queue_grows refs now q (insert_new c now q).
Proof.
  intros Hr. pose proof (enqueue_in_grows refs c now q) as Hg.
  unfold enqueue_in in Hg. rewrite bool_decide_eq_false_2 in Hg by (destruct Hr; congruence).
  destruct (armed q) eqn:Ha; simpl in Hg; [done|].
  unfold insert_new. rewrite Ha. apply queue_grows_refl.
Qed.

Lemma queue_grows_weaken refs refs' now q q' :
  (forall c, is_Some (refs !! c) -> is_Some (refs' !! c)) ->
  queue_grows refs now q q' -> queue_grows refs' now q q'.
Proof.
  intros Hw (Ha & Hb & Hc). split_and!; [done..|]. intros c.
  destruct (Hc c) as [?|(?&?&?&?)]; [by left|right; auto].
Qed.

Lemma delta_step_refs_mono now s p c :
  is_Some (rs_refs s !! c) -> is_Some (rs_refs (delta_step now s p) !! c).
Proof.
  destruct p as [k d]. intros Hc. destruct (decide (k = c)) as [->|Hne].
  - unfold delta_step. destruct (d =? 0)%Z; [done|].
    destruct (updated_count _ _ =? 0); simpl; rewrite lookup_insert_eq; eauto.
  - rewrite (delta_step_refs_ne now s (k, d) c); done.
Qed.

Lemma delta_step_queue now s p :
  queue_grows (rs_refs (delta_step now s p)) now (rs_short s) (rs_short (delta_step now s p)).
Proof.
  destruct p as [k d]. unfold delta_step. destruct (d =? 0)%Z; [apply queue_grows_refl|].
  destruct (updated_count _ _ =? 0) eqn:Hu; simpl.
  - apply N.eqb_eq in Hu. rewrite Hu, andb_false_r. apply queue_grows_refl.
  - destruct (_ && _); [|apply queue_grows_refl].
    apply insert_new_grows. rewrite lookup_insert_eq. eauto.
Qed.

Lemma delta_fold_mono now l s c :
  is_Some (rs_refs s !! c) -> is_Some (rs_refs (foldl (delta_step now) s l) !! c).
Proof.
  revert s. induction l as [|p l IH]; intros s Hs; [done|].
  simpl. apply IH. by apply delta_step_refs_mono.
Qed.

Lemma delta_fold_queue now l s :
  queue_grows (rs_refs (foldl (delta_step now) s l)) now (rs_short s)
    (rs_short (foldl (delta_step now) s l)).
Proof.
  revert s. induction l as [|p l IH]; intros s; [apply queue_grows_refl|]. simpl.
  eapply queue_grows_trans; [|apply IH].
  eapply queue_grows_weaken; [|apply delta_step_queue]. intros c. apply delta_fold_mono.
Qed.

(** ** The invariant of the file tables *)

Record files_invariant (ix : Index) : Prop := {
  refs_exact : forall c, default 0 (chunk_refs (ft ix) !! c) = slots c (files (ft ix));
  unref_zero : forall c,
    is_Some (unreferenced (ft ix) !! c) <-> chunk_refs (ft ix) !! c = Some 0;
  live_or_deleted : forall p,
    files (ft ix) !! p = None \/ tombstones (ft ix) !! p = None;
  total_kept : forall t, byte_total (ft ix) = Some t -> t = total_size (files (ft ix));
  queued_live : queue_live (chunk_refs (ft ix)) (pq ix);
}.

(** The counters do not saturate: no chunk has 2^64 references and the account
    is smaller than 2^64 bytes. *)
Definition fits (m : gmap string FileEntry) : Prop :=
  (forall c, slots c m <= u64_max) /\ total_size m <= u64_max.

Lemma empty_invariant : files_invariant empty_index.
Proof.
  split.
  - intros c. symmetry. apply map_sum_empty.
  - intros c. split; [by intros []|done].
  - intros p. by left.
  - done.
  - by intros c [].
Qed.

Lemma updated_count_exact before after old new :
  after + old = before + new -> after <= u64_max ->
  updated_count before (Z.of_N new - Z.of_N old) = after.
Proof.
  intros Heq Hle. unfold updated_count.
  destruct (Z.leb_spec (Z.max (Z.of_N before + (Z.of_N new - Z.of_N old)) 0)
              (Z.of_N u64_max)); lia.
Qed.

(** Reference counts follow the file table through a delta. *)
Lemma delta_exact now old new s c before after :
  default 0 (rs_refs s !! c) = before -> after + occ c old = before + occ c new ->
  after <= u64_max ->
  default 0 (rs_refs (apply_reference_delta now (delta_of old new) s) !! c) = after.
Proof.
  intros Hb Heq Hle.
  pose proof (f_equal fst (apply_reference_delta_rows now (delta_of old new) s c)) as Hr.
  unfold rows, row_after in Hr. cbn [fst] in Hr. rewrite Hr, delta_of_spec. clear Hr.
  destruct (Z.eqb_spec (Z.of_N (occ c new) - Z.of_N (occ c old)) 0); simpl; [lia|].
  rewrite Hb. by apply updated_count_exact.
Qed.

Lemma delta_unref now delta s :
  (forall c, is_Some (rs_unref s !! c) <-> rs_refs s !! c = Some 0) ->
  let s' := apply_reference_delta now delta s in
  forall c, is_Some (rs_unref s' !! c) <-> rs_refs s' !! c = Some 0.
Proof.
  intros Hu s' c. specialize (Hu c).
  pose proof (apply_reference_delta_rows now delta s c) as Hr. fold s' in Hr.
  unfold rows, row_after in Hr. destruct (_ =? 0)%Z.
  - injection Hr as -> ->. done.
  - destruct (N.eqb_spec (updated_count (default 0 (rs_refs s !! c)) (default 0%Z (delta !! c))) 0)
      as [E|E]; injection Hr as -> ->.
    + rewrite E. split; eauto.
    + split; [by intros []|]. intros [= ?]. congruence.
Qed.

(** The whole delta keeps the part of the invariant that is about chunks. *)
Lemma delta_queue now delta ix :
  files_invariant ix ->
  let s' := apply_reference_delta now delta (ref_state ix) in
  queue_live (rs_refs s') (rs_short s').
Proof.
  intros Hi s'. apply (queue_grows_live _ now (pq ix)).
  - intros c Hc. apply (delta_fold_mono now _ (ref_state ix)). by apply (queued_live ix).
  - apply (delta_fold_queue now _ (ref_state ix)).
Qed.

Lemma occ_nil c : occ c [] = 0.
Proof. done. Qed.

Lemma default_occ c (o : option FileEntry) :
  default 0 ((fun e => occ c (fe_chunks e)) <$> o) = occ c (default [] (fe_chunks <$> o)).
Proof. by destruct o. Qed.

Lemma slots_insert c p e m :
  slots c (<[p := e]> m) + occ c (default [] (fe_chunks <$> m !! p))
  = slots c m + occ c (fe_chunks e).
Proof. unfold slots. rewrite <- default_occ, map_sum_insert. lia. Qed.

Lemma slots_delete c p m :
  slots c (delete p m) + occ c (default [] (fe_chunks <$> m !! p)) = slots c m.
Proof. unfold slots. rewrite <- default_occ. apply map_sum_delete_default. Qed.

Lemma total_insert p e m :
  total_size (<[p := e]> m)
  = total_size m - default 0 (fe_size <$> m !! p) + fe_size e.
Proof.
  unfold total_size. pose proof (map_sum_insert fe_size m p e).
  pose proof (map_sum_delete_default fe_size m p). lia.
Qed.

Lemma total_delete p m :
  total_size (delete p m) = total_size m - default 0 (fe_size <$> m !! p).
Proof. unfold total_size. pose proof (map_sum_delete_default fe_size m p). lia. Qed.

Lemma put_file_invariant now path entry ix :
  files_invariant ix -> fits (<[path := entry]> (files (ft ix))) ->
  files_invariant (put_file now path entry ix).2.
Proof.
  intros Hi [Hf Ht]. split; cbn [put_file ft snd files chunk_refs unreferenced tombstones byte_total].
  - intros c. eapply (delta_exact now _ _ (ref_state ix)); [apply (refs_exact _ Hi)|apply slots_insert|apply Hf].
  - apply (delta_unref now _ (ref_state ix)), (unref_zero _ Hi).
  - intros p. destruct (decide (p = path)) as [->|Hne].
    + right. apply lookup_delete_eq.
    + rewrite lookup_insert_ne, lookup_delete_ne by done. apply (live_or_deleted _ Hi).
  - intros t. destruct (byte_total (ft ix)) as [b|] eqn:Hb; [|done]. simpl. intros [= <-].
    rewrite (total_kept _ Hi b Hb). rewrite total_insert in *.
    unfold sat_sub. by apply sat_add_exact.
  - by apply (delta_queue now).
Qed.

Lemma drop_entry_invariant now path ix :
  files_invariant ix -> fits (files (ft ix)) -> files_invariant (drop_entry now path ix).2.
Proof.
  intros Hi [Hf Ht]. unfold drop_entry. destruct (files (ft ix) !! path) as [e|] eqn:He; [|done].
  split; cbn [ft snd files chunk_refs unreferenced tombstones byte_total].
  - intros c. pose proof (slots_delete c path (files (ft ix))) as Hs. rewrite He in Hs. simpl in Hs.
    eapply (delta_exact now _ _ (ref_state ix)); [apply (refs_exact _ Hi)| |].
    + rewrite occ_nil. lia.
    + specialize (Hf c). lia.
  - apply (delta_unref now _ (ref_state ix)), (unref_zero _ Hi).
  - intros p. destruct (live_or_deleted _ Hi p) as [Hp|Hp]; [left|by right].
    destruct (decide (p = path)) as [->|Hne]; [apply lookup_delete_eq|].
    by rewrite lookup_delete_ne.
  - intros t. destruct (byte_total (ft ix)) as [b|] eqn:Hb; [|done]. simpl. intros [= <-].
    rewrite (total_kept _ Hi b Hb), total_delete, He. done.
  - by apply (delta_queue now).
Qed.

(** [remove_file] leaves exactly the tombstone where the file was. *)
Lemma drop_entry_files now path ix :
  files (ft (drop_entry now path ix).2) = delete path (files (ft ix)).
Proof.
  unfold drop_entry. destruct (files (ft ix) !! path) eqn:He; [done|].
  simpl. by rewrite delete_id.
Qed.

Lemma drop_entry_tombstones now path ix :
  tombstones (ft (drop_entry now path ix).2) = tombstones (ft ix).
Proof. unfold drop_entry. by destruct (files (ft ix) !! path). Qed.

Lemma remove_file_invariant now path tomb ix :
  files_invariant ix -> fits (files (ft ix)) ->
  files_invariant (remove_file now path tomb ix).2.
Proof.
  intros Hi [Hf Ht]. unfold remove_file, drop_entry.
  destruct (files (ft ix) !! path) as [e|] eqn:He; cbn [on_ft ft set_tombstones files]; rewrite He.
  - pose proof (drop_entry_invariant now path ix Hi (conj Hf Ht)) as Hd.
    unfold drop_entry in Hd. rewrite He in Hd. destruct Hd as [H1 H2 H3 H4 H5].
    split; [exact H1|exact H2| |exact H4|exact H5].
    intros p. specialize (H3 p). cbn [ft snd files tombstones on_ft set_tombstones] in *.
    destruct (decide (p = path)) as [->|Hne]; [left; apply lookup_delete_eq|].
    by rewrite lookup_insert_ne.
  - destruct Hi as [H1 H2 H3 H4 H5]. split; [exact H1|exact H2| |exact H4|exact H5].
    intros p. cbn [ft snd files tombstones on_ft set_tombstones]. destruct (decide (p = path)) as [->|Hne]; [by left|].
    rewrite lookup_insert_ne by done. apply H3.
Qed.

(** ** What the operations report *)

Lemma elem_of_dropped now delta ix c :
  c ∈ rs_dropped (apply_reference_delta now delta (ref_state ix))
  <-> default 0%Z (delta !! c) <> 0%Z
      /\ updated_count (reference_count c ix) (default 0%Z (delta !! c)) = 0.
Proof.
  unfold apply_reference_delta. rewrite delta_fold_dropped by apply NoDup_btree_keys.
  cbn [ref_state rs_dropped app rs_refs]. rewrite list_elem_of_fmap. split.
  - intros ([k d] & -> & [[Hd Hu] Hin]%list_elem_of_filter). simpl in *.
    apply elem_of_btree_iter in Hin. by rewrite Hin.
  - destruct (delta !! c) as [d|] eqn:Hd; simpl; [|intros []; done].
    intros Hu. exists (c, d). split; [done|]. apply list_elem_of_filter.
    split; [done|]. by apply elem_of_btree_iter.
Qed.

(** A chunk is reported exactly when it loses its last slot. *)
Lemma dropped_iff now old new ix c after :
  after + occ c old = reference_count c ix + occ c new -> after <= u64_max ->
  c ∈ rs_dropped (apply_reference_delta now (delta_of old new) (ref_state ix))
  <-> 0 < reference_count c ix /\ after = 0.
Proof.
  intros Heq Hle. rewrite elem_of_dropped, delta_of_spec.
  rewrite (updated_count_exact _ after (occ c old) (occ c new)) by done. lia.
Qed.

Lemma dropped_NoDup now delta ix :
  NoDup (rs_dropped (apply_reference_delta now delta (ref_state ix))).
Proof.
  unfold apply_reference_delta. rewrite delta_fold_dropped by apply NoDup_btree_keys.
  cbn [ref_state rs_dropped app].
  eapply sublist_NoDup; [apply (NoDup_btree_keys delta)|].
  apply fmap_sublist, sublist_filter.
Qed.

(** The total is exact while it fits, whether it was cached or is counted now. *)
Lemma sat_fold_exact (l : list (string * FileEntry)) acc :
  acc + foldr (fun p acc => fe_size p.2 + acc) 0 l <= u64_max ->
  foldl (fun acc p => sat_add acc (fe_size p.2)) acc l
  = acc + foldr (fun p acc => fe_size p.2 + acc) 0 l.
Proof.
  revert acc. induction l as [|p l IH]; intros acc Hle; simpl in *; [lia|].
  rewrite IH; rewrite sat_add_exact; lia.
Qed.

Lemma foldr_sum_perm (l k : list (string * FileEntry)) :
  l ≡ₚ k ->
  foldr (fun p acc => fe_size p.2 + acc) 0 l = foldr (fun p acc => fe_size p.2 + acc) 0 k.
Proof. induction 1; simpl; lia. Qed.

Lemma local_bytes_exact ix :
  files_invariant ix -> fits (files (ft ix)) ->
  (local_bytes ix).1 = total_size (files (ft ix)) /\ files_invariant (local_bytes ix).2.
Proof.
  intros Hi [Hf Ht]. unfold local_bytes. destruct (byte_total (ft ix)) as [b|] eqn:Hb.
  - split; [by apply (total_kept _ Hi)|done].
  - assert (E : foldl (fun acc p => sat_add acc (fe_size p.2)) 0 (files_list ix)
                = total_size (files (ft ix))).
    { unfold total_size in *. rewrite map_sum_list in *. unfold files_list.
      rewrite (foldr_sum_perm _ _ (symmetry (btree_iter_perm _))) in *.
      rewrite sat_fold_exact; lia. }
    split; [exact E|]. destruct Hi as [H1 H2 H3 H4 H5].
    split; [exact H1|exact H2|exact H3| |exact H5].
    cbn. intros t [= <-]. exact E.
Qed.
