(* ===== verification/Log.v ===== *)
(** * Log: this device's operation log inside the index

    Models the [segments] and [applied heads] sections of
    [crates/itsanas-store/src/index.rs].  Entries wait in [PENDING] until a
    segment covers them; appending a segment and dropping what it covers is one
    transaction.  [log_invariant] is what keeps the log from forking: the chain
    is numbered without holes, each segment names its predecessor and starts at
    the sequence after it, and the waiting entries are exactly the sequences
    between the head's last one and the next one to be handed out. *)

From S2P Require Import Prelude Version Ids Path Crypto Oplog IndexState.

Definition next_sequence (ix : Index) : N := N.max (meta_next_sequence (lt ix)) 1.
Definition head_segment (ix : Index) : option ObjectId := meta_head_segment (lt ix).
Definition chain_length (ix : Index) : N := meta_chain_length (lt ix).
Definition pending_entries (ix : Index) : list LogEntry := (btree_iter (pending (lt ix))).*2.
Definition segments_list (ix : Index) : list SegmentEnvelope := (btree_iter (segments (lt ix))).*2.

Definition push_pending (entry : LogEntry) (ix : Index) : Index :=
  on_lt (fun t => mkLT (segments t) (<[le_sequence entry := entry]> (pending t))
                    (wrap_add (le_sequence entry) 1) (meta_head_segment t)
                    (meta_chain_length t) (applied t)) ix.

(** The rows [first..=last] leave [PENDING]; a chain that does not continue the
    head is refused and the transaction is dropped. *)
Definition append_segment (envelope : SegmentEnvelope) (ix : Index) : result StoreError N * Index :=
  let t := lt ix in
  let waiting := filter (fun p => ~ (first_sequence envelope <= p.1 <= last_sequence envelope))
                   (pending t) in
  let head := meta_head_segment t in
  if decide (previous envelope = head)
  then
    let position := meta_chain_length t in
    let next := N.max (meta_next_sequence t) (wrap_add (last_sequence envelope) 1) in
    (Ok position,
     on_lt (fun t => mkLT (<[position := envelope]> (segments t)) waiting next
                       (Some (segment_id envelope)) (wrap_add position 1) (applied t)) ix)
  else (Err (SegmentChainBroken (segment_id envelope) head (previous envelope)), ix).

Definition set_applied_head (device : DeviceId) (head : ObjectId) (ix : Index) : Index :=
  on_lt (fun t => mkLT (segments t) (pending t) (meta_next_sequence t) (meta_head_segment t)
                    (meta_chain_length t) (<[device := head]> (applied t))) ix.

Definition applied_head (device : DeviceId) (ix : Index) : option ObjectId :=
  applied (lt ix) !! device.

(** ** The invariant *)

(** The segment the chain ends with. *)
Definition last_segment (t : LogTables) : option SegmentEnvelope :=
  if meta_chain_length t =? 0 then None else segments t !! (meta_chain_length t - 1).

(** The first sequence no segment covers yet. *)
Definition first_unsealed (t : LogTables) : N :=
  match last_segment t with Some s => wrap_add (last_sequence s) 1 | None => 1 end.

Record log_invariant (ix : Index) : Prop := {
  positions : forall i, is_Some (segments (lt ix) !! i) <-> i < meta_chain_length (lt ix);
  links : forall i a b,
    segments (lt ix) !! i = Some a -> segments (lt ix) !! (i + 1) = Some b -> follows a b;
  chain_start : forall a, segments (lt ix) !! 0 = Some a ->
    previous a = None /\ first_sequence a = 1;
  head_is_last : meta_head_segment (lt ix) = segment_id <$> last_segment (lt ix);
  waiting_range : forall s, is_Some (pending (lt ix) !! s) <->
    first_unsealed (lt ix) <= s < next_sequence ix;
  waiting_numbered : forall s e, pending (lt ix) !! s = Some e -> le_sequence e = s;
  unsealed_le : first_unsealed (lt ix) <= next_sequence ix;
}.

Lemma empty_log_invariant : log_invariant empty_index.
Proof.
  split; try done; intros s.
  - split; [by intros []|]. simpl. lia.
  - split; [by intros []|]. unfold next_sequence, first_unsealed. simpl. lia.
Qed.

(** The next entry takes the next sequence and the counter moves past it. *)
Lemma push_pending_next entry ix :
  le_sequence entry = next_sequence ix -> next_sequence ix < u64_max ->
  next_sequence (push_pending entry ix) = next_sequence ix + 1.
Proof.
  intros He Hlt. unfold next_sequence at 1. simpl. rewrite He.
  unfold wrap_add. rewrite N.mod_small by (unfold u64_max in *; lia).
  unfold next_sequence in *. lia.
Qed.

Lemma push_pending_invariant entry ix :
  log_invariant ix -> le_sequence entry = next_sequence ix -> next_sequence ix < u64_max ->
  log_invariant (push_pending entry ix).
Proof.
  intros Hi He Hlt. pose proof (push_pending_next entry ix He Hlt) as Hn.
  pose proof (unsealed_le _ Hi) as Hu.
  split; [apply (positions _ Hi)|apply (links _ Hi)|apply (chain_start _ Hi)
         |apply (head_is_last _ Hi)| | |].
  - intros s. rewrite Hn.
    change (first_unsealed (lt (push_pending entry ix))) with (first_unsealed (lt ix)).
    cbn [push_pending on_lt lt pending]. rewrite He. destruct (decide (s = next_sequence ix)) as [->|Hne].
    + rewrite lookup_insert_eq. split; [lia|eauto].
    + rewrite lookup_insert_ne by done. rewrite (waiting_range _ Hi). lia.
  - intros s e. cbn [push_pending on_lt lt pending].
    destruct (decide (s = le_sequence entry)) as [->|Hne].
    + rewrite lookup_insert_eq. by intros [= <-].
    + rewrite lookup_insert_ne by done. apply (waiting_numbered _ Hi).
  - rewrite Hn. change (first_unsealed (lt (push_pending entry ix))) with (first_unsealed (lt ix)).
    lia.
Qed.

(** An envelope that seals everything waiting, as [flush_segment] builds it. *)
Record seals_all (envelope : SegmentEnvelope) (ix : Index) : Prop := {
  seals_previous : previous envelope = head_segment ix;
  seals_first : first_sequence envelope = first_unsealed (lt ix);
  seals_last : last_sequence envelope = next_sequence ix - 1;
  seals_some : first_unsealed (lt ix) < next_sequence ix;
  seals_next : next_sequence ix <= u64_max;
  seals_room : chain_length ix < u64_max;
}.

Lemma append_segment_ok envelope ix :
  seals_all envelope ix -> (append_segment envelope ix).1 = Ok (chain_length ix).
Proof. intros Hs. unfold append_segment. by rewrite decide_True by apply (seals_previous _ _ Hs). Qed.

Lemma seals_next_wrap envelope ix :
  seals_all envelope ix -> wrap_add (last_sequence envelope) 1 = next_sequence ix.
Proof.
  intros Hs. destruct Hs. unfold wrap_add. rewrite N.mod_small; unfold u64_max in *; lia.
Qed.

Lemma append_segment_state envelope ix :
  log_invariant ix -> seals_all envelope ix ->
  let ix' := (append_segment envelope ix).2 in
  segments (lt ix') = <[chain_length ix := envelope]> (segments (lt ix))
  /\ meta_chain_length (lt ix') = chain_length ix + 1
  /\ meta_head_segment (lt ix') = Some (segment_id envelope)
  /\ pending (lt ix') = ∅
  /\ next_sequence ix' = next_sequence ix.
Proof.
  intros Hi Hs. pose proof (seals_next_wrap _ _ Hs) as Hw. cbn zeta.
  unfold append_segment. rewrite decide_True by apply (seals_previous _ _ Hs).
  cbn [snd on_lt lt segments meta_chain_length meta_head_segment pending].
  split_and!; [done| |done| |].
  - unfold wrap_add. rewrite N.mod_small; [done|].
    destruct Hs. unfold chain_length, u64_max in *. lia.
  - apply map_empty_filter. intros s e He Hout. apply Hout.
    pose proof (proj1 (waiting_range _ Hi s) ltac:(eauto)) as Hr. destruct Hs. simpl. lia.
  - unfold next_sequence at 1. cbn [on_lt lt meta_next_sequence]. rewrite Hw.
    unfold next_sequence. lia.
Qed.

Lemma append_segment_invariant envelope ix :
  log_invariant ix -> seals_all envelope ix -> log_invariant (append_segment envelope ix).2.
Proof.
  intros Hi Hs. pose proof (seals_next_wrap _ _ Hs) as Hw.
  destruct (append_segment_state envelope ix Hi Hs) as (Eseg & Elen & Ehead & Epend & Enext).
  set (ix' := (append_segment envelope ix).2) in *.
  assert (Hlast : last_segment (lt ix') = Some envelope).
  { unfold last_segment. rewrite Elen, Eseg.
    rewrite (proj2 (N.eqb_neq _ _)) by lia.
    replace (chain_length ix + 1 - 1) with (chain_length ix) by lia. apply lookup_insert_eq. }
  assert (Hfu : first_unsealed (lt ix') = next_sequence ix).
  { unfold first_unsealed. by rewrite Hlast. }
  pose proof (positions _ Hi) as Hpos. fold (chain_length ix) in Hpos.
  split.
  - intros i. rewrite Eseg, Elen. destruct (decide (i = chain_length ix)) as [->|Hne].
    + rewrite lookup_insert_eq. split; [lia|eauto].
    + rewrite lookup_insert_ne by done. rewrite Hpos. lia.
  - intros i a b. rewrite Eseg. destruct (decide (i = chain_length ix)) as [->|Hne].
    { rewrite lookup_insert_ne with (j := chain_length ix + 1) by lia.
      intros _ Hb. pose proof (proj1 (Hpos (chain_length ix + 1)) ltac:(eauto)). lia. }
    rewrite lookup_insert_ne by done. intros Ha.
    destruct (decide (i + 1 = chain_length ix)) as [E|Hne'].
    + rewrite E, lookup_insert_eq. intros [= <-].
      assert (last_segment (lt ix) = Some a) as Hl.
      { unfold last_segment. fold (chain_length ix). rewrite (proj2 (N.eqb_neq _ _)) by lia.
        by replace (chain_length ix - 1) with i by lia. }
      destruct Hs as [S1 S2 _ _ _ _]. split.
      * rewrite S1. unfold head_segment. rewrite (head_is_last _ Hi), Hl. done.
      * rewrite S2. unfold first_unsealed. by rewrite Hl.
    + rewrite lookup_insert_ne by done. by apply (links _ Hi).
  - intros a. rewrite Eseg. destruct (decide (chain_length ix = 0)) as [E|Hne].
    + rewrite E, lookup_insert_eq. intros [= <-]. destruct Hs as [S1 S2 _ _ _ _].
      assert (last_segment (lt ix) = None) as Hl.
      { unfold last_segment. fold (chain_length ix). by rewrite E. }
      rewrite S1, S2. unfold head_segment, first_unsealed. by rewrite (head_is_last _ Hi), Hl.
    + rewrite lookup_insert_ne by done. apply (chain_start _ Hi).
  - by rewrite Ehead, Hlast.
  - intros s. rewrite Epend, lookup_empty, Hfu, Enext. split; [by intros []|lia].
  - intros s e. by rewrite Epend, lookup_empty.
  - rewrite Hfu, Enext. lia.
Qed.

(** The chain is read in position order: appending extends it at the end. *)
Lemma append_segment_list envelope ix :
  log_invariant ix -> seals_all envelope ix ->
  segments_list (append_segment envelope ix).2 = segments_list ix ++ [envelope].
Proof.
  intros Hi Hs. unfold segments_list.
  destruct (append_segment_state envelope ix Hi Hs) as (-> & _).
  pose proof (positions _ Hi) as Hpos. fold (chain_length ix) in Hpos.
  rewrite btree_iter_insert_max.
  - by rewrite fmap_app.
  - apply eq_None_not_Some. rewrite Hpos. lia.
  - intros k Hk%Hpos. simpl. lia.
Qed.

(** A table whose keys are [0..n] reads back in position order. *)
Lemma btree_iter_dense {V} (n : nat) (m : gmap N V) :
  (forall i, is_Some (m !! i) <-> i < N.of_nat n) ->
  length (btree_iter m) = n /\ forall i, (btree_iter m).*2 !! i = m !! N.of_nat i.
Proof.
  revert m. induction n as [|n IH]; intros m Hm.
  - assert (m = ∅) as ->.
    { apply map_empty. intros i. apply eq_None_not_Some. rewrite Hm. lia. }
    rewrite btree_iter_empty. split; [done|]. intros i. by rewrite lookup_empty.
  - destruct (proj2 (Hm (N.of_nat n)) ltac:(lia)) as [v Hv].
    destruct (IH (delete (N.of_nat n) m)) as [Hlen Hlk].
    { intros i. rewrite lookup_delete_is_Some, Hm. lia. }
    rewrite <- (insert_delete_id m (N.of_nat n) v Hv).
    rewrite btree_iter_insert_max, length_app, fmap_app.
    + split; [simpl; lia|]. intros i.
      destruct (decide (i < n)%nat) as [Hi|Hi].
      * rewrite lookup_app_l by (rewrite length_fmap; lia).
        by rewrite Hlk, lookup_insert_ne by lia.
      * rewrite lookup_app_r, length_fmap, Hlen by (rewrite length_fmap; lia).
        destruct (decide (i = n)) as [->|Hne].
        { by rewrite Nat.sub_diag, lookup_insert_eq. }
        destruct (i - n)%nat as [|d] eqn:Hd; [lia|]. simpl.
        rewrite lookup_insert_ne, lookup_delete_ne by lia.
        symmetry. apply eq_None_not_Some. rewrite Hm. lia.
    + apply lookup_delete_eq.
    + intros k. rewrite lookup_delete_is_Some, Hm. simpl. lia.
Qed.

Lemma segments_list_lookup ix i :
  log_invariant ix -> segments_list ix !! i = segments (lt ix) !! N.of_nat i.
Proof.
  intros Hi. apply (btree_iter_dense (N.to_nat (chain_length ix))).
  intros j. rewrite (positions _ Hi), N2Nat.id. done.
Qed.

(** The chain a device keeps has no holes. *)
Lemma segments_gap_free ix : log_invariant ix -> gap_free (segments_list ix).
Proof.
  intros Hi i a b. rewrite !segments_list_lookup by done. intros Ha Hb.
  apply (links _ Hi (N.of_nat i)); [done|].
  by replace (N.of_nat i + 1) with (N.of_nat (S i)) by lia.
Qed.

(** What waits is read in sequence order, from the first unsealed one on. *)
Lemma pending_sequences ix e :
  log_invariant ix -> e ∈ pending_entries ix <->
  pending (lt ix) !! le_sequence e = Some e.
Proof.
  intros Hi. unfold pending_entries. rewrite list_elem_of_fmap. split.
  - intros ([s e'] & -> & Hin). apply elem_of_btree_iter in Hin. simpl.
    by rewrite (waiting_numbered _ Hi s e' Hin).
  - intros He. exists (le_sequence e, e). split; [done|]. by apply elem_of_btree_iter.
Qed.

Lemma pending_head ix e :
  log_invariant ix -> head (pending_entries ix) = Some e ->
  le_sequence e = first_unsealed (lt ix) /\ first_unsealed (lt ix) < next_sequence ix.
Proof.
  intros Hi Hh. unfold pending_entries in Hh.
  destruct (btree_iter (pending (lt ix))) as [|[k v] rows] eqn:Hb; [done|].
  injection Hh as ->.
  assert (Hk : pending (lt ix) !! k = Some e).
  { apply elem_of_btree_iter. rewrite Hb. left. }
  rewrite (waiting_numbered _ Hi _ _ Hk).
  pose proof (proj1 (waiting_range _ Hi k) ltac:(eauto)) as Hr. split; [|lia].
  pose proof (StronglySorted_btree_iter (pending (lt ix))) as Hs. rewrite Hb in Hs.
  apply StronglySorted_inv in Hs as [_ Hall]. rewrite Forall_forall in Hall.
  destruct (proj2 (waiting_range _ Hi (first_unsealed (lt ix)))) as [w Hw]; [lia|].
  apply elem_of_btree_iter in Hw. rewrite Hb in Hw.
  apply elem_of_cons in Hw as [[= -> _]|Hw]; [done|].
  specialize (Hall _ Hw). unfold entry_le in Hall. simpl in Hall. lia.
Qed.

Lemma pending_last ix e :
  log_invariant ix -> last (pending_entries ix) = Some e -> le_sequence e = next_sequence ix - 1.
Proof.
  intros Hi Hl. unfold pending_entries in Hl. rewrite fmap_last in Hl.
  destruct (last (btree_iter (pending (lt ix)))) as [[k v]|] eqn:Hb; [|done].
  injection Hl as ->. apply last_Some in Hb as [rows Hb].
  assert (Hk : pending (lt ix) !! k = Some e).
  { apply elem_of_btree_iter. rewrite Hb. set_solver. }
  rewrite (waiting_numbered _ Hi _ _ Hk).
  pose proof (proj1 (waiting_range _ Hi k) ltac:(eauto)) as Hr.
  pose proof (StronglySorted_btree_iter (pending (lt ix))) as Hs. rewrite Hb in Hs.
  destruct (proj2 (waiting_range _ Hi (next_sequence ix - 1))) as [w Hw]; [lia|].
  apply elem_of_btree_iter in Hw. rewrite Hb in Hw.
  apply elem_of_app in Hw as [Hw|Hw%list_elem_of_singleton]; [|by injection Hw].
  pose proof (StronglySorted_app_1_elem_of _ _ _ _ (k, e) Hs Hw ltac:(set_solver)) as Hle.
  unfold entry_le in Hle. simpl in Hle. lia.
Qed.
