(* ===== verification/Ledger.v ===== *)
(** * Ledger: who is recorded as holding which chunk

    Models [crates/itsanas-store/src/holders.rs], [reliability.rs] and the
    [holders], [reliability] and roster sections of
    [crates/itsanas-store/src/index.rs], with the [released] section of
    [index/placement.rs].  The same holdings are kept in two orders (by chunk,
    and by device under a keyed audit tag) and counted per device;
    [ledger_invariant] says the three agree, and every operation keeps it. *)

From S2P Require Import Prelude Version Ids Path Crypto Oplog IndexState ShortQueue Files.

(** ** holders.rs *)

Definition AUDIT_TAG_LEN : nat := 8.
Definition CONFIRMED_FOR : N := 14 * 24 * 60 * 60.
Definition REFRESH_AFTER : N := CONFIRMED_FOR / 4.
Definition LIVE_FOR : N := REFRESH_AFTER * 2.
Definition MAX_DRAIN : N := 2 * 60 * 60.
Definition SAFE_TO_RELEASE : nat := 2.
Definition SEEN_STEP : N := 15 * 60.

(** The table keys as bytes. *)
Definition key (chunk : ChunkId) (device : DeviceId) : list N := as_bytes chunk ++ as_bytes device.
Definition by_device (device : DeviceId) (tag : N) (chunk : ChunkId) : list N :=
  as_bytes device ++ be_bytes AUDIT_TAG_LEN tag ++ as_bytes chunk.

(** Widths of the parts: the concatenations are read back without ambiguity. *)
Lemma as_bytes_leb a b : is_id a -> is_id b -> bytes_leb (as_bytes a) (as_bytes b) = (a <=? b).
Proof. intros Ha Hb. by apply bytes_leb_be_bytes. Qed.

Lemma pair_bytes_order a b u v (Q : bool) :
  is_id a -> is_id b -> bytes_leb u v = Q ->
  bytes_leb (as_bytes a ++ u) (as_bytes b ++ v) = if decide (a = b) then Q else (a <=? b).
Proof.
  intros Ha Hb <-. rewrite bytes_leb_app by by autorewrite with its.
  rewrite (as_bytes_leb a b Ha Hb).
  destruct (decide (a = b)) as [->|Hne]; [by rewrite decide_True|].
  rewrite decide_False; [done|]. intros E. by apply Hne, as_bytes_inj.
Qed.

(** The database orders [HOLDERS] by the bytes of the key: the order of the pairs. *)
Lemma holder_key_order c d c' d' :
  is_id c -> is_id d -> is_id c' -> is_id d' ->
  bytes_leb (key c d) (key c' d') = true <-> key_le (c, d) (c', d').
Proof.
  intros H1 H2 H3 H4. unfold key. rewrite (pair_bytes_order c c' _ _ _ H1 H3 eq_refl).
  rewrite as_bytes_leb by done. cbn. unfold pair_le. cbn.
  destruct (decide (c = c')) as [->|Hne]; rewrite N.leb_le; naive_solver lia.
Qed.

(** And [HOLDINGS]: by device, then by audit tag, then by chunk. *)
Lemma holding_key_order d t c d' t' c' :
  is_id d -> is_id c -> is_id d' -> is_id c' -> is_u64 t -> is_u64 t' ->
  bytes_leb (by_device d t c) (by_device d' t' c') = true <-> key_le (d, (t, c)) (d', (t', c')).
Proof.
  intros H1 H2 H3 H4 H5 H6. unfold by_device. rewrite (pair_bytes_order d d' _ _ _ H1 H3 eq_refl).
  rewrite bytes_leb_app by by autorewrite with its.
  assert (W : forall x, is_u64 x -> x < 256 ^ N.of_nat AUDIT_TAG_LEN).
  { intros x Hx. change (256 ^ N.of_nat AUDIT_TAG_LEN) with (2 ^ 64). unfold is_u64, u64_max in Hx. lia. }
  rewrite as_bytes_leb by done. rewrite bytes_leb_be_bytes by auto.
  assert (E : be_bytes AUDIT_TAG_LEN t = be_bytes AUDIT_TAG_LEN t' <-> t = t').
  { split; [apply be_bytes_inj; auto|by intros ->]. }
  set (x := be_bytes AUDIT_TAG_LEN t) in *. set (x' := be_bytes AUDIT_TAG_LEN t') in *.
  clearbody x x'. cbn. unfold pair_le. cbn. unfold pair_le. cbn.
  destruct (decide (d = d')) as [->|Hne]; [|rewrite N.leb_le; naive_solver].
  destruct (decide (x = x')) as [Et|Et]; rewrite N.leb_le; naive_solver.
Qed.

Definition rows_per_round (rows interval_secs : N) : N :=
  if rows =? 0 then 0
  else
    let product := rows * N.max interval_secs 1 in
    let needed := (product + REFRESH_AFTER - 1) / REFRESH_AFTER in
    N.min (N.max needed 1) rows.

Record Holder := mkHolder { holder_device : DeviceId; confirmed_unix : N }.

Record Coverage := mkCoverage {
  complete_elsewhere : nat;
  claimed_elsewhere : nat;
  stale_records : nat;
  live_chunks : nat;
  only_here : nat;
  largest_share : nat;
  distinct_holders : nat;
}.

Definition meets (c : Coverage) (target : nat) : bool :=
  (live_chunks c =? 0)%nat || (target <=? complete_elsewhere c)%nat.
Definition resting_on_memory (c : Coverage) : bool :=
  (complete_elsewhere c <? claimed_elsewhere c)%nat.
Definition someone_holds_everything (c : Coverage) : bool :=
  (0 <? live_chunks c)%nat && (live_chunks c <=? largest_share c)%nat.

Record AtRisk := mkAtRisk { risk_chunk : ChunkId; held_by : nat; risk_target : nat }.

Definition shortfall (r : AtRisk) : nat := risk_target r - held_by r.
Definition only_copy (r : AtRisk) : bool := (held_by r <=? 1)%nat.

Record HolderEvidence := mkEvidence { live : nat; fresh : nat; proved : nat }.

#[export] Instance HolderEvidence_eq_dec : EqDecision HolderEvidence.
Proof. solve_decision. Defined.
#[export] Instance AtRisk_eq_dec : EqDecision AtRisk.
Proof. solve_decision. Defined.

(** ** reliability.rs *)

Definition FAILURES_BEFORE_PAUSE : N := 3.
Definition PROBATION_CEILING : N := FAILURES_BEFORE_PAUSE + 32.

Definition worth_sending_to (r : Reliability) : bool := negb (paused r).
Definition rounds_to_reinstatement (r : Reliability) : N :=
  if paused r then consecutive_failures r else 0.

Definition passed_one (r : Reliability) : Reliability :=
  let failures := consecutive_failures r - 1 in
  mkReliability failures (sat_add (passed r) 1) (failed r) (last_failure_unix r)
    (if failures =? 0 then false else paused r).

Definition failed_one (now : N) (r : Reliability) : Reliability :=
  let failures := N.min (consecutive_failures r + 1) u32_max in
  let failures := if PROBATION_CEILING <? failures then PROBATION_CEILING else failures in
  mkReliability failures (passed r) (sat_add (failed r) 1) now
    (if FAILURES_BEFORE_PAUSE <=? failures then true else paused r).

(** ** Tables of the ledger *)

(** Replacing the three tables that must agree. *)
Definition set_holders (h : gmap (ChunkId * DeviceId) N) (g : gmap (DeviceId * (N * ChunkId)) N)
  (c : gmap DeviceId N) (l : Ledger) : Ledger :=
  mkLedger h g c (device_seen l) (ledger_refreshed l) (peer_full l) (draining_until l) (roster l)
    (reliability_table l) (probes l) (device_passed l) (released l).
Definition set_device_seen (m : gmap DeviceId N) (l : Ledger) : Ledger :=
  mkLedger (holders l) (holdings l) (holder_counts l) m (ledger_refreshed l) (peer_full l)
    (draining_until l) (roster l) (reliability_table l) (probes l) (device_passed l) (released l).
Definition set_draining (m : gmap DeviceId N) (l : Ledger) : Ledger :=
  mkLedger (holders l) (holdings l) (holder_counts l) (device_seen l) (ledger_refreshed l)
    (peer_full l) m (roster l) (reliability_table l) (probes l) (device_passed l) (released l).

(** [delta] is +1 or -1 in every call. *)
Definition bump (device : DeviceId) (up : bool) (counts : gmap DeviceId N) : gmap DeviceId N :=
  let now := default 0 (counts !! device) in
  let next := if up then sat_add now 1 else sat_sub now 1 in
  if next =? 0 then delete device counts else <[device := next]> counts.

Section ledger.
Context `{!Primitives} (audit_key : list N).

Definition audit_tag (chunk : ChunkId) : N :=
  of_be_bytes (take AUDIT_TAG_LEN (blake3_keyed_hash audit_key (as_bytes chunk))).

(** The row of [HOLDINGS] for a record. *)
Definition holding_key (device : DeviceId) (chunk : ChunkId) : DeviceId * (N * ChunkId) :=
  (device, (audit_tag chunk, chunk)).

(** Write one record into the three tables. *)
Definition add_holder (device : DeviceId) (now : N) (l : Ledger) (chunk : ChunkId) : Ledger :=
  let counts := match holders l !! (chunk, device) with
                | None => bump device true (holder_counts l)
                | Some _ => holder_counts l
                end in
  set_holders (<[(chunk, device) := now]> (holders l))
    (<[holding_key device chunk := now]> (holdings l)) counts l.

(** Take one record out of the three tables. *)
Definition drop_holder (device : DeviceId) (l : Ledger) (chunk : ChunkId) : Ledger :=
  let counts := match holders l !! (chunk, device) with
                | None => holder_counts l
                | Some _ => bump device false (holder_counts l)
                end in
  set_holders (delete (chunk, device) (holders l))
    (delete (holding_key device chunk) (holdings l)) counts l.

Definition held_by_device (device : DeviceId) (l : Ledger) : N :=
  default 0 (holder_counts l !! device).

(** The devices recorded for [chunk], with their stamps, in device order. *)
Definition stamps_in (chunk : ChunkId) (l : Ledger) : list (DeviceId * N) :=
  (fun p => (p.1.2, p.2)) <$> filter (fun p => p.1.1 = chunk) (btree_iter (holders l)).

Definition draining_in (device : DeviceId) (now : N) (l : Ledger) : bool :=
  match draining_until l !! device with Some until => now <? until | None => false end.

Definition seen_within_step (device : DeviceId) (now : N) (l : Ledger) : bool :=
  match device_seen l !! device with
  | Some stamp => (stamp <=? now) && (now - stamp <? SEEN_STEP)
  | None => false
  end.

(** ** Recording *)

Definition fresh_record (device : DeviceId) (now : N) (l : Ledger) (c : ChunkId) : bool :=
  match holders l !! (c, device) with
  | Some stamp => now - REFRESH_AFTER <=? stamp
  | None => false
  end.

Definition without_fresh_record (chunks : list ChunkId) (device : DeviceId) (now : N) (l : Ledger)
  : list ChunkId :=
  filter (fun c => fresh_record device now l c = false) chunks.

Definition with_record (chunks : list ChunkId) (device : DeviceId) (l : Ledger) : list ChunkId :=
  filter (fun c => is_Some (holders l !! (c, device))) chunks.

Definition recently_released (device : DeviceId) (now : N) (l : Ledger) (c : ChunkId) : bool :=
  match released l !! (c, device) with
  | Some at_ => now - at_ <? CONFIRMED_FOR
  | None => false
  end.

Definition not_released (chunks : list ChunkId) (device : DeviceId) (now : N) (l : Ledger)
  : list ChunkId :=
  filter (fun c => recently_released device now l c = false) chunks.

Definition clear_released (chunks : list ChunkId) (device : DeviceId) (l : Ledger) : Ledger :=
  if existsb (fun c => bool_decide (is_Some (released l !! (c, device)))) chunks
  then set_released (foldl (fun m c => delete (c, device) m) (released l) chunks) l
  else l.

Definition note_released (chunks : list ChunkId) (device : DeviceId) (now : N) (l : Ledger)
  : Ledger :=
  set_released (foldl (fun m c => <[(c, device) := now]> m) (released l) chunks) l.

Definition record_due (due : list ChunkId) (device : DeviceId) (now : N) (l : Ledger) : Ledger :=
  if bool_decide (due = []) && seen_within_step device now l then l
  else foldl (add_holder device now) (set_device_seen (<[device := now]> (device_seen l)) l) due.

Definition record_holders (chunks : list ChunkId) (device : DeviceId) (now : N) (l : Ledger)
  : Ledger :=
  match chunks with
  | [] => l
  | _ =>
      let due := without_fresh_record chunks device now l in
      let due := not_released due device now l in
      record_due due device now l
  end.

Definition record_stored (chunks : list ChunkId) (device : DeviceId) (now : N) (l : Ledger)
  : Ledger :=
  match chunks with
  | [] => l
  | _ =>
      let l := clear_released chunks device l in
      record_due (without_fresh_record chunks device now l) device now l
  end.

(** ** Withdrawing *)

(** One chunk of [forget_holders]: drop the record, and queue the chunk when a
    record was really removed. *)
Definition forget_one (device : DeviceId) (now : N) (ix : Index) (chunk : ChunkId) : Index :=
  let ix' := on_led (fun l => drop_holder device l chunk) ix in
  match holders (led ix) !! (chunk, device) with
  | Some _ => on_pq (enqueue_in (chunk_refs (ft ix)) chunk now) ix'
  | None => ix'
  end.

(** A pass that removed nothing is not committed; it also changed nothing. *)
Definition forget_holders (chunks : list ChunkId) (device : DeviceId) (now : N) (ix : Index)
  : Index :=
  foldl (forget_one device now) ix chunks.

Definition forget_holder (chunk : ChunkId) (device : DeviceId) (now : N) (ix : Index) : Index :=
  forget_one device now ix chunk.

(** Every record of [chunk], its reference row, its queue entry. *)
Definition forget_chunk (chunk : ChunkId) (ix : Index) : Index :=
  let ix := clear_loss chunk ix in
  let ix := on_led (fun l => foldl (fun l d => drop_holder d l chunk) l (stamps_in chunk l).*1) ix in
  purge_chunk_in chunk (drop_chunk chunk ix).

(** Drop [device]'s records, its count and its drain, and queue what it held. *)
Definition forget_device (device : DeviceId) (now : N) (ix : Index) : nat * Index :=
  let l := led ix in
  let doomed := holdings_of l device in
  let drop := fun m c => delete (c, device) m in
  let undrop := fun m c => delete (holding_key device c) m in
  let l' := set_draining (delete device (draining_until l))
              (set_holders (foldl drop (holders l) doomed) (foldl undrop (holdings l) doomed)
                 (delete device (holder_counts l)) l) in
  let q' := foldl (fun q c => enqueue_in (chunk_refs (ft ix)) c now q) (pq ix) doomed in
  (length doomed,
   mkIndex (ft ix) (lt ix) l' q'
     (mkRings (device_uptime (rg ix)) (delete device (device_network (rg ix)))
        (latest_hour (rg ix)) (pending_jump (rg ix)))).

(** ** Per-device tables *)

Definition ledger_walk_due (device : DeviceId) (now : N) (l : Ledger) : bool :=
  default 0 (ledger_refreshed l !! device) <? now - REFRESH_AFTER.

Definition note_ledger_walk (device : DeviceId) (now : N) (l : Ledger) : Ledger :=
  mkLedger (holders l) (holdings l) (holder_counts l) (device_seen l)
    (<[device := now]> (ledger_refreshed l)) (peer_full l) (draining_until l) (roster l)
    (reliability_table l) (probes l) (device_passed l) (released l).

Definition note_peer_full (device : DeviceId) (now : N) (l : Ledger) : Ledger :=
  mkLedger (holders l) (holdings l) (holder_counts l) (device_seen l) (ledger_refreshed l)
    (<[device := now]> (peer_full l)) (draining_until l) (roster l) (reliability_table l)
    (probes l) (device_passed l) (released l).

(** Granted only to a device that holds something and is not cooling off from
    its last drain; never longer than [MAX_DRAIN]. *)
Definition note_draining (device : DeviceId) (until now : N) (ix : Index) : bool * Index :=
  let until := N.min until (sat_add now MAX_DRAIN) in
  let holds := 0 <? held_by_device device (led ix) in
  let cooling := match draining_until (led ix) !! device with
                 | Some ends => now <? sat_add ends MAX_DRAIN
                 | None => false
                 end in
  if negb holds || cooling then (false, ix)
  else
    (true, enqueue_device_in device now
             (on_led (fun l => set_draining (<[device := until]> (draining_until l)) l) ix)).

Definition reliability (device : DeviceId) (l : Ledger) : Reliability :=
  default Reliability_default (reliability_table l !! device).

Definition note_audit (device : DeviceId) (ok : bool) (now : N) (ix : Index) : Reliability * Index :=
  let l := led ix in
  let record := reliability device l in
  let record' := if ok then passed_one record else failed_one now record in
  let l' := mkLedger (holders l) (holdings l) (holder_counts l)
              (<[device := now]> (device_seen l)) (ledger_refreshed l) (peer_full l)
              (draining_until l) (roster l) (<[device := record']> (reliability_table l))
              (if ok then delete device (probes l) else probes l)
              (if ok then <[device := now]> (device_passed l) else device_passed l)
              (released l) in
  let ix' := on_led (fun _ => l') ix in
  (record', if paused record' && negb (paused record) then enqueue_device_in device now ix' else ix').

Definition note_probe (device : DeviceId) (chunk : ChunkId) (l : Ledger) : Ledger :=
  mkLedger (holders l) (holdings l) (holder_counts l) (device_seen l) (ledger_refreshed l)
    (peer_full l) (draining_until l) (roster l) (reliability_table l)
    (<[device := chunk]> (probes l)) (device_passed l) (released l).

Definition probe (device : DeviceId) (l : Ledger) : option ChunkId := probes l !! device.

(** 1 is a member, 0 is revoked; a revocation is final. *)
Definition admit_member (device : DeviceId) (revoked : bool) (l : Ledger) : Ledger :=
  let wanted := if revoked then 0 else 1 in
  if decide (roster l !! device = Some 0 \/ roster l !! device = Some wanted) then l
  else
    mkLedger (holders l) (holdings l) (holder_counts l) (device_seen l) (ledger_refreshed l)
      (peer_full l) (draining_until l) (<[device := wanted]> (roster l)) (reliability_table l)
      (probes l) (device_passed l) (released l).

Definition roster_armed (l : Ledger) : bool := bool_decide (roster l <> ∅).
Definition is_member (device : DeviceId) (l : Ledger) : bool :=
  bool_decide (roster l !! device = Some 1).

(** ** Reading the ledger *)

Definition remote_holders (chunk : ChunkId) (l : Ledger) : list Holder :=
  (fun p => mkHolder p.1 p.2) <$> stamps_in chunk l.
Definition remote_holder_count (chunk : ChunkId) (l : Ledger) : nat :=
  length (remote_holders chunk l).

(** One record's contribution to the evidence about a chunk. *)
Definition evidence_step (now : N) (l : Ledger) (e : HolderEvidence) (p : DeviceId * N)
  : HolderEvidence :=
  let '(device, stamp) := p in
  let fresh_since := now - CONFIRMED_FOR in
  let last_seen := default 0 (device_seen l !! device) in
  if last_seen <? fresh_since then e
  else
    let audible_since := now - LIVE_FOR in
    let has_proved := match reliability_table l !! device with
                      | Some r => 0 <? passed r
                      | None => false
                      end in
    mkEvidence (S (live e)) (if fresh_since <=? stamp then S (fresh e) else fresh e)
      (if has_proved && (audible_since <=? last_seen) && (audible_since <=? stamp)
       then S (proved e) else proved e).

Definition holder_evidence (chunk : ChunkId) (now : N) (l : Ledger) : HolderEvidence :=
  foldl (evidence_step now l) (mkEvidence 0 0 0) (stamps_in chunk l).

(** [seen >= fresh_since && !draining] *)
Definition counts_as_live (now : N) (l : Ledger) (device : DeviceId) : bool :=
  (now - CONFIRMED_FOR <=? default 0 (device_seen l !! device)) && negb (draining_in device now l).

(** The live chunks: the rows above zero. *)
Definition live_refs (refs : gmap ChunkId N) : list ChunkId :=
  (filter (fun p => 0 < p.2) (btree_iter refs)).*1.

Definition confirmed_of (now : N) (l : Ledger) (chunk : ChunkId) : list DeviceId :=
  filter (fun d => counts_as_live now l d = true) (stamps_in chunk l).*1.

(** [fewest.map_or(x, |least| least.min(x))] over the chunks, 0 for none. *)
Definition minimum (xs : list nat) : nat :=
  match xs with [] => 0%nat | x :: rest => foldl Nat.min x rest end.

(** Each other machine's share, over the live records of the live chunks. *)
Definition shares (now : N) (l : Ledger) (chunks : list ChunkId) : gmap DeviceId nat :=
  foldl (fun m d => <[d := S (default 0%nat (m !! d))]> m) ∅
    (chunks ≫= confirmed_of now l).

Definition coverage (now : N) (ix : Index) : Coverage :=
  let l := led ix in
  let chunks := live_refs (chunk_refs (ft ix)) in
  let confirmed := (fun c => length (confirmed_of now l c)) <$> chunks in
  let claimed := (fun c => length (stamps_in c l)) <$> chunks in
  let per_device := shares now l chunks in
  mkCoverage (minimum confirmed) (minimum claimed)
    (sum_list claimed - sum_list confirmed) (length chunks)
    (length (filter (fun c => length (confirmed_of now l c) = 0%nat) chunks))
    (foldr Nat.max 0%nat (map_to_list per_device).*2) (size per_device).

(** Live copies of a chunk elsewhere: confirmed about this very chunk lately,
    by a device that is not on its way out. *)
Definition live_copy (now : N) (l : Ledger) (p : DeviceId * N) : bool :=
  negb (draining_in p.1 now l) && (now - LIVE_FOR <=? p.2).

Definition live_copies (now : N) (l : Ledger) (chunk : ChunkId) : nat :=
  length (filter (fun p => live_copy now l p = true) (stamps_in chunk l)).

Definition risk_le (a b : AtRisk) : Prop :=
  (held_by a < held_by b)%nat \/ (held_by a = held_by b /\ risk_chunk a <= risk_chunk b).

#[local] Instance risk_le_dec : RelDecision risk_le.
Proof. intros a b. unfold risk_le. apply _. Defined.

Definition under_replicated (target : nat) (now : N) (ix : Index) : list AtRisk :=
  merge_sort risk_le
    (omap (fun c =>
       let held := S (live_copies now (led ix) c) in
       if (held <? target)%nat then Some (mkAtRisk c held target) else None)
       (live_refs (chunk_refs (ft ix)))).

Definition exposed_by (device : DeviceId) (now : N) (ix : Index) : nat :=
  let l := led ix in
  length (filter (fun c =>
    0 < reference_count c ix
    /\ existsb (fun p => negb (p.1 =? device) && live_copy now l p) (stamps_in c l) = false)
    (holdings_of l device)).

(** The rows of [device] in [HOLDINGS], in the table's order. *)
Definition device_rows (device : DeviceId) (l : Ledger) : list (DeviceId * (N * ChunkId)) :=
  filter (fun k => k.1 = device) (btree_keys (holdings l)).

Definition holdings_page (device : DeviceId) (after : option (DeviceId * (N * ChunkId)))
  (limit : nat) (l : Ledger) : list ChunkId * option (DeviceId * (N * ChunkId)) :=
  let rows := filter (fun r => Some r <> after)
                (match after with
                 | Some k => filter (fun r => key_le k r) (device_rows device l)
                 | None => device_rows device l
                 end) in
  (* the row is pushed before the limit is looked at *)
  let page := take (Nat.max 1 limit) rows in
  ((fun k => k.2.2) <$> page,
   if (Nat.max 1 limit <=? length page)%nat then last page else None).

(** One question per cursor: the first row at or after it, wrapping. *)
Definition challenge_hit (device : DeviceId) (cursor : N) (l : Ledger)
  : option (DeviceId * (N * ChunkId)) :=
  match head (filter (fun k => key_le (device, (cursor, 0)) k) (device_rows device l)) with
  | Some k => Some k
  | None => head (device_rows device l)
  end.

Fixpoint challenge_from (device : DeviceId) (cursors : list N) (l : Ledger)
  (picked : list ChunkId) : list ChunkId :=
  match cursors with
  | [] => picked
  | cursor :: rest =>
      match challenge_hit device cursor l with
      | None => picked
      | Some k =>
          challenge_from device rest l
            (if bool_decide (k.2.2 ∈ picked) then picked else picked ++ [k.2.2])
      end
  end.

Definition chunks_to_challenge (device : DeviceId) (cursors : list N) (l : Ledger)
  : list ChunkId :=
  challenge_from device cursors l [].

(** ** Opening a store written by an earlier version *)

(** Rows of the old key shapes do not occur in the model; what is left of the
    staleness test is the missing second ordering. *)
Definition rebuild_holdings_if_stale (l : Ledger) : Ledger :=
  if bool_decide (holders l = ∅) || negb (bool_decide (holdings l = ∅)) then l
  else
    set_holders (holders l)
      (foldl (fun m p => <[holding_key p.1.2 p.1.1 := p.2]> m) ∅ (btree_iter (holders l)))
      (holder_counts l) l.

Definition build_holder_counts (l : Ledger) : Ledger :=
  set_holders (holders l) (holdings l)
    (foldl (fun m k => <[k.1 := default 0 (m !! k.1) + 1]> m) ∅ (btree_keys (holdings l))) l.

(** ** The census *)

Definition census_page (after : option ChunkId) (limit : nat) (ix : Index)
  : list (ChunkId * list (DeviceId * N)) * option ChunkId :=
  let '(chunks, next) := live_chunks_page after limit ix in
  ((fun c => (c, stamps_in c (led ix))) <$> chunks, next).

Definition census_next (limit : nat) (random : ChunkId) (ix : Index)
  : list (ChunkId * list (DeviceId * N)) * Index :=
  let after := default random (census_cursor (pq ix)) in
  let '(first, next) := live_chunks_page (Some after) limit ix in
  let chunks :=
    if bool_decide (next = None) && (length first <? limit)%nat
    then first ++ take_while (fun c => c <=? after)
                    (live_chunks_page None (limit - length first) ix).1
    else first in
  ((fun c => (c, stamps_in c (led ix))) <$> chunks,
   match last chunks with
   | Some c => on_pq (fun q => mkQueue (short_since q) (armed q) (Some c)) ix
   | None => ix
   end).

End ledger.

(** ** The invariant *)

(** How many records name [d]. *)
Definition records_of (d : DeviceId) (h : gmap (ChunkId * DeviceId) N) : N :=
  N.of_nat (size (filter (fun p => p.1.2 = d) h)).

Lemma records_of_insert d c e w h :
  records_of d (<[(c, e) := w]> h)
  = records_of d h + (if decide (e = d /\ h !! (c, e) = None) then 1 else 0).
Proof.
  unfold records_of. destruct (decide (e = d)) as [->|Hne].
  - rewrite map_filter_insert_True by done. destruct (h !! (c, d)) as [v|] eqn:Hh.
    + rewrite decide_False by (intros []; congruence).
      rewrite map_size_insert_Some; [lia|]. exists v. by apply map_lookup_filter_Some.
    + rewrite decide_True by done. rewrite map_size_insert_None; [lia|].
      apply map_lookup_filter_None. by left.
  - rewrite decide_False by tauto. rewrite map_filter_insert_False by done.
    rewrite map_filter_delete_not; [lia|]. intros y _. simpl. congruence.
Qed.

Lemma records_of_delete d c e h :
  records_of d (delete (c, e) h)
  = records_of d h - (if decide (e = d /\ is_Some (h !! (c, e))) then 1 else 0).
Proof.
  destruct (h !! (c, e)) as [v|] eqn:Hh.
  - pose proof (records_of_insert d c e v (delete (c, e) h)) as Hi.
    rewrite insert_delete_id in Hi by done. rewrite lookup_delete_eq in Hi. rewrite Hi.
    destruct (decide (e = d)) as [->|Hne].
    + rewrite !decide_True by eauto. lia.
    + rewrite !decide_False by tauto. lia.
  - rewrite delete_id by done. rewrite decide_False by (intros [_ []]; done). lia.
Qed.

Lemma records_of_pos d h : (exists c, is_Some (h !! (c, d))) -> 0 < records_of d h.
Proof.
  intros [c [w Hw]]. unfold records_of.
  destruct (size (filter (fun p => p.1.2 = d) h)) eqn:E; [|lia].
  apply map_size_empty_iff in E. apply (map_filter_empty_not_lookup _ _ (c, d) w) in E; done.
Qed.

Lemma records_of_le d h : records_of d h <= N.of_nat (size h).
Proof.
  unfold records_of. pose proof (map_size_filter (fun p : (N * N) * N => p.1.2 = d) h). lia.
Qed.

Lemma bump_lookup (d : DeviceId) (up : bool) (e : DeviceId) (m : gmap DeviceId N) :
  (forall x, m !! x <> Some 0) ->
  let next := if up then sat_add (default 0 (m !! d)) 1 else default 0 (m !! d) - 1 in
  default 0 (bump d up m !! e) = (if decide (d = e) then next else default 0 (m !! e))
  /\ bump d up m !! e <> Some 0.
Proof.
  intros Hz next. unfold bump, sat_sub. fold next.
  destruct (N.eqb_spec next 0) as [E|E], (decide (d = e)) as [->|Hne].
  - rewrite lookup_delete_eq. simpl. split; [by rewrite E|done].
  - rewrite lookup_delete_ne by done. auto.
  - rewrite lookup_insert_eq. simpl. split; [done|congruence].
  - rewrite lookup_insert_ne by done. auto.
Qed.

Section laws.
Context `{!Primitives} (audit_key : list N).

#[local] Abbreviation tag := (audit_tag audit_key).

Record ledger_invariant (l : Ledger) : Prop := {
  orders_agree : forall d t c,
    holdings l !! (d, (t, c)) = if decide (t = tag c) then holders l !! (c, d) else None;
  counts_exact : forall d, default 0 (holder_counts l !! d) = records_of d (holders l);
  counts_pos : forall d, holder_counts l !! d <> Some 0;
}.

(** The ledger has fewer than 2^64 rows. *)
Definition ledger_fits (l : Ledger) : Prop := N.of_nat (size (holders l)) <= u64_max.

Lemma empty_ledger_invariant : ledger_invariant (led empty_index).
Proof. split; intros; [by destruct (decide _)|done|done]. Qed.

(** The invariant reads three tables only. *)
Lemma ledger_invariant_ext l l' :
  holders l' = holders l -> holdings l' = holdings l -> holder_counts l' = holder_counts l ->
  ledger_invariant l -> ledger_invariant l'.
Proof. intros E1 E2 E3 [H1 H2 H3]. split; intros; rewrite ?E1, ?E2, ?E3; auto. Qed.

Lemma add_holder_invariant device now l chunk :
  ledger_invariant l -> ledger_fits (add_holder audit_key device now l chunk) ->
  ledger_invariant (add_holder audit_key device now l chunk).
Proof.
  intros [Ha Hc Hp] Hf. unfold ledger_fits in Hf.
  cbn [add_holder set_holders holders] in Hf. split.
  - intros d t c. cbn [add_holder set_holders holdings holders]. unfold holding_key.
    destruct (decide (t = tag c)) as [->|Ht].
    + destruct (decide ((d, c) = (device, chunk))) as [[= -> ->]|Hne].
      * by rewrite !lookup_insert_eq.
      * rewrite !lookup_insert_ne by congruence. by rewrite Ha, decide_True.
    + rewrite lookup_insert_ne by congruence. by rewrite Ha, decide_False.
  - intros d. cbn [add_holder set_holders holder_counts holders].
    rewrite records_of_insert. destruct (holders l !! (chunk, device)) as [w|] eqn:Hh.
    + rewrite decide_False by (intros []; congruence). rewrite Hc. lia.
    + pose proof (bump_lookup device true d (holder_counts l) Hp) as [-> _].
      rewrite !Hc. destruct (decide (device = d)) as [->|Hne].
      * rewrite decide_True by done. apply sat_add_exact.
        rewrite map_size_insert_None in Hf by done. pose proof (records_of_le d (holders l)). lia.
      * rewrite decide_False by tauto. lia.
  - intros d. cbn [add_holder set_holders holder_counts].
    destruct (holders l !! (chunk, device)); [apply Hp|].
    apply (bump_lookup device true d (holder_counts l) Hp).
Qed.

Lemma drop_holder_invariant device l chunk :
  ledger_invariant l -> ledger_invariant (drop_holder audit_key device l chunk).
Proof.
  intros [Ha Hc Hp]. split.
  - intros d t c. cbn [drop_holder set_holders holdings holders]. unfold holding_key.
    destruct (decide (t = tag c)) as [->|Ht].
    + destruct (decide ((d, c) = (device, chunk))) as [[= -> ->]|Hne].
      * by rewrite !lookup_delete_eq.
      * rewrite !lookup_delete_ne by congruence. by rewrite Ha, decide_True.
    + rewrite lookup_delete_ne by congruence. by rewrite Ha, decide_False.
  - intros d. cbn [drop_holder set_holders holder_counts holders].
    rewrite records_of_delete. destruct (holders l !! (chunk, device)) as [w|] eqn:Hh.
    + pose proof (bump_lookup device false d (holder_counts l) Hp) as [-> _].
      rewrite !Hc. destruct (decide (device = d)) as [->|Hne].
      * rewrite decide_True by eauto. done.
      * rewrite decide_False by tauto. lia.
    + rewrite decide_False by (intros [_ []]; done). rewrite Hc. lia.
  - intros d. cbn [drop_holder set_holders holder_counts].
    destruct (holders l !! (chunk, device)); [|apply Hp].
    apply (bump_lookup device false d (holder_counts l) Hp).
Qed.

(** Adding records only grows the ledger. *)
Lemma add_holders_size device now due l :
  (size (holders l) <= size (holders (foldl (add_holder audit_key device now) l due)))%nat.
Proof.
  revert l. induction due as [|c due IH]; intros l; simpl; [lia|].
  etransitivity; [|apply IH]. cbn [add_holder set_holders holders].
  rewrite map_size_insert. destruct (holders l !! (c, device)); simpl; lia.
Qed.

Lemma add_holders_invariant device now due l :
  ledger_invariant l -> ledger_fits (foldl (add_holder audit_key device now) l due) ->
  ledger_invariant (foldl (add_holder audit_key device now) l due).
Proof.
  revert l. induction due as [|c due IH]; intros l Hi Hf; [done|]. cbn [foldl] in *.
  apply IH; [|done]. apply add_holder_invariant; [done|].
  unfold ledger_fits in *. pose proof (add_holders_size device now due (add_holder audit_key device now l c)).
  lia.
Qed.

Lemma record_due_invariant due device now l :
  ledger_invariant l -> ledger_fits (record_due audit_key due device now l) ->
  ledger_invariant (record_due audit_key due device now l).
Proof.
  intros Hi. unfold record_due. destruct (_ && _); [done|]. intros Hf.
  apply add_holders_invariant; [|done]. by apply (ledger_invariant_ext l).
Qed.

Lemma record_holders_invariant chunks device now l :
  ledger_invariant l -> ledger_fits (record_holders audit_key chunks device now l) ->
  ledger_invariant (record_holders audit_key chunks device now l).
Proof. intros Hi. destruct chunks; [done|]. by apply record_due_invariant. Qed.

Lemma clear_released_tables chunks device l :
  holders (clear_released chunks device l) = holders l
  /\ holdings (clear_released chunks device l) = holdings l
  /\ holder_counts (clear_released chunks device l) = holder_counts l.
Proof. unfold clear_released. by destruct (existsb _ _). Qed.

Lemma record_stored_invariant chunks device now l :
  ledger_invariant l -> ledger_fits (record_stored audit_key chunks device now l) ->
  ledger_invariant (record_stored audit_key chunks device now l).
Proof.
  intros Hi. destruct chunks as [|c chunks]; [done|]. apply record_due_invariant.
  destruct (clear_released_tables (c :: chunks) device l) as (E1 & E2 & E3).
  by apply (ledger_invariant_ext l).
Qed.

Lemma forget_one_invariant device now ix chunk :
  ledger_invariant (led ix) -> ledger_invariant (led (forget_one audit_key device now ix chunk)).
Proof.
  intros Hi. unfold forget_one. destruct (holders (led ix) !! (chunk, device));
    by apply (drop_holder_invariant device (led ix) chunk).
Qed.

Lemma forget_holders_invariant chunks device now ix :
  ledger_invariant (led ix) -> ledger_invariant (led (forget_holders audit_key chunks device now ix)).
Proof.
  unfold forget_holders. revert ix. induction chunks as [|c chunks IH]; intros ix Hi; [done|].
  simpl. by apply IH, forget_one_invariant.
Qed.

Lemma clear_loss_led chunk ix : led (clear_loss chunk ix) = led ix.
Proof. unfold clear_loss. by destruct (losses (ft ix) !! chunk). Qed.

Lemma drop_holders_invariant chunk ds l :
  ledger_invariant l ->
  ledger_invariant (foldl (fun l d => drop_holder audit_key d l chunk) l ds).
Proof.
  revert l. induction ds as [|d ds IH]; intros l Hi; [done|]. simpl.
  by apply IH, drop_holder_invariant.
Qed.

Lemma forget_chunk_invariant chunk ix :
  ledger_invariant (led ix) -> ledger_invariant (led (forget_chunk audit_key chunk ix)).
Proof.
  intros Hi. unfold forget_chunk. simpl. rewrite clear_loss_led.
  apply (ledger_invariant_ext (foldl (fun l d => drop_holder audit_key d l chunk) (led ix)
           (stamps_in chunk (led ix)).*1)); [done..|].
  by apply drop_holders_invariant.
Qed.

Lemma elem_of_holdings_of d c l :
  ledger_invariant l -> c ∈ holdings_of l d <-> is_Some (holders l !! (c, d)).
Proof.
  intros [Ha _ _]. unfold holdings_of. rewrite list_elem_of_fmap. split.
  - intros ([[d' [t c']] w] & -> & [Hd Hin]%list_elem_of_filter). simpl in *. subst d'.
    apply elem_of_btree_iter in Hin. rewrite Ha in Hin. destruct (decide _); [|done]. eauto.
  - intros [w Hw]. exists ((d, (tag c, c)), w). split; [done|]. apply list_elem_of_filter.
    split; [done|]. apply elem_of_btree_iter. by rewrite Ha, decide_True.
Qed.

(** Every record of the device goes, and no other. *)
Lemma forget_device_holders device now ix c d :
  ledger_invariant (led ix) ->
  holders (led (forget_device audit_key device now ix).2) !! (c, d)
  = if decide (d = device) then None else holders (led ix) !! (c, d).
Proof.
  intros Hi. cbn [forget_device snd led set_draining set_holders holders].
  rewrite foldl_delete_lookup. case_bool_decide as Hin.
  - apply list_elem_of_fmap in Hin as (c' & [= -> ->] & _). by rewrite decide_True.
  - destruct (decide (d = device)) as [->|Hne]; [|done].
    destruct (holders (led ix) !! (c, device)) as [w|] eqn:E; [|done].
    destruct Hin. apply list_elem_of_fmap. exists c. split; [done|].
    apply elem_of_holdings_of; eauto.
Qed.

Lemma forget_device_invariant device now ix :
  ledger_invariant (led ix) -> ledger_invariant (led (forget_device audit_key device now ix).2).
Proof.
  intros Hi. pose proof (forget_device_holders device now ix) as Hh.
  destruct Hi as [Ha Hc Hp]. split.
  - intros d t c. rewrite (Hh c d) by done.
    cbn [forget_device snd led set_draining set_holders holdings].
    rewrite foldl_delete_lookup. unfold holding_key. case_bool_decide as Hin.
    + apply list_elem_of_fmap in Hin as (c' & [= -> -> ->] & _). by rewrite !decide_True.
    + rewrite Ha. destruct (decide (t = tag c)) as [->|]; [|done].
      destruct (decide (d = device)) as [->|]; [|done].
      destruct (holders (led ix) !! (c, device)) as [w|] eqn:E; [|done].
      destruct Hin. apply list_elem_of_fmap. exists c. split; [done|].
      apply elem_of_holdings_of; [done|eauto].
  - intros d. cbn [forget_device snd led set_draining set_holders holder_counts].
    destruct (decide (d = device)) as [->|Hne].
    + rewrite lookup_delete_eq. symmetry. unfold records_of.
      rewrite (proj2 (map_empty_filter _ _)); [by rewrite map_size_empty|].
      intros [c d] w Hw. simpl. intros ->. rewrite Hh, decide_True in Hw by done. done.
    + rewrite lookup_delete_ne by done. rewrite Hc. unfold records_of. do 2 f_equal.
      apply map_filter_strong_ext. intros [c e] w. simpl.
      change (foldl _ _ _) with (holders (led (forget_device audit_key device now ix).2)).
      rewrite Hh by done. split; intros [-> Hw]; (split; [done|]).
      * by rewrite decide_False.
      * by rewrite decide_False in Hw.
  - intros d. cbn [forget_device snd led set_draining set_holders holder_counts].
    destruct (decide (d = device)) as [->|Hne]; [by rewrite lookup_delete_eq|].
    rewrite lookup_delete_ne by done. apply Hp.
Qed.

Lemma enqueue_device_in_led device now ix : led (enqueue_device_in device now ix) = led ix.
Proof. done. Qed.

Lemma note_audit_tables device ok now ix :
  let l := led (note_audit device ok now ix).2 in
  holders l = holders (led ix) /\ holdings l = holdings (led ix)
  /\ holder_counts l = holder_counts (led ix).
Proof. unfold note_audit. simpl. destruct (_ && _); done. Qed.

Lemma note_draining_tables device until now ix :
  let l := led (note_draining device until now ix).2 in
  holders l = holders (led ix) /\ holdings l = holdings (led ix)
  /\ holder_counts l = holder_counts (led ix).
Proof. unfold note_draining. destruct (_ || _); done. Qed.

(** Opening a store written before the second ordering, or before the counts,
    establishes the invariant from the chunk-first table alone. *)
Lemma rebuild_orders l d t c :
  holders l <> ∅ -> holdings l = ∅ ->
  holdings (rebuild_holdings_if_stale audit_key l) !! (d, (t, c))
  = if decide (t = tag c) then holders l !! (c, d) else None.
Proof.
  intros H1 H2. unfold rebuild_holdings_if_stale. rewrite H2.
  rewrite bool_decide_eq_false_2, bool_decide_eq_true_2 by done.
  cbn [orb negb set_holders holdings].
  assert (Hg : forall (rows : list ((N * N) * N)) (m : gmap (N * (N * N)) N), NoDup rows.*1 ->
    foldl (fun m p => <[holding_key audit_key p.1.2 p.1.1 := p.2]> m) m rows !! (d, (t, c))
    = match list_find (fun p => p.1 = (c, d)) rows with
      | Some (_, p) => if decide (t = tag c) then Some p.2 else m !! (d, (t, c))
      | None => m !! (d, (t, c))
      end).
  { intros rows. induction rows as [|[[c' d'] w] rows IH]; intros m Hnd; [done|].
    simpl in Hnd. apply NoDup_cons in Hnd as [Hn Hnd]. cbn [foldl]. rewrite IH by done.
    simpl. unfold holding_key. destruct (decide ((c', d') = (c, d))) as [[= -> ->]|Hne].
    - assert (list_find (fun p : (N * N) * N => p.1 = (c, d)) rows = None) as ->.
      { apply list_find_None. apply Forall_forall. intros p Hp Hpe. apply Hn.
        apply list_elem_of_fmap. by exists p. }
      destruct (decide (t = tag c)) as [->|Ht]; [by rewrite lookup_insert_eq|].
      rewrite lookup_insert_ne by congruence. done.
    - rewrite lookup_insert_ne by congruence. simpl.
      destruct (list_find _ rows) as [[i p]|]; done. }
  rewrite Hg by apply NoDup_btree_keys. rewrite lookup_empty.
  destruct (list_find _ _) as [[i p]|] eqn:Hf.
  - apply list_find_Some in Hf as (Hi & Hp & _). apply list_elem_of_lookup_2 in Hi.
    destruct p as [k w]. simpl in Hp. subst k. apply elem_of_btree_iter in Hi. by rewrite Hi.
  - destruct (holders l !! (c, d)) as [w|] eqn:Hw; [|by destruct (decide _)].
    apply list_find_None in Hf. rewrite Forall_forall in Hf.
    destruct (Hf ((c, d), w)); [by apply elem_of_btree_iter|done].
Qed.

End laws.
