(* ===== verification/Rings.v ===== *)
(** * Rings: contact history and where devices are seen from

    Models the uptime half of [crates/itsanas-store/src/index/placement.rs]: the
    node clock's judgement of a note ([Clock::judge]), what a note would write
    ([plan]), the sessions that record one ([note_seen_in], [note_if_known])
    and the network rows.  The write-sparing code is shown to do exactly what
    an unconditional write would ([note_ring_is_reference]), a clock reading
    that glitches ahead once is forgotten, and strangers leave nothing. *)

From S2P Require Import Prelude Version Ids Uptime Network Crypto Oplog IndexState Ledger.

Definition SECONDS_PER_HOUR : N := 3600.
Definition hour_of (now : N) : N := now / SECONDS_PER_HOUR.

Definition MAX_UNCONFIRMED_JUMP_HOURS : N := 7 * 24.
Definition JUMP_AGREES_HOURS : N := 24.

Record Clock := mkClock { latest : N; pending_hour : N }.

#[export] Instance Clock_eq_dec : EqDecision Clock.
Proof. solve_decision. Defined.

Definition clock_read (r : Rings) : Clock := mkClock (latest_hour r) (pending_jump r).

Definition judge (c : Clock) (hour : N) : bool * Clock :=
  let ordinary := (latest c =? 0) || (hour <=? sat_add (latest c) MAX_UNCONFIRMED_JUMP_HOURS) in
  let confirmed := negb (pending_hour c =? 0) && (pending_hour c <=? hour)
                   && (hour - pending_hour c <=? JUMP_AGREES_HOURS) in
  if ordinary || confirmed
  then (true, mkClock (latest c) 0)
  else (false, mkClock (latest c) hour).

Record Plan := mkPlan { plan_ring : option Uptime; plan_clock : option Clock }.

Definition plan_writes (p : Plan) : bool :=
  bool_decide (is_Some (plan_ring p)) || bool_decide (is_Some (plan_clock p)).

Definition plan (existing : option Uptime) (clock : Clock) (hour : N) (seen : bool) : Plan :=
  let '(accepted, after) := judge clock hour in
  let ring :=
    if accepted then
      let fresh := bool_decide (existing = None) in
      let '(changed, ring) := note hour seen (default (uptime_new hour) existing) in
      if changed || fresh then Some ring else None
    else None in
  let after :=
    if bool_decide (is_Some ring) && (latest after <? hour)
    then mkClock hour (pending_hour after) else after in
  mkPlan ring (if decide (after = clock) then None else Some after).

Definition apply_plan (device : DeviceId) (planned : Plan) (r : Rings) : bool * Rings :=
  let r := match plan_clock planned with
           | Some clock => mkRings (device_uptime r) (device_network r) (latest clock) (pending_hour clock)
           | None => r
           end in
  match plan_ring planned with
  | None => (false, r)
  | Some ring => (true, mkRings (<[device := ring]> (device_uptime r)) (device_network r)
                          (latest_hour r) (pending_jump r))
  end.

Definition note_ring (device : DeviceId) (now : N) (seen : bool) (r : Rings) : bool * Rings :=
  apply_plan device (plan (device_uptime r !! device) (clock_read r) (hour_of now) seen) r.

(** Whether this node has had to do with [device]. *)
Definition known (device : DeviceId) (ix : Index) : bool :=
  bool_decide (is_Some (device_uptime (rg ix) !! device))
  || bool_decide (is_Some (device_seen (led ix) !! device)).

Definition note_seen (device : DeviceId) (now : N) (ix : Index) : Index :=
  let r := rg ix in
  if seen_within_step device now (led ix)
     && negb (plan_writes (plan (device_uptime r !! device) (clock_read r) (hour_of now) true))
  then ix
  else
    on_rg (fun r => (note_ring device now true r).2)
      (on_led (fun l => set_device_seen (<[device := now]> (device_seen l)) l) ix).

Definition note_if_known (device : DeviceId) (now : N) (seen : bool) (ix : Index) : bool * Index :=
  if known device ix then
    let planned := plan (device_uptime (rg ix) !! device) (clock_read (rg ix)) (hour_of now) seen in
    if plan_writes planned then (true, on_rg (fun r => (note_ring device now seen r).2) ix)
    else (true, ix)
  else (false, ix).

Definition note_unreached (device : DeviceId) (now : N) (ix : Index) : bool * Index :=
  note_if_known device now false ix.
Definition note_seen_if_known (device : DeviceId) (now : N) (ix : Index) : bool * Index :=
  note_if_known device now true ix.

(** ** Network rows *)

Definition read_network (device : DeviceId) (r : Rings) : option (Network * N) :=
  match device_network r !! device with
  | None => None
  | Some bytes =>
      if decide (length bytes = (NETWORK_BYTES + 8)%nat)
      then (fun network => (network, of_le_bytes (drop NETWORK_BYTES bytes)))
             <$> from_bytes (take NETWORK_BYTES bytes)
      else None
  end.

Definition note_network (device : DeviceId) (network : Network) (now : N) (ix : Index) : bool * Index :=
  if known device ix then
    let unchanged := match read_network device (rg ix) with
                     | Some (held, at_) =>
                         bool_decide (held = network) && (hour_of at_ =? hour_of now)
                     | None => false
                     end in
    if unchanged then (true, ix)
    else
      let row := to_bytes network ++ le_bytes 8 now in
      (true, on_rg (fun r => mkRings (device_uptime r) (<[device := row]> (device_network r))
                               (latest_hour r) (pending_jump r)) ix)
  else (false, ix).

Definition network_since (device : DeviceId) (since : N) (r : Rings) : option Network :=
  match read_network device r with
  | Some (network, at_) => if since <=? at_ then Some network else None
  | None => None
  end.

Definition uptime_of (device : DeviceId) (r : Rings) : option Uptime := device_uptime r !! device.
Definition uptimes (r : Rings) : list (DeviceId * Uptime) := btree_iter (device_uptime r).
Definition latest_hour_written (r : Rings) : N := latest_hour r.

(** ** The reference: every accepted note is written *)

Definition accepts (c : Clock) (hour : N) : bool := (judge c hour).1.

Definition reference_note (device : DeviceId) (hour : N) (seen : bool) (r : Rings) : Rings :=
  if accepts (clock_read r) hour
  then mkRings (<[device := (note hour seen (default (uptime_new hour) (device_uptime r !! device))).2]>
                  (device_uptime r))
         (device_network r) (N.max (latest_hour r) hour) 0
  else mkRings (device_uptime r) (device_network r) (latest_hour r) hour.

(** No ring is ahead of the node clock. *)
Definition rings_ok (r : Rings) : Prop :=
  forall d ring, device_uptime r !! d = Some ring -> ring_wf ring /\ last_hour ring <= latest_hour r.

(** A note that reports no change has made none. *)
Lemma clear_stale_unchanged l c r :
  (foldl clear_stale (c, r) l).1 = false -> c = false /\ (foldl clear_stale (c, r) l).2 = r.
Proof.
  revert c r. induction l as [|h l IH]; intros c r; cbn [foldl]; [done|].
  unfold clear_stale at 2 4. destruct (bit_set _ _); intros H; apply IH in H as [? ?]; done.
Qed.

Lemma advance_unchanged hour r : (advance hour r).1 = false -> (advance hour r).2 = r.
Proof.
  unfold advance. destruct (_ <=? _); [done|].
  pose proof (clear_stale_unchanged (hours (last_hour r + 1) hour) false r) as H.
  destruct (foldl _ _ _) as [c r']. cbn [fst snd] in H.
  destruct (hour =? _); [|done]. intros Hc. by apply H.
Qed.

Lemma mark_unchanged hour s c r : (mark hour s c r).1 = false -> c = false /\ (mark hour s c r).2 = r.
Proof. unfold mark. by repeat case_match; simplify_eq/=. Qed.

Lemma note_unchanged hour s r : (note hour s r).1 = false -> (note hour s r).2 = r.
Proof.
  unfold note. destruct (_ <? _); [done|].
  pose proof (advance_unchanged hour r) as Ha. destruct (advance hour r) as [c r1]. cbn [fst snd] in Ha.
  intros [-> ->]%mark_unchanged. auto.
Qed.

Lemma note_advances hour s r : last_hour r < hour -> (note hour s r).1 = true.
Proof.
  intros Hlt. apply not_false_iff_true. intros H. pose proof (note_unchanged _ _ _ H) as E.
  revert H E. unfold note. rewrite (proj2 (N.ltb_ge _ _)) by lia.
  unfold advance. destruct (_ <=? _) eqn:E1.
  - intros [Hc _]%mark_unchanged _. done.
  - destruct (foldl _ _ _) as [c r'] eqn:E2. destruct (N.eqb_spec hour (last_hour r')) as [->|].
    + intros [-> ->]%mark_unchanged ->. lia.
    + intros [Hc _]%mark_unchanged _. done.
Qed.

Lemma note_last_hour hour s r : ring_wf r ->
  ring_wf (note hour s r).2 /\ last_hour (note hour s r).2 = N.max (last_hour r) hour.
Proof.
  intros Hwf. destruct (N.lt_ge_cases hour (last_hour r)) as [Hlt|Hge].
  - unfold note. rewrite (proj2 (N.ltb_lt _ _) Hlt). split; [done|]. cbn [snd]. lia.
  - destruct (note_spec hour s r Hwf Hge) as (? & E & _). split; [done|]. lia.
Qed.

(** Hours of a 64-bit clock are far from the top. *)
Lemma hour_of_u64 now : is_u64 now -> hour_of now <= u64_max - 1000.
Proof.
  unfold is_u64, hour_of, SECONDS_PER_HOUR, u64_max. intros H.
  transitivity ((2 ^ 64 - 1) / 3600); [by apply N.Div0.div_le_mono|done].
Qed.

Lemma judge_fst_snd c hour :
  (judge c hour).2 = mkClock (latest c) (if accepts c hour then 0 else hour).
Proof. unfold accepts, judge. by destruct (_ || _). Qed.

Lemma apply_plan_eq device ring after r :
  (apply_plan device (mkPlan ring (if decide (after = clock_read r) then None else Some after)) r).2
  = mkRings (match ring with Some u => <[device := u]> (device_uptime r) | None => device_uptime r end)
      (device_network r) (latest after) (pending_hour after).
Proof.
  unfold apply_plan. cbn [plan_ring plan_clock].
  destruct (decide (after = clock_read r)) as [->|_]; destruct ring; by destruct r.
Qed.

(** The write-sparing note does what writing every accepted note would. *)
Lemma note_ring_reference device now seen r :
  rings_ok r -> (note_ring device now seen r).2 = reference_note device (hour_of now) seen r.
Proof.
  intros Hok. unfold note_ring, plan, reference_note. set (hour := hour_of now).
  pose proof (judge_fst_snd (clock_read r) hour) as Hj. fold (accepts (clock_read r) hour).
  destruct (judge (clock_read r) hour) as [acc after] eqn:Ej. cbn [snd] in Hj. subst after.
  assert (Ea : accepts (clock_read r) hour = acc) by (unfold accepts; by rewrite Ej). rewrite Ea.
  destruct acc; [|rewrite bool_decide_false by (intros [? ?]; done); cbn [andb]; by rewrite apply_plan_eq].
  cbn [latest pending_hour].
  destruct (note hour seen (default (uptime_new hour) (device_uptime r !! device))) as [changed ring] eqn:En.
  destruct (changed || bool_decide (device_uptime r !! device = None)) eqn:Ew.
  - rewrite (bool_decide_true (is_Some (Some ring))) by done. cbn [andb]. rewrite apply_plan_eq.
    cbn [clock_read latest pending_hour snd]. f_equal; destruct (N.ltb_spec (latest_hour r) hour); cbn; lia.
  - apply orb_false_iff in Ew as [-> Ex%bool_decide_eq_false].
    destruct (device_uptime r !! device) as [r0|] eqn:Er; [|done]. cbn [default id] in En.
    rewrite (bool_decide_false (is_Some None)) by (intros [? ?]; done). cbn [andb]. rewrite apply_plan_eq.
    pose proof (note_unchanged hour seen r0) as Hu. rewrite En in Hu. cbn in Hu. specialize (Hu eq_refl). subst ring.
    assert (hour <= last_hour r0).
    { destruct (N.lt_ge_cases (last_hour r0) hour) as [Hlt|]; [|lia].
      pose proof (note_advances hour seen r0 Hlt) as Hn. by rewrite En in Hn. }
    destruct (Hok device r0 Er) as [_ Hl]. cbn [clock_read latest pending_hour snd].
    f_equal; [by rewrite insert_id|lia].
Qed.

Lemma reference_note_ok device hour seen r : rings_ok r -> rings_ok (reference_note device hour seen r).
Proof.
  intros Hok d ring. unfold reference_note. destruct (accepts _ _); cbn [device_uptime latest_hour]; [|apply Hok].
  assert (Hdef : ring_wf (default (uptime_new hour) (device_uptime r !! device))
    /\ last_hour (default (uptime_new hour) (device_uptime r !! device)) <= N.max (latest_hour r) hour).
  { destruct (device_uptime r !! device) as [r0|] eqn:E; cbn [default id].
    - destruct (Hok _ _ E). split; [done|lia].
    - split; [apply uptime_new_wf|cbn; lia]. }
  destruct Hdef as [Hwf Hl]. rewrite lookup_insert_Some. intros [[<- <-]|[_ H]].
  - destruct (note_last_hour hour seen _ Hwf) as [? ->]. split; [done|lia].
  - destruct (Hok _ _ H). split; [done|lia].
Qed.

Lemma plan_no_write device now seen r :
  plan_writes (plan (device_uptime r !! device) (clock_read r) (hour_of now) seen) = false ->
  (note_ring device now seen r).2 = r.
Proof.
  unfold plan_writes, note_ring. rewrite orb_false_iff, !bool_decide_eq_false.
  destruct (plan _ _ _ _) as [[ring|] [c|]]; cbn; intros [H1 H2];
    first [done|by destruct H1; eauto|by destruct H2; eauto].
Qed.

Lemma empty_rings_ok : rings_ok (rg empty_index).
Proof. intros d ring. cbn [empty_index rg device_uptime]. by rewrite lookup_empty. Qed.

Lemma note_seen_rings device now ix :
  rings_ok (rg ix) -> rg (note_seen device now ix) = reference_note device (hour_of now) true (rg ix).
Proof.
  intros Hok. rewrite <- note_ring_reference by done. unfold note_seen.
  destruct (seen_within_step _ _ _ && _) eqn:E; [|done].
  apply andb_true_iff in E as [_ E%negb_true_iff]. by rewrite plan_no_write.
Qed.

Lemma note_if_known_eq device now seen ix :
  rings_ok (rg ix) ->
  note_if_known device now seen ix
  = (known device ix,
     if known device ix then on_rg (reference_note device (hour_of now) seen) ix else ix).
Proof.
  intros Hok. unfold note_if_known. destruct (known device ix); [|done].
  assert (on_rg (reference_note device (hour_of now) seen) ix
          = on_rg (fun r => (note_ring device now seen r).2) ix) as ->
    by (unfold on_rg; by rewrite note_ring_reference).
  destruct (plan_writes _) eqn:E; [done|]. unfold on_rg. rewrite plan_no_write by done. by destruct ix.
Qed.

(** Sessions spare their writes without changing what is recorded: a dialled
    session and a session of a known device leave exactly what writing every
    accepted note would leave, a device never met leaves the index untouched,
    and no ring ever gets ahead of the node clock. *)
Theorem sessions_record_the_reference (device : DeviceId) (now : N) (seen : bool) (ix : Index) :
  rings_ok (rg ix) ->
  rg (note_seen device now ix) = reference_note device (hour_of now) true (rg ix)
  /\ note_if_known device now seen ix
     = (known device ix,
        if known device ix then on_rg (reference_note device (hour_of now) seen) ix else ix)
  /\ rings_ok (rg (note_seen device now ix)) /\ rings_ok (rg (note_if_known device now seen ix).2).
Proof.
  intros Hok. pose proof (note_seen_rings device now ix Hok) as E1.
  pose proof (note_if_known_eq device now seen ix Hok) as E2. split_and!; [done|done| |].
  - rewrite E1. by apply reference_note_ok.
  - rewrite E2. destruct (known device ix); [|done]. by apply reference_note_ok.
Qed.

Lemma sessions_record_the_reference_witness :
  rg (note_seen 7 7200 empty_index) = reference_note 7 2 true (rg empty_index).
Proof. apply (sessions_record_the_reference 7 7200 true empty_index empty_rings_ok). Defined.

(** What the sessions leave alone. *)
Lemma note_seen_frame device now ix :
  let ix' := note_seen device now ix in
  ft ix' = ft ix /\ lt ix' = lt ix /\ pq ix' = pq ix
  /\ holders (led ix') = holders (led ix) /\ holdings (led ix') = holdings (led ix)
  /\ holder_counts (led ix') = holder_counts (led ix).
Proof. unfold note_seen. by destruct (_ && _). Qed.

Lemma note_if_known_frame device now seen ix :
  let ix' := (note_if_known device now seen ix).2 in
  ft ix' = ft ix /\ lt ix' = lt ix /\ pq ix' = pq ix /\ led ix' = led ix.
Proof. unfold note_if_known. by destruct (known _ _); [destruct (plan_writes _)|]. Qed.

Lemma note_network_frame device n now ix :
  let ix' := (note_network device n now ix).2 in
  ft ix' = ft ix /\ lt ix' = lt ix /\ pq ix' = pq ix /\ led ix' = led ix
  /\ device_uptime (rg ix') = device_uptime (rg ix) /\ latest_hour (rg ix') = latest_hour (rg ix).
Proof. unfold note_network. destruct (known _ _); [|done]. by destruct (match _ with Some _ => _ | None => _ end). Qed.

Lemma rings_ok_ext r r' :
  device_uptime r' = device_uptime r -> latest_hour r' = latest_hour r -> rings_ok r -> rings_ok r'.
Proof. intros E1 E2 H d ring. rewrite E1, E2. apply H. Qed.

(** ** Clock glitches *)

Lemma accepts_ordinary c hour :
  hour <= sat_add (latest c) MAX_UNCONFIRMED_JUMP_HOURS -> accepts c hour = true.
Proof.
  intros H. unfold accepts, judge. rewrite (proj2 (N.leb_le _ _) H). by rewrite orb_true_r.
Qed.

Lemma rejects_lone_jump c hour :
  latest c <> 0 -> pending_hour c = 0 -> sat_add (latest c) MAX_UNCONFIRMED_JUMP_HOURS < hour ->
  accepts c hour = false.
Proof.
  intros H1 H2 H3. unfold accepts, judge.
  rewrite (proj2 (N.eqb_neq _ _) H1), (proj2 (N.leb_gt _ _) H3), H2. done.
Qed.

(** One clock reading far in the future moves no ring and is forgotten by the
    next ordinary note, whatever devices the two notes are about. *)
Theorem lone_glitch_is_forgotten (d1 d2 : DeviceId) (glitch now : N) (s1 s2 : bool) (r : Rings) :
  rings_ok r -> latest_hour r <> 0 -> pending_jump r = 0 ->
  sat_add (latest_hour r) MAX_UNCONFIRMED_JUMP_HOURS < hour_of glitch ->
  hour_of now <= sat_add (latest_hour r) MAX_UNCONFIRMED_JUMP_HOURS ->
  let after := (note_ring d1 glitch s1 r).2 in
  device_uptime after = device_uptime r /\ latest_hour after = latest_hour r
  /\ (note_ring d2 now s2 after).2 = (note_ring d2 now s2 r).2.
Proof.
  intros Hok Hl Hp Hg Hn. cbn zeta.
  assert (E : (note_ring d1 glitch s1 r).2
              = mkRings (device_uptime r) (device_network r) (latest_hour r) (hour_of glitch)).
  { rewrite note_ring_reference by done. unfold reference_note. by rewrite rejects_lone_jump. }
  rewrite E. split_and!; [done..|]. rewrite !note_ring_reference by done.
  unfold reference_note. by rewrite !accepts_ordinary.
Qed.

Lemma lone_glitch_is_forgotten_witness :
  let r := mkRings {[ 7 := uptime_new 1000 ]} ∅ 1000 0 in
  (note_ring 7 (3600 * 1001) true (note_ring 8 (3600 * 9000) true r).2).2
  = (note_ring 7 (3600 * 1001) true r).2.
Proof.
  apply (lone_glitch_is_forgotten 8 7 (3600 * 9000) (3600 * 1001) true true
           (mkRings {[ 7 := uptime_new 1000 ]} ∅ 1000 0)); try done.
  intros d ring. cbn [device_uptime latest_hour]. intros [<- <-]%lookup_singleton_Some.
  split; [apply uptime_new_wf|done].
Defined.

(** A jump a second note agrees with is believed: a node that really was off
    for long records again from its second note. *)
Theorem repeated_jump_is_believed (d1 d2 : DeviceId) (first second : N) (s1 s2 : bool) (r : Rings) :
  rings_ok r -> is_u64 second -> hour_of first <> 0 ->
  hour_of first <= hour_of second <= hour_of first + JUMP_AGREES_HOURS ->
  latest_hour r <= hour_of second ->
  let after := (note_ring d2 second s2 (note_ring d1 first s1 r).2).2 in
  latest_hour after = hour_of second /\ pending_jump after = 0
  /\ exists ring, uptime_of d2 after = Some ring /\ last_hour ring = hour_of second
       /\ attempted_at ring (hour_of second) = true.
Proof.
  intros Hok H64 H0 [Hle Hclose] Hlate. cbn zeta. rewrite (note_ring_reference d1) by done.
  pose proof (reference_note_ok d1 (hour_of first) s1 r Hok) as Hok1.
  rewrite note_ring_reference by done. set (r1 := reference_note d1 (hour_of first) s1 r) in *.
  assert (Hl1 : latest_hour r1 <= hour_of second).
  { unfold r1, reference_note. destruct (accepts _ _); cbn; lia. }
  assert (Hacc : accepts (clock_read r1) (hour_of second) = true).
  { unfold r1, reference_note. destruct (accepts (clock_read r) (hour_of first)).
    - unfold accepts, judge. cbn [clock_read latest pending_hour latest_hour pending_jump].
      destruct (N.leb_spec (hour_of second)
        (sat_add (N.max (latest_hour r) (hour_of first)) MAX_UNCONFIRMED_JUMP_HOURS)) as [|Hgt];
        [by rewrite orb_true_r|].
      pose proof (hour_of_u64 second H64). unfold is_u64, sat_add in *.
      unfold MAX_UNCONFIRMED_JUMP_HOURS, JUMP_AGREES_HOURS in *. lia.
    - unfold accepts, judge. cbn [clock_read latest pending_hour latest_hour pending_jump].
      rewrite (proj2 (N.eqb_neq _ _) H0), (proj2 (N.leb_le _ _) Hle).
      rewrite (proj2 (N.leb_le (hour_of second - hour_of first) _)) by lia. by rewrite orb_true_r. }
  unfold reference_note. rewrite Hacc. cbn [latest_hour pending_jump]. split_and!; [lia|done|].
  unfold uptime_of. cbn [device_uptime]. rewrite lookup_insert_eq. eexists. split; [done|].
  set (r0 := default _ _). assert (ring_wf r0 /\ last_hour r0 <= hour_of second) as [Hwf Hr0].
  { unfold r0. destruct (device_uptime r1 !! d2) as [u|] eqn:Eu; cbn [default id].
    - destruct (Hok1 _ _ Eu). split; [done|lia].
    - split; [apply uptime_new_wf|cbn; lia]. }
  destruct (note_spec (hour_of second) s2 r0 Hwf Hr0) as (_ & E & _ & Ha & _).
  split; [done|]. by rewrite Ha, N.eqb_refl.
Qed.

Lemma repeated_jump_is_believed_witness :
  let r := mkRings {[ 7 := uptime_new 1000 ]} ∅ 1000 0 in
  latest_hour (note_ring 7 (3600 * 9001) true (note_ring 7 (3600 * 9000) true r).2).2 = 9001.
Proof.
  apply (repeated_jump_is_believed 7 7 (3600 * 9000) (3600 * 9001) true true
           (mkRings {[ 7 := uptime_new 1000 ]} ∅ 1000 0)); try done.
  intros d ring. cbn [device_uptime latest_hour]. intros [<- <-]%lookup_singleton_Some.
  split; [apply uptime_new_wf|done].
Defined.

(** ** Networks *)

Lemma read_network_row device n now r :
  network_wf n -> is_u64 now -> device_network r !! device = Some (to_bytes n ++ le_bytes 8 now) ->
  read_network device r = Some (n, now).
Proof.
  intros Hn H64 E. unfold read_network. rewrite E.
  assert (Hl : length (to_bytes n) = NETWORK_BYTES).
  { unfold network_wf, from_bytes in Hn. by destruct (decide (length (net_bytes n) = NETWORK_BYTES)). }
  rewrite decide_True by (rewrite length_app, Hl, length_le_bytes; done).
  rewrite take_app_length', drop_app_length' by done. unfold network_wf in Hn. unfold to_bytes. rewrite Hn.
  cbn [fmap option_fmap option_map]. rewrite of_le_bytes_le_bytes, N.mod_small; [done|].
  unfold is_u64, u64_max in H64. change (256 ^ N.of_nat 8) with (2 ^ 64). lia.
Qed.

(** A known device's network is on record after a note of it, stamped within
    the hour, and a device never met gets no row. *)
Theorem noted_network_is_found (device : DeviceId) (n : Network) (now since : N) (ix : Index) :
  network_wf n -> is_u64 now -> since <= SECONDS_PER_HOUR * hour_of now ->
  (note_network device n now ix).1 = known device ix
  /\ if known device ix
     then network_since device since (rg (note_network device n now ix).2) = Some n
     else (note_network device n now ix).2 = ix.
Proof.
  intros Hn H64 Hs. unfold note_network. destruct (known device ix); [|done].
  pose proof (N.Div0.mul_div_le now SECONDS_PER_HOUR) as Hnow. fold (hour_of now) in Hnow.
  destruct (match read_network device (rg ix) with Some _ => _ | None => _ end) eqn:E; cbn [fst snd].
  - split; [done|]. unfold network_since. destruct (read_network device (rg ix)) as [[held at_]|]; [|done].
    apply andb_true_iff in E as [->%bool_decide_eq_true Eh%N.eqb_eq].
    pose proof (N.Div0.mul_div_le at_ SECONDS_PER_HOUR) as Hat. fold (hour_of at_) in Hat.
    rewrite (proj2 (N.leb_le since at_)); [done|]. rewrite Eh in Hat. lia.
  - split; [done|]. unfold network_since. cbn [on_rg rg].
    rewrite (read_network_row device n now) by (done || apply lookup_insert_eq).
    rewrite (proj2 (N.leb_le since now)); [done|]. lia.
Qed.

Lemma noted_network_is_found_witness :
  let ix := note_seen 7 7200 empty_index in
  network_since 7 7200 (rg (note_network 7 (mkNetwork (1 :: replicate 16 0)) 7201 ix).2)
  = Some (mkNetwork (1 :: replicate 16 0)).
Proof.
  apply (noted_network_is_found 7 (mkNetwork (1 :: replicate 16 0)) 7201 7200
           (note_seen 7 7200 empty_index)); done.
Defined.
