(* ===== verification/Index.v ===== *)
(** * Index: the whole index as a transition system

    Every operation of [crates/itsanas-store/src/index.rs] and
    [index/placement.rs] that writes a table is a constructor of [IndexOp];
    [index_step] runs it.  [index_reachable] is reachability from a freshly
    created store, and its invariant [index_invariant] joins the three
    component invariants and that of the rings.  The guards are what the callers establish: a chunk
    is only forgotten or released when nothing references it, an entry takes
    the next sequence, and a segment seals everything that waits. *)

From S2P Require Import Prelude Version Ids Path Crypto Oplog IndexState ShortQueue Files Log.
From S2P Require Import Uptime Network Ledger Rings.

Inductive IndexOp :=
| OpPutFile (now : N) (path : string) (entry : FileEntry)
| OpReleaseFile (now : N) (path : string)
| OpRemoveFile (now : N) (path : string) (tombstone : Tombstone)
| OpForgetTombstone (path : string)
| OpLocalBytes
| OpSetLocalState (path : string) (s : LocalState)
| OpClearLocalState (path : string)
| OpNoteLoss (chunk : ChunkId) (now : N)
| OpSettleLosses (present missing : list ChunkId) (now : N)
| OpClearLoss (chunk : ChunkId)
| OpReleaseChunk (chunk : ChunkId)
| OpForgetChunk (chunk : ChunkId)
| OpPushPending (entry : LogEntry)
| OpAppendSegment (envelope : SegmentEnvelope)
| OpSetAppliedHead (device : DeviceId) (head : ObjectId)
| OpRecordHolders (chunks : list ChunkId) (device : DeviceId) (now : N)
| OpRecordStored (chunks : list ChunkId) (device : DeviceId) (now : N)
| OpForgetHolders (chunks : list ChunkId) (device : DeviceId) (now : N)
| OpForgetHolder (chunk : ChunkId) (device : DeviceId) (now : N)
| OpForgetDevice (device : DeviceId) (now : N)
| OpNoteReleased (chunks : list ChunkId) (device : DeviceId) (now : N)
| OpNoteDraining (device : DeviceId) (until now : N)
| OpNoteAudit (device : DeviceId) (ok : bool) (now : N)
| OpNoteProbe (device : DeviceId) (chunk : ChunkId)
| OpNotePeerFull (device : DeviceId) (now : N)
| OpNoteLedgerWalk (device : DeviceId) (now : N)
| OpAdmitMember (device : DeviceId) (revoked : bool)
| OpEnqueueShort (chunks : list ChunkId) (now : N)
| OpSettleShort (chunks : list ChunkId)
| OpSetPlacementMeasured (measured : bool)
| OpCensusNext (limit : nat) (random : ChunkId)
| OpNoteSeen (device : DeviceId) (now : N)
| OpNoteIfKnown (device : DeviceId) (now : N) (seen : bool)
| OpNoteNetwork (device : DeviceId) (network : Network) (now : N).

Section index.
Context `{!Primitives} (audit_key : list N).

Definition index_step (op : IndexOp) (ix : Index) : Index :=
  match op with
  | OpPutFile now path e => (put_file now path e ix).2
  | OpReleaseFile now path => (release_file now path ix).2
  | OpRemoveFile now path t => (remove_file now path t ix).2
  | OpForgetTombstone path => forget_tombstone path ix
  | OpLocalBytes => (local_bytes ix).2
  | OpSetLocalState path s => put_local_state path s ix
  | OpClearLocalState path => clear_local_state path ix
  | OpNoteLoss c now => note_loss c now ix
  | OpSettleLosses p m now => settle_losses p m now ix
  | OpClearLoss c => clear_loss c ix
  | OpReleaseChunk c => release_chunk c ix
  | OpForgetChunk c => forget_chunk audit_key c ix
  | OpPushPending e => push_pending e ix
  | OpAppendSegment e => (append_segment e ix).2
  | OpSetAppliedHead d h => set_applied_head d h ix
  | OpRecordHolders cs d now => on_led (record_holders audit_key cs d now) ix
  | OpRecordStored cs d now => on_led (record_stored audit_key cs d now) ix
  | OpForgetHolders cs d now => forget_holders audit_key cs d now ix
  | OpForgetHolder c d now => forget_holder audit_key c d now ix
  | OpForgetDevice d now => (forget_device audit_key d now ix).2
  | OpNoteReleased cs d now => on_led (note_released cs d now) ix
  | OpNoteDraining d until now => (note_draining d until now ix).2
  | OpNoteAudit d ok now => (note_audit d ok now ix).2
  | OpNoteProbe d c => on_led (note_probe d c) ix
  | OpNotePeerFull d now => on_led (note_peer_full d now) ix
  | OpNoteLedgerWalk d now => on_led (note_ledger_walk d now) ix
  | OpAdmitMember d r => on_led (admit_member d r) ix
  | OpEnqueueShort cs now => enqueue_short cs now ix
  | OpSettleShort cs => settle_short cs ix
  | OpSetPlacementMeasured m => set_placement_measured m ix
  | OpCensusNext limit random => (census_next limit random ix).2
  | OpNoteSeen d now => note_seen d now ix
  | OpNoteIfKnown d now seen => (note_if_known d now seen ix).2
  | OpNoteNetwork d n now => (note_network d n now ix).2
  end.

(** What the callers establish before they call: [release] and [collect_garbage] drop
    only chunks no file refers to, an operation takes the next number, a segment
    seals all that is pending. *)
Definition op_allowed (op : IndexOp) (ix : Index) : Prop :=
  match op with
  | OpReleaseChunk c | OpForgetChunk c => reference_count c ix = 0
  | OpPushPending e => le_sequence e = next_sequence ix /\ next_sequence ix < u64_max
  | OpAppendSegment e => seals_all e ix
  | _ => True
  end.

(** The counters of the tables do not run out of 64 bits. *)
Definition index_fits (ix : Index) : Prop := fits (files (ft ix)) /\ ledger_fits (led ix).

Inductive index_reachable : Index -> Prop :=
| reach_empty : index_reachable empty_index
| reach_step op ix :
    index_reachable ix -> op_allowed op ix -> index_fits (index_step op ix) ->
    index_reachable (index_step op ix).

Record index_invariant (ix : Index) : Prop := {
  inv_files : files_invariant ix;
  inv_log : log_invariant ix;
  inv_ledger : ledger_invariant audit_key (led ix);
  inv_rings : rings_ok (rg ix);
}.

(** ** Which tables an operation leaves alone *)

Lemma files_invariant_ext ix ix' :
  files (ft ix') = files (ft ix) -> chunk_refs (ft ix') = chunk_refs (ft ix) ->
  unreferenced (ft ix') = unreferenced (ft ix) -> tombstones (ft ix') = tombstones (ft ix) ->
  byte_total (ft ix') = byte_total (ft ix) ->
  (queue_live (chunk_refs (ft ix)) (pq ix) -> queue_live (chunk_refs (ft ix)) (pq ix')) ->
  files_invariant ix -> files_invariant ix'.
Proof.
  intros E1 E2 E3 E4 E5 Hq [H1 H2 H3 H4 H5].
  split; intros; rewrite ?E1, ?E2, ?E3, ?E4 in *; auto.
  apply H4. congruence.
Qed.

Lemma log_invariant_ext ix ix' : lt ix' = lt ix -> log_invariant ix -> log_invariant ix'.
Proof.
  intros E [H1 H2 H3 H4 H5 H6 H7].
  split; unfold next_sequence in *; rewrite E; auto.
Qed.

(** Dropping an unreferenced chunk's rows keeps the file tables in step. *)
Lemma drop_chunk_invariant c ix ix' :
  files_invariant ix -> reference_count c ix = 0 ->
  files (ft ix') = files (ft ix) -> chunk_refs (ft ix') = delete c (chunk_refs (ft ix)) ->
  unreferenced (ft ix') = delete c (unreferenced (ft ix)) ->
  tombstones (ft ix') = tombstones (ft ix) -> byte_total (ft ix') = byte_total (ft ix) ->
  short_since (pq ix') = delete c (short_since (pq ix)) ->
  files_invariant ix'.
Proof.
  intros [H1 H2 H3 H4 H5] Hc E1 E2 E3 E4 E5 E6. split.
  - intros d. rewrite E1, E2, <- H1. destruct (decide (d = c)) as [->|Hne].
    + rewrite lookup_delete_eq. by unfold reference_count in Hc; rewrite Hc.
    + by rewrite lookup_delete_ne.
  - intros d. rewrite E2, E3. destruct (decide (d = c)) as [->|Hne].
    + rewrite !lookup_delete_eq. split; [by intros []|done].
    + rewrite !lookup_delete_ne by done. apply H2.
  - intros p. rewrite E1, E4. apply H3.
  - intros t. rewrite E1, E5. apply H4.
  - intros d. rewrite E2, E6. destruct (decide (d = c)) as [->|Hne].
    + rewrite lookup_delete_eq. by intros [].
    + rewrite !lookup_delete_ne by done. apply H5.
Qed.

Lemma forget_one_frame d now ix c :
  let ix' := forget_one audit_key d now ix c in
  ft ix' = ft ix /\ lt ix' = lt ix /\ queue_grows (chunk_refs (ft ix)) now (pq ix) (pq ix').
Proof.
  unfold forget_one. destruct (holders (led ix) !! (c, d)); simpl; split_and!;
    try done; [apply enqueue_in_grows|apply queue_grows_refl].
Qed.

Lemma forget_holders_frame cs d now ix :
  let ix' := forget_holders audit_key cs d now ix in
  ft ix' = ft ix /\ lt ix' = lt ix /\ queue_grows (chunk_refs (ft ix)) now (pq ix) (pq ix').
Proof.
  unfold forget_holders. revert ix. induction cs as [|c cs IH]; intros ix; simpl.
  { split_and!; [done..|apply queue_grows_refl]. }
  destruct (forget_one_frame d now ix c) as (F1 & L1 & Q1).
  destruct (IH (forget_one audit_key d now ix c)) as (F2 & L2 & Q2).
  rewrite F1 in Q2. split_and!; [congruence|congruence|].
  by eapply queue_grows_trans.
Qed.

(** ** Preservation, component by component *)

Lemma clear_loss_ft c ix :
  files (ft (clear_loss c ix)) = files (ft ix)
  /\ chunk_refs (ft (clear_loss c ix)) = chunk_refs (ft ix)
  /\ unreferenced (ft (clear_loss c ix)) = unreferenced (ft ix)
  /\ tombstones (ft (clear_loss c ix)) = tombstones (ft ix)
  /\ byte_total (ft (clear_loss c ix)) = byte_total (ft ix)
  /\ pq (clear_loss c ix) = pq ix /\ lt (clear_loss c ix) = lt ix.
Proof. unfold clear_loss. by destruct (losses (ft ix) !! c). Qed.

Lemma release_chunk_files c ix :
  files_invariant ix -> reference_count c ix = 0 -> files_invariant (release_chunk c ix).
Proof.
  intros Hi Hc. destruct (clear_loss_ft c ix) as (E1 & E2 & E3 & E4 & E5 & E6 & _).
  unfold release_chunk. eapply (drop_chunk_invariant c ix); [done|done|..];
    simpl; rewrite ?E1, ?E2, ?E3, ?E4, ?E5, ?E6; done.
Qed.

Lemma forget_chunk_files c ix :
  files_invariant ix -> reference_count c ix = 0 ->
  files_invariant (forget_chunk audit_key c ix).
Proof.
  intros Hi Hc. destruct (clear_loss_ft c ix) as (E1 & E2 & E3 & E4 & E5 & E6 & _).
  unfold forget_chunk. eapply (drop_chunk_invariant c ix); [done|done|..];
    simpl; rewrite ?E1, ?E2, ?E3, ?E4, ?E5, ?E6; done.
Qed.

(** A queue that only grew by live chunks is still live. *)
Ltac queue_only ix Hi :=
  apply (files_invariant_ext ix); [done|done|done|done|done| |exact Hi];
  let H := fresh in intros H; eapply queue_grows_live; [exact H|].

Lemma forget_tombstone_files path ix :
  files_invariant ix -> files_invariant (forget_tombstone path ix).
Proof.
  intros [H1 H2 H3 H4 H5]. split; [exact H1|exact H2| |exact H4|exact H5].
  intros p. cbn [forget_tombstone on_ft ft set_tombstones files tombstones].
  destruct (H3 p) as [?|E]; [by left|right].
  destruct (decide (p = path)) as [->|]; [apply lookup_delete_eq|by rewrite lookup_delete_ne].
Qed.

Lemma settle_losses_ft p m now ix :
  let t := ft (settle_losses p m now ix) in
  files t = files (ft ix) /\ chunk_refs t = chunk_refs (ft ix)
  /\ unreferenced t = unreferenced (ft ix) /\ tombstones t = tombstones (ft ix)
  /\ byte_total t = byte_total (ft ix) /\ pq (settle_losses p m now ix) = pq ix
  /\ lt (settle_losses p m now ix) = lt ix /\ led (settle_losses p m now ix) = led ix.
Proof. unfold settle_losses. cbn zeta. by destruct (_ && _). Qed.

Lemma settle_short_live cs ix :
  queue_live (chunk_refs (ft ix)) (pq ix) ->
  queue_live (chunk_refs (ft ix)) (pq (settle_short cs ix)).
Proof.
  intros Hq c. cbn [settle_short on_pq pq set_short short_since].
  rewrite (foldl_delete_lookup (fun c => c)). case_bool_decide; [by intros []|apply Hq].
Qed.

Lemma set_measured_live m ix :
  queue_live (chunk_refs (ft ix)) (pq ix) ->
  queue_live (chunk_refs (ft ix)) (pq (set_placement_measured m ix)).
Proof.
  intros Hq. unfold set_placement_measured. destruct (_ && _); [done|].
  intros c. simpl. destruct m; [apply Hq|]. rewrite lookup_empty. by intros [].
Qed.

Lemma local_bytes_frame ix :
  files (ft (local_bytes ix).2) = files (ft ix) /\ lt (local_bytes ix).2 = lt ix
  /\ led (local_bytes ix).2 = led ix.
Proof. unfold local_bytes. by destruct (byte_total (ft ix)). Qed.

Lemma remove_file_files now path t ix :
  files (ft (remove_file now path t ix).2) = delete path (files (ft ix)).
Proof. unfold remove_file. by rewrite drop_entry_files. Qed.

Lemma drop_entry_frame now path ix :
  lt (drop_entry now path ix).2 = lt ix /\ led (drop_entry now path ix).2 = led ix.
Proof. unfold drop_entry. by destruct (files (ft ix) !! path). Qed.

Lemma census_next_frame limit random ix :
  let ix' := (census_next limit random ix).2 in
  ft ix' = ft ix /\ lt ix' = lt ix /\ led ix' = led ix
  /\ short_since (pq ix') = short_since (pq ix).
Proof.
  unfold census_next. destruct (live_chunks_page _ _ _) as [first next]. cbn zeta.
  destruct (last _); done.
Qed.

Lemma drop_entry_rings now path ix : rg (drop_entry now path ix).2 = rg ix.
Proof. unfold drop_entry. by destruct (files (ft ix) !! path). Qed.

Lemma forget_one_rings d now ix c : rg (forget_one audit_key d now ix c) = rg ix.
Proof. unfold forget_one. by destruct (holders (led ix) !! (c, d)). Qed.

Lemma step_files op ix :
  files_invariant ix -> index_fits ix -> op_allowed op ix -> index_fits (index_step op ix) ->
  files_invariant (index_step op ix).
Proof.
  intros Hi [Hf _] Ha [Hf' _]. destruct op; cbn [index_step op_allowed] in *;
    try exact Hi; try (apply (files_invariant_ext ix); done).
  - by apply put_file_invariant.
  - by apply drop_entry_invariant.
  - by apply remove_file_invariant.
  - by apply forget_tombstone_files.
  - by apply local_bytes_exact.
  - destruct (settle_losses_ft present missing now ix) as (E1 & E2 & E3 & E4 & E5 & E6 & _).
    apply (files_invariant_ext ix); try done. by rewrite E6.
  - destruct (clear_loss_ft chunk ix) as (E1 & E2 & E3 & E4 & E5 & E6 & _).
    apply (files_invariant_ext ix); try done. by rewrite E6.
  - by apply release_chunk_files.
  - by apply forget_chunk_files.
  - unfold append_segment. destruct (decide _); [|done]. by apply (files_invariant_ext ix).
  - destruct (forget_holders_frame chunks device now ix) as (E & _ & Hq).
    apply (files_invariant_ext ix); rewrite ?E; try done. intros Hl. by eapply queue_grows_live.
  - destruct (forget_one_frame device now ix chunk) as (E & _ & Hq).
    apply (files_invariant_ext ix); unfold forget_holder; rewrite ?E; try done.
    intros Hl. by eapply queue_grows_live.
  - queue_only ix Hi. apply enqueue_all_grows.
  - unfold note_draining. destruct (_ || _); [done|]. queue_only ix Hi. apply enqueue_device_grows.
  - unfold note_audit. cbn [snd]. destruct (_ && _); [|by apply (files_invariant_ext ix)].
    queue_only ix Hi. apply enqueue_device_grows.
  - queue_only ix Hi. apply enqueue_all_grows.
  - apply (files_invariant_ext ix); try done. apply settle_short_live.
  - apply (files_invariant_ext ix);
      try (unfold set_placement_measured; destruct (_ && _); done); [apply set_measured_live|done].
  - destruct (census_next_frame limit random ix) as (E & _ & _ & Es).
    apply (files_invariant_ext ix); rewrite ?E; try done.
    intros Hl c. rewrite Es. apply Hl.
  - destruct (note_seen_frame device now ix) as (E & _ & Eq & _).
    apply (files_invariant_ext ix); rewrite ?E, ?Eq; done.
  - destruct (note_if_known_frame device now seen ix) as (E & _ & Eq & _).
    apply (files_invariant_ext ix); rewrite ?E, ?Eq; done.
  - destruct (note_network_frame device network now ix) as (E & _ & Eq & _).
    apply (files_invariant_ext ix); rewrite ?E, ?Eq; done.
Qed.

Lemma step_log op ix :
  log_invariant ix -> op_allowed op ix -> log_invariant (index_step op ix).
Proof.
  intros Hi Ha. destruct op; cbn [index_step op_allowed] in *;
    try exact Hi; try (apply (log_invariant_ext ix); done).
  - apply (log_invariant_ext ix); [apply drop_entry_frame|done].
  - apply (log_invariant_ext ix); [|done]. unfold remove_file.
    by destruct (drop_entry_frame now path (on_ft (fun t =>
      set_tombstones (<[path := tombstone]> (tombstones t)) t) ix)) as [-> _].
  - apply (log_invariant_ext ix); [apply local_bytes_frame|done].
  - apply (log_invariant_ext ix); [apply settle_losses_ft|done].
  - apply (log_invariant_ext ix); [apply clear_loss_ft|done].
  - apply (log_invariant_ext ix); [apply (clear_loss_ft chunk)|done].
  - apply (log_invariant_ext ix); [apply (clear_loss_ft chunk)|done].
  - destruct Ha. by apply push_pending_invariant.
  - by apply append_segment_invariant.
  - destruct Hi as [H1 H2 H3 H4 H5 H6 H7]. split; assumption.
  - apply (log_invariant_ext ix); [apply forget_holders_frame|done].
  - apply (log_invariant_ext ix); [apply forget_one_frame|done].
  - apply (log_invariant_ext ix); [|done]. unfold note_draining. by destruct (_ || _).
  - apply (log_invariant_ext ix); [|done]. unfold note_audit. simpl. by destruct (_ && _).
  - apply (log_invariant_ext ix); [|done]. unfold set_placement_measured. by destruct (_ && _).
  - apply (log_invariant_ext ix); [apply census_next_frame|done].
  - apply (log_invariant_ext ix); [apply note_seen_frame|done].
  - apply (log_invariant_ext ix); [apply note_if_known_frame|done].
  - apply (log_invariant_ext ix); [apply note_network_frame|done].
Qed.

Lemma step_ledger op ix :
  ledger_invariant audit_key (led ix) -> index_fits (index_step op ix) ->
  ledger_invariant audit_key (led (index_step op ix)).
Proof.
  intros Hi [_ Hf]. destruct op; cbn [index_step] in *;
    try exact Hi; try (apply (ledger_invariant_ext _ (led ix)); done).
  - unfold release_file. by destruct (drop_entry_frame now path ix) as [_ ->].
  - unfold remove_file.
    by destruct (drop_entry_frame now path (on_ft (fun t =>
      set_tombstones (<[path := tombstone]> (tombstones t)) t) ix)) as [_ ->].
  - by destruct (local_bytes_frame ix) as (_ & _ & ->).
  - by destruct (settle_losses_ft present missing now ix) as (_ & _ & _ & _ & _ & _ & _ & ->).
  - by rewrite clear_loss_led.
  - apply (ledger_invariant_ext _ (led ix)); unfold release_chunk; simpl; by rewrite ?clear_loss_led.
  - by apply forget_chunk_invariant.
  - unfold append_segment. by destruct (decide _).
  - by apply record_holders_invariant.
  - by apply record_stored_invariant.
  - by apply forget_holders_invariant.
  - by apply forget_one_invariant.
  - by apply forget_device_invariant.
  - destruct (note_draining_tables device until now ix) as (E1 & E2 & E3).
    by apply (ledger_invariant_ext _ (led ix)).
  - destruct (note_audit_tables device ok now ix) as (E1 & E2 & E3).
    by apply (ledger_invariant_ext _ (led ix)).
  - apply (ledger_invariant_ext _ (led ix)); try done;
      unfold admit_member; simpl; case_decide; done.
  - unfold set_placement_measured. by destruct (_ && _).
  - by destruct (census_next_frame limit random ix) as (_ & _ & -> & _).
  - destruct (note_seen_frame device now ix) as (_ & _ & _ & E1 & E2 & E3).
    by apply (ledger_invariant_ext _ (led ix)).
  - by destruct (note_if_known_frame device now seen ix) as (_ & _ & _ & ->).
  - by destruct (note_network_frame device network now ix) as (_ & _ & _ & -> & _).
Qed.

(** Only sessions touch the rings; forgetting a device drops its network row. *)
Lemma step_rings op ix : rings_ok (rg ix) -> rings_ok (rg (index_step op ix)).
Proof.
  intros Hi. destruct op; cbn [index_step]; try exact Hi.
  - unfold release_file. by rewrite drop_entry_rings.
  - unfold remove_file. by rewrite drop_entry_rings.
  - unfold local_bytes. by destruct (byte_total (ft ix)).
  - unfold settle_losses. cbn zeta. by destruct (_ && _).
  - unfold clear_loss. by destruct (losses (ft ix) !! chunk).
  - unfold release_chunk, clear_loss. simpl. by destruct (losses (ft ix) !! chunk).
  - unfold forget_chunk, clear_loss. simpl. by destruct (losses (ft ix) !! chunk).
  - unfold append_segment. by destruct (decide _).
  - unfold forget_holders. revert ix Hi. induction chunks as [|c cs IH]; intros ix Hi; simpl; [done|].
    apply IH. by rewrite forget_one_rings.
  - unfold forget_holder. by rewrite forget_one_rings.
  - unfold note_draining. by destruct (_ || _).
  - unfold note_audit. cbn [snd]. by destruct (_ && _).
  - unfold set_placement_measured. by destruct (_ && _).
  - unfold census_next. destruct (live_chunks_page _ _ _) as [first next]. cbn zeta. by destruct (last _).
  - rewrite note_seen_rings by done. by apply reference_note_ok.
  - rewrite note_if_known_eq by done. destruct (known _ _); [|done]. by apply reference_note_ok.
  - destruct (note_network_frame device network now ix) as (_ & _ & _ & _ & E1 & E2).
    by apply (rings_ok_ext (rg ix)).
Qed.

Lemma empty_fits : index_fits empty_index.
Proof. split; [split|]; vm_compute; intros; congruence. Qed.

Lemma reachable_invariant ix : index_reachable ix -> index_invariant ix /\ index_fits ix.
Proof.
  induction 1 as [|op ix Hr [[H1 H2 H3 H4] Hf] Ha Hf'].
  - split; [|apply empty_fits].
    split; [apply empty_invariant|apply empty_log_invariant|apply empty_ledger_invariant|apply empty_rings_ok].
  - split; [|done].
    split; [by apply step_files|by apply step_log|by apply step_ledger|by apply step_rings].
Qed.

End index.

(** ** Theorems *)

Lemma occ_le_length c l : occ c l <= N.of_nat (length l).
Proof. unfold occ. pose proof (length_filter (fun d => d = c) l). lia. Qed.

(** A bound on every reference count that does not mention the chunk. *)
Lemma slots_bound c m : slots c m <= map_sum (fun e => N.of_nat (length (fe_chunks e))) m.
Proof.
  unfold slots. induction m as [|k v m Hk IH] using map_ind; [by rewrite !map_sum_empty|].
  rewrite !map_sum_insert_new by done. pose proof (occ_le_length c (fe_chunks v)). lia.
Qed.

Lemma fits_bound m :
  map_sum (fun e => N.of_nat (length (fe_chunks e))) m <= u64_max -> total_size m <= u64_max ->
  fits m.
Proof. intros H1 H2. split; [|done]. intros c. etransitivity; [apply slots_bound|done]. Qed.

(** C33. In every reachable index the file tables are in step: a chunk's
    reference count is exactly the number of slots of the file table that name
    it, the chunks offered to garbage collection are exactly those whose count
    row is zero (so none that a file still uses), no path is both a file and a
    tombstone, the byte total a budget is checked against is the sum of the
    sizes, and nothing outside the live set waits in placement's queue. *)
Theorem reachable_files_in_step `{!Primitives} (audit_key : list N) (ix : Index) :
  index_reachable audit_key ix ->
  (forall c, reference_count c ix = slots c (files (ft ix)))
  /\ (forall c, is_Some (unreferenced (ft ix) !! c) <-> chunk_refs (ft ix) !! c = Some 0)
  /\ (forall p, get_file p ix = None \/ get_tombstone p ix = None)
  /\ (local_bytes ix).1 = total_size (files (ft ix))
  /\ (forall c, is_Some (short_since (pq ix) !! c) -> is_Some (chunk_refs (ft ix) !! c)).
Proof.
  intros Hr. destruct (reachable_invariant audit_key ix Hr) as [[Hi _ _ _] [Hf _]].
  split_and!; [apply (refs_exact _ Hi)|apply (unref_zero _ Hi)|apply (live_or_deleted _ Hi)
              |by apply local_bytes_exact|apply (queued_live _ Hi)].
Qed.

(** C34. In every reachable index the two orders of the holder ledger hold the
    same records with the same stamps, and each device's count is the number
    of records that name it. *)
Theorem reachable_ledger_agrees `{!Primitives} (audit_key : list N) (ix : Index) :
  index_reachable audit_key ix ->
  (forall c d w, holders (led ix) !! (c, d) = Some w
                 <-> holdings (led ix) !! holding_key audit_key d c = Some w)
  /\ (forall d t c w, holdings (led ix) !! (d, (t, c)) = Some w -> t = audit_tag audit_key c)
  /\ (forall d, held_by_device d (led ix) = records_of d (holders (led ix))).
Proof.
  intros Hr. destruct (reachable_invariant audit_key ix Hr) as [[_ _ [Ha Hc _] _] _].
  split_and!; [| |apply Hc].
  - intros c d w. unfold holding_key. by rewrite Ha, decide_True.
  - intros d t c w Hw. rewrite Ha in Hw. by destruct (decide _).
Qed.

(** In every reachable index the device's own chain has no holes and
    starts at sequence one, and the entries waiting to be sealed are exactly
    the sequences from the first unsealed one up to the next to be handed out:
    no sequence is lost, repeated or reused. *)
Theorem reachable_log_has_no_holes `{!Primitives} (audit_key : list N) (ix : Index) :
  index_reachable audit_key ix ->
  gap_free (segments_list ix)
  /\ (forall s, head (segments_list ix) = Some s -> previous s = None /\ first_sequence s = 1)
  /\ (forall s, is_Some (pending (lt ix) !! s) <-> first_unsealed (lt ix) <= s < next_sequence ix)
  /\ (forall s e, pending (lt ix) !! s = Some e -> le_sequence e = s).
Proof.
  intros Hr. destruct (reachable_invariant audit_key ix Hr) as [[_ Hi _ _] _].
  split_and!; [by apply segments_gap_free| |apply (waiting_range _ Hi)|apply (waiting_numbered _ Hi)].
  intros s Hs. apply (chain_start _ Hi).
  rewrite head_lookup in Hs. exact (eq_trans (eq_sym (segments_list_lookup ix 0 Hi)) Hs).
Qed.

(** [put_file] answers with exactly the chunks that lost their last
    reference, each once: the chunks some file used before and no file uses
    after the write. *)
Theorem put_file_reports_dropped (now : N) (path : string) (entry : FileEntry) (ix : Index)
  (c : ChunkId) :
  files_invariant ix -> fits (<[path := entry]> (files (ft ix))) ->
  NoDup (put_file now path entry ix).1
  /\ (c ∈ (put_file now path entry ix).1
      <-> 0 < slots c (files (ft ix)) /\ slots c (files (ft (put_file now path entry ix).2)) = 0).
Proof.
  intros Hi [Hf _]. split; [apply dropped_NoDup|].
  cbn [put_file fst snd ft files].
  rewrite (dropped_iff now _ _ ix c (slots c (<[path := entry]> (files (ft ix))))).
  - unfold reference_count. by rewrite (refs_exact _ Hi).
  - unfold reference_count. rewrite (refs_exact _ Hi). apply slots_insert.
  - apply Hf.
Qed.

(** *** Witnesses

    A run that writes a file of two chunks, announces it, records where its
    chunks went, and overwrites it. *)

Definition sample_entry (chunks : list ChunkId) : FileEntry :=
  mkFile 100 1 2 chunks (<[9 := 1]> ∅) 9.

Definition sample_run : list IndexOp :=
  [OpPutFile 5 "a.txt" (sample_entry [1; 2; 2]);
   OpPushPending (mkLog 1 5 (Upsert "a.txt" (sample_entry [1; 2; 2])));
   OpRecordHolders [1; 2] 7 6;
   OpPutFile 8 "a.txt" (sample_entry [2; 3])].

Definition run_index `{!Primitives} (audit_key : list N) (ops : list IndexOp) : Index :=
  foldl (fun ix op => index_step audit_key op ix) empty_index ops.

Import Toy.

Lemma sample_reachable : index_reachable [] (run_index [] sample_run).
Proof.
  assert (Hone : forall op ix, index_reachable [] ix -> op_allowed op ix ->
    map_sum (fun e => N.of_nat (length (fe_chunks e))) (files (ft (index_step [] op ix))) <= u64_max ->
    total_size (files (ft (index_step [] op ix))) <= u64_max ->
    N.of_nat (size (holders (led (index_step [] op ix)))) <= u64_max ->
    index_reachable [] (index_step [] op ix)).
  { intros. apply reach_step; [done|done|]. split; [by apply fits_bound|done]. }
  unfold run_index, sample_run. cbn [foldl].
  repeat (apply Hone; [|first [exact I | vm_compute; split; reflexivity]
                       |vm_compute; congruence|vm_compute; congruence|vm_compute; congruence]).
  apply reach_empty.
Qed.

Lemma reachable_files_in_step_witness :
  reference_count 2 (run_index [] sample_run) = 1
  /\ reference_count 2 (run_index [] sample_run)
     = slots 2 (files (ft (run_index [] sample_run))).
Proof.
  split; [vm_compute; reflexivity|].
  apply (reachable_files_in_step [] (run_index [] sample_run) sample_reachable).
Defined.

Lemma reachable_ledger_agrees_witness :
  held_by_device 7 (led (run_index [] sample_run)) = 2
  /\ held_by_device 7 (led (run_index [] sample_run))
     = records_of 7 (holders (led (run_index [] sample_run))).
Proof.
  split; [vm_compute; reflexivity|].
  apply (reachable_ledger_agrees [] (run_index [] sample_run) sample_reachable).
Defined.

Lemma reachable_log_has_no_holes_witness :
  next_sequence (run_index [] sample_run) = 2
  /\ is_Some (pending (lt (run_index [] sample_run)) !! 1).
Proof.
  split; [vm_compute; reflexivity|].
  apply (reachable_log_has_no_holes [] (run_index [] sample_run) sample_reachable).
  vm_compute. split; congruence.
Defined.

Lemma put_file_reports_dropped_witness :
  let ix := run_index [] sample_run in
  (put_file 9 "a.txt" (sample_entry [3; 4]) ix).1 = [2]
  /\ 2 ∈ (put_file 9 "a.txt" (sample_entry [3; 4]) ix).1.
Proof.
  cbn zeta. split; [vm_compute; reflexivity|].
  apply (put_file_reports_dropped 9 "a.txt" (sample_entry [3; 4]) (run_index [] sample_run) 2).
  - apply (inv_files _ _ (proj1 (reachable_invariant [] _ sample_reachable))).
  - apply fits_bound; vm_compute; congruence.
  - vm_compute. split; reflexivity.
Defined.
