(* ===== verification/Folder.v ===== *)
(** * Folder: a directory kept in step with a store

    Models [crates/itsanas-folder/src/decision.rs], [scan.rs] and [lib.rs].  The
    folder is written against the class [FileStore], which states what it asks
    of a store; [StoreFolder] discharges it with the store of [Store].  The
    disk is the map of the regular files below the root, by relative path, with
    the marker file and the paths the operating system refuses to open or to
    write; directories, symbolic links and staging files are not modelled.
    What the operating system draws while a path is handled (the clock, the
    modification time it stamps) are functions of the path. *)

From S2P Require Import Prelude Version Ids Path Conflict Crypto Oplog IndexState.

(** ** decision.rs *)

Inductive Decision :=
| Nothing
| RecordOnly
| Import
| RemoveFromStore
| Export
| DeleteFromDisk
| KeepBoth.

Definition decide_path (on_disk in_store ledger : option N) : Decision :=
  let local_changed := bool_decide (on_disk <> ledger) in
  let remote_changed := bool_decide (in_store <> ledger) in
  match local_changed, remote_changed with
  | false, false => Nothing
  | true, false => match on_disk with Some _ => Import | None => RemoveFromStore end
  | false, true => match in_store with Some _ => Export | None => DeleteFromDisk end
  | true, true =>
      if decide (on_disk = in_store) then RecordOnly
      else match on_disk, in_store with
           | None, Some _ => Export
           | Some _, None => Import
           | _, _ => KeepBoth
           end
  end.

(** ** scan.rs *)

Definition STAGING_DIR : string := ".itsanas-tmp".
Definition MARKER : string := ".itsanas-folder".
Definition IGNORED_NAMES : list string := [".DS_Store"; "Thumbs.db"; "desktop.ini"; "ehthumbs.db"]%string.
Definition IGNORED_PREFIXES : list string := ["~$"; ".~lock."]%string.
Definition IGNORED_SUFFIXES : list string := [".tmp"; ".crdownload"; ".part"]%string.

Definition ends_with (suffix l : list ascii) : bool :=
  (length suffix <=? length l)%nat && bool_decide (drop (length l - length suffix) l = suffix).

Definition is_ignored (name : list ascii) : bool :=
  bool_decide (name = chars MARKER)
  || existsb (fun i => bool_decide (name = chars i)) IGNORED_NAMES
  || existsb (fun i => starts_with (chars i) name) IGNORED_PREFIXES
  || existsb (fun i => ends_with (chars i) name) IGNORED_SUFFIXES.

(** A path below the root, as its components joined by separators. *)
Definition to_logical (relative : string) : option string :=
  let parts := split_on slash (chars relative) in
  if existsb (fun part => bool_decide (part = chars STAGING_DIR) || is_ignored part) parts then None
  else match validate relative with Ok _ => Some relative | Err _ => None end.

Record DiskFile := mkDiskFile {
  df_size : N;
  df_modified_unix : N;
}.

(** The folder's directory. *)
Record Disk := mkDisk {
  d_present : bool;
  d_files : gmap string (list N * N);
  d_marker : option string;
  d_unreadable : gset string;
  d_refuses : gset string;
}.

Definition set_files (m : gmap string (list N * N)) (d : Disk) : Disk :=
  mkDisk (d_present d) m (d_marker d) (d_unreadable d) (d_refuses d).

Inductive FolderError :=
| FolderIo (path : string)
| FolderStore (e : StoreError)
| Escapes (path : string)
| NoFolderThere
| StorageUnreachable (why : string).

Definition scan (d : Disk) : result FolderError (gmap string DiskFile) :=
  if d_present d then
    Ok ((fun f : list N * N => mkDiskFile (N.of_nat (length f.1)) f.2)
          <$> filter (fun kv => is_Some (to_logical kv.1)) (d_files d))
  else Err NoFolderThere.

(** [validate] leaves no component that could climb out of the root, so the
    two checks made on the joined path after it never refuse. *)
Definition to_filesystem (logical : string) : result FolderError string :=
  match validate logical with Ok _ => Ok logical | Err _ => Err (Escapes logical) end.

(** ** What the folder asks of a store *)

Class FileStore (S : Type) := {
  fs_device : S -> DeviceId;
  fs_files : S -> gmap string FileEntry;
  fs_locals : S -> gmap string LocalState;
  fs_check_room : string -> N -> M S StoreError unit;
  fs_write : N -> string -> list N -> M S StoreError FileEntry;
  fs_read : string -> S -> result StoreError bool * list N;
  fs_remove : N -> string -> M S StoreError bool;
  fs_set_local : string -> LocalState -> S -> S;
  fs_clear_local : string -> S -> S;
  fs_flush : M S StoreError unit;
}.

(** ** lib.rs *)

Record ReconcileReport := mkReport {
  imported : list string;
  exported : list string;
  removed_from_store : list string;
  deleted_from_disk : list string;
  kept_both : list (string * string);
  recorded : N;
  failed : list (string * FolderError);
  held_deletions : N;
  renamed_here : list (string * string);
  renamed_elsewhere : list (string * string);
}.

Definition empty_report : ReconcileReport := mkReport [] [] [] [] [] 0 [] 0 [] [].

(** Pushing onto one list of a report. *)
Definition add_imported p (r : ReconcileReport) : ReconcileReport :=
  mkReport (imported r ++ [p]) (exported r) (removed_from_store r) (deleted_from_disk r) (kept_both r)
    (recorded r) (failed r) (held_deletions r) (renamed_here r) (renamed_elsewhere r).
Definition add_exported p (r : ReconcileReport) : ReconcileReport :=
  mkReport (imported r) (exported r ++ [p]) (removed_from_store r) (deleted_from_disk r) (kept_both r)
    (recorded r) (failed r) (held_deletions r) (renamed_here r) (renamed_elsewhere r).
Definition add_removed p (r : ReconcileReport) : ReconcileReport :=
  mkReport (imported r) (exported r) (removed_from_store r ++ [p]) (deleted_from_disk r) (kept_both r)
    (recorded r) (failed r) (held_deletions r) (renamed_here r) (renamed_elsewhere r).
Definition add_deleted p (r : ReconcileReport) : ReconcileReport :=
  mkReport (imported r) (exported r) (removed_from_store r) (deleted_from_disk r ++ [p]) (kept_both r)
    (recorded r) (failed r) (held_deletions r) (renamed_here r) (renamed_elsewhere r).
Definition add_kept p (r : ReconcileReport) : ReconcileReport :=
  mkReport (imported r) (exported r) (removed_from_store r) (deleted_from_disk r) (kept_both r ++ [p])
    (recorded r) (failed r) (held_deletions r) (renamed_here r) (renamed_elsewhere r).
Definition add_recorded (r : ReconcileReport) : ReconcileReport :=
  mkReport (imported r) (exported r) (removed_from_store r) (deleted_from_disk r) (kept_both r)
    (recorded r + 1) (failed r) (held_deletions r) (renamed_here r) (renamed_elsewhere r).
Definition add_failed p (r : ReconcileReport) : ReconcileReport :=
  mkReport (imported r) (exported r) (removed_from_store r) (deleted_from_disk r) (kept_both r)
    (recorded r) (failed r ++ [p]) (held_deletions r) (renamed_here r) (renamed_elsewhere r).
Definition set_held n (r : ReconcileReport) : ReconcileReport :=
  mkReport (imported r) (exported r) (removed_from_store r) (deleted_from_disk r) (kept_both r)
    (recorded r) (failed r) n (renamed_here r) (renamed_elsewhere r).
Definition set_renames h e (r : ReconcileReport) : ReconcileReport :=
  mkReport (imported r) (exported r) (removed_from_store r) (deleted_from_disk r) (kept_both r)
    (recorded r) (failed r) (held_deletions r) h e.

Definition changed_anything (r : ReconcileReport) : bool :=
  negb (bool_decide (imported r = [])) || negb (bool_decide (exported r = []))
  || negb (bool_decide (removed_from_store r = [])) || negb (bool_decide (deleted_from_disk r = []))
  || negb (bool_decide (kept_both r = [])).

Definition held_anything (r : ReconcileReport) : bool := 0 <? held_deletions r.

Definition DELETIONS_ALWAYS_ALLOWED : N := 5.

Inductive Deletions := Apply | ApplyWhateverTheCount.

Inductive Marker := Ours | Foreign (named : string) | Missing.

Definition read_marker (d : Disk) (device : DeviceId) : Marker :=
  match d_marker d with
  | Some text => let named := trimmed text in if decide (named = to_hex device) then Ours else Foreign named
  | None => Missing
  end.

(** Best effort. *)
Definition write_marker (d : Disk) (device : DeviceId) : Disk :=
  if decide (MARKER ∈ d_refuses d) then d
  else mkDisk (d_present d) (d_files d) (Some (to_hex device)) (d_unreadable d) (d_refuses d).

(** The content each touched path had. *)
Record Contents := mkContents {
  gone_here : list (string * N);
  came_here : list (string * N);
  gone_elsewhere : list (string * N);
  came_elsewhere : list (string * N);
}.

Definition empty_contents : Contents := mkContents [] [] [] [].

Definition could_pair (c : Contents) : bool :=
  (negb (bool_decide (gone_here c = [])) && negb (bool_decide (came_here c = [])))
  || (negb (bool_decide (gone_elsewhere c = [])) && negb (bool_decide (came_elsewhere c = []))).

(** [map.entry(hash).or_default().push(path)] over a list. *)
Definition by_content (l : list (string * N)) : gmap N (list string) :=
  foldl (fun m (p : string * N) => <[p.2 := default [] (m !! p.2) ++ [p.1]]> m) ∅ l.

Definition pair_le (a b : string * string) : bool := bool_decide (key_le (KeyOrd := KeyOrd_prod) a b).

Section pairing.
Context `{!Primitives}.

Definition hash_of (content : list N) : N := of_be_bytes (blake3_hash content).

Definition is_empty_content (hash : N) : bool := hash =? hash_of [].

Definition pair_renames (gone came : list (string * N)) (live : gmap N N) : list (string * string) :=
  let came_by_content := by_content came in
  sort_by pair_le
    (omap (fun p : N * list string =>
             let '(hash, from) := p in
             if is_empty_content hash || (1 <? default 0 (live !! hash)) then None
             else match from, came_by_content !! hash with
                  | [from], Some [to] => Some (from, to)
                  | _, _ => None
                  end)
       (btree_iter (by_content gone))).

(** How many live paths carry each content. *)
Definition live_paths (entries : list (string * FileEntry)) : gmap N N :=
  foldl (fun m (p : string * FileEntry) =>
           <[content_hash p.2 := default 0 (m !! content_hash p.2) + 1]> m) ∅ entries.

End pairing.

(** A folder and the store it mirrors. *)
Record Pass (S : Type) := mkPass { store : S; disk : Disk }.
Arguments mkPass {S}.
Arguments store {S}.
Arguments disk {S}.

Section folder.
Context {S : Type} `{!FileStore S} `{!Primitives}.
Context (clock mtime : string -> N).

Abbreviation FM := (M (Pass S) FolderError).

Definition on_store {A} (m : M S StoreError A) : FM A :=
  fun f => let '(r, s) := m (store f) in
           (match r with Ok a => Ok a | Err e => Err (FolderStore e) end, mkPass s (disk f)).
Definition on_disk (g : Disk -> Disk) : FM unit := modify (fun f => mkPass (store f) (g (disk f))).

(** [store.stat(path).ok().flatten()] *)
Definition stat_ok (path : string) (s : S) : option FileEntry :=
  match validate path with Ok _ => fs_files s !! path | Err _ => None end.

(** Opening and reading a file to its end. *)
Definition read_disk (path : string) : FM (list N * N) :=
  fun f => match d_files (disk f) !! path with
           | Some x => if decide (path ∈ d_unreadable (disk f)) then (Err (FolderIo path), f) else (Ok x, f)
           | None => (Err (FolderIo path), f)
           end.

(** Renaming a staged file into place. *)
Definition write_disk (path : string) (content : list N) : FM unit :=
  fun f => if decide (path ∈ d_refuses (disk f)) then (Err (FolderIo path), f)
           else (Ok tt, mkPass (store f)
                          (set_files (<[path := (content, mtime path)]> (d_files (disk f))) (disk f))).

Definition probably_matches (l : LocalState) (size modified : N) : bool :=
  (ls_size l =? size) && (ls_modified_unix l =? modified).

(** Only a regular file is one of [d_files]: a directory or a link at the path reads
    as nothing, as an absent file does. *)
Definition hash_on_disk (path : string) (ledger : option LocalState) (deep : bool) : FM (option N) :=
  present <-! gets (fun f => d_files (disk f) !! path);
  match present with
  | None => ret None
  | Some (content, modified) =>
      match (if deep then None else ledger) with
      | Some l => if probably_matches l (N.of_nat (length content)) modified
                  then ret (Some (ls_content_hash l))
                  else x <-! read_disk path; ret (Some (hash_of x.1))
      | None => x <-! read_disk path; ret (Some (hash_of x.1))
      end
  end.

Definition record (path : string) (hash : N) : FM unit :=
  present <-! gets (fun f => d_files (disk f) !! path);
  match present with
  | None => throw (FolderIo path)
  | Some (content, modified) =>
      modify (fun f => mkPass (fs_set_local path (mkLocal (N.of_nat (length content)) modified hash) (store f))
                         (disk f))
  end.

Definition import (path : string) : FM unit :=
  x <-! read_disk path;
  on_store (fs_check_room path (N.of_nat (length x.1))) ;;!
  entry <-! on_store (fs_write (clock path) path x.1);
  record path (content_hash entry).

(** The staging file is dropped when the store fails or has nothing. *)
Definition export (path : string) : FM unit :=
  read <-! gets (fun f => fs_read path (store f));
  match read with
  | (Err e, _) => throw (FolderStore e)
  | (Ok false, _) => ret tt
  | (Ok true, content) =>
      write_disk path content ;;!
      entry <-! gets (fun f => stat_ok path (store f));
      match entry with
      | None => throw (FolderIo path)
      | Some entry => record path (content_hash entry)
      end
  end.

Definition delete_from_disk (path : string) : FM unit :=
  fun f => match d_files (disk f) !! path with
           | None => (Ok tt, f)
           | Some _ =>
               if decide (path ∈ d_refuses (disk f)) then (Err (FolderIo path), f)
               else (Ok tt, mkPass (store f) (set_files (delete path (d_files (disk f))) (disk f)))
           end.

Definition local_sibling (path : string) (hash : N) : string :=
  with_marker path ("local-" ++ short hash)%string.

Definition copy_aside (from to : string) : FM unit :=
  x <-! read_disk from; write_disk to x.1.

Definition keep_both (path : string) (disk_hash : option N) : FM string :=
  match disk_hash with
  | None => throw (FolderIo path)
  | Some hash =>
      let sibling := local_sibling path hash in
      _ <-! lift (to_filesystem sibling);
      copy_aside path sibling ;;!
      import sibling ;;!
      export path ;;!
      ret sibling
  end.

Definition clear_local (path : string) : FM unit :=
  modify (fun f => mkPass (fs_clear_local path (store f)) (disk f)).

(** What a pass accumulates. *)
Definition Progress : Type := ReconcileReport * Contents.

(** [if let Some(hash) = hash { list.push((path, hash)) }] *)
Definition note (path : string) (hash : option N) (l : list (string * N)) : list (string * N) :=
  match hash with Some h => l ++ [(path, h)] | None => l end.

Definition reconcile_one (path : string) (deep hold_deletions : bool) (progress : Progress) : FM Progress :=
  let '(report, c) := progress in
  ledger <-! gets (fun f => fs_locals (store f) !! path);
  entry <-! gets (fun f => stat_ok path (store f));
  _ <-! lift (to_filesystem path);
  disk_hash <-! hash_on_disk path ledger deep;
  let store_hash := content_hash <$> entry in
  let ledger_hash := ls_content_hash <$> ledger in
  match decide_path disk_hash store_hash ledger_hash with
  | Nothing => ret progress
  | RecordOnly =>
      match disk_hash with Some hash => record path hash | None => clear_local path end ;;!
      ret (add_recorded report, c)
  | Import =>
      import path ;;!
      ret (add_imported path report,
           mkContents (gone_here c) (note path disk_hash (came_here c)) (gone_elsewhere c) (came_elsewhere c))
  | RemoveFromStore =>
      if hold_deletions then ret progress
      else
        on_store (fs_remove (clock path) path) ;;!
        clear_local path ;;!
        ret (add_removed path report,
             mkContents (note path ledger_hash (gone_here c)) (came_here c) (gone_elsewhere c) (came_elsewhere c))
  | Export =>
      export path ;;!
      ret (add_exported path report,
           mkContents (gone_here c) (came_here c) (gone_elsewhere c) (note path store_hash (came_elsewhere c)))
  | DeleteFromDisk =>
      delete_from_disk path ;;!
      clear_local path ;;!
      ret (add_deleted path report,
           mkContents (gone_here c) (came_here c) (note path ledger_hash (gone_elsewhere c)) (came_elsewhere c))
  | KeepBoth =>
      sibling <-! keep_both path disk_hash;
      ret (add_kept (path, sibling) report, c)
  end.

Definition check_storage (on_disk_now : gmap string DiskFile) : FM unit :=
  fun f =>
    let device := fs_device (store f) in
    match read_marker (disk f) device with
    | Ours => (Ok tt, f)
    | Foreign named => (Err (StorageUnreachable "its marker names another device"), f)
    | Missing =>
        let known := btree_keys (fs_locals (store f)) in
        if bool_decide (known = []) || existsb (fun p => bool_decide (is_Some (on_disk_now !! p))) known
        then (Ok tt, mkPass (store f) (write_marker (disk f) device))
        else (Err (StorageUnreachable "none of the files this machine holds is in it"), f)
    end.

Definition deletions_are_too_many (on_disk_now : gmap string DiskFile) (s : S) : option N :=
  let held := N.of_nat (size (fs_locals s)) in
  let vanished := N.of_nat (length (filter (fun p => on_disk_now !! p = None) (btree_keys (fs_locals s)))) in
  if (DELETIONS_ALWAYS_ALLOWED <? vanished) && (held <? vanished * 2) then Some vanished else None.

(** The loop: one bad file does not stop the rest. *)
Fixpoint reconcile_paths (paths : list string) (deep hold_deletions : bool) (progress : Progress) (f : Pass S)
  : Progress * Pass S :=
  match paths with
  | [] => (progress, f)
  | path :: paths =>
      match reconcile_one path deep hold_deletions progress f with
      | (Ok progress, f) => reconcile_paths paths deep hold_deletions progress f
      | (Err e, f) => reconcile_paths paths deep hold_deletions (add_failed (path, e) progress.1, progress.2) f
      end
  end.

Definition all_paths (on_disk_now : gmap string DiskFile) (s : S) : list string :=
  merge_sort key_le (elements (dom on_disk_now ∪ dom (fs_files s) ∪ dom (fs_locals s))).

Definition reconcile_with (deep : bool) (deletions : Deletions) : FM ReconcileReport :=
  f <-! gets id;
  on_disk_now <-! lift (scan (disk f));
  check_storage on_disk_now ;;!
  paths <-! gets (fun f => all_paths on_disk_now (store f));
  hold <-! gets (fun f => match deletions with
                          | ApplyWhateverTheCount => None
                          | Apply => deletions_are_too_many on_disk_now (store f)
                          end);
  progress <-! (fun f => let '(p, f) := reconcile_paths paths deep (bool_decide (is_Some hold))
                           (set_held (default 0 hold) empty_report, empty_contents) f in (Ok p, f));
  let '(report, c) := progress in
  report <-! gets (fun f => if could_pair c then
                              let live := live_paths (btree_iter (fs_files (store f))) in
                              set_renames (pair_renames (gone_here c) (came_here c) live)
                                (pair_renames (gone_elsewhere c) (came_elsewhere c) live) report
                            else report);
  on_store fs_flush ;;!
  ret report.

Definition reconcile (deep : bool) : FM ReconcileReport := reconcile_with deep Apply.
Definition reconcile_confirmed (deep : bool) : FM ReconcileReport := reconcile_with deep ApplyWhateverTheCount.

End folder.
