(* ===== verification/Reconcile.v ===== *)
(** * Reconcile: what a pass over the folder guarantees

    The theorems about [Folder], proved against the laws of [FileStoreLaws]:
    what a store promises a folder.  A pass deletes from the account only what
    this device had and lost; it never overwrites or deletes an edit made here;
    a pass without failures leaves the disk, the store and the ledger in
    agreement, and the next one has nothing to do; a directory whose storage
    is gone is left alone. *)

From S2P Require Import Prelude Version Ids Path Conflict Crypto Oplog IndexState Folder.

(** ** What a store promises a folder *)

Definition same_view {S} `{!FileStore S} (s s' : S) : Prop :=
  fs_files s' = fs_files s /\ fs_locals s' = fs_locals s /\ fs_device s' = fs_device s.

Class FileStoreLaws (S : Type) `{!FileStore S, !Primitives} := {
  fs_ok : S -> Prop;
  fs_check_room_spec p n s r s' : fs_ok s -> fs_check_room p n s = (r, s') -> fs_ok s' /\ same_view s s';
  fs_write_ok now p x s e s' :
    fs_ok s -> fs_write now p x s = (Ok e, s') ->
    fs_ok s' /\ validate p = Ok tt /\ content_hash e = hash_of x
    /\ fs_files s' = <[p := e]> (fs_files s) /\ fs_locals s' = fs_locals s /\ fs_device s' = fs_device s;
  fs_write_err now p x s e s' : fs_ok s -> fs_write now p x s = (Err e, s') -> fs_ok s' /\ same_view s s';
  fs_read_true p s x :
    fs_read p s = (Ok true, x) -> exists e, fs_files s !! p = Some e /\ hash_of x = content_hash e;
  fs_read_false p s x : fs_read p s = (Ok false, x) -> fs_files s !! p = None;
  fs_remove_spec now p s r s' :
    fs_ok s -> validate p = Ok tt -> fs_remove now p s = (r, s') ->
    fs_ok s' /\ is_ok r = true /\ fs_files s' = delete p (fs_files s)
    /\ fs_locals s' = fs_locals s /\ fs_device s' = fs_device s;
  fs_set_local_spec p l s :
    fs_ok s -> fs_ok (fs_set_local p l s) /\ fs_files (fs_set_local p l s) = fs_files s
    /\ fs_locals (fs_set_local p l s) = <[p := l]> (fs_locals s)
    /\ fs_device (fs_set_local p l s) = fs_device s;
  fs_clear_local_spec p s :
    fs_ok s -> fs_ok (fs_clear_local p s) /\ fs_files (fs_clear_local p s) = fs_files s
    /\ fs_locals (fs_clear_local p s) = delete p (fs_locals s)
    /\ fs_device (fs_clear_local p s) = fs_device s;
  fs_flush_spec s r s' : fs_ok s -> fs_flush s = (r, s') -> fs_ok s' /\ same_view s s';
}.

Section laws.
Context {S : Type} `{!FileStore S, HPrim : !Primitives, !FileStoreLaws S}.
Context (clock mtime : string -> N).

Abbreviation files f := (fs_files (store f)).
Abbreviation locals f := (fs_locals (store f)).
Abbreviation on f := (d_files (disk f)).

Definition disk_hash (p : string) (f : Pass S) : option N := (fun x => hash_of x.1) <$> on f !! p.
Definition store_hash (p : string) (f : Pass S) : option N := content_hash <$> files f !! p.
Definition ledger_hash (p : string) (f : Pass S) : option N := ls_content_hash <$> locals f !! p.

(** The three views of a path agree. *)
Definition agreed (p : string) (f : Pass S) : Prop :=
  disk_hash p f = store_hash p f /\ store_hash p f = ledger_hash p f.

Definition unchanged_at (q : string) (f f' : Pass S) : Prop :=
  on f' !! q = on f !! q /\ files f' !! q = files f !! q /\ locals f' !! q = locals f !! q.

(** Everything about the folder but its files, and the device. *)
Definition same_rest (f f' : Pass S) : Prop :=
  disk f' = set_files (on f') (disk f) /\ fs_device (store f') = fs_device (store f).

Lemma same_rest_refl f : same_rest f f.
Proof. split; [|done]. by destruct (disk f). Qed.

Lemma same_rest_trans f g h : same_rest f g -> same_rest g h -> same_rest f h.
Proof. intros [H1 H2] [H3 H4]. split; [|congruence]. rewrite H3, H1. done. Qed.

Lemma unchanged_refl q f : unchanged_at q f f.
Proof. done. Qed.

#[local] Hint Resolve same_rest_refl unchanged_refl : its.

Lemma agreed_unchanged q f f' : unchanged_at q f f' -> agreed q f -> agreed q f'.
Proof. intros (H1 & H2 & H3). unfold agreed, disk_hash, store_hash, ledger_hash. by rewrite H1, H2, H3. Qed.

(** ** The operations *)

Lemma read_disk_inv p (f : Pass S) r f' :
  read_disk p f = (r, f') ->
  f' = f /\ match r with
            | Ok x => on f !! p = Some x /\ p ∉ d_unreadable (disk f)
            | Err _ => True
            end.
Proof. unfold read_disk. destruct (on f !! p); [case_decide|]; by intros [= <- <-]. Qed.

Lemma on_store_inv {A} (m : M S StoreError A) f r f' :
  on_store m f = (r, f') ->
  exists r0 s, m (store f) = (r0, s) /\ f' = mkPass s (disk f)
  /\ r = match r0 with Ok a => Ok a | Err e => Err (FolderStore e) end.
Proof. unfold on_store. destruct (m (store f)) as [r0 s]. intros [= <- <-]. eauto. Qed.

Lemma record_inv p h f r f' :
  record p h f = (r, f') ->
  match r with
  | Ok _ => exists x m, on f !! p = Some (x, m)
            /\ f' = mkPass (fs_set_local p (mkLocal (N.of_nat (length x)) m h) (store f)) (disk f)
  | Err _ => f' = f /\ on f !! p = None
  end.
Proof.
  unfold record, gets. intros H. run_inv H; [done|]. injection Hrun as <- <-.
  destruct (on f !! p) as [[x m]|]; injection H as <- <-; [|done]. eauto.
Qed.

Lemma hash_on_disk_inv p l deep (f : Pass S) r f' :
  hash_on_disk p l deep f = (r, f') ->
  f' = f /\ match r with
            | Ok None => on f !! p = None
            | Ok (Some h) => exists x m, on f !! p = Some (x, m)
                /\ (h = hash_of x \/ (deep = false /\ exists l', l = Some l' /\ h = ls_content_hash l'))
            | Err _ => True
            end.
Proof.
  unfold hash_on_disk, gets. intros H. run_inv H; [done|]. injection Hrun as <- <-.
  destruct (on f !! p) as [[x m]|] eqn:E; [|by injection H as <- <-].
  assert (Hread : forall r f', (x <-! read_disk p; ret (Some (hash_of x.1))) f = (r, f') ->
    f' = f /\ match r with Ok (Some h) => h = hash_of x | Ok None => False | Err _ => True end).
  { intros r0 f0 Hr. run_inv Hr; [subst; by apply read_disk_inv in Hrun as [-> _]|].
    apply read_disk_inv in Hrun as (-> & Hx & _). rewrite E in Hx. injection Hx as <-. by injection Hr as <- <-. }
  destruct (if deep then None else l) as [l'|] eqn:El.
  - destruct (probably_matches _ _ _).
    + injection H as <- <-. split; [done|]. exists x, m. split; [done|]. right. destruct deep; [done|]. eauto.
    + apply Hread in H as [-> H]. split; [done|]. destruct r as [[h|]|]; try done. eauto.
  - apply Hread in H as [-> H]. split; [done|]. destruct r as [[h|]|]; try done. eauto.
Qed.

Lemma import_inv p f r f' :
  fs_ok (store f) -> import clock p f = (r, f') ->
  fs_ok (store f') /\ disk f' = disk f /\ fs_device (store f') = fs_device (store f)
  /\ match r with
     | Ok _ => exists x m e, on f !! p = Some (x, m) /\ content_hash e = hash_of x
         /\ files f' = <[p := e]> (files f)
         /\ locals f' = <[p := mkLocal (N.of_nat (length x)) m (hash_of x)]> (locals f)
     | Err _ => files f' = files f /\ locals f' = locals f
     end.
Proof.
  intros Hok H. unfold import in H. run_inv H.
  { subst. by apply read_disk_inv in Hrun as [-> _]. }
  apply read_disk_inv in Hrun as (-> & Hx & _). destruct a as [x m]. cbn [fst] in H.
  run_inv H.
  { apply on_store_inv in Hrun as (r0 & s & Hr & -> & E). subst.
    destruct (fs_check_room_spec _ _ _ _ _ Hok Hr) as (Hok' & H1 & H2 & H3). done. }
  apply on_store_inv in Hrun as (r0 & s1 & Hr & -> & E).
  destruct (fs_check_room_spec _ _ _ _ _ Hok Hr) as (Hok1 & V1 & V2 & V3). clear E Hr.
  run_inv H.
  { apply on_store_inv in Hrun as (r1 & s & Hr & -> & E). subst r. destruct r1 as [|e1]; [done|].
    destruct (fs_write_err _ _ _ _ _ _ Hok1 Hr) as (Hok2 & H1 & H2 & H3). cbn [store disk] in *.
    split_and!; congruence. }
  apply on_store_inv in Hrun as (r1 & s2 & Hr & -> & E). destruct r1 as [e|]; [|done]. injection E as ->.
  destruct (fs_write_ok _ _ _ _ _ _ Hok1 Hr) as (Hok2 & Hv & Hh & W1 & W2 & W3).
  apply record_inv in H. cbn [store disk] in H. destruct r as [u|e0].
  - destruct H as (x' & m' & Hx' & ->). rewrite Hx in Hx'. injection Hx' as <- <-. cbn [store disk].
    destruct (fs_set_local_spec p (mkLocal (N.of_nat (length x)) m (content_hash e)) s2 Hok2) as (S1 & S2 & S3 & S4).
    split_and!; [done|done|congruence|]. exists x, m, e. split_and!; [done|done|congruence|].
    rewrite S3, Hh. congruence.
  - destruct H as [_ H]. cbn [store disk] in H. congruence.
Qed.

Lemma write_disk_inv p x f r (f' : Pass S) :
  write_disk mtime p x f = (r, f') ->
  f' = match r with
       | Ok _ => mkPass (store f) (set_files (<[p := (x, mtime p)]> (on f)) (disk f))
       | Err _ => f
       end.
Proof. unfold write_disk. case_decide; by intros [= <- <-]. Qed.

Lemma export_inv p f r f' :
  fs_ok (store f) -> validate p = Ok tt -> export mtime p f = (r, f') ->
  fs_ok (store f') /\ same_rest f f' /\ files f' = files f
  /\ match r with
     | Ok _ => match files f !! p with
               | None => f' = f
               | Some e => exists x, hash_of x = content_hash e /\ on f' = <[p := (x, mtime p)]> (on f)
                   /\ locals f' = <[p := mkLocal (N.of_nat (length x)) (mtime p) (content_hash e)]> (locals f)
               end
     | Err _ => f' = f
     end.
Proof.
  intros Hok Hv E. unfold export, gets in E. run_inv E; [done|]. injection Hrun as <- <-.
  destruct (fs_read p (store f)) as [[[]|e] x] eqn:Er.
  - destruct (fs_read_true _ _ _ Er) as (e & He & Hh). rewrite He. run_inv E.
    { subst r. apply write_disk_inv in Hrun as ->. split_and!; auto with its. }
    apply write_disk_inv in Hrun as ->. run_inv E; [done|]. injection Hrun as <- <-.
    unfold stat_ok in E. rewrite Hv in E. cbn [store] in E. rewrite He in E.
    apply record_inv in E. cbn [store disk] in E. destruct r as [u|e0].
    + destruct E as (x' & m' & Hx' & ->). cbn [disk set_files d_files] in Hx'. rewrite lookup_insert_eq in Hx'.
      injection Hx' as <- <-. cbn [store disk].
      destruct (fs_set_local_spec p (mkLocal (N.of_nat (length x)) (mtime p) (content_hash e)) (store f) Hok)
        as (S1 & S2 & S3 & S4).
      split_and!; try done. eauto.
    + destruct E as [_ E]. cbn [set_files d_files] in E. by rewrite lookup_insert_eq in E.
  - injection E as <- <-. rewrite (fs_read_false _ _ _ Er). split_and!; auto with its.
  - injection E as <- <-. split_and!; auto with its.
Qed.

Lemma local_sibling_ne p h : local_sibling p h <> p.
Proof.
  unfold local_sibling, with_marker. intros E. apply (f_equal (fun s => length (chars s))) in E.
  unfold chars, str in E. rewrite String.list_ascii_of_string_of_list_ascii, length_with_marker in E. lia.
Qed.

(** What moving a local version aside leaves at the copy's path. *)
Definition set_aside (p q : string) (ok : bool) (f f' : Pass S) : Prop :=
  exists x m, on f !! p = Some (x, m) /\ q = local_sibling p (hash_of x)
  /\ (exists m', on f' !! q = Some (x, m'))
  /\ (files f' !! q = files f !! q \/ store_hash q f' = Some (hash_of x))
  /\ (ok = true -> agreed q f' /\ validate q = Ok tt).

Lemma keep_both_inv p x m f r f' :
  fs_ok (store f) -> validate p = Ok tt -> is_Some (files f !! p) -> on f !! p = Some (x, m) ->
  keep_both clock mtime p (Some (hash_of x)) f = (r, f') ->
  fs_ok (store f') /\ same_rest f f' /\ files f' !! p = files f !! p
  /\ (forall q, q <> p -> unchanged_at q f f' \/ set_aside p q (is_ok r) f f')
  /\ match r with
     | Ok s => s = local_sibling p (hash_of x) /\ agreed p f' /\ exists m', on f' !! s = Some (x, m')
     | Err _ => on f' !! p = on f !! p /\ locals f' !! p = locals f !! p
     end.
Proof.
  intros Hok Hv [e Hfile] Hx E. unfold keep_both in E. set (sib := local_sibling p (hash_of x)) in *.
  assert (Hne : sib <> p) by apply local_sibling_ne. unfold lift in E.
  run_inv E; [injection Hrun as Hrun <-; subst r; split_and!; auto with its|].
  assert (Hvs : validate sib = Ok tt).
  { injection Hrun as Hrun _. unfold to_filesystem in Hrun. by destruct (validate sib) as [[]|]. }
  injection Hrun as _ <-. unfold copy_aside in E. run_inv E.
  { subst r. run_inv Hrun.
    - apply read_disk_inv in Hrun0 as [-> _]. split_and!; auto with its.
    - apply read_disk_inv in Hrun0 as (-> & _). apply write_disk_inv in Hrun as ->.
      split_and!; auto with its. }
  run_inv Hrun; [done|]. apply read_disk_inv in Hrun0 as (-> & Hx' & _). rewrite Hx in Hx'. injection Hx' as <-.
  apply write_disk_inv in Hrun as ->. cbn [fst] in E. clear a.
  set (g := mkPass (store f) (set_files (<[sib := (x, mtime sib)]> (on f)) (disk f))) in E.
  assert (Hg : on g !! sib = Some (x, mtime sib)) by (unfold g; cbn; apply lookup_insert_eq).
  run_inv E.
  { subst r. apply import_inv in Hrun as (Ho & Hd & Hdev & Hfl & Hl); [|done]. split_and!.
    - done.
    - split; [by rewrite Hd|done].
    - by rewrite Hfl.
    - intros q Hq. destruct (decide (q = sib)) as [->|Hq'].
      + right. exists x, m. split_and!; [done|done|rewrite Hd; eauto|left; by rewrite Hfl|done].
      + left. unfold unchanged_at. rewrite Hd, Hfl, Hl. unfold g. cbn. by rewrite lookup_insert_ne by done.
    - rewrite Hd. unfold g. cbn. by rewrite lookup_insert_ne.
    - by rewrite Hl. }
  apply import_inv in Hrun as (Ho & Hd & Hdev & x1 & m1 & e1 & Hx1 & He1 & Hfl & Hl); [|done].
  rewrite Hg in Hx1. injection Hx1 as <- <-. clear a.
  assert (Hfp : files s !! p = Some e) by (rewrite Hfl, lookup_insert_ne by done; exact Hfile).
  run_inv E.
  { subst r. apply export_inv in Hrun as (Ho' & Hr & Hf' & ->); [|done|done]. split_and!.
    - done.
    - split; [by rewrite Hd|by rewrite Hdev].
    - by rewrite Hfp, Hfile.
    - intros q Hq. destruct (decide (q = sib)) as [->|Hq'].
      + right. exists x, m. split_and!; [done|done|rewrite Hd; eauto| |done].
        right. unfold store_hash. rewrite Hfl, lookup_insert_eq. cbn. by rewrite He1.
      + left. unfold unchanged_at. rewrite Hd, Hfl, Hl. unfold g. cbn. by rewrite !lookup_insert_ne by done.
    - rewrite Hd. unfold g. cbn. by rewrite lookup_insert_ne.
    - by rewrite Hl, lookup_insert_ne. }
  injection E as <- <-. apply export_inv in Hrun as (Ho' & [Hr1 Hr2] & Hf' & Hexp); [|done|done].
  rewrite Hfp in Hexp. destruct Hexp as (y & Hy & Hon & Hloc). rename s0 into f'.
  assert (Hsib : on f' !! sib = Some (x, mtime sib)) by (rewrite Hon, lookup_insert_ne, Hd by done; exact Hg).
  assert (Hasib : agreed sib f').
  { unfold agreed, disk_hash, store_hash, ledger_hash.
    rewrite Hsib, Hf', Hfl, Hloc, Hl, lookup_insert_eq, lookup_insert_ne, lookup_insert_eq by done. cbn. by rewrite He1. }
  split_and!.
  - done.
  - split; [|by rewrite Hr2, Hdev]. rewrite Hr1, Hd. done.
  - by rewrite Hf', Hfp.
  - intros q Hq. destruct (decide (q = sib)) as [->|Hq'].
    + right. exists x, m. split_and!; [done|done|eauto| |done].
      right. unfold store_hash. rewrite Hf', Hfl, lookup_insert_eq. cbn. by rewrite He1.
    + left. unfold unchanged_at. rewrite Hon, Hf', Hfl, Hloc, Hl, Hd. unfold g. cbn.
      by rewrite !lookup_insert_ne by done.
  - done.
  - unfold agreed, disk_hash, store_hash, ledger_hash. rewrite Hon, Hf', Hfp, Hloc, !lookup_insert_eq. cbn.
    by rewrite Hy.
  - eauto.
Qed.

(** ** One path *)

(** What handling [p] may have done to the folder; [ok] when it succeeded. *)
Record touched (p : string) (deep hold ok : bool) (f f' : Pass S) : Prop := mkTouched {
  to_ok : fs_ok (store f');
  to_rest : same_rest f f';
  to_frame q : q <> p -> unchanged_at q f f' \/ set_aside p q ok f f';
  to_removed e : files f !! p = Some e -> files f' !! p = None ->
    hold = false /\ on f !! p = None /\ ledger_hash p f = Some (content_hash e);
  to_edit x m : deep = true -> on f !! p = Some (x, m) ->
    (exists m', on f' !! p = Some (x, m')) \/ ledger_hash p f = Some (hash_of x)
    \/ (exists m', on f' !! local_sibling p (hash_of x) = Some (x, m'));
  to_agreed : ok = true -> deep = true -> hold = false -> agreed p f';
}.

Lemma touched_nothing p deep hold ok f :
  fs_ok (store f) -> (ok = true -> deep = true -> hold = false -> agreed p f) -> touched p deep hold ok f f.
Proof.
  intros Hok Ha. split; try done; [apply same_rest_refl|by left| |].
  - intros e H1 H2. congruence.
  - intros x m _ Hx. left. eauto.
Qed.

(** Handling [p] without moving anything aside. *)
Lemma touched_at p deep hold ok f f' :
  fs_ok (store f') -> same_rest f f' ->
  (forall q, q <> p -> unchanged_at q f f') ->
  (is_Some (files f !! p) -> is_Some (files f' !! p)) ->
  (deep = true -> on f' !! p = on f !! p \/ ledger_hash p f = disk_hash p f) ->
  (ok = true -> deep = true -> hold = false -> agreed p f') ->
  touched p deep hold ok f f'.
Proof.
  intros Hok Hr Hq Hf Hd Ha. split; try done.
  - intros q Hne. left. by apply Hq.
  - intros e H1 H2. destruct (Hf ltac:(eauto)) as [? ?]. congruence.
  - intros x m Hdeep Hx. destruct (Hd Hdeep) as [E|E]; [left; rewrite E; eauto|].
    right. left. rewrite E. unfold disk_hash. by rewrite Hx.
Qed.

Lemma unchanged_local p f s' (l : gmap string LocalState) :
  fs_files s' = files f -> fs_locals s' = l -> (forall q, q <> p -> l !! q = locals f !! q) ->
  forall q, q <> p -> unchanged_at q f (mkPass s' (disk f)).
Proof. intros Hf Hl Hq q Hne. unfold unchanged_at. cbn [store disk]. rewrite Hf, Hl, (Hq q Hne). done. Qed.

Lemma same_rest_store f s' : fs_device s' = fs_device (store f) -> same_rest f (mkPass s' (disk f)).
Proof. intros H. split; [|done]. cbn. by destruct (disk f). Qed.

Ltac views := unfold agreed, disk_hash, store_hash, ledger_hash in *.

Lemma record_touched p x m h deep hold f r f' :
  fs_ok (store f) -> on f !! p = Some (x, m) -> record p h f = (r, f') ->
  (deep = true -> h = hash_of x) -> store_hash p f = Some h ->
  touched p deep hold (is_ok r) f f'.
Proof.
  intros Hok Hx E Hh Hst. apply record_inv in E. destruct r as [u|e]; [|destruct E as [_ E]; congruence].
  destruct E as (x' & m' & Hx' & ->). rewrite Hx in Hx'. injection Hx' as <- <-.
  destruct (fs_set_local_spec p (mkLocal (N.of_nat (length x)) m h) (store f) Hok) as (S1 & S2 & S3 & S4).
  apply touched_at; try done.
  - by apply same_rest_store.
  - apply (unchanged_local _ _ _ _ S2 S3). intros q Hq. by rewrite lookup_insert_ne.
  - cbn [store]. by rewrite S2.
  - by left.
  - intros _ Hd _. views. cbn [store disk]. rewrite S2, S3, lookup_insert_eq, Hx, Hst, (Hh Hd). done.
Qed.

Lemma clear_touched p deep hold ok f :
  fs_ok (store f) -> on f !! p = None -> files f !! p = None ->
  touched p deep hold ok f (mkPass (fs_clear_local p (store f)) (disk f)).
Proof.
  intros Hok Hx Hf. destruct (fs_clear_local_spec p (store f) Hok) as (S1 & S2 & S3 & S4).
  apply touched_at; try done.
  - by apply same_rest_store.
  - apply (unchanged_local _ _ _ _ S2 S3). intros q Hq. by rewrite lookup_delete_ne.
  - cbn [store]. by rewrite S2.
  - by left.
  - intros _ _ _. views. cbn [store disk]. by rewrite S2, S3, lookup_delete_eq, Hx, Hf.
Qed.

Lemma import_touched p deep hold f r f' :
  fs_ok (store f) -> import clock p f = (r, f') -> touched p deep hold (is_ok r) f f'.
Proof.
  intros Hok E. apply import_inv in E as (Ho & Hd & Hdev & E); [|done].
  assert (Hr : same_rest f f') by (split; [rewrite Hd; by destruct (disk f)|done]).
  destruct r as [u|e].
  - destruct E as (x & m & e & Hx & He & Hfl & Hl). apply touched_at; try done.
    + intros q Hq. unfold unchanged_at. by rewrite Hd, Hfl, Hl, !lookup_insert_ne by done.
    + intros _. rewrite Hfl, lookup_insert_eq. eauto.
    + rewrite Hd. by left.
    + intros _ _ _. views. rewrite Hd, Hfl, Hl, !lookup_insert_eq, Hx. cbn. by rewrite He.
  - destruct E as [Hfl Hl]. apply touched_at; try done.
    + intros q _. unfold unchanged_at. by rewrite Hd, Hfl, Hl.
    + by rewrite Hfl.
    + rewrite Hd. by left.
Qed.

Lemma export_touched p e deep hold f r f' :
  fs_ok (store f) -> validate p = Ok tt -> files f !! p = Some e ->
  (deep = true -> on f !! p = None \/ ledger_hash p f = disk_hash p f) ->
  export mtime p f = (r, f') -> touched p deep hold (is_ok r) f f'.
Proof.
  intros Hok Hv He Hd E. apply export_inv in E as (Ho & Hr & Hfl & E); [|done|done]. rewrite He in E.
  destruct r as [u|err].
  - destruct E as (x & Hx & Hon & Hl).
    assert (Hfr : forall q, q <> p -> unchanged_at q f f').
    { intros q Hq. unfold unchanged_at. by rewrite Hon, Hfl, Hl, !lookup_insert_ne by done. }
    split; try done.
    + intros q Hq. left. by apply Hfr.
    + intros e' _. rewrite Hfl. congruence.
    + intros y m Hdeep Hy. destruct (Hd Hdeep) as [Hn|Hn]; [congruence|]. right. left. rewrite Hn.
      unfold disk_hash. by rewrite Hy.
    + intros _ _ _. views. rewrite Hon, Hfl, Hl, !lookup_insert_eq, He. cbn. by rewrite Hx.
  - subst f'. by apply touched_nothing.
Qed.

Lemma remove_touched p e now deep f r f' :
  fs_ok (store f) -> validate p = Ok tt -> on f !! p = None -> files f !! p = Some e ->
  ledger_hash p f = Some (content_hash e) ->
  (on_store (fs_remove now p) ;;! clear_local p) f = (r, f') -> touched p deep false (is_ok r) f f'.
Proof.
  intros Hok Hv Hx He Hlh E. run_inv E.
  { apply on_store_inv in Hrun as (r0 & s & Hr & -> & E).
    destruct (fs_remove_spec _ _ _ _ _ Hok Hv Hr) as (_ & Hi & _). by destruct r0. }
  apply on_store_inv in Hrun as (r0 & s1 & Hr & -> & _). injection E as <- <-.
  destruct (fs_remove_spec _ _ _ _ _ Hok Hv Hr) as (Ho & _ & R1 & R2 & R3).
  destruct (fs_clear_local_spec p s1 Ho) as (S1 & S2 & S3 & S4). cbn [store disk].
  split; cbn [store disk]; try done.
  - split; cbn; [by destruct (disk f)|by rewrite S4].
  - intros q Hq. left. unfold unchanged_at. cbn [store disk]. by rewrite S2, S3, R1, R2, !lookup_delete_ne by done.
  - intros e' H1 H2. split_and!; [done|done|]. rewrite Hlh. congruence.
  - intros x m _ Hx'. congruence.
  - intros _ _ _. views. cbn [store disk]. by rewrite S2, S3, R1, !lookup_delete_eq, Hx.
Qed.

Lemma delete_touched p deep hold f r f' :
  fs_ok (store f) -> files f !! p = None -> (deep = true -> ledger_hash p f = disk_hash p f) ->
  (delete_from_disk p ;;! clear_local p) f = (r, f') -> touched p deep hold (is_ok r) f f'.
Proof.
  intros Hok Hf Hd E. unfold delete_from_disk in E. run_inv E.
  { destruct (on f !! p); [|done]. case_decide; [|done]. injection Hrun as <- <-. subst r. by apply touched_nothing. }
  injection E as <- <-.
  assert (Hs : store s = store f /\ same_rest f s /\ on s = delete p (on f)).
  { destruct (on f !! p) eqn:Ex; [case_decide; [done|]|]; injection Hrun as _ <-.
    - done.
    - split_and!; [done|apply same_rest_refl|by rewrite delete_id]. }
  destruct Hs as (Hst & Hrest & Hon). rewrite Hst.
  destruct (fs_clear_local_spec p (store f) Hok) as (S1 & S2 & S3 & S4).
  apply touched_at; cbn [store disk]; try done.
  - destruct Hrest as [Hr1 Hr2]. split; [done|cbn [store]; by rewrite S4].
  - intros q Hq. unfold unchanged_at. cbn [store disk]. by rewrite S2, S3, Hon, !lookup_delete_ne by done.
  - rewrite Hf. by intros [? ?].
  - intros Hdeep. right. by apply Hd.
  - intros _ _ _. views. cbn [store disk]. by rewrite S2, S3, Hon, !lookup_delete_eq, Hf.
Qed.

Lemma keep_both_touched p x m e deep hold f r f' :
  fs_ok (store f) -> validate p = Ok tt -> files f !! p = Some e -> on f !! p = Some (x, m) ->
  keep_both clock mtime p (Some (hash_of x)) f = (r, f') -> touched p deep hold (is_ok r) f f'.
Proof.
  intros Hok Hv He Hx E. apply (keep_both_inv p x m) in E as (Ho & Hr & Hfp & Hq & E); try done.
  split; try done.
  - intros e' H1 H2. congruence.
  - intros y m' _ Hy. rewrite Hx in Hy. injection Hy as <- <-. destruct r as [s|err].
    + destruct E as (-> & _ & Hs). right. by right.
    + left. destruct E as [-> _]. eauto.
  - intros Hr'. by destruct r as [s|err]; [destruct E as (_ & Ha & _)|].
Qed.

Lemma then_ret {A B} (m : M (Pass S) FolderError A) (b : A -> B) f r f' :
  (a <-! m; ret (b a)) f = (r, f') -> exists r0, m f = (r0, f') /\ is_ok r0 = is_ok r.
Proof.
  intros E. run_inv E; [subst; eauto|]. injection E as <- <-. eauto.
Qed.

Lemma then_then_ret {A A' B} (m : M (Pass S) FolderError A) (m' : M (Pass S) FolderError A') (b : B) f r f' :
  (m ;;! m' ;;! ret b) f = (r, f') -> exists r0, (m ;;! m') f = (r0, f') /\ is_ok r0 = is_ok r.
Proof.
  intros E. unfold bind at 1 in E. unfold bind. destruct (m f) as [[a|e] g].
  - by apply then_ret in E.
  - injection E as <- <-. eauto.
Qed.

(** Handling one path, whatever it decides and however it ends. *)
Lemma reconcile_one_touched p deep hold progress f r f' :
  fs_ok (store f) -> reconcile_one clock mtime p deep hold progress f = (r, f') ->
  touched p deep hold (is_ok r) f f'.
Proof.
  intros Hok E. destruct progress as [report c]. unfold reconcile_one, gets, lift in E.
  do 2 (run_inv E; [done|]; injection Hrun as <- <-).
  unfold to_filesystem in E. destruct (validate p) as [[]|err] eqn:Hv.
  2:{ run_inv E; [|done]. injection Hrun as _ <-. subst r. by apply touched_nothing. }
  run_inv E; [done|]. injection Hrun as _ <-. unfold stat_ok in E. rewrite Hv in E.
  run_inv E; [apply hash_on_disk_inv in Hrun as [-> _]; subst r; by apply touched_nothing|].
  apply hash_on_disk_inv in Hrun as [-> Hh]. rename a0 into dh. clear a.
  assert (Hdh : deep = true -> dh = disk_hash p f).
  { intros ->. unfold disk_hash. destruct dh as [h|]; [|by rewrite Hh].
    destruct Hh as (x & m & -> & [->|[? _]]); done. }
  assert (Hdn : dh = None <-> on f !! p = None).
  { destruct dh; [|done]. destruct Hh as (x & m & -> & _). done. }
  change (content_hash <$> files f !! p) with (store_hash p f) in E.
  change (ls_content_hash <$> locals f !! p) with (ledger_hash p f) in E.
  assert (Hfn : store_hash p f = None <-> files f !! p = None) by (unfold store_hash; by destruct (files f !! p)).
  assert (Hx : forall h, dh = Some h -> dh <> ledger_hash p f -> exists x m, on f !! p = Some (x, m) /\ h = hash_of x).
  { intros h -> Hne. destruct Hh as (x & m & Hx & [->|(_ & l & El & ->)]); [eauto|].
    destruct Hne. unfold ledger_hash. by rewrite El. }
  assert (Hfs : forall sh, store_hash p f = Some sh -> exists e, files f !! p = Some e).
  { unfold store_hash. destruct (files f !! p); [eauto|done]. }
  unfold decide_path in E.
  case_bool_decide as Hl; case_bool_decide as Hr.
  - case_decide as Hs; [|destruct dh as [h|], (store_hash p f) as [sh|] eqn:Es; try done].
    + apply then_ret in E as (r0 & E & <-). destruct dh as [h|].
      * destruct (Hx h eq_refl Hl) as (x & m & Ex & ->). by eapply record_touched.
      * injection E as <- <-. apply clear_touched; [done|by apply Hdn|by apply Hfn].
    + destruct (Hx h eq_refl Hl) as (x & m & Ex & ->). apply then_ret in E as (r0 & E & <-).
      destruct (Hfs _ eq_refl) as [e Ef]. by eapply keep_both_touched.
    + apply then_ret in E as (r0 & E & <-). by apply import_touched.
    + apply then_ret in E as (r0 & E & <-). destruct (Hfs _ eq_refl) as [e Ef].
      eapply export_touched; [done|done|done| |exact E]. intros _. left. by apply Hdn.
  - destruct dh as [h|].
    + apply then_ret in E as (r0 & E & <-). by apply import_touched.
    + destruct hold; [injection E as <- <-; by apply touched_nothing|].
      apply then_then_ret in E as (r0 & E & <-).
      destruct (store_hash p f) as [sh|] eqn:Es; [|done].
      destruct (Hfs _ eq_refl) as [e Ef].
      eapply remove_touched; [done|done|by apply Hdn|done| |exact E].
      rewrite <- Hr, <- Es. unfold store_hash. by rewrite Ef.
  - destruct (store_hash p f) as [sh|] eqn:Es.
    + apply then_ret in E as (r0 & E & <-). destruct (Hfs _ eq_refl) as [e Ef].
      eapply export_touched; [done|done|done| |exact E]. intros Hd. right. rewrite <- (Hdh Hd). done.
    + apply then_then_ret in E as (r0 & E & <-). eapply delete_touched; [done|by apply Hfn| |exact E].
      intros Hd. by rewrite <- (Hdh Hd).
  - injection E as <- <-. apply touched_nothing; [done|].
    intros _ Hd _. split; [|done]. rewrite <- (Hdh Hd). congruence.
Qed.

(** ** The loop over the paths *)

(** A run over the paths; the flag says that every one succeeded. *)
Inductive passed (deep hold : bool) : list string -> bool -> Pass S -> Pass S -> Prop :=
| passed_nil f : passed deep hold [] true f f
| passed_cons p ps ok ok' f g h :
    touched p deep hold ok f g -> passed deep hold ps ok' g h -> passed deep hold (p :: ps) (ok && ok') f h.

Lemma failed_one p deep hold progress f progress' f' :
  reconcile_one clock mtime p deep hold progress f = (Ok progress', f') ->
  failed progress'.1 = failed progress.1 /\ held_deletions progress'.1 = held_deletions progress.1.
Proof.
  destruct progress as [report c]. unfold reconcile_one. intros E.
  do 4 (run_inv E; [done|]). destruct (decide_path _ _ _).
  4:{ destruct hold; [by injection E as <- <-|]. do 2 (run_inv E; [done|]). by injection E as <- <-. }
  5:{ do 2 (run_inv E; [done|]). by injection E as <- <-. }
  1:{ by injection E as <- <-. }
  all: run_inv E; [done|]; by injection E as <- <-.
Qed.

Lemma reconcile_paths_passed ps deep hold progress f progress' f' :
  fs_ok (store f) -> reconcile_paths clock mtime ps deep hold progress f = (progress', f') ->
  exists ok, passed deep hold ps ok f f' /\ failed progress.1 `prefix_of` failed progress'.1
  /\ held_deletions progress'.1 = held_deletions progress.1 /\ (failed progress'.1 = [] -> ok = true).
Proof.
  revert progress f. induction ps as [|p ps IH]; intros progress f Hok; cbn [reconcile_paths].
  { intros [= <- <-]. exists true. split_and!; [constructor|done..]. }
  destruct (reconcile_one clock mtime p deep hold progress f) as [[pr|e] g] eqn:E1; intros E;
    pose proof (reconcile_one_touched _ _ _ _ _ _ _ Hok E1) as Ht;
    destruct (IH _ _ (to_ok _ _ _ _ _ _ Ht) E) as (ok & Hp & Hpre & Hheld & Hf); eexists; split_and!;
    try (eapply passed_cons; [exact Ht|exact Hp]); cbn [is_ok andb].
  - by rewrite <- (proj1 (failed_one _ _ _ _ _ _ _ E1)).
  - by rewrite Hheld, (proj2 (failed_one _ _ _ _ _ _ _ E1)).
  - done.
  - etransitivity; [|exact Hpre]. cbn. by apply prefix_app_r.
  - done.
  - intros Hn. rewrite Hn in Hpre. apply prefix_nil_inv in Hpre. cbn in Hpre. by destruct (failed progress.1).
Qed.

Lemma passed_rest deep hold ps ok f f' :
  passed deep hold ps ok f f' -> fs_ok (store f) -> fs_ok (store f') /\ same_rest f f'.
Proof.
  induction 1 as [f|p ps ok ok' f g h Ht Hp IH]; intros Hok; [by split; [|apply same_rest_refl]|].
  destruct (IH (to_ok _ _ _ _ _ _ Ht)) as [H1 H2]. split; [done|].
  exact (same_rest_trans _ _ _ (to_rest _ _ _ _ _ _ Ht) H2).
Qed.

Lemma passed_removed deep hold ps ok f f' p e :
  passed deep hold ps ok f f' -> NoDup ps -> files f !! p = Some e -> files f' !! p = None ->
  p ∈ ps /\ hold = false /\ on f !! p = None /\ ledger_hash p f = Some (content_hash e).
Proof.
  intros Hp. revert e. induction Hp as [f|p0 ps ok ok' f g h Ht Hp IH]; intros e Hn He Hno; [congruence|].
  apply NoDup_cons in Hn as [Hp0 Hn]. destruct (files g !! p) as [e'|] eqn:Eg.
  - destruct (IH e' Hn eq_refl Hno) as (Hin & Hh & Hd & Hl).
    assert (p <> p0) by (by intros ->). destruct (to_frame _ _ _ _ _ _ Ht p) as [(U1 & U2 & U3)|Ha]; [done| |].
    + rewrite U1 in Hd. unfold ledger_hash in *. rewrite U3 in Hl. split_and!; try done; [by right|]. congruence.
    + destruct Ha as (x & m & _ & _ & [m' Hx] & _). congruence.
  - destruct (decide (p = p0)) as [->|Hne].
    + destruct (to_removed _ _ _ _ _ _ Ht e He Eg) as (H1 & H2 & H3). split_and!; try done. left.
    + destruct (to_frame _ _ _ _ _ _ Ht p Hne) as [(U1 & U2 & U3)|Ha]; [congruence|].
      destruct Ha as (x & m & _ & _ & _ & [Hx|Hx] & _); [congruence|]. unfold store_hash in Hx. by rewrite Eg in Hx.
Qed.

(** A pass in which everything succeeded leaves the views of every path it
    handled, and of every copy it set aside, in agreement. *)
Lemma passed_agreed deep hold ps ok f f' :
  passed deep hold ps ok f f' -> deep = true -> hold = false -> ok = true -> NoDup ps ->
  forall q, (q ∈ ps -> agreed q f') /\ (q ∉ ps -> unchanged_at q f f' \/ (agreed q f' /\ validate q = Ok tt)).
Proof.
  induction 1 as [f|p ps ok ok' f g h Ht Hp IH]; intros Hdeep Hhold Hok Hn q.
  { split; [by intros ?%elem_of_nil|]. by left. }
  apply andb_true_iff in Hok as [-> ->]. apply NoDup_cons in Hn as [Hp0 Hn].
  specialize (IH Hdeep Hhold eq_refl Hn). pose proof (to_agreed _ _ _ _ _ _ Ht eq_refl Hdeep Hhold) as Ha. split.
  - intros [->|Hq]%elem_of_cons; [|by apply IH].
    destruct (proj2 (IH p) Hp0) as [Hu|[? _]]; [|done]. exact (agreed_unchanged _ _ _ Hu Ha).
  - intros [Hne Hq]%not_elem_of_cons. destruct (proj2 (IH q) Hq) as [Hu|?]; [|by right].
    destruct (to_frame _ _ _ _ _ _ Ht q Hne) as [(U1 & U2 & U3)|Hs].
    + left. destruct Hu as (W1 & W2 & W3). split_and!; congruence.
    + right. destruct Hs as (x & m & _ & _ & _ & _ & Hs). destruct (Hs eq_refl) as [Ha' Hv].
      split; [by apply (agreed_unchanged _ _ _ Hu)|done].
Qed.

(** No file of the folder has the name a conflict copy of another would get,
    and two conflict copies have the same name only if they are the same. *)
Definition copies_are_new (ps : list string) (f : Pass S) : Prop :=
  forall p x m, on f !! p = Some (x, m) ->
    (local_sibling p (hash_of x) ∉ ps)
    /\ forall p' x' m', on f !! p' = Some (x', m') ->
       local_sibling p (hash_of x) = local_sibling p' (hash_of x') -> x = x'.

Section edits.
Context (ps0 : list string) (f0 : Pass S) (Hnew : copies_are_new ps0 f0).

(** A copy already set aside is only ever replaced by itself. *)
Lemma aside_kept p x m q y n ok g h :
  p ∈ ps0 -> on f0 !! p = Some (x, m) -> unchanged_at q f0 g -> on f0 !! q = Some (y, n) ->
  set_aside q (local_sibling p (hash_of x)) ok g h -> exists m', on h !! local_sibling p (hash_of x) = Some (x, m').
Proof.
  intros Hp Hx (U & _) Hy (y' & n' & Hy' & Eq & [m' Hm] & _). rewrite U, Hy in Hy'. injection Hy' as <- <-.
  assert (x = y) as -> by (destruct (Hnew p x m Hx) as [_ Hc]; by eapply Hc). eauto.
Qed.

Lemma passed_edits hold ps ok g h :
  passed true hold ps ok g h -> NoDup ps -> ps ⊆ ps0 -> (forall p, p ∈ ps -> unchanged_at p f0 g) ->
  (forall q, q ∈ ps0 -> q ∉ ps -> on h !! q = on g !! q)
  /\ (forall p x m, p ∈ ps0 -> on f0 !! p = Some (x, m) ->
       (exists m', on g !! local_sibling p (hash_of x) = Some (x, m')) ->
       exists m', on h !! local_sibling p (hash_of x) = Some (x, m'))
  /\ (forall p x m, p ∈ ps -> on f0 !! p = Some (x, m) ->
       (exists m', on h !! p = Some (x, m')) \/ ledger_hash p f0 = Some (hash_of x)
       \/ (exists m', on h !! local_sibling p (hash_of x) = Some (x, m'))).
Proof.
  remember true as deep eqn:Hd. induction 1 as [g|p ps ok ok' f g h Ht Hp IH]; intros Hn Hsub Hu.
  { split_and!; [done|done|]. by intros p x m ?%elem_of_nil. }
  apply NoDup_cons in Hn as [Hp0 Hn]. assert (Hpin : p ∈ ps0) by (apply Hsub; left).
  assert (Hup : unchanged_at p f0 f) by (apply Hu; left).
  assert (Haside : forall q, q ∈ ps0 -> set_aside p q ok f g -> False).
  { intros q Hq (x & m & Hx & -> & _). rewrite (proj1 Hup) in Hx. by destruct (Hnew p x m Hx). }
  assert (Hfr : forall q, q ∈ ps0 -> q <> p -> unchanged_at q f g).
  { intros q Hq Hne. destruct (to_frame _ _ _ _ _ _ Ht q Hne) as [?|Ha]; [done|by apply Haside in Ha]. }
  destruct IH as (IH1 & IH2 & IH3); [done| |  |].
  { intros q Hq. apply Hsub. by right. }
  { intros q Hq. destruct (Hu q ltac:(by right)) as (A1 & A2 & A3).
    destruct (Hfr q) as (B1 & B2 & B3); [apply Hsub; by right|by intros ->|]. split_and!; congruence. }
  assert (Hkeep : forall p' x m, p' ∈ ps0 -> on f0 !! p' = Some (x, m) ->
    (exists m', on f !! local_sibling p' (hash_of x) = Some (x, m')) ->
    exists m', on g !! local_sibling p' (hash_of x) = Some (x, m')).
  { intros p' x m Hp' Hx [m' Hm]. destruct (decide (local_sibling p' (hash_of x) = p)) as [E|Hne].
    { destruct (Hnew p' x m Hx) as [Hc _]. by rewrite E in Hc. }
    destruct (to_frame _ _ _ _ _ _ Ht _ Hne) as [(-> & _)|Ha]; [eauto|].
    pose proof Ha as (y & n & Hy & _). rewrite (proj1 Hup) in Hy. by eapply (aside_kept p' x m p y n). }
  split_and!.
  - intros q Hq [Hne Hnin]%not_elem_of_cons. rewrite (IH1 q Hq Hnin). by apply (Hfr q Hq Hne).
  - intros p' x m Hp' Hx Hm. apply (IH2 p' x m); eauto.
  - intros p' x m [->|Hin]%elem_of_cons Hx; [|by eapply IH3].
    rewrite <- (proj1 Hup) in Hx. destruct (to_edit _ _ _ _ _ _ Ht x m Hd Hx) as [[m' E]|[E|E]].
    + left. exists m'. by rewrite (IH1 p Hpin Hp0).
    + right. left. unfold ledger_hash in *. destruct Hup as (_ & _ & <-). done.
    + right. right. apply (IH2 p x m); [done|by rewrite <- (proj1 Hup)|done].
Qed.

End edits.

Lemma reconcile_one_valid p deep hold progress f progress' f' :
  reconcile_one clock mtime p deep hold progress f = (Ok progress', f') -> validate p = Ok tt.
Proof.
  destruct progress as [report c]. unfold reconcile_one. intros E. do 3 (run_inv E; [done|]).
  unfold lift, to_filesystem in Hrun1. by destruct (validate p) as [[]|].
Qed.

Lemma reconcile_paths_valid ps deep hold progress f progress' f' :
  reconcile_paths clock mtime ps deep hold progress f = (progress', f') -> failed progress'.1 = [] ->
  failed progress.1 = [] /\ forall p, p ∈ ps -> validate p = Ok tt.
Proof.
  revert progress f. induction ps as [|p ps IH]; intros progress f; cbn [reconcile_paths].
  { intros [= <- <-] Hf. split; [done|]. by intros p ?%elem_of_nil. }
  destruct (reconcile_one clock mtime p deep hold progress f) as [[pr|e] g] eqn:E1; intros E Hf;
    destruct (IH _ _ E Hf) as [H1 H2].
  - rewrite (proj1 (failed_one _ _ _ _ _ _ _ E1)) in H1. split; [done|].
    intros q [->|Hq]%elem_of_cons; [by eapply reconcile_one_valid|by apply H2].
  - cbn in H1. by destruct (failed progress.1).
Qed.

(** ** The whole pass *)

Definition hold_of (del : Deletions) (od : gmap string DiskFile) (s : S) : option N :=
  match del with ApplyWhateverTheCount => None | Apply => deletions_are_too_many od s end.

Lemma check_storage_inv od f r f' :
  check_storage od f = (r, f') ->
  store f' = store f /\ on f' = on f /\ d_present (disk f') = d_present (disk f)
  /\ d_unreadable (disk f') = d_unreadable (disk f) /\ (is_ok r = false -> f' = f).
Proof.
  unfold check_storage, write_marker. destruct (read_marker _ _); [by intros [= <- <-]..|].
  destruct (_ || _); [|by intros [= <- <-]]. case_decide; by intros [= <- <-].
Qed.

Lemma NoDup_all_paths od (s : S) : NoDup (all_paths od s).
Proof. unfold all_paths. rewrite merge_sort_Permutation. apply NoDup_elements. Qed.

Lemma elem_of_all_paths od (s : S) p :
  p ∈ all_paths od s <-> is_Some (od !! p) \/ is_Some (fs_files s !! p) \/ is_Some (fs_locals s !! p).
Proof.
  unfold all_paths. rewrite merge_sort_Permutation, elem_of_elements, !elem_of_union, !elem_of_dom. tauto.
Qed.

Lemma reconcile_with_inv deep del f r f' :
  fs_ok (store f) -> reconcile_with clock mtime deep del f = (r, f') ->
  (f' = f /\ is_ok r = false)
  \/ exists od f1 f2 ok,
     scan (disk f) = Ok od /\ check_storage od f = (Ok tt, f1)
     /\ passed deep (bool_decide (is_Some (hold_of del od (store f)))) (all_paths od (store f)) ok f1 f2
     /\ disk f' = disk f2 /\ (same_view (store f2) (store f') /\ fs_ok (store f'))
     /\ (forall rep, r = Ok rep -> failed rep = [] ->
          ok = true /\ forall p, p ∈ all_paths od (store f) -> validate p = Ok tt)
     /\ (forall rep, r = Ok rep -> held_deletions rep = default 0 (hold_of del od (store f))).
Proof.
  intros Hok E. unfold reconcile_with, gets, lift in E. run_inv E; [done|]. injection Hrun as <- <-. cbn [id] in E.
  destruct (scan (disk f)) as [od|e] eqn:Es.
  2:{ run_inv E; [|done]. left. injection Hrun as _ <-. by subst r. }
  run_inv E; [done|]. injection Hrun as <- <-.
  run_inv E; [left; subst r; by apply check_storage_inv in Hrun as (_ & _ & _ & _ & ->)|].
  rename Hrun into Hcheck, s into f1. destruct a. pose proof (check_storage_inv _ _ _ _ Hcheck) as (Hst & _).
  right. do 2 (run_inv E; [done|]; injection Hrun as <- <-).
  run_inv E; [by destruct (reconcile_paths _ _ _ _ _ _ _)|].
  destruct (reconcile_paths clock mtime _ deep _ _ f1) as [[report c] f2] eqn:Ep. injection Hrun as <- <-.
  rewrite Hst in Ep. fold (hold_of del od (store f)) in Ep.
  pose proof (reconcile_paths_valid _ _ _ _ _ _ _ Ep) as Hvalid.
  apply reconcile_paths_passed in Ep as (ok & Hp & _ & Hheld & Hf); [|by rewrite Hst].
  run_inv E; [done|]. injection Hrun as <- <-.
  pose proof (passed_rest _ _ _ _ _ _ Hp ltac:(by rewrite Hst)) as [Hok2 _].
  exists od, f1, f2, ok. run_inv E.
  - apply on_store_inv in Hrun as (r0 & s & Hr & -> & E0). subst r.
    destruct (fs_flush_spec _ _ _ Hok2 Hr) as [Hok3 Hv]. split_and!; try done.
  - apply on_store_inv in Hrun as (r0 & s' & Hr & -> & _). injection E as <- <-.
    destruct (fs_flush_spec _ _ _ Hok2 Hr) as [Hok3 Hv].
    split_and!; try done; intros rep [= <-]; [|by destruct (could_pair c)].
    intros Hn. assert (failed (report, c).1 = []) by (by destruct (could_pair c)).
    split; [by apply Hf|]. by apply Hvalid.
Qed.

(** ** A pass over a folder in agreement *)

Lemma reconcile_one_agreed p deep hold progress f :
  agreed p f -> validate p = Ok tt -> d_unreadable (disk f) = ∅ ->
  reconcile_one clock mtime p deep hold progress f = (Ok progress, f).
Proof.
  intros [Ha1 Ha2] Hv Hr. destruct progress as [report c].
  unfold reconcile_one, gets, lift, to_filesystem, stat_ok. rewrite Hv. unfold bind at 1 2 3 4.
  assert (Hh : hash_on_disk p (locals f !! p) deep f = (Ok (disk_hash p f), f)).
  { unfold hash_on_disk, gets, disk_hash, bind at 1. views. destruct (on f !! p) as [[x m]|] eqn:Ex; [|done].
    assert (Hread : (y <-! read_disk p; ret (Some (hash_of y.1))) f = (Ok (Some (hash_of x)), f)).
    { unfold bind, read_disk. rewrite Ex, Hr, decide_False by set_solver. done. }
    destruct (if deep then None else locals f !! p) as [l|] eqn:El; [|done].
    destruct deep; [done|]. rewrite El in Ha2. rewrite Ha2 in Ha1. cbn in Ha1. injection Ha1 as Ha1.
    destruct (probably_matches _ _ _); [|done]. unfold ret. cbn [fmap option_fmap option_map fst]. by rewrite Ha1. }
  rewrite Hh. views. cbn [fst]. rewrite <- Ha2, <- Ha1. unfold decide_path.
  rewrite bool_decide_false by (intros Hn; by apply Hn). done.
Qed.

Lemma reconcile_paths_agreed ps deep hold progress f :
  (forall p, p ∈ ps -> agreed p f /\ validate p = Ok tt) -> d_unreadable (disk f) = ∅ ->
  reconcile_paths clock mtime ps deep hold progress f = (progress, f).
Proof.
  intros Ha Hr. induction ps as [|p ps IH]; cbn [reconcile_paths]; [done|].
  destruct (Ha p ltac:(left)) as [H1 H2]. rewrite reconcile_one_agreed by done.
  apply IH. intros q Hq. apply Ha. by right.
Qed.

(** ** Theorems *)

(** C5. A pass deletes a file from the account only if this device had put exactly
    that content on its disk, the file is not there any more, and either
    somebody confirmed the deletions or there are few of them: a device that
    never downloaded a file, or whose copy is out of date, cannot delete it. *)
Theorem only_known_files_are_deleted (deep : bool) (del : Deletions) (f f' : Pass S)
  (r : result FolderError ReconcileReport) (p : string) (e : FileEntry) :
  fs_ok (store f) -> reconcile_with clock mtime deep del f = (r, f') ->
  files f !! p = Some e -> files f' !! p = None ->
  on f !! p = None /\ ledger_hash p f = Some (content_hash e)
  /\ (del = ApplyWhateverTheCount
      \/ forall od, scan (disk f) = Ok od -> deletions_are_too_many od (store f) = None).
Proof.
  intros Hok E He Hn. apply reconcile_with_inv in E as [[-> _]|E]; [congruence| |done].
  destruct E as (od & f1 & f2 & ok & Hs & Hc & Hp & Hd & ((Hv & _) & _) & _).
  apply check_storage_inv in Hc as (Hst & Hon & _). rewrite Hv in Hn.
  eapply passed_removed in Hp as (_ & Hh & Hx & Hl); [|apply NoDup_all_paths|by rewrite Hst|done].
  rewrite Hon in Hx. unfold ledger_hash in *. rewrite Hst in Hl. split_and!; try done.
  destruct del; [|by left]. right. rewrite Hs. intros od' [= <-]. cbn [hold_of] in Hh.
  by destruct (deletions_are_too_many od (store f)).
Qed.

(** A conflict name is taken already: it is the name of a file the pass looks at,
    or another file with another content would get the same one. *)
Definition conflict_name_taken (ps : list string) (f : Pass S) : Prop :=
  exists p x m, on f !! p = Some (x, m)
    /\ (local_sibling p (hash_of x) ∈ ps
        \/ exists p' x' m', on f !! p' = Some (x', m')
             /\ local_sibling p (hash_of x) = local_sibling p' (hash_of x') /\ x <> x').

Lemma copies_new_or_taken ps f : copies_are_new ps f \/ conflict_name_taken ps f.
Proof.
  destruct (decide (map_Forall (fun p v => local_sibling p (hash_of v.1) ∉ ps
    /\ map_Forall (fun p' v' => local_sibling p (hash_of v.1) = local_sibling p' (hash_of v'.1) -> v.1 = v'.1) (on f)) (on f))) as [H|H].
  - left. intros p x m Hx. destruct (H _ _ Hx) as [H1 H2]. split; [done|]. intros p' x' m' Hx'. exact (H2 _ _ Hx').
  - right. apply map_not_Forall in H as (p & [x m] & Hx & H); [|tc_solve]. exists p, x, m. split; [done|]. cbn [fst] in H.
    apply not_and_r in H as [H|H]; [left; by apply dec_stable in H|right].
    apply map_not_Forall in H as (p' & [x' m'] & Hx' & H); [|tc_solve]. exists p', x', m'. cbn [fst] in H.
    split; [done|]. destruct (decide (local_sibling p (hash_of x) = local_sibling p' (hash_of x'))) as [E|E]; [|by destruct H].
    split; [done|]. intros ->. by destruct H.
Qed.

(** C6. What can become of an edit made on this disk, in a deep pass over any folder
    and however the pass ends.  Afterwards each file it looked at is still there
    with its content; or its content is exactly what this device last recorded
    for that path, so the account has moved on from it; or it was moved aside
    under its conflict name.  The one exception is a folder in which a conflict
    name is taken already, by a file or by the copy of another content: such a
    copy is written over what is there. *)
Theorem no_edit_is_lost (del : Deletions) (f f' : Pass S) (r : result FolderError ReconcileReport)
  (od : gmap string DiskFile) (p : string) (x : list N) (m : N) :
  fs_ok (store f) -> scan (disk f) = Ok od ->
  reconcile_with clock mtime true del f = (r, f') ->
  on f !! p = Some (x, m) -> p ∈ all_paths od (store f) ->
  (exists m', on f' !! p = Some (x, m')) \/ ledger_hash p f = Some (hash_of x)
  \/ (exists m', on f' !! local_sibling p (hash_of x) = Some (x, m'))
  \/ conflict_name_taken (all_paths od (store f)) f.
Proof.
  intros Hok Hs E Hx Hp. apply reconcile_with_inv in E as [[-> _]|E]; [left; eauto| |done].
  destruct (copies_new_or_taken (all_paths od (store f)) f) as [Hnew|Ht]; [|by do 3 right].
  destruct E as (od' & f1 & f2 & ok & Hs' & Hc & Hps & Hd & _). rewrite Hs in Hs'. injection Hs' as <-.
  apply check_storage_inv in Hc as (Hst & Hon & _). rewrite Hd.
  assert (Hu : forall q, unchanged_at q f f1) by (intros q; unfold unchanged_at; by rewrite Hst, Hon).
  eapply (passed_edits _ f) in Hps as (_ & _ & H3); [|done|apply NoDup_all_paths|done|intros q _; apply Hu].
  destruct (H3 p x m Hp Hx) as [?|[?|?]]; auto.
Qed.

(** The paths the next pass would look at. *)
Definition paths_now (f : Pass S) : list string :=
  match scan (disk f) with Ok od => all_paths od (store f) | Err _ => [] end.

Lemma settled_paths del f rep f' :
  fs_ok (store f) -> reconcile_with clock mtime true del f = (Ok rep, f') ->
  failed rep = [] -> held_deletions rep = 0 ->
  fs_ok (store f') /\ d_present (disk f') = true /\ d_unreadable (disk f') = d_unreadable (disk f)
  /\ forall q, q ∈ paths_now f' -> agreed q f' /\ validate q = Ok tt.
Proof.
  intros Hok E Hf Hh. apply reconcile_with_inv in E as [[_ ?]|E]; [done| |done].
  destruct E as (od & f1 & f2 & ok & Hs & Hc & Hp & Hd & [Hv Hok3] & Hok' & Hheld).
  destruct (Hok' rep eq_refl Hf) as [-> Hvalid]. specialize (Hheld rep eq_refl). rewrite Hh in Hheld.
  assert (Hhold : bool_decide (is_Some (hold_of del od (store f))) = false).
  { apply bool_decide_eq_false. intros [n Hn]. rewrite Hn in Hheld. cbn in Hheld. subst n.
    destruct del; [|done]. cbn in Hn. unfold deletions_are_too_many in Hn.
    destruct (N.ltb_spec DELETIONS_ALWAYS_ALLOWED (N.of_nat (length
      (filter (fun p => od !! p = None) (btree_keys (locals f)))))) as [Hlt|]; [|done].
    destruct (_ && _); [|done]. injection Hn as Hn. rewrite Hn in Hlt. by vm_compute in Hlt. }
  pose proof (passed_rest _ _ _ _ _ _ Hp) as Hr. apply check_storage_inv in Hc as (Hst & Hon & Hpr & Hun & _).
  rewrite Hst in Hr. destruct (Hr Hok) as [_ [Hr1 _]].
  assert (Hpres : d_present (disk f') = true /\ d_present (disk f) = true).
  { rewrite Hd, Hr1. cbn. rewrite Hpr. unfold scan in Hs. by destruct (d_present (disk f)). }
  split_and!; [done|by apply Hpres|by rewrite Hd, Hr1; cbn|].
  pose proof (passed_agreed _ _ _ _ _ _ Hp eq_refl Hhold eq_refl (NoDup_all_paths od (store f))) as Ha.
  assert (Hview : forall q, unchanged_at q f2 f').
  { intros q. unfold unchanged_at. rewrite Hd. destruct Hv as (-> & -> & _). done. }
  intros q Hq. destruct (decide (q ∈ all_paths od (store f))) as [Hin|Hin].
  { split; [|by apply Hvalid]. apply (agreed_unchanged _ _ _ (Hview q)). by apply Ha. }
  destruct (proj2 (Ha q) Hin) as [Hu|[Hag Hvq]]; [|split; [by apply (agreed_unchanged _ _ _ (Hview q))|done]].
  destruct Hin. unfold paths_now in Hq. unfold scan in Hs, Hq. destruct Hpres as [Hp1 Hp2].
  rewrite Hp1 in Hq. rewrite Hp2 in Hs. injection Hs as <-.
  apply elem_of_all_paths in Hq. apply elem_of_all_paths. destruct Hu as (U1 & U2 & U3). destruct (Hview q) as (W1 & W2 & W3).
  rewrite <- Hon in *. rewrite Hst in U2, U3. rewrite W2, W3, U2, U3 in Hq.
  destruct Hq as [Hq|[Hq|Hq]]; [left|right; by left|right; by right].
  rewrite lookup_fmap, fmap_is_Some in Hq |- *. destruct Hq as [y Hy]. exists y.
  rewrite map_lookup_filter_Some in Hy |- *. destruct Hy as [Hy1 Hy2]. split; [|done]. congruence.
Qed.

(** C30. A deep pass that reports no failure and holds nothing back leaves the
    disk, the store and the ledger in agreement about every path, and the
    next pass, deep or not, moves nothing and changes nothing. *)
Theorem reconcile_settles (del del' : Deletions) (deep' : bool) (f f' f'' : Pass S) (rep : ReconcileReport)
  (r' : result FolderError ReconcileReport) :
  fs_ok (store f) -> reconcile_with clock mtime true del f = (Ok rep, f') ->
  failed rep = [] -> held_deletions rep = 0 -> d_unreadable (disk f) = ∅ ->
  reconcile_with clock mtime deep' del' f' = (r', f'') ->
  (forall q, q ∈ paths_now f' -> agreed q f')
  /\ on f'' = on f' /\ same_view (store f') (store f'')
  /\ forall rep', r' = Ok rep' -> changed_anything rep' = false /\ failed rep' = [] /\ recorded rep' = 0.
Proof.
  intros Hok E Hf Hh Hun E'. destruct (settled_paths _ _ _ _ Hok E Hf Hh) as (Hok' & Hpres & Hun' & Ha).
  split; [intros q Hq; by apply Ha|]. unfold paths_now in Ha.
  unfold reconcile_with, gets, lift in E'. run_inv E'; [done|]. injection Hrun as <- <-. cbn [id] in E'.
  unfold scan in *. rewrite Hpres in *. run_inv E'; [done|]. injection Hrun as <- <-.
  run_inv E'; [subst r'; by apply check_storage_inv in Hrun as (_ & _ & _ & _ & ->)|].
  apply check_storage_inv in Hrun as (Hst & Hon & _ & Hu & _).
  do 2 (run_inv E'; [done|]; injection Hrun as <- <-).
  run_inv E'; [by destruct (reconcile_paths _ _ _ _ _ _ _)|].
  rewrite reconcile_paths_agreed in Hrun; [| |by rewrite Hu, Hun'].
  2:{ rewrite Hst. intros q Hq. destruct (Ha q Hq) as [H1 H2]. split; [|done].
      apply (agreed_unchanged q f'); [|done]. unfold unchanged_at. by rewrite Hst, Hon. }
  injection Hrun as <- <-. run_inv E'; [done|]. injection Hrun as <- <-.
  run_inv E'; apply on_store_inv in Hrun as (r0 & s' & Hr & -> & _); rewrite Hst in Hr;
    destruct (fs_flush_spec _ _ _ Hok' Hr) as [_ Hv].
  - subst r'. by split_and!.
  - injection E' as <- <-. split_and!; try done. by intros rep' [= <-].
Qed.

(** A directory whose storage is gone (no marker, and none of the files this
    device holds) or that belongs to another node is refused, and nothing is
    written anywhere. *)
Theorem unreachable_storage_is_left_alone (deep : bool) (del : Deletions) (f : Pass S)
  (od : gmap string DiskFile) :
  scan (disk f) = Ok od ->
  (d_marker (disk f) = None /\ locals f <> ∅ /\ (forall p, is_Some (locals f !! p) -> od !! p = None)
   \/ exists named, d_marker (disk f) = Some named /\ trimmed named <> to_hex (fs_device (store f))) ->
  exists why, reconcile_with clock mtime deep del f = (Err (StorageUnreachable why), f).
Proof.
  intros Hs Hc. unfold reconcile_with, gets, lift. unfold bind at 1 2. cbn [id]. rewrite Hs.
  enough (exists why, check_storage od f = (Err (StorageUnreachable why), f)) as [why E].
  { exists why. unfold bind. by rewrite E. }
  unfold check_storage, read_marker. destruct Hc as [(Hm & Hne & Hgone)|(named & Hm & Hne)]; rewrite Hm.
  - rewrite bool_decide_false; cbn [orb].
    + destruct (existsb _ _) eqn:Ex; [|eauto]. apply existsb_exists in Ex as (p & Hp & Hin).
      apply bool_decide_eq_true in Hin as [y Hy]. rewrite Hgone in Hy; [done|].
      apply elem_of_btree_keys. by apply list_elem_of_In.
    + intros Hk. apply Hne. apply map_empty. intros p. destruct (locals f !! p) eqn:El; [|done].
      assert (p ∈ btree_keys (locals f)) as Hin by (apply elem_of_btree_keys; eauto). rewrite Hk in Hin.
      by apply elem_of_nil in Hin.
  - rewrite decide_False by done. eauto.
Qed.

End laws.
