(* ===== verification/Accounting.v ===== *)
(** * Accounting: what a member earns and where they stand

    Models [crates/itsanas-coord/src/accounting.rs]: the split between an
    owner's own room and the network's, read in both directions; what a device
    contributes; a member's entitlement and state.  Divisions are at the width
    the source computes them (128 bits for the split, saturating 64 bits for a
    contribution), and a split is read from text as [str::trim] and
    [u32::from_str] do. *)

From S2P Require Import Prelude Version Ids Path Folder.

(** ** The split *)

Record Split := mkSplit { own : N; network : N }.

Definition split_DEFAULT : Split := mkSplit 30 70.

Definition split_new (own network : N) : option Split :=
  if (own =? 0) || (network =? 0) then None else Some (mkSplit own network).

(** [u32::from_str] and the like: an optional sign, at least one digit, nothing
    past the type's [max]. *)
Fixpoint parse_digits (max acc : N) (l : list ascii) : option N :=
  match l with
  | [] => Some acc
  | c :: l =>
      let d := N_of_ascii c - 48 in
      if (48 <=? N_of_ascii c) && (N_of_ascii c <=? 57) && (acc * 10 + d <=? max)
      then parse_digits max (acc * 10 + d) l
      else None
  end.

Definition parse_int (max : N) (l : list ascii) : option N :=
  let l := match l with c :: l' => if decide (c = "+"%char) then l' else l | [] => l end in
  match l with [] => None | _ => parse_digits max 0 l end.

Definition parse_u32 (l : list ascii) : option N := parse_int u32_max l.

(** [text.split_once('/')] *)
Fixpoint split_once (sep : ascii) (l : list ascii) : option (list ascii * list ascii) :=
  match l with
  | [] => None
  | c :: l => if decide (c = sep) then Some ([], l)
              else match split_once sep l with Some (a, b) => Some (c :: a, b) | None => None end
  end.

Definition split_parse (text : list ascii) : option Split :=
  match split_once slash text with
  | Some (own, network) =>
      match parse_u32 (trim own) with
      | Some own => match parse_u32 (trim network) with
                    | Some network => split_new own network
                    | None => None
                    end
      | None => None
      end
  | None => None
  end.

(** [Display] *)
Definition split_show (s : Split) : list ascii := decimal (own s) ++ [slash] ++ decimal (network s).

Definition room_earned (s : Split) (pledged_bytes : N) : N :=
  N.min (pledged_bytes * own s / network s) u64_max.

Definition pledge_needed_for (s : Split) (keep_bytes : N) : N :=
  let needed := keep_bytes * network s in
  N.min (needed / own s + (if needed mod own s =? 0 then 0 else 1)) u64_max.

Definition grants_no_more_than (s other : Split) : bool :=
  own s * network other <=? own other * network s.

(** ** Contributions and standing *)

Definition ANCHOR_AVAILABILITY_PER_MILLE : N := 900.
Definition AVAILABILITY_FLOOR_PER_MILLE : N := 50.
Definition GRACE_SECONDS : N := 14 * 24 * 3600.
Definition DEFAULT_AFTER_SECONDS : N := 60 * 24 * 3600.
Definition JOINING_ALLOWANCE : N := 10 * 1024 * 1024 * 1024.
Definition JOINING_PERIOD_SECONDS : N := 30 * 24 * 3600.

Record DeviceContribution := mkContribution {
  dc_device : DeviceId;
  dc_pledged_bytes : N;
  dc_availability_per_mille : N;
}.

Definition effective_bytes (d : DeviceContribution) : N :=
  let availability := N.min (N.max (dc_availability_per_mille d) AVAILABILITY_FLOOR_PER_MILLE) 1000 in
  sat_mul (dc_pledged_bytes d) availability / 1000.

Definition is_anchor (d : DeviceContribution) : bool :=
  ANCHOR_AVAILABILITY_PER_MILLE <=? dc_availability_per_mille d.

Inductive MemberState := Joining | Good | Over | Grace | InDefault.

Definition may_replicate (s : MemberState) : bool :=
  match s with Joining | Good | Over => true | _ => false end.
Definition may_be_reclaimed (s : MemberState) : bool := match s with InDefault => true | _ => false end.
Definition needs_attention (s : MemberState) : bool :=
  match s with Over | Grace | InDefault => true | _ => false end.

Record Standing := mkStanding {
  sd_user : UserId;
  sd_pledged_bytes : N;
  sd_effective_bytes : N;
  sd_entitlement_bytes : N;
  sd_usage_bytes : N;
  sd_has_anchor : bool;
  sd_state : MemberState;
}.

Definition headroom_bytes (s : Standing) : N := sat_sub (sd_entitlement_bytes s) (sd_usage_bytes s).
Definition excess_bytes (s : Standing) : N := sat_sub (sd_usage_bytes s) (sd_entitlement_bytes s).

Record Assessment := mkAssessment {
  as_user : UserId;
  as_devices : list DeviceContribution;
  as_split : Split;
  as_usage_bytes : N;
  as_registered_unix : N;
  as_over_since_unix : option N;
  as_now_unix : N;
}.

Definition assess_member (i : Assessment) : Standing :=
  let pledged := foldl (fun total d => sat_add total (dc_pledged_bytes d)) 0 (as_devices i) in
  let effective := foldl (fun total d => sat_add total (effective_bytes d)) 0 (as_devices i) in
  let earned := room_earned (as_split i) effective in
  let joining := sat_sub (as_now_unix i) (as_registered_unix i) <? JOINING_PERIOD_SECONDS in
  let entitlement := if joining then N.max earned JOINING_ALLOWANCE else earned in
  let state :=
    if as_usage_bytes i <=? entitlement then
      if joining && (earned <? JOINING_ALLOWANCE) then Joining else Good
    else match as_over_since_unix i with
         | None => Over
         | Some since =>
             let over_for := sat_sub (as_now_unix i) since in
             if over_for <? GRACE_SECONDS then Over
             else if over_for <? DEFAULT_AFTER_SECONDS then Grace
             else InDefault
         end in
  mkStanding (as_user i) pledged effective entitlement (as_usage_bytes i)
    (existsb is_anchor (as_devices i)) state.

(** ** Lemmas *)

(** A digit is no whitespace, at either end. *)
Lemma digit_not_whitespace c l :
  is_decimal_digit c ->
  List.find (fun w => starts_with w (c :: l)) WHITESPACE = None
  /\ List.find (fun w => starts_with w (c :: l)) (@rev ascii <$> WHITESPACE) = None.
Proof.
  intros Hc.
  assert (Hno : forall set, Forall (fun w => match w with x :: _ => ~ is_decimal_digit x | [] => False end) set ->
    List.find (fun w => starts_with w (c :: l)) set = None).
  { intros set Hset. induction Hset as [|w set Hw _ IH]; [done|]. simpl.
    unfold starts_with at 1. destruct w as [|x w]; [done|].
    rewrite bool_decide_eq_false_2; [done|]. simpl. intros [= <-]. by apply Hw. }
  split; apply Hno; unfold is_decimal_digit, WHITESPACE; cbn [fmap list_fmap rev app];
    repeat (constructor; [vm_compute; intros [? ?]; congruence|]); constructor.
Qed.

Lemma trim_start_digit fuel set c l :
  List.find (fun w => starts_with w (c :: l)) set = None -> trim_start fuel set (c :: l) = c :: l.
Proof. intros Hf. destruct fuel; simpl; [done|]. by rewrite Hf. Qed.

Lemma trim_digits l : Forall is_decimal_digit l -> trim l = l.
Proof.
  intros Hl. unfold trim. destruct l as [|c l]; [done|].
  assert (Hc : is_decimal_digit c) by by apply Forall_inv in Hl.
  rewrite trim_start_digit by exact (proj1 (digit_not_whitespace c l Hc)).
  destruct (rev (c :: l)) as [|c' l'] eqn:Hr; [by apply (f_equal length) in Hr; rewrite length_rev in Hr|].
  assert (Hc' : is_decimal_digit c').
  { rewrite Forall_forall in Hl. apply Hl. rewrite <- elem_of_reverse. unfold reverse.
    rewrite <- rev_alt, Hr. by left. }
  rewrite trim_start_digit by exact (proj2 (digit_not_whitespace c' l' Hc')).
  by rewrite <- Hr, rev_involutive.
Qed.

Lemma decimal_value_ge v l : v <= decimal_value v l.
Proof.
  unfold decimal_value. revert v. induction l as [|c l IH]; intros v; simpl; [lia|].
  etransitivity; [|apply IH]. lia.
Qed.

Lemma parse_digits_value max l acc :
  Forall is_decimal_digit l -> decimal_value acc l <= max ->
  parse_digits max acc l = Some (decimal_value acc l).
Proof.
  intros Hl. revert acc. induction Hl as [|c l Hc Hl IH]; intros acc Hv; [done|].
  unfold decimal_value in Hv |- *. cbn [foldl] in Hv |- *.
  pose proof (decimal_value_ge (acc * 10 + (N_of_ascii c - 48)) l) as Hge.
  unfold decimal_value in Hge. cbn [parse_digits].
  destruct Hc as [H1 H2]. apply N.leb_le in H1, H2. rewrite H1, H2.
  replace (_ <=? max) with true by (symmetry; apply N.leb_le; lia).
  simpl. by apply IH.
Qed.

Lemma parse_int_decimal max n : n <= max -> parse_int max (decimal n) = Some n.
Proof.
  intros Hn. destruct (decimal_digits n) as [Hne Hd].
  unfold parse_int. destruct (decimal n) as [|c l] eqn:Hl; [done|].
  rewrite decide_False.
  - rewrite <- Hl in *. rewrite parse_digits_value; rewrite ?decimal_value_decimal; done.
  - intros ->. inversion Hd as [|? ? Hc]. by destruct Hc as [Hc _].
Qed.

Lemma parse_u32_decimal n : n <= u32_max -> parse_u32 (trim (decimal n)) = Some n.
Proof. intros Hn. rewrite trim_digits by apply decimal_digits. by apply parse_int_decimal. Qed.

Lemma split_once_digits sep l r :
  Forall (fun c => c <> sep) l -> split_once sep (l ++ sep :: r) = Some (l, r).
Proof.
  induction 1 as [|c l Hc Hl IH]; simpl.
  - by rewrite decide_True.
  - by rewrite decide_False, IH.
Qed.

Lemma digit_not_slash c : is_decimal_digit c -> c <> slash.
Proof. intros [Hc _] ->. by vm_compute in Hc. Qed.

(** ** The properties *)

(** A split survives being printed and read: what the operator is shown is what
    the command line takes back. *)
Theorem split_round_trip (s : Split) :
  split_new (own s) (network s) = Some s -> own s <= u32_max -> network s <= u32_max ->
  split_parse (split_show s) = Some s.
Proof.
  intros Hs Ho Hn. unfold split_parse, split_show. cbn [app].
  rewrite split_once_digits.
  - by rewrite !parse_u32_decimal.
  - eapply Forall_impl; [apply decimal_digits|apply digit_not_slash].
Qed.

Lemma split_round_trip_witness : split_parse (split_show split_DEFAULT) = Some split_DEFAULT.
Proof. apply split_round_trip; done. Defined.

(** The quote and the credit never contradict each other: pledging exactly what
    [pledge_needed_for] quotes earns the room that was asked for, and one byte
    less never does, so the quote is the least pledge that is enough. *)
Theorem pledge_quote_is_exact (s : Split) (keep pledged : N) :
  split_new (own s) (network s) = Some s ->
  keep <= u64_max -> pledge_needed_for s keep < u64_max ->
  keep <= room_earned s pledged <-> pledge_needed_for s keep <= pledged.
Proof.
  unfold split_new, pledge_needed_for, room_earned. destruct s as [o n]. cbn [own network].
  case_match eqn:Hz; [done|]. intros _. apply orb_false_iff in Hz as [Ho Hn]. nbool.
  intros Hk Hq. apply N.min_lt_iff in Hq as [Hq|Hq]; [|lia].
  rewrite (N.min_l (_ + _)) by lia.
  rewrite N.min_glb_iff.
  transitivity (keep <= pledged * o / n); [tauto|].
  transitivity (keep * n <= pledged * o).
  { split; intros H.
    - transitivity (pledged * o / n * n); [nia|]. rewrite N.mul_comm. apply N.Div0.mul_div_le.
    - apply N.div_le_lower_bound; [done|]. lia. }
  pose proof (N.div_mod' (keep * n) o) as Hd. pose proof (N.mod_lt (keep * n) o ltac:(done)) as Hm.
  set (q := keep * n / o) in *. set (r := keep * n mod o) in *. rewrite Hd.
  destruct (r =? 0) eqn:Hr; nbool; split; nia.
Qed.

Lemma pledge_quote_is_exact_witness :
  pledge_needed_for split_DEFAULT 100 = 234
  /\ 100 <= room_earned split_DEFAULT 234 /\ ~ (100 <= room_earned split_DEFAULT 233).
Proof.
  split_and!; [done|..].
  - by apply (pledge_quote_is_exact split_DEFAULT 100 234).
  - intros H. by apply (pledge_quote_is_exact split_DEFAULT 100 233) in H.
Defined.

(** [grants_no_more_than] compares splits without dividing, and decides exactly
    what a host wants to know: under the smaller split no pledge earns more. *)
Theorem grants_no_more_earns_no_more (s other : Split) (pledged : N) :
  split_new (own s) (network s) = Some s -> split_new (own other) (network other) = Some other ->
  grants_no_more_than s other = true -> room_earned s pledged <= room_earned other pledged.
Proof.
  unfold split_new, grants_no_more_than, room_earned. destruct s as [o n], other as [o' n'].
  cbn [own network]. case_match eqn:Hz; [done|]. case_match eqn:Hz'; [done|].
  apply orb_false_iff in Hz as [Ho Hn], Hz' as [Ho' Hn']. nbool. intros _ _ Hg. nbool.
  apply N.min_le_compat_r. apply N.div_le_lower_bound; [done|].
  pose proof (N.Div0.mul_div_le (pledged * o) n) as Hd.
  set (q := pledged * o / n) in *. apply (N.mul_le_mono_pos_l _ _ n); [lia|].
  assert (n' * (n * q) <= n' * (pledged * o)) by by apply N.mul_le_mono_l.
  assert (pledged * (o * n') <= pledged * (o' * n)) by by apply N.mul_le_mono_l.
  lia.
Qed.

Lemma grants_no_more_earns_no_more_witness :
  room_earned (mkSplit 1 3) 1000 <= room_earned split_DEFAULT 1000.
Proof. by apply grants_no_more_earns_no_more. Defined.

(** Saturating sums are monotone. *)
Lemma foldl_sat_add_le (f g : DeviceContribution -> N) l a b :
  (forall d, f d <= g d) -> a <= b ->
  foldl (fun t d => sat_add t (f d)) a l <= foldl (fun t d => sat_add t (g d)) b l.
Proof.
  intros Hfg. revert a b. induction l as [|d l IH]; intros a b Hab; simpl; [done|].
  apply IH. unfold sat_add. specialize (Hfg d). lia.
Qed.

Lemma effective_le_pledged d : effective_bytes d <= dc_pledged_bytes d.
Proof.
  unfold effective_bytes, sat_mul. apply N.Div0.div_le_upper_bound.
  etransitivity; [apply N.le_min_l|]. nia.
Qed.

(** A sanction needs both an excess and time: a member within their entitlement
    is never limited, one over it keeps replicating until the excess has been on
    record for the grace period, and their data may be reclaimed only after the
    full delay; an excess nobody recorded starts no clock. *)
Theorem sanctions_need_time (i : Assessment) :
  let s := assess_member i in
  (may_replicate (sd_state s) = false <->
     0 < excess_bytes s
     /\ exists since, as_over_since_unix i = Some since /\ since + GRACE_SECONDS <= as_now_unix i)
  /\ (may_be_reclaimed (sd_state s) = true <->
     0 < excess_bytes s
     /\ exists since, as_over_since_unix i = Some since /\ since + DEFAULT_AFTER_SECONDS <= as_now_unix i)
  /\ (needs_attention (sd_state s) = true <-> 0 < excess_bytes s)
  /\ sd_effective_bytes s <= sd_pledged_bytes s.
Proof.
  unfold assess_member. cbn [sd_state sd_effective_bytes sd_pledged_bytes]. unfold excess_bytes.
  cbn [sd_usage_bytes sd_entitlement_bytes].
  pose proof (foldl_sat_add_le effective_bytes dc_pledged_bytes (as_devices i) 0 0
    effective_le_pledged ltac:(done)) as Heff.
  set (ent := if _ <? JOINING_PERIOD_SECONDS then _ else _). clearbody ent.
  set (joining := sat_sub _ _ <? _). set (earned := room_earned _ _). clearbody joining earned.
  unfold sat_sub. destruct (as_usage_bytes i <=? ent) eqn:Hu; nbool.
  { destruct (joining && _); (split; [|split; [|split; [|exact Heff]]]);
      (split; [done|intros; destruct_and?; lia]). }
  destruct (as_over_since_unix i) as [since|].
  2:{ split; [|split; [|split; [|exact Heff]]]; (split; [|try by intros (_ & ? & ? & _)]);
        [done|done|intros _; lia|done]. }
  assert (Hpos : forall D, 0 < D -> (0 < as_usage_bytes i - ent
      /\ exists since', Some since = Some since' /\ since' + D <= as_now_unix i)
    <-> (as_now_unix i - since <? D) = false).
  { intros D HD. rewrite N.ltb_ge. split.
    - intros (_ & ? & [= <-] & H). lia.
    - intros H. split; [lia|]. exists since. split; [done|lia]. }
  rewrite !Hpos by done.
  assert (HGD : (as_now_unix i - since <? DEFAULT_AFTER_SECONDS) = false ->
    (as_now_unix i - since <? GRACE_SECONDS) = false).
  { rewrite !N.ltb_ge. unfold DEFAULT_AFTER_SECONDS, GRACE_SECONDS. lia. }
  destruct (as_now_unix i - since <? GRACE_SECONDS); [destruct (_ <? DEFAULT_AFTER_SECONDS);
    [|by specialize (HGD eq_refl)]|destruct (_ <? DEFAULT_AFTER_SECONDS)];
    (split; [done|split; [done|split; [|exact Heff]]]; split; [intros _; lia|done]).
Qed.
