(* ===== verification/Reach.v ===== *)
(** * Reach: the addresses machines publish

    Models the decisions of [crates/itsanas-tls/src/reach.rs] about addresses:
    which ones only their own network can dial, and what a comma-separated
    announcement lists; and [LocalNets::holds] of
    [crates/itsanas-discover/src/interfaces.rs].  The text of a socket address is
    read as [std::net] reads it ([SocketAddr::from_str]). *)

From S2P Require Import Prelude Ids Network Accounting.

(** ** [str] *)

(** [split(',')] and the like. *)
Fixpoint split_on (sep : ascii) (word l : list ascii) : list (list ascii) :=
  match l with
  | [] => [word]
  | c :: l => if decide (c = sep) then word :: split_on sep [] l else split_on sep (word ++ [c]) l
  end.

(** ** [std::net::SocketAddr::from_str] *)

Definition to_digit (radix : N) (c : ascii) : option N :=
  let n := N_of_ascii c in
  let d := if (48 <=? n) && (n <=? 57) then Some (n - 48)
           else if (97 <=? n) && (n <=? 102) then Some (n - 87)
           else if (65 <=? n) && (n <=? 70) then Some (n - 55)
           else None in
  match d with Some d => if d <? radix then Some d else None | None => None end.

(** The digits in front, and what follows. *)
Fixpoint digits_of (radix : N) (l : list ascii) : list N * list ascii :=
  match l with
  | c :: rest => match to_digit radix c with
                 | Some d => let '(ds, rest) := digits_of radix rest in (d :: ds, rest)
                 | None => ([], l)
                 end
  | [] => ([], [])
  end.

Definition read_number (radix max : N) (max_digits : option nat) (zero_prefix : bool) (l : list ascii)
  : option (N * list ascii) :=
  let '(ds, rest) := digits_of radix l in
  let value := foldl (fun v d => v * radix + d) 0 ds in
  let too_long := match max_digits with Some m => (m <? length ds)%nat | None => false end in
  let leading := negb zero_prefix && bool_decide (head ds = Some 0) && (1 <? length ds)%nat in
  if bool_decide (ds = []) || too_long || leading || (max <? value) then None else Some (value, rest).

Definition read_char (c : ascii) (l : list ascii) : option (list ascii) :=
  match l with d :: rest => if decide (d = c) then Some rest else None | [] => None end.

(** [read_separator] *)
Definition after_separator (sep : ascii) (index : nat) (l : list ascii) : option (list ascii) :=
  match index with O => Some l | S _ => read_char sep l end.

Fixpoint read_octets (index n : nat) (l : list ascii) : option (list N * list ascii) :=
  match n with
  | O => Some ([], l)
  | S n =>
      l ← after_separator "." index l;
      '(o, l) ← read_number 10 255 (Some 3%nat) false l;
      '(os, l) ← read_octets (S index) n l;
      Some (o :: os, l)
  end.

Definition read_ipv4 (l : list ascii) : option (Ipv4Addr * list ascii) :=
  match read_octets 0 4 l with
  | Some ([a; b; c; d], l) => Some (mkV4 a b c d, l)
  | _ => None
  end.

(** Up to [limit] groups, and whether the last two came as an IPv4 address. *)
Fixpoint read_groups (index limit : nat) (l : list ascii) : list N * bool * list ascii :=
  match limit with
  | O => ([], false, l)
  | S limit' =>
      let embedded := if (0 <? limit')%nat then after_separator ":" index l ≫= read_ipv4 else None in
      match embedded with
      | Some (ip, l) => ([v4a ip * 256 + v4b ip; v4c ip * 256 + v4d ip], true, l)
      | None =>
          match after_separator ":" index l ≫= read_number 16 65535 (Some 4%nat) true with
          | Some (g, l) => let '(gs, v4, l) := read_groups (S index) limit' l in (g :: gs, v4, l)
          | None => ([], false, l)
          end
      end
  end.

Definition octets_of (groups : list N) : list N := groups ≫= (fun g => [g / 256; g mod 256]).

Definition read_ipv6 (l : list ascii) : option (list N * list ascii) :=
  let '(front, front_v4, l) := read_groups 0 8 l in
  if (length front =? 8)%nat then Some (octets_of front, l)
  else if front_v4 then None
  else
    l ← read_char ":" l;
    l ← read_char ":" l;
    let '(back, _, l) := read_groups 0 (8 - S (length front)) l in
    Some (octets_of (front ++ replicate (8 - length front - length back) 0 ++ back), l).

Definition read_port (l : list ascii) : option (N * list ascii) :=
  l ← read_char ":" l; read_number 10 65535 None true l.

(** An optional [%scope], which the address keeps and nothing here reads. *)
Definition skip_scope (l : list ascii) : list ascii :=
  match read_char "%" l ≫= read_number 10 4294967295 None true with Some (_, l) => l | None => l end.

Definition read_socket (l : list ascii) : option ((IpAddr * N) * list ascii) :=
  match ('(ip, l) ← read_ipv4 l; '(port, l) ← read_port l; Some ((V4 ip, port), l)) with
  | Some found => Some found
  | None =>
      l ← read_char "[" l;
      '(octets, l) ← read_ipv6 l;
      l ← read_char "]" (skip_scope l);
      '(port, l) ← read_port l;
      Some ((V6 octets, port), l)
  end.

Definition socket_of (l : list ascii) : option (IpAddr * N) :=
  match read_socket l with Some (a, []) => Some a | _ => None end.

(** ** reach.rs *)

Definition RELAY_PREFIX : string := "relay:".

Definition is_private_ip4 (v4 : Ipv4Addr) : bool :=
  is_private v4 || is_loopback4 v4 || is_link_local4 v4 || is_unspecified4 v4 || is_broadcast v4
  || ((v4a v4 =? 100) && (64 <=? v4b v4) && (v4b v4 <? 128)).

Definition is_private_ip (ip : IpAddr) : bool :=
  match ip with
  | V4 v4 => is_private_ip4 v4
  | V6 o => match to_ipv4_mapped o with
            | Some v4 => is_private_ip4 v4
            | None => is_loopback6 o || is_unspecified6 o || (N.land (octet o 0) 0xfe =? 0xfc)
                      || ((octet o 0 =? 0xfe) && (N.land (octet o 1) 0xc0 =? 0x80))
            end
  end.

(** The entries of an announcement. *)
Definition entries_of (address : string) : list (list ascii) :=
  split_on "," [] (String.list_ascii_of_string address).

Definition is_private_address (address : string) : bool :=
  if String.prefix RELAY_PREFIX address then true
  else existsb (fun s => is_private_ip s.1) (omap (fun entry => socket_of (trim entry)) (entries_of address)).

(** Every entry parsed, or nothing: [collect().unwrap_or_default()]. *)
Definition sockets_or_none (address : string) : list (IpAddr * N) :=
  default [] (mapM (fun entry => socket_of (trim entry)) (entries_of address)).

Definition only_rfc1918 (address : string) : bool :=
  let entries := sockets_or_none address in
  negb (bool_decide (entries = []))
  && forallb (fun s => match s.1 with V4 v4 => is_private v4 | V6 _ => false end) entries.

(** ** interfaces.rs *)

Definition is_loopback (ip : IpAddr) : bool := match ip with V4 v4 => is_loopback4 v4 | V6 o => is_loopback6 o end.
Definition is_unspecified (ip : IpAddr) : bool := match ip with V4 v4 => is_unspecified4 v4 | V6 o => is_unspecified6 o end.

#[export] Instance Ipv4Addr_eq_dec : EqDecision Ipv4Addr.
Proof. solve_decision. Defined.
#[export] Instance IpAddr_eq_dec : EqDecision IpAddr.
Proof. solve_decision. Defined.

(** [nets] are the addresses of this machine's adapters. *)
Definition holds (nets : list IpAddr) (ip : IpAddr) : bool :=
  is_loopback ip || is_unspecified ip || bool_decide (ip ∈ nets).

(** [contact.rs] *)
Definition is_this_listener (address : string) (port : N) (here : list IpAddr) (published : list string) : bool :=
  if bool_decide (address ∈ published) then true
  else
    let entries := sockets_or_none address in
    negb (bool_decide (entries = [])) && forallb (fun s => (s.2 =? port) && holds here s.1) entries.

Example home_address : is_private_address "192.168.1.142:9797" = true.
Proof. vm_compute. reflexivity. Qed.
Example listed_addresses :
  sockets_or_none "203.0.113.7:9797, [2a01:e0a::5]:9797"
  = [(V4 (mkV4 203 0 113 7), 9797); (V6 ([0x2a; 0x01; 0x0e; 0x0a] ++ replicate 11 0 ++ [5]), 9797)].
Proof. vm_compute. reflexivity. Qed.
Example leading_zero_is_refused : socket_of (String.list_ascii_of_string "192.168.01.1:80") = None.
Proof. vm_compute. reflexivity. Qed.
Example mapped_is_private : is_private_address "[::ffff:10.0.0.1]:80" = true.
Proof. vm_compute. reflexivity. Qed.
Example a_name_is_not_private : is_private_address "nas.example.org:9797" = false /\ only_rfc1918 "nas.example.org:9797" = false.
Proof. split; vm_compute; reflexivity. Qed.

(** Only a private network's own addresses are left to a beacon: what
    [only_rfc1918] says of an address, [is_private_address] says too. *)
Lemma rfc1918_is_private address : only_rfc1918 address = true -> is_private_address address = true.
Proof.
  unfold only_rfc1918, is_private_address, sockets_or_none. destruct (String.prefix _ _); [done|].
  rewrite andb_true_iff, negb_true_iff, bool_decide_eq_false. intros [Hne Hall].
  destruct (mapM _ _) as [entries|] eqn:E; [|done]. cbn in Hne, Hall.
  assert (Eo : omap (fun entry => socket_of (trim entry)) (entries_of address) = entries).
  { apply mapM_Some in E. induction E as [|e s es ss He Hes IH]; [done|]. cbn. rewrite He. destruct ss; [by inversion Hes|].
    f_equal. apply IH; [done|]. cbn in Hall. by apply andb_true_iff in Hall as [_ ?]. }
  rewrite Eo. destruct entries as [|[ip port] es]; [done|]. cbn in Hall |- *. apply andb_true_iff in Hall as [Hip _].
  destruct ip as [v4|]; [|done]. cbn. unfold is_private_ip4. by rewrite Hip.
Qed.
