(* ===== verification/Limits.v ===== *)
(** * Limits: how many connections a listener serves, and from whom

    Models [crates/itsanas-tls/src/limits.rs]: the caps both listeners check
    before a thread is spawned, and the slots that give everything back.  Each
    call takes the lock once and is one step; a thread may panic at any point,
    which drops its slot. *)

From S2P Require Import Prelude Version Ids Network Reach.

#[export] Instance Ipv4Addr_countable : Countable Ipv4Addr :=
  inj_countable' (fun a => (v4a a, v4b a, v4c a, v4d a)) (fun '(a, b, c, d) => mkV4 a b c d) ltac:(by intros []).
#[export] Instance IpAddr_countable : Countable IpAddr :=
  inj_countable' (fun a => match a with V4 x => inl x | V6 x => inr x end)
    (fun x => match x with inl x => V4 x | inr x => V6 x end) ltac:(by intros []).

Record Caps := mkCaps { total : N; per_address : N; per_device : N }.
Record Tally := mkTally { live : N; by_address : gmap IpAddr N; by_device : gmap DeviceId N }.
Definition tally_default : Tally := mkTally 0 ∅ ∅.

Record Slot := mkSlot { sl_address : IpAddr; sl_device : option DeviceId }.

(** IPv6 by its /64, an IPv4 address carried in IPv6 as itself. *)
Definition counted_as (ip : IpAddr) : IpAddr :=
  match ip with
  | V4 v4 => V4 v4
  | V6 o => match to_ipv4_mapped o with Some v4 => V4 v4 | None => V6 (take 8 o ++ replicate 8 0) end
  end.

Definition admit_slot (caps : Caps) (address : IpAddr) (t : Tally) : option Slot * Tally :=
  let address := counted_as address in
  let from_here := default 0 (by_address t !! address) in
  if (total caps <=? live t) || (per_address caps <=? from_here) then (None, t)
  else (Some (mkSlot address None), mkTally (live t + 1) (<[address := from_here + 1]> (by_address t)) (by_device t)).

Definition claim_device (caps : Caps) (device : DeviceId) (s : Slot) (t : Tally) : bool * Slot * Tally :=
  match sl_device s with
  | Some d => (bool_decide (d = device), s, t)
  | None =>
      let held := default 0 (by_device t !! device) in
      if per_device caps <=? held then (false, s, t)
      else (true, mkSlot (sl_address s) (Some device),
            mkTally (live t) (by_address t) (<[device := held + 1]> (by_device t)))
  end.

Definition release {K} `{Countable K} (key : K) (counts : gmap K N) : gmap K N :=
  match counts !! key with
  | Some count => if count - 1 =? 0 then delete key counts else <[key := count - 1]> counts
  | None => counts
  end.

Definition drop_slot (s : Slot) (t : Tally) : Tally :=
  mkTally (live t - 1) (release (sl_address s) (by_address t))
    (match sl_device s with Some d => release d (by_device t) | None => by_device t end).

(** ** The listener's threads *)

Record Listener := mkListener { tally : Tally; slots : list Slot }.

Inductive listener_step (caps : Caps) : Listener -> Listener -> Prop :=
| ls_admitted l address s t :
    admit_slot caps address (tally l) = (Some s, t) -> listener_step caps l (mkListener t (s :: slots l))
| ls_turned_away l address t :
    admit_slot caps address (tally l) = (None, t) -> listener_step caps l (mkListener t (slots l))
| ls_claimed l device s l1 l2 ok s' t :
    slots l = l1 ++ s :: l2 -> claim_device caps device s (tally l) = (ok, s', t) ->
    listener_step caps l (mkListener t (l1 ++ s' :: l2))
| ls_dropped l s l1 l2 :
    slots l = l1 ++ s :: l2 -> listener_step caps l (mkListener (drop_slot s (tally l)) (l1 ++ l2)).

Definition listener_start : Listener := mkListener tally_default [].

(** ** The counts are the slots *)

Definition from_address (a : IpAddr) (l : list Slot) : N := N.of_nat (length (filter (fun s => sl_address s = a) l)).
Definition of_device (d : DeviceId) (l : list Slot) : N := N.of_nat (length (filter (fun s => sl_device s = Some d) l)).

(** A table that has a row exactly for the keys counted. *)
Definition counts {K} `{Countable K} (m : gmap K N) (f : K -> N) : Prop :=
  forall k, m !! k = if f k =? 0 then None else Some (f k).

Record listener_ok (caps : Caps) (l : Listener) : Prop := mkListenerOk {
  li_live : live (tally l) = N.of_nat (length (slots l));
  li_address : counts (by_address (tally l)) (fun a => from_address a (slots l));
  li_device : counts (by_device (tally l)) (fun d => of_device d (slots l));
  li_total : live (tally l) <= total caps;
  li_per_address : forall a, from_address a (slots l) <= per_address caps;
  li_per_device : forall d, of_device d (slots l) <= per_device caps;
}.

Lemma counts_default {K} `{Countable K} (m : gmap K N) f k : counts m f -> default 0 (m !! k) = f k.
Proof. intros Hc. rewrite Hc. destruct (N.eqb_spec (f k) 0); cbn; [done|done]. Qed.

Lemma counts_more {K} `{Countable K} (m : gmap K N) f g k :
  counts m f -> g k = f k + 1 -> (forall x, x <> k -> g x = f x) -> counts (<[k := f k + 1]> m) g.
Proof.
  intros Hc Hk Hx x. destruct (decide (x = k)) as [->|Hn].
  - rewrite lookup_insert_eq, Hk. by destruct (N.eqb_spec (f k + 1) 0); [lia|].
  - rewrite lookup_insert_ne by done. by rewrite Hc, Hx.
Qed.

Lemma counts_less {K} `{Countable K} (m : gmap K N) f g k :
  counts m f -> f k = g k + 1 -> (forall x, x <> k -> g x = f x) -> counts (release k m) g.
Proof.
  intros Hc Hk Hx x. unfold release. rewrite Hc, Hk. destruct (N.eqb_spec (g k + 1) 0) as [|_]; [lia|]. cbn beta iota.
  replace (g k + 1 - 1) with (g k) by lia. destruct (decide (x = k)) as [->|Hn].
  - destruct (g k =? 0); [by rewrite lookup_delete_eq|by rewrite lookup_insert_eq].
  - rewrite (Hx x Hn). rewrite <- (Hc x). destruct (_ =? 0); [by rewrite lookup_delete_ne|by rewrite lookup_insert_ne].
Qed.

Lemma counts_same {K} `{Countable K} (m : gmap K N) f g : counts m f -> (forall x, g x = f x) -> counts m g.
Proof. intros Hc Hx x. by rewrite Hx. Qed.

(** A slot more or less, wherever it is. *)
Lemma from_address_mid a l1 s l2 :
  from_address a (l1 ++ s :: l2) = (if decide (sl_address s = a) then 1 else 0) + from_address a (l1 ++ l2).
Proof. unfold from_address. rewrite !filter_app, !length_app, filter_cons. case_decide; cbn [length]; lia. Qed.
Lemma of_device_mid d l1 s l2 :
  of_device d (l1 ++ s :: l2) = (if decide (sl_device s = Some d) then 1 else 0) + of_device d (l1 ++ l2).
Proof. unfold of_device. rewrite !filter_app, !length_app, filter_cons. case_decide; cbn [length]; lia. Qed.

Lemma admitted_ok caps l address s t :
  listener_ok caps l -> admit_slot caps address (tally l) = (Some s, t) -> listener_ok caps (mkListener t (s :: slots l)).
Proof.
  intros [L A D T PA PD]. unfold admit_slot. set (a := counted_as address). rewrite (counts_default _ _ a A).
  destruct (_ || _) eqn:E; [done|]. intros [= <- <-]. apply orb_false_iff in E as [E1 E2]. apply N.leb_gt in E1, E2.
  assert (Hc : forall x, from_address x (mkSlot a None :: slots l) = (if decide (a = x) then 1 else 0) + from_address x (slots l))
    by (intros x; exact (from_address_mid x [] (mkSlot a None) (slots l))).
  assert (Hd : forall x, of_device x (mkSlot a None :: slots l) = of_device x (slots l))
    by (intros x; etransitivity; [exact (of_device_mid x [] (mkSlot a None) (slots l))|by rewrite decide_False]).
  split; cbn [tally slots live by_address by_device].
  - rewrite L. cbn. lia.
  - apply (counts_more (by_address (tally l)) (fun a => from_address a (slots l))); [done| |].
    + rewrite Hc, decide_True by done. lia.
    + intros x Hx. rewrite Hc, decide_False by congruence. lia.
  - by apply (counts_same _ _ _ D).
  - lia.
  - intros x. rewrite Hc. specialize (PA x). case_decide as E; [subst x; lia|lia].
  - intros x. by rewrite Hd.
Qed.

Lemma claimed_ok caps l device s l1 l2 ok s' t :
  listener_ok caps l -> slots l = l1 ++ s :: l2 -> claim_device caps device s (tally l) = (ok, s', t) ->
  listener_ok caps (mkListener t (l1 ++ s' :: l2)).
Proof.
  intros Hl Es. pose proof Hl as [L A D T PA PD]. unfold claim_device.
  assert (Hsame : listener_ok caps (mkListener (tally l) (l1 ++ s :: l2))) by (rewrite <- Es; by destruct l).
  destruct (sl_device s) as [d|] eqn:Ed; [by intros [= <- <- <-]|]. rewrite (counts_default _ _ device D).
  destruct (N.leb_spec (per_device caps) (of_device device (slots l))) as [|Hlt]; intros [= <- <- <-]; [done|].
  assert (Ha : forall x, from_address x (l1 ++ mkSlot (sl_address s) (Some device) :: l2) = from_address x (slots l))
    by (intros x; by rewrite Es, !from_address_mid).
  assert (Hd : forall x, of_device x (l1 ++ mkSlot (sl_address s) (Some device) :: l2)
    = (if decide (x = device) then 1 else 0) + of_device x (slots l)).
  { intros x. rewrite Es, !of_device_mid. cbn. rewrite Ed, (decide_False (P := None = Some x)) by done.
    destruct (decide (x = device)) as [->|]; [by rewrite decide_True|by rewrite decide_False by congruence]. }
  split; cbn [tally slots live by_address by_device].
  - rewrite L, Es. by rewrite !length_app.
  - apply (counts_same _ _ _ A). done.
  - apply (counts_more (by_device (tally l)) (fun d => of_device d (slots l))); [done| |].
    + rewrite Hd, decide_True by done. lia.
    + intros x Hx. by rewrite Hd, decide_False.
  - done.
  - intros x. by rewrite Ha.
  - intros x. rewrite Hd. specialize (PD x). case_decide as E; [subst x; lia|lia].
Qed.

Lemma dropped_ok caps l s l1 l2 :
  listener_ok caps l -> slots l = l1 ++ s :: l2 -> listener_ok caps (mkListener (drop_slot s (tally l)) (l1 ++ l2)).
Proof.
  intros [L A D T PA PD] Es.
  assert (Ha : forall x, from_address x (slots l) = (if decide (sl_address s = x) then 1 else 0) + from_address x (l1 ++ l2))
    by (intros x; by rewrite Es, from_address_mid).
  assert (Hd : forall x, of_device x (slots l) = (if decide (sl_device s = Some x) then 1 else 0) + of_device x (l1 ++ l2))
    by (intros x; by rewrite Es, of_device_mid).
  split; cbn [tally slots live by_address by_device drop_slot].
  - rewrite L, Es, !length_app. cbn. lia.
  - apply (counts_less _ _ _ _ A).
    + rewrite Ha, decide_True by done. lia.
    + intros x Hx. by rewrite Ha, decide_False by congruence.
  - destruct (sl_device s) as [d|].
    + apply (counts_less _ _ _ _ D).
      * rewrite Hd, decide_True by done. lia.
      * intros x Hx. by rewrite Hd, decide_False by congruence.
    + apply (counts_same _ _ _ D). intros x. by rewrite Hd, decide_False.
  - rewrite L in *. lia.
  - intros x. specialize (PA x). rewrite Ha in PA. lia.
  - intros x. specialize (PD x). rewrite Hd in PD. lia.
Qed.

Lemma listener_step_ok caps l l' : listener_step caps l l' -> listener_ok caps l -> listener_ok caps l'.
Proof.
  destruct 1 as [l address s t E|l address t E|l device s l1 l2 ok s' t Es E|l s l1 l2 Es]; intros Hl.
  - by eapply admitted_ok.
  - unfold admit_slot in E. destruct (_ || _); [|done]. injection E as <-. by destruct l.
  - by eapply claimed_ok.
  - by apply dropped_ok.
Qed.

(** Over any run of connections arriving, proving their device and ending, in
    any order and however they end: no more than [total] are served at once, no
    more than [per_address] from one address -- an IPv6 one by its /64 -- and
    [per_device] of one device; the counts are exactly the slots held; and when
    the last is dropped nothing is left counted against anybody. *)
Theorem every_slot_is_given_back caps l :
  rtc (listener_step caps) listener_start l ->
  live (tally l) = N.of_nat (length (slots l)) /\ live (tally l) <= total caps
  /\ (forall a, default 0 (by_address (tally l) !! a) = from_address a (slots l) /\ from_address a (slots l) <= per_address caps)
  /\ (forall d, default 0 (by_device (tally l) !! d) = of_device d (slots l) /\ of_device d (slots l) <= per_device caps)
  /\ (slots l = [] -> tally l = tally_default).
Proof.
  intros Hr. assert (Hl : listener_ok caps l).
  { assert (H0 : listener_ok caps listener_start) by (split; [done| | |apply N.le_0_l|intros x; apply N.le_0_l|intros x; apply N.le_0_l]; intros x; apply lookup_empty).
    revert H0. induction Hr as [|x y z Hs _ IH]; intros H0; [done|]. by apply IH, (listener_step_ok _ x). }
  destruct Hl as [L A D T PA PD]. split_and!; try done.
  - intros a. split; [by rewrite (counts_default _ _ _ A)|done].
  - intros d. split; [by rewrite (counts_default _ _ _ D)|done].
  - intros Es. rewrite Es in *. destruct l as [[n ma md] ss]. cbn in *. subst. unfold tally_default. f_equal.
    + apply map_empty. intros a. by rewrite A.
    + apply map_empty. intros d. by rewrite D.
Qed.

(** Addresses of one /64 are one caller, and an IPv4 caller is one whichever way it arrived. *)
Lemma counted_once o o' :
  to_ipv4_mapped o = None -> to_ipv4_mapped o' = None -> take 8 o = take 8 o' -> counted_as (V6 o) = counted_as (V6 o').
Proof. intros E E' Ht. unfold counted_as. by rewrite E, E', Ht. Qed.

Definition home_caps : Caps := mkCaps 2 1 1.
Definition home : IpAddr := V6 ([0x2a; 1; 0xe; 0xa; 0; 0; 0; 1] ++ replicate 7 0 ++ [5]).
Definition home_too : IpAddr := V6 ([0x2a; 1; 0xe; 0xa; 0; 0; 0; 1] ++ replicate 7 7 ++ [9]).
Definition one_caller : Listener :=
  mkListener (admit_slot home_caps home tally_default).2 [mkSlot (counted_as home) None].

Lemma every_slot_is_given_back_witness :
  live (tally one_caller) <= total home_caps /\ (admit_slot home_caps home_too (tally one_caller)).1 = None.
Proof.
  split; [|vm_compute; reflexivity].
  refine (proj1 (proj2 (every_slot_is_given_back home_caps one_caller _))).
  apply rtc_once. apply (ls_admitted home_caps listener_start home). vm_compute. reflexivity.
Defined.
