(* ===== verification/Beacon.v ===== *)
(** * Beacon: what machines announce on a local network, and who is remembered

    Models [crates/itsanas-discover/src/beacon.rs] -- the fixed 147 bytes of an
    announcement, sealed and parsed -- and [neighbours.rs], the bounded table of
    who was heard, with the errors of [error.rs].  The nonce of a beacon and the
    clocks are arguments. *)

From S2P Require Import Prelude Version Ids Network Crypto Reach.

(** ** The packet *)

Definition BEACON_DOMAIN : string := "itsanas v1 local discovery beacon".
Definition CTX_USER_LAN_TAG : string := "itsanas v1 user local discovery tag key".
Definition NONCE_LEN : nat := 16.
Definition MAC_LEN : nat := 16.
Definition MAGIC : list N := [73; 84; 83; 97; 78; 65; 83; 100].
Definition BEACON_VERSION : N := 2.
Definition OLDEST_READ_VERSION : N := 1.
Definition BEACON_LEN : nat := 147.
Definition SIGNED_LEN : nat := BEACON_LEN - 64.
Definition OFF_VERSION : nat := 8.
Definition OFF_OWNER : nat := 9.
Definition OFF_MAC : nat := OFF_OWNER + NONCE_LEN.
Definition OFF_DEVICE : nat := OFF_OWNER + ID_LEN.
Definition OFF_PORT : nat := OFF_DEVICE + ID_LEN.
Definition OFF_TIME : nat := OFF_PORT + 2.
Definition OFF_SIGNATURE : nat := OFF_TIME + 8.

Inductive DiscoverError :=
| WrongLength (got expected : nat)
| NotOurs
| UnknownVersion (got : N)
| BadBeaconSignature
| NoPort.

Definition is_foreign_traffic (e : DiscoverError) : bool :=
  match e with NotOurs | WrongLength _ _ => true | _ => false end.

Inductive OwnerTag :=
| Keyed (nonce mac : list N)
| Legacy (tag : list N).

Definition is_legacy (t : OwnerTag) : bool := match t with Legacy _ => true | Keyed _ _ => false end.

Record Announcement := mkAnnouncement { an_owner_tag : OwnerTag; an_device : DeviceId; an_port : N; an_sent_unix : N }.

(** [packet[a..b]] *)
Definition slice (a b : nat) (l : list N) : list N := take (b - a) (drop a l).

(** [fold(0, |acc, (a, b)| acc | (a ^ b)) == 0] *)
Definition same_bytes (a b : list N) : bool :=
  foldl (fun acc p => N.lor acc (N.lxor p.1 p.2)) 0 (zip a b) =? 0.

Section beacon.
Context `{!Primitives}.

(** [HouseholdKey::of] *)
Definition household_of (u : UserKeys) : list N := kdf_derive CTX_USER_LAN_TAG (master u).

Definition mac (household nonce : list N) (device : DeviceId) : list N :=
  take MAC_LEN (blake3_keyed_hash household (nonce ++ as_bytes device)).

Definition is_mine (household : list N) (device : DeviceId) (t : OwnerTag) : bool :=
  match t with
  | Keyed nonce m => same_bytes (mac household nonce device) m
  | Legacy _ => false
  end.

Definition signed_part (version : N) (owner : list N) (device : DeviceId) (port now_unix : N) : list N :=
  MAGIC ++ [version] ++ owner ++ as_bytes device ++ be_bytes 2 port ++ be_bytes 8 now_unix.

Definition sign (keys : DeviceKeys) (version : N) (owner : list N) (port now_unix : N) : list N :=
  let signed := signed_part version owner (device_id keys) port now_unix in
  signed ++ device_sign keys BEACON_DOMAIN signed.

Definition seal_with_nonce (keys : DeviceKeys) (household nonce : list N) (port now_unix : N) : list N :=
  sign keys BEACON_VERSION (nonce ++ mac household nonce (device_id keys)) port now_unix.

Definition parse (packet : list N) : result DiscoverError Announcement :=
  if negb (length packet =? BEACON_LEN)%nat then Err (WrongLength (length packet) BEACON_LEN)
  else if negb (bool_decide (slice 0 OFF_VERSION packet = MAGIC)) then Err NotOurs
  else
    let version := nth OFF_VERSION packet 0 in
    if negb ((OLDEST_READ_VERSION <=? version) && (version <=? BEACON_VERSION)) then Err (UnknownVersion version)
    else
      let device := slice OFF_DEVICE OFF_PORT packet in
      match verify device BEACON_DOMAIN (take SIGNED_LEN packet) (drop OFF_SIGNATURE packet) with
      | Err _ => Err BadBeaconSignature
      | Ok _ =>
          let port := of_be_bytes (slice OFF_PORT OFF_TIME packet) in
          if port =? 0 then Err NoPort
          else
            let owner_tag := if version =? 1 then Legacy (slice OFF_OWNER OFF_DEVICE packet)
                             else Keyed (slice OFF_OWNER OFF_MAC packet) (slice OFF_MAC OFF_DEVICE packet) in
            Ok (mkAnnouncement owner_tag (of_be_bytes device) port (of_be_bytes (slice OFF_TIME OFF_SIGNATURE packet)))
      end.

End beacon.

(** ** The table *)

Definition DEFAULT_CAPACITY : nat := 128.
Definition EXPIRY : N := 30 * 6.

Record Neighbour := mkNeighbour {
  nb_owner_tag : OwnerTag;
  nb_device : DeviceId;
  nb_address : IpAddr * N;
  nb_sent_unix : N;
  nb_heard_unix : N;
  nb_via_virtual : bool;
}.

Inductive Heard := New | Moved (from : IpAddr * N) | Refreshed | Ignored.

Record Neighbours := mkNeighbours { nb_capacity : nat; entries : gmap DeviceId Neighbour; protected : gset DeviceId }.

Definition neighbours_new (capacity : nat) : Neighbours := mkNeighbours (Nat.max capacity 1) ∅ ∅.

Definition protect (device : DeviceId) (t : Neighbours) : Neighbours :=
  mkNeighbours (nb_capacity t) (entries t) ({[device]} ∪ protected t).

(** [min_by_key(|n| (n.heard_unix, n.device))] *)
Definition heard_before (a b : Neighbour) : bool :=
  (nb_heard_unix a <? nb_heard_unix b)
  || ((nb_heard_unix a =? nb_heard_unix b) && (nb_device a <=? nb_device b)).
Definition least_heard (l : list Neighbour) : option Neighbour :=
  foldl (fun acc n => match acc with Some m => if heard_before m n then Some m else Some n | None => Some n end) None l.

Definition victim (t : Neighbours) : option DeviceId :=
  nb_device <$> least_heard (filter (fun n => nb_device n ∉ protected t) (btree_iter (entries t)).*2).

Definition evict_one (t : Neighbours) : bool * Neighbours :=
  match victim t with
  | Some d => (true, mkNeighbours (nb_capacity t) (delete d (entries t)) (protected t))
  | None => (false, t)
  end.

Definition record_via (a : Announcement) (source : IpAddr) (now : N) (via_virtual : bool) (t : Neighbours)
  : Heard * Neighbours :=
  let address := (source, an_port a) in
  let fresh tag := mkNeighbour tag (an_device a) address (an_sent_unix a) now via_virtual in
  let put tag m := mkNeighbours (nb_capacity t) (<[an_device a := fresh tag]> m) (protected t) in
  match entries t !! an_device a with
  | Some existing =>
      let real_and_fresh := negb (nb_via_virtual existing) && (now - nb_heard_unix existing <=? EXPIRY) in
      if via_virtual && negb (bool_decide (nb_address existing = address)) && real_and_fresh then (Refreshed, t)
      else
        let tag := if is_legacy (an_owner_tag a) && negb (is_legacy (nb_owner_tag existing))
                   then nb_owner_tag existing else an_owner_tag a in
        (if bool_decide (nb_address existing = address) then Refreshed else Moved (nb_address existing),
         put tag (entries t))
  | None =>
      if (nb_capacity t <=? size (entries t))%nat then
        match evict_one t with
        | (false, t) => (Ignored, t)
        | (true, t') => (New, put (an_owner_tag a) (entries t'))
        end
      else (New, put (an_owner_tag a) (entries t))
  end.

Definition expire (cutoff : N) (t : Neighbours) : nat * Neighbours :=
  let doomed := filter (fun n => nb_heard_unix n < cutoff /\ nb_device n ∉ protected t) (btree_iter (entries t)).*2 in
  (length doomed, mkNeighbours (nb_capacity t) (foldl (fun m n => delete (nb_device n) m) (entries t) doomed) (protected t)).

Definition dial_order `{!Primitives} (household : list N) (t : Neighbours) : list (DeviceId * (IpAddr * N) * bool) :=
  let all := (btree_iter (entries t)).*2 in
  let mine := filter (fun n => is_mine household (nb_device n) (nb_owner_tag n) = true) all in
  let theirs := filter (fun n => is_mine household (nb_device n) (nb_owner_tag n) = false) all in
  ((fun n => (nb_device n, nb_address n, true)) <$> mine) ++ ((fun n => (nb_device n, nb_address n, false)) <$> theirs).

(** ** The packet round trips *)

Lemma slice_mid a b (l1 l2 l3 : list N) : length l1 = a -> length l2 = (b - a)%nat -> slice a b (l1 ++ l2 ++ l3) = l2.
Proof. intros <- H2. unfold slice. rewrite drop_app_length, <- H2. by rewrite take_app_length. Qed.

Lemma same_bytes_refl l : same_bytes l l = true.
Proof.
  unfold same_bytes. apply N.eqb_eq. assert (H : forall acc, foldl (fun acc p => N.lor acc (N.lxor p.1 p.2)) acc (zip l l) = acc).
  { induction l as [|x l IH]; intros acc; [done|]. cbn [zip zip_with foldl fst snd]. rewrite N.lxor_nilpotent, N.lor_0_r. apply IH. }
  apply H.
Qed.

Lemma lor_folded (l : list (N * N)) acc :
  foldl (fun acc p => N.lor acc (N.lxor p.1 p.2)) acc l = 0 -> acc = 0 /\ Forall (fun p => p.1 = p.2) l.
Proof.
  revert acc. induction l as [|[x y] l IH]; intros acc; cbn; [by split|]. intros E. apply IH in E as [Ha Hl].
  apply N.lor_eq_0_iff in Ha as [Ha Hx]. apply N.lxor_eq in Hx. split; [done|]. constructor; [exact Hx|exact Hl].
Qed.

(** The constant-time comparison is equality, on arrays of one length. *)
Lemma same_bytes_eq a b : length a = length b -> same_bytes a b = true <-> a = b.
Proof.
  intros Hl. split; [|intros ->; apply same_bytes_refl]. unfold same_bytes. intros E%N.eqb_eq.
  apply lor_folded in E as [_ Hf]. revert b Hl Hf. induction a as [|x a IH]; intros [|y b] Hl Hf; try done.
  cbn in Hf. apply Forall_cons in Hf as [Hxy Hf]. cbn in Hxy. subst y. f_equal. apply IH; [by injection Hl|done].
Qed.

Section roundtrip.
Context `{!Primitives, !PrimitiveLaws}.

(** What BLAKE3 and Ed25519 give: 32 bytes and 64. *)
Hypothesis keyed_hash_length : forall k m, length (blake3_keyed_hash k m) = 32%nat.
Hypothesis signature_length : forall (keys : DeviceKeys) m, length (device_sign keys BEACON_DOMAIN m) = 64%nat.

(** A beacon a machine broadcasts is read by every listener as what it says:
    the sender's device, its port, its clock, and a tag the machines of the same
    account recognise as theirs.  And nothing but the device's own signature over
    the bytes before it gets a packet read at all. *)
Theorem beacon_is_read_as_sent keys user nonce port now_unix packet a :
  length nonce = NONCE_LEN -> 0 < port < 2 ^ 16 -> now_unix < 2 ^ 64 ->
  parse (seal_with_nonce keys (household_of user) nonce port now_unix)
    = Ok (mkAnnouncement (Keyed nonce (mac (household_of user) nonce (device_id keys))) (device_id keys) port now_unix)
  /\ is_mine (household_of user) (device_id keys) (Keyed nonce (mac (household_of user) nonce (device_id keys))) = true
  /\ (parse packet = Ok a ->
      verify (slice OFF_DEVICE OFF_PORT packet) BEACON_DOMAIN (take SIGNED_LEN packet) (drop SIGNED_LEN packet) = Ok tt
      /\ an_device a = of_be_bytes (slice OFF_DEVICE OFF_PORT packet) /\ length packet = BEACON_LEN).
Proof.
  intros Hn Hport Hnow. split_and!; [|apply same_bytes_refl|].
  2:{ unfold parse. destruct (Nat.eqb_spec (length packet) BEACON_LEN) as [El|]; cbn [negb]; [|done].
      destruct (negb (bool_decide _)); [done|]. cbn zeta. destruct (negb (_ && _)); [done|].
      destruct (verify _ _ _ _) as [[]|] eqn:Ev; [|done]. destruct (_ =? 0); [done|]. intros [= <-]. by split_and!. }
  unfold seal_with_nonce, sign. set (m := mac _ _ _). set (dev := device_id keys).
  assert (Hm : length m = MAC_LEN) by (unfold m, mac; rewrite length_take, keyed_hash_length; unfold MAC_LEN; lia).
  assert (Hd : length (as_bytes dev) = 32%nat) by apply length_be_bytes.
  assert (Hp2 : length (be_bytes 2 port) = 2%nat) by apply length_be_bytes.
  assert (Ht : length (be_bytes 8 now_unix) = 8%nat) by apply length_be_bytes.
  set (signed := signed_part _ _ _ _ _). set (sig := device_sign _ _ _).
  assert (Hsig : length sig = 64%nat) by apply signature_length.
  assert (Hs : length signed = 83%nat).
  { unfold signed, signed_part. rewrite !length_app, Hd, Hp2, Ht, Hm, Hn. reflexivity. }
  unfold parse. rewrite length_app, Hs, Hsig. cbn [Nat.add Nat.eqb BEACON_LEN negb].
  assert (E0 : slice 0 OFF_VERSION (signed ++ sig) = MAGIC) by done.
  assert (Ev : nth OFF_VERSION (signed ++ sig) 0 = BEACON_VERSION) by done.
  rewrite E0, bool_decide_true by done. rewrite Ev. cbn [negb].
  change (negb ((OLDEST_READ_VERSION <=? BEACON_VERSION) && (BEACON_VERSION <=? BEACON_VERSION))) with false. cbn match.
  assert (Edev : slice OFF_DEVICE OFF_PORT (signed ++ sig) = as_bytes dev).
  { unfold signed, signed_part. rewrite <- !app_assoc. rewrite (app_assoc MAGIC [BEACON_VERSION]), (app_assoc nonce m).
    rewrite (app_assoc (MAGIC ++ [BEACON_VERSION])). apply slice_mid; [|done]. rewrite !length_app, Hm, Hn. reflexivity. }
  assert (Eport : slice OFF_PORT OFF_TIME (signed ++ sig) = be_bytes 2 port).
  { unfold signed, signed_part. rewrite <- !app_assoc. rewrite (app_assoc MAGIC [BEACON_VERSION]), (app_assoc nonce m).
    rewrite (app_assoc (MAGIC ++ [BEACON_VERSION])), (app_assoc _ (as_bytes dev)).
    apply slice_mid; [|done]. rewrite !length_app, Hd, Hm, Hn. reflexivity. }
  assert (Etime : slice OFF_TIME OFF_SIGNATURE (signed ++ sig) = be_bytes 8 now_unix).
  { unfold signed, signed_part. rewrite <- !app_assoc. rewrite (app_assoc MAGIC [BEACON_VERSION]), (app_assoc nonce m).
    rewrite (app_assoc (MAGIC ++ [BEACON_VERSION])), (app_assoc _ (as_bytes dev)), (app_assoc _ (be_bytes 2 port)).
    apply slice_mid; [|done]. rewrite !length_app, Hd, Hp2, Hm, Hn. reflexivity. }
  assert (Enonce : slice OFF_OWNER OFF_MAC (signed ++ sig) = nonce).
  { unfold signed, signed_part. rewrite <- !app_assoc. rewrite (app_assoc MAGIC [BEACON_VERSION]). by apply slice_mid. }
  assert (Emac : slice OFF_MAC OFF_DEVICE (signed ++ sig) = m).
  { unfold signed, signed_part. rewrite <- !app_assoc. rewrite (app_assoc MAGIC [BEACON_VERSION]), (app_assoc _ nonce).
    apply slice_mid; [|done]. rewrite !length_app, Hn. reflexivity. }
  rewrite Edev, Eport, Etime, Enonce, Emac.
  replace (take SIGNED_LEN (signed ++ sig)) with signed by (change SIGNED_LEN with 83%nat; rewrite <- Hs; by rewrite take_app_length).
  replace (drop OFF_SIGNATURE (signed ++ sig)) with sig by (change OFF_SIGNATURE with 83%nat; rewrite <- Hs; by rewrite drop_app_length).
  unfold sig, dev. rewrite verify_device_sign.
  assert (Hbe : forall w n, n < 256 ^ N.of_nat w -> of_be_bytes (be_bytes w n) = n).
  { intros w n Hlt. unfold of_be_bytes, be_bytes. rewrite rev_involutive, of_le_bytes_le_bytes. by apply N.mod_small. }
  rewrite !Hbe by (change (256 ^ N.of_nat 2) with (2 ^ 16) || change (256 ^ N.of_nat 8) with (2 ^ 64); lia).
  destruct (N.eqb_spec port 0) as [|_]; [lia|]. change (BEACON_VERSION =? 1) with false. cbn match.
  unfold device_id, as_bytes. f_equal. f_equal. destruct (verifying_key_id (device_seed keys)) as [Hl Hb].
  pose proof (verifying_key_bytes (device_seed keys)) as Hk. unfold as_bytes in Hk. by rewrite Hk.
Qed.

End roundtrip.

(** ** A flood does not reach the known *)

Inductive LanEvent :=
| Announced (a : Announcement) (source : IpAddr) (now : N) (via_virtual : bool)
| Known (device : DeviceId)
| Aged (cutoff : N).

Definition lan_event (t : Neighbours) (e : LanEvent) : Neighbours :=
  match e with
  | Announced a source now via_virtual => (record_via a source now via_virtual t).2
  | Known device => protect device t
  | Aged cutoff => (expire cutoff t).2
  end.

Definition announces (d : DeviceId) (e : LanEvent) : Prop :=
  match e with Announced a _ _ _ => an_device a = d | _ => False end.

Record table_ok (t : Neighbours) : Prop := mkTableOk {
  tk_keys : forall d n, entries t !! d = Some n -> nb_device n = d;
  tk_size : (size (entries t) <= nb_capacity t)%nat;
}.

Lemma least_heard_elem l n : least_heard l = Some n -> n ∈ l.
Proof.
  unfold least_heard. assert (H : forall acc, foldl (fun acc n => match acc with Some m => if heard_before m n then Some m else Some n
    | None => Some n end) acc l = Some n -> acc = Some n \/ n ∈ l).
  { induction l as [|x l IH]; intros acc; [by left|]. cbn. intros E. apply IH in E as [E|E]; [|right; by right].
    destruct acc as [m|]; [destruct (heard_before m x)|]; [by left|right; injection E as ->; left|right; injection E as ->; left]. }
  intros E. apply H in E as [|]; [done|done].
Qed.

(** Whoever is evicted is in the table and not protected. *)
Lemma victim_spec t d : table_ok t -> victim t = Some d -> is_Some (entries t !! d) /\ d ∉ protected t.
Proof.
  intros [Hk _]. unfold victim. intros (n & E & ->)%fmap_Some. apply least_heard_elem, list_elem_of_filter in E as [Hp Hin].
  apply list_elem_of_fmap in Hin as ([d' n'] & -> & Hin). apply elem_of_btree_iter in Hin. cbn in *.
  rewrite (Hk _ _ Hin) in *. split; [by rewrite Hin|done].
Qed.

Lemma foldl_delete_others (l : list Neighbour) (m : gmap DeviceId Neighbour) d :
  d ∉ nb_device <$> l -> foldl (fun m n => delete (nb_device n) m) m l !! d = m !! d.
Proof.
  revert m. induction l as [|n l IH]; intros m Hd; [done|]. cbn in Hd |- *. apply not_elem_of_cons in Hd as [Hn Hd].
  rewrite IH by done. by rewrite lookup_delete_ne.
Qed.

Lemma foldl_delete_sub (l : list Neighbour) (m : gmap DeviceId Neighbour) :
  foldl (fun m n => delete (nb_device n) m) m l ⊆ m.
Proof. revert m. induction l as [|n l IH]; intros m; [done|]. cbn. etransitivity; [apply IH|apply delete_subseteq]. Qed.

Lemma lan_event_ok t e : table_ok t -> table_ok (lan_event t e) /\ nb_capacity (lan_event t e) = nb_capacity t.
Proof.
  intros Ht. pose proof Ht as [Hk Hs]. destruct e as [a source now via|d|cutoff]; cbn [lan_event]; [|by split|].
  - unfold record_via. destruct (entries t !! an_device a) as [x|] eqn:Ed.
    + destruct (via && _ && _); [by split|]. cbn. split; [|done]. split; cbn.
      * intros d n [[<- <-]|[_ Hd]]%lookup_insert_Some; [done|by apply Hk].
      * by rewrite map_size_insert_Some by eauto.
    + destruct (Nat.leb_spec (nb_capacity t) (size (entries t))) as [Hfull|Hroom].
      * unfold evict_one. destruct (victim t) as [d|] eqn:Ev; [|by split]. cbn. split; [|done].
        destruct (victim_spec _ _ Ht Ev) as [[n Hn] _]. assert (Hne : an_device a <> d) by congruence. split; cbn.
        -- intros x y [[<- <-]|[_ Hd]]%lookup_insert_Some; [done|]. apply lookup_delete_Some in Hd as [_ Hd]. by apply Hk.
        -- rewrite map_size_insert_None by by rewrite lookup_delete_ne. rewrite map_size_delete_Some by eauto.
           assert (0 < size (entries t))%nat by (destruct (decide (entries t = ∅)) as [E|E]; [rewrite E in Hn; done|];
             apply map_size_non_empty_iff in E; lia). lia.
      * cbn. split; [|done]. split; cbn.
        -- intros x y [[<- <-]|[_ Hd]]%lookup_insert_Some; [done|by apply Hk].
        -- rewrite map_size_insert_None by done. lia.
  - unfold expire. cbn. split; [|done]. split; cbn.
    + intros d n Hd. apply Hk. eapply lookup_weaken; [exact Hd|apply foldl_delete_sub].
    + etransitivity; [|exact Hs]. apply map_subseteq_size, foldl_delete_sub.
Qed.

Lemma lan_event_keeps t e d n :
  table_ok t -> d ∈ protected t -> entries t !! d = Some n ->
  exists n', entries (lan_event t e) !! d = Some n' /\ d ∈ protected (lan_event t e)
    /\ (is_legacy (nb_owner_tag n') = true -> is_legacy (nb_owner_tag n) = true) /\ (~ announces d e -> n' = n).
Proof.
  intros Ht Hp Hd. destruct e as [a source now via|x|cutoff]; cbn [lan_event announces].
  - unfold record_via. destruct (decide (an_device a = d)) as [E|E].
    + rewrite E, Hd. destruct (via && _ && _); [exists n; split_and!; done|]. cbn. rewrite lookup_insert_eq.
      eexists. split_and!; [done|done| |done]. cbn.
      destruct (is_legacy (an_owner_tag a)) eqn:El, (is_legacy (nb_owner_tag n)) eqn:En; cbn; congruence.
    + exists n. split_and!; [|by destruct (entries t !! an_device a); [destruct (via && _ && _)|unfold evict_one;
        destruct (_ <=? _)%nat; [destruct (victim t)|]]|done|done].
      destruct (entries t !! an_device a); [destruct (via && _ && _); [done|]; cbn; by rewrite lookup_insert_ne|].
      destruct (_ <=? _)%nat; [|cbn; by rewrite lookup_insert_ne]. unfold evict_one.
      destruct (victim t) as [v|] eqn:Ev; [|done]. destruct (victim_spec _ _ Ht Ev) as [_ Hv]. cbn.
      rewrite lookup_insert_ne by done. rewrite lookup_delete_ne by congruence. done.
  - exists n. cbn. split_and!; [done|set_solver|done|done].
  - exists n. cbn. split_and!; [|done|done|done]. rewrite foldl_delete_others; [done|].
    intros Hin. apply list_elem_of_fmap in Hin as (y & -> & Hy). by apply list_elem_of_filter in Hy as [[_ Hy] _].
Qed.

(** Whatever is announced on a network, by however many made-up devices, and
    whenever entries are aged out: the table never holds more than its capacity,
    and a device known to be real stays in it, its last beacon's entry untouched
    by anything but its own beacons, and never taken back to version 1. *)
Theorem flood_cannot_evict_the_known capacity before after d n :
  let t := foldl lan_event (neighbours_new capacity) before in
  d ∈ protected t -> entries t !! d = Some n ->
  let t' := foldl lan_event t after in
  (size (entries t') <= Nat.max capacity 1)%nat
  /\ exists n', entries t' !! d = Some n'
       /\ (is_legacy (nb_owner_tag n') = true -> is_legacy (nb_owner_tag n) = true)
       /\ (Forall (fun e => ~ announces d e) after -> n' = n).
Proof.
  intros t Hp Hd t'.
  assert (Hrun : forall l t, table_ok t -> table_ok (foldl lan_event t l) /\ nb_capacity (foldl lan_event t l) = nb_capacity t).
  { intros l. induction l as [|e l IH]; intros t0 H0; [done|]. cbn. destruct (lan_event_ok t0 e H0) as [H1 E1].
    destruct (IH _ H1) as [H2 E2]. split; [done|congruence]. }
  assert (Hnew : table_ok (neighbours_new capacity)) by (split; [done|cbn; rewrite map_size_empty; lia]).
  destruct (Hrun before _ Hnew) as [Ht Ec]. fold t in Ht, Ec. destruct (Hrun after _ Ht) as [Ht' Ec']. fold t' in Ht', Ec'.
  split; [etransitivity; [apply (tk_size _ Ht')|]; by rewrite Ec', Ec|]. clear Ec Ec' Ht' Hnew. subst t'. clearbody t. revert t n Ht Hp Hd.
  induction after as [|e l IH]; intros t n Ht Hp Hd; [exists n; done|]. cbn.
  destruct (lan_event_keeps t e d n Ht Hp Hd) as (n1 & Hd1 & Hp1 & Hl1 & Hs1).
  destruct (IH _ n1 (proj1 (lan_event_ok t e Ht)) Hp1 Hd1) as (n2 & Hd2 & Hl2 & Hs2). exists n2. split_and!; [done|auto|].
  intros Hall. apply Forall_cons in Hall as [He Hall]. rewrite Hs2 by done. auto.
Qed.

(** ** A household *)

Module House.

Import Toy.

Definition account : UserKeys := derive [9].
Definition nas_keys : DeviceKeys := mkDeviceKeys [2].
Definition beacon : list N := seal_with_nonce nas_keys (household_of account) (replicate 16 7) 9797 1000.
Definition heard_nas : Announcement :=
  mkAnnouncement (Keyed (replicate 16 7) (mac (household_of account) (replicate 16 7) (device_id nas_keys))) (device_id nas_keys) 9797 1000.
Definition stranger (d : DeviceId) : Announcement := mkAnnouncement (Legacy []) d 1 0.
Definition wifi : IpAddr := V4 (mkV4 192 168 1 20).

Lemma toy_hash : forall k m, length (blake3_keyed_hash k m) = 32%nat.
Proof. intros k m. apply length_be_bytes. Qed.
Lemma toy_signature : forall (keys : DeviceKeys) m, length (device_sign keys BEACON_DOMAIN m) = 64%nat.
Proof.
  intros keys m. unfold device_sign, message_digest. cbn [ed25519_sign blake3_derive_key primitives]. rewrite length_app.
  by rewrite !length_be_bytes.
Qed.

Definition settling : list LanEvent := [Announced heard_nas wifi 1000 false; Known (device_id nas_keys)].
Definition flood : list LanEvent := [Announced (stranger 1) wifi 2000 false; Announced (stranger 2) wifi 2001 false; Aged 3000].
Definition heard_entry : Neighbour := mkNeighbour (an_owner_tag heard_nas) (device_id nas_keys) (wifi, 9797) 1000 1000 false.

Lemma flood_is_others : Forall (fun e => ~ announces (device_id nas_keys) e) flood.
Proof.
  assert (E1 : (1 =? device_id nas_keys) = false) by (vm_compute; reflexivity).
  assert (E2 : (2 =? device_id nas_keys) = false) by (vm_compute; reflexivity). apply N.eqb_neq in E1, E2.
  apply Forall_cons. split; [exact E1|]. apply Forall_cons. split; [exact E2|]. apply Forall_cons. split; [intros []|done].
Qed.

Lemma nas_is_known : device_id nas_keys ∈ protected (foldl lan_event (neighbours_new 1) settling).
Proof. cbn. set_solver. Qed.

End House.

Import Toy House.

Lemma beacon_is_read_as_sent_witness : parse beacon = Ok heard_nas.
Proof.
  exact (proj1 (beacon_is_read_as_sent toy_hash toy_signature nas_keys account (replicate 16 7) 9797 1000 [] heard_nas
    eq_refl ltac:(split; reflexivity) ltac:(reflexivity))).
Defined.

Lemma flood_cannot_evict_the_known_witness :
  exists n, entries (foldl lan_event (neighbours_new 1) (settling ++ flood)) !! device_id nas_keys = Some n /\ n = heard_entry.
Proof.
  rewrite foldl_app.
  destruct (flood_cannot_evict_the_known 1 settling flood (device_id nas_keys) heard_entry) as (_ & n & Hn & _ & Hs).
  - exact nas_is_known.
  - vm_compute. reflexivity.
  - exists n. split; [exact Hn|]. apply Hs. apply flood_is_others.
Defined.
