(* ===== verification/Pledges.v ===== *)
(** * Pledges: what the nodes on one disk promise, so that two do not promise the same space

    Models [crates/itsanas-node/src/pledges.rs], the parts of [node.rs] and of
    the command line that ask it before a pledge is set, and what they suggest.
    A text file is its bytes; what the disk reports free, which homes are beside
    this one and in what order a directory lists its entries are arguments. *)

From S2P Require Import Prelude Version Ids Accounting Reach.

Definition STALE_AFTER_SECS : N := 7 * 24 * 3600.
Definition PUBLISH_STEP : N := 3600.
Definition MAX_STATE_BYTES : nat := 256.

(** Where a promise was read; the source keeps the words. *)
Inductive Source := ThisNode | InstanceOf (name : string) | SharedEntry (file : string).

Record Promise := mkPromise { pm_source : Source; pm_pledge : N; pm_held : N; pm_updated : N }.

Definition owed (p : Promise) : N := pm_pledge p - pm_held p.

(** ** The file *)

Definition LF : ascii := "010".
Definition CR : ascii := "013".
Definition equals : ascii := "=".
Definition text_of (s : string) : list ascii := String.list_ascii_of_string s.

Definition line_of (key : string) (n : N) : list ascii := text_of key ++ [equals] ++ decimal n ++ [LF].

Definition render (pledge held now : N) : list ascii :=
  line_of "pledge" pledge ++ line_of "held" held ++ line_of "updated" now.

(** [std::str::from_utf8]: [need] more bytes of this character, the next one
    between [lo] and [hi]. *)
Fixpoint utf8_go (need : nat) (lo hi : N) (l : list ascii) : bool :=
  match l with
  | [] => (need =? 0)%nat
  | a :: l =>
      let c := N_of_ascii a in
      match need with
      | O =>
          if c <? 0x80 then utf8_go 0 0 0 l
          else if (0xC2 <=? c) && (c <=? 0xDF) then utf8_go 1 0x80 0xBF l
          else if c =? 0xE0 then utf8_go 2 0xA0 0xBF l
          else if c =? 0xED then utf8_go 2 0x80 0x9F l
          else if (0xE1 <=? c) && (c <=? 0xEF) then utf8_go 2 0x80 0xBF l
          else if c =? 0xF0 then utf8_go 3 0x90 0xBF l
          else if (0xF1 <=? c) && (c <=? 0xF3) then utf8_go 3 0x80 0xBF l
          else if c =? 0xF4 then utf8_go 3 0x80 0x8F l
          else false
      | S need => if (lo <=? c) && (c <=? hi) then utf8_go need 0x80 0xBF l else false
      end
  end.
Definition is_utf8 (l : list ascii) : bool := utf8_go 0 0 0 l.

(** [None] when the file cannot be opened, or what is read of it is not text. *)
Definition read_state (file : option (list ascii)) : option (list ascii) :=
  match file with
  | Some bytes => let text := take MAX_STATE_BYTES bytes in if is_utf8 text then Some text else None
  | None => None
  end.

(** [str::lines] *)
Definition strip_cr (line : list ascii) : list ascii :=
  match reverse line with c :: l => if decide (c = CR) then reverse l else line | [] => line end.
Fixpoint lines_go (word l : list ascii) : list (list ascii) :=
  match l with
  | [] => match word with [] => [] | _ => [word] end
  | c :: l => if decide (c = LF) then strip_cr word :: lines_go [] l else lines_go (word ++ [c]) l
  end.
Definition lines (l : list ascii) : list (list ascii) := lines_go [] l.

Record Fields := mkFields { f_pledge : option N; f_held : option N; f_updated : option N }.

Definition read_line (acc : option Fields) (line : list ascii) : option Fields :=
  match acc with
  | None => None
  | Some f =>
      match split_once equals line with
      | None => None
      | Some (key, value) =>
          match parse_int u64_max (trim value) with
          | None => None
          | Some value =>
              let key := trim key in
              Some (if decide (key = text_of "pledge") then mkFields (Some value) (f_held f) (f_updated f)
                    else if decide (key = text_of "held") then mkFields (f_pledge f) (Some value) (f_updated f)
                    else if decide (key = text_of "updated") then mkFields (f_pledge f) (f_held f) (Some value)
                    else f)
          end
      end
  end.

Definition parse (text : list ascii) (source : Source) : option Promise :=
  match foldl read_line (Some (mkFields None None None)) (lines text) with
  | Some (mkFields (Some pledge) (Some held) (Some updated)) => Some (mkPromise source pledge held updated)
  | _ => None
  end.

(** ** Publishing *)

(** [pledge.state] in this home, and the shared directory when there is one. *)
Record Places := mkPlaces { at_home : option (list ascii); in_shared : option (gmap string (list ascii)) }.

Definition own (home : option (list ascii)) : option Promise :=
  match read_state home with Some text => parse text ThisNode | None => None end.

(** What [std::fs::write] did: all of it, or an error and what it left. *)
Inductive Wrote := Whole | Broken (rest : option (list ascii)).
Definition after_write (w : Wrote) (text : list ascii) : option (list ascii) :=
  match w with Whole => Some text | Broken rest => rest end.

Definition unchanged (home : option (list ascii)) (pledge held now : N) : bool :=
  match own home with
  | Some was => (pm_pledge was =? pledge) && (pm_held was =? held) && (pm_updated was <=? now)
                && (now - pm_updated was <? PUBLISH_STEP)
  | None => false
  end.

Definition entry_name (device : string) : string := device +:+ ".state".

Definition publish (home_write shared_write : Wrote) (device : string) (pledge held now : N) (p : Places)
  : result unit unit * Places :=
  let already := match in_shared p with Some dir => bool_decide (is_Some (dir !! entry_name device)) | None => true end in
  if unchanged (at_home p) pledge held now && already then (Ok tt, p)
  else
    let text := render pledge held now in
    match home_write with
    | Broken rest => (Err tt, mkPlaces rest (in_shared p))
    | Whole =>
        let write (dir : gmap string (list ascii)) := match after_write shared_write text with
                           | Some t => <[entry_name device := t]> dir
                           | None => delete (entry_name device) dir
                           end in
        (Ok tt, mkPlaces (Some text) (write <$> in_shared p))
    end.

(** ** The others on this disk *)

(** A home beside this one: whether it is this one, what [same_volume] answered,
    and its [pledge.state]. *)
Record Sibling := mkSibling {
  sb_name : string;
  sb_is_me : bool;
  sb_same_volume : option bool;
  sb_state : option (list ascii);
}.

Definition sibling_promise (s : Sibling) : option Promise :=
  if sb_is_me s || negb (default true (sb_same_volume s)) then None
  else match read_state (sb_state s) with Some text => parse text (InstanceOf (sb_name s)) | None => None end.

(** [Path::extension] of a file name, and [eq_ignore_ascii_case]. *)
Definition extension (file : list ascii) : option (list ascii) :=
  if decide (file = text_of "..") then None
  else match split_once "." (reverse file) with
       | Some (ext, before) => if decide (before = []) then None else Some (reverse ext)
       | None => None
       end.
Definition lower (c : ascii) : ascii :=
  let n := N_of_ascii c in if (65 <=? n) && (n <=? 90) then ascii_of_N (n + 32) else c.
Definition is_state_file (file : string) : bool :=
  match extension (text_of file) with Some ext => bool_decide (lower <$> ext = text_of "state") | None => false end.

(** The same figures, written in the same second. *)
Definition same_promise (a b : Promise) : bool :=
  (pm_pledge a =? pm_pledge b) && (pm_held a =? pm_held b) && (pm_updated a =? pm_updated b).

Definition shared_one (device : string) (now : N) (acc : list Promise * list Source) (entry : string * option (list ascii))
  : list Promise * list Source :=
  let '(found, stale) := acc in
  let '(file, bytes) := entry in
  if bool_decide (file = entry_name device) || negb (is_state_file file) then acc
  else match match read_state bytes with Some text => parse text (SharedEntry file) | None => None end with
       | None => acc
       | Some promise =>
           if STALE_AFTER_SECS <? now - pm_updated promise then (found, stale ++ [pm_source promise])
           else if existsb (fun f => same_promise f promise) found then acc
           else (found ++ [promise], stale)
       end.

Definition others (siblings : list Sibling) (shared : option (list (string * option (list ascii)))) (device : string)
    (now : N) : list Promise * list Source :=
  let found := omap sibling_promise siblings in
  match shared with
  | Some dir => foldl (shared_one device now) (found, []) dir
  | None => (found, [])
  end.

Definition room (free my_held : N) (others : list Promise) : N :=
  let owed_all := foldl (fun total p => sat_add total (owed p)) 0 others in
  sat_add free my_held - owed_all.

Record DiskRefusal := mkDiskRefusal {
  dr_bytes : N; dr_free : N; dr_held : N; dr_room : N; dr_others : list Promise; dr_stale : list Source }.

Definition disk_refusal (bytes : N) (free : option N) (held : N) (others : list Promise) (stale : list Source)
  : option DiskRefusal :=
  match free with
  | None => None
  | Some free => let most := room free held others in
                 if most <? bytes then Some (mkDiskRefusal bytes free held most others stale) else None
  end.

(** [Node::disk_refusal]: a disk that reads 0 free is one that would not say. *)
Definition node_disk_refusal (bytes : N) (free : option N) (held : N) (others : list Promise * list Source)
  : option DiskRefusal :=
  disk_refusal bytes (match free with Some f => if 0 <? f then Some f else None | None => None end) held others.1 others.2.

Definition overcommitted (pledge : N) (keep free : option N) (own hosted : N) : option N :=
  let committed := sat_add pledge (default 0 keep) in
  match free with
  | None => None
  | Some free => if sat_add (sat_add free own) hosted <? committed then Some committed else None
  end.

(** ** What is suggested, and what is kept free *)

Definition GIB : N := 2 ^ 30.
Definition PHONE_HEADROOM_MIN : N := 2 * GIB.
Definition PHONE_HEADROOM_SHARE : N := 10.
Definition PHONE_SLIDER_ROOM : N := 10 * GIB.
Definition RESERVE : N := 256 * 1024 * 1024.

Definition suggest_pledge (free : N) : N := N.min (free / 5 / GIB * GIB) (500 * GIB).
Definition slider_max_gb (free : N) : N := (free - PHONE_SLIDER_ROOM) / GIB.
Definition same_as_others_gb (other free : N) : option N :=
  let gb := other / GIB in if (0 <? gb) && (gb <=? slider_max_gb free) then Some gb else None.

Definition phone_usable (total free local : N) : N :=
  let headroom := N.max (total / PHONE_HEADROOM_SHARE) PHONE_HEADROOM_MIN in
  sat_add free local - headroom.

(** [Node::allowed_for] and [check_split] *)
Definition allowed_for (split : Split) (pledged_bytes : N) : N := N.max (room_earned split pledged_bytes) JOINING_ALLOWANCE.

Record SplitRefusal := mkSplitRefusal { sr_keep : N; sr_needed : N; sr_pledge : N }.
Definition check_split (split : Split) (pledge : N) (keep : option N) : result SplitRefusal unit :=
  match keep with
  | Some keep => if allowed_for split pledge <? keep then Err (mkSplitRefusal keep (pledge_needed_for split keep) pledge) else Ok tt
  | None => Ok tt
  end.

Definition phone_keep (split : Split) (usable others pledge : N) : N :=
  N.min (usable - pledge) (allowed_for split (sat_add others pledge)) / GIB * GIB.

Record Suggestion := mkSuggestion { su_pledge : N; su_keep : N; same_as_other_machines : bool }.

Definition suggest (split : Split) (total free local others largest_other : N) : Suggestion :=
  let usable := phone_usable total free local in
  let half := usable / 2 / GIB * GIB in
  let same := (0 <? largest_other) && (largest_other <=? half) in
  let pledge := if same then largest_other else N.min (suggest_pledge free) half in
  mkSuggestion pledge (phone_keep split usable others pledge) same.

Definition keepable (pledge held : N) (free : option N) : N :=
  match free with
  | None => pledge
  | Some free => N.min pledge (sat_add held (free - RESERVE))
  end.

Definition below_reserve (free : option N) : option N :=
  match free with Some f => if f <? RESERVE then Some f else None | None => None end.

(** [home] and [vault]: what their two disks have free. *)
Definition low_on_disk (home vault : option N) : option N :=
  match below_reserve home, below_reserve vault with
  | Some a, Some b => Some (N.min a b)
  | Some a, None => Some a
  | None, b => b
  end.

Definition disk_room (free : option N) (pledge held : N) : option N := (fun free => free - (pledge - held)) <$> free.

(** ** Setting a pledge *)

(** The part of a node's configuration a pledge is about. *)
Record Machine := mkMachine { pledge_bytes : N; keep_bytes : option N; split_of : Split; places : Places }.

Inductive Refusal := OverSplit (r : SplitRefusal) | OverDisk (r : DiskRefusal) | NotSaved.

(** [set_pledge_counting] of the command line; [held] is what
    [held_for_others] counts, [saved] whether the configuration could be written,
    and the warning whether less is pledged than held. *)
Definition set_pledge_counting (device : string) (bytes others_pledge held : N) (free : option N)
    (seen : list Promise * list Source) (saved : bool) (home_write shared_write : Wrote) (now : N) (m : Machine)
  : result Refusal bool * Machine :=
  match check_split (split_of m) (sat_add bytes others_pledge) (keep_bytes m) with
  | Err r => (Err (OverSplit r), m)
  | Ok _ =>
      match node_disk_refusal bytes free held seen with
      | Some r => (Err (OverDisk r), m)
      | None =>
          if negb saved then (Err NotSaved, mkMachine bytes (keep_bytes m) (split_of m) (places m))
          else
          (Ok (bytes <? held),
           mkMachine bytes (keep_bytes m) (split_of m)
             (publish home_write shared_write device bytes held now (places m)).2)
      end
  end.

(** ** The file reads back *)

Lemma decimal_go_length fuel n acc : (length (decimal_go fuel n acc) <= fuel + length acc)%nat.
Proof.
  revert n acc. induction fuel as [|fuel IH]; intros n acc; cbn [decimal_go]; [lia|].
  destruct (n <? 10); cbn [length]; [lia|]. etransitivity; [apply IH|]. cbn [length]. lia.
Qed.

Lemma decimal_length n : n <= u64_max -> (length (decimal n) <= 64)%nat.
Proof.
  intros Hn. unfold decimal. etransitivity; [apply decimal_go_length|]. cbn [length].
  assert (N.log2 n <= 63); [|lia]. etransitivity; [apply N.log2_le_mono, Hn|]. done.
Qed.

Lemma utf8_ascii lo hi l : Forall (fun c => N_of_ascii c < 128) l -> utf8_go 0 lo hi l = true.
Proof.
  intros Hl. revert lo hi. induction Hl as [|c l Hc _ IH]; intros lo hi; [done|]. cbn [utf8_go].
  rewrite (proj2 (N.ltb_lt _ _) Hc). apply IH.
Qed.

Lemma digits_ascii n : Forall (fun c => N_of_ascii c < 128) (decimal n).
Proof. eapply Forall_impl; [apply decimal_digits|]. unfold is_decimal_digit. intros c Hc. simpl in Hc. lia. Qed.

Lemma render_text pledge held now :
  pledge <= u64_max -> held <= u64_max -> now <= u64_max ->
  read_state (Some (render pledge held now)) = Some (render pledge held now).
Proof.
  intros Hp Hh Hn. pose proof (decimal_length _ Hp). pose proof (decimal_length _ Hh). pose proof (decimal_length _ Hn).
  unfold read_state. rewrite take_ge.
  2:{ unfold render, line_of. rewrite !length_app. unfold MAX_STATE_BYTES.
      generalize dependent (length (decimal pledge)). generalize dependent (length (decimal held)).
      generalize dependent (length (decimal now)). intros; cbn; lia. }
  unfold is_utf8. rewrite utf8_ascii; [done|]. unfold render, line_of.
  repeat (apply Forall_app; split); try apply digits_ascii; repeat constructor.
Qed.

Lemma lines_go_line word line rest :
  Forall (fun c => c <> LF) line -> lines_go word (line ++ LF :: rest) = strip_cr (word ++ line) :: lines rest.
Proof.
  intros Hl. revert word. induction Hl as [|c line Hc _ IH]; intros word; cbn [app lines_go].
  - by rewrite decide_True, app_nil_r.
  - rewrite decide_False by done. rewrite IH. by rewrite <- app_assoc.
Qed.

Lemma digit_is_plain c : is_decimal_digit c -> c <> LF /\ c <> CR /\ c <> equals.
Proof. unfold is_decimal_digit. intros Hc. split_and!; intros ->; cbn in Hc; lia. Qed.

Lemma strip_cr_digits l n : strip_cr (l ++ decimal n) = l ++ decimal n.
Proof.
  unfold strip_cr. rewrite reverse_app. destruct (decimal_digits n) as [Hne Hd].
  destruct (reverse (decimal n)) as [|c r] eqn:E.
  { apply (f_equal reverse) in E. by rewrite reverse_involutive in E. }
  cbn [app]. rewrite decide_False; [done|].
  assert (Hc : is_decimal_digit c) by (apply Forall_reverse in Hd; rewrite E in Hd; by inversion Hd).
  apply digit_is_plain in Hc. tauto.
Qed.

Lemma lines_line_of key n rest :
  Forall (fun c => c <> LF) (text_of key) -> lines (line_of key n ++ rest) = (text_of key ++ [equals] ++ decimal n) :: lines rest.
Proof.
  intros Hk. unfold lines at 1, line_of.
  replace ((text_of key ++ [equals] ++ decimal n ++ [LF]) ++ rest) with ((text_of key ++ [equals] ++ decimal n) ++ LF :: rest)
    by (rewrite <- !app_assoc; done).
  rewrite lines_go_line.
  - cbn [app]. f_equal. change (equals :: decimal n) with ([equals] ++ decimal n). rewrite app_assoc. apply strip_cr_digits.
  - repeat (apply Forall_app; split); [done|repeat constructor; done|].
    eapply Forall_impl; [apply decimal_digits|]. intros c Hc%digit_is_plain. tauto.
Qed.

Lemma read_line_of key n f :
  Forall (fun c => c <> equals) (text_of key) -> trim (text_of key) = text_of key -> n <= u64_max ->
  read_line (Some f) (text_of key ++ [equals] ++ decimal n)
  = Some (if decide (text_of key = text_of "pledge") then mkFields (Some n) (f_held f) (f_updated f)
          else if decide (text_of key = text_of "held") then mkFields (f_pledge f) (Some n) (f_updated f)
          else if decide (text_of key = text_of "updated") then mkFields (f_pledge f) (f_held f) (Some n)
          else f).
Proof.
  intros Hk Ht Hn. unfold read_line. change ([equals] ++ decimal n) with (equals :: decimal n).
  rewrite split_once_digits by done. rewrite trim_digits by apply decimal_digits. rewrite parse_int_decimal by done.
  by rewrite Ht.
Qed.

Lemma parse_render pledge held now source :
  pledge <= u64_max -> held <= u64_max -> now <= u64_max ->
  parse (render pledge held now) source = Some (mkPromise source pledge held now).
Proof.
  intros Hp Hh Hn. unfold parse, render. rewrite <- (app_nil_r (line_of "updated" now)).
  rewrite !lines_line_of by (repeat constructor; done). cbn [lines lines_go foldl].
  rewrite !read_line_of by (done || (repeat constructor; done) || (vm_compute; reflexivity)).
  reflexivity.
Qed.

Lemma own_after_publish sw device pledge held now p p' :
  pledge <= u64_max -> held <= u64_max -> now <= u64_max ->
  publish Whole sw device pledge held now p = (Ok tt, p') ->
  exists was, own (at_home p') = Some was /\ pm_pledge was = pledge /\ pm_held was = held
    /\ pm_updated was <= now /\ now - pm_updated was < PUBLISH_STEP.
Proof.
  intros Hp Hh Hn. unfold publish. destruct (unchanged _ _ _ _ && _) eqn:E.
  - intros [= <-]. apply andb_true_iff in E as [E _]. unfold unchanged in E. destruct (own _) as [was|]; [|done].
    rewrite !andb_true_iff in E. destruct E as [[[E1 E2] E3] E4]. nbool. eauto 10.
  - intros [= <-]. unfold own. cbn [at_home]. rewrite render_text, parse_render by done. eexists. split; [done|]. cbn.
    unfold PUBLISH_STEP. split_and!; [done..|lia|lia].
Qed.

(** A promise that was published is what a reader finds: after a publication that
    did not fail, this node's file says the pledge and the bytes held that were
    given, with a stamp that is at most an hour old. *)
Lemma published_promise_is_current hw sw device pledge held now p p' :
  pledge <= u64_max -> held <= u64_max -> now <= u64_max ->
  publish hw sw device pledge held now p = (Ok tt, p') ->
  exists was, own (at_home p') = Some was /\ pm_pledge was = pledge /\ pm_held was = held
    /\ pm_updated was <= now /\ now - pm_updated was < PUBLISH_STEP.
Proof.
  intros Hp Hh Hn E. destruct hw; [by eapply own_after_publish|].
  unfold publish in E. destruct (unchanged _ _ _ _ && _) eqn:Eu; [|done]. injection E as <-.
  apply (own_after_publish sw device pledge held now p p Hp Hh Hn). unfold publish. by rewrite Eu.
Qed.

(** ** Several nodes on one disk *)

(** A node: what it pledged, what it holds for others, and its [pledge.state]. *)
Record Lender := mkLender { ln_pledge : N; ln_held : N; ln_home : option (list ascii) }.
Record Disk := mkDisk { dk_free : N; dk_nodes : gmap string Lender }.

Definition home_of (vol : string -> option bool) (me : string) (p : string * Lender) : Sibling :=
  mkSibling p.1 (bool_decide (p.1 = me)) (vol p.1) (ln_home p.2).

Definition place_of (l : Lender) : Places := mkPlaces (ln_home l) None.

Definition still_owed (l : Lender) : N := ln_pledge l - ln_held l.
Definition said_owed (l : Lender) : N := from_option owed 0 (own (ln_home l)).
(** What a node owes and its [pledge.state] does not say: bytes let go since it was
    last written, or all of it when the file is gone or damaged. *)
Definition unsaid (l : Lender) : N := still_owed l - said_owed l.

(** The homes are beside each other on one disk, listed in whatever order, with or
    without a directory shared with containers.  A pledge is set through the
    command line, one at a time, on a disk that reads some space free; hosted
    chunks come and go; a node publishes when it likes, and any write of a state
    file may break and leave anything.  Nothing else takes space from the disk.
    [short] bounds, whenever a pledge is set, what the other nodes owe beyond
    what their files say. *)
Inductive disk_step (short : N) : Disk -> Disk -> Prop :=
| ds_joins d i :
    dk_nodes d !! i = None -> disk_step short d (mkDisk (dk_free d) (<[i := mkLender 0 0 None]> (dk_nodes d)))
| ds_pledges d i l vol siblings shared dir bytes others_pledge keep split hw sw now warned m :
    dk_nodes d !! i = Some l -> (forall j, vol j <> Some false) ->
    siblings ≡ₚ home_of vol i <$> map_to_list (dk_nodes d) ->
    0 < dk_free d -> map_sum unsaid (delete i (dk_nodes d)) <= short ->
    set_pledge_counting i bytes others_pledge (ln_held l) (Some (dk_free d)) (others siblings shared i now) true hw sw now
      (mkMachine (ln_pledge l) keep split (mkPlaces (ln_home l) dir)) = (Ok warned, m) ->
    disk_step short d (mkDisk (dk_free d) (<[i := mkLender (pledge_bytes m) (ln_held l) (at_home (places m))]> (dk_nodes d)))
| ds_stores d i l n :
    dk_nodes d !! i = Some l -> ln_held l + n <= ln_pledge l -> n <= dk_free d ->
    disk_step short d (mkDisk (dk_free d - n) (<[i := mkLender (ln_pledge l) (ln_held l + n) (ln_home l)]> (dk_nodes d)))
| ds_drops d i l n :
    dk_nodes d !! i = Some l -> n <= ln_held l ->
    disk_step short d (mkDisk (dk_free d + n) (<[i := mkLender (ln_pledge l) (ln_held l - n) (ln_home l)]> (dk_nodes d)))
| ds_publishes d i l dir hw sw now :
    dk_nodes d !! i = Some l ->
    disk_step short d (mkDisk (dk_free d) (<[i := mkLender (ln_pledge l) (ln_held l)
      (at_home (publish hw sw i (ln_pledge l) (ln_held l) now (mkPlaces (ln_home l) dir)).2)]> (dk_nodes d))).

Record disk_ok (short space : N) (d : Disk) : Prop := mkDiskOk {
  dk_space : dk_free d + map_sum ln_held (dk_nodes d) = space;
  dk_owed : map_sum still_owed (dk_nodes d) <= dk_free d + short;
}.

(** A node that published whole what it holds has said all it owes, and storing
    more leaves it so. *)
Lemma published_says_all sw device l now p n :
  ln_pledge l <= u64_max -> ln_held l <= u64_max -> now <= u64_max ->
  publish Whole sw device (ln_pledge l) (ln_held l) now (place_of l) = (Ok tt, p) ->
  unsaid (mkLender (ln_pledge l) (ln_held l + n) (at_home p)) = 0.
Proof.
  intros Hp Hh Hn E. apply own_after_publish in E as (was & Ho & Ep & Eh & _); [|done..].
  unfold unsaid, still_owed, said_owed. cbn [ln_pledge ln_held ln_home]. rewrite Ho. cbn. unfold owed. lia.
Qed.

(** ** Room *)

Definition sum_owed (l : list Promise) : N := foldr (fun p acc => owed p + acc) 0 l.

Lemma sum_owed_perm l l' : l ≡ₚ l' -> sum_owed l = sum_owed l'.
Proof. unfold sum_owed. induction 1; cbn; lia. Qed.

Lemma foldl_sat_owed l a : a <= u64_max -> foldl (fun total p => sat_add total (owed p)) a l = N.min (a + sum_owed l) u64_max.
Proof.
  revert a. induction l as [|p l IH]; intros a Ha; cbn [foldl sum_owed foldr]; [lia|].
  fold (sum_owed l). rewrite IH by apply sat_add_le. unfold sat_add. lia.
Qed.

Lemma parse_source text s s' : from_option owed 0 (parse text s) = from_option owed 0 (parse text s').
Proof. unfold parse. by destruct (foldl _ _ _) as [[[] [] []]|]. Qed.

Lemma sibling_said vol me p : (forall j, vol j <> Some false) -> p.1 <> me ->
  from_option owed 0 (sibling_promise (home_of vol me p)) = said_owed p.2.
Proof.
  intros Hv Hp. unfold sibling_promise, home_of, said_owed, own. cbn. rewrite bool_decide_eq_false_2 by done. cbn.
  specialize (Hv p.1). destruct (vol p.1) as [[]|]; [| done |]; cbn; destruct (read_state _); try done; apply parse_source.
Qed.

Lemma sum_owed_omap {A} (f : A -> option Promise) l : sum_owed (omap f l) = foldr (fun x acc => from_option owed 0 (f x) + acc) 0 l.
Proof. induction l as [|x l IH]; [done|]. cbn. destruct (f x); cbn; fold (sum_owed (omap f l)); lia. Qed.

Lemma seen_owed vol me m l siblings :
  (forall j, vol j <> Some false) -> m !! me = Some l -> siblings ≡ₚ home_of vol me <$> map_to_list m ->
  sum_owed (omap sibling_promise siblings) = map_sum said_owed (delete me m).
Proof.
  intros Hv Hl Hs. rewrite (sum_owed_perm _ (omap sibling_promise (home_of vol me <$> map_to_list m))) by by rewrite Hs.
  rewrite (sum_owed_perm _ (omap sibling_promise (home_of vol me <$> (me, l) :: map_to_list (delete me m))))
    by by rewrite (map_to_list_delete m me l Hl).
  cbn. unfold sibling_promise at 1. cbn. rewrite bool_decide_eq_true_2 by done. cbn.
  rewrite sum_owed_omap, map_sum_list.
  assert (Hne : Forall (fun p : string * Lender => p.1 <> me) (map_to_list (delete me m))).
  { apply Forall_forall. intros [k v] Hk. apply elem_of_map_to_list in Hk. intros E. cbn in E. subst k. by rewrite lookup_delete_eq in Hk. }
  induction Hne as [|p ps Hp _ IH]; [done|]. cbn. rewrite IH. by rewrite sibling_said.
Qed.

(** Entries of a shared directory only add to what is found. *)
Lemma shared_adds device now dir acc : exists more, (foldl (shared_one device now) acc dir).1 = acc.1 ++ more.
Proof.
  revert acc. induction dir as [|[file bytes] dir IH]; intros [found stale]; cbn [foldl]; [exists []; by rewrite app_nil_r|].
  destruct (IH (shared_one device now (found, stale) (file, bytes))) as [more E]. rewrite E. unfold shared_one.
  repeat case_match; cbn [fst]; (eexists; rewrite <- ?app_assoc; done).
Qed.

Lemma sum_owed_app l l' : sum_owed (l ++ l') = sum_owed l + sum_owed l'.
Proof. unfold sum_owed. induction l as [|p l IH]; cbn; [done|]. rewrite IH. lia. Qed.

Lemma others_owed siblings shared device now :
  sum_owed (omap sibling_promise siblings) <= sum_owed (others siblings shared device now).1.
Proof.
  unfold others. destruct shared as [dir|]; [|done]. destruct (shared_adds device now dir (omap sibling_promise siblings, [])) as [more ->].
  rewrite sum_owed_app. cbn [fst]. lia.
Qed.

(** What the check asks of a pledge when the disk says what it has free. *)
Lemma pledge_fits device bytes others_pledge held free seen hw sw now m warned m' :
  0 < free ->
  set_pledge_counting device bytes others_pledge held (Some free) seen true hw sw now m = (Ok warned, m') ->
  bytes <= room free held seen.1 /\ pledge_bytes m' = bytes.
Proof.
  intros Hf. unfold set_pledge_counting. destruct (check_split _ _ _); [|done]. unfold node_disk_refusal, disk_refusal.
  rewrite (proj2 (N.ltb_lt 0 free) Hf). cbn zeta. destruct (_ <? bytes) eqn:E; [done|]. cbn [negb]. intros [= <- <-]. by nbool.
Qed.

Lemma disk_ok_put short space d i l l' free :
  disk_ok short space d -> dk_nodes d !! i = Some l ->
  free + ln_held l' = dk_free d + ln_held l ->
  still_owed l' + map_sum still_owed (delete i (dk_nodes d)) <= free + short ->
  disk_ok short space (mkDisk free (<[i := l']> (dk_nodes d))).
Proof.
  intros [Hs Ho] Hl Hfree Howed. split; cbn.
  - rewrite <- insert_delete_eq, map_sum_insert_new by apply lookup_delete_eq.
    rewrite (map_sum_delete ln_held _ i l) in Hs by done. lia.
  - rewrite <- insert_delete_eq, map_sum_insert_new by apply lookup_delete_eq. lia.
Qed.

Lemma owed_said (m : gmap string Lender) : map_sum still_owed m <= map_sum said_owed m + map_sum unsaid m.
Proof.
  induction m as [|k l m Hk IH] using map_ind; [by rewrite map_sum_empty|].
  rewrite !map_sum_insert_new by done. unfold unsaid at 1. lia.
Qed.

Lemma disk_step_ok short space d d' : space <= u64_max -> disk_step short d d' -> disk_ok short space d -> disk_ok short space d'.
Proof.
  intros Hspace Hstep Hok. pose proof Hok as [Hs Ho].
  destruct Hstep as [d i Hi|d i l vol sib shared dir bytes op keep split hw sw now warned m Hl Hv Hsib Hf Hshort E|d i l n Hl Hn Hf|d i l n Hl Hn|d i l dir hw sw now Hl].
  { split; cbn; by rewrite map_sum_insert_new. }
  all: pose proof (map_sum_delete ln_held _ i l Hl) as Eh; pose proof (map_sum_delete still_owed _ i l Hl) as Ew;
    unfold still_owed at 2 in Ew; apply (disk_ok_put _ _ _ _ l); [done|done|cbn; lia|].
  2-4: unfold still_owed at 1; cbn; lia.
  apply pledge_fits in E as (Hroom & ->); [|done]. unfold room in Hroom. rewrite foldl_sat_owed in Hroom by done.
  pose proof (others_owed sib shared i now) as Hseen. rewrite (seen_owed vol i (dk_nodes d) l) in Hseen by done.
  pose proof (owed_said (delete i (dk_nodes d))) as Hsaid. unfold still_owed at 1. unfold sat_add in Hroom. cbn. lia.
Qed.

(** C24. Nodes whose homes lie beside each other on one disk, which nothing else
    fills, do not promise the same space twice.  They join, pledge, store, let
    chunks go and publish in any order; a pledge is set while the disk reads some
    space free, and a state file may be lost or torn whenever it is written.  Let
    [short] bound, at the moment of each pledge, what the other nodes owe beyond
    what their files say: 0 when each published whole since it last let chunks go.
    Then the bytes all nodes still owe never pass what is free by more than
    [short], and the pledges together, each counted at least for what is held
    under it, never pass by more than that the space the disk had to give. *)
Theorem no_space_is_promised_twice short space d :
  space <= u64_max -> rtc (disk_step short) (mkDisk space ∅) d ->
  map_sum still_owed (dk_nodes d) <= dk_free d + short
  /\ map_sum (fun l => N.max (ln_pledge l) (ln_held l)) (dk_nodes d) <= space + short.
Proof.
  intros Hspace Hr. assert (Hok : disk_ok short space d).
  { assert (H0 : disk_ok short space (mkDisk space ∅)) by (split; cbn; rewrite ?map_sum_empty; lia).
    clear -Hspace Hr H0. induction Hr; [done|]. eauto using disk_step_ok. }
  destruct Hok as [Hs Ho]. split; [done|].
  enough (map_sum (fun l => N.max (ln_pledge l) (ln_held l)) (dk_nodes d)
          = map_sum still_owed (dk_nodes d) + map_sum ln_held (dk_nodes d)) by lia.
  clear. induction (dk_nodes d) as [|k l m Hk IH] using map_ind; [by rewrite !map_sum_empty|].
  rewrite !map_sum_insert_new by done. rewrite IH. unfold still_owed at 2. lia.
Qed.

(** ** Where the count is wrong *)

(** Two nodes that share only the directory of containers, with equal pledges
    published in the same second, are counted as one: a third one is let promise
    the space the second was promised. *)
Theorem equal_promises_are_counted_once a b me pledge held now entry_a entry_b :
  pledge <= u64_max -> held <= u64_max -> now <= u64_max ->
  a <> entry_name me -> b <> entry_name me -> is_state_file a = true -> is_state_file b = true ->
  entry_a = Some (render pledge held now) -> entry_b = Some (render pledge held now) ->
  others [] (Some [(a, entry_a); (b, entry_b)]) me now = ([mkPromise (SharedEntry a) pledge held now], []).
Proof.
  intros Hp Hh Hn Ha Hb Sa Sb -> ->. unfold others. cbn [foldl omap list_omap]. unfold shared_one.
  rewrite (bool_decide_eq_false_2 (a = entry_name me)), (bool_decide_eq_false_2 (b = entry_name me)) by done.
  rewrite Sa, Sb, render_text, !parse_render by done. cbn [orb negb pm_updated].
  rewrite N.sub_diag. change (STALE_AFTER_SECS <? 0) with false. cbn [existsb app].
  unfold same_promise. cbn [pm_pledge pm_held pm_updated]. by rewrite !N.eqb_refl.
Qed.

(** A full disk refuses nothing: one that reads 0 bytes free is taken for one
    that would not say, so any pledge its split allows is accepted on it. *)
Theorem full_disk_refuses_nothing device bytes others_pledge held seen sw now m :
  check_split (split_of m) (sat_add bytes others_pledge) (keep_bytes m) = Ok tt ->
  exists warned m', set_pledge_counting device bytes others_pledge held (Some 0) seen true Whole sw now m = (Ok warned, m')
    /\ pledge_bytes m' = bytes.
Proof. intros E. unfold set_pledge_counting. rewrite E. cbn. by eexists _, _. Qed.

(** ** What is suggested fits *)

Lemma whole_gib n : n / GIB * GIB <= n.
Proof. rewrite N.mul_comm. by apply N.Div0.mul_div_le. Qed.

(** What a phone is suggested fits on it and in the rules: the pledge and the
    part of the account kept beside it are within what the phone can give, the
    pledge within half of that, its own headroom untouched, and the keep is one
    the split allows the account, whatever the other machines pledge. *)
Theorem suggested_space_fits split total free local others_pledge largest :
  let s := suggest split total free local others_pledge largest in
  su_pledge s + su_keep s <= phone_usable total free local
  /\ 2 * su_pledge s <= phone_usable total free local
  /\ (phone_usable total free local = 0 \/ phone_usable total free local + N.max (total / PHONE_HEADROOM_SHARE) PHONE_HEADROOM_MIN <= free + local)
  /\ check_split split (sat_add (su_pledge s) others_pledge) (Some (su_keep s)) = Ok tt.
Proof.
  cbn zeta. unfold suggest. cbn zeta. cbn [su_pledge su_keep].
  set (usable := phone_usable total free local).
  set (pledge := if (0 <? largest) && (largest <=? usable / 2 / GIB * GIB) then largest else N.min (suggest_pledge free) (usable / 2 / GIB * GIB)).
  assert (Hhalf : 2 * (usable / 2 / GIB * GIB) <= usable).
  { pose proof (whole_gib (usable / 2)). pose proof (N.Div0.mul_div_le usable 2). lia. }
  assert (Hp : pledge <= usable / 2 / GIB * GIB).
  { unfold pledge. destruct (_ && _) eqn:E; [|lia]. apply andb_true_iff in E as [_ E]. by nbool. }
  pose proof (whole_gib (N.min (usable - pledge) (allowed_for split (sat_add others_pledge pledge)))) as Hk.
  fold (phone_keep split usable others_pledge pledge) in Hk. split_and!; [lia|lia| |].
  - unfold usable, phone_usable, sat_add. lia.
  - unfold check_split. replace (sat_add pledge others_pledge) with (sat_add others_pledge pledge) by (unfold sat_add; f_equal; lia).
    rewrite (proj2 (N.ltb_ge _ _)); [done|]. lia.
Qed.

(** ** Two nodes beside each other *)

Definition new_node : Lender := mkLender 0 0 None.
Definition pledged (n at_ : N) : Lender := mkLender (n * GIB) 0 (Some (render (n * GIB) 0 at_)).
Definition machine_of (l : Lender) : Machine := mkMachine (ln_pledge l) None split_DEFAULT (place_of l).
Definition shelf (nodes : gmap string Lender) : Disk := mkDisk (30 * GIB) nodes.
Definition nodes2 : gmap string Lender := <["b" := new_node]> (<["a" := new_node]> ∅).
Definition nodes3 : gmap string Lender := <["a" := pledged 20 5]> nodes2.
Definition nodes4 : gmap string Lender := <["b" := pledged 10 6]> nodes3.

Definition homes_of (me : string) (m : gmap string Lender) : list Sibling := home_of (fun _ => Some true) me <$> map_to_list m.

Lemma shelf_run : rtc (disk_step 0) (shelf ∅) (shelf nodes4).
Proof.
  eapply rtc_l; [apply (ds_joins 0 (shelf ∅) "a"); reflexivity|].
  eapply rtc_l; [apply (ds_joins 0 (shelf (<["a" := new_node]> ∅)) "b"); reflexivity|].
  eapply rtc_l; [|apply rtc_once].
  - apply (ds_pledges 0 (shelf nodes2) "a" new_node (fun _ => Some true) (homes_of "a" nodes2) None None (20 * GIB) 0 None split_DEFAULT
      Whole Whole 5 false (mkMachine (20 * GIB) None split_DEFAULT (place_of (pledged 20 5)))); first [done | by vm_compute].
  - apply (ds_pledges 0 (shelf nodes3) "b" new_node (fun _ => Some true) (homes_of "b" nodes3) None None (10 * GIB) 0 None split_DEFAULT
      Whole Whole 6 false (mkMachine (10 * GIB) None split_DEFAULT (place_of (pledged 10 6)))); first [done | by vm_compute].
Qed.

(** A third node would be let promise nothing. *)
Lemma no_space_is_promised_twice_witness :
  room (dk_free (shelf nodes4)) 0 (others (homes_of "c" nodes4) None "c" 7).1 = 0
  /\ map_sum still_owed nodes4 <= 30 * GIB + 0
  /\ map_sum (fun l => N.max (ln_pledge l) (ln_held l)) nodes4 <= 30 * GIB + 0.
Proof.
  split; [vm_compute; reflexivity|]. apply (no_space_is_promised_twice 0 (30 * GIB) (shelf nodes4)); [by vm_compute|exact shelf_run].
Defined.

Lemma equal_promises_are_counted_once_witness :
  room (90 * GIB) 0 (others [] (Some [("b.state", Some (render (60 * GIB) 0 5)); ("c.state", Some (render (60 * GIB) 0 5))]) "a" 5).1
  = 30 * GIB.
Proof.
  rewrite (equal_promises_are_counted_once "b.state" "c.state" "a" (60 * GIB) 0 5 _ _); first [done | by vm_compute].
Defined.

Lemma full_disk_refuses_nothing_witness :
  exists warned m', set_pledge_counting "a" (500 * GIB) 0 0 (Some 0) ([], []) true Whole Whole 5
      (mkMachine 0 None split_DEFAULT (mkPlaces None None)) = (Ok warned, m') /\ pledge_bytes m' = 500 * GIB.
Proof. apply full_disk_refuses_nothing. reflexivity. Defined.
