(* ===== verification/Release.v ===== *)
(** * Release: signed releases

    Models [crates/itsanas-release/src/lib.rs]: versions, the manifest as text, the
    keys a build trusts, and the checks a download passes in their fixed order.
    A text is its bytes.  The [hex] and [sha2] crates and the validity of an
    Ed25519 key are the class [ReleaseCrates]; sealing the release key under a
    passphrase is left out. *)

From S2P Require Import Prelude Version Ids Crypto Accounting Reach Pledges.

Class ReleaseCrates := {
  hex_encode : list N -> list ascii;
  hex_decode : list ascii -> option (list N);
  sha256 : list N -> list N;
  valid_key : list N -> bool;
}.

Definition is_hex_digit (c : ascii) : Prop := 48 <= N_of_ascii c <= 57 \/ 97 <= N_of_ascii c <= 102.

(** What the documentation of [hex] says: two lower-case digits a byte, and back. *)
Class ReleaseCratesLaws `{!ReleaseCrates} := {
  hex_length b : length (hex_encode b) = (2 * length b)%nat;
  hex_digits b : Forall (fun x => x < 256) b -> Forall is_hex_digit (hex_encode b);
  hex_back b : Forall (fun x => x < 256) b -> hex_decode (hex_encode b) = Some b;
  hex_bytes t b : hex_decode t = Some b -> Forall (fun x => x < 256) b;
}.

(** Why a manifest is damaged. *)
Inductive Damage := NotAVersion (text : list ascii) | AtLine (number : nat) (why : string) | NotText | NotAKey.

Record Version := mkVersion { major : N; minor : N; patch : N }.
#[export] Instance Version_eq_dec : EqDecision Version.
Proof. solve_decision. Defined.

Inductive ReleaseError :=
| NoKeyPinned
| NotSigned
| Damaged (why : Damage)
| NotNewer (offered running : Version)
| WrongSize (name : list ascii) (expected found : N)
| WrongContent (name : list ascii)
| OtherTag (offered : Version)
| CannotRead.

(** ** Versions *)

Definition is_digit (c : ascii) : bool := (48 <=? N_of_ascii c) && (N_of_ascii c <=? 57).

Definition version_part (part : list ascii) : option N :=
  if bool_decide (part = []) || negb (forallb is_digit part) then None else parse_int u32_max part.

Definition version_parse (text : list ascii) : result ReleaseError Version :=
  match split_on "." [] text with
  | [a; b; c] =>
      match version_part a, version_part b, version_part c with
      | Some a, Some b, Some c => Ok (mkVersion a b c)
      | _, _, _ => Err (Damaged (NotAVersion text))
      end
  | _ => Err (Damaged (NotAVersion text))
  end.

(** [Display] *)
Definition version_show (v : Version) : list ascii :=
  decimal (major v) ++ ["."%char] ++ decimal (minor v) ++ ["."%char] ++ decimal (patch v).

(** The derived [Ord]: field by field. *)
Definition version_lt (a b : Version) : bool :=
  (major a <? major b)
  || ((major a =? major b) && ((minor a <? minor b) || ((minor a =? minor b) && (patch a <? patch b)))).

Definition android_code (v : Version) : option N :=
  if (1000 <=? minor v) || (1000 <=? patch v) then None
  else
    let code := major v * 1000000 in
    if u32_max <? code then None
    else if u32_max <? code + minor v * 1000 then None
    else if u32_max <? code + minor v * 1000 + patch v then None
    else if code + minor v * 1000 + patch v <=? 2100000000 then Some (code + minor v * 1000 + patch v) else None.

(** ** The manifest *)

Record FileEntry := mkFileEntry {
  fl_target : list ascii;
  fl_name : list ascii;
  fl_size : N;
  fl_blake3 : list N;
  fl_sha256 : list N;
}.

Record Manifest := mkManifest { mf_version : Version; mf_files : list FileEntry; mf_next_key : option (list N) }.

Definition HEADER : list ascii := text_of "itsanas-release 1".
Definition ANDROID_TARGET : list ascii := text_of "android-apk".
Definition TARGETS : list (list ascii) :=
  text_of <$> ["x86_64-unknown-linux-gnu"; "aarch64-unknown-linux-gnu"; "x86_64-pc-windows-msvc";
               "aarch64-apple-darwin"; "x86_64-apple-darwin"].

Definition space : ascii := " ".
Definition plain_name (target : list ascii) : list ascii := text_of "itsanas-" ++ target.
Definition exe_name (target : list ascii) : list ascii := plain_name target ++ text_of ".exe".

Definition file_for (target : list ascii) (m : Manifest) : option FileEntry :=
  snd <$> list_find (fun f => fl_target f = target) (mf_files m).

Definition target_byte (c : ascii) : bool :=
  let n := N_of_ascii c in
  ((97 <=? n) && (n <=? 122)) || is_digit c || (n =? 95) || (n =? 45).

Section release.
Context `{!Primitives, !ReleaseCrates}.

(** [digest_file] of a file's bytes. *)
Definition digest_file (content : list N) : N * list N * list N :=
  (N.of_nat (length content), blake3_hash content, sha256 content).

Definition measure (target name : list ascii) (content : list N) : FileEntry :=
  let '(size, blake3, sha) := digest_file content in mkFileEntry target name size blake3 sha.

(** [None]: the file cannot be read. *)
Definition check_file (e : FileEntry) (file : option (list N)) : result ReleaseError unit :=
  match file with
  | None => Err CannotRead
  | Some content =>
      let '(size, blake3, sha) := digest_file content in
      if negb (size =? fl_size e) then Err (WrongSize (fl_name e) (fl_size e) size)
      else if negb (bool_decide (blake3 = fl_blake3 e)) then Err (WrongContent (fl_name e))
      else if negb (bool_decide (sha = fl_sha256 e)) then Err (WrongContent (fl_name e))
      else Ok tt
  end.

(** [from_dir]: the first of the two names that is a file, for each target. *)
Definition found_for (dir : list ascii -> option (list N)) (target : list ascii) : option FileEntry :=
  match dir (plain_name target) with
  | Some content => Some (measure target (plain_name target) content)
  | None => (fun content => measure target (exe_name target) content) <$> dir (exe_name target)
  end.
Definition from_dir (version : Version) (dir : list ascii -> option (list N)) : result ReleaseError Manifest :=
  match omap (found_for dir) (TARGETS ++ [ANDROID_TARGET]) with
  | [] => Err CannotRead
  | files => Ok (mkManifest version files None)
  end.

Definition file_line (f : FileEntry) : list ascii :=
  text_of "file " ++ fl_target f ++ [space] ++ fl_name f ++ [space] ++ decimal (fl_size f) ++ [space]
  ++ hex_encode (fl_blake3 f) ++ [space] ++ hex_encode (fl_sha256 f).

Definition key_line (key : list N) : list ascii := text_of "next-key " ++ hex_encode key.

Definition manifest_lines (m : Manifest) : list (list ascii) :=
  [HEADER; text_of "version " ++ version_show (mf_version m)] ++ (file_line <$> mf_files m)
  ++ match mf_next_key m with Some key => [key_line key] | None => [] end.

(** [lines.join("\n")] with an empty last line. *)
Definition to_text (m : Manifest) : list ascii := mjoin ((fun l => l ++ [LF]) <$> manifest_lines m).

(** [hex::decode_to_slice] *)
Definition decode_to_slice (n : nat) (text : list ascii) : option (list N) :=
  match hex_decode text with Some b => if (length b =? n)%nat then Some b else None | None => None end.

Definition is_upper (c : ascii) : bool := (65 <=? N_of_ascii c) && (N_of_ascii c <=? 90).
Definition hex32 (text : list ascii) : option (list N) :=
  if negb (length text =? 64)%nat || existsb is_upper text then None else decode_to_slice 32 text.

Definition parse_file_line (target name size blake sha : list ascii) : result string FileEntry :=
  if bool_decide (target = []) || negb (forallb target_byte target) then Err "bad target"
  else if negb (bool_decide (name = plain_name target)) && negb (bool_decide (name = exe_name target))
  then Err "a file name that does not match its target"
  else if bool_decide (size = []) || negb (forallb is_digit size) then Err "bad size"
  else match parse_int u64_max size with
       | None => Err "bad size"
       | Some size =>
           match hex32 blake with
           | None => Err "bad BLAKE3"
           | Some blake => match hex32 sha with
                           | None => Err "bad SHA-256"
                           | Some sha => Ok (mkFileEntry target name size blake sha)
                           end
           end
       end.

(** One line after the version, and what was read so far. *)
Definition parse_line (number : nat) (line : list ascii) (files : list FileEntry) (next_key : option (list N))
  : result ReleaseError (list FileEntry * option (list N)) :=
  let damaged why := Err (Damaged (AtLine number why)) in
  match split_on space [] line with
  | [kind; target; name; size; blake; sha] =>
      if decide (kind = text_of "file")
      then match parse_file_line target name size blake sha with
           | Err why => damaged why
           | Ok entry => if existsb (fun f => bool_decide (fl_target f = fl_target entry)) files
                         then damaged "the same target twice" else Ok (files ++ [entry], next_key)
           end
      else damaged "unexpected line"
  | [kind; key] =>
      if decide (kind = text_of "next-key" /\ next_key = None)
      then match hex32 key with Some key => Ok (files, Some key) | None => damaged "bad next key" end
      else damaged "unexpected line"
  | _ => damaged "unexpected line"
  end.

Fixpoint parse_lines (number : nat) (lines : list (list ascii)) (files : list FileEntry) (next_key : option (list N))
  : result ReleaseError (list FileEntry * option (list N)) :=
  match lines with
  | [] => Ok (files, next_key)
  | line :: lines =>
      match parse_line number line files next_key with
      | Err e => Err e
      | Ok (files, next_key) => parse_lines (S number) lines files next_key
      end
  end.

Definition strip_last_newline (text : list ascii) : list ascii :=
  match reverse text with c :: l => if decide (c = LF) then reverse l else text | [] => text end.

Definition strip_prefix (prefix line : list ascii) : option (list ascii) :=
  if decide (take (length prefix) line = prefix) then Some (drop (length prefix) line) else None.

Definition manifest_parse (text : list ascii) : result ReleaseError Manifest :=
  match split_on LF [] (strip_last_newline text) with
  | first :: lines =>
      if negb (bool_decide (first = HEADER)) then Err (Damaged (AtLine 1 "not an ITSaNAS release manifest, or a newer format"))
      else match lines with
           | [] => Err (Damaged (AtLine 2 "no version"))
           | second :: lines =>
               match strip_prefix (text_of "version ") second with
               | None => Err (Damaged (AtLine 2 "no version"))
               | Some version =>
                   match version_parse version with
                   | Err e => Err e
                   | Ok version =>
                       match parse_lines 3 lines [] None with
                       | Err e => Err e
                       | Ok ([], _) => Err (Damaged (AtLine 3 "no files"))
                       | Ok (files, next_key) => Ok (mkManifest version files next_key)
                       end
                   end
               end
           end
  | [] => Err (Damaged (AtLine 1 "not an ITSaNAS release manifest, or a newer format"))
  end.

(** ** Trust *)

Record Trust := mkTrust { keys : list (list N) }.

Definition verifying_key_of (bytes : list N) : result ReleaseError (list N) :=
  if valid_key bytes then Ok bytes else Err (Damaged NotAKey).

Definition from_pinned (pinned : option (list N)) : result ReleaseError Trust :=
  match pinned with
  | Some key => key <-? verifying_key_of key; Ok (mkTrust [key])
  | None => Err NoKeyPinned
  end.

Definition learn (m : Manifest) (t : Trust) : result ReleaseError Trust :=
  match mf_next_key m with
  | None => Ok t
  | Some next => key <-? verifying_key_of next;
                 Ok (if bool_decide (key ∈ keys t) then t else mkTrust (keys t ++ [key]))
  end.

Definition bytes_of (text : list ascii) : list N := N_of_ascii <$> text.

(** The signature over the exact bytes, then the format. *)
Definition verify_signed (manifest : list ascii) (signature : list ascii) (t : Trust) : result ReleaseError Manifest :=
  match decode_to_slice 64 (trim signature) with
  | None => Err NotSigned
  | Some raw =>
      if negb (existsb (fun key => verify_strict key (bytes_of manifest) raw) (keys t)) then Err NotSigned
      else if negb (is_utf8 manifest) then Err (Damaged NotText)
      else manifest_parse manifest
  end.

Definition verify_release (manifest signature : list ascii) (t : Trust) (running : Version) : result ReleaseError Manifest :=
  parsed <-? verify_signed manifest signature t;
  if negb (version_lt running (mf_version parsed)) then Err (NotNewer (mf_version parsed) running) else Ok parsed.

Definition android_update (manifest signature : list ascii) (t : Trust) (running : Version)
  : result ReleaseError (option FileEntry) :=
  parsed <-? verify_signed manifest signature t;
  if negb (version_lt running (mf_version parsed)) then Ok None else Ok (file_for ANDROID_TARGET parsed).

(** [ReleaseKey::sign_manifest]; [seed] is the key. *)
Definition sign_manifest (seed : list N) (manifest : list ascii) : result ReleaseError (Manifest * list ascii) :=
  if negb (is_utf8 manifest) then Err (Damaged NotText)
  else parsed <-? manifest_parse manifest;
       Ok (parsed, hex_encode (ed25519_sign seed (bytes_of manifest)) ++ [LF]).

(** [dir] reads the draft's files, [manifest.txt] apart. *)
Fixpoint check_files (dir : list ascii -> option (list N)) (files : list FileEntry) : result ReleaseError unit :=
  match files with
  | [] => Ok tt
  | f :: files => _ <-? check_file f (dir (fl_name f)); check_files dir files
  end.
Definition check_draft (manifest : option (list ascii)) (dir : list ascii -> option (list N)) (tag : list ascii)
  : result ReleaseError Manifest :=
  match manifest with
  | None => Err CannotRead
  | Some text =>
      if negb (is_utf8 text) then Err CannotRead
      else
        m <-? manifest_parse text;
        tagged <-? version_parse (default tag (strip_prefix (text_of "v") tag));
        if negb (bool_decide (mf_version m = tagged)) then Err (OtherTag (mf_version m))
        else _ <-? check_files dir (mf_files m); Ok m
  end.

End release.

(** ** Texts *)

Lemma split_on_word sep word w rest :
  Forall (fun c => c <> sep) w -> split_on sep word (w ++ sep :: rest) = (word ++ w) :: split_on sep [] rest.
Proof.
  intros Hw. revert word. induction Hw as [|c w Hc _ IH]; intros word; cbn.
  - by rewrite decide_True, app_nil_r.
  - rewrite decide_False by done. rewrite IH. by rewrite <- app_assoc.
Qed.

Lemma split_on_last sep word w : Forall (fun c => c <> sep) w -> split_on sep word w = [word ++ w].
Proof.
  intros Hw. revert word. induction Hw as [|c w Hc _ IH]; intros word; cbn; [by rewrite app_nil_r|].
  rewrite decide_False by done. rewrite IH. by rewrite <- app_assoc.
Qed.

(** Words without the separator, joined by it, are what it splits into. *)
Fixpoint joined (sep : ascii) (ws : list (list ascii)) : list ascii :=
  match ws with
  | [] => []
  | [w] => w
  | w :: ws => w ++ sep :: joined sep ws
  end.

Lemma split_joined sep ws :
  ws <> [] -> Forall (Forall (fun c => c <> sep)) ws -> split_on sep [] (joined sep ws) = ws.
Proof.
  intros Hne Hws. induction Hws as [|w ws Hw Hws IH]; [done|]. destruct ws as [|w2 ws]; [by apply split_on_last|].
  change (joined sep (w :: w2 :: ws)) with (w ++ sep :: joined sep (w2 :: ws)). rewrite split_on_word by done. by rewrite IH.
Qed.

Lemma mjoin_lines ws : ws <> [] -> mjoin ((fun l => l ++ [LF]) <$> ws) = joined LF ws ++ [LF].
Proof.
  induction ws as [|w ws IH]; [done|]. intros _. destruct ws as [|w2 ws]; [cbn; by rewrite app_nil_r|].
  change (joined LF (w :: w2 :: ws)) with (w ++ LF :: joined LF (w2 :: ws)). rewrite fmap_cons.
  specialize (IH ltac:(done)).
  change (mjoin ((w ++ [LF]) :: ((fun l => l ++ [LF]) <$> w2 :: ws))) with ((w ++ [LF]) ++ mjoin ((fun l => l ++ [LF]) <$> w2 :: ws)).
  rewrite IH. by rewrite <- !app_assoc.
Qed.

Lemma strip_last_newline_line l : strip_last_newline (l ++ [LF]) = l.
Proof. unfold strip_last_newline. rewrite reverse_app. change (reverse [LF] ++ reverse l) with (LF :: reverse l).
  cbv beta match. rewrite decide_True by done. apply reverse_involutive. Qed.

Lemma strip_prefix_app p l : strip_prefix p (p ++ l) = Some l.
Proof. unfold strip_prefix. rewrite take_app_length, drop_app_length. by rewrite decide_True. Qed.

(** ** The grammar of a word *)

(** A byte of any word of a manifest: never a space, nor a line's end. *)
Definition word_byte (c : ascii) : Prop := 45 <= N_of_ascii c <= 122.

Lemma word_byte_plain c : word_byte c -> c <> space /\ c <> LF.
Proof. unfold word_byte. intros H. split; intros ->; cbn in H; lia. Qed.

Lemma words_plain ws : Forall (Forall word_byte) ws ->
  Forall (Forall (fun c => c <> space)) ws /\ Forall (Forall (fun c => c <> LF)) ws.
Proof.
  intros Hws. split; (eapply Forall_impl; [exact Hws|]); intros w Hw; (eapply Forall_impl; [exact Hw|]); intros c Hc;
    apply word_byte_plain in Hc; tauto.
Qed.

Lemma digits_are_words n : Forall word_byte (decimal n).
Proof. eapply Forall_impl; [apply decimal_digits|]. unfold is_decimal_digit, word_byte. intros c Hc. lia. Qed.

Lemma decimal_is_digits n : forallb is_digit (decimal n) = true.
Proof.
  apply forallb_forall. intros c Hc. destruct (decimal_digits n) as [_ Hd]. rewrite Forall_forall in Hd.
  apply list_elem_of_In, Hd in Hc. unfold is_decimal_digit in Hc. unfold is_digit. apply andb_true_iff. split; apply N.leb_le; lia.
Qed.

Lemma target_byte_word c : target_byte c = true -> word_byte c.
Proof. unfold target_byte, is_digit, word_byte. rewrite !orb_true_iff, !andb_true_iff, !N.leb_le, !N.eqb_eq. lia. Qed.

Section grammar.
Context {PR : Primitives} {RC : ReleaseCrates} {RL : ReleaseCratesLaws}.

Lemma hex_words b : Forall (fun x => x < 256) b -> Forall word_byte (hex_encode b).
Proof. intros Hb. eapply Forall_impl; [by apply hex_digits|]. unfold is_hex_digit, word_byte. intros c Hc. lia. Qed.

Definition is_key (b : list N) : Prop := length b = 32%nat /\ Forall (fun x => x < 256) b.

Lemma hex32_encode b : is_key b -> hex32 (hex_encode b) = Some b.
Proof.
  intros [Hl Hb]. unfold hex32. rewrite hex_length, Hl. cbn [Nat.mul Nat.add Nat.eqb negb orb].
  replace (existsb is_upper (hex_encode b)) with false.
  - unfold decode_to_slice. by rewrite hex_back, Hl.
  - symmetry. apply not_true_iff_false. intros (c & Hc & Hu)%existsb_exists. apply list_elem_of_In in Hc.
    pose proof (hex_digits b Hb) as Hd. rewrite Forall_forall in Hd. apply Hd in Hc. unfold is_hex_digit in Hc. unfold is_upper in Hu.
    apply andb_true_iff in Hu as [H1 H2]. nbool. lia.
Qed.

Lemma hex32_key text b : hex32 text = Some b -> is_key b.
Proof.
  unfold hex32, decode_to_slice. destruct (_ || _); [done|]. destruct (hex_decode text) as [x|] eqn:E; [|done].
  destruct (Nat.eqb_spec (length x) 32); [|done]. intros [= <-]. split; [done|]. by eapply hex_bytes.
Qed.

(** ** What a manifest that is read is like *)

Record entry_ok (e : FileEntry) : Prop := mkEntryOk {
  eo_target : fl_target e <> [] /\ forallb target_byte (fl_target e) = true;
  eo_name : fl_name e = plain_name (fl_target e) \/ fl_name e = exe_name (fl_target e);
  eo_size : fl_size e <= u64_max;
  eo_hashes : is_key (fl_blake3 e) /\ is_key (fl_sha256 e);
}.

Definition version_ok (v : Version) : Prop := major v <= u32_max /\ minor v <= u32_max /\ patch v <= u32_max.

Record manifest_ok (m : Manifest) : Prop := mkManifestOk {
  mo_version : version_ok (mf_version m);
  mo_some : mf_files m <> [];
  mo_files : Forall entry_ok (mf_files m);
  mo_targets : NoDup (fl_target <$> mf_files m);
  mo_key : from_option is_key True (mf_next_key m);
}.

Lemma parse_digits_bound max acc l n : acc <= max -> parse_digits max acc l = Some n -> n <= max.
Proof.
  revert acc. induction l as [|c l IH]; intros acc Ha; cbn [parse_digits]; [by intros [= <-]|].
  destruct (_ && _) eqn:E; [|done]. apply IH. apply andb_true_iff in E as [_ E]. by nbool.
Qed.

Lemma parse_int_bound max l n : parse_int max l = Some n -> n <= max.
Proof.
  unfold parse_int. set (l' := match l with [] => l | _ => _ end). destruct l' as [|c l']; [done|].
  apply parse_digits_bound. lia.
Qed.

Lemma version_part_decimal n : n <= u32_max -> version_part (decimal n) = Some n.
Proof.
  intros Hn. unfold version_part. rewrite bool_decide_eq_false_2 by apply decimal_digits.
  rewrite decimal_is_digits. by apply parse_int_decimal.
Qed.

Lemma version_part_bound p n : version_part p = Some n -> n <= u32_max.
Proof. unfold version_part. destruct (_ || _); [done|]. apply parse_int_bound. Qed.

Lemma decimal_no_dot n : Forall (fun c => c <> "."%char) (decimal n).
Proof. eapply Forall_impl; [apply decimal_digits|]. intros c Hc ->. unfold is_decimal_digit in Hc. cbn in Hc. lia. Qed.

Lemma version_reads_back v : version_ok v -> version_parse (version_show v) = Ok v.
Proof.
  intros (H1 & H2 & H3). unfold version_parse.
  change (version_show v) with (joined "." [decimal (major v); decimal (minor v); decimal (patch v)]).
  rewrite split_joined; [|done|repeat constructor; apply decimal_no_dot]. rewrite !version_part_decimal by done. by destruct v.
Qed.

Lemma version_parse_ok text v : version_parse text = Ok v -> version_ok v.
Proof.
  unfold version_parse. destruct (split_on _ _ _) as [|a [|b [|c [|]]]]; try done.
  destruct (version_part a) eqn:Ea, (version_part b) eqn:Eb, (version_part c) eqn:Ec; try done.
  intros [= <-]. apply version_part_bound in Ea, Eb, Ec. done.
Qed.

Lemma entry_words e : entry_ok e ->
  Forall (Forall word_byte) [text_of "file"; fl_target e; fl_name e; decimal (fl_size e); hex_encode (fl_blake3 e); hex_encode (fl_sha256 e)].
Proof.
  intros [[_ Ht] Hn _ [[_ Hk1] [_ Hk2]]]. assert (Htw : Forall word_byte (fl_target e)).
  { apply Forall_forall. intros c Hc. rewrite forallb_forall in Ht. by apply target_byte_word, Ht, list_elem_of_In. }
  assert (Hp : Forall word_byte (plain_name (fl_target e))).
  { apply Forall_app. split; [|done]. repeat constructor; unfold word_byte; cbn; lia. }
  assert (Hx : Forall word_byte (exe_name (fl_target e))).
  { apply Forall_app. split; [done|]. repeat constructor; unfold word_byte; cbn; lia. }
  assert (Hfile : Forall word_byte (text_of "file")) by (repeat constructor; unfold word_byte; cbn; lia).
  assert (Hname : Forall word_byte (fl_name e)) by (by destruct Hn as [-> | ->]).
  pose proof (digits_are_words (fl_size e)). pose proof (hex_words (fl_blake3 e) Hk1). pose proof (hex_words (fl_sha256 e) Hk2).
  eauto 10 using Forall_cons_2, Forall_nil_2.
Qed.

Lemma parse_file_words e :
  entry_ok e -> parse_file_line (fl_target e) (fl_name e) (decimal (fl_size e)) (hex_encode (fl_blake3 e)) (hex_encode (fl_sha256 e)) = Ok e.
Proof.
  intros [[Hne Ht] Hn Hs [Hb Hsha]]. unfold parse_file_line. rewrite bool_decide_eq_false_2, Ht by done. cbn [negb orb].
  replace (negb (bool_decide (fl_name e = plain_name (fl_target e))) && negb (bool_decide (fl_name e = exe_name (fl_target e)))) with false.
  - rewrite bool_decide_eq_false_2 by apply decimal_digits. rewrite decimal_is_digits. cbn [negb orb].
    rewrite parse_int_decimal, !hex32_encode by done. by destruct e.
  - destruct Hn as [E|E]; rewrite E; [by rewrite bool_decide_true|]. rewrite (bool_decide_true (exe_name (fl_target e) = exe_name (fl_target e))) by done.
    by rewrite andb_false_r.
Qed.

Lemma parse_file_line_ok target name size blake sha e :
  parse_file_line target name size blake sha = Ok e -> entry_ok e.
Proof.
  unfold parse_file_line. destruct (bool_decide_reflect (target = [])); [done|]. cbn [orb].
  destruct (forallb target_byte target) eqn:Ht; [|done]. cbn [negb].
  destruct (bool_decide_reflect (name = plain_name target)) as [Hn|Hn]; destruct (bool_decide_reflect (name = exe_name target)) as [Hx|Hx];
    cbn [negb andb]; try done; destruct (_ || _); try done;
    (destruct (parse_int u64_max size) as [n0|] eqn:Es; [|done]); (destruct (hex32 blake) eqn:Eb; [|done]); (destruct (hex32 sha) eqn:Ec; [|done]);
    intros [= <-]; apply parse_int_bound in Es; apply hex32_key in Eb, Ec; split; cbn; auto.
Qed.

Lemma file_line_joined e : file_line e =
  joined space [text_of "file"; fl_target e; fl_name e; decimal (fl_size e); hex_encode (fl_blake3 e); hex_encode (fl_sha256 e)].
Proof. reflexivity. Qed.

Lemma parse_line_file number e files nk :
  entry_ok e -> fl_target e ∉ fl_target <$> files -> parse_line number (file_line e) files nk = Ok (files ++ [e], nk).
Proof.
  intros He Hnew. unfold parse_line. rewrite file_line_joined, split_joined; [|done|apply words_plain, entry_words, He].
  rewrite decide_True by done. rewrite parse_file_words by done.
  replace (existsb _ files) with false; [done|]. symmetry. apply not_true_iff_false. intros (f & Hf & Ef)%existsb_exists.
  apply bool_decide_eq_true in Ef. apply Hnew. rewrite <- Ef. by apply list_elem_of_fmap_2, list_elem_of_In.
Qed.

Lemma parse_lines_files number fs tail files nk :
  Forall entry_ok fs -> NoDup (fl_target <$> files ++ fs) ->
  parse_lines number ((file_line <$> fs) ++ tail) files nk = parse_lines (number + length fs) tail (files ++ fs) nk.
Proof.
  intros Hfs. revert number files. induction Hfs as [|e fs He _ IH]; intros number files Hnd; cbn [fmap list_fmap app length].
  - by rewrite app_nil_r, Nat.add_0_r.
  - cbn [parse_lines]. rewrite parse_line_file; [|done|].
    + rewrite IH; rewrite <- app_assoc; [|exact Hnd]. by rewrite Nat.add_succ_r.
    + rewrite fmap_app in Hnd. apply NoDup_app in Hnd as (_ & Hd & _). intros Hin. apply (Hd _ Hin). left.
Qed.

Lemma parse_line_key number key files : is_key key -> parse_line number (key_line key) files None = Ok (files, Some key).
Proof.
  intros Hk. unfold parse_line. change (key_line key) with (joined space [text_of "next-key"; hex_encode key]).
  rewrite split_joined; [|done|].
  - rewrite decide_True by done. by rewrite hex32_encode.
  - assert (Hw : Forall word_byte (text_of "next-key")) by (repeat constructor; unfold word_byte; cbn; lia).
    apply words_plain. destruct Hk as [_ Hk]. eauto using Forall_cons_2, Forall_nil_2, hex_words.
Qed.

Lemma line_has_no_newline m : manifest_ok m -> Forall (Forall (fun c => c <> LF)) (manifest_lines m).
Proof.
  intros [_ _ Hf _ Hkey]. unfold manifest_lines. apply Forall_app. split; [|apply Forall_app; split].
  - apply Forall_cons_2; [repeat constructor; done|]. apply Forall_cons_2; [|by apply Forall_nil_2]. apply Forall_app. split; [repeat constructor; done|].
    unfold version_show. assert (Hd : forall n, Forall (fun c => c <> LF) (decimal n)).
    { intros n. eapply Forall_impl; [apply digits_are_words|]. intros c Hc%word_byte_plain. tauto. }
    repeat (apply Forall_app; split); try apply Hd; repeat constructor; done.
  - apply Forall_fmap. eapply Forall_impl; [exact Hf|]. intros e He. unfold compose. rewrite file_line_joined.
    pose proof (proj2 (words_plain _ (entry_words e He))) as Hw. revert Hw. generalize [text_of "file"; fl_target e; fl_name e; decimal (fl_size e); hex_encode (fl_blake3 e); hex_encode (fl_sha256 e)].
    intros ws Hw. induction Hw as [|w ws Hw Hws IH]; [done|]. destruct ws as [|w2 ws]; [done|].
    change (joined space (w :: w2 :: ws)) with (w ++ space :: joined space (w2 :: ws)). apply Forall_app. split; [done|]. by constructor.
  - destruct (mf_next_key m) as [key|]; [|done]. constructor; [|done]. unfold key_line. apply Forall_app. split; [repeat constructor; done|].
    eapply Forall_impl; [apply hex_words, Hkey|]. intros c Hc%word_byte_plain. tauto.
Qed.

Lemma manifest_text_parses m : manifest_ok m -> manifest_parse (to_text m) = Ok m.
Proof.
  intros Hm. unfold manifest_parse, to_text. rewrite mjoin_lines by done. rewrite strip_last_newline_line.
  rewrite split_joined; [|done|by apply line_has_no_newline]. destruct Hm as [Hv Hne Hf Hnd Hk].
  unfold manifest_lines. cbn [app]. rewrite bool_decide_true by done. cbn [negb].
  rewrite strip_prefix_app, version_reads_back by done. rewrite parse_lines_files by done. cbn [app].
  destruct m as [v files nk]. cbn [mf_version mf_files mf_next_key] in *. destruct nk as [key|]; cbn [parse_lines].
  - rewrite parse_line_key by done. by destruct files.
  - by destruct files.
Qed.

Lemma parse_lines_ok number lines files nk files' nk' :
  Forall entry_ok files -> NoDup (fl_target <$> files) -> from_option is_key True nk ->
  parse_lines number lines files nk = Ok (files', nk') ->
  Forall entry_ok files' /\ NoDup (fl_target <$> files') /\ from_option is_key True nk'.
Proof.
  revert number files nk. induction lines as [|line lines IH]; intros number files nk Hf Hnd Hk; cbn [parse_lines].
  { by intros [= <- <-]. }
  destruct (parse_line number line files nk) as [[f2 k2]|] eqn:E; [|done]. apply IH; clear IH; unfold parse_line in E;
    (destruct (split_on space [] line) as [|w1 [|w2 [|w3 [|w4 [|w5 [|w6 [|]]]]]]]; try done; case_decide; try done;
     [destruct (hex32 w2) as [key|] eqn:Ek; [|done]; injection E as <- <-; apply hex32_key in Ek; done|]);
    destruct (parse_file_line w2 w3 w4 w5 w6) as [e|] eqn:Ee; try done; destruct (existsb _ files) eqn:Ex; try done; injection E as <- <-; try done.
  - apply Forall_app. split; [done|]. constructor; [|done]. by eapply parse_file_line_ok.
  - rewrite fmap_app. apply NoDup_app. split_and!; [done| |apply NoDup_singleton]. intros t Ht ->%list_elem_of_singleton.
    apply list_elem_of_fmap in Ht as (f & Et & Hf0). apply not_true_iff_false in Ex. apply Ex. apply existsb_exists. exists f.
    split; [by apply list_elem_of_In|]. by apply bool_decide_eq_true.
Qed.

Lemma manifest_parse_ok text m : manifest_parse text = Ok m -> manifest_ok m.
Proof.
  unfold manifest_parse. destruct (split_on _ _ _) as [|first lines]; [done|]. destruct (negb _); [done|].
  destruct lines as [|second lines]; [done|]. destruct (strip_prefix _ second) as [vt|]; [|done].
  destruct (version_parse vt) as [v|] eqn:Ev; [|done]. destruct (parse_lines 3 lines [] None) as [[files nk]|] eqn:E; [|done].
  apply version_parse_ok in Ev. apply parse_lines_ok in E as (H1 & H2 & H3); [|done|apply NoDup_nil_2|done].
  destruct files as [|f files]; [done|]. intros [= <-]. by split.
Qed.

(** A manifest that is read is one that can be written: the version fits, the
    targets are all different and plain, every file is named after its target,
    so that no name leaves the directory it is saved in, and writing the manifest
    out and reading it again gives the same one. *)
Theorem manifest_reads_back text m :
  manifest_parse text = Ok m -> manifest_ok m /\ manifest_parse (to_text m) = Ok m.
Proof. intros E%manifest_parse_ok. split; [done|by apply manifest_text_parses]. Qed.

End grammar.

(** ** Newer *)

Lemma version_lt_trans a b c : version_lt a b = true -> version_lt b c = true -> version_lt a c = true.
Proof. unfold version_lt. rewrite !orb_true_iff, !andb_true_iff, !orb_true_iff, !andb_true_iff, !N.ltb_lt, !N.eqb_eq. lia. Qed.

Lemma version_lt_irrefl a : version_lt a a = false.
Proof. unfold version_lt. by rewrite !N.ltb_irrefl, !andb_false_r. Qed.

(** Android sees the same order. *)
Lemma android_code_order a b x y :
  android_code a = Some x -> android_code b = Some y -> version_lt a b = true <-> x < y.
Proof.
  unfold android_code, version_lt. repeat (case_match; try done). intros [= <-] [= <-]. nbool.
  repeat match goal with H : (_ || _) = false |- _ => apply orb_false_iff in H as [? ?] end. nbool.
  rewrite !orb_true_iff, !andb_true_iff, !orb_true_iff, !andb_true_iff, !N.ltb_lt, !N.eqb_eq. nia.
Qed.

(** ** Nothing unsigned is installed *)

Section trust.
Context {PR : Primitives} {RC : ReleaseCrates} {RL : ReleaseCratesLaws}.

(** What [verify_release] accepts is the manifest of the very bytes a trusted key
    signed, well formed and newer than what runs. *)
Theorem accepted_release_is_signed manifest signature t running m :
  verify_release manifest signature t running = Ok m ->
  version_lt running (mf_version m) = true /\ manifest_ok m /\ manifest_parse manifest = Ok m
  /\ exists key raw, key ∈ keys t /\ decode_to_slice 64 (trim signature) = Some raw
       /\ verify_strict key (bytes_of manifest) raw = true.
Proof.
  unfold verify_release, verify_signed. destruct (decode_to_slice 64 (trim signature)) as [raw|]; [|done].
  destruct (existsb _ (keys t)) eqn:Ek; [|done]. destruct (is_utf8 manifest); [|done]. cbn [negb rbind].
  destruct (manifest_parse manifest) as [m0|] eqn:Ep; [|done]. cbn [rbind]. destruct (version_lt running (mf_version m0)) eqn:Ev; [|done].
  intros [= <-]. apply existsb_exists in Ek as (key & Hin & Hv). split_and!; [done|by eapply manifest_parse_ok|done|].
  exists key, raw. split_and!; [by apply list_elem_of_In|done|done].
Qed.

End trust.

(** ** A release *)

Module Published.

#[export] Instance plain_crates : ReleaseCrates := {|
  hex_encode := hex_of_bytes; hex_decode := bytes_of_hex; sha256 _ := replicate 32 7; valid_key _ := true |}.

Lemma digit_value_small c d : digit_value c = Some d -> d < 16.
Proof.
  unfold digit_value. repeat match goal with |- context [if ?b then _ else _] => destruct b eqn:?; [intros [= <-]|] end; [..|done];
    repeat match goal with H : _ && _ = true |- _ => apply andb_true_iff in H as [? ?] end; nbool; lia.
Qed.

Lemma hex_digit_small d : d < 16 -> is_hex_digit (hex_digit d).
Proof.
  intros Hd. assert (Hall : forallb (fun d => let n := N_of_ascii (hex_digit d) in (48 <=? n) && (n <=? 57) || (97 <=? n) && (n <=? 102))
    [0; 1; 2; 3; 4; 5; 6; 7; 8; 9; 10; 11; 12; 13; 14; 15] = true) by (vm_compute; reflexivity).
  rewrite forallb_forall in Hall. specialize (Hall d). cbn zeta in Hall. unfold is_hex_digit. generalize dependent (N_of_ascii (hex_digit d)). intros n Hn.
  rewrite orb_true_iff, !andb_true_iff, !N.leb_le in Hn. apply Hn. apply list_elem_of_In. rewrite !elem_of_cons, elem_of_nil. clear Hn. lia.
Qed.

#[export] Instance plain_laws : ReleaseCratesLaws.
Proof.
  split.
  - exact length_hex_of_bytes.
  - induction 1 as [|b l Hb _ IH]; [constructor|]. cbn [hex_encode plain_crates]. rewrite hex_of_bytes_cons.
    constructor; [|constructor; [|exact IH]]; apply hex_digit_small; [apply N.Div0.div_lt_upper_bound; lia|apply N.mod_lt; lia].
  - exact bytes_of_hex_of_bytes.
  - cbn [hex_decode plain_crates]. fix IH 1. intros t b. destruct t as [|hi [|lo t]]; cbn [bytes_of_hex]; [by intros [= <-]|by intros [= <-]|].
    destruct (digit_value hi) as [h|] eqn:Eh; [|done]. destruct (digit_value lo) as [l|] eqn:El; [|done].
    destruct (bytes_of_hex t) as [rest|] eqn:Er; [|done]. intros [= <-].
    apply digit_value_small in Eh, El. constructor; [lia|]. by apply (IH t).
Qed.

Definition linux : FileEntry :=
  mkFileEntry (text_of "x86_64-unknown-linux-gnu") (plain_name (text_of "x86_64-unknown-linux-gnu")) 1234 (replicate 32 1) (replicate 32 200).
Definition release_3 : Manifest := mkManifest (mkVersion 0 10 0) [linux] (Some (replicate 32 9)).

End Published.

Import Published.

Lemma manifest_reads_back_witness :
  manifest_ok release_3 /\ manifest_parse (to_text release_3) = Ok release_3.
Proof. apply (manifest_reads_back (to_text release_3) release_3). vm_compute. reflexivity. Defined.
