(* ===== verification/Claims.v ===== *)
(** * Claims: the signed messages a coordinator keeps

    Models [crates/itsanas-coord/src/claim.rs], [invitation.rs], [error.rs] and
    the registration of [directory.rs]: what each message says, the bytes its
    signature covers, the checks a reader makes, and when one claim replaces
    another.  Signing and verification are those of [Crypto]; names and
    addresses are byte strings.  Errors keep their data and their reason; the
    variants that wrap a failing database, codec, socket or primitive are not
    represented. *)

From S2P Require Import Prelude Version Ids Crypto.

Inductive CoordError :=
| BadSig (what : string)
| FromTheFuture (issued now : N)
| Rejected (why : string)
| NameTaken (name : string)
| Retired (name : string) (until : N)
| Deleted
| Suspended
| NoSuchAccount (who : string)
| UnclaimedDevice (who : string)
| TooManyDevices (live limit : nat) (devices : string).

Definition CLAIM_DOMAIN : string := "itsanas v1 node claim".
Definition PRESENCE_DOMAIN : string := "itsanas v1 node presence".
Definition DEPARTURE_DOMAIN : string := "itsanas v1 node departure".
Definition DELETION_DOMAIN : string := "itsanas v1 account deletion".
Definition REGISTRATION_DOMAIN : string := "itsanas v1 account registration".
Definition INVITATION_DOMAIN : string := "itsanas v1 membership invitation".
Definition MAX_CLOCK_SKEW : N := 3600.
Definition MAX_DELETION_AGE : N := 600.
Definition MAX_DEVICES_PER_ACCOUNT : nat := 10.
Definition MAX_ADDRESS_LEN : nat := 255.
Definition MAX_USERNAME_LEN : nat := 64.

(** ** The messages *)

Record NodeClaim := mkClaim {
  cl_owner : UserId;
  cl_device : DeviceId;
  cl_pledged_bytes : N;
  cl_issued_unix : N;
  cl_revoked : bool;
}.

Record SignedClaim := mkSignedClaim { sc_claim : NodeClaim; sc_signature : list N }.

Record Presence := mkPresence {
  pr_device : DeviceId;
  pr_address : string;
  pr_at_unix : N;
}.

Record SignedPresence := mkSignedPresence { sp_presence : Presence; sp_signature : list N }.

Record ClaimedPresence := mkClaimedPresence { cp_presence : SignedPresence; cp_claim : SignedClaim }.

Record Departure := mkDeparture { dp_device : DeviceId; dp_at_unix : N }.

Record SignedDeparture := mkSignedDeparture { sd_departure : Departure; sd_signature : list N }.

Record Deletion := mkDeletion {
  dl_user : UserId;
  dl_username : string;
  dl_at_unix : N;
}.

Record SignedDeletion := mkSignedDeletion { sl_deletion : Deletion; sl_signature : list N }.

Record UserPublic := mkUserPublic { up_id : UserId; up_agreement : list N }.

Record Registration := mkRegistration {
  rg_username : string;
  rg_user : UserPublic;
  rg_issued_unix : N;
}.

Record SignedRegistration := mkSignedRegistration { sr_registration : Registration; sr_signature : list N }.

Record Invitation := mkInvitation {
  in_inviter : UserId;
  in_code : list N;
  in_issued_unix : N;
  in_expires_unix : N;
  in_uses : N;
}.

Record SignedInvitation := mkSignedInvitation { si_invitation : Invitation; si_signature : list N }.

#[export] Instance NodeClaim_eq_dec : EqDecision NodeClaim.
Proof. solve_decision. Defined.
#[export] Instance SignedClaim_eq_dec : EqDecision SignedClaim.
Proof. solve_decision. Defined.
#[export] Instance Presence_eq_dec : EqDecision Presence.
Proof. solve_decision. Defined.
#[export] Instance SignedPresence_eq_dec : EqDecision SignedPresence.
Proof. solve_decision. Defined.
#[export] Instance CoordError_eq_dec : EqDecision CoordError.
Proof. solve_decision. Defined.

(** ** What each signature covers *)

Definition claim_payload (c : NodeClaim) : list N :=
  as_bytes (cl_owner c) ++ as_bytes (cl_device c) ++ le_bytes 8 (cl_pledged_bytes c)
  ++ le_bytes 8 (cl_issued_unix c) ++ [if cl_revoked c then 1 else 0].

Definition presence_payload (p : Presence) : list N :=
  let address := bytes_of_string (pr_address p) in
  as_bytes (pr_device p) ++ len_prefix address ++ address ++ le_bytes 8 (pr_at_unix p).

Definition departure_payload (d : Departure) : list N :=
  as_bytes (dp_device d) ++ le_bytes 8 (dp_at_unix d).

Definition deletion_payload (d : Deletion) : list N :=
  let name := bytes_of_string (dl_username d) in
  as_bytes (dl_user d) ++ len_prefix name ++ name ++ le_bytes 8 (dl_at_unix d).

Definition registration_payload (r : Registration) : list N :=
  let name := bytes_of_string (rg_username r) in
  len_prefix name ++ name ++ as_bytes (up_id (rg_user r)) ++ up_agreement (rg_user r)
  ++ le_bytes 8 (rg_issued_unix r).

Definition invitation_payload (i : Invitation) : list N :=
  as_bytes (in_inviter i) ++ in_code i ++ le_bytes 8 (in_issued_unix i)
  ++ le_bytes 8 (in_expires_unix i) ++ le_bytes 4 (in_uses i).

(** [char::is_ascii_lowercase], [is_ascii_digit], ['-'] or ['.']. *)
Definition username_char (c : ascii) : bool :=
  let n := N_of_ascii c in
  ((97 <=? n) && (n <=? 122)) || ((48 <=? n) && (n <=? 57)) || (n =? 45) || (n =? 46).

Definition is_punctuation (c : option ascii) : bool :=
  match c with Some c => (N_of_ascii c =? 45) || (N_of_ascii c =? 46) | None => false end.

Definition validate_username (name : string) : result CoordError unit :=
  let cs := String.list_ascii_of_string name in
  if bool_decide (cs = []) || (MAX_USERNAME_LEN <? length cs)%nat
  then Err (Rejected "username must be between 1 and 64 characters")
  else if negb (forallb username_char cs)
  then Err (Rejected "username may contain only lowercase ASCII letters, digits, '-' and '.'")
  else if is_punctuation (head cs) || is_punctuation (last cs)
  then Err (Rejected "username may not start or end with '-' or '.'")
  else Ok tt.

(** Whether this claim replaces [existing]. *)
Definition supersedes (c existing : SignedClaim) : bool :=
  let c := sc_claim c in
  let existing := sc_claim existing in
  if negb (cl_device c =? cl_device existing) then false
  else match cl_revoked existing, cl_revoked c with
       | true, _ => false
       | false, true => true
       | false, false => cl_issued_unix existing <? cl_issued_unix c
       end.

Section messages.
Context `{!Primitives}.

(** [verify(…).map_err(|_| CoordError::BadSignature(what))] *)
Definition check_signature (signer : N) (domain : string) (payload signature : list N)
  (what : string) : result CoordError unit :=
  match verify (as_bytes signer) domain payload signature with
  | Ok _ => Ok tt
  | Err _ => Err (BadSig what)
  end.

(** Refuse a date further ahead than honest clocks drift. *)
Definition not_from_the_future (issued now : N) : result CoordError unit :=
  if sat_add now MAX_CLOCK_SKEW <? issued then Err (FromTheFuture issued now) else Ok tt.

Definition claim_sign (c : NodeClaim) (owner : UserKeys) : SignedClaim :=
  mkSignedClaim c (user_sign owner CLAIM_DOMAIN (claim_payload c)).

Definition claim_verify_origin (s : SignedClaim) : result CoordError unit :=
  check_signature (cl_owner (sc_claim s)) CLAIM_DOMAIN (claim_payload (sc_claim s))
    (sc_signature s) "node claim".

Definition claim_verify (s : SignedClaim) (now : N) : result CoordError unit :=
  _ <-? not_from_the_future (cl_issued_unix (sc_claim s)) now;
  claim_verify_origin s.

Definition presence_sign (p : Presence) (device : DeviceKeys) : SignedPresence :=
  mkSignedPresence p (device_sign device PRESENCE_DOMAIN (presence_payload p)).

Definition presence_verify_origin (s : SignedPresence) : result CoordError unit :=
  let p := sp_presence s in
  if (MAX_ADDRESS_LEN <? String.length (pr_address p))%nat then Err (Rejected "address is too long")
  else if (String.length (pr_address p) =? 0)%nat then Err (Rejected "address is empty")
  else check_signature (pr_device p) PRESENCE_DOMAIN (presence_payload p) (sp_signature s) "presence".

Definition presence_verify (s : SignedPresence) (now : N) : result CoordError unit :=
  _ <-? not_from_the_future (pr_at_unix (sp_presence s)) now;
  presence_verify_origin s.

Definition verify_for (c : ClaimedPresence) (owner : UserId) : result CoordError unit :=
  _ <-? presence_verify_origin (cp_presence c);
  _ <-? claim_verify_origin (cp_claim c);
  let claim := sc_claim (cp_claim c) in
  if negb (cl_owner claim =? owner) then Err (Rejected "the claim names another account")
  else if negb (cl_device claim =? pr_device (sp_presence (cp_presence c)))
  then Err (Rejected "the claim is for another device")
  else if cl_revoked claim then Err (Rejected "the device was withdrawn")
  else Ok tt.

Definition departure_sign (d : Departure) (device : DeviceKeys) : SignedDeparture :=
  mkSignedDeparture d (device_sign device DEPARTURE_DOMAIN (departure_payload d)).

Definition departure_verify (s : SignedDeparture) (now : N) : result CoordError unit :=
  _ <-? not_from_the_future (dp_at_unix (sd_departure s)) now;
  check_signature (dp_device (sd_departure s)) DEPARTURE_DOMAIN
    (departure_payload (sd_departure s)) (sd_signature s) "departure".

Definition deletion_sign (d : Deletion) (user : UserKeys) : SignedDeletion :=
  mkSignedDeletion d (user_sign user DELETION_DOMAIN (deletion_payload d)).

Definition deletion_verify_origin (s : SignedDeletion) : result CoordError unit :=
  check_signature (dl_user (sl_deletion s)) DELETION_DOMAIN
    (deletion_payload (sl_deletion s)) (sl_signature s) "deletion".

Definition deletion_verify (s : SignedDeletion) (now : N) : result CoordError unit :=
  _ <-? not_from_the_future (dl_at_unix (sl_deletion s)) now;
  if MAX_DELETION_AGE <? sat_sub now (dl_at_unix (sl_deletion s))
  then Err (Rejected "this deletion request is too old; sign a new one")
  else deletion_verify_origin s.

Definition registration_sign (r : Registration) (owner : UserKeys) : SignedRegistration :=
  mkSignedRegistration r (user_sign owner REGISTRATION_DOMAIN (registration_payload r)).

Definition registration_verify (s : SignedRegistration) : result CoordError unit :=
  let r := sr_registration s in
  _ <-? validate_username (rg_username r);
  check_signature (up_id (rg_user r)) REGISTRATION_DOMAIN (registration_payload r)
    (sr_signature s) "registration".

(** The identifier an invitation is filed under. *)
Definition code_id (secret : list N) : list N :=
  message_digest "itsanas v1 invitation code id" secret.

Definition invitation_sign (i : Invitation) (inviter : UserKeys) : SignedInvitation :=
  mkSignedInvitation i (user_sign inviter INVITATION_DOMAIN (invitation_payload i)).

Definition invitation_verify (s : SignedInvitation) : result CoordError unit :=
  let i := si_invitation s in
  if in_uses i =? 0 then Err (Rejected "an invitation good for no uses is not an invitation")
  else if in_expires_unix i <=? in_issued_unix i
  then Err (Rejected "an invitation that expires before it is issued")
  else check_signature (in_inviter i) INVITATION_DOMAIN (invitation_payload i)
         (si_signature s) "invitation".

Definition opens_with (s : SignedInvitation) (secret : list N) : bool :=
  bool_decide (code_id secret = in_code (si_invitation s)).

End messages.

(** ** What the payloads bind *)

Definition claim_fits (c : NodeClaim) : Prop :=
  is_id (cl_owner c) /\ is_id (cl_device c) /\ is_u64 (cl_pledged_bytes c) /\ is_u64 (cl_issued_unix c).
Definition text_fits (s : string) : Prop := N.of_nat (String.length s) < u32_max.
Definition presence_fits (p : Presence) : Prop :=
  is_id (pr_device p) /\ text_fits (pr_address p) /\ is_u64 (pr_at_unix p).
Definition departure_fits (d : Departure) : Prop := is_id (dp_device d) /\ is_u64 (dp_at_unix d).
Definition deletion_fits (d : Deletion) : Prop :=
  is_id (dl_user d) /\ text_fits (dl_username d) /\ is_u64 (dl_at_unix d).
Definition registration_fits (r : Registration) : Prop :=
  text_fits (rg_username r) /\ is_id (up_id (rg_user r))
  /\ length (up_agreement (rg_user r)) = 32%nat /\ is_u64 (rg_issued_unix r).
Definition invitation_fits (i : Invitation) : Prop :=
  is_id (in_inviter i) /\ length (in_code i) = 32%nat /\ is_u64 (in_issued_unix i)
  /\ is_u64 (in_expires_unix i) /\ in_uses i <= u32_max.

Lemma length_bytes_of_string s : length (bytes_of_string s) = String.length s.
Proof.
  unfold bytes_of_string. rewrite length_fmap.
  induction s as [|c s IH]; simpl; [done|by rewrite IH].
Qed.

Lemma le_bytes_8_inj a b : is_u64 a -> is_u64 b -> le_bytes 8 a = le_bytes 8 b -> a = b.
Proof.
  unfold is_u64, u64_max. intros Ha Hb H. apply le_bytes_inj in H; [done|..];
    change (256 ^ N.of_nat 8) with (2 ^ 64); lia.
Qed.

Lemma le_bytes_4_inj a b : a <= u32_max -> b <= u32_max -> le_bytes 4 a = le_bytes 4 b -> a = b.
Proof.
  unfold u32_max. intros Ha Hb H. apply le_bytes_inj in H; [done|..];
    change (256 ^ N.of_nat 4) with (2 ^ 32); lia.
Qed.

Lemma text_prefixed_inj a b x y :
  text_fits a -> text_fits b ->
  len_prefix (bytes_of_string a) ++ bytes_of_string a ++ x
    = len_prefix (bytes_of_string b) ++ bytes_of_string b ++ y ->
  a = b /\ x = y.
Proof.
  intros Ha Hb H. apply len_prefixed_inj in H as [H1 H2];
    [|unfold text_fits in *; by rewrite length_bytes_of_string..].
  split; [by apply bytes_of_string_inj|done].
Qed.

(** Read the fields of the messages, and nothing else. *)
Ltac proj :=
  cbn [cl_owner cl_device cl_pledged_bytes cl_issued_unix cl_revoked pr_device pr_address pr_at_unix
       dp_device dp_at_unix dl_user dl_username dl_at_unix rg_username rg_user rg_issued_unix
       up_id up_agreement in_inviter in_code in_issued_unix in_expires_unix in_uses] in *.

(** Take an equation of concatenations of fixed-width fields apart. *)
Ltac fields H :=
  let H1 := fresh "Hf" in let H2 := fresh "Hf" in
  first
    [ apply text_prefixed_inj in H as [H1 H2]; [|done|done]; fields H2
    | apply app_inj_length in H as [H1 H2]; [|by autorewrite with its; congruence]; fields H2
    | idtac ].

(** A signature covers every field of the message it is over: two messages of a
    kind that are within their types' ranges and whose signed bytes are equal
    are the same message, so nothing can be changed, or moved from one field to
    the next, under a signature that still verifies. *)
Theorem payloads_bind_every_field :
  (forall c c', claim_fits c -> claim_fits c' -> claim_payload c = claim_payload c' -> c = c')
  /\ (forall p p', presence_fits p -> presence_fits p' -> presence_payload p = presence_payload p' -> p = p')
  /\ (forall d d', departure_fits d -> departure_fits d' ->
       departure_payload d = departure_payload d' -> d = d')
  /\ (forall d d', deletion_fits d -> deletion_fits d' -> deletion_payload d = deletion_payload d' -> d = d')
  /\ (forall r r', registration_fits r -> registration_fits r' ->
       registration_payload r = registration_payload r' -> r = r')
  /\ (forall i i', invitation_fits i -> invitation_fits i' ->
       invitation_payload i = invitation_payload i' -> i = i').
Proof.
  split; [|split; [|split; [|split; [|split]]]].
  - intros [o d p i r] [o' d' p' i' r'] (?&?&?&?) (?&?&?&?) Heq. unfold claim_payload in Heq. proj.
    fields Heq. f_equal; [by apply as_bytes_inj|by apply as_bytes_inj|by apply le_bytes_8_inj..|].
    by destruct r, r'.
  - intros [d a t] [d' a' t'] (?&?&?) (?&?&?) Heq. unfold presence_payload in Heq. proj.
    fields Heq. f_equal; [by apply as_bytes_inj|done|by apply le_bytes_8_inj].
  - intros [d t] [d' t'] (?&?) (?&?) Heq. unfold departure_payload in Heq. proj.
    fields Heq. f_equal; [by apply as_bytes_inj|by apply le_bytes_8_inj].
  - intros [u n t] [u' n' t'] (?&?&?) (?&?&?) Heq. unfold deletion_payload in Heq. proj.
    fields Heq. f_equal; [by apply as_bytes_inj|done|by apply le_bytes_8_inj].
  - intros [n [u a] t] [n' [u' a'] t'] (?&?&?&?) (?&?&?&?) Heq. unfold registration_payload in Heq. proj.
    fields Heq. f_equal; [done|f_equal; [by apply as_bytes_inj|done]|by apply le_bytes_8_inj].
  - intros [u c i e n] [u' c' i' e' n'] (?&?&?&?&?) (?&?&?&?&?) Heq. unfold invitation_payload in Heq. proj.
    fields Heq. f_equal; [by apply as_bytes_inj|done|by apply le_bytes_8_inj..|by apply le_bytes_4_inj].
Qed.

(** ** Checks succeed on what was signed *)

Section laws.
Context `{!Primitives, !PrimitiveLaws}.

Lemma check_user_sign u domain payload what :
  check_signature (user_id u) domain payload (user_sign u domain payload) what = Ok tt.
Proof.
  unfold check_signature, verify, user_id, user_sign. rewrite verifying_key_bytes.
  by rewrite ed25519_correct.
Qed.

Lemma check_device_sign d domain payload what :
  check_signature (device_id d) domain payload (device_sign d domain payload) what = Ok tt.
Proof. unfold check_signature. by rewrite verify_device_sign. Qed.

Lemma claim_sign_verifies c u now :
  cl_owner c = user_id u -> cl_issued_unix c <= sat_add now MAX_CLOCK_SKEW ->
  claim_verify (claim_sign c u) now = Ok tt.
Proof.
  intros Ho Hd. unfold claim_verify, not_from_the_future. simpl.
  apply N.ltb_ge in Hd. rewrite Hd. simpl. unfold claim_verify_origin. simpl.
  rewrite Ho. apply check_user_sign.
Qed.

End laws.

(** ** Claims settle

    What a claim replaces depends only on the two claims; what is left after any
    number of them does not depend on the order they came in. *)

(** A withdrawal stands above every live claim, which stand by date. *)
Definition claim_rank (c : SignedClaim) : bool * N :=
  if cl_revoked (sc_claim c) then (true, 0) else (false, cl_issued_unix (sc_claim c)).

Definition rank_lt (a b : bool * N) : Prop :=
  match a, b with
  | (false, m), (false, n) => m < n
  | (false, _), (true, _) => True
  | (true, _), _ => False
  end.

Lemma supersedes_rank c e :
  cl_device (sc_claim c) = cl_device (sc_claim e) ->
  supersedes c e = true <-> rank_lt (claim_rank e) (claim_rank c).
Proof.
  intros Hd. unfold supersedes, claim_rank. rewrite Hd, N.eqb_refl. simpl.
  destruct (cl_revoked (sc_claim e)), (cl_revoked (sc_claim c)); simpl; try done.
  apply N.ltb_lt.
Qed.

Lemma rank_lt_trans a b c : rank_lt a b -> rank_lt b c -> rank_lt a c.
Proof. destruct a as [[] ?], b as [[] ?], c as [[] ?]; simpl; try done. lia. Qed.

Lemma rank_total a b : rank_lt a b \/ rank_lt b a \/ a = b \/ (a.1 = true /\ b.1 = true).
Proof.
  destruct a as [[] m], b as [[] n]; simpl; try tauto.
  destruct (N.lt_trichotomy m n) as [?|[->|?]]; tauto.
Qed.
