(* ===== verification/Directory.v ===== *)
(** * Directory: what the coordinator remembers

    Models [crates/itsanas-coord/src/directory.rs]: accounts, device claims,
    presence and availability, invitations, escrow and its counted fetches,
    deletions and suspensions, and the passes that erase what has expired.  A
    table is a finite map, a set for the index of claims by owner, whose key is
    the owner's bytes then the device's; a transaction is one function.  Every
    row decodes, except the hand-made rows of [escrow_tries], which are kept as
    bytes.  [INVITATIONS] is the one table read before it exists: [open] does
    not create it.  An operation that returns an error before its transaction
    commits leaves the directory as it was, and two operations are made of two
    transactions: [delete_account] ([delete_mark], then [forget_account]) and
    the service's [put_escrow]. *)

From S2P Require Import Prelude Version Ids Crypto Accounting Claims.

(** ** The tables *)

Record Account := mkAccount {
  ac_username : string;
  ac_user : UserPublic;
  ac_registered_unix : N;
  ac_escrow_enabled : bool;
}.

Record LodgedInvitation := mkLodged {
  lo_signed : SignedInvitation;
  lo_remaining : N;
  lo_admitted : list UserId;
}.

Record AvailabilityRecord := mkAvailability {
  av_per_mille : N;
  av_last_tick_unix : N;
  av_last_seen_unix : N;
}.

Record DepartureRecord := mkDepartureRecord {
  dr_notice : SignedDeparture;
  dr_received_unix : N;
}.

Record UsageRecord := mkUsage {
  us_bytes : N;
  us_over_since_unix : option N;
  us_reported_unix : N;
}.

Inductive Admission := Open | ByInvitation | Founding.

#[export] Instance Admission_eq_dec : EqDecision Admission.
Proof. solve_decision. Defined.

Record Forgotten := mkForgotten {
  fg_user : UserId;
  fg_devices : nat;
  fg_withdrawals_kept : nat;
}.

(** [ACCOUNTS], [BY_ID], [RETIRED], [DELETED], [SUSPENDED]. *)
Record AccountTables := mkAT {
  accounts : gmap string Account;
  by_id : gmap UserId string;
  retired : gmap string N;
  deleted : gmap UserId SignedDeletion;
  suspended : gmap UserId N;
}.

(** [CLAIMS], [CLAIMS_BY_OWNER]. *)
Record ClaimTables := mkCT {
  claims : gmap DeviceId SignedClaim;
  claims_by_owner : gset (UserId * DeviceId);
}.

(** [PRESENCE], [AVAILABILITY], [DEPARTURES]. *)
Record PresenceTables := mkPT {
  presences : gmap DeviceId SignedPresence;
  availability : gmap DeviceId AvailabilityRecord;
  departures : gmap DeviceId DepartureRecord;
}.

(** [ESCROW], [ESCROW_TRIES], [USAGE]. *)
Record EscrowTables := mkET {
  escrows : gmap UserId (list N);
  escrow_tries : gmap string (list N);
  usages : gmap UserId UsageRecord;
}.

Record Directory := mkDirectory {
  atb : AccountTables;
  ctb : ClaimTables;
  ptb : PresenceTables;
  etb : EscrowTables;
  invitations : option (gmap (list N) LodgedInvitation);
}.

Definition empty_directory : Directory :=
  mkDirectory (mkAT ∅ ∅ ∅ ∅ ∅) (mkCT ∅ ∅) (mkPT ∅ ∅ ∅) (mkET ∅ ∅ ∅) None.

Definition on_atb (f : AccountTables -> AccountTables) (d : Directory) : Directory :=
  mkDirectory (f (atb d)) (ctb d) (ptb d) (etb d) (invitations d).
Definition on_ctb (f : ClaimTables -> ClaimTables) (d : Directory) : Directory :=
  mkDirectory (atb d) (f (ctb d)) (ptb d) (etb d) (invitations d).
Definition on_ptb (f : PresenceTables -> PresenceTables) (d : Directory) : Directory :=
  mkDirectory (atb d) (ctb d) (f (ptb d)) (etb d) (invitations d).
Definition on_etb (f : EscrowTables -> EscrowTables) (d : Directory) : Directory :=
  mkDirectory (atb d) (ctb d) (ptb d) (f (etb d)) (invitations d).
Definition with_invitations (i : option (gmap (list N) LodgedInvitation)) (d : Directory) : Directory :=
  mkDirectory (atb d) (ctb d) (ptb d) (etb d) i.

Definition with_suspended (s : gmap UserId N) (t : AccountTables) : AccountTables :=
  mkAT (accounts t) (by_id t) (retired t) (deleted t) s.
Definition with_retired (r : gmap string N) (t : AccountTables) : AccountTables :=
  mkAT (accounts t) (by_id t) r (deleted t) (suspended t).
Definition with_accounts (a : gmap string Account) (i : gmap UserId string) (t : AccountTables) : AccountTables :=
  mkAT a i (retired t) (deleted t) (suspended t).
Definition with_usages (u : gmap UserId UsageRecord) (t : EscrowTables) : EscrowTables :=
  mkET (escrows t) (escrow_tries t) u.
Definition with_escrows (e : gmap UserId (list N)) (t : EscrowTables) : EscrowTables :=
  mkET e (escrow_tries t) (usages t).
Definition with_tries (e : gmap string (list N)) (t : EscrowTables) : EscrowTables :=
  mkET (escrows t) e (usages t).

(** ** Constants *)

Definition TICK_SECONDS : N := 15 * 60.
Definition SMOOTHING_ALPHA_PER_MILLE : N := 10.
Definition NAME_RETIRED_FOR : N := 365 * 24 * 3600.
Definition MAX_ESCROW_LEN : nat := 4096.

(** ** Reading accounts *)

Definition account (d : Directory) (username : string) : option Account := accounts (atb d) !! username.

Definition account_of (d : Directory) (user : UserId) : option Account :=
  by_id (atb d) !! user ≫= account d.

Definition is_empty (d : Directory) : bool := bool_decide (size (accounts (atb d)) = 0%nat).

Definition is_suspended (d : Directory) (user : UserId) : bool :=
  bool_decide (is_Some (suspended (atb d) !! user)).

Definition refuse_if_retired (d : Directory) (name : string) (user : UserId) (now : N)
  : result CoordError unit :=
  match deleted (atb d) !! user with
  | Some _ => Err Deleted
  | None =>
      match retired (atb d) !! name with
      | Some until => if now <? until then Err (Retired name until) else Ok tt
      | None => Ok tt
      end
  end.

(** ** Claims *)

(** The rows of one owner, in device order. *)
Definition owner_devices (index : gset (UserId * DeviceId)) (user : UserId) : list DeviceId :=
  merge_sort N.le (snd <$> elements (filter (fun p => p.1 = user) index)).

Definition live_claims_in (t : ClaimTables) (user : UserId) : list SignedClaim :=
  omap (fun device =>
          match claims t !! device with
          | Some signed => if cl_revoked (sc_claim signed) then None else Some signed
          | None => None
          end)
       (owner_devices (claims_by_owner t) user).

Definition live_claims_of (d : Directory) (user : UserId) : list SignedClaim :=
  if is_suspended d user then [] else live_claims_in (ctb d) user.

Definition claim_for (d : Directory) (device : DeviceId) : option SignedClaim := claims (ctb d) !! device.

Definition live_claims (d : Directory) : list SignedClaim :=
  filter (fun s => cl_revoked (sc_claim s) = false /\ is_suspended d (cl_owner (sc_claim s)) = false)
    (btree_iter (claims (ctb d))).*2.

Definition enrolled_counts (d : Directory) : nat * nat :=
  (size (claims (ctb d)), size (claims_by_owner (ctb d))).

(** The ids of [live], for a refusal a person reads. *)
Definition named (live : list SignedClaim) : string :=
  let SHOWN := (MAX_DEVICES_PER_ACCOUNT + 3)%nat in
  let out := (fun c => to_hex (cl_device (sc_claim c))) <$> take SHOWN live in
  let out := if (SHOWN <? length live)%nat
             then out ++ [("and " ++ String.string_of_list_ascii
                            (decimal (N.of_nat (length live - SHOWN))) ++ " more")%string]
             else out in
  String.concat ", " out.

(** Every claim's row in the index, when the two tables differ in size. *)
Definition rebuild_owner_index_if_missing (d : Directory) : Directory :=
  if (size (claims (ctb d)) =? size (claims_by_owner (ctb d)))%nat then d
  else on_ctb (fun t =>
         mkCT (claims t)
           (foldl (fun index row => {[(cl_owner (sc_claim row.2), cl_device (sc_claim row.2))]} ∪ index)
              (claims_by_owner t) (btree_iter (claims t)))) d.

(** Opening the file at [path]: what it holds, or nothing. *)
Definition open_directory (on_disk : option Directory) : Directory :=
  rebuild_owner_index_if_missing (default empty_directory on_disk).

(** ** Availability arithmetic *)

Definition fold (current : N) (seen : bool) : N :=
  let observation := if seen then 1000 else 0 in
  let smoothed := (current * (1000 - SMOOTHING_ALPHA_PER_MILLE)
                   + observation * SMOOTHING_ALPHA_PER_MILLE) / 1000 in
  N.min smoothed 1000.

(** [for period in 0..periods] *)
Fixpoint fold_periods (periods : nat) (period : N) (r : AvailabilityRecord) (per_mille : N) : N :=
  match periods with
  | O => per_mille
  | S n =>
      let period_end := sat_add (av_last_tick_unix r) ((period + 1) * TICK_SECONDS) in
      let seen := period_end <=? sat_add (av_last_seen_unix r) TICK_SECONDS in
      fold_periods n (period + 1) r (fold per_mille seen)
  end.

(** One row of a pass: [None] when less than a period has gone by. *)
Definition tick_row (now : N) (r : AvailabilityRecord) : option AvailabilityRecord :=
  let elapsed := sat_sub now (av_last_tick_unix r) in
  if elapsed <? TICK_SECONDS then None
  else
    let periods := N.min (elapsed / TICK_SECONDS) 32 in
    Some (mkAvailability (fold_periods (N.to_nat periods) 0 r (av_per_mille r)) now (av_last_seen_unix r)).

(** ** Escrow counts *)

Definition escrow_try (bytes : list N) : option (N * N) :=
  if (length bytes <? 12)%nat then None
  else Some (of_le_bytes (take 4 bytes), of_le_bytes (take 8 (drop 4 bytes))).

Definition window_over (since now window : N) : bool := (since <=? now) && (window <=? now - since).

(** Whether a row's window is over, or it cannot be read. *)
Definition try_stale (now window : N) (bytes : list N) : bool :=
  match escrow_try bytes with
  | Some (_, since) => window_over since now window
  | None => true
  end.

(** A row: [count] then [since], little-endian. *)
Definition escrow_row (count since : N) : list N := le_bytes 4 count ++ le_bytes 8 since.

(** Counting one fetch of [username] in the table of counts. *)
Definition count_attempt (t : gmap string (list N)) (username : string)
  (now allowed window : N) (capacity : nat) : bool * gmap string (list N) :=
  let purged := if (capacity <=? size t)%nat
                then filter (fun row => try_stale now window row.2 = false) t else t in
  let fresh := (if (size purged <? capacity)%nat then Some (1, now) else None, purged) in
  let '(next, t) :=
    match t !! username ≫= escrow_try with
    | Some (count, since) =>
        if window_over since now window then (Some (1, now), t)
        else if allowed <=? count then (None, t)
        else (Some (count + 1, since), t)
    | None => fresh
    end in
  match next with
  | Some (count, since) => (true, <[username := escrow_row count since]> t)
  | None => (false, t)
  end.

(** ** Operations *)

Abbreviation Op A := (M Directory CoordError A) (only parsing).

Section operations.
Context `{!Primitives}.

(** Spend one use of the invitation [secret] opens, in the table of the
    caller's transaction. *)
Definition redeem_in (table : gmap (list N) LodgedInvitation) (secret : list N) (joiner : UserId) (now : N)
  : result CoordError (UserId * gmap (list N) LodgedInvitation) :=
  let refused := Rejected "that invitation cannot be used" in
  let key := code_id secret in
  match table !! key with
  | None => Err refused
  | Some lodged =>
      match invitation_verify (lo_signed lodged) with
      | Err _ => Err refused
      | Ok _ =>
          if negb (opens_with (lo_signed lodged) secret) || (lo_remaining lodged =? 0)
             || (in_expires_unix (si_invitation (lo_signed lodged)) <=? now)
          then Err refused
          else
            let lodged :=
              if decide (joiner ∈ lo_admitted lodged) then lodged
              else mkLodged (lo_signed lodged) (lo_remaining lodged - 1) (lo_admitted lodged ++ [joiner]) in
            Ok (in_inviter (si_invitation (lo_signed lodged)), <[key := lodged]> table)
      end
  end.

Definition register_admitted (signed : SignedRegistration) (secret : option (list N))
  (admission : Admission) (now : N) : Op Account :=
  lift (registration_verify signed) ;;!
  let user := rg_user (sr_registration signed) in
  let joiner := up_id user in
  let name := rg_username (sr_registration signed) in
  d <-! gets (fun d => d);
  lift (refuse_if_retired d name joiner now) ;;!
  if is_suspended d joiner then throw Suspended
  else
    let held := account_of d joiner in
    let founding := bool_decide (admission = Founding) && is_empty d in
    let closed := bool_decide (admission = ByInvitation) || bool_decide (admission = Founding) in
    let needs_invitation := closed && negb (bool_decide (is_Some held)) && negb founding in
    if needs_invitation && bool_decide (secret = None)
    then throw (Rejected "this coordinator admits new members by invitation only")
    else if match held with Some a => negb (bool_decide (ac_username a = name)) | None => false end
    then throw (Rejected "this key already has an account under another name")
    else
      account <-! lift
        (match accounts (atb d) !! name with
         | Some existing =>
             if negb (up_id (ac_user existing) =? joiner) then Err (NameTaken name)
             else Ok (mkAccount (ac_username existing) user (ac_registered_unix existing)
                        (ac_escrow_enabled existing))
         | None => Ok (mkAccount name user now false)
         end);
      table <-! lift
        (if needs_invitation then
           match secret with
           | Some secret =>
               redeemed <-? redeem_in (default ∅ (invitations d)) secret joiner now;
               Ok (Some redeemed.2)
           | None => Err (Rejected "this coordinator admits new members by invitation only")
           end
         else Ok (invitations d));
      modify (fun d =>
        with_invitations table
          (on_atb (fun t => with_accounts (<[name := account]> (accounts t))
                              (<[up_id (ac_user account) := name]> (by_id t)) t) d)) ;;!
      ret account.

Definition register (signed : SignedRegistration) (now : N) : Op Account :=
  register_admitted signed None Open now.

Definition lodge_invitation (signed : SignedInvitation) (now : N) : Op LodgedInvitation :=
  lift (invitation_verify signed) ;;!
  let i := si_invitation signed in
  if in_expires_unix i <=? now then throw (Rejected "that invitation has already expired")
  else
    d <-! gets (fun d => d);
    if bool_decide (account_of d (in_inviter i) = None)
    then throw (Rejected "the inviter is not a member of this coordinator")
    else
      let table := default ∅ (invitations d) in
      let lodged := match table !! in_code i with
                    | Some lodged => lodged
                    | None => mkLodged signed (in_uses i) []
                    end in
      modify (with_invitations (Some (<[in_code i := lodged]> table))) ;;!
      ret lodged.

(** Reading a table that does not exist is a database error. *)
Definition invitation (d : Directory) (code : list N) : option (option LodgedInvitation) :=
  (fun table : gmap (list N) LodgedInvitation => table !! code) <$> invitations d.

(** The loop of [forget_account] over the owner's rows. *)
Definition forget_device (owner : UserId) (acc : ClaimTables * PresenceTables * Forgotten) (device : DeviceId)
  : ClaimTables * PresenceTables * Forgotten :=
  let '(ct, pt, f) := acc in
  let revoked := match claims ct !! device with
                 | Some signed => cl_revoked (sc_claim signed)
                 | None => false
                 end in
  if revoked then (ct, pt, mkForgotten (fg_user f) (fg_devices f) (S (fg_withdrawals_kept f)))
  else (mkCT (delete device (claims ct)) (claims_by_owner ct ∖ {[(owner, device)]}),
        mkPT (delete device (presences pt)) (delete device (availability pt)) (departures pt),
        mkForgotten (fg_user f) (S (fg_devices f)) (fg_withdrawals_kept f)).

Definition forget_account (username : string) : Op (option Forgotten) :=
  d <-! gets (fun d => d);
  match accounts (atb d) !! username with
  | None => ret None
  | Some account =>
      let owner := up_id (ac_user account) in
      let '(ct, pt, forgotten) :=
        foldl (forget_device owner) (ctb d, ptb d, mkForgotten owner 0 0)
          (owner_devices (claims_by_owner (ctb d)) owner) in
      modify (fun d =>
        mkDirectory
          (with_accounts (delete username (accounts (atb d))) (delete owner (by_id (atb d))) (atb d))
          ct pt
          (mkET (delete owner (escrows (etb d))) (delete username (escrow_tries (etb d)))
                (delete owner (usages (etb d))))
          (invitations d)) ;;!
      ret (Some forgotten)
  end.

(** The first transaction of [delete_account]: the tombstone and the name. *)
Definition delete_mark (signed : SignedDeletion) (now : N) (d : Directory) : Directory :=
  on_atb (fun t => mkAT (accounts t) (by_id t)
                     (<[dl_username (sl_deletion signed) := sat_add now NAME_RETIRED_FOR]> (retired t))
                     (<[dl_user (sl_deletion signed) := signed]> (deleted t)) (suspended t)) d.

(** The checks before it. *)
Definition delete_checks (signed : SignedDeletion) (now : N) : Op unit :=
  lift (deletion_verify signed now) ;;!
  d <-! gets (fun d => d);
  match account_of d (dl_user (sl_deletion signed)) with
  | Some account =>
      if bool_decide (ac_username account = dl_username (sl_deletion signed)) then ret tt
      else throw (NoSuchAccount (dl_username (sl_deletion signed)))
  | None => throw (NoSuchAccount (dl_username (sl_deletion signed)))
  end.

Definition delete_account (signed : SignedDeletion) (now : N) : Op unit :=
  delete_checks signed now ;;!
  modify (delete_mark signed now) ;;!
  forget_account (dl_username (sl_deletion signed)) ;;!
  ret tt.

Definition deleted_among (d : Directory) (users : list UserId) : list SignedDeletion :=
  omap (fun user => deleted (atb d) !! user) users.

Definition suspend (user : UserId) (now : N) : Op bool :=
  d <-! gets (fun d => d);
  if bool_decide (account_of d user = None) then throw (NoSuchAccount (short user))
  else
    let fresh := negb (is_suspended d user) in
    modify (on_atb (fun t => if fresh then with_suspended (<[user := now]> (suspended t)) t else t)) ;;!
    ret fresh.

Definition unsuspend (user : UserId) : Op bool :=
  was <-! gets (fun d => is_suspended d user);
  modify (on_atb (fun t => with_suspended (delete user (suspended t)) t)) ;;!
  ret was.

Definition set_escrow_enabled (user : UserId) (enabled : bool) : Op unit :=
  d <-! gets (fun d => d);
  match account_of d user with
  | None => throw (NoSuchAccount (short user))
  | Some a =>
      let a := mkAccount (ac_username a) (ac_user a) (ac_registered_unix a) enabled in
      modify (on_atb (fun t => with_accounts (<[ac_username a := a]> (accounts t)) (by_id t) t))
  end.

(** Record a device claim, if it is newer than what is held. *)
Definition claim (signed : SignedClaim) (now : N) : Op bool :=
  lift (claim_verify signed now) ;;!
  let c := sc_claim signed in
  d <-! gets (fun d => d);
  if bool_decide (account_of d (cl_owner c) = None) then throw (NoSuchAccount (short (cl_owner c)))
  else if negb (cl_revoked c) && is_suspended d (cl_owner c) then throw Suspended
  else
    let existing := claims (ctb d) !! cl_device c in
    let live := live_claims_in (ctb d) (cl_owner c) in
    if bool_decide (existing = None) && negb (cl_revoked c) && (MAX_DEVICES_PER_ACCOUNT <=? length live)%nat
    then throw (TooManyDevices (length live) MAX_DEVICES_PER_ACCOUNT (named live))
    else
      changed <-! lift
        (match existing with
         | None => Ok true
         | Some existing =>
             if negb (cl_owner (sc_claim existing) =? cl_owner c)
             then Err (Rejected "that device is already claimed by another account")
             else if cl_revoked (sc_claim existing) && negb (cl_revoked c)
             then Err (Rejected "that device was withdrawn from this account, and a withdrawal is final; log in afresh on that machine, which gives it a new device id")
             else Ok (supersedes signed existing)
         end);
      modify (on_ctb (fun t =>
        if (changed : bool)
        then mkCT (<[cl_device c := signed]> (claims t))
               ({[(cl_owner c, cl_device c)]} ∪ claims_by_owner t)
        else t)) ;;!
      ret changed.

Definition keep_presence (signed : SignedPresence) (now : N) : Op unit :=
  let device := pr_device (sp_presence signed) in
  d <-! gets (fun d => d);
  match claim_for d device with
  | Some held =>
      if cl_revoked (sc_claim held) then throw (UnclaimedDevice (short device))
      else if is_suspended d (cl_owner (sc_claim held)) then throw Suspended
      else
        modify (on_ptb (fun t =>
          let record := match availability t !! device with
                        | Some r => r
                        | None => mkAvailability AVAILABILITY_FLOOR_PER_MILLE now now
                        end in
          mkPT (<[device := signed]> (presences t))
            (<[device := mkAvailability (av_per_mille record) (av_last_tick_unix record) now]> (availability t))
            (departures t)))
  | None => throw (UnclaimedDevice (short device))
  end.

Definition announce (signed : SignedPresence) (now : N) : Op unit :=
  lift (presence_verify signed now) ;;!
  keep_presence signed now.

Definition depart (signed : SignedDeparture) (now : N) : Op unit :=
  let device := dp_device (sd_departure signed) in
  lift (departure_verify signed now) ;;!
  d <-! gets (fun d => d);
  match claim_for d device with
  | Some held =>
      if cl_revoked (sc_claim held) then throw (UnclaimedDevice (short device))
      else modify (on_ptb (fun t => mkPT (presences t) (availability t)
                                      (<[device := mkDepartureRecord signed now]> (departures t))))
  | None => throw (UnclaimedDevice (short device))
  end.

Definition departed (d : Directory) (device : DeviceId) : option N :=
  dr_received_unix <$> departures (ptb d) !! device.
Definition last_seen (d : Directory) (device : DeviceId) : option N :=
  av_last_seen_unix <$> availability (ptb d) !! device.
Definition presence_of (d : Directory) (device : DeviceId) : option SignedPresence :=
  presences (ptb d) !! device.

(** Rows from [after] on, then the rows before it, at most [scan]. *)
Definition presences_after (d : Directory) (after : DeviceId) (scan : nat) : list SignedPresence :=
  let rows := btree_iter (presences (ptb d)) in
  take scan ((filter (fun row => after <= row.1) rows).*2 ++ (filter (fun row => row.1 < after) rows).*2).

(** Whether a pass erases the row of a device. *)
Definition presence_silent (d : Directory) (now older_than : N) (device : DeviceId) (s : SignedPresence) : bool :=
  let said := pr_at_unix (sp_presence s) in
  let heard := match availability (ptb d) !! device with Some r => av_last_seen_unix r | None => 0 end in
  older_than <? sat_sub now (N.max heard said).

Definition expire_presence (now older_than : N) : Op nat :=
  d <-! gets (fun d => d);
  let silent := (filter (fun row => presence_silent d now older_than row.1 row.2 = true)
                   (btree_iter (presences (ptb d)))).*1 in
  modify (on_ptb (fun t =>
    mkPT (foldl (fun m device => delete device m) (presences t) silent)
      (foldl (fun m device => delete device m) (availability t) silent) (departures t))) ;;!
  ret (length silent).

Definition expire_retired_names (now : N) : Op nat :=
  t <-! gets (fun d => retired (atb d));
  modify (on_atb (fun t => with_retired (filter (fun row => (row.2 <=? now) = false) (retired t)) t)) ;;!
  ret (size (filter (fun row : string * N => (row.2 <=? now) = true) t)).

Definition expire_escrow_tries (now window : N) : Op nat :=
  t <-! gets (fun d => escrow_tries (etb d));
  modify (on_etb (fun t => with_tries (filter (fun row => try_stale now window row.2 = false) (escrow_tries t)) t)) ;;!
  ret (size (filter (fun row : string * list N => try_stale now window row.2 = true) t)).

Definition tick (now : N) : Op nat :=
  t <-! gets (fun d => availability (ptb d));
  modify (on_ptb (fun t =>
    mkPT (presences t) ((fun r => default r (tick_row now r)) <$> availability t) (departures t))) ;;!
  ret (size (omap (tick_row now) t)).

Definition contributions (d : Directory) (user : UserId) : list DeviceContribution :=
  sort_by (fun a b => dc_device a <=? dc_device b)
    ((fun signed =>
        let device := cl_device (sc_claim signed) in
        mkContribution device (cl_pledged_bytes (sc_claim signed))
          (match availability (ptb d) !! device with
           | Some r => av_per_mille r
           | None => AVAILABILITY_FLOOR_PER_MILLE
           end))
     <$> live_claims_of d user).

Definition usage (d : Directory) (user : UserId) : option (N * option N) :=
  (fun r => (us_bytes r, us_over_since_unix r)) <$> usages (etb d) !! user.

Definition report_usage (user : UserId) (bytes now : N) : Op unit :=
  previous <-! gets (fun d => usage d user);
  let over_since := match previous with Some (_, Some since) => Some since | _ => None end in
  modify (on_etb (fun t => with_usages (<[user := mkUsage bytes over_since now]> (usages t)) t)).

Definition set_over_since (user : UserId) (since : option N) (now : N) : Op unit :=
  previous <-! gets (fun d => usage d user);
  let bytes := match previous with Some (bytes, _) => bytes | None => 0 end in
  modify (on_etb (fun t => with_usages (<[user := mkUsage bytes since now]> (usages t)) t)).

Definition put_escrow (user : UserId) (blob : list N) : Op unit :=
  if (MAX_ESCROW_LEN <? length blob)%nat then throw (Rejected "escrow blob is too large")
  else modify (on_etb (fun t => with_escrows (<[user := blob]> (escrows t)) t)).

Definition count_escrow_attempt (username : string) (now allowed window : N) (capacity : nat) : Op bool :=
  t <-! gets (fun d => escrow_tries (etb d));
  let '(granted, t) := count_attempt t username now allowed window capacity in
  modify (on_etb (with_tries t)) ;;!
  ret granted.

Definition escrow (d : Directory) (username : string) : option (list N) :=
  match account d username with
  | Some a => if ac_escrow_enabled a then escrows (etb d) !! up_id (ac_user a) else None
  | None => None
  end.

End operations.
