(* ===== verification/DirectoryOk.v ===== *)
(** * DirectoryOk: what every directory a coordinator can reach satisfies

    The operations of [Directory] as one type of steps, the invariant of the
    tables, its preservation by every step, and what follows over any sequence
    of steps: a withdrawal is final, a name keeps its key, a deleted account
    stays deleted. *)

From S2P Require Import Prelude Version Ids Crypto Accounting Claims Directory.

(** ** Steps

    One constructor per operation that writes.  [ODeleteCrash] is a
    [delete_account] that stops between its two transactions; [OOpen] closes the
    file and opens it again. *)
Inductive DirOp :=
| ORegister (signed : SignedRegistration) (secret : option (list N)) (admission : Admission) (now : N)
| OLodge (signed : SignedInvitation) (now : N)
| OForget (username : string)
| ODelete (signed : SignedDeletion) (now : N)
| ODeleteCrash (signed : SignedDeletion) (now : N)
| OSuspend (user : UserId) (now : N)
| OUnsuspend (user : UserId)
| OEscrowEnabled (user : UserId) (enabled : bool)
| OClaim (signed : SignedClaim) (now : N)
| OAnnounce (signed : SignedPresence) (now : N)
| ODepart (signed : SignedDeparture) (now : N)
| OExpirePresence (now older_than : N)
| OExpireNames (now : N)
| OExpireTries (now window : N)
| OTick (now : N)
| OReportUsage (user : UserId) (bytes now : N)
| OSetOver (user : UserId) (since : option N) (now : N)
| OPutEscrow (user : UserId) (blob : list N)
| OCount (username : string) (now allowed window : N) (capacity : nat)
| OOpen.

Section steps.
Context `{HPrim : !Primitives}.

Definition step (o : DirOp) (d : Directory) : Directory :=
  match o with
  | ORegister signed secret admission now => (register_admitted signed secret admission now d).2
  | OLodge signed now => (lodge_invitation signed now d).2
  | OForget username => (forget_account username d).2
  | ODelete signed now => (delete_account signed now d).2
  | ODeleteCrash signed now => (bind (delete_checks signed now) (fun _ => modify (delete_mark signed now)) d).2
  | OSuspend user now => (suspend user now d).2
  | OUnsuspend user => (unsuspend user d).2
  | OEscrowEnabled user enabled => (set_escrow_enabled user enabled d).2
  | OClaim signed now => (claim signed now d).2
  | OAnnounce signed now => (announce signed now d).2
  | ODepart signed now => (depart signed now d).2
  | OExpirePresence now older_than => (expire_presence now older_than d).2
  | OExpireNames now => (expire_retired_names now d).2
  | OExpireTries now window => (expire_escrow_tries now window d).2
  | OTick now => (tick now d).2
  | OReportUsage user bytes now => (report_usage user bytes now d).2
  | OSetOver user since now => (set_over_since user since now d).2
  | OPutEscrow user blob => (put_escrow user blob d).2
  | OCount username now allowed window capacity => (count_escrow_attempt username now allowed window capacity d).2
  | OOpen => open_directory (Some d)
  end.

Definition run (ops : list DirOp) (d : Directory) : Directory := foldl (fun d o => step o d) d ops.

(** ** The invariant *)

(** Each account is filed under its own name and its key names it, and each key
    names the one account that has it. *)
Definition accounts_ok (t : AccountTables) : Prop :=
  (forall n a, accounts t !! n = Some a -> ac_username a = n /\ by_id t !! up_id (ac_user a) = Some n)
  /\ (forall u n, by_id t !! u = Some n -> exists a, accounts t !! n = Some a /\ up_id (ac_user a) = u).

(** Each claim is genuine and filed under its device. *)
Definition claims_genuine (t : ClaimTables) : Prop :=
  forall dev s, claims t !! dev = Some s -> cl_device (sc_claim s) = dev /\ claim_verify_origin s = Ok tt.

(** The index by owner lists exactly the claims. *)
Definition index_agrees (t : ClaimTables) : Prop :=
  forall o dev, (o, dev) ∈ claims_by_owner t
    <-> exists s, claims t !! dev = Some s /\ cl_owner (sc_claim s) = o.

Definition devices_bounded (t : ClaimTables) : Prop :=
  forall u, (length (live_claims_in t u) <= MAX_DEVICES_PER_ACCOUNT)%nat.

(** A live claim belongs to a registered account. *)
Definition owners_registered (a : AccountTables) (t : ClaimTables) : Prop :=
  forall dev s, claims t !! dev = Some s -> cl_revoked (sc_claim s) = false ->
    is_Some (by_id a !! cl_owner (sc_claim s)).

(** An address is the one its device signed, for a device with a claim, and an
    availability is at most full marks. *)
Definition presences_ok (t : ClaimTables) (p : PresenceTables) : Prop :=
  (forall dev s, presences p !! dev = Some s ->
     pr_device (sp_presence s) = dev /\ presence_verify_origin s = Ok tt /\ is_Some (claims t !! dev))
  /\ (forall dev r, availability p !! dev = Some r -> av_per_mille r <= 1000).

(** What is left of an invitation is what was signed less who came in. *)
Definition invitation_ok (code : list N) (lo : LodgedInvitation) : Prop :=
  in_code (si_invitation (lo_signed lo)) = code
  /\ invitation_verify (lo_signed lo) = Ok tt
  /\ lo_remaining lo + N.of_nat (length (lo_admitted lo)) = in_uses (si_invitation (lo_signed lo))
  /\ NoDup (lo_admitted lo).

Definition invitations_ok (t : option (gmap (list N) LodgedInvitation)) : Prop :=
  forall code lo, (default ∅ t : gmap (list N) LodgedInvitation) !! code = Some lo -> invitation_ok code lo.

Record dir_ok (d : Directory) : Prop := mkOk {
  ok_accounts : accounts_ok (atb d);
  ok_genuine : claims_genuine (ctb d);
  ok_index : index_agrees (ctb d);
  ok_bounded : devices_bounded (ctb d);
  ok_owners : owners_registered (atb d) (ctb d);
  ok_presences : presences_ok (ctb d) (ptb d);
  ok_invitations : invitations_ok (invitations d);
}.

(** ** The live claims of an account *)

Lemma elem_of_owner_devices index u dev : dev ∈ owner_devices index u <-> (u, dev) ∈ index.
Proof.
  unfold owner_devices. rewrite merge_sort_Permutation, list_elem_of_fmap. split.
  - intros ([u' dev'] & -> & Hin). apply elem_of_elements, elem_of_filter in Hin as [<- Hin]. done.
  - intros Hin. exists (u, dev). split; [done|]. by apply elem_of_elements, elem_of_filter.
Qed.

Lemma NoDup_owner_devices index u : NoDup (owner_devices index u).
Proof.
  unfold owner_devices. rewrite merge_sort_Permutation. apply NoDup_fmap_2_strong; [|apply NoDup_elements].
  intros [a b] [a' b'] H1 H2. apply elem_of_elements, elem_of_filter in H1 as [H1 _], H2 as [H2 _].
  simpl in *. congruence.
Qed.

Definition is_live (u : UserId) (row : DeviceId * SignedClaim) : Prop :=
  cl_owner (sc_claim row.2) = u /\ cl_revoked (sc_claim row.2) = false.

#[export] Instance is_live_dec u row : Decision (is_live u row).
Proof. unfold is_live. apply _. Defined.

(** Through the index, exactly the live claims of the account are read. *)
Lemma live_claims_in_perm t u :
  index_agrees t -> live_claims_in t u ≡ₚ (map_to_list (filter (is_live u) (claims t))).*2.
Proof.
  intros Hix. unfold live_claims_in.
  set (f := fun dev => match claims t !! dev with
    | Some s => if cl_revoked (sc_claim s) then None else Some s | None => None end).
  assert (Hf : forall dev s, f dev = Some s <-> claims t !! dev = Some s /\ cl_revoked (sc_claim s) = false).
  { intros dev s. unfold f. destruct (claims t !! dev) as [s'|]; [|naive_solver].
    destruct (cl_revoked (sc_claim s')) eqn:Hr; split; intros; destruct_and?; simplify_eq; try done. congruence. }
  set (g := fun dev => pair dev <$> f dev).
  assert (Hg : forall l, omap f l = (omap g l).*2).
  { intros l. induction l as [|dev l IH]; [done|]. csimpl. unfold g at 1.
    destruct (f dev); csimpl; by rewrite IH. }
  rewrite Hg. apply fmap_Permutation, NoDup_Permutation.
  - assert (Hfst : forall l, NoDup l -> NoDup (omap g l)).
    { induction 1 as [|dev l Hn _ IH]; [constructor|]. csimpl. unfold g at 1.
      destruct (f dev) as [s|]; csimpl; [|done]. constructor; [|done].
      rewrite list_elem_of_omap. intros (dev' & Hin & Hs). unfold g in Hs.
      destruct (f dev'); naive_solver. }
    apply Hfst, NoDup_owner_devices.
  - apply NoDup_map_to_list.
  - intros [dev s]. rewrite elem_of_map_to_list, map_lookup_filter_Some, list_elem_of_omap.
    unfold is_live. simpl. split.
    + intros (dev' & Hin & Hs). unfold g in Hs. destruct (f dev') as [s'|] eqn:Hd; [|done]. simplify_eq/=.
      apply Hf in Hd as [Hc Hr]. apply elem_of_owner_devices, Hix in Hin as (s'' & Hs'' & Ho).
      split; [done|]. split; congruence.
    + intros (Hc & Ho & Hr). exists dev. split.
      * apply elem_of_owner_devices, Hix. eauto.
      * unfold g. by rewrite (proj2 (Hf dev s) (conj Hc Hr)).
Qed.

Lemma length_live_claims_in t u :
  index_agrees t -> length (live_claims_in t u) = size (filter (is_live u) (claims t)).
Proof. intros Hix. by rewrite (live_claims_in_perm t u Hix), length_fmap, length_map_to_list. Qed.

Lemma elem_of_live_claims_in t u s :
  index_agrees t -> s ∈ live_claims_in t u <->
    exists dev, claims t !! dev = Some s /\ cl_owner (sc_claim s) = u /\ cl_revoked (sc_claim s) = false.
Proof.
  intros Hix. rewrite (live_claims_in_perm t u Hix), list_elem_of_fmap. split.
  - intros ([dev s'] & -> & Hin). apply elem_of_map_to_list, map_lookup_filter_Some in Hin as [Hc [Ho Hr]]. eauto.
  - intros (dev & Hc & Ho & Hr). exists (dev, s). split; [done|].
    apply elem_of_map_to_list, map_lookup_filter_Some. done.
Qed.

(** ** What each operation does

    An operation is refused and changes nothing, or does exactly one thing. *)

(** Whether a newcomer must show an invitation. *)
Definition invited_only (d : Directory) (admission : Admission) (user : UserId) : bool :=
  (bool_decide (admission = ByInvitation) || bool_decide (admission = Founding))
  && negb (bool_decide (is_Some (account_of d user)))
  && negb (bool_decide (admission = Founding) && is_empty d).

Lemma register_cases signed secret admission now d r d' :
  register_admitted signed secret admission now d = (r, d') ->
  let user := rg_user (sr_registration signed) in
  let name := rg_username (sr_registration signed) in
  (exists e, r = Err e /\ d' = d)
  \/ (exists a table,
        r = Ok a
        /\ registration_verify signed = Ok tt
        /\ refuse_if_retired d name (up_id user) now = Ok tt
        /\ is_suspended d (up_id user) = false
        /\ (forall h, account_of d (up_id user) = Some h -> ac_username h = name)
        /\ ac_user a = user
        /\ match accounts (atb d) !! name with
           | Some ex => up_id (ac_user ex) = up_id user
               /\ a = mkAccount (ac_username ex) user (ac_registered_unix ex) (ac_escrow_enabled ex)
           | None => a = mkAccount name user now false
           end
        /\ (if invited_only d admission (up_id user)
            then exists sec inviter t, secret = Some sec /\ table = Some t
                   /\ redeem_in (default ∅ (invitations d)) sec (up_id user) now = Ok (inviter, t)
            else table = invitations d)
        /\ d' = with_invitations table
             (on_atb (fun t => with_accounts (<[name := a]> (accounts t))
                                 (<[up_id user := name]> (by_id t)) t) d)).
Proof.
  intros Hrun user name. unfold register_admitted in Hrun. cbv zeta in Hrun. fold user name in Hrun.
  unfold bind, lift, gets, throw, modify, ret in Hrun.
  destruct (registration_verify signed) as [[]|e] eqn:Hv; [|injection Hrun as <- <-; left; eauto].
  destruct (refuse_if_retired d name (up_id user) now) as [[]|e] eqn:Hret;
    [|injection Hrun as <- <-; left; eauto].
  destruct (is_suspended d (up_id user)) eqn:Hs; [injection Hrun as <- <-; left; eauto|].
  fold (invited_only d admission (up_id user)) in Hrun.
  destruct (invited_only d admission (up_id user) && bool_decide (secret = None));
    [injection Hrun as <- <-; left; eauto|].
  match type of Hrun with context [if ?b then _ else _] => destruct b eqn:Hheld end;
    [injection Hrun as <- <-; left; eauto|].
  assert (Hh : forall h, account_of d (up_id user) = Some h -> ac_username h = name).
  { intros h Hh. rewrite Hh in Hheld. by apply negb_false_iff, bool_decide_eq_true in Hheld. }
  match type of Hrun with context [match ?m with Ok _ => _ | Err e => (Err e, d) end] =>
    destruct m as [a|e] eqn:Ha end; [|injection Hrun as <- <-; left; eauto].
  match type of Hrun with context [match ?m with Ok _ => _ | Err e => (Err e, d) end] =>
    destruct m as [table|e] eqn:Ht end; [|injection Hrun as <- <-; left; eauto].
  injection Hrun as <- <-. right. exists a, table.
  assert (Hcase : ac_user a = user /\ match accounts (atb d) !! name with
     | Some ex => up_id (ac_user ex) = up_id user
         /\ a = mkAccount (ac_username ex) user (ac_registered_unix ex) (ac_escrow_enabled ex)
     | None => a = mkAccount name user now false end).
  { destruct (accounts (atb d) !! name) as [ex|]; [|by injection Ha as <-].
    destruct (up_id (ac_user ex) =? up_id user) eqn:Hu; [|done]. nbool. injection Ha as <-. done. }
  destruct Hcase as [Hau Hcase]. rewrite Hau. split_and!; try done.
  destruct (invited_only _ _ _); [|by injection Ht].
  destruct secret as [sec|]; [|done].
  destruct (redeem_in _ _ _ _) as [[inviter t]|] eqn:Hr; [|done]. injection Ht as <-. eauto 10.
Qed.

Lemma redeem_cases table secret joiner now inviter t :
  redeem_in table secret joiner now = Ok (inviter, t) ->
  exists lo, table !! code_id secret = Some lo
    /\ invitation_verify (lo_signed lo) = Ok tt
    /\ opens_with (lo_signed lo) secret = true
    /\ 0 < lo_remaining lo /\ now < in_expires_unix (si_invitation (lo_signed lo))
    /\ inviter = in_inviter (si_invitation (lo_signed lo))
    /\ t = <[code_id secret :=
             if decide (joiner ∈ lo_admitted lo) then lo
             else mkLodged (lo_signed lo) (lo_remaining lo - 1) (lo_admitted lo ++ [joiner])]> table.
Proof.
  unfold redeem_in. destruct (table !! code_id secret) as [lo|]; [|done].
  destruct (invitation_verify (lo_signed lo)) as [[]|] eqn:Hv; [|done].
  destruct (negb _ || _ || _) eqn:Hb; [done|]. intros Heq.
  apply orb_false_iff in Hb as [[Ho Hr]%orb_false_iff He]. nbool. apply negb_false_iff in Ho.
  exists lo. destruct (decide _); injection Heq as <- <-; (split_and!; try done); lia.
Qed.

Lemma lodge_cases signed now d r d' :
  lodge_invitation signed now d = (r, d') ->
  (exists e, r = Err e /\ d' = d)
  \/ (exists lo, r = Ok lo
        /\ invitation_verify signed = Ok tt
        /\ now < in_expires_unix (si_invitation signed)
        /\ is_Some (account_of d (in_inviter (si_invitation signed)))
        /\ lo = default (mkLodged signed (in_uses (si_invitation signed)) [])
                 ((default ∅ (invitations d) : gmap (list N) LodgedInvitation) !! in_code (si_invitation signed))
        /\ d' = with_invitations (Some (<[in_code (si_invitation signed) := lo]>
                                          (default ∅ (invitations d)))) d).
Proof.
  unfold lodge_invitation, bind, lift, gets, throw, modify, ret. intros Hrun.
  destruct (invitation_verify signed) as [[]|e] eqn:Hv; [|injection Hrun as <- <-; left; eauto].
  destruct (_ <=? now) eqn:Hn; [injection Hrun as <- <-; left; eauto|]. nbool.
  destruct (account_of d (in_inviter (si_invitation signed))) as [a|];
    [|injection Hrun as <- <-; left; eauto].
  injection Hrun as <- <-. right. eexists. by split_and!.
Qed.

Lemma claim_cases signed now d r d' :
  claim signed now d = (r, d') ->
  let c := sc_claim signed in
  d' = d
  \/ (r = Ok true /\ claim_verify signed now = Ok tt
      /\ is_Some (account_of d (cl_owner c))
      /\ (cl_revoked c = false -> is_suspended d (cl_owner c) = false)
      /\ match claims (ctb d) !! cl_device c with
         | None => cl_revoked c = false ->
                   (length (live_claims_in (ctb d) (cl_owner c)) < MAX_DEVICES_PER_ACCOUNT)%nat
         | Some e => cl_owner (sc_claim e) = cl_owner c /\ supersedes signed e = true
         end
      /\ d' = on_ctb (fun t => mkCT (<[cl_device c := signed]> (claims t))
                                 ({[(cl_owner c, cl_device c)]} ∪ claims_by_owner t)) d).
Proof.
  intros Hrun c. unfold claim, bind, lift, gets, throw, modify, ret in Hrun. fold c in Hrun.
  destruct (claim_verify signed now) as [[]|e] eqn:Hv; [|injection Hrun as <- <-; by left].
  destruct (account_of d (cl_owner c)) as [a|] eqn:Ha; [|injection Hrun as <- <-; by left].
  cbv zeta in Hrun. rewrite bool_decide_eq_false_2 in Hrun by done.
  destruct (negb (cl_revoked c) && is_suspended d (cl_owner c)) eqn:Hs; [injection Hrun as <- <-; by left|].
  destruct (bool_decide _ && _ && _) eqn:Hb; [injection Hrun as <- <-; by left|].
  destruct (claims (ctb d) !! cl_device c) as [e|] eqn:He.
  - destruct (negb (cl_owner (sc_claim e) =? cl_owner c)) eqn:Ho; [injection Hrun as <- <-; by left|].
    destruct (cl_revoked (sc_claim e) && negb (cl_revoked c)); [injection Hrun as <- <-; by left|].
    destruct (supersedes signed e) eqn:Hsup.
    + injection Hrun as <- <-. right. apply negb_false_iff in Ho. nbool.
      split_and!; try done. intros Hr. by rewrite Hr in Hs.
    + injection Hrun as <- <-. left. by destruct d as [? [] ? ? ?].
  - injection Hrun as <- <-. right. split_and!; try done.
    + intros Hr. by rewrite Hr in Hs.
    + intros Hr. rewrite Hr in Hb. by apply Nat.leb_gt in Hb.
Qed.

Lemma announce_cases signed now d r d' :
  announce signed now d = (r, d') ->
  (exists e, r = Err e /\ d' = d)
  \/ (exists held, r = Ok tt
        /\ presence_verify signed now = Ok tt
        /\ claims (ctb d) !! pr_device (sp_presence signed) = Some held
        /\ cl_revoked (sc_claim held) = false
        /\ is_suspended d (cl_owner (sc_claim held)) = false
        /\ exists per_mille ticked,
             (per_mille = AVAILABILITY_FLOOR_PER_MILLE
              \/ exists r, availability (ptb d) !! pr_device (sp_presence signed) = Some r
                   /\ per_mille = av_per_mille r)
             /\ d' = on_ptb (fun t => mkPT (<[pr_device (sp_presence signed) := signed]> (presences t))
                      (<[pr_device (sp_presence signed) := mkAvailability per_mille ticked now]> (availability t))
                      (departures t)) d).
Proof.
  unfold announce, keep_presence, claim_for, bind, lift, gets, throw, modify, ret. intros Hrun.
  destruct (presence_verify signed now) as [[]|e] eqn:Hv; [|injection Hrun as <- <-; left; eauto].
  destruct (claims (ctb d) !! _) as [held|] eqn:Hc; [|injection Hrun as <- <-; left; eauto].
  destruct (cl_revoked (sc_claim held)) eqn:Hr; [injection Hrun as <- <-; left; eauto|].
  destruct (is_suspended d _) eqn:Hs; [injection Hrun as <- <-; left; eauto|].
  injection Hrun as <- <-. right. exists held. split_and!; try done.
  destruct (availability (ptb d) !! pr_device (sp_presence signed)) as [r|] eqn:Hav.
  - exists (av_per_mille r), (av_last_tick_unix r). split; [eauto|].
    unfold on_ptb. by rewrite Hav.
  - exists AVAILABILITY_FLOOR_PER_MILLE, now. split; [eauto|]. unfold on_ptb. by rewrite Hav.
Qed.

(** A withdrawn device, whose rows [forget_account] keeps. *)
Definition withdrawn (t : ClaimTables) (dev : DeviceId) : bool :=
  match claims t !! dev with Some s => cl_revoked (sc_claim s) | None => false end.

Lemma forget_devices_spec owner l ct pt f ct' pt' f' :
  NoDup l -> foldl (forget_device owner) (ct, pt, f) l = (ct', pt', f') ->
  let gone dev := dev ∈ l /\ withdrawn ct dev = false in
  (forall dev, claims ct' !! dev = if decide (gone dev) then None else claims ct !! dev)
  /\ (forall o dev, (o, dev) ∈ claims_by_owner ct' <->
        (o, dev) ∈ claims_by_owner ct /\ ~ (o = owner /\ gone dev))
  /\ (forall dev, presences pt' !! dev = if decide (gone dev) then None else presences pt !! dev)
  /\ (forall dev, availability pt' !! dev = if decide (gone dev) then None else availability pt !! dev)
  /\ departures pt' = departures pt.
Proof.
  intros Hnd. revert ct pt f. induction Hnd as [|a l Ha Hnd IH]; intros ct pt f; cbn [foldl]; cbv zeta.
  { intros [= <- <- <-]. assert (Hno : forall dev, ~ (dev ∈ [] /\ withdrawn ct dev = false)) by set_solver.
    split_and!; [by intros; rewrite decide_False| |by intros; rewrite decide_False|
      by intros; rewrite decide_False|done].
    intros o dev. split; [intros Hin; split; [done|]|by intros []]. intros [_ Hg]. by apply (Hno dev). }
  unfold forget_device at 2. fold (withdrawn ct a). destruct (withdrawn ct a) eqn:Hw; intros Hf;
    apply IH in Hf as (H1 & H2 & H3 & H4 & H5); clear IH.
  - assert (Hiff : forall dev, (dev ∈ l /\ withdrawn ct dev = false)
      <-> (dev ∈ a :: l /\ withdrawn ct dev = false)).
    { intros dev. rewrite elem_of_cons. split; intros [Hin Hd]; (split; [|done]); [by right|].
      destruct Hin as [->|]; [congruence|done]. }
    split_and!; [intros dev..|done]; rewrite ?H1, ?H3, ?H4; try (by apply decide_ext).
    intros o. rewrite H2. by rewrite Hiff.
  - assert (Hiff : forall dev, dev <> a ->
      (dev ∈ l /\ withdrawn (mkCT (delete a (claims ct)) (claims_by_owner ct ∖ {[(owner, a)]})) dev = false)
      <-> (dev ∈ a :: l /\ withdrawn ct dev = false)).
    { intros dev Hne. rewrite elem_of_cons. unfold withdrawn. simpl. rewrite lookup_delete_ne by done. naive_solver. }
    cbn [claims claims_by_owner presences availability departures] in *.
    assert (Hlk : forall V (m m' : gmap DeviceId V),
      (forall dev, m' !! dev = if decide (dev ∈ l /\ withdrawn (mkCT (delete a (claims ct))
          (claims_by_owner ct ∖ {[(owner, a)]})) dev = false) then None else delete a m !! dev) ->
      forall dev, m' !! dev = if decide (dev ∈ a :: l /\ withdrawn ct dev = false) then None else m !! dev).
    { intros V m m' Hm dev. rewrite Hm. destruct (decide (dev = a)) as [->|Hne].
      - rewrite lookup_delete_eq, (decide_True (P := _ ∈ a :: _ /\ _)); [by case_decide|].
        split; [by left|done].
      - rewrite lookup_delete_ne by done. by apply decide_ext, Hiff. }
    split_and!; [by apply Hlk| |by apply Hlk|by apply Hlk|done].
    intros o dev. rewrite H2, elem_of_difference, elem_of_singleton.
    destruct (decide (dev = a)) as [->|Hne].
    + split; [intros ([Hin Hno] & _)|intros [Hin Hno]].
      * split; [done|]. intros [-> _]. by apply Hno.
      * split; [split; [done|]|]; [intros [= ->]; apply Hno|intros [-> _]; apply Hno];
          (split; [done|split; [by left|done]]).
    + rewrite Hiff by done. split; [intros ([? _] & ?)|intros [? ?]]; [done|].
      split; [split; [done|congruence]|done].
Qed.

(** The directory after forgetting the account [a] under [username]. *)
Lemma forget_cases username d r d' :
  forget_account username d = (r, d') ->
  (accounts (atb d) !! username = None /\ d' = d)
  \/ (exists a, accounts (atb d) !! username = Some a
        /\ let owner := up_id (ac_user a) in
           let gone dev := (owner, dev) ∈ claims_by_owner (ctb d) /\ withdrawn (ctb d) dev = false in
           atb d' = with_accounts (delete username (accounts (atb d))) (delete owner (by_id (atb d))) (atb d)
           /\ (forall dev, claims (ctb d') !! dev = if decide (gone dev) then None else claims (ctb d) !! dev)
           /\ (forall o dev, (o, dev) ∈ claims_by_owner (ctb d') <->
                 (o, dev) ∈ claims_by_owner (ctb d) /\ ~ (o = owner /\ gone dev))
           /\ (forall dev, presences (ptb d') !! dev = if decide (gone dev) then None else presences (ptb d) !! dev)
           /\ (forall dev, availability (ptb d') !! dev
                 = if decide (gone dev) then None else availability (ptb d) !! dev)
           /\ etb d' = mkET (delete owner (escrows (etb d))) (delete username (escrow_tries (etb d)))
                          (delete owner (usages (etb d)))
           /\ invitations d' = invitations d).
Proof.
  unfold forget_account, bind, gets, modify, ret. intros Hrun.
  destruct (accounts (atb d) !! username) as [a|] eqn:Ha; [|injection Hrun as <- <-; by left].
  destruct (foldl _ _ _) as [[ct pt] f] eqn:Hf. injection Hrun as <- <-. right. exists a. split; [done|].
  apply forget_devices_spec in Hf as (H1 & H2 & H3 & H4 & _); [|apply NoDup_owner_devices].
  assert (Hiff : forall dev, (dev ∈ owner_devices (claims_by_owner (ctb d)) (up_id (ac_user a))
      /\ withdrawn (ctb d) dev = false)
    <-> ((up_id (ac_user a), dev) ∈ claims_by_owner (ctb d) /\ withdrawn (ctb d) dev = false)).
  { intros dev. by rewrite elem_of_owner_devices. }
  cbn [atb ctb ptb etb Directory.invitations]. split_and!; try done; intros dev;
    rewrite ?H1, ?H3, ?H4; try (by apply decide_ext).
  intros dev'. rewrite H2. by rewrite Hiff.
Qed.

(** ** Preservation *)

Lemma account_of_spec d u a :
  accounts_ok (atb d) -> account_of d u = Some a ->
  accounts (atb d) !! ac_username a = Some a /\ up_id (ac_user a) = u /\ by_id (atb d) !! u = Some (ac_username a).
Proof.
  intros [H1 H2] Ha. unfold account_of, account in Ha.
  destruct (by_id (atb d) !! u) as [n|] eqn:Hu; simpl in Ha; [|done].
  destruct (H1 n a Ha) as [<- _]. destruct (H2 u (ac_username a) Hu) as (a' & Ha' & Hid).
  simplify_eq. done.
Qed.

Lemma account_of_is_some d u :
  accounts_ok (atb d) -> is_Some (account_of d u) <-> is_Some (by_id (atb d) !! u).
Proof.
  intros [H1 H2]. unfold account_of, account. destruct (by_id (atb d) !! u) as [n|] eqn:Hu; simpl.
  - destruct (H2 u n Hu) as (a & -> & _). split; eauto.
  - split; intros []; done.
Qed.

Lemma accounts_ok_insert t name user a :
  accounts_ok t ->
  (forall n h, by_id t !! up_id user = Some n -> accounts t !! n = Some h -> ac_username h = name) ->
  (forall ex, accounts t !! name = Some ex -> up_id (ac_user ex) = up_id user) ->
  ac_username a = name -> ac_user a = user ->
  accounts_ok (with_accounts (<[name := a]> (accounts t)) (<[up_id user := name]> (by_id t)) t).
Proof.
  intros [H1 H2] Hheld Hex Hn Hu. split; cbn [accounts by_id with_accounts].
  - intros n' a' [[<- <-]|[Hne Ha']]%lookup_insert_Some.
    + rewrite Hu, lookup_insert_eq. done.
    + destruct (H1 n' a' Ha') as [Hn' Hid]. split; [done|]. rewrite lookup_insert_ne; [done|].
      intros Heq. rewrite <- Heq in Hid. apply Hne. rewrite <- Hn'. symmetry. by eapply Hheld.
  - intros u n' [[<- <-]|[Hne Hn']]%lookup_insert_Some.
    + exists a. rewrite lookup_insert_eq, Hu. done.
    + destruct (H2 u n' Hn') as (a' & Ha' & Hid). exists a'. rewrite lookup_insert_ne; [done|].
      intros <-. apply Hne. by rewrite <- (Hex a' Ha').
Qed.

Lemma owners_registered_mono a a' t :
  (forall u, is_Some (by_id a !! u) -> is_Some (by_id a' !! u)) ->
  owners_registered a t -> owners_registered a' t.
Proof. intros Hmono Ho dev s Hs Hr. by eapply Hmono, Ho. Qed.

Lemma invitations_ok_insert table code lo :
  invitations_ok table -> invitation_ok code lo -> invitations_ok (Some (<[code := lo]> (default ∅ table))).
Proof.
  intros Ht Hlo code' lo'. simpl. intros [[<- <-]|[_ Hl]]%lookup_insert_Some; [done|]. by apply Ht.
Qed.

Lemma invitation_verify_uses s : invitation_verify s = Ok tt -> in_uses (si_invitation s) <> 0.
Proof. unfold invitation_verify. destruct (_ =? 0) eqn:Hz; [done|]. by nbool. Qed.

Lemma register_ok signed secret admission now d :
  dir_ok d -> dir_ok (step (ORegister signed secret admission now) d).
Proof.
  intros [Hacc Hgen Hix Hb Hown Hpr Hinv]. cbn [step].
  destruct (register_admitted _ _ _ _ _) as [r d'] eqn:Hrun. simpl.
  apply register_cases in Hrun as [(e & _ & ->)|(a & table & _ & _ & _ & _ & Hheld & Hu & Hcase & Htab & ->)]; [done|].
  split; try done.
  - apply accounts_ok_insert; try done.
    + intros n h Hn Hh. apply Hheld. unfold account_of, account. by rewrite Hn.
    + intros ex Hex. by rewrite Hex in Hcase; destruct Hcase.
    + destruct (accounts (atb d) !! rg_username (sr_registration signed)) as [ex|] eqn:Hex; subst; [|done].
      destruct Hcase as [_ ->]. simpl. by apply (proj1 Hacc).
  - eapply owners_registered_mono; [|exact Hown]. intros u Hsome. cbn [on_atb atb with_invitations by_id with_accounts].
    destruct (decide (u = up_id (rg_user (sr_registration signed)))) as [->|Hne];
      [rewrite lookup_insert_eq; eauto|by rewrite lookup_insert_ne].
  - cbn [invitations with_invitations]. destruct (invited_only _ _ _); [|by subst].
    destruct Htab as (sec & inviter & t & _ & -> & Hred).
    apply redeem_cases in Hred as (lo & Hlo & _ & _ & Hrem & _ & _ & ->).
    apply invitations_ok_insert; [done|]. destruct (Hinv _ _ Hlo) as (Hc & Hv & Hsum & Hnd).
    case_decide as Hin; [done|]. split_and!; try done; cbn [lo_admitted lo_remaining lo_signed].
    + rewrite length_app. simpl. lia.
    + apply NoDup_app. split_and!; [done| |apply NoDup_singleton].
      intros x Hx ->%list_elem_of_singleton. done.
Qed.

Lemma lodge_ok signed now d : dir_ok d -> dir_ok (step (OLodge signed now) d).
Proof.
  intros [Hacc Hgen Hix Hb Hown Hpr Hinv]. cbn [step].
  destruct (lodge_invitation _ _ _) as [r d'] eqn:Hrun. simpl.
  apply lodge_cases in Hrun as [(e & _ & ->)|(lo & _ & Hv & _ & _ & -> & ->)]; [done|].
  split; try done. cbn [invitations with_invitations]. apply invitations_ok_insert; [done|].
  destruct (_ !! _) as [lo|] eqn:Hlo; simpl; [by apply Hinv|].
  split_and!; try done; [|constructor]. simpl. lia.
Qed.

Lemma sub_claims_bounded t t' :
  index_agrees t -> index_agrees t' -> claims t' ⊆ claims t -> devices_bounded t -> devices_bounded t'.
Proof.
  intros Hix Hix' Hsub Hb u. rewrite length_live_claims_in by done. etransitivity; [|apply (Hb u)].
  rewrite length_live_claims_in by done. by apply map_subseteq_size, map_filter_subseteq_mono.
Qed.

Lemma forget_ok username d r d' :
  dir_ok d -> forget_account username d = (r, d') -> dir_ok d'.
Proof.
  intros Hok Hrun. apply forget_cases in Hrun as [[_ ->]|(a & Ha & Hrest)]; [done|].
  cbv zeta in Hrest. destruct Hrest as (Hat & Hcl & Hidx & Hpres & Hav & _ & Hinv').
  destruct Hok as [[H1 H2] Hgen Hix Hb Hown [Hp1 Hp2] Hinv].
  destruct (H1 _ _ Ha) as [Hname Hid]. set (owner := up_id (ac_user a)) in *.
  assert (Hkeep : forall dev s, claims (ctb d') !! dev = Some s ->
    claims (ctb d) !! dev = Some s /\ ~ ((owner, dev) ∈ claims_by_owner (ctb d) /\ withdrawn (ctb d) dev = false)).
  { intros dev s. rewrite Hcl. by case_decide. }
  assert (Hix' : index_agrees (ctb d')).
  { intros o dev. rewrite Hidx, (Hix o dev). split.
    - intros ((s & Hs & Ho) & Hno). exists s. split; [|done]. rewrite Hcl. case_decide as Hg; [|done].
      exfalso. apply Hno. split; [|done]. destruct Hg as [Hin _]. apply Hix in Hin as (s' & Hs' & Ho').
      congruence.
    - intros (s & Hs & Ho). apply Hkeep in Hs as [Hs Hno]. split; [eauto|]. by intros [_ ?]. }
  split; try done.
  - rewrite Hat. split; cbn [accounts by_id with_accounts].
    + intros n a' [Hne Ha']%lookup_delete_Some. destruct (H1 n a' Ha') as [Hn Hb']. split; [done|].
      rewrite lookup_delete_ne; [done|]. intros Heq. rewrite <- Heq in Hb'. congruence.
    + intros u n [Hne Hn]%lookup_delete_Some. destruct (H2 u n Hn) as (a' & Ha' & Hu). exists a'.
      rewrite lookup_delete_ne; [done|]. intros <-. apply Hne. unfold owner. congruence.
  - intros dev s Hs. apply Hkeep in Hs as [Hs _]. by apply Hgen.
  - apply (sub_claims_bounded (ctb d)); try done. apply map_subseteq_spec. intros dev s Hs. by apply Hkeep in Hs as [].
  - intros dev s Hs Hr. apply Hkeep in Hs as [Hs Hno]. rewrite Hat. cbn [by_id with_accounts].
    destruct (decide (owner = cl_owner (sc_claim s))) as [Heq|Hne];
      [|rewrite lookup_delete_ne by done; by eapply Hown].
    exfalso. apply Hno. split; [apply Hix; eauto|]. unfold withdrawn. by rewrite Hs.
  - split.
    + intros dev s. rewrite Hpres, Hcl. case_decide; [done|]. apply Hp1.
    + intros dev r'. rewrite Hav. case_decide; [done|]. apply Hp2.
  - by rewrite Hinv'.
Qed.

(** ** The index by owner *)

(** What the index should hold. *)
Definition owner_rows (t : ClaimTables) : gset (UserId * DeviceId) :=
  list_to_set ((fun row => (cl_owner (sc_claim row.2), row.1)) <$> map_to_list (claims t)).

Lemma elem_of_owner_rows t o dev :
  (o, dev) ∈ owner_rows t <-> exists s, claims t !! dev = Some s /\ cl_owner (sc_claim s) = o.
Proof.
  unfold owner_rows. rewrite elem_of_list_to_set, list_elem_of_fmap. split.
  - intros ([dev' s] & [= -> ->] & Hin%elem_of_map_to_list). eauto.
  - intros (s & Hs & <-). exists (dev, s). split; [done|]. by apply elem_of_map_to_list.
Qed.

Lemma index_agrees_rows t : index_agrees t <-> claims_by_owner t = owner_rows t.
Proof.
  split.
  - intros Hix. apply set_eq. intros [o dev]. by rewrite elem_of_owner_rows, (Hix o dev).
  - intros Heq o dev. by rewrite Heq, elem_of_owner_rows.
Qed.

Lemma size_owner_rows t : size (owner_rows t) = size (claims t).
Proof.
  unfold owner_rows. rewrite size_list_to_set; [by rewrite length_fmap, length_map_to_list|].
  assert (Hnd : NoDup (map_to_list (claims t)).*1) by apply NoDup_fst_map_to_list.
  induction (map_to_list (claims t)) as [|[dev s] l IH]; csimpl in *; [constructor|].
  apply NoDup_cons in Hnd as [Hni Hnd]. constructor; [|by apply IH].
  rewrite list_elem_of_fmap. intros ([dev' s'] & [= _ ->] & Hin). apply Hni.
  apply list_elem_of_fmap. by exists (dev', s').
Qed.

(** The index is repaired on open, whatever claims an older program wrote
    without it: an index that only misses rows has the right number of rows
    exactly when it is complete. *)
Lemma rebuild_agrees d :
  claims_genuine (ctb d) -> claims_by_owner (ctb d) ⊆ owner_rows (ctb d) ->
  index_agrees (ctb (rebuild_owner_index_if_missing d))
  /\ rebuild_owner_index_if_missing d
     = on_ctb (fun t => mkCT (claims t) (owner_rows t)) d.
Proof.
  intros Hgen Hsub.
  assert (Heq : rebuild_owner_index_if_missing d = on_ctb (fun t => mkCT (claims t) (owner_rows t)) d).
  { unfold rebuild_owner_index_if_missing. destruct (_ =? _)%nat eqn:Hsz.
    - apply Nat.eqb_eq in Hsz. rewrite <- size_owner_rows in Hsz.
      unfold on_ctb. rewrite <- (set_subseteq_size_eq _ _ Hsub) by lia. by destruct d as [? [] ? ? ?].
    - unfold on_ctb. do 2 f_equal. apply set_eq. intros [o dev].
      assert (Hfold : forall l (x : gset (UserId * DeviceId)),
        (o, dev) ∈ foldl (fun index row => {[(cl_owner (sc_claim row.2), cl_device (sc_claim row.2))]} ∪ index) x l
        <-> (o, dev) ∈ x \/ exists row : DeviceId * SignedClaim, row ∈ l
              /\ cl_owner (sc_claim row.2) = o /\ cl_device (sc_claim row.2) = dev).
      { induction l as [|row l IH]; intros x; cbn [foldl]; [set_solver|].
        rewrite IH, elem_of_union, elem_of_singleton. setoid_rewrite elem_of_cons. split.
        - intros [[[= -> ->]|Hx]|(row' & Hin & Ho)]; [right; exists row; auto|by left|right; eauto].
        - intros [Hx|(row' & [->|Hin] & Ho & Hd)]; [auto|left; left; congruence|right; eauto]. }
      rewrite Hfold, elem_of_owner_rows. split.
      + intros [Hin|([dev' s] & Hin & <- & Hd)]; [by apply elem_of_owner_rows, Hsub|].
        apply elem_of_btree_iter in Hin. destruct (Hgen _ _ Hin) as [Hdev _]. simpl in *. subst. eauto.
      + intros (s & Hs & <-). right. exists (dev, s). rewrite elem_of_btree_iter.
        destruct (Hgen _ _ Hs) as [Hdev _]. done. }
  split; [|done]. rewrite Heq. by apply index_agrees_rows.
Qed.

Lemma open_ok d : dir_ok d -> dir_ok (step OOpen d).
Proof.
  intros [Hacc Hgen Hix Hb Hown Hpr Hinv]. change (step OOpen d) with (rebuild_owner_index_if_missing d).
  destruct (rebuild_agrees d Hgen) as [_ Heq].
  { apply index_agrees_rows in Hix. by rewrite Hix. }
  rewrite Heq. apply index_agrees_rows in Hix as Hrows.
  assert (Hct : ctb (on_ctb (fun t => mkCT (claims t) (owner_rows t)) d) = ctb d).
  { simpl. rewrite <- Hrows. by destruct (ctb d). }
  split; rewrite ?Hct; done.
Qed.

Lemma claim_verify_genuine s now : claim_verify s now = Ok tt -> claim_verify_origin s = Ok tt.
Proof. unfold claim_verify. by destruct (not_from_the_future _ _). Qed.

Lemma claim_ok signed now d : dir_ok d -> dir_ok (step (OClaim signed now) d).
Proof.
  intros Hok. cbn [step]. destruct (claim _ _ _) as [r d'] eqn:Hrun. simpl.
  apply claim_cases in Hrun as [->|(_ & Hv & Hacct & _ & Hcase & ->)]; [done|].
  destruct Hok as [Hacc Hgen Hix Hb Hown [Hp1 Hp2] Hinv]. set (c := sc_claim signed) in *.
  assert (Hix' : index_agrees (mkCT (<[cl_device c := signed]> (claims (ctb d)))
    ({[(cl_owner c, cl_device c)]} ∪ claims_by_owner (ctb d)))).
  { intros o dev. cbn [claims claims_by_owner]. rewrite elem_of_union, elem_of_singleton, (Hix o dev).
    destruct (decide (dev = cl_device c)) as [->|Hne].
    - rewrite lookup_insert_eq. split.
      + intros [[= ->]|(s & Hs & Ho)]; [eauto|]. rewrite Hs in Hcase. destruct Hcase as [Ho' _].
        exists signed. split; [done|]. unfold c in Ho'. congruence.
      + intros (s & [= <-] & <-). by left.
    - rewrite lookup_insert_ne by done. split; [intros [[= _ ?]|?]; [done|done]|by right]. }
  split; cbn [atb ctb ptb invitations on_ctb]; try done.
  - intros dev s. cbn [claims]. intros [[<- <-]|[_ Hs]]%lookup_insert_Some; [|by apply Hgen].
    split; [done|]. by eapply claim_verify_genuine.
  - intros u. rewrite length_live_claims_in by done. cbn [claims].
    specialize (Hb u) as Hbu. rewrite length_live_claims_in in Hbu by done.
    rewrite map_filter_insert. case_decide as Hl.
    + destruct Hl as [Ho Hr]. simpl in Ho, Hr. fold c in Ho, Hr.
      destruct (claims (ctb d) !! cl_device c) as [e|] eqn:He.
      * destruct Hcase as [Ho' Hsup].
        assert (Hle : is_live u (cl_device c, e)).
        { split; simpl; [congruence|]. unfold supersedes in Hsup. destruct (negb _); [done|].
          by destruct (cl_revoked (sc_claim e)). }
        rewrite map_size_insert_Some; [done|]. exists e. by apply map_lookup_filter_Some.
      * specialize (Hcase Hr). rewrite Ho, length_live_claims_in in Hcase by done.
        rewrite map_size_insert_None; [unfold MAX_DEVICES_PER_ACCOUNT in *; lia|].
        apply map_lookup_filter_None. left. done.
    + etransitivity; [|exact Hbu]. apply map_subseteq_size, map_filter_subseteq_mono, delete_subseteq.
  - intros dev s. cbn [claims]. intros [[<- <-]|[_ Hs]]%lookup_insert_Some Hr; [|by eapply Hown].
    by apply account_of_is_some.
  - split; [|done]. intros dev s Hs. destruct (Hp1 dev s Hs) as (Hd & Hvp & Hc). split_and!; try done.
    cbn [claims]. destruct (decide (dev = cl_device c)) as [->|Hne];
      [rewrite lookup_insert_eq; eauto|by rewrite lookup_insert_ne].
Qed.

Lemma announce_ok signed now d : dir_ok d -> dir_ok (step (OAnnounce signed now) d).
Proof.
  intros Hok. cbn [step]. destruct (announce _ _ _) as [r d'] eqn:Hrun. simpl.
  apply announce_cases in Hrun as [(e & _ & ->)|(held & _ & Hv & Hc & Hr & _ & pm & tk & Hpm & ->)]; [done|].
  destruct Hok as [Hacc Hgen Hix Hb Hown [Hp1 Hp2] Hinv]. split; try done. split; cbn [presences availability ptb on_ptb ctb].
  - intros dev s [[<- <-]|[_ Hs]]%lookup_insert_Some; [|by apply Hp1]. split_and!; [done| |eauto].
    unfold presence_verify in Hv. by destruct (not_from_the_future _ _).
  - intros dev s [[<- <-]|[_ Hs]]%lookup_insert_Some; [|by eapply Hp2]. simpl.
    destruct Hpm as [->|(r' & Hr' & ->)]; [done|by eapply Hp2].
Qed.

(** ** Operations that touch one table *)

Lemma foldl_delete_device {V} (l : list DeviceId) (m : gmap DeviceId V) dev :
  foldl (fun m device => delete device m) m l !! dev = if decide (dev ∈ l) then None else m !! dev.
Proof.
  pose proof (foldl_delete_lookup id l m dev) as He. rewrite list_fmap_id in He. cbv beta in He.
  transitivity (if bool_decide (dev ∈ l) then None else m !! dev); [exact He|].
  by case_bool_decide; case_decide.
Qed.

Lemma deletion_mark_ok signed now d : dir_ok d -> dir_ok (delete_mark signed now d).
Proof. intros [[? ?] ? ? ? ? ? ?]. by split. Qed.

Lemma delete_checks_state signed now d : (delete_checks signed now d).2 = d.
Proof.
  unfold delete_checks, bind, lift, gets, throw, ret.
  destruct (deletion_verify _ _); [|done]. destruct (account_of d _); [|done]. by destruct (bool_decide _).
Qed.

Lemma delete_cases signed now d r d' :
  delete_account signed now d = (r, d') ->
  (exists e, r = Err e /\ d' = d)
  \/ (r = Ok tt /\ deletion_verify signed now = Ok tt
      /\ (exists a, account_of d (dl_user (sl_deletion signed)) = Some a
            /\ ac_username a = dl_username (sl_deletion signed))
      /\ exists f, forget_account (dl_username (sl_deletion signed)) (delete_mark signed now d) = (Ok f, d')).
Proof.
  unfold delete_account, delete_checks, bind, lift, gets, throw, modify, ret. intros Hrun.
  destruct (deletion_verify signed now) as [[]|e] eqn:Hv; [|injection Hrun as <- <-; left; eauto].
  destruct (account_of d _) as [a|] eqn:Ha; [|injection Hrun as <- <-; left; eauto].
  destruct (bool_decide _) eqn:Hn; [|injection Hrun as <- <-; left; eauto].
  apply bool_decide_eq_true in Hn.
  destruct (forget_account _ _) as [[f|e] d1] eqn:Hf.
  - injection Hrun as <- <-. right. split_and!; eauto.
  - unfold forget_account, bind, gets, modify, ret in Hf. destruct (_ !! _); [|done].
    by destruct (foldl _ _ _) as [[? ?] ?].
Qed.

Lemma set_escrow_enabled_ok user enabled d : dir_ok d -> dir_ok (step (OEscrowEnabled user enabled) d).
Proof.
  intros [Hacc Hgen Hix Hb Hown Hpr Hinv]. cbn [step].
  unfold set_escrow_enabled, bind, gets, throw, modify.
  destruct (account_of d user) as [a|] eqn:Ha; [|done]. apply account_of_spec in Ha as (Hn & Hu & Hid); [|done].
  split; try done. cbn [atb on_atb].
  assert (Hsame : by_id (atb d) = <[up_id (ac_user a) := ac_username a]> (by_id (atb d))).
  { symmetry. apply insert_id. by rewrite Hu. }
  simpl. rewrite Hsame at 1. unfold with_accounts. simpl.
  apply (accounts_ok_insert (atb d) (ac_username a) (ac_user a)); try done.
  - intros n h Hn' Hh. rewrite Hu, Hid in Hn'. injection Hn' as <-. congruence.
  - intros ex Hex. congruence.
Qed.

Lemma fold_le per_mille seen : fold per_mille seen <= 1000.
Proof. unfold fold. lia. Qed.

Lemma fold_periods_le n period r per_mille :
  per_mille <= 1000 -> fold_periods n period r per_mille <= 1000.
Proof. revert period per_mille. induction n; intros period per_mille Hp; simpl; [done|]. apply IHn, fold_le. Qed.

Lemma presences_ok_sub ct pt pt' :
  (forall dev s, presences pt' !! dev = Some s -> presences pt !! dev = Some s) ->
  (forall dev r, availability pt' !! dev = Some r -> exists r', availability pt !! dev = Some r'
     /\ (av_per_mille r' <= 1000 -> av_per_mille r <= 1000)) ->
  presences_ok ct pt -> presences_ok ct pt'.
Proof.
  intros Hp Ha [H1 H2]. split.
  - intros dev s Hs. by apply H1, Hp.
  - intros dev r Hr. destruct (Ha dev r Hr) as (r' & Hr' & Hle). by eapply Hle, H2.
Qed.

Lemma step_ok o d : dir_ok d -> dir_ok (step o d).
Proof.
  intros Hok. destruct o; try (by destruct Hok; split).
  - by apply register_ok.
  - by apply lodge_ok.
  - cbn [step]. destruct (forget_account username d) as [r d'] eqn:Hrun. by eapply forget_ok.
  - cbn [step]. destruct (delete_account _ _ _) as [r d'] eqn:Hrun.
    apply delete_cases in Hrun as [(e & _ & ->)|(_ & _ & _ & f & Hf)]; [done|].
    eapply forget_ok; [|exact Hf]. by apply deletion_mark_ok.
  - cbn [step]. unfold bind. pose proof (delete_checks_state signed now d) as Hst.
    destruct (delete_checks signed now d) as [[[]|e] d1]; simpl in *; subst; [|done]. by apply deletion_mark_ok.
  - cbn [step]. unfold suspend, bind, gets, throw, modify, ret.
    destruct (bool_decide _); [done|]. destruct (negb _); destruct Hok as [[? ?] ? ? ? ? ? ?]; by split.
  - by apply set_escrow_enabled_ok.
  - by apply claim_ok.
  - by apply announce_ok.
  - cbn [step]. unfold depart, claim_for, bind, lift, gets, throw, modify.
    destruct (departure_verify _ _); [|done]. destruct (claims (ctb d) !! _) as [h|]; [|done].
    destruct (cl_revoked _); [done|]. destruct Hok as [? ? ? ? ? Hpr ?]. split; try done.
  - destruct Hok as [? ? ? ? ? Hpr ?]. split; try done. eapply presences_ok_sub; [..|exact Hpr];
      cbn [step expire_presence bind gets modify ret snd presences availability ptb on_ptb]; intros dev x;
      rewrite foldl_delete_device; case_decide; [done|done|done|eauto].
  - destruct Hok as [? ? ? ? ? Hpr ?]. split; try done. eapply presences_ok_sub; [..|exact Hpr];
      cbn [step tick bind gets modify ret snd presences availability ptb on_ptb]; [done|].
    intros dev r. rewrite lookup_fmap. intros (r' & -> & ->)%fmap_Some.
    exists r'. split; [done|]. intros Hle. destruct (tick_row now r') as [r''|] eqn:Ht; [|done].
    unfold tick_row in Ht. destruct (_ <? _); [done|]. injection Ht as <-. by apply fold_periods_le.
  - cbn [step]. unfold put_escrow, throw, modify. destruct (_ <? _)%nat; [done|]. by destruct Hok; split.
  - cbn [step]. unfold count_escrow_attempt, bind, gets, modify, ret.
    destruct (count_attempt _ _ _ _ _ _). by destruct Hok; split.
  - by apply open_ok.
Qed.

Lemma run_ok ops d : dir_ok d -> dir_ok (run ops d).
Proof. revert d. induction ops as [|o ops IH]; intros d Hok; [done|]. by apply IH, step_ok. Qed.

Lemma empty_ok : dir_ok empty_directory.
Proof.
  split.
  - split; intros ? ? H'; cbn in H'; by rewrite lookup_empty in H'.
  - intros ? ? H'. cbn in H'. by rewrite lookup_empty in H'.
  - intros o dev. simpl. split; [set_solver|]. intros (s & H' & _). by rewrite lookup_empty in H'.
  - intros u. unfold live_claims_in. simpl. unfold owner_devices.
    rewrite filter_empty_L, elements_empty by apply _. simpl. lia.
  - intros ? ? H'. cbn in H'. by rewrite lookup_empty in H'.
  - split; intros ? ? H'; cbn in H'; by rewrite lookup_empty in H'.
  - intros ? ? H'. cbn in H'. by rewrite lookup_empty in H'.
Qed.

(** ** Frames: the tables an operation leaves alone *)

Definition touches_accounts (o : DirOp) : bool :=
  match o with ORegister _ _ _ _ | OForget _ | ODelete _ _ | OEscrowEnabled _ _ => true | _ => false end.

Definition touches_claims (o : DirOp) : bool :=
  match o with OForget _ | ODelete _ _ | OClaim _ _ | OOpen => true | _ => false end.

Definition touches_tombstones (o : DirOp) : bool :=
  match o with ODelete _ _ | ODeleteCrash _ _ | OExpireNames _ => true | _ => false end.

Definition touches_tries (o : DirOp) : bool :=
  match o with OForget _ | ODelete _ _ | OExpireTries _ _ | OCount _ _ _ _ _ => true | _ => false end.

Lemma step_frame o d :
  (touches_accounts o = false ->
     accounts (atb (step o d)) = accounts (atb d) /\ by_id (atb (step o d)) = by_id (atb d))
  /\ (touches_claims o = false -> ctb (step o d) = ctb d)
  /\ (touches_tombstones o = false ->
     retired (atb (step o d)) = retired (atb d) /\ deleted (atb (step o d)) = deleted (atb d))
  /\ (touches_tries o = false -> escrow_tries (etb (step o d)) = escrow_tries (etb d)).
Proof.
  destruct o; cbn [touches_accounts touches_claims touches_tombstones touches_tries]; try (by split_and!).
  - cbn [step]. destruct (register_admitted _ _ _ _ _) as [r d'] eqn:Hrun.
    apply register_cases in Hrun as [(e & _ & ->)|(a1 & t & _ & _ & _ & _ & _ & _ & _ & _ & ->)]; by split_and!.
  - cbn [step]. destruct (lodge_invitation _ _ _) as [r d'] eqn:Hrun.
    apply lodge_cases in Hrun as [(e & _ & ->)|(lo & _ & _ & _ & _ & _ & ->)]; by split_and!.
  - cbn [step]. destruct (forget_account _ _) as [r d'] eqn:Hrun.
    apply forget_cases in Hrun as [[_ ->]|(a1 & _ & Hrest)]; [by split_and!|].
    cbv zeta in Hrest. destruct Hrest as (Hat & _). simpl. by rewrite Hat.
  - cbn [step]. unfold bind. pose proof (delete_checks_state signed now d) as Hst.
    destruct (delete_checks signed now d) as [[[]|e] d1]; simpl in *; subst; by split_and!.
  - cbn [step]. unfold suspend, bind, gets, throw, modify, ret.
    destruct (bool_decide _); [by split_and!|]. destruct (negb _); by split_and!.
  - cbn [step]. unfold set_escrow_enabled, bind, gets, throw, modify. destruct (account_of d user); by split_and!.
  - cbn [step]. destruct (claim _ _ _) as [r d'] eqn:Hrun.
    apply claim_cases in Hrun as [->|(_ & _ & _ & _ & _ & ->)]; by split_and!.
  - cbn [step]. destruct (announce _ _ _) as [r d'] eqn:Hrun.
    apply announce_cases in Hrun as [(e & _ & ->)|(h & _ & _ & _ & _ & _ & pm & tk & _ & ->)]; by split_and!.
  - cbn [step]. unfold depart, bind, lift, gets, throw, modify. destruct (departure_verify _ _); [|by split_and!].
    destruct (claim_for d _) as [h|]; [|by split_and!]. destruct (cl_revoked _); by split_and!.
  - cbn [step]. unfold put_escrow, throw, modify. destruct (_ <? _)%nat; by split_and!.
  - cbn [step]. unfold count_escrow_attempt, bind, gets, modify, ret.
    destruct (count_attempt _ _ _ _ _ _); by split_and!.
  - change (step OOpen d) with (rebuild_owner_index_if_missing d).
    unfold rebuild_owner_index_if_missing. destruct (_ =? _)%nat; by split_and!.
Qed.

Lemma step_accounts_frame o d :
  touches_accounts o = false ->
  accounts (atb (step o d)) = accounts (atb d) /\ by_id (atb (step o d)) = by_id (atb d).
Proof. apply step_frame. Qed.

Lemma step_claims_frame o d : touches_claims o = false -> ctb (step o d) = ctb d.
Proof. apply step_frame. Qed.

Lemma step_tombstones_frame o d :
  touches_tombstones o = false ->
  retired (atb (step o d)) = retired (atb d) /\ deleted (atb (step o d)) = deleted (atb d).
Proof. apply step_frame. Qed.

Lemma step_tries_frame o d :
  touches_tries o = false -> escrow_tries (etb (step o d)) = escrow_tries (etb d).
Proof. apply step_frame. Qed.

End steps.
