(* ===== verification/Membership.v ===== *)
(** * Membership: what the coordinator's directory guarantees over time

    The properties of [Directory] over every sequence of operations of
    [DirectoryOk]: the tables stay in agreement, a withdrawal is final, the
    order in which claims arrive does not matter, a name keeps its key, a
    deleted account stays deleted, a newcomer is vouched for, and escrow is
    handed out at a bounded rate. *)

From S2P Require Import Prelude Version Ids Crypto Accounting Claims Directory DirectoryOk.

Section membership.
Context `{HPrim : !Primitives}.

(** ** One step at a time *)

Lemma step_keeps_withdrawal o d dev s :
  claims (ctb d) !! dev = Some s -> cl_revoked (sc_claim s) = true ->
  claims (ctb (step o d)) !! dev = Some s.
Proof.
  intros Hs Hr.
  assert (Hforget : forall n d1 r d', ctb d1 = ctb d -> forget_account n d1 = (r, d') ->
    claims (ctb d') !! dev = Some s).
  { intros n d1 r d' Heq Hrun. apply forget_cases in Hrun as [[_ ->]|(a & _ & Hrest)]; [by rewrite Heq|].
    cbv zeta in Hrest. destruct Hrest as (_ & Hcl & _). rewrite Hcl, Heq, decide_False; [done|].
    intros [_ Hw]. unfold withdrawn in Hw. rewrite Hs in Hw. congruence. }
  destruct (touches_claims o) eqn:Ht; [|by rewrite step_claims_frame].
  destruct o; try done; cbn [step].
  - destruct (forget_account username d) as [r d'] eqn:Hrun. exact (Hforget _ _ _ _ eq_refl Hrun).
  - destruct (delete_account _ _ _) as [r d'] eqn:Hrun.
    apply delete_cases in Hrun as [(e & _ & ->)|(_ & _ & _ & f & Hf)]; [done|]. by eapply Hforget; [|exact Hf].
  - destruct (claim _ _ _) as [r d'] eqn:Hrun.
    apply claim_cases in Hrun as [->|(_ & _ & _ & _ & Hcase & ->)]; [done|]. cbn [ctb on_ctb claims snd].
    destruct (decide (cl_device (sc_claim signed) = dev)) as [Heq|Hne]; [|by rewrite lookup_insert_ne].
    rewrite Heq, Hs in Hcase. destruct Hcase as [_ Hsup]. unfold supersedes in Hsup.
    rewrite Hr in Hsup. by destruct (negb _).
  - change (claims (ctb (rebuild_owner_index_if_missing d)) !! dev = Some s).
    unfold rebuild_owner_index_if_missing. by destruct (_ =? _)%nat.
Qed.

(** Whether an operation removes the account under [name]. *)
Definition removes (name : string) (o : DirOp) : Prop :=
  match o with
  | OForget n => n = name
  | ODelete signed _ => dl_username (sl_deletion signed) = name
  | _ => False
  end.

Lemma step_keeps_name o d n a :
  dir_ok d -> accounts (atb d) !! n = Some a -> ~ removes n o ->
  exists a', accounts (atb (step o d)) !! n = Some a'
    /\ up_id (ac_user a') = up_id (ac_user a) /\ ac_registered_unix a' = ac_registered_unix a.
Proof.
  intros Hok Ha Hrem.
  destruct (touches_accounts o) eqn:Ht; [|destruct (step_accounts_frame o d Ht) as [-> _]; eauto].
  assert (Hforget : forall m d1 r d', accounts (atb d1) = accounts (atb d) -> m <> n ->
    forget_account m d1 = (r, d') -> accounts (atb d') !! n = Some a).
  { intros m d1 r d' Heq Hne Hrun. apply forget_cases in Hrun as [[_ ->]|(a1 & _ & Hrest)]; [by rewrite Heq|].
    cbv zeta in Hrest. destruct Hrest as (Hat & _). rewrite Hat. simpl. rewrite lookup_delete_ne by done.
    by rewrite Heq. }
  destruct o; try done; cbn [step] in *; simpl in Hrem.
  - destruct (register_admitted _ _ _ _ _) as [r d'] eqn:Hrun.
    apply register_cases in Hrun as [(e & _ & ->)|(a1 & t & _ & _ & _ & _ & _ & Hu & Hcase & _ & ->)];
      [simpl; eauto|]. cbn [atb with_invitations on_atb with_accounts accounts snd].
    destruct (decide (rg_username (sr_registration signed) = n)) as [<-|Hne];
      [|rewrite lookup_insert_ne by done; eauto].
    rewrite lookup_insert_eq. rewrite Ha in Hcase. destruct Hcase as [Hid ->]. eexists. by split.
  - destruct (forget_account username d) as [r d'] eqn:Hrun. exists a. split; [|done]. exact (Hforget _ _ _ _ eq_refl Hrem Hrun).
  - destruct (delete_account _ _ _) as [r d'] eqn:Hrun. exists a. split; [|done].
    apply delete_cases in Hrun as [(e & _ & ->)|(_ & _ & _ & f & Hf)]; [done|]. by eapply Hforget; [| |exact Hf].
  - unfold set_escrow_enabled, bind, gets, throw, modify in *.
    destruct (account_of d user) as [a1|] eqn:Ha1; [|simpl; eauto].
    apply account_of_spec in Ha1 as (Hn & _ & _); [|apply Hok]. simpl.
    destruct (decide (ac_username a1 = n)) as [Heq|Hne]; [|rewrite lookup_insert_ne by done; eauto].
    rewrite Heq in Hn |- *. rewrite lookup_insert_eq. simplify_eq. eexists. by split.
Qed.

Lemma step_keeps_deleted o d u t :
  dir_ok d -> deleted (atb d) !! u = Some t -> by_id (atb d) !! u = None ->
  deleted (atb (step o d)) !! u = Some t /\ by_id (atb (step o d)) !! u = None.
Proof.
  intros Hok Hd Hu.
  assert (Hne : forall signed a, account_of d (dl_user (sl_deletion signed)) = Some a ->
    dl_user (sl_deletion signed) <> u).
  { intros signed a Ha Heq. apply account_of_spec in Ha as (_ & _ & Hid); [congruence|apply Hok]. }
  destruct (touches_tombstones o) eqn:Ht.
  - destruct o; try done; cbn [step].
    + destruct (delete_account _ _ _) as [r d'] eqn:Hrun.
      apply delete_cases in Hrun as [(e & _ & ->)|(_ & _ & (a & Ha & _) & f & Hf)]; [done|].
      apply forget_cases in Hf as [[_ ->]|(a1 & _ & Hrest)].
      * simpl. rewrite lookup_insert_ne by by eapply Hne. done.
      * cbv zeta in Hrest. destruct Hrest as (Hat & _). cbn [snd]. rewrite Hat. simpl.
        rewrite lookup_insert_ne by by eapply Hne. by rewrite lookup_delete_None; auto.
    + unfold delete_checks, bind, lift, gets, throw, modify, ret.
      destruct (deletion_verify _ _) as [[]|]; [|done]. destruct (account_of d _) as [a|] eqn:Ha; [|done].
      destruct (bool_decide _); [|done]. simpl. rewrite lookup_insert_ne by by eapply Hne. done.
  - destruct (step_tombstones_frame o d Ht) as [_ ->]. split; [done|].
    destruct (touches_accounts o) eqn:Ha; [|by destruct (step_accounts_frame o d Ha) as [_ ->]].
    destruct o; try done; cbn [step].
    + destruct (register_admitted _ _ _ _ _) as [r d'] eqn:Hrun.
      apply register_cases in Hrun as [(e & _ & ->)|(a & tb & _ & _ & Hret & _ & _ & _ & _ & _ & ->)]; [done|].
      simpl. rewrite lookup_insert_ne; [done|]. intros Heq. unfold refuse_if_retired in Hret.
      by rewrite Heq, Hd in Hret.
    + destruct (forget_account _ _) as [r d'] eqn:Hrun.
      apply forget_cases in Hrun as [[_ ->]|(a1 & _ & Hrest)]; [done|].
      cbv zeta in Hrest. destruct Hrest as (Hat & _). simpl. rewrite Hat. simpl. by rewrite lookup_delete_None; auto.
    + unfold set_escrow_enabled, bind, gets, throw, modify. by destruct (account_of d user).
Qed.

(** Whether an operation is dated before [until], if it looks at retired names. *)
Definition before (until : N) (o : DirOp) : Prop :=
  match o with
  | ORegister _ _ _ now | OExpireNames now => now < until
  | _ => True
  end.

Lemma step_keeps_retired o d n until :
  dir_ok d -> retired (atb d) !! n = Some until -> accounts (atb d) !! n = None -> before until o ->
  retired (atb (step o d)) !! n = Some until /\ accounts (atb (step o d)) !! n = None.
Proof.
  intros Hok Hr Hn Hb.
  assert (Hne : forall signed a, account_of d (dl_user (sl_deletion signed)) = Some a ->
    ac_username a = dl_username (sl_deletion signed) -> dl_username (sl_deletion signed) <> n).
  { intros signed a Ha Hname Heq. apply account_of_spec in Ha as (Ha & _ & _); [congruence|apply Hok]. }
  destruct (touches_tombstones o) eqn:Ht.
  - destruct o; try done; cbn [step].
    + destruct (delete_account _ _ _) as [r d'] eqn:Hrun.
      apply delete_cases in Hrun as [(e & _ & ->)|(_ & _ & (a & Ha & Hname) & f & Hf)]; [done|].
      apply forget_cases in Hf as [[_ ->]|(a1 & _ & Hrest)].
      * simpl. rewrite lookup_insert_ne by by eapply Hne. done.
      * cbv zeta in Hrest. destruct Hrest as (Hat & _). cbn [snd]. rewrite Hat. simpl.
        rewrite lookup_insert_ne by by eapply Hne. by rewrite lookup_delete_None; auto.
    + unfold delete_checks, bind, lift, gets, throw, modify, ret.
      destruct (deletion_verify _ _) as [[]|]; [|done]. destruct (account_of d _) as [a|] eqn:Ha; [|done].
      destruct (bool_decide _) eqn:Hname; [|done]. apply bool_decide_eq_true in Hname.
      simpl. rewrite lookup_insert_ne by by eapply Hne. done.
    + simpl in *. split; [|done]. apply map_lookup_filter_Some. split; [done|]. by apply N.leb_gt.
  - destruct (step_tombstones_frame o d Ht) as [-> _]. split; [done|].
    destruct (touches_accounts o) eqn:Ha; [|by destruct (step_accounts_frame o d Ha) as [-> _]].
    destruct o; try done; cbn [step].
    + destruct (register_admitted _ _ _ _ _) as [r d'] eqn:Hrun.
      apply register_cases in Hrun as [(e & _ & ->)|(a & tb & _ & _ & Hret & _ & _ & _ & _ & _ & ->)]; [done|].
      simpl. rewrite lookup_insert_ne; [done|]. intros Heq. unfold refuse_if_retired in Hret.
      destruct (deleted (atb d) !! _); [done|]. rewrite Heq, Hr in Hret. simpl in Hb.
      apply N.ltb_lt in Hb. by rewrite Hb in Hret.
    + destruct (forget_account _ _) as [r d'] eqn:Hrun.
      apply forget_cases in Hrun as [[_ ->]|(a1 & _ & Hrest)]; [done|].
      cbv zeta in Hrest. destruct Hrest as (Hat & _). simpl. rewrite Hat. simpl. by rewrite lookup_delete_None; auto.
    + unfold set_escrow_enabled, bind, gets, throw, modify.
      destruct (account_of d user) as [a|] eqn:Hac; [|done]. apply account_of_spec in Hac as (Hac & _ & _); [|apply Hok].
      simpl. rewrite lookup_insert_ne; [done|]. congruence.
Qed.

(** ** Claims settle *)

Lemma claim_settles d e c now :
  let dev := cl_device (sc_claim e) in
  claims (ctb d) !! dev = Some e ->
  cl_device (sc_claim c) = dev -> cl_owner (sc_claim c) = cl_owner (sc_claim e) ->
  claim_verify c now = Ok tt -> is_Some (account_of d (cl_owner (sc_claim e))) ->
  is_suspended d (cl_owner (sc_claim e)) = false ->
  claims (ctb (step (OClaim c now) d)) !! dev = Some (if supersedes c e then c else e).
Proof.
  intros dev He Hd Ho Hv [a Ha] Hs. cbn [step]. unfold claim, bind, lift, gets, throw, modify, ret.
  rewrite Hv, Ho, Ha, Hd, He, Hs, andb_false_r. rewrite N.eqb_refl. simpl.
  destruct (cl_revoked (sc_claim e) && negb (cl_revoked (sc_claim c))) eqn:Hrev.
  - apply andb_true_iff in Hrev as [Hre _]. simpl. unfold supersedes. rewrite Hre.
    by destruct (negb _).
  - simpl. destruct (supersedes c e); simpl; [by rewrite lookup_insert_eq|done].
Qed.

Lemma supersedes_trans_neg x e s :
  cl_device (sc_claim x) = cl_device (sc_claim e) -> cl_device (sc_claim e) = cl_device (sc_claim s) ->
  supersedes x e = false -> supersedes e s = false -> supersedes x s = false.
Proof.
  intros Hxe Hes. unfold supersedes. rewrite Hxe, Hes, N.eqb_refl. simpl.
  destruct (cl_revoked (sc_claim s)), (cl_revoked (sc_claim e)), (cl_revoked (sc_claim x)); try done.
  rewrite !N.ltb_ge. lia.
Qed.

Lemma supersedes_asym x e : supersedes x e = true -> supersedes e x = false.
Proof.
  unfold supersedes. rewrite (N.eqb_sym (cl_device (sc_claim x))).
  destruct (negb _); [done|]. destruct (cl_revoked (sc_claim e)), (cl_revoked (sc_claim x)); try done.
  rewrite N.ltb_lt, N.ltb_ge. lia.
Qed.

(** ** Counting escrow fetches *)

Lemma escrow_try_row count since :
  count <= u32_max -> since <= u64_max ->
  escrow_try (escrow_row count since) = Some (count, since).
Proof.
  intros Hc Hs. unfold escrow_try, escrow_row. rewrite length_app, !length_le_bytes. cbn [Nat.ltb Nat.leb Nat.add].
  rewrite take_app_length' by by rewrite length_le_bytes.
  rewrite drop_app_length' by by rewrite length_le_bytes.
  rewrite take_ge by by rewrite length_le_bytes.
  unfold u32_max, u64_max in *. rewrite !of_le_bytes_le_bytes, !N.mod_small; [done|..]; simpl; lia.
Qed.

(** What a row still allows while the clock is in [[T, T + W)]. *)
Definition budget (T allowed : N) (row : option (list N)) : N :=
  match row ≫= escrow_try with
  | None => allowed
  | Some (count, since) => if since <? T then (allowed - count) + allowed else allowed - count
  end.

Lemma budget_purged T W allowed now row :
  T <= now < T + W -> try_stale now W row = true -> allowed <= budget T allowed (Some row).
Proof.
  intros Hnow. unfold try_stale, budget. simpl. destruct (escrow_try row) as [[count since]|]; [|done].
  unfold window_over. intros [H1 H2]%andb_true_iff. nbool.
  replace (since <? T) with true by (symmetry; apply N.ltb_lt; lia). lia.
Qed.

Lemma budget_filter T W allowed now (t : gmap string (list N)) n :
  T <= now < T + W ->
  budget T allowed (filter (fun row => try_stale now W row.2 = false) t !! n) <= budget T allowed (t !! n).
Proof.
  intros Hnow. rewrite map_lookup_filter. destruct (t !! n) as [row|] eqn:Hrow; simpl; [|done].
  destruct (try_stale now W row) eqn:Hst; [|done].
  etransitivity; [|by eapply budget_purged]. unfold budget. simpl. done.
Qed.

Lemma budget_count T W allowed now capacity t n u g t' :
  1 <= allowed <= u32_max -> T <= now < T + W -> now <= u64_max ->
  (forall row count since, t !! n = Some row -> escrow_try row = Some (count, since) -> since <= u64_max) ->
  count_attempt t u now allowed W capacity = (g, t') ->
  budget T allowed (t' !! n) + (if decide (u = n) then (if g then 1 else 0) else 0) <= budget T allowed (t !! n).
Proof.
  intros Hal Hnow Hmax Hrows. unfold count_attempt.
  set (purged := if (capacity <=? size t)%nat then _ else t).
  assert (Hp : budget T allowed (purged !! n) <= budget T allowed (t !! n)).
  { unfold purged. destruct (_ <=? _)%nat; [by apply budget_filter|done]. }
  assert (Hrow : forall c s, c <= u32_max -> s <= u64_max ->
    budget T allowed (Some (escrow_row c s))
    = if s <? T then (allowed - c) + allowed else allowed - c).
  { intros c s Hc Hs. unfold budget. cbn [mbind option_bind]. by rewrite escrow_try_row. }
  assert (Hfresh : (now <? T) = false) by (apply N.ltb_ge; lia).
  destruct (decide (u = n)) as [->|Hne].
  - destruct (t !! n ≫= escrow_try) as [[count since]|] eqn:Hcur.
    + assert (Hb : budget T allowed (t !! n) = if since <? T then (allowed - count) + allowed else allowed - count)
        by (unfold budget; by rewrite Hcur).
      destruct (window_over since now W) eqn:Hov.
      * intros [= <- <-]. rewrite lookup_insert_eq, Hrow, Hfresh, Hb by (unfold u32_max; lia).
        unfold window_over in Hov. apply andb_true_iff in Hov as [H1 H2]. nbool.
        replace (since <? T) with true by (symmetry; apply N.ltb_lt; lia). lia.
      * destruct (allowed <=? count) eqn:Hc; intros [= <- <-]; [lia|]. nbool.
        destruct (t !! n) as [row|] eqn:Hrow'; [|done]. simpl in Hcur.
        rewrite lookup_insert_eq, Hrow, Hb; [|lia|by eapply Hrows]. destruct (since <? T); lia.
    + assert (Hb : budget T allowed (t !! n) = allowed) by (unfold budget; by rewrite Hcur).
      destruct (size purged <? capacity)%nat; intros [= <- <-]; [|lia].
      rewrite lookup_insert_eq, Hrow, Hfresh, Hb by (unfold u32_max; lia). lia.
  - rewrite N.add_0_r. destruct (t !! u ≫= escrow_try) as [[count since]|].
    + destruct (window_over since now W); [|destruct (allowed <=? count)]; intros [= <- <-];
        rewrite ?lookup_insert_ne by done; done.
    + destruct (size purged <? capacity)%nat; intros [= <- <-]; rewrite ?lookup_insert_ne by done; done.
Qed.

(** Rows of the table of counts are bytes. *)
Definition tries_ok (t : gmap string (list N)) : Prop :=
  forall n row, t !! n = Some row -> Forall (fun b => b < 256) row.

Lemma of_le_bytes_lt l : Forall (fun b => b < 256) l -> of_le_bytes l < 256 ^ N.of_nat (length l).
Proof.
  induction 1 as [|b l Hb _ IH]; [done|]. cbn [of_le_bytes length]. rewrite Nat2N.inj_succ, N.pow_succ_r'. nia.
Qed.

Lemma escrow_try_bound row count since :
  Forall (fun b => b < 256) row -> escrow_try row = Some (count, since) -> since <= u64_max.
Proof.
  intros Hb. unfold escrow_try. destruct (length row <? 12)%nat eqn:Hl; [done|]. apply Nat.ltb_ge in Hl.
  intros [= _ <-]. assert (Hlen : length (take 8 (drop 4 row)) = 8%nat) by (rewrite length_take, length_drop; lia).
  pose proof (of_le_bytes_lt (take 8 (drop 4 row))) as Hlt. rewrite Hlen in Hlt.
  unfold u64_max. change (256 ^ N.of_nat 8) with (2 ^ 64) in Hlt.
  assert (of_le_bytes (take 8 (drop 4 row)) < 2 ^ 64); [|lia]. by apply Hlt, Forall_take, Forall_drop.
Qed.

Lemma count_attempt_tries_ok t u now allowed W capacity g t' :
  tries_ok t -> count_attempt t u now allowed W capacity = (g, t') -> tries_ok t'.
Proof.
  intros Ht. unfold count_attempt. set (purged := if (capacity <=? size t)%nat then _ else t).
  assert (Hp : tries_ok purged).
  { unfold purged. destruct (_ <=? _)%nat; [|done]. intros n row [Hrow _]%map_lookup_filter_Some. by eapply Ht. }
  assert (Hins : forall m c s, tries_ok m -> tries_ok (<[u := escrow_row c s]> m)).
  { intros m c s Hm n row [[<- <-]|[_ Hrow]]%lookup_insert_Some; [|by eapply Hm].
    apply Forall_app. split; apply le_bytes_bound. }
  destruct (t !! u ≫= escrow_try) as [[count since]|].
  - destruct (window_over _ _ _); [|destruct (allowed <=? count)]; intros [= <- <-]; auto.
  - destruct (_ <? capacity)%nat; intros [= <- <-]; auto.
Qed.

(** How many fetches of [name] a run grants. *)
Fixpoint grants (name : string) (ops : list DirOp) (d : Directory) : N :=
  match ops with
  | [] => 0
  | o :: ops =>
      (match o with
       | OCount u now allowed window capacity =>
           if decide (u = name)
           then match (count_escrow_attempt u now allowed window capacity d).1 with
                | Ok true => 1
                | _ => 0
                end
           else 0
       | _ => 0
       end) + grants name ops (step o d)
  end.

(** Counting happens under one budget, at times in [[T, T + W)], and no account
    is removed meanwhile. *)
Definition within (T W allowed : N) (o : DirOp) : Prop :=
  match o with
  | OCount _ now a w _ => a = allowed /\ w = W /\ T <= now < T + W /\ now <= u64_max
  | OExpireTries now w => w = W /\ T <= now < T + W
  | OForget _ | ODelete _ _ => False
  | _ => True
  end.

Lemma grants_budget T W allowed name ops d :
  1 <= allowed <= u32_max -> tries_ok (escrow_tries (etb d)) -> Forall (within T W allowed) ops ->
  grants name ops d <= budget T allowed (escrow_tries (etb d) !! name).
Proof.
  intros Hal. revert d. induction ops as [|o ops IH]; intros d Hok Hw; [cbn; lia|].
  apply Forall_cons in Hw as [Ho Hw]. cbn [grants].
  destruct (touches_tries o) eqn:Ht.
  - destruct o; try done; simpl in Ho.
    + destruct Ho as [-> Hnow]. etransitivity; [|by apply (budget_filter T W allowed now)].
      apply (IH (step (OExpireTries now W) d)); [|done].
      intros n row [Hrow _]%map_lookup_filter_Some. by eapply Hok.
    + destruct Ho as (-> & -> & Hnow & Hmax).
      assert (Hstep : escrow_tries (etb (step (OCount username now allowed W capacity) d))
        = (count_attempt (escrow_tries (etb d)) username now allowed W capacity).2
        /\ (count_escrow_attempt username now allowed W capacity d).1
          = Ok (count_attempt (escrow_tries (etb d)) username now allowed W capacity).1).
      { cbn [step]. unfold count_escrow_attempt, bind, gets, modify, ret.
        by destruct (count_attempt _ _ _ _ _ _). }
      destruct Hstep as [Htab ->].
      destruct (count_attempt (escrow_tries (etb d)) username now allowed W capacity) as [g t'] eqn:Hc.
      simpl in Htab. etransitivity; [|eapply (budget_count T W allowed now capacity); try done].
      2:{ intros row c s Hrow. by apply escrow_try_bound, (Hok name). }
      rewrite <- Htab, N.add_comm. apply N.add_le_mono; [|by destruct (decide _), g].
      apply IH; [|done]. rewrite Htab. by eapply count_attempt_tries_ok.
  - assert (Hz : match o with OCount _ _ _ _ _ => False | _ => True end) by by destruct o.
    rewrite <- (step_tries_frame o d Ht) in Hok |- *. destruct o; try done; rewrite N.add_0_l; by apply IH.
Qed.

(** ** The properties *)

(** Every directory a coordinator can reach: names and keys are one to one, the
    index by owner lists exactly the claims, every claim is signed by its owner
    and filed under its device, every live claim's owner is registered, no
    account has more than [MAX_DEVICES_PER_ACCOUNT] live devices, every address
    was signed by its device, and an invitation's remaining uses plus the members
    it let in are the uses its inviter signed. *)
Theorem reachable_directory_agrees (ops : list DirOp) :
  let d := run ops empty_directory in
  (forall n n' a a', account d n = Some a -> account d n' = Some a' ->
     up_id (ac_user a) = up_id (ac_user a') -> n = n' /\ a = a')
  /\ (forall n a, account d n = Some a -> account_of d (up_id (ac_user a)) = Some a)
  /\ (forall o dev, dev ∈ owner_devices (claims_by_owner (ctb d)) o <->
        exists s, claim_for d dev = Some s /\ cl_owner (sc_claim s) = o)
  /\ (forall dev s, claim_for d dev = Some s ->
        cl_device (sc_claim s) = dev /\ claim_verify_origin s = Ok tt
        /\ (cl_revoked (sc_claim s) = false -> is_Some (account_of d (cl_owner (sc_claim s)))))
  /\ (forall u, (length (live_claims_of d u) <= MAX_DEVICES_PER_ACCOUNT)%nat)
  /\ (forall dev p, presence_of d dev = Some p ->
        pr_device (sp_presence p) = dev /\ presence_verify_origin p = Ok tt)
  /\ (forall code lo, invitation d code = Some (Some lo) ->
        lo_remaining lo + N.of_nat (length (lo_admitted lo)) = in_uses (si_invitation (lo_signed lo))).
Proof.
  intros d. assert (Hok : dir_ok d) by apply run_ok, empty_ok. clearbody d.
  destruct Hok as [Hacc Hgen Hix Hb Hown [Hp _] Hinv].
  split_and!.
  - intros n n' a a' Ha Ha' Hu. destruct (proj1 Hacc n a Ha) as [_ H1].
    destruct (proj1 Hacc n' a' Ha') as [_ H2]. rewrite Hu, H2 in H1. injection H1 as ->.
    split; [done|]. unfold account in *. congruence.
  - intros n a Ha. destruct (proj1 Hacc n a Ha) as [_ Hid]. unfold account_of. by rewrite Hid.
  - intros o dev. rewrite elem_of_owner_devices. apply (Hix o dev).
  - intros dev s Hs. destruct (Hgen dev s Hs) as [Hd Hv]. split_and!; [done|done|].
    intros Hr. apply account_of_is_some; [done|]. by eapply Hown.
  - intros u. unfold live_claims_of. destruct (is_suspended d u); [simpl; unfold MAX_DEVICES_PER_ACCOUNT; lia|]. apply Hb.
  - intros dev p Hpr. by destruct (Hp dev p Hpr) as (? & ? & _).
  - intros code lo Hlo. apply (Hinv code lo). unfold invitation in Hlo.
    destruct (invitations d); [|done]. by injection Hlo.
Qed.

(** C28. A withdrawal is final: once a device's claim is revoked, no sequence of
    operations replaces it, whatever is signed afterwards and whatever happens
    to the account, and the device's own announcements are refused. *)
Theorem withdrawal_is_final (ops : list DirOp) (d : Directory) (dev : DeviceId) (s : SignedClaim) :
  claim_for d dev = Some s -> cl_revoked (sc_claim s) = true ->
  claim_for (run ops d) dev = Some s
  /\ forall p now, pr_device (sp_presence p) = dev ->
       exists e, announce p now (run ops d) = (Err e, run ops d).
Proof.
  intros Hs Hr. assert (Hrun : claims (ctb (run ops d)) !! dev = Some s).
  { revert d Hs. induction ops as [|o ops IH]; intros d Hs; [done|]. by apply IH, step_keeps_withdrawal. }
  split; [done|]. intros p now <-. destruct (announce p now (run ops d)) as [r d'] eqn:Hann.
  apply announce_cases in Hann as [(e & -> & ->)|(held & _ & _ & Hh & Hrh & _)]; [eauto|]. congruence.
Qed.

(** The order in which an owner's claims for a device arrive does not matter:
    what is held in the end is one of the claims sent, and none of them would
    still replace it, so any withdrawal among them wins. *)
Theorem held_claim_is_the_strongest (d : Directory) (e : SignedClaim) (cs : list (SignedClaim * N)) :
  claim_for d (cl_device (sc_claim e)) = Some e ->
  is_Some (account_of d (cl_owner (sc_claim e))) ->
  is_suspended d (cl_owner (sc_claim e)) = false ->
  Forall (fun c => cl_device (sc_claim c.1) = cl_device (sc_claim e)
                   /\ cl_owner (sc_claim c.1) = cl_owner (sc_claim e)
                   /\ claim_verify c.1 c.2 = Ok tt) cs ->
  exists s, claim_for (run ((fun c => OClaim c.1 c.2) <$> cs) d) (cl_device (sc_claim e)) = Some s
    /\ s ∈ e :: cs.*1 /\ Forall (fun c => supersedes c s = false) (e :: cs.*1).
Proof.
  revert d e. induction cs as [|[c now] cs IH]; intros d e He Ha Hs Hcs.
  { exists e. split_and!; [done|by left|]. repeat constructor.
    destruct (supersedes e e) eqn:Hse; [|done]. by rewrite (supersedes_asym e e Hse) in Hse. }
  apply Forall_cons in Hcs as [(Hd & Ho & Hv) Hcs]. cbn [fst snd] in *.
  set (e' := if supersedes c e then c else e).
  assert (Hdev : cl_device (sc_claim e') = cl_device (sc_claim e) /\ cl_owner (sc_claim e') = cl_owner (sc_claim e))
    by (unfold e'; by destruct (supersedes c e)).
  destruct Hdev as [Hde Hoe].
  assert (Hframe : atb (step (OClaim c now) d) = atb d).
  { cbn [step]. destruct (claim c now d) as [r d'] eqn:Hrun.
    by apply claim_cases in Hrun as [->|(_ & _ & _ & _ & _ & ->)]. }
  destruct (IH (step (OClaim c now) d) e') as (s & Hheld & Hin & Hmax).
  - rewrite Hde. by apply claim_settles.
  - rewrite Hoe. unfold account_of, account. by rewrite Hframe.
  - rewrite Hoe. unfold is_suspended. by rewrite Hframe.
  - by rewrite Hde, Hoe.
  - rewrite Hde in Hheld. exists s. split; [exact Hheld|]. csimpl. apply Forall_cons in Hmax as [He' Hmax].
    assert (Hsdev : cl_device (sc_claim s) = cl_device (sc_claim e)).
    { apply elem_of_cons in Hin as [->|Hin]; [done|]. rewrite Forall_forall in Hcs.
      apply list_elem_of_fmap in Hin as (x & -> & Hx). by apply Hcs. }
    split.
    + apply elem_of_cons in Hin as [->|Hin]; [|by do 2 right].
      unfold e'. destruct (supersedes c e); [right; by left|by left].
    + assert (Hce : supersedes c e' = false /\ supersedes e e' = false).
      { unfold e'. destruct (supersedes c e) eqn:Hsup.
        - split; [|by apply supersedes_asym]. destruct (supersedes c c) eqn:Hcc; [|done].
          by rewrite (supersedes_asym c c Hcc) in Hcc.
        - split; [done|]. destruct (supersedes e e) eqn:Hee; [|done]. by rewrite (supersedes_asym e e Hee) in Hee. }
      repeat constructor; [| |done]; eapply (supersedes_trans_neg _ e'); by (congruence || tauto).
Qed.

(** A name keeps its key: while nobody removes the account, a registered name
    stays with the key that took it and keeps the date it was first registered,
    so re-registering buys no second joining allowance. *)
Theorem name_keeps_its_key (before_ops ops : list DirOp) (n : string) (a : Account) :
  let d := run before_ops empty_directory in
  account d n = Some a -> Forall (fun o => ~ removes n o) ops ->
  exists a', account (run ops d) n = Some a'
    /\ up_id (ac_user a') = up_id (ac_user a) /\ ac_registered_unix a' = ac_registered_unix a.
Proof.
  intros d. assert (Hok : dir_ok d) by apply run_ok, empty_ok. clearbody d.
  intros Ha Hops. revert d a Hok Ha. induction Hops as [|o ops Ho _ IH]; intros d a Hok Ha; [eauto|].
  destruct (step_keeps_name o d n a Hok Ha Ho) as (a' & Ha' & Hu & Hr).
  destruct (IH (step o d) a') as (a2 & Ha2 & Hu2 & Hr2); [by apply step_ok|done|].
  exists a2. split; [done|]. split; congruence.
Qed.

(** A deleted account stays deleted: its key never has an account again, hosts
    that ask are handed the request the account itself signed, and its name is
    nobody's for [NAME_RETIRED_FOR] seconds. *)
Theorem deleted_account_stays_deleted (before_ops ops : list DirOp) (signed : SignedDeletion) (now : N)
  (d1 : Directory) :
  let d := run before_ops empty_directory in
  let u := dl_user (sl_deletion signed) in
  let n := dl_username (sl_deletion signed) in
  delete_account signed now d = (Ok tt, d1) ->
  account_of (run ops d1) u = None
  /\ deleted_among (run ops d1) [u] = [signed] /\ deletion_verify_origin signed = Ok tt
  /\ (Forall (before (sat_add now NAME_RETIRED_FOR)) ops -> account (run ops d1) n = None).
Proof.
  intros d u n. assert (Hok : dir_ok d) by apply run_ok, empty_ok. clearbody d. intros Hdel.
  assert (Hok1 : dir_ok d1).
  { pose proof (step_ok (ODelete signed now) d Hok) as Hs. cbn [step] in Hs. by rewrite Hdel in Hs. }
  apply delete_cases in Hdel as [(e & ? & _)|(_ & Hv & (a & Ha & Hname) & f & Hf)]; [done|].
  apply account_of_spec in Ha as (Ha & Hu & Hid); [|apply Hok]. rewrite Hname in Ha, Hid.
  assert (Hd1 : deleted (atb d1) !! u = Some signed /\ by_id (atb d1) !! u = None
    /\ retired (atb d1) !! n = Some (sat_add now NAME_RETIRED_FOR) /\ accounts (atb d1) !! n = None).
  { apply forget_cases in Hf as [[Hno _]|(a1 & Ha1 & Hrest)]; [simpl in Hno; congruence|].
    simpl in Ha1. rewrite Ha in Ha1. injection Ha1 as <-. cbv zeta in Hrest. destruct Hrest as (-> & _).
    simpl. rewrite Hu, !lookup_insert_eq, !lookup_delete_eq. done. }
  destruct Hd1 as (Hdel & Hbid & Hret & Hno).
  assert (Hinv : dir_ok (run ops d1) /\ deleted (atb (run ops d1)) !! u = Some signed
    /\ by_id (atb (run ops d1)) !! u = None
    /\ (Forall (before (sat_add now NAME_RETIRED_FOR)) ops -> account (run ops d1) n = None)).
  { clear -Hok1 Hdel Hbid Hret Hno. revert d1 Hok1 Hdel Hbid Hret Hno.
    induction ops as [|o ops IH]; intros d1 Hok Hdel Hbid Hret Hno; [done|].
    destruct (step_keeps_deleted o d1 u signed Hok Hdel Hbid) as [Hdel' Hbid'].
    split; [by apply run_ok|]. change (run (o :: ops) d1) with (run ops (step o d1)).
    assert (Hgen : forall os d, dir_ok d -> deleted (atb d) !! u = Some signed -> by_id (atb d) !! u = None ->
      deleted (atb (run os d)) !! u = Some signed /\ by_id (atb (run os d)) !! u = None).
    { clear. induction os as [|o os IH]; intros d Hok Hd Hb; [done|].
      destruct (step_keeps_deleted o d u signed Hok Hd Hb). apply IH; [by apply step_ok|done..]. }
    destruct (Hgen ops (step o d1) (step_ok _ _ Hok) Hdel' Hbid') as [H1 H2]. split_and!; [done|done|].
    intros [Ho Hops]%Forall_cons.
    destruct (step_keeps_retired o d1 n _ Hok Hret Hno Ho) as [Hret' Hno'].
    by apply (IH (step o d1) (step_ok _ _ Hok) Hdel' Hbid' Hret' Hno'). }
  destruct Hinv as (Hokr & Hdr & Hbr & Hn). split_and!; [|by simpl; rewrite Hdr| |exact Hn].
  - unfold account_of. by rewrite Hbr.
  - unfold deletion_verify in Hv. destruct (not_from_the_future _ _); [|done]. simpl in Hv. by destruct (_ <? _).
Qed.

(** However the fetches of a name are spread and whatever else happens, at most
    twice the budget is granted inside any stretch as long as the window: the
    counts live on disk, a pass that expires them and a full table drop only
    windows that are over, and a clock that goes back opens nothing.  (Removing
    the account resets its count, and removes its blob with it.) *)
Theorem escrow_rate_is_bounded (T W allowed : N) (name : string) (ops : list DirOp) (d : Directory) :
  1 <= allowed <= u32_max -> tries_ok (escrow_tries (etb d)) -> Forall (within T W allowed) ops ->
  grants name ops d <= 2 * allowed.
Proof.
  intros Hal Hok Hw. etransitivity; [by eapply grants_budget|].
  unfold budget. destruct (_ ≫= _) as [[c s]|]; [destruct (s <? T)|]; lia.
Qed.

(** A coordinator that admits by invitation lets in only who was vouched for: a
    newcomer's registration succeeds only with the secret of a lodged, unexpired
    invitation with uses left, signed by the inviter it names; it is recorded
    against that invitation and spends a use of it, at most once per member; and
    a registration that is refused, whatever the reason, spends nothing and
    changes nothing. *)
Theorem newcomer_is_vouched_for (ops : list DirOp) (signed : SignedRegistration)
  (secret : option (list N)) (now : N) (d' : Directory) (r : result CoordError Account) :
  let d := run ops empty_directory in
  let u := up_id (rg_user (sr_registration signed)) in
  account_of d u = None ->
  register_admitted signed secret ByInvitation now d = (r, d') ->
  match r with
  | Err _ => d' = d
  | Ok a =>
      ac_user a = rg_user (sr_registration signed) /\ ac_registered_unix a = now
      /\ exists sec lo lo',
        secret = Some sec
        /\ invitation d (code_id sec) = Some (Some lo) /\ invitation d' (code_id sec) = Some (Some lo')
        /\ invitation_verify (lo_signed lo) = Ok tt /\ now < in_expires_unix (si_invitation (lo_signed lo))
        /\ 0 < lo_remaining lo /\ lo_signed lo' = lo_signed lo /\ u ∈ lo_admitted lo'
        /\ lo_remaining lo' = (if decide (u ∈ lo_admitted lo) then lo_remaining lo else lo_remaining lo - 1)
        /\ forall code, code <> code_id sec -> invitation d' code = invitation d code
  end.
Proof.
  intros d. assert (Hok : dir_ok d) by apply run_ok, empty_ok. clearbody d.
  intros u Hnew Hrun. apply register_cases in Hrun as [(e & -> & ->)|Hrest]; [done|].
  destruct Hrest as (a & table & -> & _ & _ & _ & _ & Hu & Hcase & Htab & ->). fold u in Htab.
  assert (Hinv : invited_only d ByInvitation u = true) by (unfold invited_only; by rewrite Hnew).
  rewrite Hinv in Htab. destruct Htab as (sec & inviter & t & -> & -> & Hred).
  apply redeem_cases in Hred as (lo & Hlo & Hv & _ & Hrem & Hexp & _ & ->).
  split; [done|]. split.
  { destruct (accounts (atb d) !! rg_username (sr_registration signed)) as [ex|] eqn:Hex; [|by subst].
    destruct Hcase as [Hid _]. exfalso. fold u in Hid.
    destruct (proj1 (ok_accounts d Hok) _ _ Hex) as [_ Hb]. rewrite Hid in Hb.
    unfold account_of, account in Hnew. rewrite Hb in Hnew. simpl in Hnew. congruence. }
  destruct (invitations d) as [tab|] eqn:Htab; [|simpl in Hlo; by rewrite lookup_empty in Hlo].
  exists sec, lo, (if decide (u ∈ lo_admitted lo) then lo
    else mkLodged (lo_signed lo) (lo_remaining lo - 1) (lo_admitted lo ++ [u])).
  split_and!; try done; unfold invitation; rewrite ?Htab; simpl in *.
  - by rewrite Hlo.
  - by rewrite lookup_insert_eq.
  - by destruct (decide _).
  - destruct (decide _) as [Hin|_]; [done|]. apply elem_of_app. right. by apply list_elem_of_singleton.
  - by destruct (decide _).
  - intros code Hne. by rewrite lookup_insert_ne.
Qed.

End membership.

(** ** A small network *)

Module Town.
Import Toy.

Definition alice : UserKeys := derive [1].
Definition bob : UserKeys := derive [2].
Definition laptop : DeviceKeys := mkDeviceKeys [9].

Definition public (u : UserKeys) : UserPublic := mkUserPublic (user_id u) (replicate 32 0).
Definition registration (name : string) (u : UserKeys) : SignedRegistration :=
  registration_sign (mkRegistration name (public u) 100) u.
Definition enrolment (at_ : N) (revoked : bool) : SignedClaim :=
  claim_sign (mkClaim (user_id alice) (device_id laptop) 1000 at_ revoked) alice.
Definition secret : list N := replicate 32 7.
Definition letter : SignedInvitation :=
  invitation_sign (mkInvitation (user_id alice) (code_id secret) 100 1000 2) alice.
Definition goodbye : SignedDeletion := deletion_sign (mkDeletion (user_id alice) "alice" 300) alice.

(** Alice registers, enrols her laptop and lodges an invitation. *)
Definition history : list DirOp :=
  [ORegister (registration "alice" alice) None Open 100; OClaim (enrolment 110 false) 110; OLodge letter 120].
Abbreviation town := (run history empty_directory).

End Town.

Import Town.
#[local] Existing Instance Toy.primitives.

Lemma withdrawal_is_final_witness :
  let d := run (history ++ [OClaim (enrolment 200 true) 200]) empty_directory in
  claim_for (run [OClaim (enrolment 300 false) 300; OForget "alice"] d) (device_id laptop)
  = Some (enrolment 200 true).
Proof.
  refine (proj1 (withdrawal_is_final [OClaim (enrolment 300 false) 300; OForget "alice"]
    (run (history ++ [OClaim (enrolment 200 true) 200]) empty_directory) (device_id laptop)
    (enrolment 200 true) _ _)); vm_compute; reflexivity.
Defined.

Lemma held_claim_is_the_strongest_witness :
  exists s, claim_for (run [OClaim (enrolment 90 true) 90; OClaim (enrolment 400 false) 400] town) (device_id laptop)
    = Some s /\ s ∈ [enrolment 110 false; enrolment 90 true; enrolment 400 false]
    /\ Forall (fun c => supersedes c s = false) [enrolment 110 false; enrolment 90 true; enrolment 400 false].
Proof.
  refine (held_claim_is_the_strongest town (enrolment 110 false)
    [(enrolment 90 true, 90); (enrolment 400 false, 400)] _ _ _ _).
  - vm_compute. reflexivity.
  - vm_compute. eauto.
  - vm_compute. reflexivity.
  - apply Forall_cons; split; [split_and!; vm_compute; reflexivity|].
    apply Forall_cons; split; [split_and!; vm_compute; reflexivity|]. apply Forall_nil_2.
Defined.

Lemma name_keeps_its_key_witness :
  exists a', account (run [ORegister (registration "alice" bob) None Open 500;
                           ORegister (registration "alice" alice) None Open 600] town) "alice" = Some a'
    /\ up_id (ac_user a') = user_id alice /\ ac_registered_unix a' = 100.
Proof.
  refine (name_keeps_its_key history [ORegister (registration "alice" bob) None Open 500;
    ORegister (registration "alice" alice) None Open 600] "alice"
    (mkAccount "alice" (public alice) 100 false) _ _).
  - vm_compute. reflexivity.
  - apply Forall_cons; split; [exact id|]. apply Forall_cons; split; [exact id|]. apply Forall_nil_2.
Defined.

Lemma deleted_account_stays_deleted_witness :
  let d1 := (delete_account goodbye 300 town).2 in
  let later := run [ORegister (registration "alice" bob) None Open 5000] d1 in
  account_of later (user_id alice) = None /\ account later "alice" = None.
Proof.
  destruct (deleted_account_stays_deleted history [ORegister (registration "alice" bob) None Open 5000]
    goodbye 300 (delete_account goodbye 300 town).2) as (H1 & _ & _ & H2).
  - assert (Hr : (delete_account goodbye 300 town).1 = Ok tt) by (vm_compute; reflexivity).
    rewrite <- Hr. by destruct (delete_account goodbye 300 town).
  - split; [exact H1|]. apply H2. apply Forall_cons; split; [vm_compute; reflexivity|]. apply Forall_nil_2.
Defined.

Lemma escrow_rate_is_bounded_witness :
  grants "alice" (replicate 8 (OCount "alice" 1000 5 900 4096)) empty_directory <= 2 * 5.
Proof.
  apply (escrow_rate_is_bounded 1000 900); [done| |].
  - intros n row Hrow. simpl in Hrow. by rewrite lookup_empty in Hrow.
  - apply Forall_replicate. vm_compute. split_and!; (reflexivity || discriminate).
Defined.

Lemma newcomer_is_vouched_for_witness :
  exists lo, invitation town (code_id secret) = Some (Some lo) /\ 0 < lo_remaining lo.
Proof.
  assert (Hnew : account_of town (up_id (rg_user (sr_registration (registration "bob" bob)))) = None)
    by (vm_compute; reflexivity).
  assert (Hok : is_ok (register_admitted (registration "bob" bob) (Some secret) ByInvitation 200 town).1 = true)
    by (vm_compute; reflexivity).
  destruct (register_admitted (registration "bob" bob) (Some secret) ByInvitation 200 town) as [r d'] eqn:Hrun.
  pose proof (newcomer_is_vouched_for history (registration "bob" bob) (Some secret) 200 d' r Hnew Hrun) as Hv.
  destruct r as [a|e]; [|clear Hv Hrun; discriminate Hok].
  destruct Hv as (_ & _ & sec & lo & _ & Hsec & Hlo & _ & _ & _ & Hrem & _).
  exists lo. injection Hsec as <-. split; [exact Hlo|exact Hrem].
Defined.
