(* ===== verification/Service.v ===== *)
(** * Service: what a coordinator answers

    Models [crates/itsanas-coord/src/service.rs], the messages of [protocol.rs]
    and the request loop of [server.rs]: one handler per request over the
    directory, the limiter of escrow fetches in memory, the lists of machines
    that are handed out, and the expiry pass.  The limiter's lock is held for
    the whole of a request, so a request is one step.  A refusal carries a fixed
    sentence or the directory's error.  Instants and durations are numbers of
    one unit; [duration_since] is zero when the clock went back.  Probing an
    address ([probe_target] and what follows it) is not modelled. *)

From S2P Require Import Prelude Version Ids Crypto Accounting Claims Directory.

(** ** Messages *)

Inductive Request :=
| Hello (version : N)
| Register (signed : SignedRegistration)
| RegisterInvited (registration : SignedRegistration) (secret : list N)
| Invite (signed : SignedInvitation)
| Lookup (username : string)
| Claim (signed : SignedClaim)
| Announce (signed : SignedPresence)
| Peers (user : UserId)
| PutEscrow (blob : option (list N))
| GetEscrow (username : string)
| Devices (user : UserId)
| CheckMe
| Depart (signed : SignedDeparture)
| SignedPeers (user : UserId)
| ClaimedPeers (user : UserId)
| StandingOf (presented : SignedClaim)
| DeleteAccount (signed : SignedDeletion)
| DeletedAmong (users : list UserId)
| Hosts.

Record EnrolledDevice := mkEnrolled {
  en_device : DeviceId;
  en_pledged_bytes : N;
  en_silent_for : option N;
  en_address : option string;
}.

Inductive Refusal :=
| Text (why : string)
| Because (e : CoordError).

Inductive Response :=
| Welcome (version : N)
| Done
| AnAccount (a : Account)
| PeerList (l : list Presence)
| EscrowBlob (blob : list N)
| Missing
| Refused (why : Refusal)
| DeviceList (l : list EnrolledDevice)
| SignedPeerList (l : list SignedPresence)
| ClaimedPeerList (l : list ClaimedPresence)
| StandingIs (held : option SignedClaim)
| DeletedList (l : list SignedDeletion)
| HostList (l : list ClaimedPresence).

Definition COORD_VERSION : N := 1.
Definition MAX_WIRE_USERNAME : nat := 64.
Definition MAX_PEERS_RETURNED : nat := 32.
Definition MAX_REQUESTS_PER_CONNECTION : nat := 16.
Definition MAX_DELETED_ASKED : nat := 256.
Definition MAX_HOSTS_RETURNED : nat := 8.
Definition HOSTS_SCANNED : nat := 256.
Definition ESCROW_ATTEMPTS : N := 5.
Definition ESCROW_WINDOW : N := 15 * 60.
Definition PRESENCE_TTL : N := 7 * 24 * 3600.
Definition PRESENCE_KEPT_FOR : N := 30 * 24 * 3600.
Definition ESCROW_TRACKED : nat := 4096.

Definition is_open (r : Request) : bool :=
  match r with Hello _ | GetEscrow _ => true | _ => false end.

(** ** The limiter in memory *)

Record EscrowLimiter := mkLimiter {
  attempts : gmap string (N * N);
  li_allowed : N;
  li_window : N;
  li_capacity : nat;
}.

Definition limiter_with (allowed window : N) (capacity : nat) : EscrowLimiter :=
  mkLimiter ∅ allowed window (Nat.max capacity 1).
Definition limiter_new : EscrowLimiter := limiter_with ESCROW_ATTEMPTS ESCROW_WINDOW ESCROW_TRACKED.

Definition with_attempts (l : EscrowLimiter) (a : gmap string (N * N)) : EscrowLimiter :=
  mkLimiter a (li_allowed l) (li_window l) (li_capacity l).

Definition forget_expired (l : EscrowLimiter) (now : N) : EscrowLimiter :=
  with_attempts l (filter (fun row => (now - row.2.2 <? li_window l) = true) (attempts l)).

Definition allow (l : EscrowLimiter) (username : string) (now : N) : bool * EscrowLimiter :=
  let l := forget_expired l now in
  match attempts l !! username with
  | Some (count, since) =>
      if li_window l <=? now - since then (true, with_attempts l (<[username := (1, now)]> (attempts l)))
      else if li_allowed l <=? count then (false, l)
      else (true, with_attempts l (<[username := (count + 1, since)]> (attempts l)))
  | None =>
      if (li_capacity l <=? size (attempts l))%nat then (false, l)
      else (true, with_attempts l (<[username := (1, now)]> (attempts l)))
  end.

Definition tracked (l : EscrowLimiter) : nat := size (attempts l).

(** ** Lists of machines *)

Section service.
Context `{!Primitives}.

(** Sorted by when this coordinator last heard from them, latest first, then by
    device. *)
Definition peer_before (a b : N * ClaimedPresence) : bool :=
  (b.1 <? a.1)
  || ((a.1 =? b.1) && (pr_device (sp_presence (cp_presence a.2)) <=? pr_device (sp_presence (cp_presence b.2)))).

(** One machine of the list, with when it was last heard. *)
Definition listed_peer (d : Directory) (now : N) (claim : SignedClaim) : option (N * ClaimedPresence) :=
  let device := cl_device (sc_claim claim) in
  match presence_of d device with
  | None => None
  | Some presence =>
      let seen := default 0 (last_seen d device) in
      if PRESENCE_TTL <? sat_sub now seen then None
      else Some (seen, mkClaimedPresence presence claim)
  end.

Definition claimed_peers_of (d : Directory) (user : UserId) (now : N) : list ClaimedPresence :=
  (take MAX_PEERS_RETURNED (sort_by peer_before (omap (listed_peer d now) (live_claims_of d user)))).*2.

Definition peers_of (d : Directory) (user : UserId) (now : N) : list SignedPresence :=
  cp_presence <$> claimed_peers_of d user now.

Definition bare_peers_of (d : Directory) (user : UserId) (now : N) : list Presence :=
  sp_presence <$> peers_of d user now.

(** Whether [caller] is told of a machine that offers space. *)
Definition listed_host (d : Directory) (now : N) (mine : SignedClaim) (presence : SignedPresence)
  : option ClaimedPresence :=
  let device := pr_device (sp_presence presence) in
  match claim_for d device with
  | None => None
  | Some claim =>
      let c := sc_claim claim in
      let seen := default 0 (last_seen d device) in
      if cl_revoked c || (cl_pledged_bytes c =? 0) || (cl_owner c =? cl_owner (sc_claim mine))
         || (PRESENCE_TTL <? sat_sub now seen) || is_suspended d (cl_owner c)
      then None
      else Some (mkClaimedPresence presence claim)
  end.

Definition hosts_for (d : Directory) (caller : DeviceId) (now : N) : list ClaimedPresence :=
  match claim_for d caller with
  | None => []
  | Some mine =>
      take MAX_HOSTS_RETURNED (omap (listed_host d now mine) (presences_after d caller HOSTS_SCANNED))
  end.

Definition enrolled_before (a b : EnrolledDevice) : bool :=
  let sa := default u64_max (en_silent_for a) in
  let sb := default u64_max (en_silent_for b) in
  (sa <? sb) || ((sa =? sb) && (en_device a <=? en_device b)).

Definition enrolled (d : Directory) (now : N) (claim : SignedClaim) : EnrolledDevice :=
  let device := cl_device (sc_claim claim) in
  mkEnrolled device (cl_pledged_bytes (sc_claim claim))
    ((fun seen => sat_sub now seen) <$> last_seen d device)
    ((fun p => pr_address (sp_presence p)) <$> presence_of d device).

Definition devices_of (d : Directory) (user : UserId) (caller : DeviceId) (now : N) : Response :=
  let member := match claim_for d caller with
                | Some claim => (cl_owner (sc_claim claim) =? user) && negb (cl_revoked (sc_claim claim))
                                && is_ok (claim_verify claim now)
                | None => false
                end in
  if negb member
  then Refused (Text "only an enrolled device of an account may list its devices; run `itsanas register` on this machine first")
  else DeviceList (take MAX_PEERS_RETURNED
         (sort_by enrolled_before (enrolled d now <$> live_claims_of d user))).

Definition standing (d : Directory) (presented : SignedClaim) : Response :=
  match claim_verify_origin presented with
  | Err _ => Refused (Text "that claim is not signed by the account it names")
  | Ok _ =>
      let held := match claim_for d (cl_device (sc_claim presented)) with
                  | Some held => if cl_owner (sc_claim held) =? cl_owner (sc_claim presented)
                                 then Some held else None
                  | None => None
                  end in
      StandingIs (match held with
                  | Some held => if is_suspended d (cl_owner (sc_claim held)) then None else Some held
                  | None => None
                  end)
  end.

Definition hello (version : N) : Response :=
  if version =? COORD_VERSION then Welcome COORD_VERSION
  else Refused (Text "this coordinator speaks another version; upgrade one side").

(** ** Requests *)

(** An operation's outcome as an answer. *)
Definition answered {A} (op : M Directory CoordError A) (ok : A -> Response) (d : Directory)
  : Response * Directory :=
  match op d with
  | (Ok a, d') => (ok a, d')
  | (Err e, d') => (Refused (Because e), d')
  end.

Definition deletion (request : Request) (now_unix : N) (d : Directory) : Response * Directory :=
  match request with
  | DeleteAccount signed => answered (delete_account signed now_unix) (fun _ => Done) d
  | DeletedAmong users =>
      if (MAX_DELETED_ASKED <? length users)%nat
      then (Refused (Text "too many accounts in one question"), d)
      else (DeletedList (deleted_among d users), d)
  | _ => (Refused (Text "not a deletion request"), d)
  end.

(** Store or withdraw an escrow blob: two transactions, in the order that fails
    on the safe side. *)
Definition store_escrow (caller : DeviceId) (blob : option (list N)) (now_unix : N) (d : Directory)
  : Response * Directory :=
  match claim_for d caller with
  | None => (Refused (Text "this device is not enrolled under any account"), d)
  | Some claim =>
      if cl_revoked (sc_claim claim) || negb (is_ok (claim_verify claim now_unix))
      then (Refused (Text "this device's enrolment is revoked or invalid"), d)
      else
        let owner := cl_owner (sc_claim claim) in
        answered
          (match blob with
           | Some blob => put_escrow owner blob ;;! set_escrow_enabled owner true
           | None => set_escrow_enabled owner false ;;! put_escrow owner []
           end) (fun _ => Done) d
  end.

(** Memory first, then the disk, which a restart does not clear. *)
Definition escrow_allowed (l : EscrowLimiter) (username : string) (now now_unix : N) (d : Directory)
  : bool * (Directory * EscrowLimiter) :=
  let '(granted, l) := allow l username now in
  if granted then
    match count_escrow_attempt username now_unix ESCROW_ATTEMPTS ESCROW_WINDOW ESCROW_TRACKED d with
    | (Ok counted, d) => (counted, (d, l))
    | (Err _, d) => (false, (d, l))
    end
  else (false, (d, l)).

Definition handle (admission : Admission) (request : Request) (caller : DeviceId) (now_unix now : N)
  (s : Directory * EscrowLimiter) : Response * (Directory * EscrowLimiter) :=
  let '(d, l) := s in
  let keep (r : Response * Directory) := (r.1, (r.2, l)) in
  match request with
  | Hello version => (hello version, s)
  | Register signed => keep (answered (register_admitted signed None admission now_unix) AnAccount d)
  | RegisterInvited registration secret =>
      keep (answered (register_admitted registration (Some secret) admission now_unix) AnAccount d)
  | Invite signed => keep (answered (lodge_invitation signed now_unix) (fun _ => Done) d)
  | Lookup username =>
      (if (MAX_WIRE_USERNAME <? String.length username)%nat then Refused (Text "username too long")
       else match account d username with
            | Some a => AnAccount (mkAccount (ac_username a) (ac_user a) 0 false)
            | None => Missing
            end, s)
  | Claim signed => keep (answered (claim signed now_unix) (fun _ => Done) d)
  | Announce signed =>
      if negb (pr_device (sp_presence signed) =? caller)
      then (Refused (Text "a device may only announce its own address"), s)
      else keep (answered (announce signed now_unix) (fun _ => Done) d)
  | Peers user => (PeerList (bare_peers_of d user now_unix), s)
  | SignedPeers user => (SignedPeerList (peers_of d user now_unix), s)
  | ClaimedPeers user => (ClaimedPeerList (claimed_peers_of d user now_unix), s)
  | Hosts => (HostList (hosts_for d caller now_unix), s)
  | StandingOf presented => (standing d presented, s)
  | DeleteAccount _ | DeletedAmong _ => keep (deletion request now_unix d)
  | PutEscrow blob => keep (store_escrow caller blob now_unix d)
  | GetEscrow username =>
      if (MAX_WIRE_USERNAME <? String.length username)%nat then (Refused (Text "username too long"), s)
      else
        let '(granted, s) := escrow_allowed l username now now_unix d in
        if negb granted
        then (Refused (Text "too many recovery attempts for this account; try again later"), s)
        else (match escrow s.1 username with Some blob => EscrowBlob blob | None => Missing end, s)
  | Devices user => (devices_of d user caller now_unix, s)
  | Depart signed =>
      if negb (dp_device (sd_departure signed) =? caller)
      then (Refused (Text "a device may only announce its own departure"), s)
      else keep (answered (depart signed now_unix) (fun _ => Done) d)
  | CheckMe => (Refused (Text "this coordinator cannot probe: it was built without a network"), s)
  end.

(** What one pass erased. *)
Record Expired := mkExpired { ex_addresses : nat; ex_names : nat; ex_escrow_counts : nat }.

Definition expire (now_unix : N) : M Directory CoordError Expired :=
  addresses <-! expire_presence now_unix PRESENCE_KEPT_FOR;
  names <-! expire_retired_names now_unix;
  escrow_counts <-! expire_escrow_tries now_unix ESCROW_WINDOW;
  ret (mkExpired addresses names escrow_counts).

(** The requests of one connection, each with the clocks it met, answered in
    order; the one after the last allowed is refused and ends it.  A [CheckMe]
    goes to the prober, which changes neither the directory nor the limiter:
    its answer is an argument. *)
Fixpoint serve (probe : Directory -> N -> Response) (admission : Admission) (served : nat) (caller : DeviceId) (requests : list (Request * N * N))
  (s : Directory * EscrowLimiter) : list Response * (Directory * EscrowLimiter) :=
  match requests with
  | [] => ([], s)
  | (request, now_unix, now) :: requests =>
      if (served =? MAX_REQUESTS_PER_CONNECTION)%nat
      then ([Refused (Text "this connection has made its requests; open another")], s)
      else
        let '(response, s) := match request with
                              | CheckMe => (probe s.1 now_unix, s)
                              | _ => handle admission request caller now_unix now s
                              end in
        let '(responses, s) := serve probe admission (S served) caller requests s in
        (response :: responses, s)
  end.

End service.
