(* ===== verification/Answers.v ===== *)
(** * Answers: what the coordinator's answers can be relied on for

    Properties of [Service] over the directories of [DirectoryOk]: every change
    a request makes is authorised by the key it belongs to, a refusal changes
    nothing, the machines handed out pass the checks their readers make, an
    expiry pass withdraws no address still handed out, and escrow gives back
    what was put. *)

From S2P Require Import Prelude Version Ids Crypto Accounting Claims Directory DirectoryOk Membership Service.

Section answers.
Context `{HPrim : !Primitives}.

(** ** Requests are steps of the directory *)

(** The operations a request performs on the directory. *)
Definition request_ops (admission : Admission) (request : Request) (caller : DeviceId) (now_unix now : N)
  (d : Directory) (l : EscrowLimiter) : list DirOp :=
  match request with
  | Register signed => [ORegister signed None admission now_unix]
  | RegisterInvited signed secret => [ORegister signed (Some secret) admission now_unix]
  | Invite signed => [OLodge signed now_unix]
  | Claim signed => [OClaim signed now_unix]
  | Announce signed =>
      if pr_device (sp_presence signed) =? caller then [OAnnounce signed now_unix] else []
  | Depart signed =>
      if dp_device (sd_departure signed) =? caller then [ODepart signed now_unix] else []
  | DeleteAccount signed => [ODelete signed now_unix]
  | PutEscrow blob =>
      match claim_for d caller with
      | Some claim =>
          let owner := cl_owner (sc_claim claim) in
          if cl_revoked (sc_claim claim) || negb (is_ok (claim_verify claim now_unix)) then []
          else match blob with
               | Some blob =>
                   if is_ok (put_escrow owner blob d).1
                   then [OPutEscrow owner blob; OEscrowEnabled owner true] else []
               | None =>
                   if is_ok (set_escrow_enabled owner false d).1
                   then [OEscrowEnabled owner false; OPutEscrow owner []] else []
               end
      | None => []
      end
  | GetEscrow username =>
      if (MAX_WIRE_USERNAME <? String.length username)%nat then []
      else if (allow l username now).1
      then [OCount username now_unix ESCROW_ATTEMPTS ESCROW_WINDOW ESCROW_TRACKED] else []
  | _ => []
  end.

Lemma answered_state {A} (op : M Directory CoordError A) ok d : (answered op ok d).2 = (op d).2.
Proof. unfold answered. by destruct (op d) as [[a|e] d']. Qed.

Lemma put_escrow_state u blob d :
  is_ok (put_escrow u blob d).1 = false -> (put_escrow u blob d).2 = d.
Proof. unfold put_escrow, throw, modify. by destruct (_ <? _)%nat. Qed.

Lemma set_escrow_enabled_state u b d :
  is_ok (set_escrow_enabled u b d).1 = false -> (set_escrow_enabled u b d).2 = d.
Proof. unfold set_escrow_enabled, bind, gets, throw, modify. by destruct (account_of d u). Qed.

Lemma bind_state {A B} (m : M Directory CoordError A) (k : M Directory CoordError B) d :
  (m ;;! k) d = match m d with (Ok _, d1) => k d1 | (Err e, d1) => (Err e, d1) end.
Proof. done. Qed.

(** A request does what its operations do. *)
Lemma handle_run admission request caller now_unix now d l :
  (handle admission request caller now_unix now (d, l)).2.1
  = run (request_ops admission request caller now_unix now d l) d.
Proof.
  destruct request; cbn [handle request_ops]; try done; cbn [snd fst]; rewrite ?answered_state; try done.
  - by destruct (pr_device (sp_presence signed) =? caller); cbn [negb]; cbn [snd fst]; rewrite ?answered_state.
  - unfold store_escrow. destruct (claim_for d caller) as [c|]; [|done].
    destruct (cl_revoked _ || _); [done|]. rewrite answered_state. destruct blob as [blob|]; rewrite bind_state.
    + pose proof (put_escrow_state (cl_owner (sc_claim c)) blob d) as Hp. cbn [run foldl step].
      destruct (put_escrow _ blob d) as [[[]|e] d1] eqn:Hput; [|by apply Hp].
      cbn [is_ok fst run foldl step snd]. by rewrite Hput.
    + pose proof (set_escrow_enabled_state (cl_owner (sc_claim c)) false d) as Hp. cbn [run foldl step].
      destruct (set_escrow_enabled _ false d) as [[[]|e] d1] eqn:Hset; [|by apply Hp].
      cbn [is_ok fst run foldl step snd]. by rewrite Hset.
  - destruct (_ <? _)%nat; [done|]. unfold escrow_allowed. destruct (allow l username now) as [[] l']; [|done].
    cbn [fst run foldl step]. destruct (count_escrow_attempt _ _ _ _ _ d) as [[[]|e] d1]; done.
  - by destruct (dp_device (sd_departure signed) =? caller); cbn [negb]; cbn [snd fst]; rewrite ?answered_state.
  - cbn [deletion]. by rewrite answered_state.
  - cbn [deletion]. by destruct (_ <? _)%nat.
Qed.

Lemma expire_run now d :
  (expire now d).2 = run [OExpirePresence now PRESENCE_KEPT_FOR; OExpireNames now; OExpireTries now ESCROW_WINDOW] d.
Proof. done. Qed.

(** A connection is a run of the directory too. *)
Lemma serve_run probe admission served caller requests d l :
  exists ops, (serve probe admission served caller requests (d, l)).2.1 = run ops d.
Proof.
  revert served d l. induction requests as [|[[request now_unix] now] requests IH]; intros served d l.
  { by exists []. }
  cbn [serve]. destruct (_ =? _)%nat; [by exists []|].
  pose proof (handle_run admission request caller now_unix now d l) as Hh.
  assert (Hnext : exists ops d1 l1 r, run ops d = d1 /\
    match request with CheckMe => (probe (d, l).1 now_unix, (d, l))
    | _ => handle admission request caller now_unix now (d, l) end = (r, (d1, l1))).
  { destruct (handle admission request caller now_unix now (d, l)) as [r [d1 l1]] eqn:Hr. simpl in Hh. subst.
    destruct request; try (eexists _, _, _, _; split; [reflexivity|reflexivity]).
    exists [], d, l, (probe d now_unix). done. }
  destruct Hnext as (ops & d1 & l1 & r & <- & ->).
  destruct (IH (S served) (run ops d) l1) as (ops' & Hops). exists (ops ++ ops').
  destruct (serve _ _ _ _ _ _) as [rs s]. simpl in *. unfold run in *. by rewrite foldl_app.
Qed.

(** ** Authority *)

(** The account [u] asked for its own deletion. *)
Definition deleted_by (request : Request) (u : UserId) : Prop :=
  exists s, request = DeleteAccount s /\ dl_user (sl_deletion s) = u /\ deletion_verify_origin s = Ok tt.

(** [caller] is a live device of [u]. *)
Definition device_of (d : Directory) (caller : DeviceId) (u : UserId) : Prop :=
  exists c, claim_for d caller = Some c /\ cl_owner (sc_claim c) = u
    /\ cl_revoked (sc_claim c) = false /\ claim_verify_origin c = Ok tt.

(** What a request may change, and on whose authority. *)
Definition authorised (d d' : Directory) (request : Request) (caller : DeviceId) : Prop :=
  (forall dev, claim_for d' dev <> claim_for d dev ->
     (exists s, request = Claim s /\ cl_device (sc_claim s) = dev
        /\ claim_verify_origin s = Ok tt /\ claim_for d' dev = Some s)
     \/ (exists c, claim_for d dev = Some c /\ deleted_by request (cl_owner (sc_claim c))))
  /\ (forall dev, presence_of d' dev <> presence_of d dev ->
     (exists s, request = Announce s /\ dev = caller
        /\ presence_verify_origin s = Ok tt /\ presence_of d' dev = Some s)
     \/ (exists c, claim_for d dev = Some c /\ deleted_by request (cl_owner (sc_claim c))))
  /\ (forall u, escrows (etb d') !! u <> escrows (etb d) !! u ->
     device_of d caller u \/ deleted_by request u)
  /\ (forall n, account d' n <> account d n ->
     (exists s, (request = Register s \/ exists secret, request = RegisterInvited s secret)
        /\ rg_username (sr_registration s) = n /\ registration_verify s = Ok tt)
     \/ (exists a, account d n = Some a
          /\ (device_of d caller (up_id (ac_user a)) \/ deleted_by request (up_id (ac_user a))))).

Lemma authorised_refl d request caller : authorised d d request caller.
Proof. split_and!; intros ? Hne; by destruct Hne. Qed.

(** A request that leaves those tables alone. *)
Lemma authorised_frame d d' request caller :
  ctb d' = ctb d -> presences (ptb d') = presences (ptb d) -> escrows (etb d') = escrows (etb d) ->
  accounts (atb d') = accounts (atb d) -> authorised d d' request caller.
Proof.
  intros H1 H2 H3 H4. unfold authorised, claim_for, presence_of, account. rewrite H1, H2, H3, H4.
  split_and!; intros ? Hne; by destruct Hne.
Qed.

Lemma authorised_register d signed secret admission now request caller :
  (request = Register signed \/ exists sec, request = RegisterInvited signed sec) ->
  authorised d (step (ORegister signed secret admission now) d) request caller.
Proof.
  intros Hreq. cbn [step]. destruct (register_admitted _ _ _ _ _) as [r d'] eqn:Hrun.
  apply register_cases in Hrun as [(e & _ & ->)|(a & t & _ & Hv & _ & _ & _ & _ & _ & _ & ->)];
    [apply authorised_refl|].
  split_and!; try (intros ? Hne; by destruct Hne). intros n Hne. left. exists signed. split_and!; [done| |done].
  destruct (decide (rg_username (sr_registration signed) = n)) as [|Hn]; [done|].
  destruct Hne. unfold account. simpl. by rewrite lookup_insert_ne.
Qed.

Lemma authorised_claim d signed now caller :
  authorised d (step (OClaim signed now) d) (Claim signed) caller.
Proof.
  cbn [step]. destruct (claim _ _ _) as [r d'] eqn:Hrun.
  apply claim_cases in Hrun as [->|(_ & Hv & _ & _ & _ & ->)]; [apply authorised_refl|].
  split_and!; try (intros ? Hne; by destruct Hne). intros dev Hne. left. exists signed.
  unfold claim_for in *. cbn [ctb on_ctb claims snd] in *.
  destruct (decide (cl_device (sc_claim signed) = dev)) as [<-|Hn].
  - rewrite lookup_insert_eq. split_and!; try done. by eapply claim_verify_genuine.
  - destruct Hne. by rewrite lookup_insert_ne.
Qed.

Lemma authorised_announce d signed now :
  authorised d (step (OAnnounce signed now) d) (Announce signed) (pr_device (sp_presence signed)).
Proof.
  cbn [step]. destruct (announce _ _ _) as [r d'] eqn:Hrun.
  apply announce_cases in Hrun as [(e & _ & ->)|(h & _ & Hv & _ & _ & _ & pm & tk & _ & ->)]; [apply authorised_refl|].
  split_and!; try (intros ? Hne; by destruct Hne). intros dev Hne. left. exists signed.
  unfold presence_of in *. cbn [ptb on_ptb presences snd] in *.
  destruct (decide (pr_device (sp_presence signed) = dev)) as [<-|Hn].
  - rewrite lookup_insert_eq. split_and!; try done. unfold presence_verify in Hv.
    by destruct (not_from_the_future _ _).
  - destruct Hne. by rewrite lookup_insert_ne.
Qed.

Lemma authorised_delete d signed now caller :
  dir_ok d -> authorised d (step (ODelete signed now) d) (DeleteAccount signed) caller.
Proof.
  intros Hok. cbn [step]. destruct (delete_account _ _ _) as [r d'] eqn:Hrun.
  apply delete_cases in Hrun as [(e & _ & ->)|(_ & Hv & (a & Ha & Hname) & f & Hf)]; [apply authorised_refl|].
  set (u := dl_user (sl_deletion signed)) in *.
  assert (Hby : deleted_by (DeleteAccount signed) u).
  { exists signed. split_and!; [done|done|]. unfold deletion_verify in Hv.
    destruct (not_from_the_future _ _); [|done]. simpl in Hv. by destruct (_ <? _). }
  apply account_of_spec in Ha as (Ha & Hu & _); [|apply Hok]. rewrite Hname in Ha.
  apply forget_cases in Hf as [[Hno _]|(a1 & Ha1 & Hrest)]; [simpl in Hno; congruence|].
  simpl in Ha1. rewrite Ha in Ha1. injection Ha1 as <-. cbv zeta in Hrest. rewrite Hu in Hrest.
  destruct Hrest as (Hat & Hcl & _ & Hpr & _ & Het & _). cbn [delete_mark on_atb ctb ptb etb atb] in *.
  assert (Hgone : forall dev, (u, dev) ∈ claims_by_owner (ctb d) ->
    exists c, claim_for d dev = Some c /\ deleted_by (DeleteAccount signed) (cl_owner (sc_claim c))).
  { intros dev Hin. apply (ok_index d Hok) in Hin as (c & Hc & Ho). exists c. by rewrite Ho. }
  split_and!.
  - intros dev Hne. right. unfold claim_for at 1 in Hne. cbn [snd] in Hne. rewrite Hcl in Hne.
    case_decide as Hg; [by apply Hgone, Hg|done].
  - intros dev Hne. right. unfold presence_of in Hne. cbn [snd] in Hne. rewrite Hpr in Hne.
    case_decide as Hg; [by apply Hgone, Hg|done].
  - intros v Hne. cbn [snd] in Hne. rewrite Het in Hne. cbn [escrows] in Hne.
    destruct (decide (u = v)) as [<-|Hn]; [by right|]. by rewrite lookup_delete_ne in Hne.
  - intros n Hne. unfold account at 1 in Hne. cbn [snd] in Hne. rewrite Hat in Hne. cbn [accounts with_accounts] in Hne.
    destruct (decide (dl_username (sl_deletion signed) = n)) as [<-|Hn]; [|by rewrite lookup_delete_ne in Hne].
    right. exists a. split; [done|]. right. by rewrite Hu.
Qed.

Lemma authorised_escrow d caller owner request (ops : list DirOp) :
  dir_ok d -> device_of d caller owner ->
  Forall (fun o => (exists blob, o = OPutEscrow owner blob) \/ (exists b, o = OEscrowEnabled owner b)) ops ->
  authorised d (run ops d) request caller.
Proof.
  intros Hok Hdev Hops.
  assert (Hframe : dir_ok (run ops d) /\ ctb (run ops d) = ctb d /\ ptb (run ops d) = ptb d
    /\ (forall u, u <> owner -> escrows (etb (run ops d)) !! u = escrows (etb d) !! u)
    /\ (forall n, account (run ops d) n <> account d n ->
          exists a, account d n = Some a /\ up_id (ac_user a) = owner)
    /\ by_id (atb (run ops d)) = by_id (atb d)).
  { clear Hdev. revert d Hok. induction Hops as [|o ops Ho _ IH]; intros d Hok.
    { split_and!; try done. }
    destruct (IH (step o d) (step_ok _ _ Hok)) as (H1 & H2 & H3 & H4 & H5 & H6).
    change (run (o :: ops) d) with (run ops (step o d)). split; [done|].
    destruct Ho as [[blob ->]|[b ->]].
    - assert (Hst : step (OPutEscrow owner blob) d = d \/
        step (OPutEscrow owner blob) d = on_etb (fun t => with_escrows (<[owner := blob]> (escrows t)) t) d).
      { cbn [step]. unfold put_escrow, throw, modify. destruct (_ <? _)%nat; auto. }
      destruct Hst as [Heq|Heq]; rewrite Heq in *; [done|]. split_and!; try done.
      intros u Hne. rewrite H4 by done. simpl. by rewrite lookup_insert_ne.
    - cbn [step] in *. unfold set_escrow_enabled, bind, gets, throw, modify in *.
      destruct (account_of d owner) as [a|] eqn:Ha; [|done]. cbn [snd] in *.
      apply account_of_spec in Ha as (Ha & Hu & _); [|apply Hok]. split_and!; try done.
      intros n Hne. destruct (decide (n = ac_username a)) as [->|Hn]; [by exists a|].
      destruct (H5 n) as (a' & Ha' & Hu').
      { unfold account in *. simpl. by rewrite lookup_insert_ne. }
      exists a'. split; [|done]. unfold account in *. simpl in Ha'. by rewrite lookup_insert_ne in Ha'. }
  destruct Hframe as (_ & Hct & Hpt & Hes & Hac & _). split_and!.
  - intros dev Hne. unfold claim_for in Hne. by rewrite Hct in Hne.
  - intros dev Hne. unfold presence_of in Hne. by rewrite Hpt in Hne.
  - intros u Hne. left. destruct (decide (u = owner)) as [->|Hn]; [done|]. by destruct Hne; apply Hes.
  - intros n Hne. right. destruct (Hac n Hne) as (a & Ha & <-). exists a. split; [done|]. by left.
Qed.

(** C27. Every change a request makes is authorised by a key the coordinator does not
    hold: a device's claim changes only to one its owner signed, or goes with an
    account that signed its own deletion; an address only to one the calling
    device signed for itself; an escrow blob, and whether it is enabled, only at
    the call of a live device of its owner; a name only by a registration its key
    signed. *)
Theorem every_change_is_authorised (ops : list DirOp) (admission : Admission) (request : Request)
  (caller : DeviceId) (now_unix now : N) (l : EscrowLimiter) :
  let d := run ops empty_directory in
  authorised d (handle admission request caller now_unix now (d, l)).2.1 request caller.
Proof.
  intros d. assert (Hok : dir_ok d) by apply run_ok, empty_ok. clearbody d. rewrite handle_run.
  destruct request; cbn [request_ops]; try apply authorised_refl.
  - apply authorised_register. by left.
  - apply authorised_register. right. eauto.
  - unfold run. cbn [foldl step]. destruct (lodge_invitation _ _ _) as [r d'] eqn:Hrun.
    apply lodge_cases in Hrun as [(e & _ & ->)|(lo & _ & _ & _ & _ & _ & ->)]; by apply authorised_frame.
  - apply authorised_claim.
  - destruct (_ =? caller) eqn:Hc; [|apply authorised_refl]. nbool. rewrite <- Hc. apply authorised_announce.
  - destruct (claim_for d caller) as [c|] eqn:Hc; [|apply authorised_refl].
    destruct (cl_revoked (sc_claim c) || _) eqn:Hr; [apply authorised_refl|].
    apply orb_false_iff in Hr as [Hr _].
    assert (Hdev : device_of d caller (cl_owner (sc_claim c))).
    { exists c. split_and!; try done. by apply (ok_genuine d Hok caller). }
    destruct blob as [blob|].
    + destruct (is_ok _); [|apply authorised_refl]. eapply authorised_escrow; [done|exact Hdev|].
      do 2 (apply Forall_cons; split; [eauto|]). by apply Forall_nil.
    + destruct (is_ok _); [|apply authorised_refl]. eapply authorised_escrow; [done|exact Hdev|].
      do 2 (apply Forall_cons; split; [eauto|]). by apply Forall_nil.
  - destruct (_ <? _)%nat; [apply authorised_refl|]. destruct (allow _ _ _).1; [|apply authorised_refl].
    unfold run. cbn [foldl step]. unfold count_escrow_attempt, bind, gets, modify, ret.
    destruct (count_attempt _ _ _ _ _ _). by apply authorised_frame.
  - destruct (_ =? caller); [|apply authorised_refl]. unfold run. cbn [foldl step].
    unfold depart, bind, lift, gets, throw, modify. destruct (departure_verify _ _); [|apply authorised_refl].
    destruct (claim_for d _) as [h|]; [|apply authorised_refl]. destruct (cl_revoked _); by apply authorised_frame.
  - by apply authorised_delete.
Qed.

(** ** Refusals *)

Lemma answered_refused {A} (op : M Directory CoordError A) ok d why d' :
  (forall e d1, op d = (Err e, d1) -> d1 = d) -> (forall a, exists r, ok a = r /\ forall w, r <> Refused w) ->
  answered op ok d = (Refused why, d') -> d' = d.
Proof.
  intros Herr Hok. unfold answered. destruct (op d) as [[a|e] d1] eqn:Hop.
  - intros [= Hr _]. destruct (Hok a) as (r & Hr' & Hno). congruence.
  - intros [= _ <-]. by eapply Herr.
Qed.

Lemma depart_refused signed now d e d1 : depart signed now d = (Err e, d1) -> d1 = d.
Proof.
  unfold depart, bind, lift, gets, throw, modify. destruct (departure_verify _ _); [|by intros [= _ <-]].
  destruct (claim_for d _) as [h|]; [|by intros [= _ <-]]. destruct (cl_revoked _); [by intros [= _ <-]|done].
Qed.

(** A live device's owner has an account, so a blob that is stored is enabled,
    and one that is withdrawn is disabled. *)
Lemma store_escrow_refused caller blob now d why d' :
  dir_ok d -> store_escrow caller blob now d = (Refused why, d') -> d' = d.
Proof.
  intros Hok. unfold store_escrow. destruct (claim_for d caller) as [c|] eqn:Hc; [|by intros [= _ <-]].
  destruct (cl_revoked (sc_claim c) || _) eqn:Hr; [by intros [= _ <-]|]. apply orb_false_iff in Hr as [Hr _].
  assert (Hacc : is_Some (account_of d (cl_owner (sc_claim c)))).
  { apply account_of_is_some; [apply Hok|]. by eapply (ok_owners d Hok). }
  destruct Hacc as [a Ha]. unfold answered. destruct blob as [blob|]; rewrite bind_state.
  - unfold put_escrow, set_escrow_enabled, bind, gets, throw, modify.
    destruct (_ <? _)%nat; [by intros [= _ <-]|].
    change (account_of (on_etb _ d) (cl_owner (sc_claim c))) with (account_of d (cl_owner (sc_claim c))).
    by rewrite Ha.
  - unfold put_escrow, set_escrow_enabled, bind, gets, throw, modify. rewrite Ha. done.
Qed.

(** A refusal changes nothing: when a request is answered [Refused], the
    directory is as it was, but for the counts of escrow fetches when that is
    what was asked. *)
Theorem refusal_changes_nothing (ops : list DirOp) (admission : Admission) (request : Request)
  (caller : DeviceId) (now_unix now : N) (l l' : EscrowLimiter) (why : Refusal) (d' : Directory) :
  let d := run ops empty_directory in
  handle admission request caller now_unix now (d, l) = (Refused why, (d', l')) ->
  match request with
  | GetEscrow _ => d' = on_etb (with_tries (escrow_tries (etb d'))) d
  | _ => d' = d /\ l' = l
  end.
Proof.
  intros d. assert (Hok : dir_ok d) by apply run_ok, empty_ok. clearbody d.
  assert (Hkeep : forall r : Response * Directory, (r.1, (r.2, l)) = (Refused why, (d', l')) ->
    (r = (Refused why, d') -> d' = d) -> d' = d /\ l' = l).
  { intros [r1 r2] [= -> -> <-] Hr. split; [by apply Hr|done]. }
  destruct request; cbn [handle]; try (by intros [= _ <- <-]).
  - intros Hh. apply (Hkeep _ Hh), answered_refused; [|by eauto].
    intros e d1 Hop. by apply register_cases in Hop as [(? & _ & ?)|(? & ? & ? & _)].
  - intros Hh. apply (Hkeep _ Hh), answered_refused; [|by eauto].
    intros e d1 Hop. by apply register_cases in Hop as [(? & _ & ?)|(? & ? & ? & _)].
  - intros Hh. apply (Hkeep _ Hh), answered_refused; [|by eauto].
    intros e d1 Hop. by apply lodge_cases in Hop as [(? & _ & ?)|(? & ? & _)].
  - intros Hh. apply (Hkeep _ Hh), answered_refused; [|by eauto].
    intros e d1 Hop. by apply claim_cases in Hop as [?|(? & _)].
  - destruct (negb _); [by intros [= _ <- <-]|]. intros Hh. apply (Hkeep _ Hh), answered_refused; [|by eauto].
    intros e d1 Hop. by apply announce_cases in Hop as [(? & _ & ?)|(? & ? & _)].
  - intros Hh. apply (Hkeep _ Hh). by apply store_escrow_refused.
  - destruct (_ <? _)%nat; [intros [= _ <- <-]; by destruct d as [? ? ? [] ?]|].
    unfold escrow_allowed. destruct (allow l username now) as [[] l1].
    + unfold count_escrow_attempt, bind, gets, modify, ret.
      destruct (count_attempt _ _ _ _ _ _) as [[] t]; cbn [negb].
      * by destruct (escrow _ _).
      * by intros [= _ <- <-].
    + cbn [negb]. intros [= _ <- <-]. by destruct d as [? ? ? [] ?].
  - destruct (negb _); [by intros [= _ <- <-]|]. intros Hh. apply (Hkeep _ Hh), answered_refused; [|by eauto].
    apply depart_refused.
  - intros Hh. apply (Hkeep _ Hh). cbn [deletion]. apply answered_refused; [|by eauto].
    intros e d1 Hop. by apply delete_cases in Hop as [(? & _ & ?)|(? & _)].
  - intros Hh. apply (Hkeep _ Hh). cbn [deletion]. destruct (_ <? _)%nat; [by intros [= _ <-]|done].
Qed.

(** ** Machines handed out *)

Lemma elem_of_claimed_peers d user now cp :
  cp ∈ claimed_peers_of d user now ->
  exists seen claim, claim ∈ live_claims_of d user /\ listed_peer d now claim = Some (seen, cp).
Proof.
  unfold claimed_peers_of. intros ([seen cp'] & -> & Hin)%list_elem_of_fmap.
  apply elem_of_take in Hin as (i & Hi & _). apply list_elem_of_lookup_2 in Hi.
  rewrite sort_by_perm, list_elem_of_omap in Hi. destruct Hi as (claim & Hc & Hl). eauto.
Qed.

Lemma listed_peer_verifies d user now claim seen cp :
  dir_ok d -> claim ∈ live_claims_of d user -> listed_peer d now claim = Some (seen, cp) ->
  verify_for cp user = Ok tt
  /\ now <= default 0 (last_seen d (pr_device (sp_presence (cp_presence cp)))) + PRESENCE_TTL.
Proof.
  intros Hok Hc Hl. unfold live_claims_of in Hc. destruct (is_suspended d user) eqn:Hs; [by apply not_elem_of_nil in Hc|].
  apply elem_of_live_claims_in in Hc as (dev & Hdev & Ho & Hr); [|apply Hok].
  destruct (ok_genuine d Hok dev claim Hdev) as [Hd Hv].
  unfold listed_peer in Hl. destruct (presence_of d _) as [p|] eqn:Hp; [|done].
  destruct (ok_presences d Hok) as [Hpr _]. destruct (Hpr _ _ Hp) as (Hpd & Hpv & _).
  destruct (PRESENCE_TTL <? _) eqn:Ht; [done|]. injection Hl as <- <-. nbool. unfold sat_sub in Ht.
  assert (Hver : verify_for (mkClaimedPresence p claim) user = Ok tt).
  { unfold verify_for. simpl. rewrite Hpv, Hv. simpl. rewrite Ho, N.eqb_refl, Hpd, N.eqb_refl, Hr. done. }
  split; [done|]. simpl. rewrite Hpd. lia.
Qed.

(** Every machine the coordinator hands out passes the check its reader makes:
    each row of [claimed_peers_of] carries the owner's claim on that device and
    an address the device signed, belongs to the account asked about, is not
    withdrawn, and was heard within [PRESENCE_TTL]; there are at most
    [MAX_PEERS_RETURNED] of them, and none for a suspended account. *)
Theorem listed_peers_pass_the_check (ops : list DirOp) (user : UserId) (now : N) :
  let d := run ops empty_directory in
  (length (claimed_peers_of d user now) <= MAX_PEERS_RETURNED)%nat
  /\ (is_suspended d user = true -> claimed_peers_of d user now = [])
  /\ forall cp, cp ∈ claimed_peers_of d user now ->
       verify_for cp user = Ok tt
       /\ now <= default 0 (last_seen d (pr_device (sp_presence (cp_presence cp)))) + PRESENCE_TTL.
Proof.
  intros d. assert (Hok : dir_ok d) by apply run_ok, empty_ok. clearbody d. split_and!.
  - unfold claimed_peers_of. rewrite length_fmap, length_take. lia.
  - intros Hs. unfold claimed_peers_of, live_claims_of. by rewrite Hs.
  - intros cp Hcp. apply elem_of_claimed_peers in Hcp as (seen & claim & Hc & Hl).
    by eapply listed_peer_verifies.
Qed.

(** ** Expiry *)

Lemma expire_presence_lookup d now older_than dev :
  let d' := (expire_presence now older_than d).2 in
  let gone := exists s, presences (ptb d) !! dev = Some s /\ presence_silent d now older_than dev s = true in
  (gone -> presences (ptb d') !! dev = None)
  /\ (~ gone -> presences (ptb d') !! dev = presences (ptb d) !! dev
               /\ availability (ptb d') !! dev = availability (ptb d) !! dev).
Proof.
  cbn [expire_presence bind gets modify ret snd presences availability ptb on_ptb].
  rewrite !foldl_delete_device. set (silent := (filter _ _).*1).
  assert (Hin : dev ∈ silent <-> exists s, presences (ptb d) !! dev = Some s
    /\ presence_silent d now older_than dev s = true).
  { unfold silent. rewrite list_elem_of_fmap. split.
    - intros ([dev' s] & -> & Hin). apply list_elem_of_filter in Hin as [Hs Hrow].
      apply elem_of_btree_iter in Hrow. eauto.
    - intros (s & Hs & Hsil). exists (dev, s). split; [done|]. apply list_elem_of_filter.
      split; [done|]. by apply elem_of_btree_iter. }
  split.
  - intros Hg. by rewrite decide_True by by apply Hin.
  - intros Hg. by rewrite !decide_False by by rewrite Hin.
Qed.

(** A pass that erases old addresses withdraws none that is still handed out:
    right after it, every account's list of machines is what it was before. *)
Theorem expiry_keeps_what_is_handed_out (d : Directory) (user : UserId) (now : N) :
  let d' := (expire now d).2 in
  claimed_peers_of d' user now = claimed_peers_of d user now
  /\ live_claims_of d' user = live_claims_of d user.
Proof.
  intros d'.
  assert (Hlive : live_claims_of d' user = live_claims_of d user) by done. split; [|done].
  assert (Hfr : ptb d' = ptb (expire_presence now PRESENCE_KEPT_FOR d).2) by done.
  unfold claimed_peers_of. rewrite Hlive. do 3 f_equal. apply list_omap_ext, Forall2_same_length_lookup_2; [done|].
  intros i claim c2 H1 H2. rewrite H1 in H2. injection H2 as <-.
  unfold listed_peer, presence_of, last_seen. rewrite Hfr.
  destruct (expire_presence_lookup d now PRESENCE_KEPT_FOR (cl_device (sc_claim claim))) as [Hg Hk].
  set (dev := cl_device (sc_claim claim)) in *. fold dev in Hg, Hk.
  destruct (presences (ptb d) !! dev) as [s|] eqn:Hs.
  - destruct (presence_silent d now PRESENCE_KEPT_FOR dev s) eqn:Hsil.
    + rewrite Hg by eauto. unfold presence_silent, sat_sub in Hsil. nbool.
      destruct (availability (ptb d) !! dev) as [r|]; simpl; unfold sat_sub;
        (replace (PRESENCE_TTL <? _) with true; [done|]); symmetry; apply N.ltb_lt;
        unfold PRESENCE_TTL, PRESENCE_KEPT_FOR in *; lia.
    + destruct Hk as [-> ->]; [|done]. intros (s' & [= <-] & Hs'). congruence.
  - destruct Hk as [-> _]; [|done]. by intros (s' & ? & _).
Qed.

(** ** Escrow *)

(** Escrow gives back what was put: after a device of the account stores a blob,
    the account's name fetches exactly that blob; after it withdraws, nothing;
    and storing is enough, no second message turns recovery on. *)
Theorem escrow_round_trip (ops : list DirOp) (caller : DeviceId) (blob : option (list N)) (now : N)
  (c : SignedClaim) (a : Account) (d' : Directory) :
  let d := run ops empty_directory in
  claim_for d caller = Some c -> account_of d (cl_owner (sc_claim c)) = Some a ->
  store_escrow caller blob now d = (Done, d') -> escrow d' (ac_username a) = blob.
Proof.
  intros d. assert (Hok : dir_ok d) by apply run_ok, empty_ok. clearbody d. intros Hc Ha.
  unfold store_escrow. rewrite Hc. destruct (cl_revoked _ || _); [done|].
  set (u := cl_owner (sc_claim c)) in *. unfold answered.
  assert (Hspec : accounts (atb d) !! ac_username a = Some a /\ up_id (ac_user a) = u
    /\ by_id (atb d) !! u = Some (ac_username a)) by (apply account_of_spec; [apply Hok|done]).
  destruct Hspec as (Hn & Hu & Hid).
  destruct blob as [blob|]; rewrite bind_state;
    unfold put_escrow, set_escrow_enabled, bind, gets, throw, modify, account_of, account.
  - destruct (_ <? _)%nat; [done|]. cbn [on_etb atb]. rewrite Hid. cbn [mbind option_bind]. rewrite Hn.
    intros [= <-]. unfold escrow, account. simpl. rewrite lookup_insert_eq. simpl. by rewrite Hu, lookup_insert_eq.
  - rewrite Hid. cbn [mbind option_bind]. rewrite Hn. simpl.
    intros [= <-]. unfold escrow, account. simpl. by rewrite lookup_insert_eq.
Qed.

End answers.

(** ** Witnesses *)

Import Town.
#[local] Existing Instance Toy.primitives.

Lemma refusal_changes_nothing_witness :
  let after := handle Open (PutEscrow (Some [1])) 5 200 200 (town, limiter_new) in
  after.2.1 = town /\ after.2.2 = limiter_new.
Proof.
  intros after. destruct after as [r [d' l']] eqn:Ha.
  assert (Hr : r = Refused (Text "this device is not enrolled under any account")).
  { change r with (r, (d', l')).1. rewrite <- Ha. vm_compute. reflexivity. }
  rewrite Hr in Ha. exact (refusal_changes_nothing history Open (PutEscrow (Some [1])) 5 200 200
    limiter_new l' _ d' Ha).
Defined.

Lemma escrow_round_trip_witness :
  let after := store_escrow (device_id laptop) (Some [1; 2; 3]) 200 town in
  escrow after.2 "alice" = Some [1; 2; 3].
Proof.
  intros after. destruct after as [r d'] eqn:Ha.
  assert (Hr : r = Done). { change r with (r, d').1. rewrite <- Ha. vm_compute. reflexivity. }
  rewrite Hr in Ha.
  refine (escrow_round_trip history (device_id laptop) (Some [1; 2; 3]) 200 (enrolment 110 false)
    (mkAccount "alice" (public alice) 100 false) d' _ _ Ha); vm_compute; reflexivity.
Defined.
