(* ===== verification/Wire.v ===== *)
(** * Wire: framing of messages

    Models [crates/itsanas-wire/src/wire.rs] and [stream.rs]: the frame of a
    message, the reader that finds whole frames in what a stream delivers, and
    a connection's [send] and [receive].  The codec of a message's payload is
    third-party (postcard) and is the class [Postcard], with what is relied on in
    [PostcardLaws].  A stream is the list of what its reads return, ending at
    the end of the list or at an empty read; failing reads and writes are not
    represented. *)

From S2P Require Import Prelude.

Class Postcard (T : Type) := {
  to_stdvec : T -> option (list N);
  from_bytes : list N -> option T;
}.

Class PostcardLaws (T : Type) `{!Postcard T} := {
  from_to_bytes (m : T) payload : to_stdvec m = Some payload -> from_bytes payload = Some m;
}.

Inductive WireError :=
| Encoding
| Truncated
| FrameTooLarge (len max : N)
| UnsupportedWireVersion (found supported : N).

Definition WIRE_VERSION : N := 1.
Definition HEADER_LEN : nat := 1 + 4.
Definition MAX_FRAME_LEN : N := 8 * 1024 * 1024.

(** One read asks for at most this much. *)
Definition READ_LEN : N := 16 * 1024.

Definition frame_of (payload : list N) : list N :=
  WIRE_VERSION :: le_bytes 4 (N.of_nat (length payload)) ++ payload.

Definition encode {T} `{!Postcard T} (message : T) : result WireError (list N) :=
  match to_stdvec message with
  | None => Err Encoding
  | Some payload =>
      let len := N.of_nat (length payload) in
      if MAX_FRAME_LEN <? len then Err (FrameTooLarge len MAX_FRAME_LEN)
      else Ok (frame_of payload)
  end.

Definition payload_len (header : list N) : result WireError N :=
  if (length header <? HEADER_LEN)%nat then Err Truncated
  else
    let found := default 0 (head header) in
    if negb (found =? WIRE_VERSION) then Err (UnsupportedWireVersion found WIRE_VERSION)
    else
      let len := of_le_bytes (take 4 (drop 1 header)) in
      if MAX_FRAME_LEN <? len then Err (FrameTooLarge len MAX_FRAME_LEN)
      else Ok len.

Definition decode {T} `{!Postcard T} (frame : list N) : result WireError T :=
  len <-? payload_len frame;
  if (length frame <? HEADER_LEN + N.to_nat len)%nat then Err Truncated
  else match from_bytes (take (N.to_nat len) (drop HEADER_LEN frame)) with
       | Some message => Ok message
       | None => Err Encoding
       end.

(** ** The reader

    Its state is the buffer. *)

Definition push (buffer bytes : list N) : list N := buffer ++ bytes.
Definition buffered (buffer : list N) : nat := length buffer.
Definition take_buffered (buffer : list N) : list N * list N := (buffer, []).

Definition next_frame (buffer : list N) : result WireError (option (list N)) * list N :=
  if (length buffer <? HEADER_LEN)%nat then (Ok None, buffer)
  else match payload_len buffer with
       | Err e => (Err e, buffer)
       | Ok len =>
           let total := (HEADER_LEN + N.to_nat len)%nat in
           if (length buffer <? total)%nat then (Ok None, buffer)
           else (Ok (Some (take (N.to_nat len) (drop HEADER_LEN buffer))), drop total buffer)
       end.

Definition next_message {T} `{!Postcard T} (buffer : list N) : result WireError (option T) * list N :=
  match next_frame buffer with
  | (Ok (Some payload), buffer) =>
      match from_bytes payload with
      | Some message => (Ok (Some message), buffer)
      | None => (Err Encoding, buffer)
      end
  | (Ok None, buffer) => (Ok None, buffer)
  | (Err e, buffer) => (Err e, buffer)
  end.

(** ** A connection *)

Inductive StreamError :=
| WireFailed (e : WireError)
| TruncatedClose.

Section connection.
Context {T : Type} `{!Postcard T}.

(** What [send] hands to the stream. *)
Definition send (message : T) : result StreamError (list N) :=
  match encode message with Ok frame => Ok frame | Err e => Err (WireFailed e) end.

(** Read until one whole message has arrived; the buffer and the reads left are
    returned with it. *)
Fixpoint receive (reads : list (list N)) (buffer : list N)
  : result StreamError (option T) * (list N * list (list N)) :=
  match next_message buffer with
  | (Ok (Some message), buffer) => (Ok (Some message), (buffer, reads))
  | (Err e, buffer) => (Err (WireFailed e), (buffer, reads))
  | (Ok None, buffer) =>
      match reads with
      | [] => (if (buffered buffer =? 0)%nat then Ok None else Err TruncatedClose, (buffer, []))
      | [] :: rest => (if (buffered buffer =? 0)%nat then Ok None else Err TruncatedClose, (buffer, rest))
      | read :: rest => receive rest (push buffer read)
      end
  end.

(** The answer to a request that was sent. *)
Definition exchange (reads : list (list N)) (buffer : list N) : result StreamError T :=
  match (receive reads buffer).1 with
  | Ok (Some message) => Ok message
  | Ok None => Err TruncatedClose
  | Err e => Err e
  end.

Definition into_parts (buffer : list N) : list N := (take_buffered buffer).1.

(** Everything a stream delivers: messages until it closes or fails. *)
Fixpoint receive_all (fuel : nat) (reads : list (list N)) (buffer : list N) : list T * option StreamError :=
  match fuel with
  | O => ([], None)
  | S fuel =>
      match receive reads buffer with
      | (Ok (Some message), (buffer, reads)) =>
          let '(messages, e) := receive_all fuel reads buffer in (message :: messages, e)
      | (Ok None, _) => ([], None)
      | (Err e, _) => ([], Some e)
      end
  end.

End connection.

(** ** Lemmas *)

Lemma length_frame_of payload : length (frame_of payload) = (HEADER_LEN + length payload)%nat.
Proof. unfold frame_of. cbn [length]. by rewrite length_app, length_le_bytes. Qed.

(** The header of a frame is read from any stretch of it that holds it. *)
Lemma payload_len_prefix payload b x :
  N.of_nat (length payload) <= MAX_FRAME_LEN -> frame_of payload ++ x = b ->
  (forall b', (HEADER_LEN <= length b')%nat -> b' `prefix_of` b ->
    payload_len b' = Ok (N.of_nat (length payload))).
Proof.
  intros Hmax <- b' Hl [y Hy]. unfold payload_len.
  replace (length b' <? HEADER_LEN)%nat with false by (symmetry; by apply Nat.ltb_ge).
  assert (Htake : take HEADER_LEN b' = WIRE_VERSION :: le_bytes 4 (N.of_nat (length payload))).
  { apply (f_equal (take HEADER_LEN)) in Hy. rewrite (take_app_le b' y) in Hy by done. rewrite <- Hy.
    done. }
  destruct b' as [|v b']; [unfold HEADER_LEN in Hl; simpl in Hl; lia|].
  change (take HEADER_LEN (v :: b')) with (v :: take 4 b') in Htake.
  assert (Hv : v = WIRE_VERSION) by congruence. subst v.
  assert (Ht : take 4 b' = le_bytes 4 (N.of_nat (length payload))) by congruence.
  change (default 0 (head (WIRE_VERSION :: b'))) with WIRE_VERSION. rewrite N.eqb_refl. cbn [negb].
  change (drop 1 (WIRE_VERSION :: b')) with (drop 0 b').
  rewrite drop_0, Ht, of_le_bytes_le_bytes, N.mod_small.
  - replace (MAX_FRAME_LEN <? _) with false by (symmetry; by apply N.ltb_ge). done.
  - change (256 ^ N.of_nat 4) with (2 ^ 32). unfold MAX_FRAME_LEN in Hmax. lia.
Qed.

Lemma next_frame_whole payload rest :
  N.of_nat (length payload) <= MAX_FRAME_LEN ->
  next_frame (frame_of payload ++ rest) = (Ok (Some payload), rest).
Proof.
  intros Hmax. unfold next_frame.
  assert (Hlen : length (frame_of payload ++ rest) = (HEADER_LEN + length payload + length rest)%nat)
    by (rewrite length_app, length_frame_of; lia).
  replace (_ <? HEADER_LEN)%nat with false by (symmetry; apply Nat.ltb_ge; lia).
  rewrite (payload_len_prefix payload _ rest Hmax eq_refl) by (done || lia). rewrite Nat2N.id.
  replace (_ <? _)%nat with false by (symmetry; apply Nat.ltb_ge; lia). f_equal.
  - do 2 f_equal. change (drop HEADER_LEN (frame_of payload ++ rest)) with (drop 0 (payload ++ rest)).
    by rewrite drop_0, take_app_length.
  - rewrite drop_app_length'; [done|]. by rewrite length_frame_of.
Qed.

Lemma next_frame_partial payload b y :
  N.of_nat (length payload) <= MAX_FRAME_LEN -> y <> [] -> b ++ y = frame_of payload ->
  next_frame b = (Ok None, b).
Proof.
  intros Hmax Hy Hb. unfold next_frame. destruct (length b <? HEADER_LEN)%nat eqn:Hl; [done|].
  apply Nat.ltb_ge in Hl.
  rewrite (payload_len_prefix payload (frame_of payload) []); [|done|by rewrite app_nil_r|done|by exists y].
  rewrite Nat2N.id. replace (_ <? _)%nat with true; [done|]. symmetry. apply Nat.ltb_lt.
  apply (f_equal length) in Hb. rewrite length_app, length_frame_of in Hb.
  destruct y; [done|]. cbn [length] in Hb. lia.
Qed.

(** What has arrived holds the frame, or is a strict part of it. *)
Lemma split_frame {A} (b c frame rest : list A) :
  b ++ c = frame ++ rest ->
  (exists b', b = frame ++ b' /\ b' ++ c = rest) \/ (exists y, y <> [] /\ b ++ y = frame).
Proof.
  revert frame. induction b as [|x b IH]; intros [|f frame] Heq; simpl in *; [left; by exists []| | |].
  - right. by exists (f :: frame).
  - left. by exists (x :: b).
  - injection Heq as -> Heq. destruct (IH _ Heq) as [(b' & -> & Hb')|(y & Hy & <-)]; [left|right]; eauto.
Qed.

Section framing.
Context {T : Type} `{!Postcard T, !PostcardLaws T}.

Lemma encode_frame (m : T) frame :
  encode m = Ok frame ->
  exists payload, to_stdvec m = Some payload /\ frame = frame_of payload
    /\ N.of_nat (length payload) <= MAX_FRAME_LEN.
Proof.
  unfold encode. destruct (to_stdvec m) as [payload|]; [|done].
  destruct (_ <? _) eqn:Hl; [done|]. intros [= <-]. nbool. eauto.
Qed.

(** However a frame is cut into reads, [receive] returns its message and leaves
    exactly the bytes that follow it. *)
Lemma receive_whole (m : T) frame reads b rest :
  encode m = Ok frame -> Forall (fun r => r <> []) reads -> b ++ concat reads = frame ++ rest ->
  exists b' reads', receive reads b = (Ok (Some m), (b', reads'))
    /\ Forall (fun r => r <> []) reads' /\ b' ++ concat reads' = rest.
Proof.
  intros Henc Hne. apply encode_frame in Henc as (payload & Hto & -> & Hmax).
  revert b. induction Hne as [|r reads Hr Hne IH]; intros b Hb; cbn [receive]; unfold next_message;
    (destruct (split_frame b _ _ _ Hb) as [(b' & -> & Hb')|(y & Hy & Hby)];
      [rewrite next_frame_whole, (from_to_bytes m payload Hto) by done; by eauto 10|]);
    rewrite (next_frame_partial payload b y) by done.
  - exfalso. apply (f_equal length) in Hb, Hby. rewrite length_app, (length_app (frame_of payload)) in Hb.
    rewrite length_app in Hby. cbn [concat length] in Hb.
    destruct y; [done|]. cbn [length] in Hby. lia.
  - destruct r as [|x r]; [done|]. apply IH. unfold push. cbn [concat] in Hb. by rewrite <- app_assoc.
Qed.

(** A stream that ends inside a frame yields no message: it is a clean close at
    the very start of the frame, and an error anywhere else. *)
Lemma receive_cut (m : T) frame reads b y :
  encode m = Ok frame -> Forall (fun r => r <> []) reads -> y <> [] -> (b ++ concat reads) ++ y = frame ->
  exists s, receive reads b
    = ((if bool_decide (b ++ concat reads = []) then Ok None else Err TruncatedClose : result StreamError (option T)), s).
Proof.
  intros Henc Hne Hy. apply encode_frame in Henc as (payload & Hto & -> & Hmax).
  revert b. induction Hne as [|r reads Hr Hne IH]; intros b Hb; cbn [receive]; unfold next_message.
  - simpl in Hb. rewrite app_nil_r in Hb. rewrite (next_frame_partial payload b y) by done.
    unfold buffered. simpl. rewrite app_nil_r. destruct b; [eauto|]. eexists. done.
  - rewrite (next_frame_partial payload b (concat (r :: reads) ++ y)).
    + destruct r as [|x r]; [done|]. destruct (IH (push b (x :: r))) as (s & Hs).
      { unfold push. cbn [concat] in Hb. by rewrite <- (app_assoc b). }
      exists s. rewrite Hs. unfold push. cbn [concat]. by rewrite <- (app_assoc b).
    + done.
    + destruct r; done.
    + by rewrite app_assoc.
Qed.

End framing.

(** ** The properties *)

(** A message decodes from its own frame, whatever follows it. *)
Theorem decode_encode {T} `{!Postcard T, !PostcardLaws T} (m : T) (frame rest : list N) :
  encode m = Ok frame -> decode (frame ++ rest) = Ok m.
Proof.
  intros Henc. apply encode_frame in Henc as (payload & Hto & -> & Hmax). unfold decode.
  assert (Hlen : length (frame_of payload ++ rest) = (HEADER_LEN + length payload + length rest)%nat)
    by (rewrite length_app, length_frame_of; lia).
  rewrite (payload_len_prefix payload _ rest Hmax eq_refl) by (done || lia). cbn [rbind]. rewrite Nat2N.id.
  replace (_ <? _)%nat with false by (symmetry; apply Nat.ltb_ge; lia).
  change (drop HEADER_LEN (frame_of payload ++ rest)) with (drop 0 (payload ++ rest)).
  by rewrite drop_0, take_app_length, (from_to_bytes m payload Hto).
Qed.

(** C31. What a reader gets does not depend on how the stream cuts the bytes: of any
    messages that were framed, cut into any non-empty reads and ended after any
    number of bytes, exactly the messages that arrived whole are delivered, in
    order, followed by a clean close when the stream ended between two frames
    and by [TruncatedClose] when it ended inside one.  No partial message is ever
    taken for a whole one. *)
Theorem delivery_ignores_fragmentation {T} `{!Postcard T, !PostcardLaws T}
  (whole : list (T * list N)) (cut : T * list N) (sent : list N) (reads : list (list N)) (fuel : nat) :
  Forall (fun mf => encode mf.1 = Ok mf.2) (whole ++ [cut]) ->
  sent `prefix_of` cut.2 -> sent <> cut.2 ->
  Forall (fun r => r <> []) reads -> concat reads = concat whole.*2 ++ sent ->
  (length whole < fuel)%nat ->
  receive_all fuel reads [] = (whole.*1, if bool_decide (sent = []) then None else Some TruncatedClose).
Proof.
  intros Henc [y Hy] Hcut Hne Hcat Hfuel.
  assert (Hgen : forall b reads fuel, Forall (fun r => r <> []) reads -> b ++ concat reads = concat whole.*2 ++ sent ->
    (length whole < fuel)%nat ->
    receive_all fuel reads b = (whole.*1, if bool_decide (sent = []) then None else Some TruncatedClose)).
  { clear reads fuel Hne Hcat Hfuel. induction whole as [|[m frame] whole IH]; intros b reads fuel Hne Hcat Hfuel;
      (destruct fuel as [|fuel]; [simpl in Hfuel; lia|]).
    - apply Forall_cons in Henc as [Henc _]. simpl in Hcat.
      destruct (receive_cut cut.1 cut.2 reads b y) as [s Hs]; [done|done| |by rewrite Hcat|].
      { intros ->. apply Hcut. by rewrite Hy, app_nil_r. }
      cbn [receive_all]. rewrite Hs, Hcat. by destruct (bool_decide (sent = [])).
    - apply Forall_cons in Henc as [Hm Henc]. csimpl in Hcat. rewrite <- app_assoc in Hcat.
      destruct (receive_whole m frame reads b (concat whole.*2 ++ sent) Hm Hne Hcat) as (b' & reads' & Hr & Hne' & Hcat').
      cbn [receive_all]. rewrite Hr, (IH Henc b' reads' fuel) by (done || (simpl in Hfuel; lia)). done. }
  by apply Hgen.
Qed.

(** The buffer of a connection is bounded: after a read it holds less than one
    maximum frame and one read together, whatever the peer sends, because a
    length past the ceiling is refused as soon as the header is there. *)
Theorem waiting_buffer_is_bounded (buffer read : list N) :
  next_frame buffer = (Ok None, buffer) -> N.of_nat (length read) <= READ_LEN ->
  N.of_nat (length buffer) < N.of_nat HEADER_LEN + MAX_FRAME_LEN
  /\ N.of_nat (buffered (push buffer read)) < N.of_nat HEADER_LEN + MAX_FRAME_LEN + READ_LEN.
Proof.
  intros Hn Hr.
  assert (Hb : N.of_nat (length buffer) < N.of_nat HEADER_LEN + MAX_FRAME_LEN).
  { unfold next_frame in Hn. destruct (length buffer <? HEADER_LEN)%nat eqn:Hl.
    - apply Nat.ltb_lt in Hl. unfold MAX_FRAME_LEN. lia.
    - destruct (payload_len buffer) as [len|e] eqn:Hp; [|done].
      cbv zeta in Hn. destruct (length buffer <? HEADER_LEN + N.to_nat len)%nat eqn:Ht; [|discriminate].
      apply Nat.ltb_lt in Ht. assert (len <= MAX_FRAME_LEN); [|lia]. unfold payload_len in Hp. rewrite Hl in Hp.
      destruct (negb _); [done|]. destruct (MAX_FRAME_LEN <? _) eqn:Hm; [done|]. nbool. by injection Hp as <-. }
  split; [done|]. unfold buffered, push. rewrite length_app. lia.
Qed.

(** ** Witnesses *)

Module Bytes.

(** Messages that are their own payload. *)
#[export] Instance bytes_codec : Postcard (list N) := {| to_stdvec := Some; from_bytes := Some |}.
#[export] Instance bytes_laws : PostcardLaws (list N).
Proof. split. by intros m p [= ->]. Qed.

End Bytes.
Import Bytes.

Lemma decode_encode_witness : decode (frame_of [7; 8] ++ [9]) = Ok [7; 8].
Proof. by apply decode_encode. Defined.

Lemma delivery_ignores_fragmentation_witness :
  receive_all 5 [[1; 2; 0]; [0; 0; 7; 8; 1; 1; 0]; [0; 0; 5; 1]; [3]] []
  = ([[7; 8]; [5]], Some TruncatedClose).
Proof.
  refine (delivery_ignores_fragmentation [([7; 8], frame_of [7; 8]); ([5], frame_of [5])]
    ([4; 4; 4], frame_of [4; 4; 4]) [1; 3] _ 5 _ _ _ _ _ _).
  - by repeat constructor.
  - by exists [0; 0; 0; 4; 4; 4].
  - done.
  - by repeat constructor.
  - done.
  - simpl. lia.
Defined.

Lemma waiting_buffer_is_bounded_witness : N.of_nat (buffered (push [1; 3] [0])) < N.of_nat HEADER_LEN + MAX_FRAME_LEN + READ_LEN.
Proof. by apply waiting_buffer_is_bounded. Defined.

(** One maximum frame is not the bound: a reader waiting for the last byte of a
    frame takes whatever the next read brings. *)
Example buffer_can_pass_one_frame :
  exists buffer read, next_frame buffer = (Ok None, buffer) /\ N.of_nat (length read) <= READ_LEN
    /\ N.of_nat HEADER_LEN + MAX_FRAME_LEN < N.of_nat (buffered (push buffer read)).
Proof.
  exists (take (N.to_nat (4 + MAX_FRAME_LEN)) (frame_of (replicate (N.to_nat MAX_FRAME_LEN) 0))),
    (replicate (N.to_nat READ_LEN) 0).
  assert (Hl : length (frame_of (replicate (N.to_nat MAX_FRAME_LEN) 0)) = (HEADER_LEN + N.to_nat MAX_FRAME_LEN)%nat)
    by (rewrite length_frame_of, length_replicate; done).
  split_and!.
  - eapply (next_frame_partial (replicate (N.to_nat MAX_FRAME_LEN) 0)
      _ (drop (N.to_nat (4 + MAX_FRAME_LEN)) (frame_of (replicate (N.to_nat MAX_FRAME_LEN) 0)))).
    + rewrite length_replicate. lia.
    + intros Hd. apply (f_equal length) in Hd. rewrite length_drop, Hl in Hd. cbn [length] in Hd.
      unfold HEADER_LEN in Hd. lia.
    + apply take_drop.
  - rewrite length_replicate. lia.
  - unfold buffered, push. rewrite length_app, length_take, length_replicate, Hl. unfold HEADER_LEN, READ_LEN. lia.
Qed.
