(* ===== verification/Pack.v ===== *)
(** * Pack: sealed chunks appended into large files

    Models [crates/itsanas-store/src/pack.rs], the layout behind [Blob] that
    appends records to pack files and finds them through an index.  A file is
    its bytes; the index is kept twice, as this process sees it and as the last
    durable commit left it, because rows are committed without waiting for the
    disk and rebuilt from the records when the packs are opened.  Only a failed
    or interrupted write shows between the two: failing reads other than a
    missing or short file are not represented, and the writer's lock makes each
    operation one step. *)

From S2P Require Import Prelude Version Ids Blob.

Definition MAX_RECORD : N := 8 * 2 ^ 20.
Definition PACK_TARGET : N := 256 * 2 ^ 20.
Definition DURABLE_EVERY_PUTS : N := 256.
Definition DURABLE_EVERY_BYTES : N := 64 * 2 ^ 20.
Definition RECORD_HEADER : nat := 32 + 4.

(** Where one chunk's bytes are. *)
Record Place := mkPlace { pl_pack : N; pl_offset : N; pl_len : N }.

#[export] Instance Place_eq_dec : EqDecision Place.
Proof. solve_decision. Defined.

Definition place_encode (p : Place) : list N :=
  le_bytes 4 (pl_pack p) ++ le_bytes 8 (pl_offset p) ++ le_bytes 4 (pl_len p).

Definition place_decode (bytes : list N) : result StoreError Place :=
  if (length bytes <? 16)%nat then Err (Corrupt "a pack index row is too short")
  else Ok (mkPlace (of_le_bytes (take 4 bytes)) (of_le_bytes (take 8 (drop 4 bytes)))
             (of_le_bytes (take 4 (drop 12 bytes)))).

(** [CHUNKS], [BY_PACK], [LIVE] and the mark in [META]. *)
Record PackIndex := mkPackIndex {
  rows : gmap ChunkId Place;
  by_pack : gset (N * ChunkId);
  live : gmap N N;
  mark : option (N * N);
}.

Record Packs := mkPacks {
  pk_files : gmap N (list N);
  pk_index : PackIndex;
  pk_durable : PackIndex;
  pk_current : N * N;
  pk_pending : N * N;
}.

Definition pack_bytes (files : gmap N (list N)) (pack : N) : list N := default [] (files !! pack).

Definition record (address : ChunkId) (sealed : list N) : list N :=
  as_bytes address ++ le_bytes 4 (N.of_nat (length sealed)) ++ sealed.

Definition index_record (ix : PackIndex) (address : ChunkId) (p : Place) : PackIndex :=
  mkPackIndex (<[address := p]> (rows ix)) ({[(pl_pack p, address)]} ∪ by_pack ix)
    (<[pl_pack p := default 0 (live ix !! pl_pack p) + pl_len p]> (live ix)) (mark ix).

Definition write_mark (ix : PackIndex) (pack offset : N) : PackIndex :=
  mkPackIndex (rows ix) (by_pack ix) (live ix) (Some (pack, offset)).

(** A transaction that waits for the disk, or does not. *)
Definition commit (waits : bool) (ix : PackIndex) (p : Packs) : Packs :=
  mkPacks (pk_files p) ix (if waits then ix else pk_durable p) (pk_current p) (pk_pending p).

(** ** Opening *)

Definition pack_numbers (files : gmap N (list N)) : list N := btree_keys files.

(** The records of one pack from [offset] on, [rest] being the bytes there: give
    a row to each whole one that has none. *)
Fixpoint replay_go (fuel : nat) (pack : N) (rest : list N) (offset : N) (ix : PackIndex) : PackIndex :=
  match fuel with
  | O => ix
  | S fuel =>
      if (length rest <? RECORD_HEADER)%nat then ix
      else
        let len := of_le_bytes (take 4 (drop 32 rest)) in
        if (MAX_RECORD <? len) || (length rest <? RECORD_HEADER + N.to_nat len)%nat then ix
        else
          let address := of_be_bytes (take 32 rest) in
          let at_ := offset + N.of_nat RECORD_HEADER in
          let ix := match rows ix !! address with
                    | None => index_record ix address (mkPlace pack at_ len)
                    | Some _ => ix
                    end in
          replay_go fuel pack (drop (RECORD_HEADER + N.to_nat len) rest) (at_ + len) ix
  end.

Definition replay_pack (files : gmap N (list N)) (mark : N * N) (ix : PackIndex) (pack : N) : PackIndex :=
  let offset := if pack =? mark.1 then mark.2 else 0 in
  let rest := drop (N.to_nat offset) (pack_bytes files pack) in
  replay_go (length rest) pack rest offset ix.

(** Rebuild the rows after the durable mark, then mark the end. *)
Definition replay (files : gmap N (list N)) (ix : PackIndex) : PackIndex :=
  let m := default (1, 0) (mark ix) in
  let packs := filter (fun pack => m.1 <= pack) (pack_numbers files) in
  let ix := foldl (replay_pack files m) ix packs in
  let end_ := match last packs with
              | Some pack => (pack, N.of_nat (length (pack_bytes files pack)))
              | None => m
              end in
  write_mark ix end_.1 end_.2.

Definition empty_pack_index : PackIndex := mkPackIndex ∅ ∅ ∅ None.

Definition open (files : gmap N (list N)) (on_disk : PackIndex) : Packs :=
  let last_ := default 1 (last (pack_numbers files)) in
  let ix := replay files on_disk in
  mkPacks files ix ix (last_, N.of_nat (length (pack_bytes files last_))) (0, 0).

(** ** Reading *)

(** A damaged row reads as no record at all. *)
Definition place (p : Packs) (address : ChunkId) : option Place :=
  match rows (pk_index p) !! address with
  | Some pl => if (pl_len pl <=? MAX_RECORD) && (N.of_nat RECORD_HEADER <=? pl_offset pl) then Some pl else None
  | None => None
  end.

Definition remove (address : ChunkId) (p : Packs) : bool * Packs :=
  let ix := write_mark (pk_index p) (pk_current p).1 (pk_current p).2 in
  let '(removed, ix) :=
    match rows ix !! address with
    | Some pl => (true, mkPackIndex (delete address (rows ix)) (by_pack ix ∖ {[(pl_pack pl, address)]})
                          (<[pl_pack pl := sat_sub (default 0 (live ix !! pl_pack pl)) (pl_len pl)]> (live ix))
                          (mark ix))
    | None => (false, ix)
    end in
  (removed, commit true ix (mkPacks (pk_files p) (pk_index p) (pk_durable p) (pk_current p) (0, 0))).

(** What [read_exact] finds from the record's header on: its header and bytes,
    or nothing when the file is gone or too short. *)
Definition read_record (p : Packs) (pl : Place) (len : nat) : option (list N * list N) :=
  let from := drop (N.to_nat (pl_offset pl) - RECORD_HEADER) (pack_bytes (pk_files p) (pl_pack pl)) in
  if bool_decide (is_Some (pk_files p !! pl_pack pl)) && (RECORD_HEADER + len <=? length from)%nat
  then Some (take RECORD_HEADER from, take len (drop RECORD_HEADER from)) else None.

(** Whether a header names the address and length its row does. *)
Definition header_matches (header : list N) (address : ChunkId) (len : N) : bool :=
  bool_decide (take 32 header = as_bytes address) && bool_decide (drop 32 header = le_bytes 4 len).

Definition contains (address : ChunkId) (p : Packs) : bool * Packs :=
  match place p address with
  | None => (false, p)
  | Some pl =>
      match read_record p pl 0 with
      | Some (header, _) =>
          if header_matches header address (pl_len pl) then (true, p) else (false, (remove address p).2)
      | None => (false, (remove address p).2)
      end
  end.

Definition get (address : ChunkId) (p : Packs) : option (list N) * Packs :=
  match place p address with
  | None => (None, p)
  | Some pl =>
      match read_record p pl (N.to_nat (pl_len pl)) with
      | Some (header, bytes) =>
          if header_matches header address (pl_len pl) then (Some bytes, p) else (None, (remove address p).2)
      | None => (None, (remove address p).2)
      end
  end.

Definition size_of (address : ChunkId) (p : Packs) : option N := pl_len <$> place p address.
Definition addresses (p : Packs) : list ChunkId := btree_keys (rows (pk_index p)).
Definition count (p : Packs) : nat := size (rows (pk_index p)).
Definition total_bytes (p : Packs) : N :=
  foldl (fun total row => sat_add total row.2) 0 (btree_iter (live (pk_index p))).

(** ** Writing *)

(** Start a new pack past the target size. *)
Definition roll (p : Packs) : Packs :=
  if PACK_TARGET <=? (pk_current p).2
  then mkPacks (pk_files p) (pk_index p) (pk_durable p) ((pk_current p).1 + 1, 0) (pk_pending p) else p.

(** Append [bytes] at the end of the current file; [current] is not moved. *)
Definition append (bytes : list N) (p : Packs) : Packs :=
  let pack := (pk_current p).1 in
  mkPacks (<[pack := pack_bytes (pk_files p) pack ++ bytes]> (pk_files p)) (pk_index p) (pk_durable p)
    (pk_current p) (pk_pending p).

(** Where an append lands: where the file ends, if that is past what was
    written. *)
Definition append_at (p : Packs) : N :=
  N.max (N.of_nat (length (pack_bytes (pk_files p) (pk_current p).1))) (pk_current p).2.

Definition is_torn (p : Packs) : bool :=
  (pk_current p).2 <? N.of_nat (length (pack_bytes (pk_files p) (pk_current p).1)).

Definition with_current (p : Packs) (offset : N) : Packs :=
  mkPacks (pk_files p) (pk_index p) (pk_durable p) ((pk_current p).1, offset) (pk_pending p).

Definition with_pending (p : Packs) (pending : N * N) : Packs :=
  mkPacks (pk_files p) (pk_index p) (pk_durable p) (pk_current p) pending.

(** Append [sealed] under [address].  [failed] is how many bytes of the record
    got out when the write or the wait for the disk fails. *)
Definition put (address : ChunkId) (sealed : list N) (failed : option nat) (p : Packs)
  : result StoreError bool * Packs :=
  let len := N.of_nat (length sealed) in
  if MAX_RECORD <? len then (Err (Corrupt "a chunk too large for a pack record"), p)
  else match place p address with
  | Some _ => (Ok false, p)
  | None =>
      let p := roll p in
      let torn := is_torn p in
      let start := append_at p in
      let r := record address sealed in
      match failed with
      | Some written => (Err (Io "pack"), append (take written r) p)
      | None =>
        let p := with_current (append r p) (start + N.of_nat (length r)) in
        let pending := ((pk_pending p).1 + 1, (pk_pending p).2 + len) in
        let durable := torn || (DURABLE_EVERY_PUTS <=? pending.1) || (DURABLE_EVERY_BYTES <=? pending.2) in
        let p := with_pending p (if durable then (0, 0) else pending) in
        let ix := index_record (pk_index p) address (mkPlace (pk_current p).1 (start + N.of_nat RECORD_HEADER) len) in
        let ix := if durable then write_mark ix (pk_current p).1 (pk_current p).2 else ix in
        (Ok true, commit durable ix p)
      end
  end.

(** Make every row durable now, and move the mark to the end. *)
Definition flush (p : Packs) : Packs :=
  with_pending (commit true (write_mark (pk_index p) (pk_current p).1 (pk_current p).2) p) (0, 0).

(** ** Compaction *)

(** The chunks a pack holds, in address order. *)
Definition members (p : Packs) (pack : N) : list ChunkId :=
  merge_sort N.le (snd <$> elements (filter (fun m => m.1 = pack) (by_pack (pk_index p)))).

(** Append a copy of a record and point its row at the copy, durably. *)
Definition relocate (address : ChunkId) (from : N) (sealed : list N) (p : Packs) : Packs :=
  let len := N.of_nat (length sealed) in
  let p := roll p in
  let start := append_at p in
  let r := record address sealed in
  let p := with_current (append r p) (start + N.of_nat (length r)) in
  let ix := pk_index p in
  let ix := mkPackIndex (rows ix) (by_pack ix ∖ {[(from, address)]})
              (<[from := sat_sub (default 0 (live ix !! from)) len]> (live ix)) (mark ix) in
  let ix := index_record ix address (mkPlace (pk_current p).1 (start + N.of_nat RECORD_HEADER) len) in
  with_pending (commit true (write_mark ix (pk_current p).1 (pk_current p).2) p) (0, 0).

(** Move what still reads. *)
Definition compact_member (pack : N) (p : Packs) (address : ChunkId) : Packs :=
  match get address p with
  | (Some bytes, p) => relocate address pack bytes p
  | (None, p) => p
  end.

Definition compact_pack (limit : N) (acc : N * Packs) (pack : N) : N * Packs :=
  let '(freed, p) := acc in
  if limit <=? pack then (freed, p)
  else
    let size_ := N.of_nat (length (pack_bytes (pk_files p) pack)) in
    if size_ <=? sat_mul (default 0 (live (pk_index p) !! pack)) 2 then (freed, p)
    else
      let p := foldl (compact_member pack) p (members p pack) in
      match members p pack with
      | [] =>
          let ix := pk_index p in
          (sat_add freed size_,
           commit true (mkPackIndex (rows ix) (by_pack ix) (delete pack (live ix)) (mark ix))
             (mkPacks (delete pack (pk_files p)) (pk_index p) (pk_durable p) (pk_current p) (pk_pending p)))
      | _ => (freed, p)
      end.

Definition compact (p : Packs) : N * Packs :=
  foldl (compact_pack (pk_current p).1) (0, p) (pack_numbers (pk_files p)).
