(* ===== verification/PackOk.v ===== *)
(** * PackOk: packs hold what was put, through crashes

    The invariant that ties the pack files, the rows this process sees and the
    rows a crash leaves to the map from address to bytes of [Blob], its
    preservation by every operation of [Pack], and the refinement: over any run
    of puts, removals, flushes, compactions, failed writes and crashes, the
    packs answer as that map does. *)

From S2P Require Import Prelude Version Ids Blob Pack.

(** A row reads back as it was written. *)
Lemma place_round_trip (p : Place) :
  pl_pack p < 2 ^ 32 -> pl_offset p < 2 ^ 64 -> pl_len p < 2 ^ 32 -> place_decode (place_encode p) = Ok p.
Proof.
  intros H1 H2 H3. unfold place_decode, place_encode. rewrite !length_app, !length_le_bytes.
  rewrite take_app_length' by by rewrite length_le_bytes.
  rewrite (app_assoc (le_bytes 4 (pl_pack p))) at 2.
  rewrite drop_app_length' by by rewrite length_le_bytes.
  rewrite take_app_length' by by rewrite length_le_bytes.
  rewrite drop_app_length' by by rewrite length_app, !length_le_bytes.
  rewrite take_ge by by rewrite length_le_bytes.
  rewrite !of_le_bytes_le_bytes, !N.mod_small by done. by destruct p.
Qed.

(** ** Records and their replay *)

Definition rec_ok (r : ChunkId * list N) : Prop := is_id r.1 /\ N.of_nat (length r.2) <= MAX_RECORD.

Definition records (l : list (ChunkId * list N)) : list N := concat ((fun r => record r.1 r.2) <$> l).

Lemma records_cons r l : records (r :: l) = record r.1 r.2 ++ records l.
Proof. reflexivity. Qed.

Lemma records_snoc l r : records (l ++ [r]) = records l ++ record r.1 r.2.
Proof. unfold records. rewrite fmap_app, concat_app. simpl. by rewrite app_nil_r. Qed.

(** What a write that failed half way leaves: nothing, or a strict part of a
    record. *)
Definition torn_part (t : list N) : Prop :=
  t = [] \/ exists r y, rec_ok r /\ y <> [] /\ t ++ y = record r.1 r.2.

Lemma length_record a s : length (record a s) = (RECORD_HEADER + length s)%nat.
Proof. unfold record, RECORD_HEADER. rewrite !length_app, length_as_bytes, length_le_bytes. lia. Qed.

Lemma record_address a s x : is_id a -> of_be_bytes (take 32 (record a s ++ x)) = a.
Proof.
  intros Ha. unfold record. rewrite <- app_assoc, take_app_length' by by rewrite length_as_bytes.
  by apply of_be_bytes_as_bytes.
Qed.

Lemma record_len a s x :
  N.of_nat (length s) <= MAX_RECORD ->
  of_le_bytes (take 4 (drop 32 (record a s ++ x))) = N.of_nat (length s).
Proof.
  intros Hs. unfold record. rewrite <- app_assoc, drop_app_length' by by rewrite length_as_bytes.
  rewrite <- app_assoc, take_app_length' by by rewrite length_le_bytes.
  rewrite of_le_bytes_le_bytes. apply N.mod_small. change (256 ^ N.of_nat 4) with (2 ^ 32).
  unfold MAX_RECORD in Hs. lia.
Qed.

(** One turn of the loop. *)
Lemma replay_go_S fuel pack rest offset ix :
  replay_go (S fuel) pack rest offset ix =
  if (length rest <? RECORD_HEADER)%nat then ix
  else
    let len := of_le_bytes (take 4 (drop 32 rest)) in
    if (MAX_RECORD <? len) || (length rest <? RECORD_HEADER + N.to_nat len)%nat then ix
    else
      let address := of_be_bytes (take 32 rest) in
      let at_ := offset + N.of_nat RECORD_HEADER in
      replay_go fuel pack (drop (RECORD_HEADER + N.to_nat len) rest) (at_ + len)
        (match rows ix !! address with
         | None => index_record ix address (mkPlace pack at_ len)
         | Some _ => ix
         end).
Proof. reflexivity. Qed.

(** The replay of one pack, with fuel for all of it. *)
Definition replay_all (pack : N) (rest : list N) (offset : N) (ix : PackIndex) : PackIndex :=
  replay_go (length rest) pack rest offset ix.

Lemma replay_go_fuel pack f1 : forall f2 rest offset ix,
  (length rest <= f1)%nat -> (length rest <= f2)%nat ->
  replay_go f1 pack rest offset ix = replay_go f2 pack rest offset ix.
Proof.
  assert (Hz : forall f rest offset ix, length rest = 0%nat -> replay_go f pack rest offset ix = ix).
  { intros [|f] rest offset ix Hr; [done|]. cbn [replay_go]. by rewrite Hr. }
  induction f1 as [|f1 IH]; intros f2 rest offset ix H1 H2; [rewrite !Hz by lia; done|].
  destruct f2 as [|f2]; [rewrite !Hz by lia; done|]. cbn [replay_go].
  destruct (length rest <? RECORD_HEADER)%nat eqn:Hl; [done|]. apply Nat.ltb_ge in Hl.
  destruct (_ || _); [done|]. unfold RECORD_HEADER in *.
  apply IH; rewrite length_drop; lia.
Qed.

(** Give a record a row, unless it has one. *)
Definition add_record (pack : N) (acc : N * PackIndex) (r : ChunkId * list N) : N * PackIndex :=
  (acc.1 + N.of_nat RECORD_HEADER + N.of_nat (length r.2),
   match rows acc.2 !! r.1 with
   | None => index_record acc.2 r.1 (mkPlace pack (acc.1 + N.of_nat RECORD_HEADER) (N.of_nat (length r.2)))
   | Some _ => acc.2
   end).

Lemma replay_all_record pack a s rest offset ix :
  rec_ok (a, s) ->
  replay_all pack (record a s ++ rest) offset ix
  = let acc := add_record pack (offset, ix) (a, s) in replay_all pack rest acc.1 acc.2.
Proof.
  intros [Ha Hs]. simpl in Ha, Hs. unfold replay_all.
  assert (Hlen : length (record a s ++ rest) = (RECORD_HEADER + length s + length rest)%nat)
    by (rewrite length_app, length_record; lia).
  rewrite (replay_go_fuel pack _ (S (length (record a s ++ rest)))) by lia.
  rewrite replay_go_S. cbv zeta. rewrite record_len, record_address, Nat2N.id by done.
  assert (H1 : (length (record a s ++ rest) <? RECORD_HEADER)%nat = false) by (apply Nat.ltb_ge; lia).
  assert (H2 : (MAX_RECORD <? N.of_nat (length s)) = false) by by apply N.ltb_ge.
  assert (H3 : (length (record a s ++ rest) <? RECORD_HEADER + length s)%nat = false) by (apply Nat.ltb_ge; lia).
  rewrite H1, H2, H3. cbn [orb]. unfold add_record. cbn [fst snd].
  rewrite drop_app_length' by by rewrite length_record.
  rewrite (replay_go_fuel pack _ (length rest)) by lia. done.
Qed.

Lemma replay_all_torn pack t offset ix : torn_part t -> replay_all pack t offset ix = ix.
Proof.
  intros [->|([a s] & y & [Ha Hs] & Hy & Ht)]; [done|]. simpl in *. unfold replay_all.
  destruct (length t) as [|n] eqn:Hn; [done|]. cbn [replay_go]. rewrite Hn.
  destruct (S n <? RECORD_HEADER)%nat eqn:Hl; [done|]. apply Nat.ltb_ge in Hl.
  assert (Hpre : take 4 (drop 32 t) = take 4 (drop 32 (record a s ++ []))).
  { rewrite app_nil_r, <- Ht, drop_app_le, take_app_le; [done|..]; rewrite ?length_drop, Hn; unfold RECORD_HEADER in Hl; lia. }
  rewrite Hpre, record_len by done. rewrite Nat2N.id.
  replace (S n <? RECORD_HEADER + length s)%nat with true; [by rewrite orb_true_r|]. symmetry. apply Nat.ltb_lt.
  apply (f_equal length) in Ht. rewrite length_app, length_record, Hn in Ht. destruct y; [done|]. cbn [length] in Ht. lia.
Qed.

Lemma replay_all_records pack l t offset ix :
  Forall rec_ok l ->
  replay_all pack (records l ++ t) offset ix
  = let acc := foldl (add_record pack) (offset, ix) l in replay_all pack t acc.1 acc.2.
Proof.
  intros Hl. revert offset ix. induction Hl as [|[a s] l Hr Hl IH]; intros offset ix; [done|].
  rewrite records_cons, <- app_assoc, replay_all_record by done.
  cbv zeta. cbn [foldl]. rewrite IH. cbv zeta. by rewrite <- surjective_pairing.
Qed.

Lemma foldl_add_record_offset pack l offset ix :
  (foldl (add_record pack) (offset, ix) l).1 = offset + N.of_nat (length (records l)).
Proof.
  revert offset ix. induction l as [|[a s] l IH]; intros offset ix; [cbn; lia|].
  cbn [foldl]. rewrite (surjective_pairing (add_record pack (offset, ix) (a, s))), IH, records_cons, length_app, length_record.
  unfold add_record. cbn [fst snd]. lia.
Qed.

(** ** Replaying all the packs *)

(** The packs from the mark on. *)
Definition packs_from (files : gmap N (list N)) (m : N * N) : list N :=
  filter (fun pack => m.1 <= pack) (pack_numbers files).

Definition replayed (files : gmap N (list N)) (m : N * N) (ix : PackIndex) : PackIndex :=
  foldl (replay_pack files m) ix (packs_from files m).

Definition mark_of (ix : PackIndex) : N * N := default (1, 0) (mark ix).

Definition start_of (m : N * N) (pack : N) : N := if pack =? m.1 then m.2 else 0.

(** No file past the pack being written. *)
Definition within (files : gmap N (list N)) (cur : N) : Prop :=
  forall n bytes, files !! n = Some bytes -> n <= cur.

Lemma replay_pack_all files m ix pack :
  replay_pack files m ix pack
  = replay_all pack (drop (N.to_nat (start_of m pack)) (pack_bytes files pack)) (start_of m pack) ix.
Proof. reflexivity. Qed.

Lemma replay_pack_ext files files' m ix pack :
  files !! pack = files' !! pack -> replay_pack files m ix pack = replay_pack files' m ix pack.
Proof. intros He. rewrite !replay_pack_all. unfold pack_bytes. by rewrite He. Qed.

Lemma replay_pack_absent files m ix pack : files !! pack = None -> replay_pack files m ix pack = ix.
Proof. intros He. rewrite replay_pack_all. unfold pack_bytes. rewrite He. simpl. by rewrite drop_nil. Qed.

Lemma foldl_replay_ext files files' m l ix :
  (forall n, n ∈ l -> files !! n = files' !! n) ->
  foldl (replay_pack files m) ix l = foldl (replay_pack files' m) ix l.
Proof.
  revert ix. induction l as [|n l IH]; intros ix Hl; [done|]. cbn [foldl].
  rewrite (replay_pack_ext files files') by (apply Hl; left). apply IH. intros k Hk. apply Hl. by right.
Qed.

Lemma pack_numbers_last files cur bytes :
  within files cur -> files !! cur = Some bytes ->
  pack_numbers files = pack_numbers (delete cur files) ++ [cur].
Proof.
  intros Hw Hc. unfold pack_numbers, btree_keys.
  rewrite <- (insert_delete_id files cur bytes Hc) at 1.
  rewrite btree_iter_insert_max; [by rewrite fmap_app|by rewrite lookup_delete_eq|].
  intros k' Hk'. rewrite lookup_delete in Hk'. destruct (decide _) as [->|Hne]; [by destruct Hk'|].
  destruct Hk' as [x Hx]. simpl. by eapply Hw.
Qed.

(** The last pack is replayed last. *)
Lemma replayed_split files m ix cur :
  within files cur -> m.1 <= cur ->
  replayed files m ix = replay_pack files m (replayed (delete cur files) m ix) cur.
Proof.
  intros Hw Hm. unfold replayed, packs_from. destruct (files !! cur) as [bytes|] eqn:Hc.
  - rewrite (pack_numbers_last files cur bytes) by done. rewrite filter_app, foldl_app.
    rewrite filter_cons_True by done. rewrite filter_nil. cbn [foldl]. f_equal.
    apply foldl_replay_ext. intros n Hn. apply list_elem_of_filter in Hn as [_ Hn].
    apply elem_of_btree_keys in Hn as [x Hx]. rewrite lookup_delete in Hx |- *. by case_decide.
  - rewrite replay_pack_absent by done. by rewrite delete_id by done.
Qed.

(** Nothing before the mark is replayed. *)
Lemma replayed_past files m ix : (forall n, is_Some (files !! n) -> n < m.1) -> replayed files m ix = ix.
Proof.
  intros Hp. unfold replayed, packs_from.
  assert (He : filter (fun pack => m.1 <= pack) (pack_numbers files) = []); [|by rewrite He].
  destruct (filter _ _) as [|n l] eqn:He; [done|].
  assert (Hn : n ∈ filter (fun pack => m.1 <= pack) (pack_numbers files)) by (rewrite He; left).
  apply list_elem_of_filter in Hn as [Hn Hin]. apply elem_of_btree_keys, Hp in Hin. lia.
Qed.

(** From a mark before the dead bytes at the end of the last pack, nothing is
    found. *)
Lemma replayed_end files cur off ix :
  within files cur -> torn_part (drop (N.to_nat off) (pack_bytes files cur)) -> replayed files (cur, off) ix = ix.
Proof.
  intros Hw Ht. rewrite (replayed_split files (cur, off) ix cur) by (done || simpl; lia).
  rewrite replayed_past.
  - rewrite replay_pack_all. unfold start_of. simpl. rewrite N.eqb_refl. by apply replay_all_torn.
  - intros n [x Hx]. rewrite lookup_delete in Hx. case_decide; [done|]. apply Hw in Hx. simpl. lia.
Qed.

Lemma mark_replay_go fuel pack : forall rest offset ix, mark (replay_go fuel pack rest offset ix) = mark ix.
Proof.
  induction fuel as [|fuel IH]; intros rest offset ix; [done|]. rewrite replay_go_S. cbv zeta.
  destruct (_ <? _)%nat; [done|]. destruct (_ || _); [done|]. rewrite IH. by destruct (rows ix !! _).
Qed.

Lemma mark_replayed files m ix : mark (replayed files m ix) = mark ix.
Proof.
  unfold replayed. generalize (packs_from files m). intros l. revert ix.
  induction l as [|n l IH]; intros ix; [done|]. cbn [foldl]. rewrite IH. apply mark_replay_go.
Qed.

(** ** The invariant *)

(** A row names a whole record of its address. *)
Definition holds (files : gmap N (list N)) (a : ChunkId) (s : list N) (pl : Place) : Prop :=
  rec_ok (a, s) /\ pl_len pl = N.of_nat (length s) /\
  exists pre post, files !! pl_pack pl = Some (pre ++ record a s ++ post)
    /\ pl_offset pl = N.of_nat (length pre) + N.of_nat RECORD_HEADER.

Definition rows_ok (files : gmap N (list N)) (ix : PackIndex) (b : gmap ChunkId (list N)) : Prop :=
  forall a, match rows ix !! a, b !! a with
            | Some pl, Some s => holds files a s pl
            | None, None => True
            | _, _ => False
            end.

(** [BY_PACK] lists what each pack holds. *)
Definition members_ok (ix : PackIndex) : Prop :=
  forall n a, (n, a) ∈ by_pack ix <-> exists pl, rows ix !! a = Some pl /\ pl_pack pl = n.

(** What the pack being written holds from the mark on: whole records up to
    where this process wrote, then perhaps a part of one.  Or the mark is the
    start of the pack that the next record opens. *)
Definition tail_ok (files : gmap N (list N)) (m c : N * N) : Prop :=
  (m.1 <= c.1 /\ start_of m c.1 <= N.of_nat (length (pack_bytes files c.1)) /\ exists recs t, Forall rec_ok recs /\ torn_part t
     /\ drop (N.to_nat (start_of m c.1)) (pack_bytes files c.1) = records recs ++ t
     /\ c.2 = start_of m c.1 + N.of_nat (length (records recs)))
  \/ (m = (c.1 + 1, 0) /\ PACK_TARGET <= c.2 /\ c.2 = N.of_nat (length (pack_bytes files c.1))).

(** The file being written exists, or the pack before it is full. *)
Definition opened_ok (files : gmap N (list N)) (m c : N * N) : Prop :=
  is_Some (files !! c.1) \/
  (c.2 = 0 /\ ((files = ∅ /\ c = (1, 0) /\ m = (1, 0))
     \/ exists bytes, 1 <= c.1 /\ files !! (c.1 - 1) = Some bytes /\ PACK_TARGET <= N.of_nat (length bytes))).

Record pack_ok (p : Packs) (b : gmap ChunkId (list N)) : Prop := {
  ok_rows : rows_ok (pk_files p) (pk_index p) b;
  ok_members : members_ok (pk_index p);
  ok_within : within (pk_files p) (pk_current p).1;
  ok_tail : tail_ok (pk_files p) (mark_of (pk_durable p)) (pk_current p);
  ok_opened : opened_ok (pk_files p) (mark_of (pk_durable p)) (pk_current p);
  ok_replay : replayed (pk_files p) (mark_of (pk_durable p)) (pk_durable p) = pk_index p;
}.


(** ** Reading *)

Lemma place_ok p b a : pack_ok p b -> place p a = rows (pk_index p) !! a.
Proof.
  intros Hok. pose proof (ok_rows p b Hok a) as Ha. unfold place.
  destruct (rows (pk_index p) !! a) as [pl|], (b !! a) as [s|]; try done.
  destruct Ha as ([_ Hs] & Hl & pre & post & _ & Ho). simpl in Hs. rewrite Hl, Ho.
  by rewrite (proj2 (N.leb_le _ _)), (proj2 (N.leb_le _ _)) by (done || lia).
Qed.

Lemma absent_ok p b a : pack_ok p b -> rows (pk_index p) !! a = None <-> b !! a = None.
Proof.
  intros Hok. pose proof (ok_rows p b Hok a) as Ha.
  by destruct (rows (pk_index p) !! a), (b !! a).
Qed.

Lemma header_record a s :
  header_matches (take RECORD_HEADER (record a s)) a (N.of_nat (length s)) = true.
Proof.
  assert (Hh : take RECORD_HEADER (record a s) = as_bytes a ++ le_bytes 4 (N.of_nat (length s))).
  { unfold record, RECORD_HEADER. rewrite app_assoc. apply take_app_length'.
    by rewrite length_app, length_as_bytes, length_le_bytes. }
  rewrite Hh. unfold header_matches.
  rewrite take_app_length', drop_app_length' by by rewrite length_as_bytes.
  by rewrite !bool_decide_eq_true_2.
Qed.

Lemma read_record_ok p a s pl k :
  holds (pk_files p) a s pl -> (k <= length s)%nat ->
  read_record p pl k = Some (take RECORD_HEADER (record a s), take k s).
Proof.
  intros (_ & _ & pre & post & Hf & Ho) Hk. unfold read_record, pack_bytes. rewrite Hf. cbn [default option_rect].
  rewrite bool_decide_eq_true_2 by eauto. cbn [from_option id].
  rewrite drop_app_length' by (rewrite Ho; lia).
  assert (Hlen : (RECORD_HEADER + k <=? length (record a s ++ post))%nat = true)
    by (apply Nat.leb_le; rewrite length_app, length_record; lia).
  assert (Hbody : take k (drop RECORD_HEADER (record a s ++ post)) = take k s).
  { unfold record. rewrite <- app_assoc, app_assoc, app_assoc.
    rewrite <- (app_assoc (as_bytes a ++ le_bytes 4 (N.of_nat (length s)))).
    rewrite drop_app_length' by by rewrite length_app, length_as_bytes, length_le_bytes.
    by apply take_app_le. }
  rewrite Hlen, Hbody. cbn [andb]. rewrite take_app_le; [done|]. rewrite length_record. lia.
Qed.

(** What was put is read back, and reading changes nothing. *)
Lemma get_ok p b a : pack_ok p b -> get a p = (b !! a, p).
Proof.
  intros Hok. unfold get. rewrite (place_ok p b) by done. pose proof (ok_rows p b Hok a) as Ha.
  destruct (rows (pk_index p) !! a) as [pl|], (b !! a) as [s|]; try done.
  pose proof Ha as (_ & Hl & _). rewrite Hl, Nat2N.id, (read_record_ok p a s) by done.
  by rewrite header_record, firstn_all.
Qed.

Lemma contains_ok p b a : pack_ok p b -> contains a p = (blob_contains a b, p).
Proof.
  intros Hok. unfold contains, blob_contains. rewrite (place_ok p b) by done. pose proof (ok_rows p b Hok a) as Ha.
  destruct (rows (pk_index p) !! a) as [pl|], (b !! a) as [s|]; try done.
  pose proof Ha as (_ & Hl & _). rewrite Hl, (read_record_ok p a s) by (done || lia).
  by rewrite header_record.
Qed.

(** ** Writing *)

(** A file with bytes added at its end. *)
Definition extended (files : gmap N (list N)) (pack : N) (x : list N) : gmap N (list N) :=
  <[pack := pack_bytes files pack ++ x]> files.

Lemma pack_bytes_extended files pack x : pack_bytes (extended files pack x) pack = pack_bytes files pack ++ x.
Proof. unfold extended, pack_bytes at 1. by rewrite lookup_insert_eq. Qed.

Lemma delete_extended files pack x : delete pack (extended files pack x) = delete pack files.
Proof. apply delete_insert_eq. Qed.

Lemma within_extended files pack x : within files pack -> within (extended files pack x) pack.
Proof.
  intros Hw n bytes Hn. unfold extended in Hn. apply lookup_insert_Some in Hn as [[<- _]|[_ Hn]]; [lia|by eapply Hw].
Qed.

Lemma holds_extended files pack x a s pl : holds files a s pl -> holds (extended files pack x) a s pl.
Proof.
  intros (Hr & Hl & pre & post & Hf & Ho). split_and!; [done..|]. unfold extended.
  destruct (decide (pl_pack pl = pack)) as [<-|Hne].
  - exists pre, (post ++ x). rewrite lookup_insert_eq. unfold pack_bytes. rewrite Hf. cbn [default from_option id].
    by rewrite <- (app_assoc pre), <- (app_assoc (record a s)).
  - exists pre, post. by rewrite lookup_insert_ne.
Qed.

Lemma rows_extended files pack x ix b : rows_ok files ix b -> rows_ok (extended files pack x) ix b.
Proof.
  intros Hr a. specialize (Hr a). destruct (rows ix !! a), (b !! a); try done. by apply holds_extended.
Qed.

(** The bytes at the end of a file are held once they are there. *)
Lemma holds_appended files pack a s :
  rec_ok (a, s) ->
  holds (extended files pack (record a s)) a s
    (mkPlace pack (N.of_nat (length (pack_bytes files pack)) + N.of_nat RECORD_HEADER) (N.of_nat (length s))).
Proof.
  intros Hr. split_and!; [done..|]. exists (pack_bytes files pack), []. cbn [pl_pack pl_offset]. rewrite app_nil_r.
  unfold extended. by rewrite lookup_insert_eq.
Qed.

Lemma rows_index_record files ix b a s pl :
  rows_ok files ix b -> holds files a s pl -> rows_ok files (index_record ix a pl) (<[a := s]> b).
Proof.
  intros Hr Hh a'. unfold index_record. cbn [rows]. destruct (decide (a = a')) as [<-|Hne].
  - by rewrite !lookup_insert_eq.
  - rewrite !lookup_insert_ne by done. apply Hr.
Qed.

Lemma members_index_record ix a pl :
  members_ok ix -> rows ix !! a = None -> members_ok (index_record ix a pl).
Proof.
  intros Hm Ha n a'. unfold index_record. cbn [rows by_pack].
  pose proof (Hm n a') as Hna. rewrite elem_of_union, elem_of_singleton, Hna.
  destruct (decide (a = a')) as [<-|Hne].
  - rewrite lookup_insert_eq, Ha. naive_solver.
  - rewrite lookup_insert_ne by done. naive_solver.
Qed.

(** Where the next record goes: a state that has rolled. *)
Definition rolled_ok (p : Packs) : Prop :=
  let m := mark_of (pk_durable p) in
  m.1 <= (pk_current p).1 /\ start_of m (pk_current p).1 <= N.of_nat (length (pack_bytes (pk_files p) (pk_current p).1))
  /\ exists recs t, Forall rec_ok recs /\ torn_part t
     /\ drop (N.to_nat (start_of m (pk_current p).1)) (pack_bytes (pk_files p) (pk_current p).1) = records recs ++ t
     /\ (pk_current p).2 = start_of m (pk_current p).1 + N.of_nat (length (records recs)).

Lemma within_past files cur n : within files cur -> cur < n -> files !! n = None.
Proof. intros Hw Hn. destruct (files !! n) eqn:Hf; [|done]. apply Hw in Hf. lia. Qed.

Lemma rolled_ok_length p :
  rolled_ok p -> (pk_current p).2 <= N.of_nat (length (pack_bytes (pk_files p) (pk_current p).1)).
Proof.
  intros (_ & Hs & recs & t & _ & _ & Hd & Hc). apply (f_equal length) in Hd.
  rewrite length_drop, length_app in Hd. lia.
Qed.

Lemma torn_part_nil : torn_part [].
Proof. by left. Qed.
#[local] Hint Resolve torn_part_nil : core.

(** A full pack whose file holds what was written. *)
Lemma full_pack_exists files m c :
  tail_ok files m c -> opened_ok files m c -> PACK_TARGET <= c.2 ->
  exists bytes, files !! c.1 = Some bytes /\ PACK_TARGET <= N.of_nat (length bytes).
Proof.
  intros Ht Ho Hc. assert (Hlen : c.2 <= N.of_nat (length (pack_bytes files c.1))).
  { destruct Ht as [(_ & Hs & recs & t & _ & _ & Hd & Hc2)|(_ & _ & ->)]; [|lia].
    apply (f_equal length) in Hd. rewrite length_drop, length_app in Hd. lia. }
  unfold pack_bytes in Hlen. destruct Ho as [[bytes Hb]|[H0 _]]; [|unfold PACK_TARGET in Hc; lia].
  rewrite Hb in Hlen. simpl in Hlen. exists bytes. split; [done|lia].
Qed.

Lemma roll_ok p b : pack_ok p b -> pack_ok (roll p) b /\ rolled_ok (roll p).
Proof.
  intros Hok. pose proof Hok as [Hr Hm Hw Ht Ho Hrep]. unfold roll.
  destruct (PACK_TARGET <=? (pk_current p).2) eqn:Hfull.
  - apply N.leb_le in Hfull. destruct (full_pack_exists _ _ _ Ht Ho Hfull) as (bytes & Hb & Hlb).
    assert (Hnone : pk_files p !! ((pk_current p).1 + 1) = None) by (apply (within_past _ _ _ Hw); lia).
    assert (Hro : rolled_ok (mkPacks (pk_files p) (pk_index p) (pk_durable p) ((pk_current p).1 + 1, 0) (pk_pending p))).
    { unfold rolled_ok. cbn [pk_durable pk_current pk_files fst snd]. unfold pack_bytes. rewrite Hnone. cbn [default from_option].
      assert (Hst : start_of (mark_of (pk_durable p)) ((pk_current p).1 + 1) = 0 /\ (mark_of (pk_durable p)).1 <= (pk_current p).1 + 1).
      { unfold start_of. destruct Ht as [(Hm1 & _)|(-> & _)].
        - rewrite (proj2 (N.eqb_neq _ _)) by lia. split; lia.
        - cbn [fst snd]. rewrite N.eqb_refl. split; lia. }
      destruct Hst as [-> Hle]. split_and!; [done|simpl; lia|]. exists [], []. rewrite drop_nil. by split_and!. }
    split; [|done]. split; cbn [pk_files pk_index pk_durable pk_current fst snd]; try done.
    + intros n x Hx. apply Hw in Hx. lia.
    + by left.
    + right. split; [done|]. right. exists bytes. cbn [fst]. split; [lia|]. by replace ((pk_current p).1 + 1 - 1) with ((pk_current p).1) by lia.
  - split; [done|]. destruct Ht as [Ht|(_ & Hc & _)]; [done|]. apply N.leb_gt in Hfull. lia.
Qed.

Lemma tail_end files m c :
  tail_ok files m c ->
  c.2 <= N.of_nat (length (pack_bytes files c.1)) /\ torn_part (drop (N.to_nat c.2) (pack_bytes files c.1)).
Proof.
  intros [(_ & Hs & recs & t & _ & Ht & Hd & ->)|(_ & _ & ->)].
  - split.
    + apply (f_equal length) in Hd. rewrite length_drop, length_app in Hd. lia.
    + rewrite N2Nat.inj_add, Nat2N.id, <- drop_drop, Hd. by rewrite drop_app_length.
  - rewrite Nat2N.id, drop_all. split; [lia|by left].
Qed.

Lemma rows_write_mark files ix b n o : rows_ok files (write_mark ix n o) b <-> rows_ok files ix b.
Proof. reflexivity. Qed.

(** A durable commit with the mark where this process wrote. *)
Lemma durable_ok files ix b c m pend :
  rows_ok files ix b -> members_ok ix -> within files c.1 ->
  c.2 <= N.of_nat (length (pack_bytes files c.1)) -> torn_part (drop (N.to_nat c.2) (pack_bytes files c.1)) ->
  opened_ok files m c ->
  pack_ok (mkPacks files (write_mark ix c.1 c.2) (write_mark ix c.1 c.2) c pend) b.
Proof.
  intros Hr Hm Hw Hl Ht Ho. destruct c as [c o]. cbn [fst snd] in *.
  split; cbn [pk_files pk_index pk_durable pk_current fst snd]; unfold mark_of; cbn [mark write_mark default from_option id]; try done.
  - left. unfold start_of. cbn [fst snd]. rewrite N.eqb_refl. split_and!; [lia|done|].
    exists [], (drop (N.to_nat o) (pack_bytes files c)). split_and!; [done..|]. simpl. lia.
  - destruct Ho as [Ho|[H0 [(He & Hc & _)|Ho]]]; [by left|right..]; (split; [done|]); [left|by right].
    by rewrite Hc.
  - by apply replayed_end.
Qed.

Lemma flush_ok p b : pack_ok p b -> pack_ok (flush p) b.
Proof.
  intros [Hr Hm Hw Ht Ho _]. destruct (tail_end _ _ _ Ht) as [Hl Hd].
  exact (durable_ok _ _ _ _ _ _ Hr Hm Hw Hl Hd Ho).
Qed.

Lemma remove_ok p b a : pack_ok p b -> (remove a p).1 = blob_contains a b /\ pack_ok (remove a p).2 (delete a b).
Proof.
  intros [Hr Hm Hw Ht Ho _]. destruct (tail_end _ _ _ Ht) as [Hl Hd]. unfold remove, blob_contains.
  pose proof (Hr a) as Ha. cbn [rows write_mark].
  destruct (rows (pk_index p) !! a) as [pl|] eqn:Hrow.
  - destruct (b !! a) as [s|] eqn:Hb; [|done]. split; [done|]. cbn [snd].
    set (ix := mkPackIndex (delete a (rows (pk_index p))) (by_pack (pk_index p) ∖ {[(pl_pack pl, a)]})
                 (<[pl_pack pl := sat_sub (default 0 (live (pk_index p) !! pl_pack pl)) (pl_len pl)]> (live (pk_index p)))
                 (mark (pk_index p))).
    assert (Hr' : rows_ok (pk_files p) ix (delete a b)).
    { intros a'. unfold ix. cbn [rows]. destruct (decide (a = a')) as [<-|Hne].
      - by rewrite !lookup_delete_eq.
      - rewrite !lookup_delete_ne by done. apply Hr. }
    assert (Hm' : members_ok ix).
    { intros n a'. unfold ix. cbn [rows by_pack]. pose proof (Hm n a') as Hna.
      rewrite elem_of_difference, elem_of_singleton, Hna.
      destruct (decide (a = a')) as [<-|Hne].
      - rewrite lookup_delete_eq, Hrow. naive_solver.
      - rewrite lookup_delete_ne by done. naive_solver. }
    exact (durable_ok _ _ _ _ _ _ Hr' Hm' Hw Hl Hd Ho).
  - destruct (b !! a) as [s|] eqn:Hb; [done|]. split; [done|]. cbn [snd]. rewrite delete_id by done.
    exact (durable_ok _ _ _ _ _ _ Hr Hm Hw Hl Hd Ho).
Qed.

Lemma torn_false p :
  rolled_ok p -> is_torn p = false -> (pk_current p).2 = N.of_nat (length (pack_bytes (pk_files p) (pk_current p).1)).
Proof. intros Hro Ht. apply rolled_ok_length in Hro. unfold is_torn in Ht. apply N.ltb_ge in Ht. lia. Qed.

Lemma append_at_length p :
  rolled_ok p -> append_at p = N.of_nat (length (pack_bytes (pk_files p) (pk_current p).1)).
Proof. intros Hro. apply rolled_ok_length in Hro. unfold append_at. lia. Qed.

(** Where a file exists nothing more is asked of the packs before it. *)
Lemma opened_extended files m c x : opened_ok (extended files c.1 x) m c.
Proof. left. unfold extended. rewrite lookup_insert_eq. eauto. Qed.

(** A record appended to whole ones, its row not yet durable: the replay finds
    it. *)
Lemma appended_row_ok p b a s pend :
  pack_ok p b -> rolled_ok p -> is_torn p = false -> rec_ok (a, s) -> b !! a = None ->
  pack_ok (mkPacks (extended (pk_files p) (pk_current p).1 (record a s))
             (index_record (pk_index p) a
                (mkPlace (pk_current p).1 ((pk_current p).2 + N.of_nat RECORD_HEADER) (N.of_nat (length s))))
             (pk_durable p) ((pk_current p).1, (pk_current p).2 + N.of_nat (length (record a s))) pend)
    (<[a := s]> b).
Proof.
  intros Hok Hro Htorn Hrec Hb. pose proof Hok as [Hr Hm Hw _ _ Hrep].
  pose proof (torn_false p Hro Htorn) as Hend. apply (absent_ok p b a Hok) in Hb.
  destruct Hro as (Hle & Hs & recs & t & Hrecs & Ht & Hd & Hc2).
  assert (t = []) as ->.
  { apply (f_equal length) in Hd. rewrite length_drop, length_app in Hd. apply length_zero_iff_nil. lia. }
  rewrite app_nil_r in Hd.
  set (cur := (pk_current p).1) in *. set (m := mark_of (pk_durable p)) in *.
  set (files := pk_files p) in *.
  assert (Hd' : drop (N.to_nat (start_of m cur)) (pack_bytes (extended files cur (record a s)) cur)
                = records (recs ++ [(a, s)])).
  { rewrite pack_bytes_extended, drop_app_le, Hd, records_snoc by lia. done. }
  split; cbn [pk_files pk_index pk_durable pk_current fst snd]; fold m.
  - apply rows_index_record; [by apply rows_extended|]. rewrite Hend. by apply holds_appended.
  - by apply members_index_record.
  - by apply within_extended.
  - left. cbn [fst snd]. rewrite pack_bytes_extended, length_app. split_and!; [done|lia|].
    exists (recs ++ [(a, s)]), []. split_and!.
    + apply Forall_app. auto.
    + done.
    + rewrite <- pack_bytes_extended, app_nil_r. exact Hd'.
    + rewrite Hc2, records_snoc, length_app. cbn [fst snd]. lia.
  - apply (opened_extended files m (cur, _)).
  - rewrite (replayed_split _ _ _ cur) by (by apply within_extended || done).
    rewrite delete_extended, replay_pack_all, Hd', <- (app_nil_r (records (recs ++ [(a, s)]))).
    rewrite replay_all_records by (apply Forall_app; auto). cbv zeta.
    rewrite foldl_app. cbn [foldl].
    assert (Hfold : (foldl (add_record cur) (start_of m cur, replayed (delete cur files) m (pk_durable p)) recs)
                    = ((pk_current p).2, pk_index p)).
    { rewrite <- Hrep. rewrite (replayed_split files _ _ cur) by done. rewrite replay_pack_all, Hd.
      rewrite <- (app_nil_r (records recs)), replay_all_records by done. cbv zeta.
      rewrite Hc2, <- foldl_add_record_offset with (pack := cur) (ix := replayed (delete cur files) m (pk_durable p)).
      apply surjective_pairing. }
    rewrite Hfold. unfold add_record. cbn [fst snd]. rewrite Hb. done.
Qed.

(** A record appended, torn bytes before it or not, and its row made durable
    with the mark after it. *)
Lemma append_durable_ok p b a s ix pend :
  pack_ok p b -> rolled_ok p -> rec_ok (a, s) ->
  rows_ok (extended (pk_files p) (pk_current p).1 (record a s)) ix (<[a := s]> b) -> members_ok ix ->
  let c := ((pk_current p).1, append_at p + N.of_nat (length (record a s))) in
  pack_ok (mkPacks (extended (pk_files p) (pk_current p).1 (record a s))
             (write_mark ix c.1 c.2) (write_mark ix c.1 c.2) c pend) (<[a := s]> b).
Proof.
  intros Hok Hro Hrec Hr Hm c. pose proof (ok_within _ _ Hok) as Hw.
  assert (Hend : c.2 = N.of_nat (length (pack_bytes (extended (pk_files p) (pk_current p).1 (record a s)) c.1))).
  { unfold c. cbn [fst snd]. rewrite pack_bytes_extended, length_app, append_at_length by done. lia. }
  apply (durable_ok _ _ _ c (0, 0)); try done.
  - by apply within_extended.
  - lia.
  - rewrite Hend, Nat2N.id, drop_all. done.
  - apply (opened_extended _ _ c).
Qed.

(** Whatever else it is, the row of an appended record is good. *)
Lemma index_appended_ok p b a s :
  pack_ok p b -> rolled_ok p -> rec_ok (a, s) -> b !! a = None ->
  let pl := mkPlace (pk_current p).1 (append_at p + N.of_nat RECORD_HEADER) (N.of_nat (length s)) in
  rows_ok (extended (pk_files p) (pk_current p).1 (record a s)) (index_record (pk_index p) a pl) (<[a := s]> b)
  /\ members_ok (index_record (pk_index p) a pl).
Proof.
  intros Hok Hro Hrec Hb pl. split.
  - apply rows_index_record; [apply rows_extended, Hok|]. unfold pl. rewrite append_at_length by done. by apply holds_appended.
  - apply members_index_record; [apply Hok|]. by apply (absent_ok p b).
Qed.

Lemma put_ok p b a s :
  pack_ok p b -> rec_ok (a, s) ->
  (put a s None p).1 = Ok (blob_put a s b).1
  /\ pack_ok (put a s None p).2 (blob_put a s b).2.
Proof.
  intros Hok Hrec. unfold put, blob_put. pose proof Hrec as [_ Hs]. cbn [snd] in Hs.
  rewrite (proj2 (N.ltb_ge _ _)) by done. rewrite (place_ok p b) by done.
  destruct (rows (pk_index p) !! a) as [pl|] eqn:Hrow.
  { destruct (b !! a) eqn:Hb; [done|]. apply (absent_ok p b a Hok) in Hb. congruence. }
  pose proof (proj1 (absent_ok p b a Hok) Hrow) as Hb. rewrite Hb.
  destruct (roll_ok p b Hok) as [Hok' Hro]. clear Hrow Hok. revert Hok' Hro. generalize (roll p). clear p. intros p Hok Hro.
  cbv zeta. cbn [fst snd]. split; [done|].
  destruct (index_appended_ok p b a s Hok Hro Hrec Hb) as [Hr Hm].
  destruct (is_torn p || _ || _) eqn:Hd.
  - exact (append_durable_ok p b a s _ _ Hok Hro Hrec Hr Hm).
  - apply orb_false_iff in Hd as [Hd _]. apply orb_false_iff in Hd as [Hd _].
    pose proof (appended_row_ok p b a s ((pk_pending p).1 + 1, (pk_pending p).2 + N.of_nat (length s)) Hok Hro Hd Hrec Hb) as Ha.
    rewrite append_at_length, <- torn_false by done. exact Ha.
Qed.

(** Appending bytes that end a record short changes nothing that is read. *)
Lemma torn_append_ok p b a s k :
  pack_ok p b -> rolled_ok p -> is_torn p = false -> rec_ok (a, s) -> (k < length (record a s))%nat ->
  pack_ok (append (take k (record a s)) p) b.
Proof.
  intros Hok Hro Htorn Hrec Hk. pose proof Hok as [Hr Hm Hw _ _ Hrep].
  pose proof (torn_false p Hro Htorn) as Hend.
  destruct Hro as (Hle & Hs & recs & t & Hrecs & Ht & Hd & Hc2).
  assert (t = []) as ->.
  { apply (f_equal length) in Hd. rewrite length_drop, length_app in Hd. apply length_zero_iff_nil. lia. }
  rewrite app_nil_r in Hd.
  assert (Htp : torn_part (take k (record a s))).
  { right. exists (a, s), (drop k (record a s)). split_and!; [done| |by rewrite take_drop].
    intros He. apply (f_equal length) in He. rewrite length_drop in He. cbn [length] in He. lia. }
  set (x := take k (record a s)) in *. set (cur := (pk_current p).1) in *. set (m := mark_of (pk_durable p)) in *.
  set (files := pk_files p) in *.
  assert (Hd' : drop (N.to_nat (start_of m cur)) (pack_bytes (extended files cur x) cur) = records recs ++ x).
  { by rewrite pack_bytes_extended, drop_app_le, Hd by lia. }
  unfold append. cbv zeta. fold cur files. fold (extended files cur x).
  split; cbn [pk_files pk_index pk_durable pk_current]; fold m.
  - by apply rows_extended.
  - done.
  - by apply within_extended.
  - left. fold cur. split_and!; [done|rewrite pack_bytes_extended, length_app; lia|].
    exists recs, x. by split_and!.
  - apply opened_extended.
  - rewrite <- Hrep. rewrite (replayed_split (extended files cur x) _ _ cur), (replayed_split files _ _ cur) by (done || by apply within_extended).
    rewrite delete_extended, !replay_pack_all, Hd', Hd.
    rewrite <- (app_nil_r (records recs)) at 2. rewrite !replay_all_records by done. cbv zeta.
    by rewrite replay_all_torn.
Qed.

Lemma failed_put_ok p b a s k :
  pack_ok p b -> is_torn (roll p) = false -> rec_ok (a, s) -> (k < length (record a s))%nat -> b !! a = None ->
  (put a s (Some k) p).1 = Err (Io "pack") /\ pack_ok (put a s (Some k) p).2 b.
Proof.
  intros Hok Htorn Hrec Hk Hb. unfold put. pose proof Hrec as [_ Hs]. cbn [snd] in Hs.
  rewrite (proj2 (N.ltb_ge _ _)) by done. rewrite (place_ok p b) by done.
  rewrite (proj2 (absent_ok p b a Hok) Hb). cbv zeta. cbn [fst snd].
  split; [done|]. destruct (roll_ok p b Hok). by apply torn_append_ok.
Qed.

(** ** Restarting *)

(** The end of the process, in good order or not: what it wrote is there, and
    the rows of the last durable commit. *)
Definition restart (p : Packs) : Packs := open (pk_files p) (pk_durable p).

Lemma last_numbers files n :
  last (pack_numbers files) = Some n -> is_Some (files !! n) /\ within files n.
Proof.
  intros Hl. apply last_Some in Hl as [l Hl]. split.
  - apply elem_of_btree_keys. unfold pack_numbers in Hl. rewrite Hl. set_solver.
  - intros k x Hk. assert (Hin : k ∈ pack_numbers files) by (apply elem_of_btree_keys; eauto).
    pose proof (StronglySorted_btree_keys files) as Hs. unfold pack_numbers in *. rewrite Hl in Hin, Hs.
    apply elem_of_app in Hin as [Hin|Hin]; [|apply list_elem_of_singleton in Hin; lia].
    apply StronglySorted_app_1_elem_of with (x1 := k) (x2 := n) in Hs; [done|done|set_solver].
Qed.

Lemma last_from files m n :
  last (pack_numbers files) = Some n -> m.1 <= n -> last (packs_from files m) = Some n.
Proof.
  intros Hl Hm. destruct (last_numbers _ _ Hl) as [[x Hx] Hw]. unfold packs_from.
  rewrite (pack_numbers_last files n x) by done. by rewrite filter_app, filter_cons_True, filter_nil, last_snoc.
Qed.

Lemma replay_replayed files ix :
  replay files ix
  = let m := mark_of ix in
    let end_ := match last (packs_from files m) with
                | Some pack => (pack, N.of_nat (length (pack_bytes files pack)))
                | None => m
                end in
    write_mark (replayed files m ix) end_.1 end_.2.
Proof. reflexivity. Qed.

(** A mark past every file is the start of the pack that comes next. *)
Lemma mark_past p b n bytes :
  pack_ok p b -> pk_files p !! n = Some bytes -> within (pk_files p) n -> n < (mark_of (pk_durable p)).1 ->
  mark_of (pk_durable p) = (n + 1, 0) /\ PACK_TARGET <= N.of_nat (length bytes).
Proof.
  intros [_ _ Hw Ht Ho _] Hn Hwn Hlt. pose proof (Hw _ _ Hn) as Hle.
  destruct Ht as [(Hm & Hs & recs & t & _ & _ & _ & Hc2)|(Hm & Hc & Hl)].
  - assert (Hnone : pk_files p !! (pk_current p).1 = None) by (apply (within_past _ _ _ Hwn); lia).
    destruct Ho as [[x Hx]|[H0 [(He & _)|(x & H1 & Hx & Hfull)]]]; [congruence|by rewrite He, lookup_empty in Hn|].
    apply Hwn in Hx as Hx'. assert (n = (pk_current p).1 - 1) as -> by lia. rewrite Hx in Hn. injection Hn as ->.
    split; [|done]. destruct (mark_of (pk_durable p)) as [m1 m2]. cbn [fst snd] in *.
    assert (m1 = (pk_current p).1) as -> by lia. unfold start_of in Hc2. cbn [fst snd] in Hc2. rewrite N.eqb_refl in Hc2.
    f_equal; lia.
  - destruct (full_pack_exists _ _ _ (or_intror (conj Hm (conj Hc Hl))) Ho Hc) as (x & Hx & Hfull).
    apply Hwn in Hx as Hx'. assert (n = (pk_current p).1) as -> by lia. rewrite Hx in Hn. by injection Hn as ->.
Qed.

Lemma restart_ok p b : pack_ok p b -> pack_ok (restart p) b.
Proof.
  intros Hok. pose proof Hok as [Hr Hm Hw Ht Ho Hrep]. unfold restart, open. cbv zeta.
  rewrite replay_replayed. cbv zeta. rewrite Hrep.
  destruct (last (pack_numbers (pk_files p))) as [n|] eqn:Hlast; cbn [default from_option id].
  - destruct (last_numbers _ _ Hlast) as [[bytes Hn] Hwn].
    assert (Hpb : pack_bytes (pk_files p) n = bytes) by (unfold pack_bytes; by rewrite Hn).
    destruct (decide ((mark_of (pk_durable p)).1 <= n)) as [Hle|Hgt].
    + rewrite (last_from _ _ n) by done.
      apply (durable_ok (pk_files p) (pk_index p) b (n, N.of_nat (length (pack_bytes (pk_files p) n))) (0, 0)); try done.
      * cbn [fst snd]. by rewrite Nat2N.id, drop_all.
      * left. eauto.
    + destruct (mark_past p b n bytes) as [Hmark Hfull]; [done..|lia|].
      assert (Hpast : forall k, is_Some (pk_files p !! k) -> k < (n + 1, 0).1) by (intros k [x Hx]; apply Hwn in Hx; simpl; lia).
      assert (Hnil : last (packs_from (pk_files p) (mark_of (pk_durable p))) = None).
      { destruct (last (packs_from _ _)) as [k|] eqn:Hk; [|done]. apply last_Some_elem_of in Hk.
        apply list_elem_of_filter in Hk as [Hk1 Hk2]. apply elem_of_btree_keys, Hpast in Hk2. rewrite Hmark in Hk1. simpl in *. lia. }
      rewrite Hnil, Hmark, Hpb. cbn [fst snd].
      split; cbn [pk_files pk_index pk_durable pk_current fst snd]; unfold mark_of; cbn [mark write_mark default from_option id]; try done.
      * right. cbn [fst snd]. rewrite Hpb. by split_and!.
      * left. cbn [fst]. eauto.
      * by apply replayed_past.
  - apply last_None in Hlast.
    assert (He : pk_files p = ∅).
    { apply map_empty. intros k. destruct (pk_files p !! k) eqn:Hk; [|done].
      assert (Hin : k ∈ pack_numbers (pk_files p)) by (apply elem_of_btree_keys; eauto). rewrite Hlast in Hin. by apply not_elem_of_nil in Hin. }
    rewrite He in *. destruct Ho as [[x Hx]|[H0 [(_ & Hc & Hmk)|(x & _ & Hx & _)]]]; [by rewrite lookup_empty in Hx| |by rewrite lookup_empty in Hx].
    rewrite Hmk. unfold packs_from. rewrite Hlast.
    apply (durable_ok ∅ (pk_index p) b (1, 0) (1, 0)); try done.
    right. split; [done|]. by left.
Qed.

(** The machine stops after a record is written and before its row is: the
    restart finds the record. *)
Lemma cut_put_ok p b a s :
  pack_ok p b -> is_torn (roll p) = false -> rec_ok (a, s) -> b !! a = None ->
  pack_ok (restart (append (record a s) (roll p))) (<[a := s]> b).
Proof.
  intros Hok Htorn Hrec Hb. destruct (roll_ok p b Hok) as [Hok' Hro].
  exact (restart_ok _ _ (appended_row_ok (roll p) b a s (0, 0) Hok' Hro Htorn Hrec Hb)).
Qed.

(** ** Compaction *)

Lemma replay_go_grows fuel pack : forall rest offset ix,
  dom (rows ix) ⊆ dom (rows (replay_go fuel pack rest offset ix)).
Proof.
  induction fuel as [|fuel IH]; intros rest offset ix; [done|]. rewrite replay_go_S. cbv zeta.
  destruct (_ <? _)%nat; [done|]. destruct (_ || _); [done|]. etrans; [|apply IH].
  destruct (rows ix !! _); [done|]. cbn [rows index_record]. rewrite dom_insert_L. set_solver.
Qed.

(** Where every record has a row, replaying adds none. *)
Lemma replay_go_settled fuel pack : forall rest offset ix ix',
  dom (rows (replay_go fuel pack rest offset ix)) ⊆ dom (rows ix') ->
  replay_go fuel pack rest offset ix' = ix'.
Proof.
  induction fuel as [|fuel IH]; intros rest offset ix ix'; [done|]. rewrite !replay_go_S. cbv zeta.
  destruct (_ <? _)%nat; [done|]. destruct (_ || _); [done|]. intros Hd.
  set (a := of_be_bytes (take 32 rest)) in *.
  assert (Ha : is_Some (rows ix' !! a)).
  { apply elem_of_dom, Hd. apply replay_go_grows. apply elem_of_dom.
    destruct (rows ix !! a) eqn:He; [eauto|]. cbn [rows index_record]. rewrite lookup_insert_eq. eauto. }
  destruct Ha as [pl Ha]. rewrite Ha. by eapply IH.
Qed.

Lemma foldl_replay_grows files m l : forall ix,
  dom (rows ix) ⊆ dom (rows (foldl (replay_pack files m) ix l)).
Proof.
  induction l as [|n l IH]; intros ix; [done|]. cbn [foldl]. etrans; [|apply IH]. apply replay_go_grows.
Qed.

Lemma replay_pack_settled files m l : forall ix ix' n,
  dom (rows (foldl (replay_pack files m) ix l)) ⊆ dom (rows ix') -> n ∈ l ->
  replay_pack files m ix' n = ix'.
Proof.
  induction l as [|n l IH]; intros ix ix' n' Hd Hn; [by apply not_elem_of_nil in Hn|]. cbn [foldl] in Hd.
  apply elem_of_cons in Hn as [->|Hn]; [|by eapply IH].
  eapply replay_go_settled. etrans; [apply (foldl_replay_grows files m l)|exact Hd].
Qed.

(** With its rows kept, the loss of a file leaves nothing to replay. *)
Lemma replayed_settled files m ix ix' pack :
  dom (rows (replayed files m ix)) ⊆ dom (rows ix') -> replayed (delete pack files) m ix' = ix'.
Proof.
  intros Hd. unfold replayed at 1.
  assert (Hl : forall n, n ∈ packs_from (delete pack files) m -> n ∈ packs_from files m /\ files !! n = delete pack files !! n).
  { intros n Hn. apply list_elem_of_filter in Hn as [Hn1 Hn2]. apply elem_of_btree_keys in Hn2 as [x Hx].
    rewrite lookup_delete in Hx |- *. case_decide; [done|]. split; [|done].
    apply list_elem_of_filter. split; [done|]. apply elem_of_btree_keys. eauto. }
  revert Hl. generalize (packs_from (delete pack files) m). intros l.
  induction l as [|n l IH]; intros Hl; [done|]. cbn [foldl].
  destruct (Hl n (list_elem_of_here _ _)) as [Hin He].
  rewrite <- (replay_pack_ext _ _ _ _ _ He). unfold replayed in Hd. rewrite (replay_pack_settled _ _ _ _ _ _ Hd Hin).
  apply IH. intros k Hk. apply Hl. by right.
Qed.

Lemma roll_current p : (pk_current p).1 <= (pk_current (roll p)).1.
Proof. unfold roll. destruct (_ <=? _); cbn [pk_current fst]; lia. Qed.

Lemma roll_index p : pk_index (roll p) = pk_index p.
Proof. unfold roll. by destruct (_ <=? _). Qed.

(** A copied record has its row on the copy, and nothing else has moved. *)
Lemma relocate_ok p b a s from pl :
  pack_ok p b -> rows (pk_index p) !! a = Some pl -> pl_pack pl = from -> b !! a = Some s ->
  let p' := relocate a from s p in
  pack_ok p' b /\ (pk_current p).1 <= (pk_current p').1 /\ is_Some (pk_files p' !! (pk_current p').1)
  /\ exists pl', pl_pack pl' = (pk_current p').1 /\ rows (pk_index p') = <[a := pl']> (rows (pk_index p)).
Proof.
  intros Hok Hrow Hfrom Hb p'.
  assert (Hrec : rec_ok (a, s)).
  { pose proof (ok_rows p b Hok a) as Ha. rewrite Hrow, Hb in Ha. apply Ha. }
  destruct (roll_ok p b Hok) as [Hok' Hro]. pose proof (roll_current p) as Hcur. rewrite <- (roll_index p) in Hrow |- *.
  unfold p', relocate. clear p'. cbv zeta. revert Hok' Hro Hcur Hrow. generalize (roll p). intros q Hokq Hro Hcur Hrow.
  set (pl' := mkPlace (pk_current q).1 (append_at q + N.of_nat RECORD_HEADER) (N.of_nat (length s))).
  set (ix := mkPackIndex (rows (pk_index q)) (by_pack (pk_index q) ∖ {[(from, a)]})
               (<[from := sat_sub (default 0 (live (pk_index q) !! from)) (N.of_nat (length s))]> (live (pk_index q)))
               (mark (pk_index q))).
  assert (Hr : rows_ok (extended (pk_files q) (pk_current q).1 (record a s)) (index_record ix a pl') (<[a := s]> b)).
  { apply rows_index_record; [apply rows_extended, Hokq|]. unfold pl'. rewrite append_at_length by done. by apply holds_appended. }
  assert (Hm : members_ok (index_record ix a pl')).
  { intros n a'. unfold index_record, ix. cbn [rows by_pack]. pose proof (ok_members q b Hokq n a') as Hna.
    rewrite elem_of_union, elem_of_difference, !elem_of_singleton, Hna. destruct (decide (a = a')) as [<-|Hne].
    - rewrite lookup_insert_eq, Hrow. naive_solver.
    - rewrite lookup_insert_ne by done. naive_solver. }
  pose proof (append_durable_ok q b a s _ (0, 0) Hokq Hro Hrec Hr Hm) as Hfin. rewrite (insert_id b a s Hb) in Hfin.
  split_and!.
  - exact Hfin.
  - exact Hcur.
  - cbn. rewrite lookup_insert_eq. eauto.
  - exists pl'. split; reflexivity.
Qed.

Definition file_open (p : Packs) : Prop := is_Some (pk_files p !! (pk_current p).1).

(** Every chunk of a closed pack moves out of it. *)
Lemma compact_members_ok pack b l : forall p,
  pack_ok p b -> NoDup l -> pack < (pk_current p).1 -> file_open p ->
  (forall a, a ∈ l -> exists pl, rows (pk_index p) !! a = Some pl /\ pl_pack pl = pack) ->
  let p' := foldl (compact_member pack) p l in
  pack_ok p' b /\ (pk_current p).1 <= (pk_current p').1 /\ file_open p'
  /\ forall a pl, rows (pk_index p') !! a = Some pl -> pl_pack pl = pack ->
       rows (pk_index p) !! a = Some pl /\ a ∉ l.
Proof.
  induction l as [|a l IH]; intros p Hok Hnd Hlt Hopen Hl p'.
  { split_and!; [done..|]. intros a pl Ha _. split; [exact Ha|apply not_elem_of_nil]. }
  apply NoDup_cons in Hnd as [Hna Hnd]. unfold p'. cbn [foldl]. clear p'.
  destruct (Hl a (list_elem_of_here _ _)) as (pl & Hrow & Hpl).
  destruct (b !! a) as [s|] eqn:Hb; [|apply (absent_ok p b a Hok) in Hb; congruence].
  assert (Hq : compact_member pack p a = relocate a pack s p) by (unfold compact_member; by rewrite (get_ok p b), Hb).
  rewrite Hq. destruct (relocate_ok p b a s pack pl Hok Hrow Hpl Hb) as (Hok' & Hcur & Hopen' & pl' & Hpl' & Hrows).
  destruct (IH (relocate a pack s p)) as (IH1 & IH2 & IH3 & IH4); try done; [lia| |].
  { intros a' Ha'. rewrite Hrows, lookup_insert_ne by (intros ->; done). apply Hl. by right. }
  split_and!; [done|lia|done|]. intros a' pl'' Ha' Hp. destruct (IH4 a' pl'' Ha' Hp) as [Hr Hnl].
  rewrite Hrows in Hr. apply lookup_insert_Some in Hr as [[<- <-]|[Hne Hr]]; [lia|].
  split; [done|]. rewrite not_elem_of_cons. done.
Qed.

Lemma elem_of_members p pack a : a ∈ members p pack <-> (pack, a) ∈ by_pack (pk_index p).
Proof.
  unfold members. rewrite (merge_sort_Permutation N.le), list_elem_of_fmap. split.
  - intros ([n a'] & -> & Hin). apply elem_of_elements, elem_of_filter in Hin as [Hn Hin]. cbn [fst snd] in *. by subst.
  - intros Hin. exists (pack, a). split; [done|]. by apply elem_of_elements, elem_of_filter.
Qed.

Lemma NoDup_members p pack : NoDup (members p pack).
Proof.
  unfold members. rewrite (merge_sort_Permutation N.le). apply NoDup_fmap_2_strong; [|apply NoDup_elements].
  intros [n a] [n' a'] Hx Hy. apply elem_of_elements, elem_of_filter in Hx as [Hx _].
  apply elem_of_elements, elem_of_filter in Hy as [Hy _]. cbn [fst snd] in *. congruence.
Qed.

(** A file no row names can go. *)
Lemma drop_pack_ok p b pack lv pend :
  pack_ok p b -> pack < (pk_current p).1 -> file_open p ->
  (forall a pl, rows (pk_index p) !! a = Some pl -> pl_pack pl <> pack) ->
  let ix := mkPackIndex (rows (pk_index p)) (by_pack (pk_index p)) lv (mark (pk_index p)) in
  pack_ok (mkPacks (delete pack (pk_files p)) ix ix (pk_current p) pend) b.
Proof.
  intros [Hr Hm Hw Ht Ho Hrep] Hlt Hopen Hno ix.
  assert (Hmk : mark_of ix = mark_of (pk_durable p)) by (unfold mark_of, ix; cbn [mark]; by rewrite <- Hrep, mark_replayed).
  assert (Hpb : pack_bytes (delete pack (pk_files p)) (pk_current p).1 = pack_bytes (pk_files p) (pk_current p).1)
    by (unfold pack_bytes; by rewrite lookup_delete_ne by lia).
  split; cbn [pk_files pk_index pk_durable pk_current]; rewrite ?Hmk.
  - intros a. specialize (Hr a). unfold ix. cbn [rows].
    destruct (rows (pk_index p) !! a) as [pl|] eqn:Ha, (b !! a) as [s|]; try done.
    destruct Hr as (H1 & H2 & pre & post & Hf & H3). split_and!; [done..|]. exists pre, post.
    rewrite lookup_delete_ne; [done|]. intros Heq. by apply (Hno a pl).
  - exact Hm.
  - intros n x Hn. rewrite lookup_delete in Hn. case_decide; [done|]. by eapply Hw.
  - unfold tail_ok. by rewrite Hpb.
  - left. rewrite lookup_delete_ne by lia. exact Hopen.
  - apply (replayed_settled _ _ (pk_durable p)). by rewrite Hrep.
Qed.

Lemma compact_pack_ok limit acc b pack :
  pack_ok acc.2 b -> limit <= (pk_current acc.2).1 -> file_open acc.2 ->
  let acc' := compact_pack limit acc pack in
  pack_ok acc'.2 b /\ limit <= (pk_current acc'.2).1 /\ file_open acc'.2.
Proof.
  destruct acc as [freed p]. cbn [snd]. intros Hok Hlim Hopen. unfold compact_pack. cbv zeta.
  destruct (limit <=? pack) eqn:Hp; [done|]. apply N.leb_gt in Hp.
  destruct (_ <=? sat_mul _ _); [done|].
  destruct (compact_members_ok pack b (members p pack) p) as (Hok' & Hcur & Hopen' & Hgone); try done; [apply NoDup_members|lia| |].
  { intros a Ha. apply elem_of_members in Ha. by apply (ok_members p b Hok). }
  set (q := foldl (compact_member pack) p (members p pack)) in *.
  destruct (members q pack) as [|a l] eqn:Hmem; [|split_and!; [done|cbn [snd]; lia|done]]. cbn [snd].
  split_and!; [|cbn [pk_current commit]; lia|].
  - apply (drop_pack_ok q b pack); try done; [lia|]. intros a pl Ha Hpl. destruct (Hgone a pl Ha Hpl) as [Hr Hn].
    apply Hn, elem_of_members, (ok_members p b Hok). eauto.
  - unfold file_open. cbn [pk_files pk_current commit]. rewrite lookup_delete_ne by lia. exact Hopen'.
Qed.

Lemma compact_ok p b : pack_ok p b -> file_open p -> pack_ok (compact p).2 b.
Proof.
  intros Hok Hopen. unfold compact. set (limit := (pk_current p).1).
  assert (Hgen : forall l acc, pack_ok acc.2 b -> limit <= (pk_current acc.2).1 -> file_open acc.2 ->
                   pack_ok (foldl (compact_pack limit) acc l).2 b).
  { induction l as [|n l IH]; intros acc H1 H2 H3; [done|]. cbn [foldl].
    destruct (compact_pack_ok limit acc b n H1 H2 H3) as (? & ? & ?). by apply IH. }
  apply Hgen; [done|cbn [snd]; unfold limit; lia|done].
Qed.

Lemma no_packs_ok : pack_ok (open ∅ empty_pack_index) ∅.
Proof.
  apply (durable_ok ∅ empty_pack_index ∅ (1, 0) (1, 0)); try done.
  - intros n a. cbn. set_solver.
  - right. split; [done|]. by left.
Qed.
