(* ===== verification/PackRuns.v ===== *)
(** * PackRuns: the packs answer as a map does

    Runs of the operations of [Pack], with failed writes, restarts and a machine
    that stops inside a put, against the map of [Blob]; and what two failed
    writes in a row do. *)

From S2P Require Import Prelude Version Ids Blob Pack PackOk.

(** What is asked of the packs.  [PPut] carries how many bytes got out when the
    write fails; [PCut] is a put whose record reached the disk and whose row did
    not, the machine having stopped. *)
Inductive PackOp :=
  | PPut (address : ChunkId) (sealed : list N) (failed : option nat)
  | PCut (address : ChunkId) (sealed : list N)
  | PGet (address : ChunkId)
  | PContains (address : ChunkId)
  | PSizeOf (address : ChunkId)
  | PRemove (address : ChunkId)
  | PFlush
  | PCompact
  | PRestart.

Inductive PackAnswer :=
  | ADone
  | AFlag (b : bool)
  | APut (r : result StoreError bool)
  | ABytes (o : option (list N))
  | ASize (o : option N).

Definition cut_put (address : ChunkId) (sealed : list N) (p : Packs) : Packs :=
  match put address sealed None p with
  | (Ok true, _) => restart (append (record address sealed) (roll p))
  | (_, p) => restart p
  end.

Definition pack_step (op : PackOp) (p : Packs) : PackAnswer * Packs :=
  match op with
  | PPut a s failed => let '(r, p) := put a s failed p in (APut r, p)
  | PCut a s => (ADone, cut_put a s p)
  | PGet a => let '(o, p) := get a p in (ABytes o, p)
  | PContains a => let '(o, p) := contains a p in (AFlag o, p)
  | PSizeOf a => (ASize (size_of a p), p)
  | PRemove a => let '(o, p) := remove a p in (AFlag o, p)
  | PFlush => (ADone, flush p)
  | PCompact => (ADone, (compact p).2)
  | PRestart => (ADone, restart p)
  end.

(** The same asked of the map: a put too large is refused, one that fails
    changes nothing, one cut short by a stop has happened. *)
Definition map_put (a : ChunkId) (s : list N) (b : gmap ChunkId (list N))
  : result StoreError bool * gmap ChunkId (list N) :=
  if MAX_RECORD <? N.of_nat (length s) then (Err (Corrupt "a chunk too large for a pack record"), b)
  else let '(r, b) := blob_put a s b in (Ok r, b).

Definition map_step (op : PackOp) (b : gmap ChunkId (list N)) : PackAnswer * gmap ChunkId (list N) :=
  match op with
  | PPut a s None => let '(r, b) := map_put a s b in (APut r, b)
  | PPut a s (Some _) =>
      (APut match (map_put a s b).1 with Ok true => Err (Io "pack") | r => r end, b)
  | PCut a s => (ADone, (map_put a s b).2)
  | PGet a => (ABytes (blob_get a b), b)
  | PContains a => (AFlag (blob_contains a b), b)
  | PSizeOf a => (ASize (blob_size_of a b), b)
  | PRemove a => let '(o, b) := blob_remove a b in (AFlag o, b)
  | PFlush | PCompact | PRestart => (ADone, b)
  end.

(** When an operation is one the packs recover from: addresses are 32 bytes; a
    write that stops short does so on whole records, and short of its end; packs
    are compacted when the one being written has its file. *)
Definition recoverable (p : Packs) (op : PackOp) : bool :=
  match op with
  | PPut a s None => a <? 2 ^ 256
  | PPut a s (Some k) => (a <? 2 ^ 256) && (k <? length (record a s))%nat && negb (is_torn (roll p))
  | PCut a s => (a <? 2 ^ 256) && negb (is_torn (roll p))
  | PCompact => bool_decide (is_Some (pk_files p !! (pk_current p).1))
  | _ => true
  end.

Fixpoint pack_run (ops : list PackOp) (p : Packs) : list PackAnswer :=
  match ops with
  | [] => []
  | op :: ops => let '(answer, p) := pack_step op p in answer :: pack_run ops p
  end.

Fixpoint map_run (ops : list PackOp) (b : gmap ChunkId (list N)) : list PackAnswer :=
  match ops with
  | [] => []
  | op :: ops => let '(answer, b) := map_step op b in answer :: map_run ops b
  end.

Fixpoint recoverable_run (ops : list PackOp) (p : Packs) : bool :=
  match ops with
  | [] => true
  | op :: ops => recoverable p op && recoverable_run ops (pack_step op p).2
  end.

Lemma put_too_large a s failed p :
  MAX_RECORD < N.of_nat (length s) -> put a s failed p = (Err (Corrupt "a chunk too large for a pack record"), p).
Proof. intros Hs. unfold put. by rewrite (proj2 (N.ltb_lt _ _)). Qed.

Lemma put_held a s p b failed :
  pack_ok p b -> rec_ok (a, s) -> is_Some (b !! a) -> put a s failed p = (Ok false, p).
Proof.
  intros Hok [_ Hs] [x Hx]. unfold put. cbn [snd] in Hs. rewrite (proj2 (N.ltb_ge _ _)) by done.
  rewrite (place_ok p b) by done. destruct (rows (pk_index p) !! a) eqn:Hr; [done|].
  apply (absent_ok p b a Hok) in Hr. congruence.
Qed.

Lemma size_of_ok p b a : pack_ok p b -> size_of a p = blob_size_of a b.
Proof.
  intros Hok. unfold size_of, blob_size_of. rewrite (place_ok p b) by done. pose proof (ok_rows p b Hok a) as Ha.
  destruct (rows (pk_index p) !! a) as [pl|], (b !! a) as [s|]; try done. simpl. f_equal. apply Ha.
Qed.

(** Each answer is the map's, and the states stay in step. *)
Definition agrees (x : PackAnswer * Packs) (y : PackAnswer * gmap ChunkId (list N)) : Prop :=
  x.1 = y.1 /\ pack_ok x.2 y.2.

Lemma put_agrees p b a s failed :
  pack_ok p b -> recoverable p (PPut a s failed) = true ->
  agrees (pack_step (PPut a s failed) p) (map_step (PPut a s failed) b).
Proof.
  intros Hok Hrec. assert (Ha : is_id a).
  { unfold is_id. apply N.ltb_lt. cbn in Hrec. destruct failed; [|done]. by do 2 apply andb_true_iff in Hrec as [Hrec _]. }
  unfold agrees, pack_step, map_step, map_put.
  destruct (MAX_RECORD <? N.of_nat (length s)) eqn:Hs.
  { apply N.ltb_lt in Hs. rewrite put_too_large by done. by destruct failed. }
  apply N.ltb_ge in Hs. assert (Hr : rec_ok (a, s)) by done. destruct failed as [k|].
  - unfold recoverable in Hrec. apply andb_true_iff in Hrec as [Hrec Ht]. apply andb_true_iff in Hrec as [_ Hk].
    apply Nat.ltb_lt in Hk. apply negb_true_iff in Ht. unfold blob_put. destruct (b !! a) as [x|] eqn:Hb.
    + rewrite (put_held a s p b) by eauto. done.
    + destruct (failed_put_ok p b a s k Hok Ht Hr Hk Hb) as [H1 H2].
      destruct (put a s (Some k) p) as [r p']. cbn [fst snd] in *. by subst r.
  - destruct (put_ok p b a s Hok Hr) as [H1 H2].
    destruct (put a s None p) as [r p'], (blob_put a s b) as [r' b']. cbn [fst snd] in *. by subst r.
Qed.

Lemma cut_agrees p b a s :
  pack_ok p b -> recoverable p (PCut a s) = true -> pack_ok (cut_put a s p) (map_put a s b).2.
Proof.
  intros Hok Hrec. unfold recoverable in Hrec. apply andb_true_iff in Hrec as [Ha Ht].
  apply N.ltb_lt in Ha. apply negb_true_iff in Ht. unfold cut_put, map_put.
  destruct (MAX_RECORD <? N.of_nat (length s)) eqn:Hs.
  { apply N.ltb_lt in Hs. rewrite put_too_large by done. by apply restart_ok. }
  apply N.ltb_ge in Hs. assert (Hr : rec_ok (a, s)) by done. unfold blob_put. destruct (b !! a) as [x|] eqn:Hb.
  - rewrite (put_held a s p b) by eauto. by apply restart_ok.
  - destruct (put_ok p b a s Hok Hr) as [H1 _]. unfold blob_put in H1. rewrite Hb in H1.
    destruct (put a s None p) as [r p']. cbn [fst snd] in *. subst r. by apply cut_put_ok.
Qed.

Lemma step_agrees p b op :
  pack_ok p b -> recoverable p op = true -> agrees (pack_step op p) (map_step op b).
Proof.
  intros Hok Hrec. destruct op as [a s failed|a s|a|a|a|a| | |]; [by apply put_agrees|..]; unfold agrees, pack_step, map_step.
  - split; [done|]. by apply cut_agrees.
  - by rewrite (get_ok p b).
  - by rewrite (contains_ok p b).
  - by rewrite (size_of_ok p b).
  - destruct (remove_ok p b a Hok) as [H1 H2]. unfold blob_remove. destruct (remove a p). cbn [fst snd] in *. by subst.
  - split; [done|]. by apply flush_ok.
  - split; [done|]. cbn [snd]. apply compact_ok; [done|]. by apply bool_decide_eq_true in Hrec.
  - split; [done|]. by apply restart_ok.
Qed.

Lemma packs_refine_runs ops p b : pack_ok p b -> recoverable_run ops p = true -> pack_run ops p = map_run ops b.
Proof.
  revert p b. induction ops as [|op ops IH]; intros p b Hok Hrun; [done|]. cbn [recoverable_run] in Hrun.
  apply andb_true_iff in Hrun as [Hop Hrun]. destruct (step_agrees p b op Hok Hop) as [H1 H2].
  cbn [pack_run map_run]. destruct (pack_step op p) as [x p'], (map_step op b) as [y b']. cbn [fst snd] in *. subst y.
  f_equal. by apply IH.
Qed.


Module Day.

Definition ops : list PackOp :=
  [ PPut 5 [1; 2; 3] None; PPut 6 [4; 5] (Some 37%nat); PGet 6; PPut 6 [4; 5] None; PPut 7 [6] None; PRestart;
    PGet 5; PRemove 5; PCut 8 [7; 7]; PGet 8; PContains 5; PPut 8 [7; 7] None; PCompact; PFlush; PSizeOf 7;
    PPut 5 [1; 2; 3] None; PGet 5 ].

End Day.


(** ** Two failed writes in a row *)

(** Where a run leaves the packs, and the map. *)
Definition packs_after (ops : list PackOp) (p : Packs) : Packs := foldl (fun p op => (pack_step op p).2) p ops.
Definition map_after (ops : list PackOp) (b : gmap ChunkId (list N)) : gmap ChunkId (list N) :=
  foldl (fun b op => (map_step op b).2) b ops.

Lemma packs_after_ok ops p b :
  pack_ok p b -> recoverable_run ops p = true -> pack_ok (packs_after ops p) (map_after ops b).
Proof.
  revert p b. induction ops as [|op ops IH]; intros p b Hok Hr; [done|]. apply andb_true_iff in Hr as [H1 H2].
  apply IH; [|exact H2]. by apply step_agrees.
Qed.

Lemma pack_run_app ops ops' p : pack_run (ops ++ ops') p = pack_run ops p ++ pack_run ops' (packs_after ops p).
Proof. revert p. induction ops as [|op ops IH]; intros p; cbn; [done|]. destruct (pack_step op p) as [a p']. cbn. by rewrite IH. Qed.

(** The bytes of the second write stand where the first one's should. *)
Definition spliced (s : list N) (k : nat) (a' : ChunkId) (s' : list N) (k' : nat) : list N :=
  take (k - RECORD_HEADER) s ++ take k' (record a' s').

Lemma record_spliced a s k a' s' k' :
  (RECORD_HEADER <= k)%nat -> (k' <= length (record a' s'))%nat -> (k + k' = length (record a s))%nat ->
  take k (record a s) ++ take k' (record a' s') = record a (spliced s k a' s' k')
  /\ length (spliced s k a' s' k') = length s.
Proof.
  intros Hk Hk' E. rewrite length_record in E. pose proof (length_record a' s') as E'.
  assert (Hl : length (spliced s k a' s' k') = length s) by (unfold spliced; rewrite length_app, !length_take; lia).
  split; [|done]. unfold record at 1 3. rewrite Hl. rewrite !app_assoc, take_app_ge; rewrite !length_app, length_as_bytes, length_le_bytes; [|done].
  unfold spliced, RECORD_HEADER. by rewrite <- !app_assoc.
Qed.

Lemma roll_append x p : roll (append x (roll p)) = append x (roll p).
Proof.
  unfold roll at 2 3. destruct (PACK_TARGET <=? (pk_current p).2) eqn:E; unfold roll, append; cbn [pk_current snd]; [done|]. by rewrite E.
Qed.

Lemma append_append x y p : append y (append x p) = append (x ++ y) p.
Proof.
  unfold append. cbn [pk_files pk_current pk_index pk_durable pk_pending fst]. f_equal. rewrite insert_insert_eq.
  unfold pack_bytes. rewrite lookup_insert_eq. cbn. by rewrite app_assoc.
Qed.

Lemma failed_put_appends a s k p b :
  pack_ok p b -> rec_ok (a, s) -> b !! a = None -> put a s (Some k) p = (Err (Io "pack"), append (take k (record a s)) (roll p)).
Proof.
  intros Hok [_ Hs] Hb. unfold put. cbn [snd] in Hs. rewrite (proj2 (N.ltb_ge _ _)) by done. rewrite (place_ok p b) by done.
  by rewrite (proj2 (absent_ok p b a Hok) Hb).
Qed.

(** C38. Two writes that fail in a row can leave a chunk nobody stored.  After any run
    the packs recover from that left no torn end, let a put of a new chunk stop
    inside its bytes, and the next put, of another new chunk, stop just where the
    first record would have ended.  The second failure's bytes complete the record
    the first one began, so the replay at the next open gives it a row: the
    address then reads as a splice of the two, which were never put under it when
    they differ from what the first put left out; [contains] believes it, and
    putting the true bytes again is answered "already there". *)
Theorem two_failed_writes_invent_a_chunk ops a s k a' s' k' :
  let start := open ∅ empty_pack_index in
  recoverable_run ops start = true -> is_torn (roll (packs_after ops start)) = false ->
  rec_ok (a, s) -> rec_ok (a', s') -> map_after ops ∅ !! a = None -> map_after ops ∅ !! a' = None ->
  (RECORD_HEADER <= k)%nat -> (0 < k' <= length (record a' s'))%nat -> (k + k' = length (record a s))%nat ->
  take k' (record a' s') <> drop (k - RECORD_HEADER) s ->
  spliced s k a' s' k' <> s
  /\ pack_run (ops ++ [PPut a s (Some k); PPut a' s' (Some k'); PRestart; PGet a; PContains a; PPut a s None; PGet a]) start
     = map_run ops ∅ ++ [APut (Err (Io "pack")); APut (Err (Io "pack")); ADone; ABytes (Some (spliced s k a' s' k')); AFlag true;
                         APut (Ok false); ABytes (Some (spliced s k a' s' k'))].
Proof.
  intros start Hrun Htorn Hrec Hrec' Hb Hb' Hk Hk' Elen Hdiff.
  assert (Hs : spliced s k a' s' k' <> s).
  { intros E. apply Hdiff. rewrite <- E at 1. unfold spliced. rewrite drop_app_length'; [done|].
    rewrite length_record in Elen. rewrite length_take. lia. }
  split; [done|]. rewrite pack_run_app, (packs_refine_runs ops start ∅) by (done || apply no_packs_ok). f_equal.
  pose proof (packs_after_ok ops start ∅ no_packs_ok Hrun) as Hok. set (p := packs_after ops start) in *. set (b := map_after ops ∅) in *.
  pose proof (failed_put_ok p b a s k Hok Htorn Hrec ltac:(lia) Hb) as [_ Hok1].
  destruct (record_spliced a s k a' s' k' Hk ltac:(lia) Elen) as [Erec Elen'].
  cbn [pack_run pack_step]. rewrite (failed_put_appends a s k p b) in * by done. cbn [fst snd] in Hok1 |- *.
  rewrite (failed_put_appends a' s' k' _ b) by done. cbn [fst snd]. rewrite roll_append, append_append, Erec.
  assert (Hfake : rec_ok (a, spliced s k a' s' k')) by (destruct Hrec as [H1 H2]; split; [done|cbn [snd] in *; by rewrite Elen']).
  pose proof (cut_put_ok p b a _ Hok Htorn Hfake Hb) as Hq. set (q := restart _) in *.
  rewrite (get_ok q _ a Hq), (contains_ok q _ a Hq). rewrite (put_held a s q _ None Hq Hrec) by (rewrite lookup_insert_eq; eauto).
  rewrite (get_ok q _ a Hq), lookup_insert_eq. unfold blob_contains. by rewrite lookup_insert_eq.
Qed.

Lemma two_failed_writes_invent_a_chunk_witness :
  spliced [1; 2; 3; 4] 37 6 [9; 9; 9; 9] 3 = [1; 0; 0; 0]
  /\ pack_run ([] ++ [PPut 5 [1; 2; 3; 4] (Some 37%nat); PPut 6 [9; 9; 9; 9] (Some 3%nat); PRestart; PGet 5; PContains 5;
                      PPut 5 [1; 2; 3; 4] None; PGet 5]) (open ∅ empty_pack_index)
     = [APut (Err (Io "pack")); APut (Err (Io "pack")); ADone; ABytes (Some (spliced [1; 2; 3; 4] 37 6 [9; 9; 9; 9] 3)); AFlag true;
        APut (Ok false); ABytes (Some (spliced [1; 2; 3; 4] 37 6 [9; 9; 9; 9] 3))].
Proof.
  split; [vm_compute; reflexivity|].
  refine (proj2 (two_failed_writes_invent_a_chunk [] 5 [1; 2; 3; 4] 37 6 [9; 9; 9; 9] 3 _ _ _ _ _ _ _ _ _ _));
    first [reflexivity | (split; vm_compute; congruence) | (vm_compute; reflexivity) | (vm_compute; discriminate) | (vm_compute; lia)].
Defined.
