(* ===== verification/Evidence.v ===== *)
(** * Evidence: what the ledger's readers and sanctions guarantee

    Theorems about the operations of [Ledger], [Files] and [ShortQueue] that
    decide something: the sanction on a host that fails audits, the drain a
    departing host may ask for, the release of a copy, the chunks reported at
    risk, the questions an audit asks, and the pages a sweep reads. *)

From S2P Require Import Prelude Version Ids Path Crypto Oplog IndexState ShortQueue Files Log.
From S2P Require Import Ledger.

(** ** Reliability *)

Definition audit_outcome (r : Reliability) (o : bool * N) : Reliability :=
  if o.1 then passed_one r else failed_one o.2 r.

Definition audit_run (r : Reliability) (l : list (bool * N)) : Reliability :=
  foldl audit_outcome r l.

Definition sanction_ok (r : Reliability) : Prop :=
  consecutive_failures r <= PROBATION_CEILING
  /\ (paused r = true -> 0 < consecutive_failures r)
  /\ (FAILURES_BEFORE_PAUSE <= consecutive_failures r -> paused r = true).

Lemma audit_outcome_ok r o : sanction_ok r -> sanction_ok (audit_outcome r o).
Proof.
  unfold sanction_ok, PROBATION_CEILING, FAILURES_BEFORE_PAUSE. intros (H1 & H2 & H3).
  destruct o as [[] now]; unfold audit_outcome; cbn [fst snd].
  - unfold passed_one. cbn [consecutive_failures paused].
    destruct (N.eqb_spec (consecutive_failures r - 1) 0); split_and!; intros; try done; try lia.
    apply H3. lia.
  - unfold failed_one, PROBATION_CEILING, FAILURES_BEFORE_PAUSE, u32_max.
    cbn [consecutive_failures paused].
    destruct (N.ltb_spec (3 + 32) (N.min (consecutive_failures r + 1) (2 ^ 32 - 1)));
      case_match; nbool; split_and!; intros; try done; try lia.
Qed.

Lemma audit_run_ok r l : sanction_ok r -> sanction_ok (audit_run r l).
Proof.
  unfold audit_run. revert r. induction l as [|o l IH]; intros r Hr; [done|].
  simpl. by apply IH, audit_outcome_ok.
Qed.

Lemma default_ok : sanction_ok Reliability_default.
Proof. split_and!; vm_compute; congruence. Qed.

Lemma passes_paused n r :
  paused r = true -> N.of_nat n <= consecutive_failures r ->
  let r' := Nat.iter n passed_one r in
  consecutive_failures r' = consecutive_failures r - N.of_nat n
  /\ paused r' = (N.of_nat n <? consecutive_failures r) || (n =? 0)%nat.
Proof.
  intros Hp. induction n as [|n IH]; intros Hn; cbn [Nat.iter nat_rect].
  - rewrite orb_true_r. split; [simpl; lia|done].
  - destruct IH as [E1 E2]; [lia|]. cbn zeta in *.
    change (Nat.iter n passed_one r) with
      (nat_rect (fun _ => Reliability) r (fun _ => passed_one) n) in *.
    set (r1 := nat_rect (fun _ => Reliability) r (fun _ => passed_one) n) in *.
    unfold passed_one. cbn [consecutive_failures paused]. rewrite E1, E2.
    rewrite orb_false_r. split; [lia|].
    destruct (N.eqb_spec (consecutive_failures r - N.of_nat n - 1) 0) as [E|E].
    + symmetry. apply N.ltb_ge. lia.
    + rewrite (proj2 (N.ltb_lt (N.of_nat n) (consecutive_failures r))) by lia.
      symmetry. apply N.ltb_lt. lia.
Qed.

(** The sanction on a host that fails audits.  Whatever the history: the
    debt is bounded, so probation never becomes a ban; a host is paused only
    while it owes answers, and always once it owes three; from any state three
    failures in a row pause it; and a paused host comes back after exactly as
    many answered rounds in a row as it owes, never after fewer. *)
Theorem sanction_is_proportionate (l : list (bool * N)) (r : Reliability) (t1 t2 t3 : N) (n : nat) :
  sanction_ok (audit_run Reliability_default l)
  /\ (sanction_ok r -> paused (failed_one t3 (failed_one t2 (failed_one t1 r))) = true)
  /\ (paused r = true -> 0 < consecutive_failures r ->
      N.of_nat n <= consecutive_failures r ->
      paused (Nat.iter n passed_one r) = true <-> N.of_nat n < rounds_to_reinstatement r).
Proof.
  split_and!; [apply audit_run_ok, default_ok| |].
  - intros Hr. pose proof (audit_run_ok r [(false, t1); (false, t2); (false, t3)] Hr) as (_ & _ & H3).
    apply H3. clear H3. destruct Hr as (Hc & _ & _).
    unfold audit_run. cbn [foldl audit_outcome fst snd].
    unfold failed_one, PROBATION_CEILING, FAILURES_BEFORE_PAUSE, u32_max in *.
    cbn [consecutive_failures]. repeat case_match; nbool; lia.
  - intros Hp Hc Hn. destruct (passes_paused n r Hp Hn) as [_ ->].
    unfold rounds_to_reinstatement. rewrite Hp.
    destruct n as [|n]; simpl; [rewrite orb_true_r; split; [lia|done]|].
    rewrite orb_false_r. apply N.ltb_lt.
Qed.

Lemma sanction_is_proportionate_witness :
  let r := failed_one 3 (failed_one 2 (failed_one 1 Reliability_default)) in
  paused r = true /\ paused (Nat.iter 2 passed_one r) = true.
Proof.
  cbn zeta. split.
  - apply (sanction_is_proportionate [] Reliability_default 1 2 3 0). apply default_ok.
  - apply (sanction_is_proportionate []
             (failed_one 3 (failed_one 2 (failed_one 1 Reliability_default))) 1 2 3 2);
      vm_compute; congruence.
Defined.

(** ** Draining *)

Lemma note_draining_granted device until now ix :
  (note_draining device until now ix).1 = true ->
  0 < held_by_device device (led ix)
  /\ (forall ends, draining_until (led ix) !! device = Some ends -> sat_add ends MAX_DRAIN <= now)
  /\ draining_until (led (note_draining device until now ix).2)
     = <[device := N.min until (sat_add now MAX_DRAIN)]> (draining_until (led ix)).
Proof.
  unfold note_draining. destruct (_ || _) eqn:E; [done|]. intros _.
  apply orb_false_iff in E as [E1 E2]. apply negb_false_iff in E1. nbool.
  split_and!; [done| |done]. intros ends He. rewrite He in E2. by nbool.
Qed.

(** A drain is granted only to a device recorded as holding something, it
    ends within [MAX_DRAIN] of the grant whatever was asked, no other device's
    standing changes, and no second grant is given until as long again has
    passed since it ended; a refusal changes nothing. *)
Theorem drain_is_bounded (device : DeviceId) (until now : N) (ix : Index) :
  now + 2 * MAX_DRAIN <= u64_max ->
  let ix' := (note_draining device until now ix).2 in
  ((note_draining device until now ix).1 = false -> ix' = ix)
  /\ ((note_draining device until now ix).1 = true ->
      0 < held_by_device device (led ix)
      /\ (forall t, now + MAX_DRAIN <= t -> draining_in device t (led ix') = false)
      /\ (forall d t, d <> device -> draining_in d t (led ix') = draining_in d t (led ix))
      /\ (forall until' now', (note_draining device until' now' ix').1 = true ->
          N.min until (now + MAX_DRAIN) + MAX_DRAIN <= now')).
Proof.
  intros Hfit ix'. split.
  { subst ix'. unfold note_draining. by destruct (_ || _). }
  intros Hg. destruct (note_draining_granted device until now ix Hg) as (Hh & _ & E).
  fold ix' in E. rewrite sat_add_exact in E by (unfold MAX_DRAIN in *; lia).
  split_and!; [done| | |].
  - intros t Ht. unfold draining_in. rewrite E, lookup_insert_eq. apply N.ltb_ge. lia.
  - intros d t Hne. unfold draining_in. by rewrite E, lookup_insert_ne.
  - intros until' now' Hg'. destruct (note_draining_granted _ _ _ _ Hg') as (_ & Hc & _).
    rewrite E in Hc. specialize (Hc _ (lookup_insert_eq _ _ _)).
    rewrite sat_add_exact in Hc; [done|]. unfold MAX_DRAIN in *. lia.
Qed.

(** ** Released copies *)

Section records.
Context `{!Primitives} (audit_key : list N).

Lemma add_holders_lookup device now due l c d :
  holders (foldl (add_holder audit_key device now) l due) !! (c, d)
  = if bool_decide (d = device /\ c ∈ due) then Some now else holders l !! (c, d).
Proof.
  revert l. induction due as [|x due IH]; intros l; simpl.
  { rewrite bool_decide_eq_false_2; [done|]. set_solver. }
  rewrite IH. destruct (decide (d = device /\ c ∈ due)) as [[-> Hc]|Hn].
  - rewrite !bool_decide_eq_true_2; [done|set_solver|set_solver].
  - rewrite (bool_decide_eq_false_2 (d = device /\ c ∈ due)) by done.
    cbn [add_holder set_holders holders].
    destruct (decide ((x, device) = (c, d))) as [[= -> ->]|Hne].
    + rewrite lookup_insert_eq. rewrite bool_decide_eq_true_2; [done|set_solver].
    + rewrite lookup_insert_ne by done. rewrite bool_decide_eq_false_2; [done|].
      rewrite elem_of_cons. naive_solver.
Qed.

Lemma record_due_lookup due device now l c d :
  holders (record_due audit_key due device now l) !! (c, d)
  = if bool_decide (d = device /\ c ∈ due) then Some now else holders l !! (c, d).
Proof.
  unfold record_due. destruct (_ && _) eqn:E.
  - apply andb_true_iff in E as [E _]. apply bool_decide_eq_true_1 in E as ->.
    rewrite bool_decide_eq_false_2; [done|set_solver].
  - apply (add_holders_lookup device now due (set_device_seen _ l)).
Qed.

(** What recording an acknowledgement does to each record. *)
Lemma record_holders_lookup chunks device now l c d :
  holders (record_holders audit_key chunks device now l) !! (c, d)
  = if bool_decide (d = device /\ c ∈ chunks /\ fresh_record device now l c = false
                    /\ recently_released device now l c = false)
    then Some now else holders l !! (c, d).
Proof.
  unfold record_holders. destruct chunks as [|x chunks].
  { rewrite bool_decide_eq_false_2; [done|set_solver]. }
  rewrite record_due_lookup. apply if_decide_ext.
  unfold not_released, without_fresh_record. rewrite !list_elem_of_filter. tauto.
Qed.

Lemma clear_released_lookup chunks device l c d :
  released (clear_released chunks device l) !! (c, d)
  = if bool_decide (d = device /\ c ∈ chunks) then None else released l !! (c, d).
Proof.
  unfold clear_released. destruct (existsb _ _) eqn:E.
  - cbn [set_released released]. rewrite (foldl_delete_lookup (fun c => (c, device))).
    apply if_decide_ext. rewrite list_elem_of_fmap. naive_solver.
  - case_bool_decide as Hb; [|done]. destruct Hb as [-> Hc].
    destruct (released l !! (c, device)) eqn:Hr; [|done].
    rewrite <- not_true_iff_false in E. destruct E. apply existsb_exists.
    exists c. split; [by apply list_elem_of_In|]. apply bool_decide_eq_true_2. eauto.
Qed.

(** A copy this node released is not taken back on the host's word: for
    [CONFIRMED_FOR] after the release, recording an acknowledgement leaves the
    record of that copy as it was, while a copy the host has just accepted
    again ends the release and is stamped.  Acknowledgements never touch the
    records of another device or chunk, and a fresh record is not rewritten. *)
Theorem released_copy_stays_released (chunks : list ChunkId) (device : DeviceId) (now : N)
  (l : Ledger) (c : ChunkId) (at_ : N) :
  released l !! (c, device) = Some at_ -> now < at_ + CONFIRMED_FOR ->
  holders (record_holders audit_key chunks device now l) !! (c, device) = holders l !! (c, device)
  /\ (c ∈ chunks ->
      released (record_stored audit_key chunks device now l) !! (c, device) = None
      /\ (fresh_record device now l c = false ->
          holders (record_stored audit_key chunks device now l) !! (c, device) = Some now))
  /\ (forall c' d', d' <> device \/ c' ∉ chunks \/ fresh_record device now l c' = true ->
      holders (record_holders audit_key chunks device now l) !! (c', d') = holders l !! (c', d')).
Proof.
  intros Hr Hlt. split_and!.
  - rewrite record_holders_lookup, bool_decide_eq_false_2; [done|].
    intros (_ & _ & _ & Hn). unfold recently_released in Hn. rewrite Hr in Hn. nbool.
    unfold CONFIRMED_FOR in *. lia.
  - intros Hc. destruct chunks as [|x chunks]; [by apply not_elem_of_nil in Hc|].
    cbn [record_stored].
    set (l1 := clear_released (x :: chunks) device l).
    destruct (clear_released_tables (x :: chunks) device l) as (Eh & _). fold l1 in Eh.
    assert (Erel : forall due, released (record_due audit_key due device now l1) = released l1).
    { intros due. unfold record_due. destruct (_ && _); [done|].
      assert (Hg : forall l2, released (foldl (add_holder audit_key device now) l2 due) = released l2).
      { induction due as [|y due IH]; intros l2; [done|]. simpl. by rewrite IH. }
      by rewrite Hg. }
    split.
    + rewrite Erel. subst l1. rewrite clear_released_lookup.
      by rewrite bool_decide_eq_true_2.
    + intros Hf. rewrite record_due_lookup, bool_decide_eq_true_2; [done|].
      split; [done|]. unfold without_fresh_record. apply list_elem_of_filter.
      split; [|done]. unfold fresh_record in *. by rewrite Eh.
  - intros c' d' Hout. rewrite record_holders_lookup, bool_decide_eq_false_2; [done|].
    intros (-> & Hc' & Hf & _). destruct Hout as [Hx|[Hx|Hx]]; congruence || done.
Qed.

End records.

Import Toy.

Definition drain_ledger : Ledger :=
  note_released [1] 7 50 (record_holders [] [1; 2] 7 10 (led empty_index)).

Lemma drain_is_bounded_witness :
  let ix := on_led (fun _ => drain_ledger) empty_index in
  (note_draining 7 1000000 100 ix).1 = true
  /\ draining_in 7 (100 + MAX_DRAIN) (led (note_draining 7 1000000 100 ix).2) = false.
Proof.
  cbn zeta. assert (Hg : (note_draining 7 1000000 100
    (on_led (fun _ => drain_ledger) empty_index)).1 = true) by (vm_compute; reflexivity).
  split; [exact Hg|].
  destruct (drain_is_bounded 7 1000000 100 (on_led (fun _ => drain_ledger) empty_index))
    as [_ Hx]; [vm_compute; congruence|].
  destruct (Hx Hg) as (_ & Ht & _). apply Ht. apply N.le_refl.
Defined.

Lemma released_copy_stays_released_witness :
  holders (record_holders [] [1] 7 400000 drain_ledger) !! (1, 7) = Some 10.
Proof.
  apply (eq_trans (y := holders drain_ledger !! (1, 7))); [|vm_compute; reflexivity].
  refine (proj1 (released_copy_stays_released [] [1] 7 400000 drain_ledger 1 50 _ _));
    vm_compute; reflexivity.
Defined.

(** ** Sweeps read every row once *)

Lemma range_keys {V} start (m : gmap N V) :
  (range_from start m).*1 = filter (fun k => start <= k) (btree_keys m).
Proof.
  unfold range_from, btree_keys. induction (btree_iter m) as [|[k v] l IH]; [done|].
  cbn [fmap list_fmap fst]. rewrite !filter_cons. cbn [fst].
  case_decide; [|exact IH]. cbn [fmap list_fmap fst]. f_equal. exact IH.
Qed.

Lemma keys_strict {V} (m : gmap N V) : StronglySorted N.lt (btree_keys m).
Proof.
  pose proof (StronglySorted_btree_keys m) as Hs. pose proof (NoDup_btree_keys m) as Hn.
  induction Hs as [|k l Hs IH Hall]; constructor.
  - apply IH. by apply NoDup_cons in Hn as [_ ?].
  - apply NoDup_cons in Hn as [Hk _]. apply Forall_forall. intros x Hx.
    rewrite Forall_forall in Hall. specialize (Hall x Hx). simpl in Hall.
    assert (k <> x) by congruence. lia.
Qed.

(** What is left of the rows after [after]. *)
Definition rest_after (after : option N) (keys : list N) : list N :=
  filter (fun k => Some k <> after) (filter (fun k => default 0 after <= k) keys).

Lemma rest_after_None keys : rest_after None keys = keys.
Proof.
  unfold rest_after. induction keys as [|k keys IH]; [done|]. simpl default in *.
  rewrite filter_cons_True by lia. rewrite filter_cons_True by done. by rewrite IH.
Qed.

Lemma rest_after_split pre c post :
  StronglySorted N.lt (pre ++ c :: post) -> rest_after (Some c) (pre ++ c :: post) = post.
Proof.
  intros Hs. unfold rest_after. simpl default. rewrite !filter_app.
  assert (filter (fun k => c <= k) pre = []) as ->.
  { induction pre as [|x pre IH]; [done|]. simpl in Hs.
    apply StronglySorted_inv in Hs as [Hs Hall]. rewrite Forall_forall in Hall.
    specialize (Hall c ltac:(set_solver)). rewrite filter_cons_False by lia. auto. }
  simpl. rewrite filter_cons_True by lia. rewrite filter_cons_False by congruence.
  apply StronglySorted_app_1_r in Hs. apply StronglySorted_inv in Hs as [_ Hall].
  induction post as [|x post IH]; [done|]. apply Forall_cons in Hall as [Hx Hall].
  rewrite filter_cons_True by lia. rewrite filter_cons_True by (intros [= ->]; lia).
  by rewrite IH.
Qed.

(** A caller that follows the cursor until there is none, as the push loop and
    the daemon's disk check do. *)
Fixpoint sweep (fuel : nat) (after : option ChunkId) (limit : nat) (ix : Index) : list ChunkId :=
  match fuel with
  | O => []
  | S fuel' =>
      let '(page, next) := live_chunks_page after limit ix in
      match next with
      | Some c => page ++ sweep fuel' (Some c) limit ix
      | None => page
      end
  end.

Lemma live_chunks_page_rest after limit ix :
  (0 < limit)%nat ->
  live_chunks_page after limit ix
  = let rest := rest_after after (btree_keys (chunk_refs (ft ix))) in
    (take limit rest,
     if (length (take limit rest) =? limit)%nat then last (take limit rest) else None).
Proof.
  intros Hl. unfold live_chunks_page, page_of. rewrite range_keys.
  rewrite (proj2 (Nat.eqb_neq limit 0)) by lia. unfold rest_after, id. cbn zeta.
  by rewrite option_fmap_id.
Qed.

Lemma sweep_from fuel after limit ix pre rest :
  (0 < limit)%nat -> btree_keys (chunk_refs (ft ix)) = pre ++ rest ->
  rest_after after (btree_keys (chunk_refs (ft ix))) = rest -> (length rest < fuel)%nat ->
  sweep fuel after limit ix = rest.
Proof.
  revert after pre rest. induction fuel as [|fuel IH]; intros after pre rest Hl Hk Hr Hf; [lia|].
  cbn [sweep]. rewrite live_chunks_page_rest, Hr by done. cbn zeta.
  destruct (Nat.eqb_spec (length (take limit rest)) limit) as [E|E].
  - destruct (last (take limit rest)) as [c|] eqn:Hc.
    + apply last_Some in Hc as [p Hp].
      assert (Erest : rest = (p ++ [c]) ++ drop limit rest)
        by (by rewrite <- Hp, take_drop).
      rewrite (IH (Some c) (pre ++ p ++ [c]) (drop limit rest)).
      * by rewrite take_drop.
      * done.
      * rewrite Hk. rewrite Erest at 1. by rewrite <- !app_assoc.
      * pose proof (keys_strict (chunk_refs (ft ix))) as Hs. rewrite Hk in Hs |- *.
        rewrite Erest in Hs |- * at 1. rewrite <- (app_assoc p) in Hs |- *. cbn [app] in *.
        rewrite (app_assoc pre p) in Hs |- *. by apply rest_after_split.
      * rewrite length_drop. rewrite length_take in E. lia.
    + apply last_None in Hc. rewrite Hc in E. simpl in E. lia.
  - rewrite length_take in E. apply take_ge. lia.
Qed.

(** C36. A sweep that follows the cursor of [live_chunks_page] ends and returns
    every chunk the index knows exactly once, in order, whatever the page size:
    no chunk is skipped at a page boundary and none is read twice. *)
Theorem sweep_reads_every_chunk_once (fuel limit : nat) (ix : Index) :
  (0 < limit)%nat -> (size (chunk_refs (ft ix)) < fuel)%nat ->
  sweep fuel None limit ix = btree_keys (chunk_refs (ft ix)).
Proof.
  intros Hl Hf. apply (sweep_from _ _ _ _ []); [done|done|apply rest_after_None|].
  unfold btree_keys. rewrite length_fmap, btree_iter_perm, length_map_to_list. done.
Qed.

Definition three_chunks : Index :=
  (put_file 1 "f" (mkFile 3 0 0 [30; 10; 20] ∅ 1) empty_index).2.

Lemma sweep_reads_every_chunk_once_witness : sweep 4 None 2 three_chunks = [10; 20; 30].
Proof.
  apply (eq_trans (sweep_reads_every_chunk_once 4 2 three_chunks ltac:(lia)
    ltac:(apply Nat.ltb_lt; vm_compute; reflexivity))). vm_compute. reflexivity.
Defined.

(** ** Chunks at risk *)

Lemma elem_of_live_refs refs c : c ∈ live_refs refs <-> 0 < default 0 (refs !! c).
Proof.
  unfold live_refs. rewrite list_elem_of_fmap. split.
  - intros ([k n] & -> & [Hn Hin]%list_elem_of_filter). simpl in *.
    apply elem_of_btree_iter in Hin. by rewrite Hin.
  - intros Hp. destruct (refs !! c) as [n|] eqn:E; simpl in Hp; [|lia].
    exists (c, n). split; [done|]. apply list_elem_of_filter.
    split; [done|]. by apply elem_of_btree_iter.
Qed.

Lemma live_refs_NoDup refs : NoDup (live_refs refs).
Proof.
  unfold live_refs. eapply sublist_NoDup; [apply (NoDup_btree_keys refs)|].
  apply fmap_sublist, sublist_filter.
Qed.

#[local] Instance risk_le_total : Total risk_le.
Proof. intros a b. unfold risk_le. lia. Qed.

#[local] Instance risk_le_trans : Transitive risk_le.
Proof. intros a b c. unfold risk_le. lia. Qed.

(** [under_replicated] lists exactly the chunks some file uses whose live
    copies, this device's included, are fewer than the target, each once with
    its count, ordered so that the ones closest to being lost come first. *)
Theorem under_replicated_exact (target : nat) (now : N) (ix : Index) (r : AtRisk) :
  (r ∈ under_replicated target now ix
   <-> 0 < reference_count (risk_chunk r) ix
       /\ held_by r = S (live_copies now (led ix) (risk_chunk r))
       /\ (held_by r < target)%nat /\ risk_target r = target)
  /\ NoDup (risk_chunk <$> under_replicated target now ix)
  /\ Sorted risk_le (under_replicated target now ix).
Proof.
  unfold under_replicated. split_and!.
  - rewrite merge_sort_Permutation, list_elem_of_omap. split.
    + intros (c & Hc & Hr). apply elem_of_live_refs in Hc.
      destruct (Nat.ltb_spec (S (live_copies now (led ix) c)) target); [|done].
      injection Hr as <-. simpl. auto.
    + intros (Hc & Hh & Ht & He). exists (risk_chunk r).
      split; [by apply elem_of_live_refs|]. rewrite <- Hh.
      rewrite (proj2 (Nat.ltb_lt _ _)) by done. destruct r; simpl in *. by subst.
  - rewrite merge_sort_Permutation.
    pose proof (live_refs_NoDup (chunk_refs (ft ix))) as Hn.
    induction Hn as [|c l Hc Hn IH]; simpl; [constructor|].
    destruct (S (live_copies now (led ix) c) <? target)%nat; [|exact IH].
    simpl. constructor; [|exact IH].
    intros (r' & -> & (c' & Hc' & Hr')%list_elem_of_omap)%list_elem_of_fmap.
    destruct (_ <? target)%nat; [|done]. injection Hr' as <-. done.
  - apply Sorted_merge_sort, _.
Qed.

(** ** The questions an audit asks *)

(** The first row that passes a test is the least one. *)
Lemma head_filter_min {K} `{!KeyOrd K} (P : K -> Prop) `{!forall k, Decision (P k)} (l : list K) x :
  StronglySorted key_le l -> x ∈ l -> P x ->
  exists k, head (filter P l) = Some k /\ k ∈ l /\ P k /\ key_le k x.
Proof.
  induction 1 as [|y l Hs IH Hall]; intros Hx HP; [by apply not_elem_of_nil in Hx|].
  rewrite filter_cons. destruct (decide (P y)) as [Hy|Hy].
  - exists y. split_and!; [done|left|done|].
    apply elem_of_cons in Hx as [->|Hx]; [|rewrite Forall_forall in Hall; auto].
    destruct (key_le_total y y); done.
  - apply elem_of_cons in Hx as [->|Hx]; [done|].
    destruct (IH Hx HP) as (k & Hk & Hin & HPk & Hle). exists k. split_and!; try done. by right.
Qed.

Lemma sublist_StronglySorted {A} (R : A -> A -> Prop) (l k : list A) :
  l `sublist_of` k -> StronglySorted R k -> StronglySorted R l.
Proof.
  induction 1 as [|x l k Hs IH|x l k Hs IH]; intros Hk; [constructor| |].
  - apply StronglySorted_inv in Hk as [Hk Hall]. constructor; [auto|].
    rewrite Forall_forall in *. intros y Hy. apply Hall. by apply (sublist_subseteq l k Hs).
  - apply StronglySorted_inv in Hk as [Hk _]. auto.
Qed.

Section audit.
Context `{!Primitives} (audit_key : list N).

Lemma device_rows_sorted device l : StronglySorted key_le (device_rows device l).
Proof.
  apply (sublist_StronglySorted _ _ (btree_keys (holdings l))); [apply sublist_filter|].
  apply StronglySorted_btree_keys.
Qed.

Lemma elem_of_device_rows device l k :
  ledger_invariant audit_key l ->
  k ∈ device_rows device l
  <-> k = holding_key audit_key device k.2.2 /\ is_Some (holders l !! (k.2.2, device)).
Proof.
  intros [Ha _ _]. unfold device_rows. rewrite list_elem_of_filter, elem_of_btree_keys.
  destruct k as [d [t c]]. unfold holding_key. simpl. rewrite Ha. split.
  - intros [-> Hs]. destruct (decide (t = audit_tag audit_key c)) as [->|]; [done|by destruct Hs].
  - intros [[= -> ->] Hs]. by rewrite decide_True.
Qed.

Lemma challenge_hit_row device cursor l k :
  challenge_hit device cursor l = Some k -> k ∈ device_rows device l.
Proof.
  unfold challenge_hit. destruct (head (filter _ _)) as [k'|] eqn:E.
  - intros [= ->]. apply head_Some_elem_of in E. by apply list_elem_of_filter in E as [_ ?].
  - apply head_Some_elem_of.
Qed.

Lemma challenge_from_spec device cursors l picked :
  NoDup picked ->
  let out := challenge_from device cursors l picked in
  NoDup out /\ (length out <= length picked + length cursors)%nat
  /\ forall c, c ∈ out -> c ∈ picked \/ exists k, k ∈ device_rows device l /\ k.2.2 = c.
Proof.
  revert picked. induction cursors as [|cursor cursors IH]; intros picked Hn; cbn [challenge_from].
  { split_and!; [done|simpl; lia|auto]. }
  destruct (challenge_hit device cursor l) as [k|] eqn:E.
  - apply challenge_hit_row in E. cbn zeta. case_bool_decide as Hin.
    + destruct (IH picked Hn) as (H1 & H2 & H3). split_and!; [done|simpl in *; lia|done].
    + assert (Hn' : NoDup (picked ++ [k.2.2])).
      { apply NoDup_app. split_and!; [done| |apply NoDup_singleton]. set_solver. }
      destruct (IH _ Hn') as (H1 & H2 & H3). rewrite length_app in H2.
      split_and!; [done|simpl in *; lia|].
      intros c Hc. destruct (H3 c Hc) as [[Hp|Hp%list_elem_of_singleton]%elem_of_app|?]; auto.
      right. exists k. by subst.
  - split_and!; [done|simpl; lia|auto].
Qed.

(** What an audit asks a device about: only chunks that device is recorded
    as holding, none twice and at most one per cursor drawn; a device with any
    record is always asked something; and no record is beyond reach, for the
    cursor equal to a chunk's own tag draws exactly that chunk (when tags do not
    collide). *)
Theorem audit_can_ask_about_every_record (device : DeviceId) (cursors : list N) (l : Ledger)
  (c : ChunkId) :
  ledger_invariant audit_key l ->
  let asked := chunks_to_challenge device cursors l in
  NoDup asked /\ (length asked <= length cursors)%nat
  /\ (forall d, d ∈ asked -> is_Some (holders l !! (d, device)))
  /\ (cursors <> [] -> is_Some (holders l !! (c, device)) -> asked <> [])
  /\ (is_Some (holders l !! (c, device)) ->
      (forall d, is_Some (holders l !! (d, device)) ->
         audit_tag audit_key d = audit_tag audit_key c -> d = c) ->
      chunks_to_challenge device [audit_tag audit_key c] l = [c]).
Proof.
  intros Hi asked.
  destruct (challenge_from_spec device cursors l [] (NoDup_nil_2)) as (H1 & H2 & H3).
  assert (Hrow : is_Some (holders l !! (c, device)) ->
                 holding_key audit_key device c ∈ device_rows device l).
  { intros Hs. by apply elem_of_device_rows. }
  split_and!; [done|done| | |].
  - intros d Hd. destruct (H3 d Hd) as [Hn|(k & Hk & <-)]; [by apply not_elem_of_nil in Hn|].
    by apply (elem_of_device_rows device l k Hi) in Hk as [_ ?].
  - intros Hc Hs. destruct cursors as [|cursor cursors]; [done|]. subst asked.
    unfold chunks_to_challenge. cbn [challenge_from].
    assert (is_Some (challenge_hit device cursor l)) as [k ->].
    { unfold challenge_hit. destruct (head (filter _ _)); [eauto|].
      specialize (Hrow Hs). destruct (device_rows device l); [by apply not_elem_of_nil in Hrow|eauto]. }
    rewrite bool_decide_eq_false_2 by apply not_elem_of_nil. cbn [app].
    clear. assert (Hg : forall p, p <> [] -> challenge_from device cursors l p <> []).
    { induction cursors as [|x cursors IH]; intros p Hp; [done|]. cbn [challenge_from].
      destruct (challenge_hit device x l) as [k'|]; [|done]. apply IH.
      case_bool_decide; [done|]. by destruct p. }
    by apply Hg.
  - intros Hs Hinj. unfold chunks_to_challenge. cbn [challenge_from].
    enough (challenge_hit device (audit_tag audit_key c) l = Some (holding_key audit_key device c))
      as -> by (rewrite bool_decide_eq_false_2 by apply not_elem_of_nil; done).
    unfold challenge_hit.
    destruct (head_filter_min (fun k => key_le (device, (audit_tag audit_key c, 0)) k)
      (device_rows device l) (holding_key audit_key device c)) as (k & -> & Hk & Hlo & Hhi).
    + apply device_rows_sorted.
    + auto.
    + right. split; [done|]. right. split; [done|]. simpl. lia.
    + apply (elem_of_device_rows device l k Hi) in Hk as [Ek Hks]. rewrite Ek in Hlo, Hhi |- *.
      assert (audit_tag audit_key k.2.2 = audit_tag audit_key c) as Et.
      { destruct Hlo as [[_ Hx]|[_ Hlo]]; [done|]. destruct Hhi as [[_ Hx]|[_ Hhi]]; [done|].
        simpl in Hlo, Hhi. destruct Hlo as [[Hlo _]|[Hlo _]], Hhi as [[Hhi _]|[Hhi _]];
          simpl in *; lia. }
      by rewrite (Hinj _ Hks Et).
Qed.

End audit.

Lemma drain_ledger_invariant : ledger_invariant [] drain_ledger.
Proof.
  apply (ledger_invariant_ext [] (record_holders [] [1; 2] 7 10 (led empty_index))); [done..|].
  apply record_holders_invariant; [apply empty_ledger_invariant|vm_compute; congruence].
Qed.

Lemma audit_can_ask_about_every_record_witness :
  is_Some (holders drain_ledger !! (2, 7)) /\ chunks_to_challenge 7 [5; 5] drain_ledger <> [].
Proof.
  assert (Hs : is_Some (holders drain_ledger !! (2, 7))) by (vm_compute; eauto).
  split; [exact Hs|].
  apply (audit_can_ask_about_every_record [] 7 [5; 5] drain_ledger 2 drain_ledger_invariant);
    [discriminate|exact Hs].
Defined.
