(* ===== verification/Store.v ===== *)
(** * Store: a device's whole local state

    Models [crates/itsanas-store/src/store.rs] over the index of [Index], the
    chunker of [Chunker], the sealing of [Crypto] and a blob store
    ([blob.rs]: a finite map from address to sealed bytes whose [put] never
    overwrites).  What the operating system draws (clock, segment id, nonce)
    and what the reader delivers are arguments.  Each operation is one function
    on the store: writing, deleting and releasing hold the write lock while they
    run; adopting, accepting a chunk, flushing and collecting garbage do not, and
    that one of them runs into another is not modelled.  Nor are errors of the
    reader, of the database and of the disk, the compaction that ends a
    collection apart. *)

From S2P Require Import Prelude Version Ids Path Crypto Oplog Chunker IndexState ShortQueue Files.
From S2P Require Import Blob Log Ledger Index.

Inductive FolderCopy :=
| NoFolder
| SameVolume (local_then : N)
| OtherVolume (local_then room : N).

Record WriteBudget := mkBudget {
  allowed : N;
  elsewhere : N;
  local_ceiling : option N;
  folder_copy : FolderCopy;
}.

Record Store := mkStore {
  index : Index;
  blobs : gmap ChunkId (list N);
  chunker : ChunkerConfig;
  user : UserKeys;
  device_keys : DeviceKeys;
  budget : option WriteBudget;
}.

Definition set_index (ix : Index) (s : Store) : Store :=
  mkStore ix (blobs s) (chunker s) (user s) (device_keys s) (budget s).
Definition set_blobs (b : gmap ChunkId (list N)) (s : Store) : Store :=
  mkStore (index s) b (chunker s) (user s) (device_keys s) (budget s).

(** An operation of the index, inside the store. *)
Definition with_index {E A} (f : Index -> A * Index) : M Store E A :=
  fun s => let '(a, ix) := f (index s) in (Ok a, set_index ix s).
Definition on_index {E} (f : Index -> Index) : M Store E unit :=
  modify (fun s => set_index (f (index s)) s).

(** ** Reports *)

Record GcReport := mkGc {
  blobs_removed : nat;
  bytes_reclaimed : N;
  retained_in_grace : nat;
  already_absent : nat;
}.

Record ReleaseReport := mkRelease { rel_chunks : nat; rel_bytes : N }.

Inductive Release :=
| Gone (r : ReleaseReport)
| NotHere
| NotSafeYet (chunk : ChunkId) (evidence : HolderEvidence).

Record IntegrityReport := mkIntegrity {
  files_checked : nat;
  missing_chunks : list (string * ChunkId);
  orphan_blobs : list ChunkId;
  corrupt_files : list string;
  chain_intact : bool;
}.

Definition is_healthy (r : IntegrityReport) : bool :=
  bool_decide (missing_chunks r = []) && bool_decide (corrupt_files r = []) && chain_intact r.

Section store.
Context `{!Primitives, !BodyCodec}.

Definition owner_of (s : Store) : UserId := user_id (user s).
Definition store_device (s : Store) : DeviceId := device_id (device_keys s).

(** ** Budgets *)

Definition past_ceiling (ceiling : option N) (local incoming : N) : option N :=
  match ceiling with
  | None => None
  | Some c => if c <? sat_add local incoming then Some (c - local) else None
  end.

Definition file_size_at (path : string) (ix : Index) : N := default 0 (fe_size <$> get_file path ix).

Definition account_besides (path : string) (b : WriteBudget) : M Store StoreError N :=
  replaced <-! gets (fun s => file_size_at path (index s));
  local <-! with_index local_bytes;
  ret (sat_sub (sat_add (elsewhere b) local) replaced).

Definition refuse_past (path : string) (b : WriteBudget) (account total : N)
  : result StoreError unit :=
  if allowed b <? total then Err (OverBudget path account total (allowed b))
  else
    let local_before := sat_sub account (elsewhere b) in
    let local_after := sat_sub total (elsewhere b) in
    match local_ceiling b with
    | Some ceiling =>
        if ceiling <? local_after
        then Err (DiskFull path (sat_sub total account) (sat_sub ceiling local_before))
        else Ok tt
    | None => Ok tt
    end.

Definition check_room (path : string) (incoming : N) : M Store StoreError unit :=
  b <-! gets budget;
  match b with
  | None => ret tt
  | Some b =>
      account <-! account_besides path b;
      lift (refuse_past path b account (sat_add account incoming))
  end.

(** Room for a file a peer sends, or how much there is if it does not fit. *)
Definition pull_room (path : string) (incoming : N) (replacing : bool)
  : M Store StoreError (option N) :=
  b <-! gets budget;
  match b with
  | None => ret None
  | Some b =>
      replaced <-! gets (fun s => if replacing then file_size_at path (index s) else 0);
      total <-! with_index local_bytes;
      let local := sat_sub total replaced in
      match folder_copy b with
      | SameVolume local_then =>
          match local_ceiling b with
          | None => ret None
          | Some ceiling =>
              let room := sat_sub ceiling local_then in
              let spent := sat_mul (sat_sub local local_then) 2 in
              if room <? sat_add spent (sat_mul incoming 2)
              then ret (Some (sat_sub room spent / 2))
              else ret None
          end
      | OtherVolume local_then room =>
          let spent := sat_sub local local_then in
          if room <? sat_add spent incoming then ret (Some (sat_sub room spent))
          else ret (past_ceiling (local_ceiling b) local incoming)
      | NoFolder => ret (past_ceiling (local_ceiling b) local incoming)
      end
  end.

(** ** Writing *)

(** What a stream has produced so far. *)
Record Writing := mkWriting {
  w_chunks : list ChunkId;
  w_hashed : list N;
  w_size : N;
  w_created : list ChunkId;
}.

(** The callback of [write_stream] on one chunk. *)
Definition on_chunk (u : UserKeys) (path : string) (b : option WriteBudget) (account : N)
  (chunk : list N) (st : Writing * gmap ChunkId (list N))
  : result StoreError unit * (Writing * gmap ChunkId (list N)) :=
  let '(w, bl) := st in
  let hashed := w_hashed w ++ chunk in
  let size := wrap_add (w_size w) (N.of_nat (length chunk)) in
  let w1 := mkWriting (w_chunks w) hashed size (w_created w) in
  match match b with
        | Some b => refuse_past path b account (sat_add account size)
        | None => Ok tt
        end with
  | Err e => (Err e, (w1, bl))
  | Ok _ =>
      match seal_chunk u chunk with
      | Err e => (Err (Crypto e), (w1, bl))
      | Ok (address, sealed) =>
          let '(fresh_blob, bl') := blob_put address sealed bl in
          (Ok tt,
           (mkWriting (w_chunks w ++ [address]) hashed size
              (if fresh_blob then w_created w ++ [address] else w_created w), bl'))
      end
  end.

Fixpoint stream_chunks (u : UserKeys) (path : string) (b : option WriteBudget) (account : N)
  (chunks : list (list N)) (st : Writing * gmap ChunkId (list N))
  : result StoreError unit * (Writing * gmap ChunkId (list N)) :=
  match chunks with
  | [] => (Ok tt, st)
  | chunk :: rest =>
      match on_chunk u path b account chunk st with
      | (Err e, st') => (Err e, st')
      | (Ok _, st') => stream_chunks u path b account rest st'
      end
  end.

(** The version currently stamped on a path, live or deleted. *)
Definition base_version (path : string) (ix : Index) : VersionVector :=
  match get_file path ix with
  | Some e => fe_version e
  | None => match get_tombstone path ix with Some t => tb_version t | None => VV.new end
  end.

(** Stream the chunks in; a refusal takes back the blobs this call created (the code
    tries to: one the disk will not remove stays, referenced by nothing). *)
Definition store_stream (path : string) (b : option WriteBudget) (account : N)
  (reads : list (list N)) : M Store StoreError Writing :=
  fun s =>
    match stream_chunks (user s) path b account (split_stream (chunker s) reads)
            (mkWriting [] [] 0 [], blobs s) with
    | (Err e, (w, bl)) => (Err e, set_blobs (foldl (fun m c => delete c m) bl (w_created w)) s)
    | (Ok _, (w, bl)) => (Ok w, set_blobs bl s)
    end.

Definition write_stream (now : N) (path : string) (reads : list (list N))
  : M Store StoreError FileEntry :=
  _ <-! lift (validate path);
  b <-! gets budget;
  account <-! match b with Some b => account_besides path b | None => ret 0 end;
  w <-! store_stream path b account reads;
  sequence <-! gets (fun s => next_sequence (index s));
  base <-! gets (fun s => base_version path (index s));
  dev <-! gets store_device;
  let entry := mkFile (w_size w) now (of_be_bytes (blake3_hash (w_hashed w))) (w_chunks w)
                 (VV.advanced base dev sequence) dev in
  _ <-! with_index (put_file now path entry);
  on_index (push_pending (mkLog sequence now (Upsert path entry))) ;;!
  ret entry.

(** The tombstone both deletions write, and its log entry. *)
Definition leave_tombstone (now : N) (path : string) (base : VersionVector)
  : M Store StoreError unit :=
  sequence <-! gets (fun s => next_sequence (index s));
  dev <-! gets store_device;
  let tombstone := mkTomb (VV.advanced base dev sequence) now dev in
  _ <-! with_index (Files.remove_file now path tombstone);
  on_index (push_pending (mkLog sequence now (Remove path (tb_version tombstone)))).

Definition remove_file (now : N) (path : string) : M Store StoreError bool :=
  _ <-! lift (validate path);
  present <-! gets (fun s => get_file path (index s));
  match present with
  | None => ret false
  | Some _ =>
      base <-! gets (fun s => base_version path (index s));
      leave_tombstone now path base ;;! ret true
  end.

Definition remove_unheld (now : N) (path : string) (seen : VersionVector)
  : M Store StoreError bool :=
  _ <-! lift (validate path);
  base <-! gets (fun s => base_version path (index s));
  leave_tombstone now path (VV.merge base seen) ;;! ret true.

(** ** Releasing content *)

(** The first chunk whose copies elsewhere do not clear both bars. *)
Fixpoint unsafe_chunk (now : N) (all : list ChunkId) (todo : list ChunkId) (ix : Index)
  : option (ChunkId * HolderEvidence) :=
  match todo with
  | [] => None
  | address :: rest =>
      if occ address all <? reference_count address ix then unsafe_chunk now all rest ix
      else
        let evidence := holder_evidence address now (led ix) in
        if (proved evidence <? SAFE_TO_RELEASE)%nat || (fresh evidence =? 0)%nat
        then Some (address, evidence)
        else unsafe_chunk now all rest ix
  end.

Definition release_one (report : ReleaseReport) (address : ChunkId)
  : M Store StoreError ReleaseReport :=
  size <-! gets (fun s => blob_size_of address (blobs s));
  report <-! match size with
             | Some size =>
                 modify (fun s => set_blobs (blob_remove address (blobs s)).2 s) ;;!
                 ret (mkRelease (S (rel_chunks report)) (sat_add (rel_bytes report) size))
             | None => ret report
             end;
  on_index (release_chunk address) ;;!
  ret report.

Fixpoint release_all (report : ReleaseReport) (dropped : list ChunkId)
  : M Store StoreError ReleaseReport :=
  match dropped with
  | [] => ret report
  | address :: rest => report <-! release_one report address; release_all report rest
  end.

(** [now] is the caller's clock, [clock] the one [release_file] reads. *)
Definition release (path : string) (now clock : N) : M Store StoreError Release :=
  _ <-! lift (validate path);
  present <-! gets (fun s => get_file path (index s));
  match present with
  | None => ret NotHere
  | Some entry =>
      blocked <-! gets (fun s => unsafe_chunk now (fe_chunks entry) (fe_chunks entry) (index s));
      match blocked with
      | Some (chunk, evidence) => ret (NotSafeYet chunk evidence)
      | None =>
          dropped <-! with_index (release_file clock path);
          report <-! release_all (mkRelease 0 0) dropped;
          ret (Gone report)
      end
  end.

(** ** Adopting what a peer wrote *)

Definition adopt_entry (now : N) (path : string) (entry : FileEntry) : M Store StoreError unit :=
  _ <-! lift (validate path);
  _ <-! with_index (put_file now path entry);
  ret tt.

Definition adopt_tombstone (now : N) (path : string) (tombstone : Tombstone)
  : M Store StoreError unit :=
  _ <-! lift (validate path);
  _ <-! with_index (Files.remove_file now path tombstone);
  ret tt.

(** ** Reading *)

(** The bytes that reached the writer, with the verdict. *)
Fixpoint read_chunks (u : UserKeys) (b : gmap ChunkId (list N)) (todo : list ChunkId)
  (written : list N) : result StoreError unit * list N :=
  match todo with
  | [] => (Ok tt, written)
  | address :: rest =>
      match blob_get address b with
      | None => (Err (MissingChunk address), written)
      | Some sealed =>
          match open_chunk u address sealed with
          | Err e => (Err (Crypto e), written)
          | Ok chunk => read_chunks u b rest (written ++ chunk)
          end
      end
  end.

Definition read_stream (path : string) (s : Store) : result StoreError bool * list N :=
  match validate path with
  | Err e => (Err e, [])
  | Ok _ =>
      match get_file path (index s) with
      | None => (Ok false, [])
      | Some entry =>
          match read_chunks (user s) (blobs s) (fe_chunks entry) [] with
          | (Err e, written) => (Err e, written)
          | (Ok _, written) =>
              if negb (N.of_nat (length written) mod 2 ^ 64 =? fe_size entry)
              then (Err (Corrupt "reassembled another size than the index recorded"), written)
              else if negb (of_be_bytes (blake3_hash written) =? content_hash entry)
              then (Err (Corrupt "reassembled content does not match its recorded hash"), written)
              else (Ok true, written)
          end
      end
  end.

Definition read_file (path : string) (s : Store) : result StoreError (option (list N)) :=
  match read_stream path s with
  | (Err e, _) => Err e
  | (Ok true, written) => Ok (Some written)
  | (Ok false, _) => Ok None
  end.

Definition stat (path : string) (s : Store) : result StoreError (option FileEntry) :=
  _ <-? validate path; Ok (get_file path (index s)).

Definition tombstone (path : string) (s : Store) : result StoreError (option Tombstone) :=
  _ <-? validate path; Ok (get_tombstone path (index s)).

Definition entries_list (s : Store) : list (string * FileEntry) := files_list (index s).

(** ** The log *)

Definition flush_segment (random_id : ObjectId) (nonce : list N)
  : M Store StoreError (option SegmentEnvelope) :=
  waiting <-! gets (fun s => pending_entries (index s));
  match waiting with
  | [] => ret None
  | _ =>
      prev <-! gets (fun s => head_segment (index s));
      envelope <-! (fun s => (create random_id nonce (oplog_root (user s)) (owner_of s)
                                (device_keys s) prev waiting, s));
      position <-! (fun s => let '(r, ix) := append_segment envelope (index s) in
                             (r, set_index ix s));
      ret (Some envelope)
  end.

Definition open_segment (envelope : SegmentEnvelope) (s : Store) : result StoreError SegmentBody :=
  if negb (owner envelope =? owner_of s)
  then Err (Corrupt "segment belongs to another owner than this store's")
  else open_envelope (oplog_root (user s)) envelope.

(** ** What is on this disk *)

Definition on_disk (s : Store) (c : ChunkId) : Prop := blob_contains c (blobs s) = true.

Definition missing_locally (cursor : ChunkId) (scan : nat) (now : N) : M Store StoreError (list ChunkId) :=
  chunks <-! gets (fun s => live_chunks_from cursor scan (index s));
  present <-! gets (fun s => filter (fun c => blob_contains c (blobs s) = true) chunks);
  found <-! gets (fun s => filter (fun c => blob_contains c (blobs s) = false) chunks);
  on_index (settle_losses present found now) ;;!
  ret found.

Definition MAX_CHECK_BATCH : nat := 4096.

Definition check_disk (after : option ChunkId) (limit : nat) (now : N)
  : M Store StoreError (nat * option ChunkId) :=
  page <-! gets (fun s => live_chunks_page after (Nat.min limit MAX_CHECK_BATCH) (index s));
  present <-! gets (fun s => filter (fun c => blob_contains c (blobs s) = true) page.1);
  missing <-! gets (fun s => filter (fun c => blob_contains c (blobs s) = false) page.1);
  on_index (settle_losses present missing now) ;;!
  ret (length missing, page.2).

(** A chunk from a peer is stored only if it opens to what its address names. *)
Definition accept_chunk (address : ChunkId) (sealed : list N) : M Store StoreError bool :=
  fun s =>
    if (max_size (chunker s) + DETERMINISTIC_OVERHEAD <? length sealed)%nat then (Ok false, s)
    else
      match open_chunk (user s) address sealed with
      | Err _ => (Ok false, s)
      | Ok plaintext =>
          if negb (chunk_id (user s) plaintext =? address) then (Ok false, s)
          else
            let s := set_blobs (blob_put address sealed (blobs s)).2 s in
            (Ok true, set_index (clear_loss address (index s)) s)
      end.

Definition has_chunk (address : ChunkId) (s : Store) : bool := blob_contains address (blobs s).

(** ** Housekeeping *)

Definition collect_one (cutoff : N) (report : GcReport) (row : ChunkId * N)
  : M Store StoreError GcReport :=
  let '(address, since) := row in
  if cutoff <? since
  then ret (mkGc (blobs_removed report) (bytes_reclaimed report) (S (retained_in_grace report))
              (already_absent report))
  else
    size <-! gets (fun s => blob_size_of address (blobs s));
    key <-! gets (fun s => audit_order (user s));
    report <-! match size with
               | Some size =>
                   modify (fun s => set_blobs (blob_remove address (blobs s)).2 s) ;;!
                   ret (mkGc (S (blobs_removed report)) (sat_add (bytes_reclaimed report) size)
                          (retained_in_grace report) (already_absent report))
               | None => ret (mkGc (blobs_removed report) (bytes_reclaimed report)
                                (retained_in_grace report) (S (already_absent report)))
               end;
    on_index (forget_chunk key address) ;;!
    ret report.

Fixpoint collect_rows (cutoff : N) (report : GcReport) (rows : list (ChunkId * N))
  : M Store StoreError GcReport :=
  match rows with
  | [] => ret report
  | row :: rest => report <-! collect_one cutoff report row; collect_rows cutoff report rest
  end.

(** [compacted] is how [blobs.compact()] ends; what it leaves readable is what was
    readable before, on pack files and on blob files alike. *)
Definition collect_garbage (compacted : result StoreError unit) (now grace : N) : M Store StoreError GcReport :=
  rows <-! gets (fun s => unreferenced_chunks (index s));
  report <-! collect_rows (now - grace) (mkGc 0 0 0 0) rows;
  lift compacted ;;!
  ret report.

(** One file of [verify_integrity]: its missing chunks join the loss queue, and
    a deep pass reads it back. *)
Definition verify_file (deep : bool) (now : N) (report : IntegrityReport)
  (file : string * FileEntry) : M Store StoreError IntegrityReport :=
  let '(path, entry) := file in
  gone <-! gets (fun s => filter (fun c => blob_contains c (blobs s) = false) (fe_chunks entry));
  for_each gone (fun c => on_index (note_loss c now)) ;;!
  verdict <-! gets (fun s => (read_stream path s).1);
  let missing := missing_chunks report ++ ((fun c => (path, c)) <$> gone) in
  let unread := match verdict with Ok true => false | _ => true end in
  ret (mkIntegrity (S (files_checked report)) missing (orphan_blobs report)
         (if deep && negb (existsb (fun p => bool_decide (p.1 = path)) missing) && unread
          then corrupt_files report ++ [path] else corrupt_files report)
         (chain_intact report)).

Fixpoint verify_files (deep : bool) (now : N) (report : IntegrityReport)
  (todo : list (string * FileEntry)) : M Store StoreError IntegrityReport :=
  match todo with
  | [] => ret report
  | file :: rest =>
      report <-! verify_file deep now report file; verify_files deep now report rest
  end.

Definition verify_integrity (deep : bool) (now : N) : M Store StoreError IntegrityReport :=
  todo <-! gets entries_list;
  report <-! verify_files deep now (mkIntegrity 0 [] [] [] true) todo;
  s <-! gets (fun s => s);
  let referenced := (todo ≫= (fun p => fe_chunks p.2)) ++ (unreferenced_chunks (index s)).*1 in
  ret (mkIntegrity (files_checked report) (missing_chunks report)
         (filter (fun c => c ∉ referenced) (blob_addresses (blobs s)))
         (corrupt_files report)
         (is_ok (validate_chain (segments_list (index s))))).

(** ** Outstanding work; the vault's heads for this owner are an argument. *)

Definition has_unapplied (heads : list (DeviceId * ObjectId)) (s : Store) : bool :=
  existsb (fun h => negb (h.1 =? store_device s)
                    && negb (bool_decide (applied_head h.1 (index s) = Some h.2))) heads.

Definition note_all_applied (heads : list (DeviceId * ObjectId)) : M Store StoreError unit :=
  me <-! gets store_device;
  for_each heads (fun h => if h.1 =? me then ret tt else on_index (set_applied_head h.1 h.2)).

End store.

(** ** Lemmas: what a refused stream takes back *)

Section stream_laws.
Context `{!Primitives}.

(** After part of a stream: the created blobs are new, and taking them away
    gives back the blobs there were. *)
Definition stream_inv (old : gmap ChunkId (list N)) (st : Writing * gmap ChunkId (list N)) : Prop :=
  forall c, if decide (c ∈ w_created st.1) then old !! c = None /\ is_Some (st.2 !! c)
            else st.2 !! c = old !! c.

Lemma on_chunk_inv u path b account chunk old st :
  stream_inv old st -> stream_inv old (on_chunk u path b account chunk st).2.
Proof.
  destruct st as [w bl]. intros Hi. unfold on_chunk.
  destruct (match b with Some b => _ | None => _ end); [|exact Hi].
  destruct (seal_chunk u chunk) as [[address sealed]|e]; [|exact Hi].
  unfold blob_put. destruct (bl !! address) eqn:Hb; [exact Hi|].
  intros c. specialize (Hi c). simpl in *. rewrite decide_bool_decide in *.
  destruct (decide (c = address)) as [->|Hne].
  - rewrite bool_decide_eq_true_2 by set_solver. rewrite lookup_insert_eq. split; [|eauto].
    case_bool_decide; [tauto|congruence].
  - rewrite lookup_insert_ne by done.
    rewrite (bool_decide_ext (c ∈ w_created w ++ [address]) (c ∈ w_created w)) by set_solver. done.
Qed.

Lemma stream_chunks_inv u path b account chunks old st :
  stream_inv old st -> stream_inv old (stream_chunks u path b account chunks st).2.
Proof.
  revert st. induction chunks as [|ch chunks IH]; intros st Hi; [done|]. cbn [stream_chunks].
  pose proof (on_chunk_inv u path b account ch old st Hi) as Hc.
  destruct (on_chunk u path b account ch st) as [[[]|e] st']; [by apply IH|done].
Qed.

Lemma take_back_created old st :
  stream_inv old st -> foldl (fun m c => delete c m) st.2 (w_created st.1) = old.
Proof.
  intros Hi. apply map_eq. intros c. rewrite (foldl_delete_lookup (fun c => c)), list_fmap_id.
  specialize (Hi c). rewrite decide_bool_decide in Hi. case_bool_decide; [|done].
  by destruct Hi as [-> _].
Qed.

Lemma stream_start old : stream_inv old (mkWriting [] [] 0 [], old).
Proof. intros c. by rewrite decide_False by apply not_elem_of_nil. Qed.

End stream_laws.

Section budget_laws.
Context `{!Primitives, !BodyCodec}.

(** [ix'] is [ix] but for the cached byte total. *)
Definition only_total (ix ix' : Index) : Prop := exists t, ix' = on_ft (set_byte_total t) ix.

Lemma only_total_refl ix : only_total ix ix.
Proof. exists (byte_total (ft ix)). by destruct ix as [[]]. Qed.

Lemma local_bytes_total ix : only_total ix (local_bytes ix).2.
Proof.
  unfold local_bytes. destruct (byte_total (ft ix)) as [t|] eqn:E; [apply only_total_refl|].
  by exists (Some (foldl (fun acc p => sat_add acc (fe_size p.2)) 0 (files_list ix))).
Qed.

Definition besides (path : string) (b : WriteBudget) (ix : Index) : N :=
  sat_sub (sat_add (elsewhere b) (local_bytes ix).1) (file_size_at path ix).

Lemma account_besides_run path b s :
  account_besides path b s
  = (Ok (besides path b (index s)), set_index (local_bytes (index s)).2 s).
Proof.
  unfold account_besides, with_index, gets, bind, ret, besides.
  by destruct (local_bytes (index s)) as [t ix].
Qed.

(** What [write_stream] has done when it reaches the stream. *)
Definition account_of (path : string) (s : Store) : N :=
  match budget s with Some b => besides path b (index s) | None => 0 end.
Definition counted (s : Store) : Store :=
  match budget s with Some _ => set_index (local_bytes (index s)).2 s | None => s end.

(** The write as one case analysis: path, stream, index. *)
Lemma write_stream_run now path reads s :
  write_stream now path reads s
  = match validate path with
    | Err e => (Err e, s)
    | Ok _ =>
        match store_stream path (budget s) (account_of path s) reads (counted s) with
        | (Err e, s1) => (Err e, s1)
        | (Ok w, s1) =>
            let sequence := next_sequence (index s1) in
            let entry := mkFile (w_size w) now (of_be_bytes (blake3_hash (w_hashed w))) (w_chunks w)
                           (VV.advanced (base_version path (index s1)) (store_device s1) sequence)
                           (store_device s1) in
            (Ok entry,
             set_index (push_pending (mkLog sequence now (Upsert path entry))
                          (put_file now path entry (index s1)).2) s1)
        end
    end.
Proof.
  unfold write_stream. unfold bind at 1, lift. destruct (validate path); [|done].
  unfold bind at 1, gets at 1. unfold bind at 1.
  assert (E : (match budget s with Some b => account_besides path b | None => ret 0 end) s
              = (Ok (account_of path s), counted s)).
  { unfold account_of, counted. destruct (budget s); [apply account_besides_run|done]. }
  rewrite E. unfold bind at 1.
  destruct (store_stream path (budget s) (account_of path s) reads (counted s)) as [[w|e] s1]; [|done].
  unfold bind, gets, with_index, on_index, modify, ret.
  by destruct (put_file _ _ _ _) as [d ix].
Qed.

Lemma counted_spec s :
  blobs (counted s) = blobs s /\ only_total (index s) (index (counted s))
  /\ chunker (counted s) = chunker s /\ user (counted s) = user s
  /\ device_keys (counted s) = device_keys s /\ budget (counted s) = budget s.
Proof.
  unfold counted. destruct (budget s) eqn:E; split_and!; try done;
    [apply local_bytes_total|apply only_total_refl].
Qed.

End budget_laws.

(** What a refused write leaves. *)
Lemma write_stream_refused `{!Primitives} (now : N) (path : string)
  (reads : list (list N)) (s s' : Store) (e : StoreError) :
  write_stream now path reads s = (Err e, s') ->
  blobs s' = blobs s /\ exists t, index s' = on_ft (set_byte_total t) (index s).
Proof.
  rewrite write_stream_run. destruct (validate path).
  2:{ intros [= _ <-]. split; [done|]. destruct (only_total_refl (index s)) as [t Ht]. eauto. }
  destruct (counted_spec s) as (Eb & Et & _). unfold store_stream.
  pose proof (stream_chunks_inv (user (counted s)) path (budget s) (account_of path s)
    (split_stream (chunker (counted s)) reads) (blobs (counted s)) _ (stream_start _)) as Hi.
  destruct (stream_chunks _ _ _ _ _ _) as [[[]|e'] [w bl]]; [done|].
  intros [= _ <-]. cbn [set_blobs blobs index]. split; [|exact Et].
  exact (eq_trans (take_back_created _ (w, bl) Hi) Eb).
Qed.

(** C29. A refused write leaves nothing behind: whatever the reason (a bad
    path, a budget passed part-way through, a chunk that cannot be sealed), the
    blobs are exactly those there were, and the index is untouched but for its
    cached byte total: no file, no reference, nothing in the log. *)
Theorem refused_write_leaves_nothing `{!Primitives} (now : N) (path : string)
  (reads : list (list N)) (s s' : Store) (e : StoreError) :
  write_stream now path reads s = (Err e, s') ->
  blobs s' = blobs s /\ exists t, index s' = on_ft (set_byte_total t) (index s).
Proof. apply write_stream_refused. Qed.

(** ** What an accepted stream has stored *)

Section accepted.
Context `{!Primitives}.

Lemma seal_chunk_address u p a sealed : seal_chunk u p = Ok (a, sealed) -> a = chunk_id u p.
Proof. unfold seal_chunk, rbind. destruct (seal_deterministic _ _ _); [|done]. by intros [= <- _]. Qed.

Lemma wrap_add_assoc_len n (a b : list N) :
  wrap_add (wrap_add n (N.of_nat (length a))) (N.of_nat (length b))
  = wrap_add n (N.of_nat (length (a ++ b))).
Proof.
  unfold wrap_add. rewrite N.Div0.add_mod_idemp_l, length_app, Nat2N.inj_add. f_equal. lia.
Qed.

(** One accepted chunk. *)
Lemma on_chunk_ok u path b account chunk w bl w' bl' :
  on_chunk u path b account chunk (w, bl) = (Ok tt, (w', bl')) ->
  w_hashed w' = w_hashed w ++ chunk
  /\ w_chunks w' = w_chunks w ++ [chunk_id u chunk]
  /\ w_size w' = wrap_add (w_size w) (N.of_nat (length chunk))
  /\ (forall bb, b = Some bb -> refuse_past path bb account (sat_add account (w_size w')) = Ok tt)
  /\ exists sealed, seal_chunk u chunk = Ok (chunk_id u chunk, sealed)
     /\ bl' = match bl !! chunk_id u chunk with
              | Some _ => bl | None => <[chunk_id u chunk := sealed]> bl end.
Proof.
  unfold on_chunk.
  set (w1 := wrap_add (w_size w) (N.of_nat (length chunk))).
  destruct (match b with Some b => refuse_past path b account (sat_add account w1) | None => Ok tt end)
    as [[]|e] eqn:Hr; [|done].
  destruct (seal_chunk u chunk) as [[address sealed]|e] eqn:Hs; [|done].
  pose proof (seal_chunk_address _ _ _ _ Hs) as ->.
  unfold blob_put. destruct (bl !! chunk_id u chunk) eqn:Hb; intros [= <- <-];
    (split_and!; [done..| |exists sealed; by rewrite ?Hb]); intros bb ->; exact Hr.
Qed.

Lemma stream_chunks_ok u path b account chunks w bl w' bl' :
  w_size w < 2 ^ 64 ->
  stream_chunks u path b account chunks (w, bl) = (Ok tt, (w', bl')) ->
  w_hashed w' = w_hashed w ++ mjoin chunks
  /\ w_chunks w' = w_chunks w ++ (chunk_id u <$> chunks)
  /\ w_size w' = wrap_add (w_size w) (N.of_nat (length (mjoin chunks)))
  /\ (chunks <> [] -> forall bb, b = Some bb ->
      refuse_past path bb account (sat_add account (w_size w')) = Ok tt)
  /\ (forall p, p ∈ chunks -> is_Some (bl' !! chunk_id u p))
  /\ bl ⊆ bl'
  /\ (forall c sealed, bl' !! c = Some sealed ->
      bl !! c = Some sealed \/ exists p, p ∈ chunks /\ seal_chunk u p = Ok (c, sealed)).
Proof.
  revert w bl. induction chunks as [|ch chunks IH]; intros w bl Hw; cbn [stream_chunks].
  { intros [= <- <-]. rewrite !app_nil_r. split_and!; try done; [|set_solver|auto].
    unfold wrap_add. simpl. rewrite N.add_0_r. by rewrite N.mod_small. }
  destruct (on_chunk u path b account ch (w, bl)) as [[[]|e] [w1 bl1]] eqn:Hc; [|done].
  intros Hrest. apply on_chunk_ok in Hc as (H1 & H2 & H3 & H4 & sealed & Hseal & Hbl).
  destruct (IH w1 bl1) as (G1 & G2 & G3 & G4 & G5 & G6 & G7); [|done|].
  { rewrite H3. unfold wrap_add. apply N.mod_lt. lia. }
  assert (Hsub : bl ⊆ bl1).
  { rewrite Hbl. destruct (bl !! chunk_id u ch) eqn:E; [done|]. by apply insert_subseteq. }
  assert (Hhere : is_Some (bl1 !! chunk_id u ch)).
  { rewrite Hbl. destruct (bl !! chunk_id u ch) eqn:E; [eauto|]. rewrite lookup_insert_eq. eauto. }
  split_and!.
  - rewrite G1, H1, <- app_assoc. done.
  - rewrite G2, H2, <- app_assoc. done.
  - rewrite G3, H3, wrap_add_assoc_len. done.
  - intros _ bb Hbb. destruct chunks as [|ch' chunks]; [|by apply G4].
    cbn [stream_chunks] in Hrest. injection Hrest as <- <-. by apply H4.
  - intros p [->|Hp]%elem_of_cons; [|by apply G5].
    destruct Hhere as [x Hx]. exists x. by apply (lookup_weaken _ _ _ _ Hx).
  - by transitivity bl1.
  - intros c sl Hcs. destruct (G7 c sl Hcs) as [Hb1|(p & Hp & Hs)]; [|right; set_solver].
    rewrite Hbl in Hb1. destruct (bl !! chunk_id u ch) eqn:E; [by left|].
    destruct (decide (c = chunk_id u ch)) as [->|Hne].
    + rewrite lookup_insert_eq in Hb1. injection Hb1 as <-. right. exists ch. set_solver.
    + rewrite lookup_insert_ne in Hb1 by done. by left.
Qed.

End accepted.

Lemma refuse_past_ok path b account total :
  refuse_past path b account total = Ok tt <->
  total <= allowed b /\ forall c, local_ceiling b = Some c -> total - elsewhere b <= c.
Proof.
  unfold refuse_past, sat_sub. destruct (N.ltb_spec (allowed b) total) as [H|H].
  { split; [done|]. intros [? _]. lia. }
  destruct (local_ceiling b) as [c|]; [|split; [done|done]].
  destruct (N.ltb_spec c (total - elsewhere b)) as [Hc|Hc]; split; try done.
  - intros [_ Hx]. specialize (Hx c eq_refl). lia.
  - intros _. split; [done|]. by intros ? [= <-].
Qed.

(** The state an accepted write ends in. *)
Lemma write_stream_ok `{!Primitives} now path reads s s' entry :
  chunker_ok (chunker s) -> Forall (fun r => r <> []) reads ->
  write_stream now path reads s = (Ok entry, s') ->
  let data := mjoin reads in
  let chunks := split (chunker s) data in
  let ix := index (counted s) in
  validate path = Ok tt
  /\ entry = mkFile (wrap_add 0 (N.of_nat (length data))) now (of_be_bytes (blake3_hash data))
       (chunk_id (user s) <$> chunks)
       (VV.advanced (base_version path ix) (store_device s) (next_sequence ix)) (store_device s)
  /\ index s' = push_pending (mkLog (next_sequence ix) now (Upsert path entry))
                  (put_file now path entry ix).2
  /\ user s' = user s /\ chunker s' = chunker s
  /\ (data <> [] -> forall b, budget s = Some b ->
      refuse_past path b (besides path b (index s))
        (sat_add (besides path b (index s)) (fe_size entry)) = Ok tt)
  /\ (forall p, p ∈ chunks -> is_Some (blobs s' !! chunk_id (user s) p))
  /\ blobs s ⊆ blobs s'
  /\ (forall c sealed, blobs s' !! c = Some sealed ->
      blobs s !! c = Some sealed \/ exists p, p ∈ chunks /\ seal_chunk (user s) p = Ok (c, sealed)).
Proof.
  intros Hc Hr. rewrite write_stream_run. cbn zeta.
  destruct (validate path) as [[]|]; [|done].
  destruct (counted_spec s) as (Eb & Et & Ec & Eu & Ed & Ebud). unfold store_stream.
  rewrite Ec, Eu, Eb, (split_stream_split _ _ Hc Hr).
  destruct (stream_chunks _ _ _ _ _ _) as [[[]|e] [w bl]] eqn:Hs; [|done].
  intros [= <- <-].
  apply stream_chunks_ok in Hs as (G1 & G2 & G3 & G4 & G5 & G6 & G7); [|simpl; lia].
  cbn [w_hashed w_chunks w_size app] in *. rewrite split_concat in G1, G3 by done.
  unfold store_device. cbn [set_blobs set_index index blobs user chunker device_keys].
  rewrite Ed, G1, G2, G3. split_and!; try done.
  intros Hd b Hb. unfold account_of in G4. rewrite Hb in G4. cbn [fe_size].
  rewrite <- G3. apply (G4) with (bb := b); [|done].
  intros E. apply Hd. rewrite <- (split_concat (chunker s) (mjoin reads) Hc), E. done.
Qed.

(** A write that is accepted under a budget leaves the account within it:
    what is held elsewhere and the sizes of the files here together do not pass
    the allowance, and the files here do not pass the ceiling of this disk. *)
Theorem accepted_write_within_budget `{!Primitives} (now : N) (path : string)
  (reads : list (list N)) (s s' : Store) (entry : FileEntry) (b : WriteBudget) :
  chunker_ok (chunker s) -> Forall (fun r => r <> []) reads -> reads <> [] ->
  files_invariant (index s) -> fits (files (ft (index s))) ->
  elsewhere b + total_size (files (ft (index s))) + N.of_nat (length (mjoin reads)) <= u64_max ->
  budget s = Some b ->
  write_stream now path reads s = (Ok entry, s') ->
  elsewhere b + total_size (files (ft (index s'))) <= allowed b
  /\ (forall c, local_ceiling b = Some c -> total_size (files (ft (index s'))) <= c).
Proof.
  intros Hc Hr Hne Hi Hf Hfit Hb Hw.
  destruct (write_stream_ok now path reads s s' entry Hc Hr Hw)
    as (_ & He & Hix & _ & _ & Hbud & _). cbn zeta in *.
  assert (Hd : mjoin reads <> []).
  { destruct reads as [|[|x r] reads]; [done| |done].
    by apply Forall_cons in Hr as [? _]. }
  specialize (Hbud Hd b Hb). apply refuse_past_ok in Hbud as [Hall Hceil].
  destruct (counted_spec s) as (_ & [t Et] & _).
  assert (Hfiles : files (ft (index s')) = <[path := entry]> (files (ft (index s)))).
  { rewrite Hix, Et. done. }
  rewrite Hfiles, total_insert.
  assert (Hsize : fe_size entry = N.of_nat (length (mjoin reads))).
  { rewrite He. cbn [fe_size]. unfold wrap_add. rewrite N.add_0_l, N.mod_small; [done|].
    unfold u64_max in Hfit. lia. }
  unfold besides in *. rewrite (proj1 (local_bytes_exact _ Hi Hf)) in *.
  unfold file_size_at, get_file in *. unfold sat_sub in *.
  set (r := default 0 (fe_size <$> files (ft (index s)) !! path)) in *.
  assert (Hrt : r <= total_size (files (ft (index s)))).
  { subst r. destruct (files (ft (index s)) !! path) eqn:E; simpl; [|lia].
    by apply (map_sum_ge fe_size _ path). }
  rewrite (sat_add_exact (elsewhere b)) in * by lia.
  rewrite sat_add_exact in * by lia.
  split; [lia|]. intros c Hcc. specialize (Hceil c Hcc). lia.
Qed.

(** ** Reading back what was written *)

Section round_trip.
Context `{!Primitives, !PrimitiveLaws}.

(** Every blob opens to a plaintext of [D] that its address names. *)
Definition genuine (D : list N -> Prop) (u : UserKeys) (b : gmap ChunkId (list N)) : Prop :=
  forall c sealed, b !! c = Some sealed ->
    exists p, D p /\ open_chunk u c sealed = Ok p /\ chunk_id u p = c.

(** The keyed hash does not collide on [D]: what addressing by content relies on. *)
Definition no_collision (D : list N -> Prop) (u : UserKeys) : Prop :=
  forall p q, D p -> D q -> chunk_id u p = chunk_id u q -> p = q.

Lemma no_collision_on u ps :
  Forall (fun p => Forall (fun q => p = q \/ chunk_id u p <> chunk_id u q) ps) ps ->
  no_collision (fun p => p ∈ ps) u.
Proof.
  intros Hall p q Hp Hq E. rewrite Forall_forall in Hall. specialize (Hall p Hp).
  rewrite Forall_forall in Hall. by destruct (Hall q Hq).
Qed.

Lemma read_chunks_back D u b chunks written :
  genuine D u b -> no_collision D u -> Forall D chunks ->
  (forall p, p ∈ chunks -> is_Some (b !! chunk_id u p)) ->
  read_chunks u b (chunk_id u <$> chunks) written = (Ok tt, written ++ mjoin chunks).
Proof.
  intros Hg Hn. revert written. induction chunks as [|p chunks IH]; intros written HD Hb.
  { cbn. by rewrite app_nil_r. }
  apply Forall_cons in HD as [Hp HD]. cbn [fmap list_fmap read_chunks]. unfold blob_get.
  destruct (Hb p) as [sealed Hs]; [left|]. rewrite Hs.
  destruct (Hg _ _ Hs) as (q & Hq & Ho & Hid). rewrite Ho.
  rewrite (Hn q p Hq Hp Hid). rewrite IH; [|done|intros q' Hq'; apply Hb; by right].
  by rewrite <- app_assoc.
Qed.

Lemma genuine_write D s chunks b' :
  genuine D (user s) (blobs s) -> Forall D chunks ->
  (forall c sealed, b' !! c = Some sealed ->
     blobs s !! c = Some sealed \/ exists p, p ∈ chunks /\ seal_chunk (user s) p = Ok (c, sealed)) ->
  genuine D (user s) b'.
Proof.
  intros Hg HD Hb c sealed Hs. destruct (Hb c sealed Hs) as [?|(p & Hp & Hseal)]; [by apply Hg|].
  destruct (open_seal_chunk _ _ _ _ Hseal) as [-> Ho]. exists p.
  rewrite Forall_forall in HD. auto.
Qed.

End round_trip.

(** C7. What was written is what is read.  After an accepted write, reading
    the path gives back exactly the bytes the reader delivered, and the blobs
    stay genuine: chunks already on disk are shared rather than rewritten and
    still open to what their address names (given that the addressing hash does
    not collide on the plaintexts in play). *)
Theorem write_then_read `{!Primitives, !PrimitiveLaws} (D : list N -> Prop) (now : N)
  (path : string) (reads : list (list N)) (s s' : Store) (entry : FileEntry) :
  chunker_ok (chunker s) -> Forall (fun r => r <> []) reads ->
  N.of_nat (length (mjoin reads)) <= u64_max ->
  genuine D (user s) (blobs s) -> no_collision D (user s) ->
  Forall D (split (chunker s) (mjoin reads)) ->
  write_stream now path reads s = (Ok entry, s') ->
  read_file path s' = Ok (Some (mjoin reads))
  /\ genuine D (user s') (blobs s').
Proof.
  intros Hc Hr Hlen Hg Hn HD Hw.
  destruct (write_stream_ok now path reads s s' entry Hc Hr Hw)
    as (Hv & He & Hix & Hu & Hch & _ & Hall & _ & Hnew). cbn zeta in *.
  assert (Hg' : genuine D (user s') (blobs s')).
  { rewrite Hu. by eapply genuine_write. }
  split; [|done].
  unfold read_file, read_stream. rewrite Hv.
  assert (Hget : get_file path (index s') = Some entry).
  { rewrite Hix. unfold get_file. cbn [push_pending on_lt ft put_file snd files]. apply lookup_insert_eq. }
  rewrite Hget, He. cbn [fe_chunks fe_size content_hash].
  rewrite Hu in *. rewrite (read_chunks_back D _ _ (split (chunker s) (mjoin reads))) by done.
  cbn [app]. rewrite split_concat by done.
  unfold wrap_add. rewrite N.add_0_l, N.eqb_refl. cbn [negb]. by rewrite N.eqb_refl.
Qed.

(** Nothing a peer sends makes [has_chunk] true without proof: the bytes
    are stored only if they open, under the owner's key, to a plaintext whose
    address is the one asked for; otherwise the store does not change.  No blob
    already here is replaced, and a genuine store stays genuine whatever
    arrives. *)
Theorem accepted_chunk_is_genuine `{!Primitives} (address : ChunkId) (sealed : list N)
  (s s' : Store) (r : result StoreError bool) :
  accept_chunk address sealed s = (r, s') ->
  (r = Ok false /\ s' = s
   \/ r = Ok true /\ has_chunk address s' = true
      /\ (exists p, open_chunk (user s) address sealed = Ok p /\ chunk_id (user s) p = address)
      /\ losses (ft (index s')) !! address = None)
  /\ blobs s ⊆ blobs s'
  /\ (genuine (fun _ => True) (user s) (blobs s) -> genuine (fun _ => True) (user s) (blobs s')).
Proof.
  unfold accept_chunk. destruct (_ <? length sealed)%nat; [intros [= <- <-]; auto|].
  destruct (open_chunk (user s) address sealed) as [p|e] eqn:Ho; [|intros [= <- <-]; auto].
  destruct (N.eqb_spec (chunk_id (user s) p) address) as [Hid|Hid]; [|intros [= <- <-]; auto].
  cbn [negb]. intros [= <- <-]. cbn [set_index set_blobs index blobs].
  assert (Hsub : blobs s ⊆ (blob_put address sealed (blobs s)).2
    /\ is_Some ((blob_put address sealed (blobs s)).2 !! address)).
  { unfold blob_put. destruct (blobs s !! address) eqn:E; simpl; [split; [done|eauto]|].
    split; [by apply insert_subseteq|]. rewrite lookup_insert_eq. eauto. }
  destruct Hsub as [Hsub Hhere]. split_and!; [right| |].
  - split_and!; [done|by apply bool_decide_eq_true_2|eauto|].
    unfold clear_loss. destruct (losses (ft (index s)) !! address) eqn:E; [|done].
    cbn [on_ft ft set_losses losses]. apply lookup_delete_eq.
  - done.
  - intros Hg c sl Hc. unfold blob_put in Hc.
    destruct (blobs s !! address) eqn:E; simpl in Hc; [by apply Hg|].
    destruct (decide (c = address)) as [->|Hne].
    + rewrite lookup_insert_eq in Hc. injection Hc as <-. eauto.
    + rewrite lookup_insert_ne in Hc by done. by apply Hg.
Qed.

(** ** Garbage collection *)

Section gc.
Context `{!Primitives}.

Lemma forget_chunk_tables key c ix :
  files (ft (forget_chunk key c ix)) = files (ft ix)
  /\ chunk_refs (ft (forget_chunk key c ix)) = delete c (chunk_refs (ft ix))
  /\ unreferenced (ft (forget_chunk key c ix)) = delete c (unreferenced (ft ix)).
Proof. unfold forget_chunk, clear_loss. by destruct (losses (ft ix) !! c). Qed.

(** One row of the collection. *)
Lemma collect_one_run cutoff report c since s :
  exists report' s', collect_one cutoff report (c, since) s = (Ok report', s')
  /\ files (ft (index s')) = files (ft (index s)) /\ user s' = user s
  /\ (cutoff < since -> s' = s)
  /\ (since <= cutoff -> blobs s' = delete c (blobs s)
      /\ index s' = forget_chunk (audit_order (user s)) c (index s)).
Proof.
  unfold collect_one. destruct (N.ltb_spec cutoff since) as [Hlt|Hge].
  { eexists _, s. split_and!; try done. lia. }
  unfold bind, gets, modify, ret, on_index, blob_size_of.
  destruct (blobs s !! c) as [sl|] eqn:Hb; simpl.
  - eexists _, _. split_and!; [done|apply forget_chunk_tables|done|lia|done].
  - eexists _, _. split_and!; [done|apply forget_chunk_tables|done|lia|].
    intros _. by rewrite delete_id.
Qed.

Lemma collect_rows_run cutoff report rows s :
  exists report' s', collect_rows cutoff report rows s = (Ok report', s')
  /\ files (ft (index s')) = files (ft (index s)) /\ user s' = user s
  /\ (forall c, (forall since, (c, since) ∈ rows -> cutoff < since) ->
      blobs s' !! c = blobs s !! c)
  /\ (forall c since, (c, since) ∈ rows -> since <= cutoff -> blobs s' !! c = None).
Proof.
  revert report s. induction rows as [|[c since] rows IH]; intros report s.
  { exists report, s. split_and!; try done. set_solver. }
  destruct (collect_one_run cutoff report c since s)
    as (r1 & s1 & Hrun & Hf & Hu & Hkeep & Hdrop).
  destruct (IH r1 s1) as (r2 & s2 & Hrun2 & Hf2 & Hu2 & Hk2 & Hd2).
  exists r2, s2. cbn [collect_rows]. unfold bind. rewrite Hrun.
  assert (Hnone : forall x, blobs s1 !! x = None -> blobs s2 !! x = None).
  { intros x Hx. destruct (decide (Exists (fun r => r.1 = x /\ r.2 <= cutoff) rows)) as [He|He].
    - apply Exists_exists in He as ([x' n] & Hin & ? & ?). simpl in *. subst. by apply (Hd2 x n).
    - rewrite Hk2; [done|]. intros n Hin. destruct (N.lt_ge_cases cutoff n); [done|].
      destruct He. apply Exists_exists. exists (x, n). auto. }
  split_and!; [done|congruence|congruence| |].
  - intros x Hx. rewrite Hk2 by (intros n Hn; apply Hx; by right).
    destruct (N.lt_ge_cases cutoff since) as [Hlt|Hge]; [by rewrite Hkeep|].
    destruct (Hdrop Hge) as [-> _]. rewrite lookup_delete_ne; [done|].
    intros ->. specialize (Hx since ltac:(left)). lia.
  - intros x n [[= -> ->]|Hin]%elem_of_cons Hn; [|by apply (Hd2 x n)].
    apply Hnone. destruct (Hdrop Hn) as [-> _]. apply lookup_delete_eq.
Qed.

End gc.

(** C9. Garbage collection never destroys what a file uses: every chunk named
    by some file keeps its blob, the file table is untouched, and so is every
    chunk still in its grace period; a chunk unreferenced for longer than the
    grace period is gone.  That is so whether or not the compaction that ends the
    collection succeeds, and the collection succeeds when it does. *)
Theorem garbage_collection_spares_files `{!Primitives} (compacted : result StoreError unit) (now grace : N) (s : Store) :
  files_invariant (index s) ->
  exists report s', collect_garbage compacted now grace s = (match compacted with Ok _ => Ok report | Err e => Err e end, s')
  /\ files (ft (index s')) = files (ft (index s))
  /\ (forall p e c, files (ft (index s)) !! p = Some e -> c ∈ fe_chunks e ->
      blobs s' !! c = blobs s !! c)
  /\ (forall c since, unreferenced (ft (index s)) !! c = Some since ->
      (now - grace < since -> blobs s' !! c = blobs s !! c)
      /\ (since <= now - grace -> blobs s' !! c = None)).
Proof.
  intros Hi. unfold collect_garbage. unfold bind, gets, lift, ret.
  destruct (collect_rows_run (now - grace) (mkGc 0 0 0 0) (unreferenced_chunks (index s)) s)
    as (report & s' & Hrun & Hf & _ & Hk & Hd).
  exists report, s'. rewrite Hrun. split_and!; [by destruct compacted|done| |].
  - intros p e c He Hc. apply Hk. intros since Hin. exfalso.
    apply elem_of_btree_iter in Hin.
    assert (Hz : chunk_refs (ft (index s)) !! c = Some 0) by (apply (unref_zero _ Hi); eauto).
    pose proof (refs_exact _ Hi c) as Hx. rewrite Hz in Hx. simpl in Hx.
    assert (0 < slots c (files (ft (index s)))); [|lia].
    apply map_sum_pos. exists p, e. split; [done|]. by apply occ_pos.
  - intros c since Hu. split; intros Hs.
    + apply Hk. intros n Hin. apply elem_of_btree_iter in Hin. congruence.
    + apply (Hd c since); [|done]. by apply elem_of_btree_iter.
Qed.

(** ** Releasing *)

Section releasing.
Context `{!Primitives}.

Definition well_held (now : N) (ix : Index) (c : ChunkId) : Prop :=
  (SAFE_TO_RELEASE <= proved (holder_evidence c now (led ix)))%nat
  /\ (0 < fresh (holder_evidence c now (led ix)))%nat.

Lemma unsafe_chunk_None now all todo ix :
  unsafe_chunk now all todo ix = None ->
  forall c, c ∈ todo -> occ c all < reference_count c ix \/ well_held now ix c.
Proof.
  induction todo as [|a todo IH]; [set_solver|]. cbn [unsafe_chunk]. intros Hn c Hc.
  destruct (N.ltb_spec (occ a all) (reference_count a ix)) as [Hlt|Hge].
  - apply elem_of_cons in Hc as [->|Hc]; [by left|by apply IH].
  - destruct (_ || _) eqn:E; [done|]. apply orb_false_iff in E as [E1 E2].
    apply Nat.ltb_ge in E1. apply Nat.eqb_neq in E2.
    apply elem_of_cons in Hc as [->|Hc]; [right; split; [done|lia]|by apply IH].
Qed.

Lemma release_chunk_frame c ix :
  files (ft (release_chunk c ix)) = files (ft ix)
  /\ tombstones (ft (release_chunk c ix)) = tombstones (ft ix)
  /\ lt (release_chunk c ix) = lt ix /\ holders (led (release_chunk c ix)) = holders (led ix).
Proof. unfold release_chunk, clear_loss. by destruct (losses (ft ix) !! c). Qed.

Lemma release_all_run report dropped s :
  exists report' s', release_all report dropped s = (Ok report', s')
  /\ files (ft (index s')) = files (ft (index s))
  /\ tombstones (ft (index s')) = tombstones (ft (index s))
  /\ lt (index s') = lt (index s) /\ holders (led (index s')) = holders (led (index s))
  /\ forall c, c ∉ dropped -> blobs s' !! c = blobs s !! c.
Proof.
  revert report s. induction dropped as [|a dropped IH]; intros report s.
  { exists report, s. split_and!; done. }
  assert (Hone : exists r1 s1, release_one report a s = (Ok r1, s1)
    /\ index s1 = release_chunk a (index s) /\ blobs s1 = delete a (blobs s)).
  { unfold release_one, bind, gets, modify, ret, on_index, blob_size_of.
    destruct (blobs s !! a) eqn:Hb; simpl; eexists _, _; split_and!; try done.
    by rewrite delete_id. }
  destruct Hone as (r1 & s1 & Hrun & Hix & Hbl).
  destruct (release_chunk_frame a (index s)) as (F1 & F2 & F3 & F4). rewrite <- Hix in *.
  destruct (IH r1 s1) as (r2 & s2 & Hrun2 & G1 & G2 & G3 & G4 & G5).
  exists r2, s2. cbn [release_all]. unfold bind. rewrite Hrun.
  split_and!; [done|congruence..|]. intros c Hc. apply not_elem_of_cons in Hc as [Hne Hc].
  rewrite G5, Hbl by done. by rewrite lookup_delete_ne.
Qed.

End releasing.

(** C8. Releasing a file is safe.  When [release] says the content is gone,
    every blob that left the disk was recorded on at least [SAFE_TO_RELEASE]
    devices that have answered a storage challenge and one whose record for
    this very chunk is fresh, and no file left here uses it; only this path
    leaves the file table, without a tombstone or a log entry, and the ledger
    keeps every holder.  When it refuses, the store does not change. *)
Theorem release_is_safe `{!Primitives} (path : string) (now clock : N) (s s' : Store)
  (r : Release) :
  files_invariant (index s) -> fits (files (ft (index s))) ->
  release path now clock s = (Ok r, s') ->
  match r with
  | Gone _ =>
      files (ft (index s')) = delete path (files (ft (index s)))
      /\ tombstones (ft (index s')) = tombstones (ft (index s))
      /\ lt (index s') = lt (index s) /\ holders (led (index s')) = holders (led (index s))
      /\ forall c, blobs s' !! c <> blobs s !! c ->
           well_held now (index s) c /\ slots c (files (ft (index s'))) = 0
  | _ => s' = s
  end.
Proof.
  intros Hi Hf. unfold release. unfold bind at 1, lift.
  destruct (validate path) as [[]|]; [|done]. unfold bind at 1, gets at 1.
  destruct (get_file path (index s)) as [entry|] eqn:He; [|by intros [= <- <-]].
  unfold bind at 1, gets at 1.
  destruct (unsafe_chunk now (fe_chunks entry) (fe_chunks entry) (index s)) as [[c ev]|] eqn:Hs;
    [by intros [= <- <-]|].
  unfold bind at 1, with_index.
  destruct (release_file clock path (index s)) as [dropped ix] eqn:Hr.
  destruct (release_all_run (mkRelease 0 0) dropped (set_index ix s))
    as (report & s2 & Hrun & F1 & F2 & F3 & F4 & F5).
  unfold bind. rewrite Hrun. intros [= <- <-].
  assert (Eix : ix = (drop_entry clock path (index s)).2)
    by (unfold release_file in Hr; by rewrite Hr).
  assert (Edr : dropped = (drop_entry clock path (index s)).1)
    by (unfold release_file in Hr; by rewrite Hr).
  cbn [set_index index] in *. subst ix.
  rewrite drop_entry_files in F1. rewrite drop_entry_tombstones in F2.
  assert (Hframe : lt (drop_entry clock path (index s)).2 = lt (index s)
    /\ led (drop_entry clock path (index s)).2 = led (index s))
    by (unfold drop_entry; by destruct (files (ft (index s)) !! path)).
  destruct Hframe as [El Eled]. rewrite El in F3. rewrite Eled in F4.
  split_and!; [done..|]. intros c Hc.
  assert (Hd : c ∈ dropped) by (destruct (decide (c ∈ dropped)); [done|by destruct Hc; apply F5]).
  rewrite Edr in Hd. unfold drop_entry in Hd. unfold get_file in He. rewrite He in Hd.
  cbn [fst] in Hd.
  pose proof (slots_delete c path (files (ft (index s)))) as Hsl. rewrite He in Hsl. simpl in Hsl.
  assert (Hrc : reference_count c (index s) = slots c (files (ft (index s))))
    by apply (refs_exact _ Hi).
  apply (dropped_iff clock _ _ _ c (slots c (delete path (files (ft (index s)))))) in Hd
    as [Hpos Hz].
  - split; [|by rewrite F1].
    assert (Hin : c ∈ fe_chunks entry) by (apply occ_pos; lia).
    destruct (unsafe_chunk_None _ _ _ _ Hs c Hin); [lia|done].
  - rewrite occ_nil. lia.
  - destruct Hf as [Hf _]. specialize (Hf c). lia.
Qed.

(** Sealing the log.  Flushing a log in order succeeds or changes nothing
    when nothing waits; the sealed segment extends the chain by one, the whole
    chain still validates, the segment opens, for its owner, to exactly the
    entries that waited, and nothing is left waiting. *)
Theorem flush_extends_a_valid_chain
  `{!Primitives, !PrimitiveLaws, !BodyCodec, !BodyCodecLaws} (id : ObjectId) (nonce : list N)
  (s s' : Store) (r : option SegmentEnvelope) :
  log_invariant (index s) -> next_sequence (index s) <= u64_max -> chain_length (index s) < u64_max ->
  length nonce = NONCE_LEN -> validate_chain (segments_list (index s)) = Ok tt ->
  flush_segment id nonce s = (Ok r, s') ->
  match r with
  | None => pending_entries (index s) = [] /\ s' = s
  | Some e =>
      segments_list (index s') = segments_list (index s) ++ [e]
      /\ validate_chain (segments_list (index s')) = Ok tt
      /\ open_segment e s' = Ok (mkBody (pending_entries (index s)))
      /\ pending_entries (index s') = [] /\ log_invariant (index s')
      /\ next_sequence (index s') = next_sequence (index s)
  end.
Proof.
  intros Hi Hnx Hlen Hn Hv. unfold flush_segment. unfold bind at 1, gets at 1.
  destruct (pending_entries (index s)) as [|e0 waiting] eqn:Hp; [by intros [= <- <-]|].
  unfold bind at 1, gets at 1. unfold bind at 1.
  destruct (create id nonce (oplog_root (user s)) (owner_of s) (device_keys s)
              (head_segment (index s)) (e0 :: waiting)) as [e|x] eqn:Hc; [|done].
  destruct (create_spec _ _ _ _ _ _ _ _ Hn Hc) as (Q1 & Q2 & Q3 & _ & Q5 & Q6 & Q7 & _).
  assert (Hs : seals_all e (index s)).
  { destruct (pending_head (index s) e0 Hi) as [P1 P2]; [by rewrite Hp|].
    destruct (last (e0 :: waiting)) as [el|] eqn:Hl; [|by apply last_None in Hl].
    pose proof (pending_last (index s) el Hi) as P3. rewrite Hp in P3. specialize (P3 Hl).
    simpl in Q6, Q7. injection Q6 as Q6. injection Q7 as Q7. split; congruence || lia. }
  unfold bind, ret. destruct (append_segment e (index s)) as [res ix] eqn:Ha.
  pose proof (append_segment_ok e (index s) Hs) as Hok. rewrite Ha in Hok. simpl in Hok. subst res.
  intros [= <- <-]. cbn [set_index index].
  assert (Eix : ix = (append_segment e (index s)).2) by by rewrite Ha.
  pose proof (append_segment_invariant e (index s) Hi Hs) as Hi'.
  destruct (append_segment_state e (index s) Hi Hs) as (_ & _ & _ & Ep & En).
  pose proof (append_segment_list e (index s) Hi Hs) as Elist. rewrite <- Eix in *.
  split_and!; [done| | | |done|done].
  - apply validate_chain_spec. split; [|by apply segments_gap_free].
    rewrite Elist. apply validate_chain_spec in Hv as [Hv _].
    apply Forall_app. split; [done|]. by repeat constructor.
  - unfold open_segment, owner_of. cbn [set_index user].
    rewrite Q5. unfold owner_of. rewrite N.eqb_refl. exact Q1.
  - unfold pending_entries. rewrite Ep. by rewrite btree_iter_empty.
Qed.


(** ** The properties at concrete stores *)

Module StoreSample.
Import Toy ToyCodec.

Definition keys : UserKeys := derive [9].

(** A fresh store, with room for ten bytes. *)
Definition small_budget : WriteBudget := mkBudget 10 2 (Some 9) NoFolder.
Definition fresh_store : Store :=
  mkStore empty_index ∅ small_chunker keys (mkDeviceKeys [1]) (Some small_budget).

Definition contents : list (list N) := [[1; 2; 3]; [4; 5]].

Definition after_write : Store := (write_stream 7 "a.txt" contents fresh_store).2.
Definition written_entry : FileEntry :=
  match (write_stream 7 "a.txt" contents fresh_store).1 with
  | Ok e => e
  | Err _ => mkFile 0 0 0 [] ∅ 0
  end.

(** A file of two chunks, 10 and 11; chunk 12 was dropped at hour 3. *)
Definition small_entry (chunks : list ChunkId) : FileEntry := mkFile 2 0 0 chunks ∅ 1.
Definition two_files : Index :=
  (put_file 3 "b.txt" (small_entry [11])
    (put_file 3 "b.txt" (small_entry [12])
      (put_file 2 "a.txt" (small_entry [10]) empty_index).2).2).2.

(** Devices 21 and 22 hold chunk 10 and have proved it. *)
Definition held : Index :=
  (note_audit 22 true 100 (note_audit 21 true 100
    (on_led (fun l => record_stored [3] [10] 22 100 (record_stored [3] [10] 21 100 l)) two_files)).2).2.
Definition held_store : Store :=
  mkStore held {[10 := [1]; 11 := [2]; 12 := [3]]} small_chunker keys (mkDeviceKeys [1]) None.

Lemma two_files_invariant : files_invariant two_files /\ fits (files (ft two_files)).
Proof.
  split; [|apply fits_bound; vm_compute; congruence].
  repeat (apply put_file_invariant; [|apply fits_bound; vm_compute; congruence]).
  apply empty_invariant.
Qed.

Lemma held_invariant : files_invariant held /\ fits (files (ft held)).
Proof.
  destruct two_files_invariant as [Hi Hf].
  assert (Eft : ft held = ft two_files) by (vm_compute; reflexivity).
  assert (Epq : pq held = pq two_files) by (vm_compute; reflexivity).
  split; [|by rewrite Eft].
  apply (files_invariant_ext two_files); rewrite ?Eft, ?Epq; done.
Qed.

Lemma small_chunker_ok : chunker_ok small_chunker.
Proof. split_and!; apply Nat.leb_le; reflexivity. Qed.

End StoreSample.

Import Toy ToyCodec StoreSample.

Lemma refused_write_leaves_nothing_witness :
  let run := write_stream 7 "a.txt" [[1; 2; 3]; [4; 5; 6; 7; 8; 9; 10; 11]] fresh_store in
  run.1 = Err (OverBudget "a.txt" 2 13 10) /\ blobs run.2 = ∅.
Proof.
  cbn zeta. split; [vm_compute; reflexivity|].
  refine (proj1 (refused_write_leaves_nothing 7 "a.txt" [[1; 2; 3]; [4; 5; 6; 7; 8; 9; 10; 11]]
    fresh_store _ (OverBudget "a.txt" 2 13 10) _)).
  vm_compute. reflexivity.
Defined.

Lemma accepted_write_within_budget_witness :
  elsewhere small_budget + total_size (files (ft (index after_write))) <= allowed small_budget.
Proof.
  refine (proj1 (accepted_write_within_budget 7 "a.txt" contents fresh_store after_write
    written_entry small_budget small_chunker_ok _ _ empty_invariant _ _ eq_refl _)).
  - repeat constructor; discriminate.
  - discriminate.
  - apply fits_bound; vm_compute; congruence.
  - vm_compute. congruence.
  - vm_compute. reflexivity.
Defined.

Lemma write_then_read_witness : read_file "a.txt" after_write = Ok (Some [1; 2; 3; 4; 5]).
Proof.
  refine (proj1 (write_then_read (fun p => p ∈ split small_chunker [1; 2; 3; 4; 5]) 7 "a.txt"
    contents fresh_store after_write written_entry small_chunker_ok _ _ _ _ _ _)).
  - repeat constructor; discriminate.
  - vm_compute. congruence.
  - intros c sealed Hc. discriminate.
  - apply no_collision_on. apply (bool_decide_eq_true_1 _). vm_compute. reflexivity.
  - apply Forall_forall. auto.
  - vm_compute. reflexivity.
Defined.

Definition sealed_123 : ChunkId * list N :=
  match seal_chunk keys [1; 2; 3] with Ok p => p | Err _ => (0, []) end.

Lemma accepted_chunk_is_genuine_witness :
  has_chunk sealed_123.1 (accept_chunk sealed_123.1 sealed_123.2 fresh_store).2 = true
  /\ blobs fresh_store ⊆ blobs (accept_chunk sealed_123.1 sealed_123.2 fresh_store).2.
Proof.
  split; [vm_compute; reflexivity|].
  refine (proj1 (proj2 (accepted_chunk_is_genuine sealed_123.1 sealed_123.2 fresh_store
    (accept_chunk sealed_123.1 sealed_123.2 fresh_store).2 (Ok true) _))).
  vm_compute. reflexivity.
Defined.

Lemma garbage_collection_spares_files_witness :
  exists report s', collect_garbage (Ok tt) 100 50 held_store = (Ok report, s')
  /\ blobs s' !! 10 = Some [1] /\ blobs s' !! 12 = None.
Proof.
  destruct (garbage_collection_spares_files (Ok tt) 100 50 held_store (proj1 held_invariant))
    as (report & s' & Hrun & _ & Hkeep & Hgone).
  exists report, s'. split; [exact Hrun|]. split.
  - rewrite (Hkeep "a.txt" (small_entry [10]) 10); [reflexivity|vm_compute; reflexivity|left].
  - apply (proj2 (Hgone 12 3 ltac:(vm_compute; reflexivity))). vm_compute. congruence.
Defined.

Lemma release_is_safe_witness :
  (release "a.txt" 110 110 held_store).1 = Ok (Gone (mkRelease 1 1))
  /\ files (ft (index (release "a.txt" 110 110 held_store).2))
     = delete "a.txt" (files (ft (index held_store)))
  /\ (release "b.txt" 110 110 held_store).1 = Ok (NotSafeYet 11 (mkEvidence 0 0 0)).
Proof.
  split_and!; [vm_compute; reflexivity| |vm_compute; reflexivity].
  refine (proj1 (release_is_safe "a.txt" 110 110 held_store
    (release "a.txt" 110 110 held_store).2 (Gone (mkRelease 1 1))
    (proj1 held_invariant) (proj2 held_invariant) _)).
  vm_compute. reflexivity.
Defined.

Lemma run_some {E A S} (x : result E (option A) * S) :
  match x.1 with Ok (Some _) => true | _ => false end = true -> exists e, x = (Ok (Some e), x.2).
Proof. destruct x as [[[e|]|err] s]; try done. eauto. Qed.

Definition waiting_store : Store :=
  set_index (push_pending (mkLog 1 7 (Remove "a" ∅)) empty_index) fresh_store.
Definition flushed : Store := (flush_segment 31 (replicate 24 0) waiting_store).2.

Lemma flush_extends_a_valid_chain_witness :
  exists e, (flush_segment 31 (replicate 24 0) waiting_store).1 = Ok (Some e)
  /\ open_segment e flushed = Ok (mkBody [mkLog 1 7 (Remove "a" ∅)])
  /\ validate_chain (segments_list (index flushed)) = Ok tt.
Proof.
  assert (Hs : match (flush_segment 31 (replicate 24 0) waiting_store).1 with
               | Ok (Some _) => true | _ => false end = true) by (vm_compute; reflexivity).
  apply run_some in Hs as [e Hr].
  assert (Hl : log_invariant (index waiting_store)).
  { apply push_pending_invariant; [apply empty_log_invariant|reflexivity|reflexivity]. }
  destruct (flush_extends_a_valid_chain 31 (replicate 24 0) waiting_store flushed (Some e) Hl)
    as (_ & Hv & Ho & _);
    [vm_compute; congruence|vm_compute; reflexivity|reflexivity|reflexivity|exact Hr|].
  exists e. split; [by rewrite Hr|auto].
Defined.
