(* ===== verification/Placement.v ===== *)
(** * Placement: where chunks should go, for one round

    Models [crates/itsanas-net/src/placement.rs], which feeds the rules of
    [Target] and [Nodeset] from the store: who the hosts are, what each has
    proven, which records still count, which chunk is offered to whom, the census
    and the choice of a copy to release.  The memo of rankings, the set of hosts
    that had their answer and the count of evaluations are state; the random
    start of a census page is an argument. *)

From S2P Require Import Prelude Version Ids Crypto Uptime Network Households Target Nodeset Oplog.
From S2P Require Import IndexState Files ShortQueue Rings Ledger Store.

Definition SAFETY_GRACE : N := 24 * 60 * 60.
Definition RANKING_MEMO : N := 16384.
(** [session.rs]: how long a refusal for lack of room is believed. *)
Definition FULL_RETRY : N := 60 * 60.

Record Placement := mkPlacement {
  p_roster : Roster;
  p_own : gset DeviceId;
  own_rings : gmap DeviceId Uptime;
  passed_lately : gset DeviceId;
  p_releasers : N;
  p_this : DeviceId;
  p_owner : UserId;
  p_goal : Goal;
  p_now : N;
  ranking_memo : gmap ChunkId (list DeviceId);
  pulled : gset DeviceId;
  evaluations : N;
}.

Record Evaluation := mkEvaluation {
  ev_verdict : Verdict;
  ev_want : Want;
  ev_remote : nat;
  ev_holders : list DeviceId;
}.

Record CensusReport := mkCensus {
  cs_examined : nat;
  cs_short : nat;
  cs_settled : nat;
  cs_unreachable : nat;
}.

Section placement.
Context `{!Primitives}.

(** ** Building *)

Definition seen_since (l : Ledger) (since : N) (device : DeviceId) : bool :=
  match device_seen l !! device with Some seen => since <=? seen | None => false end.

Definition passed_since (l : Ledger) (since : N) (device : DeviceId) : bool :=
  match device_passed l !! device with Some passed => since <=? passed | None => false end.

(** One host of the roster, from the tables. *)
Definition host_of (ix : Index) (accounts : gmap DeviceId UserId) (now : N) (device : DeviceId)
  (uptime : Uptime) : Host :=
  let l := led ix in
  let r := reliability device l in
  let draining := draining_in device now l in
  let full := match peer_full l !! device with
              | Some since => now - FULL_RETRY <=? since
              | None => false
              end in
  mkHost device (match accounts !! device with Some user => Known user | None => Unknown end)
    (Some uptime) (worth_sending_to r && negb full && negb draining)
    ((0 <? passed r) && negb (paused r) && negb draining) true
    (network_since device (now - LIVE_FOR) (rg ix)).

Record Building := mkBuilding {
  b_hosts : list Host;
  b_own_rings : gmap DeviceId Uptime;
  b_passed : gset DeviceId;
  b_releasers : N;
}.

Definition build_step (ix : Index) (this : DeviceId) (own : gset DeviceId)
  (accounts : gmap DeviceId UserId) (now : N) (b : Building) (row : DeviceId * Uptime) : Building :=
  let '(device, uptime) := row in
  if device =? this then b
  else
    let recent := seen_since (led ix) (now - LIVE_FOR) device in
    if bool_decide (device ∈ own) then
      mkBuilding (b_hosts b) (<[device := uptime]> (b_own_rings b)) (b_passed b)
        (b_releasers b + (if recent then 1 else 0))
    else if negb recent then b
    else
      mkBuilding (b_hosts b ++ [host_of ix accounts now device uptime]) (b_own_rings b)
        (if passed_since (led ix) (now - LIVE_FOR) device then {[device]} ∪ b_passed b else b_passed b)
        (b_releasers b).

Definition build (s : Store) (own : gset DeviceId) (accounts : gmap DeviceId UserId) (now : N) : Placement :=
  let ix := index s in
  let this := store_device s in
  let b := foldl (build_step ix this own accounts now) (mkBuilding [] ∅ ∅ 1) (uptimes (rg ix)) in
  mkPlacement (Roster_new (b_hosts b) (now / 3600)) own (b_own_rings b) (b_passed b) (b_releasers b)
    this (owner_of s) GOAL now ∅ ∅ 0.

(** ** Questions *)

Definition is_placed (p : Placement) (peer : DeviceId) : bool :=
  bool_decide (is_Some (roster_get (p_roster p) peer)).

Definition is_own (p : Placement) (peer : DeviceId) : bool :=
  (peer =? p_this p) || bool_decide (peer ∈ p_own p).

Definition is_eligible (p : Placement) (peer : DeviceId) : bool :=
  match roster_get (p_roster p) peer with Some host => eligible host | None => false end.

(** Once per round, to a host of the roster. *)
Definition take_pull (peer : DeviceId) (p : Placement) : bool * Placement :=
  if is_placed p peer then
    (bool_decide (peer ∉ pulled p),
     mkPlacement (p_roster p) (p_own p) (own_rings p) (passed_lately p) (p_releasers p) (p_this p)
       (p_owner p) (p_goal p) (p_now p) (ranking_memo p) ({[peer]} ∪ pulled p) (evaluations p))
  else (false, p).

Definition offers (p : Placement) (peer : DeviceId) (e : Evaluation) (since : N) : bool :=
  if bool_decide (peer ∈ ev_holders e) then false
  else if is_placed p peer && negb (is_eligible p peer) then false
  else
    let wants := bool_decide (peer ∈ want_hosts (ev_want e)) in
    let first := (ev_remote e =? 0)%nat in
    let safety := negb (v_durable (ev_verdict e)) && (SAFETY_GRACE <? p_now p - since) && is_eligible p peer in
    wants || first || safety.

(** ** Evaluating a chunk *)

Definition of_host (host : Host) : Holding :=
  mkHolding (host_device host) (host_account host) false (host_uptime host) (host_proven host)
    (host_recent host) (host_network host).

(** One record's holder; none for this device. *)
Definition holding (p : Placement) (device : DeviceId) : option Holding :=
  if device =? p_this p then None
  else if bool_decide (device ∈ p_own p)
  then Some (mkHolding device (Known (p_owner p)) true (own_rings p !! device) false false None)
  else Some match roster_get (p_roster p) device with
            | Some host => of_host host
            | None => mkHolding device Unknown false None false false None
            end.

(** The roster's order for a chunk, remembered up to [RANKING_MEMO] chunks. *)
Definition memo_ranked (chunk : ChunkId) (p : Placement) : list DeviceId * Placement :=
  match ranking_memo p !! chunk with
  | Some order => (order, p)
  | None =>
      let order := host_device <$> ranked (p_roster p) (p_owner p) chunk in
      (order,
       if N.of_nat (size (ranking_memo p)) <? RANKING_MEMO
       then mkPlacement (p_roster p) (p_own p) (own_rings p) (passed_lately p) (p_releasers p) (p_this p)
              (p_owner p) (p_goal p) (p_now p) (<[chunk := order]> (ranking_memo p)) (pulled p) (evaluations p)
       else p)
  end.

(** A record counts while its host could still be merely away. *)
Definition counted_holdings (p : Placement) (stamps : list (DeviceId * N)) : list Holding :=
  omap (fun '(device, stamp) =>
          match holding p device with
          | Some h => if p_now p - lost_after (h_uptime h) <=? stamp then Some h else None
          | None => None
          end) stamps.

Definition evaluation_of (p : Placement) (order : list DeviceId) (stamps : list (DeviceId * N)) : Evaluation :=
  let now_hour := p_now p / 3600 in
  let holdings := counted_holdings p stamps in
  let candidates := omap (fun device => of_host <$> roster_get (p_roster p) device)
                      (filter (fun device => device ∉ h_device <$> holdings) order) in
  mkEvaluation (assess holdings (p_goal p) now_hour) (want holdings candidates (p_goal p) now_hour)
    (length (filter (fun h => h_own h = false /\ h_proven h = true) holdings))
    (merge_sort N.le (h_device <$> holdings)).

Definition count_evaluation (p : Placement) : Placement :=
  mkPlacement (p_roster p) (p_own p) (own_rings p) (passed_lately p) (p_releasers p) (p_this p)
    (p_owner p) (p_goal p) (p_now p) (ranking_memo p) (pulled p) ((evaluations p + 1) mod 2 ^ 64).

Definition evaluate_stamps (chunk : ChunkId) (stamps : list (DeviceId * N)) (p : Placement)
  : Evaluation * Placement :=
  let '(order, p) := memo_ranked chunk (count_evaluation p) in
  (evaluation_of p order stamps, p).

Definition evaluate (s : Store) (chunk : ChunkId) (p : Placement) : Evaluation * Placement :=
  evaluate_stamps chunk (stamps_in chunk (led (index s))) p.

(** ** The census *)

Record CensusPage := mkCensusPage {
  cp_short : list ChunkId;
  cp_settled : list ChunkId;
  cp_unreachable : nat;
}.

Definition census_step (acc : CensusPage * Placement) (row : ChunkId * list (DeviceId * N))
  : CensusPage * Placement :=
  let '(page, p) := acc in
  let '(e, p) := evaluate_stamps row.1 row.2 p in
  if satisfied (ev_verdict e)
  then (mkCensusPage (cp_short page) (cp_settled page ++ [row.1]) (cp_unreachable page), p)
  else
    let unreachable := negb (v_available (ev_verdict e)) && negb (want_satisfied (ev_want e)) in
    (mkCensusPage (cp_short page ++ [row.1]) (cp_settled page)
       (cp_unreachable page + (if unreachable then 1 else 0)), p).

Definition census (rows : nat) (random : ChunkId) (s : Store) (p : Placement)
  : CensusReport * (Store * Placement) :=
  let '(page, ix) := census_next rows random (index s) in
  let '(found, p) := foldl census_step (mkCensusPage [] [] 0, p) page in
  let ix := settle_short (cp_settled found) (enqueue_short (cp_short found) (p_now p) ix) in
  (mkCensus (length page) (length (cp_short found)) (length (cp_settled found)) (cp_unreachable found),
   (set_index ix s, p)).

(** ** Releasing *)

(** Strict evidence: a fresh record of an own device, or of a host that is
    proven, recent and passed an audit lately. *)
Definition strict_holdings (p : Placement) (stamps : list (DeviceId * N)) : list Holding :=
  filter (fun h => h_own h = true \/ (h_proven h = true /\ h_recent h = true /\ h_device h ∈ passed_lately p))
    (omap (fun '(device, _) => holding p device)
       (filter (fun row => p_now p - REFRESH_AFTER <= row.2) stamps)).

Definition release_choice (s : Store) (chunk : ChunkId) (p : Placement) : option DeviceId :=
  release_holder (strict_holdings p (stamps_in chunk (led (index s))))
    (host_device <$> order (p_roster p) (p_owner p) chunk) (p_goal p) (p_releasers p) (p_now p / 3600).

End placement.

(** ** What a round is built from *)

(** A host, as the tables show it. *)
Record host_backed (ix : Index) (this : DeviceId) (own : gset DeviceId) (accounts : gmap DeviceId UserId)
  (now : N) (h : Host) : Prop := {
  hb_this : host_device h <> this;
  hb_own : host_device h ∉ own;
  hb_seen : seen_since (led ix) (now - LIVE_FOR) (host_device h) = true;
  hb_of : exists uptime, h = host_of ix accounts now (host_device h) uptime;
}.

Record building_ok (ix : Index) (this : DeviceId) (own : gset DeviceId) (accounts : gmap DeviceId UserId)
  (now : N) (b : Building) : Prop := {
  bo_hosts : Forall (host_backed ix this own accounts now) (b_hosts b);
  bo_passed : forall d, d ∈ b_passed b -> passed_since (led ix) (now - LIVE_FOR) d = true;
  bo_releasers : 1 <= b_releasers b;
}.

Lemma build_step_ok ix this own accounts now b row :
  building_ok ix this own accounts now b -> building_ok ix this own accounts now (build_step ix this own accounts now b row).
Proof.
  intros Hb. pose proof Hb as [Hh Hp Hr]. destruct row as [device uptime]. unfold build_step.
  destruct (device =? this) eqn:Hthis; [done|]. nbool. cbv zeta.
  case_bool_decide as Hown; [by split; cbn; [..|lia]|].
  destruct (seen_since _ _ device) eqn:Hseen; cbn [negb]; [|done].
  split; cbn [b_hosts b_passed b_releasers]; [|intros d Hd|done].
  - apply Forall_app. split; [done|]. apply Forall_singleton. split; cbn [host_device host_of]; eauto.
  - destruct (passed_since _ _ device) eqn:Hpass; [|by apply Hp].
    apply elem_of_union in Hd as [->%elem_of_singleton|Hd]; [done|by apply Hp].
Qed.

Lemma build_ok ix this own accounts now rows :
  building_ok ix this own accounts now (foldl (build_step ix this own accounts now) (mkBuilding [] ∅ ∅ 1) rows).
Proof.
  assert (Hgen : forall b, building_ok ix this own accounts now b ->
    building_ok ix this own accounts now (foldl (build_step ix this own accounts now) b rows)).
  { induction rows as [|row rows IH]; intros b Hb; [done|]. cbn [foldl]. by apply IH, build_step_ok. }
  apply Hgen. split; cbn; [by constructor|set_solver|lia].
Qed.

Lemma roster_get_elem r d h : roster_get r d = Some h -> h ∈ hosts r /\ host_device h = d.
Proof.
  unfold roster_get, roster_find. destruct (list_find _ _) as [[i h']|] eqn:Hf; [|done].
  cbn. intros [= ->]. apply list_find_Some in Hf as (Hl & Hd & _). split; [|done]. by eapply list_elem_of_lookup_2.
Qed.

Lemma roster_new_elem l now h : h ∈ hosts (Roster_new l now) -> h ∈ l.
Proof. cbn [Roster_new hosts]. intros Hh%dedup_elem. by rewrite sort_hosts_perm in Hh. Qed.

Section theorems.
Context `{!Primitives}.

Lemma holding_device p d h : holding p d = Some h -> h_device h = d /\ d <> p_this p.
Proof.
  unfold holding. destruct (d =? p_this p) eqn:He; [done|]. nbool.
  case_bool_decide; [by intros [= <-]|]. destruct (roster_get (p_roster p) d) as [host|] eqn:Hg; intros [= <-]; [|done].
  apply roster_get_elem in Hg as [_ Hg]. done.
Qed.

Lemma stamps_in_spec (chunk : ChunkId) (l : Ledger) d t : (d, t) ∈ stamps_in chunk l <-> holders l !! (chunk, d) = Some t.
Proof.
  unfold stamps_in. rewrite list_elem_of_fmap. split.
  - intros ([[c d'] t'] & [= -> ->] & Hin). apply list_elem_of_filter in Hin as [Hc Hin]. cbn in Hc. subst c.
    by apply elem_of_btree_iter in Hin.
  - intros Hl. exists (chunk, d, t). split; [done|]. apply list_elem_of_filter. split; [done|]. by apply elem_of_btree_iter.
Qed.

Lemma stamps_in_NoDup (chunk : ChunkId) (l : Ledger) : NoDup (stamps_in chunk l).*1.
Proof.
  unfold stamps_in. rewrite <- list_fmap_compose.
  assert (Hnd : NoDup (filter (fun p => p.1.1 = chunk) (btree_iter (holders l))).*1).
  { eapply sublist_NoDup; [apply (NoDup_btree_keys (holders l))|]. apply fmap_sublist, sublist_filter. }
  assert (Hall : Forall (fun p => p.1.1 = chunk) (filter (fun p => p.1.1 = chunk) (btree_iter (holders l)))).
  { apply Forall_forall. intros p Hp. by apply list_elem_of_filter in Hp as [Hp _]. }
  revert Hnd Hall. generalize (filter (fun p : ChunkId * DeviceId * N => p.1.1 = chunk) (btree_iter (holders l))). intros rows.
  induction rows as [|[[c d] t] rows IH]; intros Hnd Hall; [constructor|]. cbn in *.
  apply NoDup_cons in Hnd as [Hn Hnd]. apply Forall_cons in Hall as [Hc Hall]. cbn in Hc. subst c.
  constructor; [|by apply IH]. intros Hin. apply Hn. apply list_elem_of_fmap in Hin as ([[c' d'] t'] & Hd & Hin).
  cbn in Hd. subst d'. rewrite Forall_forall in Hall. specialize (Hall _ Hin). cbn in Hall. subst c'.
  apply list_elem_of_fmap. by exists (chunk, d, t').
Qed.

Lemma omap_holding_devices p (rows : list (DeviceId * N)) :
  h_device <$> omap (fun '(device, _) => holding p device) rows `sublist_of` rows.*1.
Proof.
  induction rows as [|[d t] rows IH]; [done|]. cbn.
  destruct (holding p d) as [h|] eqn:Hh; cbn; [|by constructor].
  destruct (holding_device _ _ _ Hh) as [-> _]. by constructor.
Qed.

Lemma strict_NoDup p chunk l : NoDup (h_device <$> strict_holdings p (stamps_in chunk l)).
Proof.
  unfold strict_holdings. eapply sublist_NoDup; [|apply fmap_sublist, sublist_filter].
  eapply sublist_NoDup; [|apply omap_holding_devices].
  eapply sublist_NoDup; [|apply fmap_sublist, sublist_filter]. apply stamps_in_NoDup.
Qed.

(** What stands behind a copy that counts when one is let go: another account's
    host, with a record of the chunk fresher than [REFRESH_AFTER], seen and
    passing an audit within [LIVE_FOR], neither paused nor draining. *)
Record backed (s : Store) (own : gset DeviceId) (accounts : gmap DeviceId UserId) (now : N) (chunk : ChunkId)
  (h : Holding) : Prop := {
  bk_remote : h_device h <> store_device s /\ h_device h ∉ own;
  bk_record : exists stamp, holders (led (index s)) !! (chunk, h_device h) = Some stamp /\ now - REFRESH_AFTER <= stamp;
  bk_seen : exists seen, device_seen (led (index s)) !! h_device h = Some seen /\ now - LIVE_FOR <= seen;
  bk_passed : exists passed, device_passed (led (index s)) !! h_device h = Some passed /\ now - LIVE_FOR <= passed;
  bk_trusted : paused (reliability (h_device h) (led (index s))) = false /\ draining_in (h_device h) now (led (index s)) = false;
  bk_account : h_account h = match accounts !! h_device h with Some user => Known user | None => Unknown end;
  bk_network : h_network h = network_since (h_device h) (now - LIVE_FOR) (rg (index s));
}.

Lemma strict_backed s own accounts now chunk h :
  h ∈ proven_remote (strict_holdings (build s own accounts now) (stamps_in chunk (led (index s)))) ->
  backed s own accounts now chunk h.
Proof.
  intros (Hin & Hno & Hpr)%elem_of_proven_remote. unfold strict_holdings in Hin.
  apply list_elem_of_filter in Hin as [Hst Hin]. destruct Hst as [Hown|(_ & _ & Hpl)]; [congruence|].
  apply list_elem_of_omap in Hin as ([d t] & Hrow & Hh). apply list_elem_of_filter in Hrow as [Hfresh Hrow].
  apply stamps_in_spec in Hrow. cbn [snd] in Hfresh. destruct (holding_device _ _ _ Hh) as [Hd Hthis]. subst d.
  unfold holding in Hh. rewrite (proj2 (N.eqb_neq _ _)) in Hh by done.
  case_bool_decide; [apply (f_equal (fmap h_own)) in Hh; cbn in Hh; congruence|].
  destruct (roster_get _ (h_device h)) as [host|] eqn:Hg; [|apply (f_equal (fmap h_proven)) in Hh; cbn in Hh; congruence].
  injection Hh as Hh. apply roster_get_elem in Hg as [Hel Hdev].
  cbn [build p_roster] in Hel. apply roster_new_elem in Hel.
  pose proof (build_ok (index s) (store_device s) own accounts now (uptimes (rg (index s)))) as [Hb Hp _].
  rewrite Forall_forall in Hb. specialize (Hb _ Hel). destruct Hb as [Ht Ho Hseen [uptime Hof]].
  specialize (Hp _ Hpl). rewrite Hdev in *. unfold seen_since in Hseen. unfold passed_since in Hp.
  destruct (device_seen _ !! _) as [seen|] eqn:Hsn; [|done]. destruct (device_passed _ !! _) as [passed|] eqn:Hps; [|done].
  nbool. rewrite <- Hh in Hpr. rewrite Hof in Hh, Hpr. cbn [of_host host_of host_proven] in Hpr.
  apply andb_true_iff in Hpr as [Hpr Hdr]. apply andb_true_iff in Hpr as [_ Hpa].
  apply negb_true_iff in Hdr, Hpa. split; [done|eauto..| | |].
  - done.
  - exact (eq_sym (f_equal h_account Hh)).
  - exact (eq_sym (f_equal h_network Hh)).
Qed.

(** ** One round ranks one way *)

(** What [build] froze. *)
Record frozen (p p' : Placement) : Prop := {
  fz_roster : p_roster p' = p_roster p;
  fz_own : p_own p' = p_own p;
  fz_rings : own_rings p' = own_rings p;
  fz_passed : passed_lately p' = passed_lately p;
  fz_releasers : p_releasers p' = p_releasers p;
  fz_this : p_this p' = p_this p;
  fz_owner : p_owner p' = p_owner p;
  fz_goal : p_goal p' = p_goal p;
  fz_now : p_now p' = p_now p;
}.

#[export] Instance frozen_preorder : PreOrder frozen.
Proof. split; [by split|]. intros p1 p2 p3 [] []. split; congruence. Qed.

Definition fresh_ranking (p : Placement) (chunk : ChunkId) : list DeviceId :=
  host_device <$> ranked (p_roster p) (p_owner p) chunk.

Definition memo_ok (p : Placement) : Prop :=
  forall chunk order, ranking_memo p !! chunk = Some order -> order = fresh_ranking p chunk.

Lemma memo_ranked_ok chunk p :
  memo_ok p -> (memo_ranked chunk p).1 = fresh_ranking p chunk
               /\ frozen p (memo_ranked chunk p).2 /\ memo_ok (memo_ranked chunk p).2.
Proof.
  intros Hok. unfold memo_ranked. destruct (ranking_memo p !! chunk) as [order|] eqn:Hm.
  - cbn [fst snd]. split_and!; [by apply Hok|reflexivity|done].
  - destruct (_ <? _); cbn [fst snd]; (split_and!; [done|by split|]); [|done].
    intros c o Ho. cbn [ranking_memo] in Ho. apply lookup_insert_Some in Ho as [[<- <-]|[_ Ho]]; [done|by apply Hok].
Qed.

Lemma evaluation_frozen p p' order stamps : frozen p p' -> evaluation_of p' order stamps = evaluation_of p order stamps.
Proof.
  intros [Hr Ho Hg _ _ Ht Hw Hgo Hn].
  assert (Hh : forall d, holding p' d = holding p d) by (intros d; unfold holding; by rewrite Ht, Ho, Hw, Hg, Hr).
  assert (Hc : counted_holdings p' stamps = counted_holdings p stamps).
  { unfold counted_holdings. rewrite Hn. induction stamps as [|[d t] stamps IH]; [done|]. csimpl. by rewrite Hh, IH. }
  unfold evaluation_of. by rewrite Hc, Hgo, Hn, Hr.
Qed.

Lemma evaluate_stamps_ok chunk stamps p :
  memo_ok p -> (evaluate_stamps chunk stamps p).1 = evaluation_of p (fresh_ranking p chunk) stamps
               /\ frozen p (evaluate_stamps chunk stamps p).2 /\ memo_ok (evaluate_stamps chunk stamps p).2.
Proof.
  intros Hok. unfold evaluate_stamps.
  destruct (memo_ranked_ok chunk (count_evaluation p)) as (H1 & H2 & H3); [exact Hok|].
  destruct (memo_ranked chunk (count_evaluation p)) as [order p']. cbn [fst snd] in *. subst order.
  assert (Hf : frozen p p') by (transitivity (count_evaluation p); [by split|done]).
  split_and!; [|done..]. by rewrite (evaluation_frozen p p').
Qed.

(** Whatever else of a round has run: evaluations, pulls, pages of the census. *)
Inductive round_step : Placement -> Placement -> Prop :=
| step_evaluate chunk stamps p : round_step p (evaluate_stamps chunk stamps p).2
| step_pull peer p : round_step p (take_pull peer p).2
| step_census rows random s p : round_step p (census rows random s p).2.2.

Lemma census_step_ok acc row :
  memo_ok acc.2 -> frozen acc.2 (census_step acc row).2 /\ memo_ok (census_step acc row).2.
Proof.
  destruct acc as [page p]. cbn [snd]. intros Hok. unfold census_step.
  destruct (evaluate_stamps_ok row.1 row.2 p Hok) as (_ & H2 & H3).
  destruct (evaluate_stamps row.1 row.2 p) as [e p']. cbn [fst snd] in *. by destruct (satisfied _).
Qed.

Lemma census_fold_ok rows acc :
  memo_ok acc.2 -> frozen acc.2 (foldl census_step acc rows).2 /\ memo_ok (foldl census_step acc rows).2.
Proof.
  revert acc. induction rows as [|row rows IH]; intros acc Hok; [done|]. cbn [foldl].
  destruct (census_step_ok acc row Hok) as [H1 H2]. destruct (IH _ H2) as [H3 H4]. split; [|done]. by etransitivity.
Qed.

Lemma round_step_ok p p' : round_step p p' -> memo_ok p -> frozen p p' /\ memo_ok p'.
Proof.
  intros [chunk stamps q|peer q|rows random s q] Hok.
  - by destruct (evaluate_stamps_ok chunk stamps q Hok) as (_ & ? & ?).
  - unfold take_pull. by destruct (is_placed q peer).
  - unfold census. destruct (census_next rows random (index s)) as [page ix].
    destruct (census_fold_ok page (mkCensusPage [] [] 0, q) Hok) as [H1 H2].
    by destruct (foldl census_step _ page) as [found q'].
Qed.

(** A round judges a chunk one way.  After any evaluations, answers to hosts
    and census pages, with the memo of rankings holding whatever it holds and
    full or not, a chunk with given records is evaluated exactly as on the
    placement that was built, with the roster ranked afresh: every push, pull
    and census of the round agree. *)
Theorem round_evaluates_one_way (s : Store) (own : gset DeviceId) (accounts : gmap DeviceId UserId) (now : N)
  (p : Placement) (chunk : ChunkId) (stamps : list (DeviceId * N)) :
  let built := build s own accounts now in
  rtc round_step built p ->
  (evaluate_stamps chunk stamps p).1 = evaluation_of built (fresh_ranking built chunk) stamps.
Proof.
  intros built Hrun. assert (Hinv : frozen built p /\ memo_ok p).
  { assert (Hb : memo_ok built) by (intros c o Ho; cbn in Ho; by rewrite lookup_empty in Ho).
    clearbody built. induction Hrun as [q|q1 q2 q3 Hst _ IH]; [done|].
    destruct (round_step_ok _ _ Hst Hb) as [H1 H2]. destruct (IH H2) as [H3 H4]. split; [by etransitivity|done]. }
  destruct Hinv as [Hf Hok]. destruct (evaluate_stamps_ok chunk stamps p Hok) as [-> _].
  rewrite (evaluation_frozen built p) by done. unfold fresh_ranking. by rewrite (fz_roster _ _ Hf), (fz_owner _ _ Hf).
Qed.

(** A copy is let go only when others stand, on evidence this device gathered
    itself.  When [release_choice] names a host for a chunk, then even if every
    own device seen lately lets one more copy go at the same time, more hosts
    than the goal asks for still have the chunk, no two of them of one account or
    on one network, none of them the owner's, each with a record refreshed within
    [REFRESH_AFTER], each seen and each having passed a storage audit within
    [LIVE_FOR], none paused and none draining. *)
Theorem released_copy_is_spare (s : Store) (own : gset DeviceId) (accounts : gmap DeviceId UserId) (now : N)
  (chunk : ChunkId) (d : DeviceId) (others : list DeviceId) :
  let p := build s own accounts now in
  release_choice s chunk p = Some d ->
  N.of_nat (length others) < p_releasers p -> p_releasers p < 2 ^ 63 ->
  exists kept : list Holding,
    goal_accounts GOAL < N.of_nat (length kept)
    /\ NoDup kept /\ (forall a b, a ∈ kept -> b ∈ kept -> shared a b = true -> a = b)
    /\ forall h, h ∈ kept -> h_device h ∉ d :: others /\ backed s own accounts now chunk h.
Proof.
  intros p Hrel Hn Hsmall. unfold release_choice in Hrel. apply release_holder_may in Hrel as [_ Hm].
  apply may_release_margin in Hm as [Hm _].
  set (strict := strict_holdings p (stamps_in chunk (led (index s)))) in *.
  pose proof (strict_NoDup p chunk (led (index s))) as Hnd. fold strict in Hnd.
  pose proof (households_without_all (without strict d) others (without_NoDup _ d Hnd)) as Hw.
  change (without_all (without strict d) others) with (without_all strict (d :: others)) in Hw.
  rewrite sat_add_exact in Hm by (change (goal_accounts (p_goal p)) with 2; unfold u64_max; lia).
  destruct (households_heads (proven_remote (without_all strict (d :: others)))) as (kept & Hlen & Hsub & [Hk1 Hk2] & _).
  exists kept. split_and!; [change (goal_accounts (p_goal p)) with 2 in Hm; change (goal_accounts GOAL) with 2; lia|done| |].
  - intros a b Ha Hb Hs. apply Hk2; [done..|]. apply rtc_once. split_and!; [by apply Hsub..|done].
  - intros h Hh. apply Hsub in Hh. apply elem_of_proven_remote in Hh as (Hin & Ho & Hp).
    assert (Hall : forall ds l, h ∈ without_all l ds -> h ∈ l /\ h_device h ∉ ds).
    { induction ds as [|x ds IH]; intros l Hl; [split; [done|set_solver]|]. cbn [without_all foldl] in Hl.
      apply IH in Hl as [Hl Hx]. apply list_elem_of_filter in Hl as [Hne Hl]. split; [done|]. set_solver. }
    destruct (Hall _ _ Hin) as [Hst Hnot]. split; [done|]. apply strict_backed. by apply elem_of_proven_remote.
Qed.

End theorems.

(** ** Both at a concrete store *)

Module SixHosts.
Import Toy StoreSample.

(** Hosts 11 to 16, of six accounts, each holding chunk 10, met hourly for two
    hundred hours and audited at the last. *)
Definition hosts_met : Index :=
  foldl (fun ix d => (note_audit d true 720000 (on_rg (fun r => mkRings (<[d := steady_ring]> (device_uptime r))
                        (device_network r) (latest_hour r) (pending_jump r))
                      (on_led (record_stored [3] [10] d 720000) ix))).2)
    two_files [11; 12; 13; 14; 15; 16].

Definition met_store : Store := set_index hosts_met held_store.
Definition accounts_met : gmap DeviceId UserId :=
  list_to_map ((fun d => (d, d + 100)) <$> [11; 12; 13; 14; 15; 16]).

End SixHosts.

Import Toy SixHosts.

Lemma released_copy_is_spare_witness :
  exists d, release_choice met_store 10 (build met_store ∅ accounts_met 720000) = Some d
  /\ exists kept : list Holding,
    goal_accounts GOAL < N.of_nat (length kept)
    /\ NoDup kept /\ (forall a b, a ∈ kept -> b ∈ kept -> shared a b = true -> a = b)
    /\ forall h, h ∈ kept -> h_device h ∉ [d] /\ backed met_store ∅ accounts_met 720000 10 h.
Proof.
  destruct (release_choice met_store 10 (build met_store ∅ accounts_met 720000)) as [d|] eqn:Hd;
    [|vm_compute in Hd; discriminate Hd].
  exists d. split; [reflexivity|].
  apply (released_copy_is_spare met_store ∅ accounts_met 720000 10 d []); [exact Hd|vm_compute; reflexivity..].
Defined.

Lemma round_evaluates_one_way_witness :
  let built := build met_store ∅ accounts_met 720000 in
  rtc round_step built (take_pull 11 (evaluate_stamps 10 [(11, 720000)] built).2).2
  /\ (evaluate_stamps 10 [(12, 720000)] (take_pull 11 (evaluate_stamps 10 [(11, 720000)] built).2).2).1
     = evaluation_of built (fresh_ranking built 10) [(12, 720000)].
Proof.
  intros built.
  assert (Hrun : rtc round_step built (take_pull 11 (evaluate_stamps 10 [(11, 720000)] built).2).2).
  { eapply rtc_l; [apply step_evaluate|]. eapply rtc_l; [apply step_pull|]. apply rtc_refl. }
  split; [exact Hrun|].
  exact (round_evaluates_one_way met_store ∅ accounts_met 720000 _ 10 [(12, 720000)] Hrun).
Defined.
