(* ===== verification/ClaimBook.v ===== *)
(** * ClaimBook: how much a host stores for each account

    Models [crates/itsanas-node/src/owners.rs] and the trait it implements
    ([Owners] of [crates/itsanas-net/src/service.rs]): the claims devices
    presented to this host, what the coordinator said of each, the allowance of
    an account, and the share of the host's pledge lent on promises alone.
    Instants are numbers of seconds, and an elapsed time is zero when the clock
    went back.  The coordinator's answer to a question, and whether one of the
    few slots for asking is free, are arguments: they belong to another machine
    and to other threads.  [take] is its two halves, under the book's lock and
    after it. *)

From S2P Require Import Prelude Version Ids Crypto Oplog Wire IndexState Files Ledger Store Vault Accounting Claims.

Definition UNPROVEN_SHARE : N * N := (3, 10).
Definition MAX_CLAIMS : nat := 4096.
Definition RECOUNT_EVERY : N := 60.
Definition RECOUNT_ON_REFUSAL : N := 1.
Definition STANDING_FOR : N := 2 * 60 * 60.
Definition KEEP_CLAIM_STEP : N := 15 * 60.
Definition ASKS_PER_MINUTE : nat := 30.
Definition ASK_AGAIN_AFTER : N := 60 * 60.
(** [session.rs] *)
Definition FULL_RETRY : N := 60 * 60.

Definition ACCOUNT_FULL : string := "this account has stored here what its pledge earns".
Definition UNPROVEN_FULL : string :=
  "this host lends no more on promises alone: host something for it to earn more".
Definition WITHDRAWN : string := "the coordinator says this device was withdrawn by its account".
Definition UNCONFIRMED : string :=
  "this host has not confirmed this device with the coordinator lately; it stores here once it has (the next round, if the coordinator answers)".
Definition CONTRADICTED : string :=
  "a device of this account failed this host's storage audits; it stores here only what its devices have proved they hold for this host".
Definition UPDATE_REQUIRED : string :=
  "this host stores only for devices that present their account's claim: update ITSaNAS".

(** What a refusal says: a sentence, or the error of a check. *)
Inductive Refusal :=
| Said (why : string)
| Because (e : CoordError).

Inductive Standing :=
| Unconfirmed
| Live (at_ : N)
| Withdrawn.

#[export] Instance Standing_eq_dec : EqDecision Standing.
Proof. solve_decision. Defined.

Inductive Verdict := SaysLive | SaysWithdrawn | SaysUnenrolled | NoAnswer.

#[export] Instance Verdict_eq_dec : EqDecision Verdict.
Proof. solve_decision. Defined.

Record Held := mkHeld {
  he_owner : UserId;
  he_pledged : N;
  he_issued : N;
  he_claim : list N;
  he_standing : Standing;
  he_presented : N;
  he_asked : option (N * bool);
}.

Record Lent := mkLent { lent_total : N; lent_counted : option N }.

Record ClaimBook := mkBook {
  book : gmap DeviceId Held;
  lent : Lent;
  capacity : nat;
  asked_at : list N;
}.

Definition with_capacity (n : nat) : ClaimBook := mkBook ∅ (mkLent 0 None) n [].
Definition book_new : ClaimBook := with_capacity MAX_CLAIMS.

Definition set_book (m : gmap DeviceId Held) (b : ClaimBook) : ClaimBook :=
  mkBook m (lent b) (capacity b) (asked_at b).
Definition set_lent (l : Lent) (b : ClaimBook) : ClaimBook :=
  mkBook (book b) l (capacity b) (asked_at b).

(** [Standing::Live(at) if at.elapsed() < STANDING_FOR] *)
Definition confirmed (now : N) (s : Standing) : bool :=
  match s with Live at_ => now - at_ <? STANDING_FOR | _ => false end.

(** ** Presenting a claim *)

(** [while front.is_some_and(…) { pop_front() }] *)
Fixpoint pop_front_while {A} (p : A -> bool) (l : list A) : list A :=
  match l with
  | [] => []
  | a :: l' => if p a then pop_front_while p l' else l
  end.

(** Drop the questions of more than a minute ago, then count one more if it
    fits. *)
Definition may_ask (now : N) (b : ClaimBook) : bool * ClaimBook :=
  let asked := pop_front_while (fun at_ => 60 <=? now - at_) (asked_at b) in
  if (ASKS_PER_MINUTE <=? length asked)%nat
  then (false, mkBook (book b) (lent b) (capacity b) asked)
  else (true, mkBook (book b) (lent b) (capacity b) (asked ++ [now])).

Definition note_held (verdict : Verdict) (at_ : N) (h : Held) : Held :=
  mkHeld (he_owner h) (he_pledged h) (he_issued h) (he_claim h)
    (match he_standing h, verdict with
     | Withdrawn, _ | _, SaysWithdrawn => Withdrawn
     | _, SaysLive => Live at_
     | _, SaysUnenrolled => Unconfirmed
     | kept, NoAnswer => kept
     end)
    (he_presented h) (Some (at_, bool_decide (verdict = SaysUnenrolled))).

Definition note_at (device : DeviceId) (verdict : Verdict) (at_ : N) (b : ClaimBook) : ClaimBook :=
  set_book (alter (note_held verdict at_) device (book b)) b.

Section book.
Context `{!Primitives, !BodyCodec, !Postcard SignedClaim}.

(** The part of [take] under the lock: [None] when an older claim changes
    nothing, else the claim with what was known of its device. *)
Definition take_locked (caller : DeviceId) (bytes : list N) (v : Vault) (now : N) (b : ClaimBook)
  : result Refusal (option (SignedClaim * Standing * option (N * bool))) * ClaimBook :=
  match from_bytes bytes with
  | None => (Err (Said "not a claim"), b)
  | Some signed =>
      match claim_verify_origin signed with
      | Err e => (Err (Because e), b)
      | Ok _ =>
          let claim := sc_claim signed in
          if negb (cl_device claim =? caller)
          then (Err (Said "the claim is for another device than the one connected"), b)
          else if cl_revoked claim
          then (Err (Said "this device was withdrawn by its account"), set_book (delete caller (book b)) b)
          else
            let keep standing presented asked m :=
              (Ok (Some (signed, standing, asked)),
               set_book (<[caller := mkHeld (cl_owner claim) (cl_pledged_bytes claim) (cl_issued_unix claim)
                                       bytes standing presented asked]> m) b) in
            match book b !! caller with
            | Some held =>
                if negb (he_owner held =? cl_owner claim)
                then (Err (Said "this device is already claimed by another account"), b)
                else if decide (he_standing held = Withdrawn) then (Err (Said WITHDRAWN), b)
                else if cl_issued_unix claim <? he_issued held then (Ok None, b)
                else keep (he_standing held) (he_presented held) (he_asked held) (book b)
            | None =>
                let siblings := length (filter (fun row => he_owner row.2 = cl_owner claim) (btree_iter (book b))) in
                if (MAX_DEVICES_PER_ACCOUNT <=? siblings)%nat
                then (Err (Said "this account already has its 10 devices here"), b)
                else if (capacity b <=? size (book b))%nat then
                  match list_find (fun row => held_bytes_for (he_owner row.2) v = 0) (btree_iter (book b)) with
                  | Some (_, (device, _)) => keep Unconfirmed now None (delete device (book b))
                  | None => (Err (Said "this host remembers no more devices"), b)
                  end
                else keep Unconfirmed now None (book b)
            end
      end
  end.

(** The whole of [take]: then, for a device of another account that was never asked about,
    the question, when the minute's budget and a slot allow one. *)
Definition take_claim (asking : option (UserId * (SignedClaim -> Verdict))) (slot : bool) (caller : DeviceId)
  (bytes : list N) (v : Vault) (now : N) (b : ClaimBook) : result Refusal unit * ClaimBook :=
  match take_locked caller bytes v now b with
  | (Err e, b) => (Err e, b)
  | (Ok None, b) => (Ok tt, b)
  | (Ok (Some (signed, standing, asked)), b) =>
      match asking with
      | None => (Ok tt, b)
      | Some (own, asker) =>
          let settled := match standing with Live at_ => now - at_ <? STANDING_FOR / 2 | _ => false end in
          if negb (cl_owner (sc_claim signed) =? own) && negb settled && bool_decide (asked = None) then
            let '(may, b) := may_ask now b in
            if may && slot then (Ok tt, note_at caller (asker signed) now b) else (Ok tt, b)
          else (Ok tt, b)
      end
  end.

(** [verdict]: the coordinator can refuse a member, never vouch for one. *)
Definition verdict (presented : SignedClaim) (answer : option SignedClaim) : Verdict :=
  match answer with
  | Some held =>
      if is_ok (claim_verify_origin held) && (cl_owner (sc_claim held) =? cl_owner (sc_claim presented))
         && (cl_device (sc_claim held) =? cl_device (sc_claim presented))
      then if cl_revoked (sc_claim held) then SaysWithdrawn else SaysLive
      else SaysUnenrolled
  | None => SaysUnenrolled
  end.

(** ** Whom to ask the coordinator about *)

Definition due_key (now : N) (h : Held) : option (N * N) :=
  match he_standing h, he_asked h with
  | Live at_, _ => if STANDING_FOR / 2 <=? now - at_ then Some (0, at_) else None
  | Unconfirmed, None => Some (1, he_presented h)
  | Unconfirmed, Some (at_, false) => Some (1, he_presented h)
  | Unconfirmed, Some (at_, true) => if ASK_AGAIN_AFTER <=? now - at_ then Some (2, at_) else None
  | Withdrawn, _ => None
  end.

Definition due_before (a b : (N * N) * DeviceId) : bool :=
  (a.1.1 <? b.1.1) || ((a.1.1 =? b.1.1) && ((a.1.2 <? b.1.2) || ((a.1.2 =? b.1.2) && (a.2 <=? b.2)))).

Definition due (own : UserId) (at_most : nat) (now : N) (b : ClaimBook) : list (DeviceId * list N) :=
  let rows := omap (fun '(device, h) => (fun key => (key, device)) <$> due_key now h)
                (filter (fun row => he_owner row.2 <> own) (btree_iter (book b))) in
  omap (fun row => (fun h => (row.2, he_claim h)) <$> book b !! row.2) (take at_most (sort_by due_before rows)).

Definition accounts (now : N) (b : ClaimBook) : gmap DeviceId UserId :=
  omap (fun h => if confirmed now (he_standing h) then Some (he_owner h) else None) (book b).

(** ** What an account has here *)

(** [Store::bytes_held_by]: records times the mean chunk. *)
Definition bytes_held_by (device : DeviceId) (s : Store) : N * Store :=
  let records := held_by_device device (led (index s)) in
  if records =? 0 then (0, s)
  else
    let chunks := N.max (N.of_nat (live_chunk_count (index s))) 1 in
    let '(bytes, ix) := local_bytes (index s) in
    (sat_mul records (bytes / chunks), set_index ix s).

Record AccountHere := mkAccountHere { a_pledged : N; a_proved : N; a_contradicted : bool }.

Definition refused_lately (l : Ledger) (device : DeviceId) (now : N) : bool :=
  match peer_full l !! device with Some since => now - FULL_RETRY <=? since | None => false end.

Definition standing_step (now_unix : N) (acc : AccountHere * Store) (row : DeviceId * Held) : AccountHere * Store :=
  let '(a, s) := acc in
  let '(device, h) := row in
  let record := reliability device (led (index s)) in
  let '(proved, s) := if paused record then (0, s) else bytes_held_by device s in
  (mkAccountHere
     (sat_add (a_pledged a) (if refused_lately (led (index s)) device now_unix
                             then N.min (he_pledged h) proved else he_pledged h))
     (sat_add (a_proved a) proved) (a_contradicted a || paused record), s).

Definition standing (b : gmap DeviceId Held) (owner : UserId) (now_unix : N) (s : Store) : AccountHere * Store :=
  foldl (standing_step now_unix) (mkAccountHere 0 0 false, s)
    (filter (fun row => he_owner row.2 = owner) (btree_iter b)).

Definition earned (proved : N) : N := room_earned split_DEFAULT proved.

(** What is held, for every account in the book, beyond what its proof earns. *)
Definition lent_step (b : gmap DeviceId Held) (now_unix : N) (v : Vault) (acc : N * Store) (owner : UserId) : N * Store :=
  let '(total, s) := acc in
  let '(a, s) := standing b owner now_unix s in
  (sat_add total (held_bytes_for owner v - earned (a_proved a)), s).

Definition book_owners (b : gmap DeviceId Held) (own : UserId) : list UserId :=
  filter (fun o => o <> own) (merge_sort N.le (elements (list_to_set (he_owner <$> (btree_iter b).*2) : gset UserId))).

Definition lent_on_promise (b : gmap DeviceId Held) (now_unix : N) (v : Vault) (s : Store) : N * Store :=
  foldl (lent_step b now_unix v) (0, s) (book_owners b (owner_of s)).

(** ** Admitting a store *)

Definition full_text (why : string) (mine allowance : N) (a : AccountHere) : string :=
  (why ++ ": " ++ String.string_of_list_ascii (decimal mine) ++ " of " ++ String.string_of_list_ascii (decimal allowance)
   ++ " bytes (pledged " ++ String.string_of_list_ascii (decimal (a_pledged a)) ++ ", proved "
   ++ String.string_of_list_ascii (decimal (a_proved a)) ++ ")")%string.

(** The promised part of a store, against the share lent on promises. *)
Definition lend (on_promise host_pledge now now_unix : N) (v : Vault) (b : ClaimBook) (s : Store)
  : result string unit * (ClaimBook * Store) :=
  let share := N.min (host_pledge * UNPROVEN_SHARE.1 / UNPROVEN_SHARE.2) u64_max in
  let stale := match lent_counted (lent b) with Some at_ => RECOUNT_EVERY <=? now - at_ | None => true end in
  let over := share <? sat_add (lent_total (lent b)) on_promise in
  let recent := match lent_counted (lent b) with Some at_ => now - at_ <? RECOUNT_ON_REFUSAL | None => false end in
  let '(l, s) := if stale || (over && negb recent)
                 then let '(total, s) := lent_on_promise (book b) now_unix v s in (mkLent total (Some now), s)
                 else (lent b, s) in
  if share <? sat_add (lent_total l) on_promise then (Err UNPROVEN_FULL, (set_lent l b, s))
  else (Ok tt, (set_lent (mkLent (sat_add (lent_total l) on_promise) (lent_counted l)) b, s)).

Definition admits (caller : DeviceId) (owner : UserId) (incoming host_pledge now now_unix : N) (v : Vault)
  (b : ClaimBook) (s : Store) : result string unit * (ClaimBook * Store) :=
  match book b !! caller with
  | None => (Err UPDATE_REQUIRED, (b, s))
  | Some held =>
      if negb (he_owner held =? owner) then (Err "this device's claim is for another account"%string, (b, s))
      else if owner =? owner_of s then (Ok tt, (b, s))
      else if decide (he_standing held = Withdrawn) then (Err WITHDRAWN, (b, s))
      else if negb (confirmed now (he_standing held)) then (Err UNCONFIRMED, (b, s))
      else
        let '(a, s) := standing (book b) owner now_unix s in
        let earned_by_proof := earned (a_proved a) in
        let allowance := if a_contradicted a then earned_by_proof else earned (a_pledged a) in
        let mine := held_bytes_for owner v in
        let after := sat_add mine incoming in
        if allowance <? after
        then (Err (full_text (if a_contradicted a then CONTRADICTED else ACCOUNT_FULL) mine allowance a), (b, s))
        else
          let on_promise := (after - earned_by_proof) - (mine - earned_by_proof) in
          if 0 <? on_promise then lend on_promise host_pledge now now_unix v b s else (Ok tt, (b, s))
  end.

(** ** The rest of the trait *)

Definition adds_nothing (kept presented : list N) : bool :=
  match from_bytes kept, from_bytes presented with
  | Some kept, Some presented =>
      let kept := sc_claim kept in
      let presented := sc_claim presented in
      let older := cl_issued_unix presented <=? cl_issued_unix kept in
      let redated := (cl_pledged_bytes kept =? cl_pledged_bytes presented)
                     && eqb (cl_revoked kept) (cl_revoked presented)
                     && (cl_issued_unix presented <? sat_add (cl_issued_unix kept) KEEP_CLAIM_STEP) in
      (cl_owner kept =? cl_owner presented) && (cl_device kept =? cl_device presented) && (older || redated)
  | _, _ => false
  end.

Definition presented_for (b : ClaimBook) (caller : DeviceId) : option UserId :=
  match book b !! caller with
  | Some held => if decide (he_standing held = Withdrawn) then None else Some (he_owner held)
  | None => None
  end.

Definition confirmed_account (now : N) (b : ClaimBook) (caller : DeviceId) : option UserId :=
  match book b !! caller with
  | Some held => if confirmed now (he_standing held) then Some (he_owner held) else None
  | None => None
  end.

Definition speaks_for (now : N) (b : ClaimBook) (caller : DeviceId) (owner : UserId) : bool :=
  bool_decide (confirmed_account now b caller = Some owner).

End book.
