(* ===== verification/Peer.v ===== *)
(** * Peer: what a node answers another

    Models [crates/itsanas-net/src/service.rs] and the messages of
    [protocol.rs]: one handler per request over the node's store, its vault, the
    book of claims and the round's placement.  [Owners] is the trait of the same
    name, as a class with the book of [ClaimBook] and the unbounded [Unscoped] as
    instances.  The storing lock makes the check of the pledge and the write one
    step, so a request is one step.  The two clocks, the room the disk reports,
    the coordinator's answer to a question and the random start of a page are
    arguments.  The codec of a segment gives its length. *)

From S2P Require Import Prelude Version Ids Crypto Oplog Wire IndexState Files Summary Ledger Log ShortQueue.
From S2P Require Import Rings Blob Index Network Store Vault Accounting Claims Placement ClaimBook.

(** ** protocol.rs *)

Definition PROTOCOL_VERSION : N := 11.
Definition MIN_PROTOCOL_VERSION : N := 4.
Definition MAX_CLAIM_BYTES : nat := 512.
Definition MAX_RELAYED_ROWS : nat := 256.
Definition MAX_RELAYED_ROW_BYTES : nat := 1024.
Definition CHALLENGE_DOMAIN : string := "itsanas v1 storage challenge".
Definition MAX_SEGMENTS_PER_REQUEST : N := 256.
Definition MAX_HAVE_BATCH : nat := 1024.
Definition REPLICATION_TARGET : nat := 3.

Module Req.

Inductive Request :=
| Hello (protocol : N) (device : DeviceId) (owner : UserId)
| Heads (owner : UserId)
| Segments (owner : UserId) (device : DeviceId) (after : option ObjectId) (limit : N)
| Chunk (owner : UserId) (address : ChunkId)
| HaveChunks (owner : UserId) (addresses : list ChunkId)
| StoreChunk (owner : UserId) (address : ChunkId) (sealed : list N)
| StoreSegment (envelope : SegmentEnvelope)
| Challenge (owner : UserId) (address : ChunkId) (nonce : list N)
| WantHosted (limit : N)
| Hosted (chunks : list ChunkId)
| Dropped (owner : UserId) (chunks : list ChunkId)
| ChunkSummary (owner : UserId)
| Leaving
| Presences
| Claim (claim : list N)
| Draining (seconds : N)
| Park
| Splice (to : DeviceId)
| MayEvict (owner : UserId) (chunks : list ChunkId)
| Claims (owner : UserId).

End Req.

Record Head := mkHead { hd_device : DeviceId; hd_head : ObjectId; hd_length : N }.

(** A refusal's text, or the error it prints. *)
Inductive Why :=
| Text (why : string)
| OfClaim (r : Refusal)
| OfStore (e : StoreError).

Module Res.

Inductive Response :=
| Hello (protocol : N) (device : DeviceId)
| Heads (l : list Head)
| Segments (l : list SegmentEnvelope)
| Chunk (sealed : option (list N))
| Missing (l : list ChunkId)
| Stored (accepted : bool)
| ChallengeProof (proof : list N)
| ChunkSummary (digests : list (list N))
| WantHosted (owner : UserId) (chunks : list ChunkId)
| Refused (why : Why)
| Presences (rows : list (list N))
| Claim (claim : list N)
| Exposed (chunks : N)
| MayEvict (marked : N)
| Claims (claims : list (list N)).

End Res.
Import Res.

Definition is_acceptable (r : Req.Request) : bool :=
  let batch (l : list ChunkId) := negb (bool_decide (l = [])) && (length l <=? MAX_HAVE_BATCH)%nat in
  match r with
  | Req.Segments _ _ _ limit => (0 <? limit) && (limit <=? MAX_SEGMENTS_PER_REQUEST)
  | Req.Hello protocol _ _ => MIN_PROTOCOL_VERSION <=? protocol
  | Req.Dropped _ chunks | Req.Hosted chunks | Req.MayEvict _ chunks => batch chunks
  | Req.Claim claim => negb (bool_decide (claim = [])) && (length claim <=? MAX_CLAIM_BYTES)%nat
  | Req.HaveChunks _ addresses => batch addresses
  | _ => true
  end.

(** ** service.rs *)

Definition PLEDGE_EXHAUSTED : string := "pledged capacity exhausted".
Definition NOT_YOUR_ACCOUNT : string :=
  "present this account's claim first: only its own devices read what is held for it (update ITSaNAS on this machine if it already is one)".
Definition HOSTING_AWAY : string := "this machine's hosting disk is away; ask again later".
Definition NOT_YOURS_TO_EVICT : string :=
  "this host lets only a confirmed device of that account mark its chunks evictable".
Definition NO_BOOK : string := "this node relays no presences".
Definition NOT_YOURS : string := "not a machine of this account, as far as this node knows".
(** [relay.rs] *)
Definition NOT_RELAYED : string := "relays are not chained".

(** The account a request reads from this host, if it reads one. *)
Definition read_owner (r : Req.Request) : option UserId :=
  match r with
  | Req.Heads owner | Req.Segments owner _ _ _ | Req.Chunk owner _ | Req.HaveChunks owner _
  | Req.ChunkSummary owner | Req.Challenge owner _ _ | Req.Claims owner => Some owner
  | _ => None
  end.

(** The account whose hosted data a request touches, if any. *)
Definition hosted_owner (r : Req.Request) : option UserId :=
  match r with
  | Req.StoreChunk owner _ _ | Req.MayEvict owner _ => Some owner
  | Req.StoreSegment envelope => Some (owner envelope)
  | _ => read_owner r
  end.

(** The clocks and answers one request is served with. *)
Record Around := mkAround {
  at_instant : N;
  at_unix : N;
  disk_room : option N;
  asking : option (UserId * (SignedClaim -> Verdict));
  ask_slot : bool;
  page_start : ChunkId;
}.

(** How a host decides how much it stores for one account. *)
Class Owners (B : Type) := {
  ow_present : Around -> DeviceId -> list N -> Vault -> B -> result Refusal unit * B;
  ow_presented_for : B -> DeviceId -> option UserId;
  ow_adds_nothing : list N -> list N -> bool;
  ow_may_read : B -> DeviceId -> UserId -> bool;
  ow_admits : Around -> DeviceId -> UserId -> N -> N -> Vault -> B -> Store -> result string unit * (B * Store);
  ow_confirmed_account : Around -> B -> DeviceId -> option UserId;
  ow_speaks_for : Around -> B -> DeviceId -> UserId -> bool;
}.

(** Bounds nobody and lets every caller read every account. *)
Inductive Unscoped := unscoped.

#[export] Instance Unscoped_owners : Owners Unscoped := {|
  ow_present _ _ _ _ b := (Ok tt, b);
  ow_presented_for _ _ := None;
  ow_adds_nothing _ _ := false;
  ow_may_read _ _ _ := true;
  ow_admits _ _ _ _ _ _ b s := (Ok tt, (b, s));
  ow_confirmed_account _ _ _ := None;
  ow_speaks_for _ _ _ _ := false;
|}.

Section claim_book.
Context `{!Primitives, !BodyCodec, !Postcard SignedClaim}.

#[export] Instance ClaimBook_owners : Owners ClaimBook := {|
  ow_present a caller claim v b := take_claim (asking a) (ask_slot a) caller claim v (at_instant a) b;
  ow_presented_for := presented_for;
  ow_adds_nothing := adds_nothing;
  ow_may_read b caller owner := bool_decide (presented_for b caller = Some owner);
  ow_admits a caller owner incoming host_pledge v b s :=
    admits caller owner incoming host_pledge (at_instant a) (at_unix a) v b s;
  ow_confirmed_account a := confirmed_account (at_instant a);
  ow_speaks_for a := speaks_for (at_instant a);
|}.

End claim_book.

(** How a service is set up: its pledge, whether its vault's disk is away, its
    own claim, and the book of its account's machines, as the rows it hands a
    caller. *)
Record Config := mkConfig {
  pledge : N;
  protocol_spoken : N;
  away : bool;
  own_claim : option (list N);
  relay : option (DeviceId -> option (list (list N)));
}.

(** What a request reads and writes. *)
Record Node (B : Type) := mkNode {
  n_store : Store;
  n_vault : Vault;
  n_owners : option B;
  n_placement : option Placement;
}.
Arguments mkNode {B} _ _ _ _.
Arguments n_store {B} _.
Arguments n_vault {B} _.
Arguments n_owners {B} _.
Arguments n_placement {B} _.

Inductive RelayClass := Own | HostedFor (account : UserId).

Section service.
Context `{!Primitives, !BodyCodec} {B : Type} `{!Owners B}.
Context (encoded_len : SegmentEnvelope -> N) (cfg : Config).

Abbreviation Serving A := (M (Node B) StoreError A).

Definition on_vault {A} (m : M Vault StoreError A) : Serving A :=
  fun n => let '(r, v) := m (n_vault n) in (r, mkNode (n_store n) v (n_owners n) (n_placement n)).
Definition on_ledger (f : list N -> Index -> Index) : Serving unit :=
  modify (fun n => mkNode (set_index (f (audit_order (user (n_store n))) (index (n_store n))) (n_store n))
                     (n_vault n) (n_owners n) (n_placement n)).
Definition account (n : Node B) : UserId := owner_of (n_store n).

(** ** Reading *)

Definition chunk (o : UserId) (address : ChunkId) : Serving (option (list N)) :=
  n <-! gets id;
  match (if o =? account n then blob_get address (blobs (n_store n)) else None) with
  | Some sealed => ret (Some sealed)
  | None => on_vault (get_chunk o address)
  end.

Fixpoint missing_among (o : UserId) (marked : gset ChunkId) (addresses : list ChunkId) : Serving (list ChunkId) :=
  match addresses with
  | [] => ret []
  | address :: rest =>
      held <-! (if bool_decide (address ∈ marked) then ret None else chunk o address);
      missing <-! missing_among o marked rest;
      ret (match held with Some _ => missing | None => address :: missing end)
  end.

Definition have_chunks (a : Around) (o : UserId) (addresses : list ChunkId) : Serving Response :=
  n <-! gets id;
  let marked := if o =? account n then ∅ else marked_among o addresses (at_unix a) (n_vault n) in
  missing <-! missing_among o marked addresses;
  ret (Missing missing).

Definition heads_of (o : UserId) (n : Node B) : list Head :=
  let theirs := (fun '(device, head, length) => mkHead device head length) <$> heads_for o (n_vault n) in
  let mine := if o =? account n then
                match head_segment (index (n_store n)) with
                | Some head => [mkHead (store_device (n_store n)) head (chain_length (index (n_store n)))]
                | None => []
                end
              else [] in
  sort_by (fun x y => hd_device x <=? hd_device y) (theirs ++ mine).

Definition segments_of (o : UserId) (d : DeviceId) (after : option ObjectId) (limit : nat) (n : Node B)
  : list SegmentEnvelope :=
  if (o =? account n) && (d =? store_device (n_store n)) then
    let mine := segments_list (index (n_store n)) in
    match after with
    | None => take limit mine
    | Some id => match list_find (fun e => segment_id e = id) mine with
                 | Some (i, _) => take limit (drop (S i) mine)
                 | None => []
                 end
    end
  else segments_for o d after limit (n_vault n).

Definition challenge_proof (nonce sealed : list N) : list N :=
  blake3_keyed_hash (blake3_derive_key CHALLENGE_DOMAIN nonce) sealed.

Definition challenge_holds (nonce sealed proof : list N) : bool :=
  bool_decide (challenge_proof nonce sealed = proof).

Definition summary_of (a : Around) (o : UserId) (n : Node B) : list (list N) :=
  if o =? account n then held_summary (index (n_store n)) else chunk_summary_at o (at_unix a) (n_vault n).

(** ** Storing *)

Definition would_exceed_pledge (a : Around) (incoming : N) (n : Node B) : bool :=
  match disk_room a with
  | Some room => if room <? incoming then true
                 else pledge cfg <? sat_add (held_bytes (n_vault n)) incoming
  | None => pledge cfg <? sat_add (held_bytes (n_vault n)) incoming
  end.

Definition refused_for_owner (a : Around) (caller : DeviceId) (o : UserId) (incoming : N) : Serving (option string) :=
  fun n => match n_owners n with
           | None => (Ok None, n)
           | Some b =>
               let '(r, (b, s)) := ow_admits a caller o incoming (pledge cfg) (n_vault n) b (n_store n) in
               (Ok (match r with Ok _ => None | Err why => Some why end), mkNode s (n_vault n) (Some b) (n_placement n))
           end.

(** [text.split_once(": ")] *)
Fixpoint split_colon (l : list ascii) : option (list ascii) :=
  match l with
  | c :: (d :: rest) as tail =>
      if decide (c = ":"%char /\ d = " "%char) then Some rest else split_colon tail
  | _ => None
  end.

(** [text.split(' ')] *)
Fixpoint split_spaces (word l : list ascii) : list (list ascii) :=
  match l with
  | [] => [word]
  | c :: l => if decide (c = " "%char) then word :: split_spaces [] l else split_spaces (word ++ [c]) l
  end.

(** The bytes an account-full refusal says must go before [incoming] fits. *)
Definition overage (why : string) (incoming : N) : N :=
  match split_colon (String.list_ascii_of_string why) with
  | Some rest =>
      match split_spaces [] rest with
      | mine :: sep :: allowance :: _ =>
          if decide (sep = ["o"; "f"]%char) then
            match parse_int u64_max mine, parse_int u64_max allowance with
            | Some mine, Some allowance =>
                let over := sat_add mine incoming - allowance in
                if 0 <? over then over else incoming
            | _, _ => incoming
            end
          else incoming
      | _ => incoming
      end
  | None => incoming
  end.

Definition store_chunk (a : Around) (caller : DeviceId) (o : UserId) (address : ChunkId) (sealed : list N)
  : Serving Response :=
  let incoming := N.of_nat (length sealed) in
  let put := on_vault (put_chunk o address sealed) ;;! ret (Stored true) in
  n <-! gets id;
  if would_exceed_pledge a incoming n then ret (Refused (Text PLEDGE_EXHAUSTED))
  else
    refusal <-! refused_for_owner a caller o incoming;
    match refusal with
    | None => put
    | Some why =>
        if negb (String.prefix ACCOUNT_FULL why) then ret (Refused (Text why))
        else
          freed <-! on_vault (evict_marked o (overage why incoming) (at_unix a));
          if freed =? 0 then ret (Refused (Text why))
          else
            refusal <-! refused_for_owner a caller o incoming;
            match refusal with
            | Some why => ret (Refused (Text why))
            | None => put
            end
    end.

Definition store_segment (a : Around) (caller : DeviceId) (e : SegmentEnvelope) : Serving Response :=
  let incoming := N.of_nat (length (sealed_body e)) in
  n <-! gets id;
  if would_exceed_pledge a incoming n then ret (Refused (Text PLEDGE_EXHAUSTED))
  else
    refusal <-! refused_for_owner a caller (owner e) incoming;
    match refusal with
    | Some why => ret (Refused (Text why))
    | None =>
        fun n => let '(r, v) := put_segment encoded_len e (n_vault n) in
                 (Ok (match r with Ok accepted => Stored accepted | Err e => Refused (OfStore e) end),
                  mkNode (n_store n) v (n_owners n) (n_placement n))
    end.

(** ** Marks, claims, presences *)

Definition may_evict (a : Around) (caller : DeviceId) (o : UserId) (chunks : list ChunkId) : Serving Response :=
  n <-! gets id;
  if negb (o =? account n) && match n_owners n with Some b => ow_speaks_for a b caller o | None => false end
  then
    marked <-! on_vault (fun v => let '(marked, v) := mark_evictable o chunks (at_unix a) v in (Ok marked, v));
    ret (MayEvict marked)
  else ret (Refused (Text NOT_YOURS_TO_EVICT)).

(** Keep a presented claim for the account's other machines, and admit a
    sibling to the roster. *)
Definition keep_presented (caller : DeviceId) (claim : list N) (b : B) : Serving unit :=
  match ow_presented_for b caller with
  | None => ret tt
  | Some o =>
      n <-! gets id;
      let unchanged := match kept_claim caller (n_vault n) with
                       | Some (kept_for, kept) => (kept_for =? o) && ow_adds_nothing kept claim
                       | None => false
                       end in
      (if unchanged then ret tt else on_vault (modify (keep_claim caller o claim))) ;;!
      (if o =? account n then on_ledger (fun _ => on_led (admit_member caller false)) else ret tt)
  end.

Definition present_claim (a : Around) (caller : DeviceId) (claim : list N) : Serving Response :=
  n <-! gets id;
  match n_owners n with
  | None => ret (Stored false)
  | Some b =>
      let '(r, b) := ow_present a caller claim (n_vault n) b in
      modify (fun n => mkNode (n_store n) (n_vault n) (Some b) (n_placement n)) ;;!
      match r with
      | Err why => ret (Refused (OfClaim why))
      | Ok _ =>
          keep_presented caller claim b ;;!
          ret (match own_claim cfg with Some own => Claim own | None => Stored true end)
      end
  end.

Definition claims_of (caller : DeviceId) (o : UserId) (n : Node B) : list (list N) :=
  match n_owners n with
  | Some b => if decide (ow_presented_for b caller = Some o)
              then filter (fun claim => length claim <= MAX_CLAIM_BYTES)%nat (claims_for o (n_vault n))
              else []
  | None => []
  end.

Definition presences (caller : DeviceId) : Response :=
  match relay cfg with
  | None => Refused (Text NO_BOOK)
  | Some rows_for =>
      match rows_for caller with
      | Some rows => Presences (take MAX_RELAYED_ROWS (filter (fun row => length row <= MAX_RELAYED_ROW_BYTES)%nat rows))
      | None => Refused (Text NOT_YOURS)
      end
  end.

Definition relays_for (a : Around) (n : Node B) (caller : DeviceId) : option RelayClass :=
  if match relay cfg with Some rows_for => bool_decide (is_Some (rows_for caller)) | None => false end then Some Own
  else match n_owners n with
       | Some b => HostedFor <$> ow_confirmed_account a b caller
       | None => None
       end.

(** ** Hosting offered *)

(** [placed::short_page]: one page of the queue from a random point, wrapping. *)
Definition short_page_from (start : ChunkId) (ix : Index) : list (ChunkId * N) :=
  let '(page, next) := short_page (Some start) MAX_HAVE_BATCH ix in
  if bool_decide (next = None) && (length page <? MAX_HAVE_BATCH)%nat
  then page ++ take_while (fun row => row.1 <=? start) (short_page None (MAX_HAVE_BATCH - length page) ix).1
  else page.

(** The caller's share of the page, with the placement's memo as it goes. *)
Fixpoint share_go (s : Store) (caller : DeviceId) (wanted : nat) (rows : list (ChunkId * N)) (share : list ChunkId)
  (p : Placement) : list ChunkId * Placement :=
  match rows with
  | [] => (share, p)
  | (chunk, since) :: rows =>
      if (wanted <=? length share)%nat then (share, p)
      else if negb (Store.has_chunk chunk s) then share_go s caller wanted rows share p
      else
        let '(e, p) := evaluate s chunk p in
        share_go s caller wanted rows (if offers p caller e since then share ++ [chunk] else share) p
  end.

Definition CEILING : nat := 64.

Definition want_hosted (a : Around) (limit : N) (caller : DeviceId) : Serving Response :=
  n <-! gets id;
  let s := n_store n in
  let wanted := N.to_nat (N.min limit (N.of_nat CEILING)) in
  let everyone := (fun r => risk_chunk r) <$> take wanted (under_replicated REPLICATION_TARGET (at_unix a) (index s)) in
  match n_placement n with
  | None => ret (WantHosted (account n) everyone)
  | Some p =>
      if is_own p caller then ret (WantHosted (account n) everyone)
      else
        let '(mine, p) := take_pull caller p in
        let '(chunks, p) := if mine then share_go s caller wanted (short_page_from (page_start a) (index s)) [] p
                            else ([], p) in
        modify (fun n => mkNode (n_store n) (n_vault n) (n_owners n) (Some p)) ;;!
        ret (WantHosted (account n) chunks)
  end.

(** ** One request *)

Definition refused_before_reading (r : Req.Request) (caller : DeviceId) (n : Node B) : option string :=
  if negb (is_acceptable r) then Some "malformed request"%string
  else if away cfg && match hosted_owner r with Some o => negb (o =? account n) | None => false end
  then Some HOSTING_AWAY
  else match read_owner r with
       | None => None
       | Some o => if match n_owners n with Some b => ow_may_read b caller o | None => false end
                   then None else Some NOT_YOUR_ACCOUNT
       end.

Definition answer (a : Around) (r : Req.Request) (caller : DeviceId) : Serving Response :=
  match r with
  | Req.Hello protocol _ _ =>
      n <-! gets id; ret (Hello (N.min protocol (protocol_spoken cfg)) (store_device (n_store n)))
  | Req.Heads o => n <-! gets id; ret (Heads (heads_of o n))
  | Req.Segments o d after limit =>
      n <-! gets id;
      ret (Segments (segments_of o d after (N.to_nat (N.min limit MAX_SEGMENTS_PER_REQUEST)) n))
  | Req.Chunk o address => sealed <-! chunk o address; ret (Chunk sealed)
  | Req.HaveChunks o addresses => have_chunks a o addresses
  | Req.StoreChunk o address sealed => store_chunk a caller o address sealed
  | Req.StoreSegment e => store_segment a caller e
  | Req.Challenge o address nonce =>
      sealed <-! chunk o address;
      ret (match sealed with
           | Some sealed => ChallengeProof (challenge_proof nonce sealed)
           | None => Refused (Text "chunk not held")
           end)
  | Req.WantHosted limit => want_hosted a limit caller
  | Req.ChunkSummary o => n <-! gets id; ret (ChunkSummary (summary_of a o n))
  | Req.Dropped o chunks =>
      n <-! gets id;
      if negb (o =? account n) then ret (Refused (Text "this node keeps no ledger for that account"))
      else on_ledger (fun key => forget_holders key chunks caller (at_unix a)) ;;! ret (Stored true)
  | Req.Leaving =>
      on_ledger (fun key ix => (forget_device key caller (at_unix a) ix).2) ;;! ret (Stored true)
  | Req.Presences => ret (presences caller)
  | Req.Claim claim => present_claim a caller claim
  | Req.Draining seconds =>
      on_ledger (fun _ ix => (note_draining caller (sat_add (at_unix a) seconds) (at_unix a) ix).2) ;;!
      n <-! gets id;
      ret (Exposed (N.of_nat (exposed_by caller (at_unix a) (index (n_store n)))))
  | Req.Park | Req.Splice _ => ret (Refused (Text NOT_RELAYED))
  | Req.MayEvict o chunks => may_evict a caller o chunks
  | Req.Claims o => n <-! gets id; ret (Claims (claims_of caller o n))
  | Req.Hosted chunks =>
      on_ledger (fun key => on_led (record_holders key chunks caller (at_unix a))) ;;! ret (Stored true)
  end.

Definition handle (a : Around) (r : Req.Request) (caller : DeviceId) : Serving Response :=
  n <-! gets id;
  match refused_before_reading r caller n with
  | Some why => ret (Refused (Text why))
  | None => answer a r caller
  end.

(** Once per session, for a device already known. *)
Definition note_session (caller : DeviceId) (from : option Network.IpAddr) (now : N) : Serving unit :=
  on_ledger (fun _ ix =>
    let '(known, ix) := note_seen_if_known caller now ix in
    if known then match from ≫= Network.network_of with
                  | Some network => (note_network caller network now ix).2
                  | None => ix
                  end
    else ix).

End service.
