(* ===== verification/Serving.v ===== *)
(** * Serving: what a node shows, and to whom

    Runs of the service of [Peer] over the book of [ClaimBook]: requests one
    after the other, with the coordinator's verdicts noted between them.  What
    every request keeps is proved with the combinators of [along], for the book
    here and for the vault in [Pledge]. *)

From S2P Require Import Prelude Version Ids Network Crypto Oplog Wire IndexState Files Summary Ledger Log ShortQueue.
From S2P Require Import Rings Blob Index Store Vault Accounting Claims Placement ClaimBook Peer.

(** ** Requests that leave the vault's contents and the book alone *)

(** The requests that write what is held for an account, or the book. *)
Definition writes (r : Req.Request) : bool :=
  match r with
  | Req.StoreChunk _ _ _ | Req.StoreSegment _ | Req.MayEvict _ _ | Req.Claim _ => true
  | _ => false
  end.

Section reading.
Context {PR : Primitives} {B : Type} {OW : Owners B}.
Context (encoded_len : SegmentEnvelope -> N) (cfg : Config).
Context (R : relation (Node B)) {HR : PreOrder R}.
Hypothesis frame : forall n s p, R n (mkNode s (n_vault n) (n_owners n) p).
Hypothesis opened : forall o c, along R (on_vault (get_chunk o c)).

Lemma on_ledger_along f : along R (on_ledger f).
Proof. intros n. apply frame. Qed.

Lemma chunk_along o address : along R (chunk o address).
Proof. apply along_gets. intros n. destruct (if o =? _ then _ else _); [along_pure|apply opened]. Qed.

Lemma missing_among_along o marked addresses : along R (missing_among o marked addresses).
Proof.
  induction addresses as [|x l IH]; [along_pure|]. cbn [missing_among].
  apply (along_bind R); [destruct (bool_decide _); [along_pure|apply chunk_along]|].
  intros held. apply (along_bind R); [exact IH|]. intros missing. along_pure.
Qed.

Lemma want_hosted_along a limit caller : along R (want_hosted a limit caller).
Proof.
  apply along_gets. intros n. destruct (n_placement n) as [p|]; [|along_pure].
  destruct (is_own p caller); [along_pure|].
  destruct (take_pull caller p) as [mine p']. destruct (if mine then _ else _) as [chunks p2].
  apply (along_bind R); [intros n1; apply frame|]. intros u. along_pure.
Qed.

Lemma answer_along a r caller :
  (writes r = true -> along R (answer encoded_len cfg a r caller)) -> along R (answer encoded_len cfg a r caller).
Proof.
  intros Hr.
  assert (Hret : forall f (x : Res.Response), along R (on_ledger f ;;! ret x)).
  { intros f x. apply (along_bind R); [apply on_ledger_along|]. intros u. along_pure. }
  destruct r; try (by apply Hr); cbn [answer]; try along_pure.
  - apply (along_bind R); [apply chunk_along|]. intros x. along_pure.
  - apply along_gets. intros n. apply (along_bind R); [apply missing_among_along|]. intros x. along_pure.
  - apply (along_bind R); [apply chunk_along|]. intros x. along_pure.
  - apply want_hosted_along.
  - apply Hret.
  - apply along_gets. intros n. destruct (negb _); [along_pure|]. apply Hret.
  - apply Hret.
  - apply (along_bind R); [apply on_ledger_along|]. intros u. along_pure.
Qed.

Lemma handle_along a r caller :
  (writes r = true -> along R (answer encoded_len cfg a r caller)) -> along R (handle encoded_len cfg a r caller).
Proof.
  intros Hr. apply along_gets. intros n. destruct (refused_before_reading _ _ _ _); [along_pure|].
  by apply answer_along.
Qed.

End reading.

(** ** Events *)

Inductive Event :=
| Asked (a : Around) (r : Req.Request) (caller : DeviceId)
| Told (device : DeviceId) (verdict : Verdict) (at_ : N).

Section serving.
Context {PR : Primitives} {BC : BodyCodec} {PC : Postcard SignedClaim}.
Context (encoded_len : SegmentEnvelope -> N) (cfg : Config).

Definition serve_event (n : Node ClaimBook) (ev : Event) : Node ClaimBook :=
  match ev with
  | Asked a r caller => (handle encoded_len cfg a r caller n).2
  | Told device verdict at_ =>
      mkNode (n_store n) (n_vault n) (note_at device verdict at_ <$> n_owners n) (n_placement n)
  end.

Definition serve (n : Node ClaimBook) (events : list Event) : Node ClaimBook := foldl serve_event n events.

(** ** The book *)

(** A row speaks for the account that signed the claim it keeps. *)
Definition genuine (device : DeviceId) (h : Held) : Prop :=
  exists signed, from_bytes (he_claim h) = Some signed /\ claim_verify_origin signed = Ok tt
    /\ cl_device (sc_claim signed) = device /\ cl_owner (sc_claim signed) = he_owner h
    /\ cl_revoked (sc_claim signed) = false.

Definition same_claim (h h' : Held) : Prop := he_owner h' = he_owner h /\ he_claim h' = he_claim h.

Lemma note_at_row device verdict at_ b d h :
  book (note_at device verdict at_ b) !! d = Some h -> exists h0, book b !! d = Some h0 /\ same_claim h0 h.
Proof.
  unfold note_at. cbn [book set_book]. intros H. destruct (decide (d = device)) as [->|Hne].
  - rewrite lookup_alter_eq in H. apply fmap_Some in H as (h0 & E & ->). by exists h0.
  - rewrite lookup_alter_ne in H by done. by exists h.
Qed.

Lemma take_locked_row caller bytes v now b d h :
  book (take_locked caller bytes v now b).2 !! d = Some h ->
  book b !! d = Some h \/ (d = caller /\ he_claim h = bytes /\ genuine d h).
Proof.
  unfold take_locked. destruct (from_bytes bytes) as [signed|] eqn:Eb; [|by left].
  destruct (claim_verify_origin signed) as [[]|e] eqn:Ev; [|by left].
  destruct (cl_device (sc_claim signed) =? caller) eqn:Ed; [|by left]. apply N.eqb_eq in Ed. cbn [negb].
  destruct (cl_revoked (sc_claim signed)) eqn:Er.
  { cbn. intros [_ H]%lookup_delete_Some. by left. }
  assert (Hkeep : forall standing presented asked (m : gmap DeviceId Held), (forall h0, m !! d = Some h0 -> book b !! d = Some h0) ->
    <[caller := mkHeld (cl_owner (sc_claim signed)) (cl_pledged_bytes (sc_claim signed))
        (cl_issued_unix (sc_claim signed)) bytes standing presented asked]> m !! d = Some h ->
    book b !! d = Some h \/ (d = caller /\ he_claim h = bytes /\ genuine d h)).
  { intros st pr asked m Hm [[<- <-]|[_ H]]%lookup_insert_Some; [|left; by apply Hm].
    right. split_and!; [done|done|]. by exists signed. }
  destruct (book b !! caller) as [held|] eqn:Eh.
  - destruct (negb (he_owner held =? _)); [by left|]. destruct (decide (he_standing held = Withdrawn)); [by left|].
    destruct (_ <? _); [by left|]. cbn. by apply Hkeep.
  - destruct (_ <=? _)%nat; [by left|]. destruct (_ <=? _)%nat; [|cbn; by apply Hkeep].
    destruct (list_find _ _) as [[i [old hold]]|]; [|by left]. cbn. apply Hkeep.
    by intros h0 [_ H]%lookup_delete_Some.
Qed.

Lemma take_claim_row asking slot caller bytes v now b d h :
  book (take_claim asking slot caller bytes v now b).2 !! d = Some h ->
  (exists h0, book b !! d = Some h0 /\ same_claim h0 h) \/ (d = caller /\ he_claim h = bytes /\ genuine d h).
Proof.
  intros H. unfold take_claim in H. pose proof (take_locked_row caller bytes v now b d) as Hl.
  destruct (take_locked caller bytes v now b) as [r b1]. cbn [snd] in Hl.
  assert (Hb1 : exists h1, book b1 !! d = Some h1 /\ same_claim h1 h).
  { destruct r as [[[[signed standing] asked]|]|e]; [|by exists h|by exists h].
    destruct asking as [[own asker]|]; [|by exists h]. destruct (_ && _ && _); [|by exists h].
    assert (Em : book (may_ask now b1).2 = book b1) by (unfold may_ask; by destruct (_ <=? _)%nat).
    destruct (may_ask now b1) as [may b2]. cbn [snd] in Em. destruct (may && slot).
    - destruct (note_at_row _ _ _ _ _ _ H) as (h1 & H1 & Hs). exists h1. by rewrite <- Em.
    - exists h. by rewrite <- Em. }
  destruct Hb1 as (h1 & H1 & Ho & Hc). destruct (Hl h1 H1) as [H0|(-> & Hbytes & signed & Hg)].
  - left. by exists h1.
  - right. split_and!; [done|congruence|]. exists signed. by rewrite Ho, Hc.
Qed.

(** The book's rows are the same, whatever was counted. *)
Definition same_book (n n' : Node ClaimBook) : Prop := book <$> n_owners n' = book <$> n_owners n.

#[local] Instance same_book_pre : PreOrder same_book.
Proof. split; [done|]. intros x y z H1 H2. unfold same_book in *. congruence. Qed.

Lemma admits_book caller o incoming pledge now now_unix v b s :
  book (admits caller o incoming pledge now now_unix v b s).2.1 = book b.
Proof.
  unfold admits, lend. destruct (book b !! caller) as [held|]; [|done].
  repeat (case_match; try done).
Qed.

Lemma on_vault_book {T} (m : M Vault StoreError T) : along same_book (on_vault m).
Proof. intros n. unfold on_vault. by destruct (m (n_vault n)). Qed.

Lemma refused_for_owner_book a caller o incoming : along same_book (refused_for_owner cfg a caller o incoming).
Proof.
  intros n. unfold refused_for_owner. destruct (n_owners n) as [b|] eqn:E; [|done].
  pose proof (admits_book caller o incoming (pledge cfg) (at_instant a) (at_unix a) (n_vault n) b (n_store n)) as H.
  cbn [ow_admits ClaimBook_owners]. destruct (admits _ _ _ _ _ _ _ _ _) as [r [b' s']]. cbn in *.
  unfold same_book. cbn [n_owners]. rewrite E. cbn. by rewrite H.
Qed.

Lemma store_chunk_book a caller o address sealed :
  along same_book (store_chunk cfg a caller o address sealed).
Proof.
  assert (Hput : along same_book (on_vault (put_chunk o address sealed) ;;! ret (Res.Stored true))).
  { apply (along_bind same_book); [apply on_vault_book|]. intros x. along_pure. }
  apply along_gets. intros n. destruct (would_exceed_pledge _ _ _ _); [along_pure|].
  apply (along_bind same_book); [apply refused_for_owner_book|]. intros [why|]; [|exact Hput].
  destruct (negb _); [along_pure|].
  apply (along_bind same_book); [apply on_vault_book|]. intros freed. destruct (freed =? 0); [along_pure|].
  apply (along_bind same_book); [apply refused_for_owner_book|]. intros [why'|]; [along_pure|exact Hput].
Qed.

Lemma store_segment_book a caller e : along same_book (store_segment encoded_len cfg a caller e).
Proof.
  apply along_gets. intros n. destruct (would_exceed_pledge _ _ _ _); [along_pure|].
  apply (along_bind same_book); [apply refused_for_owner_book|]. intros [why|]; [along_pure|].
  intros n1. by destruct (put_segment _ _ _).
Qed.

(** Only a presented claim changes the rows of the book. *)
Lemma handle_book a r caller :
  (forall claim, r <> Req.Claim claim) -> along same_book (handle encoded_len cfg a r caller).
Proof.
  intros Hr. apply handle_along; [apply _|done|intros; apply on_vault_book|]. intros Hw.
  destruct r; try done; cbn [answer].
  - apply store_chunk_book.
  - apply store_segment_book.
  - by destruct (Hr claim).
  - apply along_gets. intros n. destruct (_ && _); [|along_pure].
    apply (along_bind same_book); [apply on_vault_book|]. intros x. along_pure.
Qed.

(** A claim taken changes the book first, and then only the vault and the
    roster. *)
Lemma present_claim_book a caller claim n b :
  n_owners n = Some b ->
  book <$> n_owners (present_claim cfg a caller claim n).2
  = Some (book (take_claim (asking a) (ask_slot a) caller claim (n_vault n) (at_instant a) b).2).
Proof.
  intros Hb. unfold present_claim, bind at 1, gets. cbn [id]. rewrite Hb. cbn [ow_present ClaimBook_owners].
  destruct (take_claim _ _ _ _ _ _ _) as [r b'] eqn:E. cbn [snd].
  unfold bind at 1, modify. destruct r as [[]|why]; [|done].
  set (n1 := mkNode _ _ _ _). enough (H : along same_book (keep_presented caller claim b' ;;!
    ret (match own_claim cfg with Some own => Res.Claim own | None => Res.Stored true end))) by apply (H n1).
  apply (along_bind same_book); [|intros u; along_pure]. unfold keep_presented.
  destruct (ow_presented_for b' caller) as [o|]; [|along_pure]. apply along_gets. intros n2.
  apply (along_bind same_book); [destruct (match kept_claim _ _ with Some _ => _ | None => _ end);
    [along_pure|apply on_vault_book]|].
  intros u. destruct (o =? _); [|along_pure]. by intros n3.
Qed.

Lemma handle_claim_row a caller claim n b d h :
  n_owners (handle encoded_len cfg a (Req.Claim claim) caller n).2 = Some b -> book b !! d = Some h ->
  exists b0, n_owners n = Some b0
    /\ ((exists h0, book b0 !! d = Some h0 /\ same_claim h0 h) \/ (d = caller /\ he_claim h = claim /\ genuine d h)).
Proof.
  unfold handle, bind at 1, gets. cbn [id]. intros Hb Hd. destruct (refused_before_reading _ _ _ _).
  { exists b. split; [done|]. left. by exists h. }
  cbn [answer] in Hb. destruct (n_owners n) as [b0|] eqn:Hb0.
  - exists b0. split; [done|]. pose proof (present_claim_book a caller claim n b0 Hb0) as Hp.
    rewrite Hb in Hp. injection Hp as Hp. rewrite Hp in Hd. by eapply take_claim_row.
  - unfold present_claim, bind, gets in Hb. cbn [id] in Hb. rewrite Hb0 in Hb. cbn in Hb. congruence.
Qed.

(** A row of the book was there before, or its claim was just presented by the
    device it is for. *)
Lemma serve_event_row n ev b d h :
  n_owners (serve_event n ev) = Some b -> book b !! d = Some h ->
  exists b0, n_owners n = Some b0
    /\ ((exists h0, book b0 !! d = Some h0 /\ same_claim h0 h)
        \/ (exists a, ev = Asked a (Req.Claim (he_claim h)) d /\ genuine d h)).
Proof.
  destruct ev as [a r caller|device verdict at_]; cbn [serve_event n_owners]; intros Hb Hd.
  - assert (Hr : (exists claim, r = Req.Claim claim) \/ forall claim, r <> Req.Claim claim)
      by (destruct r; eauto; by right).
    destruct Hr as [[claim ->]|Hr].
    + destruct (handle_claim_row _ _ _ _ _ _ _ Hb Hd) as (b0 & Hb0 & [H|(-> & <- & Hg)]); exists b0; eauto 6.
    + pose proof (handle_book a r caller Hr n) as Hs. unfold same_book in Hs. rewrite Hb in Hs. symmetry in Hs.
      apply fmap_Some in Hs as (b0 & Hb0 & Es). exists b0. split; [done|]. left. exists h. by rewrite <- Es.
  - apply fmap_Some in Hb as (b0 & Hb0 & ->). exists b0. split; [done|]. left. by eapply note_at_row.
Qed.

(** ** Who was shown what *)

(** The caller presented, in one of these events, a live claim of the account
    for this very device. *)
Definition vouched (events : list Event) (caller : DeviceId) (o : UserId) : Prop :=
  exists a bytes signed, Asked a (Req.Claim bytes) caller ∈ events
    /\ from_bytes bytes = Some signed /\ claim_verify_origin signed = Ok tt
    /\ cl_device (sc_claim signed) = caller /\ cl_owner (sc_claim signed) = o
    /\ cl_revoked (sc_claim signed) = false.

Lemma serve_row n events b d h :
  (book <$> n_owners n = Some ∅ \/ n_owners n = None) ->
  n_owners (serve n events) = Some b -> book b !! d = Some h -> vouched events d (he_owner h).
Proof.
  intros Hn. revert b d h. induction events as [|ev events IH] using rev_ind; intros b d h Hb Hd.
  { cbn in Hb. destruct Hn as [Hn|Hn]; rewrite Hb in Hn; [|done]. injection Hn as Hn. rewrite Hn in Hd. done. }
  unfold serve in Hb. rewrite foldl_app in Hb. cbn [foldl] in Hb.
  destruct (serve_event_row _ _ _ _ _ Hb Hd) as (b0 & Hb0 & [(h0 & Hd0 & Ho & Hc)|(a & -> & signed & Hg)]).
  - destruct (IH b0 d h0 Hb0 Hd0) as (a & bytes & signed & Hin & Hg). rewrite Ho.
    exists a, bytes, signed. split; [|done]. apply elem_of_app. by left.
  - exists a, (he_claim h), signed. split; [apply elem_of_app; right; left|done].
Qed.

(** C12. Whatever requests a node has answered since it started with an empty
    book, and whatever the coordinator said between them, a request that reads
    what is held for an account is answered with anything but a refusal only to
    a device that itself presented a claim which that account signed for that
    device and which is not a withdrawal, and whose row is not known to be
    withdrawn. *)
Theorem only_the_account_reads n events a r caller o response n' :
  (book <$> n_owners n = Some ∅ \/ n_owners n = None) ->
  read_owner r = Some o ->
  handle encoded_len cfg a r caller (serve n events) = (Ok response, n') ->
  (forall why, response <> Res.Refused why) ->
  vouched events caller o
  /\ exists b h, n_owners (serve n events) = Some b /\ book b !! caller = Some h
       /\ he_owner h = o /\ he_standing h <> Withdrawn.
Proof.
  intros Hn Hr Hh Hnot. unfold handle, bind at 1, gets in Hh. cbn [id] in Hh.
  unfold refused_before_reading in Hh. rewrite Hr in Hh.
  destruct (negb (is_acceptable r)); [by injection Hh as <- _; destruct (Hnot (Text "malformed request"))|].
  destruct (_ && _); [by injection Hh as <- _; destruct (Hnot (Text HOSTING_AWAY))|].
  destruct (n_owners (serve n events)) as [b|] eqn:Hb;
    [|by injection Hh as <- _; destruct (Hnot (Text NOT_YOUR_ACCOUNT))].
  cbn [ow_may_read ClaimBook_owners] in Hh.
  case_bool_decide as Hp; [|by injection Hh as <- _; destruct (Hnot (Text NOT_YOUR_ACCOUNT))].
  unfold presented_for in Hp. destruct (book b !! caller) as [h|] eqn:Hd; [|done]. case_decide; [done|].
  injection Hp as <-. split; [by eapply serve_row|]. by exists b, h.
Qed.

(** ** A withdrawal undone *)

(** A device whose claim presents as new, with room in the book for it. *)
Definition room_for (o : UserId) (b : ClaimBook) : Prop :=
  (length (filter (fun row => he_owner row.2 = o) (btree_iter (book b))) < MAX_DEVICES_PER_ACCOUNT)%nat
  /\ (size (book b) < capacity b)%nat.

Lemma take_locked_new caller bytes signed v now b :
  from_bytes bytes = Some signed -> claim_verify_origin signed = Ok tt ->
  cl_device (sc_claim signed) = caller -> cl_revoked (sc_claim signed) = false ->
  book b !! caller = None -> room_for (cl_owner (sc_claim signed)) b ->
  exists h, take_locked caller bytes v now b
            = (Ok (Some (signed, Unconfirmed, None)), set_book (<[caller := h]> (book b)) b)
    /\ he_owner h = cl_owner (sc_claim signed) /\ he_standing h = Unconfirmed.
Proof.
  intros Hb Hv Hd Hr Hn [Hs Hc]. unfold take_locked. rewrite Hb, Hv, Hd, N.eqb_refl, Hr, Hn. cbn [negb].
  rewrite (proj2 (Nat.leb_gt _ _) Hs), (proj2 (Nat.leb_gt _ _) Hc). eexists. by split_and!.
Qed.

(** A row the coordinator has said is withdrawn refuses its device's live
    claim, and the standing is documented as final.  But presenting the
    account's own withdrawal deletes the row and the verdict with it: the same
    live claim, presented next while the coordinator does not answer, is taken
    as new, and the withdrawn device speaks for the account again. *)
Theorem withdrawal_can_be_shed caller live dead signed_live signed_dead v now b h asking slot :
  from_bytes live = Some signed_live -> claim_verify_origin signed_live = Ok tt ->
  cl_device (sc_claim signed_live) = caller -> cl_revoked (sc_claim signed_live) = false ->
  from_bytes dead = Some signed_dead -> claim_verify_origin signed_dead = Ok tt ->
  cl_device (sc_claim signed_dead) = caller -> cl_revoked (sc_claim signed_dead) = true ->
  book b !! caller = Some h -> he_standing h = Withdrawn -> he_owner h = cl_owner (sc_claim signed_live) ->
  room_for (he_owner h) (set_book (delete caller (book b)) b) ->
  (forall own asker, asking = Some (own, asker) -> asker signed_live = NoAnswer) ->
  take_claim asking slot caller live v now b = (Err (Said WITHDRAWN), b)
  /\ presented_for b caller = None
  /\ presented_for (take_claim asking slot caller live v now (take_claim asking slot caller dead v now b).2).2 caller
     = Some (he_owner h).
Proof.
  intros Hl Hlv Hld Hlr Hd Hdv Hdd Hdr Hh Hs Ho Hroom Hask. split_and!.
  - unfold take_claim, take_locked. rewrite Hl, Hlv, Hld, N.eqb_refl, Hlr, Hh, Ho, N.eqb_refl. cbn [negb].
    by rewrite decide_True.
  - unfold presented_for. by rewrite Hh, decide_True.
  - assert (Hb1 : (take_claim asking slot caller dead v now b).2 = set_book (delete caller (book b)) b).
    { unfold take_claim, take_locked. by rewrite Hd, Hdv, Hdd, N.eqb_refl, Hdr. }
    rewrite Hb1, Ho. rewrite Ho in Hroom.
    destruct (take_locked_new caller live signed_live v now _ Hl Hlv Hld Hlr (lookup_delete_eq (book b) caller) Hroom)
      as (h1 & E & Eo & Es).
    unfold take_claim. rewrite E. destruct asking as [[own asker]|].
    2: { unfold presented_for. cbn [snd book set_book]. by rewrite lookup_insert_eq, decide_False, Eo by congruence. }
    destruct (_ && _ && _).
    2: { unfold presented_for. cbn [snd book set_book]. by rewrite lookup_insert_eq, decide_False, Eo by congruence. }
    rewrite (Hask own asker eq_refl). set (b2 := set_book _ _).
    assert (Em : book (may_ask now b2).2 = book b2) by (unfold may_ask; by destruct (_ <=? _)%nat).
    destruct (may_ask now b2) as [may b3]. cbn [snd] in Em. unfold presented_for.
    destruct (may && slot); cbn [snd note_at book set_book].
    + rewrite Em. cbn [b2 book set_book]. rewrite lookup_alter_eq, lookup_insert_eq. cbn [fmap option_fmap option_map].
      unfold note_held. cbn [he_standing he_owner]. rewrite Es. by rewrite decide_False, Eo by congruence.
    + rewrite Em. cbn [b2 book set_book]. by rewrite lookup_insert_eq, decide_False, Eo by congruence.
Qed.

End serving.

(** ** A host with one guest *)

Module Guest.

Import Toy StoreSample SixHosts.

(** A codec for claims, enough to satisfy what is asked of one. *)
#[export] Instance claim_codec : Postcard SignedClaim := {|
  to_stdvec c :=
    let m := sc_claim c in
    Some (cl_owner m :: cl_device m :: cl_pledged_bytes m :: cl_issued_unix m :: (if cl_revoked m then 1 else 0)
          :: sc_signature c);
  from_bytes l :=
    match l with
    | o :: d :: p :: i :: r :: signature => Some (mkSignedClaim (mkClaim o d p i (r =? 1)) signature)
    | _ => None
    end;
|}.

Definition guest : UserKeys := derive [8].
Definition guest_device : DeviceId := device_id (mkDeviceKeys [5]).
Definition len0 (e : SegmentEnvelope) : N := N.of_nat (length (sealed_body e)) + 3.

Definition claim_at (issued : N) (revoked : bool) : SignedClaim :=
  claim_sign (mkClaim (user_id guest) guest_device 1000 issued revoked) guest.
Definition bytes_of (c : SignedClaim) : list N := default [] (to_stdvec c).

Definition config : Config := mkConfig 1000 11 false None None.
Definition around : Around := mkAround 50 720000 None None true 0.

Definition host : Node ClaimBook :=
  mkNode met_store (open len0 fresh_vault) (Some book_new) None.

Definition introduced : list Event :=
  [Asked around (Req.Hello 11 guest_device (user_id guest)) guest_device;
   Asked around (Req.Claim (bytes_of (claim_at 10 false))) guest_device].

Definition withdrawn_row : Held := mkHeld (user_id guest) 1000 10 (bytes_of (claim_at 10 false)) Withdrawn 0 None.
Definition withdrawn_book : ClaimBook := set_book {[guest_device := withdrawn_row]} book_new.

End Guest.

Import Toy Guest.

Lemma only_the_account_reads_witness :
  (exists n', handle len0 config around (Req.Heads (user_id guest)) guest_device (serve len0 config host introduced)
              = (Ok (Res.Heads []), n'))
  /\ vouched introduced guest_device (user_id guest).
Proof.
  destruct (handle len0 config around (Req.Heads (user_id guest)) guest_device (serve len0 config host introduced))
    as [r n'] eqn:E.
  assert (Hr : r = Ok (Res.Heads [])). { change r with (r, n').1. rewrite <- E. vm_compute. reflexivity. }
  rewrite Hr in E |- *. split; [by exists n'|].
  refine (proj1 (only_the_account_reads len0 config host introduced around (Req.Heads (user_id guest)) guest_device
    (user_id guest) (Res.Heads []) n' _ _ E _)); [by left|reflexivity|by intros why [=]].
Defined.

Lemma withdrawal_can_be_shed_witness :
  let v := open len0 fresh_vault in
  presented_for withdrawn_book guest_device = None
  /\ presented_for
       (take_claim None true guest_device (bytes_of (claim_at 10 false)) v 50
          (take_claim None true guest_device (bytes_of (claim_at 20 true)) v 50 withdrawn_book).2).2 guest_device
     = Some (he_owner withdrawn_row).
Proof.
  intros v. refine (proj2 (withdrawal_can_be_shed guest_device (bytes_of (claim_at 10 false)) (bytes_of (claim_at 20 true))
    (claim_at 10 false) (claim_at 20 true) v 50 withdrawn_book
    withdrawn_row None true
    _ _ _ _ _ _ _ _ _ _ _ _ _)); try (vm_compute; reflexivity); [|done].
  split; vm_compute; lia.
Defined.
