(* ===== verification/Pledge.v ===== *)
(** * Pledge: a host never holds more than it pledged

    The bound a host promises its operator, over any run of requests served by
    [Peer] with any [Owners], with the hosting disk unplugged and plugged back
    between them.  The store handlers check the pledge before they write, under
    one lock with the write; everything else a request does to the vault can
    only make what is held smaller.  A segment is checked by its sealed body and
    counted by its encoding, so a run that stores segments may pass the pledge
    by what one envelope adds to its body. *)

From S2P Require Import Prelude Version Ids Network Crypto Oplog Wire IndexState Files Summary Ledger Log ShortQueue.
From S2P Require Import Rings Blob Index Store Vault VaultAccounts Accounting Claims Placement ClaimBook Peer Serving.

(** ** What the vault holds *)

Definition total (v : Vault) : N := map_sum id (rows (ct v)) + map_sum id (chain_bytes (chains v)).

Lemma held_exact v : totals_ok (ct v) -> total v <= u64_max -> held_bytes v = total v.
Proof.
  intros (H1 & _) Ht. unfold total, held_bytes in *. rewrite H1. cbn [default id].
  rewrite (foldl_sat_add (fun p : UserId * DeviceId * N => p.2)) by (cbn; lia).
  rewrite (map_sum_over id _ (btree_iter (chain_bytes (chains v))) (btree_iter_perm _)). lia.
Qed.

(** Less or as much is held, and the accounts are kept. *)
Definition shrinks (v v' : Vault) : Prop :=
  (suspect v' = false -> suspect v = false) /\ (total v <= u64_max -> keeps v v' /\ total v' <= total v).

#[export] Instance shrinks_pre : PreOrder shrinks.
Proof.
  split.
  - intros v. split; [done|]. intros _. split; [apply keeps_refl|done].
  - intros v1 v2 v3 [S12 H12] [S23 H23]. split; [auto|]. intros Ht.
    destruct (H12 Ht) as [K1 T1]. destruct (H23 ltac:(lia)) as [K2 T2]. split; [by eapply keeps_trans|lia].
Qed.

Lemma shrinks_frame v v' :
  ct v' = ct v -> chains v' = chains v -> (forall o, owner_blobs o v' = owner_blobs o v) ->
  suspect v' = suspect v -> open_mark v' = open_mark v -> shrinks v v'.
Proof.
  intros Ec Eh Eb Es Eo. split; [congruence|]. intros Ht. split; [by apply keeps_frame|].
  unfold total. by rewrite Ec, Eh.
Qed.

Lemma blobs_for_shrinks o v : shrinks v (blobs_for o v).2.
Proof.
  unfold blobs_for. destruct (plugged v); [|done]. apply shrinks_frame; try done.
  intros o'. cbn [snd]. rewrite owner_blobs_insert. case_decide; by subst.
Qed.

Lemma get_chunk_shrinks o c v : shrinks v (get_chunk o c v).2.
Proof.
  unfold get_chunk, bind. pose proof (blobs_for_shrinks o v) as H. by destruct (blobs_for o v) as [[]].
Qed.

Lemma mark_shrinks o cs now v : shrinks v (mark_evictable o cs now v).2.
Proof.
  unfold mark_evictable. destruct (match _ with Some _ => _ | None => _ end) as [day made].
  destruct (foldl _ _ _) as [[marked made'] t]. by apply shrinks_frame.
Qed.

Lemma keep_claim_shrinks d o claim v : shrinks v (keep_claim d o claim v).
Proof. unfold keep_claim. destruct (_ && _); [done|by apply shrinks_frame]. Qed.

Lemma foldl_delete_sum (o : UserId) (chosen : list (N * ChunkId)) (r : gmap (UserId * ChunkId) N) :
  map_sum id (foldl (fun r (p : N * ChunkId) => delete (o, p.2) r) r chosen) <= map_sum id r.
Proof.
  revert r. induction chosen as [|p chosen IH]; intros r; cbn [foldl]; [done|].
  pose proof (map_sum_delete_default id r (o, p.2)). specialize (IH (delete (o, p.2) r)). lia.
Qed.

Lemma evict_marked_total o n now v :
  total (evict_marked o n now v).2 <= total v /\ (suspect (evict_marked o n now v).2 = false -> suspect v = false).
Proof.
  set (P := fun w : Vault => total w <= total v /\ (suspect w = false -> suspect v = false)).
  change (P (evict_marked o n now v).2). unfold evict_marked. destruct (n =? 0); [by split|]. unfold bind at 1, gets.
  destruct (choose_evictions o n now v) as [[chosen expired] room]. unfold bind at 1, modify.
  destruct (_ || _); [by split|]. unfold unsure. rewrite evict_files_eq.
  destruct (plugged _); [|by split]. unfold P, total. cbn.
  pose proof (foldl_delete_sum o chosen (rows (ct v))). split; [lia|done].
Qed.

Lemma evict_marked_shrinks o n now v : shrinks v (evict_marked o n now v).2.
Proof.
  destruct (evict_marked_total o n now v) as [Ht Hs]. split; [exact Hs|]. intros Hf. split; [|exact Ht].
  apply evict_marked_keeps. unfold vault_fits, total in *. lia.
Qed.

(** A chunk adds at most its own length. *)
Lemma put_chunk_total o c s v : covered v -> total (put_chunk o c s v).2 <= total v + N.of_nat (length s).
Proof.
  intros Hc. rewrite put_chunk_eq. destruct (plugged v); [|cbn; unfold total; cbn; lia]. cbn [snd].
  unfold index_chunk. destruct (unmark o c _) as [u m]. case_decide as E; [unfold total; cbn; lia|].
  unfold total. cbn [ct set_mt set_ct set_disk retotal rows chains].
  pose proof (map_sum_insert id (rows (ct v)) (o, c) (N.of_nat (length (default s (owner_blobs o v !! c))))) as H.
  destruct (owner_blobs o v !! c) as [kept|] eqn:Ek; cbn [default id] in *; [|lia].
  rewrite (Hc o c kept Ek) in H. cbn in H. lia.
Qed.

Lemma put_chunk_suspect o c s v : suspect (put_chunk o c s v).2 = false -> suspect v = false.
Proof.
  rewrite put_chunk_eq. destruct (plugged v); [|done]. cbn [snd].
  rewrite (proj1 (proj2 (index_chunk_disk _ _ _ _))). done.
Qed.

(** ** Within a limit *)

(** What a host can still say of its vault: once a write may have been torn,
    nothing; until then, that its accounts are exact and below the limit. *)
Definition within (limit : N) (v : Vault) : Prop :=
  suspect v = true \/ (totals_ok (ct v) /\ covered v /\ total v <= limit).

Lemma within_le l l' v : l <= l' -> within l v -> within l' v.
Proof. intros Hl [Hs|(Ht & Hc & Hb)]; [by left|]. right. split_and!; [done|done|lia]. Qed.

Lemma shrinks_within limit v v' : limit <= u64_max -> shrinks v v' -> within limit v -> within limit v'.
Proof.
  intros Hl [Hs Hk] [Hv|(Ht & Hc & Hb)]; [left; destruct (suspect v'); [done|]; by rewrite Hs in Hv|].
  destruct (suspect v') eqn:Es; [by left|]. right. destruct (Hk ltac:(lia)) as [(_ & K1 & _ & K3) Ht'].
  split_and!; [by apply K1|by apply K3|lia].
Qed.

Lemma put_chunk_within limit o c s v :
  limit <= u64_max -> (suspect v = false -> total v + N.of_nat (length s) <= limit) ->
  within limit v -> within limit (put_chunk o c s v).2.
Proof.
  intros Hl Hroom Hv. destruct (suspect (put_chunk o c s v).2) eqn:Es; [by left|]. right.
  pose proof (put_chunk_suspect o c s v Es) as Hs. destruct Hv as [Hv|(Ht & Hc & Hb)]; [congruence|].
  pose proof (put_chunk_total o c s v Hc) as Hput. specialize (Hroom Hs).
  assert (Hfits : vault_fits (put_chunk o c s v).2) by (unfold vault_fits, total in *; lia).
  destruct (put_chunk_keeps o c s v Hfits) as (_ & K1 & _ & K3). split_and!; [by apply K1|by apply K3|lia].
Qed.

Lemma put_segment_within {PR : Primitives} encoded_len limit e v :
  limit < u64_max -> (suspect v = false -> total v + encoded_len e <= limit) ->
  within limit v -> within limit (put_segment encoded_len e v).2.
Proof.
  intros Hl Hroom Hv. unfold put_segment. destruct (verify_signature e); [|done].
  destruct (decide _); [done|]. destruct (decide _); [|done]. cbn [snd].
  destruct Hv as [Hv|(Ht & Hc & Hb)]; [by left|]. destruct (suspect v) eqn:Es; [by left|]. right.
  specialize (Hroom eq_refl). split_and!; [done|done|]. unfold total in *. cbn.
  pose proof (map_sum_insert id (chain_bytes (chains v)) (owner e, device e)
    (sat_add (default 0 (chain_bytes (chains v) !! (owner e, device e))) (encoded_len e))) as H.
  unfold sat_add in *. destruct (chain_bytes (chains v) !! (owner e, device e)); cbn in *; lia.
Qed.

(** ** The service *)

Section service.
Context {PR : Primitives} {B : Type} {OW : Owners B}.
Context (encoded_len : SegmentEnvelope -> N) (cfg : Config).

(** What is held shrinks, whatever else changes. *)
Definition node_shrinks (n n' : Node B) : Prop := shrinks (n_vault n) (n_vault n').

#[local] Instance node_shrinks_pre : PreOrder node_shrinks.
Proof. split; [intros n; unfold node_shrinks; reflexivity|]. intros x y z H1 H2. unfold node_shrinks. by etransitivity. Qed.

Lemma on_vault_along {T} (m : M Vault StoreError T) :
  (forall v, shrinks v (m v).2) -> along node_shrinks (on_vault m).
Proof. intros H n. unfold on_vault, node_shrinks. specialize (H (n_vault n)). by destruct (m (n_vault n)). Qed.

Lemma refused_for_owner_vault a caller o incoming (n : Node B) :
  n_vault (refused_for_owner cfg a caller o incoming n).2 = n_vault n
  /\ exists r, (refused_for_owner cfg a caller o incoming n).1 = Ok r.
Proof.
  unfold refused_for_owner. destruct (n_owners n) as [b|]; [|by eauto].
  destruct (ow_admits _ _ _ _ _ _ _ _) as [r [b' s']]. by eauto.
Qed.

(** The check made before a write, with exact accounts. *)
Lemma room_left a incoming (n : Node B) limit :
  pledge cfg < u64_max -> limit <= u64_max -> within limit (n_vault n) ->
  would_exceed_pledge cfg a incoming n = false -> suspect (n_vault n) = false ->
  total (n_vault n) + incoming <= pledge cfg.
Proof.
  intros Hp Hl Hv Hw Hs. destruct Hv as [Hv|(Ht & _ & Hb)]; [congruence|].
  assert (Hx : (pledge cfg <? sat_add (held_bytes (n_vault n)) incoming) = false).
  { unfold would_exceed_pledge in Hw. destruct (disk_room a); [|done]. by destruct (_ <? incoming). }
  apply N.ltb_ge in Hx. rewrite held_exact in Hx by (done || lia). unfold sat_add in Hx. lia.
Qed.

(** A write that the check allowed stays within the pledge, or within what a
    segment's envelope adds to it. *)
Lemma store_chunk_within a caller o address sealed limit (n : Node B) :
  pledge cfg <= limit -> limit < u64_max -> within limit (n_vault n) ->
  within limit (n_vault (store_chunk cfg a caller o address sealed n).2).
Proof.
  intros Hp Hl Hv. unfold store_chunk, bind at 1, gets. cbn [id].
  destruct (would_exceed_pledge cfg a _ n) eqn:Hw; [done|].
  assert (Hroom : suspect (n_vault n) = false -> total (n_vault n) + N.of_nat (length sealed) <= limit)
    by (intros Hs; pose proof (room_left a _ n limit ltac:(lia) ltac:(lia) Hv Hw Hs); lia).
  assert (Hput : forall n1 : Node B, shrinks (n_vault n) (n_vault n1) ->
    within limit (n_vault ((on_vault (put_chunk o address sealed) ;;! ret (Res.Stored true)) n1).2)).
  { intros n1 Hs. unfold bind, on_vault.
    assert (H1 : within limit (put_chunk o address sealed (n_vault n1)).2).
    { apply put_chunk_within; [lia| |by eapply shrinks_within; [lia| |exact Hv]].
      intros Hs1. destruct Hv as [Hv|(_ & _ & Hb)]; [rewrite (proj1 Hs Hs1) in Hv; done|].
      pose proof (proj2 (proj2 Hs ltac:(lia))). specialize (Hroom (proj1 Hs Hs1)). lia. }
    destruct (put_chunk _ _ _ _) as [[x|e] v1]; exact H1. }
  unfold bind at 1.
  destruct (refused_for_owner_vault a caller o (N.of_nat (length sealed)) n) as [Ev [r Er]].
  destruct (refused_for_owner _ _ _ _ _ n) as [r0 n1]. cbn [fst snd] in Ev, Er. rewrite Er.
  assert (H1 : shrinks (n_vault n) (n_vault n1)) by by rewrite Ev.
  destruct r as [why|]; [|by apply Hput].
  assert (Hn1 : within limit (n_vault n1)) by by rewrite Ev.
  destruct (negb _); [exact Hn1|]. unfold bind at 1.
  pose proof (on_vault_along (evict_marked o (overage why (N.of_nat (length sealed))) (at_unix a))
    (evict_marked_shrinks _ _ _) n1) as H2.
  destruct (on_vault (evict_marked _ _ _) n1) as [[freed|e] n2]; cbn [snd] in H2;
    [|by eapply shrinks_within; [lia|exact H2|exact Hn1]].
  assert (Hn2 : within limit (n_vault n2)) by (eapply shrinks_within; [lia|exact H2|exact Hn1]).
  destruct (freed =? 0); [exact Hn2|]. unfold bind at 1.
  destruct (refused_for_owner_vault a caller o (N.of_nat (length sealed)) n2) as [Ev2 [r2 Er2]].
  destruct (refused_for_owner _ _ _ _ _ n2) as [r3 n3]. cbn [fst snd] in Ev2, Er2. rewrite Er2.
  destruct r2 as [why2|]; [by rewrite <- Ev2 in Hn2|]. apply Hput. rewrite Ev2. by etransitivity.
Qed.

Lemma store_segment_within a caller e limit K (n : Node B) :
  encoded_len e <= N.of_nat (length (sealed_body e)) + K ->
  limit = pledge cfg + K -> limit < u64_max -> within limit (n_vault n) ->
  within limit (n_vault (store_segment encoded_len cfg a caller e n).2).
Proof.
  intros Hk El Hl Hv. unfold store_segment, bind at 1, gets. cbn [id].
  destruct (would_exceed_pledge cfg a _ n) eqn:Hw; [done|]. unfold bind at 1.
  destruct (refused_for_owner_vault a caller (owner e) (N.of_nat (length (sealed_body e))) n) as [Ev [r Er]].
  destruct (refused_for_owner _ _ _ _ _ n) as [r0 n1]. cbn [fst snd] in Ev, Er. rewrite Er.
  destruct r as [why|]; [by rewrite <- Ev in Hv|].
  assert (H1 : within limit (put_segment encoded_len e (n_vault n1)).2).
  { rewrite Ev. apply put_segment_within; [done| |done]. intros Hs.
    pose proof (room_left a _ n limit ltac:(lia) ltac:(lia) Hv Hw Hs). lia. }
  by destruct (put_segment _ _ _).
Qed.

Lemma present_claim_shrinks a caller claim : along node_shrinks (present_claim cfg a caller claim).
Proof.
  apply along_gets. intros n. destruct (n_owners n) as [b|]; [|along_pure].
  destruct (ow_present _ _ _ _ _) as [r b']. apply (along_bind node_shrinks); [by intros n1; unfold node_shrinks|].
  intros _. destruct r as [[]|why]; [|along_pure]. apply (along_bind node_shrinks); [|intros u; along_pure].
  unfold keep_presented. destruct (ow_presented_for b' caller) as [o|]; [|along_pure]. apply along_gets. intros n1.
  apply (along_bind node_shrinks).
  - destruct (match kept_claim _ _ with Some _ => _ | None => _ end); [along_pure|].
    apply on_vault_along. intros v. apply keep_claim_shrinks.
  - intros _. destruct (o =? _); [|along_pure]. by intros n2; unfold node_shrinks.
Qed.

Lemma may_evict_shrinks a caller o chunks : along node_shrinks (may_evict a caller o chunks).
Proof.
  apply along_gets. intros n. destruct (_ && _); [|along_pure].
  apply (along_bind node_shrinks); [|intros x; along_pure]. apply on_vault_along. intros v.
  pose proof (mark_shrinks o chunks (at_unix a) v) as H. by destruct (mark_evictable _ _ _ _).
Qed.

Lemma handle_within a r caller limit K (n : Node B) :
  (forall e, r = Req.StoreSegment e -> encoded_len e <= N.of_nat (length (sealed_body e)) + K) ->
  limit = pledge cfg + K -> limit < u64_max -> within limit (n_vault n) ->
  within limit (n_vault (handle encoded_len cfg a r caller n).2).
Proof.
  intros Hk El Hl Hv. destruct (writes r) eqn:Hw.
  - unfold handle, bind at 1, gets. cbn [id]. destruct (refused_before_reading _ _ _ _); [done|].
    destruct r; try done; cbn [answer].
    + apply store_chunk_within; [lia|done|done].
    + by apply (store_segment_within _ _ _ _ K); [apply Hk|..].
    + eapply shrinks_within; [lia|apply present_claim_shrinks|done].
    + eapply shrinks_within; [lia|apply may_evict_shrinks|done].
  - eapply shrinks_within; [lia| |exact Hv].
    apply (handle_along encoded_len cfg node_shrinks); [by intros n1 s p; unfold node_shrinks| |congruence].
    intros o c. apply on_vault_along. intros v. apply get_chunk_shrinks.
Qed.

(** One request, or the disk taken out or put back. *)
Inductive host_step (K : N) : relation (Node B) :=
| step_asked a r caller n :
    (forall e, r = Req.StoreSegment e -> encoded_len e <= N.of_nat (length (sealed_body e)) + K) ->
    host_step K n (handle encoded_len cfg a r caller n).2
| step_plug p n :
    host_step K n
      (let v := n_vault n in
       mkNode (n_store n) (mkVault (disk v) p (ct v) (mt v) (chains v) (cl v) (cur v) (open_mark v) (suspect v))
         (n_owners n) (n_placement n)).

(** C13. A host whose accounts are exact and within its pledge stays within it:
    after any run of requests from any callers, whatever policy bounds the
    accounts, with the disk unplugged and plugged back at any point, it holds at
    most its pledge and what the envelope of one segment adds to the body that
    was checked -- exactly the pledge when no segment was stored.  A vault that
    became suspect says nothing until it is opened again. *)
Theorem pledge_is_kept K (n n' : Node B) :
  pledge cfg + K < u64_max ->
  totals_ok (ct (n_vault n)) -> covered (n_vault n) -> held_bytes (n_vault n) <= pledge cfg ->
  total (n_vault n) <= u64_max ->
  rtc (host_step K) n n' -> suspect (n_vault n') = false ->
  held_bytes (n_vault n') <= pledge cfg + K.
Proof.
  intros Hp Ht Hc Hb Hf Hrun Hs.
  assert (Hn : within (pledge cfg + K) (n_vault n)).
  { right. split_and!; [done|done|]. rewrite held_exact in Hb by done. lia. }
  assert (Hn' : within (pledge cfg + K) (n_vault n')).
  { revert Hn. clear -Hrun Hp. induction Hrun as [n|n1 n2 n3 Hstep Hrun IH]; [done|]. intros Hn. apply IH.
    destruct Hstep as [a r caller n1 Hk|p n1]; [by apply (handle_within _ _ _ _ K)|].
    cbn [n_vault]. eapply shrinks_within; [lia| |exact Hn]. by apply shrinks_frame. }
  destruct Hn' as [Hn'|(Ht' & _ & Hb')]; [congruence|]. rewrite held_exact by (done || lia). done.
Qed.

End service.

(** ** A pledge of three bytes, and a segment of three *)

Module Brim.

Import Toy StoreSample SixHosts Guest.

Definition brim_config : Config := mkConfig 3 11 false None None.

Definition unsigned : SegmentEnvelope := mkEnvelope 77 (user_id guest) guest_device 0 0 None [1; 2; 3] [].
Definition brim_segment : SegmentEnvelope :=
  mkEnvelope 77 (user_id guest) guest_device 0 0 None [1; 2; 3]
    (device_sign (mkDeviceKeys [5]) SEGMENT_SIGNING_DOMAIN (envelope_payload unsigned)).

Definition brim_host : Node Unscoped := mkNode met_store (open len0 fresh_vault) (Some unscoped) None.
Definition brim_served : Node Unscoped :=
  (handle len0 brim_config around (Req.StoreSegment brim_segment) guest_device brim_host).2.

End Brim.

Import Toy Guest Brim.

(** The pledge is passed by the three bytes the envelope adds. *)
Lemma pledge_is_kept_witness :
  held_bytes (n_vault brim_served) <= pledge brim_config + 3
  /\ held_bytes (n_vault brim_served) = 6 /\ pledge brim_config = 3.
Proof.
  split; [|by vm_compute].
  assert (E : ct (n_vault brim_host) = mkCT ∅ (Some 0) true ∅) by (vm_compute; reflexivity).
  apply (pledge_is_kept len0 brim_config 3 brim_host brim_served).
  - vm_compute. reflexivity.
  - rewrite E. split_and!; [done|done|]. intros o. rewrite owner_sum_empty. reflexivity.
  - intros o c s Hs. exfalso. assert (Hd : disk (n_vault brim_host) = ∅) by (vm_compute; reflexivity).
    unfold owner_blobs in Hs. rewrite Hd in Hs. discriminate Hs.
  - vm_compute. discriminate.
  - vm_compute. discriminate.
  - apply rtc_once. apply step_asked. intros e [= <-]. vm_compute. discriminate.
  - vm_compute. reflexivity.
Defined.
