(* ===== verification/Lending.v ===== *)
(** * Lending: what a host lends on promises alone

    [admits] of [ClaimBook] bounds an account twice: by what its pledges earn,
    and, for the part its audits have not proved, by a share of the host's pledge
    that all such accounts draw on together.  The share is checked against a
    running total, recounted from the vault and the ledger when it is old or
    when it refuses.  Counting fills the memo of the account's size, so stores
    that differ only there are the same to it ([counted]). *)

From S2P Require Import Prelude Version Ids Network Crypto Oplog Wire IndexState Files Summary Ledger Log ShortQueue.
From S2P Require Import Rings Blob Index Store Vault VaultAccounts Accounting Claims Placement ClaimBook Peer.
From S2P Require Import Serving Pledge.

Section lending.
Context {PR : Primitives}.

(** ** Counting changes nothing that is counted *)

Record counted (s s' : Store) : Prop := mkCounted {
  counted_led : led (index s') = led (index s);
  counted_refs : live_chunk_count (index s') = live_chunk_count (index s);
  counted_bytes : (local_bytes (index s')).1 = (local_bytes (index s)).1;
  counted_owner : owner_of s' = owner_of s;
}.

#[export] Instance counted_equiv : Equivalence counted.
Proof.
  split.
  - by intros s.
  - by intros s s' []; split.
  - intros s1 s2 s3 [] []; split; congruence.
Qed.

Lemma local_bytes_counted s : counted s (set_index (local_bytes (index s)).2 s).
Proof.
  unfold local_bytes. destruct (byte_total (ft (index s))) eqn:E; split; try done; unfold local_bytes; cbn;
    by rewrite ?E.
Qed.

Lemma bytes_held_by_counted device s : counted s (bytes_held_by device s).2.
Proof.
  unfold bytes_held_by. destruct (_ =? 0); [done|]. pose proof (local_bytes_counted s) as H.
  by destruct (local_bytes (index s)).
Qed.

#[export] Instance bytes_held_by_proper device : Proper (counted ==> eq) (fun s => (bytes_held_by device s).1).
Proof.
  intros s s' [Hl Hr Hb _]. unfold bytes_held_by. rewrite Hl, Hr. destruct (_ =? 0); [done|].
  destruct (local_bytes (index s)), (local_bytes (index s')). cbn in *. by subst.
Qed.

(** One device's part of its account's figures. *)
Lemma standing_step_counted now a s row : counted s (standing_step now (a, s) row).2.
Proof.
  unfold standing_step. destruct row as [device h]. destruct (paused _); [done|].
  pose proof (bytes_held_by_counted device s) as H. by destruct (bytes_held_by device s).
Qed.

Lemma standing_step_proper now a s s' row :
  counted s s' -> (standing_step now (a, s') row).1 = (standing_step now (a, s) row).1.
Proof.
  intros Hs. unfold standing_step. destruct row as [device h]. rewrite (counted_led _ _ Hs).
  destruct (paused _) eqn:Ep; [cbn; by rewrite (counted_led _ _ Hs)|].
  pose proof (bytes_held_by_proper device _ _ Hs) as Hb. cbn in Hb.
  pose proof (counted_led _ _ (bytes_held_by_counted device s)) as L1.
  pose proof (counted_led _ _ (bytes_held_by_counted device s')) as L2.
  destruct (bytes_held_by device s) as [p s1], (bytes_held_by device s') as [p' s1']. cbn in *.
  by rewrite L1, L2, (counted_led _ _ Hs), Hb.
Qed.

Lemma standing_fold now l a s s' :
  counted s s' ->
  (foldl (standing_step now) (a, s') l).1 = (foldl (standing_step now) (a, s) l).1
  /\ counted s (foldl (standing_step now) (a, s) l).2.
Proof.
  revert a s s'. induction l as [|row l IH]; intros a s s' Hs; cbn [foldl]; [done|].
  pose proof (standing_step_proper now a s s' row Hs) as E.
  pose proof (standing_step_counted now a s row) as C. pose proof (standing_step_counted now a s' row) as C'.
  destruct (standing_step now (a, s) row) as [a1 s1], (standing_step now (a, s') row) as [a1' s1']. cbn in *. subst a1'.
  destruct (IH a1 s1 s1') as [E1 C1]; [by rewrite <- C, Hs|]. split; [done|by rewrite <- C1].
Qed.

Lemma standing_counted b o now s : counted s (standing b o now s).2.
Proof. unfold standing. by apply (standing_fold now _ _ s s). Qed.

#[export] Instance standing_proper b o now : Proper (counted ==> eq) (fun s => (standing b o now s).1).
Proof. intros s s' Hs. symmetry. by apply (standing_fold now). Qed.

(** What is proved does not depend on when it is asked. *)
Lemma standing_step_proved now now' a a' s row :
  a_proved a = a_proved a' ->
  (standing_step now (a, s) row).2 = (standing_step now' (a', s) row).2
  /\ a_proved (standing_step now (a, s) row).1 = a_proved (standing_step now' (a', s) row).1.
Proof.
  intros E. unfold standing_step. destruct row as [device h].
  destruct (if paused _ then _ else _) as [proved s']. cbn. by rewrite E.
Qed.

Lemma standing_proved b o now now' s :
  a_proved (standing b o now s).1 = a_proved (standing b o now' s).1.
Proof.
  unfold standing. assert (E : a_proved (mkAccountHere 0 0 false) = a_proved (mkAccountHere 0 0 false)) by done.
  revert E. generalize (mkAccountHere 0 0 false) at 1 3 as a. generalize (mkAccountHere 0 0 false) as a'.
  intros a' a. revert a a' s. induction (filter _ _) as [|row l IH]; intros a a' s E; cbn [foldl]; [done|].
  destruct (standing_step_proved now now' a a' s row E) as [E2 E1].
  destruct (standing_step now (a, s) row) as [a1 s1], (standing_step now' (a', s) row) as [a1' s1']. cbn in *. subst s1'.
  by apply IH.
Qed.

(** ** The promised total *)

Definition proved (b : gmap DeviceId Held) (o : UserId) (s : Store) : N := a_proved (standing b o 0 s).1.

#[export] Instance proved_proper b o : Proper (counted ==> eq) (proved b o).
Proof. intros s s' Hs. unfold proved. by rewrite (standing_proper b o 0 s s' Hs). Qed.

(** What is held for an account beyond what its proof earns. *)
Definition owed (b : gmap DeviceId Held) (v : Vault) (s : Store) (o : UserId) : N :=
  held_bytes_for o v - earned (proved b o s).

Definition promised (b : gmap DeviceId Held) (v : Vault) (s : Store) : N :=
  N.min (sum_over (owed b v s) (book_owners b (owner_of s))) u64_max.

Lemma lent_fold b now v os n s :
  n <= u64_max ->
  (foldl (lent_step b now v) (n, s) os).1 = N.min (n + sum_over (owed b v s) os) u64_max
  /\ counted s (foldl (lent_step b now v) (n, s) os).2.
Proof.
  revert n s. induction os as [|o os IH]; intros n s Hn; cbn [foldl]; [cbn; split; [lia|done]|].
  pose proof (standing_counted b o now s) as C. pose proof (standing_proved b o now 0 s) as E.
  unfold lent_step at 2 4. destruct (standing b o now s) as [a s1] eqn:Es. cbn [fst snd] in *.
  destruct (IH (sat_add n (held_bytes_for o v - earned (a_proved a))) s1) as [E1 C1]; [unfold sat_add; lia|].
  rewrite E1. split; [|by rewrite <- C1].
  assert (Eo : owed b v s o = held_bytes_for o v - earned (a_proved a)) by (unfold owed, proved; by rewrite E).
  assert (El : sum_over (owed b v s1) os = sum_over (owed b v s) os).
  { apply sum_over_ext. intros x _. unfold owed. by rewrite (proved_proper b x _ _ C). }
  rewrite El. change (sum_over (owed b v s) (o :: os)) with (owed b v s o + sum_over (owed b v s) os).
  rewrite Eo. unfold sat_add. lia.
Qed.

(** A recount gives exactly what is promised, whenever it is made. *)
Lemma lent_on_promise_exact b now v s :
  (lent_on_promise b now v s).1 = promised b v s /\ counted s (lent_on_promise b now v s).2.
Proof. unfold lent_on_promise. destruct (lent_fold b now v (book_owners b (owner_of s)) 0 s) as [E C]; [done|]. by rewrite E. Qed.

#[export] Instance promised_proper b v : Proper (counted ==> eq) (promised b v).
Proof.
  intros s s' Hs. unfold promised. rewrite (counted_owner _ _ Hs). f_equal. apply sum_over_ext. intros o _.
  unfold owed. by rewrite (proved_proper b o _ _ Hs).
Qed.

Lemma promised_le b v v' s :
  (forall o, o <> owner_of s -> held_bytes_for o v' <= held_bytes_for o v) -> promised b v' s <= promised b v s.
Proof.
  intros H. unfold promised. pose proof (sum_over_le (owed b v' s) (owed b v s) (book_owners b (owner_of s))) as Hl.
  assert (Hle : sum_over (owed b v' s) (book_owners b (owner_of s)) <= sum_over (owed b v s) (book_owners b (owner_of s))).
  { apply Hl. intros o [Ho _]%list_elem_of_filter. unfold owed. specialize (H o Ho). lia. }
  lia.
Qed.

Lemma book_owners_NoDup b own : NoDup (book_owners b own).
Proof. unfold book_owners. apply NoDup_filter. rewrite merge_sort_Permutation. apply NoDup_elements. Qed.

(** What a store of one account adds, at most. *)
Definition on_promise (b : gmap DeviceId Held) (v : Vault) (s : Store) (o : UserId) (incoming : N) : N :=
  let e := earned (proved b o s) in
  let mine := held_bytes_for o v in
  (sat_add mine incoming - e) - (mine - e).

Lemma promised_add b v v' s o incoming :
  held_bytes_for o v' <= sat_add (held_bytes_for o v) incoming ->
  (forall x, x <> o -> held_bytes_for x v' <= held_bytes_for x v) ->
  promised b v' s <= sat_add (promised b v s) (on_promise b v s o incoming).
Proof.
  intros Ho Hx. unfold promised. set (os := book_owners b (owner_of s)).
  set (g := fun x => owed b v s x + if decide (x = o) then on_promise b v s o incoming else 0).
  assert (H1 : sum_over (owed b v' s) os <= sum_over g os).
  { apply sum_over_le. intros x _. unfold g, owed, on_promise. case_decide as E; [subst x; lia|].
    specialize (Hx x E). lia. }
  pose proof (sum_over_update (owed b v s) g o (on_promise b v s o incoming) os (book_owners_NoDup _ _)
    (fun x => eq_refl)) as H2.
  unfold sat_add. case_decide; lia.
Qed.

(** ** The vault, one account at a time *)

Definition chain_sum (o : UserId) (v : Vault) : N :=
  sum_over (fun p : UserId * DeviceId * N => p.2) (filter (fun p => p.1.1 = o) (btree_iter (chain_bytes (chains v)))).

Lemma held_for_eq o v :
  totals_ok (ct v) -> vault_fits v -> held_bytes_for o v = N.min (owner_sum o (rows (ct v)) + chain_sum o v) u64_max.
Proof.
  intros (_ & _ & H3) Hf. unfold held_bytes_for. rewrite H3. unfold chain_sum.
  apply (foldl_sat_add (fun p : UserId * DeviceId * N => p.2)).
  pose proof (owner_sum_le o (rows (ct v))). unfold vault_fits in Hf. lia.
Qed.

Lemma put_chunk_held_for o x c s v :
  totals_ok (ct v) -> covered v -> total v + N.of_nat (length s) <= u64_max ->
  held_bytes_for x (put_chunk o c s v).2
  <= if decide (x = o) then sat_add (held_bytes_for x v) (N.of_nat (length s)) else held_bytes_for x v.
Proof.
  intros Ht Hc Hf. pose proof (put_chunk_total o c s v Hc) as Hput.
  assert (Hfits : vault_fits (put_chunk o c s v).2) by (unfold vault_fits, total in *; lia).
  destruct (put_chunk_keeps o c s v Hfits) as (_ & K1 & _).
  rewrite (held_for_eq x _ (K1 Ht) Hfits), (held_for_eq x v Ht) by (unfold vault_fits, total in *; lia).
  assert (Hr : chain_sum x (put_chunk o c s v).2 = chain_sum x v
    /\ owner_sum x (rows (ct (put_chunk o c s v).2))
       <= owner_sum x (rows (ct v)) + if decide (x = o) then N.of_nat (length s) else 0).
  { rewrite put_chunk_eq. destruct (plugged v); [|cbn; split; [done|case_decide; lia]]. cbn [snd].
    unfold index_chunk. destruct (unmark o c _) as [u m]. case_decide as E; [cbn; split; [done|case_decide; lia]|].
    cbn [ct set_mt set_ct set_disk retotal rows]. split; [done|].
    pose proof (owner_sum_insert x (o, c) (N.of_nat (length (default s (owner_blobs o v !! c)))) (rows (ct v))) as H.
    cbn [fst] in H. destruct (decide (o = x)) as [->|Hne]; [rewrite decide_True by done|rewrite decide_False by congruence; lia].
    destruct (owner_blobs x v !! c) as [kept|] eqn:Ek; cbn [default id] in *; [|lia].
    rewrite (Hc x c kept Ek) in H. cbn in H. lia. }
  destruct Hr as [-> Hr]. unfold sat_add. case_decide; lia.
Qed.

Lemma evict_owner_sum o x (chosen : list (N * ChunkId)) r :
  owner_sum x (foldl (fun r (p : N * ChunkId) => delete (o, p.2) r) r chosen) <= owner_sum x r.
Proof.
  revert r. induction chosen as [|p chosen IH]; intros r; cbn [foldl]; [done|].
  pose proof (owner_sum_delete x (o, p.2) r). specialize (IH (delete (o, p.2) r)). lia.
Qed.

Lemma evict_held_for o n now x v :
  totals_ok (ct v) -> total v <= u64_max -> held_bytes_for x (evict_marked o n now v).2 <= held_bytes_for x v.
Proof.
  intros Ht Hf. assert (Hv : vault_fits v) by (unfold vault_fits, total in *; lia).
  destruct (evict_marked_keeps o n now v Hv) as (_ & K1 & _). pose proof (evict_marked_total o n now v) as [Htot _].
  assert (Hv' : total (evict_marked o n now v).2 <= u64_max) by lia.
  rewrite (held_for_eq x _ (K1 Ht)), (held_for_eq x v Ht Hv) by (unfold vault_fits, total in *; lia).
  enough (H : chain_sum x (evict_marked o n now v).2 = chain_sum x v
    /\ owner_sum x (rows (ct (evict_marked o n now v).2)) <= owner_sum x (rows (ct v))) by (destruct H as [-> H]; lia).
  set (P := fun w => chain_sum x w = chain_sum x v /\ owner_sum x (rows (ct w)) <= owner_sum x (rows (ct v))).
  change (P (evict_marked o n now v).2). unfold evict_marked. destruct (n =? 0); [by split|]. unfold bind at 1, gets.
  destruct (choose_evictions o n now v) as [[chosen expired] room]. unfold bind at 1, modify.
  destruct (_ || _); [by split|]. unfold unsure. rewrite evict_files_eq. destruct (plugged _); [|by split].
  unfold P. cbn. split; [done|]. apply evict_owner_sum.
Qed.

(** ** Admission *)

(** The share of a pledge lent on promises. *)
Definition share (host_pledge : N) : N := N.min (host_pledge * UNPROVEN_SHARE.1 / UNPROVEN_SHARE.2) u64_max.

(** By how much the running total is short of a recount; a total that was never
    counted is counted before it is used. *)
Definition shortfall (b : ClaimBook) (v : Vault) (s : Store) : N :=
  match lent_counted (lent b) with Some _ => promised (book b) v s - lent_total (lent b) | None => 0 end.

(** The running total, once counted, is at most [k] short of what is promised. *)
Definition sound (k : N) (b : ClaimBook) (v : Vault) (s : Store) : Prop :=
  lent_counted (lent b) = None \/ promised (book b) v s <= lent_total (lent b) + k.

Lemma sound_shortfall k b v s : sound k b v s <-> shortfall b v s <= k.
Proof. unfold sound, shortfall. destruct (lent_counted _); [|split; [lia|by left]]. split; [intros [?|?]; [done|lia]|intros ?; right; lia]. Qed.

Lemma lend_spec k on host_pledge now now_unix v b s r b' s' :
  lend on host_pledge now now_unix v b s = (r, (b', s')) -> sound k b v s ->
  book b' = book b /\ counted s s' /\ sound k b' v s'
  /\ (r = Ok tt -> sat_add (promised (book b) v s) on <= lent_total (lent b') + k /\ lent_total (lent b') <= share host_pledge).
Proof.
  unfold lend, sound. fold (share host_pledge). set (stale := match lent_counted (lent b) with Some _ => _ | None => _ end).
  set (recount := stale || _). intros E Hs.
  assert (Hl : exists l s1, (if recount
      then let '(total, s) := lent_on_promise (book b) now_unix v s in (mkLent total (Some now), s)
      else (lent b, s)) = (l, s1) /\ counted s s1 /\ promised (book b) v s <= lent_total l + k).
  { destruct (lent_on_promise_exact (book b) now_unix v s) as [El Ec].
    destruct recount eqn:Er.
    - destruct (lent_on_promise (book b) now_unix v s) as [t s1]. cbn in El, Ec. subst t.
      eexists _, _. split; [done|]. split; [done|]. cbn. lia.
    - eexists _, _. split; [done|]. split; [done|]. destruct Hs as [Hn|Hs]; [|done].
      unfold recount, stale in Er. rewrite Hn in Er. done. }
  destruct Hl as (l & s1 & El & Hc & Hp). rewrite El in E.
  destruct (share host_pledge <? sat_add (lent_total l) on) eqn:Eo; injection E as <- <- <-; cbn [book set_lent lent lent_total].
  - split_and!; [done|done|right; by rewrite <- (promised_proper (book b) v _ _ Hc)|done].
  - apply N.ltb_ge in Eo. split_and!; [done|done| |].
    + right. rewrite <- (promised_proper (book b) v _ _ Hc). unfold sat_add, promised in *. lia.
    + intros _. unfold sat_add, promised in *. lia.
Qed.

Lemma admits_spec k caller o incoming host_pledge now now_unix v b s r b' s' :
  admits caller o incoming host_pledge now now_unix v b s = (r, (b', s')) -> sound k b v s ->
  book b' = book b /\ counted s s' /\ sound k b' v s'
  /\ (r = Ok tt -> o = owner_of s \/ on_promise (book b) v s o incoming = 0
        \/ sat_add (promised (book b) v s) (on_promise (book b) v s o incoming) <= lent_total (lent b') + k
            /\ lent_total (lent b') <= share host_pledge).
Proof.
  unfold admits. intros E Hs.
  destruct (book b !! caller) as [held|]; [|injection E as <- <- <-; by split_and!].
  destruct (negb (he_owner held =? o)); [injection E as <- <- <-; by split_and!|].
  destruct (o =? owner_of s) eqn:Eo; [injection E as <- <- <-; apply N.eqb_eq in Eo; split_and!; [done|done|done|by left]|].
  destruct (decide _); [injection E as <- <- <-; by split_and!|].
  destruct (negb (confirmed _ _)); [injection E as <- <- <-; by split_and!|].
  pose proof (standing_counted (book b) o now_unix s) as Hc. pose proof (standing_proved (book b) o now_unix 0 s) as Ep.
  destruct (standing (book b) o now_unix s) as [a s1]. cbn [fst snd] in *.
  assert (Hs1 : sound k b v s1) by (unfold sound; by rewrite <- (promised_proper (book b) v _ _ Hc)).
  assert (Eon : on_promise (book b) v s o incoming
    = sat_add (held_bytes_for o v) incoming - earned (a_proved a) - (held_bytes_for o v - earned (a_proved a)))
    by (unfold on_promise, proved; by rewrite Ep).
  destruct (_ <? sat_add _ _); [injection E as <- <- <-; by split_and!|]. rewrite <- Eon in E.
  destruct (0 <? on_promise _ _ _ _ _) eqn:Ez.
  - destruct (lend_spec _ _ _ _ _ _ _ _ _ _ _ E Hs1) as (H1 & H2 & H3 & H4).
    split_and!; [done|by rewrite Hc|done|]. intros Hr. right. right.
    rewrite (promised_proper (book b) v _ _ Hc). by apply H4.
  - injection E as <- <- <-. split_and!; [done|done|done|]. intros _. right. left. apply N.ltb_ge in Ez. lia.
Qed.

(** ** The service *)

Context {PC : Postcard SignedClaim} (cfg : Config).

(** Until the vault is suspect: its accounts are exact and within the pledge, and
    what is promised is at most [k] more than the running total, and at most [most]. *)
Definition lends (k most : N) (n : Node ClaimBook) : Prop :=
  suspect (n_vault n) = true
  \/ exists b, n_owners n = Some b /\ totals_ok (ct (n_vault n)) /\ covered (n_vault n)
       /\ total (n_vault n) <= pledge cfg /\ sound k b (n_vault n) (n_store n)
       /\ promised (book b) (n_vault n) (n_store n) <= most.

(** The store was admitted, from a node in that state. *)
Definition admitted (k most : N) (o : UserId) (incoming : N) (n1 : Node ClaimBook) : Prop :=
  suspect (n_vault n1) = true
  \/ exists b1, n_owners n1 = Some b1 /\ totals_ok (ct (n_vault n1)) /\ covered (n_vault n1)
      /\ total (n_vault n1) <= pledge cfg /\ sound k b1 (n_vault n1) (n_store n1)
      /\ promised (book b1) (n_vault n1) (n_store n1) <= most
      /\ (o = owner_of (n_store n1) \/ on_promise (book b1) (n_vault n1) (n_store n1) o incoming = 0
          \/ sat_add (promised (book b1) (n_vault n1) (n_store n1))
                (on_promise (book b1) (n_vault n1) (n_store n1) o incoming) <= lent_total (lent b1) + k
              /\ lent_total (lent b1) <= share (pledge cfg)).

Lemma refused_for_owner_lends k most a caller o incoming n :
  lends k most n ->
  let n1 := (refused_for_owner cfg a caller o incoming n).2 in
  lends k most n1 /\ ((refused_for_owner cfg a caller o incoming n).1 = Ok None -> admitted k most o incoming n1).
Proof.
  intros Hn. unfold refused_for_owner. destruct (n_owners n) as [b|] eqn:Hb; cbn [ow_admits ClaimBook_owners].
  2: { destruct Hn as [Hn|(b0 & Hb0 & _)]; [|congruence]. split; [by left|]. by left. }
  destruct (admits _ _ _ _ _ _ _ _ _) as [r [b1 s1]] eqn:Ea. cbn [fst snd].
  destruct Hn as [Hn|(b0 & Hb0 & Ht & Hc & Hp & Hs & Hm)]; [split; by left|].
  rewrite Hb in Hb0. injection Hb0 as <-.
  destruct (admits_spec _ _ _ _ _ _ _ _ _ _ _ _ _ Ea Hs) as (Eb & Hk & Hs1 & Hr).
  assert (Ep : promised (book b1) (n_vault n) s1 = promised (book b) (n_vault n) (n_store n))
    by (rewrite Eb; symmetry; by apply promised_proper).
  split.
  - right. exists b1. cbn. rewrite Ep. by split_and!.
  - intros Hok. right. exists b1. cbn. rewrite Ep. split_and!; try done.
    assert (r = Ok tt) as -> by (by destruct r as [[]|]).
    rewrite (counted_owner _ _ Hk). destruct (Hr eq_refl) as [H|H]; [by left|]. right. rewrite Eb.
    assert (Eo : on_promise (book b) (n_vault n) s1 o incoming = on_promise (book b) (n_vault n) (n_store n) o incoming)
      by (unfold on_promise; by rewrite (proved_proper (book b) o _ _ Hk)).
    by rewrite Eo.
Qed.

Lemma evict_lends k most o needed now n :
  pledge cfg < u64_max -> lends k most n -> lends k most (on_vault (evict_marked o needed now) n).2.
Proof.
  intros Hp Hn. unfold on_vault. pose proof (evict_marked_shrinks o needed now (n_vault n)) as [Hs Hk].
  pose proof (fun x => evict_held_for o needed now x (n_vault n)) as Hx.
  destruct (evict_marked o needed now (n_vault n)) as [r v']. cbn [snd] in *.
  destruct (suspect v') eqn:Es; [by left|]. destruct Hn as [Hn|(b & Hb & Ht & Hc & Htot & Hso & Hm)];
    [rewrite Hs in Hn by done; done|].
  destruct (Hk ltac:(lia)) as [(_ & K1 & _ & K3) Ht'].
  assert (Hle : promised (book b) v' (n_store n) <= promised (book b) (n_vault n) (n_store n))
    by (apply promised_le; intros x _; apply Hx; [done|lia]).
  right. exists b. cbn. split_and!; [done|by apply K1|by apply K3|lia| |lia].
  destruct Hso as [Hso|Hso]; [by left|right; lia].
Qed.

(** An admitted chunk, written. *)
Lemma put_lends k most o address sealed n :
  pledge cfg < u64_max -> share (pledge cfg) + k <= most -> admitted k most o (N.of_nat (length sealed)) n ->
  (suspect (n_vault n) = false -> total (n_vault n) + N.of_nat (length sealed) <= pledge cfg) ->
  lends k most (on_vault (put_chunk o address sealed) n).2.
Proof.
  intros Hp Hsh Hn Hroom. unfold on_vault.
  pose proof (put_chunk_suspect o address sealed (n_vault n)) as Hs.
  pose proof (put_chunk_within (pledge cfg) o address sealed (n_vault n) ltac:(lia) Hroom) as Hw.
  pose proof (fun x => put_chunk_held_for o x address sealed (n_vault n)) as Hx.
  destruct (put_chunk o address sealed (n_vault n)) as [r v']. cbn [snd] in *.
  destruct (suspect v') eqn:Es; [by left|]. specialize (Hs eq_refl). specialize (Hroom Hs).
  destruct Hn as [Hn|(b & Hb & Ht & Hc & Htot & Hso & Hm & Had)]; [congruence|].
  destruct Hw as [Hw|(Ht' & Hc' & Htot')]; [by right; split_and!|congruence|].
  assert (Ho : held_bytes_for o v' <= sat_add (held_bytes_for o (n_vault n)) (N.of_nat (length sealed)))
    by (specialize (Hx o Ht Hc ltac:(lia)); by rewrite decide_True in Hx).
  assert (Hne : forall x, x <> o -> held_bytes_for x v' <= held_bytes_for x (n_vault n))
    by (intros x Hne; specialize (Hx x Ht Hc ltac:(lia)); by rewrite decide_False in Hx).
  assert (Hd : promised (book b) v' (n_store n) <= promised (book b) (n_vault n) (n_store n)
    \/ promised (book b) v' (n_store n) <= lent_total (lent b) + k <= share (pledge cfg) + k).
  { pose proof (promised_add (book b) _ v' (n_store n) o _ Ho Hne) as Hadd.
    destruct Had as [Eo|[Hz|[Hl Hl']]].
    - left. apply promised_le. intros x Hxo. apply Hne. congruence.
    - left. rewrite Hz in Hadd. unfold sat_add in Hadd. lia.
    - right. lia. }
  right. exists b. cbn. split_and!; [done|done|done|done| |lia].
  destruct Hd as [Hd|[Hd _]]; [|by right]. destruct Hso as [Hso|Hso]; [by left|right; lia].
Qed.

Lemma store_chunk_lends k most a caller o address sealed n :
  pledge cfg < u64_max -> share (pledge cfg) + k <= most -> lends k most n ->
  lends k most (store_chunk cfg a caller o address sealed n).2.
Proof.
  intros Hp Hsh Hn. unfold store_chunk, bind at 1, gets. cbn [id].
  destruct (would_exceed_pledge cfg a _ n) eqn:Hw; [done|].
  assert (Hwithin : within (pledge cfg) (n_vault n)).
  { destruct Hn as [Hn|(b & _ & Ht & Hc & Htot & _)]; [by left|by right]. }
  pose proof (room_left cfg a _ n (pledge cfg) ltac:(lia) ltac:(lia) Hwithin Hw) as Hroom.
  assert (Hput : forall n1, shrinks (n_vault n) (n_vault n1) -> admitted k most o (N.of_nat (length sealed)) n1 ->
    lends k most ((on_vault (put_chunk o address sealed) ;;! ret (Res.Stored true)) n1).2).
  { intros n1 Hs1 Hadm. assert (H : lends k most (on_vault (put_chunk o address sealed) n1).2).
    { apply put_lends; try done. intros Hs. specialize (Hroom (proj1 Hs1 Hs)).
      destruct Hwithin as [Hc|(_ & _ & Htot)]; [rewrite (proj1 Hs1 Hs) in Hc; done|].
      pose proof (proj2 (proj2 Hs1 ltac:(lia))). lia. }
    unfold bind. by destruct (on_vault _ n1) as [[x|e] n2]. }
  unfold bind at 1.
  destruct (refused_for_owner_lends k most a caller o (N.of_nat (length sealed)) n Hn) as [H1 Hadm].
  destruct (refused_for_owner_vault cfg a caller o (N.of_nat (length sealed)) n) as [Ev [r Er]].
  destruct (refused_for_owner _ _ _ _ _ n) as [r0 n1]. cbn [fst snd] in Ev, Er, H1, Hadm. subst r0.
  destruct r as [why|]; [|apply Hput; [by rewrite Ev|by apply Hadm]].
  destruct (negb _); [exact H1|]. unfold bind at 1.
  pose proof (evict_lends k most o (overage why (N.of_nat (length sealed))) (at_unix a) n1 Hp H1) as H2.
  pose proof (on_vault_along (B := ClaimBook) (evict_marked o (overage why (N.of_nat (length sealed))) (at_unix a))
    (evict_marked_shrinks _ _ _) n1) as Hs2.
  destruct (on_vault (evict_marked _ _ _) n1) as [[freed|e] n2]; cbn [snd] in H2, Hs2; [|exact H2].
  destruct (freed =? 0); [exact H2|]. unfold bind at 1.
  destruct (refused_for_owner_lends k most a caller o (N.of_nat (length sealed)) n2 H2) as [H3 Hadm3].
  destruct (refused_for_owner_vault cfg a caller o (N.of_nat (length sealed)) n2) as [Ev2 [r2 Er2]].
  destruct (refused_for_owner _ _ _ _ _ n2) as [r3 n3]. cbn [fst snd] in Ev2, Er2, H3, Hadm3. subst r3.
  destruct r2 as [why2|]; [exact H3|]. apply Hput; [|by apply Hadm3]. rewrite Ev2, <- Ev. exact Hs2.
Qed.

(** One chunk offered, by anybody, at any time. *)
Inductive offer_step (encoded_len : SegmentEnvelope -> N) : relation (Node ClaimBook) :=
| offered a caller o address sealed n :
    offer_step encoded_len n (handle encoded_len cfg a (Req.StoreChunk o address sealed) caller n).2.

(** C14. A host that keeps a book lends the accounts whose devices it has not
    audited, all together, no more than three tenths of its pledge.  Take a host
    whose vault's accounts are exact and within its pledge, and any run of chunks
    offered by any devices for any accounts, at any times, that leaves the vault
    trusting its accounts.  What it then holds for the accounts in its book beyond
    what their proof earns is at most that share, or what it already was, and
    more than the share only by as much as the running total was short of a
    recount at the start.  It can be short then, because a claim presented or a
    device caught since the last recount is not in it; no chunk offered makes it
    any shorter. *)
Theorem promises_stay_within_the_share encoded_len n n' b :
  pledge cfg < u64_max -> n_owners n = Some b ->
  totals_ok (ct (n_vault n)) -> covered (n_vault n) -> total (n_vault n) <= pledge cfg ->
  rtc (offer_step encoded_len) n n' -> suspect (n_vault n') = false ->
  exists b', n_owners n' = Some b'
    /\ shortfall b' (n_vault n') (n_store n') <= shortfall b (n_vault n) (n_store n)
    /\ promised (book b') (n_vault n') (n_store n')
       <= N.max (promised (book b) (n_vault n) (n_store n)) (share (pledge cfg) + shortfall b (n_vault n) (n_store n)).
Proof.
  intros Hp Hb Ht Hc Htot Hrun Hsus. set (k := shortfall b _ _). set (most := N.max _ _).
  assert (Hn : lends k most n) by (right; exists b; split_and!; try done; [by apply sound_shortfall|lia]).
  assert (Hn' : lends k most n').
  { revert Hn. assert (Hsh : share (pledge cfg) + k <= most) by lia. clearbody most k. clear -Hrun Hp Hsh.
    induction Hrun as [n|n1 n2 n3 Hstep Hrun IH]; [done|]. intros Hn. apply IH.
    destruct Hstep as [a caller o address sealed n1]. unfold handle, bind at 1, gets. cbn [id].
    destruct (refused_before_reading _ _ _ _); [done|]. by apply store_chunk_lends. }
  destruct Hn' as [Hn'|(b' & Hb' & _ & _ & _ & Hs' & Hm)]; [congruence|]. exists b'. split_and!; [done|by apply sound_shortfall|done].
Qed.

(** ** A refusal, read back

    The service evicts what the account marked, for the number of bytes the
    refusal says must go; the number travels in the refusal's text. *)

Lemma split_colon_found p rest :
  Forall (fun c => c <> ":"%char) p -> split_colon (p ++ ":"%char :: " "%char :: rest) = Some rest.
Proof.
  induction p as [|c p IH]; intros H; [done|]. apply Forall_cons in H as [Hc Hp]. specialize (IH Hp).
  destruct p as [|d p]; cbn [app split_colon] in *; (rewrite decide_False by (intros [? _]; done)); exact IH.
Qed.

Lemma split_spaces_word w word rest :
  Forall (fun c => c <> " "%char) w -> split_spaces word (w ++ " "%char :: rest) = (word ++ w) :: split_spaces [] rest.
Proof.
  revert word. induction w as [|c w IH]; intros word H; cbn [app split_spaces].
  { by rewrite decide_True, app_nil_r. }
  apply Forall_cons in H as [Hc Hw]. rewrite decide_False, IH by done. by rewrite <- app_assoc.
Qed.

Lemma decimal_no_space n : Forall (fun c => c <> " "%char) (decimal n).
Proof.
  eapply Forall_impl; [apply decimal_digits|]. intros c [Hc _] ->. vm_compute in Hc. by apply Hc.
Qed.

Lemma list_ascii_app a b :
  String.list_ascii_of_string (a ++ b)%string = String.list_ascii_of_string a ++ String.list_ascii_of_string b.
Proof. induction a as [|c a IH]; [done|]. exact (f_equal (cons c) IH). Qed.

Lemma overage_full_text why mine allowance a incoming :
  Forall (fun c => c <> ":"%char) (String.list_ascii_of_string why) ->
  mine <= u64_max -> allowance <= u64_max -> allowance < sat_add mine incoming ->
  overage (full_text why mine allowance a) incoming = sat_add mine incoming - allowance.
Proof.
  intros Hw Hm Ha Ho. unfold overage, full_text. rewrite !list_ascii_app, !String.list_ascii_of_string_of_list_ascii.
  cbn [String.list_ascii_of_string app]. rewrite (split_colon_found _ _ Hw).
  rewrite (split_spaces_word (decimal mine) []) by apply decimal_no_space.
  pose proof (split_spaces_word ["o"; "f"]%char []) as Hof. cbn [app] in Hof.
  rewrite Hof by (repeat constructor; done).
  rewrite (split_spaces_word (decimal allowance) []) by apply decimal_no_space. cbn [app].
  rewrite decide_True, !parse_int_decimal by done.
  rewrite (proj2 (N.ltb_lt _ _)) by lia. done.
Qed.

Lemma lend_refusal on host_pledge now now_unix v b s why rest :
  lend on host_pledge now now_unix v b s = (Err why, rest) -> why = UNPROVEN_FULL.
Proof.
  unfold lend. match goal with |- context [if ?c || ?d then _ else _] => destruct (c || d) end.
  - destruct (lent_on_promise _ _ _ _) as [t s1]. destruct (_ <? sat_add (lent_total _) _); by intros [= <- _].
  - destruct (_ <? sat_add (lent_total _) _); by intros [= <- _].
Qed.

(** When a host refuses a store because the account has stored what its
    pledge earns, the bytes the service then asks to evict, read back out of the
    refusal's text, are exactly those that must go before the store fits; and
    no other refusal of the book is taken for that one. *)
Theorem eviction_is_asked_for_the_overage caller o incoming host_pledge now now_unix v b s why rest :
  held_bytes_for o v <= u64_max ->
  admits caller o incoming host_pledge now now_unix v b s = (Err why, rest) ->
  String.prefix ACCOUNT_FULL why = true ->
  let a := (standing (book b) o now_unix s).1 in
  a_contradicted a = false
  /\ earned (a_pledged a) < sat_add (held_bytes_for o v) incoming
  /\ overage why incoming = sat_add (held_bytes_for o v) incoming - earned (a_pledged a).
Proof.
  intros Hh. unfold admits. destruct (book b !! caller) as [held|]; [|by intros [= <- _]].
  destruct (negb _); [by intros [= <- _]|]. destruct (o =? _); [by intros [=]|].
  destruct (decide _); [by intros [= <- _]|]. destruct (negb _); [by intros [= <- _]|].
  destruct (standing (book b) o now_unix s) as [a s1]. cbn [fst]. destruct (a_contradicted a).
  all: destruct (_ <? sat_add _ _) eqn:Eo.
  1: by intros [= <- _].
  2: { intros [= <- _] _. apply N.ltb_lt in Eo. split_and!; [done|done|].
       apply overage_full_text; [|done|unfold earned, room_earned; lia|done].
       by apply (bool_decide_unpack (Forall (fun c => c <> ":"%char) (String.list_ascii_of_string ACCOUNT_FULL))). }
  all: destruct (0 <? _); [|by intros [=]]; intros E; by rewrite (lend_refusal _ _ _ _ _ _ _ _ _ E).
Qed.

End lending.

(** ** A guest that has proved nothing yet *)

Module Newcomer.

Import Toy StoreSample SixHosts Guest.

Definition confirmed_row : Held := mkHeld (user_id guest) 1000 10 (bytes_of (claim_at 10 false)) (Live 40) 0 None.
Definition newcomer_book : ClaimBook := set_book {[guest_device := confirmed_row]} book_new.
Definition newcomer_host : Node ClaimBook := mkNode met_store (open len0 fresh_vault) (Some newcomer_book) None.
Definition newcomer_served : Node ClaimBook :=
  (handle len0 config around (Req.StoreChunk (user_id guest) 8 [1; 2; 3; 4; 5]) guest_device newcomer_host).2.

End Newcomer.

Import Toy Guest Newcomer.

Lemma promises_stay_within_the_share_witness :
  exists b', n_owners newcomer_served = Some b'
    /\ promised (book b') (n_vault newcomer_served) (n_store newcomer_served) = 5
    /\ promised (book b') (n_vault newcomer_served) (n_store newcomer_served)
       <= N.max (promised (book newcomer_book) (n_vault newcomer_host) (n_store newcomer_host)) (share (pledge config) + 0).
Proof.
  assert (E : ct (n_vault newcomer_host) = mkCT ∅ (Some 0) true ∅) by (vm_compute; reflexivity).
  destruct (promises_stay_within_the_share config len0 newcomer_host newcomer_served newcomer_book) as (b' & Hb & _ & Hp).
  - vm_compute. reflexivity.
  - reflexivity.
  - rewrite E. split_and!; [done|done|]. intros o. rewrite owner_sum_empty. reflexivity.
  - intros o c s Hs. exfalso. assert (Hd : disk (n_vault newcomer_host) = ∅) by (vm_compute; reflexivity).
    unfold owner_blobs in Hs. rewrite Hd in Hs. discriminate Hs.
  - vm_compute. discriminate.
  - apply rtc_once. apply offered.
  - vm_compute. reflexivity.
  - exists b'. split; [exact Hb|]. split; [|exact Hp].
    assert (E1 : book b' = book newcomer_book).
    { transitivity (default ∅ (book <$> n_owners newcomer_served)); [by rewrite Hb|]. vm_compute. reflexivity. }
    rewrite E1. vm_compute. reflexivity.
Defined.

(** 500 bytes on a pledge that earns 428. *)
Lemma eviction_is_asked_for_the_overage_witness :
  overage (full_text ACCOUNT_FULL 0 428 (mkAccountHere 1000 0 false)) 500 = 72
  /\ earned (a_pledged (standing (book newcomer_book) (user_id guest) 720000 (n_store newcomer_host)).1)
     < sat_add (held_bytes_for (user_id guest) (n_vault newcomer_host)) 500.
Proof.
  split; [vm_compute; reflexivity|].
  set (why := full_text ACCOUNT_FULL 0 428 (mkAccountHere 1000 0 false)).
  destruct (admits guest_device (user_id guest) 500 1000 50 720000 (n_vault newcomer_host) newcomer_book
    (n_store newcomer_host)) as [r rest] eqn:E.
  assert (Hr : r = Err why). { change r with (r, rest).1. rewrite <- E. vm_compute. reflexivity. }
  assert (Hp : String.prefix ACCOUNT_FULL why = true) by (vm_compute; reflexivity).
  assert (Hh : held_bytes_for (user_id guest) (n_vault newcomer_host) <= u64_max) by (vm_compute; discriminate).
  rewrite Hr in E. clearbody why.
  apply (eviction_is_asked_for_the_overage guest_device (user_id guest) 500 1000 50 720000 (n_vault newcomer_host)
    newcomer_book (n_store newcomer_host) why rest Hh E Hp).
Defined.
