(* ===== verification/Desk.v ===== *)
(** * Desk: what a relay keeps for machines nobody can reach

    Models the counting of [crates/itsanas-net/src/relay.rs] -- who is parked,
    how many splices run, the shared rate -- and the two requests that use it
    ([Server::relay] of [transport.rs]).  Every guard a thread holds is a value of
    the state, and every drop of one a step, so the steps of any number of
    threads interleave; what a connection does is the choice of the step. *)

From S2P Require Import Prelude Version Ids Crypto Oplog Store Vault Peer.

Definition MAX_PARKED_OWN : N := 8.
Definition MAX_PARKED_HOSTED : N := 8.
Definition MAX_PARKED_PER_ACCOUNT : N := 2.
Definition MAX_SPLICES_PER_POOL : N := 2.
Definition RATE : N := 1024 * 1024.

#[export] Instance RelayClass_eq_dec : EqDecision RelayClass.
Proof. solve_decision. Defined.

(** [pool] indexes [splices]: the own account's, or the hosted ones'. *)
Inductive Pool := OwnPool | HostedPool.
#[export] Instance Pool_eq_dec : EqDecision Pool.
Proof. solve_decision. Defined.
Definition pool (class : RelayClass) : Pool := match class with Own => OwnPool | HostedFor _ => HostedPool end.

Record Parked := mkParked { pk_class : RelayClass; pk_ticket : N; pk_hand : nat }.

(** A [sync_channel(1)]: who waits on it, what it holds, and whether its
    receiver is there, has been drained by [Waiting::drop], or is gone. *)
Inductive Receiver := Listening | Drained | Gone.
Record Channel := mkChannel { ch_pool : Pool; ch_full : bool; ch_receiver : Receiver }.

Record Desk := mkDesk {
  parked : gmap DeviceId Parked;
  tickets : N;
  splices : Pool -> N;
  channels : gmap nat Channel;
}.

Definition desk_default : Desk := mkDesk ∅ 0 (fun _ => 0) ∅.

(** [AtomicUsize::fetch_add] and [fetch_sub] wrap. *)
Definition usize : N := 2 ^ 64.
Definition on_splices (p : Pool) (f : N -> N) (d : Desk) : Desk :=
  mkDesk (parked d) (tickets d) (fun q => if decide (q = p) then f (splices d q) else splices d q) (channels d).
Definition add_splice (p : Pool) : Desk -> Desk := on_splices p (fun n => (n + 1) mod usize).
Definition give_back (p : Pool) : Desk -> Desk := on_splices p (fun n => (n + (usize - 1)) mod usize).

Definition set_parked (m : gmap DeviceId Parked) (d : Desk) : Desk := mkDesk m (tickets d) (splices d) (channels d).
Definition set_channel (c : nat) (ch : Channel) (d : Desk) : Desk :=
  mkDesk (parked d) (tickets d) (splices d) (<[c := ch]> (channels d)).

Definition in_pool (wanted : RelayClass -> bool) (m : gmap DeviceId Parked) : N :=
  map_sum (fun p => if wanted (pk_class p) then 1 else 0) m.

Definition is_own (c : RelayClass) : bool := match c with Own => true | HostedFor _ => false end.
Definition is_hosted (c : RelayClass) : bool := match c with HostedFor _ => true | Own => false end.
Definition is_account (a : UserId) (c : RelayClass) : bool := bool_decide (c = HostedFor a).

Definition has_room (class : RelayClass) (m : gmap DeviceId Parked) : bool :=
  match class with
  | Own => in_pool is_own m <? MAX_PARKED_OWN
  | HostedFor account => (in_pool is_hosted m <? MAX_PARKED_HOSTED) && (in_pool (is_account account) m <? MAX_PARKED_PER_ACCOUNT)
  end.

(** The channel is a new one: [fresh] names it. *)
Definition park (device : DeviceId) (class : RelayClass) (fresh : nat) (d : Desk) : option N * Desk :=
  let m := delete device (parked d) in
  if negb (has_room class m) then (None, set_parked m d)
  else
    (Some (tickets d),
     mkDesk (<[device := mkParked class (tickets d) fresh]> m) ((tickets d + 1) mod usize) (splices d)
       (<[fresh := mkChannel (pool class) false Listening]> (channels d))).

(** The pool and the sender of the park reserved. *)
Definition reserve (to : DeviceId) (class : RelayClass) (d : Desk) : option (Pool * nat) * Desk :=
  match parked d !! to with
  | Some p =>
      if negb (bool_decide (pk_class p = class)) then (None, d)
      else
        let before := splices d (pool class) in
        let d := add_splice (pool class) d in
        if MAX_SPLICES_PER_POOL <=? before then (None, give_back (pool class) d)
        else (Some (pool class, pk_hand p), set_parked (delete to (parked d)) d)
  | None => (None, d)
  end.

(** [Reserved::hand]: [try_send], or the place given back. *)
Definition hand (p : Pool) (c : nat) (d : Desk) : Desk :=
  match channels d !! c with
  | Some ch =>
      match ch_receiver ch, ch_full ch with
      | Gone, _ | _, true => give_back p d
      | _, false => set_channel c (mkChannel (ch_pool ch) true (ch_receiver ch)) d
      end
  | None => give_back p d
  end.

(** [try_recv] *)
Definition take_handoff (c : nat) (d : Desk) : bool * Desk :=
  match channels d !! c with
  | Some ch => if ch_full ch then (true, set_channel c (mkChannel (ch_pool ch) false (ch_receiver ch)) d) else (false, d)
  | None => (false, d)
  end.

Definition drop_ticket (device : DeviceId) (number : N) (d : Desk) : Desk :=
  match parked d !! device with
  | Some p => if pk_ticket p =? number then set_parked (delete device (parked d)) d else d
  | None => d
  end.

Definition drop_splicing (p : Pool) (d : Desk) : Desk := give_back p d.

(** [Waiting::drop], its loop and then the receiver's own drop. *)
Definition drain (c : nat) (d : Desk) : Desk :=
  match channels d !! c with
  | Some ch =>
      let d := set_channel c (mkChannel (ch_pool ch) false Drained) d in
      if ch_full ch then give_back (ch_pool ch) d else d
  | None => d
  end.
Definition close (c : nat) (d : Desk) : Desk :=
  match channels d !! c with
  | Some ch => set_channel c (mkChannel (ch_pool ch) false Gone) d
  | None => d
  end.

(** [spend]: how long to wait, and when the shared rate next has room. *)
Definition cost_of (bytes : N) : N := sat_mul bytes 1000000000 / RATE.
Definition spend (bytes now : N) (next : option N) : N * N :=
  let start := match next with Some at_ => N.max at_ now | None => now end in
  (start - now, start + cost_of bytes).

(** ** The threads of a relay *)

(** The desk, the splices reserved and not yet handed over, those being carried,
    and, for the account of it only, the places nobody will give back. *)
Record Relay := mkRelay {
  rl_desk : Desk;
  reserved : list (Pool * nat);
  carrying : list Pool;
  lost : Pool -> N;
}.

Definition relay_start : Relay := mkRelay desk_default [] [] (fun _ => 0).

Definition one_more (p : Pool) (f : Pool -> N) : Pool -> N := fun q => if decide (q = p) then f q + 1 else f q.

Inductive relay_step : Relay -> Relay -> Prop :=
| rs_park r device class fresh t d :
    channels (rl_desk r) !! fresh = None -> park device class fresh (rl_desk r) = (t, d) ->
    relay_step r (mkRelay d (reserved r) (carrying r) (lost r))
| rs_refused r to class d :
    reserve to class (rl_desk r) = (None, d) -> relay_step r (mkRelay d (reserved r) (carrying r) (lost r))
| rs_reserved r to class p c d :
    reserve to class (rl_desk r) = (Some (p, c), d) -> relay_step r (mkRelay d ((p, c) :: reserved r) (carrying r) (lost r))
| rs_handed r p c l1 l2 :
    reserved r = l1 ++ (p, c) :: l2 -> relay_step r (mkRelay (hand p c (rl_desk r)) (l1 ++ l2) (carrying r) (lost r))
  (** [connection.send(&Response::Spliced)?] failed: [Reserved] goes, and has no [Drop]. *)
| rs_caller_gone r p c l1 l2 :
    reserved r = l1 ++ (p, c) :: l2 -> relay_step r (mkRelay (rl_desk r) (l1 ++ l2) (carrying r) (one_more p (lost r)))
| rs_taken r c ch d :
    channels (rl_desk r) !! c = Some ch -> ch_receiver ch = Listening -> take_handoff c (rl_desk r) = (true, d) ->
    relay_step r (mkRelay d (reserved r) (ch_pool ch :: carrying r) (lost r))
| rs_carried r p l1 l2 :
    carrying r = l1 ++ p :: l2 -> relay_step r (mkRelay (drop_splicing p (rl_desk r)) (reserved r) (l1 ++ l2) (lost r))
| rs_ticket r device number :
    relay_step r (mkRelay (drop_ticket device number (rl_desk r)) (reserved r) (carrying r) (lost r))
| rs_drain r c ch :
    channels (rl_desk r) !! c = Some ch -> ch_receiver ch = Listening ->
    relay_step r (mkRelay (drain c (rl_desk r)) (reserved r) (carrying r) (lost r))
| rs_close r c ch :
    channels (rl_desk r) !! c = Some ch -> ch_receiver ch = Drained ->
    relay_step r (mkRelay (close c (rl_desk r)) (reserved r) (carrying r)
                    (if ch_full ch then one_more (ch_pool ch) (lost r) else lost r)).

Definition relay_run : Relay -> Relay -> Prop := rtc relay_step.

(** ** Where every place is *)

Definition full_in (p : Pool) (ch : Channel) : N := if ch_full ch && bool_decide (ch_pool ch = p) then 1 else 0.
Definition reserved_in (p : Pool) (l : list (Pool * nat)) : N := N.of_nat (length (filter (fun x => x.1 = p) l)).
Definition carried_in (p : Pool) (l : list Pool) : N := N.of_nat (length (filter (fun x => x = p) l)).
Definition in_use (r : Relay) (p : Pool) : N :=
  reserved_in p (reserved r) + map_sum (full_in p) (channels (rl_desk r)) + carried_in p (carrying r).

Record relay_ok (r : Relay) : Prop := mkRelayOk {
  ro_count : forall p, splices (rl_desk r) p = in_use r p + lost r p;
  ro_cap : forall p, splices (rl_desk r) p <= MAX_SPLICES_PER_POOL;
  ro_reserved : forall p c, (p, c) ∈ reserved r -> exists ch, channels (rl_desk r) !! c = Some ch /\ ch_pool ch = p;
  ro_parked : forall d k, parked (rl_desk r) !! d = Some k ->
    exists ch, channels (rl_desk r) !! pk_hand k = Some ch /\ ch_pool ch = pool (pk_class k);
  ro_own : in_pool is_own (parked (rl_desk r)) <= MAX_PARKED_OWN;
  ro_hosted : in_pool is_hosted (parked (rl_desk r)) <= MAX_PARKED_HOSTED;
  ro_account : forall a, in_pool (is_account a) (parked (rl_desk r)) <= MAX_PARKED_PER_ACCOUNT;
}.

Lemma in_pool_delete f d m : in_pool f (delete d m) <= in_pool f m.
Proof. unfold in_pool. pose proof (map_sum_delete_default (fun p => if f (pk_class p) then 1 else 0) m d). lia. Qed.

Lemma in_pool_insert f d k m :
  m !! d = None -> in_pool f (<[d := k]> m) = (if f (pk_class k) then 1 else 0) + in_pool f m.
Proof. intros Hd. unfold in_pool. by rewrite map_sum_insert_new. Qed.

Lemma give_back_splices p d q :
  0 < splices d p <= MAX_SPLICES_PER_POOL -> splices (give_back p d) q = if decide (q = p) then splices d p - 1 else splices d q.
Proof.
  intros Hp. cbn. case_decide as Hq; [subst q|done]. unfold usize, MAX_SPLICES_PER_POOL in *.
  replace (splices d p + (2 ^ 64 - 1)) with (splices d p - 1 + 1 * 2 ^ 64) by lia. rewrite N.Div0.mod_add. apply N.mod_small.
  change (2 ^ 64) with 18446744073709551616. lia.
Qed.

Lemma add_splice_splices p d q :
  splices d p <= MAX_SPLICES_PER_POOL -> splices (add_splice p d) q = if decide (q = p) then splices d p + 1 else splices d q.
Proof.
  intros Hp. cbn. case_decide as Hq; [subst q|done]. apply N.mod_small. unfold usize, MAX_SPLICES_PER_POOL in *.
  change (2 ^ 64) with 18446744073709551616. lia.
Qed.

Lemma reserved_in_cons p x l : reserved_in p (x :: l) = (if decide (x.1 = p) then 1 else 0) + reserved_in p l.
Proof. unfold reserved_in. rewrite filter_cons. case_decide; cbn [length]; lia. Qed.
Lemma reserved_in_mid p l1 x l2 : reserved_in p (l1 ++ x :: l2) = (if decide (x.1 = p) then 1 else 0) + reserved_in p (l1 ++ l2).
Proof. unfold reserved_in. rewrite !filter_app, !length_app, filter_cons. case_decide; cbn [length]; lia. Qed.
Lemma carried_in_cons p x l : carried_in p (x :: l) = (if decide (x = p) then 1 else 0) + carried_in p l.
Proof. unfold carried_in. rewrite filter_cons. case_decide; cbn [length]; lia. Qed.
Lemma carried_in_mid p l1 x l2 : carried_in p (l1 ++ x :: l2) = (if decide (x = p) then 1 else 0) + carried_in p (l1 ++ l2).
Proof. unfold carried_in. rewrite !filter_app, !length_app, filter_cons. case_decide; cbn [length]; lia. Qed.

Lemma full_in_channel p c ch ch' (m : gmap nat Channel) :
  m !! c = Some ch -> map_sum (full_in p) (<[c := ch']> m) + full_in p ch = full_in p ch' + map_sum (full_in p) m.
Proof. intros Hc. pose proof (map_sum_insert (full_in p) m c ch') as H. rewrite Hc in H. exact H. Qed.

(** The channels keep their pools. *)
Definition pools_kept (m m' : gmap nat Channel) : Prop :=
  forall c ch, m !! c = Some ch -> exists ch', m' !! c = Some ch' /\ ch_pool ch' = ch_pool ch.

Lemma pools_kept_refl m : pools_kept m m.
Proof. intros c ch Hc. eauto. Qed.
Lemma pools_kept_insert m c ch ch' : m !! c = Some ch -> ch_pool ch' = ch_pool ch -> pools_kept m (<[c := ch']> m).
Proof.
  intros Hc Hp x chx Hx. destruct (decide (x = c)) as [->|]; [|rewrite lookup_insert_ne by done; eauto].
  rewrite lookup_insert_eq. eexists. split; [done|]. congruence.
Qed.
Lemma pools_kept_fresh m c ch : m !! c = None -> pools_kept m (<[c := ch]> m).
Proof. intros Hc x chx Hx. rewrite lookup_insert_ne by congruence. eauto. Qed.

Lemma kept_reserved (l : list (Pool * nat)) m m' :
  pools_kept m m' -> (forall p c, (p, c) ∈ l -> exists ch, m !! c = Some ch /\ ch_pool ch = p) ->
  forall p c, (p, c) ∈ l -> exists ch, m' !! c = Some ch /\ ch_pool ch = p.
Proof. intros Hk Hl p c Hin. destruct (Hl p c Hin) as (ch & Hc & <-). by apply Hk. Qed.

Lemma kept_parked (b : gmap DeviceId Parked) m m' :
  pools_kept m m' -> (forall d k, b !! d = Some k -> exists ch, m !! pk_hand k = Some ch /\ ch_pool ch = pool (pk_class k)) ->
  forall d k, b !! d = Some k -> exists ch, m' !! pk_hand k = Some ch /\ ch_pool ch = pool (pk_class k).
Proof. intros Hk Hl d k Hd. destruct (Hl d k Hd) as (ch & Hc & <-). by apply Hk. Qed.

Section steps.
Variable r : Relay.
Hypothesis Hr : relay_ok r.

Lemma park_ok device class fresh t d :
  channels (rl_desk r) !! fresh = None -> park device class fresh (rl_desk r) = (t, d) ->
  relay_ok (mkRelay d (reserved r) (carrying r) (lost r)).
Proof.
  intros Hf. unfold park. destruct Hr as [C K R P O H A]. set (m := delete device (parked (rl_desk r))).
  assert (Hm : forall f, in_pool f m <= in_pool f (parked (rl_desk r))) by (intros; apply in_pool_delete).
  destruct (has_room class m) eqn:Hroom; cbn [negb]; intros [= <- <-].
  2:{ split; cbn; try done.
      - intros x k [_ Hx]%lookup_delete_Some. by apply (P x).
      - etransitivity; [apply Hm|done].
      - etransitivity; [apply Hm|done].
      - intros a. etransitivity; [apply Hm|done]. }
  assert (Hnone : m !! device = None) by apply lookup_delete_eq.
  pose proof (pools_kept_fresh _ _ (mkChannel (pool class) false Listening) Hf) as Hk.
  split; cbn.
  - intros p. unfold in_use. cbn. rewrite map_sum_insert_new by done. unfold full_in at 1. cbn. apply C.
  - done.
  - by apply (kept_reserved _ _ _ Hk).
  - intros x k [[<- <-]|[Hx Hk']]%lookup_insert_Some.
    + cbn. exists (mkChannel (pool class) false Listening). split; [apply lookup_insert_eq|done].
    + apply lookup_delete_Some in Hk' as [_ Hk']. exact (kept_parked _ _ _ Hk P x k Hk').
  - rewrite in_pool_insert by done. cbn. destruct class; cbn in Hroom |- *; [apply N.ltb_lt in Hroom; lia|].
    etransitivity; [|exact O]. specialize (Hm is_own). lia.
  - rewrite in_pool_insert by done. cbn. destruct class; cbn in Hroom |- *; [specialize (Hm is_hosted); lia|].
    apply andb_true_iff in Hroom as [Hroom _]. apply N.ltb_lt in Hroom. lia.
  - intros a. rewrite in_pool_insert by done. cbn. destruct class as [|account]; cbn in Hroom |- *.
    { unfold is_account at 1. rewrite bool_decide_false by done. specialize (Hm (is_account a)). specialize (A a). lia. }
    apply andb_true_iff in Hroom as [_ Hroom]. apply N.ltb_lt in Hroom. unfold is_account at 1. case_bool_decide as E.
    + injection E as ->. lia.
    + specialize (Hm (is_account a)). specialize (A a). lia.
Qed.

(** A step that changes one channel's load, and the counts with it. *)
Lemma recount d' reserved' carrying' lost' :
  (forall p, splices d' p = reserved_in p reserved' + map_sum (full_in p) (channels d') + carried_in p carrying' + lost' p) ->
  (forall p, splices d' p <= splices (rl_desk r) p) ->
  (forall x, x ∈ reserved' -> x ∈ reserved r) -> pools_kept (channels (rl_desk r)) (channels d') ->
  (exists gone, parked d' = parked (rl_desk r) \/ parked d' = delete gone (parked (rl_desk r))) ->
  relay_ok (mkRelay d' reserved' carrying' lost').
Proof.
  intros HC HK HR Hk Hparked. destruct Hparked as [gone HP]. destruct Hr as [C K R P O H A]. split; cbn.
  - intros p. unfold in_use. cbn. apply HC.
  - intros p. etransitivity; [apply HK|apply K].
  - intros p c Hin. by apply (kept_reserved _ _ _ Hk R), HR.
  - destruct HP as [-> | ->]; [by apply (kept_parked _ _ _ Hk)|]. intros x k [_ Hx]%lookup_delete_Some.
    exact (kept_parked _ _ _ Hk P x k Hx).
  - destruct HP as [-> | ->]; [done|]. etransitivity; [apply in_pool_delete|done].
  - destruct HP as [-> | ->]; [done|]. etransitivity; [apply in_pool_delete|done].
  - intros a. destruct HP as [-> | ->]; [done|]. etransitivity; [apply in_pool_delete|done].
Qed.

Lemma reserve_spec to class o d :
  reserve to class (rl_desk r) = (o, d) ->
  match o with
  | None => parked d = parked (rl_desk r) /\ channels d = channels (rl_desk r) /\ forall p, splices d p = splices (rl_desk r) p
  | Some (p, c) =>
      p = pool class /\ splices (rl_desk r) p < MAX_SPLICES_PER_POOL
      /\ (exists k, parked (rl_desk r) !! to = Some k /\ pk_class k = class /\ pk_hand k = c)
      /\ parked d = delete to (parked (rl_desk r)) /\ channels d = channels (rl_desk r)
      /\ forall q, splices d q = if decide (q = p) then splices (rl_desk r) q + 1 else splices (rl_desk r) q
  end.
Proof.
  unfold reserve. pose proof (ro_cap _ Hr) as K. destruct (parked (rl_desk r) !! to) as [k|] eqn:Hk; [|by intros [= <- <-]].
  case_bool_decide as Hc; cbn [negb]; [|by intros [= <- <-]]. cbn zeta.
  destruct (N.leb_spec MAX_SPLICES_PER_POOL (splices (rl_desk r) (pool class))) as [Hle|Hlt]; intros [= <- <-].
  - split_and!; [done|done|]. intros p. cbn. case_decide as E; [subst p|done]. specialize (K (pool class)).
    unfold MAX_SPLICES_PER_POOL in *. assert (E : splices (rl_desk r) (pool class) = 2) by lia. rewrite E. by vm_compute.
  - split_and!; [done|done|eauto|done|done|]. intros q. cbn [set_parked splices]. rewrite add_splice_splices by apply K.
    case_decide as E; [by subst q|done].
Qed.

Lemma hand_ok p c l1 l2 :
  reserved r = l1 ++ (p, c) :: l2 -> relay_ok (mkRelay (hand p c (rl_desk r)) (l1 ++ l2) (carrying r) (lost r)).
Proof.
  intros El. pose proof Hr as [C K R P _ _ _]. destruct (R p c) as (ch & Hch & Hp); [rewrite El; set_solver|].
  assert (Hpos : 0 < splices (rl_desk r) p).
  { rewrite C. unfold in_use. rewrite El, reserved_in_mid. cbn. rewrite decide_True by done. lia. }
  assert (Hsub : forall x, x ∈ l1 ++ l2 -> x ∈ reserved r) by (rewrite El; set_solver).
  assert (Hgive : relay_ok (mkRelay (give_back p (rl_desk r)) (l1 ++ l2) (carrying r) (lost r))).
  { apply recount; [| |done|apply pools_kept_refl|by exists 0; left].
    - intros q. rewrite give_back_splices by (split; [done|apply K]). pose proof (C q) as Cq. unfold in_use in Cq.
      rewrite El, reserved_in_mid in Cq. cbn in Cq |- *. destruct (decide (q = p)) as [->|Hq]; [rewrite decide_True in Cq by done; lia|].
      rewrite decide_False in Cq by congruence. lia.
    - intros q. rewrite give_back_splices by (split; [done|apply K]). case_decide as E; [subst q|]; lia. }
  unfold hand. rewrite Hch. destruct (ch_receiver ch) eqn:Erx, (ch_full ch) eqn:Ef; try exact Hgive.
  all: apply recount; [|done|done|by eapply pools_kept_insert|by exists 0; left].
  all: intros q; pose proof (C q) as Cq; unfold in_use in Cq; rewrite El, reserved_in_mid in Cq; cbn in Cq |- *;
    pose proof (full_in_channel q c ch (mkChannel (ch_pool ch) true (ch_receiver ch)) _ Hch) as Hs; unfold full_in at 2 3 in Hs;
    cbn in Hs; rewrite Ef, Hp in Hs; cbn in Hs; rewrite Hp, Erx in *; destruct (decide (p = q)) as [E|E];
    [rewrite bool_decide_true in Hs by done|rewrite bool_decide_false in Hs by done]; lia.
Qed.

Lemma caller_gone_ok p c l1 l2 :
  reserved r = l1 ++ (p, c) :: l2 -> relay_ok (mkRelay (rl_desk r) (l1 ++ l2) (carrying r) (one_more p (lost r))).
Proof.
  intros El. pose proof Hr as [C _ _ _ _ _ _].
  apply recount; [|done|rewrite El; set_solver|apply pools_kept_refl|by exists 0; left].
  intros q. pose proof (C q) as Cq. unfold in_use in Cq. rewrite El, reserved_in_mid in Cq. cbn in Cq. unfold one_more.
  destruct (decide (q = p)) as [->|Hq]; [rewrite decide_True in Cq by done|rewrite decide_False in Cq by congruence]; lia.
Qed.

Lemma taken_ok c ch d :
  channels (rl_desk r) !! c = Some ch -> take_handoff c (rl_desk r) = (true, d) ->
  relay_ok (mkRelay d (reserved r) (ch_pool ch :: carrying r) (lost r)).
Proof.
  intros Hch. unfold take_handoff. rewrite Hch. destruct (ch_full ch) eqn:Ef; [|done]. intros [= <-].
  pose proof Hr as [C _ _ _ _ _ _]. apply recount; [|done|done|by eapply pools_kept_insert|by exists 0; left].
  intros q. pose proof (C q) as Cq. unfold in_use in Cq. rewrite carried_in_cons. cbn.
  pose proof (full_in_channel q c ch (mkChannel (ch_pool ch) false (ch_receiver ch)) _ Hch) as Hs. unfold full_in at 2 3 in Hs.
  cbn in Hs. rewrite Ef in Hs. cbn in Hs. destruct (decide (ch_pool ch = q)) as [E|E];
    [rewrite bool_decide_true in Hs by done|rewrite bool_decide_false in Hs by done]; lia.
Qed.

Lemma carried_ok p l1 l2 :
  carrying r = l1 ++ p :: l2 -> relay_ok (mkRelay (drop_splicing p (rl_desk r)) (reserved r) (l1 ++ l2) (lost r)).
Proof.
  intros El. pose proof Hr as [C K _ _ _ _ _].
  assert (Hpos : 0 < splices (rl_desk r) p).
  { rewrite C. unfold in_use. rewrite El, carried_in_mid, decide_True by done. lia. }
  unfold drop_splicing. apply recount; [| |done|apply pools_kept_refl|by exists 0; left].
  - intros q. rewrite give_back_splices by (split; [done|apply K]). pose proof (C q) as Cq. unfold in_use in Cq.
    rewrite El, carried_in_mid in Cq. cbn. destruct (decide (q = p)) as [->|Hq]; [rewrite decide_True in Cq by done; lia|].
    rewrite decide_False in Cq by congruence. lia.
  - intros q. rewrite give_back_splices by (split; [done|apply K]). case_decide as E; [subst q|]; lia.
Qed.

Lemma ticket_ok device number : relay_ok (mkRelay (drop_ticket device number (rl_desk r)) (reserved r) (carrying r) (lost r)).
Proof.
  pose proof Hr as [C _ _ _ _ _ _]. unfold drop_ticket. destruct (parked (rl_desk r) !! device) as [k|]; [destruct (_ =? _)|].
  all: apply recount; [apply C|done|done|apply pools_kept_refl|by exists device; auto].
Qed.

Lemma drain_ok c ch :
  channels (rl_desk r) !! c = Some ch -> relay_ok (mkRelay (drain c (rl_desk r)) (reserved r) (carrying r) (lost r)).
Proof.
  intros Hch. pose proof Hr as [C K _ _ _ _ _]. unfold drain. rewrite Hch. set (ch' := mkChannel (ch_pool ch) false Drained).
  assert (Hk : pools_kept (channels (rl_desk r)) (<[c := ch']> (channels (rl_desk r)))) by by eapply pools_kept_insert.
  destruct (ch_full ch) eqn:Ef.
  - assert (Hpos : 0 < splices (rl_desk r) (ch_pool ch)).
    { rewrite C. unfold in_use. pose proof (map_sum_ge (full_in (ch_pool ch)) _ _ _ Hch) as Hg. unfold full_in at 1 in Hg.
      rewrite Ef, bool_decide_true in Hg by done. cbn in Hg. lia. }
    apply recount; [| |done|exact Hk|by exists 0; left].
    + intros q. rewrite give_back_splices by (split; [done|apply K]). pose proof (C q) as Cq. unfold in_use in Cq. cbn.
      pose proof (full_in_channel q c ch ch' _ Hch) as Hs. unfold full_in at 2 3 in Hs. cbn in Hs. rewrite Ef in Hs. cbn in Hs.
      destruct (decide (q = ch_pool ch)) as [->|E]; [rewrite bool_decide_true in Hs by done|rewrite bool_decide_false in Hs by done]; lia.
    + intros q. rewrite give_back_splices by (split; [done|apply K]). cbn. case_decide as E; [subst q|]; lia.
  - apply recount; [|done|done|exact Hk|by exists 0; left].
    intros q. pose proof (C q) as Cq. unfold in_use in Cq. cbn.
    pose proof (full_in_channel q c ch ch' _ Hch) as Hs. unfold full_in at 2 3 in Hs. cbn in Hs. rewrite Ef in Hs. cbn in Hs. lia.
Qed.

Lemma close_ok c ch :
  channels (rl_desk r) !! c = Some ch ->
  relay_ok (mkRelay (close c (rl_desk r)) (reserved r) (carrying r) (if ch_full ch then one_more (ch_pool ch) (lost r) else lost r)).
Proof.
  intros Hch. pose proof Hr as [C _ _ _ _ _ _]. unfold close. rewrite Hch.
  apply recount; [|done|done|by eapply pools_kept_insert|by exists 0; left].
  intros q. pose proof (C q) as Cq. unfold in_use in Cq. cbn.
  pose proof (full_in_channel q c ch (mkChannel (ch_pool ch) false Gone) _ Hch) as Hs. unfold full_in at 2 3 in Hs. cbn in Hs.
  destruct (ch_full ch); cbn in Hs; [|lia]. unfold one_more.
  destruct (decide (q = ch_pool ch)) as [->|E]; [rewrite bool_decide_true in Hs by done|rewrite bool_decide_false in Hs by done]; lia.
Qed.

End steps.

Lemma relay_step_ok r r' : relay_step r r' -> relay_ok r -> relay_ok r'.
Proof.
  destruct 1; intros Hr.
  - by eapply park_ok.
  - apply (reserve_spec _ Hr) in H as (Hp & Hc & Hs). pose proof Hr as [C _ _ _ _ _ _].
    apply (recount r Hr); [intros p; rewrite Hs, Hc; apply C|intros p; by rewrite Hs|done|rewrite Hc; apply pools_kept_refl|by exists 0; left].
  - apply (reserve_spec _ Hr) in H as (-> & Hlt & (k & Hk & Hkc & Hkh) & Hp & Hc & Hs). pose proof Hr as [C K R P O H A].
    split; cbn; rewrite ?Hp, ?Hc.
    + intros q. unfold in_use. cbn [reserved rl_desk carrying]. rewrite Hs, Hc, reserved_in_cons. cbn.
      pose proof (C q) as Cq. unfold in_use in Cq.
      destruct (decide (q = pool class)) as [->|E]; [rewrite decide_True by done|rewrite decide_False by congruence]; lia.
    + intros q. rewrite Hs. specialize (K q). case_decide as E; [subst q|done]. lia.
    + intros q x [[= -> ->]|Hx]%elem_of_cons; [|by apply R]. destruct (P to k Hk) as (ch & ? & ?). exists ch. split; [by rewrite <- Hkh|congruence].
    + intros x y [_ Hx]%lookup_delete_Some. by apply (P x).
    + etransitivity; [apply in_pool_delete|done].
    + etransitivity; [apply in_pool_delete|done].
    + intros a. etransitivity; [apply in_pool_delete|done].
  - by apply hand_ok.
  - by eapply caller_gone_ok.
  - by eapply taken_ok.
  - by apply carried_ok.
  - by apply ticket_ok.
  - by eapply drain_ok.
  - by apply close_ok.
Qed.

Lemma relay_run_ok r r' : relay_run r r' -> relay_ok r -> relay_ok r'.
Proof. induction 1 as [|r r1 r' Hs _ IH]; [done|]. intros Hr. by apply IH, (relay_step_ok r). Qed.

Lemma relay_start_ok : relay_ok relay_start.
Proof.
  split; cbn [relay_start desk_default rl_desk reserved carrying lost parked channels splices]; try done.
  - intros p c ?%not_elem_of_nil. done.
Qed.

Lemma lost_grows r r' p : relay_run r r' -> lost r p <= lost r' p.
Proof.
  induction 1 as [|r r1 r' Hs _ IH]; [lia|]. etransitivity; [|exact IH]. clear IH.
  destruct Hs; cbn; try lia; unfold one_more; [case_decide; lia|]. destruct (ch_full ch); [case_decide; lia|lia].
Qed.

(** However many machines park and call, and whatever order their threads run
    in: a relay's own account and the accounts it hosts for keep to their parks,
    one hosted account to its share of them, no pool carries more than
    [MAX_SPLICES_PER_POOL] splices, and its counter is exactly the splices being
    handed over, waiting to be taken or carried, and the places that were lost. *)
Theorem relay_places_are_accounted r :
  relay_run relay_start r ->
  (forall p, splices (rl_desk r) p = in_use r p + lost r p /\ splices (rl_desk r) p <= MAX_SPLICES_PER_POOL)
  /\ in_pool is_own (parked (rl_desk r)) <= MAX_PARKED_OWN
  /\ in_pool is_hosted (parked (rl_desk r)) <= MAX_PARKED_HOSTED
  /\ forall a, in_pool (is_account a) (parked (rl_desk r)) <= MAX_PARKED_PER_ACCOUNT.
Proof. intros Hr. destruct (relay_run_ok _ _ Hr relay_start_ok) as [C K _ _ O H A]. by split_and!. Qed.

(** C40. A place can be lost, and a lost place is lost until the relay restarts: a
    reserved splice whose caller is gone before it is told yes is dropped without
    being given back.  When that has happened to two callers of a pool, no later
    caller of that pool is ever spliced, whatever happens in between. *)
Theorem two_gone_callers_silence_a_pool r r' to class :
  relay_run relay_start r -> MAX_SPLICES_PER_POOL <= lost r (pool class) -> relay_run r r' ->
  (reserve to class (rl_desk r')).1 = None.
Proof.
  intros Hr Hl Hr'. pose proof (relay_run_ok _ _ Hr' (relay_run_ok _ _ Hr relay_start_ok)) as Hok.
  pose proof (lost_grows _ _ (pool class) Hr') as Hg. destruct (reserve to class (rl_desk r')) as [[[p c]|] d] eqn:E; [|done].
  apply (reserve_spec _ Hok) in E as (-> & Hlt & _). rewrite (ro_count _ Hok) in Hlt. lia.
Qed.

(** Bytes are carried at the shared rate: what is asked for after a list of
    others, at any moments, starts no sooner than their cost after the first. *)
Lemma rate_is_shared (l : list (N * N)) next first :
  first <= next ->
  first + foldr (fun x acc => cost_of x.1 + acc) 0 l
  <= foldl (fun next (x : N * N) => (spend x.1 x.2 (Some next)).2) next l.
Proof.
  revert next first. induction l as [|[b now] l IH]; intros next first Hf; cbn -[cost_of]; [lia|].
  etransitivity; [|apply (IH _ (first + cost_of b)); lia]. lia.
Qed.

(** ** Two callers that hang up *)

Module HangUp.

Definition nas : DeviceId := 7.
Definition park_nas (fresh : nat) (r : Relay) : Relay := mkRelay (park nas Own fresh (rl_desk r)).2 (reserved r) (carrying r) (lost r).
Definition call_nas (fresh : nat) (r : Relay) : Relay :=
  mkRelay (reserve nas Own (rl_desk r)).2 ((OwnPool, fresh) :: reserved r) (carrying r) (lost r).
Definition hang_up (r : Relay) : Relay := mkRelay (rl_desk r) (tail (reserved r)) (carrying r) (one_more OwnPool (lost r)).

Definition once (fresh : nat) (r : Relay) : Relay := hang_up (call_nas fresh (park_nas fresh r)).
Definition dead_relay : Relay := once 1 (once 0 relay_start).

Lemma once_run fresh r :
  channels (rl_desk r) !! fresh = None ->
  (reserve nas Own (rl_desk (park_nas fresh r))).1 = Some (OwnPool, fresh) ->
  relay_run r (once fresh r).
Proof.
  intros Hf He. apply (rtc_l _ _ (park_nas fresh r)).
  { eapply rs_park; [exact Hf|]. apply surjective_pairing. }
  apply (rtc_l _ _ (call_nas fresh (park_nas fresh r))).
  { unfold call_nas. apply (rs_reserved (park_nas fresh r) nas Own). rewrite <- He. apply surjective_pairing. }
  apply rtc_once. apply (rs_caller_gone (call_nas fresh (park_nas fresh r)) OwnPool fresh [] (reserved r)). done.
Qed.

Lemma dead_run : relay_run relay_start dead_relay.
Proof.
  transitivity (once 0 relay_start); apply once_run; vm_compute; reflexivity.
Qed.

End HangUp.

Import HangUp.

Lemma relay_places_are_accounted_witness :
  splices (rl_desk dead_relay) OwnPool = in_use dead_relay OwnPool + lost dead_relay OwnPool /\ in_use dead_relay OwnPool = 0.
Proof.
  split; [|vm_compute; reflexivity].
  exact (proj1 (proj1 (relay_places_are_accounted dead_relay dead_run) OwnPool)).
Defined.

Lemma two_gone_callers_silence_a_pool_witness :
  (reserve nas Own (rl_desk (park_nas 2 dead_relay))).1 = None /\ is_Some (parked (rl_desk (park_nas 2 dead_relay)) !! nas).
Proof.
  split; [|eexists; vm_compute; reflexivity].
  refine (two_gone_callers_silence_a_pool dead_relay (park_nas 2 dead_relay) nas Own dead_run _ _).
  - vm_compute. discriminate.
  - apply rtc_once. apply (rs_park dead_relay nas Own 2 (park nas Own 2 (rl_desk dead_relay)).1); [vm_compute; reflexivity|].
    apply surjective_pairing.
Defined.
