(* ===== verification/StoreFolder.v ===== *)
(** * StoreFolder: the device store under a folder

    The instance of the folder's interface ([Folder.FileStore],
    [Reconcile.FileStoreLaws]) for the store of [Store]: each operation is the
    store's own, and its laws follow from the store's lemmas.  How the
    operating system delivers a file to the reader ([deliver]), and what the
    segment writer draws, are arguments. *)

From S2P Require Import Prelude Version Ids Path Conflict Crypto Oplog Chunker IndexState ShortQueue Files.
From S2P Require Import Blob Log Ledger Index Folder Reconcile Store.

Section instance.
Context `{HPrim : !Primitives, HCodec : !BodyCodec}.
Context (deliver : list N -> list (list N)) (segment : ObjectId) (nonce : list N).

Definition flush_unit : M Store StoreError unit := flush_segment segment nonce ;;! ret tt.

#[local] Instance store_files : FileStore Store := {|
  fs_device := store_device;
  fs_files s := files (ft (index s));
  fs_locals s := local_state (ft (index s));
  fs_check_room := check_room;
  fs_write now path content := write_stream now path (deliver content);
  fs_read := read_stream;
  fs_remove := remove_file;
  fs_set_local path l s := set_index (put_local_state path l (index s)) s;
  fs_clear_local path s := set_index (clear_local_state path (index s)) s;
  fs_flush := flush_unit;
|}.

(** A reader delivers the file, in pieces that are not empty. *)
Context (Hdeliver : forall x, mjoin (deliver x) = x /\ Forall (fun r => r <> []) (deliver x)).

Lemma only_total_view ix ix' :
  only_total ix ix' -> files (ft ix') = files (ft ix) /\ local_state (ft ix') = local_state (ft ix).
Proof. by intros [t ->]. Qed.

Lemma check_room_view path n s r s' :
  check_room path n s = (r, s') -> only_total (index s) (index s') /\ chunker s' = chunker s
  /\ device_keys s' = device_keys s.
Proof.
  unfold check_room, gets. intros E. run_inv E; [done|]. injection Hrun as <- <-.
  destruct (budget s) as [b|]; [|injection E as <- <-; split_and!; [apply only_total_refl|done|done]].
  run_inv E; rewrite account_besides_run in Hrun; [done|]. injection Hrun as <- <-. injection E as _ <-.
  split_and!; [apply local_bytes_total|done|done].
Qed.

Lemma write_stream_keeps now path reads s r s' :
  write_stream now path reads s = (r, s') -> chunker s' = chunker s /\ device_keys s' = device_keys s.
Proof.
  rewrite write_stream_run. destruct (validate path); [|by intros [= _ <-]].
  destruct (counted_spec s) as (_ & _ & Ec & _ & Ed & _). unfold store_stream.
  destruct (stream_chunks _ _ _ _ _ _) as [[[]|e] [w bl]]; intros [= _ <-]; done.
Qed.

Lemma drop_entry_view now path ix :
  files (ft (drop_entry now path ix).2) = delete path (files (ft ix))
  /\ local_state (ft (drop_entry now path ix).2) = local_state (ft ix).
Proof.
  unfold drop_entry. destruct (files (ft ix) !! path) eqn:E; cbn; [done|]. by rewrite delete_id.
Qed.

Lemma remove_file_view now path s r s' :
  validate path = Ok tt -> remove_file now path s = (r, s') ->
  is_ok r = true /\ files (ft (index s')) = delete path (files (ft (index s)))
  /\ local_state (ft (index s')) = local_state (ft (index s))
  /\ chunker s' = chunker s /\ device_keys s' = device_keys s.
Proof.
  intros Hv E. unfold remove_file, lift, gets in E. rewrite Hv in E. do 2 (run_inv E; [done|]; injection Hrun as <- <-).
  unfold get_file in E. destruct (files (ft (index s)) !! path) as [e|] eqn:Ef.
  - run_inv E; [done|]. injection Hrun as <- <-. run_inv E.
    + unfold leave_tombstone, gets, with_index, on_index, modify in Hrun.
      do 2 (run_inv Hrun; [done|]; injection Hrun0 as <- <-). run_inv Hrun; [|done].
      by destruct (Files.remove_file _ _ _ _).
    + injection E as <- <-. unfold leave_tombstone, gets, with_index, on_index, modify in Hrun.
      do 2 (run_inv Hrun; [done|]; injection Hrun0 as <- <-). run_inv Hrun; [done|].
      set (tb := mkTomb _ _ _) in *. pose proof (drop_entry_view now path
        (on_ft (fun t => set_tombstones (<[path := tb]> (tombstones t)) t) (index s))) as [H1 H2].
      unfold Files.remove_file in Hrun0. destruct (drop_entry _ _ _) as [d ix]. injection Hrun0 as <- <-.
      injection Hrun as _ <-. done.
  - injection E as <- <-. split_and!; try done. by rewrite delete_id.
Qed.

Lemma flush_view s r s' :
  flush_segment segment nonce s = (r, s') ->
  files (ft (index s')) = files (ft (index s)) /\ local_state (ft (index s')) = local_state (ft (index s))
  /\ chunker s' = chunker s /\ device_keys s' = device_keys s.
Proof.
  unfold flush_segment, gets. intros E. run_inv E; [done|]. injection Hrun as <- <-.
  destruct (pending_entries (index s)); [by injection E as _ <-|].
  run_inv E; [done|]. injection Hrun as <- <-. run_inv E; [by injection Hrun as _ <-|]. injection Hrun as _ <-.
  assert (Hap : forall e r0 ix, append_segment e (index s) = (r0, ix) -> ft ix = ft (index s)).
  { intros e r0 ix. unfold append_segment. case_decide; by intros [= _ <-]. }
  run_inv E; destruct (append_segment a (index s)) as [r0 ix] eqn:Ea; pose proof (Hap _ _ _ Ea) as Hft.
  - injection Hrun as _ <-. cbn. by rewrite Hft.
  - injection Hrun as _ <-. injection E as _ <-. cbn. by rewrite Hft.
Qed.

#[local] Instance store_laws : FileStoreLaws Store.
Proof.
  refine {| fs_ok s := chunker_ok (chunker s) |}.
  - intros p n s r s' Hok E. destruct (check_room_view _ _ _ _ _ E) as (Ht & Hc & Hd). rewrite Hc.
    destruct (only_total_view _ _ Ht). unfold same_view. cbn. unfold store_device. by rewrite Hd.
  - intros now p x s e s' Hok E. cbn in E. destruct (Hdeliver x) as [Hj Hne].
    destruct (write_stream_ok _ _ _ _ _ _ Hok Hne E) as (Hv & He & Hix & _ & Hc & _). rewrite Hj in He.
    destruct (write_stream_keeps _ _ _ _ _ _ E) as [_ Hd]. destruct (counted_spec s) as (_ & Ht & _).
    destruct (only_total_view _ _ Ht) as [H1 H2]. cbn. unfold store_device. rewrite Hc, Hd, Hix, He. cbn.
    by rewrite H1, H2.
  - intros now p x s e s' Hok E. cbn in E. destruct (write_stream_refused _ _ _ _ _ _ E) as [_ Ht].
    destruct (only_total_view _ _ Ht) as [H1 H2]. destruct (write_stream_keeps _ _ _ _ _ _ E) as [Hc Hd].
    unfold same_view. cbn. unfold store_device. by rewrite Hc, Hd.
  - intros p s x E. cbn in E |- *. unfold read_stream in E. destruct (validate p); [|done]. unfold get_file in E.
    destruct (files (ft (index s)) !! p) as [e|]; [|done]. exists e. split; [done|].
    destruct (read_chunks _ _ _ _) as [[]?]; [|done]. destruct (negb _); [done|].
    destruct (N.eqb_spec (of_be_bytes (blake3_hash l)) (content_hash e)) as [Eh|]; [|done].
    injection E as <-. exact Eh.
  - intros p s x E. cbn in E |- *. unfold read_stream in E. destruct (validate p); [|done]. unfold get_file in E.
    destruct (files (ft (index s)) !! p) as [e|]; [|done].
    destruct (read_chunks _ _ _ _) as [[]?]; [|done]. destruct (negb _); [done|]. by destruct (negb _).
  - intros now p s r s' Hok Hv E. destruct (remove_file_view _ _ _ _ _ Hv E) as (H1 & H2 & H3 & H4 & H5).
    cbn. unfold store_device. by rewrite H4, H5.
  - done.
  - done.
  - intros s r s' Hok E. cbn in E. unfold flush_unit in E. run_inv E.
    + destruct (flush_view _ _ _ Hrun) as (H1 & H2 & H3 & H4). unfold same_view. cbn. unfold store_device.
      by rewrite H3, H4.
    + injection E as _ <-. destruct (flush_view _ _ _ Hrun) as (H1 & H2 & H3 & H4). unfold same_view. cbn.
      unfold store_device. by rewrite H3, H4.
Defined.

End instance.

(** ** A folder over a small store *)

Module FolderSample.
Import Toy ToyCodec StoreSample.

Definition deliver1 (x : list N) : list (list N) := match x with [] => [] | _ => [x] end.

Lemma deliver1_ok x : mjoin (deliver1 x) = x /\ Forall (fun r => r <> []) (deliver1 x).
Proof. destruct x; cbn; [done|]. rewrite app_nil_r. split; [done|]. by repeat constructor. Qed.

#[export] Instance files_instance : FileStore Store := store_files deliver1 31 (replicate 24 0).
#[export] Instance laws_instance : FileStoreLaws Store := store_laws deliver1 31 (replicate 24 0) deliver1_ok.

Definition empty_store : Store := mkStore empty_index ∅ small_chunker keys (mkDeviceKeys [1]) None.

Definition wrote (path : string) (content : list N) (s : Store) : Store :=
  (write_stream 7 path (deliver1 content) s).2.

(** This device recorded [content] at [path], last written at [when]. *)
Definition recorded_as (path : string) (content : list N) (when : N) (s : Store) : Store :=
  fs_set_local path (mkLocal (N.of_nat (length content)) when (hash_of content)) s.

Definition clock (path : string) : N := 100.
Definition stamp (path : string) : N := 101.

Definition ours : option string := Some (to_hex (store_device empty_store)).

(** [a] was edited here, [b] was deleted here, [c] came from a peer while
    another file of that name was made here. *)
Definition start : Pass Store :=
  mkPass (recorded_as "a" [1; 2] 50 (recorded_as "b" [3] 50
            (wrote "a" [1; 2] (wrote "b" [3] (wrote "c" [5] empty_store)))))
    (mkDisk true {["a"%string := ([9], 60); "c"%string := ([6], 61)]} ours ∅ ∅).

Definition finish : Pass Store := (reconcile_with clock stamp true Apply start).2.
Definition again : result FolderError ReconcileReport * Pass Store :=
  reconcile_with clock stamp false Apply finish.

Definition sibling_of_c : string := local_sibling "c" (hash_of [6]).

Definition start_report : ReconcileReport :=
  mkReport ["a"%string] [] ["b"%string] [] [("c"%string, sibling_of_c)] 0 [] 0 [] [].

Lemma pass_start_report : (reconcile_with clock stamp true Apply start).1 = Ok start_report.
Proof. vm_compute. reflexivity. Qed.

Lemma pass_start : reconcile_with clock stamp true Apply start = (Ok start_report, finish).
Proof. unfold finish. rewrite <- pass_start_report. apply surjective_pairing. Qed.

Lemma start_ok : fs_ok (store start).
Proof. exact small_chunker_ok. Qed.

End FolderSample.

Import FolderSample Toy ToyCodec.

Lemma only_known_files_are_deleted_witness :
  fs_files (store finish) !! "b"%string = None /\ ledger_hash "b" start = Some (hash_of [3]).
Proof.
  assert (Hn : fs_files (store finish) !! "b"%string = None) by (vm_compute; reflexivity).
  split; [exact Hn|].
  destruct (fs_files (store start) !! "b"%string) as [e|] eqn:He; [|by vm_compute in He].
  destruct (only_known_files_are_deleted clock stamp true Apply start finish _ "b" e start_ok pass_start He Hn)
    as (_ & Hl & _).
  rewrite Hl. vm_compute in He. injection He as <-. vm_compute. reflexivity.
Defined.

Lemma reconcile_settles_witness :
  agreed "c" finish /\ d_files (disk finish) !! sibling_of_c = Some ([6], 101)
  /\ d_files (disk again.2) = d_files (disk finish).
Proof.
  destruct (reconcile_settles clock stamp Apply Apply false start finish again.2 start_report
    again.1 start_ok pass_start eq_refl eq_refl eq_refl (surjective_pairing _)) as (Ha & Hd & _).
  split_and!; [|vm_compute; reflexivity|exact Hd].
  apply Ha. apply (bool_decide_unpack _). vm_compute. exact I.
Defined.

Lemma start_disk p x m :
  d_files (disk start) !! p = Some (x, m) -> (p = "a"%string /\ x = [9]) \/ (p = "c"%string /\ x = [6]).
Proof.
  cbn [start disk d_files]. rewrite lookup_insert_Some, lookup_singleton_Some.
  intros [[<- [= <- <-]]|[_ [<- [= <- <-]]]]; auto.
Qed.

Definition start_scan : gmap string DiskFile :=
  match scan (disk start) with Ok od => od | Err _ => ∅ end.

Lemma no_edit_is_lost_witness :
  (exists m', d_files (disk finish) !! "c"%string = Some ([6], m')) \/ ledger_hash "c" start = Some (hash_of [6])
  \/ exists m', d_files (disk finish) !! sibling_of_c = Some ([6], m').
Proof.
  destruct (no_edit_is_lost clock stamp Apply start finish (Ok start_report) start_scan "c" [6] 61) as [H|[H|[H|H]]];
    [exact start_ok|vm_compute; reflexivity|exact pass_start|vm_compute; reflexivity
    |apply (bool_decide_unpack _); vm_compute; exact I|by left|by right; left|by right; right|].
  exfalso. destruct H as (p & x & m & Hp & [Hin|(p' & x' & m' & Hp' & E & Hne)]).
  - revert Hin. apply (bool_decide_eq_false_1 (_ ∈ _)).
    destruct (start_disk p x m Hp) as [[-> ->]|[-> ->]]; vm_compute; reflexivity.
  - destruct (start_disk p x m Hp) as [[-> ->]|[-> ->]], (start_disk p' x' m' Hp') as [[-> ->]|[-> ->]];
      try done; vm_compute in E; discriminate E.
Defined.

(** An empty mount point where the folder used to be. *)
Definition unmounted : Pass Store := mkPass (store start) (mkDisk true ∅ None ∅ ∅).

Lemma unreachable_storage_is_left_alone_witness :
  exists why, reconcile_with clock stamp true Apply unmounted = (Err (StorageUnreachable why), unmounted).
Proof.
  apply (unreachable_storage_is_left_alone clock stamp true Apply unmounted ∅); [vm_compute; reflexivity|].
  left. split_and!; [vm_compute; reflexivity| |done].
  intros E. apply (f_equal (lookup "a"%string)) in E. vm_compute in E. discriminate E.
Defined.

(** ** Where the folder does not do what it says *)

(** A copy moved aside by an earlier conflict, edited since, and a second
    conflict on the same path with the same local content. *)
Definition edited_copy : Pass Store :=
  mkPass (recorded_as "c" [4] 50 (recorded_as sibling_of_c [6] 50
            (wrote sibling_of_c [6] (wrote "c" [5] empty_store))))
    (mkDisk true {["c"%string := ([6], 60); sibling_of_c := ([7], 61)]} ours ∅ ∅).

(** A pass can destroy an edit: the conflict copy's name depends only on the
    path and the content, and whatever is at that name is overwritten, so an
    edited copy of an earlier conflict disappears from the disk and never
    reaches the store. *)
Theorem edited_conflict_copy_is_overwritten :
  let f' := (reconcile_with clock stamp true Apply edited_copy).2 in
  d_files (disk edited_copy) !! sibling_of_c = Some ([7], 61)
  /\ ledger_hash sibling_of_c edited_copy <> Some (hash_of [7])
  /\ (forall p x m, d_files (disk f') !! p = Some (x, m) -> x <> [7])
  /\ (forall p e, fs_files (store f') !! p = Some e -> content_hash e <> hash_of [7]).
Proof.
  cbn zeta. split_and!; [vm_compute; reflexivity|vm_compute; discriminate| |].
  - assert (Hall : map_Forall (fun _ (f : list N * N) => f.1 <> [7])
      (d_files (disk (reconcile_with clock stamp true Apply edited_copy).2)))
      by (apply (bool_decide_unpack _); vm_compute; exact I).
    intros p x m Hp. exact (Hall p (x, m) Hp).
  - assert (Hall : map_Forall (fun _ (e : FileEntry) => content_hash e <> hash_of [7])
      (fs_files (store (reconcile_with clock stamp true Apply edited_copy).2)))
      by (apply (bool_decide_unpack _); vm_compute; exact I).
    intros p e Hp. exact (Hall p e Hp).
Qed.

(** Six files of the account have names a scan ignores; everything agrees. *)
Definition ignored_names : list string :=
  ["1.tmp"; "2.tmp"; "3.tmp"; "4.tmp"; "5.tmp"; "6.tmp"]%string.
Definition transient : Pass Store :=
  mkPass (foldl (fun s n => recorded_as n [1] 50 (wrote n [1] s)) empty_store ignored_names)
    (mkDisk true (list_to_map ((fun n => (n, ([1], 50))) <$> ignored_names)) ours ∅ ∅).

Lemma agreed_check (f : Pass Store) (ns : list string) :
  forallb (fun n => bool_decide (disk_hash n f = store_hash n f) && bool_decide (store_hash n f = ledger_hash n f)
                    && bool_decide (is_Some (d_files (disk f) !! n))) ns = true ->
  Forall (fun n => agreed n f /\ is_Some (d_files (disk f) !! n)) ns.
Proof.
  rewrite forallb_forall, Forall_forall. intros E n Hn. specialize (E n).
  rewrite !andb_true_iff, !bool_decide_eq_true in E. destruct E as [[E1 E2] E3]; [by apply list_elem_of_In|].
  done.
Qed.

(** Deletions are held although nothing was deleted: a file whose name a scan
    ignores, once downloaded, counts as vanished in every pass. *)
Theorem ignored_files_look_deleted :
  Forall (fun n => agreed n transient /\ is_Some (d_files (disk transient) !! n)) ignored_names
  /\ (match (reconcile_with clock stamp true Apply transient).1 with
      | Ok r => held_deletions r = 6 /\ held_anything r = true
      | Err _ => False
      end).
Proof.
  split; [|vm_compute; done].
  apply agreed_check. vm_compute. reflexivity.
Qed.
