(* ===== verification/Engine.v ===== *)
(** * Engine: applying other devices' operations

    Models [crates/itsanas-sync/src/engine.rs], [source.rs] and [error.rs] over
    the store of [Store].  The chunk source is a trait object that may answer
    differently every time it is asked, and the clock moves: both are functions
    of the number of questions asked so far, a counter the state carries.  The
    functions are the source's, one for one; [Tree] below is the decision table
    of the module's documentation as a pure merge of file trees, and
    [apply_entry_refines_merge] shows that the engine implements it. *)

From S2P Require Import Prelude Version Ids Path Conflict Crypto Oplog Chunker IndexState Files.
From S2P Require Import Blob.
From S2P Require Import Ledger Store.

Inductive SyncError :=
| StoreFailed (e : StoreError)
| Source (reason : string).

(** What lies outside: [ChunkSource::fetch] and the clock, at the n-th question. *)
Record Outside := mkOutside {
  fetch : nat -> UserId -> ChunkId -> result SyncError (option (list N));
  clock : nat -> N;
}.

(** [EmptySource] *)
Definition empty_source (c : nat -> N) : Outside := mkOutside (fun _ _ _ => Ok None) c.

Record Syncing := mkSyncing { local : Store; asked : nat }.

Inductive Applied :=
| Adopted
| AlreadyKnown
| Superseded
| Conflicted (sibling : string) (remote_kept_original : bool)
| DeleteLostToEdit
| Deferred (missing : nat)
| NoRoom (incoming room : N).

Record Outcome := mkOutcome { out_path : string; out_applied : Applied }.

Definition REFUSED_DEVICES_NAMED : nat := 3.

Record SyncReport := mkReport {
  adopted : nat;
  already_known : nat;
  superseded : nat;
  conflicted : nat;
  deletes_lost : nat;
  deferred : nat;
  no_room : nat;
  refused_chains : nat;
  refused_devices : list DeviceId;
  unrostered_chains : nat;
}.

Definition SyncReport_default : SyncReport := mkReport 0 0 0 0 0 0 0 0 [] 0.

Definition record (a : Applied) (r : SyncReport) : SyncReport :=
  let '(mkReport ad ak su co dl de nr rc rd un) := r in
  match a with
  | Adopted => mkReport (S ad) ak su co dl de nr rc rd un
  | AlreadyKnown => mkReport ad (S ak) su co dl de nr rc rd un
  | Superseded => mkReport ad ak (S su) co dl de nr rc rd un
  | Conflicted _ _ => mkReport ad ak su (S co) dl de nr rc rd un
  | DeleteLostToEdit => mkReport ad ak su co (S dl) de nr rc rd un
  | Deferred _ => mkReport ad ak su co dl (S de) nr rc rd un
  | NoRoom _ _ => mkReport ad ak su co dl (S de) (S nr) rc rd un
  end.

Definition absorb (other r : SyncReport) : SyncReport :=
  mkReport (adopted r + adopted other) (already_known r + already_known other)
    (superseded r + superseded other) (conflicted r + conflicted other)
    (deletes_lost r + deletes_lost other) (deferred r + deferred other)
    (no_room r + no_room other) (refused_chains r) (refused_devices r)
    (unrostered_chains r + unrostered_chains other).

Definition note_refused (refused : gset DeviceId) (r : SyncReport) : SyncReport :=
  mkReport (adopted r) (already_known r) (superseded r) (conflicted r) (deletes_lost r)
    (deferred r) (no_room r) (size refused)
    (take REFUSED_DEVICES_NAMED (merge_sort N.le (elements refused))) (unrostered_chains r).

Definition needs_another_round (r : SyncReport) : bool := (0 <? deferred r)%nat.
Definition changed_anything (r : SyncReport) : bool :=
  (0 <? adopted r)%nat || (0 <? conflicted r)%nat.

Definition note_unrostered (r : SyncReport) : SyncReport :=
  mkReport (adopted r) (already_known r) (superseded r) (conflicted r) (deletes_lost r)
    (deferred r) (no_room r) (refused_chains r) (refused_devices r) (S (unrostered_chains r)).

Inductive Replay := OthersOnly | IncludingOwn.

(** ** Operations of the store, inside the engine *)

Definition with_local (s : Store) (y : Syncing) : Syncing := mkSyncing s (asked y).

(** A store operation behind [?]: its error becomes [SyncError::Store]. *)
Definition on_store {A} (m : M Store StoreError A) : M Syncing SyncError A :=
  fun y => match m (local y) with
           | (Ok a, s) => (Ok a, with_local s y)
           | (Err e, s) => (Err (StoreFailed e), with_local s y)
           end.

Definition ask_store {A} (f : Store -> result StoreError A) : M Syncing SyncError A :=
  on_store (fun s => (f s, s)).

Section engine.
Context `{!Primitives, !BodyCodec} (out : Outside).

Definition ask_clock : M Syncing SyncError N :=
  fun y => (Ok (clock out (asked y)), mkSyncing (local y) (S (asked y))).

Definition ask_source (owner : UserId) (address : ChunkId) : M Syncing SyncError (option (list N)) :=
  fun y => (fetch out (asked y) owner address, mkSyncing (local y) (S (asked y))).

(** How many of the chunks are still missing after asking for each. *)
Fixpoint fetch_missing (owner : UserId) (chunks : list ChunkId) (missing : nat)
  : M Syncing SyncError nat :=
  match chunks with
  | [] => ret missing
  | address :: rest =>
      here <-! gets (fun y => has_chunk address (local y));
      if (here : bool) then fetch_missing owner rest missing
      else
        answer <-! ask_source owner address;
        match answer with
        | Some sealed =>
            genuine <-! on_store (accept_chunk address sealed);
            fetch_missing owner rest (if (genuine : bool) then missing else S missing)
        | None => fetch_missing owner rest (S missing)
        end
  end.

(** [store.adopt_entry] and [store.adopt_tombstone], which read the clock. *)
Definition adopt (path : string) (entry : FileEntry) : M Syncing SyncError unit :=
  now <-! ask_clock; on_store (adopt_entry now path entry).
Definition bury (path : string) (t : Tombstone) : M Syncing SyncError unit :=
  now <-! ask_clock; on_store (adopt_tombstone now path t).

(** Two transactions of the store when the remote version wins; a database that fails
    between them is not modelled. *)
Definition apply_conflict (path : string) (remote local : FileEntry) (owner : UserId)
  : M Syncing SyncError Applied :=
  let remote_wins := wins_original_path (authorship remote) (authorship local) in
  let loser := if remote_wins then local else remote in
  let sibling := sibling_path path (authorship loser).1 (authorship loser).2 in
  existing <-! ask_store (stat sibling);
  if match existing with
     | Some e => bool_decide (VV.compare (fe_version e) (fe_version loser) = Equal)
     | None => false
     end
  then ret AlreadyKnown
  else
    room <-! on_store (pull_room path (fe_size remote) false);
    match room with
    | Some room => ret (NoRoom (fe_size remote) room)
    | None =>
        missing <-! fetch_missing owner (fe_chunks remote) 0;
        if (0 <? missing)%nat then ret (Deferred missing)
        else
          (if remote_wins
           then adopt sibling local ;;! adopt path remote
           else adopt sibling remote) ;;!
          ret (Conflicted sibling remote_wins)
    end.

(** The end of [apply_upsert]: room, then chunks, then the entry. *)
Definition pull_and_adopt (path : string) (remote : FileEntry) (owner : UserId) (replacing : bool)
  : M Syncing SyncError Applied :=
  room <-! on_store (pull_room path (fe_size remote) replacing);
  match room with
  | Some room => ret (NoRoom (fe_size remote) room)
  | None =>
      missing <-! fetch_missing owner (fe_chunks remote) 0;
      if (0 <? missing)%nat then ret (Deferred missing)
      else adopt path remote ;;! ret Adopted
  end.

Definition apply_upsert (path : string) (remote : FileEntry) (owner : UserId)
  : M Syncing SyncError Applied :=
  local <-! ask_store (stat path);
  match local with
  | Some local =>
      match VV.compare (fe_version local) (fe_version remote) with
      | Equal => ret AlreadyKnown
      | After => ret Superseded
      | Before => pull_and_adopt path remote owner true
      | Concurrent => apply_conflict path remote local owner
      end
  | None =>
      dead <-! ask_store (tombstone path);
      match dead with
      | Some t =>
          match VV.compare (tb_version t) (fe_version remote) with
          | After | Equal => ret Superseded
          | Before | Concurrent => pull_and_adopt path remote owner false
          end
      | None => pull_and_adopt path remote owner false
      end
  end.

Definition apply_remove (path : string) (entry : LogEntry) (version : VersionVector)
  (device : DeviceId) : M Syncing SyncError Applied :=
  let buried := bury path (mkTomb version (recorded_unix entry) device) ;;! ret Adopted in
  local <-! ask_store (stat path);
  match local with
  | Some local =>
      match VV.compare (fe_version local) version with
      | Concurrent | After => ret DeleteLostToEdit
      | Before | Equal => buried
      end
  | None =>
      dead <-! ask_store (tombstone path);
      match dead with
      | Some t =>
          match VV.compare (tb_version t) version with
          | Equal => ret AlreadyKnown
          | After => ret Superseded
          | Before | Concurrent => buried
          end
      | None => buried
      end
  end.

Definition apply_entry (device : DeviceId) (entry : LogEntry) (owner : UserId)
  : M Syncing SyncError Outcome :=
  applied <-! match operation entry with
              | Upsert path remote => apply_upsert path remote owner
              | Remove path version => apply_remove path entry version device
              end;
  ret (mkOutcome (op_path (operation entry)) applied).

Definition Round : Type := SyncReport * list Outcome.

Fixpoint apply_body (device : DeviceId) (owner : UserId) (todo : list LogEntry) (acc : Round)
  : M Syncing SyncError Round :=
  match todo with
  | [] => ret acc
  | entry :: rest =>
      outcome <-! apply_entry device entry owner;
      apply_body device owner rest (record (out_applied outcome) acc.1, acc.2 ++ [outcome])
  end.

Fixpoint apply_chain (device : DeviceId) (chain : list SegmentEnvelope) (acc : Round)
  : M Syncing SyncError Round :=
  match chain with
  | [] => ret acc
  | envelope :: rest =>
      body <-! ask_store (open_segment envelope);
      acc <-! apply_body device (Oplog.owner envelope) (entries body) acc;
      apply_chain device rest acc
  end.

Definition may_apply_chain_of (device : DeviceId) (s : Store) : bool :=
  (device =? store_device s) || negb (roster_armed (led (index s)))
  || is_member device (led (index s)).

Fixpoint apply_chains (replay : Replay) (chains : list (DeviceId * list SegmentEnvelope))
  (acc : Round) : M Syncing SyncError Round :=
  match chains with
  | [] => ret acc
  | (device, chain) :: rest =>
      own <-! gets (fun y => device =? store_device (local y));
      allowed <-! gets (fun y => may_apply_chain_of device (local y));
      if match replay with OthersOnly => own | IncludingOwn => false end
      then apply_chains replay rest acc
      else if negb allowed
      then apply_chains replay rest (note_unrostered acc.1, acc.2)
      else
        lift (match validate_chain chain with Ok _ => Ok tt | Err e => Err (StoreFailed e) end) ;;!
        acc <-! apply_chain device chain acc;
        apply_chains replay rest acc
  end.

(** The segments of each device, in the order they were served. *)
Definition by_device (segments : list SegmentEnvelope) : gmap DeviceId (list SegmentEnvelope) :=
  foldl (fun m e => <[device e := default [] (m !! device e) ++ [e]]> m) ∅ segments.

Definition apply_replaying (segments : list SegmentEnvelope) (replay : Replay)
  : M Syncing SyncError Round :=
  apply_chains replay (btree_iter (by_device segments)) (SyncReport_default, []).

Definition apply_segments (segments : list SegmentEnvelope) : M Syncing SyncError Round :=
  apply_replaying segments OthersOnly.

End engine.

(** ** Comparing two stores *)

Inductive Divergence :=
| OnlyOnLeft (path : string)
| OnlyOnRight (path : string)
| ContentDiffers (path : string).

Definition diff (left right : Store) : list Divergence :=
  let l := files (ft (index left)) in
  let r := files (ft (index right)) in
  omap (fun p => match r !! p.1 with
                 | None => Some (OnlyOnLeft p.1)
                 | Some other => if negb (content_hash other =? content_hash p.2)
                                 then Some (ContentDiffers p.1) else None
                 end) (btree_iter l)
  ++ omap (fun p => match l !! p.1 with
                    | None => Some (OnlyOnRight p.1)
                    | Some _ => None
                    end) (btree_iter r).

(** ** The decision table, as a merge of trees *)

Record Tree := mkTree { live_files : gmap string FileEntry; buried : gmap string Tombstone }.

Definition put (path : string) (e : FileEntry) (t : Tree) : Tree :=
  mkTree (<[path := e]> (live_files t)) (delete path (buried t)).
Definition kill (path : string) (d : Tombstone) (t : Tree) : Tree :=
  mkTree (delete path (live_files t)) (<[path := d]> (buried t)).

(** What a conflict leaves: the winner at the path, the loser beside it. *)
Definition loser_of (remote local : FileEntry) : FileEntry :=
  if wins_original_path (authorship remote) (authorship local) then local else remote.
Definition sibling_of (path : string) (e : FileEntry) : string :=
  sibling_path path (authorship e).1 (authorship e).2.

Definition merge_conflict (path : string) (remote local : FileEntry) (t : Tree) : Applied * Tree :=
  let wins := wins_original_path (authorship remote) (authorship local) in
  let loser := loser_of remote local in
  let sibling := sibling_of path loser in
  if match live_files t !! sibling with
     | Some e => bool_decide (VV.compare (fe_version e) (fe_version loser) = Equal)
     | None => false
     end
  then (AlreadyKnown, t)
  else (Conflicted sibling wins,
        let t := put sibling loser t in if wins then put path remote t else t).

Definition merge_upsert (path : string) (remote : FileEntry) (t : Tree) : Applied * Tree :=
  match live_files t !! path, buried t !! path with
  | Some local, _ =>
      match VV.compare (fe_version local) (fe_version remote) with
      | Equal => (AlreadyKnown, t)
      | After => (Superseded, t)
      | Before => (Adopted, put path remote t)
      | Concurrent => merge_conflict path remote local t
      end
  | None, Some d =>
      match VV.compare (tb_version d) (fe_version remote) with
      | After | Equal => (Superseded, t)
      | Before | Concurrent => (Adopted, put path remote t)
      end
  | None, None => (Adopted, put path remote t)
  end.

Definition merge_remove (path : string) (d : Tombstone) (t : Tree) : Applied * Tree :=
  match live_files t !! path, buried t !! path with
  | Some local, _ =>
      match VV.compare (fe_version local) (tb_version d) with
      | Concurrent | After => (DeleteLostToEdit, t)
      | Before | Equal => (Adopted, kill path d t)
      end
  | None, Some old =>
      match VV.compare (tb_version old) (tb_version d) with
      | Equal => (AlreadyKnown, t)
      | After => (Superseded, t)
      | Before | Concurrent => (Adopted, kill path d t)
      end
  | None, None => (Adopted, kill path d t)
  end.

Definition merge_entry (device : DeviceId) (entry : LogEntry) (t : Tree) : Applied * Tree :=
  match operation entry with
  | Upsert path remote => merge_upsert path remote t
  | Remove path version => merge_remove path (mkTomb version (recorded_unix entry) device) t
  end.

Definition tree_of (s : Store) : Tree := mkTree (files (ft (index s))) (tombstones (ft (index s))).

(** ** What the pieces leave alone *)

(** No file of the tree misses a chunk on this disk. *)
Definition complete (s : Store) : Prop :=
  forall p e c, files (ft (index s)) !! p = Some e -> c ∈ fe_chunks e -> has_chunk c s = true.

Section pieces.
Context `{!Primitives}.

(** Every count fits its machine word, whatever the index holds. *)
Definition refs_bounded (ix : Index) : Prop := forall c, reference_count c ix <= u64_max.

Lemma delta_bounded now l s :
  (forall c, default 0 (rs_refs s !! c) <= u64_max) ->
  forall c, default 0 (rs_refs (foldl (delta_step now) s l) !! c) <= u64_max.
Proof.
  revert s. induction l as [|[x d] l IH]; intros s Hs; [done|]. cbn [foldl]. apply IH. intros c. unfold delta_step.
  destruct (d =? 0)%Z; [apply Hs|]. set (n := updated_count _ d).
  assert (Hn : n <= u64_max) by (unfold n, updated_count; destruct (Z.leb_spec (Z.max (Z.of_N (default 0%N (rs_refs s !! x)) + d) 0)
    (Z.of_N u64_max)); lia).
  destruct (n =? 0); cbn; (destruct (decide (c = x)) as [->|]; [by rewrite lookup_insert_eq|by rewrite lookup_insert_ne]).
Qed.

Lemma put_file_bounded now path e ix : refs_bounded ix -> refs_bounded (put_file now path e ix).2.
Proof. intros Hb c. by apply (delta_bounded now _ (ref_state ix)). Qed.

Lemma drop_entry_bounded now path ix : refs_bounded ix -> refs_bounded (drop_entry now path ix).2.
Proof.
  intros Hb. unfold drop_entry. destruct (files (ft ix) !! path); [|done]. intros c.
  by apply (delta_bounded now _ (ref_state ix)).
Qed.

(** What every step of the engine keeps. *)
Record keeps (s s' : Store) : Prop := {
  keeps_blobs : blobs s ⊆ blobs s';
  keeps_user : user s' = user s;
  keeps_budget : budget s' = budget s;
  keeps_genuine :
    genuine (fun _ => True) (user s) (blobs s) -> genuine (fun _ => True) (user s') (blobs s');
  keeps_complete : complete s -> complete s';
  keeps_device : device_keys s' = device_keys s;
  keeps_led : led (index s') = led (index s);
  keeps_refs : refs_bounded (index s) -> refs_bounded (index s');
}.

#[export] Instance keeps_preorder : PreOrder keeps.
Proof.
  split; [by split; auto|]. intros a b c [] [].
  split; [by etransitivity|congruence..|by auto|by auto|congruence|congruence|by auto].
Qed.

(** More blobs, the same tree. *)
Definition grown (s s' : Store) : Prop := keeps s s' /\ tree_of s' = tree_of s.

#[export] Instance grown_preorder : PreOrder grown.
Proof.
  split; [by split|]. intros a b c [H1 E1] [H2 E2]. split; [by etransitivity|congruence].
Qed.

Lemma keeps_has_chunk s s' c : blobs s ⊆ blobs s' -> has_chunk c s = true -> has_chunk c s' = true.
Proof.
  intros Hg Hc. apply bool_decide_eq_true in Hc as [x Hx]. apply bool_decide_eq_true.
  exists x. by apply (lookup_weaken _ _ _ _ Hx Hg).
Qed.

Lemma grown_intro s s' :
  files (ft (index s')) = files (ft (index s)) ->
  tombstones (ft (index s')) = tombstones (ft (index s)) ->
  blobs s ⊆ blobs s' -> user s' = user s -> budget s' = budget s ->
  device_keys s' = device_keys s -> led (index s') = led (index s) ->
  chunk_refs (ft (index s')) = chunk_refs (ft (index s)) ->
  (genuine (fun _ => True) (user s) (blobs s) -> genuine (fun _ => True) (user s') (blobs s')) ->
  grown s s'.
Proof.
  intros Ef Et Hb Hu Hbud Hd Hl Hr Hg. split; [|unfold tree_of; congruence].
  split; try done.
  - intros Hc p e c He Hin. apply (keeps_has_chunk s); [done|]. apply (Hc p e); congruence.
  - intros Hc c. unfold reference_count. rewrite Hr. apply Hc.
Qed.

Lemma local_bytes_tree ix :
  files (ft (local_bytes ix).2) = files (ft ix)
  /\ tombstones (ft (local_bytes ix).2) = tombstones (ft ix) /\ led (local_bytes ix).2 = led ix
  /\ chunk_refs (ft (local_bytes ix).2) = chunk_refs (ft ix).
Proof. by destruct (local_bytes_total ix) as [t ->]. Qed.

Lemma pull_room_run path incoming replacing s r s' :
  pull_room path incoming replacing s = (r, s') ->
  is_ok r = true /\ grown s s' /\ blobs s' = blobs s /\ (budget s = None -> r = Ok None).
Proof.
  assert (Hg : grown s (set_index (local_bytes (index s)).2 s)).
  { destruct (local_bytes_tree (index s)) as (E1 & E2 & E3 & E4). by apply grown_intro. }
  unfold pull_room. unfold bind at 1, gets at 1. destruct (budget s) as [b|] eqn:Eb.
  2:{ intros [= <- <-]. split_and!; done. }
  unfold bind, gets, with_index, ret. destruct (local_bytes (index s)) as [total ix].
  cbn [snd] in Hg. intros Hr.
  assert (Hout : is_ok r = true /\ s' = set_index ix s).
  { destruct (folder_copy b); [by injection Hr as <- <-| |].
    - destruct (local_ceiling b); [|by injection Hr as <- <-].
      destruct (_ <? _); by injection Hr as <- <-.
    - destruct (_ <? _); by injection Hr as <- <-. }
  destruct Hout as [Hok ->]. by split_and!.
Qed.

Lemma clear_loss_tree c ix :
  files (ft (clear_loss c ix)) = files (ft ix)
  /\ tombstones (ft (clear_loss c ix)) = tombstones (ft ix) /\ led (clear_loss c ix) = led ix
  /\ chunk_refs (ft (clear_loss c ix)) = chunk_refs (ft ix).
Proof. unfold clear_loss. by destruct (losses (ft ix) !! c). Qed.

Lemma accept_chunk_run address sealed s :
  exists ok s', accept_chunk address sealed s = (Ok ok, s') /\ grown s s'
    /\ (ok = true -> has_chunk address s' = true).
Proof.
  unfold accept_chunk. destruct (_ <? length sealed)%nat; [by eexists false, s|].
  destruct (open_chunk (user s) address sealed) as [p|e] eqn:Ho; [|by eexists false, s].
  destruct (N.eqb_spec (chunk_id (user s) p) address) as [Hid|Hid]; [|by eexists false, s].
  cbn [negb]. eexists true, _. split; [done|]. split.
  - destruct (clear_loss_tree address (index s)) as (E1 & E2 & E3 & E4). apply grown_intro; try done.
    + cbn. unfold blob_put. destruct (blobs s !! address) eqn:E; [done|]. by apply insert_subseteq.
    + intros Hg c sl. cbn. unfold blob_put.
      destruct (blobs s !! address) eqn:E; cbn; [apply Hg|].
      destruct (decide (c = address)) as [->|Hne].
      * rewrite lookup_insert_eq. intros [= <-]. eauto.
      * rewrite lookup_insert_ne by done. apply Hg.
  - intros _. unfold has_chunk, blob_contains. cbn. apply bool_decide_eq_true.
    unfold blob_put. destruct (blobs s !! address) eqn:E; cbn; [by rewrite E|].
    by rewrite lookup_insert_eq.
Qed.

Lemma fetch_missing_run out owner chunks n y r y' :
  fetch_missing out owner chunks n y = (r, y') ->
  grown (local y) (local y')
  /\ (forall m, r = Ok m -> (n <= m)%nat
      /\ (m = n -> Forall (fun c => has_chunk c (local y') = true) chunks)).
Proof.
  revert n y. induction chunks as [|a chunks IH]; intros n y; cbn [fetch_missing].
  { intros [= <- <-]. split; [reflexivity|]. intros m [= <-]. auto. }
  unfold bind at 1, gets at 1. destruct (has_chunk a (local y)) eqn:Ha.
  - intros Hr. destruct (IH _ _ Hr) as [Hg Hm]. split; [done|]. intros m Hok.
    destruct (Hm m Hok) as [Hle Hall]. split; [done|]. intros E. constructor; [|auto].
    by apply (keeps_has_chunk (local y)); [apply Hg|].
  - unfold bind at 1, ask_source at 1.
    destruct (fetch out (asked y) owner a) as [[sealed|]|e].
    + unfold bind, on_store. cbn [local].
      destruct (accept_chunk_run a sealed (local y)) as (ok & s1 & -> & Hg1 & Hhas).
      intros Hr. apply IH in Hr as [Hg Hm]. cbn [with_local local] in Hg.
      split; [by transitivity s1|]. intros m Hok. destruct (Hm m Hok) as [Hle Hall].
      destruct ok; (split; [lia|]); [|intros; lia].
      intros E. constructor; [|auto]. apply (keeps_has_chunk s1); [apply Hg|auto].
    + intros Hr. apply IH in Hr as [Hg Hm]. split; [done|]. intros m Hok.
      destruct (Hm m Hok). split; [lia|]. intros; lia.
    + intros [= <- <-]. split; [reflexivity|done].
Qed.

(** With every chunk here, nothing is asked. *)
Lemma fetch_missing_here out owner chunks n y :
  Forall (fun c => has_chunk c (local y) = true) chunks ->
  fetch_missing out owner chunks n y = (Ok n, y).
Proof.
  revert n. induction chunks as [|a chunks IH]; intros n Hall; [done|].
  apply Forall_cons in Hall as [Ha Hall]. cbn [fetch_missing].
  unfold bind at 1, gets at 1. rewrite Ha. auto.
Qed.

Lemma adopt_run out path e y :
  validate path = Ok tt ->
  (complete (local y) -> Forall (fun c => has_chunk c (local y) = true) (fe_chunks e)) ->
  exists y', adopt out path e y = (Ok tt, y') /\ keeps (local y) (local y')
    /\ blobs (local y') = blobs (local y) /\ tree_of (local y') = put path e (tree_of (local y)).
Proof.
  intros Hv Hall. eexists. split; [|split_and!].
  - unfold adopt, ask_clock, on_store, adopt_entry, bind, lift, with_index. cbn [local].
    rewrite Hv. cbn [put_file]. reflexivity.
  - cbn. split; cbn; auto; [|intros Hb; exact (put_file_bounded _ path e (index (local y)) Hb)].
    intros Hc p e' c. cbn. intros Hp Hin. destruct (decide (p = path)) as [->|Hne].
    + rewrite lookup_insert_eq in Hp. injection Hp as <-. specialize (Hall Hc).
      rewrite Forall_forall in Hall. by apply Hall.
    + rewrite lookup_insert_ne in Hp by done. by apply (Hc p e').
  - done.
  - done.
Qed.

Lemma bury_run out path d y :
  validate path = Ok tt ->
  exists y', bury out path d y = (Ok tt, y') /\ keeps (local y) (local y')
    /\ tree_of (local y') = kill path d (tree_of (local y)).
Proof.
  intros Hv. unfold bury, ask_clock, on_store, adopt_tombstone, bind, lift, with_index. cbn [local].
  rewrite Hv. unfold Files.remove_file.
  set (ix := on_ft _ (index (local y))). set (now := clock out (asked y)).
  pose proof (drop_entry_files now path ix) as Ef.
  pose proof (drop_entry_tombstones now path ix) as Et.
  assert (El : led (drop_entry now path ix).2 = led ix)
    by (unfold drop_entry; by destruct (files (ft ix) !! path)).
  pose proof (drop_entry_bounded now path ix) as Hb.
  destruct (drop_entry now path ix) as [dropped ix']. cbn [snd] in *.
  eexists. split; [reflexivity|]. cbn. split.
  - split; cbn; auto. intros Hc p e c. cbn. rewrite Ef. intros Hp.
    apply (Hc p). by apply lookup_delete_Some in Hp as [_ Hp].
  - unfold tree_of, kill. cbn. by rewrite Ef, Et.
Qed.

End pieces.

(** ** The engine implements the table *)

(** The outcomes that decide something. *)
Definition settled (r : result SyncError Applied) : Prop :=
  match r with
  | Err _ | Ok (Deferred _) | Ok (NoRoom _ _) => False
  | Ok _ => True
  end.

(** A settled step is the merge [m]; any other leaves the tree. *)
Definition lands (s s' : Store) (m : Applied * Tree) (r : result SyncError Applied) : Prop :=
  match r with
  | Err _ | Ok (Deferred _) | Ok (NoRoom _ _) => tree_of s' = tree_of s
  | Ok a => m = (a, tree_of s')
  end.

(** Nothing stands in the way of an operation: the names are accepted, no
    ceiling is set and the content is here. *)
Definition chunks_here (s : Store) (e : FileEntry) : Prop :=
  Forall (fun c => has_chunk c s = true) (fe_chunks e).

Definition unobstructed (entry : LogEntry) (s : Store) : Prop :=
  validate (op_path (operation entry)) = Ok tt
  /\ match operation entry with
     | Upsert path remote =>
         budget s = None /\ chunks_here s remote
         /\ (forall l, files (ft (index s)) !! path = Some l ->
             VV.compare (fe_version l) (fe_version remote) = Concurrent ->
             validate (sibling_of path (loser_of remote l)) = Ok tt)
     | Remove _ _ => True
     end.

Section refinement.
Context `{!Primitives} (out : Outside).

(** Room, then chunks, then [k]: what both ways of taking a version share. *)
Lemma pull_then path remote owner replacing (k : M Syncing SyncError Applied) m y r y' :
  (forall y2, grown (local y) (local y2) -> chunks_here (local y2) remote ->
     exists a y3, k y2 = (Ok a, y3) /\ settled (Ok a) /\ keeps (local y2) (local y3)
       /\ m = (a, tree_of (local y3))) ->
  (room <-! on_store (pull_room path (fe_size remote) replacing);
   match room with
   | Some room => ret (NoRoom (fe_size remote) room)
   | None =>
       missing <-! fetch_missing out owner (fe_chunks remote) 0;
       if (0 <? missing)%nat then ret (Deferred missing) else k
   end) y = (r, y') ->
  keeps (local y) (local y') /\ lands (local y) (local y') m r
  /\ (budget (local y) = None -> chunks_here (local y) remote -> settled r).
Proof.
  intros Hk. unfold bind at 1, on_store.
  destruct (pull_room path (fe_size remote) replacing (local y)) as [[[room|]|e] s1] eqn:Hr;
    apply pull_room_run in Hr as (Hok & Hg & Hb & Hnone); [| |done].
  { intros [= <- <-]. split_and!; [apply Hg|apply Hg|]. intros Hx. by specialize (Hnone Hx). }
  unfold bind at 1. destruct (fetch_missing _ _ _ _ _) as [got y2] eqn:Hf.
  pose proof (fetch_missing_run _ _ _ _ _ _ _ Hf) as [Hg2 Hm]. cbn [with_local local] in Hg2.
  assert (Hg3 : grown (local y) (local y2)) by by transitivity s1.
  assert (Hhere : chunks_here (local y) remote -> got = Ok O).
  { intros Hall. rewrite fetch_missing_here in Hf; [by injection Hf|].
    apply (Forall_impl _ _ _ Hall). intros c. apply keeps_has_chunk. cbn. by rewrite Hb. }
  destruct got as [[|m']|e].
  - destruct (Hm O eq_refl) as [_ Hall].
    destruct (Hk y2 Hg3 (Hall eq_refl)) as (a & y3 & Ha & Hs & Hk3 & Hm3).
    cbn [Nat.ltb Nat.leb]. rewrite Ha. intros [= <- <-]. destruct Hg3 as [Hkeep _].
    split_and!; [by etransitivity| |done]. by destruct a.
  - intros [= <- <-]. split_and!; [apply Hg3|apply Hg3|]. intros _ Hall. by specialize (Hhere Hall).
  - intros [= <- <-]. split_and!; [apply Hg3|apply Hg3|]. intros _ Hall. by specialize (Hhere Hall).
Qed.

Lemma pull_and_adopt_lands path remote owner replacing y r y' :
  validate path = Ok tt ->
  pull_and_adopt out path remote owner replacing y = (r, y') ->
  keeps (local y) (local y')
  /\ lands (local y) (local y') (Adopted, put path remote (tree_of (local y))) r
  /\ (budget (local y) = None -> chunks_here (local y) remote -> settled r).
Proof.
  intros Hv. apply pull_then. intros y2 [Hk Ht] Hall.
  destruct (adopt_run out path remote y2 Hv (fun _ => Hall)) as (y3 & Ha & Hk3 & _ & Ht3).
  exists Adopted, y3. unfold bind, ret. rewrite Ha. split_and!; [done|done|done|].
  by rewrite Ht3, Ht.
Qed.

Lemma stat_run path y :
  ask_store (stat path) y
  = (match validate path with Ok _ => Ok (files (ft (index (local y))) !! path)
     | Err e => Err (StoreFailed e) end, y).
Proof.
  unfold ask_store, on_store, stat, rbind. destruct y as [s n]. cbn.
  by destruct (validate path).
Qed.

Lemma tombstone_run path y :
  validate path = Ok tt ->
  ask_store (tombstone path) y = (Ok (tombstones (ft (index (local y))) !! path), y).
Proof.
  intros Hv. unfold ask_store, on_store, tombstone, rbind. destruct y as [s n]. cbn. by rewrite Hv.
Qed.

Lemma apply_conflict_lands path remote l owner y r y' :
  validate path = Ok tt -> files (ft (index (local y))) !! path = Some l ->
  apply_conflict out path remote l owner y = (r, y') ->
  keeps (local y) (local y')
  /\ lands (local y) (local y') (merge_conflict path remote l (tree_of (local y))) r
  /\ (budget (local y) = None -> chunks_here (local y) remote ->
      validate (sibling_of path (loser_of remote l)) = Ok tt -> settled r).
Proof.
  intros Hv Hl. unfold apply_conflict. fold (loser_of remote l).
  fold (sibling_of path (loser_of remote l)). unfold bind at 1. rewrite stat_run.
  destruct (validate (sibling_of path (loser_of remote l))) as [[]|e] eqn:Hs.
  2:{ intros [= <- <-]. split_and!; done. }
  unfold merge_conflict. cbn [tree_of live_files].
  destruct (match files _ !! sibling_of _ _ with Some _ => _ | None => _ end).
  { intros [= <- <-]. split_and!; done. }
  set (w := wins_original_path (authorship remote) (authorship l)).
  intros Hrun. cut (keeps (local y) (local y')
    /\ lands (local y) (local y') (Conflicted (sibling_of path (loser_of remote l)) w,
         let t := put (sibling_of path (loser_of remote l)) (loser_of remote l) (tree_of (local y)) in
         if w then put path remote t else t) r
    /\ (budget (local y) = None -> chunks_here (local y) remote -> settled r)); [naive_solver|].
  revert Hrun. apply pull_then. intros y2 [Hk Ht] Hall.
  assert (Hloser : complete (local y2) -> chunks_here (local y2) (loser_of remote l)).
  { intros Hcomp. unfold loser_of. destruct (wins_original_path _ _); [|done].
    apply Forall_forall. intros c. apply (Hcomp path l).
    injection Ht as -> _. done. }
  destruct (adopt_run out _ (loser_of remote l) y2 Hs Hloser) as (y3 & Ha & Hk3 & Hb3 & Ht3).
  rewrite Ht in Ht3. unfold bind, ret. unfold loser_of in *. fold w in Ha, Ht3 |- *.
  destruct w eqn:Ew.
  - destruct (adopt_run out path remote y3 Hv) as (y4 & Ha4 & Hk4 & _ & Ht4).
    { intros _. apply (Forall_impl _ _ _ Hall). intros c. apply keeps_has_chunk. by rewrite Hb3. }
    eexists _, y4. rewrite Ha, Ha4. split_and!; [done|done|by etransitivity|].
    by rewrite Ht4, Ht3.
  - eexists _, y3. rewrite Ha. split_and!; [done|done|done|]. by rewrite Ht3.
Qed.

Lemma apply_upsert_lands path remote owner y r y' :
  apply_upsert out path remote owner y = (r, y') ->
  keeps (local y) (local y')
  /\ lands (local y) (local y') (merge_upsert path remote (tree_of (local y))) r
  /\ (forall e, operation e = Upsert path remote -> unobstructed e (local y) -> settled r).
Proof.
  unfold apply_upsert, unobstructed, merge_upsert. unfold bind at 1. rewrite stat_run.
  destruct (validate path) as [[]|e] eqn:Hv.
  2:{ intros [= <- <-]. split_and!; [reflexivity|done|]. intros e' ->. cbn. rewrite Hv. by intros []. }
  cbn [tree_of live_files buried].
  destruct (files (ft (index (local y))) !! path) as [l|] eqn:Hl.
  - destruct (VV.compare (fe_version l) (fe_version remote)) eqn:Hc.
    + intros [= <- <-]. split_and!; done.
    + intros Hr. apply pull_and_adopt_lands in Hr as (H1 & H2 & H3); [|done].
      split_and!; [done|done|]. intros e ->. naive_solver.
    + intros [= <- <-]. split_and!; done.
    + intros Hr. apply apply_conflict_lands in Hr as (H1 & H2 & H3); [|done|done].
      split_and!; [done|done|]. intros e ->. naive_solver.
  - unfold bind at 1. rewrite tombstone_run by done.
    destruct (tombstones (ft (index (local y))) !! path) as [d|];
      [destruct (VV.compare (tb_version d) (fe_version remote))|];
      try (by intros [= <- <-]; split_and!);
      intros Hr; apply pull_and_adopt_lands in Hr as (H1 & H2 & H3); try done;
      (split_and!; [done|done|]; intros e ->; naive_solver).
Qed.

Lemma buried_lands path d y r y' :
  validate path = Ok tt -> (bury out path d ;;! ret Adopted) y = (r, y') ->
  keeps (local y) (local y')
  /\ lands (local y) (local y') (Adopted, kill path d (tree_of (local y))) r /\ settled r.
Proof.
  intros Hv. destruct (bury_run out path d y Hv) as (y1 & Hb & Hk & Ht). unfold bind, ret.
  rewrite Hb. intros [= <- <-]. split_and!; [done| |done]. cbn [lands]. by rewrite Ht.
Qed.

Lemma apply_remove_lands path entry version device y r y' :
  apply_remove out path entry version device y = (r, y') ->
  keeps (local y) (local y')
  /\ lands (local y) (local y')
       (merge_remove path (mkTomb version (recorded_unix entry) device) (tree_of (local y))) r
  /\ (validate path = Ok tt -> settled r).
Proof.
  unfold apply_remove, merge_remove. unfold bind at 1. rewrite stat_run.
  destruct (validate path) as [[]|e] eqn:Hv; [|by intros [= <- <-]; split_and!].
  cbn [tree_of live_files buried tb_version].
  destruct (files (ft (index (local y))) !! path) as [l|] eqn:Hl.
  - destruct (VV.compare (fe_version l) version); try (by intros [= <- <-]; split_and!);
      intros Hr; apply buried_lands in Hr as (H1 & H2 & H3); naive_solver.
  - unfold bind at 1. rewrite tombstone_run by done.
    destruct (tombstones (ft (index (local y))) !! path) as [d|];
      [destruct (VV.compare (tb_version d) version)|];
      try (by intros [= <- <-]; split_and!);
      intros Hr; apply buried_lands in Hr as (H1 & H2 & H3); naive_solver.
Qed.

(** [apply_entry] with the path taken off its outcome. *)
Lemma apply_entry_lands device entry owner y r y' :
  apply_entry out device entry owner y = (r, y') ->
  exists a, r = rbind a (fun x => Ok (mkOutcome (op_path (operation entry)) x))
  /\ keeps (local y) (local y')
  /\ lands (local y) (local y') (merge_entry device entry (tree_of (local y))) a
  /\ (unobstructed entry (local y) -> settled a).
Proof.
  unfold apply_entry, merge_entry. unfold bind at 1.
  set (run := match operation entry with Upsert _ _ => _ | Remove _ _ => _ end).
  destruct (run y) as [a y1] eqn:Hr. subst run.
  intros Hret. exists a.
  assert (r = rbind a (fun x => Ok (mkOutcome (op_path (operation entry)) x)) /\ y1 = y') as [-> ->].
  { destruct a; by injection Hret as <- <-. }
  split; [done|]. destruct (operation entry) as [path remote|path version] eqn:Eo.
  - apply apply_upsert_lands in Hr as (H1 & H2 & H3). split_and!; [done|done|]. by apply H3.
  - apply apply_remove_lands in Hr as (H1 & H2 & H3). split_and!; [done|done|].
    unfold unobstructed. rewrite Eo. intros [Hv _]. by apply H3.
Qed.

(** ** A whole round *)

Context `{!BodyCodec}.

Lemma apply_body_keeps device owner todo acc y r y' :
  apply_body out device owner todo acc y = (r, y') -> keeps (local y) (local y').
Proof.
  revert acc y. induction todo as [|e todo IH]; intros acc y; cbn [apply_body].
  { by intros [= _ <-]. }
  intros Hr. run_inv Hr; apply apply_entry_lands in Hrun as (_ & _ & Hk & _); [done|].
  apply IH in Hr. by etransitivity.
Qed.

Lemma ask_store_same {A} (f : Store -> result StoreError A) y r y' :
  ask_store f y = (r, y') -> y' = y.
Proof. unfold ask_store, on_store. destruct y, (f _); by intros [= _ <-]. Qed.

Lemma apply_chain_keeps device chain acc y r y' :
  apply_chain out device chain acc y = (r, y') -> keeps (local y) (local y').
Proof.
  revert acc y. induction chain as [|e chain IH]; intros acc y; cbn [apply_chain].
  { by intros [= _ <-]. }
  intros Hr. run_inv Hr; apply ask_store_same in Hrun; subst; [done|].
  run_inv Hr; apply apply_body_keeps in Hrun; [done|]. apply IH in Hr. by etransitivity.
Qed.

Lemma apply_chains_keeps replay chains acc y r y' :
  apply_chains out replay chains acc y = (r, y') -> keeps (local y) (local y').
Proof.
  revert acc y. induction chains as [|[d chain] chains IH]; intros acc y; cbn [apply_chains].
  { by intros [= _ <-]. }
  unfold bind at 1 2, gets at 1 2. cbn beta.
  destruct (match replay with OthersOnly => _ | IncludingOwn => _ end); [apply IH|].
  destruct (may_apply_chain_of d (local y)); cbn [negb]; [|apply IH].
  unfold bind at 1, lift. destruct (validate_chain chain); [|by intros [= _ <-]].
  intros Hr. run_inv Hr; apply apply_chain_keeps in Hrun; [done|]. apply IH in Hr. by etransitivity.
Qed.

(** ** Accounting for a round *)

Definition counted (r : SyncReport) : nat :=
  adopted r + already_known r + superseded r + conflicted r + deletes_lost r + deferred r.

Definition paths_of (bodies : list SegmentBody) : list string :=
  (fun e => op_path (operation e)) <$> (bodies ≫= entries).

Definition opens_to (s : Store) (e : SegmentEnvelope) (b : SegmentBody) : Prop :=
  open_segment e s = Ok b.

(** The chains a round applies: not this device's own unless replaying, and
    only those of the roster. *)
Definition own_skipped (replay : Replay) (s : Store) (d : DeviceId) : bool :=
  match replay with OthersOnly => d =? store_device s | IncludingOwn => false end.
Definition taken (replay : Replay) (s : Store) (c : DeviceId * list SegmentEnvelope) : Prop :=
  own_skipped replay s c.1 = false /\ may_apply_chain_of c.1 s = true.
Definition strangers (replay : Replay) (s : Store) (c : DeviceId * list SegmentEnvelope) : Prop :=
  own_skipped replay s c.1 = false /\ may_apply_chain_of c.1 s = false.

#[export] Instance taken_dec replay s c : Decision (taken replay s c).
Proof. unfold taken. apply _. Defined.
#[export] Instance strangers_dec replay s c : Decision (strangers replay s c).
Proof. unfold strangers. apply _. Defined.

(** What [acc'] adds to [acc] after entries at [paths]. *)
Record adds (paths : list string) (unrostered : nat) (acc acc' : Round) : Prop := {
  adds_outcomes : out_path <$> acc'.2 = (out_path <$> acc.2) ++ paths;
  adds_counted : counted acc'.1 = (counted acc.1 + length paths)%nat;
  adds_unrostered : unrostered_chains acc'.1 = (unrostered_chains acc.1 + unrostered)%nat;
  adds_refused : refused_chains acc'.1 = refused_chains acc.1;
}.

Lemma adds_nil acc : adds [] 0 acc acc.
Proof. split; rewrite ?app_nil_r; simpl; lia || done. Qed.

Lemma adds_app ps qs n m a b c : adds ps n a b -> adds qs m b c -> adds (ps ++ qs) (n + m) a c.
Proof.
  intros [] []. split; [rewrite app_assoc; congruence|rewrite length_app; lia|lia|congruence].
Qed.

Lemma apply_body_adds device owner todo acc y acc' y' :
  apply_body out device owner todo acc y = (Ok acc', y') ->
  adds ((fun e => op_path (operation e)) <$> todo) 0 acc acc'.
Proof.
  revert acc y. induction todo as [|e todo IH]; intros acc y; cbn [apply_body].
  { intros [= <- _]. apply adds_nil. }
  intros Hr. run_inv Hr; [congruence|]. apply apply_entry_lands in Hrun as ([x|] & Ha & _); [|done].
  injection Ha as ->. apply IH in Hr. cbn [out_applied] in Hr.
  refine (adds_app [_] _ 0 0 acc _ acc' _ Hr). split; cbn [fst snd].
  - by rewrite fmap_app.
  - unfold counted. destruct acc as [[] ?], x; simpl; lia.
  - destruct acc as [[] ?], x; simpl; lia.
  - by destruct acc as [[] ?], x.
Qed.

Lemma opens_to_keeps s s' e b : keeps s s' -> opens_to s' e b -> opens_to s e b.
Proof. intros [_ Hu _ _ _ _ _]. unfold opens_to, open_segment, owner_of. by rewrite Hu. Qed.

Lemma apply_chain_adds device chain acc y acc' y' :
  apply_chain out device chain acc y = (Ok acc', y') ->
  exists bodies, Forall2 (opens_to (local y)) chain bodies /\ adds (paths_of bodies) 0 acc acc'.
Proof.
  revert acc y. induction chain as [|e chain IH]; intros acc y; cbn [apply_chain].
  { intros [= <- _]. exists []. split; [done|apply adds_nil]. }
  intros Hr. run_inv Hr; [congruence|].
  assert (Ho : opens_to (local y) e a).
  { unfold ask_store, on_store in Hrun. unfold opens_to.
    destruct (open_segment e (local y)); congruence. }
  apply ask_store_same in Hrun. subst s.
  run_inv Hr; [congruence|]. pose proof (apply_body_keeps _ _ _ _ _ _ _ Hrun) as Hk.
  apply apply_body_adds in Hrun. apply IH in Hr as (bodies & Hb & Hadd).
  exists (a :: bodies). split.
  - constructor; [done|]. eapply Forall2_impl; [exact Hb|]. intros x z Hx.
    exact (opens_to_keeps _ _ _ _ Hk Hx).
  - unfold paths_of. cbn [mbind list_bind]. rewrite fmap_app. exact (adds_app _ _ 0 0 _ _ _ Hrun Hadd).
Qed.

Lemma may_apply_keeps s s' d : keeps s s' -> may_apply_chain_of d s' = may_apply_chain_of d s.
Proof. intros [_ _ _ _ _ Hd Hl]. unfold may_apply_chain_of, store_device. by rewrite Hd, Hl. Qed.

Lemma own_skipped_keeps replay s s' d :
  keeps s s' -> own_skipped replay s' d = own_skipped replay s d.
Proof. intros [_ _ _ _ _ Hd _]. unfold own_skipped, store_device. by rewrite Hd. Qed.

Lemma filters_keep replay s s' (chains : list (DeviceId * list SegmentEnvelope)) :
  keeps s s' ->
  filter (taken replay s') chains = filter (taken replay s) chains
  /\ filter (strangers replay s') chains = filter (strangers replay s) chains.
Proof.
  intros Hk. split; apply list_filter_local; intros c _; unfold taken, strangers;
    by rewrite (may_apply_keeps _ _ _ Hk), (own_skipped_keeps _ _ _ _ Hk).
Qed.

Lemma apply_chains_adds replay chains acc y acc' y' :
  apply_chains out replay chains acc y = (Ok acc', y') ->
  Forall (fun c => validate_chain c.2 = Ok tt) (filter (taken replay (local y)) chains)
  /\ exists bodies,
       Forall2 (opens_to (local y)) (filter (taken replay (local y)) chains ≫= snd) bodies
       /\ adds (paths_of bodies) (length (filter (strangers replay (local y)) chains)) acc acc'.
Proof.
  revert acc y. induction chains as [|[d chain] chains IH]; intros acc y; cbn [apply_chains].
  { intros [= <- _]. split; [done|]. exists []. split; [done|apply adds_nil]. }
  unfold bind at 1 2, gets at 1 2. cbn beta. fold (own_skipped replay (local y) d).
  rewrite !filter_cons.
  destruct (own_skipped replay (local y) d) eqn:Eo.
  { rewrite !decide_False by (intros [Ho _]; cbn [fst] in Ho; congruence). apply IH. }
  destruct (may_apply_chain_of d (local y)) eqn:Em; cbn [negb].
  2:{ rewrite (decide_False (P := taken _ _ _)) by (intros [_ Ho]; cbn [fst] in Ho; congruence).
      rewrite (decide_True (P := strangers _ _ _)) by done. intros Hr. apply IH in Hr as (Hv & bodies & Hb & Ha).
      split; [done|]. exists bodies. split; [done|]. cbn [length].
      refine (adds_app [] _ 1 _ acc _ acc' _ Ha). split; cbn [fst snd length fmap list_fmap].
      - by rewrite app_nil_r.
      - unfold counted, note_unrostered. simpl. lia.
      - simpl. lia.
      - done. }
  rewrite (decide_False (P := strangers _ _ _)) by (intros [_ Ho]; cbn [fst] in Ho; congruence).
  rewrite (decide_True (P := taken _ _ _)) by done.
  unfold bind at 1, lift. destruct (validate_chain chain) as [[]|] eqn:Hv; [|congruence].
  intros Hr. run_inv Hr; [congruence|].
  pose proof (apply_chain_keeps _ _ _ _ _ _ Hrun) as Hk.
  apply apply_chain_adds in Hrun as (b1 & Hb1 & Ha1). apply IH in Hr as (Hvs & b2 & Hb2 & Ha2).
  destruct (filters_keep replay _ _ chains Hk) as [E1 E2]. rewrite E1, E2 in *.
  split; [by constructor|]. exists (b1 ++ b2). cbn [mbind list_bind snd]. split.
  - apply Forall2_app; [done|]. eapply Forall2_impl; [exact Hb2|]. intros x z Hx.
    exact (opens_to_keeps _ _ _ _ Hk Hx).
  - unfold paths_of. rewrite bind_app, fmap_app. exact (adds_app _ _ 0 _ _ _ _ Ha1 Ha2).
Qed.

End refinement.

(** ** The properties *)


(** C3. A round never leaves a hole.  Whatever segments are served, whatever
    the source answers and however the round ends: if every file had all its
    chunks on disk before, every file has them after; blobs are only added, and
    only ones that open to what their address names; the roster and the ledger
    of holders are not touched by what a peer says. *)
Theorem round_never_leaves_a_hole `{!Primitives, !BodyCodec} (out : Outside)
  (segments : list SegmentEnvelope) (replay : Replay) (y : Syncing) :
  let y' := (apply_replaying out segments replay y).2 in
  (complete (local y) -> complete (local y'))
  /\ (genuine (fun _ => True) (user (local y)) (blobs (local y)) ->
      genuine (fun _ => True) (user (local y')) (blobs (local y')))
  /\ blobs (local y) ⊆ blobs (local y')
  /\ led (index (local y')) = led (index (local y)).
Proof.
  cbn zeta. destruct (apply_replaying out segments replay y) as [r y'] eqn:Hr.
  unfold apply_replaying in Hr. apply apply_chains_keeps in Hr as [H1 _ _ H2 H3 _ H4 _].
  exact (conj H3 (conj H2 (conj H1 H4))).
Qed.


Module EngineSample.
Import Toy ToyCodec StoreSample.

Definition nowhere : Outside := empty_source (fun _ => 50).
Definition other : DeviceKeys := mkDeviceKeys [2].
Definition laptop : Store := mkStore held ∅ small_chunker keys (mkDeviceKeys [1]) None.
Definition laptop_with_chunks : Store := set_blobs {[10 := [1]; 11 := [2]; 12 := [3]]} laptop.

(** An edit of [a.txt] whose content is here. *)
Definition rival : LogEntry :=
  mkLog 1 9 (Upsert "a.txt" (mkFile 2 0 7 [12] (VV.advanced ∅ 5 1) 5)).
(** A new file whose content is not. *)
Definition sleeping : LogEntry :=
  mkLog 2 9 (Upsert "c.txt" (mkFile 2 0 7 [99] (VV.advanced ∅ 5 2) 5)).

Definition removal : SegmentEnvelope :=
  match create 41 (replicate 24 0) (oplog_root keys) (user_id keys) other None
          [mkLog 1 9 (Remove "a.txt" (VV.advanced ∅ 5 1))] with
  | Ok e => e
  | Err _ => mkEnvelope 0 0 0 0 0 None [] []
  end.

Definition start : Syncing := mkSyncing laptop_with_chunks 0.
Definition round_report : SyncReport := mkReport 1 0 0 0 0 0 0 0 [] 0.

End EngineSample.

Import Toy ToyCodec StoreSample EngineSample.


Lemma round_never_leaves_a_hole_witness :
  complete (local (apply_segments nowhere [removal] start).2).
Proof.
  refine (proj1 (round_never_leaves_a_hole nowhere [removal] OthersOnly start) _).
  intros p e c Hp Hc.
  assert (Hall : Forall (fun q => Forall (fun c => has_chunk c laptop_with_chunks = true) (fe_chunks q.2))
    (map_to_list (files (ft (index laptop_with_chunks))))).
  { apply (bool_decide_eq_true_1 _). vm_compute. reflexivity. }
  rewrite Forall_forall in Hall. specialize (Hall (p, e)). cbn [snd] in Hall.
  rewrite Forall_forall in Hall. apply Hall; [|exact Hc]. by apply elem_of_map_to_list.
Defined.

