(* ===== verification/Catalogue.v ===== *)
(** * Catalogue: every file an account has, downloaded or not

    Models [crates/itsanas-store/src/catalogue.rs]: the walk over the logs a
    device can read, the last word it keeps for each path, the listing, the
    chunks of a listed file and the removal of one that is not here.  The
    theorems say that the listing and the resolution of a path agree, that a
    path whose history has a latest version shows that version whatever the
    order of the chains, and where concurrent histories make the order count. *)

From S2P Require Import Prelude Version Ids Path Crypto Oplog IndexState Files Log Blob Store Vault Engine.

Definition MAX_SEGMENTS_WALKED : nat := 256.

Inductive Presence := Local | Absent.

#[export] Instance Presence_eq_dec : EqDecision Presence.
Proof. solve_decision. Defined.

Record Known := mkKnown {
  kn_path : string;
  kn_size : N;
  kn_modified : N;
  presence : Presence;
}.

(** What the logs say of one path so far; no file is a delete. *)
Record Latest := mkLatest { la_version : VersionVector; la_file : option FileEntry }.

Abbreviation Words := (gmap string Latest) (only parsing).

Record Walk := mkWalk { latest : gmap string Latest; wk_complete : bool; wk_left_out : list DeviceId }.

Record Catalogue := mkCatalogue { cat_files : list Known; cat_complete : bool; cat_left_out : list DeviceId }.

(** Keep the operation that decides what a listing shows. *)
Definition record (words : Words) (path : string) (version : VersionVector) (file : option FileEntry) : Words :=
  match words !! path with
  | None => <[path := mkLatest version file]> words
  | Some held =>
      match VV.compare version (la_version held) with
      | After => <[path := mkLatest version file]> words
      | Before | Equal => words
      | Concurrent =>
          match la_file held, file with
          | None, Some _ => <[path := mkLatest version file]> words
          | _, _ => words
          end
      end
  end.

Definition file_of (op : Operation) : option FileEntry :=
  match op with Upsert _ e => Some e | Remove _ _ => None end.

Definition record_entry (words : Words) (e : LogEntry) : Words :=
  record words (op_path (operation e)) (op_version (operation e)) (file_of (operation e)).

(** [fold] *)
Definition fold_bodies (words : Words) (bodies : list SegmentBody) : Words :=
  foldl (fun words body => foldl record_entry words (entries body)) words bodies.

(** [collect::<Result<Vec<_>>>] *)
Fixpoint collect {E A B} (f : A -> result E B) (l : list A) : result E (list B) :=
  match l with
  | [] => Ok []
  | a :: l => b <-? f a; bs <-? collect f l; Ok (b :: bs)
  end.

Section catalogue.
Context `{!Primitives, !BodyCodec}.

(** One other device's chain. *)
Definition walk_chain (s : Store) (v : Vault) (w : Walk) (device : DeviceId) : Walk :=
  let segments := segments_for (owner_of s) device None MAX_SEGMENTS_WALKED v in
  let complete := wk_complete w && negb (length segments =? MAX_SEGMENTS_WALKED)%nat in
  match collect (fun e => open_segment e s) segments with
  | Err _ => mkWalk (latest w) false (wk_left_out w ++ [device])
  | Ok bodies => mkWalk (fold_bodies (latest w) bodies) complete (wk_left_out w)
  end.

Definition walk_vault (s : Store) (v : Vault) : result StoreError Walk :=
  let others := filter (fun d => d <> store_device s) ((heads_for (owner_of s) v).*1.*1) in
  let w := foldl (walk_chain s v) (mkWalk ∅ true []) others in
  let mine := segments_list (index s) in
  let short := (MAX_SEGMENTS_WALKED <? length mine)%nat in
  bodies <-? collect (fun e => open_segment e s) (drop (length mine - MAX_SEGMENTS_WALKED) mine);
  Ok (mkWalk (foldl record_entry (fold_bodies (latest w) bodies) (pending_entries (index s)))
        (wk_complete w && negb short) (merge_sort N.le (wk_left_out w))).

(** The logs' last word on a path, unless a delete made here saw it. *)
Definition still_a_file (s : Store) (path : string) (word : Latest) : result StoreError (option FileEntry) :=
  match la_file word with
  | None => Ok None
  | Some entry =>
      t <-? tombstone path s;
      match t with
      | Some t => match VV.compare (tb_version t) (la_version word) with
                  | After | Equal => Ok None
                  | _ => Ok (Some entry)
                  end
      | None => Ok (Some entry)
      end
  end.

Definition known_of (p : Presence) (path : string) (e : FileEntry) : Known :=
  mkKnown path (fe_size e) (modified_unix e) p.

(** The files the index lists. *)
Definition list_local (s : Store) : result StoreError (gmap string Known) :=
  rows <-? collect (fun p : string * FileEntry => e <-? stat p.1 s; Ok (p.1, e)) (entries_list s);
  Ok (foldl (fun out (p : string * option FileEntry) =>
               match p.2 with Some e => <[p.1 := known_of Local p.1 e]> out | None => out end) ∅ rows).

Fixpoint list_absent (s : Store) (words : list (string * Latest)) (out : gmap string Known)
  : result StoreError (gmap string Known) :=
  match words with
  | [] => Ok out
  | (path, word) :: words =>
      if bool_decide (is_Some (out !! path)) then list_absent s words out
      else
        e <-? still_a_file s path word;
        list_absent s words (match e with Some e => <[path := known_of Absent path e]> out | None => out end)
  end.

Definition catalogue (s : Store) (v : Vault) : result StoreError Catalogue :=
  here <-? list_local s;
  w <-? walk_vault s v;
  out <-? list_absent s (btree_iter (latest w)) here;
  Ok (mkCatalogue (btree_iter out).*2 (wk_complete w) (wk_left_out w)).

Definition resolve (s : Store) (w : Walk) (path : string) : result StoreError (option FileEntry) :=
  match latest w !! path with
  | None => Ok None
  | Some word => still_a_file s path word
  end.

Definition chunks_for (s : Store) (v : Vault) (path : string) : result StoreError (option (list ChunkId)) :=
  w <-? walk_vault s v;
  e <-? resolve s w path;
  Ok (fe_chunks <$> e).

Definition chunks_for_all (s : Store) (v : Vault) (paths : gset string) : result StoreError (gset ChunkId) :=
  if bool_decide (paths = ∅) then Ok ∅
  else
    w <-? walk_vault s v;
    found <-? collect (resolve s w) (merge_sort key_le (elements paths));
    Ok (foldl (fun wanted e => match e with Some e => wanted ∪ list_to_set (fe_chunks e) | None => wanted end) ∅ found).

Definition absent_count (s : Store) (v : Vault) : result StoreError nat :=
  c <-? catalogue s v;
  Ok (length (filter (fun k => presence k = Absent) (cat_files c))).

Definition remove_known (now : N) (v : Vault) (path : string) : M Store StoreError bool :=
  s <-! gets id;
  here <-! lift (stat path s);
  match here with
  | Some _ => Store.remove_file now path
  | None =>
      w <-! lift (walk_vault s v);
      match latest w !! path with
      | None => ret false
      | Some word =>
          e <-! lift (still_a_file s path word);
          match e with
          | None => ret false
          | Some _ => remove_unheld now path (la_version word)
          end
      end
  end.

End catalogue.

(** ** What the walk reads *)

Lemma fold_bodies_entries words bodies : fold_bodies words bodies = foldl record_entry words (bodies ≫= entries).
Proof.
  revert words. induction bodies as [|b bodies IH]; intros words; [done|].
  cbn [fold_bodies foldl mbind list_bind]. rewrite foldl_app. apply IH.
Qed.

Lemma collect_inv {E A B} (f : A -> result E B) l bs :
  collect f l = Ok bs -> Forall2 (fun a b => f a = Ok b) l bs.
Proof.
  revert bs. induction l as [|a l IH]; intros bs; cbn [collect]; [intros [= <-]; constructor|].
  unfold rbind. destruct (f a) eqn:Ea; [|done]. destruct (collect f l); [|done]. intros [= <-]. constructor; [done|by apply IH].
Qed.

Section reading.
Context `{!Primitives, !BodyCodec}.

(** The entries of one chain, none when it is left out. *)
Definition entries_in (s : Store) (segments : list SegmentEnvelope) : list LogEntry :=
  match collect (fun e => open_segment e s) segments with Ok bodies => bodies ≫= entries | Err _ => [] end.

(** Every entry the walk folds, in its order. *)
Definition read_log (s : Store) (v : Vault) : list LogEntry :=
  (filter (fun d => d <> store_device s) ((heads_for (owner_of s) v).*1.*1)
     ≫= (fun d => entries_in s (segments_for (owner_of s) d None MAX_SEGMENTS_WALKED v)))
  ++ entries_in s (drop (length (segments_list (index s)) - MAX_SEGMENTS_WALKED) (segments_list (index s)))
  ++ pending_entries (index s).

Lemma walk_chains_read s v ds w :
  latest (foldl (walk_chain s v) w ds)
  = foldl record_entry (latest w) (ds ≫= (fun d => entries_in s (segments_for (owner_of s) d None MAX_SEGMENTS_WALKED v))).
Proof.
  revert w. induction ds as [|d ds IH]; intros w; [done|]. cbn [foldl mbind list_bind].
  rewrite foldl_app, IH. f_equal. unfold walk_chain, entries_in.
  destruct (collect _ _) as [bodies|]; cbn [latest]; [apply fold_bodies_entries|done].
Qed.

Lemma walk_reads s v w : walk_vault s v = Ok w -> latest w = foldl record_entry ∅ (read_log s v).
Proof.
  unfold walk_vault, read_log, rbind, entries_in at 2. destruct (collect _ (drop _ _)) as [bodies|]; [|done].
  intros [= <-]. cbn [latest]. rewrite !foldl_app, fold_bodies_entries. do 2 f_equal. apply walk_chains_read.
Qed.

(** ** The listing *)

Lemma list_local_spec s here p : list_local s = Ok here -> here !! p = known_of Local p <$> get_file p (index s).
Proof.
  unfold list_local, rbind. destruct (collect _ _) as [rows|] eqn:Ec; [|done]. apply collect_inv in Ec. intros [= <-].
  unfold entries_list, files_list in Ec.
  assert (Hrows : rows = (fun q : string * FileEntry => (q.1, Some q.2)) <$> btree_iter (files (ft (index s)))).
  { assert (Hin : Forall (fun q => files (ft (index s)) !! q.1 = Some q.2) (btree_iter (files (ft (index s)))))
      by (apply Forall_forall; intros [k e] Hk; by apply elem_of_btree_iter in Hk).
    induction Ec as [|[k e] [k' e'] l rows Hf Ec IH]; [done|]. apply Forall_cons in Hin as [Hk Hin].
    cbn. rewrite <- IH by done. f_equal. unfold stat, rbind in Hf. cbn in Hf, Hk.
    destruct (validate k); [|done]. injection Hf as <- <-. unfold get_file. by rewrite Hk. }
  subst rows. clear Ec. rewrite foldl_fmap. cbn [fst snd]. unfold get_file.
  assert (Hg : forall l (out : gmap string Known), foldl (fun (out : gmap string Known) (q : string * FileEntry) => <[q.1 := known_of Local q.1 q.2]> out) out l !! p
    = match list_find (fun q : string * FileEntry => q.1 = p) (rev l) with
      | Some (_, q) => Some (known_of Local p q.2) | None => out !! p end).
  { intros l. induction l as [|[k e] l IH] using rev_ind; intros out; [done|].
    rewrite foldl_app, rev_app_distr. cbn. destruct (decide (k = p)) as [->|Hne].
    - by rewrite lookup_insert_eq.
    - rewrite lookup_insert_ne by done. rewrite IH. by destruct (list_find _ _) as [[]|]. }
  rewrite Hg, lookup_empty. destruct (files (ft (index s)) !! p) as [e|] eqn:Ef.
  - destruct (list_find _ _) as [[i [k e']]|] eqn:El.
    + apply list_find_Some in El as (Hi & Hk & _). cbn in *. subst k.
      apply list_elem_of_lookup_2, list_elem_of_In, in_rev, list_elem_of_In, elem_of_btree_iter in Hi. cbn. congruence.
    + exfalso. apply list_find_None in El. rewrite Forall_forall in El. apply (El (p, e)); [|done].
      apply list_elem_of_In. rewrite <- in_rev. by apply list_elem_of_In, elem_of_btree_iter.
  - destruct (list_find _ _) as [[i [k e']]|] eqn:El; [|done]. exfalso.
    apply list_find_Some in El as (Hi & Hk & _). cbn in *. subst k.
    apply list_elem_of_lookup_2, list_elem_of_In, in_rev, list_elem_of_In, elem_of_btree_iter in Hi. congruence.
Qed.

(** The rest of the listing, path by path. *)
Definition absent_word (s : Store) (words : list (string * Latest)) (p : string) : option Known :=
  match list_find (fun q : string * Latest => q.1 = p) words with
  | Some (_, (_, w)) => match still_a_file s p w with Ok (Some e) => Some (known_of Absent p e) | _ => None end
  | None => None
  end.

Lemma list_absent_spec s words out out' p :
  list_absent s words out = Ok out' -> NoDup words.*1 ->
  out' !! p = match out !! p with Some k => Some k | None => absent_word s words p end
  /\ (out !! p = None -> forall w, (p, w) ∈ words -> is_ok (still_a_file s p w) = true).
Proof.
  revert out. induction words as [|[k w] words IH]; intros out E Hnd.
  { injection E as <-. split; [by destruct (out !! p)|]. by intros _ w ?%not_elem_of_nil. }
  cbn in Hnd. apply NoDup_cons in Hnd as [Hk Hnd]. cbn [list_absent] in E.
  assert (Hno : forall q, q = k -> absent_word s words q = None).
  { intros q ->. unfold absent_word. destruct (list_find _ _) as [[i [k' w']]|] eqn:El; [|done].
    apply list_find_Some in El as (Hi & Hk' & _). cbn in Hk'. subst k'. destruct Hk.
    apply list_elem_of_lookup_2 in Hi. by apply (list_elem_of_fmap_2 fst _ _ Hi). }
  assert (Hcons : absent_word s ((k, w) :: words) p
    = if decide (k = p) then match still_a_file s p w with Ok (Some e) => Some (known_of Absent p e) | _ => None end
      else absent_word s words p).
  { unfold absent_word. cbn [list_find]. cbn [fst]. destruct (decide (k = p)) as [->|Hne]; [done|].
    by destruct (list_find _ words) as [[i [k' w']]|]. }
  rewrite Hcons. destruct (bool_decide (is_Some (out !! k))) eqn:Eb.
  - apply bool_decide_eq_true in Eb as [x Ex]. destruct (IH out E Hnd) as [H1 H2]. split.
    + rewrite H1. destruct (out !! p) as [y|] eqn:Ep; [done|]. destruct (decide (k = p)) as [->|]; [congruence|done].
    + intros Hp w' [[= -> ->]|Hin]%elem_of_cons; [congruence|by apply H2].
  - apply bool_decide_eq_false in Eb. unfold rbind in E. destruct (still_a_file s k w) as [e|] eqn:Ee; [|done].
    destruct (IH _ E Hnd) as [H1 H2]. destruct (decide (k = p)) as [->|Hne].
    + assert (Ep : out !! p = None) by (destruct (out !! p) eqn:Eo; [by destruct Eb; eauto|done]).
      rewrite Ep. split.
      * rewrite H1. destruct e as [e|]; [by rewrite lookup_insert_eq, Ee|]. rewrite Ep, Ee. by apply Hno.
      * intros _ w' [[= <-]|Hin]%elem_of_cons; [by rewrite Ee|]. destruct Hk. by apply (list_elem_of_fmap_2 fst _ _ Hin).
    + assert (Eo : (match e with Some e => <[k := known_of Absent k e]> out | None => out end) !! p = out !! p)
        by (destruct e; [by rewrite lookup_insert_ne|done]).
      rewrite Eo in H1, H2. split; [done|]. intros Hp w' [[= -> ->]|Hin]%elem_of_cons; [done|by apply H2].
Qed.

(** The listing as a map from paths. *)
Lemma catalogue_lookup s v c :
  catalogue s v = Ok c ->
  exists w out, walk_vault s v = Ok w /\ cat_files c = (btree_iter out).*2
    /\ (forall p k, out !! p = Some k -> kn_path k = p)
    /\ forall p, out !! p = match get_file p (index s) with
                          | Some e => Some (known_of Local p e)
                          | None => match resolve s w p with Ok (Some e) => Some (known_of Absent p e) | _ => None end
                          end
              /\ (get_file p (index s) = None -> is_ok (resolve s w p) = true).
Proof.
  unfold catalogue, rbind. destruct (list_local s) as [here|] eqn:Eh; [|done].
  destruct (walk_vault s v) as [w|] eqn:Ew; [|done]. destruct (list_absent _ _ _) as [out|] eqn:Ea; [|done].
  intros [= <-]. exists w, out. split; [done|]. split; [done|].
  assert (Hp : forall p, out !! p = match get_file p (index s) with
                          | Some e => Some (known_of Local p e)
                          | None => match resolve s w p with Ok (Some e) => Some (known_of Absent p e) | _ => None end
                          end
              /\ (get_file p (index s) = None -> is_ok (resolve s w p) = true)).
  { intros p. destruct (list_absent_spec s _ _ _ p Ea (NoDup_btree_keys _)) as [H1 H2].
    rewrite (list_local_spec _ _ p Eh) in H1, H2. unfold resolve. destruct (get_file p (index s)) as [e|]; [by split|].
    cbn in H1, H2. unfold absent_word in H1. destruct (latest w !! p) as [word|] eqn:El.
    - split; [|intros _; apply (H2 eq_refl word); by apply elem_of_btree_iter].
      rewrite H1. destruct (list_find _ _) as [[i [k w']]|] eqn:Ef.
      + apply list_find_Some in Ef as (Hi & Hk & _). cbn in Hk. subst k.
        apply list_elem_of_lookup_2, elem_of_btree_iter in Hi. by simplify_eq.
      + exfalso. apply list_find_None in Ef. rewrite Forall_forall in Ef. apply (Ef (p, word)); [|done].
        by apply elem_of_btree_iter.
    - split; [|done]. rewrite H1. destruct (list_find _ _) as [[i [k w']]|] eqn:Ef; [|done].
      apply list_find_Some in Ef as (Hi & Hk & _). cbn in Hk. subst k.
      apply list_elem_of_lookup_2, elem_of_btree_iter in Hi. congruence. }
  split; [|done]. intros p k Hk. destruct (Hp p) as [H1 _]. rewrite Hk in H1.
  destruct (get_file p (index s)); [by injection H1 as ->|]. destruct (resolve s w p) as [[e|]|]; try done.
  by injection H1 as ->.
Qed.

Lemma listed_lookup (out : gmap string Known) k :
  (forall p k, out !! p = Some k -> kn_path k = p) -> k ∈ (btree_iter out).*2 <-> out !! kn_path k = Some k.
Proof.
  intros Hp. rewrite list_elem_of_fmap. split.
  - intros ([p k'] & -> & Hin). apply elem_of_btree_iter in Hin. cbn. by rewrite (Hp _ _ Hin).
  - intros Hk. exists (kn_path k, k). split; [done|]. by apply elem_of_btree_iter.
Qed.

(** The listing and the resolution of a path tell the same story: every file
    of the index is listed as here, with its own size; a path that is not here is
    listed exactly when its chunks resolve, with the size of the version they
    make up; and no path is listed twice. *)
Theorem listing_agrees_with_resolution s v c :
  catalogue s v = Ok c ->
  NoDup (kn_path <$> cat_files c)
  /\ forall p, match get_file p (index s) with
              | Some e => known_of Local p e ∈ cat_files c
              | None =>
                  match chunks_for s v p with
                  | Ok (Some cs) => exists e, cs = fe_chunks e /\ known_of Absent p e ∈ cat_files c
                  | Ok None => forall k, k ∈ cat_files c -> kn_path k <> p
                  | Err _ => False
                  end
              end.
Proof.
  intros (w & out & Ew & Ef & Hk & Hp)%catalogue_lookup. rewrite Ef. split.
  - assert (E : kn_path <$> (btree_iter out).*2 = (btree_iter out).*1).
    { rewrite <- list_fmap_compose. apply list_fmap_ext. intros i [p k] Hi.
      apply list_elem_of_lookup_2, elem_of_btree_iter in Hi. cbn. by apply Hk. }
    rewrite E. apply NoDup_btree_keys.
  - intros p. destruct (Hp p) as [H1 H2]. unfold chunks_for, rbind. rewrite Ew.
    destruct (get_file p (index s)) as [e|] eqn:Eg.
    + by apply listed_lookup.
    + specialize (H2 eq_refl). destruct (resolve s w p) as [[e|]|]; [| |done].
      * exists e. split; [done|]. apply listed_lookup; [done|]. exact H1.
      * intros k Hin Hpath. apply listed_lookup in Hin; [|done]. rewrite Hpath, H1 in Hin. done.
Qed.

(** ** The latest version *)

(** Entries of one path, all covered by one of them. *)
Definition latest_of (p : string) (m : LogEntry) (es : list LogEntry) : Prop :=
  forall e, e ∈ es -> op_path (operation e) = p ->
    VV.covers (op_version (operation m)) (op_version (operation e))
    /\ (VV.same (op_version (operation e)) (op_version (operation m)) -> file_of (operation e) = file_of (operation m)).

Lemma record_other words p q v f : p <> q -> record words q v f !! p = words !! p.
Proof.
  intros Hne. unfold record. destruct (words !! q) as [held|]; [|by rewrite lookup_insert_ne].
  destruct (VV.compare _ _); [done|done|by rewrite lookup_insert_ne|].
  destruct (la_file held), f; try done. by rewrite lookup_insert_ne.
Qed.

Lemma record_entry_cases words e p :
  record_entry words e !! p = words !! p
  \/ (op_path (operation e) = p
      /\ record_entry words e !! p = Some (mkLatest (op_version (operation e)) (file_of (operation e)))).
Proof.
  unfold record_entry. destruct (decide (p = op_path (operation e))) as [->|Hne]; [|left; by apply record_other].
  unfold record. destruct (words !! op_path (operation e)) as [held|] eqn:Ew; [|right; by rewrite lookup_insert_eq].
  rewrite <- Ew. destruct (VV.compare _ _); [by left|by left|right; by rewrite lookup_insert_eq|].
  destruct (la_file held), (file_of (operation e)); try by left. right. by rewrite lookup_insert_eq.
Qed.

(** A word kept for a path is that of an entry read of it. *)
Lemma word_was_read p es held :
  foldl record_entry ∅ es !! p = Some held ->
  exists e, e ∈ es /\ op_path (operation e) = p /\ held = mkLatest (op_version (operation e)) (file_of (operation e)).
Proof.
  induction es as [|e es IH] using rev_ind; [cbn; by rewrite lookup_empty|]. rewrite foldl_app. cbn.
  destruct (record_entry_cases (foldl record_entry ∅ es) e p) as [->|[Hp ->]].
  - intros (e' & He & HH)%IH. exists e'. split; [set_solver|done].
  - intros [= <-]. exists e. split; [set_solver|done].
Qed.

(** A word that covers what follows stays. *)
Lemma word_stays p es words held :
  words !! p = Some held ->
  (forall e, e ∈ es -> op_path (operation e) = p -> VV.covers (la_version held) (op_version (operation e))) ->
  foldl record_entry words es !! p = Some held.
Proof.
  revert words. induction es as [|e es IH]; intros words Hw Hc; [done|]. cbn. apply IH; [|set_solver].
  destruct (decide (p = op_path (operation e))) as [->|Hne]; [|unfold record_entry; by rewrite record_other].
  specialize (Hc e ltac:(set_solver) eq_refl). unfold record_entry, record. rewrite Hw.
  pose proof (VV.compare_spec (op_version (operation e)) (la_version held)) as Hs.
  destruct (VV.compare _ _); [done|done|tauto|tauto].
Qed.

Lemma latest_decides p m es :
  m ∈ es -> op_path (operation m) = p -> latest_of p m es ->
  exists held, foldl record_entry ∅ es !! p = Some held
    /\ VV.same (la_version held) (op_version (operation m)) /\ la_file held = file_of (operation m).
Proof.
  intros (es1 & es2 & ->)%list_elem_of_split Hp Hl. rewrite foldl_app. cbn [foldl].
  enough (Hm : exists held, record_entry (foldl record_entry ∅ es1) m !! p = Some held
    /\ VV.same (la_version held) (op_version (operation m)) /\ la_file held = file_of (operation m)).
  { destruct Hm as (held & Hh & Hs & Hf). exists held. split_and!; [|done|done]. apply word_stays; [done|].
    intros e He Hpe d. destruct (Hl e ltac:(set_solver) Hpe) as [Hc _]. specialize (Hc d). specialize (Hs d). lia. }
  unfold record_entry at 1, record. rewrite Hp. destruct (foldl record_entry ∅ es1 !! p) as [held|] eqn:Eh.
  - destruct (word_was_read _ _ _ Eh) as (e & He & Hpe & ->). cbn [la_version la_file].
    destruct (Hl e ltac:(set_solver) Hpe) as [Hc Hsame].
    pose proof (VV.compare_spec (op_version (operation m)) (op_version (operation e))) as Hs.
    destruct (VV.compare _ _) eqn:Ec; [|tauto| |tauto].
    + eexists. split; [exact Eh|]. cbn. apply VV.compare_equal in Ec.
      assert (Hse : VV.same (op_version (operation e)) (op_version (operation m))) by (intros d; symmetry; apply Ec). split; [done|by apply Hsame].
    + eexists. split; [by rewrite lookup_insert_eq|]. by split.
  - eexists. split; [by rewrite lookup_insert_eq|]. by split.
Qed.

(** What is left of a path that is not here. *)
Lemma resolve_word s w p word e :
  latest w !! p = Some word -> la_file word = Some e -> is_ok (resolve s w p) = true ->
  resolve s w p = Ok (match get_tombstone p (index s) with
                      | Some t => if VV.dominates (tb_version t) (la_version word) then None else Some e
                      | None => Some e
                      end).
Proof.
  intros Hw He. unfold resolve, still_a_file, tombstone, rbind. rewrite Hw, He. destruct (validate p); [|done]. intros _.
  destruct (get_tombstone p (index s)) as [t|]; [|done]. unfold VV.compare.
  by destruct (VV.dominates (tb_version t) _), (VV.dominates _ (tb_version t)).
Qed.

(** C25. A path whose history has a latest version shows it, whatever order the
    chains are read in: when one entry of the logs read covers every other of
    its path, a path that is not here is listed as that entry's file, unless the
    entry is a delete or a delete made here saw it, and then it is not listed. *)
Theorem listing_shows_the_latest s v c p m :
  catalogue s v = Ok c -> get_file p (index s) = None ->
  m ∈ read_log s v -> op_path (operation m) = p -> latest_of p m (read_log s v) ->
  let hidden := match get_tombstone p (index s) with
                | Some t => VV.dominates (tb_version t) (op_version (operation m))
                | None => false
                end in
  match file_of (operation m) with
  | Some e => if hidden then forall k, k ∈ cat_files c -> kn_path k <> p else known_of Absent p e ∈ cat_files c
  | None => forall k, k ∈ cat_files c -> kn_path k <> p
  end.
Proof.
  intros (w & out & Ew & Ef & Hk & Hp)%catalogue_lookup Hg Hm Hpm Hl. cbn zeta.
  destruct (latest_decides p m _ Hm Hpm Hl) as (word & Hw & Hs & Hf). rewrite <- (walk_reads _ _ _ Ew) in Hw.
  destruct (Hp p) as [H1 H2]. rewrite Hg in H1. specialize (H2 Hg). rewrite Ef.
  assert (Hnone : out !! p = None -> forall k, k ∈ (btree_iter out).*2 -> kn_path k <> p).
  { intros Hn k Hin Hpath. apply listed_lookup in Hin; [|done]. congruence. }
  rewrite <- Hf. destruct (la_file word) as [e|] eqn:Ee.
  - rewrite (resolve_word s w p word e Hw Ee H2) in H1. destruct (get_tombstone p (index s)) as [t|].
    + assert (Hd : VV.dominates (tb_version t) (op_version (operation m)) = VV.dominates (tb_version t) (la_version word)).
      { apply Bool.eq_iff_eq_true. rewrite !VV.dominates_covers. unfold VV.covers.
        split; intros Hc d; specialize (Hc d); specialize (Hs d); lia. }
      rewrite Hd. destruct (VV.dominates _ _); [by apply Hnone|]. by apply listed_lookup.
    + by apply listed_lookup.
  - apply Hnone. rewrite H1. unfold resolve, still_a_file. by rewrite Hw, Ee.
Qed.

(** Where histories are concurrent the order the chains are read in decides
    whether a file is listed at all: two rival edits of a path and a delete that
    saw only the first leave a file when the delete is read first, and no file --
    though the second edit was never deleted -- when it is read last.  The
    source says that if either side is a file the listing shows a file. *)
Theorem rival_edit_can_be_hidden words p a b va vb vd :
  words !! p = None ->
  VV.compare va vb = Concurrent -> VV.compare vd va = After -> VV.compare vd vb = Concurrent ->
  la_file <$> (record (record (record words p vd None) p va (Some a)) p vb (Some b) !! p) = Some (Some b)
  /\ la_file <$> (record (record (record words p va (Some a)) p vb (Some b)) p vd None !! p) = Some None.
Proof.
  intros Hn Hab Hda Hdb. unfold record at 3 6. rewrite Hn. split.
  - unfold record at 2. rewrite lookup_insert_eq. cbn [la_version]. rewrite VV.compare_flip, Hda. cbn.
    unfold record. rewrite lookup_insert_eq. cbn. rewrite VV.compare_flip, Hdb. cbn. by rewrite lookup_insert_eq.
  - unfold record at 2. rewrite lookup_insert_eq. cbn. rewrite VV.compare_flip, Hab. cbn.
    unfold record. rewrite lookup_insert_eq. cbn. rewrite Hda. by rewrite lookup_insert_eq.
Qed.

(** ** Removing a file that is not here *)

Lemma collect_ext {E A B} (f g : A -> result E B) l : (forall a, f a = g a) -> collect f l = collect g l.
Proof. intros Hfg. induction l as [|a l IH]; cbn [collect]; [done|]. by rewrite Hfg, IH. Qed.

Lemma walk_vault_appends s s' v w e :
  user s' = user s -> device_keys s' = device_keys s -> segments_list (index s') = segments_list (index s) ->
  pending_entries (index s') = pending_entries (index s) ++ [e] ->
  walk_vault s v = Ok w ->
  walk_vault s' v = Ok (mkWalk (record_entry (latest w) e) (wk_complete w) (wk_left_out w)).
Proof.
  intros Hu Hd Hs Hp. assert (Ho : forall x, open_segment x s' = open_segment x s)
    by (intros x; unfold open_segment, owner_of; by rewrite Hu).
  unfold walk_vault, owner_of, store_device, rbind. rewrite Hu, Hd, Hs, Hp.
  rewrite (collect_ext _ (fun x => open_segment x s) _ Ho).
  assert (Hw : forall ds w0, foldl (walk_chain s' v) w0 ds = foldl (walk_chain s v) w0 ds).
  { intros ds. induction ds as [|d ds IH]; intros w0; [done|]. cbn. rewrite IH. f_equal.
    unfold walk_chain, owner_of. rewrite Hu. by rewrite (collect_ext _ (fun x => open_segment x s) _ Ho). }
  rewrite Hw. destruct (collect _ (drop _ _)) as [bodies|]; [|done]. intros [= <-]. cbn [latest wk_complete wk_left_out].
  by rewrite foldl_app.
Qed.

(** Deleting a file that is only listed takes it off the list: after
    [remove_known] said it deleted a path whose content is not here, the path no
    longer resolves to anything, whatever the other logs in the vault say of the
    versions it was listed by. *)
Theorem removal_hides_the_file now v p s s' :
  log_invariant (index s) -> get_file p (index s) = None -> remove_known now v p s = (Ok true, s') ->
  chunks_for s' v p = Ok None /\ get_file p (index s') = None.
Proof.
  intros Hi Hg. unfold remove_known, bind at 1, gets. cbn [id]. unfold bind at 1, lift, stat, rbind.
  destruct (validate p) as [[]|] eqn:Ev; [|done]. rewrite Hg. unfold bind at 1, lift.
  destruct (walk_vault s v) as [w|] eqn:Ew; [|done]. destruct (latest w !! p) as [word|] eqn:El; [|by intros [=]].
  unfold bind at 1, lift. destruct (still_a_file s p word) as [[e|]|] eqn:Ee; [|by intros [=]|done].
  unfold remove_unheld, bind at 1, lift. rewrite Ev. unfold bind at 1, gets.
  set (base := VV.merge _ _). unfold bind at 1, leave_tombstone, bind at 1, gets, bind at 1, gets, bind at 1, with_index.
  unfold Files.remove_file, drop_entry. set (seq := next_sequence (index s)).
  set (tomb := mkTomb _ now _). set (ix1 := on_ft _ (index s)).
  assert (Hf1 : files (ft ix1) !! p = None) by exact Hg. rewrite Hf1.
  intros [= <-]. split; [|exact Hg].
  set (entry := mkLog seq now _). set (s' := set_index _ _).
  assert (Hpe : pending_entries (index s') = pending_entries (index s) ++ [entry]).
  { unfold pending_entries. cbn. rewrite (btree_iter_insert_max (pending (lt (index s)))).
    - by rewrite fmap_app.
    - destruct (pending (lt (index s)) !! seq) eqn:Eq; [|done]. exfalso.
      assert (Hr : is_Some (pending (lt (index s)) !! seq)) by (rewrite Eq; eauto).
      apply (waiting_range _ Hi) in Hr. unfold seq in Hr. lia.
    - intros k Hk. apply (waiting_range _ Hi) in Hk. change (k <= seq). unfold seq. lia. }
  pose proof (walk_vault_appends s s' v w entry eq_refl eq_refl eq_refl Hpe Ew) as Ew'.
  unfold chunks_for, rbind. rewrite Ew'. unfold resolve. cbn [latest].
  assert (Hc : VV.covers (tb_version tomb) (la_version word)).
  { intros d. cbn. rewrite VV.get_advanced. unfold base. case_decide as Hd; [subst d|]; rewrite VV.get_merge; lia. }
  unfold record_entry, record. cbn [entry operation op_path op_version file_of]. rewrite El.
  pose proof (VV.compare_spec (tb_version tomb) (la_version word)) as Hs.
  change (VV.advanced base (store_device s) seq) with (tb_version tomb).
  destruct (VV.compare (tb_version tomb) (la_version word)) eqn:Ec; [|tauto| |tauto].
  - rewrite El. unfold still_a_file in Ee |- *. destruct (la_file word) as [f|]; [|done].
    unfold tombstone, rbind. rewrite Ev.
    assert (Ht : get_tombstone p (index s') = Some tomb) by (unfold get_tombstone; cbn; by rewrite lookup_insert_eq).
    by rewrite Ht, Ec.
  - by rewrite lookup_insert_eq.
Qed.

End reading.

(** ** A phone that has downloaded nothing *)

Module Phone.

Import Toy ToyCodec StoreSample EngineSample.

Definition photo : FileEntry := mkFile 7 40 9 [60; 61] (VV.advanced ∅ 2 1) 2.
Definition written : LogEntry := mkLog 1 9 (Upsert "photo" photo).
Definition announced : SegmentEnvelope :=
  match create 41 (replicate 24 0) (oplog_root keys) (user_id keys) other None [written] with
  | Ok e => e
  | Err _ => mkEnvelope 0 0 0 0 0 None [] []
  end.

Definition phone : Store := mkStore empty_index ∅ Chunker.small_chunker keys (mkDeviceKeys [1]) None.
Definition phone_vault : Vault := (put_segment (fun _ => 1) announced (open (fun _ => 1) fresh_vault)).2.
Definition phone_list : Catalogue := mkCatalogue [known_of Absent "photo" photo] true [].

Definition rid_of_it : Store := (remove_known 50 phone_vault "photo" phone).2.

End Phone.

Import Toy ToyCodec Phone.

Lemma phone_lists : catalogue phone phone_vault = Ok phone_list.
Proof. vm_compute. reflexivity. Qed.

Lemma listing_agrees_with_resolution_witness :
  exists e, [60; 61] = fe_chunks e /\ known_of Absent "photo" e ∈ cat_files phone_list.
Proof.
  pose proof (proj2 (listing_agrees_with_resolution phone phone_vault phone_list phone_lists) "photo"%string) as H.
  assert (E1 : get_file "photo" (index phone) = None) by (vm_compute; reflexivity).
  assert (E2 : chunks_for phone phone_vault "photo" = Ok (Some [60; 61])) by (vm_compute; reflexivity).
  rewrite E1, E2 in H. exact H.
Defined.

Lemma listing_shows_the_latest_witness : known_of Absent "photo" photo ∈ cat_files phone_list.
Proof.
  assert (E : read_log phone phone_vault = [written]) by (vm_compute; reflexivity).
  refine (listing_shows_the_latest phone phone_vault phone_list "photo" written phone_lists _ _ _ _).
  - vm_compute. reflexivity.
  - rewrite E. by left.
  - reflexivity.
  - rewrite E. intros e ->%list_elem_of_singleton _. split; [intros d; reflexivity|done].
Defined.

Lemma rival_edit_can_be_hidden_witness :
  la_file <$> (record (record (record ∅ "f" (VV.advanced (VV.advanced ∅ 1 1) 3 1) None) "f" (VV.advanced ∅ 1 1) (Some photo))
     "f" (VV.advanced ∅ 2 1) (Some photo) !! "f") = Some (Some photo)
  /\ la_file <$> (record (record (record ∅ "f" (VV.advanced ∅ 1 1) (Some photo)) "f" (VV.advanced ∅ 2 1) (Some photo))
     "f" (VV.advanced (VV.advanced ∅ 1 1) 3 1) None !! "f") = Some None.
Proof.
  apply (rival_edit_can_be_hidden ∅ "f" photo photo (VV.advanced ∅ 1 1) (VV.advanced ∅ 2 1)
    (VV.advanced (VV.advanced ∅ 1 1) 3 1)); vm_compute; reflexivity.
Defined.

Lemma removal_hides_the_file_witness :
  chunks_for phone phone_vault "photo" = Ok (Some [60; 61]) /\ chunks_for rid_of_it phone_vault "photo" = Ok None.
Proof.
  split; [vm_compute; reflexivity|].
  refine (proj1 (removal_hides_the_file 50 phone_vault "photo" phone rid_of_it empty_log_invariant _ _)).
  - vm_compute. reflexivity.
  - unfold rid_of_it. assert (E : (remove_known 50 phone_vault "photo" phone).1 = Ok true) by (vm_compute; reflexivity).
    destruct (remove_known 50 phone_vault "photo" phone) as [r s']. cbn in *. by rewrite E.
Defined.
