(* ===== verification/Converge.v ===== *)
(** * Converge: when devices agree

    The property [crates/itsanas-sync/src/lib.rs] names as the one that matters:
    devices that have exchanged everything hold the same files, whatever the
    order.  [concurrent_edits_converge] shows it for the rival versions of one
    file, delivered in any order and any number of times, on stores that ran
    the real [apply_entry].  [mixed_history_diverges] and
    [deleted_sibling_comes_back] are the limits: histories that mix causal and
    concurrent edits of one path, for which the order of delivery shows. *)

From S2P Require Import Prelude Version Ids Path Conflict Crypto Oplog Chunker IndexState Files.
From S2P Require Import Ledger Store Engine.

(** Delivering operations one after the other, whoever's chain each is from. *)
Fixpoint deliver `{!Primitives} (out : Outside) (owner : UserId)
  (todo : list (DeviceId * LogEntry)) : M Syncing SyncError (list Outcome) :=
  match todo with
  | [] => ret []
  | (device, entry) :: rest =>
      o <-! apply_entry out device entry owner;
      os <-! deliver out owner rest;
      ret (o :: os)
  end.

Definition upsert_of (path : string) (e : FileEntry) : LogEntry := mkLog 0 0 (Upsert path e).

Definition upserts_of (path : string) (todo : list (DeviceId * FileEntry))
  : list (DeviceId * LogEntry) :=
  prod_map (fun d => d) (upsert_of path) <$> todo.

Definition merge_all (path : string) (es : list FileEntry) (t : Tree) : Tree :=
  foldl (fun t e => (merge_upsert path e t).2) t es.

(** ** Rival versions of one file *)

Section rivals.
Context (path : string) (rivals : list FileEntry).

(** Pairwise concurrent versions that conflict names tell apart. *)
Definition pairwise_rivals : Prop :=
  forall a b, a ∈ rivals -> b ∈ rivals -> a = b
  \/ (VV.compare (fe_version a) (fe_version b) = Concurrent
      /\ sibling_of path a <> sibling_of path b).

Context (Hrivals : pairwise_rivals).

Lemma rivals_authorship a b : a ∈ rivals -> b ∈ rivals -> a <> b -> authorship a <> authorship b.
Proof.
  intros Ha Hb Hne E. destruct (Hrivals a b Ha Hb) as [?|[_ Hs]]; [done|].
  apply Hs. unfold sibling_of. by rewrite E.
Qed.

Definition beats (w e : FileEntry) : Prop :=
  wins_original_path (authorship w) (authorship e) = true.

Lemma beats_trans a b c : beats a b -> beats b c -> beats a c.
Proof. unfold beats. rewrite !wins_spec. lia. Qed.

Lemma beats_asym a b : beats a b -> ~ beats b a.
Proof. unfold beats. rewrite !wins_spec. lia. Qed.

Lemma beats_total a b : a ∈ rivals -> b ∈ rivals -> a <> b -> beats a b \/ beats b a.
Proof.
  intros Ha Hb Hne. pose proof (rivals_authorship a b Ha Hb Hne) as Hx.
  unfold beats. rewrite !wins_spec.
  destruct (authorship a) as [a1 a2], (authorship b) as [b1 b2]; cbn [fst snd].
  destruct (decide (a1 = b1)) as [->|]; [|lia].
  destruct (decide (a2 = b2)) as [->|]; [done|lia].
Qed.

(** The tree after the versions [l] have arrived on [t0]: the one that beats
    all others at the path, each of the others at its sibling. *)
Record merged (l : list FileEntry) (w : FileEntry) (t0 t : Tree) : Prop := {
  m_in : w ∈ l;
  m_beats : forall x, x ∈ l -> x <> w -> beats w x;
  m_path : live_files t !! path = Some w /\ buried t !! path = None;
  m_loser : forall x, x ∈ l -> x <> w ->
    live_files t !! sibling_of path x = Some x /\ buried t !! sibling_of path x = None;
  m_rest : forall q, q <> path -> (forall x, x ∈ l -> x <> w -> q <> sibling_of path x) ->
    live_files t !! q = live_files t0 !! q /\ buried t !! q = buried t0 !! q;
}.

Lemma merged_unique l l' w w' t0 t t' :
  l ⊆ rivals -> l' ⊆ l -> l ⊆ l' -> merged l w t0 t -> merged l' w' t0 t' -> t = t'.
Proof.
  intros Hl Hsub Hsup [A1 A2 A3 A4 A5] [B1 B2 B3 B4 B5].
  assert (w = w') as <-.
  { destruct (decide (w = w')) as [|Hne]; [done|]. exfalso.
    apply (beats_asym w w'); [apply A2|apply B2]; auto. }
  assert (H : forall q, live_files t !! q = live_files t' !! q /\ buried t !! q = buried t' !! q).
  { intros q. destruct (decide (q = path)) as [->|Hq]; [naive_solver congruence|].
    destruct (decide (Exists (fun x => x <> w /\ q = sibling_of path x) l)) as [He|He].
    - apply Exists_exists in He as (x & Hx & Hne & ->).
      destruct (A4 x Hx Hne) as [-> ->], (B4 x (Hsup x Hx) Hne) as [-> ->]. done.
    - assert (Hno : forall x, x ∈ l -> x <> w -> q <> sibling_of path x).
      { intros x Hx Hne ->. apply He, Exists_exists. eauto. }
      destruct (A5 q Hq Hno) as [-> ->]. destruct (B5 q Hq) as [-> ->]; [|done]. auto. }
  destruct t, t'. f_equal; apply map_eq; apply H.
Qed.

Lemma compare_refl v : VV.compare v v = Equal.
Proof. apply VV.compare_equal. intros d. done. Qed.

(** [put] at one path, read at another. *)
Lemma put_at p e t : live_files (put p e t) !! p = Some e /\ buried (put p e t) !! p = None.
Proof. cbn. by rewrite lookup_insert_eq, lookup_delete_eq. Qed.
Lemma put_ne p q e t :
  p <> q -> live_files (put p e t) !! q = live_files t !! q /\ buried (put p e t) !! q = buried t !! q.
Proof. intros Hne. cbn. by rewrite lookup_insert_ne, lookup_delete_ne. Qed.

Lemma sibling_ne_path e : sibling_of path e <> path.
Proof. apply sibling_path_ne. Qed.

Lemma sibling_ne a b :
  a ∈ rivals -> b ∈ rivals -> a <> b -> sibling_of path a <> sibling_of path b.
Proof. intros Ha Hb Hne. by destruct (Hrivals a b Ha Hb) as [?|[_ ?]]. Qed.

Context (t0 : Tree) (Hfree : forall x, x ∈ rivals -> live_files t0 !! sibling_of path x = None).

(** No version lives at the sibling of the winner or of a newcomer. *)
Lemma sibling_free l w t x :
  l ⊆ rivals -> merged l w t0 t -> x ∈ rivals -> (x = w \/ x ∉ l) ->
  live_files t !! sibling_of path x = None.
Proof.
  intros Hl [A1 A2 A3 A4 A5] Hx Hcase.
  destruct (A5 (sibling_of path x)) as [-> _]; [apply sibling_ne_path| |by apply Hfree].
  intros z Hz Hzw. apply sibling_ne; [done|by apply Hl|]. set_solver.
Qed.

(** The newcomer takes the path. *)
Lemma merged_new_winner l w t y :
  l ⊆ rivals -> merged l w t0 t -> y ∈ rivals -> beats y w -> y ∉ l ->
  merged (y :: l) y t0 (put path y (put (sibling_of path w) w t)).
Proof.
  intros Hl Hm Hy Hb Hyl. pose proof (m_in _ _ _ _ Hm) as Hw.
  assert (Hws : sibling_of path w <> path) by apply sibling_ne_path.
  destruct Hm as [A1 A2 A3 A4 A5]. split.
  - left.
  - intros x Hx Hne. apply elem_of_cons in Hx as [->|Hx]; [done|].
    destruct (decide (x = w)) as [->|]; [done|]. apply (beats_trans y w x); auto.
  - apply put_at.
  - intros x Hx Hne. apply elem_of_cons in Hx as [->|Hx]; [done|].
    destruct (put_ne path (sibling_of path x) y (put (sibling_of path w) w t)) as [-> ->];
      [by pose proof (sibling_ne_path x)|].
    destruct (decide (x = w)) as [->|Hxw]; [apply put_at|].
    destruct (put_ne (sibling_of path w) (sibling_of path x) w t) as [-> ->]; [|by apply A4].
    apply sibling_ne; auto.
  - intros q Hq Hno.
    destruct (put_ne path q y (put (sibling_of path w) w t)) as [-> ->]; [done|].
    destruct (put_ne (sibling_of path w) q w t) as [-> ->].
    { intros E. apply (Hno w); [by right| |done]. intros ->. by apply Hyl. }
    apply A5; [done|]. intros x Hx Hne. apply Hno; [by right|]. intros ->. by apply Hyl.
Qed.

(** The newcomer moves aside. *)
Lemma merged_new_loser l w t y :
  l ⊆ rivals -> merged l w t0 t -> y ∈ rivals -> beats w y -> y ∉ l ->
  merged (y :: l) w t0 (put (sibling_of path y) y t).
Proof.
  intros Hl [A1 A2 A3 A4 A5] Hy Hb Hyl. split.
  - by right.
  - intros x [->|Hx]%elem_of_cons Hne; auto.
  - destruct (put_ne (sibling_of path y) path y t) as [-> ->]; [apply sibling_ne_path|done].
  - intros x [->|Hx]%elem_of_cons Hne; [apply put_at|].
    destruct (put_ne (sibling_of path y) (sibling_of path x) y t) as [-> ->]; [|by apply A4].
    apply sibling_ne; auto. intros ->. by apply Hyl.
  - intros q Hq Hno. destruct (put_ne (sibling_of path y) q y t) as [-> ->].
    { intros E. apply (Hno y); [by left| |done]. intros ->. by apply (beats_asym w w). }
    apply A5; [done|]. intros x Hx Hne. apply Hno; [by right|done].
Qed.

(** A version that has arrived before. *)
Lemma merged_again l w t y : merged l w t0 t -> y ∈ l -> merged (y :: l) w t0 t.
Proof.
  intros [A1 A2 A3 A4 A5] Hy. split; [by right|..].
  - intros x [->|Hx]%elem_of_cons Hne; auto.
  - done.
  - intros x [->|Hx]%elem_of_cons Hne; auto.
  - intros q Hq Hno. apply A5; [done|]. intros x Hx. apply Hno. by right.
Qed.

Lemma merged_step l w t y :
  l ⊆ rivals -> merged l w t0 t -> y ∈ rivals ->
  exists w', merged (y :: l) w' t0 (merge_upsert path y t).2.
Proof.
  intros Hl Hm Hy. pose proof (m_in _ _ _ _ Hm) as Hw.
  unfold merge_upsert. rewrite (proj1 (m_path _ _ _ _ Hm)).
  destruct (decide (y = w)) as [->|Hne].
  { rewrite compare_refl. exists w. by apply merged_again. }
  destruct (Hrivals w y) as [->|[Hc _]]; [auto|done|done|]. rewrite Hc.
  unfold merge_conflict, loser_of.
  destruct (wins_original_path (authorship y) (authorship w)) eqn:Hwin.
  - assert (Hyl : y ∉ l).
    { intros Hyl. apply (beats_asym w y); [|done]. by apply (m_beats _ _ _ _ Hm). }
    rewrite (sibling_free l w t w) by auto. exists y. by apply merged_new_winner.
  - assert (Hb : beats w y).
    { destruct (beats_total w y) as [|Hx]; auto. unfold beats in Hx. congruence. }
    destruct (decide (y ∈ l)) as [Hyl|Hyl].
    + destruct (m_loser _ _ _ _ Hm y Hyl Hne) as [-> _].
      rewrite compare_refl, bool_decide_eq_true_2 by done. exists w. by apply merged_again.
    + rewrite (sibling_free l w t y) by auto. exists w. by apply merged_new_loser.
Qed.

Lemma merge_all_merged l w t es :
  l ⊆ rivals -> merged l w t0 t -> es ⊆ rivals ->
  exists l' w', merged l' w' t0 (merge_all path es t) /\ l' ⊆ rivals
    /\ forall x, x ∈ l' <-> x ∈ l \/ x ∈ es.
Proof.
  revert l w t. induction es as [|y es IH]; intros l w t Hl Hm Hes.
  { exists l, w. split_and!; [done|done|set_solver]. }
  assert (Hy : y ∈ rivals) by (apply Hes; left).
  destruct (merged_step l w t y Hl Hm Hy) as [w1 Hm1].
  destruct (IH (y :: l) w1 (merge_upsert path y t).2) as (l' & w' & Hm' & Hl' & Hin); [set_solver|exact Hm1|set_solver|].
  exists l', w'. split_and!; [done|done|]. intros x. rewrite Hin. set_solver.
Qed.

Context (Hpath : live_files t0 !! path = None /\ buried t0 !! path = None).

Lemma merged_first y : y ∈ rivals -> merged [y] y t0 (merge_upsert path y t0).2.
Proof.
  intros Hy. unfold merge_upsert. destruct Hpath as [-> ->]. split.
  - left.
  - set_solver.
  - apply put_at.
  - set_solver.
  - intros q Hq _. by apply put_ne.
Qed.

(** The merge of any sequence of the rivals depends on which of them arrived,
    not on the order or on how often. *)
Lemma merge_all_converges es es' :
  es ⊆ rivals -> es ⊆ es' -> es' ⊆ es -> merge_all path es t0 = merge_all path es' t0.
Proof.
  intros Hes H1 H2. destruct es as [|a es], es' as [|b es']; [done|set_solver..|].
  assert (Ha : a ∈ rivals) by (apply Hes; left).
  assert (Hb : b ∈ rivals) by (apply Hes, H2; left).
  destruct (merge_all_merged [a] a (merge_upsert path a t0).2 es) as (l & w & Hm & Hl & Hin);
    [set_solver|by apply merged_first|set_solver|].
  destruct (merge_all_merged [b] b (merge_upsert path b t0).2 es') as (l' & w' & Hm' & Hl' & Hin');
    [set_solver|by apply merged_first|set_solver|].
  apply (merged_unique l l' w w' t0); [done|set_solver|set_solver|done|done].
Qed.

(** No version is lost, and which one keeps the path is settled by who wrote it. *)
Lemma merge_all_keeps_all es :
  es <> [] -> es ⊆ rivals -> exists w, w ∈ es /\ live_files (merge_all path es t0) !! path = Some w
    /\ forall x, x ∈ es -> x <> w -> beats w x /\ live_files (merge_all path es t0) !! sibling_of path x = Some x.
Proof.
  intros Hne Hes. destruct es as [|a es]; [done|]. assert (Ha : a ∈ rivals) by (apply Hes; left).
  destruct (merge_all_merged [a] a (merge_upsert path a t0).2 es) as (l & w & Hm & _ & Hin);
    [set_solver|by apply merged_first|set_solver|].
  assert (Hl : forall x, x ∈ a :: es <-> x ∈ l) by (intros x; rewrite Hin; set_solver).
  exists w. split_and!; [apply Hl, Hm|apply Hm|]. intros x Hx%Hl Hxw. split; [by apply Hm|]. by apply (m_loser _ _ _ _ Hm).
Qed.

End rivals.

(** ** On real stores *)

Section stores.
Context `{!Primitives} (path : string) (rivals : list FileEntry).

(** Every rival's name and content can be taken. *)
Record ready (s : Store) : Prop := {
  r_path : validate path = Ok tt;
  r_siblings : forall x, x ∈ rivals -> validate (sibling_of path x) = Ok tt;
  r_budget : budget s = None;
  r_chunks : forall x, x ∈ rivals -> chunks_here s x;
  r_here : forall l, live_files (tree_of s) !! path = Some l -> l ∈ rivals;
}.

(** What is at the path stays one of the rivals. *)
Lemma merge_upsert_path y t l :
  live_files (merge_upsert path y t).2 !! path = Some l -> l = y \/ live_files t !! path = Some l.
Proof.
  assert (Hput : live_files (put path y t) !! path = Some l -> l = y).
  { rewrite (proj1 (put_at path y t)). by intros [= <-]. }
  unfold merge_upsert. destruct (live_files t !! path) as [l'|] eqn:Hl.
  - destruct (VV.compare (fe_version l') (fe_version y)); cbn [snd]; auto; [rewrite Hl; auto..|].
    unfold merge_conflict. destruct (match live_files t !! _ with Some _ => _ | None => _ end);
      cbn [snd]; [rewrite Hl; auto|].
    destruct (wins_original_path _ _).
    + rewrite (proj1 (put_at path y _)). intros [= <-]. auto.
    + destruct (put_ne (sibling_of path (loser_of y l')) path (loser_of y l') t) as [-> _];
        [apply sibling_path_ne|]. rewrite Hl. auto.
  - destruct (buried t !! path) as [d|]; [|auto].
    destruct (VV.compare (tb_version d) (fe_version y)); cbn [snd]; auto; rewrite Hl; auto.
Qed.

Lemma ready_unobstructed s e :
  ready s -> e ∈ rivals -> unobstructed (upsert_of path e) s.
Proof.
  intros [H1 H2 H3 H4 H5] He. split; [done|]. cbn. split_and!; [done|by apply H4|].
  intros l Hl _. apply H2. unfold loser_of. destruct (wins_original_path _ _); [by apply H5|done].
Qed.

Lemma deliver_merges out owner (todo : list (DeviceId * FileEntry)) y :
  ready (local y) -> todo.*2 ⊆ rivals ->
  exists os y', deliver out owner (upserts_of path todo) y = (Ok os, y') /\ ready (local y')
  /\ tree_of (local y') = merge_all path todo.*2 (tree_of (local y)).
Proof.
  revert y. induction todo as [|[d e] todo IH]; intros y Hr Hall; [by exists [], y|].
  assert (He : e ∈ rivals) by (apply Hall; left).
  destruct (apply_entry out d (upsert_of path e) owner y) as [r y1] eqn:Ha.
  pose proof Ha as Hx. apply apply_entry_lands in Hx as (a & -> & Hk & Hl & Hs).
  specialize (Hs (ready_unobstructed _ _ Hr He)).
  destruct a as [a|]; [|done].
  assert (Ht : (merge_upsert path e (tree_of (local y))).2 = tree_of (local y1)).
  { unfold merge_entry in Hl. cbn in Hl. destruct a; try done; by rewrite Hl. }
  assert (Hr1 : ready (local y1)).
  { destruct Hr as [H1 H2 H3 H4 H5]. split; [done|done| | |].
    - by rewrite (keeps_budget _ _ Hk).
    - intros x Hx. apply (Forall_impl _ _ _ (H4 x Hx)). intros c.
      apply keeps_has_chunk, (keeps_blobs _ _ Hk).
    - intros l. rewrite <- Ht. intros [->|]%merge_upsert_path; auto. }
  destruct (IH y1 Hr1) as (os & y' & Hd & Hr' & Ht');
    [cbn in Hall; set_solver|].
  eexists (_ :: os), y'. cbn [upserts_of fmap list_fmap prod_map fst snd deliver].
  fold (upserts_of path todo). unfold bind, ret. rewrite Ha. cbn [rbind]. rewrite Hd.
  split_and!; [done|done|]. rewrite Ht'. cbn. by rewrite Ht.
Qed.

End stores.

Lemma diff_same s s' : files (ft (index s)) = files (ft (index s')) -> diff s s' = [].
Proof.
  intros E. unfold diff. rewrite E. apply app_nil. split.
  - apply elem_of_nil_inv. intros x. rewrite list_elem_of_omap. intros ([p e] & Hin & Hx).
    apply elem_of_btree_iter in Hin. cbn [fst snd] in Hx. rewrite Hin, N.eqb_refl in Hx. done.
  - apply elem_of_nil_inv. intros x. rewrite list_elem_of_omap. intros ([p e] & Hin & Hx).
    apply elem_of_btree_iter in Hin. cbn [fst snd] in Hx. by rewrite Hin in Hx.
Qed.

(** Who wrote it, then that writer's sequence number. *)
Definition outranked (x w : FileEntry) : Prop :=
  (authorship x).1 < (authorship w).1
  \/ ((authorship x).1 = (authorship w).1 /\ (authorship x).2 < (authorship w).2).

(** C1. Rival versions of a file converge.  Take some versions of one path that
    are pairwise concurrent and whose conflict names differ.  Two devices start
    from the same tree, in which neither the path nor any of the conflict names
    is taken; on each, the path and the conflict names are valid, the chunks of
    the versions are on disk and no ceiling is set ([ready]).  They receive the
    same set of versions, in any order and any number of times each.  Then both
    finish without an error and end with the same tree, tombstones included, so
    [diff] finds nothing: at the path is the version of the device with the
    greatest id, and of one device the one with the greatest sequence number;
    every other version is whole under its own conflict name. *)
Theorem concurrent_edits_converge `{!Primitives} (out out' : Outside) (owner : UserId)
  (path : string) (rivals : list FileEntry) (todo todo' : list (DeviceId * FileEntry))
  (y z : Syncing) :
  rivals <> [] ->
  pairwise_rivals path rivals -> ready path rivals (local y) -> ready path rivals (local z) ->
  tree_of (local y) = tree_of (local z) ->
  live_files (tree_of (local y)) !! path = None -> buried (tree_of (local y)) !! path = None ->
  (forall x, x ∈ rivals -> live_files (tree_of (local y)) !! sibling_of path x = None) ->
  todo.*2 ⊆ rivals -> rivals ⊆ todo.*2 -> todo'.*2 ⊆ rivals -> rivals ⊆ todo'.*2 ->
  exists os os' y' z' w,
    deliver out owner (upserts_of path todo) y = (Ok os, y')
    /\ deliver out' owner (upserts_of path todo') z = (Ok os', z')
    /\ tree_of (local y') = tree_of (local z')
    /\ diff (local y') (local z') = []
    /\ w ∈ rivals /\ live_files (tree_of (local y')) !! path = Some w
    /\ forall x, x ∈ rivals -> x <> w ->
         outranked x w /\ live_files (tree_of (local y')) !! sibling_of path x = Some x.
Proof.
  intros Hne Hriv Hy Hz Htree Hp Hb Hfree H1 H2 H3 H4.
  destruct (deliver_merges path rivals out owner todo y Hy H1) as (os & y' & R1 & _ & T1).
  destruct (deliver_merges path rivals out' owner todo' z Hz H3) as (os' & z' & R2 & _ & T2).
  rewrite <- Htree in T2.
  assert (E : tree_of (local y') = tree_of (local z')).
  { rewrite T1, T2. apply (merge_all_converges path rivals); auto; by etransitivity. }
  assert (Hsome : todo.*2 <> []) by (intros E0; rewrite E0 in H2; destruct rivals; [done|set_solver]).
  destruct (merge_all_keeps_all path rivals Hriv (tree_of (local y)) Hfree (conj Hp Hb) _ Hsome H1) as (w & Hw & Hlive & Hrest).
  rewrite <- T1 in Hlive, Hrest.
  exists os, os', y', z', w. split_and!; [done|done|done| |by apply H1|done|].
  { apply diff_same. by injection E. }
  intros x Hx Hxw. destruct (Hrest x (H2 x Hx) Hxw) as [Hbeats Hsib]. split; [|done].
  unfold beats in Hbeats. rewrite wins_spec in Hbeats. unfold outranked. lia.
Qed.

(** ** Where the order shows *)

(** Stores whose files differ in one more file on the left. *)
Lemma diff_one_more s s' p e x :
  files (ft (index s)) = <[p := e]> (files (ft (index s'))) -> files (ft (index s')) !! p = None ->
  x ∈ diff s s' <-> x = OnlyOnLeft p.
Proof.
  intros E Hp. unfold diff. rewrite E, elem_of_app, !list_elem_of_omap. split.
  - intros [([q e1] & Hin & Hx)|([q e1] & Hin & Hx)]; apply elem_of_btree_iter in Hin; cbn [fst snd] in Hx.
    + destruct (decide (q = p)) as [->|Hq]; [rewrite Hp in Hx; by injection Hx|].
      rewrite lookup_insert_ne in Hin by done. rewrite Hin, N.eqb_refl in Hx. done.
    + assert (q <> p) by congruence. rewrite lookup_insert_ne, Hin in Hx by done. done.
  - intros ->. left. exists (p, e). cbn [fst snd]. rewrite Hp. split; [|done]. apply elem_of_btree_iter. apply lookup_insert_eq.
Qed.

Section mixed.
Context (path : string) (a e b : FileEntry) (t : Tree).
Context (Hae : VV.compare (fe_version a) (fe_version e) = Before).
Context (Hab : VV.compare (fe_version a) (fe_version b) = Concurrent).
Context (Heb : VV.compare (fe_version e) (fe_version b) = Concurrent).
Context (Hbeats : outranked a b).
Context (Hsa : sibling_of path a <> sibling_of path b) (Hse : sibling_of path a <> sibling_of path e).
Context (Hbs : sibling_of path b <> sibling_of path e).
Context (Hp : live_files t !! path = None) (Hd : buried t !! path = None).
Context (Hfree : forall x, x ∈ [a; e; b] -> live_files t !! sibling_of path x = None).

Lemma later_side_wins : wins_original_path (authorship e) (authorship b) = negb (wins_original_path (authorship b) (authorship e)).
Proof.
  apply (wins_original_path_total_order _ _ (authorship e)). intros E. apply Hbs. unfold sibling_of. by rewrite E.
Qed.

Lemma merge_upsert_rival l x u :
  live_files u !! path = Some l -> VV.compare (fe_version l) (fe_version x) = Concurrent ->
  live_files u !! sibling_of path (loser_of x l) = None ->
  live_files (merge_upsert path x u).2
  = (if wins_original_path (authorship x) (authorship l) then <[path := x]> else fun m => m)
      (<[sibling_of path (loser_of x l) := loser_of x l]> (live_files u)).
Proof.
  intros Hl Hc Hs. unfold merge_upsert, merge_conflict. rewrite Hl, Hc, Hs. cbn [snd]. by destruct (wins_original_path _ _).
Qed.

Lemma merge_upsert_later l x u :
  live_files u !! path = Some l -> VV.compare (fe_version l) (fe_version x) = Before ->
  live_files (merge_upsert path x u).2 = <[path := x]> (live_files u).
Proof. intros Hl Hc. unfold merge_upsert. by rewrite Hl, Hc. Qed.

Lemma merge_upsert_new : live_files (merge_upsert path a t).2 = <[path := a]> (live_files t).
Proof. unfold merge_upsert. by rewrite Hp, Hd. Qed.

(** Meeting the conflict before the edit that settles it leaves one file more. *)
Lemma merge_all_mixed :
  live_files (merge_all path [a; b; e] t) = <[sibling_of path a := a]> (live_files (merge_all path [a; e; b] t))
  /\ live_files (merge_all path [a; e; b] t) !! sibling_of path a = None.
Proof.
  assert (Hba : wins_original_path (authorship b) (authorship a) = true) by (apply wins_spec; unfold outranked in Hbeats; lia).
  pose proof (Hfree a ltac:(set_solver)) as Fa. pose proof (Hfree e ltac:(set_solver)) as Fe. pose proof (Hfree b ltac:(set_solver)) as Fb.
  pose proof (sibling_ne_path path a). pose proof (sibling_ne_path path e). pose proof (sibling_ne_path path b).
  unfold merge_all. cbn [foldl]. pose proof merge_upsert_new as E1. set (t1 := (merge_upsert path a t).2) in *.
  assert (E2 : live_files (merge_upsert path b t1).2 = <[path := b]> (<[sibling_of path a := a]> (live_files t1))).
  { rewrite (merge_upsert_rival a b t1); unfold loser_of; rewrite ?Hba, ?E1, ?lookup_insert_eq, ?lookup_insert_ne by done; done. }
  assert (E3 : live_files (merge_upsert path e t1).2 = <[path := e]> (live_files t1)).
  { apply (merge_upsert_later a); [by rewrite E1, lookup_insert_eq|done]. }
  set (t2 := (merge_upsert path b t1).2) in *. set (t3 := (merge_upsert path e t1).2) in *.
  pose proof later_side_wins as Hw. assert (Hbe : VV.compare (fe_version b) (fe_version e) = Concurrent) by by rewrite VV.compare_flip, Heb.
  rewrite (merge_upsert_rival b e t2), (merge_upsert_rival e b t3); unfold loser_of; rewrite ?Hw, ?E2, ?E3, ?E1; try done.
  all: destruct (wins_original_path (authorship b) (authorship e)); cbn [negb].
  all: rewrite ?lookup_insert_eq; try done; rewrite ?lookup_insert_ne by done; try done.
  all: split; [|rewrite ?lookup_insert_ne by done; done].
  all: apply map_eq; intros q; rewrite !lookup_insert; repeat case_decide; subst; congruence || done.
Qed.

End mixed.

(** C37. The limit of convergence: a later edit that settles one side of a conflict
    does not take back what the conflict left.  Let [e] be an edit made over [a],
    and [b] concurrent with both and outranking [a].  Two devices
    as in convergence, with the same tree and nothing in the way, receive all
    three, [a] before [e].  The device that meets [b] before [e] keeps
    [a] under its conflict name, the one that meets [e] first never had it, and
    that file is the one difference between them. *)
Theorem mixed_history_diverges `{!Primitives} (out out' : Outside) (owner : UserId) (path : string)
  (a e b : FileEntry) (y z : Syncing) :
  VV.compare (fe_version a) (fe_version e) = Before ->
  VV.compare (fe_version a) (fe_version b) = Concurrent -> VV.compare (fe_version e) (fe_version b) = Concurrent ->
  outranked a b -> NoDup (sibling_of path <$> [a; e; b]) ->
  ready path [a; e; b] (local y) -> ready path [a; e; b] (local z) -> tree_of (local y) = tree_of (local z) ->
  live_files (tree_of (local y)) !! path = None -> buried (tree_of (local y)) !! path = None ->
  (forall x, x ∈ [a; e; b] -> live_files (tree_of (local y)) !! sibling_of path x = None) ->
  exists os os' y' z',
    deliver out owner (upserts_of path [(fe_author a, a); (fe_author b, b); (fe_author e, e)]) y = (Ok os, y')
    /\ deliver out' owner (upserts_of path [(fe_author a, a); (fe_author e, e); (fe_author b, b)]) z = (Ok os', z')
    /\ live_files (tree_of (local y')) !! sibling_of path a = Some a
    /\ live_files (tree_of (local z')) !! sibling_of path a = None
    /\ forall x, x ∈ diff (local y') (local z') <-> x = OnlyOnLeft (sibling_of path a).
Proof.
  intros Hae Hab Heb Hrank Hsib Hy Hz Htree Hp Hb Hfree.
  apply NoDup_cons in Hsib as [Hs1 [Hs2 _]%NoDup_cons].
  destruct (deliver_merges path [a; e; b] out owner [(fe_author a, a); (fe_author b, b); (fe_author e, e)] y Hy) as (os & y' & R1 & _ & T1);
    [cbn; set_solver|].
  destruct (deliver_merges path [a; e; b] out' owner [(fe_author a, a); (fe_author e, e); (fe_author b, b)] z Hz) as (os' & z' & R2 & _ & T2);
    [cbn; set_solver|].
  rewrite <- Htree in T2. destruct (merge_all_mixed path a e b (tree_of (local y))) as [E Hnone]; try done; [cbn in *; set_solver..|].
  cbn [fmap list_fmap snd] in T1, T2. rewrite <- T1, <- T2 in E. rewrite <- T2 in Hnone.
  exists os, os', y', z'. split_and!; [done|done| |done|intros x; by apply (diff_one_more _ _ _ a)].
  rewrite E. apply lookup_insert_eq.
Qed.

(** ** Concrete histories *)

Module ConvergeSample.
Import Toy ToyCodec StoreSample EngineSample.

Definition device_3 : Store :=
  mkStore empty_index {[10 := [1]; 11 := [2]; 12 := [3]]} small_chunker keys (mkDeviceKeys [3]) None.
Definition start_3 : Syncing := mkSyncing device_3 0.

Definition version_by (author : DeviceId) (sequence : N) (hash : N) (chunk : ChunkId) : FileEntry :=
  mkFile 1 0 hash [chunk] (VV.advanced ∅ author sequence) author.

(** Device 1 writes [ver_a], then [ver_e] over it; device 2 writes [ver_b], having seen neither. *)
Definition dev_1 : DeviceId := 2 ^ 255.
Definition dev_2 : DeviceId := 2 ^ 255 + 2 ^ 254.
Definition ver_a : FileEntry := version_by dev_1 1 100 10.
Definition ver_e : FileEntry := version_by dev_1 2 101 11.
Definition ver_b : FileEntry := version_by dev_2 1 102 12.

Definition after (order : list (DeviceId * FileEntry)) : Store :=
  local (deliver nowhere 1 (upserts_of "f" order) start_3).2.

Definition conflict_of_a : string := sibling_of "f" ver_a.
(** The owner deletes the copy a conflict left. *)
Definition tidied : Store :=
  (Store.remove_file 60 conflict_of_a (after [(dev_1, ver_a); (dev_2, ver_b)])).2.

End ConvergeSample.

Import Toy ToyCodec StoreSample EngineSample ConvergeSample.

Lemma concurrent_edits_converge_witness :
  exists os os' y' z',
    deliver nowhere 1 (upserts_of "f" [(dev_1, ver_a); (dev_2, ver_b)]) start_3 = (Ok os, y')
    /\ deliver nowhere 1 (upserts_of "f" [(dev_2, ver_b); (dev_1, ver_a); (dev_2, ver_b)]) start_3
       = (Ok os', z')
    /\ diff (local y') (local z') = [].
Proof.
  assert (Hr : ready "f" [ver_a; ver_b] (local start_3)).
  { split; [vm_compute; reflexivity| |reflexivity| |by intros l [=]].
    - intros x Hx. apply list_elem_of_In in Hx. cbn in Hx.
      destruct Hx as [<-|[<-|[]]]; vm_compute; reflexivity.
    - intros x Hx. apply list_elem_of_In in Hx. cbn in Hx.
      destruct Hx as [<-|[<-|[]]]; (repeat constructor). }
  destruct (concurrent_edits_converge nowhere nowhere 1 "f" [ver_a; ver_b]
    [(dev_1, ver_a); (dev_2, ver_b)] [(dev_2, ver_b); (dev_1, ver_a); (dev_2, ver_b)]
    start_3 start_3) as (os & os' & y' & z' & w & H1 & H2 & _ & H3 & _);
    [done| |exact Hr|exact Hr|done|done|done|done|cbn; set_solver..|exists os, os', y', z'; auto].
  intros a b Ha Hb. apply list_elem_of_In in Ha, Hb. cbn in Ha, Hb.
  destruct Ha as [<-|[<-|[]]], Hb as [<-|[<-|[]]]; auto;
    right; (split; [vm_compute; reflexivity|]);
    apply (bool_decide_eq_true_1 (_ <> _)); vm_compute; reflexivity.
Defined.

Lemma mixed_history_diverges_witness :
  exists os os' y' z',
    deliver nowhere 1 (upserts_of "f" [(dev_1, ver_a); (dev_2, ver_b); (dev_1, ver_e)]) start_3 = (Ok os, y')
    /\ deliver nowhere 1 (upserts_of "f" [(dev_1, ver_a); (dev_1, ver_e); (dev_2, ver_b)]) start_3 = (Ok os', z')
    /\ OnlyOnLeft (sibling_of "f" ver_a) ∈ diff (local y') (local z').
Proof.
  assert (Hr : ready "f" [ver_a; ver_e; ver_b] (local start_3)).
  { split; [vm_compute; reflexivity| |reflexivity| |by intros l [=]].
    - intros x Hx. apply list_elem_of_In in Hx. cbn in Hx. destruct Hx as [<-|[<-|[<-|[]]]]; vm_compute; reflexivity.
    - intros x Hx. apply list_elem_of_In in Hx. cbn in Hx. destruct Hx as [<-|[<-|[<-|[]]]]; (repeat constructor). }
  destruct (mixed_history_diverges nowhere nowhere 1 "f" ver_a ver_e ver_b start_3 start_3)
    as (os & os' & y' & z' & H1 & H2 & _ & _ & H3);
    [vm_compute; reflexivity..| |apply (bool_decide_eq_true_1 (NoDup _)); vm_compute; reflexivity|exact Hr|exact Hr|done|done|done|done|].
  { left. vm_compute. reflexivity. }
  exists os, os', y', z'. split_and!; [exact H1|exact H2|]. by apply H3.
Defined.

(** Applying a conflicting operation twice is not always a no-op: once the owner
    has deleted the sibling, the same operation served again brings it back. *)
Lemma deleted_sibling_comes_back :
  let again := deliver nowhere 1 (upserts_of "f" [(dev_1, ver_a)]) (mkSyncing tidied 9) in
  files (ft (index tidied)) !! conflict_of_a = None
  /\ again.1 = Ok [mkOutcome "f" (Conflicted conflict_of_a false)]
  /\ files (ft (index (local again.2))) !! conflict_of_a = Some ver_a.
Proof. vm_compute. split_and!; reflexivity. Qed.
