(* ===== verification/Client.v ===== *)
(** * Client: the calling side of a connection

    Models [PeerClient] and [Offer] of [crates/itsanas-net/src/transport.rs] over
    an arbitrary peer: what it answers is a function of the request and of the
    number of requests before it, so a peer that lies, forgets or changes its mind
    is one more function.  The clock and the numbers drawn are functions of the
    same kind.  A session keeps the exchanges it made; errors that only wrap a
    failing socket are one, and a refusal keeps its reason. *)

From S2P Require Import Prelude Version Ids Network Crypto Oplog Wire IndexState Files Summary Ledger Log ShortQueue.
From S2P Require Import Rings Blob Index Store Vault Accounting Claims Placement ClaimBook Peer Serving Lending Engine.

(** ** protocol.rs *)

Definition PROTOCOL_WITH_DROP_NOTICES : N := 3.
Definition PROTOCOL_WITH_CHUNK_SUMMARY : N := 4.
Definition PROTOCOL_WITH_LEAVING : N := 5.
Definition PROTOCOL_WITH_PRESENCES : N := 6.
Definition PROTOCOL_WITH_CLAIMS : N := 7.
Definition PROTOCOL_WITH_DRAINING : N := 8.
Definition PROTOCOL_WITH_EVICTION : N := 10.
Definition PROTOCOL_WITH_ROSTER : N := 11.

(** ** error.rs *)

Inductive NetError :=
| NetStore (e : StoreError)
| NetRefused (why : Why)
| NetMerge (e : SyncError)
| UnexpectedResponse (expected : string)
| ConnectionClosed.

(** ** Offers *)

Module Offered.

Inductive Refusal := PledgeFull | Rejected | AccountFull | Unconfirmed | Withdrawn | Contradicted.

Inductive Offer := Taken | AlreadyHeld | Refused (why : Refusal).

#[export] Instance Refusal_eq_dec : EqDecision Refusal.
Proof. solve_decision. Defined.

(** [Offer::from_response] *)
Definition from_response (answer : Res.Response) : result NetError Offer :=
  match answer with
  | Res.Stored true => Ok Taken
  | Res.Stored false => Ok AlreadyHeld
  | Res.Refused (Text reason) =>
      if String.eqb reason PLEDGE_EXHAUSTED then Ok (Refused PledgeFull)
      else if String.prefix ACCOUNT_FULL reason then Ok (Refused AccountFull)
      else if String.eqb reason UNCONFIRMED then Ok (Refused Unconfirmed)
      else if String.eqb reason WITHDRAWN then Ok (Refused Withdrawn)
      else if String.eqb reason CONTRADICTED then Ok (Refused Contradicted)
      else Ok (Refused Rejected)
  | Res.Refused _ => Ok (Refused Rejected)
  | _ => Err (UnexpectedResponse "stored")
  end.

End Offered.
Import Offered.

(** ** A session *)

(** What lies outside: the peer's answer to the n-th request, the clock then,
    and the numbers drawn. *)
Record World := mkWorld {
  answers : nat -> Req.Request -> option Res.Response;
  time : nat -> N;
  draws : nat -> N;
}.

Record Session := mkSession {
  se_store : Store;
  se_vault : Vault;
  se_asked : nat;
  se_drawn : nat;
  se_log : list (Req.Request * Res.Response);
}.

Abbreviation Sess A := (M Session NetError A).

Definition with_store (s : Store) (y : Session) : Session :=
  mkSession s (se_vault y) (se_asked y) (se_drawn y) (se_log y).

(** An operation of the store behind [?]. *)
Definition on_store {A} (m : M Store StoreError A) : Sess A :=
  fun y => match m (se_store y) with
           | (Ok a, s) => (Ok a, with_store s y)
           | (Err e, s) => (Err (NetStore e), with_store s y)
           end.
Definition on_the_vault {A} (m : M Vault StoreError A) : Sess A :=
  fun y => let '(r, v) := m (se_vault y) in
           (match r with Ok a => Ok a | Err e => Err (NetStore e) end,
            mkSession (se_store y) v (se_asked y) (se_drawn y) (se_log y)).

Section client.
Context (w : World).

Definition now_unix : Sess N := gets (fun y => time w (se_asked y)).

(** [getrandom::fill] *)
Definition draw : Sess N :=
  fun y => (Ok (draws w (se_drawn y)), mkSession (se_store y) (se_vault y) (se_asked y) (S (se_drawn y)) (se_log y)).

Definition request (r : Req.Request) : Sess Res.Response :=
  fun y =>
    let y' log := mkSession (se_store y) (se_vault y) (S (se_asked y)) (se_drawn y) log in
    match answers w (se_asked y) r with
    | Some answer => (Ok answer, y' (se_log y ++ [(r, answer)]))
    | None => (Err ConnectionClosed, y' (se_log y))
    end.

Definition unexpected {A} (expected : string) (answer : Res.Response) : Sess A :=
  match answer with
  | Res.Refused reason => throw (NetRefused reason)
  | _ => throw (UnexpectedResponse expected)
  end.

Definition heads (owner : UserId) : Sess (list Head) :=
  answer <-! request (Req.Heads owner);
  match answer with Res.Heads heads => ret heads | _ => unexpected "heads" answer end.

Definition segments (owner : UserId) (device : DeviceId) (after : option ObjectId) (limit : N)
  : Sess (list SegmentEnvelope) :=
  answer <-! request (Req.Segments owner device after limit);
  match answer with Res.Segments segments => ret segments | _ => unexpected "segments" answer end.

Definition chunk (owner : UserId) (address : ChunkId) : Sess (option (list N)) :=
  answer <-! request (Req.Chunk owner address);
  match answer with Res.Chunk chunk => ret chunk | _ => unexpected "chunk" answer end.

Definition want_hosted (limit : N) : Sess (UserId * list ChunkId) :=
  answer <-! request (Req.WantHosted limit);
  match answer with Res.WantHosted owner chunks => ret (owner, chunks) | _ => unexpected "chunks wanted" answer end.

Definition hosted (chunks : list ChunkId) : Sess bool :=
  answer <-! request (Req.Hosted chunks);
  match answer with Res.Stored accepted => ret accepted | _ => unexpected "stored" answer end.

Definition missing_chunks (owner : UserId) (addresses : list ChunkId) : Sess (list ChunkId) :=
  answer <-! request (Req.HaveChunks owner addresses);
  match answer with Res.Missing missing => ret missing | _ => unexpected "missing chunks" answer end.

Definition store_chunk (owner : UserId) (address : ChunkId) (sealed : list N) : Sess Offer :=
  answer <-! request (Req.StoreChunk owner address sealed);
  lift (from_response answer).

Definition store_segment (envelope : SegmentEnvelope) : Sess Offer :=
  answer <-! request (Req.StoreSegment envelope);
  lift (from_response answer).

Definition challenge `{!Primitives} (owner : UserId) (address : ChunkId) (nonce expected : list N) : Sess bool :=
  answer <-! request (Req.Challenge owner address nonce);
  match answer with
  | Res.ChallengeProof proof => ret (challenge_holds nonce expected proof)
  | Res.Refused (Text why) =>
      if String.eqb why HOSTING_AWAY then throw (NetRefused (Text why)) else ret false
  | Res.Refused _ => ret false
  | _ => throw (UnexpectedResponse "challenge proof")
  end.

(** The verbs younger than the protocol's floor, kept back from a peer that
    does not speak them. *)
Section spoken.
Context (spoken : N).

Definition chunk_summary (owner : UserId) : Sess (option (list (list N))) :=
  if spoken <? PROTOCOL_WITH_CHUNK_SUMMARY then ret None
  else
    answer <-! request (Req.ChunkSummary owner);
    match answer with
    | Res.ChunkSummary digests =>
        if (length digests =? BUCKETS)%nat then ret (Some digests)
        else throw (UnexpectedResponse "a chunk summary with one digest per bucket")
    | _ => unexpected "chunk summary" answer
    end.

Definition dropped (owner : UserId) (chunks : list ChunkId) : Sess bool :=
  if (spoken <? PROTOCOL_WITH_DROP_NOTICES) || bool_decide (chunks = []) then ret false
  else
    answer <-! request (Req.Dropped owner chunks);
    match answer with Res.Stored accepted => ret accepted | _ => unexpected "stored" answer end.

Definition leaving : Sess bool :=
  if spoken <? PROTOCOL_WITH_LEAVING then ret false
  else
    answer <-! request Req.Leaving;
    match answer with Res.Stored accepted => ret accepted | _ => unexpected "stored" answer end.

Definition draining (seconds : N) : Sess (option N) :=
  if spoken <? PROTOCOL_WITH_DRAINING then ret None
  else
    answer <-! request (Req.Draining seconds);
    match answer with Res.Exposed chunks => ret (Some chunks) | _ => unexpected "exposed" answer end.

Definition may_evict (owner : UserId) (chunks : list ChunkId) : Sess (option N) :=
  if spoken <? PROTOCOL_WITH_EVICTION then ret None
  else if bool_decide (chunks = []) then ret (Some 0)
  else
    answer <-! request (Req.MayEvict owner chunks);
    match answer with Res.MayEvict marked => ret (Some marked) | _ => unexpected "chunks marked evictable" answer end.

Definition presences : Sess (option (list (list N))) :=
  if spoken <? PROTOCOL_WITH_PRESENCES then ret None
  else
    answer <-! request Req.Presences;
    match answer with
    | Res.Presences rows =>
        if (length rows <=? MAX_RELAYED_ROWS)%nat && forallb (fun row => length row <=? MAX_RELAYED_ROW_BYTES)%nat rows
        then ret (Some rows)
        else throw (UnexpectedResponse "a bounded list of presences")
    | Res.Refused _ => ret None
    | _ => throw (UnexpectedResponse "presences")
    end.

Definition present_claim (claim : list N) : Sess (option (list N)) :=
  if spoken <? PROTOCOL_WITH_CLAIMS then ret None
  else
    answer <-! request (Req.Claim claim);
    match answer with
    | Res.Claim theirs =>
        if (length theirs <=? MAX_CLAIM_BYTES)%nat then ret (Some theirs) else throw (UnexpectedResponse "stored")
    | Res.Stored _ => ret None
    | _ => unexpected "stored" answer
    end.

Definition claims (owner : UserId) : Sess (list (list N)) :=
  if spoken <? PROTOCOL_WITH_ROSTER then ret []
  else
    answer <-! request (Req.Claims owner);
    match answer with
    | Res.Claims claims =>
        if (length claims <=? MAX_CLAIMS_PER_ANSWER)%nat && forallb (fun claim => length claim <=? MAX_CLAIM_BYTES)%nat claims
        then ret claims else throw (UnexpectedResponse "claims")
    | _ => unexpected "claims" answer
    end.

End spoken.
End client.

(** A host tells an account whose devices failed its audits so in a sentence
    that goes on with figures, and the owner's side recognises that sentence
    only when it ends there: whatever the book refuses as contradicted reaches
    the owner as a plain rejection, the reading meant for a segment that does
    not verify, and never as the refusal made for it. *)
Theorem contradiction_reads_as_rejection {PR : Primitives} caller o incoming host_pledge now now_unix v b s why rest :
  admits caller o incoming host_pledge now now_unix v b s = (Err why, rest) ->
  String.prefix CONTRADICTED why = true ->
  from_response (Res.Refused (Text why)) = Ok (Refused Rejected)
  /\ from_response (Res.Refused (Text CONTRADICTED)) = Ok (Refused Contradicted).
Proof.
  intros Ha Hp. split; [|reflexivity]. revert Ha Hp. unfold admits.
  destruct (book b !! caller) as [held|]; [|by intros [= <- _]].
  destruct (negb _); [by intros [= <- _]|]. destruct (o =? _); [by intros [=]|].
  destruct (decide _); [by intros [= <- _]|]. destruct (negb _); [by intros [= <- _]|].
  destruct (ClaimBook.standing (book b) o now_unix s) as [a s1]. destruct (a_contradicted a).
  all: destruct (_ <? sat_add _ _).
  1: by intros [= <- _].
  2: by intros [= <- _].
  all: destruct (0 <? _); [|by intros [=]]; intros E; by rewrite (lend_refusal _ _ _ _ _ _ _ _ _ E).
Qed.

(** ** A guest whose device failed its audits *)

Module FailedAudits.

Import Toy StoreSample SixHosts Guest Newcomer.

(** Failed again and again, until it is paused. *)
Definition suspicious_store : Store :=
  set_index (foldl (fun ix i => (note_audit guest_device false (100 + N.of_nat i) ix).2) (index met_store) (seq 0 12)) met_store.
Definition refusal_of : result string unit :=
  (admits guest_device (user_id guest) 5 1000 50 720000 (open len0 fresh_vault) newcomer_book suspicious_store).1.

End FailedAudits.

Import Toy FailedAudits.

Lemma contradiction_reads_as_rejection_witness :
  exists why, refusal_of = Err why /\ String.prefix CONTRADICTED why = true
    /\ from_response (Res.Refused (Text why)) = Ok (Refused Rejected)
    /\ from_response (Res.Refused (Text CONTRADICTED)) = Ok (Refused Offered.Contradicted).
Proof.
  destruct (admits Guest.guest_device (user_id Guest.guest) 5 1000 50 720000 (open Guest.len0 fresh_vault)
    Newcomer.newcomer_book suspicious_store) as [r rest] eqn:E.
  assert (Er : refusal_of = r) by (unfold refusal_of; by rewrite E).
  exists (match r with Err why => why | Ok _ => "" end). rewrite Er.
  assert (Hr : match refusal_of with Err why => String.prefix CONTRADICTED why | Ok _ => false end = true)
    by (vm_compute; reflexivity).
  rewrite Er in Hr. destruct r as [[]|why]; [discriminate Hr|]. split; [reflexivity|]. split; [exact Hr|].
  exact (contradiction_reads_as_rejection _ _ _ _ _ _ _ _ _ _ _ E Hr).
Defined.
