(* ===== verification/Session.v ===== *)
(** * Session: a round with one peer, from the calling side

    Models [crates/itsanas-net/src/session.rs] and [placed.rs]: pushing, auditing,
    repairing, hosting and pulling over a [Client].  Every function is the
    source's, over the state of a session; the report a push fills is returned.
    Paging loops carry fuel, one more than the rows there are to page over. *)

From S2P Require Import Prelude Version Ids Network Crypto Uptime Target Nodeset Oplog Wire IndexState Files Summary.
From S2P Require Import Ledger Log ShortQueue Rings Blob Index Store Vault Accounting Claims Placement ClaimBook Peer.
From S2P Require Import Engine Client.
Import Offered.

Definition REPAIR_SCAN_PER_ROUND : nat := 2048.
Definition LOSS_WINDOW : nat := 8.
Definition REPAIR_FETCH_PER_ROUND : nat := 32.
Definition CHALLENGES_PER_ROUND : nat := 16.
Definition PER_ROUND : N := 32.
Definition SHORT_PAGE : nat := MAX_HAVE_BATCH.

Record PushReport := mkPush {
  segments_offered : nat;
  segments_accepted : nat;
  chunks_offered : nat;
  chunks_accepted : nat;
  bytes_sent : N;
  withheld : bool;
  probe_taken : option ChunkId;
  holders_recorded : nat;
  chunks_asked_about : nat;
  holders_restamped : nat;
  refused_offers : nat;
  refusal : option Refusal;
  released_copies : nat;
}.

Definition PushReport_default : PushReport := mkPush 0 0 0 0 0 false None 0 0 0 0 None 0.

Definition offered_segment (r : PushReport) : PushReport :=
  let '(mkPush so sa co ca bs wi pt hr ak re rf ry rl) := r in mkPush (S so) sa co ca bs wi pt hr ak re rf ry rl.
Definition accepted_segment (len : N) (r : PushReport) : PushReport :=
  let '(mkPush so sa co ca bs wi pt hr ak re rf ry rl) := r in mkPush so (S sa) co ca (sat_add bs len) wi pt hr ak re rf ry rl.
Definition offered_chunk (r : PushReport) : PushReport :=
  let '(mkPush so sa co ca bs wi pt hr ak re rf ry rl) := r in mkPush so sa (S co) ca bs wi pt hr ak re rf ry rl.
Definition accepted_chunk (len : N) (r : PushReport) : PushReport :=
  let '(mkPush so sa co ca bs wi pt hr ak re rf ry rl) := r in mkPush so sa co (S ca) (sat_add bs len) wi pt hr ak re rf ry rl.
Definition withholding (r : PushReport) : PushReport :=
  let '(mkPush so sa co ca bs wi pt hr ak re rf ry rl) := r in mkPush so sa co ca bs true pt hr ak re rf ry rl.
Definition probed (c : ChunkId) (r : PushReport) : PushReport :=
  let '(mkPush so sa co ca bs wi pt hr ak re rf ry rl) := r in mkPush so sa co ca bs wi (Some c) (S hr) ak re rf ry rl.
Definition recorded (n : nat) (r : PushReport) : PushReport :=
  let '(mkPush so sa co ca bs wi pt hr ak re rf ry rl) := r in mkPush so sa co ca bs wi pt (hr + n) ak re rf ry rl.
Definition asked_about (n : nat) (r : PushReport) : PushReport :=
  let '(mkPush so sa co ca bs wi pt hr ak re rf ry rl) := r in mkPush so sa co ca bs wi pt hr (ak + n) re rf ry rl.
Definition restamped (n : nat) (r : PushReport) : PushReport :=
  let '(mkPush so sa co ca bs wi pt hr ak re rf ry rl) := r in mkPush so sa co ca bs wi pt hr ak (re + n) rf ry rl.
Definition let_go (n : nat) (r : PushReport) : PushReport :=
  let '(mkPush so sa co ca bs wi pt hr ak re rf ry rl) := r in mkPush so sa co ca bs wi pt hr ak re rf ry (rl + n).

(** [PushReport::record] *)
Definition record_offer (offer : Offer) (r : PushReport) : bool * PushReport :=
  match offer with
  | Taken => (true, r)
  | AlreadyHeld => (false, r)
  | Refused why =>
      let '(mkPush so sa co ca bs wi pt hr ak re rf ry rl) := r in
      (false, mkPush so sa co ca bs wi pt hr ak re (S rf) (Some (default why ry)) rl)
  end.

Record RoundReport := mkRound { push_part : PushReport; pull_part : SyncReport }.

Definition peer_earned_trust (r : RoundReport) : bool :=
  (0 <? chunks_accepted (push_part r))%nat || (0 <? segments_accepted (push_part r))%nat
  || (0 <? holders_recorded (push_part r))%nat || (0 <? adopted (pull_part r))%nat.

Definition round_changed_anything (r : RoundReport) : bool :=
  (0 <? segments_accepted (push_part r))%nat || (0 <? chunks_accepted (push_part r))%nat
  || changed_anything (pull_part r).

Inductive Scope := Metadata | Everything.
Definition moves_content (s : Scope) : bool := match s with Everything => true | Metadata => false end.

(** Whether the peer is full, for one push's walks. *)
Record Full := mkFull { full_now : N; full_yes : bool; full_placed : bool; share_spent : bool }.

Section session.
Context `{!Primitives, !BodyCodec} (w : World) (peer : DeviceId) (spoken : N).

Definition on_index (f : Index -> Index) : Sess unit :=
  modify (fun y => with_store (set_index (f (index (se_store y))) (se_store y)) y).
Definition the_store : Sess Store := gets se_store.
Definition ledger : Sess Ledger := gets (fun y => led (index (se_store y))).

(** The account's audit-order key, with which the ledger keeps its second order. *)
Definition key_of (s : Store) : list N := audit_order (user s).

Definition record_holders_at (chunks : list ChunkId) (now : N) : Sess unit :=
  s <-! the_store; on_index (on_led (record_holders (key_of s) chunks peer now)).
Definition record_stored_at (chunks : list ChunkId) (now : N) : Sess unit :=
  s <-! the_store; on_index (on_led (record_stored (key_of s) chunks peer now)).
Definition forget (chunks : list ChunkId) : Sess unit :=
  s <-! the_store; now <-! now_unix w; on_index (forget_holders (key_of s) chunks peer now).

(** ** Asking and offering *)

Definition full_at (now : N) (placed : bool) : Sess Full :=
  l <-! ledger;
  ret (mkFull now (match peer_full l !! peer with Some since => now - FULL_RETRY <=? since | None => false end)
         placed false).

(** The chunks of a batch the peer lacks, offered until it says it is full. *)
Fixpoint offer_missing (missing stored : list ChunkId) (r : PushReport) (full : Full)
  : Sess (list ChunkId * PushReport * Full) :=
  match missing with
  | [] => ret (stored, r, full)
  | address :: missing =>
      if full_yes full then ret (stored, r, full)
      else
        s <-! the_store;
        match blob_get address (blobs s) with
        | None => offer_missing missing stored r full
        | Some sealed =>
            let r := offered_chunk r in
            offer <-! store_chunk w (owner_of s) address sealed;
            let pledge_full := match offer with Refused PledgeFull => true | _ => false end in
            let account_full := full_placed full && match offer with Refused AccountFull => true | _ => false end in
            let '(taken, r) := record_offer offer r in
            let r := if taken then accepted_chunk (N.of_nat (length sealed)) r else r in
            let stored := if taken then stored ++ [address] else stored in
            (if pledge_full || account_full
             then on_index (on_led (note_peer_full peer (full_now full))) else ret tt) ;;!
            offer_missing missing stored r
              (mkFull (full_now full) (full_yes full || pledge_full || account_full) (full_placed full)
                 (share_spent full || account_full))
        end
  end.

Definition ask (batch : list ChunkId) (r : PushReport) (full : Full) : Sess (PushReport * Full) :=
  s <-! the_store;
  let r := asked_about (length batch) r in
  missing <-! missing_chunks w (owner_of s) batch;
  let confirmed := filter (fun address => address ∉ missing) batch in
  forget missing ;;!
  sent <-! offer_missing missing [] r full;
  let '(stored, r, full) := sent in
  let r := recorded (length confirmed + length stored) r in
  clock <-! now_unix w;
  let now := if full_placed full then full_now full else clock in
  record_holders_at confirmed now ;;!
  record_stored_at stored now ;;!
  ret (r, full).

(** ** Walking the index *)

(** The id just below a bucket, none for the first. *)
Definition bucket_floor (bucket : N) : option ChunkId :=
  if bucket =? 0 then None else Some (of_be_bytes ((bucket - 1) :: repeat 255 31)).

(** The rows of a page up to the first past the bucket. *)
Definition in_front (bucket : N) (page : list ChunkId) : list ChunkId :=
  take_while (fun c => in_bucket c bucket) page.

Fixpoint walk_go (fuel : nat) (bucket : option N) (cursor : option ChunkId) (only_unconfirmed : bool)
  (r : PushReport) (full : Full) : Sess (PushReport * Full) :=
  match fuel with
  | O => ret (r, full)
  | S fuel =>
      s <-! the_store;
      now <-! now_unix w;
      let '(page, next) := live_chunks_page cursor MAX_HAVE_BATCH (index s) in
      let front := match bucket with Some b => in_front b page | None => page end in
      let finished := bool_decide (next = None) || (length front <? length page)%nat in
      let l := led (index s) in
      let page := if bool_decide (is_Some bucket) && only_unconfirmed
                  then without_fresh_record front peer now l else front in
      let page := if full_yes full then with_record page peer l else page in
      done <-! (if bool_decide (page = []) then ret (r, full) else ask page r full);
      let '(r, full) := done in
      match next with
      | Some next => if finished then ret (r, full) else walk_go fuel bucket (Some next) only_unconfirmed r full
      | None => ret (r, full)
      end
  end.

Definition walk (bucket : option N) (after : option ChunkId) (only_unconfirmed : bool) (r : PushReport) (full : Full)
  : Sess (PushReport * Full) :=
  s <-! the_store; walk_go (S (live_chunk_count (index s))) bucket after only_unconfirmed r full.

Fixpoint walk_buckets (buckets : list N) (thorough : bool) (r : PushReport) (full : Full) : Sess (PushReport * Full) :=
  match buckets with
  | [] => ret (r, full)
  | bucket :: buckets =>
      done <-! walk (Some bucket) (bucket_floor bucket) (negb thorough) r full;
      walk_buckets buckets thorough done.1 done.2
  end.

Definition sweep (only : option (list N)) (thorough : bool) (r : PushReport) (full : Full) : Sess (PushReport * Full) :=
  match only with
  | None => walk None None true r full
  | Some buckets => walk_buckets (merge_sort N.le (remove_dups buckets)) thorough r full
  end.

(** Every live chunk of one bucket. *)
Fixpoint bucket_go (fuel : nat) (bucket : N) (cursor : option ChunkId) (ix : Index) : list ChunkId :=
  match fuel with
  | O => []
  | S fuel =>
      let '(page, next) := live_chunks_page cursor MAX_HAVE_BATCH ix in
      let front := in_front bucket page in
      if (length front <? length page)%nat then front
      else match next with
           | Some next => front ++ bucket_go fuel bucket (Some next) ix
           | None => front
           end
  end.

Definition bucket_chunks (bucket : N) (ix : Index) : list ChunkId :=
  bucket_go (S (live_chunk_count ix)) bucket (bucket_floor bucket) ix.

Definition all_buckets : list N := N.of_nat <$> seq 0 256.

Fixpoint restamp_buckets (buckets : list N) (theirs : list (list N)) (differing : list N) (now : N)
  (relist : list N) (r : PushReport) : Sess (list N * PushReport) :=
  match buckets with
  | [] => ret (relist, r)
  | bucket :: buckets =>
      if bool_decide (bucket ∈ differing) then restamp_buckets buckets theirs differing now relist r
      else
        s <-! the_store;
        clock <-! now_unix w;
        let chunks := bucket_chunks bucket (index s) in
        if decide (theirs !! N.to_nat bucket = Some (bucket_digest bucket chunks)) then
          let stale := without_fresh_record chunks peer clock (led (index s)) in
          record_holders_at stale now ;;!
          restamp_buckets buckets theirs differing now relist (restamped (length stale) r)
        else restamp_buckets buckets theirs differing now (relist ++ [bucket]) r
  end.

Definition restamp_agreeing (theirs : list (list N)) (differing : list N) (now : N) (r : PushReport)
  : Sess (list N * PushReport) :=
  if (length theirs =? BUCKETS)%nat then restamp_buckets all_buckets theirs differing now [] r
  else ret (all_buckets, r).

Inductive Reconciled :=
| Identical (theirs : list (list N))
| Buckets (differing : list N) (theirs : list (list N))
| Unknown.

(** [unwrap_or(None)]: an error of the summary is a peer too old to be asked. *)
Definition or_none {A} (m : Sess (option A)) : Sess (option A) :=
  fun y => match m y with (Ok a, y) => (Ok a, y) | (Err _, y) => (Ok None, y) end.

Definition reconcile (owner : UserId) : Sess Reconciled :=
  theirs <-! or_none (chunk_summary w spoken owner);
  match theirs with
  | None => ret Unknown
  | Some theirs =>
      s <-! the_store;
      let ours := Summary.chunk_summary (index s) in
      if decide (summary_root ours = summary_root theirs) then ret (Identical theirs)
      else ret (Buckets (differing ours theirs) theirs)
  end.

(** ** What this device let go of *)

Definition refresh_released_page (page : list ChunkId) : Sess nat :=
  s <-! the_store;
  let asking := filter (fun c => Store.has_chunk c s = false) page in
  if bool_decide (asking = []) then ret 0%nat
  else
    missing <-! missing_chunks w (owner_of s) asking;
    forget missing ;;!
    now <-! now_unix w;
    let still := filter (fun c => c ∉ missing) asking in
    record_holders_at still now ;;!
    ret (length still).

Fixpoint refresh_released_go (fuel : nat) (cursor : option (DeviceId * (N * ChunkId))) (total : nat) : Sess nat :=
  match fuel with
  | O => ret total
  | S fuel =>
      l <-! ledger;
      let '(page, next) := holdings_page peer cursor MAX_HAVE_BATCH l in
      if bool_decide (page = []) then ret total
      else
        n <-! refresh_released_page page;
        match next with
        | Some next => refresh_released_go fuel (Some next) (total + n)
        | None => ret (total + n)%nat
        end
  end.

Definition refresh_released : Sess nat :=
  l <-! ledger; refresh_released_go (S (length (device_rows peer l))) None 0.

(** ** Pushing *)

Fixpoint offer_chain (chain : list SegmentEnvelope) (r : PushReport) : Sess PushReport :=
  match chain with
  | [] => ret r
  | envelope :: chain =>
      let r := offered_segment r in
      offer <-! store_segment w envelope;
      let '(taken, r) := record_offer offer r in
      offer_chain chain (if taken then accepted_segment (N.of_nat (length (sealed_body envelope))) r else r)
  end.

Definition offer_segments (r : PushReport) : Sess PushReport :=
  s <-! the_store;
  theirs <-! heads w (owner_of s);
  let already := (fun p => hd_head p.2) <$> list_find (fun head => hd_device head = store_device s) theirs in
  let chain := segments_list (index s) in
  let after := match already with
               | Some head => match list_find (fun e => segment_id e = head) chain with
                              | Some (i, _) => S i
                              | None => 0%nat
                              end
               | None => 0%nat
               end in
  offer_chain (drop after chain) r.

(** The probe of a paused peer; [true] when the push of content is over. *)
Definition probe_if_paused (r : PushReport) : Sess (bool * PushReport) :=
  s <-! the_store;
  if worth_sending_to (reliability peer (led (index s))) then ret (false, r)
  else
    let r := withholding r in
    raw <-! draw w;
    match live_chunk_near raw (index s) with
    | None => ret (true, r)
    | Some address =>
        match blob_get address (blobs s) with
        | None => ret (true, r)
        | Some sealed =>
            let r := offered_chunk r in
            offer <-! store_chunk w (owner_of s) address sealed;
            let '(taken, r) := record_offer offer r in
            if taken then
              now <-! now_unix w;
              record_stored_at [address] now ;;!
              on_index (on_led (note_probe peer address)) ;;!
              ret (true, probed address (accepted_chunk (N.of_nat (length sealed)) r))
            else ret (true, r)
        end
    end.

Definition note_walk (now : N) : Sess unit := on_index (on_led (note_ledger_walk peer now)).

Definition sweep_everything (r : PushReport) : Sess PushReport :=
  s <-! the_store;
  now <-! now_unix w;
  let due := ledger_walk_due peer now (led (index s)) in
  reconciled <-! reconcile (owner_of s);
  full <-! full_at now false;
  let refresh r := n <-! refresh_released; ret (recorded n r) in
  match reconciled with
  | Identical theirs =>
      if negb due then refresh r
      else
        relisted <-! restamp_agreeing theirs [] now r;
        swept <-! sweep (Some relisted.1) true relisted.2 full;
        note_walk now ;;!
        refresh swept.1
  | Buckets differing theirs =>
      if due then
        relisted <-! restamp_agreeing theirs differing now r;
        swept <-! sweep (Some (relisted.1 ++ differing)) true relisted.2 full;
        note_walk now ;;!
        refresh swept.1
      else
        swept <-! sweep (Some differing) false r full;
        refresh swept.1
  | Unknown =>
      swept <-! sweep None false r full;
      note_walk now ;;!
      refresh swept.1
  end.

(** ** Pushing by placement *)

Fixpoint ask_only_all (batches : list (list ChunkId)) (now : N) (r : PushReport) : Sess PushReport :=
  match batches with
  | [] => ret r
  | batch :: batches =>
      s <-! the_store;
      missing <-! missing_chunks w (owner_of s) batch;
      forget missing ;;!
      let held := filter (fun c => c ∉ missing) batch in
      record_holders_at held now ;;!
      ask_only_all batches now (recorded (length held) (asked_about (length batch) r))
  end.

(** [slice::chunks] *)
Fixpoint batches_go (fuel : nat) (l : list ChunkId) : list (list ChunkId) :=
  match fuel, l with
  | S fuel, _ :: _ => take MAX_HAVE_BATCH l :: batches_go fuel (drop MAX_HAVE_BATCH l)
  | _, _ => []
  end.
Definition batches (l : list ChunkId) : list (list ChunkId) := batches_go (length l) l.

Fixpoint due_buckets (buckets : list N) (theirs : option (list (list N))) (now : N) (r : PushReport)
  : Sess PushReport :=
  match buckets with
  | [] => ret r
  | bucket :: buckets =>
      s <-! the_store;
      let recorded_here := with_record (bucket_chunks bucket (index s)) peer (led (index s)) in
      if bool_decide (recorded_here = []) then due_buckets buckets theirs now r
      else if match theirs with
              | Some digests => bool_decide (digests !! N.to_nat bucket = Some (bucket_digest bucket recorded_here))
              | None => false
              end
      then
        record_holders_at recorded_here now ;;!
        due_buckets buckets theirs now (restamped (length recorded_here) r)
      else
        r <-! ask_only_all (batches recorded_here) now r;
        due_buckets buckets theirs now r
  end.

Definition due_walk (now : N) (r : PushReport) : Sess PushReport :=
  s <-! the_store;
  if negb (ledger_walk_due peer now (led (index s))) then ret r
  else
    theirs <-! or_none (chunk_summary w spoken (owner_of s));
    let theirs := theirs ≫= (fun digests => if (length digests =? BUCKETS)%nat then Some digests else None) in
    r <-! due_buckets all_buckets theirs now r;
    note_walk now ;;!
    ret r.

(** One page of a host's records, from a random point, wrapping. *)
Definition holdings_from_random (limit : nat) : Sess (list ChunkId) :=
  cursor <-! draw w;
  l <-! ledger;
  let '(page, next) := holdings_page peer (Some (peer, (cursor, 0))) limit l in
  if bool_decide (next = None) && (length page <? limit)%nat
  then ret (page ++ filter (fun c => c ∉ page) (holdings_page peer None (limit - length page) l).1)
  else ret page.

(** The page of the short queue, evaluated once: what is offered, and what
    wants this peer. *)
Fixpoint choose_short (s : Store) (rows : list (ChunkId * N)) (offer wanted : list ChunkId) (p : Placement)
  : list ChunkId * list ChunkId * Placement :=
  match rows with
  | [] => (offer, wanted, p)
  | (c, since) :: rows =>
      if negb (Store.has_chunk c s) then choose_short s rows offer wanted p
      else
        let '(e, p) := evaluate s c p in
        choose_short s rows (if offers p peer e since then offer ++ [c] else offer)
          (if bool_decide (peer ∈ want_hosts (ev_want e)) && negb (bool_decide (peer ∈ ev_holders e))
           then wanted ++ [c] else wanted) p
  end.

Fixpoint ask_all (batches : list (list ChunkId)) (r : PushReport) (full : Full) : Sess (PushReport * Full) :=
  match batches with
  | [] => ret (r, full)
  | batch :: batches => done <-! ask batch r full; ask_all batches done.1 done.2
  end.

Definition settled_of (s : Store) (acc : list ChunkId * Placement) (c : ChunkId) : list ChunkId * Placement :=
  let '(e, p) := evaluate s c acc.2 in (if satisfied (ev_verdict e) then acc.1 ++ [c] else acc.1, p).

Definition short_round (r : PushReport) (p : Placement) (full : Full)
  : Sess (nat * PushReport * Placement * Full) :=
  if full_yes full then ret (0%nat, r, p, full)
  else
    start <-! draw w;
    s <-! the_store;
    let '(offer, wanted, p) := choose_short s (short_page_from start (index s)) [] [] p in
    if bool_decide (offer = []) then ret (0%nat, r, p, full)
    else
      let before := with_record offer peer (led (index s)) in
      done <-! ask_all (batches offer) r full;
      s <-! the_store;
      let gained := filter (fun c => c ∉ before) (with_record offer peer (led (index s))) in
      let '(settled, p) := foldl (settled_of s) ([], p) gained in
      on_index (settle_short settled) ;;!
      ret ((length wanted - length (with_record wanted peer (led (index s))))%nat, done.1, p, done.2).

(** The copies on this host that may go, at most [limit]. *)
Definition releasable (s : Store) (p : Placement) (now : N) (c : ChunkId) : bool :=
  Store.has_chunk c s
  && negb (recently_released peer now (led (index s)) c)
  && bool_decide (release_choice s c p = Some peer).

Definition release_round (wanting : nat) (r : PushReport) (p : Placement) : Sess PushReport :=
  s <-! the_store;
  let now := p_now p in
  if now / 3600 <? latest_hour_written (rg (index s)) then ret r
  else
    page <-! holdings_from_random MAX_HAVE_BATCH;
    let batch := take (wanting `min` MAX_HAVE_BATCH) (filter (fun c => releasable s p now c = true) page) in
    if bool_decide (batch = []) then ret r
    else
      marked <-! or_none (may_evict w spoken (owner_of s) batch);
      match marked with
      | None => ret r
      | Some _ =>
          forget batch ;;!
          on_index (on_led (note_released batch peer now)) ;;!
          on_index (enqueue_short batch now) ;;!
          ret (let_go (length batch) r)
      end.

Definition push_by_placement (r : PushReport) (p : Placement) : Sess (PushReport * Placement) :=
  let now := p_now p in
  let placed := is_placed p peer in
  r <-! (if placed then due_walk now r else ret r);
  full <-! full_at now true;
  round <-! short_round r p full;
  let '(wanting, r, p, full) := round in
  if placed then
    page <-! holdings_from_random MAX_HAVE_BATCH;
    n <-! refresh_released_page page;
    let r := recorded n r in
    if share_spent full && (0 <? wanting)%nat
    then r <-! release_round wanting r p; ret (r, p)
    else ret (r, p)
  else ret (r, p).

Definition push_placed (scope : Scope) (placement : option Placement) : Sess (PushReport * option Placement) :=
  r <-! offer_segments PushReport_default;
  if negb (moves_content scope) then ret (r, placement)
  else
    paused <-! probe_if_paused r;
    let '(over, r) := paused in
    if over then ret (r, placement)
    else
      match placement with
      | Some p =>
          if is_own p peer then r <-! sweep_everything r; ret (r, placement)
          else done <-! push_by_placement r p; ret (done.1, Some done.2)
      | None => r <-! sweep_everything r; ret (r, placement)
      end.

Definition push_scoped (scope : Scope) : Sess PushReport := done <-! push_placed scope None; ret done.1.

(** ** Auditing *)

Record AuditReport := mkAuditReport {
  au_asked : nat;
  au_confirmed : nat;
  au_failed : nat;
  au_unverifiable : nat;
  au_record : option Reliability;
  au_probing : bool;
}.

Definition found_a_liar (r : AuditReport) : bool := (0 <? au_failed r)%nat.

Fixpoint draw_many (n : nat) (drawn : list N) : Sess (list N) :=
  match n with
  | O => ret drawn
  | S n => d <-! draw w; draw_many n (drawn ++ [d])
  end.

(** The answers to the challenges: what was proved and what was not, and how
    many this device could not check. *)
Fixpoint challenge_all (targets confirmed failed : list ChunkId) (unverifiable : nat)
  : Sess (list ChunkId * list ChunkId * nat) :=
  match targets with
  | [] => ret (confirmed, failed, unverifiable)
  | c :: targets =>
      s <-! the_store;
      match blob_get c (blobs s) with
      | None => challenge_all targets confirmed failed (S unverifiable)
      | Some expected =>
          nonce <-! draw w;
          held <-! challenge w (owner_of s) c (as_bytes nonce) expected;
          if (held : bool) then challenge_all targets (confirmed ++ [c]) failed unverifiable
          else challenge_all targets confirmed (failed ++ [c]) unverifiable
      end
  end.

Definition audit (limit : nat) : Sess AuditReport :=
  l <-! ledger;
  let probing := match probe peer l with
                 | Some c => if worth_sending_to (reliability peer l) then None else Some c
                 | None => None
                 end in
  targets <-! match probing with
              | Some c => ret [c]
              | None => cursors <-! draw_many limit []; ret (chunks_to_challenge peer cursors l)
              end;
  answers <-! challenge_all targets [] [] 0;
  let '(confirmed, failed, unverifiable) := answers in
  now <-! now_unix w;
  record_holders_at confirmed now ;;!
  forget failed ;;!
  let asked := (length confirmed + length failed)%nat in
  record <-! (if (0 <? asked)%nat
              then
                s <-! the_store;
                let '(record, ix) := note_audit peer (bool_decide (failed = [])) now (index s) in
                on_index (fun _ => ix) ;;! ret (Some record)
              else ret None);
  ret (mkAuditReport asked (length confirmed) (length failed) unverifiable record (bool_decide (is_Some probing))).

(** ** Repairing *)

Record RepairReport := mkRepairReport {
  rp_lost : nat;
  rp_asked : nat;
  rp_restored : nat;
  rp_forged : nat;
  rp_not_asked : nat;
}.

Definition repair_changed_anything (r : RepairReport) : bool := (0 <? rp_restored r)%nat || (0 <? rp_forged r)%nat.

Fixpoint repair_all (losses : list ChunkId) (r : RepairReport) : Sess RepairReport :=
  match losses with
  | [] => ret r
  | address :: losses =>
      if (rp_asked r =? REPAIR_FETCH_PER_ROUND)%nat then ret r
      else
        s <-! the_store;
        if negb (existsb (fun h => holder_device h =? peer) (remote_holders address (led (index s))))
        then repair_all losses (mkRepairReport (rp_lost r) (rp_asked r) (rp_restored r) (rp_forged r) (S (rp_not_asked r)))
        else
          let r := mkRepairReport (rp_lost r) (S (rp_asked r)) (rp_restored r) (rp_forged r) (rp_not_asked r) in
          sealed <-! chunk w (owner_of s) address;
          match sealed with
          | None => repair_all losses r
          | Some sealed =>
              accepted <-! on_store (accept_chunk address sealed);
              if (accepted : bool)
              then repair_all losses (mkRepairReport (rp_lost r) (rp_asked r) (S (rp_restored r)) (rp_forged r) (rp_not_asked r))
              else
                forget [address] ;;!
                repair_all losses (mkRepairReport (rp_lost r) (rp_asked r) (rp_restored r) (S (rp_forged r)) (rp_not_asked r))
          end
  end.

Definition repair (scan : nat) : Sess RepairReport :=
  raw <-! draw w;
  now <-! now_unix w;
  _ <-! on_store (missing_locally raw scan now);
  s <-! the_store;
  let losses := known_losses_from raw (REPAIR_FETCH_PER_ROUND * LOSS_WINDOW) (index s) in
  repair_all losses (mkRepairReport (loss_count (index s)) 0 0 0 0).

(** ** Hosting over a connection this node dialled *)

Record HostReport := mkHostReport {
  hr_wanted : nat;
  hr_taken : nat;
  hr_already_held : nat;
  hr_bytes_taken : N;
  hr_pledge_full : bool;
  hr_bounded : option string;
}.

Definition host_changed_anything (r : HostReport) : bool := (0 <? hr_taken r)%nat.

Section hosting.
Context {B : Type} {OW : Owners B} (around : Around) (pledge : N).

(** The bound on accounts, if there is one, asked about the peer. *)
Definition bounded (owner : UserId) (size : N) (b : option B) : Sess (option string * option B) :=
  match b with
  | None => ret (None, None)
  | Some b =>
      fun y => let '(r, (b, s)) := ow_admits around peer owner size pledge (se_vault y) b (se_store y) in
               (Ok (match r with Ok _ => None | Err why => Some why end, Some b), with_store s y)
  end.

Fixpoint take_hosted (owner : UserId) (wanted : list ChunkId) (room : N) (taken : list ChunkId)
  (r : HostReport) (b : option B) : Sess (list ChunkId * HostReport * option B) :=
  match wanted with
  | [] => ret (taken, r, b)
  | address :: wanted =>
      here <-! on_the_vault (has_chunk owner address);
      if (here : bool) then
        take_hosted owner wanted room (taken ++ [address])
          (mkHostReport (hr_wanted r) (hr_taken r) (S (hr_already_held r)) (hr_bytes_taken r) (hr_pledge_full r)
             (hr_bounded r)) b
      else
        sealed <-! chunk w owner address;
        match sealed with
        | None => take_hosted owner wanted room taken r b
        | Some sealed =>
            let size := N.of_nat (length sealed) in
            if room <? size then
              ret (taken, mkHostReport (hr_wanted r) (hr_taken r) (hr_already_held r) (hr_bytes_taken r) true (hr_bounded r), b)
            else
              answer <-! bounded owner size b;
              let '(why, b) := answer in
              match why with
              | Some why =>
                  ret (taken, mkHostReport (hr_wanted r) (hr_taken r) (hr_already_held r) (hr_bytes_taken r)
                                (hr_pledge_full r) (Some why), b)
              | None =>
                  fresh_blob <-! on_the_vault (put_chunk owner address sealed);
                  if (fresh_blob : bool) then
                    take_hosted owner wanted (room - size) (taken ++ [address])
                      (mkHostReport (hr_wanted r) (S (hr_taken r)) (hr_already_held r) (sat_add (hr_bytes_taken r) size)
                         (hr_pledge_full r) (hr_bounded r)) b
                  else take_hosted owner wanted room (taken ++ [address]) r b
              end
        end
  end.

(** The round alone with its vault: a chunk stored by a request served meanwhile,
    which the code does not lock out, is not modelled. *)
Definition host_for_bounded (b : option B) : Sess (HostReport * option B) :=
  y <-! gets id;
  let held := held_bytes (se_vault y) in
  if pledge <=? held then ret (mkHostReport 0 0 0 0 true None, b)
  else
    asked <-! want_hosted w PER_ROUND;
    let '(owner, wanted) := asked in
    done <-! take_hosted owner wanted (pledge - held) [] (mkHostReport (length wanted) 0 0 0 false None) b;
    let '(taken, r, b) := done in
    (if bool_decide (taken = []) then ret tt else _ <-! hosted w taken; ret tt) ;;!
    ret (r, b).

End hosting.

(** ** Pulling *)

Inductive Tolerate := Nothing | RefusedChains.

Definition refuses_segment (e : StoreError) : bool :=
  match e with SegmentSignature _ | SegmentChainBroken _ _ _ => true | _ => false end.

Section pulling.
Context (encoded_len : SegmentEnvelope -> N).

(** Put one device's segments into the vault: what was kept, and whether the
    chain was refused part-way. *)
Fixpoint keep_chain (segments : list SegmentEnvelope) (tolerate : Tolerate) (kept : list SegmentEnvelope)
  : Sess (list SegmentEnvelope * bool) :=
  match segments with
  | [] => ret (kept, false)
  | envelope :: segments =>
      fun y =>
        let '(r, v) := put_segment encoded_len envelope (se_vault y) in
        let y := mkSession (se_store y) v (se_asked y) (se_drawn y) (se_log y) in
        match r with
        | Ok _ => keep_chain segments tolerate (kept ++ [envelope]) y
        | Err e =>
            match tolerate with
            | RefusedChains => if refuses_segment e then (Ok (kept, true), y) else (Err (NetStore e), y)
            | Nothing => (Err (NetStore e), y)
            end
        end
  end.

Fixpoint refresh_heads (theirs : list Head) (tolerate : Tolerate) (fetched : list SegmentEnvelope)
  (refused : gset DeviceId) : Sess (list SegmentEnvelope * gset DeviceId) :=
  match theirs with
  | [] => ret (fetched, refused)
  | head :: theirs =>
      y <-! gets id;
      let s := se_store y in
      if hd_device head =? store_device s then refresh_heads theirs tolerate fetched refused
      else
        let local_head := (fun p => p.2.1.2) <$> list_find (fun h => h.1.1 = hd_device head)
                                                  (heads_for (owner_of s) (se_vault y)) in
        if decide (local_head = Some (hd_head head)) then refresh_heads theirs tolerate fetched refused
        else
          got <-! segments w (owner_of s) (hd_device head) local_head MAX_SEGMENTS_PER_REQUEST;
          kept <-! keep_chain got tolerate [];
          refresh_heads theirs tolerate (fetched ++ kept.1)
            (if (kept.2 : bool) then {[hd_device head]} ∪ refused else refused)
  end.

Definition refresh_chains (tolerate : Tolerate) : Sess (list SegmentEnvelope * gset DeviceId) :=
  s <-! the_store;
  theirs <-! heads w (owner_of s);
  refresh_heads theirs tolerate [] ∅.

(** ** Merging, one device's chain at a time *)

Definition verifies (s : Store) (chain : list SegmentEnvelope) : bool :=
  is_ok (validate_chain chain) && forallb (fun e => is_ok (open_segment e s)) chain.

(** The first error of this device's own chain, which is not a stranger's. *)
Definition own_chain_checks (s : Store) (chain : list SegmentEnvelope) : result SyncError unit :=
  match validate_chain chain with
  | Err e => Err (StoreFailed e)
  | Ok _ => foldr (fun e rest => match open_segment e s with Ok _ => rest | Err x => Err (StoreFailed x) end) (Ok tt) chain
  end.

Fixpoint apply_chains_apart (out : Outside) (replay : Replay) (chains : list (DeviceId * list SegmentEnvelope))
  (refused : gset DeviceId) (total : SyncReport) : M Syncing SyncError (gset DeviceId * SyncReport) :=
  match chains with
  | [] => ret (refused, total)
  | (device, chain) :: chains =>
      s <-! gets local;
      let own := device =? store_device s in
      if match replay with OthersOnly => own | IncludingOwn => false end
      then apply_chains_apart out replay chains refused total
      else
        (if own then lift (own_chain_checks s chain) else ret tt) ;;!
        if negb (verifies s chain) then apply_chains_apart out replay chains ({[device]} ∪ refused) total
        else
          round <-! apply_replaying out chain replay;
          apply_chains_apart out replay chains refused (absorb round.1 total)
  end.

Definition apply_per_chain (out : Outside) (segments : list SegmentEnvelope) (refused : gset DeviceId) (replay : Replay)
  : M Syncing SyncError (gset DeviceId * SyncReport) :=
  apply_chains_apart out replay (btree_iter (by_device segments)) refused SyncReport_default.

(** [RemoteChunks] and [SelectedChunks]: the peer, as the merge's source. *)
Definition fetch_remote (wanted : ChunkId -> bool) (n : nat) (owner : UserId) (address : ChunkId)
  : result SyncError (option (list N)) :=
  if negb (wanted address) then Ok None
  else match answers w n (Req.Chunk owner address) with
       | Some (Res.Chunk sealed) => Ok sealed
       | _ => Err (Source "peer")
       end.
Definition remote_source (wanted : ChunkId -> bool) : Outside := mkOutside (fetch_remote wanted) (time w).
Definition nothing_source : Outside := empty_source (time w).
(** [VaultChunks] *)
Definition vault_source (v : Vault) (mine : UserId) : Outside :=
  mkOutside (fun _ owner address =>
               if negb (owner =? mine) then Ok None
               else match (get_chunk owner address v).1 with Ok sealed => Ok sealed | Err _ => Err (Source "vault") end)
    (time w).

(** The merge, inside a session. *)
Definition merging {A} (m : M Syncing SyncError A) : Sess (result SyncError A) :=
  fun y => let '(r, z) := m (mkSyncing (se_store y) (se_asked y)) in
           (Ok r, mkSession (local z) (se_vault y) (asked z) (se_drawn y) (se_log y)).

(** Every segment of the account's other devices in the vault, as a replay
    reads them: one request's worth of each chain. *)
Definition replayed (s : Store) (v : Vault) : list SegmentEnvelope :=
  filter (fun h => h.1.1 <> store_device s) (heads_for (owner_of s) v)
    ≫= (fun h => segments_for (owner_of s) h.1.1 None (N.to_nat MAX_SEGMENTS_PER_REQUEST) v).

Definition vault_heads (s : Store) (v : Vault) : list (DeviceId * ObjectId) := (heads_for (owner_of s) v).*1.

(** Of the chunks the peer answered, those now on this disk: a chunk is fetched
    only when absent, so they are the ones that were not here before. *)
Definition kept_since (before after : Store) : list ChunkId :=
  filter (fun c => blobs before !! c = None) (blob_addresses (blobs after)).

Definition pull_scoped (scope : Scope) : Sess SyncReport :=
  got <-! refresh_chains RefusedChains;
  let '(fetched, refused) := got in
  y <-! gets id;
  let s := se_store y in
  let fetched := if moves_content scope
                    && (bool_decide (fetched = []) || has_unapplied (vault_heads s (se_vault y)) s)
                 then replayed s (se_vault y) else fetched in
  if bool_decide (fetched = []) then ret (note_refused refused SyncReport_default)
  else
    outcome <-! merging (apply_per_chain (if moves_content scope then remote_source (fun _ => true) else nothing_source)
                           fetched refused OthersOnly);
    now_s <-! the_store;
    let served := if moves_content scope then kept_since s now_s else [] in
    (if bool_decide (served = []) then ret tt else now <-! now_unix w; record_holders_at served now) ;;!
    match outcome with
    | Err e => throw (NetMerge e)
    | Ok (refused, report) =>
        let report := note_refused refused report in
        (if moves_content scope && (deferred report =? 0)%nat
         then on_store (note_all_applied (vault_heads now_s (se_vault y))) else ret tt) ;;!
        ret report
    end.

Definition drain_vault : Sess SyncReport :=
  y <-! gets id;
  let s := se_store y in
  let segments := replayed s (se_vault y) in
  if bool_decide (segments = []) then ret SyncReport_default
  else
    outcome <-! merging (apply_per_chain (vault_source (se_vault y) (owner_of s)) segments ∅ OthersOnly);
    match outcome with
    | Err e => throw (NetMerge e)
    | Ok (refused, report) => ret (note_refused refused report)
    end.

Definition fetch_only_noting (wanted : gset ChunkId) (refused : gset DeviceId) : Sess (SyncReport * gset DeviceId) :=
  y <-! gets id;
  let s := se_store y in
  let segments := replayed s (se_vault y) ++ segments_list (index s) in
  if bool_decide (segments = []) then ret (note_refused refused SyncReport_default, refused)
  else
    outcome <-! merging (apply_per_chain (remote_source (fun c => bool_decide (c ∈ wanted))) segments refused IncludingOwn);
    match outcome with
    | Err e => throw (NetMerge e)
    | Ok (refused, report) =>
        now_s <-! the_store;
        let served := kept_since s now_s in
        (if bool_decide (served = []) then ret tt else now <-! now_unix w; record_holders_at served now) ;;!
        ret (note_refused refused report, refused)
    end.

(** ** A whole round *)

Definition note_contact (from : option IpAddr) : Sess unit :=
  now <-! now_unix w;
  on_index (note_seen peer now) ;;!
  match from ≫= network_of with
  | Some network => on_index (fun ix => (note_network peer network now ix).2)
  | None => ret tt
  end.

Definition round_scoped (scope : Scope) (from : option IpAddr) : Sess RoundReport :=
  note_contact from ;;!
  push <-! push_scoped scope;
  pull <-! pull_scoped scope;
  ret (mkRound push pull).

End pulling.
End session.
