(* ===== verification/Conduct.v ===== *)
(** * Conduct: what a push and an audit can change

    A push and an audit change the store through ten operations of the index,
    each about the peer at the other end ([peer_update]); [push_placed_along]
    and [audit_along] say so once, for any preorder those operations respect.
    Read with one preorder, neither touches a file, the log, the contact history
    or a blob; with another, what is recorded of any other device stays as it
    was, whatever the peer answers. *)

From S2P Require Import Prelude Version Ids Network Crypto Uptime Target Nodeset Oplog Wire IndexState Files Summary.
From S2P Require Import Ledger Log ShortQueue Rings Blob Index Store Vault Accounting Claims Placement ClaimBook Peer.
From S2P Require Import Engine Client Session.
Import Offered.

Inductive peer_update {PR : Primitives} (peer : DeviceId) : (Index -> Index) -> Prop :=
| up_confirmed key cs now : peer_update peer (on_led (record_holders key cs peer now))
| up_stored key cs now : peer_update peer (on_led (record_stored key cs peer now))
| up_forgotten key cs now : peer_update peer (forget_holders key cs peer now)
| up_full now : peer_update peer (on_led (note_peer_full peer now))
| up_probe c : peer_update peer (on_led (note_probe peer c))
| up_walked now : peer_update peer (on_led (note_ledger_walk peer now))
| up_released cs now : peer_update peer (on_led (note_released cs peer now))
| up_settled cs : peer_update peer (settle_short cs)
| up_queued cs now : peer_update peer (enqueue_short cs now)
| up_audited ok now : peer_update peer (fun ix => (note_audit peer ok now ix).2).

Create HintDb conduct.

(** One step of a session's code: a known operation, a question to the state, a
    bind, a branch, or nothing at all. *)
Ltac conduct R :=
  repeat lazymatch goal with
    | |- along _ (bind (gets _) _) => apply along_gets; intros ?
    | |- along _ (bind _ _) => apply (along_bind R); [|intros ?]
    | |- along _ (match ?x with _ => _ end) => destruct x
    | |- along _ (ret _) => along_pure
    | |- along _ (throw _) => along_pure
    | |- along _ (lift _) => along_pure
    | |- along _ _ => solve [auto with conduct]
    end.

Section conduct.
Context {PR : Primitives} (w : World) (peer : DeviceId) (spoken : N).
Context (R : relation Session) `{!PreOrder R}.
Hypothesis asks : forall r, along R (request w r).
Hypothesis draws_one : along R (draw w).
Hypothesis updates : forall f y, peer_update peer f -> R y (with_store (set_index (f (index (se_store y))) (se_store y)) y).

Lemma update_along f : peer_update peer f -> along R (on_index f).
Proof. intros Hf y. by apply updates. Qed.
Hint Resolve asks draws_one : conduct.

Lemma missing_chunks_along o cs : along R (missing_chunks w o cs).
Proof. unfold missing_chunks, unexpected. conduct R. Qed.
Lemma heads_along o : along R (Client.heads w o).
Proof. unfold Client.heads, unexpected. conduct R. Qed.
Lemma store_chunk_along o c b : along R (store_chunk w o c b).
Proof. unfold store_chunk. conduct R. Qed.
Lemma store_segment_along e : along R (store_segment w e).
Proof. unfold store_segment. conduct R. Qed.
Lemma chunk_summary_along o : along R (chunk_summary w spoken o).
Proof. unfold chunk_summary, unexpected. conduct R. Qed.
Lemma may_evict_along o cs : along R (may_evict w spoken o cs).
Proof. unfold may_evict, unexpected. conduct R. Qed.
Lemma challenge_along o c n e : along R (challenge w o c n e).
Proof. unfold challenge. conduct R. Qed.
Hint Resolve missing_chunks_along heads_along store_chunk_along store_segment_along chunk_summary_along may_evict_along
  challenge_along : conduct.

Lemma or_none_along {A} (m : Sess (option A)) : along R m -> along R (or_none m).
Proof. intros Hm y. specialize (Hm y). unfold or_none. by destruct (m y) as [[]]. Qed.
Hint Resolve or_none_along : conduct.

Lemma record_holders_along cs now : along R (record_holders_at peer cs now).
Proof. unfold record_holders_at, the_store. apply along_gets. intros s. apply update_along. constructor. Qed.
Lemma record_stored_along cs now : along R (record_stored_at peer cs now).
Proof. unfold record_stored_at, the_store. apply along_gets. intros s. apply update_along. constructor. Qed.
Lemma forget_along cs : along R (forget w peer cs).
Proof.
  unfold forget, the_store, now_unix. apply along_gets. intros s. apply along_gets. intros now.
  apply update_along. constructor.
Qed.
Hint Resolve record_holders_along record_stored_along forget_along update_along : conduct.
Hint Constructors peer_update : conduct.

Lemma offer_missing_along missing stored r full : along R (offer_missing w peer missing stored r full).
Proof.
  revert stored r full. induction missing as [|c missing IH]; intros stored r full; cbn [offer_missing]; unfold the_store; conduct R.
Qed.
Hint Resolve offer_missing_along : conduct.

Lemma ask_along batch r full : along R (ask w peer batch r full).
Proof. unfold ask, the_store, now_unix. conduct R. Qed.
Hint Resolve ask_along : conduct.

Lemma walk_along bucket after only r full : along R (walk w peer bucket after only r full).
Proof.
  unfold walk, the_store. apply along_gets. intros s. generalize (S (live_chunk_count (index s))). intros fuel. clear s.
  revert after r full. induction fuel as [|fuel IH]; intros after r full; cbn [walk_go]; unfold the_store, now_unix; conduct R.
Qed.
Hint Resolve walk_along : conduct.

Lemma walk_buckets_along buckets thorough r full : along R (walk_buckets w peer buckets thorough r full).
Proof. revert r full. induction buckets as [|b buckets IH]; intros r full; cbn [walk_buckets]; conduct R. Qed.
Hint Resolve walk_buckets_along : conduct.

Lemma sweep_along only thorough r full : along R (sweep w peer only thorough r full).
Proof. unfold sweep. conduct R. Qed.
Hint Resolve sweep_along : conduct.

Lemma restamp_buckets_along buckets theirs differing now relist r :
  along R (restamp_buckets w peer buckets theirs differing now relist r).
Proof.
  revert relist r. induction buckets as [|b buckets IH]; intros relist r; cbn [restamp_buckets]; unfold the_store, now_unix; conduct R.
Qed.
Hint Resolve restamp_buckets_along : conduct.

Lemma restamp_agreeing_along theirs differing now r : along R (restamp_agreeing w peer theirs differing now r).
Proof. unfold restamp_agreeing. conduct R. Qed.
Lemma reconcile_along o : along R (reconcile w spoken o).
Proof. unfold reconcile, the_store. conduct R. Qed.
Lemma full_at_along now placed : along R (full_at peer now placed).
Proof. unfold full_at, ledger. conduct R. Qed.
Lemma refresh_released_page_along page : along R (refresh_released_page w peer page).
Proof. unfold refresh_released_page, the_store, now_unix. conduct R. Qed.
Hint Resolve restamp_agreeing_along reconcile_along full_at_along refresh_released_page_along : conduct.

Lemma refresh_released_along : along R (refresh_released w peer).
Proof.
  unfold refresh_released, ledger. apply along_gets. intros l. generalize (S (length (device_rows peer l))), (@None (DeviceId * (N * ChunkId))), 0%nat.
  intros fuel. clear l. induction fuel as [|fuel IH]; intros cursor total; cbn [refresh_released_go]; unfold ledger; conduct R.
Qed.

Lemma offer_chain_along chain r : along R (offer_chain w chain r).
Proof. revert r. induction chain as [|e chain IH]; intros r; cbn [offer_chain]; conduct R. Qed.
Hint Resolve refresh_released_along offer_chain_along : conduct.

Lemma offer_segments_along r : along R (offer_segments w r).
Proof. unfold offer_segments, the_store. conduct R. Qed.
Lemma probe_if_paused_along r : along R (probe_if_paused w peer r).
Proof. unfold probe_if_paused, the_store, now_unix. conduct R. Qed.
Lemma note_walk_along now : along R (note_walk peer now).
Proof. unfold note_walk. conduct R. Qed.
Hint Resolve offer_segments_along probe_if_paused_along note_walk_along : conduct.

Lemma sweep_everything_along r : along R (sweep_everything w peer spoken r).
Proof. unfold sweep_everything, the_store, now_unix. conduct R. Qed.
Hint Resolve sweep_everything_along : conduct.

Lemma ask_only_all_along batches now r : along R (ask_only_all w peer batches now r).
Proof. revert r. induction batches as [|b batches IH]; intros r; cbn [ask_only_all]; unfold the_store; conduct R. Qed.
Hint Resolve ask_only_all_along : conduct.

Lemma due_buckets_along buckets theirs now r : along R (due_buckets w peer buckets theirs now r).
Proof. revert r. induction buckets as [|b buckets IH]; intros r; cbn [due_buckets]; unfold the_store; conduct R. Qed.
Hint Resolve due_buckets_along : conduct.

Lemma due_walk_along now r : along R (due_walk w peer spoken now r).
Proof. unfold due_walk, the_store. conduct R. Qed.
Lemma holdings_from_random_along limit : along R (holdings_from_random w peer limit).
Proof. unfold holdings_from_random, ledger. conduct R. Qed.
Lemma ask_all_along batches r full : along R (ask_all w peer batches r full).
Proof. revert r full. induction batches as [|b batches IH]; intros r full; cbn [ask_all]; conduct R. Qed.
Hint Resolve due_walk_along holdings_from_random_along ask_all_along : conduct.

Lemma short_round_along r p full : along R (short_round w peer r p full).
Proof. unfold short_round, the_store. conduct R. Qed.
Lemma release_round_along wanting r p : along R (release_round w peer spoken wanting r p).
Proof. unfold release_round, the_store. conduct R. Qed.
Hint Resolve short_round_along release_round_along : conduct.

Lemma push_by_placement_along r p : along R (push_by_placement w peer spoken r p).
Proof. unfold push_by_placement. conduct R. Qed.
Hint Resolve push_by_placement_along : conduct.

Lemma push_placed_along scope placement : along R (push_placed w peer spoken scope placement).
Proof. unfold push_placed. conduct R. Qed.

Lemma draw_many_along n drawn : along R (draw_many w n drawn).
Proof. revert drawn. induction n as [|n IH]; intros drawn; cbn [draw_many]; conduct R. Qed.
Lemma challenge_all_along targets confirmed failed unverifiable :
  along R (challenge_all w targets confirmed failed unverifiable).
Proof.
  revert confirmed failed unverifiable. induction targets as [|c targets IH]; intros confirmed failed unverifiable;
    cbn [challenge_all]; unfold the_store; conduct R.
Qed.
Lemma note_audit_along ok now :
  along R (s <-! the_store;
           let '(record, ix) := note_audit peer ok now (index s) in on_index (fun _ => ix) ;;! ret (Some record)).
Proof.
  intros y. unfold the_store, gets, bind at 1. pose proof (updates _ y (up_audited peer ok now)) as Hu. cbn beta in Hu.
  destruct (note_audit peer ok now (index (se_store y))) as [record ix]. exact Hu.
Qed.
Hint Resolve draw_many_along challenge_all_along note_audit_along : conduct.

Lemma audit_along limit : along R (audit w peer limit).
Proof.
  unfold audit, ledger, now_unix. apply along_gets. intros l. apply (along_bind R); [conduct R|]. intros targets.
  apply (along_bind R); [conduct R|]. intros [[confirmed failed] unverifiable]. apply along_gets. intros now.
  apply (along_bind R); [conduct R|]. intros _. apply (along_bind R); [conduct R|]. intros _.
  apply (along_bind R); [|intros record; along_pure]. destruct (0 <? _)%nat; [apply note_audit_along|along_pure].
Qed.

End conduct.

(** ** What is recorded of a device *)

Record same_of (d : DeviceId) (l l' : Ledger) : Prop := mkSameOf {
  so_holders c : holders l' !! (c, d) = holders l !! (c, d);
  so_holdings t : holdings l' !! (d, t) = holdings l !! (d, t);
  so_count : holder_counts l' !! d = holder_counts l !! d;
  so_seen : device_seen l' !! d = device_seen l !! d;
  so_walked : ledger_refreshed l' !! d = ledger_refreshed l !! d;
  so_full : peer_full l' !! d = peer_full l !! d;
  so_draining : draining_until l' !! d = draining_until l !! d;
  so_roster : roster l' = roster l;
  so_reliability : reliability_table l' !! d = reliability_table l !! d;
  so_probe : probes l' !! d = probes l !! d;
  so_passed : device_passed l' !! d = device_passed l !! d;
  so_released c : released l' !! (c, d) = released l !! (c, d);
}.

#[export] Instance same_of_pre d : PreOrder (same_of d).
Proof. split; [by intros l|]. intros a b c [] []. split; intros; etransitivity; eauto. Qed.

(** Files, log and history as they were, and so is the ledger but for one device. *)
Record about (peer : DeviceId) (ix ix' : Index) : Prop := mkAbout {
  ab_files : ft ix' = ft ix;
  ab_log : lt ix' = lt ix;
  ab_rings : rg ix' = rg ix;
  ab_others d : d <> peer -> same_of d (led ix) (led ix');
}.

#[export] Instance about_pre peer : PreOrder (about peer).
Proof.
  split; [by intros ix|]. intros a b c [] []. split; [congruence..|]. intros d Hd. etransitivity; eauto.
Qed.

Ltac other_rows :=
  split; intros; cbn; rewrite ?lookup_insert_ne, ?lookup_delete_ne by (unfold holding_key; congruence); done.

Section updates.
Context {PR : Primitives} (peer : DeviceId).

Lemma bump_other d up m : d <> peer -> bump peer up m !! d = m !! d.
Proof. intros Hd. unfold bump. destruct (_ =? 0); [by rewrite lookup_delete_ne|by rewrite lookup_insert_ne]. Qed.

Lemma about_led f ix : (forall d, d <> peer -> same_of d (led ix) (f (led ix))) -> about peer ix (on_led f ix).
Proof. by split. Qed.

Lemma foldl_same {A} d (f : Ledger -> A -> Ledger) l l0 :
  (forall l a, same_of d l (f l a)) -> same_of d l0 (foldl f l0 l).
Proof. intros Hf. revert l0. induction l as [|a l IH]; intros l0; cbn; [done|]. etransitivity; [apply Hf|apply IH]. Qed.

Section one_device.
Context (key : list N) (d : DeviceId) (Hd : d <> peer).

Lemma add_holder_other now l c : same_of d l (add_holder key peer now l c).
Proof.
  unfold add_holder. destruct (holders l !! (c, peer)); [other_rows|].
  split; intros; cbn; rewrite ?lookup_insert_ne, ?bump_other by (unfold holding_key; congruence); done.
Qed.

Lemma drop_holder_other l c : same_of d l (drop_holder key peer l c).
Proof.
  unfold drop_holder. destruct (holders l !! (c, peer)); [|other_rows].
  split; intros; cbn; rewrite ?lookup_delete_ne, ?bump_other by (unfold holding_key; congruence); done.
Qed.

Lemma record_due_other due now l : same_of d l (record_due key due peer now l).
Proof.
  unfold record_due. destruct (_ && _); [done|]. etransitivity; [|apply foldl_same; intros; apply add_holder_other]. other_rows.
Qed.

Lemma released_other (m : gmap (ChunkId * DeviceId) N) (f : gmap (ChunkId * DeviceId) N -> ChunkId -> gmap (ChunkId * DeviceId) N) cs c :
  (forall m x, f m x !! (c, d) = m !! (c, d)) -> foldl f m cs !! (c, d) = m !! (c, d).
Proof. intros Hf. revert m. induction cs as [|x cs IH]; intros m; cbn; [done|]. by rewrite IH. Qed.

Lemma clear_released_other cs l : same_of d l (clear_released cs peer l).
Proof.
  unfold clear_released. destruct (existsb _ _); [|done]. split; intros; cbn; try done.
  apply released_other. intros m x. rewrite lookup_delete_ne; [done|congruence].
Qed.

Lemma note_released_other cs now l : same_of d l (note_released cs peer now l).
Proof.
  unfold note_released. split; intros; cbn; try done. apply released_other. intros m x. rewrite lookup_insert_ne; [done|congruence].
Qed.

End one_device.

Lemma forget_holders_about key cs now ix : about peer ix (forget_holders key cs peer now ix).
Proof.
  unfold forget_holders. revert ix. induction cs as [|c cs IH]; intros ix; cbn; [done|]. etransitivity; [|apply IH].
  unfold forget_one. assert (Ha : about peer ix (on_led (fun l => drop_holder key peer l c) ix))
    by (apply about_led; intros d Hd; by apply drop_holder_other).
  destruct (holders (led ix) !! (c, peer)); [|done]. destruct Ha as [H1 H2 H3 H4]. by split.
Qed.

Lemma note_audit_about ok now ix : about peer ix (note_audit peer ok now ix).2.
Proof.
  unfold note_audit. cbn [snd]. set (l' := mkLedger _ _ _ _ _ _ _ _ _ _ _ _).
  assert (Ha : about peer ix (on_led (fun _ => l') ix)).
  { apply about_led. intros d Hd. unfold l'. destruct ok; other_rows. }
  destruct (_ && _); [|done]. destruct Ha as [H1 H2 H3 H4]. by split.
Qed.

Lemma update_is_about f ix : peer_update peer f -> about peer ix (f ix).
Proof.
  destruct 1; try (apply about_led; intros d Hd); try done.
  - unfold record_holders. destruct cs; [done|]. by apply record_due_other.
  - unfold record_stored. destruct cs; [done|]. etransitivity; [by apply clear_released_other|by apply record_due_other].
  - apply forget_holders_about.
  - other_rows.
  - other_rows.
  - other_rows.
  - by apply note_released_other.
  - apply note_audit_about.
Qed.

End updates.

(** ** The theorem *)

(** Everything of a session but what concerns the peer: the disk, the vault, the
    keys, the files, the log, the history, and the ledger of every other device. *)
Record conducts (peer : DeviceId) (y y' : Session) : Prop := mkConducts {
  co_vault : se_vault y' = se_vault y;
  co_blobs : blobs (se_store y') = blobs (se_store y);
  co_user : user (se_store y') = user (se_store y);
  co_device : device_keys (se_store y') = device_keys (se_store y);
  co_budget : budget (se_store y') = budget (se_store y);
  co_index : about peer (index (se_store y)) (index (se_store y'));
}.

#[export] Instance conducts_pre peer : PreOrder (conducts peer).
Proof.
  split; [by intros y|]. intros a b c [] []. split; [congruence..|]. by etransitivity.
Qed.

Section theorem.
Context {PR : Primitives} (w : World) (peer : DeviceId) (spoken : N).

Lemma request_conducts r : along (conducts peer) (request w r).
Proof. intros y. unfold request. destruct (answers w _ r); by split. Qed.

Lemma draw_conducts : along (conducts peer) (draw w).
Proof. intros y. by split. Qed.

Lemma update_conducts f y :
  peer_update peer f -> conducts peer y (with_store (set_index (f (index (se_store y))) (se_store y)) y).
Proof. intros Hf. split; try done. by apply update_is_about. Qed.

Lemma push_conducts scope placement : along (conducts peer) (push_placed w peer spoken scope placement).
Proof.
  apply (push_placed_along w peer spoken (conducts peer)); [apply request_conducts|apply draw_conducts|apply update_conducts].
Qed.

Lemma audit_conducts limit : along (conducts peer) (audit w peer limit).
Proof. apply (audit_along w peer (conducts peer)); [apply request_conducts|apply draw_conducts|apply update_conducts]. Qed.

(** A push and an audit, whatever the peer answers, change nothing but what
    is recorded of that peer and the queue of chunks short of copies: the blobs,
    the vault, the files, the log and the contact history stay as they were, and
    of every other device the ledger keeps the same records, the same audits,
    the same standing. *)
Theorem push_and_audit_touch_only_the_peer scope placement limit y :
  conducts peer y (push_placed w peer spoken scope placement y).2 /\ conducts peer y (audit w peer limit y).2.
Proof. split; [apply push_conducts|apply audit_conducts]. Qed.

End theorem.
