(* ===== verification/Hosting.v ===== *)
(** * Hosting: taking what a dialled peer wants held

    [host_for_bounded] of [Session] writes to the vault without going through the
    handlers of [Peer], so it keeps the pledge by a count of its own: the room
    left when it began, less what it wrote.  With any peer and any [Owners], the
    vault stays within the pledge, and what the peer is then told is held is on
    this disk. *)

From S2P Require Import Prelude Version Ids Network Crypto Uptime Target Nodeset Oplog Wire IndexState Files Summary.
From S2P Require Import Ledger Log ShortQueue Rings Blob Index Store Vault VaultAccounts Accounting Claims Placement.
From S2P Require Import ClaimBook Peer Serving Pledge Engine Client Session.
Import Offered.

Lemma owner_blobs_set_disk o x b v : owner_blobs x (set_disk (<[o := b]> (disk v)) v) = if decide (x = o) then b else owner_blobs x v.
Proof.
  unfold owner_blobs. cbn. case_decide as E; [subst; by rewrite lookup_insert_eq|by rewrite lookup_insert_ne].
Qed.

Lemma index_chunk_owner_blobs o c n x v : owner_blobs x (index_chunk o c n v) = owner_blobs x v.
Proof. unfold index_chunk. destruct (unmark o c (mt v)). by case_decide. Qed.

(** A write that reported success left the chunk there, and took nothing away. *)
Lemma put_chunk_lands o c s v fresh v' :
  put_chunk o c s v = (Ok fresh, v') ->
  is_Some (owner_blobs o v' !! c)
  /\ (forall x, is_Some (owner_blobs o v !! x) -> is_Some (owner_blobs o v' !! x)).
Proof.
  rewrite put_chunk_eq. destruct (plugged v); [|done]. intros [= <- <-].
  rewrite index_chunk_owner_blobs, owner_blobs_set_disk, decide_True by done. split; [by rewrite lookup_insert_eq; eauto|].
  intros x Hx. destruct (decide (x = c)) as [->|Hne]; [by rewrite lookup_insert_eq; eauto|by rewrite lookup_insert_ne].
Qed.

(** A write of a chunk already there adds nothing. *)
Lemma put_chunk_again o c s v v' : covered v -> put_chunk o c s v = (Ok false, v') -> total v' <= total v.
Proof.
  intros Hc. rewrite put_chunk_eq. destruct (plugged v); [|done].
  destruct (owner_blobs o v !! c) as [kept|] eqn:Ek; [|by rewrite bool_decide_true].
  intros [= <-]. cbn [default id]. unfold index_chunk. destruct (unmark o c _) as [u m].
  case_decide as Hd; [unfold total; cbn; lia|]. unfold total. cbn [ct set_mt set_ct set_disk retotal rows chains].
  pose proof (map_sum_insert id (rows (ct v)) (o, c) (N.of_nat (length kept))) as H.
  rewrite (Hc o c kept Ek) in H. cbn in H. lia.
Qed.

Lemma has_chunk_reads o c v r v' :
  has_chunk o c v = (r, v') ->
  shrinks v v' /\ (forall x, owner_blobs o v' !! x = owner_blobs o v !! x)
  /\ (r = Ok true -> is_Some (owner_blobs o v !! c)).
Proof.
  unfold has_chunk, bind. pose proof (blobs_for_shrinks o v) as Hs. unfold blobs_for in *.
  destruct (plugged v); [|by intros [= <- <-]]. intros [= <- <-]. split_and!; [done| |].
  - intros x. by rewrite owner_blobs_set_disk, decide_True.
  - unfold blob_contains. intros [= Hb]. by apply bool_decide_eq_true in Hb.
Qed.

Section hosting.
Context (w : World) (peer : DeviceId) {B : Type} {OW : Owners B} (around : Around) (pledge : N).

(** What the loop keeps: the vault within the pledge by the room still to spend,
    and everything counted as taken on the disk. *)
Definition hosting (o : UserId) (room : N) (taken : list ChunkId) (v : Vault) : Prop :=
  (suspect v = true \/ (totals_ok (ct v) /\ covered v /\ total v + room <= pledge))
  /\ forall c, c ∈ taken -> is_Some (owner_blobs o v !! c).

Lemma hosting_within o room taken v : hosting o room taken v -> within pledge v.
Proof. intros [[Hs|(Ht & Hc & Hb)] _]; [by left|]. right. split_and!; [done|done|lia]. Qed.

Lemma hosting_shrinks o room taken v v' :
  pledge <= u64_max -> shrinks v v' -> (forall x, owner_blobs o v' !! x = owner_blobs o v !! x) ->
  hosting o room taken v -> hosting o room taken v'.
Proof.
  intros Hp [Hs Hk] Hb [Hv Hin]. split; [|intros c Hc; rewrite Hb; by apply Hin].
  destruct (suspect v') eqn:Es; [by left|]. right. destruct Hv as [Hv|(Ht & Hc & Hr)]; [rewrite Hs in Hv; done|].
  destruct (Hk ltac:(lia)) as [(_ & K1 & _ & K3) Ht']. split_and!; [by apply K1|by apply K3|lia].
Qed.

Lemma hosting_put o room taken v c s fresh v' :
  pledge <= u64_max -> N.of_nat (length s) <= room -> hosting o room taken v -> put_chunk o c s v = (Ok fresh, v') ->
  hosting o (if fresh then room - N.of_nat (length s) else room) (taken ++ [c]) v'.
Proof.
  intros Hp Hl [Hv Hin] E. pose proof (put_chunk_lands o c s v fresh v' E) as [Hc1 Hc2].
  split; [|intros x [Hx|Hx%list_elem_of_singleton]%elem_of_app; [by apply Hc2, Hin|by subst]].
  pose proof (put_chunk_suspect o c s v) as Hs. pose proof (put_chunk_total o c s v) as Ht.
  pose proof (put_chunk_keeps o c s v) as Hk. rewrite E in *. cbn [snd] in *.
  destruct (suspect v') eqn:Es; [by left|]. right. destruct Hv as [Hv|(Htot & Hc & Hr)]; [rewrite Hs in Hv; done|].
  specialize (Ht Hc). destruct (Hk ltac:(unfold vault_fits, total in *; lia)) as (_ & K1 & _ & K3).
  split_and!; [by apply K1|by apply K3|]. destruct fresh; [lia|]. pose proof (put_chunk_again o c s v v' Hc E). lia.
Qed.

Definition is_hosted (r : Req.Request) : bool := match r with Req.Hosted _ => true | _ => false end.

(** What an exchange that tells the peer nothing adds to the log. *)
Definition quiet (y y' : Session) : Prop :=
  exists new, se_log y' = se_log y ++ new /\ Forall (fun p => is_hosted p.1 = false) new.

#[local] Instance quiet_pre : PreOrder quiet.
Proof.
  split; [intros y; exists []; by rewrite app_nil_r|]. intros x y z (n1 & E1 & F1) (n2 & E2 & F2).
  exists (n1 ++ n2). rewrite E2, E1, app_assoc. split; [done|by apply Forall_app].
Qed.

Lemma chunk_quiet o c y r y' : chunk w o c y = (r, y') -> quiet y y' /\ se_vault y' = se_vault y.
Proof.
  unfold chunk, request, bind. destruct (answers w _ _) as [a|]; [|intros [= <- <-]; split; [|done]].
  - intros E. assert (Ey : y' = mkSession (se_store y) (se_vault y) (S (se_asked y)) (se_drawn y)
      (se_log y ++ [(Req.Chunk o c, a)])) by (destruct a; unfold unexpected, ret, throw in E; congruence).
    subst y'. split; [|done]. exists [(Req.Chunk o c, a)]. split; [done|]. by repeat constructor.
  - exists []. by rewrite app_nil_r.
Qed.

Lemma bounded_quiet o n b y r y' :
  bounded peer around pledge o n b y = (r, y') -> quiet y y' /\ se_vault y' = se_vault y /\ exists x, r = Ok x.
Proof.
  assert (Hq : quiet y y) by done. unfold bounded. destruct b as [b|]; [|intros [= <- <-]; eauto].
  destruct (ow_admits _ _ _ _ _ _ _ _) as [a [b' s]]. intros [= <- <-]. split_and!; [exact Hq|done|eauto].
Qed.

(** A loop ended, with what it took on the disk. *)
Definition ended (o : UserId) (all : list ChunkId) (y : Session)
  (p : result NetError (list ChunkId * HostReport * option B) * Session) : Prop :=
  quiet y p.2 /\ within pledge (se_vault p.2)
  /\ forall t r b, p.1 = Ok (t, r, b) -> t ⊆ all /\ forall c, c ∈ t -> is_Some (owner_blobs o (se_vault p.2) !! c).

Lemma ended_ok o all room taken r b y y' :
  quiet y y' -> hosting o room taken (se_vault y') -> taken ⊆ all -> ended o all y (Ok (taken, r, b), y').
Proof.
  intros Hq Hh Hs. split_and!; [done|by eapply hosting_within|]. intros t r' b' [= <- _ _]. split; [done|apply Hh].
Qed.

Lemma ended_err o all e y y' : quiet y y' -> within pledge (se_vault y') -> ended o all y (Err e, y').
Proof. intros Hq Hw. by split_and!. Qed.

Lemma ended_trans o all all' y y1 p : quiet y y1 -> all ⊆ all' -> ended o all y1 p -> ended o all' y p.
Proof.
  intros Hq Hs (Hq1 & Hw & Hr). split_and!; [by etransitivity|done|]. intros t r b Et. destruct (Hr t r b Et). by split; [etransitivity|].
Qed.

Lemma vault_quiet y v : quiet y (mkSession (se_store y) v (se_asked y) (se_drawn y) (se_log y)).
Proof. exists []. by rewrite app_nil_r. Qed.

(** One fetched chunk, written, and the rest of the loop. *)
Lemma take_one o c sealed room taken y rest all y0 :
  pledge <= u64_max -> N.of_nat (length sealed) <= room -> hosting o room taken (se_vault y) -> quiet y0 y ->
  (forall (fresh : bool) y', quiet y0 y' ->
     hosting o (if fresh then room - N.of_nat (length sealed) else room) (taken ++ [c]) (se_vault y') ->
     ended o all y0 (rest fresh y')) ->
  ended o all y0 ((fresh <-! on_the_vault (put_chunk o c sealed); rest fresh) y).
Proof.
  intros Hp Hl Hh Hq Hrest. unfold bind, on_the_vault.
  pose proof (put_chunk_within pledge o c sealed (se_vault y) Hp) as Hpw.
  destruct (put_chunk o c sealed (se_vault y)) as [[fresh|e] v] eqn:Ep.
  - apply Hrest; [by rewrite <- vault_quiet|by eapply hosting_put].
  - apply ended_err; [by rewrite <- vault_quiet|]. apply Hpw; [|by eapply hosting_within].
    intros Hs. destruct Hh as [[Hx|(_ & _ & Hr)] _]; [congruence|lia].
Qed.

Lemma take_hosted_keeps o wanted room taken r b y :
  pledge <= u64_max -> hosting o room taken (se_vault y) ->
  ended o (taken ++ wanted) y (take_hosted w peer around pledge o wanted room taken r b y).
Proof.
  intros Hp. revert room taken r b y. induction wanted as [|c wanted IH]; intros room taken r b y Hy.
  { eapply ended_ok; [done|exact Hy|]. by rewrite app_nil_r. }
  assert (Hgo : forall y1 room1 taken1 r1 b1, quiet y y1 -> hosting o room1 taken1 (se_vault y1) ->
    taken1 ⊆ taken ++ [c] ->
    ended o (taken ++ c :: wanted) y (take_hosted w peer around pledge o wanted room1 taken1 r1 b1 y1)).
  { intros y1 room1 taken1 r1 b1 Hq H1 Ht. eapply ended_trans; [exact Hq| |by apply IH]. set_solver. }
  assert (Hsub : taken ⊆ taken ++ c :: wanted) by set_solver.
  cbn [take_hosted]. unfold bind at 1, on_the_vault at 1.
  destruct (has_chunk o c (se_vault y)) as [here v1] eqn:Eh.
  destruct (has_chunk_reads _ _ _ _ _ Eh) as (Hs1 & Hb1 & Hh).
  pose proof (hosting_shrinks _ _ _ _ _ Hp Hs1 Hb1 Hy) as H1. pose proof (vault_quiet y v1) as Hq1.
  set (y1 := mkSession _ v1 _ _ _) in *. destruct here as [[]|e]; [| |by apply ended_err; [|eapply hosting_within]].
  - apply Hgo; [done| |done]. split; [apply H1|].
    intros x [Hx|Hx%list_elem_of_singleton]%elem_of_app; [by apply H1|subst x; cbn; rewrite Hb1; by apply Hh].
  - unfold bind at 1. destruct (chunk w o c y1) as [got y2] eqn:Ec. destruct (chunk_quiet _ _ _ _ _ Ec) as [Hq2 Ev2].
    assert (H2 : hosting o room taken (se_vault y2)) by by rewrite Ev2.
    assert (Hq02 : quiet y y2) by by etransitivity.
    destruct got as [[sealed|]|e]; [|by apply Hgo; [| |set_solver]|by apply ended_err; [|eapply hosting_within]].
    destruct (room <? N.of_nat (length sealed)) eqn:Er; [by eapply ended_ok|]. apply N.ltb_ge in Er.
    unfold bind at 1. destruct (bounded peer around pledge o (N.of_nat (length sealed)) b y2) as [why y3] eqn:Eb.
    destruct (bounded_quiet _ _ _ _ _ _ Eb) as (Hq3 & Ev3 & [[why' b3] ->]).
    assert (H3 : hosting o room taken (se_vault y3)) by by rewrite Ev3.
    assert (Hq03 : quiet y y3) by by etransitivity.
    destruct why' as [why'|]; [by eapply ended_ok|].
    eapply take_one; [done|exact Er|done|done|]. intros fresh y4 Hq4 H4. destruct fresh; by apply Hgo.
Qed.

(** What the peer was told is held is what it wanted, and is on this disk. *)
Definition told_the_truth (y y' : Session) : Prop :=
  forall chunks a, (Req.Hosted chunks, a) ∈ drop (length (se_log y)) (se_log y') ->
    exists o wanted, (Req.WantHosted PER_ROUND, Res.WantHosted o wanted) ∈ drop (length (se_log y)) (se_log y')
      /\ chunks ⊆ wanted /\ forall c, c ∈ chunks -> is_Some (owner_blobs o (se_vault y') !! c).

Lemma quiet_tells_nothing y y' : quiet y y' -> told_the_truth y y'.
Proof.
  intros (new & El & Hnew) chunks a. rewrite El, drop_app_length. rewrite Forall_forall in Hnew. by intros Hx%Hnew.
Qed.

Lemma hosted_tells y y1 taken o wanted :
  (Req.WantHosted PER_ROUND, Res.WantHosted o wanted) ∈ drop (length (se_log y)) (se_log y1) -> quiet y y1 ->
  taken ⊆ wanted -> (forall c, c ∈ taken -> is_Some (owner_blobs o (se_vault y1) !! c)) ->
  se_vault (hosted w taken y1).2 = se_vault y1 /\ told_the_truth y (hosted w taken y1).2.
Proof.
  intros Hw (new & El & Hnew) Hs Hin. unfold hosted, request, bind. rewrite El, drop_app_length in Hw.
  destruct (answers w (se_asked y1) _) as [answer|].
  - set (y2 := mkSession _ _ _ _ _).
    assert (Ey : (match answer with Res.Stored accepted => ret accepted | _ => unexpected "stored" answer end y2).2 = y2)
      by (by destruct answer). rewrite Ey. split; [done|].
    intros chunks a. cbn [se_log y2]. rewrite El, <- app_assoc, drop_app_length. intros Hx. exists o, wanted.
    split; [set_solver|]. apply elem_of_app in Hx as [Hx|Hx%list_elem_of_singleton]; [|by injection Hx as -> ->].
    rewrite Forall_forall in Hnew. by apply Hnew in Hx.
  - split; [done|]. apply quiet_tells_nothing. by exists new.
Qed.

Definition settles (y y' : Session) : Prop := within pledge (se_vault y') /\ told_the_truth y y'.

Lemma settles_held y y' :
  pledge <= u64_max -> settles y y' ->
  (suspect (se_vault y') = false -> held_bytes (se_vault y') <= pledge) /\ told_the_truth y y'.
Proof.
  intros Hp [[Hs|(Ht & _ & Hb)] Ht']; split; [congruence|done| |done]. intros _. rewrite held_exact by (done || lia). done.
Qed.

(** C16. Hosting over a dialled connection, whatever the peer asks for and serves
    and whatever policy bounds it: a vault whose accounts are exact stays within
    the pledge, and every chunk the peer is then told is held was one it asked
    for and is on this disk under the account it named. *)
Theorem hosting_is_bounded_and_honest (b : option B) y :
  pledge <= u64_max ->
  totals_ok (ct (se_vault y)) -> covered (se_vault y) -> total (se_vault y) <= pledge ->
  let y' := (host_for_bounded w peer around pledge b y).2 in
  (suspect (se_vault y') = false -> held_bytes (se_vault y') <= pledge) /\ told_the_truth y y'.
Proof.
  intros Hp Ht Hc Hb. apply (settles_held y); [done|].
  assert (Hw : within pledge (se_vault y)) by by right.
  unfold host_for_bounded, bind at 1, gets. cbn [id].
  destruct (pledge <=? held_bytes (se_vault y)) eqn:Ef.
  { split; [done|]. by apply (quiet_tells_nothing y y). }
  apply N.leb_gt in Ef. rewrite held_exact in Ef |- * by (done || lia).
  unfold bind at 1, want_hosted, bind at 1, request.
  destruct (answers w (se_asked y) _) as [answer|]; [|split; [done|apply quiet_tells_nothing; exists []; cbn; by rewrite app_nil_r]].
  set (y1 := mkSession _ _ _ _ _).
  assert (Hq1 : quiet y y1) by (exists [(Req.WantHosted PER_ROUND, answer)]; split; [done|by repeat constructor]).
  pose proof (quiet_tells_nothing _ _ Hq1) as Hn1.
  destruct answer as [| | | | | | | |o wanted| | | | | |]; try exact (conj Hw Hn1).
  unfold ret, bind at 1.
  destruct (take_hosted_keeps o wanted (pledge - total (se_vault y)) [] (mkHostReport (length wanted) 0 0 0 false None) b y1)
    as ((new & El & Hnew) & Hw2 & Hg); [done| |].
  { split; [right; cbn; split_and!; [done|done|lia]|]. intros c Hc'. by apply not_elem_of_nil in Hc'. }
  destruct (take_hosted _ _ _ _ _ _ _ _ _ _ y1) as [got y2]. cbn [fst snd] in *.
  assert (Hq2 : quiet y y2) by (etransitivity; [exact Hq1|by exists new]).
  pose proof (quiet_tells_nothing _ _ Hq2) as Hn2.
  destruct got as [[[taken r] b']|e]; [|done]. destruct (Hg _ _ _ eq_refl) as [Hsub Hin].
  unfold bind at 1. destruct (bool_decide (taken = [])); [done|].
  destruct (hosted_tells y y2 taken o wanted) as [Ev Htell]; [|done|done|done|].
  { rewrite El. cbn [se_log y1]. rewrite <- app_assoc, drop_app_length. set_solver. }
  unfold bind. destruct (hosted w taken y2) as [[x|e] y3]; cbn [fst snd ret] in *; (split; [rewrite Ev; exact Hw2|exact Htell]).
Qed.

End hosting.

(** ** A pledge of three bytes and two chunks of two *)

Module Dialled.

Import Toy StoreSample SixHosts Guest.

Definition wanting : World :=
  mkWorld (fun _ r => match r with
                      | Req.WantHosted _ => Some (Res.WantHosted 8 [5; 6])
                      | Req.Chunk _ c => Some (Res.Chunk (Some [c; c]))
                      | _ => Some (Res.Stored true)
                      end) (fun _ => 50) (fun _ => 0).

Definition empty_handed : Session := mkSession met_store (open len0 fresh_vault) 0 0 [].

End Dialled.

Import Dialled.

(** One chunk is taken and reported, the other would pass the pledge. *)
Lemma hosting_is_bounded_and_honest_witness :
  let y' := (host_for_bounded wanting 22 Guest.around 3 (Some unscoped) empty_handed).2 in
  held_bytes (se_vault y') <= 3 /\ told_the_truth empty_handed y'
  /\ held_bytes (se_vault y') = 2 /\ last (se_log y') = Some (Req.Hosted [5], Res.Stored true).
Proof.
  cbn zeta. destruct (hosting_is_bounded_and_honest wanting 22 Guest.around 3 (Some unscoped) empty_handed) as [H1 H2].
  - vm_compute. discriminate.
  - assert (E : ct (se_vault empty_handed) = mkCT ∅ (Some 0) true ∅) by (vm_compute; reflexivity).
    rewrite E. split_and!; [done|done|]. intros o. rewrite owner_sum_empty. reflexivity.
  - intros o c s Hs. exfalso. assert (Hd : disk (se_vault empty_handed) = ∅) by (vm_compute; reflexivity).
    unfold owner_blobs in Hs. rewrite Hd in Hs. discriminate Hs.
  - vm_compute. discriminate.
  - split_and!; [apply H1; vm_compute; reflexivity|exact H2|vm_compute; reflexivity..].
Defined.
