(* ===== verification/Rounds.v ===== *)
(** * Rounds: what a session can and cannot do to this device

    Theorems about [Session], against any peer: the chains a peer serves are
    merged apart, so one that does not verify stops none of the others; and a
    chain longer than one request is merged only as far as its first page. *)

From S2P Require Import Prelude Version Ids Network Crypto Uptime Target Nodeset Oplog Wire IndexState Files Summary.
From S2P Require Import Ledger Log ShortQueue Rings Blob Index Store Vault VaultAccounts Accounting Claims Placement.
From S2P Require Import ClaimBook Peer Serving Pledge Engine Client Session Chunker.
Import Offered.

(** ** Chains apart *)

Lemma sorted_sublist {A} (R : relation A) (l k : list A) : l `sublist_of` k -> StronglySorted R k -> StronglySorted R l.
Proof.
  induction 1 as [|x l k Hs IH|x l k Hs IH]; intros Hk; [done| |]; apply StronglySorted_inv in Hk as [Hk Hx]; [|by apply IH].
  constructor; [by apply IH|]. apply Forall_forall. intros y Hy. rewrite Forall_forall in Hx. apply Hx.
  by apply (sublist_subseteq _ _ Hs).
Qed.

Lemma btree_iter_delete {K V} `{Countable K, !KeyOrd K} (m : gmap K V) (k : K) :
  btree_iter (delete k m) = filter (fun p => p.1 <> k) (btree_iter m).
Proof.
  apply btree_iter_unique.
  - eapply sorted_sublist; [apply sublist_filter|apply StronglySorted_btree_iter].
  - apply NoDup_Permutation.
    + apply NoDup_filter. rewrite btree_iter_perm. apply NoDup_map_to_list.
    + apply NoDup_map_to_list.
    + intros [k' v]. rewrite list_elem_of_filter, elem_of_btree_iter, elem_of_map_to_list, lookup_delete_Some.
      cbn. naive_solver.
Qed.

Lemma by_device_snoc l e :
  by_device (l ++ [e]) = <[device e := default [] (by_device l !! device e) ++ [e]]> (by_device l).
Proof. unfold by_device. by rewrite foldl_app. Qed.

Lemma by_device_without l d : by_device (filter (fun e => device e <> d) l) = delete d (by_device l).
Proof.
  induction l as [|e l IH] using rev_ind; [unfold by_device; cbn; by rewrite delete_empty|].
  rewrite filter_app, by_device_snoc. destruct (decide (device e = d)) as [Hd|Hd].
  - rewrite (filter_cons_False _ e) by tauto. rewrite filter_nil, app_nil_r, IH. subst d.
    by rewrite delete_insert_eq.
  - rewrite (filter_cons_True _ e) by done. rewrite filter_nil, by_device_snoc, IH.
    rewrite lookup_delete_ne by done. by rewrite delete_insert_ne.
Qed.

Section chains.
Context `{!Primitives, !BodyCodec} (out : Outside).

Lemma verifies_user s s' chain : user s' = user s -> verifies s' chain = verifies s chain.
Proof.
  intros Hu. unfold verifies, open_segment, owner_of. by rewrite Hu.
Qed.

(** What a merge of chains apart returns, with a device added to the refused. *)
Definition also_refused (d : DeviceId) (p : result SyncError (gset DeviceId * SyncReport) * Syncing) :=
  match p with
  | (Ok (refused, total), z) => (Ok ({[d]} ∪ refused, total), z)
  | (Err e, z) => (Err e : result SyncError (gset DeviceId * SyncReport), z)
  end.

Lemma apply_chains_apart_refused replay chains d refused total y :
  apply_chains_apart out replay chains ({[d]} ∪ refused) total y
  = also_refused d (apply_chains_apart out replay chains refused total y).
Proof.
  revert refused total y. induction chains as [|[x chain] chains IH]; intros refused total y; [done|].
  assert (Hrest : forall y1, (if negb (verifies (local y) chain)
      then apply_chains_apart out replay chains ({[x]} ∪ ({[d]} ∪ refused)) total
      else (round <-! apply_replaying out chain replay;
            apply_chains_apart out replay chains ({[d]} ∪ refused) (absorb round.1 total))) y1
    = also_refused d ((if negb (verifies (local y) chain)
      then apply_chains_apart out replay chains ({[x]} ∪ refused) total
      else (round <-! apply_replaying out chain replay;
            apply_chains_apart out replay chains refused (absorb round.1 total))) y1)).
  { intros y1. destruct (negb (verifies (local y) chain)).
    - rewrite <- IH. f_equal. set_solver.
    - unfold bind. destruct (apply_replaying out chain replay y1) as [[round|e] y2]; [apply IH|done]. }
  cbn [apply_chains_apart]. unfold bind at 1 4, gets.
  destruct (match replay with OthersOnly => _ | IncludingOwn => _ end); [apply IH|].
  unfold bind at 1 3. destruct (x =? store_device (local y)); [|apply Hrest].
  unfold lift. destruct (own_chain_checks (local y) chain) as [[]|e]; [apply Hrest|done].
Qed.

Lemma apply_chains_apart_without chains d chain refused total y :
  d <> store_device (local y) -> (d, chain) ∈ chains -> NoDup chains.*1 -> verifies (local y) chain = false ->
  apply_chains_apart out OthersOnly chains refused total y
  = also_refused d (apply_chains_apart out OthersOnly (filter (fun p => p.1 <> d) chains) refused total y).
Proof.
  intros Hd Hin Hnd Hv. revert refused total y Hd Hv.
  induction chains as [|[x c] chains IH]; intros refused total y Hd Hv; [by apply not_elem_of_nil in Hin|].
  cbn in Hnd. apply NoDup_cons in Hnd as [Hx Hnd]. destruct (decide (x = d)) as [->|Hne].
  - assert (Hc : c = chain).
    { apply elem_of_cons in Hin as [[= ->]|Hin]; [done|]. destruct Hx. by apply (list_elem_of_fmap_2 fst _ _ Hin). }
    subst c. rewrite filter_cons_False by (cbn; tauto).
    assert (Hf : filter (fun p : DeviceId * list SegmentEnvelope => p.1 <> d) chains = chains).
    { clear -Hx. induction chains as [|[x c] chains IH]; [done|]. cbn in Hx. apply not_elem_of_cons in Hx as [Hx1 Hx2].
      rewrite filter_cons_True by (cbn; congruence). by rewrite IH. }
    rewrite Hf. cbn [apply_chains_apart]. unfold bind, gets, ret.
    rewrite (proj2 (N.eqb_neq _ _) Hd), Hv. cbn [negb].
    apply apply_chains_apart_refused.
  - apply elem_of_cons in Hin as [[= ? ?]|Hin]; [by subst|]. rewrite filter_cons_True by done.
    cbn [apply_chains_apart]. unfold bind, gets, ret.
    destruct (x =? store_device (local y)) eqn:Ex; [by apply IH|].
    destruct (negb (verifies (local y) c)); [by apply IH|].
    destruct (apply_replaying out c OthersOnly y) as [[round|e] y2] eqn:Er; [|done].
    apply (apply_chains_keeps out) in Er as [_ Hu _ _ _ Hk _ _].
    apply IH; [done|done| |by rewrite (verifies_user _ _ _ Hu)].
    unfold store_device in *. by rewrite Hk.
Qed.

(** C15. A chain that does not verify, served under a device's name by a host or
    by anybody with a key, changes nothing but the list of refused devices: the
    merge of every other chain, its report, its errors and the store it leaves
    are those of a round in which that chain was never served. *)
Theorem forged_chain_stops_nothing segments refused d chain y :
  d <> store_device (local y) -> by_device segments !! d = Some chain -> verifies (local y) chain = false ->
  apply_per_chain out segments refused OthersOnly y
  = also_refused d (apply_per_chain out (filter (fun e => device e <> d) segments) refused OthersOnly y).
Proof.
  intros Hd Hc Hv. unfold apply_per_chain. rewrite by_device_without, btree_iter_delete.
  eapply apply_chains_apart_without; [done| |apply NoDup_btree_keys|done]. by apply elem_of_btree_iter.
Qed.

End chains.

(** ** A chain longer than a page *)

Section pages.
Context {PR : Primitives} {BC : BodyCodec} (w : World) (peer : DeviceId) (encoded_len : SegmentEnvelope -> N).

(** Two vaults that name the same heads and differ, if at all, past the first
    request's worth of each chain of the account. *)
Definition same_first_page (s : Store) (v v' : Vault) : Prop :=
  heads_for (owner_of s) v' = heads_for (owner_of s) v
  /\ Forall (fun h => take (N.to_nat MAX_SEGMENTS_PER_REQUEST) (chain_rows (owner_of s) h.1.1 v')
                      = take (N.to_nat MAX_SEGMENTS_PER_REQUEST) (chain_rows (owner_of s) h.1.1 v))
       (heads_for (owner_of s) v).

Lemma replayed_first_page s v v' : same_first_page s v v' -> replayed s v' = replayed s v.
Proof.
  intros [Hh Hr]. unfold replayed. rewrite Hh. clear Hh.
  induction Hr as [|h l Hr _ IH]; [done|]. destruct (decide (h.1.1 <> store_device s)).
  - rewrite filter_cons_True by done. cbn [mbind list_bind]. f_equal; [|exact IH]. unfold segments_for.
    by rewrite Nat.max_l by (apply Nat.leb_le; vm_compute; reflexivity).
  - by rewrite filter_cons_False by done.
Qed.

Definition merge_keeps (y z : Syncing) : Prop := keeps (local y) (local z).

#[local] Instance merge_keeps_pre : PreOrder merge_keeps.
Proof. split; [intros y; unfold merge_keeps; reflexivity|]. intros x y z Hx Hy. unfold merge_keeps in *. by etransitivity. Qed.

Lemma apply_chains_apart_keeps out replay chains refused total :
  along merge_keeps (apply_chains_apart out replay chains refused total).
Proof.
  revert refused total. induction chains as [|[d chain] chains IH]; intros refused total; [along_pure|].
  apply along_gets. intros s. destruct (match replay with OthersOnly => _ | IncludingOwn => _ end); [apply IH|].
  apply (along_bind merge_keeps); [destruct (d =? store_device s); along_pure|]. intros _.
  destruct (negb (verifies s chain)); [apply IH|]. apply (along_bind merge_keeps); [|intros round; apply IH].
  intros y. destruct (apply_replaying out chain replay y) as [r z] eqn:Er.
  apply (apply_chains_keeps out) in Er. exact Er.
Qed.

(** Markers written for every head leave none outstanding. *)
Lemma mark_each hs me s :
  NoDup hs.*1 -> me = store_device s ->
  let '(r, s') := for_each (E := StoreError) hs
                    (fun h => if h.1 =? me then ret tt else Store.on_index (set_applied_head h.1 h.2)) s in
  r = Ok tt /\ device_keys s' = device_keys s
  /\ (forall d, d ∉ hs.*1 -> applied_head d (index s') = applied_head d (index s))
  /\ forall d h, (d, h) ∈ hs -> d <> me -> applied_head d (index s') = Some h.
Proof.
  revert s. induction hs as [|[d h] hs IH]; intros s Hnd Hme; [cbn; split_and!; [done..|]; by intros d h ?%not_elem_of_nil|].
  cbn in Hnd. apply NoDup_cons in Hnd as [Hd Hnd]. cbn [for_each]. unfold bind. cbn [fst snd].
  set (s1 := if d =? me then s else set_index (set_applied_head d h (index s)) s).
  assert (E1 : (if d =? me then ret tt else Store.on_index (set_applied_head d h)) s
               = (Ok tt : result StoreError unit, s1)) by (unfold s1; by destruct (d =? me)).
  rewrite E1. assert (Hk : device_keys s1 = device_keys s) by (unfold s1; by destruct (d =? me)).
  specialize (IH s1 Hnd). destruct (for_each hs _ s1) as [r s'].
  destruct IH as (Hr & Hk' & Hout & Hin); [unfold store_device; by rewrite Hk|].
  assert (Ha : forall x, x <> d -> applied_head x (index s1) = applied_head x (index s)).
  { intros x Hx. unfold s1. destruct (d =? me); [done|]. unfold applied_head. cbn. by rewrite lookup_insert_ne. }
  split_and!; [done|congruence| |].
  - intros x Hx. cbn in Hx. apply not_elem_of_cons in Hx as [Hx1 Hx2]. rewrite Hout by done. by apply Ha.
  - intros x g [[= -> ->]|Hx]%elem_of_cons Hne; [|by apply Hin]. rewrite Hout by done.
    unfold s1. rewrite (proj2 (N.eqb_neq _ _) Hne). unfold applied_head. cbn. by rewrite lookup_insert_eq.
Qed.

Lemma note_all_applied_leaves_none hs s :
  NoDup hs.*1 -> (note_all_applied hs s).1 = Ok tt /\ has_unapplied hs (note_all_applied hs s).2 = false.
Proof.
  intros Hnd. unfold note_all_applied, bind, gets. pose proof (mark_each hs (store_device s) s Hnd eq_refl) as Hm.
  destruct (for_each _ _ s) as [r s']. destruct Hm as (Hr & Hk & _ & Hin). split; [done|]. cbn [snd]. unfold has_unapplied. apply not_true_is_false. intros Hx.
  apply existsb_exists in Hx as ([d h] & Hd & Hb). cbn in Hb. apply andb_true_iff in Hb as [Hb1 Hb2].
  apply negb_true_iff, N.eqb_neq in Hb1. apply negb_true_iff, bool_decide_eq_false in Hb2. apply Hb2, Hin.
  - by apply list_elem_of_In.
  - unfold store_device in *. by rewrite <- Hk.
Qed.

Lemma heads_for_NoDup s v : NoDup (vault_heads s v).*1.
Proof.
  unfold vault_heads, heads_for. rewrite <- !list_fmap_compose.
  pose proof (NoDup_btree_keys (Vault.heads (chains v))) as Hn. unfold btree_keys in Hn.
  induction (btree_iter (Vault.heads (chains v))) as [|[[o d] h] l IH]; [constructor|].
  cbn in Hn. apply NoDup_cons in Hn as [Hx Hn]. destruct (decide (o = owner_of s)) as [->|Hne].
  - rewrite filter_cons_True by done. cbn. apply NoDup_cons. split; [|by apply IH].
    intros ([[o' d'] h'] & -> & [Ho Hin]%list_elem_of_filter)%list_elem_of_fmap. cbn in *. subst o'. apply Hx.
    by apply (list_elem_of_fmap_2 fst _ _ Hin).
  - rewrite filter_cons_False by done. by apply IH.
Qed.

(** A peer that names only chains this device has to their heads, or its own. *)
Definition nothing_new (s : Store) (v : Vault) (theirs : list Head) : Prop :=
  Forall (fun h => hd_device h = store_device s
                   \/ (fun p => p.2.1.2) <$> list_find (fun l => l.1.1 = hd_device h) (heads_for (owner_of s) v) = Some (hd_head h)) theirs.

Definition heads_asked (theirs : list Head) (y : Session) : Session :=
  mkSession (se_store y) (se_vault y) (S (se_asked y)) (se_drawn y)
    (se_log y ++ [(Req.Heads (owner_of (se_store y)), Res.Heads theirs)]).

Lemma refresh_heads_nothing tolerate theirs fetched refused y :
  nothing_new (se_store y) (se_vault y) theirs ->
  refresh_heads w encoded_len theirs tolerate fetched refused y = (Ok (fetched, refused), y).
Proof.
  intros Hn. induction Hn as [|h theirs Hh _ IH]; [done|]. cbn [refresh_heads]. unfold bind at 1, gets. cbn [id].
  destruct (hd_device h =? store_device (se_store y)) eqn:E; [exact IH|]. destruct Hh as [Hh|Hh]; [by rewrite Hh, N.eqb_refl in E|].
  by rewrite decide_True.
Qed.

Lemma refresh_nothing tolerate theirs y :
  answers w (se_asked y) (Req.Heads (owner_of (se_store y))) = Some (Res.Heads theirs) ->
  nothing_new (se_store y) (se_vault y) theirs ->
  refresh_chains w encoded_len tolerate y = (Ok ([], ∅), heads_asked theirs y).
Proof.
  intros Ha Hn. unfold refresh_chains, the_store, gets, bind, Client.heads, bind, request. cbn beta iota. rewrite Ha.
  exact (refresh_heads_nothing tolerate theirs [] ∅ (heads_asked theirs y) Hn).
Qed.

(** The store after a merge, with what was downloaded recorded of the peer. *)
Definition note_kept (s : Store) (z : Syncing) : Store :=
  let served := kept_since s (local z) in
  if bool_decide (served = []) then local z
  else set_index (on_led (record_holders (key_of (local z)) served peer (time w (asked z))) (index (local z))) (local z).

(** What is left of a pull when the peer names no chain, as a function of the
    store, the segments replayed and the heads they end at. *)
Definition replay_round (s : Store) (n : nat) (segs : list SegmentEnvelope) (hs : list (DeviceId * ObjectId))
  : result NetError SyncReport * Store :=
  let '(outcome, z) := apply_per_chain (remote_source w (fun _ => true)) segs ∅ OthersOnly (mkSyncing s n) in
  let s2 := note_kept s z in
  match outcome with
  | Err e => (Err (NetMerge e), s2)
  | Ok (refused, report) =>
      (Ok (note_refused refused report),
       if (deferred (note_refused refused report) =? 0)%nat then (note_all_applied hs s2).2 else s2)
  end.

(** The account and the device of a store. *)
Definition same_keys (s s' : Store) : Prop := user s' = user s /\ device_keys s' = device_keys s.

Lemma note_all_applied_keys hs s : same_keys s (note_all_applied hs s).2.
Proof.
  unfold note_all_applied, bind, gets. generalize (store_device s). intros me. revert s.
  induction hs as [|h hs IH]; intros s; cbn [for_each]; [done|]. unfold bind. destruct (h.1 =? me); cbn; [apply IH|].
  exact (IH (set_index _ s)).
Qed.

Lemma replay_round_keys s n segs hs : same_keys s (replay_round s n segs hs).2.
Proof.
  unfold replay_round. pose proof (apply_chains_apart_keeps (remote_source w (fun _ => true)) OthersOnly
    (btree_iter (by_device segs)) ∅ SyncReport_default (mkSyncing s n)) as Hk.
  fold (apply_per_chain (remote_source w (fun _ => true)) segs ∅ OthersOnly) in Hk.
  destruct (apply_per_chain _ _ _ _ _) as [outcome z]. unfold merge_keeps in Hk. cbn [snd local] in Hk.
  assert (H2 : same_keys s (note_kept s z)).
  { split; unfold note_kept; destruct (bool_decide _); cbn; apply Hk. }
  destruct outcome as [[refused report]|e]; [|done]. cbn [snd]. destruct (_ =? 0)%nat; [|done].
  destruct (note_all_applied_keys hs (note_kept s z)) as [E1 E2], H2. split; congruence.
Qed.

Lemma replay_round_applies s0 s n segs v report :
  (replay_round s n segs (vault_heads s0 v)).1 = Ok report -> deferred report = 0%nat ->
  has_unapplied (vault_heads s0 v) (replay_round s n segs (vault_heads s0 v)).2 = false.
Proof.
  unfold replay_round. destruct (apply_per_chain _ _ _ _ _) as [outcome z]. destruct outcome as [[refused rep]|e]; [|done].
  intros [= <-] Hd. cbn [snd]. rewrite Hd. apply (note_all_applied_leaves_none (vault_heads s0 v)), heads_for_NoDup.
Qed.

(** One content round with the peer, from a store and a vault. *)
Definition content_round (n : nat) (s : Store) (v : Vault) : result NetError SyncReport * (Store * Vault) :=
  let '(r, y) := pull_scoped w peer encoded_len Everything (mkSession s v n 0 []) in (r, (se_store y, se_vault y)).

(** With a peer that has nothing new it is a function of the page replayed. *)
Lemma content_round_replays n s v theirs :
  answers w n (Req.Heads (owner_of s)) = Some (Res.Heads theirs) -> nothing_new s v theirs ->
  content_round n s v
  = let r := if bool_decide (replayed s v = []) then (Ok (note_refused ∅ SyncReport_default), s)
             else replay_round s (S n) (replayed s v) (vault_heads s v) in
    (r.1, (r.2, v)).
Proof.
  intros Ha Hn. unfold content_round. set (y := mkSession s v n 0 []). unfold pull_scoped, bind at 1.
  rewrite (refresh_nothing _ theirs) by done.
  unfold bind at 1, gets. cbn [id heads_asked y se_store se_vault se_asked moves_content andb].
  rewrite (bool_decide_true ([] = [])) by done. cbn [orb]. destruct (bool_decide_reflect (replayed s v = [])) as [Hne|Hne]; [by rewrite ?Hne|].
  unfold bind at 1, merging, replay_round. cbn [heads_asked y se_store se_vault se_asked se_drawn se_log].
  pose proof (apply_chains_apart_keeps (remote_source w (fun _ => true)) OthersOnly
    (btree_iter (by_device (replayed s v))) ∅ SyncReport_default (mkSyncing s (S n))) as Hk.
  fold (apply_per_chain (remote_source w (fun _ => true)) (replayed s v) ∅ OthersOnly) in Hk.
  destruct (apply_per_chain _ _ _ _ _) as [outcome z]. unfold merge_keeps in Hk. cbn [snd local] in Hk.
  unfold bind at 1, the_store, gets. cbn [se_store].
  assert (Hh : vault_heads (local z) v = vault_heads s v) by (unfold vault_heads, owner_of; by rewrite (keeps_user _ _ Hk)).
  rewrite Hh. set (s2 := note_kept _ z). unfold bind at 1.
  assert (E : forall v n l, (if bool_decide (kept_since s (local z) = []) then ret tt
      else now <-! now_unix w; record_holders_at peer (kept_since s (local z)) now)
      (mkSession (local z) v (asked z) n l) = (Ok tt, mkSession s2 v (asked z) n l))
    by (intros v' n' l; unfold s2, note_kept; by destruct (bool_decide _)).
  rewrite E. destruct outcome as [[refused report]|e]; [|done]. unfold bind at 1.
  destruct (_ =? 0)%nat; [|done]. unfold on_store. cbn [se_store].
  destruct (note_all_applied_leaves_none (vault_heads s v) s2 (heads_for_NoDup _ _)) as [Hn' _].
  destruct (note_all_applied _ s2) as [[[]|] s3]; [done|discriminate].
Qed.

End pages.

(** ** Content rounds, one after the other *)

Section content_rounds.
Context {PR : Primitives} {BC : BodyCodec} (encoded_len : SegmentEnvelope -> N).

(** Whom a round is with, and how many questions were asked before it. *)
Record Visit := mkVisit { vi_world : World; vi_peer : DeviceId; vi_asked : nat }.

Fixpoint content_rounds (visits : list Visit) (s : Store) (v : Vault) : list (result NetError SyncReport) * (Store * Vault) :=
  match visits with
  | [] => ([], (s, v))
  | mkVisit w peer n :: visits =>
      let '(r, (s, v)) := content_round w peer encoded_len n s v in
      let '(rs, end_) := content_rounds visits s v in
      (r :: rs, end_)
  end.

(** The peer names no chain of the account past what this device has. *)
Definition offers_nothing (s : Store) (v : Vault) (visit : Visit) : Prop :=
  exists theirs, answers (vi_world visit) (vi_asked visit) (Req.Heads (owner_of s)) = Some (Res.Heads theirs) /\ nothing_new s v theirs.

Lemma same_keys_replayed s s' v : same_keys s s' -> replayed s' v = replayed s v /\ vault_heads s' v = vault_heads s v.
Proof. intros [E1 E2]. unfold replayed, vault_heads, owner_of, store_device. by rewrite E1, E2. Qed.

Lemma same_keys_offers s s' v visit : same_keys s s' -> offers_nothing s v visit -> offers_nothing s' v visit.
Proof. intros [E1 E2]. unfold offers_nothing, nothing_new, owner_of, store_device. by rewrite E1, E2. Qed.

Lemma same_page_offers s v v' visit : same_first_page s v v' -> offers_nothing s v visit -> offers_nothing s v' visit.
Proof. intros [E _] (theirs & Ha & Hn). exists theirs. split; [done|]. unfold nothing_new in *. by rewrite E. Qed.

Lemma content_rounds_blind visits s v v' :
  same_first_page s v v' -> Forall (offers_nothing s v) visits ->
  let '(rs, (s1, v1)) := content_rounds visits s v in
  content_rounds visits s v' = (rs, (s1, v')) /\ v1 = v /\ same_keys s s1.
Proof.
  intros Hp Hall. revert s Hp Hall. induction visits as [|[w peer n] visits IH]; intros s Hp Hall; [done|].
  apply Forall_cons in Hall as [Ho Hall]. cbn [content_rounds].
  destruct (same_page_offers _ _ _ _ Hp Ho) as (theirs' & Ha' & Hn'). destruct Ho as (theirs & Ha & Hn). cbn in Ha, Ha'.
  rewrite (content_round_replays w peer encoded_len n s v theirs), (content_round_replays w peer encoded_len n s v' theirs') by done.
  rewrite (replayed_first_page s v v') by done.
  assert (Hh : vault_heads s v' = vault_heads s v) by (unfold vault_heads; by rewrite (proj1 Hp)). rewrite Hh.
  set (r := if bool_decide _ then _ else _). cbn beta iota zeta.
  assert (Hk : same_keys s r.2) by (unfold r; destruct (bool_decide _); [done|apply replay_round_keys]).
  specialize (IH r.2). destruct (content_rounds visits r.2 v) as [rs [s1 v1]].
  destruct IH as (E & -> & Hk1).
  - destruct Hk as [E1 E2], Hp as [P1 P2]. unfold same_first_page, owner_of in *. by rewrite E1.
  - eapply Forall_impl; [exact Hall|]. intros visit. by apply same_keys_offers.
  - rewrite E. split_and!; [done|done|]. destruct Hk, Hk1. split; congruence.
Qed.

Lemma content_rounds_app visits visits' s v :
  content_rounds (visits ++ visits') s v
  = let '(rs, (s1, v1)) := content_rounds visits s v in
    let '(rs', end_) := content_rounds visits' s1 v1 in (rs ++ rs', end_).
Proof.
  revert s v. induction visits as [|[w peer n] visits IH]; intros s v; cbn [app content_rounds]; [by destruct (content_rounds visits' s v)|].
  destruct (content_round _ _ _ _ _ _) as [r [s1 v1]]. rewrite IH. destruct (content_rounds visits s1 v1) as [rs [s2 v2]].
  by destruct (content_rounds visits' s2 v2).
Qed.


End content_rounds.

(** ** A forged chain *)

Module Forger.

Import Toy ToyCodec StoreSample EngineSample.

(** A segment nobody signed, under another device's name. *)
Definition forged : SegmentEnvelope := mkEnvelope 77 (user_id keys) 99 0 0 None [1; 2; 3] [].

End Forger.

Import Toy ToyCodec StoreSample EngineSample Forger.

Lemma forged_chain_stops_nothing_witness :
  apply_per_chain nowhere [removal; forged] ∅ OthersOnly start
  = also_refused 99 (apply_per_chain nowhere [removal] ∅ OthersOnly start)
  /\ (snd <$> match (apply_per_chain nowhere [removal; forged] ∅ OthersOnly start).1 with Ok p => Some p | _ => None end)
     = Some round_report.
Proof.
  split; [|vm_compute; reflexivity].
  apply (forged_chain_stops_nothing nowhere [removal; forged] ∅ 99 [forged] start).
  - apply N.eqb_neq. vm_compute. reflexivity.
  - vm_compute. reflexivity.
  - vm_compute. reflexivity.
Defined.

(** ** A chain of 257 segments, the last of which adds a file *)

Module LongChain.

(** Primitives and a codec that cost nothing to run. *)
#[export] Instance weightless : Primitives := {|
  blake3_hash _ := [];
  blake3_keyed_hash _ _ := [];
  blake3_derive_key _ m := m;
  blake3_keyed_xof _ _ _ := [];
  aead_encrypt _ _ _ m := Some (m ++ replicate 16 0);
  aead_decrypt _ _ _ c := Some (take (length c - 16) c);
  verifying_key s := s;
  ed25519_sign _ _ := [];
  verify_strict _ _ _ := true;
|}.

Definition entry_of (sequence kind : N) : LogEntry :=
  mkLog sequence 9 (if kind =? 0 then Remove "n" (VV.advanced ∅ 2 1)
                    else Upsert "late" (mkFile 0 0 7 [] (VV.advanced ∅ 2 2) 2)).

#[export] Instance two_kinds : BodyCodec := {|
  encode_body b := foldr (fun e l => le_sequence e :: match operation e with Remove _ _ => 0 | _ => 1 end :: l) [] (entries b);
  decode_body l := match l with [sequence; kind] => Some (mkBody [entry_of sequence kind]) | _ => None end;
|}.

Definition account : UserKeys := derive [3].
Definition reader : Store := mkStore empty_index ∅ small_chunker account (mkDeviceKeys [1]) None.
Definition writer : DeviceKeys := mkDeviceKeys [2].

Definition link (i : nat) : SegmentEnvelope :=
  match create (N.of_nat i) (replicate 24 0) (oplog_root account) (user_id account) writer
          (match i with 1%nat => None | _ => Some (N.of_nat i - 1) end)
          [entry_of (N.of_nat i) (if (i <? 257)%nat then 0 else 1)] with
  | Ok e => e
  | Err _ => mkEnvelope 0 0 0 0 0 None [] []
  end.

Definition vault_of (n : nat) : Vault :=
  foldl (fun v i => (put_segment (fun _ => 1) (link i) v).2) (open (fun _ => 1) fresh_vault) (seq 1 n).

Definition long_vault : Vault := vault_of 257.

(** The same vault, without the last segment's row. *)
Definition cut_vault : Vault :=
  let t := chains long_vault in
  set_chains (mkChains (delete (user_id account, device_id writer, 256) (segs t)) (chain_lengths t) (chain_bytes t)
                (Vault.heads t)) long_vault.

Definition silent : World := mkWorld (fun _ _ => Some (Res.Heads [])) (fun _ => 50) (fun _ => 0).
(** A peer that has the chain to the same head. *)
Definition level : World := mkWorld (fun _ _ => Some (Res.Heads [mkHead (device_id writer) 257 257])) (fun _ => 60) (fun _ => 0).
Definition visited : list Visit := [mkVisit level 3 0].
Definition pulled : list (result NetError SyncReport) * (Store * Vault) :=
  content_rounds (fun _ => 1) (visited ++ [mkVisit silent 2 0]) reader long_vault.

End LongChain.

Import LongChain.

