(* ===== verification/Keeping.v ===== *)
(** * Keeping: a round for a device that cannot hold its whole account

    Models [crates/itsanas-node/src/keeping.rs]: push, learn the logs, list,
    choose, fetch what was chosen, ask the peer for proof, let go of the rest and
    tell the peer.  It composes [Session], [Catalogue] and [Policy]; the theorem
    follows a chunk through the whole of it. *)

From S2P Require Import Prelude Policy Version Ids Path Network Crypto Uptime Target Nodeset Oplog Wire IndexState Files Summary.
From S2P Require Import Ledger Log ShortQueue Rings Blob Index Store Vault Accounting Claims Placement ClaimBook Peer.
From S2P Require Import Engine Catalogue Client Session Conduct Rounds.
Import Offered.

Record KeepingReport := mkKeepingReport {
  kr_fetched : nat;
  kr_released : nat;
  kr_freed : N;
  kr_not_safe_yet : nat;
  kr_too_large : nat;
  kr_not_room : nat;
  kr_filtered : nat;
  kr_told_the_peer : bool;
  kr_challenged : nat;
  kr_challenges_failed : nat;
}.

Definition KeepingReport_default : KeepingReport := mkKeepingReport 0 0 0 0 0 0 0 false 0 0.

Definition worth_reporting (r : KeepingReport) : bool :=
  (0 <? kr_fetched r)%nat || (0 <? kr_released r)%nat || (0 <? kr_not_safe_yet r)%nat
  || (0 <? kr_challenges_failed r)%nat.

(** What the choice left, and what it fetches. *)
Definition note_choice (too_large not_room filtered fetched : nat) (r : KeepingReport) : KeepingReport :=
  let '(mkKeepingReport _ re fr ns _ _ _ tp ch cf) := r in
  mkKeepingReport fetched re fr ns too_large not_room filtered tp ch cf.
Definition note_challenges (asked failed : nat) (r : KeepingReport) : KeepingReport :=
  let '(mkKeepingReport fe re fr ns tl nr fi tp _ _) := r in mkKeepingReport fe re fr ns tl nr fi tp asked failed.
Definition note_gone (bytes : N) (r : KeepingReport) : KeepingReport :=
  let '(mkKeepingReport fe re fr ns tl nr fi tp ch cf) := r in
  mkKeepingReport fe (S re) (sat_add fr bytes) ns tl nr fi tp ch cf.
Definition note_unsafe (r : KeepingReport) : KeepingReport :=
  let '(mkKeepingReport fe re fr ns tl nr fi tp ch cf) := r in mkKeepingReport fe re fr (S ns) tl nr fi tp ch cf.
Definition note_told (told : bool) (r : KeepingReport) : KeepingReport :=
  let '(mkKeepingReport fe re fr ns tl nr fi _ ch cf) := r in mkKeepingReport fe re fr ns tl nr fi told ch cf.

(** [Ok] or not, what it left stays. *)
Definition attempt {A} (m : Sess A) : Sess (option A) :=
  fun y => match m y with (Ok a, y) => (Ok (Some a), y) | (Err _, y) => (Ok None, y) end.

Section keeping.
Context `{!Primitives, !BodyCodec} (w : World) (peer : DeviceId) (spoken : N) (encoded_len : SegmentEnvelope -> N).

Definition candidate_of (k : Known) : Candidate :=
  mkCandidate (kn_path k) (kn_size k) (kn_modified k) (bool_decide (presence k = Local)).

(** Let go of every file the choice left behind, and collect what was freed. *)
Fixpoint release_all (paths : list string) (now : N) (freed : list ChunkId) (r : KeepingReport)
  : Sess (list ChunkId * KeepingReport) :=
  match paths with
  | [] => ret (freed, r)
  | path :: paths =>
      s <-! the_store;
      was <-! lift (match stat path s with Ok e => Ok (fe_chunks <$> e) | Err e => Err (NetStore e) end);
      clock <-! now_unix w;
      outcome <-! on_store (release path now clock);
      match outcome with
      | Gone report => release_all paths now (freed ++ default [] was) (note_gone (rel_bytes report) r)
      | NotSafeYet _ _ => release_all paths now freed (note_unsafe r)
      | NotHere => release_all paths now freed r
      end
  end.

Fixpoint tell_batches (owner : UserId) (batches : list (list ChunkId)) (told : bool) : Sess bool :=
  match batches with
  | [] => ret told
  | batch :: batches =>
      answer <-! attempt (dropped w spoken owner batch);
      match answer with
      | Some accepted => tell_batches owner batches (told || accepted)
      | None => ret told
      end
  end.

(** Best effort: what is gone from this disk, of what was freed. *)
Definition tell_the_peer (freed : list ChunkId) : Sess bool :=
  if bool_decide (freed = []) then ret false
  else
    s <-! the_store;
    tell_batches (owner_of s) (batches (filter (fun c => Store.has_chunk c s = false) freed)) false.

(** The paths an index list of the choice names. *)
Definition paths_at (candidates : list Candidate) (indices : list nat) : list string :=
  omap (fun i => cd_path <$> candidates !! i) indices.

(** The selective half: choose, fetch, challenge, release, tell. *)
Definition choose_and_settle (k : Keeping) (refused : gset DeviceId) : Sess (SyncReport * KeepingReport) :=
  y <-! gets id;
  listing <-! lift (match catalogue (se_store y) (se_vault y) with Ok c => Ok c | Err e => Err (NetStore e) end);
  let candidates := candidate_of <$> cat_files listing in
  let choice := choose candidates k in
  let wanted_paths : gset string := list_to_set (paths_at candidates (to_fetch choice candidates)) in
  let report := note_choice (left_because choice TooLarge) (left_because choice Policy.NoRoom) (left_because choice Filtered)
                  (size wanted_paths) KeepingReport_default in
  wanted <-! lift (match chunks_for_all (se_store y) (se_vault y) wanted_paths with
                   | Ok c => Ok c | Err e => Err (NetStore e) end);
  pulled <-! fetch_only_noting w peer wanted refused;
  audited <-! attempt (audit w peer CHALLENGES_PER_ROUND);
  let report := match audited with
                | Some a => note_challenges (au_asked a) (au_failed a) report
                | None => report
                end in
  now <-! now_unix w;
  released <-! release_all (paths_at candidates (to_release choice candidates)) now [] report;
  let '(freed, report) := released in
  told <-! tell_the_peer freed;
  ret (pulled.1, note_told told report).

Definition round_placed (k : Keeping) (scope : Scope) (from : option IpAddr) (placement : option Placement)
  : Sess (RoundReport * KeepingReport) :=
  if is_everything k then
    match placement with
    | Some _ =>
        note_contact w peer from ;;!
        push <-! push_placed w peer spoken scope placement;
        pull <-! pull_scoped w peer encoded_len scope;
        ret (mkRound push.1 pull, KeepingReport_default)
    | None =>
        round <-! round_scoped w peer spoken encoded_len scope from;
        ret (round, KeepingReport_default)
    end
  else
    note_contact w peer from ;;!
    push <-! push_placed w peer spoken scope placement;
    got <-! refresh_chains w encoded_len RefusedChains;
    let refused := got.2 in
    if negb (moves_content scope)
    then ret (mkRound push.1 (note_refused refused SyncReport_default), KeepingReport_default)
    else
      settled <-! choose_and_settle k refused;
      ret (mkRound push.1 settled.1, settled.2).

End keeping.

(** ** Nothing is lost on the way *)

(** The disk only gains, and the reference counts stay machine words. *)
Record gains (y y' : Session) : Prop := mkGains {
  ga_blobs : blobs (se_store y) ⊆ blobs (se_store y');
  ga_refs : refs_bounded (index (se_store y)) -> refs_bounded (index (se_store y'));
}.

#[export] Instance gains_pre : PreOrder gains.
Proof. split; [by intros y|]. intros a b c [] []. split; [by etransitivity|auto]. Qed.

(** Files and blobs as they were. *)
Definition same_files (s s' : Store) : Prop := ft (index s') = ft (index s) /\ blobs s' = blobs s.

#[export] Instance same_files_pre : PreOrder same_files.
Proof. split; [by intros s|]. intros a b c [] []. split; congruence. Qed.

Lemma for_each_along {S E A} (R : relation S) `{!PreOrder R} (l : list A) (body : A -> M S E unit) :
  (forall a, along R (body a)) -> along R (for_each l body).
Proof.
  intros Hb. induction l as [|a l IH]; cbn [for_each]; [by along_pure|]. apply along_bind; [done|apply Hb|done].
Qed.

Lemma note_all_applied_same {PR : Primitives} hs : along same_files (note_all_applied hs).
Proof.
  unfold note_all_applied. apply along_gets. intros me. apply for_each_along; [apply _|]. intros h.
  destruct (h.1 =? me); [along_pure|]. by intros s.
Qed.

Section gaining.
Context `{!Primitives, !BodyCodec} (w : World) (peer : DeviceId) (spoken : N) (encoded_len : SegmentEnvelope -> N).

Lemma conducts_gains y y' : conducts peer y y' -> gains y y'.
Proof. intros [_ Hb _ _ _ [Hf _ _ _]]. split; [by rewrite Hb|]. unfold refs_bounded, reference_count. by rewrite Hf. Qed.

Lemma along_conducts_gains {A} (m : Sess A) : along (conducts peer) m -> along gains m.
Proof. intros Hm y. apply conducts_gains, Hm. Qed.

Lemma on_index_gains f : (forall ix, ft (f ix) = ft ix) -> along gains (on_index f).
Proof. intros Hf y. split; [done|]. unfold refs_bounded, reference_count. cbn. by rewrite Hf. Qed.

Lemma record_holders_gains cs now : along gains (record_holders_at peer cs now).
Proof. unfold record_holders_at, the_store. apply along_gets. intros s. by apply on_index_gains. Qed.

Lemma request_gains r : along gains (request w r).
Proof. apply along_conducts_gains, request_conducts. Qed.

Lemma merging_gains {A} (m : M Syncing SyncError A) : along merge_keeps m -> along gains (merging m).
Proof.
  intros Hm y. specialize (Hm (mkSyncing (se_store y) (se_asked y))). unfold merging.
  destruct (m _) as [r z]. destruct Hm as [Hb _ _ _ _ _ _ Hr]. by split.
Qed.

Lemma keep_chain_gains segments tolerate kept : along gains (keep_chain encoded_len segments tolerate kept).
Proof.
  revert kept. induction segments as [|e segments IH]; intros kept; cbn [keep_chain]; [along_pure|]. intros y.
  destruct (put_segment encoded_len e (se_vault y)) as [[fresh|err] v].
  - etransitivity; [|apply IH]. by split.
  - destruct tolerate; [by split|]. destruct (refuses_segment err); by split.
Qed.

Hint Resolve request_gains record_holders_gains keep_chain_gains : conduct.

Lemma refresh_chains_gains tolerate : along gains (refresh_chains w encoded_len tolerate).
Proof.
  unfold refresh_chains, the_store. apply along_gets. intros s. apply (along_bind gains);
    [unfold Client.heads, unexpected; conduct gains|]. intros theirs. generalize (@nil SegmentEnvelope), (∅ : gset DeviceId). clear s.
  induction theirs as [|head theirs IH]; intros fetched refused; cbn [refresh_heads]; [along_pure|].
  apply along_gets. intros y. destruct (_ =? _); [apply IH|]. case_decide; [apply IH|].
  apply (along_bind gains); [unfold Client.segments, unexpected; conduct gains|]. intros got.
  apply (along_bind gains); [conduct gains|]. intros kept. apply IH.
Qed.

Lemma fetch_only_gains wanted refused : along gains (fetch_only_noting w peer wanted refused).
Proof.
  unfold fetch_only_noting, the_store, now_unix. apply along_gets. intros y. destruct (bool_decide _); [along_pure|].
  apply (along_bind gains); [apply merging_gains, apply_chains_apart_keeps|]. intros outcome. conduct gains.
Qed.

Lemma pull_gains scope : along gains (pull_scoped w peer encoded_len scope).
Proof.
  unfold pull_scoped. apply (along_bind gains); [apply refresh_chains_gains|]. intros [fetched refused].
  apply along_gets. intros y. destruct (bool_decide _); [along_pure|].
  apply (along_bind gains); [apply merging_gains, apply_chains_apart_keeps|]. intros outcome.
  unfold the_store, now_unix. apply along_gets. intros s. apply (along_bind gains); [conduct gains|]. intros _.
  destruct outcome as [[r report]|e]; [|along_pure]. apply (along_bind gains); [|intros _; along_pure].
  destruct (_ && _); [|along_pure]. intros y1. unfold on_store.
  pose proof (note_all_applied_same (vault_heads s (se_vault y)) (se_store y1)) as [Hf Hb].
  destruct (note_all_applied _ _) as [[[]|e] s1]; cbn in Hf, Hb;
    (split; [cbn; by rewrite Hb|unfold refs_bounded, reference_count; cbn; by rewrite Hf]).
Qed.

Lemma push_gains scope placement : along gains (push_placed w peer spoken scope placement).
Proof. apply along_conducts_gains, push_conducts. Qed.

Lemma audit_gains limit : along gains (audit w peer limit).
Proof. apply along_conducts_gains, audit_conducts. Qed.

Lemma note_contact_gains from : along gains (note_contact w peer from).
Proof.
  unfold note_contact, now_unix. apply along_gets. intros now. apply (along_bind gains).
  - apply on_index_gains. intros ix. unfold note_seen. by destruct (_ && _).
  - intros _. destruct (from ≫= network_of) as [n|]; [|along_pure]. apply on_index_gains. intros ix.
    unfold note_network. destruct (known peer ix); [|done]. by destruct (match read_network _ _ with Some _ => _ | None => _ end).
Qed.

End gaining.

(** ** What letting go costs *)

(** The store let go of nothing that others were not seen to hold at [now]: the
    evidence about every chunk is as it was, and a chunk that left the disk was
    well held and is named by nothing here any more. *)
Record lets_go {PR : Primitives} (now : N) (s s' : Store) : Prop := mkLetsGo {
  lg_refs : refs_bounded (index s) -> refs_bounded (index s');
  lg_evidence : forall c t, holder_evidence c t (led (index s')) = holder_evidence c t (led (index s));
  lg_count : refs_bounded (index s) -> forall c, reference_count c (index s') <= reference_count c (index s);
  lg_blobs : refs_bounded (index s) -> forall c, is_Some (blobs s !! c) ->
    is_Some (blobs s' !! c) \/ well_held now (index s) c /\ reference_count c (index s') = 0;
}.

#[export] Instance lets_go_pre {PR : Primitives} now : PreOrder (lets_go now).
Proof.
  split; [by intros s; split; auto|]. intros a b c [R1 E1 C1 B1] [R2 E2 C2 B2]. split; [by auto|by intros; rewrite E2| |].
  - intros Hb x. etransitivity; [apply C2|apply C1]; auto.
  - intros Hb x Hx. destruct (B1 Hb x Hx) as [Hy|[Hw Hz]].
    + destruct (B2 (R1 Hb) x Hy) as [|[Hw ?]]; [by left|right]. split; [|done]. revert Hw. unfold well_held. by rewrite !E1.
    + right. split; [done|]. pose proof (C2 (R1 Hb) x). lia.
Qed.

Section letting_go.
Context `{!Primitives}.

Lemma drop_entry_counts now path entry ix c :
  files (ft ix) !! path = Some entry -> refs_bounded ix ->
  reference_count c (drop_entry now path ix).2 = reference_count c ix - occ c (fe_chunks entry).
Proof.
  intros He Hb. unfold drop_entry. rewrite He. unfold reference_count at 1. cbn [snd ft chunk_refs].
  pose proof (f_equal fst (apply_reference_delta_rows now (delta_of (fe_chunks entry) []) (ref_state ix) c)) as Hr.
  unfold Files.rows, row_after in Hr. cbn [fst] in Hr. rewrite Hr, delta_of_spec, occ_nil. clear Hr.
  specialize (Hb c). unfold reference_count in *. cbn [ref_state rs_refs].
  destruct (Z.eqb_spec (Z.of_N 0 - Z.of_N (occ c (fe_chunks entry))) 0); cbn [fst default]; [lia|].
  unfold updated_count. destruct (Z.leb_spec (Z.max (Z.of_N (default 0 (chunk_refs (ft ix) !! c)) + (Z.of_N 0 - Z.of_N (occ c (fe_chunks entry)))) 0)
    (Z.of_N u64_max)); cbn; lia.
Qed.

Lemma drop_entry_drops now path entry ix c :
  files (ft ix) !! path = Some entry -> refs_bounded ix -> c ∈ (drop_entry now path ix).1 ->
  c ∈ fe_chunks entry /\ reference_count c ix <= occ c (fe_chunks entry).
Proof.
  intros He Hb. unfold drop_entry. rewrite He. cbn [fst]. rewrite elem_of_dropped, delta_of_spec, occ_nil. intros [Hz Hu].
  split; [apply occ_pos; lia|]. specialize (Hb c). revert Hu. unfold updated_count.
  destruct (Z.leb_spec (Z.max (Z.of_N (reference_count c ix) + (Z.of_N 0 - Z.of_N (occ c (fe_chunks entry)))) 0) (Z.of_N u64_max)); lia.
Qed.

Lemma release_chunk_counts a ix c : reference_count c (release_chunk a ix) <= reference_count c ix.
Proof.
  unfold release_chunk, reference_count, purge_chunk_in, drop_chunk. destruct (clear_loss_ft a ix) as (_ & E & _). cbn. rewrite E.
  destruct (decide (c = a)) as [->|]; [rewrite lookup_delete_eq; cbn; lia|by rewrite lookup_delete_ne].
Qed.

Lemma release_chunk_evidence a ix c t : holder_evidence c t (led (release_chunk a ix)) = holder_evidence c t (led ix).
Proof. unfold release_chunk, clear_loss. by destruct (losses (ft ix) !! a). Qed.

Lemma store_release_all_keeps report drops s :
  let s' := (Store.release_all report drops s).2 in
  (forall c, reference_count c (index s') <= reference_count c (index s))
  /\ forall c t, holder_evidence c t (led (index s')) = holder_evidence c t (led (index s)).
Proof.
  revert report s. induction drops as [|a drops IH]; intros report s; [done|].
  cbn [Store.release_all]. unfold bind.
  assert (exists r1 s1, release_one report a s = (Ok r1, s1) /\ index s1 = release_chunk a (index s)) as (r1 & s1 & -> & Hix).
  { unfold release_one, bind, gets, modify, ret, Store.on_index. destruct (blob_size_of a (blobs s)); eexists _, _; done. }
  destruct (IH r1 s1) as [Hc He]. cbv beta iota zeta in *. rewrite Hix in Hc, He. split.
  - intros c. etransitivity; [apply Hc|apply release_chunk_counts].
  - intros c t. etransitivity; [apply He|apply release_chunk_evidence].
Qed.

Lemma release_lets_go path now clock : along (lets_go now) (release path now clock).
Proof.
  intros s. unfold release, bind at 1, lift. destruct (validate path); [|done].
  unfold bind at 1, gets at 1. destruct (get_file path (index s)) as [entry|] eqn:He; [|done].
  unfold bind at 1, gets at 1. destruct (unsafe_chunk _ _ _ _) as [[]|] eqn:Hu; [done|].
  unfold bind at 1, with_index. unfold get_file in He.
  pose proof (drop_entry_counts clock path entry (index s)) as Hcount. pose proof (drop_entry_drops clock path entry (index s)) as Hdrop.
  assert (El : led (drop_entry clock path (index s)).2 = led (index s))
    by (unfold drop_entry; by destruct (files (ft (index s)) !! path)).
  unfold release_file. destruct (drop_entry clock path (index s)) as [drops ix] eqn:Ed. cbn [fst snd] in *.
  destruct (store_release_all_keeps (mkRelease 0 0) drops (set_index ix s)) as [Hc Hev].
  destruct (release_all_run (mkRelease 0 0) drops (set_index ix s)) as (report & s2 & Hrun & _ & _ & _ & _ & Hb).
  unfold bind. rewrite Hrun in *. cbn [snd set_index index blobs] in *.
  assert (Hle : refs_bounded (index s) -> forall c, reference_count c (index s2) <= reference_count c (index s))
    by (intros Hs c; specialize (Hc c); rewrite (Hcount c He Hs) in Hc; lia).
  split.
  - intros Hs c. etransitivity; [by apply Hle|apply Hs].
  - intros c t. by rewrite Hev, El.
  - done.
  - intros Hs c Hin. destruct (decide (c ∈ drops)) as [Hd|Hd]; [right|left; by rewrite Hb].
    destruct (Hdrop c He Hs Hd) as [Hch Hocc]. split.
    + destruct (unsafe_chunk_None _ _ _ _ Hu c Hch); [lia|done].
    + specialize (Hc c). rewrite (Hcount c He Hs) in Hc. unfold ret. cbn [snd]. lia.
Qed.

End letting_go.

(** ** The round *)

(** The session's disk, let go of at [now]. *)
Definition parts (now : N) `{!Primitives} (y y' : Session) : Prop := lets_go now (se_store y) (se_store y').

#[export] Instance parts_pre now {PR : Primitives} : PreOrder (parts now).
Proof. unfold parts. split; [intros y; reflexivity|]. intros a b c Hab Hbc. by etransitivity. Qed.

Section rounds.
Context `{!Primitives, !BodyCodec} (w : World) (peer : DeviceId) (spoken : N) (encoded_len : SegmentEnvelope -> N).

Lemma attempt_along {A} (R : relation Session) (m : Sess A) : along R m -> along R (attempt m).
Proof. intros Hm y. specialize (Hm y). unfold attempt. by destruct (m y) as [[]]. Qed.

Lemma release_all_parts paths now freed r : along (parts now) (release_all w paths now freed r).
Proof.
  revert freed r. induction paths as [|path paths IH]; intros freed r; cbn [release_all]; [along_pure|].
  unfold the_store, now_unix. apply along_gets. intros s. apply (along_bind (parts now)); [along_pure|]. intros was.
  apply along_gets. intros clock. apply (along_bind (parts now)).
  - intros y. pose proof (release_lets_go path now clock (se_store y)) as Hl. unfold on_store, parts.
    by destruct (release path now clock (se_store y)) as [[]].
  - intros []; apply IH.
Qed.

Lemma tell_batches_parts now owner l told : along (parts now) (tell_batches w spoken owner l told).
Proof.
  assert (Hr : forall r, along (parts now) (request w r)).
  { intros r y. unfold request, parts. destruct (answers w (se_asked y) r) as [[]|]; reflexivity. }
  revert told. induction l as [|b l IH]; intros told; cbn [tell_batches]; [along_pure|].
  apply (along_bind (parts now)); [|intros []; [apply IH|along_pure]].
  apply attempt_along. unfold Client.dropped. destruct (_ || _); [along_pure|]. apply (along_bind (parts now)); [apply Hr|].
  intros []; along_pure.
Qed.

Lemma tell_the_peer_parts now freed : along (parts now) (tell_the_peer w spoken freed).
Proof.
  unfold tell_the_peer, the_store. destruct (bool_decide _); [along_pure|]. apply along_gets. intros s. apply tell_batches_parts.
Qed.

(** Gained first, and then parted with at one moment of the session. *)
Definition gains_then_parts (y y' : Session) : Prop := exists m now n, now = time w n /\ gains y m /\ parts now m y'.

Lemma gains_first y y' : gains y y' -> gains_then_parts y y'.
Proof. intros Hg. by exists y', (time w 0), 0%nat. Qed.

Lemma gains_before {A B} (m : Sess A) (k : A -> Sess B) :
  along gains m -> (forall a, along gains_then_parts (k a)) -> along gains_then_parts (a <-! m; k a).
Proof.
  intros Hm Hk y. specialize (Hm y). unfold bind. destruct (m y) as [[a|e] y1]; [|by apply gains_first].
  destruct (Hk a y1) as (z & now & n & ? & Hg & Hp). exists z, now, n. split_and!; [done|by etransitivity|done].
Qed.

Lemma now_then {B} (k : N -> Sess B) :
  (forall now, along (parts now) (k now)) -> along gains_then_parts (now <-! now_unix w; k now).
Proof. intros Hk y. exists y, (time w (se_asked y)), (se_asked y). split_and!; [done|done|apply Hk]. Qed.

Lemma choose_and_settle_parts k refused : along gains_then_parts (choose_and_settle w peer spoken k refused).
Proof.
  unfold choose_and_settle. apply gains_before; [along_pure|]. intros y. apply gains_before; [along_pure|]. intros listing.
  cbv zeta. apply gains_before; [along_pure|]. intros wanted. apply gains_before; [apply fetch_only_gains|]. intros pulled.
  apply gains_before; [apply attempt_along, audit_gains|]. intros audited. apply now_then. intros now.
  apply (along_bind (parts now)); [apply release_all_parts|]. intros [freed report].
  apply (along_bind (parts now)); [apply tell_the_peer_parts|]. intros told. along_pure.
Qed.

Lemma gains_alone {A} (m : Sess A) : along gains m -> along gains_then_parts m.
Proof. intros Hm y. apply gains_first, Hm. Qed.

Lemma round_parts k scope from placement :
  along gains_then_parts (round_placed w peer spoken encoded_len k scope from placement).
Proof.
  unfold round_placed, round_scoped, push_scoped. destruct (is_everything k).
  - apply gains_alone. pose proof (note_contact_gains w peer from). pose proof (push_gains w peer spoken scope).
    pose proof (pull_gains w peer encoded_len scope). destruct placement as [p|]; conduct gains.
  - apply gains_before; [apply note_contact_gains|]. intros _. apply gains_before; [apply push_gains|]. intros push.
    apply gains_before; [apply (refresh_chains_gains w peer)|]. intros [got refused]. destruct (negb _); [apply gains_alone; along_pure|].
    intros y. pose proof (choose_and_settle_parts k refused y) as Hc. unfold bind. by destruct (choose_and_settle _ _ _ _ _ _) as [[]].
Qed.

(** C17. A device that cannot hold its whole account can run its selective round
    against any peer, saying anything, at any moment, and the round can fail at
    any request: it loses nothing.  Every chunk on the disk before is on the disk
    after, or the session had reached a moment at which, by the records the round
    leaves, at least [SAFE_TO_RELEASE] other devices that have answered for stored
    bytes hold it, one of them by a recent record, and then nothing in the file
    table left here names it. *)
Theorem selective_round_loses_nothing k scope from placement y :
  refs_bounded (index (se_store y)) ->
  let y' := (round_placed w peer spoken encoded_len k scope from placement y).2 in
  refs_bounded (index (se_store y'))
  /\ forall c, is_Some (blobs (se_store y) !! c) ->
       is_Some (blobs (se_store y') !! c)
       \/ (exists n, well_held (time w n) (index (se_store y')) c) /\ reference_count c (index (se_store y')) = 0.
Proof.
  intros Hb y'. destruct (round_parts k scope from placement y) as (m & now & n & -> & [Hm Hr] & [R E _ B]). fold y' in R, E, B.
  split; [auto|]. intros c [b Hc]. destruct (B (Hr Hb) c) as [|[Hw Hz]]; [|by left|right].
  - exists b. eapply lookup_weaken; eauto.
  - split; [|done]. exists n. revert Hw. unfold well_held. by rewrite !E.
Qed.

End rounds.

(** ** A round with no room *)

Module Cramped.

Import Toy ToyCodec StoreSample.

(** Device 21, which lacks nothing and keeps every promise but a proof. *)
Definition polite : World := mkWorld
  (fun _ r => match r with
              | Req.Heads _ => Some (Res.Heads [])
              | Req.HaveChunks _ _ => Some (Res.Missing [])
              | Req.Challenge _ _ _ => None
              | _ => Some (Res.Stored true)
              end) (fun _ => 110) (fun _ => 0).

Definition full_phone : Session := mkSession held_store (open (fun _ => 1) fresh_vault) 0 0 [].
Definition no_room : Keeping := mkKeeping (Some 0) Newest [].

Definition cramped_round := round_placed polite 21 PROTOCOL_VERSION (fun _ => 1) no_room Everything None None full_phone.

End Cramped.

Import Toy ToyCodec StoreSample Cramped.

Lemma held_refs_bounded : refs_bounded held.
Proof. intros c. destruct held_invariant as [Hi [Hf _]]. unfold reference_count. rewrite (refs_exact _ Hi). apply Hf. Qed.

Lemma selective_round_loses_nothing_witness :
  match cramped_round.1 with Ok (_, r) => (kr_released r, kr_not_safe_yet r) | Err _ => (0%nat, 0%nat) end = (1%nat, 1%nat)
  /\ (exists n, well_held (time polite n) (index (se_store cramped_round.2)) 10)
  /\ is_Some (blobs (se_store cramped_round.2) !! 11).
Proof.
  destruct (selective_round_loses_nothing polite 21 PROTOCOL_VERSION (fun _ => 1) no_room Everything None None full_phone
    held_refs_bounded) as [_ Hb]. fold cramped_round in Hb.
  split; [vm_compute; reflexivity|]. split.
  - destruct (Hb 10 ltac:(eexists; reflexivity)) as [[b Hs]|[Hw _]]; [|exact Hw].
    assert (E : blobs (se_store cramped_round.2) !! 10 = None) by (vm_compute; reflexivity). congruence.
  - destruct (Hb 11 ltac:(eexists; reflexivity)) as [Hs|[_ Hz]]; [exact Hs|].
    assert (E : reference_count 11 (index (se_store cramped_round.2)) = 1) by (vm_compute; reflexivity). congruence.
Defined.
