(* ===== verification/Contact.v ===== *)
(** * Contact: when a node asks its coordinator, and where its machines are

    Models [crates/itsanas-node/src/contact.rs]: when to publish and to read, the
    address book of the account's other machines, which of its addresses a round
    dials, what is written to disk and read back, and the rows machines of one
    account relay to each other.  Instants and durations are seconds; the
    serialisation of the book and of a row is the class [ContactCodec]. *)

From S2P Require Import Prelude Version Ids Network Crypto Accounting Claims Reach.

Definition PUBLISH_EVERY : N := 3600.
Definition REREAD_AFTER_MISS : N := 120.
Definition RESET_FLOOR : N := 600.
Definition QUIET_AFTER_MISS : N := 60.
Definition QUIET_AT_MOST : N := 30 * 60.
Definition PRIVATE_PROBE_EVERY : N := 6.
Definition MAX_DEVICES : nat := 256.
Definition MAX_ADDRESSES : nat := 4.
Definition HOST_RELAY_FOR : N := 24 * 3600.
Definition BOOK_VERSION : N := 2.

Definition quiet_for (misses : N) : N :=
  let doublings := N.min (misses - 1) 16 in
  N.min (QUIET_AFTER_MISS * N.shiftl 1 doublings) QUIET_AT_MOST.

Record Due := mkDue { du_publish : bool; du_read : bool; accept_unsigned : bool }.
Definition any (d : Due) : bool := du_publish d || du_read d.

Record Quiet := mkQuiet { q_misses : N; q_round : N; q_until : N; q_news : bool }.

Record Candidate := mkCand {
  ca_address : string;
  ca_worked : option N;
  ca_presence : option SignedPresence;
  ca_claim : option SignedClaim;
  ca_proven : bool;
}.

Record BookEntry := mkEntry { be_presence : SignedPresence; be_worked : option N; be_claim : option SignedClaim }.
Record BookFile := mkBook { bf_version : N; bf_signs : bool; bf_entries : list BookEntry }.

Record BookEntryV1 := mkEntryV1 { be1_presence : SignedPresence; be1_worked : option N }.
Record BookFileV1 := mkBookV1 { bf1_version : N; bf1_signs : bool; bf1_entries : list BookEntryV1 }.

Definition from_v1 (old : BookFileV1) : BookFile :=
  mkBook BOOK_VERSION (bf1_signs old) ((fun e => mkEntry (be1_presence e) (be1_worked e) None) <$> bf1_entries old).

Record Contact := mkContact {
  published_for : option (option string * N);
  read_at : option N;
  asked_at : option N;
  missed : bool;
  missing : gset DeviceId;
  miss_wait : option N;
  signs : bool;
  book : gmap DeviceId (list Candidate);
  changed : bool;
  hosts : list (DeviceId * string * N);
  rounds : N;
  reset_at : option N;
  quiet : gmap DeviceId Quiet;
}.

Definition new : Contact := mkContact None None None false ∅ None false ∅ false [] 0 None ∅.

(** ** Field by field *)

Definition set_published p (c : Contact) : Contact :=
  let '(mkContact _ r a m ms w s b ch h n z q) := c in mkContact p r a m ms w s b ch h n z q.
Definition set_read r m (c : Contact) : Contact :=
  let '(mkContact p _ a _ ms w s b ch h n z q) := c in mkContact p r a m ms w s b ch h n z q.
Definition set_asked a w (c : Contact) : Contact :=
  let '(mkContact p r _ m ms _ s b ch h n z q) := c in mkContact p r a m ms w s b ch h n z q.
Definition set_wait w z (c : Contact) : Contact :=
  let '(mkContact p r a m ms _ s b ch h n _ q) := c in mkContact p r a m ms w s b ch h n z q.
Definition set_missing m ms (c : Contact) : Contact :=
  let '(mkContact p r a _ _ w s b ch h n z q) := c in mkContact p r a m ms w s b ch h n z q.
Definition set_signs s (c : Contact) : Contact :=
  let '(mkContact p r a m ms w _ b ch h n z q) := c in mkContact p r a m ms w s b ch h n z q.
Definition set_book b (c : Contact) : Contact :=
  let '(mkContact p r a m ms w s _ ch h n z q) := c in mkContact p r a m ms w s b ch h n z q.
Definition set_changed ch (c : Contact) : Contact :=
  let '(mkContact p r a m ms w s b _ h n z q) := c in mkContact p r a m ms w s b ch h n z q.
Definition set_hosts h (c : Contact) : Contact :=
  let '(mkContact p r a m ms w s b ch _ n z q) := c in mkContact p r a m ms w s b ch h n z q.
Definition set_rounds n (c : Contact) : Contact :=
  let '(mkContact p r a m ms w s b ch h _ z q) := c in mkContact p r a m ms w s b ch h n z q.
Definition set_quiet q (c : Contact) : Contact :=
  let '(mkContact p r a m ms w s b ch h n z _) := c in mkContact p r a m ms w s b ch h n z q.

(** ** Asking the coordinator *)

(** [Option]'s order: [None] below every [Some]. *)
Definition omax (a b : option N) : option N :=
  match a, b with
  | Some a, Some b => Some (N.max a b)
  | Some a, None => Some a
  | None, b => b
  end.

Definition last_asked (c : Contact) : option N := omax (read_at c) (asked_at c).
Definition current_wait (c : Contact) : N := default REREAD_AFTER_MISS (miss_wait c).

(** Whether a machine that did not answer makes this round read. *)
Definition reread (now : N) (c : Contact) : bool :=
  missed c && match last_asked c with Some at_ => current_wait c <=? now - at_ | None => true end.

Definition due (address : option string) (now : N) (c : Contact) : Due :=
  let publish := match published_for c with
                 | None => true
                 | Some (for_address, at_) => negb (bool_decide (address = for_address)) || (PUBLISH_EVERY <=? now - at_)
                 end in
  mkDue publish (publish || bool_decide (read_at c = None) || reread now c) (negb (signs c)).

Definition asked (d : Due) (now : N) (c : Contact) : Contact :=
  if du_read d
  then set_asked (Some now) (if missed c then Some (N.min (current_wait c * 2) PUBLISH_EVERY) else miss_wait c) c
  else c.

Definition fall_back (now : N) (c : Contact) : Contact :=
  match miss_wait c with
  | None => c
  | Some _ => if match reset_at c with Some at_ => RESET_FLOOR <=? now - at_ | None => true end
              then set_wait None (Some now) c else c
  end.

Definition round_reached (reached : gset DeviceId) (now : N) (c : Contact) : Contact :=
  let c := set_rounds (sat_add (rounds c) 1) c in
  let c := set_quiet (filter (fun p => p.1 ∉ reached) (quiet c)) c in
  let gone : gset DeviceId := filter (fun d => d ∉ reached) (dom (book c)) in
  let c := if bool_decide (gone = ∅) || bool_decide (¬ missing c ## reached) then fall_back now c else c in
  set_missing (negb (bool_decide (gone = ∅))) gone c.

Definition published (address : option string) (now : N) (c : Contact) : Contact := set_published (Some (address, now)) c.

Definition signed (c : Contact) : Contact := set_signs true (set_changed (changed c || negb (signs c)) c).

(** ** The book *)

(** Worked most recently first, then the addresses that can work from anywhere. *)
Definition rank (c : Candidate) : N := match ca_worked c with Some t => t + 1 | None => 0 end.
Definition best_first (a b : Candidate) : bool :=
  (rank b <? rank a)
  || ((rank b =? rank a) && implb (is_private_address (ca_address a)) (is_private_address (ca_address b))).
Definition sort_best_first (l : list Candidate) : list Candidate := sort_by best_first l.

(** [iter_mut().find(..)], and the change made to what it finds. *)
Fixpoint update_at (address : string) (f : Candidate -> Candidate) (l : list Candidate) : list Candidate :=
  match l with
  | [] => []
  | c :: l => if decide (ca_address c = address) then f c :: l else c :: update_at address f l
  end.
Definition candidate_at (address : string) (l : list Candidate) : option Candidate :=
  snd <$> list_find (fun c => ca_address c = address) l.

Definition newer_presence (p : option SignedPresence) (held : option SignedPresence) : option SignedPresence :=
  match p with
  | Some p => if match held with
                 | Some h => pr_at_unix (sp_presence h) <? pr_at_unix (sp_presence p)
                 | None => true
                 end then Some p else None
  | None => None
  end.
Definition newer_claim (claim : option SignedClaim) (held : option SignedClaim) : option SignedClaim :=
  match claim with
  | Some k => if match held with
                 | Some h => cl_issued_unix (sc_claim h) <? cl_issued_unix (sc_claim k)
                 | None => true
                 end then Some k else None
  | None => None
  end.

(** A known address: the latest proof, and the latest claim if it has a proof. *)
Definition refresh (presence : option SignedPresence) (claim : option SignedClaim) (k : Candidate) : bool * Candidate :=
  let '(mkCand a w p cl v) := k in
  let fresh := newer_presence presence p in
  let p := match fresh with Some f => Some f | None => p end in
  let later := match p with Some _ => newer_claim claim cl | None => None end in
  let cl := match later with Some l => Some l | None => cl end in
  (bool_decide (is_Some fresh) || bool_decide (is_Some later), mkCand a w p cl v).

Definition bound (l : list Candidate) : list Candidate :=
  if (MAX_ADDRESSES <? length l)%nat then take MAX_ADDRESSES (sort_best_first l) else l.

Definition insert (device : DeviceId) (address : string) (presence : option SignedPresence)
    (claim : option SignedClaim) (worked : option N) (c : Contact) : Contact :=
  if bool_decide (book c !! device = None) && (MAX_DEVICES <=? size (book c))%nat then c
  else
    let held := default [] (book c !! device) in
    match candidate_at address held with
    | Some known =>
        let touched := (refresh presence claim known).1 in
        set_changed (changed c || touched)
          (set_book (<[device := update_at address (fun k => (refresh presence claim k).2) held]> (book c)) c)
    | None =>
        let c := match quiet c !! device with
                 | Some q => set_quiet (<[device := mkQuiet (q_misses q) (q_round q) (q_until q) true]> (quiet c)) c
                 | None => c
                 end in
        let claim := match presence with Some _ => claim | None => None end in
        set_changed true
          (set_book (<[device := bound (held ++ [mkCand address worked presence claim false])]> (book c)) c)
    end.

Definition presence_for (device : DeviceId) (address : string) (l : list SignedPresence) : option SignedPresence :=
  snd <$> list_find (fun s => pr_device (sp_presence s) = device /\ pr_address (sp_presence s) = address) l.
Definition claim_with (presence : option SignedPresence) (l : list ClaimedPresence) : option SignedClaim :=
  cp_claim ∘ snd <$> list_find (fun row => presence = Some (cp_presence row)) l.

(** An address the book did not hold, for a machine that is missing. *)
Definition is_news (found : list (DeviceId * string)) (c : Contact) : bool :=
  existsb (fun p => bool_decide (p.1 ∈ missing c)
                    && match book c !! p.1 with
                       | Some held => negb (existsb (fun k => bool_decide (ca_address k = p.2)) held)
                       | None => true
                       end) found.

Definition keep_listed (listed : gset DeviceId) (c : Contact) : Contact :=
  let kept := filter (fun p => p.1 ∈ listed) (book c) in
  let c := set_changed (changed c || negb (size kept =? size (book c))%nat) (set_book kept c) in
  set_quiet (filter (fun p => p.1 ∈ listed) (quiet c)) c.

Definition read_one (presences : list SignedPresence) (claimed : list ClaimedPresence) (c : Contact)
    (p : DeviceId * string) : Contact :=
  let presence := presence_for p.1 p.2 presences in
  insert p.1 p.2 presence (claim_with presence claimed) None c.

Definition read (found : list (DeviceId * string)) (presences : list SignedPresence) (claimed : list ClaimedPresence)
    (now : N) (c : Contact) : Contact :=
  let c := set_read (Some now) false c in
  let c := if is_news found c then fall_back now c else c in
  let c := keep_listed (list_to_set found.*1) c in
  foldl (read_one presences claimed) c found.

(** ** What a round learns of an address *)

Definition all_candidates (c : Contact) : list Candidate := concat (btree_iter (book c)).*2.

Definition latest_worked (c : Contact) : option N :=
  foldl (fun acc k => omax acc (ca_worked k)) None (all_candidates c).

Definition worked (device : DeviceId) (address : string) (now_unix : N) (c : Contact) : Contact :=
  let at_ := match latest_worked c with Some latest => N.max now_unix (sat_add latest 1) | None => now_unix end in
  let c := set_quiet (delete device (quiet c)) c in
  match book c !! device with
  | Some held =>
      match candidate_at address held with
      | Some _ => set_changed true (set_book (<[device := update_at address
                    (fun k => mkCand (ca_address k) (Some at_) (ca_presence k) (ca_claim k) true) held]> (book c)) c)
      | None => c
      end
  | None => c
  end.

Definition miss (round now : N) (q : option Quiet) : Quiet :=
  let q := default (mkQuiet 0 round now false) q in
  if (q_misses q =? 0) || negb (q_round q =? round)
  then let misses := N.min (q_misses q + 1) u32_max in mkQuiet misses round (now + quiet_for misses) false
  else mkQuiet (q_misses q) (q_round q) (q_until q) false.

Definition failed (device : DeviceId) (address : string) (now : N) (c : Contact) : Contact :=
  match book c !! device with
  | Some held =>
      match candidate_at address held with
      | Some _ =>
          let c := set_book (<[device := update_at address
                     (fun k => mkCand (ca_address k) (ca_worked k) (ca_presence k) (ca_claim k) false) held]> (book c)) c in
          set_quiet (<[device := miss (rounds c) now (quiet c !! device)]> (quiet c)) c
      | None => c
      end
  | None => c
  end.

(** ** Dialling *)

Definition ordered (c : Contact) : list (DeviceId * Candidate) :=
  btree_iter (book c) ≫= (fun p => (fun k => (p.1, k)) <$> sort_best_first p.2).
Definition candidates (c : Contact) : list (DeviceId * string) := (fun p => (p.1, ca_address p.2)) <$> ordered c.

Definition dialable (heard_here : DeviceId -> option bool) (is_me : string -> bool) (now : N) (c : Contact)
  : list (DeviceId * string) :=
  let probe := rounds c mod PRIVATE_PROBE_EVERY =? 0 in
  let l := filter (fun p => is_me (ca_address p.2) = false) (ordered c) in
  let l := filter (fun p => heard_here p.1 = Some true
                            \/ match quiet c !! p.1 with
                               | Some q => q_news q || (q_until q <=? now)
                               | None => true
                               end = true) l in
  let l := filter (fun p => probe || ca_proven p.2 || negb (only_rfc1918 (ca_address p.2))
                            || negb (bool_decide (heard_here p.1 = Some false)) = true) l in
  (fun p => (p.1, ca_address p.2)) <$> l.

Definition is_relay (address : string) : bool := String.prefix RELAY_PREFIX address.

Definition relay_choices (c : Contact) : list (DeviceId * string) :=
  let choices := foldl (fun acc (h : DeviceId * string * N) =>
    if existsb (fun k : DeviceId * string => k.1 =? h.1.1) acc then acc else acc ++ [h.1]) (candidates c) (hosts c) in
  filter (fun p => negb (is_relay p.2) && negb (is_private_address p.2) = true) choices.
Definition relay_choice (c : Contact) : option (DeviceId * string) := head (relay_choices c).

Definition hosts_reached (reached : list (DeviceId * string)) (now : N) (c : Contact) : Contact :=
  let all := foldl (fun acc (h : DeviceId * string) =>
    filter (fun k => k.1.1 <> h.1) acc ++ [(h.1, h.2, now)]) (hosts c) reached in
  set_hosts (filter (fun h => now - h.2 < HOST_RELAY_FOR) all) c.

Definition through (address : string) (c : Contact) : option (DeviceId * string) :=
  if is_relay address then
    let rest := drop 6 (String.list_ascii_of_string address) in
    let '(id, carried) := match split_once "@" rest with Some (id, at_) => (id, Some at_) | None => (rest, None) end in
    match from_hex (String.string_of_list_ascii id) with
    | Err _ => None
    | Ok relay =>
        match list_find (fun p => p.1 = relay /\ is_relay p.2 = false) (candidates c) with
        | Some (_, p) => Some p
        | None =>
            match carried with
            | Some at_ => let at_ := String.string_of_list_ascii at_ in
                          if bool_decide (at_ = EmptyString) || is_relay at_ then None else Some (relay, at_)
            | None => None
            end
        end
    end
  else None.

(** ** Relaying *)

Definition claimed_row (k : Candidate) : option ClaimedPresence :=
  match ca_presence k, ca_claim k with
  | Some p, Some cl => Some (mkClaimedPresence p cl)
  | _, _ => None
  end.
Definition relayable (c : Contact) : list ClaimedPresence := omap claimed_row (all_candidates c).

Record Relayed := mkRelayed { kept : nat; forged : nat; unknown : nat; stale : nat }.
Definition Relayed_default : Relayed := mkRelayed 0 0 0 0.

Definition max_of (l : list N) : option N := foldl (fun acc n => omax acc (Some n)) None l.

(** Not older than what is held: the owner's word, and the device's. *)
Definition is_fresh (held : list Candidate) (horizon : N) (row : ClaimedPresence) : bool :=
  let latest_claim := max_of (omap (fun k => cl_issued_unix ∘ sc_claim <$> ca_claim k) held) in
  let latest_presence := max_of (filter (fun at_ => at_ <= horizon)
                                   (omap (fun k => pr_at_unix ∘ sp_presence <$> ca_presence k) held)) in
  match latest_claim with Some at_ => at_ <=? cl_issued_unix (sc_claim (cp_claim row)) | None => false end
  && match latest_presence with Some at_ => at_ <=? pr_at_unix (sp_presence (cp_presence row)) | None => true end.

Record Board := mkBoard {
  members : gset DeviceId;
  rows : list (DeviceId * list N);
  relays : list (DeviceId * string);
}.

(** [SharedBoard::presences_for] *)
Definition presences_for (b : Board) (caller : DeviceId) : option (list (list N)) :=
  if bool_decide (caller ∈ members b)
  then Some ((filter (fun p => p.1 <> caller) (rows b)).*2)
  else None.

(** ** Postcard *)

Class ContactCodec := {
  encode_book : BookFile -> list N;
  decode_version : list N -> option N;
  decode_book : list N -> option BookFile;
  decode_book_v1 : list N -> option BookFileV1;
  encode_row : ClaimedPresence -> option (list N);
  decode_row : list N -> option ClaimedPresence;
}.

(** What the source relies on: what was written is read back, its version first. *)
Class ContactCodecLaws `{!ContactCodec} := {
  decode_encode_version : forall f, decode_version (encode_book f) = Some (bf_version f);
  decode_encode_book : forall f, decode_book (encode_book f) = Some f;
  decode_encode_row : forall r bytes, encode_row r = Some bytes -> decode_row bytes = Some r;
}.

(** What [load] says of the file, when it says anything. *)
Inductive Warning :=
| CouldNotRead
| OtherVersion (version : N)
| Damaged
| Held (forged offered foreign : nat).

(** Reading the file: it is not there, cannot be read, or holds bytes. *)
Inductive OnDisk := NotFound | Unreadable | Bytes (b : list N).

Section codec.
Context `{!Primitives, !ContactCodec}.

Definition relay_one (owner : UserId) (me : DeviceId) (now : N) (acc : Relayed * Contact) (bytes : list N)
  : Relayed * Contact :=
  let '(r, c) := acc in
  let horizon := sat_add now MAX_CLOCK_SKEW in
  let 'mkRelayed k f u s := r in
  match decode_row bytes with
  | None => (mkRelayed k (S f) u s, c)
  | Some row =>
      let p := sp_presence (cp_presence row) in
      if pr_device p =? me then (r, c)
      else if negb (is_ok (verify_for row owner)) || (horizon <? pr_at_unix p) then (mkRelayed k (S f) u s, c)
      else
        match book c !! pr_device p with
        | None => (mkRelayed k f (S u) s, c)
        | Some held =>
            if is_fresh held horizon row
            then (mkRelayed (S k) f u s,
                  insert (pr_device p) (pr_address p) (Some (cp_presence row)) (Some (cp_claim row)) None c)
            else (mkRelayed k f u (S s), c)
        end
  end.

Definition relayed (l : list (list N)) (owner : UserId) (me : DeviceId) (now : N) (c : Contact) : Relayed * Contact :=
  foldl (relay_one owner me now) (Relayed_default, c) l.

Definition board (c : Contact) : Board :=
  mkBoard (dom (filter (fun p => Exists (fun k => is_Some (ca_claim k)) p.2) (book c)))
    (omap (fun row => (fun bytes => (pr_device (sp_presence (cp_presence row)), bytes)) <$> encode_row row) (relayable c))
    (relay_choices c).

(** ** On disk *)

Definition entry_of (k : Candidate) : option BookEntry :=
  (fun p => mkEntry p (ca_worked k) (ca_claim k)) <$> ca_presence k.

Definition file_of (c : Contact) : BookFile :=
  mkBook BOOK_VERSION (signs c) (omap entry_of (all_candidates c)).

(** [Ok (Some bytes)]: they were written and renamed over the old file;
    [writes] is what the disk does. *)
Definition save (writes : bool) (c : Contact) : result unit (option (list N)) * Contact :=
  if negb (changed c) then (Ok None, c)
  else
    let bytes := encode_book (file_of c) in
    if writes then (Ok (Some bytes), set_changed false c) else (Err tt, c).

Definition load_entry (owner : UserId) (acc : nat * nat * Contact) (e : BookEntry) : nat * nat * Contact :=
  let '(forged, foreign, c) := acc in
  if negb (is_ok (presence_verify_origin (be_presence e))) then (S forged, foreign, c)
  else
    let p := sp_presence (be_presence e) in
    let '(foreign, claim) := match be_claim e with
                             | Some claim => if is_ok (verify_for (mkClaimedPresence (be_presence e) claim) owner)
                                             then (foreign, Some claim) else (S foreign, None)
                             | None => (foreign, None)
                             end in
    (forged, foreign, insert (pr_device p) (pr_address p) (Some (be_presence e)) claim (be_worked e) c).

Definition load (disk : OnDisk) (owner : UserId) : Contact * option Warning :=
  match disk with
  | NotFound => (new, None)
  | Unreadable => (new, Some CouldNotRead)
  | Bytes bytes =>
      let decoded := match decode_version bytes with
                     | Some 1 => from_v1 <$> decode_book_v1 bytes
                     | _ => decode_book bytes
                     end in
      match decoded with
      | None => (new, Some Damaged)
      | Some file =>
          if negb (bf_version file =? BOOK_VERSION) then (new, Some (OtherVersion (bf_version file)))
          else
            let '(forged, foreign, c) := foldl (load_entry owner) (0%nat, 0%nat, set_signs (bf_signs file) new) (bf_entries file) in
            (set_changed false c,
             if (0 <? forged)%nat || (0 <? foreign)%nat then Some (Held forged (length (bf_entries file)) foreign) else None)
      end
  end.

End codec.
