(* ===== verification/ContactOk.v ===== *)
(** * ContactOk: what the address book may hold

    The invariant of the book of [Contact], kept by its one door [insert] and by
    every operation above it: its bounds, one candidate per address, and nothing
    but what the device signed and the owner claimed behind a signature. *)

From S2P Require Import Prelude Version Ids Network Crypto Accounting Claims Reach Contact.

(** A claim of [owner] on [device], live and signed. *)
Definition claim_ok {PR : Primitives} (owner : UserId) (device : DeviceId) (cl : SignedClaim) : Prop :=
  claim_verify_origin cl = Ok tt /\ cl_owner (sc_claim cl) = owner /\ cl_device (sc_claim cl) = device
  /\ cl_revoked (sc_claim cl) = false.

(** A presence of [device] at [address], signed. *)
Definition presence_ok {PR : Primitives} (device : DeviceId) (address : string) (p : SignedPresence) : Prop :=
  presence_verify_origin p = Ok tt /\ pr_device (sp_presence p) = device /\ pr_address (sp_presence p) = address.

(** What stands behind a candidate: its presence, and its claim with it. *)
Definition proofs_ok {PR : Primitives} (owner : UserId) (device : DeviceId) (address : string)
    (p : option SignedPresence) (cl : option SignedClaim) : Prop :=
  from_option (presence_ok device address) True p /\ from_option (claim_ok owner device) True cl.

Record cand_ok {PR : Primitives} (owner : UserId) (device : DeviceId) (k : Candidate) : Prop := mkCandOk {
  co_proofs : proofs_ok owner device (ca_address k) (ca_presence k) (ca_claim k);
  co_claim : is_Some (ca_claim k) -> is_Some (ca_presence k);
}.

Record list_ok {PR : Primitives} (owner : UserId) (device : DeviceId) (l : list Candidate) : Prop := mkListOk {
  lo_some : l <> [];
  lo_length : (length l <= MAX_ADDRESSES)%nat;
  lo_NoDup : NoDup (ca_address <$> l);
  lo_cands : Forall (cand_ok owner device) l;
}.

Record book_ok {PR : Primitives} (owner : UserId) (b : gmap DeviceId (list Candidate)) : Prop := mkBookOk {
  bo_size : (size b <= MAX_DEVICES)%nat;
  bo_lists : map_Forall (list_ok owner) b;
}.

(** The fields other than the book, what changed of it, and who is quiet. *)
Definition timers (c : Contact) :=
  (published_for c, read_at c, asked_at c, missed c, missing c, miss_wait c, signs c, hosts c, rounds c, reset_at c).

Section book.
Context `{!Primitives}.

Lemma verify_for_iff p cl owner :
  is_ok (verify_for (mkClaimedPresence p cl) owner) = true
  <-> presence_verify_origin p = Ok tt /\ claim_ok owner (pr_device (sp_presence p)) cl.
Proof.
  unfold verify_for, claim_ok, rbind. cbn [cp_presence cp_claim].
  destruct (presence_verify_origin p) as [[]|]; [|naive_solver]. destruct (claim_verify_origin cl) as [[]|]; [|naive_solver].
  destruct (N.eqb_spec (cl_owner (sc_claim cl)) owner); [|naive_solver].
  destruct (N.eqb_spec (cl_device (sc_claim cl)) (pr_device (sp_presence p))); [|naive_solver].
  destruct (cl_revoked (sc_claim cl)); naive_solver.
Qed.

(** ** Lists of candidates *)

Lemma update_at_addresses address f l :
  (forall k, ca_address (f k) = ca_address k) -> ca_address <$> update_at address f l = ca_address <$> l.
Proof.
  intros Hf. induction l as [|k l IH]; [done|]. cbn. case_decide; cbn; [by rewrite Hf|by rewrite IH].
Qed.

Lemma elem_of_update_at address f l k :
  k ∈ update_at address f l -> k ∈ l \/ exists k0, k0 ∈ l /\ ca_address k0 = address /\ k = f k0.
Proof.
  induction l as [|a l IH]; [set_solver|]. cbn. case_decide as Ha.
  - intros [->|Hk]%elem_of_cons; [right; exists a; set_solver|left; set_solver].
  - intros [->|Hk]%elem_of_cons; [left; set_solver|]. destruct (IH Hk) as [|(k0 & ? & ? & ?)]; [set_solver|].
    right. exists k0. set_solver.
Qed.

Lemma elem_of_update_at_2 address f l k :
  k ∈ l -> k ∈ update_at address f l \/ ca_address k = address /\ f k ∈ update_at address f l.
Proof.
  induction l as [|a l IH]; [set_solver|]. cbn. case_decide as Ha.
  - intros [->|Hk]%elem_of_cons; [right; set_solver|left; set_solver].
  - intros [->|Hk]%elem_of_cons; [left; set_solver|]. destruct (IH Hk) as [|[? ?]]; [left; set_solver|right; set_solver].
Qed.

Lemma update_at_nil address f l : update_at address f l = [] <-> l = [].
Proof. destruct l; cbn; [done|]. by case_decide. Qed.

Lemma length_update_at address f l : length (update_at address f l) = length l.
Proof. induction l as [|a l IH]; [done|]. cbn. case_decide; cbn; by rewrite ?IH. Qed.

Lemma candidate_at_None address l : candidate_at address l = None <-> address ∉ ca_address <$> l.
Proof.
  unfold candidate_at. rewrite fmap_None, list_find_None, Forall_forall, list_elem_of_fmap. naive_solver.
Qed.

Lemma candidate_at_Some address l k : candidate_at address l = Some k -> k ∈ l /\ ca_address k = address.
Proof.
  unfold candidate_at. intros ([i x] & E & ->)%fmap_Some. apply list_find_Some in E as (Hi & Ha & _).
  split; [by apply list_elem_of_lookup_2 in Hi|done].
Qed.

Lemma update_at_ok owner d address f l :
  (forall k, ca_address (f k) = ca_address k) -> (forall k, cand_ok owner d k -> ca_address k = address -> cand_ok owner d (f k)) ->
  list_ok owner d l -> list_ok owner d (update_at address f l).
Proof.
  intros Ha Hf [Hne Hlen Hnd Hc]. split.
  - by rewrite update_at_nil.
  - by rewrite length_update_at.
  - by rewrite update_at_addresses.
  - apply Forall_forall. intros k [Hk|(k0 & Hk & Hk0 & ->)]%elem_of_update_at.
    + by apply (proj1 (Forall_forall _ _) Hc).
    + apply Hf; [by apply (proj1 (Forall_forall _ _) Hc)|done].
Qed.

Lemma elem_of_bound l k : k ∈ bound l -> k ∈ l.
Proof.
  unfold bound, sort_best_first. destruct (_ <? _)%nat; [|done]. intros Hk. apply elem_of_take in Hk as (i & Hi & _).
  apply list_elem_of_lookup_2 in Hi. by rewrite sort_by_perm in Hi.
Qed.

Lemma bound_ok owner d l :
  l <> [] -> NoDup (ca_address <$> l) -> Forall (cand_ok owner d) l -> list_ok owner d (bound l).
Proof.
  intros Hne Hnd Hc. split.
  - unfold bound. destruct (Nat.ltb_spec MAX_ADDRESSES (length l)); [|done]. intros E. apply (f_equal length) in E.
    rewrite length_take in E. unfold sort_best_first in E. rewrite sort_by_perm in E. unfold MAX_ADDRESSES in *. change (length (@nil Candidate)) with 0%nat in E. lia.
  - unfold bound. destruct (Nat.ltb_spec MAX_ADDRESSES (length l)); [rewrite length_take|]; lia.
  - unfold bound. destruct (_ <? _)%nat; [|done]. apply (sublist_NoDup _ (ca_address <$> sort_best_first l)).
    + unfold sort_best_first. by rewrite sort_by_perm.
    + rewrite fmap_take. apply sublist_take.
  - apply Forall_forall. intros k Hk%elem_of_bound. by apply (proj1 (Forall_forall _ _) Hc).
Qed.

(** *** What has worked is never pushed out by what has not *)

Lemma best_first_total a b : best_first a b = true \/ best_first b a = true.
Proof.
  unfold best_first. destruct (N.ltb_spec (rank b) (rank a)), (N.ltb_spec (rank a) (rank b)); auto; cbn;
    destruct (N.eqb_spec (rank b) (rank a)); try lia; rewrite (proj2 (N.eqb_eq (rank a) (rank b))) by lia.
  destruct (is_private_address (ca_address a)), (is_private_address (ca_address b)); auto.
Qed.

Lemma best_first_trans a b c : best_first a b = true -> best_first b c = true -> best_first a c = true.
Proof.
  unfold best_first. rewrite !orb_true_iff, !andb_true_iff, !N.ltb_lt, !N.eqb_eq.
  intros [H1|[H1 I1]] [H2|[H2 I2]]; [left; lia|left; lia|left; lia|right]. split; [lia|].
  by destruct (is_private_address (ca_address a)), (is_private_address (ca_address b)), (is_private_address (ca_address c)).
Qed.

Lemma bound_keeps_worked l n k :
  (length l <= MAX_ADDRESSES)%nat -> ca_worked n = None -> k ∈ l -> is_Some (ca_worked k) -> k ∈ bound (l ++ [n]).
Proof.
  intros Hl Hn Hk [t Ht]. unfold bound. destruct (Nat.ltb_spec MAX_ADDRESSES (length (l ++ [n]))) as [Hlt|]; [|set_solver].
  rewrite length_app in Hlt. cbn in Hlt. set (s := sort_best_first (l ++ [n])).
  assert (Hp : s ≡ₚ l ++ [n]) by apply sort_by_perm.
  assert (Hs : StronglySorted best_first s) by (apply sort_by_sorted; [apply best_first_total|apply best_first_trans]).
  assert (Hks : k ∈ s) by (rewrite Hp; set_solver). assert (Hns : n ∈ s) by (rewrite Hp; set_solver).
  rewrite <- (take_drop MAX_ADDRESSES s) in Hks, Hns, Hs.
  apply elem_of_app in Hks as [|Hkd]; [done|exfalso]. apply elem_of_app in Hns as [Hnt|Hnd].
  - apply StronglySorted_app in Hs as (Hs & _ & _). specialize (Hs n k Hnt Hkd). apply Is_true_true in Hs. revert Hs.
    unfold best_first, rank. rewrite Hn, Ht. destruct (N.ltb_spec (t + 1) 0), (N.eqb_spec (t + 1) 0); lia.
  - assert (Hd : length (drop MAX_ADDRESSES s) = 1%nat).
    { rewrite length_drop. assert (length s = S (length l)) by (rewrite Hp, length_app; cbn; lia). lia. }
    destruct (drop MAX_ADDRESSES s) as [|x [|]]; [done| |done]. apply list_elem_of_singleton in Hkd, Hnd. congruence.
Qed.

(** ** The door *)

Lemma newer_presence_some p held q : newer_presence p held = Some q -> p = Some q.
Proof. unfold newer_presence. destruct p; [|done]. by destruct (match held with Some _ => _ | None => _ end). Qed.
Lemma newer_claim_some p held q : newer_claim p held = Some q -> p = Some q.
Proof. unfold newer_claim. destruct p; [|done]. by destruct (match held with Some _ => _ | None => _ end). Qed.

(** What refreshing a candidate leaves as it was, and what it may add. *)
Lemma refresh_spec presence claim k :
  let k' := (refresh presence claim k).2 in
  ca_address k' = ca_address k /\ ca_worked k' = ca_worked k /\ ca_proven k' = ca_proven k
  /\ (ca_presence k' = ca_presence k \/ is_Some presence /\ ca_presence k' = presence)
  /\ (ca_claim k' = ca_claim k \/ is_Some claim /\ ca_claim k' = claim /\ is_Some (ca_presence k')).
Proof.
  destruct k as [a w p cl v]. cbn. destruct (newer_presence presence p) as [q|] eqn:Ep.
  - apply newer_presence_some in Ep as ->. destruct (newer_claim claim cl) as [x|] eqn:Ec; [apply newer_claim_some in Ec as ->|];
      split_and!; try done; [right; eauto|right; eauto|right; eauto|by left].
  - destruct p as [p|]; [|by split_and!; try done; left].
    destruct (newer_claim claim cl) as [x|] eqn:Ec; [apply newer_claim_some in Ec as ->|];
      split_and!; try done; [by left|right; eauto|by left|by left].
Qed.

Lemma refresh_ok owner d address presence claim k :
  proofs_ok owner d address presence claim -> cand_ok owner d k -> ca_address k = address ->
  cand_ok owner d (refresh presence claim k).2.
Proof.
  intros [Hp Hc] [[Hkp Hkc] Hkk] Ha. destruct (refresh_spec presence claim k) as (E1 & _ & _ & E4 & E5).
  subst address. split; [split|].
  - rewrite E1. destruct E4 as [->|[_ ->]]; done.
  - destruct E5 as [->|(_ & -> & _)]; done.
  - destruct E5 as [->|(_ & _ & ?)]; [|done]. intros Hs. specialize (Hkk Hs). destruct E4 as [->|[? ->]]; done.
Qed.

Lemma insert_timers device address presence claim w c : timers (insert device address presence claim w c) = timers c.
Proof.
  unfold insert. destruct (_ && _); [done|]. destruct (candidate_at _ _); [by destruct c|].
  destruct (quiet c !! device); by destruct c.
Qed.

(** The book a new candidate leaves. *)
Lemma insert_book device address presence claim w c :
  let held := default [] (book c !! device) in
  let claim' := match presence with Some _ => claim | None => None end in
  book (insert device address presence claim w c)
  = if bool_decide (book c !! device = None) && (MAX_DEVICES <=? size (book c))%nat then book c
    else <[device := match candidate_at address held with
                     | Some _ => update_at address (fun k => (refresh presence claim k).2) held
                     | None => bound (held ++ [mkCand address w presence claim' false])
                     end]> (book c).
Proof.
  cbn zeta. unfold insert. destruct (_ && _); [done|]. destruct (candidate_at _ _); [by destruct c|].
  destruct (quiet c !! device); by destruct c.
Qed.

Lemma new_cand_ok owner d address presence claim w :
  proofs_ok owner d address presence claim ->
  cand_ok owner d (mkCand address w presence (match presence with Some _ => claim | None => None end) false).
Proof. intros [Hp Hc]. split; cbn; [|by destruct presence; [eauto|intros []]]. by destruct presence. Qed.

Lemma insert_ok owner device address presence claim w c :
  proofs_ok owner device address presence claim -> book_ok owner (book c) ->
  book_ok owner (book (insert device address presence claim w c)).
Proof.
  intros Hp [Hsz Hl]. rewrite insert_book. destruct (bool_decide_reflect (book c !! device = None)) as [Hn|Hn]; cbn [andb].
  - destruct (Nat.leb_spec MAX_DEVICES (size (book c))) as [|Hlt]; [by split|]. rewrite Hn. cbn [default candidate_at list_find fmap option_fmap option_map].
    split; [rewrite map_size_insert_None by done; lia|]. apply map_Forall_insert_2; [|done].
    apply bound_ok; [done|apply NoDup_singleton|]. constructor; [|done].
    by apply new_cand_ok.
  - destruct (book c !! device) as [held|] eqn:Hd; [|done]. cbn [default from_option id]. pose proof (Hl _ _ Hd) as Hh.
    split; [by rewrite map_size_insert_Some by eauto|]. apply map_Forall_insert_2; [|done].
    change (id held) with held. destruct (candidate_at address held) eqn:Ha.
    + apply update_at_ok; [intros k; apply refresh_spec| |exact Hh]. intros k Hk Hka. by eapply refresh_ok.
    + destruct Hh as [Hne Hlen Hnd Hc]. apply bound_ok; [by destruct held| |].
      * rewrite fmap_app. apply NoDup_app. apply candidate_at_None in Ha. split; [done|]. split; [|apply NoDup_singleton].
        intros x Hx ->%list_elem_of_singleton. done.
      * apply Forall_app. split; [done|]. constructor; [|done]. by apply new_cand_ok.
Qed.

End book.

(** ** Every operation *)

Section operations.
Context `{!Primitives}.

Lemma fall_back_book now c : book (fall_back now c) = book c.
Proof. unfold fall_back. destruct c; cbn. destruct miss_wait; [|done]. by destruct (match reset_at with Some _ => _ | None => _ end). Qed.

Lemma asked_book d now c : book (asked d now c) = book c.
Proof. unfold asked. by destruct (du_read d), c. Qed.

Lemma round_reached_book reached now c : book (round_reached reached now c) = book c.
Proof.
  unfold round_reached. set (c1 := set_quiet _ _). assert (E : book c1 = book c) by by destruct c. rewrite <- E. clearbody c1.
  destruct (_ || _); [rewrite <- (fall_back_book now c1); by destruct (fall_back now c1)|by destruct c1].
Qed.

Lemma hosts_reached_book l now c : book (hosts_reached l now c) = book c.
Proof. by destruct c. Qed.

Lemma save_book `{!ContactCodec} writes c : book (save writes c).2 = book c.
Proof. unfold save. destruct (negb _); [done|]. destruct writes; by destruct c. Qed.

Lemma keep_listed_ok owner listed c : book_ok owner (book c) -> book_ok owner (book (keep_listed listed c)).
Proof.
  intros [Hs Hl]. assert (E : book (keep_listed listed c) = filter (fun p => p.1 ∈ listed) (book c)) by by destruct c.
  rewrite E. split; [|intros d l [Hd _]%map_lookup_filter_Some; by apply Hl]. etransitivity; [|exact Hs]. apply map_subseteq_size, map_filter_subseteq.
Qed.

Lemma presence_for_ok d address l p :
  Forall (fun p => presence_verify_origin p = Ok tt) l -> presence_for d address l = Some p -> presence_ok d address p.
Proof.
  intros Hl. unfold presence_for. intros ([i x] & E & ->)%fmap_Some. apply list_find_Some in E as (Hi & [? ?] & _).
  split; [|done]. apply (proj1 (Forall_forall _ _) Hl). by apply list_elem_of_lookup_2 in Hi.
Qed.

Lemma claim_with_ok owner d address presence l cl :
  Forall (fun r => is_ok (verify_for r owner) = true) l -> from_option (presence_ok d address) True presence ->
  claim_with presence l = Some cl -> claim_ok owner d cl.
Proof.
  intros Hl Hp. unfold claim_with. intros ([i [p k]] & E & ->)%fmap_Some. apply list_find_Some in E as (Hi & -> & _).
  cbn in *. destruct Hp as (_ & <- & _). apply list_elem_of_lookup_2 in Hi.
  apply (proj1 (Forall_forall _ _) Hl) in Hi. by apply verify_for_iff in Hi as [_ ?].
Qed.

(** What a coordinator's answer is checked for before it is read. *)
Definition answer_ok (owner : UserId) (presences : list SignedPresence) (claimed : list ClaimedPresence) : Prop :=
  Forall (fun p => presence_verify_origin p = Ok tt) presences /\ Forall (fun r => is_ok (verify_for r owner) = true) claimed.

Lemma read_one_ok owner presences claimed c p :
  answer_ok owner presences claimed -> book_ok owner (book c) -> book_ok owner (book (read_one presences claimed c p)).
Proof.
  intros [Hp Hc] Hb. apply insert_ok; [|done].
  assert (Ho : from_option (presence_ok p.1 p.2) True (presence_for p.1 p.2 presences)).
  { destruct (presence_for _ _ _) as [x|] eqn:E; [|done]. by apply presence_for_ok in E. }
  split; [done|]. destruct (claim_with _ _) as [cl|] eqn:E; [|done]. by eapply claim_with_ok in E.
Qed.

Lemma read_ok owner found presences claimed now c :
  answer_ok owner presences claimed -> book_ok owner (book c) -> book_ok owner (book (read found presences claimed now c)).
Proof.
  intros Ha Hb. unfold read. set (c1 := keep_listed _ _). assert (H1 : book_ok owner (book c1)).
  { apply keep_listed_ok. destruct (is_news _ _); [rewrite fall_back_book|]; by destruct c. }
  clearbody c1. clear Hb. generalize dependent c1. induction found as [|p found IH]; intros c1 H1; [done|]. cbn [foldl].
  apply IH. by apply read_one_ok.
Qed.

Lemma update_book_ok owner device address f c :
  (forall k, ca_address (f k) = ca_address k /\ ca_presence (f k) = ca_presence k /\ ca_claim (f k) = ca_claim k) ->
  book_ok owner (book c) ->
  forall held, book c !! device = Some held -> book_ok owner (<[device := update_at address f held]> (book c)).
Proof.
  intros Hf [Hs Hl] held Hd. split; [by rewrite map_size_insert_Some by eauto|]. apply map_Forall_insert_2; [|done].
  apply update_at_ok; [intros k; apply Hf| |by apply Hl]. intros k [Hp Hc] _. destruct (Hf k) as (E1 & E2 & E3).
  by split; rewrite ?E1, ?E2, ?E3.
Qed.

Lemma worked_ok owner device address now_unix c :
  book_ok owner (book c) -> book_ok owner (book (worked device address now_unix c)).
Proof.
  intros Hb. unfold worked. set (c1 := set_quiet _ _). assert (E : book c1 = book c) by by destruct c. rewrite <- E in Hb.
  clearbody c1. destruct (book c1 !! device) as [held|] eqn:Hd; [|done]. destruct (candidate_at _ _); [|done].
  match goal with |- book_ok _ (book (set_changed true (set_book ?b c1))) =>
    replace (book (set_changed true (set_book b c1))) with b by by destruct c1 end.
  by apply update_book_ok.
Qed.

Lemma failed_ok owner device address now c :
  book_ok owner (book c) -> book_ok owner (book (failed device address now c)).
Proof.
  intros Hb. unfold failed. destruct (book c !! device) as [held|] eqn:Hd; [|done]. destruct (candidate_at _ _); [|done].
  match goal with |- book_ok _ (book (set_quiet ?q (set_book ?b c))) =>
    replace (book (set_quiet q (set_book b c))) with b by by destruct c end.
  by apply update_book_ok.
Qed.

Context `{!ContactCodec}.

Lemma relay_one_ok owner me now acc bytes :
  book_ok owner (book acc.2) -> book_ok owner (book (relay_one owner me now acc bytes).2).
Proof.
  destruct acc as [[k f u s] c]. intros Hb. unfold relay_one. destruct (decode_row bytes) as [row|]; [|done]. cbn zeta.
  destruct (_ =? me); [done|]. destruct (negb _ || _) eqn:Ev; [done|]. destruct (book c !! _) as [held|]; [|done].
  destruct (is_fresh _ _ _); [|done]. cbn [snd]. apply orb_false_iff in Ev as [Ev _]. apply negb_false_iff in Ev.
  destruct row as [p cl]. apply verify_for_iff in Ev as [Hp Hc]. apply insert_ok; [|done]. by split.
Qed.

Lemma relayed_ok owner me now l c : book_ok owner (book c) -> book_ok owner (book (relayed l owner me now c).2).
Proof.
  intros Hb. unfold relayed. assert (Hb0 : book_ok owner (book (Relayed_default, c).2)) by done.
  generalize dependent (Relayed_default, c). clear. induction l as [|x l IH]; intros acc Hb0; [done|]. cbn [foldl].
  apply IH. by apply relay_one_ok.
Qed.

Lemma load_entry_ok owner acc e : book_ok owner (book acc.2) -> book_ok owner (book (load_entry owner acc e).2).
Proof.
  destruct acc as [[f g] c]. intros Hb. unfold load_entry. destruct (presence_verify_origin (be_presence e)) as [[]|] eqn:Ep; [|done].
  cbn [is_ok negb]. destruct (be_claim e) as [cl|]; [destruct (is_ok (verify_for _ _)) eqn:Ev|]; apply insert_ok; try done.
  apply verify_for_iff in Ev as [_ Hc]. by split.
Qed.

Lemma empty_book_ok owner : book_ok owner ∅.
Proof. split; [cbn; rewrite map_size_empty; unfold MAX_DEVICES; lia|apply map_Forall_empty]. Qed.

Lemma load_ok owner disk : book_ok owner (book (load disk owner).1).
Proof.
  unfold load. destruct disk as [| |bytes]; [apply empty_book_ok..|]. cbn zeta.
  destruct (match decode_version bytes with Some 1 => _ | _ => _ end) as [file|]; [|apply empty_book_ok].
  destruct (negb _); [apply empty_book_ok|].
  assert (Hf : book_ok owner (book (foldl (load_entry owner) (0%nat, 0%nat, set_signs (bf_signs file) new) (bf_entries file)).2)).
  { assert (Hb0 : book_ok owner (book (0%nat, 0%nat, set_signs (bf_signs file) new).2)) by apply empty_book_ok.
    generalize dependent (0%nat, 0%nat, set_signs (bf_signs file) new). clear. intros acc.
    revert acc. induction (bf_entries file) as [|e l IH]; intros acc Hb0; [done|]. cbn [foldl]. apply IH. by apply load_entry_ok. }
  destruct (foldl _ _ _) as [[f g] c]. cbn in Hf |- *. by destruct c.
Qed.

End operations.
