(* ===== verification/ContactRuns.v ===== *)
(** * ContactRuns: an address book over the life of a daemon

    Runs of [Contact]: the steps a daemon takes, in any order and with any
    answers, at times that do not go back.  The theorems are what the book holds
    after any run, how often a machine that does not answer makes a node read,
    what a relay can and cannot do, what is served, and what a restart keeps. *)

From S2P Require Import Prelude Version Ids Network Crypto Accounting Claims Reach Contact ContactOk.

(** A read that a machine's silence asks for, and nothing else. *)
Definition on_a_miss (d : Due) (c : Contact) : bool :=
  du_read d && negb (du_publish d) && bool_decide (is_Some (read_at c)).

Section runs.
Context {PR : Primitives} {CC : ContactCodec} (owner : UserId) (me : DeviceId).

(** One call, from one moment to another; the count is that of [on_a_miss]. *)
Inductive contact_step : N -> Contact -> N -> Contact -> N -> Prop :=
| cs_asked t c address t1 t2 : t <= t1 -> t1 <= t2 -> any (due address t1 c) = true ->
    contact_step t c t2 (asked (due address t1 c) t2 c) (if on_a_miss (due address t1 c) c then 1 else 0)
| cs_published t c address now : t <= now -> contact_step t c now (published address now c) 0
| cs_signed t c now : t <= now -> contact_step t c now (signed c) 0
| cs_read t c found presences claimed now : t <= now -> answer_ok owner presences claimed ->
    contact_step t c now (read found presences claimed now c) 0
| cs_round t c reached now : t <= now -> contact_step t c now (round_reached reached now c) 0
| cs_worked t c device address clock now : t <= now -> contact_step t c now (worked device address clock c) 0
| cs_failed t c device address now : t <= now -> contact_step t c now (failed device address now c) 0
| cs_relayed t c l clock now : t <= now -> contact_step t c now (relayed l owner me clock c).2 0
| cs_hosts t c l now : t <= now -> contact_step t c now (hosts_reached l now c) 0
| cs_saved t c writes now : t <= now -> contact_step t c now (save writes c).2 0.

Inductive contact_run : N -> Contact -> N -> Contact -> N -> Prop :=
| cr_start t c : contact_run t c t c 0
| cr_step t0 c0 t c n t' c' k : contact_run t0 c0 t c n -> contact_step t c t' c' k -> contact_run t0 c0 t' c' (n + k).

Lemma step_book_ok t c t' c' k : contact_step t c t' c' k -> book_ok owner (book c) -> book_ok owner (book c').
Proof.
  destruct 1; intros Hb.
  - by rewrite asked_book.
  - by destruct c.
  - by destruct c.
  - by apply read_ok.
  - by rewrite round_reached_book.
  - by apply worked_ok.
  - by apply failed_ok.
  - by apply relayed_ok.
  - by rewrite hosts_reached_book.
  - by rewrite save_book.
Qed.

Lemma run_book_ok t c t' c' n : contact_run t c t' c' n -> book_ok owner (book c) -> book_ok owner (book c').
Proof. induction 1 as [|t0 c0 t c n t' c' k _ IH Hs]; intros Hb; [done|]. eapply step_book_ok; eauto. Qed.

(** ** How often a silence makes a node read *)

Definition timing (c : Contact) := (read_at c, asked_at c, missed c, miss_wait c, reset_at c).

(** The pace kept so far: [f] fall-backs at least [RESET_FLOOR] apart, [z] reads
    after the first wait, at most one more than the fall-backs, and every other
    read after twice that wait. *)
Record pace (t0 t : N) (c : Contact) (n f z : N) : Prop := mkPace {
  pc_start : t0 <= t;
  pc_read : from_option (fun x => t0 <= x <= t) True (read_at c);
  pc_asked : from_option (fun x => t0 <= x <= t) True (asked_at c);
  pc_wait : from_option (fun w => 2 * REREAD_AFTER_MISS <= w <= PUBLISH_EVERY) True (miss_wait c);
  pc_reads : 2 * REREAD_AFTER_MISS * n <= default t0 (last_asked c) - t0 + REREAD_AFTER_MISS * z;
  pc_first : z + match miss_wait c with Some _ => 0 | None => 1 end <= f + 1;
  pc_resets : match reset_at c with
              | Some r => t0 <= r <= t /\ RESET_FLOOR * f <= r - t0 + RESET_FLOOR
              | None => f = 0
              end;
}.

Definition paced (t0 t : N) (c : Contact) (n : N) : Prop := exists f z, pace t0 t c n f z.

Lemma pace_same t0 t t' c c' n f z : timing c' = timing c -> t <= t' -> pace t0 t c n f z -> pace t0 t' c' n f z.
Proof.
  intros E Ht [H1 H2 H3 H4 H5 H6 H7].
  destruct c as [p r a m ms w s b ch h k rs q], c' as [p' r' a' m' ms' w' s' b' ch' h' k' rs' q'].
  injection E as -> -> -> -> ->. cbn in *. split; cbn; try done.
  - lia.
  - destruct r; cbn in *; [lia|done].
  - destruct a; cbn in *; [lia|done].
  - destruct rs; [lia|done].
Qed.

Lemma last_asked_bounds t0 t c n f z : pace t0 t c n f z -> from_option (fun x => t0 <= x <= t) True (last_asked c).
Proof. intros [_ H2 H3 _ _ _ _]. unfold last_asked, omax. destruct (read_at c), (asked_at c); cbn in *; try done; lia. Qed.

Lemma fall_back_pace t0 t c n : paced t0 t c n -> paced t0 t (fall_back t c) n.
Proof.
  intros (f & z & Hp). unfold fall_back. destruct (miss_wait c) as [wt|] eqn:Ew; [|by exists f, z].
  destruct (match reset_at c with Some _ => _ | None => _ end) eqn:Er; [|by exists f, z].
  exists (f + 1), z. destruct Hp as [H1 H2 H3 H4 H5 H6 H7].
  destruct c as [p r a m ms w s b ch h k rs q]. cbn in *. subst w. split; cbn; try done; [lia|].
  destruct rs as [x|]; [apply N.leb_le in Er|]; unfold RESET_FLOOR in *; lia.
Qed.

(** What a read costs in the pace: a step of its wait when a silence asked for it. *)
Lemma asked_pace t0 t t1 t2 address c n :
  paced t0 t c n -> t <= t1 -> t1 <= t2 ->
  paced t0 t2 (asked (due address t1 c) t2 c) (n + if on_a_miss (due address t1 c) c then 1 else 0).
Proof.
  intros (f & z & Hp) Ht1 Ht2. unfold asked, on_a_miss. destruct (du_read (due address t1 c)) eqn:Er; cbn [andb].
  2:{ rewrite N.add_0_r. exists f, z. apply (pace_same t0 t _ c); [done|lia|done]. }
  pose proof (last_asked_bounds _ _ _ _ _ _ Hp) as Hla. destruct Hp as [H1 H2 H3 H4 H5 H6 H7].
  assert (Hl : last_asked (set_asked (Some t2) (if missed c then Some (N.min (current_wait c * 2) PUBLISH_EVERY) else miss_wait c) c) = Some t2).
  { destruct c. unfold last_asked. cbn in *. destruct read_at; cbn in *; [f_equal; lia|done]. }
  assert (Hw : from_option (fun w => 2 * REREAD_AFTER_MISS <= w <= PUBLISH_EVERY) True
    (if missed c then Some (N.min (current_wait c * 2) PUBLISH_EVERY) else miss_wait c)).
  { destruct (missed c); [|done]. unfold current_wait. destruct (miss_wait c); cbn in *; unfold REREAD_AFTER_MISS, PUBLISH_EVERY in *; lia. }
  destruct (negb _ && _) eqn:Ec.
  - apply andb_true_iff in Ec as [Epub Erd]. apply negb_true_iff in Epub. apply bool_decide_eq_true in Erd as [x Hx].
    assert (Hr : reread t1 c = true).
    { revert Er. unfold due. cbn [du_read du_publish] in *. unfold due in Epub. cbn [du_publish] in Epub. rewrite Epub, Hx. done. }
    unfold reread in Hr. apply andb_true_iff in Hr as [Hm Hr].
    assert (exists a, last_asked c = Some a) as [a Ha] by (unfold last_asked; rewrite Hx; destruct (asked_at c); cbn; eauto).
    rewrite Ha in Hr, Hla, H5. apply N.leb_le in Hr. cbn in Hla, H5. rewrite Hm in *.
    exists f, (match miss_wait c with Some _ => z | None => z + 1 end).
    split; rewrite ?Hl; try (by destruct c); [lia|destruct c; cbn in *; destruct read_at; cbn in *; [lia|done]
      |destruct c; cbn; lia| | |destruct c; cbn in *; destruct reset_at; [lia|done]].
    + cbn [default]. unfold current_wait in Hr. cbn. destruct (miss_wait c) as [wt|]; cbn in *; unfold REREAD_AFTER_MISS in *; lia.
    + destruct c; cbn in *. destruct miss_wait; cbn; lia.
  - rewrite N.add_0_r. exists f, z. split; rewrite ?Hl; try (by destruct c); [lia|destruct c; cbn in *; destruct read_at; cbn in *; [lia|done]
      |destruct c; cbn; lia| | |destruct c; cbn in *; destruct reset_at; [lia|done]].
    + cbn. destruct (last_asked c); cbn in *; lia.
    + destruct c; cbn in *. destruct missed; [destruct miss_wait; cbn in *; lia|done].
Qed.

Lemma timers_timing c c' : timers c' = timers c -> timing c' = timing c.
Proof. unfold timers, timing. congruence. Qed.

Lemma foldl_timers {A} (f : Contact -> A -> Contact) l c : (forall c a, timers (f c a) = timers c) -> timers (foldl f c l) = timers c.
Proof. intros Hf. revert c. induction l as [|x l IH]; intros c; [done|]. cbn. by rewrite IH, Hf. Qed.

Lemma worked_timers device address clock c : timers (worked device address clock c) = timers c.
Proof. unfold worked. destruct (book (set_quiet _ c) !! device) as [held|]; [|by destruct c]. destruct (candidate_at _ _); by destruct c. Qed.

Lemma failed_timers device address now c : timers (failed device address now c) = timers c.
Proof. unfold failed. destruct (book c !! device) as [held|]; [|done]. destruct (candidate_at _ _); by destruct c. Qed.

Lemma relay_one_timers now acc bytes : timers (relay_one owner me now acc bytes).2 = timers acc.2.
Proof.
  destruct acc as [[k f u s] c]. unfold relay_one. destruct (decode_row bytes) as [row|]; [|done]. cbn zeta.
  destruct (_ =? me); [done|]. destruct (negb _ || _); [done|]. destruct (book c !! _) as [held|]; [|done].
  destruct (is_fresh _ _ _); [apply insert_timers|done].
Qed.

Lemma relayed_timers l now c : timers (relayed l owner me now c).2 = timers c.
Proof.
  unfold relayed. change c with (Relayed_default, c).2 at 2. generalize (Relayed_default, c). intros acc. revert acc.
  induction l as [|x l IH]; intros acc; [done|]. cbn [foldl]. by rewrite IH, relay_one_timers.
Qed.

Lemma read_pace t0 t found presences claimed now c n :
  paced t0 t c n -> t <= now -> paced t0 now (read found presences claimed now c) n.
Proof.
  intros Hp Ht. unfold read. set (c1 := set_read _ _ _). set (c2 := if is_news found c1 then _ else _).
  assert (H1 : paced t0 now c1 n).
  { destruct Hp as (f & z & Hp). pose proof (last_asked_bounds _ _ _ _ _ _ Hp) as Hla. destruct Hp as [H1 H2 H3 H4 H5 H6 H7].
    exists f, z. destruct c as [p r a m ms w s b ch h k rs q]. unfold c1, last_asked in *. cbn in *. split; cbn; try done; [lia|lia| | |].
    - destruct a; cbn in *; [lia|done].
    - unfold last_asked, omax. cbn. destruct a, r; cbn in *; lia.
    - destruct rs; [lia|done]. }
  assert (H2 : paced t0 now c2 n) by (unfold c2; destruct (is_news found c1); [by apply fall_back_pace|done]).
  clearbody c2. destruct H2 as (f & z & H2). exists f, z. apply (pace_same t0 now _ c2); [|lia|done].
  apply timers_timing. rewrite foldl_timers; [by destruct c2|]. intros c' p. apply insert_timers.
Qed.

Lemma round_pace t0 t reached now c n : paced t0 t c n -> t <= now -> paced t0 now (round_reached reached now c) n.
Proof.
  intros (f & z & Hp) Ht. unfold round_reached. set (c1 := set_quiet _ _). set (c2 := if _ || _ then _ else _).
  assert (H1 : paced t0 now c1 n) by (exists f, z; apply (pace_same t0 t _ c); [by destruct c|done|done]).
  assert (H2 : paced t0 now c2 n) by (unfold c2; destruct (_ || _); [by apply fall_back_pace|done]).
  clearbody c2. destruct H2 as (f' & z' & [Q1 Q2 Q3 Q4 Q5 Q6 Q7]). exists f', z'. destruct c2. by split.
Qed.

Lemma step_pace t0 t c n t' c' k : contact_step t c t' c' k -> paced t0 t c n -> paced t0 t' c' (n + k).
Proof.
  assert (Hsame : forall t t' c c', timers c' = timers c -> t <= t' -> paced t0 t c n -> paced t0 t' c' (n + 0)).
  { intros s s' a b E Hs (f & z & Hp). rewrite N.add_0_r. exists f, z. apply (pace_same t0 s _ a); [by apply timers_timing|done|done]. }
  assert (Hfree : forall t t' c c', timing c' = timing c -> t <= t' -> paced t0 t c n -> paced t0 t' c' (n + 0)).
  { intros s s' a b E Hs (f & z & Hp). rewrite N.add_0_r. exists f, z. by apply (pace_same t0 s _ a). }
  destruct 1; intros Hp.
  - by apply (asked_pace t0 t).
  - apply (Hfree t now c); [by destruct c|done|done].
  - apply (Hfree t now c); [by destruct c|done|done].
  - rewrite N.add_0_r. by apply (read_pace t0 t).
  - rewrite N.add_0_r. by apply (round_pace t0 t).
  - apply (Hsame t now c); [apply worked_timers|done|done].
  - apply (Hsame t now c); [apply failed_timers|done|done].
  - apply (Hsame t now c); [apply relayed_timers|done|done].
  - apply (Hfree t now c); [by destruct c|done|done].
  - apply (Hfree t now c); [|done|done]. unfold save. destruct (negb _); [done|]. destruct writes; by destruct c.
Qed.

(** Nothing has been asked, read or missed yet. *)
Definition starting (c : Contact) : Prop := read_at c = None /\ asked_at c = None /\ miss_wait c = None /\ reset_at c = None.

Lemma run_pace t0 c0 t c n : contact_run t0 c0 t c n -> starting c0 -> paced t0 t c n.
Proof.
  induction 1 as [t c|t0 c0 t c n t' c' k _ IH Hs]; intros H0; [|by eapply step_pace; eauto].
  destruct H0 as (E1 & E2 & E3 & E4). exists 0, 0. destruct c. cbn in *. subst. split; cbn; try done; lia.
Qed.

Lemma load_starting disk : starting (load disk owner).1.
Proof.
  unfold load. destruct disk as [| |bytes]; [done..|]. cbn zeta.
  destruct (match decode_version bytes with Some 1 => _ | _ => _ end) as [file|]; [|done]. destruct (negb _); [done|].
  assert (Hf : timers (foldl (load_entry owner) (0%nat, 0%nat, set_signs (bf_signs file) new) (bf_entries file)).2
             = timers (set_signs (bf_signs file) new)).
  { change (set_signs (bf_signs file) new) with (0%nat, 0%nat, set_signs (bf_signs file) new).2 at 2.
    generalize (0%nat, 0%nat, set_signs (bf_signs file) new). intros acc. revert acc.
    induction (bf_entries file) as [|e l IH]; intros acc; [done|]. cbn [foldl]. rewrite IH.
    destruct acc as [[f g] c]. unfold load_entry. destruct (negb _); [done|].
    destruct (be_claim e); [destruct (is_ok _)|]; apply insert_timers. }
  destruct (foldl _ _ _) as [[f g] c]. cbn in Hf |- *. unfold starting. destruct c. cbn in *. injection Hf. by intros -> -> -> -> -> -> -> ->.
Qed.

(** C19. However a node's machines come and go, whatever its coordinator lists and
    whoever answers one round in two, the reads that a silent machine makes a
    node do -- beyond those its own publications and a first read cost -- come to
    at most one in two hundred seconds, and one more: 432 a day and one. *)
Theorem rereads_are_bounded disk t0 t c n :
  contact_run t0 (load disk owner).1 t c n -> 200 * n <= (t - t0) + 200.
Proof.
  intros Hr. destruct (run_pace _ _ _ _ _ Hr (load_starting disk)) as (f & z & Hp).
  pose proof (last_asked_bounds _ _ _ _ _ _ Hp) as Hla. destruct Hp as [H1 _ _ _ H5 H6 H7].
  assert (Hf : RESET_FLOOR * f <= t - t0 + RESET_FLOOR) by (destruct (reset_at c); unfold RESET_FLOOR in *; lia).
  assert (Hz : z <= f + 1) by (destruct (miss_wait c); lia).
  assert (Hn : 2 * REREAD_AFTER_MISS * n <= t - t0 + REREAD_AFTER_MISS * z) by (destruct (last_asked c); cbn in *; lia).
  unfold RESET_FLOOR, REREAD_AFTER_MISS in *. lia.
Qed.

End runs.

(** ** What a relay can do *)

(** Machines neither come nor go, what worked stays, and what is new never
    worked, and has both proofs. *)
Record grown (b b' : gmap DeviceId (list Candidate)) : Prop := mkGrown {
  gr_dom : forall d, is_Some (b' !! d) <-> is_Some (b !! d);
  gr_worked : forall d l k, b !! d = Some l -> k ∈ l -> is_Some (ca_worked k) ->
    exists l' k', b' !! d = Some l' /\ k' ∈ l' /\ ca_address k' = ca_address k /\ ca_worked k' = ca_worked k /\ ca_proven k' = ca_proven k;
  gr_new : forall d l' k', b' !! d = Some l' -> k' ∈ l' ->
    (exists l k, b !! d = Some l /\ k ∈ l /\ ca_address k = ca_address k' /\ ca_worked k' = ca_worked k
       /\ (is_Some (ca_presence k) -> is_Some (ca_presence k')) /\ (is_Some (ca_claim k) -> is_Some (ca_claim k')))
    \/ ca_worked k' = None /\ is_Some (ca_presence k') /\ is_Some (ca_claim k');
}.

#[export] Instance grown_pre : PreOrder grown.
Proof.
  split; [intros b; split; [done|eauto 8|eauto 10]|]. intros b1 b2 b3 [D1 W1 N1] [D2 W2 N2]. split.
  - intros d. by rewrite D2, D1.
  - intros d l k Hd Hk Hw. destruct (W1 _ _ _ Hd Hk Hw) as (l2 & k2 & Hd2 & Hk2 & A2 & E2 & P2).
    rewrite <- E2 in Hw. destruct (W2 _ _ _ Hd2 Hk2 Hw) as (l3 & k3 & Hd3 & Hk3 & A3 & E3 & P3).
    exists l3, k3. split_and!; congruence.
  - intros d l3 k3 Hd Hk. destruct (N2 _ _ _ Hd Hk) as [(l2 & k2 & Hd2 & Hk2 & A2 & E2 & P2 & C2)|]; [|by right].
    destruct (N1 _ _ _ Hd2 Hk2) as [(l1 & k1 & Hd1 & Hk1 & A1 & E1 & P1 & C1)|(E1 & P1 & C1)].
    + left. exists l1, k1. split_and!; [done|done|congruence|congruence|auto|auto].
    + right. split_and!; [congruence|auto|auto].
Qed.

Section relay.
Context {PR : Primitives} {CC : ContactCodec} (owner : UserId) (me : DeviceId).

(** A signed and claimed address, for a machine the book holds. *)
Lemma insert_grown device address p cl c :
  is_Some (book c !! device) -> book_ok owner (book c) ->
  grown (book c) (book (insert device address (Some p) (Some cl) None c)).
Proof.
  intros [held Hd] [_ Hl]. rewrite insert_book, Hd. cbn [bool_decide andb default from_option id]. rewrite bool_decide_false by done. cbn [andb].
  change (id held) with held. pose proof (Hl _ _ Hd) as [_ Hlen _ _].
  assert (Hother : forall d x, d <> device -> <[device := x]> (book c) !! d = book c !! d) by (intros; by rewrite lookup_insert_ne).
  destruct (candidate_at address held) as [known|] eqn:Ha.
  - split.
    + intros d. destruct (decide (d = device)) as [->|]; [|by rewrite Hother]. rewrite lookup_insert_eq, Hd. by split; eauto.
    + intros d l k Hb Hk Hw. destruct (decide (d = device)) as [->|]; [|rewrite Hother by done; eauto 8].
      rewrite Hd in Hb. injection Hb as <-. rewrite lookup_insert_eq. eexists.
      destruct (elem_of_update_at_2 address (fun k => (refresh (Some p) (Some cl) k).2) _ _ Hk) as [|[_ Hr]];
        [exists k; by eauto|]. eexists. split; [done|]. split; [exact Hr|].
      destruct (refresh_spec (Some p) (Some cl) k) as (E1 & E2 & E3 & _). done.
    + intros d l' k' Hb Hk. destruct (decide (d = device)) as [->|]; [|rewrite Hother in Hb by done; left; eauto 10].
      rewrite lookup_insert_eq in Hb. injection Hb as <-. left. exists held.
      destruct (elem_of_update_at _ _ _ _ Hk) as [|(k0 & Hk0 & _ & ->)]; [exists k'; by eauto 10|]. exists k0.
      destruct (refresh_spec (Some p) (Some cl) k0) as (E1 & E2 & E3 & E4 & E5). split_and!; try done.
      * intros Hs. destruct E4 as [->|[_ ->]]; eauto.
      * intros Hs. destruct E5 as [->|(_ & -> & _)]; eauto.
  - split.
    + intros d. destruct (decide (d = device)) as [->|]; [|by rewrite Hother]. rewrite lookup_insert_eq, Hd. by split; eauto.
    + intros d l k Hb Hk Hw. destruct (decide (d = device)) as [->|]; [|rewrite Hother by done; eauto 8].
      rewrite Hd in Hb. injection Hb as <-. rewrite lookup_insert_eq. eexists _, k. split; [done|].
      split; [by apply bound_keeps_worked|done].
    + intros d l' k' Hb Hk. destruct (decide (d = device)) as [->|]; [|rewrite Hother in Hb by done; left; eauto 10].
      rewrite lookup_insert_eq in Hb. injection Hb as <-. apply elem_of_bound, elem_of_app in Hk as [Hk| ->%list_elem_of_singleton].
      * left. exists held, k'. by eauto 10.
      * right. cbn. by eauto.
Qed.

Lemma relayed_grown l now c : book_ok owner (book c) -> grown (book c) (book (relayed l owner me now c).2).
Proof.
  unfold relayed. change c with (Relayed_default, c).2 at 1 2. generalize (Relayed_default, c). intros acc. revert acc.
  induction l as [|x l IH]; intros acc Hb; [done|]. cbn [foldl]. etransitivity; [|apply IH; by apply relay_one_ok].
  destruct acc as [[k f u s] c0]. unfold relay_one. destruct (decode_row x) as [row|]; [|done]. cbn zeta.
  destruct (_ =? me); [done|]. destruct (negb _ || _); [done|]. destruct (book c0 !! _) as [held|] eqn:Hd; [|done].
  destruct (is_fresh _ _ _); [|done]. cbn [snd] in *. apply insert_grown; [by rewrite Hd|done].
Qed.

(** What an address may note beside the book: that there is something to save, and
    news of a machine that was quiet. *)
Record noted (c c' : Contact) : Prop := mkNoted {
  no_changed : (changed c' = changed c /\ book c' = book c) \/ changed c' = true;
  no_quiet : forall d, quiet c' !! d = quiet c !! d
    \/ exists q, quiet c !! d = Some q /\ quiet c' !! d = Some (mkQuiet (q_misses q) (q_round q) (q_until q) true);
}.

Lemma noted_refl c : noted c c.
Proof. split; [by left|by left]. Qed.

Lemma noted_trans c1 c2 c3 : noted c1 c2 -> noted c2 c3 -> noted c1 c3.
Proof.
  intros [A1 A2] [B1 B2]. split.
  - destruct B1 as [[-> ->]|]; [done|by right].
  - intros d. destruct (B2 d) as [->|(q & Hq & ->)]; [done|]. right. destruct (A2 d) as [E|(q0 & Hq0 & E)]; [exists q; split; congruence|].
    exists q0. split; [done|]. rewrite E in Hq. by injection Hq as <-.
Qed.

Lemma update_at_same address f l known :
  candidate_at address l = Some known -> f known = known -> update_at address f l = l.
Proof.
  intros Hk Hf. induction l as [|k l IH]; [done|]. unfold candidate_at in Hk. cbn [update_at list_find] in *.
  destruct (decide (ca_address k = address)); [injection Hk as <-; by rewrite Hf|].
  rewrite IH; [done|]. unfold candidate_at. destruct (list_find _ l) as [[i x]|]; [|done]. by injection Hk as <-.
Qed.

Lemma insert_noted device address presence claim w c :
  is_Some (book c !! device) -> noted c (insert device address presence claim w c).
Proof.
  intros [held Hd]. unfold insert. rewrite bool_decide_false by by rewrite Hd. cbn [andb]. rewrite Hd. cbn [default from_option id].
  destruct (candidate_at address held) as [known|] eqn:Ek.
  - split; [|intros d; left; by destruct c]. destruct (refresh presence claim known).1 eqn:Et; [right; destruct c; cbn; by rewrite orb_true_r|].
    left. rewrite (update_at_same _ _ _ known Ek); [|].
    + rewrite insert_id by done. destruct c; cbn. by rewrite orb_false_r.
    + destruct known as [ka kw kp kc kv]. cbn in Et |- *. apply orb_false_iff in Et as [E1 E2]. apply bool_decide_eq_false in E1, E2.
      destruct (newer_presence presence kp) eqn:En; [by destruct E1|]. destruct kp; [|done]. destruct (newer_claim claim kc) eqn:Ec; [by destruct E2|done].
  - split; [right; destruct (quiet c !! device); by destruct c|]. intros d. destruct (quiet c !! device) as [q|] eqn:Eq; [|left; by destruct c].
    destruct (decide (d = device)) as [->|Hne].
    + right. exists q. split; [done|]. destruct c; cbn. apply lookup_insert_eq.
    + left. destruct c; cbn. by apply lookup_insert_ne.
Qed.

Lemma relayed_noted l now c : noted c (relayed l owner me now c).2.
Proof.
  unfold relayed. change c with (Relayed_default, c).2 at 1. generalize (Relayed_default, c). intros acc. revert acc.
  induction l as [|x l IH]; intros acc; [apply noted_refl|]. cbn [foldl]. eapply noted_trans; [|apply IH].
  destruct acc as [[k f u s] c0]. unfold relay_one. destruct (decode_row x) as [row|]; [|apply noted_refl]. cbn zeta.
  destruct (_ =? me); [apply noted_refl|]. destruct (negb _ || _); [apply noted_refl|].
  destruct (book c0 !! _) as [held|] eqn:Hd; [|apply noted_refl].
  destruct (is_fresh _ _ _); [|apply noted_refl]. cbn [snd]. apply insert_noted. by rewrite Hd.
Qed.

(** C18. A machine that relays addresses can refresh a book and never extend it.
    Whatever bytes it sends to a contact that has any history: no machine enters
    or leaves the book; an address that has worked stays with its record; an
    address that was not there has never worked, is the device's own signed one,
    and stands under a live claim of this account on that device.  Beside the
    book only two things can change: the contact notes that the book is to be
    saved, always when it differs, and a machine that was quiet is noted to have
    news, its misses and its wait as they were. *)
Theorem relay_introduces_nobody disk t0 t c n l now :
  contact_run owner me t0 (load disk owner).1 t c n ->
  let c' := (relayed l owner me now c).2 in
  (timers c' = timers c /\ noted c c')
  /\ (forall d, is_Some (book c' !! d) <-> is_Some (book c !! d))
  /\ (forall d held k, book c !! d = Some held -> k ∈ held -> is_Some (ca_worked k) ->
        exists held' k', book c' !! d = Some held' /\ k' ∈ held' /\ ca_address k' = ca_address k /\ ca_worked k' = ca_worked k)
  /\ (forall d held' k', book c' !! d = Some held' -> k' ∈ held' ->
        (forall held k, book c !! d = Some held -> k ∈ held -> ca_address k <> ca_address k') ->
        ca_worked k' = None
        /\ exists p cl, ca_presence k' = Some p /\ ca_claim k' = Some cl /\ is_ok (verify_for (mkClaimedPresence p cl) owner) = true
             /\ pr_device (sp_presence p) = d /\ pr_address (sp_presence p) = ca_address k').
Proof.
  intros Hr c'. pose proof (run_book_ok _ _ _ _ _ _ _ Hr (load_ok owner disk)) as Hb.
  destruct (relayed_grown l now c Hb) as [Hd Hw Hn]. pose proof (relayed_ok owner me now l c Hb) as [_ Hb'].
  split_and!; [apply relayed_timers|apply relayed_noted|exact Hd| |].
  - intros d held k Hh Hk Hs. destruct (Hw _ _ _ Hh Hk Hs) as (l' & k' & ? & ? & ? & ? & _). by eauto 8.
  - intros d held' k' Hh Hk Hnew. destruct (Hn _ _ _ Hh Hk) as [(l0 & k0 & H0 & Hk0 & Ha & _)|(Hnone & [p Hp] & [cl Hcl])].
    { by destruct (Hnew _ _ H0 Hk0). }
    split; [done|]. exists p, cl. apply (proj1 (Forall_forall _ _) (lo_cands _ _ _ (Hb' _ _ Hh))) in Hk as [[Hpr Hc] _].
    rewrite Hp, Hcl in *. destruct Hpr as (Hv & <- & Haddr). split_and!; try done. by apply verify_for_iff.
Qed.

End relay.

(** ** Who is dialled again *)

(** No machine waits more than half an hour from now. *)
Definition quiet_ok (t : N) (q : gmap DeviceId Quiet) : Prop := map_Forall (fun _ x => q_until x <= t + QUIET_AT_MOST) q.

Section quiet.
Context {PR : Primitives} {CC : ContactCodec} (owner : UserId) (me : DeviceId).

Lemma quiet_ok_le t t' q : quiet_ok t q -> t <= t' -> quiet_ok t' q.
Proof. intros Hq Ht d x Hx. specialize (Hq d x Hx). cbn in *. lia. Qed.

Lemma quiet_ok_filter t q P `{!forall x, Decision (P x)} : quiet_ok t q -> quiet_ok t (filter P q).
Proof. intros Hq d x [Hx _]%map_lookup_filter_Some. by apply (Hq d). Qed.

Lemma quiet_for_le m : quiet_for m <= QUIET_AT_MOST.
Proof. unfold quiet_for. lia. Qed.

Lemma insert_quiet device address presence claim w t c :
  quiet_ok t (quiet c) -> quiet_ok t (quiet (insert device address presence claim w c)).
Proof.
  intros Hq. unfold insert. destruct (_ && _); [done|]. destruct (candidate_at _ _); [by destruct c|].
  destruct (quiet c !! device) as [q|] eqn:E; [|by destruct c].
  assert (Hn : quiet_ok t (<[device := mkQuiet (q_misses q) (q_round q) (q_until q) true]> (quiet c))).
  { apply map_Forall_insert_2; [|done]. exact (Hq device q E). }
  by destruct c.
Qed.

Lemma fall_back_quiet now c : quiet (fall_back now c) = quiet c.
Proof. unfold fall_back. destruct c; cbn. destruct miss_wait; [|done]. by destruct (match reset_at with Some _ => _ | None => _ end). Qed.

Lemma step_quiet t c t' c' k : contact_step owner me t c t' c' k -> quiet_ok t (quiet c) -> quiet_ok t' (quiet c').
Proof.
  destruct 1 as [t c address t1 t2 H1 H2 _|t c address now Ht|t c now Ht|t c found presences claimed now Ht _|t c reached now Ht
    |t c device address clock now Ht|t c device address now Ht|t c l clock now Ht|t c l now Ht|t c writes now Ht]; intros Hq;
    try (apply (fun H => quiet_ok_le _ _ _ H Ht) in Hq).
  - apply (quiet_ok_le _ t2) in Hq; [|lia]. unfold asked. destruct (du_read _); by destruct c.
  - by destruct c.
  - by destruct c.
  - unfold read. set (c1 := if is_news _ _ then _ else _). assert (H1 : quiet_ok now (quiet (keep_listed (list_to_set found.*1) c1))).
    { assert (E : quiet c1 = quiet c) by (unfold c1; destruct (is_news _ _); rewrite ?fall_back_quiet; by destruct c).
      rewrite <- E in Hq. replace (quiet (keep_listed _ c1)) with (filter (fun p => p.1 ∈ (list_to_set found.*1 : gset DeviceId)) (quiet c1))
        by by destruct c1. by apply quiet_ok_filter. }
    generalize dependent (keep_listed (list_to_set found.*1) c1). clear c1. induction found as [|x found IH]; intros c1 H1; [done|].
    cbn [foldl]. apply IH. by apply insert_quiet.
  - unfold round_reached. set (c1 := set_quiet _ _).
    assert (H1 : quiet_ok now (quiet c1)) by (unfold c1; destruct c; by apply quiet_ok_filter). clearbody c1.
    destruct (_ || _); [rewrite <- (fall_back_quiet now c1) in H1; by destruct (fall_back now c1)|by destruct c1].
  - unfold worked. set (c1 := set_quiet _ _). assert (H1 : quiet_ok now (quiet c1)) by (unfold c1; destruct c; by apply map_Forall_delete).
    clearbody c1. destruct (book c1 !! device); [|done]. destruct (candidate_at _ _); by destruct c1.
  - unfold failed. destruct (book c !! device); [|done]. destruct (candidate_at _ _); [|done].
    assert (H1 : quiet_ok now (<[device := miss (rounds c) now (quiet c !! device)]> (quiet c))).
    { apply map_Forall_insert_2; [|done]. unfold miss. pose proof quiet_for_le as Hf.
      destruct (quiet c !! device) as [q|] eqn:E; cbn -[quiet_for QUIET_AT_MOST].
      - destruct (_ || _); cbn -[quiet_for QUIET_AT_MOST]; [specialize (Hf (N.min (q_misses q + 1) u32_max)); lia|exact (Hq device q E)].
      - specialize (Hf (N.min (0 + 1) u32_max)). lia. }
    by destruct c.
  - unfold relayed. assert (H1 : quiet_ok now (quiet (Relayed_default, c).2)) by done. clear Hq.
    generalize dependent (Relayed_default, c). induction l as [|x l IH]; intros acc H1; [done|]. cbn [foldl]. apply IH.
    destruct acc as [[k f u s] c0]. unfold relay_one. destruct (decode_row x) as [row|]; [|done]. cbn zeta.
    destruct (_ =? me); [done|]. destruct (negb _ || _); [done|]. destruct (book c0 !! _); [|done].
    destruct (is_fresh _ _ _); [|done]. by apply insert_quiet.
  - by destruct c.
  - unfold save. destruct (negb _); [done|]. destruct writes; by destruct c.
Qed.

Lemma load_quiet disk : quiet (load disk owner).1 = ∅.
Proof.
  unfold load. destruct disk as [| |bytes]; [done..|]. cbn zeta.
  destruct (match decode_version bytes with Some 1 => _ | _ => _ end) as [file|]; [|done]. destruct (negb _); [done|].
  assert (Hf : quiet (foldl (load_entry owner) (0%nat, 0%nat, set_signs (bf_signs file) new) (bf_entries file)).2 = ∅).
  { assert (Hq : quiet (0%nat, 0%nat, set_signs (bf_signs file) new).2 = ∅) by done.
    generalize dependent (0%nat, 0%nat, set_signs (bf_signs file) new). intros acc. revert acc.
    induction (bf_entries file) as [|e l IH]; intros acc Hq; [done|]. cbn [foldl]. apply IH.
    destruct acc as [[f g] c]. unfold load_entry. destruct (negb _); [done|].
    assert (Hi : forall d a p cl w, quiet (insert d a p cl w c) = ∅).
    { intros. unfold insert. destruct (_ && _); [done|]. destruct (candidate_at _ _); [by destruct c|]. cbn in Hq. rewrite Hq, lookup_empty. by destruct c. }
    destruct (be_claim e); [destruct (is_ok _)|]; apply Hi. }
  destruct (foldl _ _ _) as [[f g] c]. cbn in Hf |- *. by destruct c.
Qed.

Lemma run_quiet t0 c0 t c n : contact_run owner me t0 c0 t c n -> quiet_ok t0 (quiet c0) -> quiet_ok t (quiet c).
Proof. induction 1 as [|t0 c0 t c n t' c' k _ IH Hs]; intros Hq; [done|]. eapply step_quiet; eauto. Qed.

Lemma elem_of_ordered c d k : (d, k) ∈ ordered c <-> exists l, book c !! d = Some l /\ k ∈ l.
Proof.
  unfold ordered. rewrite list_elem_of_bind. split.
  - intros ([d' l] & Hk & Hl). apply list_elem_of_fmap in Hk as (x & [= -> ->] & Hx). apply elem_of_btree_iter in Hl.
    unfold sort_best_first in Hx. rewrite sort_by_perm in Hx. eauto.
  - intros (l & Hl & Hk). exists (d, l). split; [|by apply elem_of_btree_iter]. apply (list_elem_of_fmap_2 (fun k => (d, k))).
    cbn [snd]. unfold sort_best_first. by rewrite sort_by_perm.
Qed.

(** A machine that is off is not given up: half an hour after any history, at
    every round, each address the book holds that is not this node itself is
    dialled, except a private one that does not answer, of a machine discovery
    listens for and does not hear; and at one round in six that one is too. *)
Theorem silent_machines_are_dialled_again disk t0 t c n d held k now heard_here is_me :
  contact_run owner me t0 (load disk owner).1 t c n ->
  book c !! d = Some held -> k ∈ held -> is_me (ca_address k) = false -> t + QUIET_AT_MOST <= now ->
  rounds c mod PRIVATE_PROBE_EVERY = 0 \/ ca_proven k = true \/ only_rfc1918 (ca_address k) = false \/ heard_here d <> Some false ->
  (d, ca_address k) ∈ dialable heard_here is_me now c.
Proof.
  intros Hr Hd Hk Hme Hnow Hwhy. assert (Hq : quiet_ok t (quiet c)).
  { apply (run_quiet _ _ _ _ _ Hr). rewrite load_quiet. apply map_Forall_empty. }
  unfold dialable. apply (list_elem_of_fmap_2' (fun p => (p.1, ca_address p.2)) _ (d, k)); [|done].
  apply list_elem_of_filter. split.
  { destruct Hwhy as [->|[Hp|[Ho|Hh]]]; cbn [fst snd]; [done| | |].
    - rewrite Hp. by rewrite orb_true_r.
    - rewrite Ho. cbn. by rewrite orb_true_r.
    - rewrite (bool_decide_false (heard_here d = Some false)) by done. by rewrite orb_true_r. }
  apply list_elem_of_filter. split; [right|].
  { cbn [fst]. destruct (quiet c !! d) as [q|] eqn:E; [|done]. specialize (Hq d q E). cbn beta in Hq.
    rewrite (proj2 (N.leb_le (q_until q) now)) by lia. by rewrite orb_true_r. }
  apply list_elem_of_filter. split; [done|]. apply elem_of_ordered. eauto.
Qed.

End quiet.

(** ** What is served, and what a restart keeps *)

Section keeping_it.
Context {PR : Primitives} {CC : ContactCodec} (owner : UserId) (me : DeviceId).

(** After any history of answers, relays and failures, from whatever file the
    daemon started with: the book holds at most [MAX_DEVICES] machines and at most
    [MAX_ADDRESSES] addresses of each, every one once, behind which stands nothing
    but the device's own signature and a live claim of this account, a claim never
    without the signature; and the wait after a miss stays between its bounds. *)
Theorem book_stays_sound disk t0 t c n :
  contact_run owner me t0 (load disk owner).1 t c n ->
  book_ok owner (book c) /\ from_option (fun w => 2 * REREAD_AFTER_MISS <= w <= PUBLISH_EVERY) True (miss_wait c).
Proof.
  intros Hr. split; [apply (run_book_ok _ _ _ _ _ _ _ Hr), load_ok|].
  destruct (run_pace _ _ _ _ _ _ _ Hr (load_starting _ disk)) as (f & z & Hp). apply Hp.
Qed.

Lemma elem_of_all_candidates c k : k ∈ all_candidates c <-> exists d l, book c !! d = Some l /\ k ∈ l.
Proof.
  unfold all_candidates. rewrite list_elem_of_In, in_concat. setoid_rewrite <- list_elem_of_In. split.
  - intros (l & Hl & Hk). apply list_elem_of_fmap in Hl as ([d l'] & -> & Hd). apply elem_of_btree_iter in Hd. eauto.
  - intros (d & l & Hd & Hk). exists l. split; [|done]. apply (list_elem_of_fmap_2 snd _ (d, l)). by apply elem_of_btree_iter.
Qed.

Lemma relayable_ok c row :
  book_ok owner (book c) -> row ∈ relayable c -> is_ok (verify_for row owner) = true.
Proof.
  intros [_ Hb] Hr. apply list_elem_of_omap in Hr as (k & Hk & Er). apply elem_of_all_candidates in Hk as (d & l & Hd & Hk).
  apply (proj1 (Forall_forall _ _) (lo_cands _ _ _ (Hb _ _ Hd))) in Hk as [[Hp Hc] _]. unfold claimed_row in Er.
  destruct (ca_presence k) as [p|]; [|done]. destruct (ca_claim k) as [cl|]; [|done]. injection Er as <-.
  apply verify_for_iff. destruct Hp as (? & <- & _). done.
Qed.

Lemma honest_rows_not_forged me' now l c2 :
  Forall (fun bytes => exists row, decode_row bytes = Some row /\ is_ok (verify_for row owner) = true
                                  /\ pr_at_unix (sp_presence (cp_presence row)) <= sat_add now MAX_CLOCK_SKEW) l ->
  forged (relayed l owner me' now c2).1 = 0%nat.
Proof.
  unfold relayed. assert (H0 : forged (Relayed_default, c2).1 = 0%nat) by done. generalize dependent (Relayed_default, c2).
  induction l as [|x l IH]; intros acc H0 Hl; [done|]. apply Forall_cons in Hl as [(row & Hd & Hv & Hat) Hl]. cbn [foldl]. apply IH; [|done].
  destruct acc as [[k f u s] c0]. unfold relay_one. rewrite Hd. cbn zeta. destruct (_ =? me'); [done|]. rewrite Hv.
  rewrite (proj2 (N.ltb_ge (sat_add now MAX_CLOCK_SKEW) (pr_at_unix (sp_presence (cp_presence row))))) by done. cbn [negb orb].
  destruct (book c0 !! _); [|done]. by destruct (is_fresh _ _ _).
Qed.

(** What a node answers about its account's machines: only a device the book
    holds under this account's claim is answered, never with its own rows, every
    row carries both signatures and checks for this account, and so no other
    machine of the account, whatever its own book, takes an honest node's answer
    for a forgery. *)
Theorem board_serves_only_proofs `{!ContactCodecLaws} disk t0 t c n caller served :
  contact_run owner me t0 (load disk owner).1 t c n ->
  presences_for (board c) caller = Some served ->
  (exists held k cl, book c !! caller = Some held /\ k ∈ held /\ ca_claim k = Some cl /\ claim_ok owner caller cl)
  /\ (forall bytes, bytes ∈ served -> exists row, decode_row bytes = Some row /\ is_ok (verify_for row owner) = true
        /\ pr_device (sp_presence (cp_presence row)) <> caller)
  /\ forall me' now c2,
       (forall bytes row, bytes ∈ served -> decode_row bytes = Some row ->
          pr_at_unix (sp_presence (cp_presence row)) <= sat_add now MAX_CLOCK_SKEW) ->
       forged (relayed served owner me' now c2).1 = 0%nat.
Proof.
  intros Hr. pose proof (run_book_ok _ _ _ _ _ _ _ Hr (load_ok owner disk)) as Hb.
  unfold presences_for, board. cbn [members rows]. case_bool_decide as Hm; [|done]. intros [= <-].
  assert (Hrows : forall bytes, bytes ∈ (filter (fun p => p.1 <> caller)
      (omap (fun row => (fun bytes => (pr_device (sp_presence (cp_presence row)), bytes)) <$> encode_row row) (relayable c))).*2 ->
    exists row, decode_row bytes = Some row /\ is_ok (verify_for row owner) = true /\ pr_device (sp_presence (cp_presence row)) <> caller).
  { intros bytes Hin. apply list_elem_of_fmap in Hin as ([d b] & -> & Hin). apply list_elem_of_filter in Hin as [Hne Hin].
    apply list_elem_of_omap in Hin as (row & Hrow & E). destruct (encode_row row) as [x|] eqn:Ex; [|done]. injection E as <- <-.
    exists row. split_and!; [by apply decode_encode_row|by apply (relayable_ok c)|done]. }
  split_and!; [|exact Hrows|].
  - apply elem_of_dom in Hm as [held [Hd He]%map_lookup_filter_Some]. apply Exists_exists in He as (k & Hk & [cl Hcl]).
    exists held, k, cl. split_and!; try done.
    apply (proj1 (Forall_forall _ _) (lo_cands _ _ _ (bo_lists _ _ Hb _ _ Hd))) in Hk as [[_ Hc] _]. by rewrite Hcl in Hc.
  - intros me' now c2 Hat. apply honest_rows_not_forged. apply Forall_forall. intros bytes Hin.
    destruct (Hrows bytes Hin) as (row & E & Hv & _). exists row. by eauto.
Qed.

(** What the file keeps of a machine's addresses. *)
Definition unproven (k : Candidate) : Candidate := mkCand (ca_address k) (ca_worked k) (ca_presence k) (ca_claim k) false.
Definition restored (l : list Candidate) : list Candidate := unproven <$> filter (fun k => is_Some (ca_presence k)) l.
Definition put_restored (d : DeviceId) (l : list Candidate) (b : gmap DeviceId (list Candidate)) : gmap DeviceId (list Candidate) :=
  match l with [] => b | _ => <[d := l]> b end.

Lemma load_page d l pre c1 :
  NoDup (ca_address <$> pre ++ l) -> (length (pre ++ l) <= MAX_ADDRESSES)%nat -> Forall (cand_ok owner d) l ->
  book c1 !! d = match pre with [] => None | _ => Some pre end ->
  (size (book c1) + match pre with [] => 1 | _ => 0 end <= MAX_DEVICES)%nat ->
  exists c2, foldl (load_entry owner) (0%nat, 0%nat, c1) (omap entry_of l) = (0%nat, 0%nat, c2)
    /\ book c2 = put_restored d (pre ++ restored l) (book c1) /\ timers c2 = timers c1.
Proof.
  revert pre c1. induction l as [|k l IH]; intros pre c1 Hnd Hlen Hc Hb Hs.
  { exists c1. split_and!; [done| |done]. unfold restored. cbn. rewrite app_nil_r. unfold put_restored. destruct pre; [done|]. by rewrite insert_id. }
  apply Forall_cons in Hc as [[[Hp Hcl] Hpc] Hc]. unfold entry_of at 1. cbn [omap list_omap]. unfold restored. rewrite filter_cons.
  destruct (ca_presence k) as [p|] eqn:Ep; cbn [fmap option_fmap option_map].
  2:{ rewrite decide_False by (intros [? [=]]). apply IH; try done.
      - revert Hnd. rewrite !fmap_app. cbn. intros Hnd. apply (sublist_NoDup _ _ Hnd). apply sublist_app; [done|]. by apply sublist_cons.
      - rewrite length_app in *. cbn in Hlen. lia. }
  rewrite decide_True by eauto. cbn [foldl]. destruct Hp as (Hv & Hdev & Haddr).
  set (c1' := insert d (ca_address k) (Some p) (ca_claim k) (ca_worked k) c1).
  assert (El : load_entry owner (0%nat, 0%nat, c1) (mkEntry p (ca_worked k) (ca_claim k)) = (0%nat, 0%nat, c1')).
  { unfold load_entry. cbn [be_presence be_claim be_worked]. rewrite Hv, Hdev, Haddr. cbn [is_ok negb].
    destruct (ca_claim k) as [cl|] eqn:Ecl; [|done]. rewrite (proj2 (verify_for_iff p cl owner)); [done|]. by rewrite Hdev. }
  rewrite El.
  assert (Hnew : candidate_at (ca_address k) pre = None).
  { apply candidate_at_None. rewrite fmap_app in Hnd. apply NoDup_app in Hnd as (_ & Hnd & _). intros Hin. apply (Hnd _ Hin). cbn. left. }
  assert (Hheld : default [] (book c1 !! d) = pre) by (rewrite Hb; by destruct pre).
  assert (Eb : book c1' = <[d := pre ++ [unproven k]]> (book c1)).
  { unfold c1'. rewrite insert_book, Hheld, Hnew. rewrite length_app in Hlen. cbn in Hlen.
    replace (bool_decide _ && _) with false.
    - unfold bound, unproven. rewrite Ep. destruct (Nat.ltb_spec MAX_ADDRESSES
        (length (pre ++ [mkCand (ca_address k) (ca_worked k) (Some p) (ca_claim k) false]))) as [Hx|]; [|done].
      rewrite length_app in Hx. cbn in Hx. lia.
    - symmetry. rewrite Hb. destruct pre; [|done]. cbn [bool_decide]. rewrite bool_decide_true by done. cbn [andb].
      apply Nat.leb_gt. lia. }
  destruct (IH (pre ++ [unproven k]) c1') as (c2 & E2 & B2 & T2); try done.
  - revert Hnd. rewrite !fmap_app, <- app_assoc. done.
  - rewrite !length_app in *. cbn in *. lia.
  - rewrite Eb, lookup_insert_eq. by destruct pre.
  - rewrite Eb. replace (match pre ++ [unproven k] with [] => 1 | _ => 0 end)%nat with 0%nat by by destruct pre.
    destruct pre; [rewrite map_size_insert_None by done; lia|rewrite map_size_insert_Some by (rewrite Hb; eauto); lia].
  - exists c2. split; [done|]. split; [|rewrite T2; apply insert_timers]. rewrite B2, Eb, <- app_assoc. cbn [fmap list_fmap app].
    unfold put_restored, restored. destruct pre; cbn; by rewrite insert_insert_eq.
Qed.

Lemma load_pages (pages : list (DeviceId * list Candidate)) c1 :
  NoDup pages.*1 -> Forall (fun p => list_ok owner p.1 p.2) pages ->
  (forall d, d ∈ pages.*1 -> book c1 !! d = None) -> (size (book c1) + length pages <= MAX_DEVICES)%nat ->
  exists c2, foldl (load_entry owner) (0%nat, 0%nat, c1) (omap entry_of (concat pages.*2)) = (0%nat, 0%nat, c2)
    /\ timers c2 = timers c1
    /\ (forall d l, (d, l) ∈ pages -> book c2 !! d = match restored l with [] => None | _ => Some (restored l) end)
    /\ (forall d, d ∉ pages.*1 -> book c2 !! d = book c1 !! d).
Proof.
  revert c1. induction pages as [|[d l] pages IH]; intros c1 Hnd Hok Hfresh Hs.
  { exists c1. split_and!; [done|done| |done]. intros d l ?%not_elem_of_nil. done. }
  cbn in Hnd, Hs. apply NoDup_cons in Hnd as [Hd Hnd]. apply Forall_cons in Hok as [[_ Hlen Hn Hc] Hok]. cbn in *.
  rewrite omap_app, foldl_app.
  destruct (load_page d l [] c1) as (c2 & E2 & B2 & T2); try done; [apply Hfresh; left|lia|]. rewrite E2.
  assert (Hne : forall x, x <> d -> book c2 !! x = book c1 !! x).
  { intros x Hx. rewrite B2. unfold put_restored. cbn [app]. destruct (restored l); [done|]. by rewrite lookup_insert_ne. }
  destruct (IH c2) as (c3 & E3 & T3 & B3 & F3); try done.
  - intros x Hx. rewrite Hne by (intros ->; done). apply Hfresh. by right.
  - rewrite B2. unfold put_restored. cbn [app]. destruct (restored l); [lia|].
    rewrite map_size_insert_None by (apply Hfresh; left). lia.
  - exists c3. split; [done|]. split; [congruence|]. split.
    + intros x lx [[= -> ->]|Hx]%elem_of_cons; [|by apply B3]. rewrite F3 by done. rewrite B2. unfold put_restored. cbn [app].
      destruct (restored l) eqn:Er; [apply Hfresh; left|]. by rewrite lookup_insert_eq.
    + intros x Hx. apply not_elem_of_cons in Hx as [Hx1 Hx2]. rewrite F3 by done. by apply Hne.
Qed.

(** C20. A restart keeps the book.  After any history, the bytes [save] writes load
    without a word of warning into a contact that knows the same machines by the
    same signed addresses, with the same proofs and the same record of which one
    worked, and that still knows whether the coordinator signs; only the unsigned
    addresses are gone, and what this process saw answer. *)
Theorem restart_keeps_the_book `{!ContactCodecLaws} disk t0 t c n bytes c' :
  contact_run owner me t0 (load disk owner).1 t c n ->
  save true c = (Ok (Some bytes), c') ->
  exists c2, load (Bytes bytes) owner = (c2, None) /\ signs c2 = signs c /\ changed c2 = false
    /\ forall d, book c2 !! d = match restored (default [] (book c !! d)) with [] => None | l => Some l end.
Proof.
  intros Hr. pose proof (run_book_ok _ _ _ _ _ _ _ Hr (load_ok owner disk)) as [Hs Hl].
  unfold save. destruct (negb (changed c)); [done|]. intros [= <- _]. unfold load.
  rewrite decode_encode_version, decode_encode_book. unfold file_of. cbn [bf_version bf_signs bf_entries].
  change BOOK_VERSION with 2. cbv match.
  destruct (load_pages (btree_iter (book c)) (set_signs (signs c) new)) as (c2 & E & T & B & F).
  - apply NoDup_btree_keys.
  - apply Forall_forall. intros [d l] Hin. by apply elem_of_btree_iter, Hl in Hin.
  - done.
  - cbn [book set_signs new]. rewrite map_size_empty, btree_iter_perm, length_map_to_list. lia.
  - unfold all_candidates. cbn [N.eqb Pos.eqb negb bf_version bf_signs bf_entries]. rewrite E.
    exists (set_changed false c2). unfold timers in T. injection T as T1 T2 T3 T4 T5 T6 T7 T8 T9 T10.
    split; [done|]. split; [destruct c2; exact T7|]. split; [by destruct c2|]. intros d.
    replace (book (set_changed false c2)) with (book c2) by by destruct c2.
    destruct (book c !! d) as [l|] eqn:Ed; cbn [default from_option id].
    + change (id l) with l. rewrite (B d l) by by apply elem_of_btree_iter. by destruct (restored l).
    + rewrite F; [done|]. intros Hin%(elem_of_btree_keys (book c) d). rewrite Ed in Hin. by destruct Hin.
Qed.

End keeping_it.

(** ** A laptop whose other machine goes silent *)

Module TwoMachines.

Import Toy.

#[export] Instance NodeClaim_countable : Countable NodeClaim :=
  inj_countable' (fun c => (cl_owner c, cl_device c, cl_pledged_bytes c, cl_issued_unix c, cl_revoked c))
    (fun '(o, d, p, i, r) => mkClaim o d p i r) ltac:(by intros []).
#[export] Instance SignedClaim_countable : Countable SignedClaim :=
  inj_countable' (fun c => (sc_claim c, sc_signature c)) (fun '(c, s) => mkSignedClaim c s) ltac:(by intros []).
#[export] Instance Presence_countable : Countable Presence :=
  inj_countable' (fun p => (pr_device p, pr_address p, pr_at_unix p)) (fun '(d, a, t) => mkPresence d a t) ltac:(by intros []).
#[export] Instance SignedPresence_countable : Countable SignedPresence :=
  inj_countable' (fun p => (sp_presence p, sp_signature p)) (fun '(p, s) => mkSignedPresence p s) ltac:(by intros []).
#[export] Instance ClaimedPresence_eq_dec : EqDecision ClaimedPresence.
Proof. solve_decision. Defined.
#[export] Instance ClaimedPresence_countable : Countable ClaimedPresence :=
  inj_countable' (fun p => (cp_presence p, cp_claim p)) (fun '(p, c) => mkClaimedPresence p c) ltac:(by intros []).
#[export] Instance BookEntry_eq_dec : EqDecision BookEntry.
Proof. solve_decision. Defined.
#[export] Instance BookEntry_countable : Countable BookEntry :=
  inj_countable' (fun e => (be_presence e, be_worked e, be_claim e)) (fun '(p, w, c) => mkEntry p w c) ltac:(by intros []).
#[export] Instance BookFile_eq_dec : EqDecision BookFile.
Proof. solve_decision. Defined.
#[export] Instance BookFile_countable : Countable BookFile :=
  inj_countable' (fun f => (bf_version f, bf_signs f, bf_entries f)) (fun '(v, s, l) => mkBook v s l) ltac:(by intros []).

(** One number for the version, one for the rest. *)
#[export] Instance contact_codec : ContactCodec := {|
  encode_book f := [bf_version f; Npos (encode f)];
  decode_version l := head l;
  decode_book l := match l with [_; Npos p] => decode p | _ => None end;
  decode_book_v1 _ := None;
  encode_row r := Some [Npos (encode r)];
  decode_row l := match l with [Npos p] => decode p | _ => None end;
|}.

#[export] Instance contact_codec_laws : ContactCodecLaws.
Proof.
  split; [done|intros f; apply decode_encode|]. intros r bytes [= <-]. apply decode_encode.
Qed.

Definition account : UserKeys := derive [9].
Definition nas_keys : DeviceKeys := mkDeviceKeys [2].
Definition nas : DeviceId := device_id nas_keys.
Definition laptop : DeviceId := device_id (mkDeviceKeys [1]).
Definition at_home : string := "192.168.1.10:9797".

Definition nas_presence : SignedPresence := presence_sign (mkPresence nas at_home 100) nas_keys.
Definition nas_claim : SignedClaim := claim_sign (mkClaim (user_id account) nas 0 50 false) account.
Definition nas_row : ClaimedPresence := mkClaimedPresence nas_presence nas_claim.

(** Published and read at 1000, the NAS misses the round at 1010, and at 1200 the
    laptop asks about it. *)
Definition c0 : Contact := (load NotFound (user_id account)).1.
Definition c1 : Contact := asked (due None 1000 c0) 1000 c0.
Definition c2 : Contact := read [(nas, at_home)] [nas_presence] [nas_row] 1000 c1.
Definition c3 : Contact := published None 1000 c2.
Definition c4 : Contact := failed nas at_home 1010 c3.
Definition c5 : Contact := round_reached ∅ 1010 c4.
Definition c6 : Contact := asked (due None 1200 c5) 1200 c5.

Lemma nas_row_ok : answer_ok (user_id account) [nas_presence] [nas_row].
Proof.
  assert (E1 : presence_verify_origin nas_presence = Ok tt) by (vm_compute; reflexivity).
  assert (E2 : is_ok (verify_for nas_row (user_id account)) = true) by (vm_compute; reflexivity).
  split; constructor; done.
Qed.

Lemma history : contact_run (user_id account) laptop 1000 c0 1200 c6 1.
Proof.
  assert (E1 : (if on_a_miss (due None 1000 c0) c0 then 1 else 0) = 0) by (vm_compute; reflexivity).
  assert (E6 : (if on_a_miss (due None 1200 c5) c5 then 1 else 0) = 1) by (vm_compute; reflexivity).
  assert (A1 : any (due None 1000 c0) = true) by (vm_compute; reflexivity).
  assert (A6 : any (due None 1200 c5) = true) by (vm_compute; reflexivity).
  assert (R1 : contact_run (user_id account) laptop 1000 c0 1000 c1 (0 + 0)).
  { eapply cr_step; [apply cr_start|]. rewrite <- E1. by apply cs_asked. }
  assert (R2 : contact_run (user_id account) laptop 1000 c0 1000 c2 (0 + 0 + 0)).
  { eapply cr_step; [exact R1|]. apply cs_read; [done|apply nas_row_ok]. }
  assert (R3 : contact_run (user_id account) laptop 1000 c0 1000 c3 (0 + 0 + 0 + 0)).
  { eapply cr_step; [exact R2|]. by apply cs_published. }
  assert (R4 : contact_run (user_id account) laptop 1000 c0 1010 c4 (0 + 0 + 0 + 0 + 0)).
  { eapply cr_step; [exact R3|]. by apply cs_failed. }
  assert (R5 : contact_run (user_id account) laptop 1000 c0 1010 c5 (0 + 0 + 0 + 0 + 0 + 0)).
  { eapply cr_step; [exact R4|]. by apply cs_round. }
  change 1 with (0 + 0 + 0 + 0 + 0 + 0 + 1). eapply cr_step; [exact R5|]. rewrite <- E6. by apply cs_asked.
Qed.

End TwoMachines.

Import Toy TwoMachines.

Lemma rereads_are_bounded_witness : 200 * 1 <= (1200 - 1000) + 200.
Proof. exact (rereads_are_bounded (user_id account) laptop NotFound 1000 1200 c6 1 history). Defined.

Lemma book_stays_sound_witness : book_ok (user_id account) (book c6) /\ miss_wait c6 = Some 240.
Proof.
  split; [|vm_compute; reflexivity].
  exact (proj1 (book_stays_sound (user_id account) laptop NotFound 1000 1200 c6 1 history)).
Defined.

Lemma relay_introduces_nobody_witness :
  let c' := (relayed [[5]; default [] (encode_row nas_row)] (user_id account) laptop 1200 c6).2 in
  is_Some (book c' !! nas) <-> is_Some (book c6 !! nas).
Proof.
  exact (proj1 (proj2 (relay_introduces_nobody (user_id account) laptop NotFound 1000 1200 c6 1
    [[5]; default [] (encode_row nas_row)] 1200 history)) nas).
Defined.

Definition nas_page : list Candidate := default [] (book c6 !! nas).

Lemma silent_machines_are_dialled_again_witness :
  (nas, at_home) ∈ dialable (fun _ => None) (fun _ => false) 3000 c6 /\ dialable (fun _ => None) (fun _ => false) 1060 c6 = [].
Proof.
  split; [|vm_compute; reflexivity].
  refine (silent_machines_are_dialled_again (user_id account) laptop NotFound 1000 1200 c6 1 nas nas_page
    (mkCand at_home None (Some nas_presence) (Some nas_claim) false) 3000 (fun _ => None) (fun _ => false) history _ _ _ _ _).
  - vm_compute. reflexivity.
  - assert (E : nas_page = [mkCand at_home None (Some nas_presence) (Some nas_claim) false]) by (vm_compute; reflexivity).
    rewrite E. by left.
  - reflexivity.
  - vm_compute. discriminate.
  - right. right. right. discriminate.
Defined.

Lemma board_serves_only_proofs_witness :
  presences_for (board c6) nas = Some []
  /\ exists held k cl, book c6 !! nas = Some held /\ k ∈ held /\ ca_claim k = Some cl /\ claim_ok (user_id account) nas cl.
Proof.
  assert (E : presences_for (board c6) nas = Some []) by (vm_compute; reflexivity). split; [exact E|].
  exact (proj1 (board_serves_only_proofs (user_id account) laptop NotFound 1000 1200 c6 1 nas [] history E)).
Defined.

Lemma restart_keeps_the_book_witness :
  exists c, load (Bytes (encode_book (file_of c6))) (user_id account) = (c, None)
  /\ book c !! nas = Some [mkCand at_home None (Some nas_presence) (Some nas_claim) false].
Proof.
  assert (Es : save true c6 = (Ok (Some (encode_book (file_of c6))), set_changed false c6)).
  { unfold save. assert (E : changed c6 = true) by (vm_compute; reflexivity). by rewrite E. }
  destruct (restart_keeps_the_book (user_id account) laptop NotFound 1000 1200 c6 1 _ _ history Es) as (c & El & _ & _ & Hb).
  exists c. split; [exact El|]. rewrite Hb.
  assert (E : restored (default [] (book c6 !! nas)) = [mkCand at_home None (Some nas_presence) (Some nas_claim) false])
    by (vm_compute; reflexivity). by rewrite E.
Defined.
