(* ===== verification/Coordinator.v ===== *)
(** * Coordinator: what a node asks its coordinator, and what it believes of the answer

    Models [crates/itsanas-node/src/coordinator.rs] against an arbitrary
    coordinator: connecting may fail, every question may be answered with
    anything or by hanging up.  Where this machine's address is found (adapters,
    routes, the router) is an argument, the address to publish; escrow containers
    and reachability probes are left out, as are the words of an error. *)

From S2P Require Import Prelude Version Ids Network Crypto Oplog Wire IndexState Files Ledger Store Vault Accounting Reach Claims.
From S2P Require Import Directory DirectoryOk Service ClaimBook Contact ContactOk.

Inductive NodeError :=
| NoCoordinator
| CannotConnect
| HungUp
| SaidNo (why : Service.Refusal)
| Unexpected (answer : Response)
| SignsNoMore
| NoMember
| OwnAccount
| OwnDevice
| NoRoom (live : list (DeviceId * string))
| NoUses
| NotKept.

(** The world outside the node: whether a connection opens, and what is answered. *)
Record Outside (C : Type) := mkOutside { connect : C -> bool * C; reply : Request -> C -> option Response * C }.
Arguments connect {C} _ _.
Arguments reply {C} _ _ _.

Record Node := mkNode {
  nd_user : UserKeys;
  nd_device : DeviceKeys;
  nd_username : string;
  nd_public : UserPublic;
  nd_offered : N;
  has_coordinator : bool;
  has_pin : bool;
}.

(** What changes: the coordinator, the two files of the home, whether the home can
    be written, and the book of claims. *)
Record World (C : Type) := mkWorld {
  w_coord : C;
  presence_last : option (list ascii);
  pledged_by_others : option (list ascii);
  writable : bool;
  w_book : ClaimBook;
}.
Arguments mkWorld {C} _ _ _ _ _.
Arguments w_coord {C} _.
Arguments presence_last {C} _.
Arguments pledged_by_others {C} _.
Arguments writable {C} _.
Arguments w_book {C} _.

(** ** What is believed *)

Section checks.
Context `{!Primitives}.

Definition verified_presences (l : list SignedPresence) : list SignedPresence * nat :=
  let kept := filter (fun s => is_ok (presence_verify_origin s) = true) l in
  (kept, length l - length kept)%nat.

Definition place (s : SignedPresence) : DeviceId * string := (pr_device (sp_presence s), pr_address (sp_presence s)).

Definition verified (l : list SignedPresence) : list (DeviceId * string) * nat :=
  let '(kept, dropped) := verified_presences l in (place <$> kept, dropped).

Definition verified_claimed (l : list ClaimedPresence) (owner : UserId) : list ClaimedPresence * nat :=
  let kept := filter (fun row => is_ok (verify_for row owner) = true) l in
  (kept, length l - length kept)%nat.

(** The accounts a host may free: asked about, and signed by the account. *)
Definition accepted_deletions (asked : list UserId) (told : list SignedDeletion) : list UserId :=
  filter (fun u => u ∈ asked)
    ((fun s => dl_user (sl_deletion s)) <$> filter (fun s => is_ok (deletion_verify_origin s) = true) told).

(** Only an answer about the device is one. *)
Definition answer_about (presented : SignedClaim) (answer : option Response) : option Verdict :=
  match answer with
  | Some (StandingIs held) => Some (verdict presented held)
  | _ => None
  end.

Definition dialable_from_anywhere (address : string) : bool :=
  if is_relay address
  then match split_once "@" (drop 6 (String.list_ascii_of_string address)) with
       | Some (_, at_) => negb (bool_decide (at_ = [])) && negb (is_private_address (String.string_of_list_ascii at_))
       | None => false
       end
  else negb (is_private_address address).

(** [hosts], once the list is there. *)
Definition usable_host (me : UserId) (row : ClaimedPresence) : bool :=
  let owner := cl_owner (sc_claim (cp_claim row)) in
  negb (owner =? me) && (0 <? cl_pledged_bytes (sc_claim (cp_claim row)))
  && is_ok (verify_for row owner) && dialable_from_anywhere (pr_address (sp_presence (cp_presence row))).

End checks.

(** Stable: private addresses after the others. *)
Definition reachable_before (a b : DeviceId * string) : bool := implb (is_private_address a.2) (is_private_address b.2).
Definition reachable_first (l : list (DeviceId * string)) : list (DeviceId * string) := sort_by reachable_before l.

Definition room_for (this : DeviceId) (live : list (DeviceId * string)) : result NodeError unit :=
  if existsb (fun p => p.1 =? this) live || (length live <? MAX_DEVICES_PER_ACCOUNT)%nat then Ok tt else Err (NoRoom live).

(** ** Dating a presence *)

Definition CLOCK_FLOOR : N := 1767225600.

Definition next_presence_time (last now : N) : N :=
  if (CLOCK_FLOOR <=? now) && (sat_add now MAX_CLOCK_SKEW <? last) then now else N.max now (sat_add last 1).

Definition read_u64 (file : option (list ascii)) : option N :=
  match file with Some text => parse_int u64_max (trim text) | None => None end.

(** ** Asking *)

Section asking.
Context `{!Primitives, !BodyCodec, !Postcard SignedClaim} {C : Type} (K : Outside C) (node : Node).
Local Abbreviation Ask := (M (World C) NodeError).

Definition me : DeviceId := device_id (nd_device node).
Definition owner : UserId := user_id (nd_user node).

Definition set_coord (c : C) (w : World C) : World C :=
  mkWorld c (presence_last w) (pledged_by_others w) (writable w) (w_book w).

Definition dial : Ask unit := fun w =>
  if negb (has_coordinator node) then (Err NoCoordinator, w)
  else let '(there, c) := connect K (w_coord w) in
       (if there then Ok tt else Err CannotConnect, set_coord c w).

(** [None]: the other side hung up. *)
Definition ask (r : Request) : Ask (option Response) := fun w =>
  let '(answer, c) := reply K r (w_coord w) in (Ok answer, set_coord c w).

(** [client.ask(..)?] *)
Definition ask_now (r : Request) : Ask Response :=
  answer <-! ask r;
  match answer with Some a => ret a | None => throw HungUp end.

Definition no_answer {A} (answer : Response) : Ask A :=
  match answer with Refused why => throw (SaidNo why) | other => throw (Unexpected other) end.

Definition expect_done (answer : Response) : Ask unit :=
  match answer with Done => ret tt | other => no_answer other end.

(** [.ok()] on the way: the error is dropped, what was done stays. *)
Definition or_else {A} (m : Ask A) : Ask (option A) := fun w =>
  match m w with (Ok a, w) => (Ok (Some a), w) | (Err _, w) => (Ok None, w) end.

Record Located := mkLocated {
  lo_found : list (DeviceId * string);
  lo_forged : nat;
  lo_signed : bool;
  lo_presences : list SignedPresence;
  lo_claimed : list ClaimedPresence;
}.

Definition bare_ok (p : Presence) : Prop :=
  (String.length (pr_address p) =? 0)%nat = false /\ (String.length (pr_address p) <=? MAX_ADDRESS_LEN)%nat = true.

Definition signed_located (user : UserId) (accept_unsigned : bool) : Ask Located :=
  answer <-! ask (SignedPeers user);
  match answer with
  | Some (SignedPeerList l) =>
      let '(presences, forged) := verified_presences l in
      ret (mkLocated (place <$> presences) forged true presences [])
  | Some other => no_answer other
  | None =>
      if negb accept_unsigned then throw SignsNoMore
      else
        dial ;;!
        answer <-! ask_now (Peers user);
        match answer with
        | PeerList l => ret (mkLocated ((fun p => (pr_device p, pr_address p)) <$> filter bare_ok l) 0 false [] [])
        | other => no_answer other
        end
  end.

Definition located (user : UserId) (accept_unsigned : bool) : Ask Located :=
  answer <-! ask (ClaimedPeers user);
  match answer with
  | Some (ClaimedPeerList l) =>
      let '(claimed, forged) := verified_claimed l user in
      ret (mkLocated (place ∘ cp_presence <$> claimed) forged true (cp_presence <$> claimed) claimed)
  | Some other => no_answer other
  | None => dial ;;! signed_located user accept_unsigned
  end.

Definition devices (user : UserId) : Ask (list (DeviceId * string)) :=
  dial ;;! read <-! located user true; ret (lo_found read).

Definition peers (user : UserId) : Ask (list (DeviceId * string)) :=
  found <-! devices user; ret (reachable_first (filter (fun p => p.1 <> me) found)).

Definition hosts : Ask (list (DeviceId * string)) :=
  dial ;;!
  answer <-! ask Hosts;
  match answer with
  | Some (HostList l) =>
      ret (place ∘ cp_presence <$> filter (fun row => usable_host owner row = true) (take MAX_HOSTS_RETURNED l))
  | _ => ret []
  end.

Definition enrolled_list : Ask (option (list EnrolledDevice)) :=
  dial ;;!
  answer <-! ask (Devices owner);
  match answer with
  | Some (DeviceList l) => ret (Some l)
  | Some other => no_answer other
  | None => fallback <-! or_else (devices owner);
            match fallback with Some _ => ret None | None => throw HungUp end
  end.

(** [remember_pledges]: the others' pledges together, written down. *)
Definition others_total (l : list EnrolledDevice) : N :=
  foldl (fun total e => sat_add total (en_pledged_bytes e)) 0 (filter (fun e => en_device e <> me) l).
Definition remember_pledges (l : list EnrolledDevice) : Ask N := fun w =>
  let total := others_total l in
  if writable w
  then (Ok total, mkWorld (w_coord w) (presence_last w) (Some (decimal total ++ ["010"%char])) (writable w) (w_book w))
  else (Err NotKept, w).

Record OtherPledges := mkOtherPledges { op_total : N; op_largest : N }.
Definition other_pledges : Ask (option OtherPledges) :=
  l <-! enrolled_list;
  match l with
  | None => ret None
  | Some l => total <-! remember_pledges l;
              ret (Some (mkOtherPledges total
                (foldl N.max 0 (en_pledged_bytes <$> filter (fun e => en_device e <> me) l))))
  end.

(** [presence_time] *)
Definition presence_time (now : N) : Ask N := fun w =>
  let at_ := next_presence_time (default 0 (read_u64 (presence_last w))) now in
  (Ok at_, mkWorld (w_coord w) (if writable w then Some (decimal at_) else presence_last w)
             (pledged_by_others w) (writable w) (w_book w)).

Definition sign_presence (address : string) (now : N) : Ask SignedPresence :=
  at_ <-! presence_time now;
  ret (presence_sign (mkPresence me address at_) (nd_device node)).

Definition announce (address : string) (now : N) : Ask string :=
  dial ;;!
  presence <-! sign_presence address now;
  answer <-! ask_now (Announce presence);
  expect_done answer ;;! ret address.

Definition depart (now : N) : Ask bool :=
  dial ;;!
  answer <-! ask (Depart (departure_sign (mkDeparture me now) (nd_device node)));
  match answer with
  | Some Done => ret true
  | Some other => no_answer other
  | None => fallback <-! or_else (devices owner);
            match fallback with Some _ => ret false | None => throw HungUp end
  end.

Definition delete_account (now : N) : Ask unit :=
  dial ;;!
  answer <-! ask_now (DeleteAccount (deletion_sign (mkDeletion owner (nd_username node) now) (nd_user node)));
  expect_done answer.

(** [users.chunks(MAX_DELETED_ASKED)] *)
Fixpoint deleted_go (fuel : nat) (users out : list UserId) : Ask (list UserId) :=
  match fuel, users with
  | S fuel, _ :: _ =>
      let batch := take MAX_DELETED_ASKED users in
      answer <-! ask (DeletedAmong batch);
      match answer with
      | Some (DeletedList found) => deleted_go fuel (drop MAX_DELETED_ASKED users) (out ++ accepted_deletions batch found)
      | _ => ret out
      end
  | _, _ => ret out
  end.
Definition deleted_among (users : list UserId) : Ask (list UserId) := dial ;;! deleted_go (length users) users [].

(** ** Enrolling and withdrawing *)

Definition live_devices_seen : Ask (option (list (DeviceId * string))) :=
  first <-! or_else (dial ;;! ask (Devices owner));
  match first with
  | Some (Some (DeviceList _)) => ret None
  | _ => read <-! or_else (dial ;;! located owner false);
         ret ((fun r => place ∘ cp_presence <$> lo_claimed r) <$> read)
  end.

Definition register_with (invite : option (list N)) (now : N) : Ask unit :=
  live <-! live_devices_seen;
  lift (match live with Some live => room_for me live | None => Ok tt end) ;;!
  dial ;;!
  let registration := registration_sign (mkRegistration (nd_username node) (nd_public node) now) (nd_user node) in
  answer <-! ask_now (match invite with
                      | Some secret => RegisterInvited registration secret
                      | None => Register registration
                      end);
  match answer with
  | AnAccount _ =>
      answer <-! ask_now (Claim (claim_sign (mkClaim owner me (nd_offered node) now false) (nd_user node)));
      expect_done answer
  | other => no_answer other
  end.

Definition ask_to_forget (device : DeviceId) (now : N) : Ask Response :=
  dial ;;! ask_now (Claim (claim_sign (mkClaim owner device 0 now true) (nd_user node))).
Definition forget_device (device : DeviceId) (now : N) : Ask unit :=
  answer <-! ask_to_forget device now; expect_done answer.
Definition withdraw_old_device (device : DeviceId) (now : N) : Ask unit :=
  ask_to_forget device now ;;! ret tt.
Definition withdraw_self (now : N) : Ask unit := forget_device me now.
Definition withdraw_device (wanted : DeviceId) (now : N) : Ask unit :=
  if wanted =? me then throw OwnDevice else forget_device wanted now.

(** The secret drawn is an argument. *)
Definition invite (secret : list N) (uses validity now : N) : Ask (list N) :=
  if uses =? 0 then throw NoUses
  else
    dial ;;!
    answer <-! ask_now (Invite (invitation_sign
      (mkInvitation owner (code_id secret) now (sat_add now validity) uses) (nd_user node)));
    expect_done answer ;;! ret secret.

Definition find_member (username : string) : Ask (UserId * list (DeviceId * string)) :=
  dial ;;!
  answer <-! ask_now (Lookup username);
  match answer with
  | AnAccount a =>
      let user := up_id (ac_user a) in
      if user =? owner then throw OwnAccount
      else read <-! located user true; ret (user, lo_found read)
  | Missing => throw NoMember
  | other => no_answer other
  end.

(** ** One contact *)

Record Contacted := mkContacted {
  ct_published : option string;
  ct_found : option (list (DeviceId * string));
  ct_read_failed : option NodeError;
  ct_pledges_not_kept : option NodeError;
  ct_forged : nat;
  ct_signed : bool;
  ct_presences : list SignedPresence;
  ct_claimed : list ClaimedPresence;
}.
Definition Contacted_default : Contacted := mkContacted None None None None 0 false [] [].

Definition publish_part (address : string) (now : N) (due : Due) : Ask (option string) :=
  if du_publish due then
    presence <-! sign_presence address now;
    answer <-! ask_now (Announce presence);
    expect_done answer ;;! ret (Some address)
  else ret None.

(** An error of the read is the contact's only when nothing was published. *)
Definition read_part (due : Due) (published : option string) : Ask Contacted := fun w =>
  if negb (du_read due) then (Ok (mkContacted published None None None 0 false [] []), w)
  else
    match located owner (accept_unsigned due) w with
    | (Ok read, w) =>
        (Ok (mkContacted published (Some (reachable_first (filter (fun p => p.1 <> me) (lo_found read)))) None None
               (lo_forged read) (lo_signed read) (lo_presences read) (lo_claimed read)), w)
    | (Err e, w) =>
        match published with
        | None => (Err e, w)
        | Some _ => (Ok (mkContacted published None (Some e) None 0 false [] []), w)
        end
    end.

Definition note_pledges (e : option NodeError) (c : Contacted) : Contacted :=
  mkContacted (ct_published c) (ct_found c) (ct_read_failed c) e (ct_forged c) (ct_signed c) (ct_presences c) (ct_claimed c).

Definition pledges_part (due : Due) (c : Contacted) : Ask Contacted := fun w =>
  if negb (du_publish due) then (Ok c, w)
  else match ask (Devices owner) w with
       | (Ok (Some (DeviceList l)), w) =>
           match remember_pledges l w with
           | (Ok _, w) => (Ok (note_pledges None c), w)
           | (Err e, w) => (Ok (note_pledges (Some e) c), w)
           end
       | (_, w) => (Ok c, w)
       end.

Definition contact (address : string) (now : N) (due : Due) : Ask Contacted :=
  dial ;;!
  published <-! publish_part address now due;
  c <-! read_part due published;
  pledges_part due c.

(** ** The standing of other accounts' devices *)

Definition STANDING_PER_ROUND : nat := 64.
Definition STANDING_PER_CONNECTION : nat := 12.

Record StandingReport := mkStandingReport {
  st_asked : nat; st_live : nat; st_withdrawn : nat; st_unenrolled : nat; st_unanswered : nat; st_unpinned : bool }.
Definition StandingReport_default : StandingReport := mkStandingReport 0 0 0 0 0 false.

Definition pinned : bool := has_coordinator node && has_pin node.

Definition note_verdict (v : Verdict) (r : StandingReport) : StandingReport :=
  let 'mkStandingReport a l w u n p := r in
  match v with
  | SaysLive => mkStandingReport a (S l) w u n p
  | SaysWithdrawn => mkStandingReport a l (S w) u n p
  | SaysUnenrolled => mkStandingReport a l w (S u) n p
  | NoAnswer => mkStandingReport a l w u (S n) p
  end.

Definition one_asked (r : StandingReport) : StandingReport :=
  let 'mkStandingReport a l w u n p := r in mkStandingReport (S a) l w u n p.

Definition set_claims (b : ClaimBook) (w : World C) : World C :=
  mkWorld (w_coord w) (presence_last w) (pledged_by_others w) (writable w) b.

Fixpoint standing_go (index : nat) (due : list (DeviceId * list N)) (now : N) (r : StandingReport) : Ask StandingReport :=
  match due with
  | [] => ret r
  | (device, bytes) :: due =>
      (if (0 <? index)%nat && (index mod STANDING_PER_CONNECTION =? 0)%nat then dial else ret tt) ;;!
      let r := one_asked r in
      match from_bytes bytes : option SignedClaim with
      | None => standing_go (S index) due now (note_verdict SaysUnenrolled r)
      | Some presented =>
          answer <-! ask (StandingOf presented);
          match answer_about presented answer with
          | None => ret (note_verdict NoAnswer r)
          | Some v =>
              modify (fun w => set_claims (note_at device v now (w_book w)) w) ;;!
              standing_go (S index) due now (note_verdict v r)
          end
      end
  end.

Definition standing (now : N) : Ask StandingReport := fun w =>
  if negb (has_coordinator node) then (Ok StandingReport_default, w)
  else
    match ClaimBook.due owner STANDING_PER_ROUND now (w_book w) with
    | [] => (Ok StandingReport_default, w)
    | due => if negb pinned then (Ok (mkStandingReport 0 0 0 0 0 true), w)
             else (dial ;;! standing_go 0 due now StandingReport_default) w
    end.

End asking.

(** ** What passes the checks *)

Section believed.
Context `{!Primitives}.

Lemma filter_all {A} (P : A -> Prop) `{!forall x, Decision (P x)} (l : list A) : Forall P l -> filter P l = l.
Proof. induction 1 as [|x l Hx _ IH]; [done|]. rewrite filter_cons_True by done. by rewrite IH. Qed.

Lemma verified_presences_genuine l : Forall (fun p => presence_verify_origin p = Ok tt) (verified_presences l).1.
Proof.
  cbn. apply Forall_forall. intros p Hp. apply list_elem_of_filter in Hp as [Hp _].
  by destruct (presence_verify_origin p) as [[]|].
Qed.

Lemma verified_claimed_genuine l owner : Forall (fun r => is_ok (verify_for r owner) = true) (verified_claimed l owner).1.
Proof. cbn. apply Forall_forall. intros r Hr. by apply list_elem_of_filter in Hr as [Hr _]. Qed.

Lemma claimed_answer_ok owner l :
  Forall (fun r => is_ok (verify_for r owner) = true) l -> answer_ok owner (cp_presence <$> l) l.
Proof.
  intros Hl. split; [|done]. apply Forall_fmap. eapply Forall_impl; [exact Hl|]. intros [p cl] Hr. cbn in Hr.
  by apply verify_for_iff in Hr as [Hr _].
Qed.

Lemma elem_of_accepted u asked told :
  u ∈ accepted_deletions asked told <->
  u ∈ asked /\ exists s, s ∈ told /\ dl_user (sl_deletion s) = u /\ is_ok (deletion_verify_origin s) = true.
Proof.
  unfold accepted_deletions. rewrite list_elem_of_filter, list_elem_of_fmap. setoid_rewrite list_elem_of_filter. naive_solver.
Qed.

(** ** An honest coordinator is believed *)

(** Every row a well-kept directory lists passes the checks. *)
Lemma honest_rows_check d user now :
  dir_ok d -> verified_claimed (claimed_peers_of d user now) user = (claimed_peers_of d user now, 0%nat).
Proof.
  intros Hd. assert (Hall : Forall (fun r => is_ok (verify_for r user) = true) (claimed_peers_of d user now)).
  2:{ unfold verified_claimed. by rewrite filter_all, Nat.sub_diag. }
  apply Forall_forall. intros r Hr. unfold claimed_peers_of in Hr. apply list_elem_of_fmap in Hr as ([seen row] & -> & Hr).
  apply subseteq_take in Hr. rewrite sort_by_perm in Hr. apply list_elem_of_omap in Hr as (cl & Hcl & Hlisted).
  unfold live_claims_of in Hcl. destruct (is_suspended d user); [by apply elem_of_nil in Hcl|].
  apply elem_of_live_claims_in in Hcl as (dev & Hdev & Hown & Hrev); [|apply Hd].
  destruct (ok_genuine _ Hd _ _ Hdev) as [Ecl Hgen].
  unfold listed_peer in Hlisted. destruct (presence_of d _) as [p|] eqn:Hp; [|done]. case_match; [done|]. injection Hlisted as <- <-.
  destruct (proj1 (ok_presences _ Hd) _ _ Hp) as (Epd & Hver & _). cbn [snd]. apply verify_for_iff. split; [done|].
  unfold claim_ok. rewrite Epd. done.
Qed.

End believed.

Section any_coordinator.
Context {PR : Primitives} {BC : BodyCodec} {PC : Postcard SignedClaim} {C : Type} (K : Outside C) (node : Node).

(** What a list read from any coordinator is worth. *)
Record located_ok (user : UserId) (unsigned_too : bool) (r : Located) : Prop := mkLocatedOk {
  lk_answer : answer_ok user (lo_presences r) (lo_claimed r);
  lk_found : lo_signed r = true -> lo_found r = place <$> lo_presences r;
  lk_claims : lo_claimed r = [] \/ lo_presences r = cp_presence <$> lo_claimed r;
  lk_unsigned : lo_signed r = false -> unsigned_too = true /\ lo_presences r = [] /\ lo_claimed r = [];
}.

Lemma signed_located_ok user unsigned_too w r w' :
  signed_located K node user unsigned_too w = (Ok r, w') -> located_ok user unsigned_too r.
Proof.
  unfold signed_located, bind, ask. destruct (reply K _ _) as [[answer|] c]; cbn.
  - destruct answer; try done. intros [= <- _]. split; cbn; [|done|by left|done].
    split; [apply (verified_presences_genuine l)|by apply Forall_nil].
  - destruct unsigned_too; cbn; [|done]. destruct (dial K node _) as [[[]|] w1]; [|done].
    unfold ask_now, bind, ask. destruct (reply K _ _) as [[answer|] c2]; cbn; [|done]. destruct answer; try done.
    intros [= <- _]. split; cbn; [by split|done|by left|done].
Qed.

Lemma located_checked user unsigned_too w r w' :
  located K node user unsigned_too w = (Ok r, w') -> located_ok user unsigned_too r.
Proof.
  unfold located, bind, ask. destruct (reply K _ _) as [[answer|] c]; cbn.
  - destruct answer; try done. intros [= <- _]. split; cbn; [|by rewrite list_fmap_compose|by right|done].
    apply (claimed_answer_ok user), (verified_claimed_genuine l user).
  - destruct (dial K node _) as [[[]|] w1]; [|done]. apply signed_located_ok.
Qed.

(** ** Dates *)

Lemma presence_date_kept now (w : World C) a w' :
  writable w = true -> presence_time now w = (Ok a, w') -> a <= u64_max ->
  writable w' = true /\ read_u64 (presence_last w') = Some a.
Proof.
  unfold presence_time. intros Hw [= <- <-] Ha. rewrite Hw. split; [done|]. cbn [presence_last read_u64].
  rewrite trim_digits by apply decimal_digits. by apply parse_int_decimal.
Qed.

Lemma presence_date_bounded now w a w' :
  now <= u64_max -> presence_time (C := C) now w = (Ok a, w') -> a <= u64_max.
Proof.
  unfold presence_time, next_presence_time, sat_add. intros Hn [= <- _]. case_match; lia.
Qed.

(** Each presence a machine signs is dated after the one before, whatever its
    clock does, a clock back in 1970 included: except that a clock which is set,
    and an hour behind the date kept, is believed instead. *)
Lemma presence_dates_move_on now1 now2 (w : World C) a w1 b w2 :
  writable w = true -> now1 <= u64_max -> a < u64_max ->
  presence_time now1 w = (Ok a, w1) -> presence_time now2 w1 = (Ok b, w2) ->
  a < b \/ (CLOCK_FLOOR <= now2 /\ now2 + MAX_CLOCK_SKEW < a /\ b = now2).
Proof.
  intros Hw Hn Ha E1 E2. destruct (presence_date_kept _ _ _ _ Hw E1) as [Hw1 Hr]; [lia|].
  unfold presence_time in E2. injection E2 as <- _. rewrite Hr. change (default 0 (Some a)) with a.
  unfold next_presence_time. destruct ((CLOCK_FLOOR <=? now2) && _) eqn:E.
  - apply andb_true_iff in E as [E3 E4]. nbool. right. unfold sat_add in E4. lia.
  - left. unfold sat_add. lia.
Qed.

(** And one that is set is passed by an hour and a second at most. *)
Lemma presence_date_near now last : CLOCK_FLOOR <= now -> next_presence_time last now <= now + MAX_CLOCK_SKEW + 1.
Proof.
  intros Hn. unfold next_presence_time. destruct (_ && _) eqn:E; [lia|]. apply andb_false_iff in E as [E|E]; nbool; [lia|].
  unfold sat_add in *. lia.
Qed.

(** That second is one too many: a date kept exactly an hour ahead makes the next
    presence one that nobody takes. *)
Lemma presence_dated_too_late :
  let now := CLOCK_FLOOR in
  forall address keys,
    presence_verify (presence_sign (mkPresence (device_id keys) address (next_presence_time (now + MAX_CLOCK_SKEW) now)) keys) now
    = Err (FromTheFuture (now + MAX_CLOCK_SKEW + 1) now).
Proof. reflexivity. Qed.

End any_coordinator.

(** ** Announced to an honest coordinator, a machine is found *)

Section honest.
Context {PR : Primitives} {BC : BodyCodec} {PC : Postcard SignedClaim}.

(** The service of [Service], answering [caller] at a moment. *)
Definition honest (admission : Admission) (caller : DeviceId) (now_unix now : N) : Outside (Directory * EscrowLimiter) :=
  mkOutside _ (fun s => (true, s))
    (fun r s => let '(answer, s) := handle admission r caller now_unix now s in (Some answer, s)).

Lemma announce_reaches admission node now_unix now address w a w' :
  announce (honest admission (me node) now_unix now) node address now_unix w = (Ok a, w') ->
  exists signed, pr_device (sp_presence signed) = me node /\ pr_address (sp_presence signed) = address
    /\ Directory.announce signed now_unix (w_coord w).1 = (Ok tt, (w_coord w').1).
Proof.
  unfold announce, dial, sign_presence, presence_time, ask_now, ask, bind, ret. destruct (has_coordinator node); [|done].
  destruct w as [[d l] last others wr b]. cbn -[Directory.announce N.eqb device_sign me next_presence_time decimal]. rewrite N.eqb_refl.
  cbn -[Directory.announce device_sign me next_presence_time decimal].
  set (signed := presence_sign _ _). intros E. exists signed. split_and!; [done|done|].
  unfold answered in E. destruct (Directory.announce signed now_unix d) as [[[]|e] d']; cbn in E; [|done]. by injection E as _ <-.
Qed.

Lemma located_honest admission node caller now_unix now user unsigned_too w :
  dir_ok (w_coord w).1 ->
  exists w', located (honest admission caller now_unix now) node user unsigned_too w
    = (Ok (mkLocated (place ∘ cp_presence <$> claimed_peers_of (w_coord w).1 user now_unix) 0 true
             (cp_presence <$> claimed_peers_of (w_coord w).1 user now_unix) (claimed_peers_of (w_coord w).1 user now_unix)), w').
Proof.
  intros Hd. unfold located, bind, ask. destruct w as [[d l] last others wr b].
  cbn -[verified_claimed claimed_peers_of] in *. rewrite (honest_rows_check d user now_unix Hd). by eexists.
Qed.

Lemma length_omap_le {A B} (f : A -> option B) l : (length (omap f l) <= length l)%nat.
Proof. induction l as [|x l IH]; [done|]. cbn. destruct (f x); cbn; lia. Qed.

Lemma listed_is_found d user now claim seen row :
  dir_ok d -> claim ∈ live_claims_of d user -> listed_peer d now claim = Some (seen, row) -> row ∈ claimed_peers_of d user now.
Proof.
  intros Hd Hcl Hrow. unfold claimed_peers_of. apply (list_elem_of_fmap_2' snd _ (seen, row)); [|done].
  rewrite take_ge.
  - rewrite sort_by_perm. apply list_elem_of_omap. by exists claim.
  - rewrite sort_by_perm. etransitivity; [apply length_omap_le|]. unfold live_claims_of. destruct (is_suspended d user); [cbn; lia|].
    etransitivity; [apply (ok_bounded _ Hd)|]. unfold MAX_DEVICES_PER_ACCOUNT, MAX_PEERS_RETURNED. lia.
Qed.

(** ** What happens in between *)

(** The device is under a live claim of the account, which is not suspended, and
    the address it signed was heard at [seen]. *)
Record present (dev : DeviceId) (owner : UserId) (signed : SignedPresence) (seen : N) (d : Directory) : Prop := mkPresent {
  ps_claim : exists held, claims (ctb d) !! dev = Some held /\ cl_owner (sc_claim held) = owner /\ cl_revoked (sc_claim held) = false;
  ps_address : presences (ptb d) !! dev = Some signed;
  ps_seen : last_seen d dev = Some seen;
  ps_good : suspended (atb d) !! owner = None;
}.

(** An operation that does not end or change that: the device announces nothing
    else and is not withdrawn, its account is neither suspended, forgotten nor
    deleted, and no pass forgets addresses heard as lately as this one. *)
Definition leaves (dev : DeviceId) (owner : UserId) (seen : N) (o : DirOp) (d : Directory) : Prop :=
  match o with
  | OAnnounce signed _ => pr_device (sp_presence signed) <> dev
  | OClaim signed _ => cl_device (sc_claim signed) = dev -> cl_revoked (sc_claim signed) = false
  | OSuspend user _ => user <> owner
  | OForget username => forall a, Directory.accounts (atb d) !! username = Some a -> up_id (ac_user a) <> owner
  | ODelete signed _ => dl_user (sl_deletion signed) <> owner
  | OExpirePresence now older_than => now - seen <= older_than
  | _ => True
  end.

Fixpoint undisturbed (dev : DeviceId) (owner : UserId) (seen : N) (ops : list DirOp) (d : Directory) : Prop :=
  match ops with
  | [] => True
  | o :: ops => leaves dev owner seen o d /\ undisturbed dev owner seen ops (step o d)
  end.

Section between.
Context (dev : DeviceId) (owner : UserId) (signed : SignedPresence) (seen : N).

Lemma present_frame d d' :
  ctb d' = ctb d -> ptb d' = ptb d -> suspended (atb d') = suspended (atb d) ->
  present dev owner signed seen d -> present dev owner signed seen d'.
Proof. intros E1 E2 E3 [H1 H2 H3 H4]. split; [by rewrite E1|by rewrite E2|unfold last_seen; by rewrite E2|by rewrite E3]. Qed.

Lemma forget_present username d r d' :
  index_agrees (ctb d) -> forget_account username d = (r, d') ->
  (forall a, Directory.accounts (atb d) !! username = Some a -> up_id (ac_user a) <> owner) ->
  present dev owner signed seen d -> present dev owner signed seen d'.
Proof.
  intros Hix Hrun Hne Hp. apply forget_cases in Hrun as [[_ ->]|(a & Ha & Hrest)]; [done|].
  cbv zeta in Hrest. destruct Hrest as (Hat & Hcl & _ & Hpr & Hav & _). destruct Hp as [(held & Hh & Ho & Hr) Hadd Hseen Hgood].
  assert (Hkeep : ~ ((up_id (ac_user a), dev) ∈ claims_by_owner (ctb d) /\ withdrawn (ctb d) dev = false)).
  { intros [Hin _]. apply Hix in Hin as (s & Hs & Es). apply (Hne a Ha). congruence. }
  split.
  - exists held. by rewrite Hcl, decide_False.
  - by rewrite Hpr, decide_False.
  - unfold last_seen in *. by rewrite Hav, decide_False.
  - by rewrite Hat.
Qed.

Lemma claim_present new now d r d' :
  Directory.claim new now d = (r, d') -> (cl_device (sc_claim new) = dev -> cl_revoked (sc_claim new) = false) ->
  present dev owner signed seen d -> present dev owner signed seen d'.
Proof.
  intros Hrun Hnew Hp. apply claim_cases in Hrun as [->|(_ & _ & _ & _ & Hheld & ->)]; [done|].
  destruct Hp as [(held & Hh & Ho & Hr) Hadd Hseen Hgood]. split; [|done|done|done]. cbn.
  destruct (decide (cl_device (sc_claim new) = dev)) as [E|Hne].
  - exists new. rewrite E in Hheld. rewrite Hh in Hheld. destruct Hheld as [Hown _]. rewrite E, lookup_insert_eq.
    split_and!; [done|congruence|by apply Hnew].
  - exists held. by rewrite lookup_insert_ne.
Qed.

Lemma expire_present now older d :
  now - seen <= older -> present dev owner signed seen d -> present dev owner signed seen (expire_presence now older d).2.
Proof.
  intros Hle [H1 H2 H3 H4].
  assert (Hno : dev ∉ (filter (fun row => presence_silent d now older row.1 row.2 = true) (btree_iter (presences (ptb d)))).*1).
  { intros ([k p] & -> & Hin)%list_elem_of_fmap. apply list_elem_of_filter in Hin as [Hs Hin]. cbn [fst snd] in *.
    unfold presence_silent, last_seen in *. destruct (availability (ptb d) !! k) as [av|]; [|done]. injection H3 as <-.
    apply N.ltb_lt in Hs. unfold sat_sub in Hs. lia. }
  split; [done| | |done]; cbn; unfold last_seen; cbn; rewrite foldl_delete_device, decide_False; done.
Qed.

Lemma step_present o d :
  dir_ok d -> leaves dev owner seen o d -> present dev owner signed seen d -> present dev owner signed seen (step o d).
Proof.
  intros Hok Hl Hp. destruct o; cbn [step leaves] in *.
  - destruct (Directory.register_admitted _ _ _ _ _) as [r d'] eqn:Hrun.
    apply register_cases in Hrun as [(e & _ & ->)|(a1 & t & _ & _ & _ & _ & _ & _ & _ & _ & ->)]; [done|by apply (present_frame d)].
  - destruct (lodge_invitation _ _ _) as [r d'] eqn:Hrun.
    apply lodge_cases in Hrun as [(e & _ & ->)|(lo & _ & _ & _ & _ & _ & ->)]; [done|by apply (present_frame d)].
  - destruct (forget_account _ _) as [r d'] eqn:Hrun. eapply forget_present; [apply Hok|exact Hrun|exact Hl|done].
  - destruct (Directory.delete_account _ _ _) as [r d'] eqn:Hrun. apply delete_cases in Hrun as [(e & _ & ->)|(_ & _ & (a & Ha & En) & f & Hf)]; [done|].
    apply account_of_spec in Ha as (Hna & Hu & _); [|apply Hok].
    eapply forget_present; [|exact Hf| |by apply (present_frame d)].
    + apply Hok.
    + cbn. intros a' Ha'. rewrite <- En, Hna in Ha'. injection Ha' as <-. congruence.
  - unfold bind. pose proof (delete_checks_state signed0 now d) as Hst.
    destruct (delete_checks signed0 now d) as [[[]|e] d1]; simpl in *; subst; [by apply (present_frame d)|done].
  - unfold suspend, bind, gets, throw, modify, ret. destruct (bool_decide _); [done|]. cbn [snd].
    destruct Hp as [H1 H2 H3 H4]. destruct (negb _); split; try done. cbn. by rewrite lookup_insert_ne.
  - destruct Hp as [H1 H2 H3 H4]. split; try done. cbn. destruct (decide (user = owner)) as [->|]; [apply lookup_delete_eq|by rewrite lookup_delete_ne].
  - unfold set_escrow_enabled, bind, gets, throw, modify. destruct (account_of d user); [by apply (present_frame d)|done].
  - destruct (Directory.claim _ _ _) as [r d'] eqn:Hrun. by eapply claim_present.
  - destruct (Directory.announce _ _ _) as [r d'] eqn:Hrun.
    apply announce_cases in Hrun as [(e & _ & ->)|(h & _ & _ & _ & _ & _ & pm & tk & _ & ->)]; [done|].
    destruct Hp as [H1 H2 H3 H4]. split; [done| | |done]; unfold last_seen in *; cbn; by rewrite lookup_insert_ne.
  - unfold Directory.depart, bind, lift, gets, throw, modify. destruct (departure_verify _ _); [|done].
    destruct (claim_for d _) as [h|]; [|done]. destruct (cl_revoked _); [done|]. by destruct Hp.
  - by apply expire_present.
  - by apply (present_frame d).
  - by apply (present_frame d).
  - destruct Hp as [H1 H2 H3 H4]. split; try done. unfold last_seen in *. cbn. rewrite lookup_fmap.
    destruct (availability (ptb d) !! dev) as [av|]; [|done]. cbn in *. injection H3 as <-. f_equal.
    unfold tick_row. by destruct (_ <? _).
  - by apply (present_frame d).
  - by apply (present_frame d).
  - unfold put_escrow, throw, modify. destruct (_ <? _)%nat; [done|by apply (present_frame d)].
  - unfold count_escrow_attempt, bind, gets, modify, ret. destruct (count_attempt _ _ _ _ _ _). by apply (present_frame d).
  - change (open_directory (Some d)) with (rebuild_owner_index_if_missing d). unfold rebuild_owner_index_if_missing.
    destruct (_ =? _)%nat; [done|by destruct Hp].
Qed.

Lemma run_present ops d :
  dir_ok d -> undisturbed dev owner seen ops d -> present dev owner signed seen d -> present dev owner signed seen (run ops d).
Proof.
  revert d. induction ops as [|o ops IH]; intros d Hok Hu Hp; [done|]. destruct Hu as [Hl Hu].
  apply IH; [by apply step_ok|done|by apply step_present].
Qed.

End between.


End honest.
