(* ===== verification/Daemon.v ===== *)
(** * Daemon: a round's word with the coordinator

    Models the two functions of [crates/itsanas-cli/src/daemon.rs] through which a
    running node speaks to its coordinator: [publish], which publishes and reads
    when it is time to, and [forget_deleted], which frees what is kept for deleted
    accounts.  The coordinator is any [Outside].  Each use of [Contact] is one of
    the steps its theorems are about, so they hold of a daemon whatever its
    coordinator answers. *)

From S2P Require Import Prelude Version Ids Network Crypto Oplog Wire IndexState Files Ledger Store Vault VaultAccounts VaultChains.
From S2P Require Import Accounting Reach Claims Directory DirectoryOk Membership Service ClaimBook Contact ContactOk ContactRuns Coordinator.

Definition DELETED_EVERY : N := 6 * 3600.

Record Daemon (C : Type) := mkDaemon {
  dm_world : World C;
  dm_contact : Contact;
  dm_vault : Vault;
  deleted_checked : N;
  shutdown : bool;
}.
Arguments mkDaemon {C} _ _ _ _ _.
Arguments dm_world {C} _.
Arguments dm_contact {C} _.
Arguments dm_vault {C} _.
Arguments deleted_checked {C} _.
Arguments shutdown {C} _.

Section daemon.
Context {PR : Primitives} {BC : BodyCodec} {PC : Postcard SignedClaim} {C : Type} (K : Outside C) (node : Node).

Definition set_contact (c : Contact) (d : Daemon C) : Daemon C :=
  mkDaemon (dm_world d) c (dm_vault d) (deleted_checked d) (shutdown d).
Definition set_world (w : World C) (d : Daemon C) : Daemon C :=
  mkDaemon w (dm_contact d) (dm_vault d) (deleted_checked d) (shutdown d).

(** A deleted account: this one leaves and stops, another's data is freed. *)
Definition free_one (d : Daemon C) (who : UserId) : Daemon C :=
  if who =? owner node then mkDaemon (dm_world d) (dm_contact d) (dm_vault d) (deleted_checked d) true
  else mkDaemon (dm_world d) (dm_contact d) (forget_owner who (dm_vault d)).2 (deleted_checked d) (shutdown d).

Definition forget_deleted (now : N) (d : Daemon C) : Daemon C :=
  if now - deleted_checked d <? DELETED_EVERY then d
  else
    let kept := owners (dm_vault d) in
    let kept := if bool_decide (owner node ∈ kept) then kept else kept ++ [owner node] in
    let '(deleted, w) := deleted_among K node kept (dm_world d) in
    let d := mkDaemon w (dm_contact d) (dm_vault d) now (shutdown d) in
    match deleted with
    | Ok deleted => foldl free_one d deleted
    | Err _ => d
    end.

(** [here] is what [address_now] says and [address] what is published; the
    instants are those at which [due], [asked] and the rest are called. *)
Definition publish (here : option string) (address : string) (now_unix t_due t_asked t_done : N) (d : Daemon C)
  : option string * Daemon C :=
  if negb (has_coordinator node) || shutdown d then (None, d)
  else
    let due := due here t_due (dm_contact d) in
    if negb (any due) then (None, d)
    else
      let d := set_contact (asked due t_asked (dm_contact d)) d in
      match contact K node address now_unix due (dm_world d) with
      | (Err _, w) => (None, set_world w d)
      | (Ok contacted, w) =>
          let d := forget_deleted now_unix (set_world w d) in
          let c := dm_contact d in
          let c := match ct_published contacted with Some _ => published here t_done c | None => c end in
          let c := match ct_found contacted with
                   | Some found =>
                       let c := read found (ct_presences contacted) (ct_claimed contacted) t_done c in
                       if ct_signed contacted then signed c else c
                   | None => c
                   end in
          (ct_published contacted, set_contact c d)
      end.

(** ** What a contact brings back is checked *)

Lemma free_all_contact l d : dm_contact (foldl free_one d l) = dm_contact d.
Proof. revert d. induction l as [|u l IH]; intros d; [done|]. cbn [foldl]. rewrite IH. unfold free_one. by destruct (u =? _). Qed.

Lemma forget_deleted_contact now d : dm_contact (forget_deleted now d) = dm_contact d.
Proof.
  unfold forget_deleted. destruct (_ <? _); [done|]. destruct (deleted_among _ _ _ _) as [[deleted|] w]; [|done].
  by rewrite free_all_contact.
Qed.

Lemma contact_checked address now due w ct w' found :
  contact K node address now due w = (Ok ct, w') -> ct_found ct = Some found ->
  exists read, located_ok (owner node) (accept_unsigned due) read
    /\ found = reachable_first (filter (fun p => p.1 <> me node) (lo_found read))
    /\ ct_presences ct = lo_presences read /\ ct_claimed ct = lo_claimed read /\ ct_signed ct = lo_signed read.
Proof.
  unfold contact, bind. destruct (dial K node w) as [[[]|] w1]; [|done]. destruct (publish_part K node address now due w1) as [[pub|] w2]; [|done].
  assert (Hr : forall ct0 w3, read_part K node due pub w2 = (Ok ct0, w3) -> ct_found ct0 = Some found ->
    exists read, located_ok (owner node) (accept_unsigned due) read
    /\ found = reachable_first (filter (fun p => p.1 <> me node) (lo_found read))
    /\ ct_presences ct0 = lo_presences read /\ ct_claimed ct0 = lo_claimed read /\ ct_signed ct0 = lo_signed read).
  { intros ct0 w3. unfold read_part. destruct (negb _); [by intros [= <- _]|].
    destruct (located K node (owner node) (accept_unsigned due) w2) as [[read|e] w4] eqn:El.
    - intros [= <- _] [= <-]. exists read. split; [by eapply located_checked|done].
    - destruct pub; [by intros [= <- _]|done]. }
  destruct (read_part K node due pub w2) as [[ct0|e] w3]; [|done]. specialize (Hr ct0 w3 eq_refl).
  unfold pledges_part. destruct (negb _); [by intros [= <- _]|].
  destruct (ask K _ _) as [[[[]|]|] w4]; try by intros [= <- _].
  destruct (remember_pledges _ _ _) as [[]]; by intros [= <- _].
Qed.


(** Whatever its coordinator answers, and however it hangs up, all that a
    daemon's word with it does to what the node knows of its machines are steps of
    [ContactRuns]: what it reads has been checked, so every theorem about runs of
    the address book holds with any coordinator, and a read that a silence asked
    for is counted once. *)
Lemma publishing_is_a_run {CC : ContactCodec} here address now_unix t t_due t_asked t_done d a d' :
  t <= t_due -> t_due <= t_asked -> t_asked <= t_done ->
  publish here address now_unix t_due t_asked t_done d = (a, d') ->
  exists t' n, t' <= t_done /\ n <= 1 /\ contact_run (owner node) (me node) t (dm_contact d) t' (dm_contact d') n.
Proof.
  intros H1 H2 H3. unfold publish. destruct (_ || _); [intros [= _ <-]; exists t, 0; split_and!; [lia|lia|apply cr_start]|].
  destruct (any (due here t_due (dm_contact d))) eqn:Hany; cbn [negb]; [|intros [= _ <-]; exists t, 0; split_and!; [lia|lia|apply cr_start]].
  set (c1 := asked (due here t_due (dm_contact d)) t_asked (dm_contact d)).
  pose proof (cr_step (owner node) (me node) _ _ _ _ _ _ _ _ (cr_start _ _ t _) (cs_asked _ _ t (dm_contact d) here t_due t_asked H1 H2 Hany)) as R1.
  fold c1 in R1. set (n := (0 + _)) in R1. assert (Hn : n <= 1) by (unfold n; case_match; lia).
  destruct (contact K node address now_unix _ _) as [[ct|e] w] eqn:Ec; [|intros [= _ <-]; exists t_asked, n; by split_and!].
  intros [= _ <-]. cbn [dm_contact set_contact]. rewrite forget_deleted_contact. cbn [dm_contact set_world set_contact]. fold c1.
  set (c2 := match ct_published ct with Some _ => _ | None => c1 end).
  assert (R2 : contact_run (owner node) (me node) t (dm_contact d) t_done c2 n \/ c2 = c1).
  { unfold c2. destruct (ct_published ct); [left|by right]. rewrite <- (N.add_0_r n). eapply cr_step; [exact R1|]. by apply cs_published. }
  assert (Ht : exists t2, t2 <= t_done /\ contact_run (owner node) (me node) t (dm_contact d) t2 c2 n).
  { destruct R2 as [R2|R2]; [by exists t_done|]. rewrite R2. by exists t_asked. }
  clear R2. destruct Ht as (t2 & Ht2 & R2). destruct (ct_found ct) as [found|] eqn:Ef; [|exists t2, n; by split_and!].
  destruct (contact_checked _ _ _ _ _ _ _ Ec Ef) as (rd & [Ha _ _ _] & _ & Ep & Ecl & _). rewrite <- Ep, <- Ecl in Ha.
  assert (R3 : contact_run (owner node) (me node) t (dm_contact d) t_done (read found (ct_presences ct) (ct_claimed ct) t_done c2) (n + 0)).
  { eapply cr_step; [exact R2|]. by apply cs_read. }
  exists t_done. destruct (ct_signed ct).
  - exists (n + 0 + 0). split_and!; [done|lia|]. eapply cr_step; [exact R3|]. by apply cs_signed.
  - exists (n + 0). split_and!; [done|lia|exact R3].
Qed.

(** ** A coordinator that signed once *)

(** An address is an old one, or has its device's signature. *)
Definition vouched (b b' : gmap DeviceId (list Candidate)) : Prop :=
  forall x l' k', b' !! x = Some l' -> k' ∈ l' ->
    (exists l k, b !! x = Some l /\ k ∈ l /\ ca_address k = ca_address k') \/ is_Some (ca_presence k').

#[local] Instance vouched_refl : Reflexive vouched.
Proof. intros b x l k Hl Hk. left. eauto. Qed.

Lemma insert_vouched b x address p cl c :
  vouched b (book c) -> vouched b (book (insert x address (Some p) cl None c)).
Proof.
  intros Hv y l' k'. rewrite insert_book. destruct (_ && _); [apply Hv|].
  destruct (decide (y = x)) as [->|Hne]; [|rewrite lookup_insert_ne by done; apply Hv].
  rewrite lookup_insert_eq. intros [= <-] Hk.
  assert (Hold : forall k, k ∈ default [] (book c !! x) ->
    (exists l k0, b !! x = Some l /\ k0 ∈ l /\ ca_address k0 = ca_address k) \/ is_Some (ca_presence k)).
  { intros k Hk0. destruct (book c !! x) as [held|] eqn:Hh; [|by apply elem_of_nil in Hk0]. by eapply Hv. }
  destruct (candidate_at address _).
  - destruct (elem_of_update_at _ _ _ _ Hk) as [Hk0|(k0 & Hk0 & _ & ->)]; [by apply Hold|].
    destruct (refresh_spec (Some p) cl k0) as (E1 & _ & _ & E4 & _). rewrite E1.
    destruct (Hold k0 Hk0) as [|Hs]; [by left|]. right. destruct E4 as [->|[_ ->]]; eauto.
  - apply elem_of_bound, elem_of_app in Hk as [Hk| ->%list_elem_of_singleton]; [by apply Hold|]. right. cbn. eauto.
Qed.

Lemma elem_of_reachable_first p l : p ∈ reachable_first l <-> p ∈ l.
Proof. unfold reachable_first. by rewrite sort_by_perm. Qed.

Lemma presence_for_place p l : p ∈ place <$> l -> is_Some (presence_for p.1 p.2 l).
Proof.
  intros Hp. apply list_elem_of_fmap in Hp as (s & -> & Hs). unfold presence_for.
  destruct (list_find _ l) as [[i x]|] eqn:E; [by eexists|]. apply list_find_None in E.
  rewrite Forall_forall in E. by destruct (E s Hs).
Qed.

Lemma read_vouched found presences claimed now c :
  Forall (fun p => is_Some (presence_for p.1 p.2 presences)) found ->
  vouched (book c) (book (read found presences claimed now c)).
Proof.
  intros Hf. unfold read. set (c1 := keep_listed _ _). assert (H1 : vouched (book c) (book c1)).
  { intros x l k Hl Hk. left. exists l, k. split; [|done]. unfold c1, keep_listed in Hl.
    assert (E : book (if is_news found (set_read (Some now) false c) then fall_back now (set_read (Some now) false c)
      else set_read (Some now) false c) = book c) by (destruct (is_news _ _); [rewrite fall_back_book|]; by destruct c).
    destruct (if is_news _ _ then _ else _). cbn in Hl, E. rewrite E in Hl. by apply map_lookup_filter_Some in Hl as [Hl _]. }
  clearbody c1. generalize dependent c1. induction Hf as [|p found [s Hp] _ IH]; intros c1 H1; [done|]. cbn [foldl]. apply IH.
  unfold read_one. rewrite Hp. by apply insert_vouched.
Qed.

Lemma due_accepts here t c : signs c = true -> accept_unsigned (due here t c) = false.
Proof. intros E. unfold due. cbn. by rewrite E. Qed.

Lemma read_signs found presences claimed now c : signs (read found presences claimed now c) = signs c.
Proof.
  unfold read. set (c1 := keep_listed _ _). assert (E : signs c1 = signs c).
  { unfold c1, keep_listed, fall_back. destruct c as [? ? ? ? ? w ? ? ? ? ? ? ?]. destruct (is_news _ _); [|done]. cbn.
    destruct w; [|done]. by case_match. }
  rewrite <- E. clearbody c1. clear E. revert c1. induction found as [|p l IH]; intros c1; [done|]. cbn [foldl]. rewrite IH.
  unfold read_one. assert (Et := insert_timers p.1 p.2 (presence_for p.1 p.2 presences) (claim_with (presence_for p.1 p.2 presences) claimed) None c1).
  unfold timers in Et. by injection Et.
Qed.

(** C21. A coordinator that has once signed its list cannot go back: from then on,
    whatever it answers and whenever it hangs up, an address it brings into the
    book is one its device signed, for that device at that address; and it is held
    to that for good. *)
Theorem signed_once_signed_for_good {CC : ContactCodec} disk t0 t n here address now_unix t_due t_asked t_done d a d' :
  contact_run (owner node) (me node) t0 (load disk (owner node)).1 t (dm_contact d) n ->
  t <= t_due -> t_due <= t_asked -> t_asked <= t_done ->
  signs (dm_contact d) = true ->
  publish here address now_unix t_due t_asked t_done d = (a, d') ->
  signs (dm_contact d') = true
  /\ forall x l' k', book (dm_contact d') !! x = Some l' -> k' ∈ l' ->
       (exists l k, book (dm_contact d) !! x = Some l /\ k ∈ l /\ ca_address k = ca_address k')
       \/ exists p, ca_presence k' = Some p /\ presence_ok x (ca_address k') p.
Proof.
  intros Hr H1 H2 H3 Hs E.
  destruct (publishing_is_a_run _ _ _ _ _ _ _ _ _ _ H1 H2 H3 E) as (t' & m & _ & _ & Hr').
  pose proof (run_book_ok _ _ _ _ _ _ _ Hr' (run_book_ok _ _ _ _ _ _ _ Hr (load_ok (owner node) disk))) as [_ Hbook].
  assert (Hv : signs (dm_contact d') = true /\ vouched (book (dm_contact d)) (book (dm_contact d'))).
  { clear Hr Hr' Hbook. unfold publish in E. destruct (_ || _); [by injection E as _ <-|].
    destruct (negb _); [by injection E as _ <-|].
    set (c1 := asked _ _ _) in E. assert (B1 : book c1 = book (dm_contact d)) by apply asked_book.
    assert (S1 : signs c1 = true) by (unfold c1, asked; destruct (du_read _); [by destruct (dm_contact d)|done]).
    destruct (contact K node address now_unix _ _) as [[ct|e] w] eqn:Ec; [|injection E as _ <-; cbn; by rewrite B1].
    injection E as _ <-. cbn [dm_contact set_contact]. rewrite forget_deleted_contact. cbn [dm_contact set_world set_contact]. fold c1.
    set (c2 := match ct_published ct with Some _ => _ | None => c1 end).
    assert (B2 : book c2 = book (dm_contact d)) by (rewrite <- B1; unfold c2; destruct (ct_published ct); by destruct c1).
    assert (S2 : signs c2 = true) by (unfold c2; destruct (ct_published ct); by destruct c1).
    destruct (ct_found ct) as [found|] eqn:Ef; [|by rewrite B2].
    destruct (contact_checked _ _ _ _ _ _ _ Ec Ef) as (rd & [_ Hfound _ Huns] & Efound & Ep & _ & Esg).
    rewrite due_accepts in Huns by done. assert (Sg : lo_signed rd = true) by (destruct (lo_signed rd); [done|by destruct Huns]).
    rewrite Esg, Sg.
    assert (Hv : vouched (book (dm_contact d)) (book (read found (ct_presences ct) (ct_claimed ct) t_done c2))).
    { rewrite <- B2. apply read_vouched. apply Forall_forall. intros p Hp. rewrite Ep. apply presence_for_place.
      rewrite <- (Hfound Sg). rewrite Efound in Hp. apply elem_of_reachable_first, list_elem_of_filter in Hp. tauto. }
    split; [by destruct (read _ _ _ _ _)|]. by destruct (read _ _ _ _ _). }
  destruct Hv as [Hsig Hv]. split; [done|]. intros x l' k' Hl Hk. destruct (Hv _ _ _ Hl Hk) as [|[p Hp]]; [by left|]. right.
  exists p. split; [done|]. pose proof (lo_cands _ _ _ (Hbook _ _ Hl)) as Hc. rewrite Forall_forall in Hc.
  destruct (co_proofs _ _ _ (Hc _ Hk)) as [Hpo _]. by rewrite Hp in Hpo.
Qed.

(** ** Deleted accounts *)

(** Everything the vault serves for an account: its chunks and its log. *)
Definition same_for (o : UserId) (v v' : Vault) : Prop :=
  disk v' !! o = disk v !! o
  /\ (forall dev n, segs (chains v') !! (o, dev, n) = segs (chains v) !! (o, dev, n))
  /\ forall dev, heads (chains v') !! (o, dev) = heads (chains v) !! (o, dev).

#[local] Instance same_for_pre o : PreOrder (same_for o).
Proof. split; [by intros v|]. intros v1 v2 v3 (A1 & B1 & C1) (A2 & B2 & C2). split_and!; [congruence|..]; intros; etransitivity; eauto. Qed.

Lemma remove_chunks_disk o o' cs n v : o' <> o -> disk (remove_chunks o cs n v).2 !! o' = disk v !! o'.
Proof.
  intros Hne. revert n v. induction cs as [|c cs IH]; intros n v; cbn [remove_chunks]; [done|]. unfold bind. rewrite remove_chunk_eq.
  destruct (plugged v); [|done]. rewrite IH. cbn. by rewrite lookup_insert_ne.
Qed.

Lemma forget_owner_same o o' v : o' <> o -> same_for o' v (forget_owner o v).2.
Proof.
  intros Hne. unfold forget_owner, bind, gets. pose proof (remove_chunks_chains o (chunks_for o v) 0 v) as Ec.
  pose proof (remove_chunks_disk o o' (chunks_for o v) 0 v Hne) as Ed.
  destruct (remove_chunks o _ 0 v) as [[removed|e] v1]; cbn [snd] in *; [|by split_and!; [|rewrite Ec..]].
  unfold modify, ret, same_for, forget_tables. cbn [snd disk chains set_disk set_chains set_mt segs heads]. rewrite Ec. split_and!.
  - by rewrite lookup_delete_ne.
  - intros dev n. apply option_eq. intros x. rewrite map_lookup_filter_Some. cbn. tauto.
  - intros dev. apply option_eq. intros x. unfold forget_prefix. rewrite map_lookup_filter_Some. cbn. tauto.
Qed.

Lemma free_all_same o l d : o ∉ l ->
  same_for o (dm_vault d) (dm_vault (foldl free_one d l)) /\ (o = owner node -> shutdown (foldl free_one d l) = shutdown d).
Proof.
  revert d. induction l as [|u l IH]; intros d Ho; [done|]. apply not_elem_of_cons in Ho as [Hu Ho]. cbn [foldl].
  destruct (IH (free_one d u) Ho) as [IHv IHs]. unfold free_one in *. destruct (N.eqb_spec u (owner node)) as [->|Hne]; cbn in *.
  - split; [done|]. by intros ->.
  - split; [|done]. etransitivity; [by apply forget_owner_same|]. exact IHv.
Qed.

(** What a coordinator in state [c] answers to the questions of one [deleted_go]:
    each batch asked about, and the deletions it served for it. *)
Fixpoint served (fuel : nat) (users : list UserId) (c : C) : list (list UserId * list SignedDeletion) :=
  match fuel, users with
  | S fuel, _ :: _ =>
      let batch := take MAX_DELETED_ASKED users in
      match reply K (DeletedAmong batch) c with
      | (Some (DeletedList found), c) => (batch, found) :: served fuel (drop MAX_DELETED_ASKED users) c
      | _ => []
      end
  | _, _ => []
  end.

Lemma deleted_go_served fuel users out w :
  exists w', deleted_go K fuel users out w
    = (Ok (out ++ mjoin ((fun a => accepted_deletions a.1 a.2) <$> served fuel users (w_coord w))), w').
Proof.
  revert users out w. induction fuel as [|fuel IH]; intros users out w; cbn [deleted_go served]; [exists w; by rewrite app_nil_r|].
  destruct users as [|u0 users]; [exists w; by rewrite app_nil_r|]. unfold bind, ask. destruct (reply K _ _) as [answer c].
  destruct answer as [[]|]; try (eexists; by rewrite app_nil_r).
  destruct (IH (drop MAX_DELETED_ASKED (u0 :: users)) (out ++ accepted_deletions (take MAX_DELETED_ASKED (u0 :: users)) l) (set_coord c w)) as [w' E].
  exists w'. etransitivity; [exact E|]. change (w_coord (set_coord c w)) with c. by rewrite fmap_cons, <- app_assoc.
Qed.

Lemma served_asked fuel users c batch found : (batch, found) ∈ served fuel users c -> batch ⊆ users.
Proof.
  revert users c. induction fuel as [|fuel IH]; intros users c; cbn [served]; [by intros ?%elem_of_nil|].
  destruct users as [|u0 users]; [by intros ?%elem_of_nil|]. destruct (reply K _ _) as [[[]|] c1]; try by intros ?%elem_of_nil.
  intros [E|Hin]%elem_of_cons; [apply (f_equal fst) in E; change (batch = take MAX_DELETED_ASKED (u0 :: users)) in E; rewrite E; apply subseteq_take|].
  etransitivity; [by eapply IH|apply subseteq_drop].
Qed.

(** The accounts a host asks about: those it keeps something for, and its own. *)
Definition asked_about (d : Daemon C) : list UserId :=
  let kept := owners (dm_vault d) in if bool_decide (owner node ∈ kept) then kept else kept ++ [owner node].

(** C22. No coordinator can make a host drop an account, or a machine leave its
    own, that did not ask to be deleted: whatever is answered, either everything
    kept for an account is as it was, and the machine of that account goes on, or
    it is one the host asked about in this very round, and among the deletions
    the coordinator served in answer to that question is one of that account,
    signed with the account's own key. *)
Theorem deletion_needs_the_accounts_word now d o :
  (same_for o (dm_vault d) (dm_vault (forget_deleted now d))
   /\ (o = owner node -> shutdown (forget_deleted now d) = shutdown d))
  \/ exists batch found s,
       (batch, found) ∈ served (length (asked_about d)) (asked_about d) (connect K (w_coord (dm_world d))).2
       /\ o ∈ batch /\ batch ⊆ owner node :: owners (dm_vault d)
       /\ s ∈ found /\ dl_user (sl_deletion s) = o /\ is_ok (deletion_verify_origin s) = true.
Proof.
  unfold forget_deleted. destruct (_ <? _); [by left|]. fold (asked_about d).
  destruct (deleted_among K node (asked_about d) (dm_world d)) as [[deleted|e] w] eqn:E; [|by left].
  destruct (decide (o ∈ deleted)) as [Ho|Ho]; [|left; by apply (free_all_same o deleted (mkDaemon _ _ _ _ _))].
  right. unfold deleted_among, bind, dial in E. destruct (negb _); [done|].
  destruct (connect K (w_coord (dm_world d))) as [[] c]; [|done].
  destruct (deleted_go_served (length (asked_about d)) (asked_about d) [] (set_coord c (dm_world d))) as [w' E'].
  rewrite E' in E. injection E as <- _. apply list_elem_of_join in Ho as (l & Ho & Hl).
  apply list_elem_of_fmap in Hl as ([batch found] & -> & Hl). apply elem_of_accepted in Ho as (Hin & s & Hs & Es & Hv).
  exists batch, found, s. cbn [snd]. split_and!; [exact Hl|done| |done|done|done].
  apply served_asked in Hl. etransitivity; [exact Hl|]. unfold asked_about. destruct (bool_decide _); [set_solver|].
  intros x [Hx| ->%list_elem_of_singleton]%elem_of_app; [by right|by left].
Qed.

End daemon.

(** ** Alice's laptop announces itself *)

Module Announcing.
Import Toy Town.

Definition laptop_node : Node := mkNode alice laptop "alice" (public alice) 1000 true true.
Definition door : string := "203.0.113.7:9797".
Definition desk_town : World (Directory * EscrowLimiter) := mkWorld (town, limiter_new) None None true book_new.
Definition outcome := announce (honest Open (me laptop_node) 200 200) laptop_node door 200 desk_town.
(** Bob registers, Alice renews her claim, a pass looks for old addresses, the
    coordinator ticks and restarts. *)
Definition meanwhile : list DirOp :=
  [ORegister (registration "bob" bob) None Open 210; OClaim (enrolment 220 false) 220;
   OExpirePresence 250 PRESENCE_KEPT_FOR; OTick 260; OOpen].
Definition later : World (Directory * EscrowLimiter) :=
  mkWorld (run meanwhile (w_coord outcome.2).1, limiter_new) None None true book_new.

End Announcing.

Import Announcing.
#[local] Existing Instance Toy.primitives.


(** ** A coordinator that hangs up on the claims *)

Module Hanging.
Import Toy TwoMachines.

Definition laptop_here : Node := mkNode account (mkDeviceKeys [1]) "nicolas" (mkUserPublic (user_id account) []) 0 true true.
Definition moved : string := "203.0.113.9:9797".
Definition nas_moved : SignedPresence := presence_sign (mkPresence nas moved 200) nas_keys.
(** A presence nobody signed, beside the genuine one. *)
Definition made_up : SignedPresence := mkSignedPresence (mkPresence 12345 "198.51.100.1:9797" 200) [].

Definition hangs_up : Outside unit :=
  mkOutside unit (fun s => (true, s))
    (fun r s => (match r with
                 | Announce _ => Some Done
                 | SignedPeers _ => Some (SignedPeerList [made_up; nas_moved])
                 | _ => None
                 end, s)).

Definition c7 : Contact := signed c6.
Definition before : Daemon unit := mkDaemon (mkWorld tt None None true book_new) c7 fresh_vault 0 false.
Definition after : Daemon unit := (publish hangs_up laptop_here None moved 5000 5000 5000 5000 before).2.

Lemma history_signed : contact_run (owner laptop_here) (me laptop_here) 1000 (load NotFound (owner laptop_here)).1 1200 c7 (1 + 0).
Proof. eapply cr_step; [exact history|]. by apply cs_signed. Qed.

End Hanging.

Import Hanging.

Lemma signed_once_signed_for_good_witness :
  book (dm_contact after) !! 12345 = None
  /\ exists l k p, book (dm_contact after) !! TwoMachines.nas = Some l /\ k ∈ l /\ ca_address k = moved
       /\ ca_presence k = Some p /\ presence_ok TwoMachines.nas moved p.
Proof.
  split; [vm_compute; reflexivity|].
  set (k := mkCand moved None (Some nas_moved) None false).
  assert (El : exists l, book (dm_contact after) !! TwoMachines.nas = Some l /\ k ∈ l).
  { assert (E : (book (dm_contact after) !! TwoMachines.nas) ≫= last = Some k) by (vm_compute; reflexivity).
    destruct (book (dm_contact after) !! TwoMachines.nas) as [l|]; [|discriminate E]. exists l. split; [done|]. by apply last_Some_elem_of. }
  destruct El as (l & El & Hk).
  destruct (signed_once_signed_for_good hangs_up laptop_here NotFound 1000 1200 (1 + 0) None moved 5000 5000 5000 5000 before
    (publish hangs_up laptop_here None moved 5000 5000 5000 5000 before).1 after history_signed) as [_ Hv].
  - by vm_compute.
  - done.
  - done.
  - vm_compute. reflexivity.
  - unfold after. by destruct (publish _ _ _ _ _ _ _ _ _).
  - destruct (Hv _ _ _ El Hk) as [(l0 & k0 & E0 & Hk0 & Ea)|(p & Ep & Hp)].
    + exfalso. assert (En : existsb (fun x => bool_decide (ca_address x = moved)) (default [] (book (dm_contact before) !! TwoMachines.nas)) = false)
        by (vm_compute; reflexivity).
      rewrite E0 in En. apply Bool.not_true_iff_false in En. apply En. apply existsb_exists. exists k0. split; [by apply list_elem_of_In|].
      by apply bool_decide_eq_true.
    + exists l, k, p. by split_and!.
Defined.
